(* ===== verification/_CoqProject ===== *)
-Q . S2P
Prelude.v
Permissions.v
StateManager.v
StateInvariant.v
StateSpec.v
StateTree.v
LoginLimiter.v
LoginSafety.v
PermLoader.v
PermCache.v
PermCheck.v
ChannelManager.v
ChannelTree.v
ChannelSettled.v
ChannelSafety.v
ChannelProps.v
GoChan.v
EventBus.v
Broadcast.v
Wire.v
QueryText.v
Router.v
RouterSafety.v
RouterMesh.v
RouterProps.v
MediaLoops.v
Renegotiation.v
GoState.v
Base64.v
ChatKeys.v
ChatKeysSafety.v
ChatText.v
GoStrings.v
FileNames.v
Passwords.v
ServerWorld.v
ChatScope.v
ClientMoves.v
ChatScopeSafety.v
ChatScopeProps.v
ChatStore.v
ChatRelay.v
ChatHandlers.v
AuthService.v
FileStore.v
FileWorld.v
FileTransfer.v
FileHandlers.v
FileThreads.v
FileDisc.v
FileSafety.v
FileBytes.v
FileUploads.v
FileRequests.v
FileRun.v
FileProps.v
FileTokens.v
ChatStoreProps.v
ChatSafety.v
ChatProps.v
ChatSendProps.v
AuthFlow.v
AuthSafety.v
AuthRun.v
AuthProps.v
AuthLockout.v
GroupStore.v
GroupAdmin.v
GroupSafety.v
GroupCap.v
GroupProps.v
Images.v
Assets.v
GroupIcons.v
AssetLogic.v
GroupIconSafety.v
GroupIconOthers.v
GroupIconProps.v
Ratchet.v
RatchetProps.v
