(* ===== verification/Prelude.v ===== *)
(** * noXa: a verification of the voice server's core

    noXa is a voice and chat server written in Go. Clients hold a framed TCP
    control connection, join the channels of a tree, and are gated by a tiered
    permission system; bots follow the server through an event bus, operators
    through a text query protocol. This library models the parts that decide who
    may do what, where everybody is, and what is delivered to whom, and proves
    the properties those parts are relied on for. File and function names below
    are those of the repository under [src/internal].

    ** Parts, files and how they correspond to the code

    - [Prelude] (this file): results of fallible functions ([result], [let?]),
      machine integers ([wrap_u], [wrap_s]), [time.Time] as nanoseconds, the
      order of [for range] over a map as a class ([MapRange]) so that theorems
      hold for every order, families of sets (the Go [map\[K\]map\[A\]bool]),
      sorting, the [noxa] hint database and the case-analysis tactics.
    - [Permissions]: [permissions/types.go], [tiers.go], [merge.go],
      [resolver.go], [conflicts.go].
    - [PermLoader]: the queries of [permissions/loader.go] as a program over the
      tables, one [Query] constructor per statement; [PermCache]: its
      generation-checked cache as a step relation in which queries, table writes
      and invalidations interleave.
    - [PermCheck]: the middleware of [server/perms.go] (and [guestGroupSet] of
      [server/groups.go]) over the interface [PermSource].
    - [StateManager]: [state/types.go] and [state/manager.go], one function per
      method; [StateInvariant]: its invariant [wf]; [StateSpec]: the abstract
      world it implements; [StateTree]: the tree walks of [state/types.go].
    - [LoginLimiter]: [auth/limiter.go]; [LoginSafety]: its invariant and the
      security theorems.
    - [ChannelManager]: [channels/types.go] and [channels/manager.go] in a monad
      over the manager's record; the database is a row map together with an
      oracle that decides, call by call, whether a statement fails and whether a
      commit whose answer is lost took effect. [ChannelTree]: the subtree search;
      [ChannelSettled], [ChannelSafety]: the invariant and what each operation
      preserves; [ChannelProps]: the step relation and the theorems.
    - [GoChan]: buffered Go channels; [EventBus]: [eventbus/bus.go], subscriptions
      in a heap because bus and consumer share them, and every interleaving of its
      critical sections.
    - [Broadcast]: [broadcast/snapshot.go] over the state manager and
      [broadcast/broadcaster.go], with their theorems.
    - [Wire]: [netproto/frame.go], [netproto/udp.go], [safecast/safecast.go].
    - [QueryText]: [query/protocol.go], [parseCommand] of [query/commands.go],
      [readQueryLine] of [query/server.go].
    - [Router]: [webrtc/router.go] (and [ChannelAudio] of [webrtc/opus.go]), one
      function per critical section; a track of the WebRTC library is its label
      and owner, creating one and writing to one may fail. [RouterSafety] and
      [RouterMesh]: what the routing tables satisfy in every reachable state;
      [RouterProps]: the theorems on who hears whom. [MediaLoops]: the read loops
      and the voice activity detector. [Renegotiation]: the debounced offers of
      [webrtc/voice.go] as threads of critical sections.
    - [GoState]: the state-and-error monad of the server programs and the logic of
      what they preserve; [Base64]: [encoding/base64] as the server uses it.
    - [ChatKeys]: [server/chatkeys.go], [store/chatkeys.go] and the key ring of
      [chatcrypto/chatcrypto.go] over an abstract AEAD ([CryptoLaws]), sealed box
      and random source; [ChatKeysSafety]: its invariant and theorems.
    - [ServerWorld]: the server record (connections, channel manager, key manager,
      rate limiter) and the log of what it writes and broadcasts; [ChatScope]:
      [server/subscriptions.go] and [server/e2e.go]; [ClientMoves]: joins, moves,
      kicks, bans and disconnects of [server/handlers.go], [admin.go] and
      [tcp.go]; [ChatScopeSafety], [ChatScopeProps]: their theorems.
    - [ChatText]: the strings, regular expressions and filters of
      [server/chatx.go]; [ChatStore]: [store/chat.go] and the spool of
      [store/store.go]; [ChatRelay]: sending, direct messages, filters and
      trackers of [server/chatx.go] and [server/handlers.go]; [ChatHandlers]:
      history, pins, edits, deletes, reactions, typing and receipts, and the
      sealed server settings.
      [ChatStoreProps], [ChatSafety], [ChatProps] and [ChatSendProps]: the store,
      the invariant of the whole relay, the limiters and the theorems.
    - [Passwords]: [auth/password.go] over an abstract Argon2; [AuthService]: the
      accounts, identities and bans of [auth/service.go] and [identity.go].
      [AuthFlow]: accepting connections, the login paths, the rules gate
      ([rules/rules.go]) and the dispatch of frames of [server/handlers.go] and
      [tcp.go]; [AuthSafety], [AuthRun], [AuthProps]: what logins guarantee in
      every history of the server; [AuthLockout]: the limiter in front of them.
    - [GroupStore]: [store/groups.go], [guest_groups.go], [tokens.go] and
      [admins.go], operations on the loader's tables and the rows around them;
      [GroupAdmin]: the handlers of [server/groups.go], of the tokens of
      [server/extras.go] and [server/admins.go]. [GroupSafety]: where a resolved
      grant comes from and which operations leave the entries alone; [GroupCap]:
      every handler under the grant cap; [GroupProps]: the theorems.
    - [Images]: the container checks of [server/assets.go] for PNG, GIF and WebP,
      with the grammars they decide. [Assets]: the image files of
      [server/assets.go] over a directory whose updates reach the disk in order,
      with failures and process deaths by an oracle: names, validation, atomic
      writes, variants, snapshots, avatars, listings. [GroupIcons]: the journal and
      tombstone transactions that keep a group's icon and its row together.
      [AssetLogic]: a program logic for them; [GroupIconSafety],
      [GroupIconOthers]: the invariant of a transaction, its steps, other groups
      beside it, the recovery; [GroupIconProps]: atomicity across crashes.
    - [GoStrings]: the string and path functions of the standard library that the
      file code uses; [FileNames]: the names, paths, quotas and link tokens of
      [filetransfer/server.go], [links.go] and [ratelimit.go]; [FileStore]:
      [store/files.go]; [FileWorld]: files, tokens, tombstones, locks and
      connections with the atomic accesses to them; [FileTransfer]: the operations
      of [filetransfer] as programs of accesses; [FileHandlers]: the requests of
      [server/files.go] over them. [FileThreads]: requests, connections and
      cleanups interleaved, and the discipline of a thread; [FileDisc]: every
      operation keeps it; [FileSafety], [FileRun]: the invariant and its
      preservation; [FileProps]: deleted channels; [FileTokens]: where a transfer
      comes from; [FileBytes]: what a download sends; [FileUploads]: the abstract
      store of files with their versions, and the rules ([wp]) by which an upload
      is shown to refine it; [FileRequests]: what a request may change, and for
      whom.
    - [Ratchet]: [e2ee/crypto.go] and [e2ee/sender_keys.go] over abstract
      primitives ([PrimLaws]); [RatchetProps]: its theorems.

    ** How the parts interact

    The loader feeds the middleware through [PermSource]; the middleware asks the
    state manager for the caller's channel and the join power of a target. The
    channel manager writes the state manager and the database together and arms
    cleanup timers from the state. The snapshot and the broadcaster read the
    state manager; the event bus is the broadcaster's tap. The chat handlers run
    over one world: they ask the middleware and the state manager who may read a
    scope, the key manager for the scope's generations, and the chat store for
    rows; moves and disconnects go through the channel manager and rotate keys.
    The router follows joins and leaves and asks the renegotiation for offers. A
    frame of a connection goes through the dispatch gates of [AuthFlow] to a login
    handler or to a handler of the relay; a login asks the limiter, the accounts
    and the rules, and then enters the state manager, the broadcaster and the
    relay's keys. The administration handlers write the tables the loader reads:
    they ask the middleware for the caller's grants, answered from some state
    those tables have been in, and change accounts when a guest gets a membership.
    A file request of the control server leaves a token; the connection that
    presents it to the file port, the moves, links and deletions of other requests
    and the cleanups they fork share files, rows and tombstones and interleave one
    access at a time.

    ** What the theorems show

    - Permissions: a tier that decides cannot be overridden from below; merging is
      the documented max/negate/skip rule and does not depend on order; conflict
      detection is exact; no answer served after an invalidation is older than it;
      every gate is a function of the deciding entry; the join gate covers the
      whole inheritance chain; guests are confined to the guest group and their
      channel.
    - State: every reachable state is consistent, the operations refine an
      abstract world, queries observe it, listings are deterministic.
    - Login limiter: bounds and in-flight accounting hold in every reachable
      state; a lockout cannot be escaped; an attempt is granted exactly when it
      should be; a streak of failures locks.
    - Channels: after any history of operations and database failures, timers and
      tree agree; deletion removes exactly the subtree; a late timer is harmless;
      a successful update is on both sides; moves keep the tree a forest; the
      subtree search terminates on every graph.
    - Fan-out: bus and broadcaster never panic, never block and deliver in order,
      with every loss counted; a snapshot shows everything the viewer may see,
      once.
    - Voice: audio and video reach exactly the clients the speaker addresses, on
      tracks with the right label; without failures everybody in a channel hears
      everybody; a publishing slot has one source; the talk gate and the speaking
      indicator are exact; a pending track change can always still be offered.
    - Chat keys: a generation has one key for ever, what was sealed can be opened
      ever after, lookups never create a key, a rotation takes effect and reaches
      the members; scope keys go only to clients that may read the scope,
      whatever request is served.
    - Chat: every stored message stays readable under the generation its row
      names; a send is refused without a trace or stores and relays exactly one
      moderated row; messages evolve only by version and stay deleted; a client
      message id is stored once; cached reaction counts are those of the table;
      the rate limiter, slow mode and the spam tracker bound what gets through.
    - Login and connections: in every history of the server an authenticated
      connection is who credentials in its own frames proved it to be, and knew
      the server password; nothing is served before login or while the rules are
      unanswered; a locked account gets nowhere; a stored password hash accepts
      exactly its password and bounds the work of a login; guests get free names;
      the readability of stored messages holds through all of it.
    - Administration: clients that are not server admins cannot raise a power
      above the highest grant there was, whatever they write, copy, apply, assign
      or redeem in whatever order; setting an entry touches no other; a token
      gives exactly what it is for and no more often than it may.
    - Images and icons: an image is accepted only if its container is a well-formed
      still one, and every such one is; setting a group's icon is atomic under any
      failure, process death and power loss, for any number of recoveries.
    - Files: names and folders stay inside a channel's directory, and a channel
      reported deleted has no file, token, link, handle or transfer ever after,
      however requests, transfers and cleanups interleave and whatever fails; a
      transfer was asked for and its token presented once within a minute; a
      download sends the bytes of the blob and behind them their digest; an
      undisturbed upload refines a versioned store, hard links and all; a file
      request changes exactly what it is for, and only for those with the right.
    - End-to-end encryption: X3DH agrees; what one side sealed the other opens,
      under loss, reordering and forgery; no message is accepted twice; the
      skipped keys are bounded.
    - Wire and text: framing is lossless however the stream is cut and bounded in
      what it reads; casts never wrap; escaping and command parsing round-trip;
      the line reader is exact and bounded.

    ** Bounds and fuel

    The tree walks stop after [maxChannelDepth] = 64 steps, the bound of the
    source. [bfs] takes one unit of fuel per queue element and
    [subtree_search_exact] proves the amount it is given enough on every tree;
    [makeRoom_loop] deletes an entry per turn, so one more than the number of
    entries is enough ([makeRoom_loop_fuel]). The scanners of [ChatText] take one
    unit per character of the text and consume at least one each turn. Every other
    loop is structural, but the image scanners, which take a unit per byte of the
    image and consume a byte each turn ([image_check_exact] shows it is enough).
    The loops of a file connection take a unit per frame or block of the file;
    the theorems on them hold for any amount, one that runs out being an error
    like any other, and [download_exact] and [upload_refines] show which amount
    is enough.
    64-bit counters wrap as in Go; the event-bus theorems take the sequence
    number and the subscription ids not to have wrapped.

    ** Not modelled, and planned

    The recorder, TLS, TURN, metrics, generated code and the user interface are
    glue around third-party libraries; of WebRTC the routing is modelled and the
    library is not. JSON decoding is a parameter: a handler gets the message or
    the fact that it is malformed. SQL is modelled by what each statement reads
    and writes, every call failing or losing its answer by an oracle. Mutexes are
    modelled by the atomicity they give: an operation that holds its lock
    throughout is one step, one that releases it is several; a chat handler is one
    step, so races between two handlers are not modelled. Logging and metrics are
    left out. Of the asset files the mode
    bits, the locks and the opening of the root are not modelled, and a directory,
    once made, stays. Of the file port the listener and its bound on connections,
    the arithmetic of the token bucket and HTTP ranges are not modelled; its files
    are without symbolic links. Not modelled yet: custom emoji of
    [server/chatx.go], pre-keys, the migration splitter
    ([store/migration_sql.go]), the SDP rewriting of [webrtc/opus.go], version
    ordering and the log ring buffer. *)

From stdpp Require Export gmap strings list fin_maps sorting relations.
From Stdlib Require Export ZArith Lia.
#[export] Set Default Goal Selector "!".

#[global] Open Scope Z_scope.

(** ** Results of fallible Go functions

    A Go function that returns [(T, error)] is a function into [result]: the
    error is a value of the component's own error type. *)

Inductive result (E A : Type) : Type :=
| Ok (a : A)
| Err (e : E).
Arguments Ok {E A} a.
Arguments Err {E A} e.

Definition result_bind {E A B} (m : result E A) (k : A → result E B) : result E B :=
  match m with
  | Ok a => k a
  | Err e => Err e
  end.

Definition result_map_err {E F A} (f : E → F) (m : result E A) : result F A :=
  match m with
  | Ok a => Ok a
  | Err e => Err (f e)
  end.

Definition is_ok {E A} (m : result E A) : bool :=
  match m with Ok _ => true | Err _ => false end.

Declare Scope go_scope.
Delimit Scope go_scope with go.
#[global] Open Scope go_scope.

(** [let? x := e in k] is Go's [x, err := e; if err != nil { return err }]. *)
Notation "'let?' x ':=' m 'in' k" := (result_bind m (λ x, k))
  (at level 10, x pattern, m at level 100, k at level 200) : go_scope.

(** [traverse_result f l] is the loop that calls [f] on every element of [l]
    and returns at the first error. *)
Fixpoint traverse_result {E A B} (f : A → result E B) (l : list A)
  : result E (list B) :=
  match l with
  | [] => Ok []
  | x :: l' => let? y := f x in let? ys := traverse_result f l' in Ok (y :: ys)
  end.

(** ** Machine integers *)

Definition wrap_u (w : Z) (z : Z) : Z := z mod 2 ^ w.
Definition wrap_s (w : Z) (z : Z) : Z :=
  (z + 2 ^ (w - 1)) mod 2 ^ w - 2 ^ (w - 1).

Abbreviation u16 := (wrap_u 16).
Abbreviation u32 := (wrap_u 32).
Abbreviation u64 := (wrap_u 64).
Abbreviation i32 := (wrap_s 32).
Abbreviation i64 := (wrap_s 64).

Definition max_int64 : Z := 2 ^ 63 - 1.
Definition min_int64 : Z := - 2 ^ 63.

Lemma wrap_u_small w z : 0 ≤ z < 2 ^ w → wrap_u w z = z.
Proof. apply Z.mod_small. Qed.

Lemma wrap_s_small w z :
  0 < w → - 2 ^ (w - 1) ≤ z < 2 ^ (w - 1) → wrap_s w z = z.
Proof.
  intros Hw Hz. unfold wrap_s.
  assert (2 ^ w = 2 * 2 ^ (w - 1)) as Hp.
  { rewrite <- Z.pow_succ_r by lia. f_equal. lia. }
  rewrite Z.mod_small; lia.
Qed.

(** ** Time

    A [time.Time] is a number of nanoseconds counted from Go's zero instant, so
    that [time.Time{}] is 0 and [IsZero] tests for it. [Sub] saturates at the
    ends of [time.Duration], as the standard library documents. *)

Definition time_is_zero (t : Z) : bool := t =? 0.
Definition time_after (t u : Z) : bool := u <? t.
Definition time_before (t u : Z) : bool := t <? u.
Definition time_add (t d : Z) : Z := t + d.
Definition time_sub (t u : Z) : Z := Z.max min_int64 (Z.min max_int64 (t - u)).

Definition second : Z := 1000000000.
Definition minute : Z := 60 * second.

(** ** Map iteration

    Go leaves the order of [for k, v := range m] unspecified. A definition that
    ranges over a map takes the order as an instance of [MapRange]: some list of
    the map's entries, each exactly once. A theorem about it holds for every
    order the runtime may choose. *)

Class MapRange (K V : Type) `{Countable K} := {
  range : gmap K V → list (K * V);
  range_perm m : range m ≡ₚ map_to_list m;
}.

Section map_range.

Context {K V : Type} `{Countable K} `{!MapRange K V}.
Implicit Types m : gmap K V.

Lemma elem_of_range m k v : (k, v) ∈ range m ↔ m !! k = Some v.
Proof. rewrite range_perm. apply elem_of_map_to_list. Qed.

Lemma NoDup_range_keys m : NoDup (range m).*1.
Proof. rewrite range_perm. apply NoDup_fst_map_to_list. Qed.

Lemma elem_of_range_keys m k : k ∈ (range m).*1 ↔ k ∈ dom m.
Proof.
  rewrite range_perm, elem_of_dom. rewrite list_elem_of_fmap. split.
  - intros [[k' v] [-> Hkv%elem_of_map_to_list]]. eauto.
  - intros [v Hkv]. exists (k, v). by rewrite elem_of_map_to_list.
Qed.

Lemma list_to_map_range m : list_to_map (range m) = m.
Proof.
  rewrite <- (list_to_map_to_list m) at 2.
  apply list_to_map_proper; [apply NoDup_range_keys|apply range_perm].
Qed.

Lemma length_range m : length (range m) = size m.
Proof. rewrite range_perm. apply length_map_to_list. Qed.

End map_range.

(** The order of [for k := range m] over a map used as a set. *)
Section range_set.

Context {A : Type} `{Countable A} `{!MapRange A ()}.
Implicit Types s : gset A.

Definition range_set s : list A := (range (gset_to_gmap () s)).*1.

Lemma elem_of_range_set s a : a ∈ range_set s ↔ a ∈ s.
Proof. unfold range_set. rewrite elem_of_range_keys. by rewrite dom_gset_to_gmap. Qed.

Lemma NoDup_range_set s : NoDup (range_set s).
Proof. apply NoDup_range_keys. Qed.

Lemma length_range_set s : length (range_set s) = size s.
Proof.
  unfold range_set. rewrite length_fmap, length_range, <- size_dom. by rewrite dom_gset_to_gmap.
Qed.

End range_set.

(** The order stdpp enumerates a map in: an order the runtime may choose. *)
Definition stdpp_range {K V} `{Countable K} : MapRange K V :=
  {| range := map_to_list; range_perm m := Permutation_refl _ |}.

(** ** Indexed sets

    Go's [map\[K\]map\[A\]bool] used as a family of sets, where an index whose
    set becomes empty is deleted. *)

Section fam.

Context {K A : Type} `{Countable K} `{Countable A}.
Implicit Types (m : gmap K (gset A)) (k : K) (a : A).

Definition fam_get k m : gset A := default ∅ (m !! k).

Definition fam_add k a m : gmap K (gset A) :=
  <[k := {[a]} ∪ fam_get k m]> m.

Definition fam_del k a m : gmap K (gset A) :=
  match m !! k with
  | None => m
  | Some s =>
      let s' := s ∖ {[a]} in
      if decide (s' = ∅) then delete k m else <[k := s']> m
  end.

Definition fam_wf m : Prop := map_Forall (λ _ s, s ≠ ∅) m.

Lemma fam_get_add k a m j :
  fam_get j (fam_add k a m) = if decide (k = j) then {[a]} ∪ fam_get k m else fam_get j m.
Proof.
  unfold fam_add, fam_get. rewrite lookup_insert. by case_decide.
Qed.

Lemma fam_get_del k a m j :
  fam_get j (fam_del k a m) = if decide (k = j) then fam_get k m ∖ {[a]} else fam_get j m.
Proof.
  unfold fam_del, fam_get. destruct (m !! k) as [s|] eqn:Hk; simpl.
  - case_decide as Hs.
    + rewrite lookup_delete. case_decide; simpl; [by rewrite Hs|done].
    + rewrite lookup_insert. by case_decide.
  - case_decide; [subst; rewrite Hk; simpl; set_solver|done].
Qed.

Lemma fam_get_delete k m j :
  fam_get j (delete k m) = if decide (k = j) then ∅ else fam_get j m.
Proof. unfold fam_get. rewrite lookup_delete. by case_decide. Qed.

Lemma elem_of_fam_add k a m j b :
  b ∈ fam_get j (fam_add k a m) ↔ (j = k ∧ b = a) ∨ b ∈ fam_get j m.
Proof. rewrite fam_get_add. case_decide; set_solver. Qed.

Lemma elem_of_fam_del k a m j b :
  b ∈ fam_get j (fam_del k a m) ↔ b ∈ fam_get j m ∧ ¬ (j = k ∧ b = a).
Proof. rewrite fam_get_del. case_decide; set_solver. Qed.

Lemma elem_of_fam_delete k m j b :
  b ∈ fam_get j (delete k m) ↔ b ∈ fam_get j m ∧ j ≠ k.
Proof. rewrite fam_get_delete. case_decide; set_solver. Qed.

Lemma fam_wf_empty : fam_wf ∅.
Proof. apply map_Forall_empty. Qed.

Lemma fam_wf_add k a m : fam_wf m → fam_wf (fam_add k a m).
Proof.
  intros Hm. apply map_Forall_insert_2; [set_solver|done].
Qed.

Lemma fam_wf_delete k m : fam_wf m → fam_wf (delete k m).
Proof. apply map_Forall_delete. Qed.

Lemma fam_wf_del k a m : fam_wf m → fam_wf (fam_del k a m).
Proof.
  intros Hm. unfold fam_del. destruct (m !! k); [|done].
  case_decide; [by apply map_Forall_delete|by apply map_Forall_insert_2].
Qed.

Lemma fam_wf_lookup k m : fam_wf m → (is_Some (m !! k) ↔ fam_get k m ≠ ∅).
Proof.
  unfold fam_get. intros Hm. destruct (m !! k) as [s|] eqn:Hk; simpl.
  - split; [intros _; exact (Hm k s Hk)|by eauto].
  - split; [by intros [??]|done].
Qed.

Lemma fam_del_lookup k a m : is_Some (m !! k) ∨ fam_del k a m = m.
Proof. unfold fam_del. destruct (m !! k); eauto. Qed.

Lemma size_fam_add k a m :
  a ∉ fam_get k m → size (fam_get k (fam_add k a m)) = S (size (fam_get k m)).
Proof.
  intros Ha. rewrite fam_get_add, decide_True by done.
  rewrite size_union by set_solver. by rewrite size_singleton.
Qed.

Lemma size_fam_del k a m :
  a ∈ fam_get k m → S (size (fam_get k (fam_del k a m))) = size (fam_get k m).
Proof.
  intros Ha. rewrite fam_get_del, decide_True by done.
  rewrite size_difference by set_solver. rewrite size_singleton.
  assert (size (fam_get k m) ≠ 0%nat); [|lia].
  intros Hz%size_empty_iff. set_solver.
Qed.

End fam.

(** ** Sorting

    [sort.Slice] and [sort.Strings] return the sorted permutation of the slice;
    for a total order it does not depend on the algorithm. *)

Definition sort_by {A} (R : relation A) `{!RelDecision R} (l : list A) : list A :=
  merge_sort R l.

Lemma sort_by_perm {A} (R : relation A) `{!RelDecision R} (l : list A) :
  sort_by R l ≡ₚ l.
Proof. apply merge_sort_Permutation. Qed.

Lemma sort_by_unique {A} (R : relation A) `{!RelDecision R, !PartialOrder R, !Total R}
    (l1 l2 : list A) :
  l1 ≡ₚ l2 → sort_by R l1 = sort_by R l2.
Proof.
  intros Hl. apply (StronglySorted_unique R).
  - apply StronglySorted_merge_sort; apply _.
  - apply StronglySorted_merge_sort; apply _.
  - by rewrite !merge_sort_Permutation.
Qed.

(** ** Lists *)

Lemma NoDup_split_unique {A} (pre post pre' post' : list A) x :
  NoDup (pre ++ x :: post) → pre ++ x :: post = pre' ++ x :: post' →
  pre = pre' ∧ post = post'.
Proof.
  revert pre'. induction pre as [|y pre IH]; intros [|y' pre'] Hnd Heq; simpl in *;
    apply NoDup_cons in Hnd as [Hn Hnd]; simplify_eq; [done|set_solver..|].
  match goal with H : _ ++ _ = _ ++ _ |- _ => destruct (IH _ Hnd H); naive_solver end.
Qed.

Lemma filter_all {A} (P : A → Prop) `{!∀ x, Decision (P x)} (l : list A) :
  Forall P l → filter P l = l.
Proof.
  induction 1 as [|x l Hx _ IH]; [done|]. by rewrite filter_cons, decide_True, IH.
Qed.

Lemma StronglySorted_sublist {A} (R : relation A) (l k : list A) :
  l `sublist_of` k → StronglySorted R k → StronglySorted R l.
Proof.
  induction 1 as [|x l k Hs IH|x l k Hs IH]; [done| |];
    intros [Hk Hall]%StronglySorted_inv; [|by apply IH].
  constructor; [by apply IH|]. rewrite Forall_forall in Hall |- *.
  intros y Hy. apply Hall. by eapply elem_of_sublist.
Qed.

Lemma and_iff_compat_l_weak (A B C : Prop) : (A → (B ↔ C)) → (A ∧ B ↔ A ∧ C).
Proof. tauto. Qed.

(** ** Automation *)

Create HintDb noxa discriminated.
#[export] Hint Resolve fam_wf_add fam_wf_del fam_wf_delete fam_wf_empty : noxa.

(** Case analysis on the scrutinee of a [match] or an [if] of the goal or of a
    hypothesis, simplifying the equations it gives. *)
Ltac go_cases :=
  repeat (case_match || case_decide); simplify_eq/=.

(** Reflect the boolean comparisons that guard Go code into propositions. *)
Ltac bools :=
  repeat match goal with
  | H : (_ && _) = true |- _ => apply andb_true_iff in H as [? ?]
  | H : (_ && _) = false |- _ => apply andb_false_iff in H
  | H : (_ || _) = true |- _ => apply orb_true_iff in H
  | H : (_ || _) = false |- _ => apply orb_false_iff in H as [? ?]
  | H : negb _ = true |- _ => apply negb_true_iff in H
  | H : negb _ = false |- _ => apply negb_false_iff in H
  | H : (_ =? _) = true |- _ => apply Z.eqb_eq in H
  | H : (_ =? _) = false |- _ => apply Z.eqb_neq in H
  | H : (_ <? _) = true |- _ => apply Z.ltb_lt in H
  | H : (_ <? _) = false |- _ => apply Z.ltb_ge in H
  | H : (_ <=? _) = true |- _ => apply Z.leb_le in H
  | H : (_ <=? _) = false |- _ => apply Z.leb_gt in H
  | H : bool_decide _ = true |- _ => apply bool_decide_eq_true in H
  | H : bool_decide _ = false |- _ => apply bool_decide_eq_false in H
  end.

(** Bookkeeping on the reachable states of a step relation. *)
Lemma rtc_invariant {S : Type} (step : relation S) (I : S → Prop) (s s' : S) :
  (∀ x y, I x → step x y → I y) → I s → rtc step s s' → I s'.
Proof. intros Hstep HI Hs. induction Hs; eauto. Qed.
