(* ===== verification/Permissions.v ===== *)
(** * Permissions: the in-memory permission model

    Models [internal/permissions]: [types.go] (entries and sets), [tiers.go]
    (the evaluation order), [merge.go] (the merge of several sources of one
    tier), [resolver.go] (the lookup across tiers) and [conflicts.go] (the
    diagnostic that reports shadowed entries).

    A [PermissionSet] is a Go map from keys to [*Permission]; the pointer is an
    [option], so that a nil entry stays distinguishable from an absent one. A nil
    map reads like an empty one in Go and is the empty map here. *)

From S2P Require Import Prelude.

(** ** types.go *)

Abbreviation PermissionKey := string.

Inductive PermissionType := PermissionTypeBoolean | PermissionTypeInteger.

Record Permission := mkPermission {
  Key : PermissionKey;
  Type_ : PermissionType;
  Value : Z;
  Grant : Z;
  Skip : bool;
  Negate : bool;
}.

Abbreviation PermissionSet := (gmap PermissionKey (option Permission)).

Definition NewPermissionSet : PermissionSet := ∅.

Definition PermissionSet_Get (s : PermissionSet) (key : PermissionKey)
  : option Permission * bool :=
  match s !! key with
  | Some p => (p, true)
  | None => (None, false)
  end.

(** [Set] panics on a nil entry: [None]. *)
Definition PermissionSet_Set (s : PermissionSet) (p : option Permission)
  : option PermissionSet :=
  match p with
  | None => None
  | Some q => Some (<[Key q := Some q]> s)
  end.

Definition PermissionSet_Has (s : PermissionSet) (key : PermissionKey) : bool :=
  bool_decide (is_Some (s !! key)).

(** The inner loop of the insertion sort: [x] moves left past the greater
    elements of the sorted prefix, which is kept reversed. *)
Fixpoint sift (x : PermissionKey) (rprefix : list PermissionKey) : list PermissionKey :=
  match rprefix with
  | [] => [x]
  | y :: rest => if String.ltb x y then y :: sift x rest else x :: y :: rest
  end.

Definition insertion_sort (keys : list PermissionKey) : list PermissionKey :=
  reverse (foldl (λ rprefix x, sift x rprefix) [] keys).

Definition PermissionSet_Keys `{!MapRange string (option Permission)}
    (s : PermissionSet) : list PermissionKey :=
  insertion_sort (range s).*1.

(** ** tiers.go *)

Abbreviation Tier := Z.

Definition TierServerGroup : Tier := 0.
Definition TierClientSpecific : Tier := 1.
Definition TierChannelSpecific : Tier := 2.
Definition TierChannelGroup : Tier := 3.
Definition TierChannelClient : Tier := 4.
Definition TierChannel : Tier := 5.

Definition Tier_String (t : Tier) : string :=
  if t =? TierServerGroup then "server_group"
  else if t =? TierClientSpecific then "client_specific"
  else if t =? TierChannelSpecific then "channel_specific"
  else if t =? TierChannelGroup then "channel_group"
  else if t =? TierChannelClient then "channel_client"
  else if t =? TierChannel then "channel"
  else "unknown".

Definition tierOrder : list Tier :=
  [TierServerGroup; TierClientSpecific; TierChannelSpecific;
   TierChannel; TierChannelGroup; TierChannelClient].

Record TieredPermissions := mkTiered { tiers : gmap Tier PermissionSet }.

Definition NewTieredPermissions : TieredPermissions := mkTiered ∅.

Definition TieredPermissions_Set (tp : TieredPermissions) (tier : Tier)
    (set : PermissionSet) : TieredPermissions :=
  mkTiered (<[tier := set]> (tiers tp)).

Definition TieredPermissions_Get (tp : TieredPermissions) (tier : Tier)
  : option PermissionSet :=
  tiers tp !! tier.

(** ** resolver.go *)

Inductive ResolveError := ErrPermissionNotSet.

Definition noTier : Tier := -1.

Fixpoint Resolve_tiers (order : list Tier) (tp : TieredPermissions)
    (key : PermissionKey) : result ResolveError (Permission * Tier) :=
  match order with
  | [] => Err ErrPermissionNotSet
  | tier :: rest =>
      match TieredPermissions_Get tp tier with
      | None => Resolve_tiers rest tp key
      | Some set =>
          match PermissionSet_Get set key with
          | (Some p, true) =>
              if Negate p
              then Ok (mkPermission (Key p) (Type_ p) 0 (Grant p) (Skip p) true, tier)
              else Ok (p, tier)
          | _ => Resolve_tiers rest tp key
          end
      end
  end.

Definition Resolve (tp : TieredPermissions) (key : PermissionKey)
  : result ResolveError (Permission * Tier) :=
  Resolve_tiers tierOrder tp key.

Definition ResolveBool (tp : TieredPermissions) (key : PermissionKey)
  : result ResolveError (bool * Tier) :=
  let? (p, tier) := Resolve tp key in
  Ok (negb (Value p =? 0), tier).

Definition ResolveInt (tp : TieredPermissions) (key : PermissionKey)
  : result ResolveError (Z * Tier) :=
  let? (p, tier) := Resolve tp key in
  Ok (Value p, tier).

Definition IsGranted (tp : TieredPermissions) (key : PermissionKey) (required : Z)
  : result ResolveError (bool * Tier) :=
  let? (value, tier) := ResolveInt tp key in
  Ok (required <=? value, tier).

(** ** merge.go *)

(** One step of the loop over [entries\[1:\]]. *)
Definition mergeEntry (m e : Permission) : Permission :=
  mkPermission (Key m) (Type_ m)
    (if Value m <? Value e then Value e else Value m)
    (if Grant m <? Grant e then Grant e else Grant m)
    (if Skip e then true else Skip m)
    (if Negate e then true else Negate m).

(** [entries\[0\]] panics on an empty slice: [None]. *)
Definition mergeEntries (key : PermissionKey) (entries : list Permission)
  : option Permission :=
  match entries with
  | [] => None
  | e0 :: rest =>
      let m := foldl mergeEntry
        (mkPermission key (Type_ e0) (Value e0) (Grant e0) (Skip e0) (Negate e0)) rest in
      Some (if Negate m
            then mkPermission (Key m) (Type_ m) 0 (Grant m) (Skip m) (Negate m)
            else m)
  end.

Section merge.

Context `{!∀ V, MapRange string V}.

Definition contribute (byKey : gmap PermissionKey (list Permission))
    (set : PermissionSet) : gmap PermissionKey (list Permission) :=
  foldl (λ acc kp,
      match kp.2 with
      | None => acc
      | Some p => <[kp.1 := default [] (acc !! kp.1) ++ [p]]> acc
      end) byKey (range set).

Definition MergeSet (sets : list PermissionSet) : option PermissionSet :=
  foldl (λ merged kes,
      m ← merged;
      p ← mergeEntries kes.1 kes.2;
      PermissionSet_Set m (Some p))
    (Some NewPermissionSet) (range (foldl contribute ∅ sets)).

Definition MergeTiered (groupSets clientServerSets channelSpecificSets
    channelGroupSets channelClientSets : list PermissionSet)
  : option TieredPermissions :=
  g ← MergeSet groupSets;
  c ← MergeSet clientServerSets;
  s ← MergeSet channelSpecificSets;
  cg ← MergeSet channelGroupSets;
  cc ← MergeSet channelClientSets;
  let tp := NewTieredPermissions in
  let tp := TieredPermissions_Set tp TierServerGroup g in
  let tp := TieredPermissions_Set tp TierClientSpecific c in
  let tp := TieredPermissions_Set tp TierChannelSpecific s in
  let tp := TieredPermissions_Set tp TierChannelGroup cg in
  let tp := TieredPermissions_Set tp TierChannelClient cc in
  Some tp.

End merge.

(** ** conflicts.go *)

Record Conflict := mkConflict {
  conflict_Key : PermissionKey;
  WinningTier : Tier;
  ShadowedTier : Tier;
  Message : string;
}.

Definition PermissionKeyClientTalkPower : PermissionKey := "i_client_talk_power".
Definition PermissionKeyClientRequestTalker : PermissionKey := "b_client_request_talker".

Definition effective (p : Permission) : Z := if Negate p then 0 else Value p.

Definition shadowMessage (key : PermissionKey) (winnerTier tier : Tier) : string :=
  (key +:+ " from " +:+ Tier_String winnerTier +:+
   " shadows a contradictory value from " +:+ Tier_String tier)%string.

(** The loop over the tiers for one key; [winner] is the entry seen first. *)
Fixpoint scanTiers (tp : TieredPermissions) (key : PermissionKey)
    (winner : option (Permission * Tier)) (order : list Tier) : list Conflict :=
  match order with
  | [] => []
  | tier :: rest =>
      match TieredPermissions_Get tp tier with
      | None => scanTiers tp key winner rest
      | Some set =>
          match PermissionSet_Get set key with
          | (Some entry, true) =>
              match winner with
              | None => scanTiers tp key (Some (entry, tier)) rest
              | Some (w, winnerTier) =>
                  if negb (effective w =? effective entry)
                     || negb (eqb (Negate w) (Negate entry))
                  then mkConflict key winnerTier tier (shadowMessage key winnerTier tier)
                         :: scanTiers tp key winner rest
                  else scanTiers tp key winner rest
              end
          | _ => scanTiers tp key winner rest
          end
      end
  end.

Definition talkConflict (tp : TieredPermissions) : list Conflict :=
  match Resolve tp PermissionKeyClientTalkPower with
  | Ok (talk, talkTier) =>
      if Negate talk || (Value talk <? 0) then
        match Resolve tp PermissionKeyClientRequestTalker with
        | Ok (request, requestTier) =>
            if negb (Negate request) && negb (Value request =? 0)
            then [mkConflict PermissionKeyClientTalkPower talkTier requestTier
                    "talk power is denied while request-talker is enabled"]
            else []
        | Err _ => []
        end
      else []
  | Err _ => []
  end.

Section conflicts.

Context `{!∀ V, MapRange string V}.

Definition conflictKeys (tp : TieredPermissions) : gmap PermissionKey bool :=
  foldl (λ keys tier,
      match TieredPermissions_Get tp tier with
      | Some set => foldl (λ ks key, <[key := true]> ks) keys (PermissionSet_Keys set)
      | None => keys
      end) ∅ tierOrder.

Definition DetectConflicts (tp : TieredPermissions) : list Conflict :=
  let orderedKeys := sort_by String.le (range (conflictKeys tp)).*1 in
  foldl (λ out key, out ++ scanTiers tp key None tierOrder) [] orderedKeys
    ++ talkConflict tp.

End conflicts.

(** ** Lemmas *)

(** The entry of tier [t] for [key], nil entries and missing tiers skipped. *)
Definition tier_entry (tp : TieredPermissions) (t : Tier) (key : PermissionKey)
  : option Permission :=
  set ← TieredPermissions_Get tp t; mjoin (set !! key).

(** What [Resolve] returns for the winning entry. *)
Definition resolved (p : Permission) : Permission :=
  mkPermission (Key p) (Type_ p) (effective p) (Grant p) (Skip p) (Negate p).

Lemma tierOrder_NoDup : NoDup tierOrder.
Proof. apply (bool_decide_unpack (NoDup tierOrder)). vm_compute. exact I. Qed.

Lemma Resolve_tiers_cons t order tp key :
  Resolve_tiers (t :: order) tp key =
    match tier_entry tp t key with
    | Some p => Ok (resolved p, t)
    | None => Resolve_tiers order tp key
    end.
Proof.
  simpl. unfold tier_entry, PermissionSet_Get, resolved, effective.
  destruct (TieredPermissions_Get tp t) as [set|]; simpl; [|done].
  destruct (set !! key) as [[[k ty v g s n]|]|]; simpl; [|done..]. by destruct n.
Qed.

Lemma Resolve_tiers_Ok order tp key q t :
  Resolve_tiers order tp key = Ok (q, t) ↔
  ∃ pre post p, order = pre ++ t :: post ∧
    Forall (λ t', tier_entry tp t' key = None) pre ∧
    tier_entry tp t key = Some p ∧ q = resolved p.
Proof.
  induction order as [|t0 order IH].
  { split; [done|]. by intros ([]&?&?&?&_). }
  rewrite Resolve_tiers_cons. destruct (tier_entry tp t0 key) as [p0|] eqn:E0.
  - split.
    + intros [= <- <-]. exists [], order, p0. naive_solver.
    + intros (pre&post&p&Heq&Hpre&Hp&->). destruct pre as [|? pre]; simplify_eq/=; [done|].
      apply Forall_cons in Hpre as [? _]. simplify_eq.
  - rewrite IH. split.
    + intros (pre&post&p&->&Hpre&Hp&->). exists (t0 :: pre), post, p. naive_solver.
    + intros (pre&post&p&Heq&Hpre&Hp&->).
      destruct pre as [|t1 pre]; simplify_eq/=.
      apply Forall_cons in Hpre as [_ Hpre]. eauto 10.
Qed.

Lemma Resolve_tiers_Err order tp key e :
  Resolve_tiers order tp key = Err e ↔ Forall (λ t, tier_entry tp t key = None) order.
Proof.
  destruct e. induction order as [|t0 order IH]; [by split|].
  rewrite Resolve_tiers_cons, Forall_cons.
  destruct (tier_entry tp t0 key) eqn:E0; [naive_solver|]. rewrite IH. naive_solver.
Qed.

(** *** The within-tier merge *)

(** The entries the sets contribute for [key], in the order of the sets. *)
Definition contributions (key : PermissionKey) (sets : list PermissionSet)
  : list Permission :=
  omap (λ set : PermissionSet, mjoin (set !! key)) sets.

Lemma contributions_cons key set sets :
  contributions key (set :: sets) =
    match mjoin (set !! key) with
    | Some p => p :: contributions key sets
    | None => contributions key sets
    end.
Proof. done. Qed.

Definition any_negate (es : list Permission) : bool := existsb Negate es.
Definition any_skip (es : list Permission) : bool := existsb Skip es.

(** [v] is the greatest of the values [f e] for [e] in [es]. *)
Definition is_max (f : Permission → Z) (es : list Permission) (v : Z) : Prop :=
  (∃ e, e ∈ es ∧ f e = v) ∧ ∀ e, e ∈ es → f e ≤ v.

(** The documented result of merging the entries [es] of one key. *)
Definition merge_spec (key : PermissionKey) (es : list Permission) (p : Permission) : Prop :=
  Key p = key ∧ Type_ <$> head es = Some (Type_ p) ∧
  Negate p = any_negate es ∧ Skip p = any_skip es ∧ is_max Grant es (Grant p) ∧
  if any_negate es then Value p = 0 else is_max Value es (Value p).

Lemma is_max_snoc f es e v :
  is_max f es v → is_max f (es ++ [e]) (if v <? f e then f e else v).
Proof.
  intros [[e0 [He0 Hv]] Hmax]. destruct (Z.ltb_spec v (f e)); split.
  - exists e. set_solver.
  - intros e'. rewrite elem_of_app, list_elem_of_singleton.
    intros [He'%Hmax| ->]; lia.
  - exists e0. set_solver.
  - intros e'. rewrite elem_of_app, list_elem_of_singleton.
    intros [He'%Hmax| ->]; lia.
Qed.

Lemma is_max_unique f es v w : is_max f es v → is_max f es w → v = w.
Proof.
  intros [[e [He <-]] Hv] [[e' [He' <-]] Hw].
  apply Z.le_antisymm; [by apply Hw|by apply Hv].
Qed.

Lemma is_max_perm f es es' v : es ≡ₚ es' → is_max f es v → is_max f es' v.
Proof.
  intros Hp [[e [He Hv]] Hmax]. split.
  - exists e. by rewrite <- Hp.
  - intros e'. rewrite <- Hp. apply Hmax.
Qed.

Lemma existsb_perm {A} (f : A → bool) l l' : l ≡ₚ l' → existsb f l = existsb f l'.
Proof.
  induction 1 as [|x l l' _ IH|x y l|l1 l2 l3 _ IH1 _ IH2]; simpl;
    [done|by rewrite IH| |by rewrite IH1].
  by destruct (f x), (f y).
Qed.

Lemma mergeEntry_fold m0 done_ rest :
  is_max Value done_ (Value m0) → is_max Grant done_ (Grant m0) →
  Skip m0 = any_skip done_ → Negate m0 = any_negate done_ →
  let m := foldl mergeEntry m0 rest in
  Key m = Key m0 ∧ Type_ m = Type_ m0 ∧
  is_max Value (done_ ++ rest) (Value m) ∧ is_max Grant (done_ ++ rest) (Grant m) ∧
  Skip m = any_skip (done_ ++ rest) ∧ Negate m = any_negate (done_ ++ rest).
Proof.
  revert m0 done_. induction rest as [|e rest IH]; intros m0 done_ Hv Hg Hs Hn; simpl.
  { rewrite app_nil_r. naive_solver. }
  replace (done_ ++ e :: rest) with ((done_ ++ [e]) ++ rest) by by rewrite <- app_assoc.
  apply (IH (mergeEntry m0 e) (done_ ++ [e])); simpl.
  - by apply is_max_snoc.
  - by apply is_max_snoc.
  - unfold any_skip in *. rewrite existsb_app, <- Hs; simpl. by destruct (Skip m0), (Skip e).
  - unfold any_negate in *. rewrite existsb_app, <- Hn; simpl.
    by destruct (Negate m0), (Negate e).
Qed.

Lemma mergeEntries_spec key es p :
  mergeEntries key es = Some p → merge_spec key es p.
Proof.
  destruct es as [|e0 rest]; [done|]. unfold mergeEntries, merge_spec.
  set (m0 := mkPermission key _ _ _ _ _).
  destruct (mergeEntry_fold m0 [e0] rest) as (Hk&Ht&Hv&Hg&Hs&Hn);
    [split; [exists e0|intros ? ->%list_elem_of_singleton]; set_solver|
     split; [exists e0|intros ? ->%list_elem_of_singleton]; set_solver|
     by cbn; destruct (Skip e0)|by cbn; destruct (Negate e0)|].
  change ([e0] ++ rest) with (e0 :: rest) in *. rewrite <- Hs, <- Hn. intros [= <-].
  destruct (Negate (foldl mergeEntry m0 rest)) eqn:En; simpl; rewrite ?Hk, ?Ht, ?En; done.
Qed.

Lemma mergeEntries_is_Some key es : es ≠ [] → is_Some (mergeEntries key es).
Proof. destruct es; [done|]. intros _. eexists. reflexivity. Qed.

Section merge_lemmas.
Context `{!∀ V, MapRange string V}.

Lemma contribute_lookup byKey set key :
  contribute byKey set !! key =
    match mjoin (set !! key) with
    | Some p => Some (default [] (byKey !! key) ++ [p])
    | None => byKey !! key
    end.
Proof.
  unfold contribute. rewrite <- (list_to_map_range set) at 2.
  pose proof (NoDup_range_keys set) as Hnd. revert byKey Hnd.
  induction (range set) as [|[k o] l IH]; intros byKey Hnd; [done|].
  apply NoDup_cons in Hnd as [Hk Hnd]. simpl. rewrite IH by done.
  destruct (decide (k = key)) as [->|Hne].
  - rewrite lookup_insert_eq, (not_elem_of_list_to_map_1 l key) by done. simpl.
    destruct o; simpl; [by rewrite lookup_insert_eq|done].
  - rewrite (lookup_insert_ne (list_to_map l)) by done.
    destruct o; [by rewrite lookup_insert_ne by done|done].
Qed.

Lemma contributions_lookup sets byKey key :
  foldl contribute byKey sets !! key =
    match contributions key sets with
    | [] => byKey !! key
    | es => Some (default [] (byKey !! key) ++ es)
    end.
Proof.
  revert byKey. induction sets as [|set sets IH]; intros byKey; [done|].
  rewrite contributions_cons. simpl. rewrite IH, contribute_lookup.
  destruct (mjoin (set !! key)) as [p|]; [|done].
  destruct (contributions key sets); simpl; [done|]. by rewrite <- app_assoc.
Qed.

Lemma MergeSet_fold l (m0 : PermissionSet) :
  NoDup l.*1 → Forall (λ kes, kes.2 ≠ []) l →
  ∃ M, foldl (λ merged kes,
        m ← merged; p ← mergeEntries kes.1 kes.2; PermissionSet_Set m (Some p))
      (Some m0) l = Some M ∧
    ∀ key, M !! key = match (list_to_map l : gmap _ _) !! key with
                      | Some es => Some (mergeEntries key es)
                      | None => m0 !! key
                      end.
Proof.
  revert m0. induction l as [|[k es] l IH]; intros m0 Hnd Hne; [by eauto|].
  apply NoDup_cons in Hnd as [Hk Hnd]. apply Forall_cons in Hne as [He Hne].
  destruct (mergeEntries_is_Some k es He) as [p Hp].
  pose proof (mergeEntries_spec _ _ _ Hp) as [Hkey _].
  destruct (IH (<[k := Some p]> m0) Hnd Hne) as (M&HM&Hlook).
  exists M. simpl. rewrite Hp. simpl. rewrite Hkey. split; [done|].
  intros key. rewrite Hlook. destruct (decide (k = key)) as [->|Hkk].
  - by rewrite (not_elem_of_list_to_map_1 l key), !lookup_insert_eq, Hp by done.
  - by rewrite !lookup_insert_ne by done.
Qed.

(** [MergeSet] never panics, and its entry for a key is the merge of the entries
    the sets contribute for it. *)
Lemma MergeSet_lookup sets :
  ∃ M, MergeSet sets = Some M ∧
    ∀ key, M !! key = match contributions key sets with
                      | [] => None
                      | es => Some (mergeEntries key es)
                      end.
Proof.
  unfold MergeSet. set (byKey := foldl contribute ∅ sets).
  assert (∀ key, byKey !! key =
    match contributions key sets with [] => None | es => Some es end) as Hby.
  { intros key. unfold byKey. rewrite contributions_lookup, lookup_empty. done. }
  destruct (MergeSet_fold (range byKey) NewPermissionSet) as (M&HM&Hlook).
  - apply NoDup_range_keys.
  - apply Forall_forall. intros [key es] Hin%elem_of_range. rewrite Hby in Hin.
    destruct (contributions key sets); by simplify_eq/=.
  - exists M. split; [done|]. intros key. rewrite Hlook, list_to_map_range, Hby.
    by destruct (contributions key sets).
Qed.

End merge_lemmas.

(** *** Sorted keys *)

Lemma sift_perm x rp : sift x rp ≡ₚ x :: rp.
Proof.
  induction rp as [|y rp IH]; simpl; [done|].
  case_match; [|done]. rewrite IH. apply Permutation_swap.
Qed.

Lemma insertion_sort_perm l : insertion_sort l ≡ₚ l.
Proof.
  unfold insertion_sort. rewrite reverse_Permutation.
  assert (∀ acc, foldl (λ rp x, sift x rp) acc l ≡ₚ l ++ acc) as Hgen.
  { induction l as [|x l IH]; intros acc; simpl; [done|].
    rewrite IH, sift_perm. by rewrite Permutation_middle. }
  by rewrite Hgen, app_nil_r.
Qed.

Lemma ltb_le x y : String.ltb x y = true → String.le x y.
Proof.
  unfold String.le, String.ltb, String.leb. by destruct (String.compare x y).
Qed.

Lemma not_ltb_le x y : String.ltb x y = false → String.le y x.
Proof.
  unfold String.le, String.ltb, String.leb. rewrite (String.compare_antisym y x).
  by destruct (String.compare x y).
Qed.

Lemma sift_sorted x rp :
  StronglySorted (flip String.le) rp → StronglySorted (flip String.le) (sift x rp).
Proof.
  induction 1 as [|y rp Hs IH Hy]; simpl; [repeat constructor|].
  destruct (String.ltb x y) eqn:E.
  - constructor; [done|]. rewrite sift_perm. constructor; [by apply ltb_le|done].
  - apply not_ltb_le in E. repeat constructor; [done..|].
    eapply Forall_impl; [exact Hy|]. intros z Hz. unfold flip in *. by etrans.
Qed.

Lemma StronglySorted_snoc {A} (R : relation A) l x :
  StronglySorted R l → Forall (λ y, R y x) l → StronglySorted R (l ++ [x]).
Proof.
  induction 1 as [|y l Hs IH Hy]; simpl; [repeat constructor|].
  intros [Hyx Hx]%Forall_cons. constructor; [by apply IH|].
  apply Forall_app; auto.
Qed.

Lemma StronglySorted_reverse {A} (R : relation A) l :
  StronglySorted (flip R) l → StronglySorted R (reverse l).
Proof.
  induction 1 as [|x l Hs IH Hx]; [constructor|]. rewrite reverse_cons.
  apply StronglySorted_snoc; [done|]. by rewrite reverse_Permutation.
Qed.

Lemma insertion_sort_sorted l : StronglySorted String.le (insertion_sort l).
Proof.
  apply StronglySorted_reverse.
  assert (∀ acc, StronglySorted (flip String.le) acc →
    StronglySorted (flip String.le) (foldl (λ rp x, sift x rp) acc l)) as Hgen.
  { induction l as [|x l IH]; intros acc Hacc; simpl; [done|]. by apply IH, sift_sorted. }
  apply Hgen. constructor.
Qed.

Lemma elem_of_PermissionSet_Keys `{!MapRange string (option Permission)} s key :
  key ∈ PermissionSet_Keys s ↔ key ∈ dom s.
Proof. unfold PermissionSet_Keys. by rewrite insertion_sort_perm, elem_of_range_keys. Qed.

(** *** Conflict detection *)

(** Two entries of one key contradict each other. *)
Definition disagree (w e : Permission) : Prop :=
  effective w ≠ effective e ∨ Negate w ≠ Negate e.

Lemma scanTiers_cons tp key winner t order :
  scanTiers tp key winner (t :: order) =
    match tier_entry tp t key, winner with
    | None, _ => scanTiers tp key winner order
    | Some e, None => scanTiers tp key (Some (e, t)) order
    | Some e, Some (w, wt) =>
        if negb (effective w =? effective e) || negb (eqb (Negate w) (Negate e))
        then mkConflict key wt t (shadowMessage key wt t) :: scanTiers tp key winner order
        else scanTiers tp key winner order
    end.
Proof.
  simpl. unfold tier_entry, PermissionSet_Get.
  destruct (TieredPermissions_Get tp t) as [set|]; simpl; [|by destruct winner as [[]|]].
  destruct (set !! key) as [[e|]|]; simpl; by destruct winner as [[]|].
Qed.

Lemma disagree_bool w e :
  negb (effective w =? effective e) || negb (eqb (Negate w) (Negate e)) = true ↔ disagree w e.
Proof.
  unfold disagree. rewrite orb_true_iff, !negb_true_iff, Z.eqb_neq, eqb_false_iff. done.
Qed.

Lemma scanTiers_winner tp key w wt order c :
  c ∈ scanTiers tp key (Some (w, wt)) order ↔
  ∃ t e, t ∈ order ∧ tier_entry tp t key = Some e ∧ disagree w e ∧
    c = mkConflict key wt t (shadowMessage key wt t).
Proof.
  induction order as [|t order IH]; [set_solver|]. rewrite scanTiers_cons.
  setoid_rewrite elem_of_cons. destruct (tier_entry tp t key) as [e|] eqn:Et.
  - pose proof (disagree_bool w e) as Hd. case_match.
    + rewrite elem_of_cons, IH. naive_solver.
    + rewrite IH. naive_solver.
  - rewrite IH. naive_solver.
Qed.

Lemma scanTiers_none tp key order c :
  NoDup order →
  c ∈ scanTiers tp key None order ↔
  ∃ q wt t e, Resolve_tiers order tp key = Ok (q, wt) ∧ t ∈ order ∧ t ≠ wt ∧
    tier_entry tp t key = Some e ∧ disagree q e ∧
    c = mkConflict key wt t (shadowMessage key wt t).
Proof.
  assert (∀ w, effective (resolved w) = effective w) as Hr by by intros [?????[]].
  induction order as [|t order IH]; intros Hnd; [simpl; set_solver|].
  apply NoDup_cons in Hnd as [Ht Hnd]. rewrite scanTiers_cons, Resolve_tiers_cons.
  destruct (tier_entry tp t key) as [w|] eqn:Et.
  - rewrite scanTiers_winner. unfold disagree. split.
    + intros (t'&e&Ht'&He&Hd&->). exists (resolved w), t, t', e.
      rewrite Hr. set_solver.
    + intros (q&wt&t'&e&Heq&Ht'&Hne&He&Hd&->). simplify_eq. rewrite Hr in Hd. set_solver.
  - rewrite IH by done. setoid_rewrite elem_of_cons. naive_solver.
Qed.

Section conflict_lemmas.
Context `{!∀ V, MapRange string V}.

Lemma elem_of_conflictKeys tp t key p :
  t ∈ tierOrder → tier_entry tp t key = Some p → key ∈ dom (conflictKeys tp).
Proof.
  unfold conflictKeys, tier_entry. intros Ht Hp.
  assert (∀ l (ks : gmap string bool),
    dom (foldl (λ ks key, <[key := true]> ks) ks l) = list_to_set l ∪ dom ks) as Hfold.
  { induction l as [|x l IH]; intros ks; simpl; [set_solver|].
    rewrite IH, dom_insert_L. set_solver. }
  assert (∀ order (ks : gmap string bool), key ∈ dom ks ∨ t ∈ order →
    key ∈ dom (foldl (λ keys tier,
        match TieredPermissions_Get tp tier with
        | Some set => foldl (λ ks key, <[key := true]> ks) keys (PermissionSet_Keys set)
        | None => keys
        end) ks order)) as Hgen; [|by apply Hgen; right].
  induction order as [|t0 order IH]; intros ks Hor; simpl; [set_solver|].
  apply IH. destruct Hor as [Hin|[<-|Hin]%elem_of_cons]; [|left|by right].
  - left. case_match; [|done]. rewrite Hfold. set_solver.
  - destruct (TieredPermissions_Get tp t) as [set|]; simplify_eq/=.
    rewrite Hfold, elem_of_union, elem_of_list_to_set, elem_of_PermissionSet_Keys.
    left. apply elem_of_dom. by destruct (set !! key).
Qed.

Lemma elem_of_concat_fold {A B} (f : A → list B) l out b :
  b ∈ foldl (λ out x, out ++ f x) out l ↔ b ∈ out ∨ ∃ x, x ∈ l ∧ b ∈ f x.
Proof.
  revert out. induction l as [|x l IH]; intros out; simpl; [set_solver|].
  rewrite IH. set_solver.
Qed.

End conflict_lemmas.

(** ** Properties *)

Section properties.
Context `{!∀ V, MapRange string V}.

(** Once a tier decides a permission, no tier evaluated after it can change
    the outcome: replacing the whole entry set of a lower-priority tier leaves
    [Resolve] unchanged, in particular a negated entry stays a denial with value
    0 whatever the lower tiers grant. *)
Theorem resolve_lower_tiers_irrelevant tp key q t pre post t' set :
  Resolve tp key = Ok (q, t) →
  tierOrder = pre ++ t :: post → t' ∈ post →
  Resolve (TieredPermissions_Set tp t' set) key = Ok (q, t) ∧
  (Negate q = true → Value q = 0).
Proof.
  unfold Resolve. intros (pre0&post0&p&Ho&Hpre&Hp&->)%Resolve_tiers_Ok Hord Ht'.
  assert (NoDup tierOrder) as Hnd by exact tierOrder_NoDup.
  assert (pre0 = pre ∧ post0 = post) as [-> ->].
  { rewrite Ho in Hnd, Hord. by apply NoDup_split_unique in Hord. }
  rewrite Hord in Hnd. apply NoDup_app in Hnd as (_&Hdisj&Hnd).
  apply NoDup_cons in Hnd as [Hnt Hnd].
  assert (∀ t0, t0 ≠ t' → tier_entry (TieredPermissions_Set tp t' set) t0 key
                          = tier_entry tp t0 key) as Hsame.
  { intros t0 Hne. unfold tier_entry, TieredPermissions_Get, TieredPermissions_Set. simpl.
    by rewrite lookup_insert_ne by done. }
  split; [|by unfold resolved, effective; simpl; intros ->].
  apply Resolve_tiers_Ok. exists pre, post, p. repeat split; [done| |..].
  - rewrite Forall_forall in *. intros t0 Hin. rewrite Hsame; [by apply Hpre|].
    intros ->. set_solver.
  - rewrite Hsame; [done|]. intros ->. done.
Qed.

(** Merging the sources of one tier gives, for every key, exactly the
    documented entry: absent when no source has the key; negated with value 0 when
    some source negates; otherwise the greatest value; the greatest grant; skip
    when some source skips; the type of the first source. The merge never panics
    and does not depend on the map iteration order. *)
Theorem MergeSet_correct sets :
  ∃ M, MergeSet sets = Some M ∧ ∀ key,
    match contributions key sets with
    | [] => M !! key = None
    | es => ∃ p, M !! key = Some (Some p) ∧ merge_spec key es p
    end.
Proof.
  destruct (MergeSet_lookup sets) as (M&HM&Hlook). exists M. split; [done|].
  intros key. specialize (Hlook key). destruct (contributions key sets) as [|e es]; [done|].
  destruct (mergeEntries_is_Some key (e :: es)) as [p Hp]; [done|].
  exists p. rewrite Hlook, Hp. split; [done|by apply mergeEntries_spec].
Qed.

(** The conflict report is sound and complete: apart from the talk-power
    warning it lists exactly the tiers whose entry for a key contradicts the entry
    [Resolve] picks, naming the winning and the shadowed tier. *)
Theorem DetectConflicts_iff tp c :
  c ∈ DetectConflicts tp ↔
  c ∈ talkConflict tp ∨
  ∃ key q wt t e, Resolve tp key = Ok (q, wt) ∧ t ∈ tierOrder ∧ t ≠ wt ∧
    tier_entry tp t key = Some e ∧ (Value q ≠ effective e ∨ Negate q ≠ Negate e) ∧
    c = mkConflict key wt t (shadowMessage key wt t).
Proof.
  unfold DetectConflicts. rewrite elem_of_app, elem_of_concat_fold.
  rewrite (comm (∨)). apply or_iff_compat_l.
  assert (∀ q wt key, Resolve tp key = Ok (q, wt) → effective q = Value q) as Heff.
  { intros q wt key (?&?&p&_&_&_&->)%Resolve_tiers_Ok. destruct p as [?????[]]; done. }
  setoid_rewrite (scanTiers_none tp _ tierOrder c tierOrder_NoDup). split.
  - intros [?|(key&_&q&wt&t&e&Hq&Ht&Hne&He&Hd&->)]; [set_solver|].
    exists key, q, wt, t, e. rewrite <- (Heff _ _ _ Hq). done.
  - intros (key&q&wt&t&e&Hq&Ht&Hne&He&Hd&->). right. exists key. split.
    + rewrite sort_by_perm, elem_of_range_keys. by eapply elem_of_conflictKeys.
    + exists q, wt, t, e. unfold disagree. rewrite (Heff _ _ _ Hq). done.
Qed.

End properties.

(** Equality of merged sets up to the informational type of an entry. *)
Definition perm_eqv (p q : Permission) : Prop :=
  Key p = Key q ∧ Value p = Value q ∧ Grant p = Grant q ∧ Skip p = Skip q ∧
  Negate p = Negate q.

#[export] Instance perm_eqv_equivalence : Equivalence perm_eqv.
Proof.
  split.
  - intros p. by unfold perm_eqv.
  - intros p q. unfold perm_eqv. naive_solver.
  - intros p q r. unfold perm_eqv. intros (?&?&?&?&?) (?&?&?&?&?). split_and!; congruence.
Qed.

Definition set_eqv (s1 s2 : PermissionSet) : Prop :=
  ∀ key, option_Forall2 (option_Forall2 perm_eqv) (s1 !! key) (s2 !! key).

#[export] Instance set_eqv_equivalence : Equivalence set_eqv.
Proof.
  split.
  - intros s key. destruct (s !! key) as [[p|]|];
      [do 2 constructor; reflexivity|do 2 constructor|constructor].
  - intros s1 s2 H key. destruct (H key) as [?? []|];
      [do 2 constructor; by symmetry|do 2 constructor|constructor].
  - intros s1 s2 s3 H1 H2 key. specialize (H1 key). specialize (H2 key).
    destruct H1 as [? p2 H1|]; inversion_clear H2 as [? p3 H3|]; [|constructor].
    destruct H1; inversion_clear H3; do 2 constructor. by etrans.
Qed.

Lemma merge_spec_perm key es es' p p' :
  es ≡ₚ es' → merge_spec key es p → merge_spec key es' p' → perm_eqv p p'.
Proof.
  intros Hes (Hk&_&Hn&Hs&Hg&Hv) (Hk'&_&Hn'&Hs'&Hg'&Hv').
  assert (any_negate es = any_negate es') as Hneg by by apply existsb_perm.
  assert (any_skip es = any_skip es') as Hskip by by apply existsb_perm.
  rewrite Hneg in Hn, Hv. rewrite Hskip in Hs. split_and!; [congruence| | |congruence..].
  - destruct (any_negate es'); [congruence|].
    eapply is_max_unique; [|exact Hv']. by eapply is_max_perm.
  - eapply is_max_unique; [|exact Hg']. by eapply is_max_perm.
Qed.

(** The result of a within-tier merge does not depend on the order in which
    the groups are listed, nor on the two runs' map iteration orders: the merged
    sets agree on every key up to the informational type. *)
Theorem MergeSet_order_insensitive (R1 R2 : ∀ V, MapRange string V) sets1 sets2 M1 M2 :
  sets1 ≡ₚ sets2 → MergeSet (H := R1) sets1 = Some M1 → MergeSet (H := R2) sets2 = Some M2 →
  set_eqv M1 M2.
Proof.
  intros Hperm H1 H2 key.
  destruct (@MergeSet_lookup R1 sets1) as (M&HM&Hl1). simplify_eq.
  destruct (@MergeSet_lookup R2 sets2) as (M&HM&Hl2). simplify_eq.
  rewrite Hl1, Hl2.
  assert (contributions key sets1 ≡ₚ contributions key sets2) as Hc.
  { unfold contributions. by rewrite Hperm. }
  destruct (contributions key sets1) as [|e1 es1], (contributions key sets2) as [|e2 es2].
  - constructor.
  - by apply Permutation_nil_cons in Hc.
  - symmetry in Hc. by apply Permutation_nil_cons in Hc.
  - destruct (mergeEntries_is_Some key (e1 :: es1)) as [p1 Hp1]; [done|].
    destruct (mergeEntries_is_Some key (e2 :: es2)) as [p2 Hp2]; [done|].
    rewrite Hp1, Hp2. do 2 constructor.
    eapply merge_spec_perm; [exact Hc|by apply mergeEntries_spec..].
Qed.

(** ** Witnesses *)

Definition sample_perm (v : Z) (neg : bool) : Permission :=
  mkPermission "i_client_talk_power" PermissionTypeInteger v 10 false neg.

Definition sample_set (p : Permission) : PermissionSet := {[ Key p := Some p ]}.

Definition sample_tiers : TieredPermissions :=
  TieredPermissions_Set NewTieredPermissions TierClientSpecific
    (sample_set (sample_perm 40 true)).

Lemma resolve_lower_tiers_irrelevant_witness :
  Resolve (TieredPermissions_Set sample_tiers TierChannel (sample_set (sample_perm 75 false)))
    "i_client_talk_power" = Ok (sample_perm 0 true, TierClientSpecific) ∧
  (Negate (sample_perm 0 true) = true → Value (sample_perm 0 true) = 0).
Proof.
  apply (resolve_lower_tiers_irrelevant sample_tiers "i_client_talk_power"
    (sample_perm 0 true) TierClientSpecific [TierServerGroup]
    [TierChannelSpecific; TierChannel; TierChannelGroup; TierChannelClient]).
  - vm_compute. reflexivity.
  - reflexivity.
  - right. left.
Defined.

Lemma MergeSet_order_insensitive_witness :
  set_eqv (sample_set (sample_perm 75 false)) (sample_set (sample_perm 75 false)).
Proof.
  apply (MergeSet_order_insensitive (λ V, stdpp_range) (λ V, stdpp_range)
    [sample_set (sample_perm 50 false); sample_set (sample_perm 75 false)]
    [sample_set (sample_perm 75 false); sample_set (sample_perm 50 false)]).
  - apply Permutation_swap.
  - vm_compute. reflexivity.
  - vm_compute. reflexivity.
Defined.
