(* ===== verification/StateManager.v ===== *)
(** * StateManager: connected clients, channels, membership, subscriptions

    Models [internal/state]: the records of [types.go] and the [Manager] of
    [manager.go]. Every method runs under the manager's mutex, so it is one
    atomic function on the manager's state. Clients and channels are cloned on the
    way in and on the way out, so the stored pointers are never shared and the
    maps hold values. The Go maps [map\[K\]map\[A\]bool] that only ever store
    [true] are families of sets ([fam_add], [fam_del] of the prelude). *)

From S2P Require Import Prelude.

(** ** types.go *)

Record Client := mkClient {
  cl_ClientID : string;
  cl_UniqueID : string;
  cl_Nickname : string;
  cl_ChannelID : Z;
  cl_IsSpeaking : bool;
  cl_PrioritySpeaker : bool;
  cl_Status : string;
  cl_StatusMessage : string;
  cl_E2EPublicKey : string;
  cl_IsBot : bool;
  cl_ConnectedAt : Z;
  cl_Conn : option Z;
  cl_Metadata : option (gmap string string);
}.

Record Channel := mkChannel {
  ch_ChannelID : Z;
  ch_ParentID : Z;
  ch_Name : string;
  ch_Topic : string;
  ch_OrderIndex : Z;
  ch_ChannelType : Z;
  ch_MaxClients : Z;
  ch_ClientCount : Z;
  ch_CreatedAt : Z;
  ch_PasswordHash : string;
  ch_NeededJoinPower : Z;
  ch_HasIcon : bool;
  ch_HasPassword : bool;
  ch_OpusBitrate : Z;
  ch_OpusFEC : bool;
  ch_OpusDTX : bool;
  ch_OpusStereo : bool;
  ch_SlowModeSeconds : Z;
  ch_Description : string;
  ch_InheritPermissions : bool;
}.

Record SpeakingState := mkSpeaking {
  ss_ClientID : string;
  ss_ChannelID : Z;
  ss_StartedAt : Z;
}.

Definition maxChannelDepth : nat := 64.

(** ** manager.go: state *)

Inductive StateError := ErrClientNotFound | ErrChannelNotFound | ErrNotInChannel.

Record Manager := mkManager {
  clients : gmap string Client;
  channels : gmap Z Channel;
  membership : gmap Z (gset string);
  speaking : gmap string SpeakingState;
  subs : gmap string (gset Z);
  subsByChannel : gmap Z (gset string);
}.

Definition NewManager : Manager := mkManager ∅ ∅ ∅ ∅ ∅ ∅.

(** Functional update of single fields. *)

Definition with_clients (f : gmap string Client → gmap string Client) (m : Manager) : Manager :=
  mkManager (f (clients m)) (channels m) (membership m) (speaking m) (subs m) (subsByChannel m).

Definition with_channels (f : gmap Z Channel → gmap Z Channel) (m : Manager) : Manager :=
  mkManager (clients m) (f (channels m)) (membership m) (speaking m) (subs m) (subsByChannel m).

Definition with_membership (f : gmap Z (gset string) → gmap Z (gset string)) (m : Manager)
  : Manager :=
  mkManager (clients m) (channels m) (f (membership m)) (speaking m) (subs m) (subsByChannel m).

Definition with_speaking (f : gmap string SpeakingState → gmap string SpeakingState)
    (m : Manager) : Manager :=
  mkManager (clients m) (channels m) (membership m) (f (speaking m)) (subs m) (subsByChannel m).

Definition with_subs (f : gmap string (gset Z) → gmap string (gset Z)) (m : Manager) : Manager :=
  mkManager (clients m) (channels m) (membership m) (speaking m) (f (subs m)) (subsByChannel m).

Definition with_subsByChannel (f : gmap Z (gset string) → gmap Z (gset string)) (m : Manager)
  : Manager :=
  mkManager (clients m) (channels m) (membership m) (speaking m) (subs m) (f (subsByChannel m)).

Definition set_channel_id (ch : Z) (c : Client) : Client :=
  mkClient (cl_ClientID c) (cl_UniqueID c) (cl_Nickname c) ch (cl_IsSpeaking c)
    (cl_PrioritySpeaker c) (cl_Status c) (cl_StatusMessage c) (cl_E2EPublicKey c) (cl_IsBot c)
    (cl_ConnectedAt c) (cl_Conn c) (cl_Metadata c).

Definition set_is_speaking (b : bool) (c : Client) : Client :=
  mkClient (cl_ClientID c) (cl_UniqueID c) (cl_Nickname c) (cl_ChannelID c) b
    (cl_PrioritySpeaker c) (cl_Status c) (cl_StatusMessage c) (cl_E2EPublicKey c) (cl_IsBot c)
    (cl_ConnectedAt c) (cl_Conn c) (cl_Metadata c).

Definition add_count (n : Z) (ch : Channel) : Channel :=
  mkChannel (ch_ChannelID ch) (ch_ParentID ch) (ch_Name ch) (ch_Topic ch) (ch_OrderIndex ch)
    (ch_ChannelType ch) (ch_MaxClients ch) (ch_ClientCount ch + n) (ch_CreatedAt ch)
    (ch_PasswordHash ch) (ch_NeededJoinPower ch) (ch_HasIcon ch) (ch_HasPassword ch)
    (ch_OpusBitrate ch) (ch_OpusFEC ch) (ch_OpusDTX ch) (ch_OpusStereo ch)
    (ch_SlowModeSeconds ch) (ch_Description ch) (ch_InheritPermissions ch).

(** ** manager.go: clients *)

Definition cloneClient (c : Client) : Client :=
  mkClient (cl_ClientID c) (cl_UniqueID c) (cl_Nickname c) (cl_ChannelID c) (cl_IsSpeaking c)
    (cl_PrioritySpeaker c) (cl_Status c) (cl_StatusMessage c) (cl_E2EPublicKey c) (cl_IsBot c)
    (cl_ConnectedAt c) (cl_Conn c)
    (match cl_Metadata c with
     | None => None
     | Some md => Some (list_to_map (map_to_list md))
     end).

Definition AddClient (c : option Client) (m : Manager) : Manager :=
  match c with
  | None => m
  | Some c =>
      let stored := cloneClient c in
      with_clients (<[cl_ClientID stored := stored]>) m
  end.

(** [ch.ClientCount--] when the channel is known and the count is positive. *)
Definition decrement_count (ch : Z) (m : Manager) : Manager :=
  match channels m !! ch with
  | Some c => if 0 <? ch_ClientCount c
              then with_channels (<[ch := add_count (-1) c]>) m
              else m
  | None => m
  end.

(** The block that [RemoveClient], [JoinChannel], [LeaveChannel] and [MoveClient]
    share: drop the client from the member set of [ch], forget the set when it
    becomes empty, and decrement the channel's count. *)
Definition drop_member (clientID : string) (ch : Z) (m : Manager) : Manager :=
  match membership m !! ch with
  | None => m
  | Some _ => decrement_count ch (with_membership (fam_del ch clientID) m)
  end.

Definition dropSubsLocked (clientID : string) (m : Manager) : Manager :=
  let held := elements (fam_get clientID (subs m)) in
  with_subs (delete clientID)
    (with_subsByChannel (λ sbc, foldl (λ acc ch, fam_del ch clientID acc) sbc held) m).

Definition RemoveClient (clientID : string) (m : Manager) : Manager * option Client :=
  match clients m !! clientID with
  | None => (m, None)
  | Some c =>
      let removed := cloneClient c in
      let m := if negb (cl_ChannelID c =? 0) then drop_member clientID (cl_ChannelID c) m else m in
      let m := with_speaking (delete clientID) m in
      let m := dropSubsLocked clientID m in
      let m := with_clients (delete clientID) m in
      (m, Some removed)
  end.

Definition GetClient (clientID : string) (m : Manager) : option Client :=
  cloneClient <$> clients m !! clientID.

Definition ClientCount (m : Manager) : Z := Z.of_nat (size (clients m)).

(** ** manager.go: channels *)

Definition cloneChannel (ch : Channel) : Channel := ch.

Definition AddChannel (ch : option Channel) (m : Manager) : Manager :=
  match ch with
  | None => m
  | Some ch =>
      let stored := cloneChannel ch in
      with_channels (<[ch_ChannelID stored := stored]>) m
  end.

Record RemovedChannelMember := mkRemoved {
  rm_ClientID : string;
  rm_ChannelID : Z;
}.

Record RemoveChannelsResult := mkRemoveResult {
  rr_Members : list RemovedChannelMember;
  rr_SubscriberIDs : list string;
}.

Definition removeChannelLocked (ch : Z) (m : Manager) : Manager :=
  let members := fam_get ch (membership m) in
  (* every member's ChannelID becomes 0 and the member set is dropped *)
  let m := with_clients (map_imap (λ id c,
             Some (if decide (id ∈ members) then set_channel_id 0 c else c))) m in
  let m := with_membership (delete ch) m in
  (* speaking states recorded in this channel are cleared *)
  let spk := speaking m in
  let m := with_clients (map_imap (λ id c,
             Some (match spk !! id with
                   | Some ss => if ss_ChannelID ss =? ch then set_is_speaking false c else c
                   | None => c
                   end))) m in
  let m := with_speaking (filter (λ '(_, ss), ss_ChannelID ss ≠ ch)) m in
  (* subscriptions to this channel are dropped on both sides *)
  let subscribers := elements (fam_get ch (subsByChannel m)) in
  let m := with_subs (λ s, foldl (λ acc id, fam_del id ch acc) s subscribers) m in
  let m := with_subsByChannel (delete ch) m in
  with_channels (delete ch) m.

(** The order of the displaced members in the result: channel, then client. *)
Definition removed_le (a b : RemovedChannelMember) : Prop :=
  rm_ChannelID a < rm_ChannelID b ∨
  (rm_ChannelID a = rm_ChannelID b ∧ String.le (rm_ClientID a) (rm_ClientID b)).

#[export] Instance removed_le_dec : RelDecision removed_le.
Proof. intros a b. unfold removed_le. apply _. Defined.

(** The loop of [RemoveChannels]: subscribers and members are read before each
    channel is removed. *)
Fixpoint removeChannels_loop (ids : list Z) (m : Manager) (affected : gset string)
    (removed : list RemovedChannelMember)
  : Manager * gset string * list RemovedChannelMember :=
  match ids with
  | [] => (m, affected, removed)
  | ch :: rest =>
      let affected := affected ∪ fam_get ch (subsByChannel m) in
      let removed := removed ++
        ((λ id, mkRemoved id ch) <$> elements (fam_get ch (membership m))) in
      removeChannels_loop rest (removeChannelLocked ch m) affected removed
  end.

Definition RemoveChannels (channelIDs : list Z) (m : Manager)
  : Manager * RemoveChannelsResult :=
  let '(m, affected, removed) := removeChannels_loop channelIDs m ∅ [] in
  (m, mkRemoveResult (sort_by removed_le removed) (sort_by String.le (elements affected))).

Definition RemoveChannel (ch : Z) (m : Manager) : Manager := (RemoveChannels [ch] m).1.

Definition GetChannel (ch : Z) (m : Manager) : option Channel :=
  cloneChannel <$> channels m !! ch.

Record ChannelUpdate := mkChannelUpdate {
  up_ParentID : option Z;
  up_Name : option string;
  up_Topic : option string;
  up_OrderIndex : option Z;
  up_ChannelType : option Z;
  up_MaxClients : option Z;
  up_PasswordHash : option string;
  up_NeededJoinPower : option Z;
  up_HasIcon : option bool;
  up_HasPassword : option bool;
  up_OpusBitrate : option Z;
  up_OpusFEC : option bool;
  up_OpusDTX : option bool;
  up_OpusStereo : option bool;
  up_SlowModeSeconds : option Z;
  up_Description : option string;
  up_InheritPermissions : option bool;
}.

Definition no_update : ChannelUpdate :=
  mkChannelUpdate None None None None None None None None None None None None None None None
    None None.

Definition apply_update (u : ChannelUpdate) (ch : Channel) : Channel :=
  mkChannel (ch_ChannelID ch)
    (default (ch_ParentID ch) (up_ParentID u))
    (default (ch_Name ch) (up_Name u))
    (default (ch_Topic ch) (up_Topic u))
    (default (ch_OrderIndex ch) (up_OrderIndex u))
    (default (ch_ChannelType ch) (up_ChannelType u))
    (default (ch_MaxClients ch) (up_MaxClients u))
    (ch_ClientCount ch)
    (ch_CreatedAt ch)
    (default (ch_PasswordHash ch) (up_PasswordHash u))
    (default (ch_NeededJoinPower ch) (up_NeededJoinPower u))
    (default (ch_HasIcon ch) (up_HasIcon u))
    (default (ch_HasPassword ch) (up_HasPassword u))
    (default (ch_OpusBitrate ch) (up_OpusBitrate u))
    (default (ch_OpusFEC ch) (up_OpusFEC u))
    (default (ch_OpusDTX ch) (up_OpusDTX u))
    (default (ch_OpusStereo ch) (up_OpusStereo u))
    (default (ch_SlowModeSeconds ch) (up_SlowModeSeconds u))
    (default (ch_Description ch) (up_Description u))
    (default (ch_InheritPermissions ch) (up_InheritPermissions u)).

Definition state_UpdateChannel (ch : Z) (u : ChannelUpdate) (m : Manager) : Manager * bool :=
  match channels m !! ch with
  | None => (m, false)
  | Some c => (with_channels (<[ch := apply_update u c]>) m, true)
  end.

Definition SetChannelHasIcon (ch : Z) (hasIcon : bool) (m : Manager) : Manager * bool :=
  state_UpdateChannel ch
    (mkChannelUpdate None None None None None None None None (Some hasIcon) None None None None
       None None None None) m.

Definition ChannelHasIcon (ch : Z) (m : Manager) : bool * bool :=
  match channels m !! ch with
  | None => (false, false)
  | Some c => (ch_HasIcon c, true)
  end.

Definition ChannelCount (m : Manager) : Z := Z.of_nat (size (channels m)).

(** ** manager.go: membership *)

(** [members\[clientID\] = true] and [ch.ClientCount++]. *)
Definition enter_channel (clientID : string) (ch : Z) (m : Manager) : Manager :=
  with_channels (alter (add_count 1) ch) (with_membership (fam_add ch clientID) m).

Definition JoinChannel (clientID : string) (channelID : Z) (m : Manager)
  : Manager * result StateError unit :=
  match clients m !! clientID with
  | None => (m, Err ErrClientNotFound)
  | Some c =>
      match channels m !! channelID with
      | None => (m, Err ErrChannelNotFound)
      | Some _ =>
          if cl_ChannelID c =? channelID then (m, Ok tt) else
          let m := if negb (cl_ChannelID c =? 0)
                   then drop_member clientID (cl_ChannelID c) m else m in
          let m := with_clients (<[clientID := set_channel_id channelID c]>) m in
          (enter_channel clientID channelID m, Ok tt)
      end
  end.

(** [delete(m.speaking, clientID); c.IsSpeaking = false] when the client has a
    speaking state. *)
Definition clear_speaking (clientID : string) (c : Client) (m : Manager) : Manager * Client :=
  match speaking m !! clientID with
  | Some _ => (with_speaking (delete clientID) m, set_is_speaking false c)
  | None => (m, c)
  end.

Definition LeaveChannel (clientID : string) (m : Manager) : Manager * result StateError unit :=
  match clients m !! clientID with
  | None => (m, Err ErrClientNotFound)
  | Some c =>
      if cl_ChannelID c =? 0 then (m, Err ErrNotInChannel) else
      let m := drop_member clientID (cl_ChannelID c) m in
      let '(m, c) := clear_speaking clientID c m in
      (with_clients (<[clientID := set_channel_id 0 c]>) m, Ok tt)
  end.

Definition MoveClient (clientID : string) (target : Z) (m : Manager)
  : Manager * result StateError unit :=
  match clients m !! clientID with
  | None => (m, Err ErrClientNotFound)
  | Some c =>
      match channels m !! target with
      | None => (m, Err ErrChannelNotFound)
      | Some _ =>
          if cl_ChannelID c =? target then (m, Ok tt) else
          let '(m, c) :=
            if negb (cl_ChannelID c =? 0)
            then clear_speaking clientID c (drop_member clientID (cl_ChannelID c) m)
            else (m, c) in
          let m := with_clients (<[clientID := set_channel_id target c]>) m in
          (enter_channel clientID target m, Ok tt)
      end
  end.

(** The members of a channel, as client snapshots in the order of the set. *)
Definition ChannelMembers (ch : Z) (m : Manager) : list Client :=
  omap (λ id, GetClient id m) (elements (fam_get ch (membership m))).

(** ** manager.go: subscriptions *)

Definition subscribe_one (clientID : string) (m : Manager) (ch : Z) : Manager :=
  match channels m !! ch with
  | None => m
  | Some _ => with_subsByChannel (fam_add ch clientID) (with_subs (fam_add clientID ch) m)
  end.

Definition Subscribe (clientID : string) (channelIDs : list Z) (m : Manager) : Manager :=
  match clients m !! clientID with
  | None => m
  | Some _ => foldl (subscribe_one clientID) m channelIDs
  end.

Definition Unsubscribe (clientID : string) (channelIDs : list Z) (m : Manager) : Manager :=
  match subs m !! clientID with
  | None => m
  | Some held =>
      let held' := held ∖ list_to_set channelIDs in
      let m := with_subsByChannel
        (λ sbc, foldl (λ acc ch, fam_del ch clientID acc) sbc channelIDs) m in
      with_subs (λ s, if decide (held' = ∅) then delete clientID s else <[clientID := held']> s) m
  end.

Definition Subscriptions (clientID : string) (m : Manager) : list Z :=
  sort_by Z.le (elements (fam_get clientID (subs m))).

Definition IsSubscribed (clientID : string) (ch : Z) (m : Manager) : bool :=
  bool_decide (ch ∈ fam_get clientID (subs m)).

Definition ClientChannelState (clientID : string) (m : Manager) : option (Z * string) :=
  (λ c, (cl_ChannelID c, cl_E2EPublicKey c)) <$> clients m !! clientID.

Definition ChannelSubscribers (ch : Z) (m : Manager) : list Client :=
  omap (λ id, GetClient id m) (elements (fam_get ch (subsByChannel m))).

(** ** manager.go: speaking and presence *)

Definition SetSpeaking (clientID : string) (on : bool) (now : Z) (m : Manager) : Manager :=
  match clients m !! clientID with
  | None => m
  | Some c =>
      if on then
        with_speaking (<[clientID := mkSpeaking clientID (cl_ChannelID c) now]>)
          (with_clients (<[clientID := set_is_speaking true c]>) m)
      else
        with_speaking (delete clientID)
          (with_clients (<[clientID := set_is_speaking false c]>) m)
  end.

Definition SetPrioritySpeaker (clientID : string) (active : bool) (m : Manager) : Manager :=
  with_clients (alter (λ c,
    mkClient (cl_ClientID c) (cl_UniqueID c) (cl_Nickname c) (cl_ChannelID c) (cl_IsSpeaking c)
      active (cl_Status c) (cl_StatusMessage c) (cl_E2EPublicKey c) (cl_IsBot c)
      (cl_ConnectedAt c) (cl_Conn c) (cl_Metadata c)) clientID) m.

Definition SetE2EPublicKey (clientID publicKey : string) (m : Manager) : Manager :=
  with_clients (alter (λ c,
    mkClient (cl_ClientID c) (cl_UniqueID c) (cl_Nickname c) (cl_ChannelID c) (cl_IsSpeaking c)
      (cl_PrioritySpeaker c) (cl_Status c) (cl_StatusMessage c) publicKey (cl_IsBot c)
      (cl_ConnectedAt c) (cl_Conn c) (cl_Metadata c)) clientID) m.

Definition SetStatus (clientID status message : string) (m : Manager) : Manager :=
  with_clients (alter (λ c,
    mkClient (cl_ClientID c) (cl_UniqueID c) (cl_Nickname c) (cl_ChannelID c) (cl_IsSpeaking c)
      (cl_PrioritySpeaker c) status message (cl_E2EPublicKey c) (cl_IsBot c)
      (cl_ConnectedAt c) (cl_Conn c) (cl_Metadata c)) clientID) m.

Definition IsSpeaking (clientID : string) (m : Manager) : bool :=
  bool_decide (is_Some (speaking m !! clientID)).

(** ** manager.go: snapshots whose order the map iteration decides *)

Section ranged.
Context `{!∀ V, MapRange string V, !∀ V, MapRange Z V}.

Definition GetClientByUniqueID (uniqueID : string) (m : Manager) : option Client :=
  cloneClient <$> head (filter (λ c, cl_UniqueID c = uniqueID) (range (clients m)).*2).

Definition ListClients (m : Manager) : list Client := cloneClient <$> (range (clients m)).*2.

Definition ListChannels (m : Manager) : list Channel := cloneChannel <$> (range (channels m)).*2.

Definition SpeakingClients (m : Manager) : list SpeakingState := (range (speaking m)).*2.

End ranged.

Record Stats := mkStats {
  st_ClientCount : Z;
  st_ChannelCount : Z;
  st_SpeakingCount : Z;
  st_ChannelClientCounts : gmap Z Z;
}.

Definition Manager_Stats (m : Manager) : Stats :=
  mkStats (Z.of_nat (size (clients m))) (Z.of_nat (size (channels m)))
    (Z.of_nat (size (speaking m))) (ch_ClientCount <$> channels m).
