(* ===== verification/StateInvariant.v ===== *)
(** * StateInvariant: the consistency of the state manager's six maps

    The manager keeps redundant data: a client's [ChannelID] and the member sets,
    a channel's [ClientCount] and the size of its member set, a client's
    [IsSpeaking] flag and the speaking map, the two directions of the
    subscription index. [wf] states that they agree; every operation of the
    manager preserves it, so it holds in every reachable state. *)

From S2P Require Import Prelude StateManager.

(** ** The invariant *)

(** Where the clients stand: member sets, channel ids and counts agree. *)
Record wf_members (m : Manager) : Prop := {
  wf_client_key id c : clients m !! id = Some c → cl_ClientID c = id;
  wf_channel_key ch c : channels m !! ch = Some c → ch_ChannelID c = ch ∧ ch ≠ 0;
  wf_members_fam : fam_wf (membership m);
  wf_member ch id : id ∈ fam_get ch (membership m) ↔
    ch ≠ 0 ∧ ∃ c, clients m !! id = Some c ∧ cl_ChannelID c = ch;
  wf_member_channel ch : is_Some (membership m !! ch) → is_Some (channels m !! ch);
  wf_count ch c : channels m !! ch = Some c →
    ch_ClientCount c = Z.of_nat (size (fam_get ch (membership m)));
}.

(** A client is flagged as speaking exactly when it has a speaking state. *)
Definition wf_speaking (m : Manager) : Prop :=
  ∀ id, is_Some (speaking m !! id) ↔ ∃ c, clients m !! id = Some c ∧ cl_IsSpeaking c = true.

(** The two directions of the subscription index mirror each other, hold no empty
    set, and mention only known clients and channels. *)
Record wf_subs (m : Manager) : Prop := {
  wf_subs_fam : fam_wf (subs m);
  wf_sbc_fam : fam_wf (subsByChannel m);
  wf_mirror id ch : ch ∈ fam_get id (subs m) ↔ id ∈ fam_get ch (subsByChannel m);
  wf_subs_client id : is_Some (subs m !! id) → is_Some (clients m !! id);
  wf_sbc_channel ch : is_Some (subsByChannel m !! ch) → is_Some (channels m !! ch);
}.

Record wf (m : Manager) : Prop := {
  wf_m : wf_members m;
  wf_s : wf_speaking m;
  wf_b : wf_subs m;
}.

(** ** Basic lemmas *)

Lemma cloneClient_id c : cloneClient c = c.
Proof. destruct c as [???????????? [md|]]; [|done]. unfold cloneClient. simpl.
  by rewrite list_to_map_to_list. Qed.

Lemma GetClient_lookup id m : GetClient id m = clients m !! id.
Proof. unfold GetClient. destruct (clients m !! id); simpl; by rewrite ?cloneClient_id. Qed.

Lemma fam_get_lookup_ne {K A} `{Countable K, Countable A} (k : K) (a : A) (m : gmap K (gset A)) :
  a ∈ fam_get k m → is_Some (m !! k).
Proof. unfold fam_get. destruct (m !! k); [by eauto|set_solver]. Qed.

Lemma wf_member_is_channel m id c :
  wf_members m → clients m !! id = Some c → cl_ChannelID c ≠ 0 →
  id ∈ fam_get (cl_ChannelID c) (membership m) ∧ is_Some (channels m !! cl_ChannelID c).
Proof.
  intros Hm Hc Hne.
  assert (id ∈ fam_get (cl_ChannelID c) (membership m)) as Hin.
  { apply (wf_member m Hm). eauto. }
  split; [done|]. apply (wf_member_channel m Hm). by eapply fam_get_lookup_ne.
Qed.

(** The membership part of leaving: [drop_member] and resetting the channel id of
    the client, whatever happens to its other fields. *)
Definition leave_state (id : string) (ch : Z) (c' : Client) (m : Manager) : Manager :=
  with_clients (<[id := c']>) (drop_member id ch m).

Definition enter_state (id : string) (ch : Z) (c' : Client) (m : Manager) : Manager :=
  enter_channel id ch (with_clients (<[id := c']>) m).

Lemma drop_member_eq id c m :
  wf_members m → clients m !! id = Some c → cl_ChannelID c ≠ 0 →
  ∃ chan, channels m !! cl_ChannelID c = Some chan ∧
    drop_member id (cl_ChannelID c) m =
      mkManager (clients m) (<[cl_ChannelID c := add_count (-1) chan]> (channels m))
        (fam_del (cl_ChannelID c) id (membership m)) (speaking m) (subs m) (subsByChannel m).
Proof.
  intros Hm Hc Hne. destruct (wf_member_is_channel m id c Hm Hc Hne) as [Hin [chan Hchan]].
  exists chan. split; [done|]. unfold drop_member, decrement_count.
  destruct (fam_get_lookup_ne _ _ _ Hin) as [s Hs]. rewrite Hs. simpl. rewrite Hchan.
  rewrite (wf_count m Hm _ _ Hchan).
  destruct (Z.ltb_spec 0 (Z.of_nat (size (fam_get (cl_ChannelID c) (membership m))))) as [|Hz];
    [done|].
  exfalso. assert (size (fam_get (cl_ChannelID c) (membership m)) = 0%nat) as Hz' by lia.
  apply size_empty_iff in Hz'. set_solver.
Qed.

Lemma leave_wf_members id c c' m :
  wf_members m → clients m !! id = Some c → cl_ChannelID c ≠ 0 →
  cl_ClientID c' = id → cl_ChannelID c' = 0 →
  wf_members (leave_state id (cl_ChannelID c) c' m).
Proof.
  intros Hm Hc Hne Hid Hch. unfold leave_state.
  destruct (drop_member_eq id c m Hm Hc Hne) as (chan&Hchan&->).
  destruct (wf_member_is_channel m id c Hm Hc Hne) as [Hin _].
  split; simpl.
  - intros id' c0 [[<- <-]|[? ?]]%lookup_insert_Some; [done|by eapply wf_client_key].
  - intros ch c0 [[<- <-]|[? ?]]%lookup_insert_Some; simpl; by eapply wf_channel_key.
  - auto using wf_members_fam with noxa.
  - intros ch id'. rewrite elem_of_fam_del, (wf_member m Hm ch id').
    destruct (decide (id' = id)) as [->|Hidne].
    + rewrite lookup_insert_eq, Hc. naive_solver.
    + rewrite lookup_insert_ne by done. naive_solver.
  - intros ch Hs. rewrite lookup_insert_is_Some'. right. apply (wf_member_channel m Hm).
    apply fam_wf_lookup in Hs; [|eauto using wf_members_fam with noxa].
    rewrite fam_get_del in Hs. apply fam_wf_lookup; [by apply wf_members_fam|].
    case_decide; set_solver.
  - intros ch c0. rewrite lookup_insert. case_decide as Hcase; [subst ch|].
    + intros [= <-]. simpl. rewrite (wf_count m Hm _ _ Hchan).
      rewrite <- (size_fam_del (cl_ChannelID c) id) by done. lia.
    + intros Hc0. rewrite fam_get_del, decide_False by done. by apply (wf_count m Hm).
Qed.

Lemma enter_wf_members id c c' ch m :
  wf_members m → clients m !! id = Some c → cl_ChannelID c = 0 →
  is_Some (channels m !! ch) → cl_ClientID c' = id → cl_ChannelID c' = ch →
  wf_members (enter_state id ch c' m).
Proof.
  intros Hm Hc Hz [chan Hchan] Hid Hch.
  destruct (wf_channel_key m Hm _ _ Hchan) as [_ Hne].
  assert (∀ ch', id ∉ fam_get ch' (membership m)) as Hnot.
  { intros ch' [Hch' (c0&Hc0&Heq)]%(wf_member m Hm). naive_solver. }
  split; simpl.
  - intros id' c0 [[<- <-]|[? ?]]%lookup_insert_Some; [done|by eapply wf_client_key].
  - intros ch' c0. rewrite lookup_alter_Some.
    intros [[-> (c1&Hc1&->)]|[? ?]]; simpl; by eapply wf_channel_key.
  - auto using wf_members_fam with noxa.
  - intros ch' id'. rewrite elem_of_fam_add, (wf_member m Hm ch' id').
    destruct (decide (id' = id)) as [->|Hidne].
    + rewrite lookup_insert_eq, Hc. naive_solver.
    + rewrite lookup_insert_ne by done. naive_solver.
  - intros ch' Hs. rewrite lookup_alter_is_Some. destruct (decide (ch' = ch)) as [->|]; [by eauto|].
    apply (wf_member_channel m Hm). unfold fam_add in Hs.
    by rewrite lookup_insert_ne in Hs.
  - intros ch' c0. rewrite lookup_alter. case_decide as Hcase.
    + subst ch'. rewrite Hchan. intros [= <-]. simpl.
      rewrite (wf_count m Hm _ _ Hchan). rewrite size_fam_add by done. lia.
    + intros Hc0. rewrite fam_get_add, decide_False by done. by apply (wf_count m Hm).
Qed.

(** ** Parts of the invariant that an operation does not touch *)

Lemma wf_speaking_ext m m' :
  speaking m' = speaking m → cl_IsSpeaking <$> clients m' = cl_IsSpeaking <$> clients m →
  wf_speaking m → wf_speaking m'.
Proof.
  intros Hs Hc Hwf id. rewrite Hs, (Hwf id).
  apply (f_equal (lookup id)) in Hc. rewrite !lookup_fmap in Hc.
  destruct (clients m !! id), (clients m' !! id); naive_solver.
Qed.

Lemma wf_subs_ext m m' :
  subs m' = subs m → subsByChannel m' = subsByChannel m →
  (∀ id, is_Some (clients m !! id) → is_Some (clients m' !! id)) →
  (∀ ch, is_Some (channels m !! ch) → is_Some (channels m' !! ch)) →
  wf_subs m → wf_subs m'.
Proof. intros Hs Hb Hc Hch []. split; rewrite ?Hs, ?Hb; naive_solver. Qed.

Lemma wf_members_ext m m' :
  membership m' = membership m →
  (λ c, (cl_ClientID c, cl_ChannelID c)) <$> clients m' =
    (λ c, (cl_ClientID c, cl_ChannelID c)) <$> clients m →
  (λ c, (ch_ChannelID c, ch_ClientCount c)) <$> channels m' =
    (λ c, (ch_ChannelID c, ch_ClientCount c)) <$> channels m →
  wf_members m → wf_members m'.
Proof.
  intros Hm Hc Hch Hwf.
  assert (∀ id c', clients m' !! id = Some c' → ∃ c, clients m !! id = Some c ∧
    cl_ClientID c = cl_ClientID c' ∧ cl_ChannelID c = cl_ChannelID c') as Hc1.
  { intros id c' Hid. apply (f_equal (lookup id)) in Hc. rewrite !lookup_fmap, Hid in Hc.
    destruct (clients m !! id); naive_solver. }
  assert (∀ id c, clients m !! id = Some c → ∃ c', clients m' !! id = Some c' ∧
    cl_ClientID c' = cl_ClientID c ∧ cl_ChannelID c' = cl_ChannelID c) as Hc2.
  { intros id c Hid. apply (f_equal (lookup id)) in Hc. rewrite !lookup_fmap, Hid in Hc.
    destruct (clients m' !! id); naive_solver. }
  assert (∀ ch c', channels m' !! ch = Some c' → ∃ c, channels m !! ch = Some c ∧
    ch_ChannelID c = ch_ChannelID c' ∧ ch_ClientCount c = ch_ClientCount c') as Hch1.
  { intros ch c' Hid. apply (f_equal (lookup ch)) in Hch. rewrite !lookup_fmap, Hid in Hch.
    destruct (channels m !! ch); naive_solver. }
  split; rewrite ?Hm.
  - intros id c' (c&Hid&<-&_)%Hc1. by eapply wf_client_key.
  - intros ch c' (c&Hid&<-&_)%Hch1. by eapply wf_channel_key.
  - by apply wf_members_fam.
  - intros ch id. rewrite (wf_member m Hwf). split.
    + intros (?&c&(c'&?&?&?)%Hc2&?). split; [done|]. exists c'. naive_solver congruence.
    + intros (?&c'&(c&?&?&?)%Hc1&?). split; [done|]. exists c. naive_solver congruence.
  - intros ch [c Hs]%(wf_member_channel m Hwf). apply (f_equal (lookup ch)) in Hch.
    rewrite !lookup_fmap, Hs in Hch. destruct (channels m' !! ch); naive_solver.
  - intros ch c' (c&Hid&_&<-)%Hch1. by apply (wf_count m Hwf).
Qed.

(** A client whose other fields change keeps the invariant. *)
Lemma wf_alter_client f id m :
  (∀ c, cl_ClientID (f c) = cl_ClientID c ∧ cl_ChannelID (f c) = cl_ChannelID c ∧
        cl_IsSpeaking (f c) = cl_IsSpeaking c) →
  wf m → wf (with_clients (alter f id) m).
Proof.
  intros Hf [Hm Hs Hb].
  assert (∀ {B} (g : Client → B), (∀ c, g (f c) = g c) →
    g <$> alter f id (clients m) = g <$> clients m) as Hg.
  { intros B g Hgf. apply map_eq. intros i. rewrite !lookup_fmap, lookup_alter.
    case_decide; [|done]. subst. destruct (clients m !! i); simpl; [|done].
    by rewrite Hgf. }
  split.
  - apply (wf_members_ext m); [done| |done|exact Hm]. apply Hg. intros c.
    destruct (Hf c) as (?&?&?). congruence.
  - apply (wf_speaking_ext m); [done| |exact Hs]. apply Hg. apply Hf.
  - apply (wf_subs_ext m); [done..| |done|exact Hb]. intros i. simpl. by rewrite lookup_alter_is_Some.
Qed.

(** ** Operations on clients *)

Lemma AddClient_wf c m :
  clients m !! cl_ClientID c = None → cl_ChannelID c = 0 → cl_IsSpeaking c = false →
  wf m → wf (AddClient (Some c) m).
Proof.
  intros Hnew Hz Hq [Hm Hs Hb]. unfold AddClient. rewrite cloneClient_id. split.
  - split; simpl; try apply Hm.
    + intros id c0 [[<- <-]|[? ?]]%lookup_insert_Some; [done|by eapply wf_client_key].
    + intros ch id. rewrite (wf_member m Hm). apply and_iff_compat_l_weak. intros Hch.
      destruct (decide (id = cl_ClientID c)) as [->|].
      * rewrite lookup_insert_eq, Hnew. split; intros (?&?&?); congruence.
      * by rewrite lookup_insert_ne by done.
  - intros id. simpl. rewrite (Hs id). destruct (decide (id = cl_ClientID c)) as [->|].
    + rewrite lookup_insert_eq, Hnew. split; intros (?&?&?); congruence.
    + by rewrite lookup_insert_ne by done.
  - apply (wf_subs_ext m); [done..| |done|exact Hb]. intros id. simpl.
    rewrite lookup_insert_is_Some'. tauto.
Qed.

Lemma elem_of_fold_fam_del {K A} `{Countable K, Countable A} (ks : list K) (a : A)
    (m : gmap K (gset A)) k b :
  b ∈ fam_get k (foldl (λ acc k, fam_del k a acc) m ks) ↔
  b ∈ fam_get k m ∧ ¬ (k ∈ ks ∧ b = a).
Proof.
  revert m. induction ks as [|k0 ks IH]; intros m; simpl; [set_solver|].
  rewrite IH, elem_of_fam_del, elem_of_cons. naive_solver.
Qed.

Lemma fold_fam_del_wf {K A} `{Countable K, Countable A} (ks : list K) (a : A)
    (m : gmap K (gset A)) :
  fam_wf m → fam_wf (foldl (λ acc k, fam_del k a acc) m ks).
Proof.
  revert m. induction ks as [|k0 ks IH]; intros m Hm; simpl; auto with noxa.
Qed.
#[export] Hint Resolve fold_fam_del_wf : noxa.

Lemma dropSubs_wf_subs id m : wf_subs m → wf_subs (with_clients (delete id) (dropSubsLocked id m)).
Proof.
  intros Hb. split; simpl.
  - eauto using wf_subs_fam with noxa.
  - eauto using wf_sbc_fam with noxa.
  - intros id' ch. rewrite elem_of_fam_delete, elem_of_fold_fam_del, elem_of_elements.
    rewrite !(wf_mirror m Hb). naive_solver.
  - intros id'. rewrite !lookup_delete_is_Some. intros [? ?]. split; [done|].
    by apply (wf_subs_client m Hb).
  - intros ch Hs. apply fam_wf_lookup in Hs; [|eauto using wf_sbc_fam with noxa].
    apply set_choose_L in Hs as [id' Hs]. apply elem_of_fold_fam_del in Hs as [Hs _].
    apply (wf_sbc_channel m Hb). by eapply fam_get_lookup_ne.
Qed.

(** Forgetting a client that stands in no channel. *)
Lemma delete_client_wf_members id c m :
  wf_members m → clients m !! id = Some c → cl_ChannelID c = 0 →
  wf_members (with_clients (delete id) m).
Proof.
  intros Hm Hc Hz. split; simpl; try apply Hm.
  - intros id' c' [? ?]%lookup_delete_Some. by eapply wf_client_key.
  - intros ch id'. rewrite (wf_member m Hm). apply and_iff_compat_l_weak. intros Hch.
    destruct (decide (id' = id)) as [->|]; [|by rewrite lookup_delete_ne by done].
    rewrite lookup_delete_eq. split; intros (?&?&?); congruence.
Qed.

(** [drop_member] touches the member sets and one count only. *)
Lemma drop_member_frame id ch m :
  clients (drop_member id ch m) = clients m ∧ speaking (drop_member id ch m) = speaking m ∧
  subs (drop_member id ch m) = subs m ∧
  subsByChannel (drop_member id ch m) = subsByChannel m ∧
  ∀ ch', is_Some (channels m !! ch') → is_Some (channels (drop_member id ch m) !! ch').
Proof.
  unfold drop_member, decrement_count. repeat (case_match; simpl); split_and!; try done.
  intros ch'. rewrite lookup_insert_is_Some'. tauto.
Qed.

Lemma RemoveClient_wf id m : wf m → wf (RemoveClient id m).1.
Proof.
  intros [Hm Hs Hb]. unfold RemoveClient. destruct (clients m !! id) as [c|] eqn:Hc; [|by split].
  simpl. set (m1 := if negb (cl_ChannelID c =? 0) then _ else m).
  assert (clients m1 = clients m ∧ speaking m1 = speaking m ∧ subs m1 = subs m ∧
    subsByChannel m1 = subsByChannel m ∧
    ∀ ch', is_Some (channels m !! ch') → is_Some (channels m1 !! ch')) as (F1&F2&F3&F4&F5).
  { unfold m1. case_match; [apply drop_member_frame|done]. }
  split.
  - destruct (Z.eqb_spec (cl_ChannelID c) 0) as [Hz|Hne]; simpl in m1.
    + apply (wf_members_ext (with_clients (delete id) m)); [done..|].
      by apply (delete_client_wf_members id c).
    + apply (wf_members_ext (with_clients (delete id)
        (leave_state id (cl_ChannelID c) (set_channel_id 0 c) m))); [done| |done|].
      * simpl. by rewrite F1, (proj1 (drop_member_frame _ _ _)), delete_insert_eq.
      * apply (delete_client_wf_members id (set_channel_id 0 c)); [|by simpl; rewrite lookup_insert_eq|done].
        apply leave_wf_members; [done..| |done]. exact (wf_client_key m Hm id c Hc).
  - intros id'. simpl. rewrite F1, F2. rewrite lookup_delete_is_Some, (Hs id').
    destruct (decide (id' = id)) as [->|].
    + rewrite lookup_delete_eq. split; [by intros []|by intros (?&?&?)].
    + rewrite lookup_delete_ne by done. naive_solver.
  - change (wf_subs (with_clients (delete id) (dropSubsLocked id (with_speaking (delete id) m1)))).
    apply dropSubs_wf_subs. apply (wf_subs_ext m); [exact F3|exact F4| |exact F5|done].
    simpl. by rewrite F1.
Qed.

(** ** Operations on channels *)

Lemma AddChannel_wf ch m :
  ch_ChannelID ch ≠ 0 →
  ch_ClientCount ch = Z.of_nat (size (fam_get (ch_ChannelID ch) (membership m))) →
  wf m → wf (AddChannel (Some ch) m).
Proof.
  intros Hz Hcount [Hm Hs Hb]. split.
  - split; simpl; try apply Hm.
    + intros ch' c [[<- <-]|[? ?]]%lookup_insert_Some; [done|by eapply wf_channel_key].
    + intros ch' ?%(wf_member_channel m Hm). rewrite lookup_insert_is_Some'. by right.
    + intros ch' c [[<- <-]|[? ?]]%lookup_insert_Some; [done|by apply (wf_count m Hm)].
  - exact Hs.
  - apply (wf_subs_ext m); [done..| |done]. intros id. simpl.
    rewrite lookup_insert_is_Some'. tauto.
Qed.

Lemma state_UpdateChannel_wf ch u m : wf m → wf (state_UpdateChannel ch u m).1.
Proof.
  intros [Hm Hs Hb]. unfold state_UpdateChannel.
  destruct (channels m !! ch) as [c|] eqn:Hc; [|by split]. simpl. split.
  - apply (wf_members_ext m); [done|done| |done]. simpl. rewrite fmap_insert.
    apply insert_id. by rewrite lookup_fmap, Hc.
  - exact Hs.
  - apply (wf_subs_ext m); [done..| |done]. intros id. simpl.
    rewrite lookup_insert_is_Some'. tauto.
Qed.

(** The clients map after [removeChannelLocked], client by client. *)
Lemma removeChannelLocked_client ch m id :
  clients (removeChannelLocked ch m) !! id =
    (λ c, let c := if decide (id ∈ fam_get ch (membership m)) then set_channel_id 0 c else c in
          match speaking m !! id with
          | Some ss => if ss_ChannelID ss =? ch then set_is_speaking false c else c
          | None => c
          end) <$> clients m !! id.
Proof. simpl. rewrite !map_lookup_imap. by destruct (clients m !! id). Qed.

Lemma removeChannelLocked_wf_members ch m :
  wf_members m → wf_members (removeChannelLocked ch m).
Proof.
  intros Hm.
  assert (∀ id c', clients (removeChannelLocked ch m) !! id = Some c' →
    ∃ c, clients m !! id = Some c ∧ cl_ClientID c' = cl_ClientID c ∧
      cl_ChannelID c' = if decide (id ∈ fam_get ch (membership m)) then 0 else cl_ChannelID c)
    as Hcl.
  { intros id c'. rewrite removeChannelLocked_client, fmap_Some.
    intros (c&Hc&->). exists c. split; [done|]. repeat case_match; done. }
  split.
  - intros id c' (c&Hc&->&_)%Hcl. by apply (wf_client_key m Hm).
  - intros ch' c. simpl. rewrite lookup_delete_Some. intros [_ ?]. by eapply wf_channel_key.
  - simpl. eauto using wf_members_fam with noxa.
  - intros ch' id. simpl membership. rewrite elem_of_fam_delete. split.
    + intros [Hin Hne]. pose proof Hin as [Hz (c&Hc&Hcc)]%(wf_member m Hm). split; [done|].
      eexists. split; [by rewrite removeChannelLocked_client, Hc|].
      assert (id ∉ fam_get ch (membership m)) as Hni.
      { intros [_ (c0&Hc0&Hcc0)]%(wf_member m Hm). congruence. }
      simpl. rewrite decide_False by done. by repeat case_match.
    + intros [Hz (c'&(c&Hc&_&Hcc)%Hcl&Heq)]. case_decide as Hd; [congruence|].
      assert (id ∈ fam_get ch' (membership m)) as Hin.
      { apply (wf_member m Hm). split; [done|]. exists c. split; [done|congruence]. }
      split; [done|]. by intros ->.
  - intros ch'. simpl. rewrite !lookup_delete_is_Some. intros [? ?]. split; [done|].
    by apply (wf_member_channel m Hm).
  - intros ch' c. simpl. rewrite lookup_delete_Some. intros [Hne Hc].
    rewrite fam_get_delete, decide_False by done. by apply (wf_count m Hm).
Qed.

Lemma map_filter_lookup_is_Some_spk ch (spk : gmap string SpeakingState) id :
  is_Some (filter (λ '(_, ss), ss_ChannelID ss ≠ ch) spk !! id) ↔
  ∃ ss, spk !! id = Some ss ∧ ss_ChannelID ss ≠ ch.
Proof.
  unfold is_Some. setoid_rewrite map_lookup_filter_Some. done.
Qed.

Lemma removeChannelLocked_wf_speaking ch m :
  wf_speaking m → wf_speaking (removeChannelLocked ch m).
Proof.
  intros Hs id. rewrite removeChannelLocked_client. simpl.
  rewrite map_filter_lookup_is_Some_spk. pose proof (Hs id) as Hid.
  destruct (speaking m !! id) as [ss|] eqn:Hss.
  - destruct (proj1 Hid) as (c&Hc&Hb); [by eauto|]. rewrite Hc. simpl.
    destruct (Z.eqb_spec (ss_ChannelID ss) ch) as [He|Hne].
    + split; [intros (?&[= <-]&?); done|]. intros (c'&[= <-]&Hf). by case_decide.
    + split; [|by eauto]. intros _. eexists. split; [done|]. by case_decide.
  - split; [by intros (?&?&?)|]. intros (c'&Hc'&Hb). exfalso.
    destruct (clients m !! id) as [c|] eqn:Hc; [|done]. simplify_eq/=.
    assert (cl_IsSpeaking c = true) by by case_decide.
    destruct (proj2 Hid) as [? ?]; [by eauto|done].
Qed.

Lemma removeChannelLocked_wf_subs ch m : wf_subs m → wf_subs (removeChannelLocked ch m).
Proof.
  intros Hb. split.
  - simpl. eauto using wf_subs_fam with noxa.
  - simpl. eauto using wf_sbc_fam with noxa.
  - intros id ch'. simpl subs. simpl subsByChannel.
    rewrite elem_of_fold_fam_del, elem_of_fam_delete, elem_of_elements, !(wf_mirror m Hb).
    naive_solver.
  - intros id Hs. simpl in Hs. apply fam_wf_lookup in Hs; [|eauto using wf_subs_fam with noxa].
    apply set_choose_L in Hs as [ch' [Hs _]%elem_of_fold_fam_del].
    destruct (wf_subs_client m Hb id) as [c Hc]; [by eapply fam_get_lookup_ne|].
    rewrite removeChannelLocked_client, Hc. by eauto.
  - intros ch'. simpl. rewrite !lookup_delete_is_Some. intros [? ?]. split; [done|].
    by apply (wf_sbc_channel m Hb).
Qed.

Lemma removeChannelLocked_wf ch m : wf m → wf (removeChannelLocked ch m).
Proof.
  intros [Hm Hs Hb]. split; [by apply removeChannelLocked_wf_members|
    by apply removeChannelLocked_wf_speaking|by apply removeChannelLocked_wf_subs].
Qed.

Lemma removeChannels_loop_wf ids m aff rem :
  wf m → wf (removeChannels_loop ids m aff rem).1.1.
Proof.
  revert m aff rem. induction ids as [|ch ids IH]; intros m aff rem Hm; simpl; [done|].
  by apply IH, removeChannelLocked_wf.
Qed.

Lemma RemoveChannels_wf ids m : wf m → wf (RemoveChannels ids m).1.
Proof.
  intros Hm. unfold RemoveChannels.
  pose proof (removeChannels_loop_wf ids m ∅ [] Hm) as Hw.
  by destruct (removeChannels_loop ids m ∅ []) as [[m' aff] rem].
Qed.

(** ** Joining, leaving and moving *)

(** Relocating a client: leave the old channel if there is one, then enter the
    new one. [JoinChannel] and [MoveClient] produce this membership state. *)
Lemma relocate_wf_members id c c' ch m :
  wf_members m → clients m !! id = Some c → is_Some (channels m !! ch) →
  cl_ClientID c' = id → cl_ChannelID c' = ch →
  wf_members (enter_state id ch c'
    (if negb (cl_ChannelID c =? 0) then drop_member id (cl_ChannelID c) m else m)).
Proof.
  intros Hm Hc Hch Hid Hcc. pose proof (wf_client_key m Hm id c Hc) as Hkey.
  destruct (Z.eqb_spec (cl_ChannelID c) 0) as [Hz|Hne]; simpl.
  { by apply (enter_wf_members id c c' ch m). }
  apply (wf_members_ext (enter_state id ch c'
    (leave_state id (cl_ChannelID c) (set_channel_id 0 c) m))); [done| |done|].
  { simpl. by rewrite insert_insert_eq. }
  apply (enter_wf_members id (set_channel_id 0 c)); [|by simpl; rewrite lookup_insert_eq|done| |done..].
  - by apply leave_wf_members.
  - by apply drop_member_frame.
Qed.

Lemma insert_speaking_view id c c' (cs : gmap string Client) :
  cs !! id = Some c → cl_IsSpeaking c' = cl_IsSpeaking c →
  cl_IsSpeaking <$> <[id := c']> cs = cl_IsSpeaking <$> cs.
Proof. intros Hc Hb. rewrite fmap_insert. apply insert_id. by rewrite lookup_fmap, Hc, Hb. Qed.

Lemma JoinChannel_wf id ch m : wf m → wf (JoinChannel id ch m).1.
Proof.
  intros [Hm Hs Hb]. unfold JoinChannel.
  destruct (clients m !! id) as [c|] eqn:Hc; [|by split].
  destruct (channels m !! ch) as [chan|] eqn:Hch; [|by split].
  case_match; [by split|]. simpl. set (m1 := if negb (cl_ChannelID c =? 0) then _ else m).
  assert (clients m1 = clients m ∧ speaking m1 = speaking m ∧ subs m1 = subs m ∧
    subsByChannel m1 = subsByChannel m ∧
    ∀ ch', is_Some (channels m !! ch') → is_Some (channels m1 !! ch')) as (F1&F2&F3&F4&F5).
  { unfold m1. case_match; [apply drop_member_frame|done]. }
  split.
  - apply (relocate_wf_members id c); [done..|by eauto| |done].
    exact (wf_client_key m Hm id c Hc).
  - apply (wf_speaking_ext m); [exact F2| |done]. simpl. rewrite F1.
    by apply (insert_speaking_view id c).
  - apply (wf_subs_ext m); [exact F3|exact F4| | |done]; simpl.
    + intros id'. rewrite F1, lookup_insert_is_Some'. tauto.
    + intros ch' ?. rewrite lookup_alter_is_Some. by apply F5.
Qed.

(** Silencing a client: the flag and the speaking state go together. *)
Lemma silence_wf_speaking id c c' m m' :
  wf_speaking m → clients m !! id = Some c → speaking m' = delete id (speaking m) →
  clients m' = <[id := c']> (clients m) → cl_IsSpeaking c' = false → wf_speaking m'.
Proof.
  intros Hs Hc Hsp Hcl Hq id'. rewrite Hsp, Hcl, lookup_delete_is_Some, (Hs id').
  destruct (decide (id' = id)) as [->|].
  - rewrite lookup_insert_eq. split; [by intros []|]. intros (?&[= <-]&?). congruence.
  - rewrite lookup_insert_ne by done. naive_solver.
Qed.

Lemma clear_speaking_spec id c m :
  let '(m', c') := clear_speaking id c m in
  clients m' = clients m ∧ channels m' = channels m ∧ membership m' = membership m ∧
  subs m' = subs m ∧ subsByChannel m' = subsByChannel m ∧
  cl_ClientID c' = cl_ClientID c ∧ cl_ChannelID c' = cl_ChannelID c.
Proof. unfold clear_speaking. destruct (speaking m !! id); split_and!; reflexivity. Qed.

Lemma clear_speaking_wf id c m m2 :
  wf_speaking m → clients m !! id = Some c → ∀ f, (∀ x, cl_IsSpeaking (f x) = cl_IsSpeaking x) →
  let '(m', c') := clear_speaking id c m in
  speaking m2 = speaking m' → clients m2 = <[id := f c']> (clients m) → wf_speaking m2.
Proof.
  intros Hs Hc f Hf. unfold clear_speaking. destruct (speaking m !! id) as [ss|] eqn:Hss.
  - intros H1 H2. apply (silence_wf_speaking id c (f (set_is_speaking false c)) m); [done..|].
    by rewrite Hf.
  - intros H1 H2. apply (wf_speaking_ext m); [done| |done]. rewrite H2.
    by apply (insert_speaking_view id c).
Qed.

Lemma MoveClient_wf id ch m : wf m → wf (MoveClient id ch m).1.
Proof.
  intros [Hm Hs Hb]. unfold MoveClient.
  destruct (clients m !! id) as [c|] eqn:Hc; [|by split].
  destruct (channels m !! ch) as [chan|] eqn:Hch; [|by split].
  case_match; [by split|].
  pose proof (wf_client_key m Hm id c Hc) as Hkey.
  pose proof (relocate_wf_members id c (set_channel_id ch c) ch m Hm Hc
                (ex_intro _ _ Hch) Hkey eq_refl) as Hrel.
  destruct (Z.eqb_spec (cl_ChannelID c) 0) as [Hz|Hne]; cbn [negb] in *.
  { split; [exact Hrel| |].
    - apply (wf_speaking_ext m); [done| |done]. by apply (insert_speaking_view id c).
    - apply (wf_subs_ext m); [done..| | |done]; simpl.
      + intros id'. rewrite lookup_insert_is_Some'. tauto.
      + intros ch' ?. by rewrite lookup_alter_is_Some. }
  set (m1 := drop_member id (cl_ChannelID c) m) in *.
  destruct (drop_member_frame id (cl_ChannelID c) m) as (F1&F2&F3&F4&F5). fold m1 in F1, F2, F3, F4, F5.
  assert (wf_speaking m1) as Hs1 by (apply (wf_speaking_ext m); [done|by rewrite F1|done]).
  pose proof (clear_speaking_spec id c m1) as Hcs.
  assert (clients m1 !! id = Some c) as Hc1 by by rewrite F1.
  pose proof (λ m2, clear_speaking_wf id c m1 m2 Hs1 Hc1 (set_channel_id ch) (λ _, eq_refl)) as Hws.
  destruct (clear_speaking id c m1) as [m2 c2]. destruct Hcs as (G1&G2&G3&G4&G5&G6&G7).
  split; cbn [fst].
  - apply (wf_members_ext (enter_state id ch (set_channel_id ch c) m1)); [| | |exact Hrel]; simpl.
    + by rewrite G3.
    + rewrite G1, !fmap_insert. simpl. by rewrite G6.
    + by rewrite G2.
  - apply Hws; [done|]. simpl. by rewrite G1.
  - apply (wf_subs_ext m); simpl; [by rewrite G4|by rewrite G5| | |done].
    + intros id'. rewrite G1, F1, lookup_insert_is_Some'. tauto.
    + intros ch' ?. rewrite lookup_alter_is_Some, G2. by apply F5.
Qed.

Lemma LeaveChannel_wf id m : wf m → wf (LeaveChannel id m).1.
Proof.
  intros [Hm Hs Hb]. unfold LeaveChannel.
  destruct (clients m !! id) as [c|] eqn:Hc; [|by split].
  destruct (Z.eqb_spec (cl_ChannelID c) 0) as [Hz|Hne]; [by split|].
  pose proof (wf_client_key m Hm id c Hc) as Hkey.
  set (m1 := drop_member id (cl_ChannelID c) m) in *.
  destruct (drop_member_frame id (cl_ChannelID c) m) as (F1&F2&F3&F4&F5). fold m1 in F1, F2, F3, F4, F5.
  assert (wf_speaking m1) as Hs1 by (apply (wf_speaking_ext m); [done|by rewrite F1|done]).
  pose proof (clear_speaking_spec id c m1) as Hcs.
  assert (clients m1 !! id = Some c) as Hc1 by by rewrite F1.
  pose proof (λ m2, clear_speaking_wf id c m1 m2 Hs1 Hc1 (set_channel_id 0) (λ _, eq_refl)) as Hws.
  destruct (clear_speaking id c m1) as [m2 c2]. destruct Hcs as (G1&G2&G3&G4&G5&G6&G7).
  split; cbn [fst].
  - apply (wf_members_ext (leave_state id (cl_ChannelID c) (set_channel_id 0 c) m));
      [| | |by apply leave_wf_members]; simpl; fold m1.
    + by rewrite G3.
    + rewrite G1, !fmap_insert. simpl. by rewrite G6.
    + by rewrite G2.
  - apply Hws; [done|]. simpl. by rewrite G1.
  - apply (wf_subs_ext m); simpl; [by rewrite G4|by rewrite G5| | |done].
    + intros id'. rewrite G1, F1, lookup_insert_is_Some'. tauto.
    + intros ch' ?. rewrite G2. by apply F5.
Qed.

(** ** Subscriptions and speaking *)

Lemma subscribe_one_wf id m ch :
  is_Some (clients m !! id) → wf m → wf (subscribe_one id m ch).
Proof.
  intros Hid [Hm Hs Hb]. unfold subscribe_one.
  destruct (channels m !! ch) as [chan|] eqn:Hch; [|by split].
  split; [by apply (wf_members_ext m)|exact Hs|]. split; simpl.
  - eauto using wf_subs_fam with noxa.
  - eauto using wf_sbc_fam with noxa.
  - intros id' ch'. rewrite !elem_of_fam_add, (wf_mirror m Hb). naive_solver.
  - intros id'. unfold fam_add. rewrite lookup_insert_is_Some'. intros [<-|?]; [done|].
    by apply (wf_subs_client m Hb).
  - intros ch'. unfold fam_add. rewrite lookup_insert_is_Some'. intros [<-|?]; [by eauto|].
    by apply (wf_sbc_channel m Hb).
Qed.

Lemma subscribe_one_clients id m ch : clients (subscribe_one id m ch) = clients m.
Proof. unfold subscribe_one. by case_match. Qed.

Lemma Subscribe_wf id chs m : wf m → wf (Subscribe id chs m).
Proof.
  unfold Subscribe. destruct (clients m !! id) eqn:Hc; [|done]. intros Hm.
  assert (is_Some (clients m !! id)) as Hid by eauto. clear Hc.
  revert m Hm Hid. induction chs as [|ch chs IH]; intros m Hm Hid; simpl; [done|].
  apply IH; [by apply subscribe_one_wf|by rewrite subscribe_one_clients].
Qed.

Lemma elem_of_set_held id (held : gset Z) (s : gmap string (gset Z)) id' ch :
  ch ∈ fam_get id' (if decide (held = ∅) then delete id s else <[id := held]> s) ↔
  if decide (id' = id) then ch ∈ held else ch ∈ fam_get id' s.
Proof.
  unfold fam_get. case_decide as Hh.
  - rewrite lookup_delete. repeat case_decide; subst; set_solver.
  - rewrite lookup_insert. repeat case_decide; subst; set_solver.
Qed.

Lemma Unsubscribe_wf id chs m : wf m → wf (Unsubscribe id chs m).
Proof.
  intros [Hm Hs Hb]. unfold Unsubscribe. destruct (subs m !! id) as [held|] eqn:Hheld; [|by split].
  split; [by apply (wf_members_ext m)|exact Hs|].
  assert (∀ ch, ch ∈ held ↔ ch ∈ fam_get id (subs m)) as Hget.
  { intros ch. unfold fam_get. by rewrite Hheld. }
  set (held' := held ∖ list_to_set chs).
  split; simpl; fold held'.
  - case_decide; [eauto using wf_subs_fam with noxa|].
    apply map_Forall_insert_2; [done|by apply wf_subs_fam].
  - eauto using wf_sbc_fam with noxa.
  - intros id' ch. rewrite elem_of_set_held, elem_of_fold_fam_del, <- (wf_mirror m Hb).
    case_decide as Hd; [subst id'|naive_solver]. unfold held'.
    rewrite elem_of_difference, elem_of_list_to_set, Hget. naive_solver.
  - intros id' Hid'. apply (wf_subs_client m Hb). revert Hid'.
    case_decide; [rewrite lookup_delete_is_Some; tauto|].
    rewrite lookup_insert_is_Some'. intros [<-|?]; [by eauto|done].
  - intros ch Hch. apply fam_wf_lookup in Hch; [|eauto using wf_sbc_fam with noxa].
    apply set_choose_L in Hch as [id' [Hch _]%elem_of_fold_fam_del].
    apply (wf_sbc_channel m Hb). by eapply fam_get_lookup_ne.
Qed.

(** Replacing a client by one that stands in the same channel. *)
Lemma insert_client_wf_members id c c' m m' :
  wf_members m → clients m !! id = Some c → clients m' = <[id := c']> (clients m) →
  channels m' = channels m → membership m' = membership m →
  cl_ClientID c' = cl_ClientID c → cl_ChannelID c' = cl_ChannelID c → wf_members m'.
Proof.
  intros Hm Hc Hcl Hch Hmem Hid Hcc. apply (wf_members_ext m); [done| |by rewrite Hch|done].
  rewrite Hcl, fmap_insert. apply insert_id. rewrite lookup_fmap, Hc. simpl. congruence.
Qed.

Lemma SetSpeaking_wf id on now m : wf m → wf (SetSpeaking id on now m).
Proof.
  intros [Hm Hs Hb]. unfold SetSpeaking. destruct (clients m !! id) as [c|] eqn:Hc; [|by split].
  assert (∀ id' c', is_Some (clients m !! id') → is_Some (<[id:=c']> (clients m) !! id')) as Hdom.
  { intros id' c'. rewrite lookup_insert_is_Some'. tauto. }
  destruct on; split.
  - by apply (insert_client_wf_members id c (set_is_speaking true c) m).
  - intros id'. simpl. rewrite lookup_insert_is_Some'.
    destruct (decide (id = id')) as [<-|].
    + rewrite lookup_insert_eq. naive_solver.
    + rewrite lookup_insert_ne, (Hs id') by done. naive_solver.
  - apply (wf_subs_ext m); simpl; auto.
  - by apply (insert_client_wf_members id c (set_is_speaking false c) m).
  - by apply (silence_wf_speaking id c (set_is_speaking false c) m).
  - apply (wf_subs_ext m); simpl; auto.
Qed.

(** ** Reachable states *)

(** The state-changing methods of the manager. *)
Inductive op :=
| OpAddClient (c : Client)
| OpRemoveClient (id : string)
| OpAddChannel (ch : Channel)
| OpRemoveChannels (ids : list Z)
| OpUpdateChannel (ch : Z) (u : ChannelUpdate)
| OpJoinChannel (id : string) (ch : Z)
| OpLeaveChannel (id : string)
| OpMoveClient (id : string) (ch : Z)
| OpSubscribe (id : string) (chs : list Z)
| OpUnsubscribe (id : string) (chs : list Z)
| OpSetSpeaking (id : string) (on : bool) (now : Z)
| OpSetPrioritySpeaker (id : string) (on : bool)
| OpSetE2EPublicKey (id key : string)
| OpSetStatus (id status message : string).

Definition run (o : op) (m : Manager) : Manager :=
  match o with
  | OpAddClient c => AddClient (Some c) m
  | OpRemoveClient id => (RemoveClient id m).1
  | OpAddChannel ch => AddChannel (Some ch) m
  | OpRemoveChannels ids => (RemoveChannels ids m).1
  | OpUpdateChannel ch u => (state_UpdateChannel ch u m).1
  | OpJoinChannel id ch => (JoinChannel id ch m).1
  | OpLeaveChannel id => (LeaveChannel id m).1
  | OpMoveClient id ch => (MoveClient id ch m).1
  | OpSubscribe id chs => Subscribe id chs m
  | OpUnsubscribe id chs => Unsubscribe id chs m
  | OpSetSpeaking id on now => SetSpeaking id on now m
  | OpSetPrioritySpeaker id on => SetPrioritySpeaker id on m
  | OpSetE2EPublicKey id key => SetE2EPublicKey id key m
  | OpSetStatus id status message => SetStatus id status message m
  end.

(** What the callers of [AddClient] and [AddChannel] guarantee: a client is added
    under a fresh id, outside any channel and silent; a channel is added under a
    non-zero id with the count of the members it already has (zero for a new
    one). Every other method may be called at any time. *)
Definition allowed (o : op) (m : Manager) : Prop :=
  match o with
  | OpAddClient c =>
      clients m !! cl_ClientID c = None ∧ cl_ChannelID c = 0 ∧ cl_IsSpeaking c = false
  | OpAddChannel ch =>
      ch_ChannelID ch ≠ 0 ∧
      ch_ClientCount ch = Z.of_nat (size (fam_get (ch_ChannelID ch) (membership m)))
  | _ => True
  end.

Definition step (m m' : Manager) : Prop := ∃ o, allowed o m ∧ m' = run o m.

Lemma NewManager_wf : wf NewManager.
Proof.
  split; [split|..|split]; simpl; try apply fam_wf_empty; try done.
  - intros ch id. rewrite lookup_empty. unfold fam_get. rewrite lookup_empty. simpl.
    set_solver.
  - by intros ch [? ?].
  - intros id. simpl. rewrite !lookup_empty. split; [by intros [? ?]|by intros (?&?&?)].
  - intros id. by intros [? ?].
  - intros id. by intros [? ?].
Qed.

Lemma step_wf m m' : wf m → step m m' → wf m'.
Proof.
  intros Hm [o [Ho ->]]. destruct o; simpl in *.
  - destruct Ho as (?&?&?). by apply AddClient_wf.
  - by apply RemoveClient_wf.
  - destruct Ho. by apply AddChannel_wf.
  - by apply RemoveChannels_wf.
  - by apply state_UpdateChannel_wf.
  - by apply JoinChannel_wf.
  - by apply LeaveChannel_wf.
  - by apply MoveClient_wf.
  - by apply Subscribe_wf.
  - by apply Unsubscribe_wf.
  - by apply SetSpeaking_wf.
  - by apply wf_alter_client.
  - by apply wf_alter_client.
  - by apply wf_alter_client.
Qed.

(** C23: in every state reachable from the empty manager through its methods, the
    member sets, the clients' channel ids, the channels' counts, the speaking
    flags and both directions of the subscription index agree. *)
Theorem reachable_wf m : rtc step NewManager m → wf m.
Proof. apply rtc_invariant; [exact step_wf|exact NewManager_wf]. Qed.

(** ** Witness: one channel with one client in it *)

Definition sample_channel (id parent : Z) (typ : Z) : Channel :=
  mkChannel id parent "Lobby" "" 0 typ 0 0 0 "" 0 false false 0 false false false 0 "" false.

Definition sample_client (id : string) : Client :=
  mkClient id id id 0 false false "" "" "" false 0 None None.

Definition sample_state : Manager :=
  run (OpSubscribe "alice" [2])
    (run (OpSetSpeaking "alice" true 7)
      (run (OpJoinChannel "alice" 1)
        (run (OpAddClient (sample_client "alice"))
          (run (OpAddChannel (sample_channel 2 0 2))
            (run (OpAddChannel (sample_channel 1 0 2)) NewManager))))).

Lemma sample_steps : rtc step NewManager sample_state.
Proof.
  eapply rtc_l; [exists (OpAddChannel (sample_channel 1 0 2)); split; [|reflexivity]|].
  { split; [done|]. vm_compute. reflexivity. }
  eapply rtc_l; [exists (OpAddChannel (sample_channel 2 0 2)); split; [|reflexivity]|].
  { split; [done|]. vm_compute. reflexivity. }
  eapply rtc_l; [exists (OpAddClient (sample_client "alice")); split; [|reflexivity]|].
  { split_and!; vm_compute; reflexivity. }
  eapply rtc_l; [exists (OpJoinChannel "alice" 1); split; [exact I|reflexivity]|].
  eapply rtc_l; [exists (OpSetSpeaking "alice" true 7); split; [exact I|reflexivity]|].
  eapply rtc_l; [exists (OpSubscribe "alice" [2]); split; [exact I|reflexivity]|].
  apply rtc_refl.
Qed.

Lemma sample_wf : wf sample_state.
Proof. eapply rtc_invariant; [exact step_wf|exact NewManager_wf|exact sample_steps]. Qed.

Lemma reachable_wf_witness : rtc step NewManager sample_state ∧ wf sample_state.
Proof. split; [exact sample_steps|exact (reachable_wf sample_state sample_steps)]. Defined.
