(* ===== verification/StateSpec.v ===== *)
(** * StateSpec: what the state manager promises

    An abstract view of [internal/state]: where each client stands, which
    channels exist, who subscribed to what and who is speaking in which channel.
    [spec_run] says what each method does to this view without mentioning the
    redundant maps; the refinement theorem shows that the manager implements it,
    and the observation lemma that its queries return what the view says. *)

From S2P Require Import Prelude StateManager StateInvariant.

(** ** The abstract view *)

Record world := mkWorld {
  w_at : gmap string Z;          (* client -> channel, 0 for none *)
  w_channels : gset Z;
  w_subs : gset (string * Z);
  w_talk : gmap string Z;        (* speaking client -> channel recorded *)
}.

Definition sub_pairs (s : gmap string (gset Z)) : gset (string * Z) :=
  list_to_set (map_to_list s ≫= λ '(id, chs), (λ ch, (id, ch)) <$> elements chs).

Definition view (m : Manager) : world :=
  mkWorld (cl_ChannelID <$> clients m) (dom (channels m)) (sub_pairs (subs m))
    (ss_ChannelID <$> speaking m).

(** Deleting channels moves their members out, ends the talking recorded there
    and drops the subscriptions to them. *)
Definition w_remove (ids : gset Z) (w : world) : world :=
  mkWorld ((λ ch, if decide (ch ∈ ids) then 0 else ch) <$> w_at w)
    (w_channels w ∖ ids)
    (filter (λ p, p.2 ∉ ids) (w_subs w))
    (filter (λ p, p.2 ∉ ids) (w_talk w)).

Definition spec_run (o : op) (w : world) : world :=
  match o with
  | OpAddClient c =>
      mkWorld (<[cl_ClientID c := cl_ChannelID c]> (w_at w)) (w_channels w) (w_subs w) (w_talk w)
  | OpRemoveClient id =>
      mkWorld (delete id (w_at w)) (w_channels w) (filter (λ p, p.1 ≠ id) (w_subs w))
        (delete id (w_talk w))
  | OpAddChannel ch =>
      mkWorld (w_at w) ({[ch_ChannelID ch]} ∪ w_channels w) (w_subs w) (w_talk w)
  | OpRemoveChannels ids => w_remove (list_to_set ids) w
  | OpJoinChannel id ch =>
      if decide (id ∈ dom (w_at w) ∧ ch ∈ w_channels w)
      then mkWorld (<[id := ch]> (w_at w)) (w_channels w) (w_subs w) (w_talk w) else w
  | OpLeaveChannel id =>
      match w_at w !! id with
      | Some ch => if decide (ch = 0) then w
                   else mkWorld (<[id := 0]> (w_at w)) (w_channels w) (w_subs w)
                          (delete id (w_talk w))
      | None => w
      end
  | OpMoveClient id ch =>
      match w_at w !! id with
      | Some old =>
          if decide (ch ∉ w_channels w ∨ old = ch) then w
          else mkWorld (<[id := ch]> (w_at w)) (w_channels w) (w_subs w)
                 (if decide (old = 0) then w_talk w else delete id (w_talk w))
      | None => w
      end
  | OpSubscribe id chs =>
      if decide (id ∈ dom (w_at w))
      then mkWorld (w_at w) (w_channels w)
             (w_subs w ∪ list_to_set ((λ ch, (id, ch)) <$> filter (λ ch, ch ∈ w_channels w) chs))
             (w_talk w)
      else w
  | OpUnsubscribe id chs =>
      mkWorld (w_at w) (w_channels w) (w_subs w ∖ list_to_set ((λ ch, (id, ch)) <$> chs)) (w_talk w)
  | OpSetSpeaking id on _ =>
      match w_at w !! id with
      | Some ch => mkWorld (w_at w) (w_channels w) (w_subs w)
                     (if on then <[id := ch]> (w_talk w) else delete id (w_talk w))
      | None => w
      end
  | OpUpdateChannel _ _ | OpSetPrioritySpeaker _ _ | OpSetE2EPublicKey _ _ | OpSetStatus _ _ _ => w
  end.

(** ** Lemmas *)

Lemma elem_of_sub_pairs s id ch : (id, ch) ∈ sub_pairs s ↔ ch ∈ fam_get id s.
Proof.
  unfold sub_pairs, fam_get. rewrite elem_of_list_to_set, list_elem_of_bind. split.
  - intros ([id' chs]&Hin&Hl%elem_of_map_to_list).
    apply list_elem_of_fmap in Hin as (ch'&[= -> ->]&Hin). rewrite Hl. simpl.
    by apply elem_of_elements.
  - intros Hin. destruct (s !! id) as [chs|] eqn:Hs; simpl in Hin; [|set_solver].
    exists (id, chs). rewrite elem_of_map_to_list. split; [|done].
    apply list_elem_of_fmap. exists ch. by rewrite elem_of_elements.
Qed.

Lemma sub_pairs_ext s P :
  (∀ id ch, ch ∈ fam_get id s ↔ (id, ch) ∈ P) → sub_pairs s = P.
Proof. intros Hs. apply set_eq. intros [id ch]. by rewrite elem_of_sub_pairs. Qed.

Lemma drop_member_dom id ch m : dom (channels (drop_member id ch m)) = dom (channels m).
Proof.
  unfold drop_member, decrement_count. repeat (case_match; simpl); try done.
  apply dom_insert_lookup_L. eauto.
Qed.

Lemma drop_member_frame_dom id ch m :
  clients (drop_member id ch m) = clients m ∧
  dom (channels (drop_member id ch m)) = dom (channels m) ∧
  subs (drop_member id ch m) = subs m ∧ speaking (drop_member id ch m) = speaking m.
Proof.
  destruct (drop_member_frame id ch m) as (?&?&?&_). by rewrite drop_member_dom.
Qed.

Lemma w_remove_union A B w : w_remove A (w_remove B w) = w_remove (A ∪ B) w.
Proof.
  unfold w_remove. simpl. f_equal.
  - rewrite <- map_fmap_compose. apply map_fmap_ext. intros id ch _. simpl.
    destruct (decide (ch ∈ B)) as [HB|HB].
    + rewrite (decide_True _ _ (P := ch ∈ A ∪ B)) by set_solver. by case_decide.
    + destruct (decide (ch ∈ A)) as [HA|HA].
      * by rewrite decide_True by set_solver.
      * by rewrite decide_False by set_solver.
  - set_solver.
  - apply set_eq. intros [id ch]. rewrite !elem_of_filter. simpl. set_solver.
  - rewrite map_filter_filter. apply map_filter_ext. intros id ch _. simpl. set_solver.
Qed.

Lemma view_removeChannelLocked ch m :
  wf m → view (removeChannelLocked ch m) = w_remove {[ch]} (view m).
Proof.
  intros [Hm Hs Hb]. unfold view, w_remove. cbn [w_at w_channels w_subs w_talk]. f_equal.
  - apply map_eq. intros id. rewrite !lookup_fmap, removeChannelLocked_client.
    destruct (clients m !! id) as [c|] eqn:Hc; simpl; [|done]. f_equal.
    assert (id ∈ fam_get ch (membership m) ↔ ch ≠ 0 ∧ cl_ChannelID c = ch) as Hin.
    { rewrite (wf_member m Hm), Hc. naive_solver. }
    assert (cl_ChannelID (if decide (id ∈ fam_get ch (membership m)) then set_channel_id 0 c else c)
            = if decide (cl_ChannelID c ∈ ({[ch]} : gset Z)) then 0 else cl_ChannelID c) as <-;
      [|by repeat case_match].
    case_decide as H1; case_decide as H2; simpl; rewrite elem_of_singleton in H2;
      [done|tauto| |done].
    destruct (decide (ch = 0)); [congruence|tauto].
  - simpl. apply dom_delete_L.
  - apply sub_pairs_ext. intros id ch'. rewrite elem_of_filter, elem_of_sub_pairs. simpl.
    rewrite elem_of_fold_fam_del, elem_of_elements, <- (wf_mirror m Hb). set_solver.
  - apply map_eq. intros id. simpl. rewrite lookup_fmap, !map_lookup_filter, lookup_fmap.
    destruct (speaking m !! id) as [ss|]; simpl; [|done].
    repeat case_guard; simpl; set_solver.
Qed.

Lemma view_removeChannels_loop ids m aff rem :
  wf m → view (removeChannels_loop ids m aff rem).1.1 = w_remove (list_to_set ids) (view m).
Proof.
  revert m aff rem. induction ids as [|ch ids IH]; intros m aff rem Hm; simpl.
  - unfold w_remove. destruct (view m) as [at_ chans ss talk]. simpl. f_equal.
    + symmetry. rewrite <- map_fmap_id. apply map_fmap_ext. intros id ch _.
      rewrite decide_False by set_solver. done.
    + set_solver.
    + apply set_eq. intros p. rewrite elem_of_filter. set_solver.
    + symmetry. apply map_filter_id. intros id ch _. simpl. set_solver.
  - rewrite IH by by apply removeChannelLocked_wf.
    rewrite view_removeChannelLocked, w_remove_union by done. f_equal. set_solver.
Qed.

(** Clients seen through the view. *)
Lemma view_at_dom m id : id ∈ dom (w_at (view m)) ↔ is_Some (clients m !! id).
Proof. simpl. rewrite dom_fmap_L. apply elem_of_dom. Qed.

Lemma view_JoinChannel id ch m :
  wf m → view (JoinChannel id ch m).1 = spec_run (OpJoinChannel id ch) (view m).
Proof.
  intros Hwf. cbn [spec_run]. unfold JoinChannel.
  destruct (clients m !! id) as [c|] eqn:Hc.
  2:{ rewrite decide_False; [done|]. rewrite view_at_dom, Hc. by intros [[? ?] _]. }
  destruct (channels m !! ch) as [chan|] eqn:Hch.
  2:{ rewrite decide_False; [done|]. simpl. rewrite !elem_of_dom. intros [_ [? ?]]. congruence. }
  rewrite decide_True.
  2:{ rewrite view_at_dom. simpl. rewrite elem_of_dom. eauto. }
  destruct (Z.eqb_spec (cl_ChannelID c) ch) as [He|Hne].
  { unfold view. simpl. f_equal. symmetry. apply insert_id.
    rewrite lookup_fmap, Hc. simpl. congruence. }
  unfold view. simpl. set (m1 := if negb _ then _ else m).
  assert (clients m1 = clients m ∧ dom (channels m1) = dom (channels m) ∧ subs m1 = subs m ∧
    speaking m1 = speaking m) as (F1&F2&F3&F4).
  { unfold m1. case_match; [|done]. by apply drop_member_frame_dom. }
  f_equal; [|by rewrite dom_alter_L|by rewrite F3|by rewrite F4].
  by rewrite F1, fmap_insert.
Qed.

Lemma clear_speaking_talk id c m :
  speaking (clear_speaking id c m).1 = delete id (speaking m).
Proof.
  unfold clear_speaking. destruct (speaking m !! id) eqn:Hs; [done|]. simpl.
  by rewrite delete_id.
Qed.

Lemma view_LeaveChannel id m :
  wf m → view (LeaveChannel id m).1 = spec_run (OpLeaveChannel id) (view m).
Proof.
  intros Hwf. simpl. unfold LeaveChannel. rewrite lookup_fmap.
  destruct (clients m !! id) as [c|] eqn:Hc; [|done]. simpl.
  destruct (Z.eqb_spec (cl_ChannelID c) 0) as [Hz|Hne]; [by rewrite decide_True|].
  rewrite decide_False by done. set (m1 := drop_member id (cl_ChannelID c) m).
  destruct (drop_member_frame id (cl_ChannelID c) m) as (F1&F2&F3&_). fold m1 in F1, F2, F3.
  pose proof (drop_member_dom id (cl_ChannelID c) m) as F4. fold m1 in F4.
  pose proof (clear_speaking_spec id c m1) as Hcs. pose proof (clear_speaking_talk id c m1) as Ht.
  destruct (clear_speaking id c m1) as [m2 c2]. destruct Hcs as (G1&G2&G3&G4&G5&G6&G7).
  simpl in Ht. unfold view. simpl. f_equal.
  - by rewrite G1, F1, fmap_insert.
  - by rewrite G2.
  - by rewrite G4, F3.
  - by rewrite Ht, F2, fmap_delete.
Qed.

Lemma view_MoveClient id ch m :
  wf m → view (MoveClient id ch m).1 = spec_run (OpMoveClient id ch) (view m).
Proof.
  intros Hwf. simpl. unfold MoveClient. rewrite lookup_fmap.
  destruct (clients m !! id) as [c|] eqn:Hc; [|done]. simpl.
  destruct (channels m !! ch) as [chan|] eqn:Hch.
  2:{ rewrite decide_True; [done|]. left. by apply not_elem_of_dom. }
  destruct (Z.eqb_spec (cl_ChannelID c) ch) as [He|Hne]; [by rewrite decide_True by (by right)|].
  rewrite decide_False.
  2:{ intros [Hn|?]; [|done]. apply Hn, elem_of_dom. eauto. }
  destruct (Z.eqb_spec (cl_ChannelID c) 0) as [Hz|Hnz]; cbn [negb].
  { rewrite decide_True by done. unfold view. simpl. f_equal; [by rewrite fmap_insert|].
    by rewrite dom_alter_L. }
  rewrite decide_False by done. set (m1 := drop_member id (cl_ChannelID c) m).
  destruct (drop_member_frame id (cl_ChannelID c) m) as (F1&F2&F3&_). fold m1 in F1, F2, F3.
  pose proof (drop_member_dom id (cl_ChannelID c) m) as F4. fold m1 in F4.
  pose proof (clear_speaking_spec id c m1) as Hcs. pose proof (clear_speaking_talk id c m1) as Ht.
  destruct (clear_speaking id c m1) as [m2 c2]. destruct Hcs as (G1&G2&G3&G4&G5&G6&G7).
  simpl in Ht. unfold view. simpl. f_equal.
  - by rewrite G1, F1, fmap_insert.
  - by rewrite dom_alter_L, G2.
  - by rewrite G4, F3.
  - by rewrite Ht, F2, fmap_delete.
Qed.

Lemma elem_of_fold_subscribe id chs m id' ch :
  ch ∈ fam_get id' (subs (foldl (subscribe_one id) m chs)) ↔
  ch ∈ fam_get id' (subs m) ∨ (id' = id ∧ ch ∈ chs ∧ ch ∈ dom (channels m)).
Proof.
  revert m. induction chs as [|ch0 chs IH]; intros m; simpl; [set_solver|].
  rewrite IH. unfold subscribe_one. destruct (channels m !! ch0) eqn:Hch; simpl.
  - rewrite elem_of_fam_add, elem_of_cons.
    assert (ch0 ∈ dom (channels m)) by (apply elem_of_dom; eauto). naive_solver.
  - apply not_elem_of_dom in Hch. set_solver.
Qed.

Lemma fold_subscribe_frame id chs m :
  clients (foldl (subscribe_one id) m chs) = clients m ∧
  channels (foldl (subscribe_one id) m chs) = channels m ∧
  speaking (foldl (subscribe_one id) m chs) = speaking m.
Proof.
  revert m. induction chs as [|ch0 chs IH]; intros m; simpl; [done|].
  destruct (IH (subscribe_one id m ch0)) as (->&->&->). unfold subscribe_one. by case_match.
Qed.

Lemma view_Subscribe id chs m :
  wf m → view (Subscribe id chs m) = spec_run (OpSubscribe id chs) (view m).
Proof.
  intros Hwf. cbn [spec_run]. unfold Subscribe. destruct (clients m !! id) as [c|] eqn:Hc.
  2:{ rewrite decide_False; [done|]. rewrite view_at_dom, Hc. by intros [? ?]. }
  rewrite decide_True by (rewrite view_at_dom; eauto).
  destruct (fold_subscribe_frame id chs m) as (F1&F2&F3). unfold view. simpl.
  rewrite F1, F2, F3. f_equal. apply sub_pairs_ext. intros id' ch.
  rewrite elem_of_fold_subscribe, elem_of_union, elem_of_sub_pairs, elem_of_list_to_set.
  rewrite list_elem_of_fmap. setoid_rewrite list_elem_of_filter. naive_solver.
Qed.

Lemma view_Unsubscribe id chs m :
  wf m → view (Unsubscribe id chs m) = spec_run (OpUnsubscribe id chs) (view m).
Proof.
  intros Hwf. unfold Unsubscribe. cbn [spec_run].
  assert (∀ ch, (id, ch) ∈ (list_to_set ((λ ch, (id, ch)) <$> chs) : gset _) ↔ ch ∈ chs) as Hl.
  { intros ch. rewrite elem_of_list_to_set, list_elem_of_fmap. naive_solver. }
  destruct (subs m !! id) as [held|] eqn:Hheld; unfold view; simpl; f_equal; apply sub_pairs_ext;
    intros id' ch; rewrite elem_of_difference, elem_of_sub_pairs, elem_of_list_to_set,
      list_elem_of_fmap.
  - rewrite elem_of_set_held. unfold fam_get. case_decide; [subst; rewrite Hheld; simpl|naive_solver].
    rewrite elem_of_difference, elem_of_list_to_set. naive_solver.
  - split; [|tauto]. intros Hin. split; [done|]. intros (ch'&[= -> ->]&_).
    unfold fam_get in Hin. rewrite Hheld in Hin. set_solver.
Qed.

Lemma view_RemoveClient id m :
  wf m → view (RemoveClient id m).1 = spec_run (OpRemoveClient id) (view m).
Proof.
  intros [Hm Hs Hb]. unfold RemoveClient. cbn [spec_run].
  destruct (clients m !! id) as [c|] eqn:Hc; simpl.
  - set (m1 := if negb _ then _ else m).
    assert (clients m1 = clients m ∧ dom (channels m1) = dom (channels m) ∧ subs m1 = subs m ∧
      speaking m1 = speaking m) as (F1&F2&F3&F4).
    { unfold m1. case_match; [|done]. by apply drop_member_frame_dom. }
    unfold view. simpl. f_equal.
    + by rewrite F1, fmap_delete.
    + done.
    + apply sub_pairs_ext. intros id' ch. rewrite F3, elem_of_filter, elem_of_sub_pairs.
      rewrite elem_of_fam_delete. simpl. tauto.
    + by rewrite F4, fmap_delete.
  - unfold view. simpl.
    assert (speaking m !! id = None) as Hsp.
    { apply eq_None_not_Some. intros (?&?&?)%(Hs id). congruence. }
    f_equal.
    + by rewrite delete_id by by rewrite lookup_fmap, Hc.
    + apply set_eq. intros [id' ch]. rewrite elem_of_filter, elem_of_sub_pairs. simpl.
      split; [|tauto]. intros Hin. split; [|done]. intros ->.
      destruct (wf_subs_client m Hb id) as [? ?]; [by eapply fam_get_lookup_ne|congruence].
    + by rewrite delete_id by by rewrite lookup_fmap, Hsp.
Qed.

Lemma view_alter_client f id m :
  (∀ c, cl_ChannelID (f c) = cl_ChannelID c) → view (with_clients (alter f id) m) = view m.
Proof.
  intros Hf. unfold view. simpl. f_equal. apply map_eq. intros i.
  rewrite !lookup_fmap, lookup_alter. case_decide; [|done]. subst.
  destruct (clients m !! i); simpl; by rewrite ?Hf.
Qed.

Lemma view_SetSpeaking id on now m :
  view (SetSpeaking id on now m) = spec_run (OpSetSpeaking id on now) (view m).
Proof.
  cbn [spec_run]. unfold SetSpeaking. simpl. rewrite lookup_fmap.
  destruct (clients m !! id) as [c|] eqn:Hc; [|done]. simpl.
  assert (∀ b, cl_ChannelID <$> <[id:=set_is_speaking b c]> (clients m)
               = cl_ChannelID <$> clients m) as Hat.
  { intros b. rewrite fmap_insert. apply insert_id. by rewrite lookup_fmap, Hc. }
  destruct on; unfold view; simpl; rewrite Hat; f_equal.
  - by rewrite fmap_insert.
  - by rewrite fmap_delete.
Qed.

(** Snapshots of known clients carry the ids they were asked for. *)
Lemma snapshots_ids m (l : list string) :
  wf_members m → (∀ id, id ∈ l → is_Some (clients m !! id)) →
  cl_ClientID <$> omap (λ id, GetClient id m) l = l.
Proof.
  intros Hm. induction l as [|id l IH]; intros Hl; [done|].
  destruct (Hl id) as [c Hc]; [set_solver|].
  change (omap (λ id, GetClient id m) (id :: l)) with
    (match GetClient id m with
     | Some c => c :: omap (λ id, GetClient id m) l
     | None => omap (λ id, GetClient id m) l
     end).
  rewrite GetClient_lookup, Hc, fmap_cons, IH by set_solver.
  by rewrite (wf_client_key m Hm id c Hc).
Qed.

(** The accumulators of the [RemoveChannels] loop. *)
Lemma removeChannels_loop_spec ids m aff rem :
  let '(m', aff', rem') := removeChannels_loop ids m aff rem in
  (∀ id, id ∈ aff' ↔ id ∈ aff ∨ ∃ ch, ch ∈ ids ∧ id ∈ fam_get ch (subsByChannel m)) ∧
  (∀ r, r ∈ rem' ↔ r ∈ rem ∨
     (rm_ChannelID r ∈ ids ∧ rm_ClientID r ∈ fam_get (rm_ChannelID r) (membership m))).
Proof.
  revert m aff rem. induction ids as [|ch ids IH]; intros m aff rem; simpl; [set_solver|].
  specialize (IH (removeChannelLocked ch m) (aff ∪ fam_get ch (subsByChannel m))
    (rem ++ ((λ id, mkRemoved id ch) <$> elements (fam_get ch (membership m))))).
  destruct (removeChannels_loop ids _ _ _) as [[m' aff'] rem']. destruct IH as [IH1 IH2]. split.
  - intros id. rewrite IH1, elem_of_union. simpl. setoid_rewrite elem_of_fam_delete.
    setoid_rewrite elem_of_cons. destruct (decide (id ∈ fam_get ch (subsByChannel m))).
    + naive_solver.
    + split; [naive_solver|]. intros [?|(ch'&[->|?]&?)]; [tauto|done|].
      destruct (decide (ch' = ch)); [congruence|naive_solver].
  - intros [id ch']. rewrite IH2, elem_of_app, list_elem_of_fmap. simpl.
    setoid_rewrite elem_of_elements. rewrite elem_of_fam_delete, elem_of_cons.
    destruct (decide (ch' = ch)) as [->|]; naive_solver.
Qed.

(** ** Properties *)

(** C34: the manager implements its specification: from a consistent state, every
    method changes where clients stand, which channels exist, the subscriptions
    and the talkers exactly as the abstract view says. *)
Theorem state_refines_spec o m :
  wf m → allowed o m → view (run o m) = spec_run o (view m).
Proof.
  intros Hwf Ho. destruct o as [c|id|ch|ids|ch u|id ch|id|id ch|id chs|id chs|id on now|id on|id k|id s t].
  - unfold run, AddClient, view. rewrite cloneClient_id. simpl. by rewrite fmap_insert.
  - by apply view_RemoveClient.
  - unfold run, AddChannel, view. simpl. by rewrite dom_insert_L.
  - pose proof (view_removeChannels_loop ids m ∅ [] Hwf) as Hv. simpl. unfold RemoveChannels.
    by destruct (removeChannels_loop ids m ∅ []) as [[m' aff] rem].
  - simpl. unfold state_UpdateChannel. destruct (channels m !! ch) eqn:Hch; [|done].
    unfold view. simpl. f_equal. apply dom_insert_lookup_L. eauto.
  - by apply view_JoinChannel.
  - by apply view_LeaveChannel.
  - by apply view_MoveClient.
  - by apply view_Subscribe.
  - by apply view_Unsubscribe.
  - by apply view_SetSpeaking.
  - by apply view_alter_client.
  - by apply view_alter_client.
  - by apply view_alter_client.
Qed.

(** The queries return what the abstract view says: the members of a channel
    are the clients standing in it, listed once, and the channel's [ClientCount]
    is their number; a client is subscribed exactly to the channels of the view,
    from both directions of the index; it is speaking exactly when the view says
    so. *)
Theorem queries_observe_view m :
  wf m →
  (∀ ch id, id ∈ cl_ClientID <$> ChannelMembers ch m ↔
     ch ≠ 0 ∧ w_at (view m) !! id = Some ch) ∧
  (∀ ch, NoDup (cl_ClientID <$> ChannelMembers ch m)) ∧
  (∀ ch c, GetChannel ch m = Some c →
     ch_ClientCount c = Z.of_nat (length (ChannelMembers ch m))) ∧
  (∀ id ch, IsSubscribed id ch m = bool_decide ((id, ch) ∈ w_subs (view m))) ∧
  (∀ ch id, id ∈ cl_ClientID <$> ChannelSubscribers ch m ↔ (id, ch) ∈ w_subs (view m)) ∧
  (∀ id, IsSpeaking id m = bool_decide (id ∈ dom (w_talk (view m)))).
Proof.
  intros [Hm Hs Hb].
  assert (∀ S : gset string, (∀ id, id ∈ S → is_Some (clients m !! id)) →
    cl_ClientID <$> omap (λ id, GetClient id m) (elements S) = elements S) as Hids.
  { intros S HS. apply snapshots_ids; [done|]. intros id. rewrite elem_of_elements. apply HS. }
  assert (∀ ch id, id ∈ fam_get ch (membership m) → is_Some (clients m !! id)) as Hmem.
  { intros ch id (?&c&?&?)%(wf_member m Hm). eauto. }
  assert (∀ ch, cl_ClientID <$> ChannelMembers ch m = elements (fam_get ch (membership m))) as Hcm.
  { intros ch. apply Hids, Hmem. }
  split_and!.
  - intros ch id. rewrite Hcm, elem_of_elements, (wf_member m Hm). simpl.
    rewrite lookup_fmap, fmap_Some. naive_solver.
  - intros ch. rewrite Hcm. apply NoDup_elements.
  - intros ch c Hc. rewrite <- (length_fmap cl_ClientID), Hcm.
    unfold GetChannel in Hc. destruct (channels m !! ch) as [c'|] eqn:Hch; simplify_eq/=.
    exact (wf_count m Hm _ _ Hch).
  - intros id ch. unfold IsSubscribed. apply bool_decide_ext. simpl. by rewrite elem_of_sub_pairs.
  - intros ch id. unfold ChannelSubscribers. rewrite Hids.
    + simpl. by rewrite elem_of_elements, elem_of_sub_pairs, (wf_mirror m Hb).
    + intros id' Hid'. apply (wf_subs_client m Hb). apply (wf_mirror m Hb) in Hid'.
      by eapply fam_get_lookup_ne.
  - intros id. unfold IsSpeaking. apply bool_decide_ext. simpl.
    by rewrite dom_fmap_L, elem_of_dom.
Qed.

(** [MoveClient] is [LeaveChannel] followed by [JoinChannel], as its comment
    says: for a client that stands in another channel and a target that exists,
    both produce the same manager state and succeed. *)
Theorem MoveClient_is_leave_then_join id c target m :
  wf m → clients m !! id = Some c → cl_ChannelID c ≠ 0 → cl_ChannelID c ≠ target →
  is_Some (channels m !! target) →
  (LeaveChannel id m).2 = Ok tt ∧
  MoveClient id target m = JoinChannel id target (LeaveChannel id m).1.
Proof.
  intros Hwf Hc Hnz Hne [chan Hch].
  destruct (wf_channel_key m (wf_m m Hwf) _ _ Hch) as [_ Ht].
  unfold LeaveChannel, MoveClient. rewrite Hc, Hch.
  rewrite (proj2 (Z.eqb_neq _ _) Hnz), (proj2 (Z.eqb_neq _ _) Hne). cbn [negb].
  set (m1 := drop_member id (cl_ChannelID c) m).
  assert (is_Some (channels m1 !! target)) as [chan1 Hch1].
  { apply (drop_member_frame id (cl_ChannelID c) m). eauto. }
  pose proof (clear_speaking_spec id c m1) as Hcs.
  destruct (clear_speaking id c m1) as [m2 c2]. destruct Hcs as (G1&G2&_).
  split; [done|]. unfold JoinChannel. cbn [fst with_clients clients channels].
  rewrite lookup_insert_eq, G2, Hch1. cbn [set_channel_id cl_ChannelID].
  rewrite (proj2 (Z.eqb_neq 0 target)), Z.eqb_refl by done.
  unfold enter_channel, with_clients. simpl. by rewrite insert_insert_eq.
Qed.

(** [RemoveChannels] reports exactly the consequences of the deletion: its
    member list names every client that stood in a deleted channel together with
    that channel, its subscriber list every client that had subscribed to one,
    both sorted; afterwards none of the channels exists and no client stands in
    or is subscribed to one. *)
Theorem RemoveChannels_report ids m :
  wf m →
  let '(m', r) := RemoveChannels ids m in
  (∀ id ch, mkRemoved id ch ∈ rr_Members r ↔
     ch ∈ ids ∧ ch ≠ 0 ∧ w_at (view m) !! id = Some ch) ∧
  (∀ id, id ∈ rr_SubscriberIDs r ↔ ∃ ch, ch ∈ ids ∧ (id, ch) ∈ w_subs (view m)) ∧
  Sorted String.le (rr_SubscriberIDs r) ∧
  (∀ ch, ch ∈ ids → channels m' !! ch = None ∧
     (∀ id, w_at (view m') !! id = Some ch → ch = 0) ∧ ∀ id, (id, ch) ∉ w_subs (view m')).
Proof.
  intros Hwf. pose proof (view_removeChannels_loop ids m ∅ [] Hwf) as Hv.
  pose proof (removeChannels_loop_spec ids m ∅ []) as Hl. unfold RemoveChannels.
  destruct (removeChannels_loop ids m ∅ []) as [[m' aff] rem]. cbn [fst] in Hv.
  destruct Hl as [Haff Hrem]. destruct Hwf as [Hm _ Hb]. simpl. split_and!.
  - intros id ch. rewrite sort_by_perm, Hrem. simpl.
    rewrite (wf_member m Hm), lookup_fmap, fmap_Some. set_solver.
  - intros id. rewrite sort_by_perm, elem_of_elements, Haff.
    setoid_rewrite elem_of_sub_pairs. setoid_rewrite (wf_mirror m Hb). set_solver.
  - apply Sorted_merge_sort. apply _.
  - intros ch Hin. change (channels m' !! ch = None ∧
      (∀ id, w_at (view m') !! id = Some ch → ch = 0) ∧ ∀ id, (id, ch) ∉ w_subs (view m')).
    assert (ch ∈ (list_to_set ids : gset Z)) as Hin' by by rewrite elem_of_list_to_set.
    split_and!.
    + apply not_elem_of_dom. change (ch ∉ w_channels (view m')). rewrite Hv. simpl. set_solver.
    + intros id. rewrite Hv. simpl. rewrite lookup_fmap, fmap_Some.
      intros (ch0&_&->). case_decide; done.
    + intros id. rewrite Hv. simpl. rewrite elem_of_filter. simpl. tauto.
Qed.

(** ** Witnesses *)

Lemma state_refines_spec_witness :
  view (run (OpMoveClient "alice" 2) sample_state) =
  spec_run (OpMoveClient "alice" 2) (view sample_state).
Proof. exact (state_refines_spec (OpMoveClient "alice" 2) sample_state sample_wf I). Defined.

Lemma queries_observe_view_witness : "alice" ∈ cl_ClientID <$> ChannelMembers 1 sample_state.
Proof.
  apply (proj1 (queries_observe_view sample_state sample_wf)).
  split; [done|]. vm_compute. reflexivity.
Defined.

Lemma MoveClient_is_leave_then_join_witness :
  MoveClient "alice" 2 sample_state = JoinChannel "alice" 2 (LeaveChannel "alice" sample_state).1.
Proof.
  eapply (MoveClient_is_leave_then_join "alice" _ 2 sample_state sample_wf).
  - vm_compute. reflexivity.
  - vm_compute. discriminate.
  - vm_compute. discriminate.
  - vm_compute. eauto.
Defined.

Lemma RemoveChannels_report_witness :
  mkRemoved "alice" 1 ∈ rr_Members (RemoveChannels [1] sample_state).2.
Proof.
  pose proof (RemoveChannels_report [1] sample_state sample_wf) as Hr.
  destruct (RemoveChannels [1] sample_state) as [m' r]. apply Hr.
  split_and!; [left|done|vm_compute; reflexivity].
Defined.
