(* ===== verification/StateTree.v ===== *)
(** * StateTree: walks over the in-memory channel tree

    Models the tree functions of [internal/state/types.go]: the total order of
    channel snapshots, the ancestor walk, the permission inheritance chain and
    the join power it implies. Every walk is bounded by [maxChannelDepth] = 64,
    the bound of the source, so the functions are total even on a cyclic tree. *)

From S2P Require Import Prelude StateManager StateInvariant.

(** ** Definitions *)

(** parent, then order index, then channel id *)
Definition tree_le (a b : Channel) : Prop :=
  ch_ParentID a < ch_ParentID b ∨
  (ch_ParentID a = ch_ParentID b ∧
   (ch_OrderIndex a < ch_OrderIndex b ∨
    (ch_OrderIndex a = ch_OrderIndex b ∧ ch_ChannelID a ≤ ch_ChannelID b))).

#[export] Instance tree_le_dec : RelDecision tree_le.
Proof. intros a b. unfold tree_le. apply _. Defined.

Definition ChannelTreeOrdered `{!∀ V, MapRange Z V} (m : Manager) : list Channel :=
  sort_by tree_le (cloneChannel <$> (range (channels m)).*2).

Fixpoint ancestors_walk (fuel : nat) (m : Manager) (id : Z) : list Z :=
  match fuel with
  | O => []
  | S fuel =>
      match channels m !! id with
      | None => []
      | Some ch =>
          if ch_ParentID ch =? 0 then []
          else ch_ParentID ch :: ancestors_walk fuel m (ch_ParentID ch)
      end
  end.

Definition ancestorsLocked (channelID : Z) (m : Manager) : list Z :=
  ancestors_walk maxChannelDepth m channelID.

Definition ChannelAncestors (channelID : Z) (m : Manager) : list Z :=
  ancestorsLocked channelID m.

Fixpoint chain_walk (fuel : nat) (m : Manager) (id : Z) : list Z :=
  match fuel with
  | O => []
  | S fuel =>
      match channels m !! id with
      | None => []
      | Some ch =>
          if negb (ch_InheritPermissions ch) || (ch_ParentID ch =? 0) then []
          else match channels m !! ch_ParentID ch with
               | None => []
               | Some _ => ch_ParentID ch :: chain_walk fuel m (ch_ParentID ch)
               end
      end
  end.

Definition ChannelPermissionChain (channelID : Z) (m : Manager) : list Z :=
  match channels m !! channelID with
  | None => []
  | Some _ => channelID :: chain_walk maxChannelDepth m channelID
  end.

Fixpoint join_power_walk (fuel : nat) (m : Manager) (id needed : Z) : Z :=
  match fuel with
  | O => needed
  | S fuel =>
      match channels m !! id with
      | None => needed
      | Some cur =>
          if negb (ch_InheritPermissions cur) || (ch_ParentID cur =? 0) then needed
          else match channels m !! ch_ParentID cur with
               | None => needed
               | Some parent =>
                   let needed := if needed <? ch_NeededJoinPower parent
                                 then ch_NeededJoinPower parent else needed in
                   join_power_walk fuel m (ch_ParentID cur) needed
               end
      end
  end.

Definition EffectiveJoinPower (channelID : Z) (m : Manager) : Z :=
  match channels m !! channelID with
  | None => 0
  | Some ch => join_power_walk maxChannelDepth m channelID (ch_NeededJoinPower ch)
  end.

(** ** Lemmas *)

#[export] Instance tree_le_trans : Transitive tree_le.
Proof. intros a b c. unfold tree_le. lia. Qed.

#[export] Instance tree_le_total : Total tree_le.
Proof. intros a b. unfold tree_le. lia. Qed.

Definition needed_of (m : Manager) (id : Z) : Z :=
  from_option ch_NeededJoinPower 0 (channels m !! id).

Lemma join_power_walk_spec fuel m id needed :
  let eff := join_power_walk fuel m id needed in
  needed ≤ eff ∧ (∀ a, a ∈ chain_walk fuel m id → needed_of m a ≤ eff) ∧
  (eff = needed ∨ ∃ a, a ∈ chain_walk fuel m id ∧ needed_of m a = eff).
Proof.
  revert id needed. induction fuel as [|fuel IH]; intros id needed; simpl; [set_solver by lia|].
  destruct (channels m !! id) as [cur|]; [|set_solver by lia].
  destruct (negb _ || _); [set_solver by lia|].
  destruct (channels m !! ch_ParentID cur) as [parent|] eqn:Hp; [|set_solver by lia].
  destruct (IH (ch_ParentID cur)
    (if needed <? ch_NeededJoinPower parent then ch_NeededJoinPower parent else needed))
    as (H1&H2&H3).
  assert (needed_of m (ch_ParentID cur) = ch_NeededJoinPower parent) as Hn.
  { unfold needed_of. by rewrite Hp. }
  split_and!.
  - destruct (Z.ltb_spec needed (ch_NeededJoinPower parent)); lia.
  - intros a [->|Ha]%elem_of_cons; [|by apply H2]. rewrite Hn.
    destruct (Z.ltb_spec needed (ch_NeededJoinPower parent)); lia.
  - destruct H3 as [H3|(a&Ha&H3)]; [|right; exists a; by rewrite elem_of_cons; auto].
    rewrite H3. destruct (Z.ltb_spec needed (ch_NeededJoinPower parent)); [|by left].
    right. exists (ch_ParentID cur). rewrite elem_of_cons. auto.
Qed.

(** ** Properties *)

(** The order of channel snapshots is total: whatever order the runtime
    iterates the channel map in, [ChannelTreeOrdered] returns the same list, a
    permutation of the stored channels sorted by parent, order index and id. *)
Theorem ChannelTreeOrdered_deterministic (R1 R2 : ∀ V, MapRange Z V) m :
  wf m →
  ChannelTreeOrdered (H := R1) m = ChannelTreeOrdered (H := R2) m ∧
  StronglySorted tree_le (ChannelTreeOrdered (H := R1) m) ∧
  ChannelTreeOrdered (H := R1) m ≡ₚ (map_to_list (channels m)).*2.
Proof.
  intros Hwf.
  assert (∀ R : ∀ V, MapRange Z V,
    ChannelTreeOrdered (H := R) m ≡ₚ (map_to_list (channels m)).*2) as Hperm.
  { intros R. unfold ChannelTreeOrdered. rewrite sort_by_perm.
    rewrite (list_fmap_ext cloneChannel id), list_fmap_id by done. by rewrite range_perm. }
  assert (∀ R : ∀ V, MapRange Z V, StronglySorted tree_le (ChannelTreeOrdered (H := R) m))
    as Hsort by (intros R; apply StronglySorted_merge_sort; apply _).
  split_and!; [|done|done].
  apply (StronglySorted_unique_strong tree_le); [|done|done|by rewrite !Hperm].
  intros a b. rewrite !Hperm, !list_elem_of_fmap.
  intros ([ka va]&->&Ha%elem_of_map_to_list) ([kb vb]&->&Hb%elem_of_map_to_list) H1 H2. simpl in *.
  destruct (wf_channel_key m (wf_m m Hwf) _ _ Ha) as [Hka _].
  destruct (wf_channel_key m (wf_m m Hwf) _ _ Hb) as [Hkb _].
  assert (ka = kb) by (unfold tree_le in *; lia). congruence.
Qed.

(** The join power demanded of a client is the greatest needed power along the
    permission inheritance chain: no gated ancestor whose permissions a channel
    inherits can be bypassed by joining the channel directly. *)
Theorem EffectiveJoinPower_is_chain_max ch m :
  is_Some (channels m !! ch) →
  (∀ a, a ∈ ChannelPermissionChain ch m → needed_of m a ≤ EffectiveJoinPower ch m) ∧
  (∃ a, a ∈ ChannelPermissionChain ch m ∧ needed_of m a = EffectiveJoinPower ch m) ∧
  (length (ChannelPermissionChain ch m) ≤ S maxChannelDepth)%nat.
Proof.
  intros [c Hc]. unfold ChannelPermissionChain, EffectiveJoinPower. rewrite Hc.
  destruct (join_power_walk_spec maxChannelDepth m ch (ch_NeededJoinPower c)) as (H1&H2&H3).
  assert (needed_of m ch = ch_NeededJoinPower c) as Hn by (unfold needed_of; by rewrite Hc).
  split_and!.
  - intros a [->|Ha]%elem_of_cons; [by rewrite Hn|by apply H2].
  - setoid_rewrite elem_of_cons. destruct H3 as [H3|(a&Ha&H3)]; [|by eauto].
    exists ch. rewrite Hn. auto.
  - cbn [length]. apply le_n_S. generalize maxChannelDepth ch. intros fuel.
    induction fuel as [|fuel IH]; intros id; simpl; [lia|].
    repeat case_match; simpl; try lia. specialize (IH (ch_ParentID c0)). lia.
Qed.

(** ** Witnesses *)

Lemma ChannelTreeOrdered_deterministic_witness :
  StronglySorted tree_le (ChannelTreeOrdered (H := λ V, stdpp_range) sample_state).
Proof.
  apply (ChannelTreeOrdered_deterministic (λ V, stdpp_range) (λ V, stdpp_range) sample_state).
  exact sample_wf.
Defined.

Definition gated_tree : Manager :=
  AddChannel (Some (mkChannel 2 1 "Child" "" 0 2 0 0 0 "" 10 false false 0 false false false 0 "" true))
    (AddChannel (Some (mkChannel 1 0 "Gated" "" 0 2 0 0 0 "" 75 false false 0 false false false 0 "" false))
       NewManager).

Lemma EffectiveJoinPower_is_chain_max_witness :
  EffectiveJoinPower 2 gated_tree = 75 ∧
  ∃ a, a ∈ ChannelPermissionChain 2 gated_tree ∧ needed_of gated_tree a = EffectiveJoinPower 2 gated_tree.
Proof.
  split; [vm_compute; reflexivity|].
  apply (EffectiveJoinPower_is_chain_max 2 gated_tree). vm_compute. eauto.
Defined.
