(* ===== verification/LoginLimiter.v ===== *)
(** * The login-failure limiter ([internal/auth/limiter.go])

    The limiter bounds password guessing: it counts failures per scope (a hash
    of the transport source and of the principal), locks a scope out after
    [MaxFailures] of them, admits at most [MaxConcurrentKDF] password
    verifications at a time and one per scope, and keeps at most [MaxEntries]
    entries.

    Every method runs under one mutex, so the model is a sequence of whole
    operations, each with the instant [now] its clock reading gave. A
    [LoginAttempt] is an object of its own that outlives the call that created
    it; the world keeps a store of them next to the limiter. The nil receiver,
    on which every method returns at once, is not represented. *)

From S2P Require Import Prelude.

Definition DefaultLoginFailureMaxFailures : Z := 5.
Definition DefaultLoginFailureLockout : Z := 5 * minute.
Definition DefaultLoginFailureTTL : Z := 5 * minute.
Definition DefaultLoginFailureMaxEntries : Z := 4096.
Definition DefaultLoginFailureMaxConcurrentKDF : Z := 8.

Record LoginFailureLimiterConfig := {
  MaxFailures : Z;
  LockoutDuration : Z;
  FailureTTL : Z;
  MaxEntries : Z;
  MaxConcurrentKDF : Z;
}.

Record loginFailureEntry := {
  failures : Z;
  lastFailure : Z;
  lockedUntil : Z;
  lfe_inFlight : bool;
}.

Record LoginFailureLimiter := {
  lim_cfg : LoginFailureLimiterConfig;
  entries : gmap string loginFailureEntry;
  lim_inFlight : Z;
  overflowUntil : Z;
}.

(** A [LoginAttempt]: whether it points at a limiter, the scopes it reserved,
    and whether its [sync.Once] has run. *)
Record LoginAttempt := {
  att_limiter : bool;
  att_scopes : list string;
  att_once : bool;
}.

Inductive loginAttemptResult :=
| loginAttemptSuccess
| loginAttemptFailure
| loginAttemptCancel.

Definition positive_or (z dflt : Z) : Z := if z <=? 0 then dflt else z.

Definition NewLoginFailureLimiter (cfg : LoginFailureLimiterConfig) : LoginFailureLimiter := {|
  lim_cfg := {|
    MaxFailures := positive_or (MaxFailures cfg) DefaultLoginFailureMaxFailures;
    LockoutDuration := positive_or (LockoutDuration cfg) DefaultLoginFailureLockout;
    FailureTTL := positive_or (FailureTTL cfg) DefaultLoginFailureTTL;
    MaxEntries := positive_or (MaxEntries cfg) DefaultLoginFailureMaxEntries;
    MaxConcurrentKDF := positive_or (MaxConcurrentKDF cfg) DefaultLoginFailureMaxConcurrentKDF;
  |};
  entries := ∅;
  lim_inFlight := 0;
  overflowUntil := 0;
|}.

Definition set_entries (m : gmap string loginFailureEntry) (l : LoginFailureLimiter) :=
  {| lim_cfg := lim_cfg l; entries := m; lim_inFlight := lim_inFlight l;
     overflowUntil := overflowUntil l |}.
Definition set_overflow (t : Z) (l : LoginFailureLimiter) :=
  {| lim_cfg := lim_cfg l; entries := entries l; lim_inFlight := lim_inFlight l;
     overflowUntil := t |}.
Definition set_inFlight (n : Z) (l : LoginFailureLimiter) :=
  {| lim_cfg := lim_cfg l; entries := entries l; lim_inFlight := n;
     overflowUntil := overflowUntil l |}.

Definition zero_entry : loginFailureEntry :=
  {| failures := 0; lastFailure := 0; lockedUntil := 0; lfe_inFlight := false |}.

Definition with_inFlight (b : bool) (e : loginFailureEntry) : loginFailureEntry :=
  {| failures := failures e; lastFailure := lastFailure e;
     lockedUntil := lockedUntil e; lfe_inFlight := b |}.

(** The test [entry.inFlight || entry.lockedUntil.After(now)] that protects an
    entry from pruning, eviction and reuse. *)
Definition blocked (now : Z) (e : loginFailureEntry) : bool :=
  lfe_inFlight e || time_after (lockedUntil e) now.

Fixpoint unique_scopes (seen : gset string) (scopes : list string) : list string :=
  match scopes with
  | [] => []
  | scope :: rest =>
      if String.eqb scope "" then unique_scopes seen rest
      else if bool_decide (scope ∈ seen) then unique_scopes seen rest
      else scope :: unique_scopes ({[scope]} ∪ seen) rest
  end.

Definition uniqueLoginScopes (scopes : list string) : list string := unique_scopes ∅ scopes.

Definition loginScopeSet (scopes : list string) : gset string := list_to_set scopes.

Definition evictableCapacityLocked (now : Z) (l : LoginFailureLimiter) : Z :=
  MaxEntries (lim_cfg l) - Z.of_nat (size (entries l)) +
  Z.of_nat (size (filter (λ kv, blocked now kv.2 = false) (entries l))).

Definition clearOverflowWhenEvictableLocked (now : Z) (l : LoginFailureLimiter) :=
  if (0 <? evictableCapacityLocked now l) || negb (time_after (overflowUntil l) now)
  then set_overflow 0 l else l.

Definition expired (ttl now : Z) (e : loginFailureEntry) : bool :=
  if blocked now e then false
  else
    let lockoutExpired := negb (time_is_zero (lockedUntil e)) in
    let failureExpired :=
      time_is_zero (lastFailure e) ||
      (negb (time_after (lastFailure e) now) && (ttl <=? time_sub now (lastFailure e))) in
    lockoutExpired || failureExpired.

Definition pruneExpiredLocked (now : Z) (l : LoginFailureLimiter) : LoginFailureLimiter :=
  clearOverflowWhenEvictableLocked now
    (set_entries
       (filter (λ kv, expired (FailureTTL (lim_cfg l)) now kv.2 = false) (entries l)) l).

(** The scan of the scopes in [scopesAvailableLocked]: [None] when one of them
    is reserved or locked, otherwise the number of scopes with no entry. *)
Fixpoint scan_scopes (now : Z) (m : gmap string loginFailureEntry) (scopes : list string)
  (newScopes : Z) : option Z :=
  match scopes with
  | [] => Some newScopes
  | scope :: rest =>
      match m !! scope with
      | Some e => if blocked now e then None else scan_scopes now m rest newScopes
      | None => scan_scopes now m rest (newScopes + 1)
      end
  end.

Definition unprotected_evictable (now : Z) (protectedScopes : gset string)
  (m : gmap string loginFailureEntry) : gmap string loginFailureEntry :=
  filter (λ kv, kv.1 ∉ protectedScopes ∧ blocked now kv.2 = false) m.

Definition scopesAvailableLocked (scopes : list string) (protectedScopes : gset string)
  (now : Z) (l : LoginFailureLimiter) : bool * LoginFailureLimiter :=
  match scan_scopes now (entries l) scopes 0 with
  | None => (false, l)
  | Some newScopes =>
      if newScopes =? 0 then (true, l)
      else
        let available :=
          MaxEntries (lim_cfg l) - Z.of_nat (size (entries l)) +
          Z.of_nat (size (unprotected_evictable now protectedScopes (entries l))) in
        if newScopes <=? available then (true, set_overflow 0 l)
        else (false, set_overflow (time_add now (LockoutDuration (lim_cfg l))) l)
  end.

Section limiter.

Context `{!MapRange string loginFailureEntry}.

(** One pass of the search for the entry to evict: the scope and time of the
    oldest failure seen so far, [""] when none has been. *)
Definition oldest_step (now : Z) (protectedScopes : gset string)
  (acc : string * Z) (kv : string * loginFailureEntry) : string * Z :=
  let '(oldestScope, oldestTime) := acc in
  let '(scope, e) := kv in
  if bool_decide (scope ∈ protectedScopes) then acc
  else if blocked now e then acc
  else if String.eqb oldestScope "" || time_before (lastFailure e) oldestTime
  then (scope, lastFailure e)
  else acc.

Definition oldest_scope (now : Z) (protectedScopes : gset string)
  (m : gmap string loginFailureEntry) : string :=
  (foldl (oldest_step now protectedScopes) (EmptyString, 0) (range m)).1.

(** The loop of [makeRoomLocked]. An iteration that goes on deletes an entry,
    so one more iteration than there are entries is enough
    ([makeRoom_loop_fuel]). *)
Fixpoint makeRoom_loop (fuel : nat) (now needed : Z) (protectedScopes : gset string)
  (l : LoginFailureLimiter) : bool * LoginFailureLimiter :=
  match fuel with
  | O => (false, l)
  | S fuel' =>
      if MaxEntries (lim_cfg l) <? Z.of_nat (size (entries l)) + needed then
        let oldest := oldest_scope now protectedScopes (entries l) in
        if String.eqb oldest "" then
          (false, set_overflow (time_add now (LockoutDuration (lim_cfg l))) l)
        else makeRoom_loop fuel' now needed protectedScopes
               (set_entries (delete oldest (entries l)) l)
      else (true, l)
  end.

Definition makeRoomLocked (now needed : Z) (protectedScopes : gset string)
  (l : LoginFailureLimiter) : bool * LoginFailureLimiter :=
  makeRoom_loop (S (size (entries l))) now needed protectedScopes l.

Definition count_new (m : gmap string loginFailureEntry) (scopes : list string) : Z :=
  foldl (λ n scope, match m !! scope with Some _ => n | None => n + 1 end) 0 scopes.

(** [entry := l.entries\[scope\]; entry.inFlight = true; l.entries\[scope\] = entry]:
    a missing entry reads as the zero value. *)
Definition reserve_scope (m : gmap string loginFailureEntry) (scope : string) :=
  <[scope := with_inFlight true (default zero_entry (m !! scope))]> m.

Definition Reserve (scopes : list string) (now : Z) (l : LoginFailureLimiter)
  : option LoginAttempt * LoginFailureLimiter :=
  let scopes := uniqueLoginScopes scopes in
  match scopes with
  | [] => (Some {| att_limiter := false; att_scopes := []; att_once := false |}, l)
  | _ =>
      let l := pruneExpiredLocked now l in
      let protectedScopes := loginScopeSet scopes in
      if MaxConcurrentKDF (lim_cfg l) <=? lim_inFlight l then (None, l)
      else
        let '(available, l) := scopesAvailableLocked scopes protectedScopes now l in
        if negb available then (None, l)
        else
          let newScopes := count_new (entries l) scopes in
          let '(room, l) := makeRoomLocked now newScopes protectedScopes l in
          if negb room then (None, l)
          else
            let l := set_entries (foldl reserve_scope (entries l) scopes) l in
            let l := set_inFlight (lim_inFlight l + 1) l in
            (Some {| att_limiter := true; att_scopes := scopes; att_once := false |}, l)
  end.

(** [entry.failures++; entry.lastFailure = now] and the lockout once the streak
    reaches [maxFailures]. *)
Definition count_failure (cfg : LoginFailureLimiterConfig) (now : Z) (e : loginFailureEntry) :=
  if MaxFailures cfg <=? failures e + 1
  then {| failures := 0; lastFailure := now;
          lockedUntil := time_add now (LockoutDuration cfg); lfe_inFlight := lfe_inFlight e |}
  else {| failures := failures e + 1; lastFailure := now;
          lockedUntil := lockedUntil e; lfe_inFlight := lfe_inFlight e |}.

Definition no_history (e : loginFailureEntry) : bool :=
  (failures e =? 0) && time_is_zero (lockedUntil e).

Definition finish_scope (cfg : LoginFailureLimiterConfig) (res : loginAttemptResult)
  (succeeded : gset string) (now : Z)
  (acc : gmap string loginFailureEntry * bool) (scope : string)
  : gmap string loginFailureEntry * bool :=
  let '(m, finished) := acc in
  match m !! scope with
  | None => acc
  | Some e =>
      if negb (lfe_inFlight e) then acc
      else
        let e := with_inFlight false e in
        (match res with
         | loginAttemptSuccess =>
             if bool_decide (scope ∈ succeeded) then delete scope m
             else if no_history e then delete scope m
             else <[scope := e]> m
         | loginAttemptFailure => <[scope := count_failure cfg now e]> m
         | loginAttemptCancel =>
             if no_history e then delete scope m else <[scope := e]> m
         end, true)
  end.

(** [finish]; the attempt's [sync.Once] is marked as run. *)
Definition finish (res : loginAttemptResult) (successScopes : list string) (now : Z)
  (a : LoginAttempt) (l : LoginFailureLimiter) : LoginAttempt * LoginFailureLimiter :=
  if att_once a then (a, l)
  else
    let a' := {| att_limiter := att_limiter a; att_scopes := att_scopes a; att_once := true |} in
    if negb (att_limiter a) || bool_decide (att_scopes a = []) then (a', l)
    else
      let l := pruneExpiredLocked now l in
      let '(m, finished) :=
        foldl (finish_scope (lim_cfg l) res (loginScopeSet successScopes) now)
          (entries l, false) (att_scopes a) in
      let l := set_entries m l in
      if finished : bool
      then (a', clearOverflowWhenEvictableLocked now (set_inFlight (lim_inFlight l - 1) l))
      else (a', l).

Definition Succeed (successScopes : list string) (now : Z) (a : LoginAttempt)
  (l : LoginFailureLimiter) :=
  finish loginAttemptSuccess (uniqueLoginScopes successScopes) now a l.
Definition Fail_ (now : Z) (a : LoginAttempt) (l : LoginFailureLimiter) :=
  finish loginAttemptFailure [] now a l.
Definition Cancel (now : Z) (a : LoginAttempt) (l : LoginFailureLimiter) :=
  finish loginAttemptCancel [] now a l.

Definition Allowed (scope : string) (now : Z) (l : LoginFailureLimiter)
  : bool * LoginFailureLimiter :=
  if String.eqb scope "" then (true, l)
  else
    let l := pruneExpiredLocked now l in
    if lim_inFlight l <? MaxConcurrentKDF (lim_cfg l)
    then scopesAvailableLocked [scope] (loginScopeSet [scope]) now l
    else (false, l).

Definition recordFailureLocked (now : Z) (l : LoginFailureLimiter) (scope : string)
  : LoginFailureLimiter :=
  let record (e : loginFailureEntry) (l : LoginFailureLimiter) :=
    if lfe_inFlight e then l
    else set_entries (<[scope := count_failure (lim_cfg l) now e]> (entries l)) l in
  match entries l !! scope with
  | Some e => record e l
  | None =>
      let '(room, l) := makeRoomLocked now 1 ∅ l in
      if negb room then l else record zero_entry l
  end.

Definition RecordFailure (scopes : list string) (now : Z) (l : LoginFailureLimiter) :=
  let scopes := uniqueLoginScopes scopes in
  match scopes with
  | [] => l
  | _ =>
      let l := pruneExpiredLocked now l in
      clearOverflowWhenEvictableLocked now (foldl (recordFailureLocked now) l scopes)
  end.

Definition clear_scope (m : gmap string loginFailureEntry) (scope : string) :=
  match m !! scope with
  | Some e => if lfe_inFlight e then m else delete scope m
  | None => delete scope m
  end.

Definition Clear (scopes : list string) (now : Z) (l : LoginFailureLimiter) :=
  let scopes := uniqueLoginScopes scopes in
  match scopes with
  | [] => l
  | _ =>
      clearOverflowWhenEvictableLocked now
        (set_entries (foldl clear_scope (entries l) scopes) l)
  end.

(** ** The limiter and its attempts as a state machine *)

Record lworld := {
  limiter : LoginFailureLimiter;
  attempts : gmap nat LoginAttempt;
}.

Inductive lop :=
| OReserve (id : nat) (scopes : list string)
| OFinish (id : nat) (res : loginAttemptResult) (successScopes : list string)
| OAllowed (scope : string)
| ORecordFailure (scopes : list string)
| OClear (scopes : list string).

(** [lrun now op w]: what the operation does when its clock reads [now]. A
    granted reservation is stored under the identity [id] of the new object. *)
Definition lrun (now : Z) (o : lop) (w : lworld) : lworld :=
  match o with
  | OReserve id scopes =>
      let '(a, l) := Reserve scopes now (limiter w) in
      {| limiter := l;
         attempts := match a with Some a => <[id := a]> (attempts w) | None => attempts w end |}
  | OFinish id res successScopes =>
      match attempts w !! id with
      | None => w
      | Some a =>
          let '(a, l) := finish res successScopes now a (limiter w) in
          {| limiter := l; attempts := <[id := a]> (attempts w) |}
      end
  | OAllowed scope => {| limiter := (Allowed scope now (limiter w)).2; attempts := attempts w |}
  | ORecordFailure scopes =>
      {| limiter := RecordFailure scopes now (limiter w); attempts := attempts w |}
  | OClear scopes => {| limiter := Clear scopes now (limiter w); attempts := attempts w |}
  end.

(** A new attempt is a new object; the clock reads a positive instant. *)
Definition lallowed (now : Z) (o : lop) (w : lworld) : Prop :=
  0 < now ∧
  match o with OReserve id _ => attempts w !! id = None | _ => True end.

Inductive lstep (w : lworld) : lworld → Prop :=
| lstep_run now o : lallowed now o w → lstep w (lrun now o w).

End limiter.
