(* ===== verification/LoginSafety.v ===== *)
(** * What the login-failure limiter guarantees

    The invariant of the limiter and its outstanding attempts, the lockout as a
    safety property of every execution, the exact condition under which a
    reservation is granted, and the streak that leads to a lockout. *)

From S2P Require Import Prelude LoginLimiter.

(** ** Lists of scopes *)

Lemma elem_of_unique_scopes seen scopes s :
  s ∈ unique_scopes seen scopes ↔ s ∈ scopes ∧ s ≠ EmptyString ∧ s ∉ seen.
Proof.
  revert seen. induction scopes as [|x scopes IH]; intros seen; simpl; [set_solver|].
  destruct (String.eqb_spec x "") as [->|Hx]; [rewrite IH; set_solver|].
  case_bool_decide; [rewrite IH; set_solver|].
  rewrite elem_of_cons, IH, elem_of_cons, elem_of_union, elem_of_singleton.
  destruct (decide (s = x)); [subst; tauto|tauto].
Qed.

Lemma NoDup_unique_scopes seen scopes : NoDup (unique_scopes seen scopes).
Proof.
  revert seen. induction scopes as [|x scopes IH]; intros seen; simpl; [constructor|].
  destruct (String.eqb x ""); [apply IH|]. case_bool_decide; [apply IH|].
  constructor; [|apply IH]. rewrite elem_of_unique_scopes. set_solver.
Qed.

Lemma elem_of_uniqueLoginScopes scopes s :
  s ∈ uniqueLoginScopes scopes ↔ s ∈ scopes ∧ s ≠ EmptyString.
Proof. unfold uniqueLoginScopes. rewrite elem_of_unique_scopes. set_solver. Qed.

Lemma NoDup_uniqueLoginScopes scopes : NoDup (uniqueLoginScopes scopes).
Proof. apply NoDup_unique_scopes. Qed.

Lemma uniqueLoginScopes_singleton s : s ≠ EmptyString → uniqueLoginScopes [s] = [s].
Proof.
  intros Hs. unfold uniqueLoginScopes. simpl.
  destruct (String.eqb_spec s ""); [done|]. by rewrite bool_decide_false by set_solver.
Qed.

#[export] Hint Resolve NoDup_uniqueLoginScopes : noxa.

(** ** Well-formed limiters *)

Definition cfg_ok (cfg : LoginFailureLimiterConfig) : Prop :=
  0 < MaxFailures cfg ∧ 0 < LockoutDuration cfg ∧ 0 < FailureTTL cfg ∧
  0 < MaxEntries cfg ∧ 0 < MaxConcurrentKDF cfg.

Definition entry_ok (cfg : LoginFailureLimiterConfig) (s : string) (e : loginFailureEntry) : Prop :=
  s ≠ EmptyString ∧ 0 ≤ failures e < MaxFailures cfg ∧ 0 ≤ lockedUntil e ∧
  (lfe_inFlight e = true → lockedUntil e = 0).

Definition lim_ok (l : LoginFailureLimiter) : Prop :=
  cfg_ok (lim_cfg l) ∧
  map_Forall (entry_ok (lim_cfg l)) (entries l) ∧
  Z.of_nat (size (entries l)) ≤ MaxEntries (lim_cfg l).

(** The scopes a verification is running for. *)
Definition flying (l : LoginFailureLimiter) (s : string) : Prop :=
  ∃ e, entries l !! s = Some e ∧ lfe_inFlight e = true.

(** [shrinks now prot l l']: [l'] is [l] less some entries, none of them
    protected, reserved or locked at [now]. *)
Record shrinks (now : Z) (prot : gset string) (l l' : LoginFailureLimiter) : Prop := {
  shrinks_sub : entries l' ⊆ entries l;
  shrinks_keep s e :
    entries l !! s = Some e → s ∈ prot ∨ blocked now e = true → entries l' !! s = Some e;
  shrinks_cfg : lim_cfg l' = lim_cfg l;
  shrinks_inFlight : lim_inFlight l' = lim_inFlight l;
}.

Lemma shrinks_refl now prot l : shrinks now prot l l.
Proof. by constructor. Qed.

Lemma shrinks_trans now prot l1 l2 l3 :
  shrinks now prot l1 l2 → shrinks now prot l2 l3 → shrinks now prot l1 l3.
Proof.
  intros [????] [????]. constructor; [by etrans|eauto|congruence|congruence].
Qed.

Lemma shrinks_weaken now prot l l' : shrinks now prot l l' → shrinks now ∅ l l'.
Proof. intros [????]. constructor; [done| |done|done]. intros s e ? [?|?]; [set_solver|eauto]. Qed.

Lemma shrinks_size now prot l l' :
  shrinks now prot l l' → (size (entries l') ≤ size (entries l))%nat.
Proof. intros [Hsub _ _ _]. by apply map_subseteq_size. Qed.

Lemma shrinks_ok now prot l l' : shrinks now prot l l' → lim_ok l → lim_ok l'.
Proof.
  intros Hs (Hc & He & Hsz). pose proof (shrinks_size _ _ _ _ Hs).
  destruct Hs as [Hsub _ Hcfg _]. unfold lim_ok. rewrite Hcfg.
  split_and!; [done| |lia]. intros s e Hse. apply He. eapply lookup_weaken; eauto.
Qed.

Lemma flying_blocked now e : lfe_inFlight e = true → blocked now e = true.
Proof. intros He. unfold blocked. by rewrite He. Qed.

Lemma shrinks_flying now prot l l' s : shrinks now prot l l' → flying l' s ↔ flying l s.
Proof.
  intros [Hsub Hkeep _ _]. split; intros (e & Hl & He); exists e; split; try done.
  - eapply lookup_weaken; eauto.
  - apply Hkeep; [done|]. right. by apply flying_blocked.
Qed.

#[export] Hint Resolve shrinks_refl shrinks_weaken : noxa.

(** *** Pruning and the overflow marker *)

Lemma clearOverflow_entries now l :
  entries (clearOverflowWhenEvictableLocked now l) = entries l ∧
  lim_cfg (clearOverflowWhenEvictableLocked now l) = lim_cfg l ∧
  lim_inFlight (clearOverflowWhenEvictableLocked now l) = lim_inFlight l.
Proof. unfold clearOverflowWhenEvictableLocked. by destruct (_ || _). Qed.

Lemma shrinks_clearOverflow now prot l l' :
  shrinks now prot l l' → shrinks now prot l (clearOverflowWhenEvictableLocked now l').
Proof.
  intros [? Hk ??]. destruct (clearOverflow_entries now l') as (He&?&?).
  constructor; [by rewrite He|intros; rewrite He; eauto|congruence|congruence].
Qed.

Lemma expired_blocked ttl now e : expired ttl now e = true → blocked now e = false.
Proof. unfold expired. by destruct (blocked now e). Qed.

Lemma entries_prune now l :
  entries (pruneExpiredLocked now l) =
  filter (λ kv, expired (FailureTTL (lim_cfg l)) now kv.2 = false) (entries l).
Proof. unfold pruneExpiredLocked. by rewrite (proj1 (clearOverflow_entries _ _)). Qed.

Lemma prune_shrinks now l : shrinks now ∅ l (pruneExpiredLocked now l).
Proof.
  unfold pruneExpiredLocked. apply shrinks_clearOverflow. constructor; simpl; try done.
  - apply map_filter_subseteq.
  - intros s e Hl [?|Hb]; [set_solver|]. apply map_lookup_filter_Some. split; [done|].
    simpl. apply not_true_iff_false. intros He%expired_blocked. congruence.
Qed.

(** After pruning, a lockout that is recorded is in force. *)
Lemma prune_lockedUntil now l s e :
  entries (pruneExpiredLocked now l) !! s = Some e →
  blocked now e = false → lockedUntil e = 0.
Proof.
  rewrite entries_prune, map_lookup_filter_Some. simpl. unfold expired.
  intros [_ He] Hb. rewrite Hb in He. bools. unfold time_is_zero in *. by bools.
Qed.

(** *** Availability *)

Lemma scopesAvailable_shrinks scopes prot now l :
  shrinks now prot l (scopesAvailableLocked scopes prot now l).2.
Proof.
  unfold scopesAvailableLocked. destruct (scan_scopes _ _ _ _); [|by constructor].
  destruct (_ =? _); [by constructor|]. by destruct (_ <=? _); constructor.
Qed.

Lemma scopesAvailable_entries scopes prot now l :
  entries (scopesAvailableLocked scopes prot now l).2 = entries l.
Proof.
  unfold scopesAvailableLocked. destruct (scan_scopes _ _ _ _); [|done].
  destruct (_ =? _); [done|]. by destruct (_ <=? _).
Qed.

Lemma count_new_acc m scopes n :
  foldl (λ n scope, match m !! scope with Some _ => n | None => n + 1 end) n scopes =
  n + count_new m scopes.
Proof.
  unfold count_new. revert n. induction scopes as [|s scopes IH]; intros n; simpl; [lia|].
  rewrite IH, (IH (match m !! s with Some _ => 0 | None => 0 + 1 end)).
  destruct (m !! s); lia.
Qed.

Lemma count_new_cons m s scopes :
  count_new m (s :: scopes) = (match m !! s with Some _ => 0 | None => 1 end) + count_new m scopes.
Proof. unfold count_new at 1. simpl. rewrite count_new_acc. by destruct (m !! s). Qed.

Lemma count_new_nonneg m scopes : 0 ≤ count_new m scopes.
Proof.
  induction scopes as [|s scopes IH]; [done|]. rewrite count_new_cons. destruct (m !! s); lia.
Qed.

Definition none_blocked (now : Z) (m : gmap string loginFailureEntry) (scopes : list string) : Prop :=
  ∀ s e, s ∈ scopes → m !! s = Some e → blocked now e = false.

Lemma scan_scopes_spec now m scopes n :
  match scan_scopes now m scopes n with
  | Some k => none_blocked now m scopes ∧ k = n + count_new m scopes
  | None => ¬ none_blocked now m scopes
  end.
Proof.
  revert n. induction scopes as [|s scopes IH]; intros n; simpl.
  { split; [intros s e; set_solver|unfold count_new; simpl; lia]. }
  rewrite count_new_cons. unfold none_blocked in *.
  destruct (m !! s) as [e|] eqn:Hs.
  - destruct (blocked now e) eqn:Hb.
    + intros Hn. specialize (Hn s e). rewrite Hn in Hb; [done|set_solver|done].
    + specialize (IH n). destruct (scan_scopes now m scopes n).
      * destruct IH as [IH ->]. split; [|lia].
        intros s' e' [->|?]%elem_of_cons ?; [congruence|eauto].
      * contradict IH. intros s' e' ??. apply (IH s'); [set_solver|done].
  - specialize (IH (n + 1)). destruct (scan_scopes now m scopes (n + 1)).
    + destruct IH as [IH ->]. split; [|lia].
      intros s' e' [->|?]%elem_of_cons ?; [congruence|eauto].
    + contradict IH. intros s' e' ??. apply (IH s'); [set_solver|done].
Qed.

Definition room_for (now needed : Z) (prot : gset string) (l : LoginFailureLimiter) : Prop :=
  Z.of_nat (size (entries l)) + needed ≤
  MaxEntries (lim_cfg l) + Z.of_nat (size (unprotected_evictable now prot (entries l))).

Lemma scopesAvailable_true scopes prot now l :
  lim_ok l →
  (scopesAvailableLocked scopes prot now l).1 = true ↔
  none_blocked now (entries l) scopes ∧ room_for now (count_new (entries l) scopes) prot l.
Proof.
  intros (_ & _ & Hsz). unfold scopesAvailableLocked, room_for.
  pose proof (scan_scopes_spec now (entries l) scopes 0) as Hscan.
  destruct (scan_scopes _ _ _ _) as [k|]; [|simpl; naive_solver].
  destruct Hscan as [Hnb ->]. rewrite Z.add_0_l.
  destruct (Z.eqb_spec (count_new (entries l) scopes) 0) as [->|?]; simpl.
  { split; [|done]. intros _. split; [done|lia]. }
  destruct (Z.leb_spec (count_new (entries l) scopes)
    (MaxEntries (lim_cfg l) - Z.of_nat (size (entries l)) +
     Z.of_nat (size (unprotected_evictable now prot (entries l))))); simpl.
  - split; [|done]. intros _. split; [done|lia].
  - split; [done|]. intros [_ ?]. lia.
Qed.

(** *** Eviction *)

Section eviction.

Context `{!MapRange string loginFailureEntry}.

(** An entry that [makeRoomLocked] may delete. *)
Definition evictable (now : Z) (prot : gset string) (m : gmap string loginFailureEntry)
  (s : string) (e : loginFailureEntry) : Prop :=
  m !! s = Some e ∧ s ∉ prot ∧ blocked now e = false.

Lemma oldest_fold now prot (kvs : list (string * loginFailureEntry)) :
  (∀ s e, (s, e) ∈ kvs → s ≠ EmptyString) →
  let ok s e := (s, e) ∈ kvs ∧ s ∉ prot ∧ blocked now e = false in
  let '(os, ot) := foldl (oldest_step now prot) (EmptyString, 0) kvs in
  (os = EmptyString ∧ ∀ s e, ¬ ok s e) ∨
  (os ≠ EmptyString ∧ ∃ e, ok os e ∧ ot = lastFailure e ∧ ∀ s e', ok s e' → ot ≤ lastFailure e').
Proof.
  induction kvs as [|[s e] kvs IH] using rev_ind; intros Hne; simpl; [left; set_solver|].
  rewrite foldl_app. simpl.
  assert (s ≠ EmptyString) as Hs by (apply (Hne s e); set_solver).
  ospecialize (IH _); [intros s' e' ?; apply (Hne s' e'); set_solver|]. simpl in IH.
  destruct (foldl _ _ kvs) as [os ot]. unfold oldest_step.
  case_bool_decide as Hp.
  { destruct IH as [[-> IH]|(Ho & e0 & ? & ? & IH)]; [left|right].
    - split; [done|]. intros s' e'. rewrite elem_of_app, list_elem_of_singleton.
      intros ([?|?]&?&?); [naive_solver|by simplify_eq].
    - split; [done|]. exists e0. split; [set_solver|]. split; [done|].
      intros s' e'. rewrite elem_of_app, list_elem_of_singleton.
      intros ([?|?]&?&?); [naive_solver|by simplify_eq]. }
  destruct (blocked now e) eqn:Hb.
  { destruct IH as [[-> IH]|(Ho & e0 & ? & ? & IH)]; [left|right].
    - split; [done|]. intros s' e'. rewrite elem_of_app, list_elem_of_singleton.
      intros ([?|?]&?&?); [naive_solver|simplify_eq; congruence].
    - split; [done|]. exists e0. split; [set_solver|]. split; [done|].
      intros s' e'. rewrite elem_of_app, list_elem_of_singleton.
      intros ([?|?]&?&?); [naive_solver|simplify_eq; congruence]. }
  destruct IH as [[-> IH]|(Ho & e0 & ? & -> & IH)]; simpl.
  { right. split; [done|]. exists e. split; [set_solver|]. split; [done|].
    intros s' e'. rewrite elem_of_app, list_elem_of_singleton.
    intros ([?|?]&?&?); [naive_solver|by simplify_eq]. }
  apply String.eqb_neq in Ho as Ho'. rewrite Ho'. simpl. unfold time_before.
  destruct (Z.ltb_spec (lastFailure e) (lastFailure e0)); right; (split; [done|]).
  - exists e. split; [set_solver|]. split; [done|].
    intros s' e'. rewrite elem_of_app, list_elem_of_singleton.
    intros ([?|?]&?&?); [|by simplify_eq]. 
    assert (lastFailure e0 ≤ lastFailure e') by (apply (IH s'); auto). lia.
  - exists e0. split; [set_solver|]. split; [done|].
    intros s' e'. rewrite elem_of_app, list_elem_of_singleton.
    intros ([?|?]&?&?); [naive_solver|by simplify_eq].
Qed.

Definition keys_ok (m : gmap string loginFailureEntry) : Prop := m !! EmptyString = None.

Lemma oldest_scope_spec now prot m :
  keys_ok m →
  (oldest_scope now prot m = EmptyString ∧ ∀ s e, ¬ evictable now prot m s e) ∨
  (oldest_scope now prot m ≠ EmptyString ∧
   ∃ e, evictable now prot m (oldest_scope now prot m) e ∧
        ∀ s e', evictable now prot m s e' → lastFailure e ≤ lastFailure e').
Proof.
  intros Hk. unfold oldest_scope, evictable.
  pose proof (oldest_fold now prot (range m)) as Hf.
  ospecialize (Hf _). { intros s e Hse ->. apply elem_of_range in Hse. unfold keys_ok in Hk. congruence. }
  simpl in Hf. destruct (foldl _ _ _) as [os ot]. simpl. 
  destruct Hf as [[-> Hf]|(? & e & He & -> & Hf)]; [left|right]; split; try done.
  - intros s e. rewrite <- elem_of_range. apply Hf.
  - exists e. rewrite <- elem_of_range. split; [done|].
    intros s e'. rewrite <- elem_of_range. apply Hf.
Qed.

Lemma lim_ok_keys l : lim_ok l → keys_ok (entries l).
Proof.
  intros (_ & He & _). unfold keys_ok. destruct (entries l !! EmptyString) eqn:H; [|done].
  by destruct (He _ _ H).
Qed.

Lemma size_delete_Some (m : gmap string loginFailureEntry) s e :
  m !! s = Some e → size m = S (size (delete s m)).
Proof.
  intros H. rewrite <- (insert_delete_id m s e H) at 1.
  apply map_size_insert_None, lookup_delete_eq.
Qed.

Lemma size_evictable_delete now prot m s e :
  evictable now prot m s e →
  size (unprotected_evictable now prot m) =
  S (size (unprotected_evictable now prot (delete s m))).
Proof.
  intros (Hm & Hp & Hb). unfold unprotected_evictable.
  rewrite map_filter_delete. apply (size_delete_Some _ _ e).
  apply map_lookup_filter_Some. done.
Qed.

Lemma size_evictable_zero now prot m :
  (∀ s e, ¬ evictable now prot m s e) → size (unprotected_evictable now prot m) = 0%nat.
Proof.
  intros Hn. apply map_size_empty_iff, map_empty. intros s. apply map_lookup_filter_None.
  right. intros e Hs [??]. by apply (Hn s e).
Qed.

Lemma shrinks_delete now prot l s e :
  evictable now prot (entries l) s e →
  shrinks now prot l (set_entries (delete s (entries l)) l).
Proof.
  intros (Hm & Hp & Hb). constructor; simpl; try done; [apply delete_subseteq|].
  intros s' e' Hs' Hor. destruct (decide (s = s')) as [<-|?].
  - simplify_eq. destruct Hor; congruence.
  - by rewrite lookup_delete_ne.
Qed.

(** The loop of [makeRoomLocked] ends within its fuel: it deletes unprotected
    entries only, and makes room exactly when there is enough to delete. *)
Lemma makeRoom_loop_spec fuel now needed prot l :
  lim_ok l → (size (entries l) < fuel)%nat →
  let '(b, l') := makeRoom_loop fuel now needed prot l in
  shrinks now prot l l' ∧
  (b = true → Z.of_nat (size (entries l')) + needed ≤ MaxEntries (lim_cfg l)) ∧
  (b = true ↔ room_for now needed prot l).
Proof.
  revert l. induction fuel as [|fuel IH]; intros l Hl Hf; [lia|]. simpl.
  assert (size (unprotected_evictable now prot (entries l)) ≤ size (entries l))%nat as Hsub.
  { apply map_subseteq_size, map_filter_subseteq. }
  destruct (Z.ltb_spec (MaxEntries (lim_cfg l)) (Z.of_nat (size (entries l)) + needed)) as [Hlt|Hge].
  2:{ split; [apply shrinks_refl|]. split; [done|]. unfold room_for. split; [lia|done]. }
  destruct (oldest_scope_spec now prot (entries l) (lim_ok_keys l Hl))
    as [[-> Hno]|(Ho & e & He & Hmin)].
  { simpl. split; [by constructor|]. split; [done|].
    apply size_evictable_zero in Hno. unfold room_for. split; [done|lia]. }
  destruct (String.eqb_spec (oldest_scope now prot (entries l)) "") as [?|_]; [done|].
  pose proof (shrinks_delete _ _ _ _ _ He) as Hsh.
  specialize (IH _ (shrinks_ok _ _ _ _ Hsh Hl)). simpl in IH.
  pose proof (size_delete_Some _ _ _ (proj1 He)) as Hsz.
  pose proof (size_evictable_delete _ _ _ _ _ He) as Hev.
  ospecialize (IH _); [lia|].
  destruct (makeRoom_loop fuel _ _ _ _) as [b l']. destruct IH as (IH1 & IH2 & IH3).
  split; [by eapply shrinks_trans|]. split; [done|].
  rewrite IH3. unfold room_for. simpl. lia.
Qed.

Lemma makeRoom_loop_fuel fuel now needed prot l :
  lim_ok l → (size (entries l) < fuel)%nat →
  makeRoom_loop fuel now needed prot l = makeRoomLocked now needed prot l.
Proof.
  unfold makeRoomLocked. generalize (Nat.lt_succ_diag_r (size (entries l))).
  generalize (S (size (entries l))) as fuel'.
  revert l. induction fuel as [|fuel IH]; intros l [|fuel'] Hf' Hl Hf; [lia..|]. simpl.
  destruct (_ <? _); [|done].
  destruct (oldest_scope_spec now prot (entries l) (lim_ok_keys l Hl))
    as [[-> Hno]|(Ho & e & He & Hmin)]; [done|].
  destruct (String.eqb_spec (oldest_scope now prot (entries l)) "") as [?|_]; [done|].
  pose proof (shrinks_delete _ _ _ _ _ He) as Hsh.
  pose proof (size_delete_Some _ _ _ (proj1 He)).
  apply IH; simpl; [lia|by apply (shrinks_ok _ _ _ _ Hsh)|lia].
Qed.

Lemma makeRoom_spec now needed prot l :
  lim_ok l →
  shrinks now prot l (makeRoomLocked now needed prot l).2 ∧
  ((makeRoomLocked now needed prot l).1 = true →
   Z.of_nat (size (entries (makeRoomLocked now needed prot l).2)) + needed ≤ MaxEntries (lim_cfg l)) ∧
  ((makeRoomLocked now needed prot l).1 = true ↔ room_for now needed prot l).
Proof.
  intros Hl. pose proof (makeRoom_loop_spec (S (size (entries l))) now needed prot l Hl) as H.
  ospecialize (H _); [lia|]. unfold makeRoomLocked. by destruct (makeRoom_loop _ _ _ _ _).
Qed.

(** *** Reservation *)

Lemma lookup_reserve m scopes s :
  NoDup scopes →
  foldl reserve_scope m scopes !! s =
    if decide (s ∈ scopes) then Some (with_inFlight true (default zero_entry (m !! s)))
    else m !! s.
Proof.
  revert m. induction scopes as [|x scopes IH]; intros m; simpl; [done|].
  intros [Hx Hnd]%NoDup_cons. rewrite IH by done. unfold reserve_scope.
  destruct (decide (s = x)) as [->|Hne].
  - destruct (decide (x ∈ scopes)); [done|]. rewrite lookup_insert_eq.
    by destruct (decide (x ∈ x :: scopes)); [|set_solver].
  - rewrite lookup_insert_ne by done.
    destruct (decide (s ∈ scopes)), (decide (s ∈ x :: scopes)); set_solver.
Qed.

Lemma count_new_insert m x e scopes :
  x ∉ scopes → count_new (<[x := e]> m) scopes = count_new m scopes.
Proof.
  induction scopes as [|s scopes IH]; [done|]. intros [Hs Hx]%not_elem_of_cons.
  rewrite !count_new_cons, lookup_insert_ne, IH by done. done.
Qed.

Lemma size_reserve m scopes :
  NoDup scopes →
  Z.of_nat (size (foldl reserve_scope m scopes)) = Z.of_nat (size m) + count_new m scopes.
Proof.
  revert m. induction scopes as [|x scopes IH]; intros m; simpl; [unfold count_new; simpl; lia|].
  intros [Hx Hnd]%NoDup_cons. rewrite IH by done. unfold reserve_scope.
  rewrite count_new_insert, count_new_cons, map_size_insert by done.
  destruct (m !! x); simpl; lia.
Qed.

Lemma none_blocked_shrinks now prot l l' scopes :
  shrinks now prot l l' → none_blocked now (entries l') scopes ↔ none_blocked now (entries l) scopes.
Proof.
  intros [Hsub Hkeep _ _]. split; intros Hn s e Hs He.
  - destruct (blocked now e) eqn:Hb; [|done]. rewrite <- Hb. apply (Hn s e Hs). auto.
  - apply (Hn s e Hs). by eapply lookup_weaken.
Qed.

(** The condition under which [Reserve] grants [scopes] (without duplicates
    or empty scopes, and not empty). *)
Definition grants (now : Z) (scopes : list string) (l : LoginFailureLimiter) : Prop :=
  lim_inFlight l < MaxConcurrentKDF (lim_cfg l) ∧
  none_blocked now (entries l) scopes ∧
  room_for now (count_new (entries (pruneExpiredLocked now l)) scopes)
    (loginScopeSet scopes) (pruneExpiredLocked now l).

(** What a granted reservation leaves: the entries of [l1], the limiter after
    pruning and eviction, with the scopes marked as in flight. *)
Record granted (now : Z) (scopes : list string) (l l' : LoginFailureLimiter) : Prop := {
  granted_l1 : LoginFailureLimiter;
  granted_shrinks : shrinks now ∅ l granted_l1;
  granted_protected s :
    s ∈ scopes → entries granted_l1 !! s = entries (pruneExpiredLocked now l) !! s;
  granted_entries : entries l' = foldl reserve_scope (entries granted_l1) scopes;
  granted_size : Z.of_nat (size (entries l')) ≤ MaxEntries (lim_cfg l);
  granted_cfg : lim_cfg l' = lim_cfg l;
  granted_inFlight : lim_inFlight l' = lim_inFlight l + 1;
}.

Lemma count_new_protected now prot l l' scopes :
  shrinks now prot l l' → (∀ s, s ∈ scopes → s ∈ prot) →
  count_new (entries l') scopes = count_new (entries l) scopes ∧
  ∀ s, s ∈ scopes → entries l' !! s = entries l !! s.
Proof.
  intros [Hsub Hkeep _ _] Hp.
  assert (∀ s, s ∈ scopes → entries l' !! s = entries l !! s) as Heq.
  { intros s Hs. destruct (entries l !! s) as [e|] eqn:He; [by apply Hkeep; auto|].
    destruct (entries l' !! s) eqn:He'; [|done]. by rewrite (lookup_weaken _ _ _ _ He' Hsub) in He. }
  split; [|done]. clear Hp. induction scopes as [|s scopes IH]; [done|].
  rewrite !count_new_cons, Heq, IH by set_solver. done.
Qed.

Lemma Reserve_spec scopes now l :
  lim_ok l → uniqueLoginScopes scopes ≠ [] →
  let '(a, l') := Reserve scopes now l in
  match a with
  | Some a =>
      grants now (uniqueLoginScopes scopes) l ∧
      a = {| att_limiter := true; att_scopes := uniqueLoginScopes scopes; att_once := false |} ∧
      granted now (uniqueLoginScopes scopes) l l'
  | None => ¬ grants now (uniqueLoginScopes scopes) l ∧ shrinks now ∅ l l'
  end.
Proof.
  intros Hl Hne. unfold Reserve.
  pose proof (NoDup_uniqueLoginScopes scopes) as Hnd.
  pose proof (prune_shrinks now l) as Hp.
  set (lp := pruneExpiredLocked now l) in *.
  assert (lim_ok lp) as Hlp by by eapply shrinks_ok.
  destruct (uniqueLoginScopes scopes) as [|s0 rest] eqn:Hsc; [done|]. clear Hne Hsc.
  revert Hnd. generalize (s0 :: rest) as sc. intros sc Hnd.
  assert (grants now sc l ↔ lim_inFlight lp < MaxConcurrentKDF (lim_cfg lp) ∧
    none_blocked now (entries lp) sc ∧
    room_for now (count_new (entries lp) sc) (loginScopeSet sc) lp) as HG.
  { rewrite (none_blocked_shrinks now ∅ l lp sc Hp),
      (shrinks_inFlight _ _ _ _ Hp), (shrinks_cfg _ _ _ _ Hp). done. }
  destruct (Z.leb_spec (MaxConcurrentKDF (lim_cfg lp)) (lim_inFlight lp)).
  { rewrite HG. split; [lia|done]. }
  pose proof (scopesAvailable_true sc (loginScopeSet sc) now lp Hlp) as Hav.
  pose proof (scopesAvailable_shrinks sc (loginScopeSet sc) now lp) as Hsh.
  pose proof (scopesAvailable_entries sc (loginScopeSet sc) now lp) as Hae.
  destruct (scopesAvailableLocked sc (loginScopeSet sc) now lp) as [b la]. simpl in *.
  destruct b; simpl.
  2:{ rewrite HG. split; [intros (_ & H1 & H2); by apply diff_false_true, Hav|].
      eapply shrinks_trans; eauto with noxa. }
  destruct Hav as [Hav _]. specialize (Hav eq_refl).
  destruct (makeRoom_spec now (count_new (entries la) sc) (loginScopeSet sc) la)
    as (Hms & Hmsz & Hmb); [by eapply shrinks_ok|].
  destruct (makeRoomLocked now (count_new (entries la) sc) (loginScopeSet sc) la) as [b l1].
  simpl in *.
  assert (b = true) as ->.
  { apply Hmb. unfold room_for in *. rewrite Hae, (shrinks_cfg _ _ _ _ Hsh). tauto. }
  simpl. split; [by apply HG|]. split; [done|].
  destruct (count_new_protected _ _ _ _ sc Hms) as [Hcn Hpr].
  { intros s Hs. unfold loginScopeSet. by rewrite elem_of_list_to_set. }
  pose proof (shrinks_cfg _ _ _ _ Hsh) as Hc1. pose proof (shrinks_cfg _ _ _ _ Hms) as Hc2.
  pose proof (shrinks_inFlight _ _ _ _ Hsh). pose proof (shrinks_inFlight _ _ _ _ Hms).
  pose proof (shrinks_cfg _ _ _ _ Hp) as Hc3. pose proof (shrinks_inFlight _ _ _ _ Hp).
  exists l1; simpl; try congruence.
  - eapply shrinks_trans; [done|]. by eapply shrinks_weaken, shrinks_trans.
  - intros s Hs. rewrite Hpr by done. by rewrite Hae.
  - rewrite size_reserve, Hcn by done. specialize (Hmsz eq_refl).
    rewrite Hc1, Hc3 in Hmsz. lia.
Qed.

Lemma granted_ok scopes now l l' :
  0 < now → lim_ok l → grants now (uniqueLoginScopes scopes) l →
  granted now (uniqueLoginScopes scopes) l l' →
  lim_ok l' ∧ ∀ s, flying l' s ↔ flying l s ∨ s ∈ uniqueLoginScopes scopes.
Proof.
  intros Hnow Hl (_ & Hnb & _) [l1 Hsh Hpr Hent Hsz Hcfg Hin].
  pose proof (NoDup_uniqueLoginScopes scopes) as Hnd.
  pose proof (shrinks_ok _ _ _ _ Hsh Hl) as Hl1.
  rewrite <- (none_blocked_shrinks _ _ _ _ _ (prune_shrinks now l)) in Hnb.
  split.
  - destruct Hl as (Hc & _). destruct Hl1 as (_ & He & _).
    unfold lim_ok. rewrite Hcfg. split_and!; [done| |done].
    intros s e. rewrite Hent, lookup_reserve by done.
    destruct (decide (s ∈ uniqueLoginScopes scopes)) as [Hs|].
    2:{ intros Hse. apply He in Hse. by rewrite (shrinks_cfg _ _ _ _ Hsh) in Hse. }
    intros [= <-]. rewrite (Hpr s Hs). apply elem_of_uniqueLoginScopes in Hs as Hs'.
    unfold entry_ok, cfg_ok in *. destruct (entries (pruneExpiredLocked now l) !! s) as [e|] eqn:Hse; simpl.
    + rewrite (prune_lockedUntil _ _ _ _ Hse (Hnb _ _ Hs Hse)).
      rewrite <- Hpr in Hse by done. apply He in Hse.
      rewrite (shrinks_cfg _ _ _ _ Hsh) in Hse. naive_solver.
    + naive_solver lia.
  - intros s. rewrite <- (shrinks_flying _ _ _ _ s Hsh). unfold flying.
    rewrite Hent, lookup_reserve by done.
    destruct (decide (s ∈ uniqueLoginScopes scopes)); [|naive_solver]. naive_solver.
Qed.

(** *** Completion *)

Definition finish_entry (cfg : LoginFailureLimiterConfig) (res : loginAttemptResult)
  (succeeded : gset string) (now : Z) (s : string) (e : loginFailureEntry)
  : option loginFailureEntry :=
  let e := with_inFlight false e in
  match res with
  | loginAttemptSuccess =>
      if bool_decide (s ∈ succeeded) then None else if no_history e then None else Some e
  | loginAttemptFailure => Some (count_failure cfg now e)
  | loginAttemptCancel => if no_history e then None else Some e
  end.

Definition finish_lookup cfg res succeeded now (m : gmap string loginFailureEntry) s :=
  match m !! s with
  | Some e => if lfe_inFlight e then finish_entry cfg res succeeded now s e else Some e
  | None => None
  end.

Lemma finish_scope_lookup cfg res succeeded now m b x s :
  (finish_scope cfg res succeeded now (m, b) x).1 !! s =
    if decide (s = x) then finish_lookup cfg res succeeded now m s else m !! s.
Proof.
  unfold finish_scope, finish_lookup, finish_entry.
  destruct (decide (s = x)) as [->|Hne].
  - destruct (m !! x) as [e|] eqn:Hx; [|done]. destruct (lfe_inFlight e); simpl; [|done].
    destruct res; simpl; repeat case_match; by rewrite ?lookup_delete_eq, ?lookup_insert_eq.
  - destruct (m !! x) as [e|] eqn:Hx; [|done]. destruct (lfe_inFlight e); simpl; [|done].
    destruct res; simpl; repeat case_match; by rewrite ?lookup_delete_ne, ?lookup_insert_ne by done.
Qed.

Lemma lookup_finish cfg res succeeded now m b scopes s :
  NoDup scopes →
  (foldl (finish_scope cfg res succeeded now) (m, b) scopes).1 !! s =
    if decide (s ∈ scopes) then finish_lookup cfg res succeeded now m s else m !! s.
Proof.
  revert m b. induction scopes as [|x scopes IH]; intros m b; [done|].
  cbn [foldl]. intros [Hx Hnd]%NoDup_cons.
  pose proof (finish_scope_lookup cfg res succeeded now m b x) as Hl.
  destruct (finish_scope cfg res succeeded now (m, b) x) as [m' b']. simpl in Hl.
  rewrite IH by done. unfold finish_lookup at 1. rewrite (Hl s).
  destruct (decide (s = x)) as [->|Hne].
  - destruct (decide (x ∈ scopes)), (decide (x ∈ x :: scopes)); set_solver.
  - destruct (decide (s ∈ scopes)), (decide (s ∈ x :: scopes)); [done|set_solver..|done].
Qed.

Lemma finish_finished cfg res succeeded now m b scopes :
  b = true ∨ (∃ s e, s ∈ scopes ∧ m !! s = Some e ∧ lfe_inFlight e = true) →
  (foldl (finish_scope cfg res succeeded now) (m, b) scopes).2 = true.
Proof.
  revert m b. induction scopes as [|x scopes IH]; intros m b; cbn [foldl]; [set_solver|].
  intros Hor. pose proof (finish_scope_lookup cfg res succeeded now m b x) as Hl.
  assert (b = true → (finish_scope cfg res succeeded now (m, b) x).2 = true) as Hb.
  { intros ->. unfold finish_scope. by repeat case_match. }
  destruct Hor as [->|(s & e & Hs & Hm & He)].
  { destruct (finish_scope cfg res succeeded now (m, true) x) as [m' b']. apply IH. auto. }
  destruct (decide (s = x)) as [->|Hne].
  - assert ((finish_scope cfg res succeeded now (m, b) x).2 = true).
    { unfold finish_scope. by rewrite Hm, He. }
    destruct (finish_scope cfg res succeeded now (m, b) x) as [m' b']. apply IH. auto.
  - specialize (Hl s). rewrite decide_False in Hl by done.
    destruct (finish_scope cfg res succeeded now (m, b) x) as [m' b']. apply IH. right.
    exists s, e. split; [set_solver|]. by rewrite <- Hm.
Qed.

Lemma count_failure_ok cfg now s e :
  cfg_ok cfg → 0 < now → entry_ok cfg s e → lfe_inFlight e = false →
  entry_ok cfg s (count_failure cfg now e).
Proof.
  unfold cfg_ok, entry_ok, count_failure, time_add.
  intros (?&?&?&?&?) ? (?&?&?&?) ?. destruct (Z.leb_spec (MaxFailures cfg) (failures e + 1)); simpl.
  - split_and!; [done|lia|lia|lia|congruence].
  - split_and!; [done|lia|lia|lia|congruence].
Qed.

Lemma finish_lookup_ok cfg res succeeded now m s e :
  cfg_ok cfg → 0 < now → map_Forall (entry_ok cfg) m →
  finish_lookup cfg res succeeded now m s = Some e →
  entry_ok cfg s e ∧ lfe_inFlight e = false ∧ is_Some (m !! s).
Proof.
  intros Hc Hn Hm. unfold finish_lookup. destruct (m !! s) as [e0|] eqn:He0; [|done].
  apply Hm in He0. destruct (lfe_inFlight e0) eqn:Hf; [|intros; simplify_eq; eauto].
  assert (entry_ok cfg s (with_inFlight false e0)) as Hok.
  { unfold entry_ok in *. simpl. naive_solver. }
  assert (lfe_inFlight (count_failure cfg now (with_inFlight false e0)) = false) as Hcf.
  { unfold count_failure. by case_match. }
  unfold finish_entry. destruct res; intros; repeat case_match; simplify_eq; eauto.
  split; [by apply count_failure_ok|eauto].
Qed.

(** *** Operations that leave the reservations as they are *)

Record keeps_flight (l l' : LoginFailureLimiter) : Prop := {
  keeps_ok : lim_ok l';
  keeps_flying s : flying l' s ↔ flying l s;
  keeps_inFlight : lim_inFlight l' = lim_inFlight l;
  keeps_cfg : lim_cfg l' = lim_cfg l;
}.

Lemma keeps_trans l1 l2 l3 : keeps_flight l1 l2 → keeps_flight l2 l3 → keeps_flight l1 l3.
Proof.
  intros [_ Hf ??] [? Hf' ??]. constructor; [done| |congruence|congruence].
  intros s. by rewrite Hf', Hf.
Qed.

Lemma shrinks_keeps now prot l l' : lim_ok l → shrinks now prot l l' → keeps_flight l l'.
Proof.
  intros Hl Hs. constructor.
  - by eapply shrinks_ok.
  - intros s. by eapply shrinks_flying.
  - by apply (shrinks_inFlight _ _ _ _ Hs).
  - by apply (shrinks_cfg _ _ _ _ Hs).
Qed.

Lemma keeps_clearOverflow now l l' :
  keeps_flight l l' → keeps_flight l (clearOverflowWhenEvictableLocked now l').
Proof.
  intros [Hok Hf ??]. destruct (clearOverflow_entries now l') as (He & Hc & ?).
  constructor; [|intros s|congruence|congruence].
  - unfold lim_ok. by rewrite He, Hc.
  - rewrite <- Hf. unfold flying. by rewrite He.
Qed.

Lemma keeps_insert l s e e' :
  lim_ok l → entry_ok (lim_cfg l) s e' → lfe_inFlight e' = false → lfe_inFlight e = false →
  entries l !! s = Some e ∨
    entries l !! s = None ∧ Z.of_nat (size (entries l)) + 1 ≤ MaxEntries (lim_cfg l) →
  keeps_flight l (set_entries (<[s := e']> (entries l)) l).
Proof.
  intros (Hc & He & Hsz) Hok Hf' Hf Hor. constructor; simpl; try done.
  - split_and!; simpl; [done|by apply map_Forall_insert_2|].
    rewrite map_size_insert. destruct Hor as [->|[-> ?]]; simpl; lia.
  - intros s'. unfold flying. simpl. rewrite lookup_insert. case_decide as Hs; [subst|done].
    split; [intros (x & [= <-] & ?); congruence|].
    intros (x & Hx & ?). destruct Hor as [?|[??]]; congruence.
Qed.

Lemma recordFailureLocked_keeps now l s :
  0 < now → s ≠ EmptyString → lim_ok l → keeps_flight l (recordFailureLocked now l s).
Proof.
  intros Hn Hs Hl. unfold recordFailureLocked.
  assert (∀ e, lfe_inFlight e = false → lfe_inFlight (count_failure (lim_cfg l) now e) = false) as Hcf.
  { intros e He. unfold count_failure. by case_match. }
  destruct (entries l !! s) as [e|] eqn:Hse.
  - destruct (lfe_inFlight e) eqn:Hf; [apply (shrinks_keeps now ∅); [done|apply shrinks_refl]|].
    apply (keeps_insert l s e); [done| |auto..].
    destruct Hl as (Hc & He & _). apply count_failure_ok; auto.
  - destruct (makeRoom_spec now 1 ∅ l Hl) as (Hsh & Hsz & _).
    destruct (makeRoomLocked now 1 ∅ l) as [b l1]. simpl in *.
    pose proof (shrinks_keeps _ _ _ _ Hl Hsh) as Hk. destruct b; simpl; [|done].
    eapply keeps_trans; [done|].
    pose proof (shrinks_ok _ _ _ _ Hsh Hl) as Hl1.
    apply (keeps_insert l1 s zero_entry); try done.
    + apply count_failure_ok; [apply Hl1|done| |done].
      unfold entry_ok. simpl. destruct Hl1 as ((?&_) & _). naive_solver lia.
    + rewrite (shrinks_cfg _ _ _ _ Hsh). by apply Hcf.
    + right. rewrite (shrinks_cfg _ _ _ _ Hsh). split; [|auto].
      destruct (entries l1 !! s) eqn:Hs1; [|done].
      by rewrite (lookup_weaken _ _ _ _ Hs1 (shrinks_sub _ _ _ _ Hsh)) in Hse.
Qed.

Lemma RecordFailure_keeps scopes now l :
  0 < now → lim_ok l → keeps_flight l (RecordFailure scopes now l).
Proof.
  intros Hn Hl. unfold RecordFailure.
  pose proof (λ s, proj1 (elem_of_uniqueLoginScopes scopes s)) as Hsc.
  destruct (uniqueLoginScopes scopes) as [|s0 sc];
    [apply (shrinks_keeps now ∅); auto with noxa|].
  apply keeps_clearOverflow. pose proof (prune_shrinks now l) as Hp.
  eapply keeps_trans; [by eapply shrinks_keeps|].
  pose proof (shrinks_ok _ _ _ _ Hp Hl) as Hlp. clear Hl Hp. revert Hsc Hlp.
  generalize (pruneExpiredLocked now l) as l1. generalize (s0 :: sc). clear l.
  intros ss. induction ss as [|s ss IH]; intros l1 Hsc Hl1; simpl.
  { apply (shrinks_keeps now ∅); auto with noxa. }
  assert (keeps_flight l1 (recordFailureLocked now l1 s)) as Hk.
  { apply recordFailureLocked_keeps; [done| |done]. apply Hsc. set_solver. }
  eapply keeps_trans; [done|]. apply IH; [|apply Hk].
  intros s' ?. apply Hsc. set_solver.
Qed.

Lemma Clear_keeps scopes now l : lim_ok l → keeps_flight l (Clear scopes now l).
Proof.
  intros Hl. unfold Clear.
  destruct (uniqueLoginScopes scopes) as [|s0 sc];
    [apply (shrinks_keeps now ∅); auto with noxa|].
  apply keeps_clearOverflow. generalize (s0 :: sc). intros ss.
  assert (∀ m, foldl clear_scope m ss ⊆ m ∧
    ∀ s e, m !! s = Some e → lfe_inFlight e = true → foldl clear_scope m ss !! s = Some e) as Hcl.
  { induction ss as [|x ss IH]; intros m; simpl; [done|].
    assert (clear_scope m x ⊆ m ∧
      ∀ s e, m !! s = Some e → lfe_inFlight e = true → clear_scope m x !! s = Some e) as [H1 H2].
    { unfold clear_scope. split; [repeat case_match; apply delete_subseteq || done|].
      intros s e Hs He. destruct (decide (s = x)) as [->|]; [by rewrite Hs, He|].
      repeat case_match; [done|by rewrite lookup_delete_ne..]. }
    destruct (IH (clear_scope m x)) as [H3 H4]. split; [by etrans|]. eauto. }
  destruct (Hcl (entries l)) as [Hsub Hkeep]. destruct Hl as (Hc & He & Hsz).
  apply map_subseteq_size in Hsub as Hsz'.
  constructor; simpl; try done.
  - split_and!; simpl; [done| |lia].
    intros s e Hse. apply He. by eapply lookup_weaken.
  - intros s. unfold flying. simpl. split; intros (e & Hse & Hf); exists e; split; auto.
    by eapply lookup_weaken.
Qed.

Lemma Allowed_keeps scope now l : lim_ok l → keeps_flight l (Allowed scope now l).2.
Proof.
  intros Hl. unfold Allowed.
  destruct (String.eqb scope ""); [apply (shrinks_keeps now ∅); auto with noxa|].
  pose proof (prune_shrinks now l) as Hp.
  destruct (_ <? _); [|by eapply shrinks_keeps].
  eapply shrinks_keeps; [done|]. eapply shrinks_trans; [done|].
  eapply shrinks_weaken, scopesAvailable_shrinks.
Qed.

(** ** The invariant of the limiter and its attempts *)

Definition live (a : LoginAttempt) : bool := att_limiter a && negb (att_once a).

Definition live_at (atts : gmap nat LoginAttempt) (id : nat) (a : LoginAttempt) : Prop :=
  atts !! id = Some a ∧ live a = true.

(** The reservations recorded in the limiter are those of the attempts that are
    still to finish; each scope belongs to one of them, and the global counter
    counts them and stays within the bound on concurrent verifications. *)
Record lwf (w : lworld) : Prop := {
  lwf_ok : lim_ok (limiter w);
  lwf_flying s : flying (limiter w) s ↔ ∃ id a, live_at (attempts w) id a ∧ s ∈ att_scopes a;
  lwf_exclusive id1 a1 id2 a2 s :
    live_at (attempts w) id1 a1 → live_at (attempts w) id2 a2 →
    s ∈ att_scopes a1 → s ∈ att_scopes a2 → id1 = id2;
  lwf_scopes id a : live_at (attempts w) id a → att_scopes a ≠ [] ∧ NoDup (att_scopes a);
  lwf_count : lim_inFlight (limiter w) =
    Z.of_nat (size (filter (λ kv, live kv.2 = true) (attempts w)));
  lwf_bound : lim_inFlight (limiter w) ≤ MaxConcurrentKDF (lim_cfg (limiter w));
}.

Lemma lwf_keeps l' w :
  lwf w → keeps_flight (limiter w) l' → lwf {| limiter := l'; attempts := attempts w |}.
Proof.
  intros [] [Hok Hf Hi Hc]. constructor; simpl; eauto; try congruence.
  intros s. by rewrite Hf.
Qed.

Lemma live_at_insert (atts : gmap nat LoginAttempt) id a id' a' :
  live_at (<[id := a]> atts) id' a' ↔
  (id' = id ∧ a' = a ∧ live a = true) ∨ (id' ≠ id ∧ live_at atts id' a').
Proof.
  unfold live_at. destruct (decide (id' = id)) as [->|].
  - rewrite lookup_insert_eq. naive_solver.
  - rewrite lookup_insert_ne by done. naive_solver.
Qed.

Lemma live_count_dead (atts : gmap nat LoginAttempt) id a :
  live a = false → (∀ a', atts !! id = Some a' → live a' = false) →
  filter (λ kv, live kv.2 = true) (<[id := a]> atts) = filter (λ kv, live kv.2 = true) atts.
Proof.
  intros Ha Hold. apply map_eq. intros id'. apply option_eq. intros a'.
  rewrite !map_lookup_filter_Some. destruct (decide (id = id')) as [<-|].
  - rewrite lookup_insert_eq. simpl. split; [intros [[= <-] ?]; congruence|].
    intros [?%Hold ?]. congruence.
  - by rewrite lookup_insert_ne.
Qed.

Lemma live_count_new (atts : gmap nat LoginAttempt) id a :
  live a = true → atts !! id = None →
  size (filter (λ kv, live kv.2 = true) (<[id := a]> atts)) =
  S (size (filter (λ kv, live kv.2 = true) atts)).
Proof.
  intros Ha Hold. rewrite map_filter_insert_True by done.
  apply map_size_insert_None, map_lookup_filter_None. by left.
Qed.

Lemma live_count_finish (atts : gmap nat LoginAttempt) id a a' :
  live_at atts id a → live a' = false →
  size (filter (λ kv, live kv.2 = true) atts) =
  S (size (filter (λ kv, live kv.2 = true) (<[id := a']> atts))).
Proof.
  intros [Hid Ha] Ha'. rewrite map_filter_insert_False by (simpl; congruence).
  rewrite <- (insert_delete_id atts id a Hid) at 1. apply live_count_new; [done|].
  apply lookup_delete_eq.
Qed.

Lemma lwf_dead id a w :
  lwf w → live a = false → (∀ a', attempts w !! id = Some a' → live a' = false) →
  lwf {| limiter := limiter w; attempts := <[id := a]> (attempts w) |}.
Proof.
  intros [] Ha Hold.
  assert (∀ id' a', live_at (<[id := a]> (attempts w)) id' a' ↔ live_at (attempts w) id' a') as Hlive.
  { intros id' a'. rewrite live_at_insert. split; [naive_solver congruence|].
    intros [Hid' Hl]. right. split; [|done]. intros ->. apply Hold in Hid'. congruence. }
  constructor; simpl; eauto.
  - intros s. rewrite lwf_flying0. by setoid_rewrite Hlive.
  - setoid_rewrite Hlive. eauto.
  - setoid_rewrite Hlive. eauto.
  - by rewrite live_count_dead.
Qed.

Lemma lwf_Reserve now id scopes w :
  0 < now → attempts w !! id = None → lwf w → lwf (lrun now (OReserve id scopes) w).
Proof.
  intros Hn Hid Hw. simpl. pose proof (Reserve_spec scopes now (limiter w) (lwf_ok w Hw)) as HR.
  destruct (decide (uniqueLoginScopes scopes = [])) as [Hnil|Hne].
  { unfold Reserve. rewrite Hnil. apply lwf_dead; [done|done|congruence]. }
  specialize (HR Hne). pose proof (granted_ok scopes now (limiter w)) as Hgr.
  destruct (Reserve scopes now (limiter w)) as [[a|] l'].
  2:{ destruct HR as [_ Hsh]. apply lwf_keeps; [done|].
      apply (shrinks_keeps now ∅); [apply Hw|done]. }
  destruct HR as (Hg & -> & Hgl). specialize (Hgr l' Hn (lwf_ok w Hw) Hg Hgl) as [Hok Hfl].
  destruct Hgl as [l1 _ _ _ _ Hcfg Hin]. destruct Hw. destruct Hg as (Hlt & Hnb & _).
  assert (∀ s, s ∈ uniqueLoginScopes scopes → ¬ flying (limiter w) s) as Hfree.
  { intros s Hs (e & He & Hf). apply (flying_blocked now) in Hf. rewrite (Hnb s e) in Hf; done. }
  constructor; simpl; [done|..].
  - intros s. rewrite Hfl, lwf_flying0. setoid_rewrite live_at_insert. split.
    + intros [(id' & a & Ha & Hs)|Hs]; [|naive_solver].
      exists id', a. split; [|done]. right. split; [|done]. intros ->. destruct Ha. congruence.
    + naive_solver.
  - intros id1 a1 id2 a2 s. rewrite !live_at_insert.
    intros [(->&->&_)|(?&H1)] [(->&->&_)|(?&H2)] Hs1 Hs2; simpl in *; [done| | |eauto].
    + destruct (Hfree s Hs1). apply lwf_flying0. eauto.
    + destruct (Hfree s Hs2). apply lwf_flying0. eauto.
  - intros id' a'. rewrite live_at_insert. intros [(->&->&_)|(?&H1)]; [simpl; auto with noxa|eauto].
  - rewrite live_count_new by done. lia.
  - rewrite Hcfg. lia.
Qed.

Lemma finish_live res succ now a l :
  live a = true → NoDup (att_scopes a) → att_scopes a ≠ [] → 0 < now → lim_ok l →
  (∀ s, s ∈ att_scopes a → flying l s) →
  let '(a', l') := finish res succ now a l in
  live a' = false ∧ lim_ok l' ∧ (∀ s, flying l' s ↔ flying l s ∧ s ∉ att_scopes a) ∧
  lim_inFlight l' = lim_inFlight l - 1 ∧ lim_cfg l' = lim_cfg l.
Proof.
  intros [Hlim Honce%negb_true_iff]%andb_true_iff Hnd Hne Hn Hl Hfly.
  unfold finish. rewrite Honce, Hlim, bool_decide_false by done. simpl.
  pose proof (prune_shrinks now l) as Hp. pose proof (shrinks_ok _ _ _ _ Hp Hl) as Hlp.
  set (lp := pruneExpiredLocked now l) in *.
  pose proof (lookup_finish (lim_cfg lp) res (loginScopeSet succ) now (entries lp) false (att_scopes a))
    as Hlk.
  assert (∀ s, s ∈ att_scopes a → flying lp s) as Hflp by (intros; by apply (shrinks_flying _ _ _ _ _ Hp); auto).
  pose proof (finish_finished (lim_cfg lp) res (loginScopeSet succ) now (entries lp) false (att_scopes a))
    as Hfin.
  destruct (foldl _ _ _) as [m fin]. simpl in *. rewrite Hfin.
  2:{ right. destruct (att_scopes a) as [|s ss]; [done|].
      destruct (Hflp s) as (e & ? & ?); [set_solver|]. exists s, e. set_solver. }
  destruct Hlp as (Hc & He & Hsz).
  set (l2 := set_inFlight _ _). destruct (clearOverflow_entries now l2) as (He2 & Hc2 & Hi2).
  assert (∀ s e, m !! s = Some e → entry_ok (lim_cfg lp) s e ∧ is_Some (entries lp !! s)) as Hm.
  { intros s e. rewrite Hlk by done. destruct (decide _); [|by eauto].
    intros Hf%finish_lookup_ok; [tauto|done..]. }
  split; [by unfold live; simpl; rewrite ?andb_false_r|]. split_and!.
  - unfold lim_ok. rewrite He2, Hc2. simpl. split_and!; [done|exact (λ s e Hs, proj1 (Hm s e Hs))|].
    assert (size m ≤ size (entries lp))%nat; [|lia]. rewrite <- !size_dom.
    apply subseteq_size. intros s [e Hs]%elem_of_dom. apply elem_of_dom. by eapply Hm.
  - intros s. rewrite <- (shrinks_flying _ _ _ _ s Hp). unfold flying. rewrite He2. simpl.
    rewrite Hlk by done. destruct (decide (s ∈ att_scopes a)) as [Hs|]; [|naive_solver].
    split; [|naive_solver]. intros (e & Hf%finish_lookup_ok & ?); [|done..].
    destruct Hf as (_ & ? & _). congruence.
  - rewrite Hi2. simpl. by rewrite (shrinks_inFlight _ _ _ _ Hp).
  - rewrite Hc2. simpl. apply (shrinks_cfg _ _ _ _ Hp).
Qed.

Lemma lwf_finish now id res succ w :
  0 < now → lwf w → lwf (lrun now (OFinish id res succ) w).
Proof.
  intros Hn Hw. simpl. destruct (attempts w !! id) as [a|] eqn:Hid; [|done].
  destruct (live a) eqn:Ha.
  2:{ unfold live in Ha. unfold finish. destruct (att_once a) eqn:Ho.
      { apply lwf_dead; [done|by unfold live; rewrite Ho, andb_false_r|].
        intros a' ?. simplify_eq. unfold live. by rewrite Ho, andb_false_r. }
      rewrite andb_true_r in Ha. rewrite Ha. simpl.
      apply lwf_dead; [done|by unfold live; simpl; rewrite ?Ha|].
      intros a' ?. simplify_eq. unfold live. by rewrite Ha. }
  assert (live_at (attempts w) id a) as Hla by done.
  destruct Hw. destruct (lwf_scopes0 _ _ Hla) as [Hne Hnd].
  pose proof (finish_live res succ now a (limiter w) Ha Hnd Hne Hn lwf_ok0) as Hf.
  ospecialize (Hf _). { intros s Hs. apply lwf_flying0. eauto. }
  destruct (finish res succ now a (limiter w)) as [a' l'].
  destruct Hf as (Ha' & Hok & Hfl & Hin & Hcfg).
  assert (∀ id' x, live_at (<[id := a']> (attempts w)) id' x ↔ id' ≠ id ∧ live_at (attempts w) id' x)
    as Hlive.
  { intros id' x. rewrite live_at_insert. naive_solver congruence. }
  constructor; simpl; [done|..].
  - intros s. rewrite Hfl, lwf_flying0. setoid_rewrite Hlive. split.
    + intros [(id' & x & Hx & Hs) Hns]. exists id', x. split; [|done]. split; [|done].
      intros ->. destruct Hx, Hla. naive_solver congruence.
    + intros (id' & x & (Hne' & Hx) & Hs). split; [by eauto|].
      intros Hs'. apply Hne'. eauto.
  - setoid_rewrite Hlive. naive_solver.
  - setoid_rewrite Hlive. naive_solver.
  - rewrite Hin, lwf_count0, (live_count_finish _ _ _ a' Hla Ha'). lia.
  - rewrite Hin, Hcfg. lia.
Qed.

Lemma lwf_step w w' : lwf w → lstep w w' → lwf w'.
Proof.
  intros Hw [now o [Hn Ho]]. destruct o.
  - by apply lwf_Reserve.
  - by apply lwf_finish.
  - apply lwf_keeps; [done|]. apply Allowed_keeps, Hw.
  - apply lwf_keeps; [done|]. apply RecordFailure_keeps; [done|apply Hw].
  - apply lwf_keeps; [done|]. apply Clear_keeps, Hw.
Qed.

Lemma lwf_init cfg : lwf {| limiter := NewLoginFailureLimiter cfg; attempts := ∅ |}.
Proof.
  assert (∀ z d, 0 < d → 0 < positive_or z d) as Hpos.
  { intros z d ?. unfold positive_or. destruct (Z.leb_spec z 0); lia. }
  constructor; simpl.
  - split_and!; simpl.
    + unfold cfg_ok. simpl. split_and!; by apply Hpos.
    + apply map_Forall_empty.
    + rewrite map_size_empty. apply Z.lt_le_incl. by apply Hpos.
  - intros s. unfold flying, live_at. simpl. setoid_rewrite lookup_empty. naive_solver.
  - unfold live_at. intros *. rewrite lookup_empty. naive_solver.
  - unfold live_at. intros *. rewrite lookup_empty. naive_solver.
  - by rewrite map_filter_empty, map_size_empty.
  - apply Z.lt_le_incl. by apply Hpos.
Qed.

(** ** Lockouts *)

(** [locked T s l]: the limiter records a lockout of [s] at least until [T]. *)
Definition locked (T : Z) (s : string) (l : LoginFailureLimiter) : Prop :=
  ∃ e, entries l !! s = Some e ∧ T ≤ lockedUntil e.

Lemma locked_blocked now T e : now < T → T ≤ lockedUntil e → blocked now e = true.
Proof.
  intros. unfold blocked, time_after. apply orb_true_iff. right. apply Z.ltb_lt. lia.
Qed.

Lemma shrinks_locked now prot T s l l' :
  now < T → shrinks now prot l l' → locked T s l → locked T s l'.
Proof.
  intros Hn [_ Hkeep _ _] (e & He & HT). exists e. split; [|done].
  apply Hkeep; [done|right]. by eapply locked_blocked.
Qed.

Lemma clearOverflow_locked now T s l :
  locked T s (clearOverflowWhenEvictableLocked now l) ↔ locked T s l.
Proof. unfold locked. by rewrite (proj1 (clearOverflow_entries now l)). Qed.

Lemma locked_not_flying T s l : 0 < T → lim_ok l → locked T s l → ¬ flying l s.
Proof.
  intros HT (_ & He & _) (e & Hs & ?) (e' & Hs' & Hf). simplify_eq.
  apply He in Hs as (_ & _ & _ & Hz). specialize (Hz Hf). lia.
Qed.

Lemma count_failure_locked cfg now T e :
  T ≤ now + LockoutDuration cfg → T ≤ lockedUntil e → T ≤ lockedUntil (count_failure cfg now e).
Proof. intros. unfold count_failure, time_add. by case_match. Qed.

Lemma recordFailureLocked_locked now T s l x :
  now < T → T ≤ now + LockoutDuration (lim_cfg l) → lim_ok l → locked T s l →
  locked T s (recordFailureLocked now l x).
Proof.
  intros Hn HT Hl Hlk. unfold recordFailureLocked.
  assert (∀ (l1 : LoginFailureLimiter) e, lim_cfg l1 = lim_cfg l → locked T s l1 →
    (x = s → T ≤ lockedUntil e) →
    locked T s (if lfe_inFlight e then l1
      else set_entries (<[x := count_failure (lim_cfg l1) now e]> (entries l1)) l1)) as Hrec.
  { intros l1 e Hc (e1 & He1 & ?) Hx. destruct (lfe_inFlight e); [by exists e1|].
    unfold locked. simpl. destruct (decide (x = s)) as [->|].
    - rewrite lookup_insert_eq. eexists. split; [done|]. rewrite Hc.
      apply count_failure_locked; auto.
    - rewrite lookup_insert_ne by done. by exists e1. }
  destruct (entries l !! x) as [e|] eqn:Hx.
  - apply Hrec; [done|done|]. intros ->. destruct Hlk as (e' & ? & ?). by simplify_eq.
  - destruct (makeRoom_spec now 1 ∅ l Hl) as (Hsh & _ & _).
    destruct (makeRoomLocked now 1 ∅ l) as [b l1]. simpl in *.
    destruct b; simpl; [|by eapply shrinks_locked].
    apply (Hrec l1 zero_entry); [by apply (shrinks_cfg _ _ _ _ Hsh)|by eapply shrinks_locked|].
    intros ->. destruct Hlk as (e' & ? & ?). congruence.
Qed.

Lemma RecordFailure_locked scopes now T s l :
  0 < now < T → T ≤ now + LockoutDuration (lim_cfg l) → lim_ok l → locked T s l →
  locked T s (RecordFailure scopes now l).
Proof.
  intros Hn HT Hl Hlk. unfold RecordFailure.
  pose proof (λ s, proj1 (elem_of_uniqueLoginScopes scopes s)) as Hsc.
  destruct (uniqueLoginScopes scopes) as [|s0 sc]; [done|].
  rewrite clearOverflow_locked. pose proof (prune_shrinks now l) as Hp.
  apply (shrinks_locked _ _ _ _ _ _ (proj2 Hn) Hp) in Hlk.
  apply (shrinks_ok _ _ _ _ Hp) in Hl.
  rewrite <- (shrinks_cfg _ _ _ _ Hp) in HT. clear Hp. revert Hsc Hl Hlk HT.
  generalize (pruneExpiredLocked now l) as l1. generalize (s0 :: sc). clear l.
  intros ss. induction ss as [|x ss IH]; intros l1 Hsc Hl1 Hlk HT; simpl; [done|].
  assert (keeps_flight l1 (recordFailureLocked now l1 x)) as Hk.
  { apply recordFailureLocked_keeps; [lia| |done]. apply Hsc. set_solver. }
  apply IH; [intros s' ?; apply Hsc; set_solver|apply Hk| |].
  - apply recordFailureLocked_locked; lia || done.
  - by rewrite (keeps_cfg _ _ Hk).
Qed.

Lemma Clear_locked scopes now T s l :
  s ∉ uniqueLoginScopes scopes → locked T s l → locked T s (Clear scopes now l).
Proof.
  intros Hs Hlk. unfold Clear. destruct (uniqueLoginScopes scopes) as [|s0 sc]; [done|].
  rewrite clearOverflow_locked. revert Hs. generalize (s0 :: sc). intros ss Hs.
  unfold locked in *. simpl. revert Hlk. generalize (entries l) as m.
  induction ss as [|x ss IH]; intros m Hlk; simpl; [done|].
  apply IH; [set_solver|]. destruct Hlk as (e & He & ?). exists e. split; [|done].
  unfold clear_scope. apply not_elem_of_cons in Hs as [Hs _].
  repeat case_match; [done|by rewrite lookup_delete_ne..].
Qed.

Lemma finish_locked res succ now T s a l :
  0 < now < T → NoDup (att_scopes a) ∨ live a = false → lim_ok l → locked T s l →
  locked T s (finish res succ now a l).2.
Proof.
  intros Hn Hnd Hl Hlk. unfold finish.
  destruct (att_once a) eqn:Ho; [done|]. destruct (att_limiter a) eqn:Hli; simpl; [|done].
  case_bool_decide; [done|].
  destruct Hnd as [Hnd|Hd]; [|unfold live in Hd; by rewrite Ho, Hli in Hd].
  pose proof (prune_shrinks now l) as Hp.
  apply (shrinks_locked _ _ _ _ _ _ (proj2 Hn) Hp) in Hlk.
  apply (shrinks_ok _ _ _ _ Hp) in Hl.
  set (lp := pruneExpiredLocked now l) in *.
  pose proof (lookup_finish (lim_cfg lp) res (loginScopeSet succ) now (entries lp) false (att_scopes a) s Hnd)
    as Hm.
  destruct (foldl _ _ _) as [m fin]. simpl in Hm.
  assert (locked T s (set_entries m lp)) as Hlk'.
  { pose proof (locked_not_flying T s lp) as Hnf. destruct Hlk as (e & He & HT).
    exists e. simpl. split; [|done]. rewrite Hm. unfold finish_lookup. rewrite He.
    destruct (lfe_inFlight e) eqn:Hf; [|by case_decide].
    destruct Hnf; [lia|done|by exists e|by exists e]. }
  destruct fin; simpl; [by rewrite clearOverflow_locked|done].
Qed.

Lemma granted_locked now scopes T s l l' :
  now < T → grants now scopes l → NoDup scopes → granted now scopes l l' → locked T s l →
  locked T s l' ∧ s ∉ scopes.
Proof.
  intros Hn (_ & Hnb & _) Hnd [l1 Hsh _ Hent _ _ _] Hlk.
  assert (s ∉ scopes) as Hs.
  { intros Hs. destruct Hlk as (e & He & HT). specialize (Hnb s e Hs He).
    by rewrite (locked_blocked now T e) in Hnb. }
  split; [|done]. apply (shrinks_locked _ _ _ _ _ _ Hn Hsh) in Hlk as (e & He & HT).
  exists e. split; [|done]. rewrite Hent, lookup_reserve by done. by rewrite decide_False.
Qed.

(** A scope that is locked out is refused. *)
Lemma Reserve_locked scopes now T s l :
  now < T → s ≠ EmptyString → s ∈ scopes → lim_ok l → locked T s l →
  (Reserve scopes now l).1 = None.
Proof.
  intros Hn Hne Hs Hl Hlk.
  assert (s ∈ uniqueLoginScopes scopes) as Hs' by by apply elem_of_uniqueLoginScopes.
  pose proof (Reserve_spec scopes now l Hl) as HR. ospecialize (HR _).
  { intros Heq. rewrite Heq in Hs'. set_solver. }
  destruct (Reserve scopes now l) as [[a|] l']; [|done].
  destruct HR as (Hg & _ & Hgl).
  by destruct (granted_locked _ _ _ _ _ _ Hn Hg (NoDup_uniqueLoginScopes _) Hgl Hlk).
Qed.

Lemma Allowed_locked now T s l :
  now < T → s ≠ EmptyString → lim_ok l → locked T s l → (Allowed s now l).1 = false.
Proof.
  intros Hn Hne Hl Hlk. unfold Allowed. destruct (String.eqb_spec s "") as [?|_]; [done|].
  pose proof (prune_shrinks now l) as Hp.
  destruct (shrinks_locked _ _ _ _ _ _ Hn Hp Hlk) as (e & He & HT).
  destruct (_ <? _); [|done]. unfold scopesAvailableLocked. simpl. rewrite He.
  by rewrite (locked_blocked now T e).
Qed.

(** An operation that clears [s] by hand. *)
Definition clears (s : string) (o : lop) : Prop :=
  match o with OClear scopes => s ∈ uniqueLoginScopes scopes | _ => False end.

Lemma lrun_locked now o T s w :
  lallowed now o w → now < T → T ≤ now + LockoutDuration (lim_cfg (limiter w)) →
  ¬ clears s o → lwf w → locked T s (limiter w) → locked T s (limiter (lrun now o w)).
Proof.
  intros [Hn0 Ho] Hn HT Hc Hw Hlk. pose proof (lwf_ok w Hw) as Hl. destruct o; simpl in *.
  - destruct (decide (uniqueLoginScopes scopes = [])) as [Hnil|Hne].
    { unfold Reserve. by rewrite Hnil. }
    pose proof (Reserve_spec scopes now (limiter w) Hl Hne) as HR.
    destruct (Reserve scopes now (limiter w)) as [[a|] l']; simpl.
    + destruct HR as (Hg & _ & Hgl).
      by destruct (granted_locked _ _ _ _ _ _ Hn Hg (NoDup_uniqueLoginScopes _) Hgl Hlk).
    + by eapply shrinks_locked; [|apply HR|].
  - destruct (attempts w !! id) as [a|] eqn:Hid; [|done].
    pose proof (finish_locked res successScopes now T s a (limiter w)) as Hf.
    destruct (finish res successScopes now a (limiter w)) as [a' l']. simpl in *.
    apply Hf; [lia| |done|done].
    destruct (live a) eqn:Ha; [left|by right]. by apply (lwf_scopes w Hw id a).
  - unfold Allowed. destruct (String.eqb scope ""); [done|].
    pose proof (prune_shrinks now (limiter w)) as Hp.
    destruct (_ <? _); [|by eapply shrinks_locked].
    eapply shrinks_locked; [done| |by eapply shrinks_locked].
    apply scopesAvailable_shrinks.
  - apply RecordFailure_locked; lia || done.
  - by apply Clear_locked.
Qed.

End eviction.

(** ** The guarantees *)

Section guarantees.

Context `{!MapRange string loginFailureEntry}.

Definition fresh_world (cfg : LoginFailureLimiterConfig) : lworld :=
  {| limiter := NewLoginFailureLimiter cfg; attempts := ∅ |}.

Lemma reachable_lwf cfg w : rtc lstep (fresh_world cfg) w → lwf w.
Proof. apply (rtc_invariant lstep lwf); [exact lwf_step|apply lwf_init]. Qed.

Lemma lrun_cfg now o w : lwf w → lallowed now o w →
  lim_cfg (limiter (lrun now o w)) = lim_cfg (limiter w).
Proof.
  intros Hw [Hn Ho]. pose proof (lwf_ok w Hw) as Hl. destruct o; simpl in *.
  - destruct (decide (uniqueLoginScopes scopes = [])) as [Hnil|Hne].
    { unfold Reserve. by rewrite Hnil. }
    pose proof (Reserve_spec scopes now (limiter w) Hl Hne) as HR.
    destruct (Reserve scopes now (limiter w)) as [[a|] l']; simpl.
    + destruct HR as (_ & _ & []). done.
    + by apply (shrinks_cfg _ _ _ _ (proj2 HR)).
  - destruct (attempts w !! id) as [a|] eqn:Hid; [|done].
    destruct (live a) eqn:Ha.
    + destruct (lwf_scopes w Hw id a) as [??]; [done|].
      pose proof (finish_live res successScopes now a (limiter w)) as Hf.
      destruct (finish res successScopes now a (limiter w)). simpl.
      apply Hf; try done. intros s Hs. apply (lwf_flying w Hw). by exists id, a.
    + unfold finish. unfold live in Ha. destruct (att_once a); [done|].
      rewrite andb_true_r in Ha. by rewrite Ha.
  - by apply keeps_cfg, Allowed_keeps.
  - by apply keeps_cfg, RecordFailure_keeps.
  - by apply keeps_cfg, Clear_keeps.
Qed.

(** In every state the limiter and its attempts can reach, whatever the order
    of the calls, the clock readings and the map iteration order: at most
    [maxEntries] entries are kept; the reservations recorded are exactly those of
    the unfinished attempts, no two of which hold the same scope; [inFlight]
    counts these attempts and never exceeds [maxConcurrentKDF]; a failure count
    stays below the threshold and a reserved scope is never locked out. *)
Theorem limiter_reachable_wf cfg w : rtc lstep (fresh_world cfg) w → lwf w.
Proof. apply reachable_lwf. Qed.

(** A step taken at an instant of [\[t0, T)] that does not clear [s]. *)
Inductive window_step (s : string) (t0 T : Z) (w : lworld) : lworld → Prop :=
| window_step_run now o :
    lallowed now o w → t0 ≤ now < T → ¬ clears s o → window_step s t0 T w (lrun now o w).

(** C20: Once a scope is locked out until [T], every reservation that names it and
    every [Allowed] query on it is refused until then, whatever operations other
    callers interleave: failures that fill the table and force evictions,
    successful logins, cancellations. Only [Clear] on the scope itself lifts the
    lockout. *)
Theorem lockout_enforced cfg w w' s t0 T now scopes :
  rtc lstep (fresh_world cfg) w →
  s ≠ EmptyString → locked T s (limiter w) →
  T ≤ t0 + LockoutDuration (lim_cfg (limiter w)) →
  rtc (window_step s t0 T) w w' →
  now < T → s ∈ scopes →
  (Reserve scopes now (limiter w')).1 = None ∧ (Allowed s now (limiter w')).1 = false.
Proof.
  intros Hw%reachable_lwf Hs Hlk HT Hsteps Hn Hin.
  assert (lwf w' ∧ locked T s (limiter w')) as [Hw' Hlk'].
  { induction Hsteps as [|w w1 w2 [now1 o Ha Hwin Hc] _ IH]; [done|].
    pose proof (lwf_step w _ Hw (lstep_run w now1 o Ha)).
    apply IH; [done| |by rewrite lrun_cfg].
    apply lrun_locked; try done; lia. }
  pose proof (lwf_ok _ Hw'). split; [by eapply Reserve_locked|by eapply Allowed_locked].
Qed.

(** C33: In every reachable state [Reserve] grants a non-empty list of scopes
    exactly when a verification slot is free, none of the scopes is reserved or
    locked out, and the table has room for the new ones counting the entries that
    may be evicted. A grant evicts only entries that are neither reserved, locked
    out nor named by the request, and keeps the history of the scopes it
    reserves; a refusal reserves nothing. *)
Theorem Reserve_grants_exactly cfg w scopes now :
  rtc lstep (fresh_world cfg) w → uniqueLoginScopes scopes ≠ [] →
  (is_Some (Reserve scopes now (limiter w)).1 ↔ grants now (uniqueLoginScopes scopes) (limiter w)) ∧
  ((Reserve scopes now (limiter w)).1 = None →
     shrinks now ∅ (limiter w) (Reserve scopes now (limiter w)).2) ∧
  (is_Some (Reserve scopes now (limiter w)).1 →
     granted now (uniqueLoginScopes scopes) (limiter w) (Reserve scopes now (limiter w)).2).
Proof.
  intros Hw%reachable_lwf Hne.
  pose proof (Reserve_spec scopes now (limiter w) (lwf_ok w Hw) Hne) as HR.
  destruct (Reserve scopes now (limiter w)) as [[a|] l']; simpl.
  - destruct HR as (Hg & _ & Hgl). split_and!; [|done|done]. split; [done|eauto].
  - destruct HR as [Hg Hsh]. split_and!; [|done|by intros []]. split; [by intros []|done].
Qed.

(** *** From failures to a lockout *)

(** One failed login: reserve the scope, verify, report the failure. *)
Definition failed_login (s : string) (l : LoginFailureLimiter) (t : Z) : LoginFailureLimiter :=
  let '(a, l) := Reserve [s] t l in
  match a with Some a => (Fail_ t a l).2 | None => l end.

(** The streak of [s] in [l]: [k] failures, the last at [t0]. *)
Definition streak (s : string) (k t0 : Z) (l : LoginFailureLimiter) : Prop :=
  match entries l !! s with
  | None => k = 0 ∧ Z.of_nat (size (entries l)) < MaxEntries (lim_cfg l)
  | Some e => failures e = k ∧ lastFailure e = t0 ∧ lockedUntil e = 0 ∧ lfe_inFlight e = false
  end.

Definition may_try (l : LoginFailureLimiter) : Prop :=
  lim_ok l ∧ lim_inFlight l < MaxConcurrentKDF (lim_cfg l).

(** Within the failure TTL, pruning keeps the streak. *)
Lemma streak_prune s k t0 t l :
  0 < t0 → t0 ≤ t < t0 + FailureTTL (lim_cfg l) → streak s k t0 l →
  entries (pruneExpiredLocked t l) !! s = entries l !! s.
Proof.
  intros Ht0 Ht Hst. rewrite entries_prune. unfold streak in Hst.
  destruct (entries l !! s) as [e|] eqn:He; [|by apply map_lookup_filter_None; left].
  destruct Hst as (_ & Hl & Hz & Hf). apply map_lookup_filter_Some. split; [done|]. simpl.
  unfold expired, blocked, time_after, time_is_zero, time_sub, max_int64, min_int64.
  rewrite Hf, Hz, Hl. simpl. rewrite (proj2 (Z.ltb_ge t 0)) by lia. simpl.
  rewrite (proj2 (Z.eqb_neq t0 0)) by lia. rewrite (proj2 (Z.ltb_ge t t0)) by lia. simpl.
  apply Z.leb_gt. lia.
Qed.

Lemma streak_grants s k t0 t l :
  s ≠ EmptyString → 0 < t0 → t0 ≤ t < t0 + FailureTTL (lim_cfg l) →
  may_try l → streak s k t0 l → grants t [s] l.
Proof.
  intros Hs Ht0 Ht [Hl Hin] Hst. split; [done|].
  pose proof (streak_prune _ _ _ _ _ Ht0 Ht Hst) as Hp.
  pose proof (prune_shrinks t l) as Hsh. pose proof (shrinks_size _ _ _ _ Hsh).
  unfold streak in Hst. split.
  - intros s' e ->%list_elem_of_singleton He. rewrite He in Hst.
    destruct Hst as (_ & _ & Hz & Hf). unfold blocked, time_after. rewrite Hz, Hf. simpl.
    apply Z.ltb_ge. lia.
  - unfold room_for. rewrite count_new_cons, Hp, (shrinks_cfg _ _ _ _ Hsh).
    destruct Hl as (_ & _ & Hsz). unfold count_new. simpl. destruct (entries l !! s); lia.
Qed.

Lemma failed_login_streak s k t0 t l :
  s ≠ EmptyString → 0 < t0 → t0 ≤ t < t0 + FailureTTL (lim_cfg l) →
  may_try l → streak s k t0 l →
  let l' := failed_login s l t in
  may_try l' ∧ lim_cfg l' = lim_cfg l ∧
  (k + 1 < MaxFailures (lim_cfg l) → streak s (k + 1) t l') ∧
  (MaxFailures (lim_cfg l) ≤ k + 1 → locked (t + LockoutDuration (lim_cfg l)) s l').
Proof.
  intros Hs Ht0 Ht Hmt Hst.
  pose proof (streak_grants _ _ _ _ _ Hs Ht0 Ht Hmt Hst) as Hgr.
  pose proof (streak_prune _ _ _ _ _ Ht0 Ht Hst) as Hp. destruct Hmt as [Hl Hin].
  assert (0 < t) as Htpos by lia.
  pose proof (uniqueLoginScopes_singleton s Hs) as Hu.
  pose proof (Reserve_spec [s] t l Hl) as HR. pose proof (granted_ok [s] t l) as Hok.
  rewrite Hu in HR, Hok. ospecialize (HR _); [done|]. unfold failed_login.
  destruct (Reserve [s] t l) as [[a|] l1]; [|by destruct HR]. destruct HR as (_ & -> & Hgl).
  destruct (Hok l1 Htpos Hl Hgr Hgl) as [Hl1 Hfl].
  destruct Hgl as [l0 Hsh Hpr Hent _ Hcfg Hinf].
  assert (entries l1 !! s = Some (with_inFlight true (default zero_entry (entries l !! s)))) as He1.
  { rewrite Hent. simpl. unfold reserve_scope. rewrite lookup_insert_eq, Hpr by set_solver.
    by rewrite Hp. }
  unfold Fail_. set (a := {| att_scopes := [s] |}).
  pose proof (finish_live loginAttemptFailure [] t a l1) as Hf.
  ospecialize (Hf eq_refl (NoDup_singleton s) _ Htpos Hl1 _); [done| |].
  { intros s' ->%list_elem_of_singleton. apply Hfl. set_solver. }
  assert (entries (finish loginAttemptFailure [] t a l1).2 !! s =
    Some (count_failure (lim_cfg l) t (with_inFlight false (default zero_entry (entries l !! s))))) as He2.
  { assert (entries (pruneExpiredLocked t l1) !! s = entries l1 !! s) as Hp1.
    { rewrite He1. apply (shrinks_keep _ _ _ _ (prune_shrinks t l1)); [done|by right]. }
    unfold finish, a. cbn [att_once att_limiter att_scopes negb orb foldl].
    rewrite bool_decide_false by done. unfold finish_scope. rewrite Hp1, He1. simpl.
    rewrite (proj1 (clearOverflow_entries _ _)). simpl. rewrite lookup_insert_eq.
    by rewrite (shrinks_cfg _ _ _ _ (prune_shrinks t l1)), Hcfg. }
  destruct (finish loginAttemptFailure [] t a l1) as [a' l2]. simpl in *.
  destruct Hf as (_ & Hl2 & _ & Hi2 & Hc2).
  split; [split; [done|rewrite Hc2, Hcfg; lia]|]. split; [congruence|].
  unfold streak, locked. rewrite He2. unfold streak in Hst. unfold count_failure, time_add.
  assert (failures (default zero_entry (entries l !! s)) = k ∧
          lockedUntil (default zero_entry (entries l !! s)) = 0) as [Hk Hz].
  { destruct (entries l !! s); simpl; [tauto|]. destruct Hst. done. }
  simpl. rewrite Hk. split; intros Hlt.
  - rewrite (proj2 (Z.leb_gt _ _)) by done. simpl. done.
  - rewrite (proj2 (Z.leb_le _ _)) by done. eexists. split; [done|]. simpl. lia.
Qed.

(** Successive attempts, each before the failure TTL of the previous one is over. *)
Fixpoint within_ttl (ttl t0 : Z) (ts : list Z) : Prop :=
  match ts with
  | [] => True
  | t :: ts => t0 ≤ t < t0 + ttl ∧ within_ttl ttl t ts
  end.

Lemma failed_logins_lock s (ts : list Z) t k t0 l :
  s ≠ EmptyString → 0 < t0 → may_try l → streak s k t0 l →
  within_ttl (FailureTTL (lim_cfg l)) t0 (ts ++ [t]) →
  k + Z.of_nat (length ts) + 1 = MaxFailures (lim_cfg l) →
  locked (t + LockoutDuration (lim_cfg l)) s (foldl (failed_login s) l (ts ++ [t])).
Proof.
  intros Hs. revert k t0 l. induction ts as [|t1 ts IH]; intros k t0 l Ht0 Hmt Hst Hw Hlen.
  - simpl in *. destruct Hw as [Hw _].
    destruct (failed_login_streak s k t0 t l Hs Ht0 Hw Hmt Hst) as (_ & _ & _ & H).
    apply H. lia.
  - simpl in *. destruct Hw as [Hw Hrest].
    destruct (failed_login_streak s k t0 t1 l Hs Ht0 Hw Hmt Hst) as (Hmt' & Hcfg & H & _).
    rewrite <- Hcfg. apply (IH (k + 1) t1); [lia|done|apply H; lia|by rewrite Hcfg|rewrite Hcfg; lia].
Qed.

(** A scope without history that fails [maxFailures] times in a row, each
    failure within the TTL of the previous one, is locked out for
    [lockoutDuration] from the last failure: the limiter does reach the lockout
    that it enforces, and its own pruning and reservations do not lose the
    streak. *)
Theorem failure_streak_locks cfg w s (ts : list Z) t t0 :
  rtc lstep (fresh_world cfg) w →
  lim_inFlight (limiter w) < MaxConcurrentKDF (lim_cfg (limiter w)) →
  Z.of_nat (size (entries (limiter w))) < MaxEntries (lim_cfg (limiter w)) →
  entries (limiter w) !! s = None → s ≠ EmptyString → 0 < t0 →
  within_ttl (FailureTTL (lim_cfg (limiter w))) t0 (ts ++ [t]) →
  Z.of_nat (length ts) + 1 = MaxFailures (lim_cfg (limiter w)) →
  locked (t + LockoutDuration (lim_cfg (limiter w))) s
    (foldl (failed_login s) (limiter w) (ts ++ [t])).
Proof.
  intros Hw%reachable_lwf Hin Hsz Hnone Hs Ht0 Hts Hlen.
  apply (failed_logins_lock s ts t 0 t0); try done.
  - by split; [apply Hw|].
  - unfold streak. by rewrite Hnone.
Qed.

End guarantees.

(** ** Witnesses: a limiter that locks after two failures *)

Definition strict_cfg : LoginFailureLimiterConfig :=
  {| MaxFailures := 2; LockoutDuration := 100; FailureTTL := 50; MaxEntries := 2;
     MaxConcurrentKDF := 1 |}.

#[local] Existing Instance stdpp_range.

Definition strict_ops : list (Z * lop) :=
  [(10, OReserve 0 ["alice"%string]); (11, OFinish 0 loginAttemptFailure []);
   (20, OReserve 1 ["alice"%string]); (21, OFinish 1 loginAttemptFailure [])].

Definition run_ops (ops : list (Z * lop)) (w : lworld) : lworld :=
  foldl (λ w '(now, o), lrun now o w) w ops.

Lemma strict_reachable : rtc lstep (fresh_world strict_cfg) (run_ops strict_ops (fresh_world strict_cfg)).
Proof.
  unfold run_ops, strict_ops. cbn [foldl].
  do 4 (eapply rtc_r; [|apply lstep_run; split; [lia|vm_compute; exact I || reflexivity]]).
  apply rtc_refl.
Qed.

Lemma limiter_reachable_wf_witness :
  lwf (run_ops strict_ops (fresh_world strict_cfg)).
Proof. apply (limiter_reachable_wf strict_cfg), strict_reachable. Defined.

(** [bob] fails while [alice] is locked out; [alice] is still refused. *)
Lemma lockout_enforced_witness :
  (Reserve ["alice"%string; "host"%string] 120
    (limiter (lrun 30 (ORecordFailure ["bob"%string; "carol"%string; "dave"%string])
      (run_ops strict_ops (fresh_world strict_cfg))))).1 = None ∧
  (Allowed "alice"%string 120
    (limiter (lrun 30 (ORecordFailure ["bob"%string; "carol"%string; "dave"%string])
      (run_ops strict_ops (fresh_world strict_cfg))))).1 = false.
Proof.
  apply (lockout_enforced strict_cfg (run_ops strict_ops (fresh_world strict_cfg)) _
    "alice"%string 21 121).
  - apply strict_reachable.
  - done.
  - eexists. split; [vm_compute; reflexivity|vm_compute; done].
  - vm_compute. done.
  - apply rtc_once. apply window_step_run; [split; [lia|exact I]|lia|intros []].
  - lia.
  - set_solver.
Defined.

Lemma Reserve_grants_exactly_witness :
  is_Some (Reserve ["bob"%string] 130 (limiter (run_ops strict_ops (fresh_world strict_cfg)))).1 ↔
  grants 130 (uniqueLoginScopes ["bob"%string]) (limiter (run_ops strict_ops (fresh_world strict_cfg))).
Proof.
  apply (Reserve_grants_exactly strict_cfg); [apply strict_reachable|vm_compute; done].
Defined.

Lemma failure_streak_locks_witness :
  locked (15 + 100) "eve"%string
    (foldl (failed_login "eve"%string) (limiter (fresh_world strict_cfg)) ([10] ++ [15])).
Proof.
  apply (failure_streak_locks strict_cfg (fresh_world strict_cfg) "eve"%string [10] 15 5);
    [apply rtc_refl|vm_compute; done..| |vm_compute; done].
  change (FailureTTL _) with 50. simpl. lia.
Defined.
