(* ===== verification/PermLoader.v ===== *)
(** * The database-backed permission loader ([internal/permissions/loader.go])

    [LoadForClient] assembles the six tiers of a user in a channel from SQL
    queries and caches the result for five seconds; writers call [Invalidate] or
    [InvalidateAll] after they changed the tables.

    The queries of one load are separate statements, between which other
    goroutines run. A loading routine is therefore a program over queries
    ([prog]): a tree whose nodes are the SELECT statements of the source and whose
    branches are the replies, errors included. [interp] runs it against one state
    of the tables; the step relation [lstep] of [PermCache] interleaves its
    queries with writes, invalidations and other loads.

    The tables hold what the SELECT statements read; the rows of a table are
    listed in the order the database returns them. *)

From S2P Require Import Prelude Permissions.

(** ** Tables and queries *)

Record permRow := mkRow {
  row_key : string;
  row_value : Z;
  row_grant : Z;
  row_skip : bool;
  row_negate : bool;
}.

Record Tables := {
  t_permissions : gmap Z permRow;                     (* id *)
  t_server_group_members : list (Z * Z);              (* user, group *)
  t_server_group_permissions : list (Z * Z);          (* group, permission *)
  t_channel_group_members : list (Z * Z * Z);         (* user, channel, group *)
  t_channel_group_permissions : list (Z * Z);         (* group, permission *)
  t_client_permissions : list (Z * option Z * Z);     (* user, channel or NULL, permission *)
  t_channel_client_permissions : list (Z * Z * Z);    (* user, channel, permission *)
  t_channel_permissions : list (Z * Z);               (* channel, permission *)
  t_channels : gmap Z (option Z * bool);              (* id: parent or NULL, inherit *)
}.

(** One constructor per SELECT statement, indexed by the type of its rows. *)
Inductive Query : Type → Type :=
| SelServerGroups (userID : Z) : Query (list Z)
| SelChannelGroups (userID channelID : Z) : Query (list Z)
| SelServerGroupPermissions (groupID : Z) : Query (list permRow)
| SelChannelGroupPermissions (groupID : Z) : Query (list permRow)
| SelClientPermissions (userID : Z) : Query (list permRow)
| SelClientPermissionsForChannel (userID channelID : Z) : Query (list permRow)
| SelChannelClientPermissions (userID channelID : Z) : Query (list permRow)
| SelChannelPermissions (channelID : Z) : Query (list permRow)
| SelPermissionChain (channelID : Z) (depth : nat) : Query (list Z).

(** [... JOIN permissions p ON p.id = x.permission_id WHERE ...] *)
Definition joined {A} (db : Tables) (keep : A → bool) (perm : A → Z) (rows : list A) : list permRow :=
  omap (λ r, if keep r then t_permissions db !! perm r else None) rows.

(** The recursive query of [channelPermissionChain]: the row of the channel at
    depth 0, then the parent's row while [inherit] holds and the depth is below
    the bound; [fuel] is the bound less the depth. *)
Fixpoint chain_rows (fuel : nat) (chs : gmap Z (option Z * bool)) (id : Z) : list Z :=
  match chs !! id with
  | None => []
  | Some (parent, inherit) =>
      id :: match fuel, parent, inherit with
            | S fuel', Some p, true => chain_rows fuel' chs p
            | _, _, _ => []
            end
  end.

Definition exec {X} (db : Tables) (q : Query X) : X :=
  match q in Query X return X with
  | SelServerGroups u =>
      sort_by Z.le (omap (λ '(u', g), if u' =? u then Some g else None) (t_server_group_members db))
  | SelChannelGroups u c =>
      sort_by Z.le (omap (λ '(u', c', g), if (u' =? u) && (c' =? c) then Some g else None)
        (t_channel_group_members db))
  | SelServerGroupPermissions g =>
      joined db (λ r, r.1 =? g) snd (t_server_group_permissions db)
  | SelChannelGroupPermissions g =>
      joined db (λ r, r.1 =? g) snd (t_channel_group_permissions db)
  | SelClientPermissions u =>
      joined db (λ r, (r.1.1 =? u) && bool_decide (r.1.2 = None)) snd (t_client_permissions db)
  | SelClientPermissionsForChannel u c =>
      joined db (λ r, (r.1.1 =? u) && bool_decide (r.1.2 = Some c)) snd (t_client_permissions db)
  | SelChannelClientPermissions u c =>
      joined db (λ r, (r.1.1 =? u) && (r.1.2 =? c)) snd (t_channel_client_permissions db)
  | SelChannelPermissions c =>
      joined db (λ r, r.1 =? c) snd (t_channel_permissions db)
  | SelPermissionChain c depth => chain_rows depth (t_channels db) c
  end.

(** ** Programs over queries *)

Abbreviation error := string.

Inductive LoadError :=
| DBFault (e : error)
| Loading (what : string) (ids : list Z) (e : LoadError)
| Panic.

Inductive prog (A : Type) : Type :=
| Ret (a : A)
| Ask {X : Type} (q : Query X) (k : result error X → prog A).
Arguments Ret {A} a.
Arguments Ask {A X} q k.

Fixpoint pbind {A B} (p : prog A) (f : A → prog B) : prog B :=
  match p with
  | Ret a => f a
  | Ask q k => Ask q (λ r, pbind (k r) f)
  end.

(** Fallible loading routines: [let! x := p in k] returns early on an error. *)
Abbreviation load A := (prog (result LoadError A)).

Definition lbind {A B} (p : load A) (f : A → load B) : load B :=
  pbind p (λ r, match r with Ok a => f a | Err e => Ret (Err e) end).

Notation "'let!' x ':=' m 'in' k" := (lbind m (λ x, k))
  (at level 10, x pattern, m at level 100, k at level 200) : go_scope.

Definition query {X} (q : Query X) : load X :=
  Ask q (λ r, match r with Ok x => Ret (Ok x) | Err e => Ret (Err (DBFault e)) end).

(** [fmt.Errorf("loading ...: %w", err)] *)
Definition context {A} (what : string) (ids : list Z) (p : load A) : load A :=
  pbind p (λ r, Ret (result_map_err (Loading what ids) r)).

Fixpoint interp {A} (db : Tables) (p : prog A) : A :=
  match p with
  | Ret a => a
  | Ask q k => interp db (k (Ok (exec db q)))
  end.

Fixpoint load_all {A B} (f : A → load B) (l : list A) : load (list B) :=
  match l with
  | [] => Ret (Ok [])
  | x :: l => let! y := f x in let! ys := load_all f l in Ret (Ok (y :: ys))
  end.

(** ** The loading routines *)

Definition inferType (key : string) : PermissionType :=
  if String.prefix "b_" key then PermissionTypeBoolean else PermissionTypeInteger.

Definition row_permission (r : permRow) : Permission :=
  mkPermission (row_key r) (inferType (row_key r)) (row_value r) (row_grant r)
    (row_skip r) (row_negate r).

(** The rows become a set; a later row for the same key replaces an earlier one. *)
Definition rows_set (rows : list permRow) : PermissionSet :=
  foldl (λ set r, <[row_key r := Some (row_permission r)]> set) NewPermissionSet rows.

Definition loadPermissionRows (q : Query (list permRow)) : load PermissionSet :=
  let! rows := query q in Ret (Ok (rows_set rows)).

Definition loadServerGroupPermissions (groupID : Z) : load PermissionSet :=
  loadPermissionRows (SelServerGroupPermissions groupID).
Definition loadChannelGroupPermissions (groupID : Z) : load PermissionSet :=
  loadPermissionRows (SelChannelGroupPermissions groupID).
Definition loadClientPermissions (userID : Z) (nullChannel : bool) : load PermissionSet :=
  if negb nullChannel then Ret (Err Panic)
  else loadPermissionRows (SelClientPermissions userID).
Definition loadClientPermissionsForChannel (userID channelID : Z) : load PermissionSet :=
  loadPermissionRows (SelClientPermissionsForChannel userID channelID).
Definition loadChannelClientPermissions (userID channelID : Z) : load PermissionSet :=
  loadPermissionRows (SelChannelClientPermissions userID channelID).
Definition loadChannelPermissions (channelID : Z) : load PermissionSet :=
  loadPermissionRows (SelChannelPermissions channelID).
Definition LoadServerGroupsForUser (userID : Z) : load (list Z) := query (SelServerGroups userID).
Definition LoadChannelGroupsForUser (userID channelID : Z) : load (list Z) :=
  query (SelChannelGroups userID channelID).

(** [LIMIT 1]; an error of the query reads as "no group". *)
Definition LoadChannelGroupForUser (userID channelID : Z) : load Z :=
  Ask (SelChannelGroups userID channelID) (λ r,
    match r with
    | Ok (id :: _) => Ret (Ok id)
    | _ => Ret (Ok 0)
    end).

Definition loader_maxChannelDepth : nat := 64.

Definition channelPermissionChain (channelID : Z) : load (list Z) :=
  query (SelPermissionChain channelID loader_maxChannelDepth).

Section loader.

Context `{!∀ V, MapRange string V}.

(** The inner loop of the chain merge: entries of a farther channel fill the
    keys that no nearer channel set. *)
Definition override_merge (merged set : PermissionSet) : PermissionSet :=
  foldl (λ merged kp,
      match kp.2 with
      | None => merged
      | Some p => if PermissionSet_Has merged kp.1 then merged else <[Key p := Some p]> merged
      end) merged (range set).

Fixpoint chain_merge (merged : PermissionSet) (chain : list Z) : load PermissionSet :=
  match chain with
  | [] => Ret (Ok merged)
  | id :: rest =>
      let! set := loadChannelPermissions id in
      chain_merge (override_merge merged set) rest
  end.

Definition loadChannelPermissionChain (channelID : Z) : load PermissionSet :=
  let! chain := channelPermissionChain channelID in
  match chain with
  | [] => loadChannelPermissions channelID
  | _ => chain_merge NewPermissionSet chain
  end.

Definition merge_sets (sets : list PermissionSet) : load PermissionSet :=
  match MergeSet sets with
  | Some set => Ret (Ok set)
  | None => Ret (Err Panic)
  end.

Definition loadFromDB (userID channelID : Z) : load TieredPermissions :=
  let tp := NewTieredPermissions in
  let! groupIDs := context "server groups for user" [userID] (LoadServerGroupsForUser userID) in
  let! groupSets := load_all (λ gid,
    context "server group permissions" [gid] (loadServerGroupPermissions gid)) groupIDs in
  let! merged := merge_sets groupSets in
  let tp := TieredPermissions_Set tp TierServerGroup merged in
  let! clientServerSet := context "client-specific permissions" [userID]
    (loadClientPermissions userID true) in
  let tp := TieredPermissions_Set tp TierClientSpecific clientServerSet in
  let! channelSpecificSet := context "channel-specific permissions" [userID; channelID]
    (loadClientPermissionsForChannel userID channelID) in
  let tp := TieredPermissions_Set tp TierChannelSpecific channelSpecificSet in
  let! channelSet := context "channel permissions" [channelID]
    (loadChannelPermissionChain channelID) in
  let tp := TieredPermissions_Set tp TierChannel channelSet in
  let! channelGroupIDs := context "channel groups" [userID; channelID]
    (LoadChannelGroupsForUser userID channelID) in
  let! channelGroupSets := load_all (λ cgid,
    context "channel group permissions" [cgid] (loadChannelGroupPermissions cgid)) channelGroupIDs in
  let! cgMerged := merge_sets channelGroupSets in
  let tp := TieredPermissions_Set tp TierChannelGroup cgMerged in
  let! channelClientSet := context "channel-client permissions" [userID; channelID]
    (loadChannelClientPermissions userID channelID) in
  let tp := TieredPermissions_Set tp TierChannelClient channelClientSet in
  Ret (Ok tp).

End loader.
