(* ===== verification/PermCache.v ===== *)
(** * The loader's cache under concurrent writes

    The cache half of [internal/permissions/loader.go]: entries with a time to
    live, the generation counter, and the loops of [LoadForClient] and
    [LoadGroupPermissions] that reload when an invalidation crossed their
    queries. The loops hold [cacheMu] only while they look up and while they
    publish, so their goroutines are threads of a step relation in which the
    queries of a load, writes to the tables, invalidations and other loads
    interleave freely. *)

From S2P Require Import Prelude Permissions PermLoader StateManager StateInvariant StateTree.

Definition cacheTTL : Z := 5 * second.
Definition maxCachedGroups : nat := 1024.
#[global] Arguments maxCachedGroups : simpl never.

Record cacheEntry := { ce_tp : TieredPermissions; ce_expires : Z }.
Record groupCacheEntry := { gce_set : PermissionSet; gce_expires : Z }.

Record Loader := {
  cache : gmap (Z * Z) cacheEntry;
  cacheGeneration : Z;
  groupCache : gmap Z groupCacheEntry;
}.

Definition NewLoader : Loader := {| cache := ∅; cacheGeneration := 0; groupCache := ∅ |}.

Definition Invalidate (userID channelID : Z) (l : Loader) : Loader :=
  {| cache := delete (userID, channelID) (cache l);
     cacheGeneration := u64 (cacheGeneration l + 1);
     groupCache := groupCache l |}.

Definition InvalidateAll (l : Loader) : Loader :=
  {| cache := ∅; cacheGeneration := u64 (cacheGeneration l + 1); groupCache := ∅ |}.

(** The lookups at the top of the loops. *)
Definition cached_client (userID channelID now : Z) (l : Loader) : option TieredPermissions :=
  match cache l !! (userID, channelID) with
  | Some ce => if time_before now (ce_expires ce) then Some (ce_tp ce) else None
  | None => None
  end.

Definition cached_group (groupID now : Z) (l : Loader) : option PermissionSet :=
  match groupCache l !! groupID with
  | Some e => if time_before now (gce_expires e) then Some (gce_set e) else None
  | None => None
  end.

(** The ends of the loops: [None] when the generation moved and the load has to
    start again. *)
Definition publish_client (userID channelID generation now : Z) (tp : TieredPermissions)
  (l : Loader) : option Loader :=
  if negb (generation =? cacheGeneration l) then None
  else Some {|
    cache := <[(userID, channelID) := {| ce_tp := tp; ce_expires := time_add now cacheTTL |}]> (cache l);
    cacheGeneration := cacheGeneration l;
    groupCache := groupCache l |}.

Definition publish_group (groupID generation now : Z) (set : PermissionSet)
  (l : Loader) : option Loader :=
  if negb (generation =? cacheGeneration l) then None
  else
    let groups := if (maxCachedGroups <=? size (groupCache l))%nat then ∅ else groupCache l in
    Some {|
      cache := cache l;
      cacheGeneration := cacheGeneration l;
      groupCache := <[groupID := {| gce_set := set; gce_expires := time_add now cacheTTL |}]> groups |}.

(** ** Calls *)

Inductive target :=
| TClient (userID channelID : Z)
| TGroup (groupID : Z).

Inductive answer :=
| ATiered (tp : TieredPermissions)
| ASet (set : PermissionSet).

Section calls.

Context `{!∀ V, MapRange string V}.

(** The queries of a call; its answer. *)
Definition load_prog (tg : target) : load answer :=
  match tg with
  | TClient u c => let! tp := loadFromDB u c in Ret (Ok (ATiered tp))
  | TGroup g => let! set := loadServerGroupPermissions g in Ret (Ok (ASet set))
  end.

Definition cached (tg : target) (now : Z) (l : Loader) : option answer :=
  match tg with
  | TClient u c => ATiered <$> cached_client u c now l
  | TGroup g => ASet <$> cached_group g now l
  end.

Definition publish (tg : target) (generation now : Z) (a : answer) (l : Loader) : option Loader :=
  match tg, a with
  | TClient u c, ATiered tp => publish_client u c generation now tp l
  | TGroup g, ASet set => publish_group g generation now set l
  | _, _ => None
  end.

(** Where a call is: at the top of its loop, between two queries, or returned. *)
Inductive phase :=
| Checking
| Querying (generation : Z) (p : load answer)
| Returned (r : result LoadError answer).

(** [dirty] is bookkeeping of the model: the targets whose rows were changed by
    a write that has not been followed by its invalidation yet. *)
Record world_ := {
  tables : Tables;
  loader : Loader;
  clock : Z;
  calls : gmap nat (target * phase);
  dirty : target → Prop;
}.

(** What a load returns when nothing runs beside it. *)
Definition fresh_answer (db : Tables) (tg : target) : result LoadError answer :=
  interp db (load_prog tg).

(** The queries of [p] read the same rows in [db] and in [db']. *)
Fixpoint agree {A} (db db' : Tables) (p : prog A) : Prop :=
  match p with
  | Ret _ => True
  | Ask q k => exec db q = exec db' q ∧ agree db db' (k (Ok (exec db q)))
  end.

Definition set_call (id : nat) (tg : target) (ph : phase) (w : world_) : world_ :=
  {| tables := tables w; loader := loader w; clock := clock w;
     calls := <[id := (tg, ph)]> (calls w); dirty := dirty w |}.

Definition set_loader (l : Loader) (dirty' : target → Prop) (w : world_) : world_ :=
  {| tables := tables w; loader := l; clock := clock w; calls := calls w; dirty := dirty' |}.

Inductive cstep (w : world_) : world_ → Prop :=
| c_call id tg :
    calls w !! id = None → cstep w (set_call id tg Checking w)
| c_cancelled id tg e :
    (* ctx.Err() *)
    calls w !! id = Some (tg, Checking) → cstep w (set_call id tg (Returned (Err (DBFault e))) w)
| c_hit id tg a :
    calls w !! id = Some (tg, Checking) → cached tg (clock w) (loader w) = Some a →
    cstep w (set_call id tg (Returned (Ok a)) w)
| c_miss id tg :
    calls w !! id = Some (tg, Checking) → cached tg (clock w) (loader w) = None →
    cstep w (set_call id tg (Querying (cacheGeneration (loader w)) (load_prog tg)) w)
| c_query id tg g X (q : Query X) k :
    calls w !! id = Some (tg, Querying g (Ask q k)) →
    cstep w (set_call id tg (Querying g (k (Ok (exec (tables w) q)))) w)
| c_query_error id tg g X (q : Query X) k e :
    calls w !! id = Some (tg, Querying g (Ask q k)) →
    cstep w (set_call id tg (Querying g (k (Err e))) w)
| c_failed id tg g e :
    calls w !! id = Some (tg, Querying g (Ret (Err e))) →
    cstep w (set_call id tg (Returned (Err e)) w)
| c_published id tg g a l :
    calls w !! id = Some (tg, Querying g (Ret (Ok a))) →
    publish tg g (clock w) a (loader w) = Some l →
    cstep w (set_call id tg (Returned (Ok a)) (set_loader l (dirty w) w))
| c_retry id tg g a :
    calls w !! id = Some (tg, Querying g (Ret (Ok a))) →
    publish tg g (clock w) a (loader w) = None →
    cstep w (set_call id tg Checking w)
| c_tick t :
    clock w ≤ t →
    cstep w {| tables := tables w; loader := loader w; clock := t; calls := calls w; dirty := dirty w |}
| c_write db (touched : target → Prop) :
    (* a committed transaction; it touches the loads whose rows it changed *)
    (∀ tg, touched tg ∨ agree (tables w) db (load_prog tg)) →
    cstep w {| tables := db; loader := loader w; clock := clock w; calls := calls w;
               dirty := λ tg, dirty w tg ∨ touched tg |}
| c_invalidate u c :
    (* fewer than 2^64 invalidations *)
    cacheGeneration (loader w) + 1 < 2 ^ 64 →
    cstep w (set_loader (Invalidate u c (loader w)) (λ tg, dirty w tg ∧ tg ≠ TClient u c) w)
| c_invalidate_all :
    cacheGeneration (loader w) + 1 < 2 ^ 64 →
    cstep w (set_loader (InvalidateAll (loader w)) (λ _, False) w).

Definition boot (db : Tables) (t : Z) : world_ :=
  {| tables := db; loader := NewLoader; clock := t; calls := ∅; dirty := λ _, False |}.

(** ** Queries that fail abort the load *)

Fixpoint strict {A} (p : load A) : Prop :=
  match p with
  | Ret _ => True
  | Ask q k => (∀ x, strict (k (Ok x))) ∧ (∀ e, ∃ e', k (Err e) = Ret (Err e'))
  end.

Lemma strict_lbind {A B} (p : load A) (f : A → load B) :
  strict p → (∀ a, strict (f a)) → strict (lbind p f).
Proof.
  intros Hp Hf. induction p as [[a|e]|X q k IH]; simpl in *; [apply Hf|done|].
  destruct Hp as [Hk He]. split; [intros x; by apply IH|].
  intros e. destruct (He e) as [e' ->]. by exists e'.
Qed.

Lemma strict_context {A} what ids (p : load A) : strict p → strict (context what ids p).
Proof.
  intros Hp. induction p as [r|X q k IH]; simpl in *; [done|].
  destruct Hp as [Hk He]. split; [intros x; by apply IH|].
  intros e. destruct (He e) as [e' ->]. simpl. by eexists.
Qed.

Lemma strict_query {X} (q : Query X) : strict (query q).
Proof. simpl. by eauto. Qed.

Lemma strict_load_all {A B} (f : A → load B) l :
  (∀ a, strict (f a)) → strict (load_all f l).
Proof.
  intros Hf. induction l as [|a l IH]; simpl; [done|].
  apply strict_lbind; [apply Hf|]. intros y. by apply strict_lbind.
Qed.

Lemma strict_rows q : strict (loadPermissionRows q).
Proof. by apply strict_lbind; [apply strict_query|]. Qed.

Lemma strict_chain channelID : strict (loadChannelPermissionChain channelID).
Proof.
  apply strict_lbind; [apply strict_query|]. intros [|id chain]; [apply strict_rows|].
  generalize (id :: chain) as ids. generalize NewPermissionSet as merged. clear.
  intros merged ids. revert merged.
  induction ids as [|id ids IH]; intros merged; [done|].
  split; [intros; apply IH|by eauto].
Qed.

Lemma strict_merge sets : strict (merge_sets sets).
Proof. unfold merge_sets. by case_match. Qed.

Lemma strict_load_prog tg : strict (load_prog tg).
Proof.
  destruct tg as [u c|g]; [|by split; eauto]. cbn [load_prog].
  apply strict_lbind; [|done]. unfold loadFromDB.
  repeat match goal with
  | |- strict (lbind _ _) => apply strict_lbind; [|intros ?]
  | |- strict (context _ _ _) => apply strict_context
  | |- strict (load_all _ _) => apply strict_load_all; intros ?
  | |- strict (merge_sets _) => apply strict_merge
  | |- strict (loadChannelPermissionChain _) => apply strict_chain
  | |- strict (Ret _) => exact I
  | |- _ => apply strict_rows || apply strict_query
  end.
Qed.

(** ** The invariant *)

(** [path db p p']: running [p] against [db] leads to [p']. *)
Inductive path {A} (db : Tables) : prog A → prog A → Prop :=
| path_refl p : path db p p
| path_ask X (q : Query X) k p' : path db (k (Ok (exec db q))) p' → path db (Ask q k) p'.

Lemma path_query {A X} db (p : prog A) (q : Query X) k :
  path db p (Ask q k) → path db p (k (Ok (exec db q))).
Proof.
  intros Hp. remember (Ask q k) as p' eqn:Hp'.
  induction Hp; [subst; constructor; constructor|constructor; auto].
Qed.

Lemma path_interp {A} db (p p' : prog A) : path db p p' → interp db p' = interp db p.
Proof. induction 1; done. Qed.

Lemma path_strict {A} db (p p' : load A) : path db p p' → strict p → strict p'.
Proof.
  induction 1 as [|X q k p' _ IH]; [done|]. intros [Hk _]. auto.
Qed.

Lemma path_agree {A} db db' (p p' : prog A) : agree db db' p → path db p p' → path db' p p'.
Proof.
  intros Ha Hp. induction Hp as [|X q k p' _ IH]; [constructor|].
  destruct Ha as [He Ha]. constructor. rewrite <- He. auto.
Qed.

Lemma agree_interp {A} db db' (p : prog A) : agree db db' p → interp db p = interp db' p.
Proof.
  induction p as [|X q k IH]; simpl; [done|]. intros [<- Ha]. auto.
Qed.

(** A load under way has read what the current tables hold, unless one of its
    queries failed. *)
Definition on_course (db : Tables) (tg : target) (p : load answer) : Prop :=
  path db (load_prog tg) p ∨ ∃ e, p = Ret (Err e).

Record cwf (w : world_) : Prop := {
  cwf_gen : 0 ≤ cacheGeneration (loader w) < 2 ^ 64;
  cwf_old id tg g p :
    calls w !! id = Some (tg, Querying g p) → g ≤ cacheGeneration (loader w);
  cwf_cached tg a :
    ¬ dirty w tg → (∃ now, cached tg now (loader w) = Some a) → fresh_answer (tables w) tg = Ok a;
  cwf_current id tg p :
    ¬ dirty w tg → calls w !! id = Some (tg, Querying (cacheGeneration (loader w)) p) →
    on_course (tables w) tg p;
  cwf_groups : (size (groupCache (loader w)) ≤ maxCachedGroups)%nat;
}.

Lemma cwf_set_call w id tg ph :
  cwf w →
  (∀ g p, ph = Querying g p → g ≤ cacheGeneration (loader w) ∧
     (g = cacheGeneration (loader w) → ¬ dirty w tg → on_course (tables w) tg p)) →
  cwf (set_call id tg ph w).
Proof.
  intros [] Hph. constructor; simpl; try done.
  - intros id' tg' g p. rewrite lookup_insert. case_decide; [|by eauto].
    intros [= <- Hq]. by apply Hph in Hq as [? _].
  - intros id' tg' p Hd. rewrite lookup_insert. case_decide; [|by eauto].
    intros [= <- Hq]. destruct (Hph _ _ Hq) as [_ Hc]. by apply Hc.
Qed.

Lemma interp_ask {A X} db (q : Query X) (k : result error X → prog A) :
  interp db (Ask q k) = interp db (k (Ok (exec db q))).
Proof. done. Qed.

Lemma publish_current tg g now a l l' :
  publish tg g now a l = Some l' → g = cacheGeneration l ∧ cacheGeneration l' = cacheGeneration l.
Proof.
  unfold publish, publish_client, publish_group.
  destruct tg, a; try done; destruct (Z.eqb_spec g (cacheGeneration l)); simpl; try done;
    by intros [= <-].
Qed.

Lemma publish_cached tg g now a l l' tg' now' a' :
  publish tg g now a l = Some l' → cached tg' now' l' = Some a' →
  (tg' = tg ∧ a' = a) ∨ cached tg' now' l = Some a'.
Proof.
  unfold publish, publish_client, publish_group, cached, cached_client, cached_group.
  destruct tg as [u c|gr], a as [tp|set]; try done;
    (destruct (g =? cacheGeneration l); cbn [negb]; [|done]).
  - intros [= <-]; simpl. destruct tg' as [u' c'|gr']; [|by auto]. rewrite lookup_insert.
    destruct (decide ((u, c) = (u', c'))) as [?|]; [|by auto]. simplify_eq. simpl.
    destruct (time_before now' (time_add now cacheTTL)); simpl; naive_solver.
  - generalize (maxCachedGroups <=? size (groupCache l))%nat as full.
    intros full [= <-]; simpl. destruct tg' as [u' c'|gr']; [by auto|]. rewrite lookup_insert.
    destruct (decide (gr = gr')) as [->|].
    + simpl. destruct (time_before now' (time_add now cacheTTL)); simpl; naive_solver.
    + destruct full; [|by auto]. by rewrite lookup_empty.
Qed.

Lemma publish_groups tg g now a l l' :
  publish tg g now a l = Some l' → (size (groupCache l) ≤ maxCachedGroups)%nat →
  (size (groupCache l') ≤ maxCachedGroups)%nat.
Proof.
  unfold publish, publish_client, publish_group.
  destruct tg, a; try done; (destruct (g =? cacheGeneration l); cbn [negb]; [|done]).
  { by intros [= <-]. }
  destruct (Nat.leb_spec maxCachedGroups (size (groupCache l))) as [Hle|Hlt];
    intros [= <-] Hsz; cbn [groupCache].
  - rewrite map_size_insert, lookup_empty, map_size_empty. simpl. unfold maxCachedGroups. lia.
  - rewrite map_size_insert. case_match; unfold id; lia.
Qed.

Lemma u64_succ g : 0 ≤ g → g + 1 < 2 ^ 64 → u64 (g + 1) = g + 1.
Proof. intros. apply wrap_u_small. lia. Qed.

Lemma on_course_query {X} db tg (q : Query X) k :
  on_course db tg (Ask q k) → on_course db tg (k (Ok (exec db q))).
Proof. intros [Hp|[e He]]; [left; by apply path_query|done]. Qed.

Lemma on_course_error {X} db tg (q : Query X) k e :
  on_course db tg (Ask q k) → on_course db tg (k (Err e)).
Proof.
  intros [Hp|[e' He]]; [right|done].
  apply path_strict in Hp as [_ Hs]; [eauto|apply strict_load_prog].
Qed.

Lemma on_course_answer db tg a :
  on_course db tg (Ret (Ok a)) → fresh_answer db tg = Ok a.
Proof. intros [Hp|[e He]]; [symmetry; by apply (path_interp db _ _ Hp)|done]. Qed.

Lemma cwf_write db touched w :
  (∀ tg, touched tg ∨ agree (tables w) db (load_prog tg)) → cwf w →
  cwf {| tables := db; loader := loader w; clock := clock w; calls := calls w;
         dirty := λ tg, dirty w tg ∨ touched tg |}.
Proof.
  intros Ht [Hg Hold Hcached Hcur Hgr].
  assert (∀ tg, ¬ (dirty w tg ∨ touched tg) →
    ¬ dirty w tg ∧ agree (tables w) db (load_prog tg)) as Hnd.
  { intros tg Hn. split; [tauto|]. destruct (Ht tg); tauto. }
  constructor; simpl; try done.
  - intros tg a [Hd Ha]%Hnd Hc. unfold fresh_answer. rewrite <- (agree_interp _ _ _ Ha).
    by apply Hcached.
  - intros id tg p [Hd Ha]%Hnd Hid. destruct (Hcur id tg p Hd Hid) as [Hp|?]; [left|by right].
    by eapply path_agree.
Qed.

(** An invalidation leaves every load under way behind the generation. *)
Lemma cwf_bump l' dirty' w :
  cwf w → cacheGeneration (loader w) + 1 < 2 ^ 64 →
  cacheGeneration l' = u64 (cacheGeneration (loader w) + 1) →
  (size (groupCache l') ≤ maxCachedGroups)%nat →
  (∀ tg a now, ¬ dirty' tg → cached tg now l' = Some a →
     ¬ dirty w tg ∧ cached tg now (loader w) = Some a) →
  cwf (set_loader l' dirty' w).
Proof.
  intros [Hg Hold Hcached Hcur Hgr] Hlt Hgen Hgr' Hc. rewrite u64_succ in Hgen by lia.
  constructor; simpl; try done.
  - lia.
  - intros id tg g p Hid%Hold. lia.
  - intros tg a Hd [now Ha]. destruct (Hc tg a now Hd Ha). eauto.
  - intros id tg p Hd Hid%Hold. lia.
Qed.

Lemma cwf_publish id tg g a l w :
  cwf w → calls w !! id = Some (tg, Querying g (Ret (Ok a))) →
  publish tg g (clock w) a (loader w) = Some l →
  cwf (set_loader l (dirty w) w).
Proof.
  intros [Hg Hold Hcached Hcur Hgr] Hid Hp.
  destruct (publish_current _ _ _ _ _ _ Hp) as [-> Hgen].
  constructor; simpl; rewrite ?Hgen; try done.
  - intros tg' a' Hd [now Ha]. destruct (publish_cached _ _ _ _ _ _ _ _ _ Hp Ha) as [[-> ->]|?].
    + apply on_course_answer. eauto.
    + eauto.
  - by eapply publish_groups.
Qed.

Lemma cwf_step w w' : cwf w → cstep w w' → cwf w'.
Proof.
  intros Hw Hstep. pose proof Hw as [Hg Hold Hcached Hcur Hgr].
  destruct Hstep as [id tg Hid|id tg e Hid|id tg a Hid Hc|id tg Hid Hc|id tg g X q k Hid
    |id tg g X q k e Hid|id tg g e Hid|id tg g a l Hid Hp|id tg g a Hid Hp|t Ht|db D HD|u c Hlt|Hlt].
  - by apply cwf_set_call.
  - by apply cwf_set_call.
  - by apply cwf_set_call.
  - apply cwf_set_call; [done|]. intros g p [= <- <-]. split; [done|]. intros _ _.
    left. constructor.
  - apply cwf_set_call; [done|]. intros g' p [= <- <-]. split; [by eapply Hold|].
    intros -> Hd. by eapply on_course_query, Hcur.
  - apply cwf_set_call; [done|]. intros g' p [= <- <-]. split; [by eapply Hold|].
    intros -> Hd. by eapply on_course_error, Hcur.
  - by apply cwf_set_call.
  - apply cwf_set_call; [by eapply cwf_publish|done].
  - by apply cwf_set_call.
  - by constructor.
  - by apply cwf_write.
  - apply cwf_bump; [done..|]. intros tg a now Hd Ha.
    destruct tg as [u' c'|gr]; simpl in *; unfold cached_client, Invalidate in Ha; simpl in Ha.
    + rewrite lookup_delete in Ha. case_decide; [done|].
      split; [|done]. intros Hd'. apply Hd. split; [done|]. intros ?. simplify_eq.
    + split; [|done]. intros Hd'. by apply Hd.
  - apply cwf_bump; [done|done|done| |].
    + simpl. rewrite map_size_empty. lia.
    + intros [u' c'|gr] a now _; simpl; unfold cached_client, cached_group; simpl;
        by rewrite lookup_empty.
Qed.

Lemma cwf_boot db t : cwf (boot db t).
Proof.
  constructor; simpl; try done.
  - intros [u c|g] a _ [now Ha]; simpl in Ha; unfold cached_client, cached_group in Ha; simpl in Ha;
      by rewrite lookup_empty in Ha.
  - rewrite map_size_empty. lia.
Qed.

(** ** Properties *)

(** C21: A permission answer is never stale once the write behind it has been
    invalidated. Take any interleaving of [LoadForClient] and
    [LoadGroupPermissions] calls (each query of a load a step of its own, any of
    them possibly failing), of writes to the permission tables and of
    [Invalidate]/[InvalidateAll]; when a call returns an answer for a target and
    every write that touched the target's rows has been followed by its
    invalidation, the answer is the one the current tables give, even when the
    call started before the write or found the answer in the cache. *)
Theorem answers_are_fresh db t w w' id tg a :
  rtc cstep (boot db t) w → cstep w w' →
  calls w !! id ≠ Some (tg, Returned (Ok a)) → calls w' !! id = Some (tg, Returned (Ok a)) →
  ¬ dirty w' tg →
  fresh_answer (tables w') tg = Ok a.
Proof.
  intros Hr Hs Hno Hyes Hd.
  assert (cwf w) as [Hg Hold Hcached Hcur Hgr].
  { eapply (rtc_invariant cstep cwf); [exact cwf_step|apply cwf_boot|done]. }
  destruct Hs as [id' tg' Hid|id' tg' e Hid|id' tg' a' Hid Hc|id' tg' Hid Hc|id' tg' g X q k Hid
    |id' tg' g X q k e Hid|id' tg' g e Hid|id' tg' g a' l Hid Hp|id' tg' g a' Hid Hp|t' Ht|db' D HD|u c Hlt|Hlt];
    simpl in *; try done;
    (rewrite lookup_insert in Hyes; case_decide; simplify_eq; try done).
  - eauto.
  - destruct (publish_current _ _ _ _ _ _ Hp) as [-> _]. apply on_course_answer. eauto.
Qed.

(** In every reachable state the group cache holds at most 1024 groups, and a
    load that one of whose queries failed never leaves an answer in a cache: what
    is cached for a target without a pending write is what the tables give. *)
Theorem cache_bounded_and_exact db t w :
  rtc cstep (boot db t) w →
  (size (groupCache (loader w)) ≤ maxCachedGroups)%nat ∧
  ∀ tg now a, ¬ dirty w tg → cached tg now (loader w) = Some a → fresh_answer (tables w) tg = Ok a.
Proof.
  intros Hr.
  assert (cwf w) as [Hg Hold Hcached Hcur Hgr].
  { eapply (rtc_invariant cstep cwf); [exact cwf_step|apply cwf_boot|done]. }
  eauto.
Qed.

(** ** The channel tier *)

Lemma interp_lbind {A B} db (p : load A) (f : A → load B) :
  interp db (lbind p f) = match interp db p with Ok a => interp db (f a) | Err e => Err e end.
Proof. induction p as [[a|e]|X q k IH]; simpl; [done..|]. apply IH. Qed.

(** The in-memory tree mirrors the [channels] table; NULL parents are 0. *)
Definition mirrors (db : Tables) (m : Manager) : Prop :=
  ∀ id, t_channels db !! id =
    (λ ch, (if ch_ParentID ch =? 0 then None else Some (ch_ParentID ch), ch_InheritPermissions ch))
      <$> channels m !! id.

Lemma chain_rows_walk db m fuel id :
  mirrors db m →
  chain_rows fuel (t_channels db) id =
    match channels m !! id with None => [] | Some _ => id :: chain_walk fuel m id end.
Proof.
  intros Hm. revert id. induction fuel as [|fuel IH]; intros id; simpl;
    rewrite (Hm id); destruct (channels m !! id) as [ch|] eqn:Hch; simpl; try done.
  destruct (ch_ParentID ch =? 0), (ch_InheritPermissions ch); simpl; try done.
  rewrite IH. by destruct (channels m !! ch_ParentID ch).
Qed.

(** The entry a channel's own rows give for [key]. *)
Definition own_entry (db : Tables) (key : string) (id : Z) : option (option Permission) :=
  rows_set (exec db (SelChannelPermissions id)) !! key.

(** The entry of the first channel of [chain] that has one. *)
Fixpoint nearest (db : Tables) (key : string) (chain : list Z) : option (option Permission) :=
  match chain with
  | [] => None
  | id :: rest => match own_entry db key id with Some p => Some p | None => nearest db key rest end
  end.

Definition keyed (s : PermissionSet) : Prop :=
  map_Forall (λ key p, ∃ q, p = Some q ∧ Key q = key) s.

Lemma keyed_rows rows : keyed (rows_set rows).
Proof.
  unfold rows_set. induction rows as [|r rows IH] using rev_ind; [apply map_Forall_empty|].
  rewrite foldl_app. simpl. apply map_Forall_insert_2; [|done]. by exists (row_permission r).
Qed.

Lemma override_merge_lookup merged set key :
  keyed set →
  override_merge merged set !! key =
    match merged !! key with Some p => Some p | None => set !! key end.
Proof.
  intros Hk. unfold override_merge.
  assert (set !! key = (list_to_map (range set) : PermissionSet) !! key) as ->
    by by rewrite list_to_map_range.
  assert (∀ k p, (k, p) ∈ range set → ∃ q, p = Some q ∧ Key q = k) as Hks.
  { intros k p Hkp. apply elem_of_range in Hkp. apply (Hk k p Hkp). }
  pose proof (NoDup_range_keys set) as Hnd. clear Hk.
  revert merged Hks Hnd. generalize (range set) as l. clear set.
  induction l as [|[k p] l IH]; intros merged Hks Hnd; simpl.
  { rewrite lookup_empty. by destruct (merged !! key). }
  apply NoDup_cons in Hnd as [Hn Hnd].
  destruct (Hks k p) as (q & -> & Hq); [set_solver|]. simpl.
  assert (Hks' : ∀ k p, (k, p) ∈ l → ∃ q, p = Some q ∧ Key q = k)
    by (intros; apply Hks; set_solver).
  assert ((list_to_map l : PermissionSet) !! k = None) as Hl by by apply not_elem_of_list_to_map.
  unfold PermissionSet_Has. rewrite Hq.
  case_bool_decide as Hhas; rewrite IH by done; destruct (decide (k = key)) as [->|Hne].
  - destruct Hhas as [x ->]. done.
  - by rewrite (lookup_insert_ne (list_to_map l)).
  - rewrite !lookup_insert_eq. destruct (merged !! key) eqn:Hmk; [|done]. destruct Hhas. eauto.
  - by rewrite !lookup_insert_ne.
Qed.

Lemma chain_merge_lookup db merged chain :
  ∃ set, interp db (chain_merge merged chain) = Ok set ∧
    ∀ key, set !! key = match merged !! key with Some p => Some p | None => nearest db key chain end.
Proof.
  revert merged. induction chain as [|id chain IH]; intros merged.
  { exists merged. split; [done|]. intros key. by destruct (merged !! key). }
  set (s := rows_set (exec db (SelChannelPermissions id))).
  destruct (IH (override_merge merged s)) as (set & Hi & Hl).
  exists set. split; [exact Hi|]. intros key.
  rewrite Hl, override_merge_lookup by apply keyed_rows. simpl. unfold own_entry. fold s.
  destruct (merged !! key); [done|]. by destruct (s !! key).
Qed.

(** The channel tier is inherited by override. For a channel of the tree, when
    the in-memory tree mirrors the [channels] table, the chain of the recursive
    query is exactly the chain of [ChannelPermissionChain], and the loaded set
    holds for every key the entry of the nearest channel of the chain that sets
    it, whether it grants more or less than its ancestors. *)
Theorem channel_tier_nearest_wins db m channelID :
  mirrors db m → is_Some (channels m !! channelID) →
  interp db (channelPermissionChain channelID) = Ok (ChannelPermissionChain channelID m) ∧
  ∃ set, interp db (loadChannelPermissionChain channelID) = Ok set ∧
    ∀ key, set !! key = nearest db key (ChannelPermissionChain channelID m).
Proof.
  intros Hm [ch Hch].
  assert (interp db (channelPermissionChain channelID) = Ok (ChannelPermissionChain channelID m)) as Hc.
  { change (Ok (chain_rows 64 (t_channels db) channelID) =
      Ok (E := LoadError) (ChannelPermissionChain channelID m)).
    rewrite (chain_rows_walk db m) by done. unfold ChannelPermissionChain. by rewrite Hch. }
  split; [done|]. unfold loadChannelPermissionChain. rewrite interp_lbind, Hc.
  unfold ChannelPermissionChain at 1. rewrite Hch.
  destruct (chain_merge_lookup db NewPermissionSet (ChannelPermissionChain channelID m)) as (set & Hi & Hl).
  exists set. split.
  - exact Hi.
  - intros key. rewrite Hl. unfold NewPermissionSet. by rewrite lookup_empty.
Qed.

End calls.

(** ** Witnesses *)

#[local] Existing Instance stdpp_range.

(** User 7 is in group 1, whose only permission is row [p]. *)
Definition small_db (value : Z) : Tables := {|
  t_permissions := {[ 1 := mkRow "i_client_kick_power" value 0 false false;
                      2 := mkRow "i_channel_join_power" 30 0 false false ]};
  t_server_group_members := [(7, 1)];
  t_server_group_permissions := [(1, 1)];
  t_channel_group_members := [];
  t_channel_group_permissions := [];
  t_client_permissions := [];
  t_channel_client_permissions := [];
  t_channel_permissions := [(1, 2)];
  t_channels := {[ 1 := (None, false); 2 := (Some 1, true) ]};
|}.

Definition group_answer (value : Z) : answer :=
  ASet (rows_set (exec (small_db value) (SelServerGroupPermissions 1))).

(** A group load reads the old value, a write and its invalidation cross it, and
    the call starts again and returns the new value. *)
Definition at_phase (ph : phase) (w : world_) : world_ := set_call 0 (TGroup 1) ph w.
Definition w_called := at_phase Checking (boot (small_db 50) 100).
Definition w_missed := at_phase (Querying 0 (load_prog (TGroup 1))) w_called.
Definition w_read := at_phase (Querying 0 (Ret (Ok (group_answer 50)))) w_missed.
Definition w_written : world_ :=
  {| tables := small_db 75; loader := loader w_read; clock := clock w_read; calls := calls w_read;
     dirty := λ tg, dirty w_read tg ∨ True |}.
Definition w_invalidated := set_loader (InvalidateAll (loader w_written)) (λ _, False) w_written.
Definition w_again := at_phase Checking w_invalidated.
Definition w_missed_again := at_phase (Querying 1 (load_prog (TGroup 1))) w_again.
Definition w_read_again := at_phase (Querying 1 (Ret (Ok (group_answer 75)))) w_missed_again.

Lemma c_query_to w id tg g p p' {X} (q : Query X) k :
  calls w !! id = Some (tg, Querying g p) → p = Ask q k → p' = k (Ok (exec (tables w) q)) →
  cstep w (set_call id tg (Querying g p') w).
Proof. intros Hid -> ->. by apply c_query. Qed.

Lemma crossed_reachable : rtc cstep (boot (small_db 50) 100) w_read_again.
Proof.
  apply (rtc_l _ _ w_called); [by apply c_call|].
  apply (rtc_l _ _ w_missed); [by apply (c_miss w_called)|].
  apply (rtc_l _ _ w_read); [by eapply (c_query_to w_missed)|].
  apply (rtc_l _ _ w_written); [apply (c_write w_read (small_db 75) (λ _, True)); by left|].
  apply (rtc_l _ _ w_invalidated); [by apply (c_invalidate_all w_written)|].
  apply (rtc_l _ _ w_again); [by apply (c_retry w_invalidated 0 (TGroup 1) 0 (group_answer 50))|].
  apply (rtc_l _ _ w_missed_again); [by apply (c_miss w_again)|].
  apply rtc_once. by eapply (c_query_to w_missed_again).
Qed.

Lemma answers_are_fresh_witness :
  fresh_answer (small_db 75) (TGroup 1) = Ok (group_answer 75).
Proof.
  destruct (publish (TGroup 1) 1 100 (group_answer 75) (loader w_read_again)) as [l|] eqn:Hl; [|done].
  apply (answers_are_fresh (small_db 50) 100 w_read_again
    (at_phase (Returned (Ok (group_answer 75))) (set_loader l (dirty w_read_again) w_read_again))
    0 (TGroup 1) (group_answer 75)).
  - apply crossed_reachable.
  - by apply (c_published w_read_again 0 (TGroup 1) 1).
  - done.
  - done.
  - intros [].
Defined.

Lemma cache_bounded_and_exact_witness :
  (size (groupCache (loader (boot (small_db 50) 100))) ≤ maxCachedGroups)%nat ∧
  ∀ tg now a, ¬ dirty (boot (small_db 50) 100) tg →
    cached tg now (loader (boot (small_db 50) 100)) = Some a →
    fresh_answer (tables (boot (small_db 50) 100)) tg = Ok a.
Proof. apply (cache_bounded_and_exact (small_db 50) 100), rtc_refl. Defined.

Lemma channel_tier_nearest_wins_witness :
  ∃ set, interp (small_db 0) (loadChannelPermissionChain 2) = Ok set ∧
    ∀ key, set !! key = nearest (small_db 0) key (ChannelPermissionChain 2 gated_tree).
Proof.
  apply (channel_tier_nearest_wins (small_db 0) gated_tree 2).
  - intros id. rewrite <- lookup_fmap. f_equal.
  - vm_compute. eauto.
Defined.
