(* ===== verification/PermCheck.v ===== *)
(** * The permission middleware of the control server ([internal/server/perms.go])

    A [permChecker] wraps the tiers loaded for the caller in the channel it
    occupies; every privileged handler asks it. The loader is used through the
    interface [PermSource]; [tables_source] is the instance that reads the tables
    with nothing running beside it. *)

From S2P Require Import Prelude Permissions PermLoader PermCache StateManager StateInvariant StateTree.

(** What the middleware needs of [permissions.Loader]: the two cached reads. *)
Class PermSource := {
  LoadForClient (userID channelID : Z) : result LoadError TieredPermissions;
  LoadGroupPermissions (groupID : Z) : result LoadError PermissionSet;
}.

Definition tables_source `{!∀ V, MapRange string V} (db : Tables) : PermSource := {|
  LoadForClient u c := interp db (loadFromDB u c);
  LoadGroupPermissions g := interp db (loadServerGroupPermissions g);
|}.

Definition PermissionKeyChannelJoinPower : PermissionKey := "i_channel_join_power".
Definition PermissionKeyClientNeededTalkPower : PermissionKey := "i_client_needed_talk_power".
Definition PermissionKeyClientWhisperPower : PermissionKey := "i_client_whisper_power".
Definition PermissionKeyClientVideoPublish : PermissionKey := "b_client_video_publish".
Definition PermissionKeyFTFileUploadPower : PermissionKey := "i_ft_file_upload_power".
Definition PermissionKeyFTFileDownloadPower : PermissionKey := "i_ft_file_download_power".

Record permChecker := {
  pc_tp : TieredPermissions;
  pc_admin : bool;
  pc_guest : bool;
}.

Inductive permError :=
| errPermsUnavailable
| errLoadingPermissions (e : LoadError)
| errLoadingGuestChannel (e : LoadError)
| errLoadingGuestGroup (e : LoadError).

(** The connection as the middleware sees it. *)
Record connClient := { conn_id : string; conn_userID : Z; conn_isAdmin : bool }.

(** [deps.Perms] ([None] when it is not wired), [deps.State] likewise and the id
    of the default guest group, 0 when there is none. *)
Record serverDeps := {
  dep_perms : option PermSource;
  dep_state : option Manager;
  dep_guest_group : Z;
}.

Definition guestGroupSet (deps : serverDeps) : result permError (option PermissionSet) :=
  match dep_perms deps with
  | None => Ok None
  | Some src =>
      if dep_guest_group deps =? 0 then Ok None
      else let? set := result_map_err errLoadingGuestGroup
             (LoadGroupPermissions (PermSource := src) (dep_guest_group deps)) in
           Ok (Some set)
  end.

Definition permCheckerFor (deps : serverDeps) (client : connClient) : result permError permChecker :=
  match dep_perms deps with
  | None => Err errPermsUnavailable
  | Some src =>
      let channelID :=
        match dep_state deps with
        | Some st => match GetClient (conn_id client) st with Some sc => cl_ChannelID sc | None => 0 end
        | None => 0
        end in
      if conn_userID client =? 0 then
        let tp := NewTieredPermissions in
        let? tp :=
          if negb (channelID =? 0) then
            let? loaded := result_map_err errLoadingGuestChannel
              (LoadForClient (PermSource := src) 0 channelID) in
            Ok (match TieredPermissions_Get loaded TierChannel with
                | Some channel => TieredPermissions_Set tp TierChannel channel
                | None => tp
                end)
          else Ok tp in
        let? set := guestGroupSet deps in
        let tp := match set with
                  | Some set => TieredPermissions_Set tp TierServerGroup set
                  | None => tp
                  end in
        Ok {| pc_tp := tp; pc_admin := false; pc_guest := true |}
      else
        let? tp := result_map_err errLoadingPermissions
          (LoadForClient (PermSource := src) (conn_userID client) channelID) in
        Ok {| pc_tp := tp; pc_admin := conn_isAdmin client; pc_guest := false |}
  end.

(** [errors.Is(err, ErrPermissionNotSet)] is the only error [Resolve] returns. *)
Definition granted_ (p : permChecker) (key : PermissionKey) : bool :=
  if pc_admin p then true
  else match ResolveBool (pc_tp p) key with Ok (ok, _) => ok | Err _ => false end.

Definition powerAtLeast (p : permChecker) (key : PermissionKey) (needed : Z) : bool :=
  if pc_admin p then true
  else match IsGranted (pc_tp p) key needed with Ok (ok, _) => ok | Err _ => false end.

Definition neededPower (p : permChecker) (key : PermissionKey) : Z :=
  match ResolveInt (pc_tp p) key with Ok (v, _) => v | Err _ => 0 end.

Definition power (p : permChecker) (key : PermissionKey) : Z :=
  match ResolveInt (pc_tp p) key with Ok (v, _) => v | Err _ => 0 end.

Definition notNegated (p : permChecker) (key : PermissionKey) : bool :=
  if pc_admin p then true
  else match Resolve (pc_tp p) key with
       | Err ErrPermissionNotSet => true
       | Ok (perm, _) => negb (Negate perm)
       end.

Definition joinAllowed (p : permChecker) (needed : Z) : bool :=
  if pc_admin p then true else needed <=? power p PermissionKeyChannelJoinPower.

Definition talkAllowed (p : permChecker) : bool :=
  if pc_admin p then true
  else notNegated p PermissionKeyClientTalkPower &&
       (neededPower p PermissionKeyClientNeededTalkPower <=? power p PermissionKeyClientTalkPower).

Definition whisperAllowed (p : permChecker) : bool :=
  if pc_guest p then false else notNegated p PermissionKeyClientWhisperPower.

Definition videoPublishAllowed (p : permChecker) : bool :=
  if pc_admin p then true
  else match Resolve (pc_tp p) PermissionKeyClientVideoPublish with
       | Err ErrPermissionNotSet => true
       | Ok (perm, _) => negb (Negate perm) && negb (Value perm =? 0)
       end.

Definition ftUploadAllowed (p : permChecker) : bool :=
  if pc_guest p then false else notNegated p PermissionKeyFTFileUploadPower.

Definition allowedByDefault (p : permChecker) (key : PermissionKey) : bool :=
  if pc_admin p then true
  else match Resolve (pc_tp p) key with
       | Err ErrPermissionNotSet => true
       | Ok (perm, _) => negb (Negate perm) && negb (Value perm =? 0)
       end.

Definition ftDownloadAllowed (p : permChecker) : bool :=
  notNegated p PermissionKeyFTFileDownloadPower.

(** ** Lemmas *)

(** The entry that decides [key]: that of the first tier, in the evaluation
    order, that has one. *)
Definition deciding (tp : TieredPermissions) (key : PermissionKey) : option Permission :=
  head (omap (λ t, tier_entry tp t key) tierOrder).

Lemma Resolve_deciding tp key :
  match Resolve tp key with
  | Ok (q, _) => ∃ p, deciding tp key = Some p ∧ q = resolved p
  | Err ErrPermissionNotSet => deciding tp key = None
  end.
Proof.
  unfold Resolve, deciding. induction tierOrder as [|t order IH]; [done|].
  rewrite Resolve_tiers_cons. simpl. destruct (tier_entry tp t key) as [p|]; [by eauto|exact IH].
Qed.

Lemma tier_entry_lookup tp tp' t key :
  TieredPermissions_Get tp t = TieredPermissions_Get tp' t →
  tier_entry tp t key = tier_entry tp' t key.
Proof. intros Ht. unfold tier_entry. by rewrite Ht. Qed.

(** The value of the deciding entry, 0 for an unset or negated one. *)
Definition decided_value (tp : TieredPermissions) (key : PermissionKey) : Z :=
  from_option effective 0 (deciding tp key).

Lemma power_decided p key : power p key = decided_value (pc_tp p) key.
Proof.
  unfold power, ResolveInt, decided_value. pose proof (Resolve_deciding (pc_tp p) key) as H.
  destruct (Resolve (pc_tp p) key) as [[q t]|[]]; simpl in *.
  - by destruct H as (p0 & -> & ->).
  - by rewrite H.
Qed.

Definition negated (tp : TieredPermissions) (key : PermissionKey) : Prop :=
  ∃ e, deciding tp key = Some e ∧ Negate e = true.

Definition opened (tp : TieredPermissions) (key : PermissionKey) : Prop :=
  ∀ e, deciding tp key = Some e → Negate e = false ∧ Value e ≠ 0.

Lemma notNegated_iff p key :
  notNegated p key = true ↔ pc_admin p = true ∨ ¬ negated (pc_tp p) key.
Proof.
  unfold notNegated, negated. destruct (pc_admin p); [tauto|].
  pose proof (Resolve_deciding (pc_tp p) key) as H.
  destruct (Resolve (pc_tp p) key) as [[q t]|[]].
  - destruct H as (e & -> & ->). simpl. rewrite negb_true_iff. split.
    + intros Hn. right. intros (e' & [= <-] & ?). congruence.
    + intros [?|Hn]; [done|]. apply not_true_is_false. intros He. apply Hn. eauto.
  - rewrite H. split; [|done]. intros _. right. by intros (? & ? & _).
Qed.

Lemma opened_iff p key :
  allowedByDefault p key = true ↔ pc_admin p = true ∨ opened (pc_tp p) key.
Proof.
  unfold allowedByDefault, opened. destruct (pc_admin p); [tauto|].
  pose proof (Resolve_deciding (pc_tp p) key) as H.
  destruct (Resolve (pc_tp p) key) as [[q t]|[]].
  - destruct H as (e & -> & ->). simpl. unfold effective.
    rewrite andb_true_iff, !negb_true_iff, Z.eqb_neq. split.
    + intros [Hn Hv]. right. intros e' [= <-]. by rewrite Hn in Hv.
    + intros [?|Ho]; [done|]. destruct (Ho e eq_refl) as [Hn Hv]. by rewrite Hn.
  - rewrite H. split; [|done]. intros _. right. done.
Qed.

Lemma joinAllowed_iff p needed :
  joinAllowed p needed = true ↔
  pc_admin p = true ∨ needed ≤ decided_value (pc_tp p) PermissionKeyChannelJoinPower.
Proof.
  unfold joinAllowed. rewrite power_decided. destruct (pc_admin p); [tauto|].
  rewrite Z.leb_le. intuition discriminate.
Qed.

(** ** Properties *)

(** Who passes which gate. Administrators pass every gate but the guest
    refusals. For anyone else only the entry of the first tier that sets the key
    counts, a negated entry as 0: a privileged boolean needs a nonzero entry and a
    privileged power an entry of at least the needed value, both refused when
    unset; joining and talking compare the value with 0 for unset, and talking
    also refuses a negated entry; the open gates (video, defaults) refuse an
    explicit zero or negation only, and whispers and transfers a negation only. *)
Theorem gates_decided p key needed :
  let tp := pc_tp p in
  let v := decided_value tp in
  let admin := pc_admin p = true in
  (granted_ p key = true ↔ admin ∨ v key ≠ 0) ∧
  (powerAtLeast p key needed = true ↔ admin ∨ is_Some (deciding tp key) ∧ needed ≤ v key) ∧
  (joinAllowed p needed = true ↔ admin ∨ needed ≤ v PermissionKeyChannelJoinPower) ∧
  (talkAllowed p = true ↔ admin ∨ ¬ negated tp PermissionKeyClientTalkPower ∧
     v PermissionKeyClientNeededTalkPower ≤ v PermissionKeyClientTalkPower) ∧
  (videoPublishAllowed p = true ↔ admin ∨ opened tp PermissionKeyClientVideoPublish) ∧
  (allowedByDefault p key = true ↔ admin ∨ opened tp key) ∧
  (whisperAllowed p = true ↔
     pc_guest p = false ∧ (admin ∨ ¬ negated tp PermissionKeyClientWhisperPower)) ∧
  (ftUploadAllowed p = true ↔
     pc_guest p = false ∧ (admin ∨ ¬ negated tp PermissionKeyFTFileUploadPower)) ∧
  (ftDownloadAllowed p = true ↔ admin ∨ ¬ negated tp PermissionKeyFTFileDownloadPower).
Proof.
  cbv zeta. split_and!.
  - unfold granted_, ResolveBool, decided_value. destruct (pc_admin p); [tauto|].
    pose proof (Resolve_deciding (pc_tp p) key) as H.
    destruct (Resolve (pc_tp p) key) as [[q t]|[]]; simpl.
    + destruct H as (e & -> & ->). simpl. rewrite negb_true_iff, Z.eqb_neq. intuition discriminate.
    + rewrite H. simpl. intuition discriminate.
  - unfold powerAtLeast, IsGranted, ResolveInt, decided_value. destruct (pc_admin p); [tauto|].
    pose proof (Resolve_deciding (pc_tp p) key) as H.
    destruct (Resolve (pc_tp p) key) as [[q t]|[]]; simpl.
    + destruct H as (e & -> & ->). simpl. rewrite Z.leb_le. split; [by eauto|]. intros [?|[_ ?]]; done.
    + rewrite H. split; [done|]. intros [?|[[??] _]]; done.
  - apply joinAllowed_iff.
  - unfold talkAllowed. destruct (pc_admin p) eqn:Ha; [tauto|].
    rewrite andb_true_iff, notNegated_iff, Z.leb_le, Ha.
    change (neededPower p) with (power p). rewrite !power_decided. intuition discriminate.
  - apply (opened_iff p PermissionKeyClientVideoPublish).
  - apply opened_iff.
  - unfold whisperAllowed. destruct (pc_guest p); [intuition discriminate|].
    rewrite notNegated_iff. tauto.
  - unfold ftUploadAllowed. destruct (pc_guest p); [intuition discriminate|].
    rewrite notNegated_iff. tauto.
  - apply notNegated_iff.
Qed.


(** A guest's checker is never an administrator's and holds nothing but the
    rules of the channel it is in and, when one is configured, the default guest
    group: no client-specific, channel-group or channel-client row applies to it,
    and it may neither whisper nor upload. When a load fails, no checker is made. *)
Theorem guest_checker_confined src st guest client p :
  let deps := {| dep_perms := Some src; dep_state := st; dep_guest_group := guest |} in
  conn_userID client = 0 → permCheckerFor deps client = Ok p →
  pc_admin p = false ∧ whisperAllowed p = false ∧ ftUploadAllowed p = false ∧
  (∀ t, t ≠ TierChannel → t ≠ TierServerGroup → TieredPermissions_Get (pc_tp p) t = None) ∧
  (guest = 0 → TieredPermissions_Get (pc_tp p) TierServerGroup = None) ∧
  (guest ≠ 0 → ∃ set, LoadGroupPermissions guest = Ok set ∧
     TieredPermissions_Get (pc_tp p) TierServerGroup = Some set).
Proof.
  intros deps Hu. unfold permCheckerFor, guestGroupSet. simpl. rewrite Hu. simpl.
  generalize (match st with
    | Some st0 => match GetClient (conn_id client) st0 with Some sc => cl_ChannelID sc | None => 0 end
    | None => 0 end). intros c Hp.
  match type of Hp with result_bind ?m _ = _ => assert (∀ tp, m = Ok tp →
    ∀ t, t ≠ TierChannel → TieredPermissions_Get tp t = None) as Htp end.
  { intros tp. destruct (negb (c =? 0)); [|by intros [= <-]].
    destruct (LoadForClient 0 c) as [loaded|]; simpl; [|done]. intros [= <-] t Ht.
    destruct (TieredPermissions_Get loaded TierChannel); [|done].
    unfold TieredPermissions_Get, TieredPermissions_Set. simpl. by rewrite lookup_insert_ne. }
  match type of Hp with result_bind ?m _ = _ => destruct m as [tp|] end; [|done].
  specialize (Htp tp eq_refl). simpl in Hp.
  destruct (Z.eqb_spec guest 0) as [->|Hg]; simpl in Hp.
  - injection Hp as <-. unfold whisperAllowed, ftUploadAllowed. simpl. split_and!; try done; auto.
  - destruct (LoadGroupPermissions guest) as [set|]; simpl in Hp; [|done].
    injection Hp as <-. unfold whisperAllowed, ftUploadAllowed. simpl. split_and!; try done.
    + intros t Ht Hs. unfold TieredPermissions_Get, TieredPermissions_Set in *. simpl.
      rewrite lookup_insert_ne by done. by apply Htp.
    + intros _. exists set. split; [done|].
      unfold TieredPermissions_Get, TieredPermissions_Set. simpl. apply lookup_insert_eq.
Qed.

(** ** Witnesses *)

#[local] Existing Instance stdpp_range.

Definition plain_checker : permChecker :=
  {| pc_tp := TieredPermissions_Set NewTieredPermissions TierServerGroup
       {[ "i_channel_join_power"%string :=
          Some (mkPermission "i_channel_join_power" PermissionTypeInteger 80 0 false false) ]};
     pc_admin := false; pc_guest := false |}.


Definition guest_client : connClient := {| conn_id := "g"; conn_userID := 0; conn_isAdmin := true |}.

Lemma guest_checker_confined_witness :
  ∃ p, permCheckerFor
    {| dep_perms := Some (tables_source (small_db 50)); dep_state := None; dep_guest_group := 1 |}
    guest_client = Ok p ∧ whisperAllowed p = false.
Proof.
  eexists. split; [reflexivity|].
  eapply (guest_checker_confined (tables_source (small_db 50)) None 1 guest_client); reflexivity.
Defined.
