(* ===== verification/ChannelManager.v ===== *)
(** * The channel lifecycle manager ([internal/channels])

    [types.go] and [manager.go]: creation, deletion of whole subtrees, type and
    attribute updates, moves, and the timers that delete an empty temporary
    channel after a grace period.

    The manager coordinates the [channels] table, the in-memory state and the
    timers. A lifecycle operation holds the tree lock and the locks of the
    channels it touches for its whole duration, so it is one function on
    [CM]. What the database answers is not under the program's control: every
    database call takes its outcome from the list [cm_oracle] ([Good] when the
    list is exhausted), and a call that reports an error may or may not have
    taken effect, the ambiguity the source is written to survive. Rows are kept
    in the shape the SELECT statements return them, NULL columns as zero
    values.

    A timer that fired runs [cleanupCallback] later, possibly after it was
    stopped or replaced: a callback carries the token it was created with, and
    may run at any time. *)

From S2P Require Import Prelude StateManager.

(** ** types.go *)

Definition ChannelTypeTemporary : Z := 0.
Definition ChannelTypeSemiPermanent : Z := 1.
Definition ChannelTypePermanent : Z := 2.

Definition ChannelType_String (t : Z) : string :=
  if t =? ChannelTypeTemporary then "temporary"
  else if t =? ChannelTypeSemiPermanent then "semi-permanent"
  else if t =? ChannelTypePermanent then "permanent"
  else "unknown".

Definition ChannelType_Valid (t : Z) : bool :=
  (t =? ChannelTypeTemporary) || (t =? ChannelTypeSemiPermanent) || (t =? ChannelTypePermanent).

Definition ParseChannelType (value : Z) : option Z :=
  if value =? ChannelTypeTemporary then Some ChannelTypeTemporary
  else if value =? ChannelTypeSemiPermanent then Some ChannelTypeSemiPermanent
  else if value =? ChannelTypePermanent then Some ChannelTypePermanent
  else None.

Record ChannelSpec := {
  spec_Name : string;
  spec_Topic : string;
  spec_ParentID : Z;
  spec_OrderIndex : Z;
  spec_Type : Z;
  spec_MaxClients : Z;
  spec_Password : string;
  spec_NeededJoinPower : Z;
  spec_CreatedBy : Z;
  spec_OpusBitrate : Z;
  spec_OpusFEC : bool;
  spec_OpusDTX : bool;
  spec_OpusStereo : bool;
}.

(** The editable fields; [None] leaves a column untouched. *)
Record ChannelEdit := {
  ed_Topic : option string;
  ed_MaxClients : option Z;
  ed_OpusBitrate : option Z;
  ed_OpusFEC : option bool;
  ed_OpusDTX : option bool;
  ed_OpusStereo : option bool;
  ed_SlowModeSeconds : option Z;
  ed_Description : option string;
  ed_NeededJoinPower : option Z;
  ed_OrderIndex : option Z;
  ed_ParentID : option Z;
  ed_InheritPermissions : option bool;
}.

Definition Validate (s : ChannelSpec) : bool :=
  negb (String.eqb (spec_Name s) "") && ChannelType_Valid (spec_Type s) &&
  (if 0 <? spec_MaxClients s then spec_MaxClients s <=? 2 ^ 31 - 1 else true).

(** ** manager.go: state *)

Definition DefaultCleanupDelay : Z := 60 * second.

Inductive ChanError :=
| CNotFound
| CInvalidSpec
| CInvalidMove
| CDatabase (what : string)
| CState (e : StateError).

Record DeleteResult := {
  dr_RootID : Z;
  dr_ChannelIDs : list Z;
  dr_SubscriberIDs : list string;
  dr_Members : list (string * Z);
}.

Definition no_delete : DeleteResult :=
  {| dr_RootID := 0; dr_ChannelIDs := []; dr_SubscriberIDs := []; dr_Members := [] |}.

(** A [*cleanupTimer]: its identity, its generation and its delay. *)
Record cleanupTimer := { tm_ptr : Z; tm_generation : Z; tm_delay : Z }.

Inductive outcome :=
| Good
| Bad            (* an error is reported, nothing happened *)
| BadApplied.    (* an error is reported, the statement took effect *)

Record CM := {
  cm_state : Manager;
  cm_db : gmap Z Channel;
  cm_nextID : Z;                       (* the sequence of channels.id *)
  cm_adminGroup : option Z;            (* the channel group "Channel Admin" *)
  cm_groupMembers : list (Z * Z * Z);  (* group, user, channel *)
  cm_timers : gmap Z cleanupTimer;
  cm_nextGeneration : Z;
  cm_nextPtr : Z;
  cm_delay : Z;
  cm_oracle : list outcome;
  cm_notified : list DeleteResult;     (* calls of the cleanup handler *)
}.

Definition set_state (s : Manager) (c : CM) : CM :=
  {| cm_state := s; cm_db := cm_db c; cm_nextID := cm_nextID c; cm_adminGroup := cm_adminGroup c;
     cm_groupMembers := cm_groupMembers c; cm_timers := cm_timers c;
     cm_nextGeneration := cm_nextGeneration c; cm_nextPtr := cm_nextPtr c; cm_delay := cm_delay c;
     cm_oracle := cm_oracle c; cm_notified := cm_notified c |}.
Definition set_db (d : gmap Z Channel) (c : CM) : CM :=
  {| cm_state := cm_state c; cm_db := d; cm_nextID := cm_nextID c; cm_adminGroup := cm_adminGroup c;
     cm_groupMembers := cm_groupMembers c; cm_timers := cm_timers c;
     cm_nextGeneration := cm_nextGeneration c; cm_nextPtr := cm_nextPtr c; cm_delay := cm_delay c;
     cm_oracle := cm_oracle c; cm_notified := cm_notified c |}.
Definition set_nextID (n : Z) (c : CM) : CM :=
  {| cm_state := cm_state c; cm_db := cm_db c; cm_nextID := n; cm_adminGroup := cm_adminGroup c;
     cm_groupMembers := cm_groupMembers c; cm_timers := cm_timers c;
     cm_nextGeneration := cm_nextGeneration c; cm_nextPtr := cm_nextPtr c; cm_delay := cm_delay c;
     cm_oracle := cm_oracle c; cm_notified := cm_notified c |}.
Definition set_groupMembers (l : list (Z * Z * Z)) (c : CM) : CM :=
  {| cm_state := cm_state c; cm_db := cm_db c; cm_nextID := cm_nextID c;
     cm_adminGroup := cm_adminGroup c;
     cm_groupMembers := l; cm_timers := cm_timers c;
     cm_nextGeneration := cm_nextGeneration c; cm_nextPtr := cm_nextPtr c; cm_delay := cm_delay c;
     cm_oracle := cm_oracle c; cm_notified := cm_notified c |}.
Definition set_timers (t : gmap Z cleanupTimer) (c : CM) : CM :=
  {| cm_state := cm_state c; cm_db := cm_db c; cm_nextID := cm_nextID c;
     cm_adminGroup := cm_adminGroup c; cm_groupMembers := cm_groupMembers c; cm_timers := t;
     cm_nextGeneration := cm_nextGeneration c; cm_nextPtr := cm_nextPtr c; cm_delay := cm_delay c;
     cm_oracle := cm_oracle c; cm_notified := cm_notified c |}.
Definition set_counters (g p : Z) (c : CM) : CM :=
  {| cm_state := cm_state c; cm_db := cm_db c; cm_nextID := cm_nextID c;
     cm_adminGroup := cm_adminGroup c; cm_groupMembers := cm_groupMembers c;
     cm_timers := cm_timers c; cm_nextGeneration := g; cm_nextPtr := p; cm_delay := cm_delay c;
     cm_oracle := cm_oracle c; cm_notified := cm_notified c |}.
Definition set_delay (d : Z) (c : CM) : CM :=
  {| cm_state := cm_state c; cm_db := cm_db c; cm_nextID := cm_nextID c;
     cm_adminGroup := cm_adminGroup c; cm_groupMembers := cm_groupMembers c;
     cm_timers := cm_timers c; cm_nextGeneration := cm_nextGeneration c; cm_nextPtr := cm_nextPtr c;
     cm_delay := d; cm_oracle := cm_oracle c; cm_notified := cm_notified c |}.
Definition set_oracle (o : list outcome) (c : CM) : CM :=
  {| cm_state := cm_state c; cm_db := cm_db c; cm_nextID := cm_nextID c;
     cm_adminGroup := cm_adminGroup c; cm_groupMembers := cm_groupMembers c;
     cm_timers := cm_timers c; cm_nextGeneration := cm_nextGeneration c; cm_nextPtr := cm_nextPtr c;
     cm_delay := cm_delay c; cm_oracle := o; cm_notified := cm_notified c |}.
Definition set_notified (l : list DeleteResult) (c : CM) : CM :=
  {| cm_state := cm_state c; cm_db := cm_db c; cm_nextID := cm_nextID c;
     cm_adminGroup := cm_adminGroup c; cm_groupMembers := cm_groupMembers c;
     cm_timers := cm_timers c; cm_nextGeneration := cm_nextGeneration c; cm_nextPtr := cm_nextPtr c;
     cm_delay := cm_delay c; cm_oracle := cm_oracle c; cm_notified := l |}.

(** ** Stateful computations with errors: what was done before an error stays *)

Abbreviation M A := (CM → CM * result ChanError A).

Definition mret {A} (a : A) : M A := λ c, (c, Ok a).
Definition mthrow {A} (e : ChanError) : M A := λ c, (c, Err e).
Definition mbind_ {A B} (m : M A) (k : A → M B) : M B := λ c,
  match m c with
  | (c', Ok a) => k a c'
  | (c', Err e) => (c', Err e)
  end.
Definition mget : M CM := λ c, (c, Ok c).
Definition mput (f : CM → CM) : M unit := λ c, (f c, Ok tt).

(** The error as a value, for code that inspects it. *)
Definition mtry {A} (m : M A) : M (result ChanError A) := λ c,
  let '(c', r) := m c in (c', Ok r).

Notation "'do' x '<-' m ';' k" := (mbind_ m (λ x, k))
  (at level 10, x pattern, m at level 100, k at level 200) : go_scope.

(** The outcome of the next database call. *)
Definition db_call : M outcome := λ c,
  match cm_oracle c with
  | [] => (c, Ok Good)
  | o :: os => (set_oracle os c, Ok o)
  end.

(** A read: its value, or an error. *)
Definition db_read {A} (what : string) (f : gmap Z Channel → A) : M A :=
  do o <- db_call;
  match o with
  | Good => do c <- mget; mret (f (cm_db c))
  | _ => mthrow (CDatabase what)
  end.

(** ** Subtrees *)

(** The map from parents to children that [stateChannelSubtreeIDs] builds. *)
Definition children_of (chs : list Channel) : gmap Z (list Z) :=
  foldl (λ acc ch, <[ch_ParentID ch := default [] (acc !! ch_ParentID ch) ++ [ch_ChannelID ch]]> acc)
    ∅ chs.

(** The breadth-first search. Every id is expanded at most once, so the queue
    receives the root and each channel at most once: one iteration per channel
    and one for the root are enough ([bfs_fuel]). *)
Fixpoint bfs (fuel : nat) (children : gmap Z (list Z)) (present : gset Z)
  (queue : list Z) (seen : gset Z) (ids : list Z) : list Z :=
  match fuel, queue with
  | S fuel', id :: queue' =>
      if bool_decide (id ∈ seen) then bfs fuel' children present queue' seen ids
      else bfs fuel' children present (queue' ++ default [] (children !! id))
             ({[id]} ∪ seen) (if bool_decide (id ∈ present) then ids ++ [id] else ids)
  | _, _ => ids
  end.

Definition subtree_ids (chs : list Channel) (id : Z) : list Z :=
  bfs (S (length chs)) (children_of chs) (list_to_set (ch_ChannelID <$> chs)) [id] ∅ [].

Definition mergeChannelIDs (groups : list (list Z)) : list Z :=
  sort_by Z.le (elements (list_to_set (filter (λ id, 0 < id) (concat groups)) : gset Z)).

(** The closure the recursive query computes, and the cascade of [DELETE]: a
    NULL parent joins nothing. *)
Definition db_subtree (db : gmap Z Channel) (id : Z) : list Z :=
  match db !! id with
  | None => []
  | Some _ =>
      sort_by Z.le (subtree_ids (filter (λ ch, ch_ParentID ch ≠ 0 ∨ ch_ChannelID ch = id)
                                   (map_to_list db).*2) id)
  end.

Definition db_delete (id : Z) (db : gmap Z Channel) : gmap Z Channel :=
  filter (λ kv, kv.1 ∉ db_subtree db id) db.

Section manager.

Context `{!∀ V, MapRange Z V}.

(** [auth.HashPassword]: a salted hash, or an error of the random source. *)
Variable HashPassword : string → option string.

Definition stateChannelSubtreeIDs (channelID : Z) (st : Manager) : list Z :=
  subtree_ids (ListChannels st) channelID.

(** ** Timers *)

Definition cleanupDelayLocked (c : CM) : Z :=
  if cm_delay c <=? 0 then DefaultCleanupDelay else cm_delay c.

Definition SetCleanupDelay (d : Z) : M unit :=
  mput (set_delay (if d <=? 0 then DefaultCleanupDelay else d)).

Definition startCleanupWatcherLocked (channelID : Z) (c : CM) : CM :=
  let generation := u64 (cm_nextGeneration c + 1) in
  let entry := {| tm_ptr := cm_nextPtr c; tm_generation := generation;
                  tm_delay := cleanupDelayLocked c |} in
  set_timers (<[channelID := entry]> (cm_timers c))
    (set_counters generation (cm_nextPtr c + 1) c).

Definition cancelCleanupLocked (channelID : Z) (c : CM) : CM :=
  match cm_timers c !! channelID with
  | Some _ => set_timers (delete channelID (cm_timers c)) c
  | None => c
  end.

(** The test for an empty temporary leaf. *)
Definition cleanable (channelID : Z) (st : Manager) : bool :=
  match GetChannel channelID st with
  | Some ch =>
      (ch_ChannelType ch =? ChannelTypeTemporary) &&
      bool_decide (ChannelMembers channelID st = []) &&
      (length (stateChannelSubtreeIDs channelID st) =? 1)%nat
  | None => false
  end.

Definition reconcileCleanupWatcherLocked (channelID : Z) (c : CM) : CM :=
  if cleanable channelID (cm_state c) then startCleanupWatcherLocked channelID c
  else cancelCleanupLocked channelID c.

Definition reconcile (channelID : Z) : M unit := mput (reconcileCleanupWatcherLocked channelID).
Definition cancel (channelID : Z) : M unit := mput (cancelCleanupLocked channelID).

Definition reconcile_all (ids : list Z) : M unit :=
  mput (λ c, foldl (λ c id, reconcileCleanupWatcherLocked id c) c ids).

Definition OnClientLeftChannel (channelID : Z) : M unit := reconcile channelID.
Definition StartCleanupWatcher (channelID : Z) : M unit := reconcile channelID.
Definition CancelCleanup (channelID : Z) : M unit := cancel channelID.
Definition Close : M unit := mput (set_timers ∅).
Definition CleanupTimersCount (c : CM) : Z := Z.of_nat (size (cm_timers c)).

(** ** Reading channels back *)

Definition channelExists (channelID : Z) : M unit :=
  do found <- db_read "channel exists" (λ db, db !! channelID);
  match found with Some _ => mret tt | None => mthrow CNotFound end.

Definition loadChannelState (channelID : Z) : M Channel :=
  do found <- db_read "loading committed channel" (λ db, db !! channelID);
  match found with
  | None => mthrow CNotFound
  | Some ch =>
      match ParseChannelType (ch_ChannelType ch) with
      | None => mthrow (CDatabase "invalid stored type")
      | Some _ => mret ch
      end
  end.

(** [channelSubtree]: the ids and the root's parent, 0 when there are no rows. *)
Definition loadChannelSubtree (channelID : Z) : M (list Z * Z) :=
  db_read "discovering channel subtree" (λ db,
    (db_subtree db channelID, match db !! channelID with Some ch => ch_ParentID ch | None => 0 end)).

Definition persisted_update (ch : Channel) : ChannelUpdate := {|
  up_ParentID := Some (ch_ParentID ch);
  up_Name := Some (ch_Name ch);
  up_Topic := Some (ch_Topic ch);
  up_OrderIndex := Some (ch_OrderIndex ch);
  up_ChannelType := Some (ch_ChannelType ch);
  up_MaxClients := Some (ch_MaxClients ch);
  up_PasswordHash := Some (ch_PasswordHash ch);
  up_NeededJoinPower := Some (ch_NeededJoinPower ch);
  up_HasIcon := None;
  up_HasPassword := Some (negb (String.eqb (ch_PasswordHash ch) ""));
  up_OpusBitrate := Some (ch_OpusBitrate ch);
  up_OpusFEC := Some (ch_OpusFEC ch);
  up_OpusDTX := Some (ch_OpusDTX ch);
  up_OpusStereo := Some (ch_OpusStereo ch);
  up_SlowModeSeconds := Some (ch_SlowModeSeconds ch);
  up_Description := Some (ch_Description ch);
  up_InheritPermissions := Some (ch_InheritPermissions ch);
|}.

Definition mirrorPersistedChannel (ch : Channel) : M unit := mput (λ c,
  let '(st, ok) := state_UpdateChannel (ch_ChannelID ch) (persisted_update ch) (cm_state c) in
  if ok : bool then set_state st c else set_state (AddChannel (Some ch) (cm_state c)) c).

Definition reconcilePersistedChannel (channelID : Z) : M Channel :=
  do ch <- loadChannelState channelID;
  do _ <- mirrorPersistedChannel ch;
  mret ch.

(** [true] when the channel had to be reloaded. *)
Definition mirrorChannelUpdate (channelID : Z) (u : ChannelUpdate) : M bool :=
  do c <- mget;
  let '(st, ok) := state_UpdateChannel channelID u (cm_state c) in
  if ok : bool then do _ <- mput (set_state st); mret false
  else
    do ch <- loadChannelState channelID;
    do _ <- mput (λ c, set_state (AddChannel (Some ch) (cm_state c)) c);
    do c <- mget;
    match GetChannel channelID (cm_state c) with
    | Some _ => mret true
    | None => mthrow (CDatabase "reloaded channel is still absent from state")
    end.

(** ** Deletion *)

(** The loop over the state's subtree: the ids without a row, and the ids whose
    timers the repairs may have affected. *)
Fixpoint state_only (databaseSet : gset Z) (stateIDs : list Z) (missing timerIDs : list Z)
  : M (list Z * list Z) :=
  match stateIDs with
  | [] => mret (missing, timerIDs)
  | id :: rest =>
      if bool_decide (id ∈ databaseSet) then state_only databaseSet rest missing timerIDs
      else
        do c <- mget;
        let before := GetChannel id (cm_state c) in
        do r <- mtry (loadChannelState id);
        match r with
        | Err CNotFound => state_only databaseSet rest (missing ++ [id]) timerIDs
        | Err _ => mthrow (CDatabase "checking state-only channel")
        | Ok persisted =>
            do _ <- mirrorPersistedChannel persisted;
            let timerIDs := timerIDs ++ [id; ch_ParentID persisted] in
            let timerIDs := match before with
                            | Some b => timerIDs ++ [ch_ParentID b]
                            | None => timerIDs
                            end in
            state_only databaseSet rest missing timerIDs
        end
  end.

Definition reconcileStateOnlyDescendants (databaseIDs stateIDs : list Z) : M (list Z) :=
  do (missing, timerIDs) <- state_only (list_to_set databaseIDs) stateIDs [] [];
  do _ <- reconcile_all (mergeChannelIDs [timerIDs]);
  mret missing.

(** [DELETE FROM channels WHERE id = $1] and the reading of its row count; an
    error is confirmed by looking whether the subtree is gone. *)
Definition delete_rows (channelID : Z) : M unit :=
  do o <- db_call;
  match o with
  | Good =>
      do _ <- mput (λ c, set_db (db_delete channelID (cm_db c)) c);
      do o <- db_call;
      match o with
      | Good => mret tt
      | _ => mthrow (CDatabase "reading deleted channel row count")
      end
  | _ =>
      do _ <- mput (λ c, match o with
                         | BadApplied => set_db (db_delete channelID (cm_db c)) c
                         | _ => c
                         end);
      do remaining <- loadChannelSubtree channelID;
      match remaining.1 with
      | [] => mret tt
      | _ => mthrow (CDatabase "deleting channel")
      end
  end.

Definition deleteChannelLocked (channelID : Z) : M DeleteResult :=
  do c <- mget;
  let stateParentID :=
    match GetChannel channelID (cm_state c) with Some ch => ch_ParentID ch | None => 0 end in
  do (databaseIDs, rootParentID) <- loadChannelSubtree channelID;
  do c <- mget;
  let stateIDs := stateChannelSubtreeIDs channelID (cm_state c) in
  if bool_decide (databaseIDs = []) && bool_decide (stateIDs = []) then mthrow CNotFound
  else
    do missing <- reconcileStateOnlyDescendants databaseIDs stateIDs;
    if bool_decide (databaseIDs = []) && bool_decide (missing = []) then mthrow CNotFound
    else
      let channelIDs := mergeChannelIDs [databaseIDs; missing] in
      let parentID := if bool_decide (databaseIDs = []) then stateParentID else rootParentID in
      do _ <- delete_rows channelID;
      do _ <- mput (λ c, foldl (λ c id, cancelCleanupLocked id c) c channelIDs);
      do c <- mget;
      let '(st, removed) := RemoveChannels channelIDs (cm_state c) in
      do _ <- mput (set_state st);
      let res := {| dr_RootID := channelID; dr_ChannelIDs := channelIDs;
                    dr_SubscriberIDs := rr_SubscriberIDs removed;
                    dr_Members := (λ r, (rm_ClientID r, rm_ChannelID r)) <$> rr_Members removed |} in
      do _ <- (if negb (parentID =? 0) then reconcile parentID else mret tt);
      mret res.

Definition DeleteChannelSubtree (channelID : Z) : M DeleteResult := deleteChannelLocked channelID.

Definition DeleteChannel (channelID : Z) : M unit :=
  do _ <- DeleteChannelSubtree channelID; mret tt.

(** ** Creation and loading *)

Definition assignChannelAdmin (userID channelID : Z) : M unit :=
  if userID =? 0 then mret tt
  else
    do o <- db_call;
    do c <- mget;
    match o, cm_adminGroup c with
    | Good, Some g =>
        do o <- db_call;
        match o with
        | Bad => mret tt
        | _ => mput (λ c, set_groupMembers (cm_groupMembers c ++ [(g, userID, channelID)]) c)
        end
    | _, _ => mret tt
    end.

(** The row [INSERT] stores and the channel registered in state: a NULL
    [max_clients] reads back as 0. *)
Definition spec_channel (spec : ChannelSpec) (id maxClients createdAt : Z) (hash : string) : Channel := {|
  ch_ChannelID := id;
  ch_ParentID := spec_ParentID spec;
  ch_Name := spec_Name spec;
  ch_Topic := spec_Topic spec;
  ch_OrderIndex := spec_OrderIndex spec;
  ch_ChannelType := spec_Type spec;
  ch_MaxClients := maxClients;
  ch_ClientCount := 0;
  ch_CreatedAt := createdAt;
  ch_PasswordHash := hash;
  ch_NeededJoinPower := spec_NeededJoinPower spec;
  ch_HasIcon := false;
  ch_HasPassword := false;
  ch_OpusBitrate := spec_OpusBitrate spec;
  ch_OpusFEC := spec_OpusFEC spec;
  ch_OpusDTX := spec_OpusDTX spec;
  ch_OpusStereo := spec_OpusStereo spec;
  ch_SlowModeSeconds := 0;
  ch_Description := "";
  ch_InheritPermissions := false;
|}.

Definition insert_row (spec : ChannelSpec) (createdAt : Z) (hash : string) (c : CM) : CM :=
  let maxClients := if 0 <? spec_MaxClients spec then spec_MaxClients spec else 0 in
  set_nextID (cm_nextID c + 1)
    (set_db (<[cm_nextID c := spec_channel spec (cm_nextID c) maxClients createdAt hash]> (cm_db c)) c).

Definition CreateChannel (spec : ChannelSpec) (createdAt : Z) : M Z :=
  if negb (Validate spec) then mthrow CInvalidSpec
  else
    do _ <- (if negb (spec_ParentID spec =? 0) then channelExists (spec_ParentID spec) else mret tt);
    do hash <- (if negb (String.eqb (spec_Password spec) "") then
                  match HashPassword (spec_Password spec) with
                  | Some h => mret h
                  | None => mthrow (CDatabase "hashing channel password")
                  end
                else mret ""%string);
    do c <- mget;
    let channelID := cm_nextID c in
    do o <- db_call;
    match o with
    | Bad => mthrow (CDatabase "inserting channel")
    | BadApplied =>
        do _ <- mput (insert_row spec createdAt hash);
        mthrow (CDatabase "inserting channel")
    | Good =>
        do _ <- mput (insert_row spec createdAt hash);
        do _ <- mput (λ c, set_state (AddChannel
          (Some (spec_channel spec channelID (spec_MaxClients spec) createdAt hash)) (cm_state c)) c);
        do _ <- assignChannelAdmin (spec_CreatedBy spec) channelID;
        do _ <- reconcile channelID;
        do _ <- (if negb (spec_ParentID spec =? 0) then reconcile (spec_ParentID spec) else mret tt);
        mret channelID
    end.

(** The rows in the order of their ids; the scan of a row may fail. *)
Fixpoint load_rows (rows : list Channel) (count : Z) (temporaryIDs : list Z) : M (Z * list Z) :=
  match rows with
  | [] => mret (count, temporaryIDs)
  | ch :: rest =>
      do o <- db_call;
      match o with
      | Good =>
          match ParseChannelType (ch_ChannelType ch) with
          | None => mthrow (CDatabase "invalid stored type")
          | Some parsedType =>
              do _ <- mput (λ c, set_state (AddChannel (Some ch) (cm_state c)) c);
              load_rows rest (count + 1)
                (if parsedType =? ChannelTypeTemporary
                 then temporaryIDs ++ [ch_ChannelID ch] else temporaryIDs)
          end
      | _ => mthrow (CDatabase "scanning channel row")
      end
  end.

Definition rows_by_id (db : gmap Z Channel) : list Channel :=
  omap (λ id, db !! id) (sort_by Z.le (map_to_list db).*1).

Definition LoadIntoState : M Z :=
  do rows <- db_read "querying channels" rows_by_id;
  do (count, temporaryIDs) <- load_rows rows 0 [];
  do _ <- reconcile_all temporaryIDs;
  mret count.

(** ** Updates *)

(** The channel update that [SetChannelType] mirrors. *)
Definition type_update (t : Z) : ChannelUpdate :=
  mkChannelUpdate None None None None (Some t) None None None None None None None None None None
    None None.

(** What committing [f] on the row leaves; an error may hide a commit. *)
Definition commit (f : gmap Z Channel → gmap Z Channel) : M bool :=
  do o <- db_call;
  do _ <- mput (λ c, match o with Bad => c | _ => set_db (f (cm_db c)) c end);
  mret (match o with Good => true | _ => false end).

(** One call that may fail inside a transaction: an error rolls back. *)
Definition tx_step (what : string) : M unit :=
  do o <- db_call;
  match o with Good => mret tt | _ => mthrow (CDatabase what) end.

Definition SetChannelType (channelID newType : Z) : M unit :=
  if negb (ChannelType_Valid newType) then mthrow CInvalidSpec
  else
    do _ <- tx_step "beginning channel type update";
    do found <- db_read "querying channel type" (λ db, db !! channelID);
    match found with
    | None => mthrow CNotFound
    | Some row =>
        match ParseChannelType (ch_ChannelType row) with
        | None => mthrow (CDatabase "invalid stored type")
        | Some currentType =>
            do _ <- (if negb (currentType =? newType) then
                       do _ <- tx_step "updating channel type";
                       tx_step "reading updated channel type row count"
                     else mret tt);
            do committed <- commit (λ db,
              if negb (currentType =? newType) then alter (apply_update (type_update newType)) channelID db
              else db);
            if negb committed then
              do r <- mtry (reconcilePersistedChannel channelID);
              match r with
              | Err _ =>
                  do _ <- cancel channelID;
                  mthrow (CDatabase "reconciling ambiguous channel type commit")
              | Ok channel =>
                  do _ <- reconcile channelID;
                  if negb (ch_ChannelType channel =? newType)
                  then mthrow (CDatabase "committing channel type update")
                  else mret tt
              end
            else
              do r <- mtry (mirrorChannelUpdate channelID (type_update newType));
              match r with
              | Err _ =>
                  do _ <- cancel channelID;
                  mthrow (CDatabase "channel type committed but state reconciliation failed")
              | Ok _ => reconcile channelID
              end
        end
    end.

(** The walk up from the new parent; [left] is [maxChannelDepth] less the depth. *)
Fixpoint ancestry (left : nat) (first : bool) (channelID newParentID current : Z) : M unit :=
  if current =? channelID then mthrow CInvalidMove
  else
    do found <- db_read "checking channel ancestry" (λ db, db !! current);
    match found with
    | None => if first then mthrow CInvalidMove else mthrow (CDatabase "checking channel ancestry")
    | Some row =>
        match left with
        | O => mthrow CInvalidMove
        | S left' =>
            if ch_ParentID row =? 0 then mret tt
            else ancestry left' false channelID newParentID (ch_ParentID row)
        end
    end.

Definition validateMoveTx (channelID newParentID : Z) : M unit :=
  do found <- db_read "locking channel" (λ db, db !! channelID);
  match found with
  | None => mthrow CNotFound
  | Some _ =>
      if newParentID =? 0 then mret tt
      else ancestry maxChannelDepth true channelID newParentID newParentID
  end.

Definition negative (o : option Z) : bool := match o with Some z => z <? 0 | None => false end.

(** The columns a row update writes: a cleared [max_clients] is NULL, read back
    as 0; so is a root's parent. *)
Definition edit_update (e : ChannelEdit) : ChannelUpdate := {|
  up_ParentID := ed_ParentID e;
  up_Name := None;
  up_Topic := ed_Topic e;
  up_OrderIndex := ed_OrderIndex e;
  up_ChannelType := None;
  up_MaxClients := ed_MaxClients e;
  up_PasswordHash := None;
  up_NeededJoinPower := ed_NeededJoinPower e;
  up_HasIcon := None;
  up_HasPassword := None;
  up_OpusBitrate := ed_OpusBitrate e;
  up_OpusFEC := ed_OpusFEC e;
  up_OpusDTX := ed_OpusDTX e;
  up_OpusStereo := ed_OpusStereo e;
  up_SlowModeSeconds := ed_SlowModeSeconds e;
  up_Description := ed_Description e;
  up_InheritPermissions := ed_InheritPermissions e;
|}.

(** [len(sets) == 0] *)
Definition edit_empty (e : ChannelEdit) : bool :=
  match e with
  | Build_ChannelEdit None None None None None None None None None None None None => true
  | _ => false
  end.

Definition agrees {A} `{EqDecision A} (o : option A) (a : A) : bool :=
  match o with Some x => bool_decide (a = x) | None => true end.

Definition channelMatchesUpdate (ch : Channel) (e : ChannelEdit) : bool :=
  agrees (ed_ParentID e) (ch_ParentID ch) &&
  agrees (ed_Topic e) (ch_Topic ch) &&
  agrees (ed_OrderIndex e) (ch_OrderIndex ch) &&
  agrees (ed_MaxClients e) (ch_MaxClients ch) &&
  agrees (ed_NeededJoinPower e) (ch_NeededJoinPower ch) &&
  agrees (ed_OpusBitrate e) (ch_OpusBitrate ch) &&
  agrees (ed_OpusFEC e) (ch_OpusFEC ch) &&
  agrees (ed_OpusDTX e) (ch_OpusDTX ch) &&
  agrees (ed_OpusStereo e) (ch_OpusStereo ch) &&
  agrees (ed_SlowModeSeconds e) (ch_SlowModeSeconds ch) &&
  agrees (ed_Description e) (ch_Description ch) &&
  agrees (ed_InheritPermissions e) (ch_InheritPermissions ch).

Definition UpdateChannel (channelID : Z) (e : ChannelEdit) : M unit :=
  if negative (ed_OpusBitrate e) || negative (ed_MaxClients e) || negative (ed_NeededJoinPower e)
     || negative (ed_SlowModeSeconds e) then mthrow CInvalidSpec
  else if edit_empty e then mret tt
  else
    do c <- mget;
    let oldParentID :=
      match ed_ParentID e, GetChannel channelID (cm_state c) with
      | Some _, Some current => ch_ParentID current
      | _, _ => 0
      end in
    do _ <- tx_step "beginning channel update";
    do _ <- (match ed_ParentID e with
             | Some p => validateMoveTx channelID p
             | None => mret tt
             end);
    do _ <- tx_step "updating channel";
    do found <- db_read "reading updated channel row count" (λ db, db !! channelID);
    match found with
    | None => mthrow CNotFound
    | Some _ =>
        do committed <- commit (alter (apply_update (edit_update e)) channelID);
        if negb committed then
          do r <- mtry (reconcilePersistedChannel channelID);
          match r with
          | Err _ => mthrow (CDatabase "reconciling ambiguous channel update commit")
          | Ok channel =>
              do _ <- reconcile channelID;
              do _ <- (match ed_ParentID e with
                       | Some p => reconcile_all (mergeChannelIDs [[oldParentID; p; ch_ParentID channel]])
                       | None => mret tt
                       end);
              if negb (channelMatchesUpdate channel e)
              then mthrow (CDatabase "committing channel update")
              else mret tt
          end
        else
          do r <- mtry (mirrorChannelUpdate channelID (edit_update e));
          match r with
          | Err _ => mthrow (CDatabase "channel update committed but state reconciliation failed")
          | Ok reloaded =>
              do _ <- (if reloaded : bool then reconcile channelID else mret tt);
              match ed_ParentID e with
              | None => mret tt
              | Some p =>
                  do _ <- (if negb (oldParentID =? 0) && negb (oldParentID =? p)
                           then reconcile oldParentID else mret tt);
                  if negb (p =? 0) then reconcile p else mret tt
              end
          end
    end.

(** ** Clients *)

(** A [state] operation whose error is returned. *)
Definition on_state (f : Manager → Manager * result StateError unit) : M unit := λ c,
  let '(st, r) := f (cm_state c) in (set_state st c, result_map_err CState r).

Definition cm_MoveClient (clientID : string) (targetChannelID : Z) : M Z :=
  do c <- mget;
  match ClientChannelState clientID (cm_state c) with
  | None => mthrow (CState ErrClientNotFound)
  | Some (oldChannelID, _) =>
      do _ <- on_state (MoveClient clientID targetChannelID);
      do _ <- cancel targetChannelID;
      do _ <- (if negb (oldChannelID =? 0) && negb (oldChannelID =? targetChannelID)
               then reconcile oldChannelID else mret tt);
      mret oldChannelID
  end.

Definition LeaveClient (clientID : string) : M Z :=
  do c <- mget;
  match ClientChannelState clientID (cm_state c) with
  | None => mthrow (CState ErrClientNotFound)
  | Some (oldChannelID, _) =>
      if oldChannelID =? 0 then mthrow (CState ErrNotInChannel)
      else
        do _ <- on_state (LeaveChannel clientID);
        do _ <- reconcile oldChannelID;
        mret oldChannelID
  end.

Definition cm_RemoveClient (clientID : string) : M Client :=
  do c <- mget;
  match GetClient clientID (cm_state c) with
  | None => mthrow (CState ErrClientNotFound)
  | Some _ =>
      let '(st, removed) := RemoveClient clientID (cm_state c) in
      match removed with
      | None => mthrow (CState ErrClientNotFound)
      | Some removed =>
          do _ <- mput (set_state st);
          do _ <- (if negb (cl_ChannelID removed =? 0) then reconcile (cl_ChannelID removed) else mret tt);
          mret removed
      end
  end.

(** ** The timer callback *)

Definition notifyCleanupDelete (res : DeleteResult) : M unit :=
  mput (λ c, set_notified (cm_notified c ++ [res]) c).

(** The callback of the timer [expected]; errors are logged. *)
Definition cleanupCallback (channelID : Z) (expected : cleanupTimer) : M unit :=
  do c <- mget;
  match cm_timers c !! channelID with
  | Some active =>
      if negb (tm_ptr active =? tm_ptr expected) || negb (tm_generation active =? tm_generation expected)
      then mret tt
      else
        do _ <- mput (set_timers (delete channelID (cm_timers c)));
        do c <- mget;
        if negb (cleanable channelID (cm_state c)) then mret tt
        else
          do r <- mtry (deleteChannelLocked channelID);
          match r with
          | Err CNotFound => mret tt
          | Err _ => reconcile channelID
          | Ok res => if dr_RootID res =? 0 then mret tt else notifyCleanupDelete res
          end
  | None => mret tt
  end.

End manager.
