(* ===== verification/ChannelTree.v ===== *)
(** * Subtrees of the channel tree

    The breadth-first search of [internal/channels/manager.go] finds exactly the
    channels below its root, on any tree, also a cyclic or partial one. *)

From S2P Require Import Prelude StateManager StateInvariant ChannelManager.

(** [child chs a b]: a channel of [chs] has id [b] and parent [a]. *)
Definition child (chs : list Channel) (a b : Z) : Prop :=
  ∃ ch, ch ∈ chs ∧ ch_ParentID ch = a ∧ ch_ChannelID ch = b.

Abbreviation below chs := (rtc (child chs)).

Lemma children_of_snoc chs ch p :
  default [] (children_of (chs ++ [ch]) !! p) =
  default [] (children_of chs !! p) ++ (if decide (ch_ParentID ch = p) then [ch_ChannelID ch] else []).
Proof.
  unfold children_of. rewrite foldl_app. simpl. rewrite lookup_insert. case_decide; [by subst|].
  by rewrite app_nil_r.
Qed.

Lemma children_of_eq chs p :
  default [] (children_of chs !! p) = ch_ChannelID <$> filter (λ ch, ch_ParentID ch = p) chs.
Proof.
  induction chs as [|ch chs IH] using rev_ind; [done|].
  rewrite children_of_snoc, IH, filter_app, fmap_app. f_equal.
  rewrite filter_cons, filter_nil. by case_decide.
Qed.

Lemma elem_of_children chs a b : b ∈ default [] (children_of chs !! a) ↔ child chs a b.
Proof.
  rewrite children_of_eq, list_elem_of_fmap. unfold child.
  setoid_rewrite list_elem_of_filter. naive_solver.
Qed.

(** The channels whose parent has not been expanded yet. *)
Definition pending (chs : list Channel) (seen : gset Z) : list Channel :=
  filter (λ ch, ch_ParentID ch ∉ seen) chs.

Lemma pending_length chs seen : (length (pending chs seen) ≤ length chs)%nat.
Proof. apply length_filter. Qed.

Lemma pending_expand chs seen id :
  id ∉ seen →
  (length (pending chs ({[id]} ∪ seen)) + length (default [] (children_of chs !! id)) =
   length (pending chs seen))%nat.
Proof.
  intros Hid. rewrite children_of_eq, length_fmap. unfold pending.
  induction chs as [|ch chs IH]; [done|]. rewrite !filter_cons.
  destruct (decide (ch_ParentID ch = id)) as [->|Hne].
  - rewrite (decide_False (P := id ∉ _)) by set_solver.
    rewrite (decide_True (P := id ∉ seen)) by done. simpl. lia.
  - destruct (decide (ch_ParentID ch ∉ seen)).
    + rewrite decide_True by set_solver. simpl. lia.
    + rewrite decide_False by set_solver. lia.
Qed.

(** What the search has established when it still has [queue] to visit. *)
Record bfs_inv (chs : list Channel) (root : Z) (queue : list Z) (seen : gset Z) (ids : list Z) : Prop := {
  bfs_ids x : x ∈ ids ↔ x ∈ seen ∧ x ∈ ch_ChannelID <$> chs;
  bfs_nodup : NoDup ids;
  bfs_root : root ∈ seen ∨ root ∈ queue;
  bfs_closed a b : a ∈ seen → child chs a b → b ∈ seen ∨ b ∈ queue;
  bfs_reach x : x ∈ seen ∨ x ∈ queue → below chs root x;
}.

Lemma bfs_inv_skip chs root id queue seen ids :
  bfs_inv chs root (id :: queue) seen ids → id ∈ seen → bfs_inv chs root queue seen ids.
Proof.
  intros [H1 H2 H3 H4 H5] Hid. constructor; [done|done| | |].
  - set_solver.
  - intros a b Ha Hb. specialize (H4 a b Ha Hb). set_solver.
  - intros x Hx. apply H5. set_solver.
Qed.

Lemma bfs_inv_expand chs root id queue seen ids :
  bfs_inv chs root (id :: queue) seen ids → id ∉ seen →
  bfs_inv chs root (queue ++ default [] (children_of chs !! id)) ({[id]} ∪ seen)
    (if bool_decide (id ∈ (list_to_set (ch_ChannelID <$> chs) : gset Z)) then ids ++ [id] else ids).
Proof.
  intros [H1 H2 H3 H4 H5] Hid.
  assert (bool_decide (id ∈ (list_to_set (ch_ChannelID <$> chs) : gset Z)) =
    bool_decide (id ∈ ch_ChannelID <$> chs)) as ->
    by (apply bool_decide_ext, elem_of_list_to_set).
  constructor.
  - intros x. case_bool_decide.
    + rewrite elem_of_app, H1, list_elem_of_singleton, elem_of_union, elem_of_singleton.
      split; [intros [?| ->]; tauto|]. intros [[->|?] ?]; tauto.
    + rewrite H1, elem_of_union, elem_of_singleton. split; [tauto|].
      intros [[->|?] ?]; [done|tauto].
  - case_bool_decide; [|done]. apply NoDup_app. split; [done|]. split.
    + intros x Hx%H1 ->%list_elem_of_singleton. tauto.
    + apply NoDup_singleton.
  - set_solver.
  - intros a b Ha Hb. rewrite elem_of_app, elem_of_children.
    apply elem_of_union in Ha as [Ha|Ha]; [apply elem_of_singleton in Ha as ->; by auto|].
    destruct (H4 a b Ha Hb) as [?|?]; set_solver.
  - intros x. rewrite elem_of_union, elem_of_singleton, elem_of_app, elem_of_children.
    intros [[->|?]|[?|Hc]]; [apply H5; set_solver..|].
    eapply rtc_r; [|exact Hc]. apply H5. set_solver.
Qed.

Lemma bfs_spec chs root fuel queue seen ids :
  (length queue + length (pending chs seen) ≤ fuel)%nat →
  bfs_inv chs root queue seen ids →
  ∃ seen', bfs_inv chs root [] seen'
    (bfs fuel (children_of chs) (list_to_set (ch_ChannelID <$> chs)) queue seen ids).
Proof.
  revert queue seen ids. induction fuel as [|fuel IH]; intros [|id queue] seen ids Hf Hinv;
    try (by exists seen); [simpl in Hf; lia|]. simpl in Hf.
  cbn [bfs]. case_bool_decide as Hid.
  - apply IH; [lia|]. by eapply bfs_inv_skip.
  - pose proof (pending_expand chs seen id Hid). apply IH; [|by apply bfs_inv_expand].
    rewrite length_app. lia.
Qed.

Lemma subtree_ids_spec chs root :
  NoDup (subtree_ids chs root) ∧
  ∀ x, x ∈ subtree_ids chs root ↔ x ∈ ch_ChannelID <$> chs ∧ below chs root x.
Proof.
  unfold subtree_ids.
  destruct (bfs_spec chs root (S (length chs)) [root] ∅ []) as [seen Hinv].
  - simpl. pose proof (pending_length chs ∅). lia.
  - constructor; [set_solver|constructor|set_solver|set_solver|].
    intros x [?| ->%list_elem_of_singleton]; [set_solver|constructor].
  - destruct Hinv as [H1 H2 H3 H4 H5]. split; [done|]. intros x. rewrite H1.
    split; [intros [Hs ?]; split; [done|]; apply H5; by left|].
    intros [? Hr]. split; [|done].
    assert (∀ y, y ∈ seen → below chs y x → x ∈ seen) as Hcl.
    { intros y Hy Hyx. induction Hyx as [|a b c Hab _ IH]; [done|].
      apply IH; try done. destruct (H4 a b Hy Hab); [done|set_solver]. }
    apply (Hcl root); [|done]. destruct H3; [done|set_solver].
Qed.

(** More iterations change nothing: the bound is enough. *)
Lemma bfs_fuel chs fuel fuel' queue seen ids :
  (length queue + length (pending chs seen) ≤ fuel)%nat → (fuel ≤ fuel')%nat →
  bfs fuel' (children_of chs) (list_to_set (ch_ChannelID <$> chs)) queue seen ids =
  bfs fuel (children_of chs) (list_to_set (ch_ChannelID <$> chs)) queue seen ids.
Proof.
  revert fuel' queue seen ids.
  induction fuel as [|fuel IH]; intros [|fuel'] [|id queue] seen ids Hf Hle; try done; simpl in Hf; try lia.
  cbn [bfs]. case_bool_decide as Hid; [apply IH; lia|].
  pose proof (pending_expand chs seen id Hid). apply IH; [rewrite length_app|]; lia.
Qed.

(** ** The tree of a state *)

Section state_tree.

Context `{!∀ V, MapRange Z V}.

(** The id of every channel is the key it is stored under, and is positive. *)
Definition keyed_channels (chs : gmap Z Channel) : Prop :=
  map_Forall (λ id ch, ch_ChannelID ch = id ∧ 0 < id) chs.

(** [edge chs a b]: the stored channel [b] has parent [a]. *)
Definition edge (chs : gmap Z Channel) (a b : Z) : Prop :=
  ∃ ch, chs !! b = Some ch ∧ ch_ParentID ch = a.

Lemma elem_of_ListChannels st ch :
  ch ∈ ListChannels st ↔ ∃ id, channels st !! id = Some ch.
Proof.
  unfold ListChannels. rewrite (list_fmap_ext cloneChannel id), list_fmap_id by done.
  rewrite list_elem_of_fmap. split.
  - intros ([id x] & -> & Hx%elem_of_range). eauto.
  - intros [id Hid]. exists (id, ch). by rewrite elem_of_range.
Qed.

Lemma child_edge st a b :
  keyed_channels (channels st) → child (ListChannels st) a b ↔ edge (channels st) a b.
Proof.
  intros Hk. unfold child, edge. setoid_rewrite elem_of_ListChannels. split.
  - intros (ch & [id Hid] & Ha & Hb). exists ch. destruct (Hk id ch Hid). subst. done.
  - intros (ch & Hch & Ha). exists ch. destruct (Hk b ch Hch). eauto.
Qed.

Lemma elem_of_state_subtree st root x :
  keyed_channels (channels st) →
  x ∈ stateChannelSubtreeIDs root st ↔
  is_Some (channels st !! x) ∧ rtc (edge (channels st)) root x.
Proof.
  intros Hk. unfold stateChannelSubtreeIDs. rewrite (proj2 (subtree_ids_spec _ _)).
  assert (x ∈ ch_ChannelID <$> ListChannels st ↔ is_Some (channels st !! x)) as ->.
  { rewrite list_elem_of_fmap. setoid_rewrite elem_of_ListChannels. split.
    - intros (ch & -> & id & Hid). destruct (Hk id ch Hid) as [-> _]. eauto.
    - intros [ch Hch]. exists ch. destruct (Hk x ch Hch). eauto. }
  assert (below (ListChannels st) root x ↔ rtc (edge (channels st)) root x) as ->; [|done].
  split; apply rtc_subrel; intros a b; by rewrite child_edge.
Qed.

(** A channel without children other than itself. *)
Definition leaf (chs : gmap Z Channel) (id : Z) : Prop :=
  ∀ b, edge chs id b → b = id.

Lemma state_subtree_leaf st id :
  keyed_channels (channels st) → is_Some (channels st !! id) →
  length (stateChannelSubtreeIDs id st) = 1%nat ↔ leaf (channels st) id.
Proof.
  intros Hk Hid. pose proof (proj1 (subtree_ids_spec (ListChannels st) id)) as Hnd.
  fold (stateChannelSubtreeIDs id st) in Hnd.
  assert (id ∈ stateChannelSubtreeIDs id st) as Hin by by apply elem_of_state_subtree.
  pose proof (λ x, elem_of_state_subtree st id x Hk) as Hel.
  destruct (stateChannelSubtreeIDs id st) as [|y ys]; [set_solver|]. simpl. split.
  - intros Hlen b Hb. destruct ys; [|done].
    assert (b ∈ [y]) as ->%list_elem_of_singleton.
    { apply Hel. split; [destruct Hb as (? & ? & _); eauto|by apply rtc_once]. }
    by apply list_elem_of_singleton in Hin.
  - intros Hleaf.
    assert (∀ x, x ∈ y :: ys → x = id) as Hall.
    { intros x [_ Hr]%Hel. induction Hr as [|a b c Hab _ IH]; [done|].
      apply Hleaf in Hab as Hba. subst. auto. }
    destruct ys as [|z ys]; [done|]. apply NoDup_cons in Hnd as [Hn _]. exfalso. apply Hn.
    rewrite (Hall y), (Hall z) by set_solver. set_solver.
Qed.

(** C37: The breadth-first search over the in-memory tree returns each channel of
    the subtree once and nothing else: the stored channels that are reachable
    from the root along parent links, whatever the shape of the tree, cycles and
    missing parents included, and its loop ends within one iteration per channel
    and one more. *)
Theorem subtree_search_exact st root fuel :
  keyed_channels (channels st) →
  NoDup (stateChannelSubtreeIDs root st) ∧
  (∀ x, x ∈ stateChannelSubtreeIDs root st ↔
     is_Some (channels st !! x) ∧ rtc (edge (channels st)) root x) ∧
  ((size (channels st) < fuel)%nat →
   bfs fuel (children_of (ListChannels st)) (list_to_set (ch_ChannelID <$> ListChannels st)) [root] ∅ []
   = stateChannelSubtreeIDs root st).
Proof.
  intros Hk. split_and!.
  - apply subtree_ids_spec.
  - intros x. by apply elem_of_state_subtree.
  - intros Hf.
    assert (length (ListChannels st) = size (channels st)) as Hlen.
    { unfold ListChannels. rewrite !length_fmap. apply length_range. }
    apply bfs_fuel; [|lia].
    pose proof (pending_length (ListChannels st) ∅). simpl. lia.
Qed.

(** ** The table *)

Lemma elem_of_db_subtree (db : gmap Z Channel) root x :
  keyed_channels db →
  x ∈ db_subtree db root ↔ is_Some (db !! root) ∧ is_Some (db !! x) ∧ rtc (edge db) root x.
Proof.
  intros Hk. unfold db_subtree. destruct (db !! root) as [r|] eqn:Hr.
  2:{ split; [set_solver|]. intros ([??] & _). done. }
  rewrite sort_by_perm, (proj2 (subtree_ids_spec _ _)).
  set (chs := filter _ _).
  assert (∀ ch, ch ∈ chs ↔ (ch_ParentID ch ≠ 0 ∨ ch_ChannelID ch = root) ∧ ∃ id, db !! id = Some ch) as Hch.
  { intros ch. unfold chs. rewrite list_elem_of_filter, list_elem_of_fmap.
    apply and_iff_compat_l_weak. intros _. split.
    - intros ([id y] & -> & Hy%elem_of_map_to_list). eauto.
    - intros [id Hid]. exists (id, ch). by rewrite elem_of_map_to_list. }
  assert (0 < root) as Hpos by (destruct (Hk root r Hr); lia).
  assert (∀ a b, 0 < a → child chs a b ↔ edge db a b) as He.
  { intros a b Ha. unfold child, edge. setoid_rewrite Hch. split.
    - intros (ch & (_ & id & Hid) & ? & ?). destruct (Hk id ch Hid). subst. eauto.
    - intros (ch & Hb & Hp). exists ch. destruct (Hk b ch Hb). split; [|done].
      split; [left; lia|eauto]. }
  assert (∀ a, 0 < a → below chs a x ↔ rtc (edge db) a x) as Hreach.
  { intros a Ha. split; intros Hp; revert Ha.
    - induction Hp as [|a b c Hab _ IH]; intros Ha; [constructor|].
      apply He in Hab; [|done]. apply (rtc_l _ _ b); [done|]. apply IH.
      destruct Hab as (ch & Hb & _). by destruct (Hk b ch Hb).
    - induction Hp as [|a b c Hab _ IH]; intros Ha; [constructor|].
      apply (rtc_l _ _ b); [by apply He|]. apply IH.
      destruct Hab as (ch & Hb & _). by destruct (Hk b ch Hb). }
  rewrite Hreach by done. split.
  - intros [(ch & -> & (_ & id & Hid)%Hch)%list_elem_of_fmap ?].
    destruct (Hk id ch Hid) as [Hkid _]. rewrite Hkid in *. eauto.
  - intros (_ & [ch Hx] & Hrx). split; [|done]. apply list_elem_of_fmap. exists ch.
    destruct (Hk x ch Hx) as [Hkx _]. split; [done|]. apply Hch. split; [|by eauto].
    destruct (decide (x = root)) as [->|Hne]; [by right|left].
    apply rtc_inv_r in Hrx as [?|(y & Hry & (ch' & Hx' & Hp))]; [congruence|].
    simplify_eq. assert (0 < ch_ParentID ch); [|lia].
    apply rtc_inv_r in Hry as [<-|(z & _ & (c & Hc & _))]; [done|]. by destruct (Hk _ c Hc).
Qed.

End state_tree.
