(* ===== verification/ChannelSettled.v ===== *)
(** * The channel manager at rest

    What holds between lifecycle operations: the table and the in-memory tree
    agree, and a cleanup timer is pending exactly for the empty temporary leaves.
    This file has the parts of that invariant and how the steps of the operations
    act on them; [ChannelSafety] puts the operations together. *)

From S2P Require Import Prelude StateManager StateInvariant StateSpec ChannelManager ChannelTree.

(** ** Views of the state *)

Definition tree_info (ch : Channel) : Z * Z := (ch_ParentID ch, ch_ChannelType ch).

(** The tree: id to parent and type. *)
Definition tree (st : Manager) : gmap Z (Z * Z) := tree_info <$> channels st.

(** Where the clients are. *)
Definition places (st : Manager) : gmap string Z := cl_ChannelID <$> clients st.

#[global] Arguments tree : simpl never.
#[global] Arguments places : simpl never.

(** [id] is an empty temporary leaf of the tree [T] with clients at [a]. *)
Definition Cleanable (T : gmap Z (Z * Z)) (a : gmap string Z) (id : Z) : Prop :=
  (∃ p, T !! id = Some (p, ChannelTypeTemporary)) ∧
  (∀ cid, a !! cid ≠ Some id) ∧
  (∀ b t, T !! b = Some (id, t) → b = id).

Lemma Cleanable_insert T a id p t j :
  j ≠ id → j ≠ p → (∀ p0 t0, T !! id = Some (p0, t0) → j ≠ p0) →
  Cleanable (<[id := (p, t)]> T) a j ↔ Cleanable T a j.
Proof.
  intros Hid Hp Hp0. unfold Cleanable. rewrite lookup_insert_ne by done.
  apply and_iff_compat_l, and_iff_compat_l. split; intros Hleaf b t'.
  - intros Hb. destruct (decide (b = id)) as [->|Hne]; [by edestruct Hp0|].
    apply (Hleaf b t'). by rewrite lookup_insert_ne.
  - destruct (decide (b = id)) as [->|Hne]; [rewrite lookup_insert_eq; congruence|].
    rewrite lookup_insert_ne by done. apply Hleaf.
Qed.

Lemma Cleanable_places T a a' j :
  (∀ cid, a !! cid = Some j ↔ a' !! cid = Some j) → Cleanable T a j ↔ Cleanable T a' j.
Proof.
  intros Ha. unfold Cleanable. apply and_iff_compat_l, and_iff_compat_r.
  split; intros H cid; specialize (H cid); by rewrite ?Ha, <- ?Ha in *.
Qed.

(** A change of type leaves the other channels as they are. *)
Lemma Cleanable_retype T a id p t t0 j :
  T !! id = Some (p, t0) → j ≠ id → Cleanable (<[id := (p, t)]> T) a j ↔ Cleanable T a j.
Proof.
  intros Hid Hj. unfold Cleanable. rewrite lookup_insert_ne by done.
  apply and_iff_compat_l, and_iff_compat_l. split; intros Hleaf b t'.
  - intros Hb. destruct (decide (b = id)) as [->|Hne].
    + apply (Hleaf id t). simplify_eq. by rewrite lookup_insert_eq.
    + apply (Hleaf b t'). by rewrite lookup_insert_ne.
  - destruct (decide (b = id)) as [->|Hne].
    + rewrite lookup_insert_eq. intros [= -> ->]. by apply (Hleaf id t0).
    + rewrite lookup_insert_ne by done. apply Hleaf.
Qed.

(** A new parent matters to the two parents only. *)
Lemma Cleanable_reparent T a id p p0 t j :
  T !! id = Some (p0, t) → j ≠ p → j ≠ p0 → Cleanable (<[id := (p, t)]> T) a j ↔ Cleanable T a j.
Proof.
  intros Hid Hp Hp0. destruct (decide (j = id)) as [->|Hj].
  2:{ apply Cleanable_insert; [done..|]. intros p1 t1 ?. by simplify_eq. }
  unfold Cleanable. rewrite lookup_insert_eq, Hid.
  assert ((∃ p1, Some (p, t) = Some (p1, ChannelTypeTemporary)) ↔
          (∃ p1, Some (p0, t) = Some (p1, ChannelTypeTemporary))) as -> by naive_solver.
  apply and_iff_compat_l, and_iff_compat_l. split; intros Hleaf b t'.
  - intros Hb. destruct (decide (b = id)) as [->|Hne]; [done|].
    apply (Hleaf b t'). by rewrite lookup_insert_ne.
  - destruct (decide (b = id)) as [->|Hne]; [done|].
    rewrite lookup_insert_ne by done. apply Hleaf.
Qed.

(** Removing a set of channels, their members sent to 0, matters to the channels
    that lose a child only. *)
Lemma Cleanable_remove T a (S : gset Z) j :
  j ∉ S → 0 < j →
  (∀ b t, b ∈ S → T !! b = Some (j, t) → False) →
  Cleanable (filter (λ kv, kv.1 ∉ S) T) ((λ ch, if decide (ch ∈ S) then 0 else ch) <$> a) j ↔
  Cleanable T a j.
Proof.
  intros Hj Hpos Hkids. unfold Cleanable.
  assert (filter (λ kv, kv.1 ∉ S) T !! j = T !! j) as ->.
  { destruct (T !! j) as [x|] eqn:Hx; [by apply map_lookup_filter_Some|].
    apply map_lookup_filter_None. by left. }
  apply and_iff_compat_l.
  assert ((∀ cid, ((λ ch, if decide (ch ∈ S) then 0 else ch) <$> a) !! cid ≠ Some j) ↔
          (∀ cid, a !! cid ≠ Some j)) as ->.
  { split; intros Hno cid; specialize (Hno cid); rewrite lookup_fmap in *.
    - intros Ha. rewrite Ha in Hno. simpl in Hno. rewrite decide_False in Hno by done. done.
    - destruct (a !! cid) as [ch|]; simpl; [|done]. case_decide; [intros [= ?]; lia|done]. }
  apply and_iff_compat_l. split; intros Hleaf b t.
  - intros Hb. apply (Hleaf b t). apply map_lookup_filter_Some. split; [done|].
    intros HS. by eapply Hkids.
  - intros [Hb _]%map_lookup_filter_Some. by apply (Hleaf b t).
Qed.

(** ** How the state operations act on the tree and the places *)

Lemma tree_AddChannel ch st :
  tree (AddChannel (Some ch) st) = <[ch_ChannelID ch := tree_info ch]> (tree st).
Proof. unfold tree, AddChannel. simpl. by rewrite fmap_insert. Qed.

Lemma tree_drop_member cid ch st : tree (drop_member cid ch st) = tree st.
Proof.
  unfold tree, drop_member, decrement_count.
  destruct (membership st !! ch); [|done]. simpl.
  destruct (channels st !! ch) as [x|] eqn:Hx; [|done]. destruct (0 <? ch_ClientCount x); [|done].
  simpl. rewrite fmap_insert. apply insert_id. by rewrite lookup_fmap, Hx.
Qed.

Lemma tree_enter_channel cid ch st : tree (enter_channel cid ch st) = tree st.
Proof.
  unfold tree, enter_channel. simpl. apply map_eq. intros id. rewrite !lookup_fmap.
  destruct (decide (id = ch)) as [->|]; [|by rewrite lookup_alter_ne].
  rewrite lookup_alter_eq. by destruct (channels st !! ch).
Qed.

Lemma tree_clear_speaking cid cl st : tree (clear_speaking cid cl st).1 = tree st.
Proof. unfold clear_speaking. by destruct (speaking st !! cid). Qed.

Lemma tree_with_clients f st : tree (with_clients f st) = tree st.
Proof. done. Qed.

Lemma tree_MoveClient cid ch st : tree (MoveClient cid ch st).1 = tree st.
Proof.
  unfold MoveClient. destruct (clients st !! cid) as [cl|]; [|done].
  destruct (channels st !! ch); [|done]. destruct (_ =? ch); [done|].
  destruct (negb (cl_ChannelID cl =? 0)).
  - pose proof (tree_clear_speaking cid cl (drop_member cid (cl_ChannelID cl) st)) as Hc.
    destruct (clear_speaking cid cl _) as [st1 cl1]. simpl in Hc.
    cbn [fst]. rewrite tree_enter_channel, tree_with_clients, Hc. apply tree_drop_member.
  - cbn [fst]. by rewrite tree_enter_channel.
Qed.

Lemma tree_LeaveChannel cid st : tree (LeaveChannel cid st).1 = tree st.
Proof.
  unfold LeaveChannel. destruct (clients st !! cid) as [cl|]; [|done].
  destruct (_ =? 0); [done|].
  pose proof (tree_clear_speaking cid cl (drop_member cid (cl_ChannelID cl) st)) as Hc.
  destruct (clear_speaking cid cl _) as [st1 cl1]. simpl in Hc.
  cbn [fst]. rewrite tree_with_clients, Hc. apply tree_drop_member.
Qed.

Lemma tree_RemoveClient cid st : tree (RemoveClient cid st).1 = tree st.
Proof.
  unfold RemoveClient. destruct (clients st !! cid) as [cl|]; [|done]. cbn [fst].
  rewrite tree_with_clients. unfold dropSubsLocked.
  destruct (negb (cl_ChannelID cl =? 0)); [apply (tree_drop_member cid)|done].
Qed.

Lemma tree_removeChannels_loop ids st aff rem :
  tree (removeChannels_loop ids st aff rem).1.1 =
  filter (λ kv, kv.1 ∉ (list_to_set ids : gset Z)) (tree st).
Proof.
  revert st aff rem. induction ids as [|ch ids IH]; intros st aff rem; simpl.
  - symmetry. apply map_filter_id. intros id x _. simpl. set_solver.
  - rewrite IH. unfold tree, removeChannelLocked. simpl. rewrite fmap_delete.
    apply map_eq. intros id. apply option_eq. intros x.
    rewrite !map_lookup_filter_Some, lookup_delete_Some. simpl. set_solver.
Qed.

Lemma tree_RemoveChannels ids st :
  tree (RemoveChannels ids st).1 = filter (λ kv, kv.1 ∉ (list_to_set ids : gset Z)) (tree st).
Proof.
  unfold RemoveChannels. pose proof (tree_removeChannels_loop ids st ∅ []) as Ht.
  by destruct (removeChannels_loop ids st ∅ []) as [[st' aff] rem].
Qed.

Lemma places_RemoveChannels ids st :
  wf st →
  places (RemoveChannels ids st).1 =
  (λ ch, if decide (ch ∈ (list_to_set ids : gset Z)) then 0 else ch) <$> places st.
Proof.
  intros Hw. unfold RemoveChannels. pose proof (view_removeChannels_loop ids st ∅ [] Hw) as Hv.
  destruct (removeChannels_loop ids st ∅ []) as [[st' aff] rem]. simpl in *.
  by injection Hv.
Qed.

Lemma places_view st : places st = w_at (view st).
Proof. done. Qed.

Section settled.

Context `{!∀ V, MapRange Z V}.

Definition stok (st : Manager) : Prop := wf st ∧ keyed_channels (channels st).

Lemma edge_tree st a b : edge (channels st) a b ↔ ∃ t, tree st !! b = Some (a, t).
Proof.
  unfold edge, tree, tree_info. rewrite lookup_fmap. split.
  - intros (ch & -> & <-). eauto.
  - intros [t Ht]. destruct (channels st !! b) as [ch|]; [|done]. simpl in Ht. simplify_eq. eauto.
Qed.

Lemma places_members st id :
  wf st → id ≠ 0 → ChannelMembers id st = [] ↔ ∀ cid, places st !! cid ≠ Some id.
Proof.
  intros Hw Hz. unfold ChannelMembers, places. pose proof (wf_m st Hw) as Hm.
  assert (∀ cid, (cl_ChannelID <$> clients st) !! cid = Some id ↔ cid ∈ fam_get id (membership st)) as Hpl.
  { intros cid. rewrite (wf_member st Hm), lookup_fmap.
    destruct (clients st !! cid) as [c|]; simpl; naive_solver. }
  setoid_rewrite Hpl. split.
  - intros Hnil cid Hin.
    assert (is_Some (clients st !! cid)) as [c Hc].
    { apply (wf_member st Hm) in Hin as (_ & c & Hc & _). eauto. }
    assert (c ∈ omap (λ id, GetClient id st) (elements (fam_get id (membership st)))) as Hco.
    { apply list_elem_of_omap. exists cid. rewrite GetClient_lookup, Hc. by rewrite elem_of_elements. }
    rewrite Hnil in Hco. set_solver.
  - intros Hno. destruct (elements (fam_get id (membership st))) as [|x l] eqn:He; [done|].
    destruct (Hno x). apply elem_of_elements. rewrite He. set_solver.
Qed.

Lemma cleanable_iff id st : stok st → cleanable id st = true ↔ Cleanable (tree st) (places st) id.
Proof.
  intros [Hw Hk]. unfold cleanable, Cleanable, GetChannel, cloneChannel, tree.
  rewrite lookup_fmap. destruct (channels st !! id) as [ch|] eqn:Hch; simpl.
  2:{ split; [done|]. intros [[p Hp] _]. done. }
  destruct (Hk id ch Hch) as [_ Hpos].
  rewrite !andb_true_iff, Z.eqb_eq, bool_decide_eq_true, Nat.eqb_eq.
  rewrite places_members by (done || lia). rewrite state_subtree_leaf by (done || eauto).
  unfold leaf. setoid_rewrite edge_tree. unfold tree_info. split.
  - intros [[Ht Hp] Hl]. split; [exists (ch_ParentID ch); by rewrite Ht|]. split; [done|].
    intros b t Hb. apply Hl. eauto.
  - intros [[p Hp] [Hno Hl]]. simplify_eq. split; [done|]. intros b [t Hb]. eauto.
Qed.

(** ** Timers *)

(** The timers outside [D] are those of the empty temporary leaves. *)
Definition timely (D : Z → Prop) (c : CM) : Prop :=
  ∀ id, ¬ D id → 0 < id →
    is_Some (cm_timers c !! id) ↔ Cleanable (tree (cm_state c)) (places (cm_state c)) id.

Lemma timely_weaken (D D' : Z → Prop) c : (∀ id, 0 < id → D id → D' id) → timely D c → timely D' c.
Proof. intros HD Ht id Hid Hpos. apply Ht; auto. Qed.

(** Timers are kept for channels only. *)
Definition timers_pos (c : CM) : Prop := map_Forall (λ id _, 0 < id) (cm_timers c).

Lemma reconcile_frame id c :
  cm_state (reconcileCleanupWatcherLocked id c) = cm_state c ∧
  cm_db (reconcileCleanupWatcherLocked id c) = cm_db c ∧
  cm_nextID (reconcileCleanupWatcherLocked id c) = cm_nextID c ∧
  cm_oracle (reconcileCleanupWatcherLocked id c) = cm_oracle c.
Proof.
  unfold reconcileCleanupWatcherLocked, cancelCleanupLocked. by repeat case_match.
Qed.

Lemma cancel_frame id c :
  cm_state (cancelCleanupLocked id c) = cm_state c ∧
  cm_db (cancelCleanupLocked id c) = cm_db c ∧
  cm_nextID (cancelCleanupLocked id c) = cm_nextID c ∧
  cm_oracle (cancelCleanupLocked id c) = cm_oracle c ∧
  cm_timers (cancelCleanupLocked id c) = delete id (cm_timers c).
Proof.
  unfold cancelCleanupLocked. destruct (cm_timers c !! id) eqn:Hid; [done|]. by rewrite delete_id.
Qed.

Lemma timely_reconcile D id c :
  stok (cm_state c) → timely D c → timely (λ j, D j ∧ j ≠ id) (reconcileCleanupWatcherLocked id c).
Proof.
  intros Hst Ht j Hj Hpos. destruct (reconcile_frame id c) as (-> & _).
  unfold reconcileCleanupWatcherLocked. destruct (decide (j = id)) as [->|Hne].
  - rewrite <- cleanable_iff by done. destruct (cleanable id (cm_state c)).
    + unfold startCleanupWatcherLocked. simpl. rewrite lookup_insert_eq. split; [done|by eauto].
    + destruct (cancel_frame id c) as (_ & _ & _ & _ & ->). rewrite lookup_delete_eq.
      split; [by intros []|done].
  - rewrite <- (Ht j) by tauto. destruct (cleanable id (cm_state c)).
    + unfold startCleanupWatcherLocked. simpl. by rewrite lookup_insert_ne.
    + destruct (cancel_frame id c) as (_ & _ & _ & _ & ->). by rewrite lookup_delete_ne.
Qed.

(** A change of state that affects only the channels of [D']. *)
Lemma timely_state D D' st' c c' :
  timely D c → cm_timers c' = cm_timers c → cm_state c' = st' →
  (∀ id, ¬ D' id → 0 < id →
     Cleanable (tree st') (places st') id ↔ Cleanable (tree (cm_state c)) (places (cm_state c)) id) →
  timely (λ j, D j ∨ D' j) c'.
Proof.
  intros Ht Htm Hst HD id Hid Hpos. rewrite Htm, Hst, HD by tauto. apply Ht; tauto.
Qed.

(** ** At rest *)

Record settled_but (D : Z → Prop) (c : CM) : Prop := {
  sb_wf : wf (cm_state c);
  sb_db_keys : keyed_channels (cm_db c);
  sb_next id : is_Some (cm_db c !! id) → id < cm_nextID c;
  sb_next_pos : 0 < cm_nextID c;
  sb_same : tree_info <$> cm_db c = tree (cm_state c);
  sb_timely : timely D c;
  sb_timers : timers_pos c;
}.

(** At rest: no timer is off. *)
Definition settled (c : CM) : Prop := settled_but (λ _, False) c.

Lemma same_lookup D c id :
  settled_but D c →
  tree_info <$> cm_db c !! id = tree_info <$> channels (cm_state c) !! id.
Proof.
  intros Hs. rewrite <- !lookup_fmap. fold (tree (cm_state c)). by rewrite (sb_same _ _ Hs).
Qed.

Lemma same_is_Some D c id :
  settled_but D c → is_Some (cm_db c !! id) ↔ is_Some (channels (cm_state c) !! id).
Proof.
  intros Hs. pose proof (same_lookup D c id Hs) as Hl.
  rewrite <- (fmap_is_Some tree_info), Hl, fmap_is_Some. done.
Qed.

Lemma settled_stok D c : settled_but D c → stok (cm_state c).
Proof.
  intros Hs. split; [apply Hs|]. intros id ch Hch.
  assert (is_Some (cm_db c !! id)) as [row Hrow] by (apply (same_is_Some D c id Hs); eauto).
  destruct (sb_db_keys _ _ Hs id row Hrow) as [_ ?].
  split; [|done]. by apply (wf_channel_key _ (wf_m _ (sb_wf _ _ Hs)) id ch).
Qed.

Lemma settled_reconcile D id c :
  settled_but D c → settled_but (λ j, D j ∧ j ≠ id) (reconcileCleanupWatcherLocked id c).
Proof.
  intros Hs. pose proof (settled_stok D c Hs) as Hst. destruct Hs as [H1 H2 H3 H4 H5 H6 H7].
  pose proof (timely_reconcile D id c Hst H6) as Ht.
  destruct (reconcile_frame id c) as (E1 & E2 & E3 & _).
  constructor; rewrite ?E1, ?E2, ?E3; try done.
  unfold timers_pos, reconcileCleanupWatcherLocked. destruct (cleanable id (cm_state c)) eqn:Hc.
  - apply map_Forall_insert_2; [|done]. apply cleanable_iff in Hc as [[p Hp] _]; [|done].
    unfold tree in Hp. rewrite lookup_fmap in Hp.
    destruct (channels (cm_state c) !! id) as [ch|] eqn:Hch; [|done].
    by destruct (proj2 Hst id ch Hch).
  - destruct (cancel_frame id c) as (_ & _ & _ & _ & ->). by apply map_Forall_delete.
Qed.

Lemma settled_weaken (D D' : Z → Prop) c :
  (∀ id, 0 < id → D id → D' id) → settled_but D c → settled_but D' c.
Proof. intros HD []. constructor; try done. by eapply timely_weaken. Qed.

End settled.
