(* ===== verification/ChannelSafety.v ===== *)
(** * The channel manager's guarantees

    The operations of [internal/channels/manager.go] keep the manager settled
    when the database answers; what they leave when it does not; and the safety of
    the timer callback. *)

From S2P Require Import Prelude StateManager StateInvariant StateSpec ChannelManager ChannelTree ChannelSettled.

Section safety.

Context `{!∀ V, MapRange Z V}.

Lemma settled_cancel D id c :
  settled_but D c → ¬ Cleanable (tree (cm_state c)) (places (cm_state c)) id →
  settled_but (λ j, D j ∧ j ≠ id) (cancelCleanupLocked id c).
Proof.
  intros [H1 H2 H3 H4 H5 H6 H7] Hn. destruct (cancel_frame id c) as (E1 & E2 & E3 & E4 & E5).
  constructor; rewrite ?E1, ?E2, ?E3; try done.
  - intros j Hj Hpos. rewrite E1, E5. destruct (decide (j = id)) as [->|Hne].
    + rewrite lookup_delete_eq. split; [by intros []|done].
    + rewrite lookup_delete_ne by done. apply H6; tauto.
  - unfold timers_pos. rewrite E5. by apply map_Forall_delete.
Qed.

(** A change of state and table that keeps the timers. *)
Lemma settled_change D D' c c' :
  settled_but D c →
  cm_timers c' = cm_timers c → wf (cm_state c') → keyed_channels (cm_db c') →
  (∀ id, is_Some (cm_db c' !! id) → id < cm_nextID c') → 0 < cm_nextID c' →
  tree_info <$> cm_db c' = tree (cm_state c') →
  (∀ id, ¬ D' id → 0 < id →
     Cleanable (tree (cm_state c')) (places (cm_state c')) id ↔
     Cleanable (tree (cm_state c)) (places (cm_state c)) id) →
  settled_but (λ j, D j ∨ D' j) c'.
Proof.
  intros [H1 H2 H3 H4 H5 H6 H7] Ht Hw Hk Hn Hn0 Hs HD. constructor; try done.
  - by eapply timely_state.
  - unfold timers_pos. by rewrite Ht.
Qed.

(** A change of state that keeps the tree. *)
Lemma settled_places D D' st c :
  settled_but D c → wf st → tree st = tree (cm_state c) →
  (∀ cid id, ¬ D' id → 0 < id → places st !! cid = Some id ↔ places (cm_state c) !! cid = Some id) →
  settled_but (λ j, D j ∨ D' j) (set_state st c).
Proof.
  intros Hs Hw Ht Hp. apply (settled_change D D' c); [done..|exact (sb_db_keys _ _ Hs)
    |exact (sb_next _ _ Hs)|exact (sb_next_pos _ _ Hs)| |].
  - simpl. rewrite Ht. apply Hs.
  - intros id Hid Hpos. simpl. rewrite Ht. apply Cleanable_places. intros cid. by apply Hp.
Qed.

Lemma set_state_id c : set_state (cm_state c) c = c.
Proof. by destruct c. Qed.

(** ** Clients *)

Lemma settled_MoveClient cid tgt c : settled c → settled (cm_MoveClient cid tgt c).1.
Proof.
  intros Hs. unfold cm_MoveClient, mbind_, mget, ClientChannelState.
  destruct (clients (cm_state c) !! cid) as [cl|] eqn:Hcl; simpl; [|done].
  unfold on_state. pose proof (MoveClient_wf cid tgt _ (sb_wf _ _ Hs)) as Hw'.
  pose proof (tree_MoveClient cid tgt (cm_state c)) as Htree.
  pose proof (view_MoveClient cid tgt _ (sb_wf _ _ Hs)) as Hv.
  assert (places (cm_state c) !! cid = Some (cl_ChannelID cl)) as Hold.
  { unfold places. by rewrite lookup_fmap, Hcl. }
  destruct (MoveClient cid tgt (cm_state c)) as [st r] eqn:Hmv. cbn [fst snd] in *.
  assert (is_ok r = false → st = cm_state c) as Herr.
  { unfold MoveClient in Hmv. rewrite Hcl in Hmv.
    destruct (channels (cm_state c) !! tgt); [|by simplify_eq].
    destruct (_ =? tgt); [by simplify_eq|]. destruct (if negb _ then _ else _). by simplify_eq. }
  destruct r as [[]|e]; simpl.
  2:{ rewrite Herr, set_state_id by done. done. }
  assert (places st !! cid = Some tgt ∧
    ∀ x, x ≠ cid → places st !! x = places (cm_state c) !! x) as [Hnew Hoth].
  { rewrite !places_view, Hv. cbn [spec_run]. rewrite <- places_view, Hold.
    case_decide as Hd; [|by simpl; rewrite lookup_insert_eq; split; [|intros; by rewrite lookup_insert_ne]].
    destruct Hd as [Hd|Hd]; [|by rewrite <- places_view, Hold, Hd].
    exfalso. unfold MoveClient in Hmv. rewrite Hcl in Hmv. simpl in Hd.
    apply not_elem_of_dom in Hd. by rewrite Hd in Hmv. }
  assert (settled_but (λ j, False ∨ (j = tgt ∨ j = cl_ChannelID cl)) (set_state st c)) as Hs1.
  { apply (settled_places _ (λ j, j = tgt ∨ j = cl_ChannelID cl)); [done..|].
    intros x id Hid Hpos. destruct (decide (x = cid)) as [->|Hne]; [|by rewrite Hoth].
    rewrite Hnew, Hold. split; intros [= ?]; exfalso; apply Hid; auto. }
  apply (settled_cancel _ tgt) in Hs1; [|intros (_ & Hno & _); by apply (Hno cid)].
  destruct (negb (cl_ChannelID cl =? 0) && negb (cl_ChannelID cl =? tgt)) eqn:Hb; simpl.
  - apply (settled_reconcile _ (cl_ChannelID cl)) in Hs1.
    eapply settled_weaken; [|exact Hs1]. simpl. tauto.
  - eapply settled_weaken; [|exact Hs1]. simpl. intros j Hpos [[?|[?|?]] Hne]; [done..|].
    subst j. bools. destruct Hb as [Hb|Hb]; bools; lia.
Qed.

Lemma settled_LeaveClient cid c : settled c → settled (LeaveClient cid c).1.
Proof.
  intros Hs. unfold LeaveClient, mbind_, mget, ClientChannelState.
  destruct (clients (cm_state c) !! cid) as [cl|] eqn:Hcl; simpl; [|done].
  destruct (Z.eqb_spec (cl_ChannelID cl) 0) as [Hz|Hnz]; [done|].
  unfold on_state. pose proof (LeaveChannel_wf cid _ (sb_wf _ _ Hs)) as Hw'.
  pose proof (tree_LeaveChannel cid (cm_state c)) as Htree.
  pose proof (view_LeaveChannel cid _ (sb_wf _ _ Hs)) as Hv.
  assert (places (cm_state c) !! cid = Some (cl_ChannelID cl)) as Hold.
  { unfold places. by rewrite lookup_fmap, Hcl. }
  destruct (LeaveChannel cid (cm_state c)) as [st r] eqn:Hmv. cbn [fst snd] in *.
  assert (r = Ok tt) as ->.
  { unfold LeaveChannel in Hmv. rewrite Hcl in Hmv.
    destruct (Z.eqb_spec (cl_ChannelID cl) 0); [done|].
    destruct (clear_speaking cid cl _). by simplify_eq. }
  simpl.
  assert (settled_but (λ j, False ∨ j = cl_ChannelID cl) (set_state st c)) as Hs1.
  { apply (settled_places _ (λ j, j = cl_ChannelID cl)); [done..|].
    intros x id Hid Hpos. rewrite (places_view st), Hv. cbn [spec_run].
    rewrite <- places_view, Hold, decide_False by done. cbn [w_at].
    rewrite lookup_insert. case_decide; [subst x|done]. rewrite Hold.
    split; intros [= ?]; [lia|congruence]. }
  apply (settled_reconcile _ (cl_ChannelID cl)) in Hs1.
  eapply settled_weaken; [|exact Hs1]. simpl. tauto.
Qed.

Lemma settled_RemoveClient cid c : settled c → settled (cm_RemoveClient cid c).1.
Proof.
  intros Hs. unfold cm_RemoveClient, mbind_, mget. rewrite GetClient_lookup.
  destruct (clients (cm_state c) !! cid) as [cl|] eqn:Hcl; simpl; [|done].
  pose proof (RemoveClient_wf cid _ (sb_wf _ _ Hs)) as Hw'.
  pose proof (tree_RemoveClient cid (cm_state c)) as Htree.
  pose proof (view_RemoveClient cid _ (sb_wf _ _ Hs)) as Hv.
  assert ((RemoveClient cid (cm_state c)).2 = Some cl) as Hr.
  { unfold RemoveClient. rewrite Hcl. simpl. by rewrite cloneClient_id. }
  destruct (RemoveClient cid (cm_state c)) as [st r]. cbn [fst snd] in *. subst r. simpl.
  assert (settled_but (λ j, False ∨ j = cl_ChannelID cl) (set_state st c)) as Hs1.
  { apply (settled_places _ (λ j, j = cl_ChannelID cl)); [done..|].
    intros x id Hid Hpos. rewrite (places_view st), Hv. cbn [spec_run w_at].
    rewrite <- places_view, lookup_delete. case_decide; [subst x|done].
    split; [done|]. unfold places. rewrite lookup_fmap, Hcl. simpl. congruence. }
  destruct (Z.eqb_spec (cl_ChannelID cl) 0) as [Hz|Hnz]; simpl.
  - eapply settled_weaken; [|exact Hs1]. simpl. lia.
  - apply (settled_reconcile _ (cl_ChannelID cl)) in Hs1.
    eapply settled_weaken; [|exact Hs1]. simpl. tauto.
Qed.

Lemma settled_reconcile_one id c : settled c → settled (reconcileCleanupWatcherLocked id c).
Proof.
  intros Hs%(settled_reconcile _ id). eapply settled_weaken; [|exact Hs]. simpl. tauto.
Qed.

(** ** Running an operation whose database calls succeed *)

Lemma mbind_Ok {A B} (m : M A) (k : A → M B) c c' a : m c = (c', Ok a) → mbind_ m k c = k a c'.
Proof. intros Hm. unfold mbind_. by rewrite Hm. Qed.

Lemma mbind_Err {A B} (m : M A) (k : A → M B) c c' e : m c = (c', Err e) → mbind_ m k c = (c', Err e).
Proof. intros Hm. unfold mbind_. by rewrite Hm. Qed.

Lemma db_call_good c : cm_oracle c = [] → db_call c = (c, Ok Good).
Proof. intros Ho. unfold db_call. by rewrite Ho. Qed.

Lemma db_read_good {A} what (f : gmap Z Channel → A) c :
  cm_oracle c = [] → db_read what f c = (c, Ok (f (cm_db c))).
Proof. intros Ho. unfold db_read. by rewrite (mbind_Ok _ _ c c Good) by by apply db_call_good. Qed.

Lemma tx_step_good what c : cm_oracle c = [] → tx_step what c = (c, Ok tt).
Proof. intros Ho. unfold tx_step. by rewrite (mbind_Ok _ _ c c Good) by by apply db_call_good. Qed.

Lemma commit_good f c : cm_oracle c = [] → commit f c = (set_db (f (cm_db c)) c, Ok true).
Proof. intros Ho. unfold commit. by rewrite (mbind_Ok _ _ c c Good) by by apply db_call_good. Qed.

(** At rest, and the database answers. *)
Definition calm (c : CM) : Prop := settled c ∧ cm_oracle c = [].

Lemma calm_reconcile id c : settled_but (λ j, j = id) c → cm_oracle c = [] →
  calm (reconcileCleanupWatcherLocked id c).
Proof.
  intros Hs Ho. destruct (reconcile_frame id c) as (_ & _ & _ & Ho'). split; [|congruence].
  apply (settled_reconcile _ id) in Hs. eapply settled_weaken; [|exact Hs]. simpl. tauto.
Qed.

Lemma calm_reconcile_2 id id' c :
  settled_but (λ j, j = id ∨ j = id') c → cm_oracle c = [] →
  calm (reconcileCleanupWatcherLocked id' (reconcileCleanupWatcherLocked id c)).
Proof.
  intros Hs Ho. destruct (reconcile_frame id c) as (_ & _ & _ & Ho').
  apply calm_reconcile; [|congruence]. apply (settled_reconcile _ id) in Hs.
  eapply settled_weaken; [|exact Hs]. simpl. tauto.
Qed.

(** ** Creation *)

Variable HashPassword : string → option string.

Lemma assignChannelAdmin_good u id c :
  cm_oracle c = [] →
  ∃ l, assignChannelAdmin u id c = (set_groupMembers l c, Ok tt).
Proof.
  intros Ho. unfold assignChannelAdmin. destruct (u =? 0).
  { exists (cm_groupMembers c). by destruct c. }
  rewrite (mbind_Ok _ _ c c Good) by by apply db_call_good.
  rewrite (mbind_Ok _ _ c c c) by done.
  destruct (cm_adminGroup c) as [g|]; [|exists (cm_groupMembers c); by destruct c].
  rewrite (mbind_Ok _ _ c c Good) by by apply db_call_good. by eexists.
Qed.

Lemma settled_groupMembers D l c : settled_but D c → settled_but D (set_groupMembers l c).
Proof. intros []. by constructor. Qed.

(** The row and the channel of a new id. *)
Lemma settled_create spec createdAt hash c :
  settled c →
  settled_but (λ j, j = cm_nextID c ∨ j = spec_ParentID spec)
    (set_state (AddChannel (Some (spec_channel spec (cm_nextID c) (spec_MaxClients spec) createdAt hash))
      (cm_state c)) (insert_row spec createdAt hash c)).
Proof.
  intros Hs. set (id := cm_nextID c). pose proof (sb_next_pos _ _ Hs) as Hpos. fold id in Hpos.
  assert (cm_db c !! id = None) as Hfresh.
  { destruct (cm_db c !! id) eqn:Hid; [|done].
    assert (id < cm_nextID c) by (apply (sb_next _ _ Hs); eauto). lia. }
  assert (channels (cm_state c) !! id = None) as Hfresh'.
  { apply eq_None_not_Some. rewrite <- (same_is_Some _ _ id Hs), Hfresh. by intros []. }
  assert (tree (cm_state c) !! id = None) as HfreshT.
  { unfold tree. by rewrite lookup_fmap, Hfresh'. }
  apply (settled_weaken (λ j, False ∨ (j = id ∨ j = spec_ParentID spec))); [tauto|].
  apply (settled_change (λ _, False) (λ j, j = id ∨ j = spec_ParentID spec) c); [exact Hs|..].
  - done.
  - simpl. apply AddChannel_wf; [simpl; lia| |apply Hs]. simpl.
    destruct (membership (cm_state c) !! id) eqn:Hm.
    + destruct (wf_member_channel _ (wf_m _ (sb_wf _ _ Hs)) id); [by eauto|]. congruence.
    + unfold fam_get. by rewrite Hm.
  - simpl. apply map_Forall_insert_2; [done|]. apply Hs.
  - simpl. intros j. rewrite lookup_insert_is_Some'. intros [<-|Hj]; [lia|].
    apply (sb_next _ _ Hs) in Hj. lia.
  - simpl. lia.
  - transitivity (<[id := (spec_ParentID spec, spec_Type spec)]> (tree (cm_state c))).
    + simpl. by rewrite fmap_insert, (sb_same _ _ Hs).
    + symmetry. apply tree_AddChannel.
  - intros j Hj Hj0. cbn [cm_state set_state]. rewrite tree_AddChannel.
    apply (Cleanable_insert _ (places (cm_state c))); [tauto..|]. simpl. rewrite HfreshT. done.
Qed.

Lemma calm_CreateChannel spec createdAt c :
  calm c → calm (CreateChannel HashPassword spec createdAt c).1.
Proof.
  intros Hc. pose proof Hc as [Hs Ho]. unfold CreateChannel. destruct (negb (Validate spec)); [done|].
  assert (∀ (k : unit → M Z), (∀ u, calm (k u c).1) →
    calm (mbind_ (if negb (spec_ParentID spec =? 0) then channelExists (spec_ParentID spec) else mret tt) k c).1)
    as Hpar.
  { intros k Hk. destruct (negb _); [|apply Hk]. unfold channelExists, mbind_ at 1.
    rewrite (mbind_Ok _ _ c c (cm_db c !! spec_ParentID spec)) by by apply db_read_good.
    destruct (cm_db c !! spec_ParentID spec); [apply Hk|done]. }
  apply Hpar. intros _. clear Hpar.
  match goal with |- calm (mbind_ ?m ?k c).1 => assert (∃ r, m c = (c, r)) as [r Hr] end.
  { repeat case_match; by eexists. }
  destruct r as [hash|]; [|by rewrite (mbind_Err _ _ _ _ _ Hr)]. rewrite (mbind_Ok _ _ _ _ _ Hr).
  rewrite (mbind_Ok _ _ c c c) by done. rewrite (mbind_Ok _ _ c c Good) by by apply db_call_good.
  cbn [mbind_ mput].
  set (c2 := set_state _ (insert_row spec createdAt hash c)).
  pose proof (settled_create spec createdAt hash c Hs : settled_but _ c2) as Hs2.
  assert (cm_oracle c2 = []) as Ho2 by done.
  destruct (assignChannelAdmin_good (spec_CreatedBy spec) (cm_nextID c) c2 Ho2) as [l Hl].
  rewrite (mbind_Ok _ _ _ _ _ Hl). apply (settled_groupMembers _ l) in Hs2.
  destruct (Z.eqb_spec (spec_ParentID spec) 0) as [Hz|Hnz]; cbn [mbind_ reconcile mput negb mret fst].
  - apply calm_reconcile; [|done]. eapply settled_weaken; [|exact Hs2]. simpl. lia.
  - by apply calm_reconcile_2.
Qed.

(** ** Updates *)

(** What an update does to the parent and the type. *)
Definition info_update (u : ChannelUpdate) (i : Z * Z) : Z * Z :=
  (default i.1 (up_ParentID u), default i.2 (up_ChannelType u)).

Lemma tree_info_update u ch : tree_info (apply_update u ch) = info_update u (tree_info ch).
Proof. done. Qed.

Lemma state_UpdateChannel_some id u ch st :
  channels st !! id = Some ch →
  state_UpdateChannel id u st = (with_channels (<[id := apply_update u ch]>) st, true).
Proof. intros Hch. unfold state_UpdateChannel. by rewrite Hch. Qed.

Lemma settled_update D D' id u row ch c :
  settled_but D c → cm_db c !! id = Some row → channels (cm_state c) !! id = Some ch →
  (∀ j, ¬ D' j → 0 < j →
     Cleanable (<[id := info_update u (tree_info ch)]> (tree (cm_state c))) (places (cm_state c)) j ↔
     Cleanable (tree (cm_state c)) (places (cm_state c)) j) →
  settled_but (λ j, D j ∨ D' j)
    (set_state (with_channels (<[id := apply_update u ch]>) (cm_state c))
      (set_db (alter (apply_update u) id (cm_db c)) c)).
Proof.
  intros Hs Hrow Hch HD.
  assert (tree_info row = tree_info ch) as Hsame.
  { pose proof (same_lookup _ _ id Hs) as Hl. rewrite Hrow, Hch in Hl. by apply (inj Some) in Hl. }
  assert (tree (with_channels (<[id := apply_update u ch]>) (cm_state c)) =
    <[id := info_update u (tree_info ch)]> (tree (cm_state c))) as Htree.
  { unfold tree. simpl. by rewrite fmap_insert. }
  apply (settled_change D D' c); [done..| | | | | |].
  - simpl. pose proof (state_UpdateChannel_wf id u _ (sb_wf _ _ Hs)) as Hw.
    by rewrite (state_UpdateChannel_some id u ch) in Hw.
  - simpl. intros j x. rewrite lookup_alter_Some.
    intros [(-> & x0 & Hx0 & ->)|[_ Hx]]; [simpl|]; by apply (sb_db_keys _ _ Hs).
  - simpl. intros j. rewrite lookup_alter_is_Some. apply (sb_next _ _ Hs).
  - apply (sb_next_pos _ _ Hs).
  - cbn [cm_state cm_db set_state set_db]. rewrite Htree, <- (sb_same _ _ Hs).
    apply map_eq. intros j. rewrite lookup_fmap. destruct (decide (j = id)) as [->|Hne].
    + by rewrite lookup_alter_eq, lookup_insert_eq, Hrow, <- Hsame.
    + by rewrite lookup_alter_ne, lookup_insert_ne, lookup_fmap by done.
  - intros j Hj Hpos. cbn [cm_state set_state]. rewrite Htree. by apply HD.
Qed.

Lemma mirrorChannelUpdate_present id u ch c :
  channels (cm_state c) !! id = Some ch →
  mirrorChannelUpdate id u c =
    (set_state (with_channels (<[id := apply_update u ch]>) (cm_state c)) c, Ok false).
Proof.
  intros Hch. unfold mirrorChannelUpdate. rewrite (mbind_Ok _ _ c c c) by done.
  by rewrite (state_UpdateChannel_some id u ch).
Qed.

Lemma tree_lookup st id ch : channels st !! id = Some ch → tree st !! id = Some (tree_info ch).
Proof. intros Hch. unfold tree. by rewrite lookup_fmap, Hch. Qed.

Lemma settled_db_id D c : settled_but D c → settled_but D (set_db (cm_db c) c).
Proof. by destruct c. Qed.

Lemma calm_SetChannelType id newType c : calm c → calm (SetChannelType id newType c).1.
Proof.
  intros Hc. pose proof Hc as [Hs Ho]. unfold SetChannelType.
  destruct (negb (ChannelType_Valid newType)); [done|].
  rewrite (mbind_Ok _ _ c c tt) by by apply tx_step_good.
  rewrite (mbind_Ok _ _ c c (cm_db c !! id)) by by apply db_read_good.
  destruct (cm_db c !! id) as [row|] eqn:Hrow; [|done].
  destruct (ParseChannelType (ch_ChannelType row)) as [cur|] eqn:Hparse; [|done].
  assert (cur = ch_ChannelType row) as ->.
  { unfold ParseChannelType in Hparse. repeat (case_match; bools; [congruence|]). done. }
  assert (is_Some (channels (cm_state c) !! id)) as [ch Hch].
  { apply (same_is_Some _ _ id Hs). eauto. }
  assert (tree_info row = tree_info ch) as Hsame.
  { pose proof (same_lookup _ _ id Hs) as Hl. rewrite Hrow, Hch in Hl. by apply (inj Some) in Hl. }
  injection Hsame as _ Htype.
  rewrite (mbind_Ok _ _ c c tt).
  2:{ destruct (negb _); [|done]. rewrite (mbind_Ok _ _ c c tt) by by apply tx_step_good.
      by apply tx_step_good. }
  rewrite (mbind_Ok _ _ c _ true) by by apply commit_good. cbn [negb].
  set (c1 := set_db _ c).
  unfold mtry. rewrite (mbind_Ok _ _ c1 (set_state (with_channels
    (<[id := apply_update (type_update newType) ch]>) (cm_state c)) c1) (Ok false)).
  2:{ by rewrite (mirrorChannelUpdate_present id _ ch). }
  unfold reconcile, mput. apply calm_reconcile; [|done].
  assert (settled_but (λ j, False ∨ j = id)
    (set_state (with_channels (<[id := apply_update (type_update newType) ch]>) (cm_state c))
      (set_db (alter (apply_update (type_update newType)) id (cm_db c)) c))) as Hs1.
  { apply (settled_update _ _ id _ row); [done..|]. intros j Hj _.
    apply (Cleanable_retype _ _ _ _ _ (ch_ChannelType ch)); [|done]. by apply tree_lookup. }
  destruct (Z.eqb_spec (ch_ChannelType row) newType) as [Heq|Hne]; simpl in c1.
  - assert (c1 = set_db (alter (apply_update (type_update newType)) id (cm_db c)) c) as ->.
    { unfold c1. f_equal. symmetry. apply map_eq. intros j.
      destruct (decide (j = id)) as [->|]; [|by rewrite lookup_alter_ne].
      rewrite lookup_alter_eq, Hrow. simpl. rewrite <- Heq. by destruct row. }
    eapply settled_weaken; [|exact Hs1]. simpl. tauto.
  - eapply settled_weaken; [|exact Hs1]. simpl. tauto.
Qed.

Lemma ancestry_good left first id p cur c :
  cm_oracle c = [] → (ancestry left first id p cur c).1 = c.
Proof.
  intros Ho. revert first cur.
  induction left as [|left IH]; intros first cur; simpl; (destruct (cur =? id); [done|]);
    rewrite (mbind_Ok _ _ c c (cm_db c !! cur)) by (by apply db_read_good).
  - by destruct (cm_db c !! cur), first.
  - destruct (cm_db c !! cur) as [row|]; [|by destruct first].
    destruct (ch_ParentID row =? 0); [done|]. apply IH.
Qed.

Lemma validateMoveTx_good id p c : cm_oracle c = [] → (validateMoveTx id p c).1 = c.
Proof.
  intros Ho. unfold validateMoveTx.
  rewrite (mbind_Ok _ _ c c (cm_db c !! id)) by by apply db_read_good.
  destruct (cm_db c !! id); [|done]. destruct (p =? 0); [done|]. by apply ancestry_good.
Qed.

Lemma calm_UpdateChannel id e c : calm c → calm (UpdateChannel id e c).1.
Proof.
  intros Hc. pose proof Hc as [Hs Ho]. unfold UpdateChannel.
  destruct (_ || _); [done|]. destruct (edit_empty e); [done|].
  rewrite (mbind_Ok _ _ c c c) by done.
  rewrite (mbind_Ok _ _ c c tt) by by apply tx_step_good.
  assert (∀ k : unit → M unit, (∀ u, calm (k u c).1) →
    calm (mbind_ (match ed_ParentID e with Some p => validateMoveTx id p | None => mret tt end) k c).1) as Hv.
  { intros k Hk. destruct (ed_ParentID e) as [p|]; [|apply Hk].
    pose proof (validateMoveTx_good id p c Ho) as Hv. unfold mbind_.
    destruct (validateMoveTx id p c) as [c' [u|err]]; simpl in Hv; subst c'; [apply Hk|done]. }
  apply Hv. intros _. clear Hv.
  rewrite (mbind_Ok _ _ c c tt) by by apply tx_step_good.
  rewrite (mbind_Ok _ _ c c (cm_db c !! id)) by by apply db_read_good.
  destruct (cm_db c !! id) as [row|] eqn:Hrow; [|done].
  assert (is_Some (channels (cm_state c) !! id)) as [ch Hch] by (apply (same_is_Some _ _ id Hs); eauto).
  rewrite (mbind_Ok _ _ c _ true) by by apply commit_good. cbn [negb].
  set (c1 := set_db _ c).
  unfold mtry. rewrite (mbind_Ok _ _ c1 (set_state (with_channels
    (<[id := apply_update (edit_update e) ch]>) (cm_state c)) c1) (Ok false)).
  2:{ by rewrite (mirrorChannelUpdate_present id _ ch). }
  rewrite (mbind_Ok _ _ _ _ _ eq_refl). set (c2 := set_state _ c1).
  assert (GetChannel id (cm_state c) = Some ch) as Hget by (unfold GetChannel; by rewrite Hch).
  rewrite Hget. destruct (ed_ParentID e) as [p|] eqn:Hp.
  - assert (settled_but (λ j, False ∨ (j = ch_ParentID ch ∨ j = p)) c2) as Hs2.
    { apply (settled_update _ _ id _ row); [done..|]. intros j Hj _.
      unfold info_update. simpl. rewrite Hp. simpl.
      apply (Cleanable_reparent _ _ _ _ (ch_ParentID ch)); [by apply tree_lookup|tauto..]. }
    apply (settled_weaken _ (λ j, j = ch_ParentID ch ∨ j = p)) in Hs2; [|tauto].
    assert (cm_oracle c2 = []) as Ho2 by done.
    destruct (Z.eqb_spec (ch_ParentID ch) 0) as [E0|N0], (Z.eqb_spec (ch_ParentID ch) p) as [Ep|Np],
      (Z.eqb_spec p 0) as [P0|NP]; cbn [negb andb mbind_ mret reconcile mput fst].
    all: first
      [ by apply calm_reconcile_2
      | apply calm_reconcile; [eapply settled_weaken; [|exact Hs2]; simpl; lia|done]
      | split; [eapply settled_weaken; [|exact Hs2]; simpl; lia|done] ].
  - split; [|done]. assert (settled_but (λ j, False ∨ False) c2) as Hs2.
    { apply (settled_update _ (λ _, False) id _ row); [done..|]. intros j _ _.
      unfold info_update. simpl. rewrite Hp. simpl.
      rewrite insert_id; [done|]. by apply (tree_lookup _ _ ch). }
    eapply settled_weaken; [|exact Hs2]. simpl. tauto.
Qed.

(** ** Deletion *)

Lemma edge_info (m : gmap Z Channel) a b : edge m a b ↔ ∃ t, (tree_info <$> m) !! b = Some (a, t).
Proof.
  unfold edge, tree_info. rewrite lookup_fmap. split.
  - intros (ch & -> & <-). eauto.
  - intros [t Ht]. destruct (m !! b) as [ch|]; [|done]. simpl in Ht. simplify_eq. eauto.
Qed.

Lemma edges_same D c a b : settled_but D c → edge (cm_db c) a b ↔ edge (channels (cm_state c)) a b.
Proof. intros Hs. rewrite !edge_info, (sb_same _ _ Hs). done. Qed.

(** The subtree of [id] in the table. *)
Definition subtree_set (id : Z) (c : CM) : gset Z := list_to_set (db_subtree (cm_db c) id).

Lemma elem_of_mergeChannelIDs groups x : x ∈ mergeChannelIDs groups ↔ 0 < x ∧ x ∈ concat groups.
Proof.
  unfold mergeChannelIDs. rewrite sort_by_perm, elem_of_elements, elem_of_list_to_set.
  apply list_elem_of_filter.
Qed.

(** What repairing stale descendants leaves alone when there are none. *)
Record same_shape (c c' : CM) : Prop := {
  ss_db : cm_db c' = cm_db c;
  ss_tree : tree (cm_state c') = tree (cm_state c);
  ss_places : places (cm_state c') = places (cm_state c);
  ss_oracle : cm_oracle c' = cm_oracle c;
}.

Lemma same_shape_trans c1 c2 c3 : same_shape c1 c2 → same_shape c2 c3 → same_shape c1 c3.
Proof. intros [] []. constructor; congruence. Qed.

Lemma mirror_same D ch row id c :
  settled_but D c → channels (cm_state c) !! id = Some ch → cm_db c !! id = Some row →
  ∃ c', mirrorPersistedChannel row c = (c', Ok tt) ∧ settled_but D c' ∧ same_shape c c'.
Proof.
  intros Hs Hch Hrow. destruct (sb_db_keys _ _ Hs id row Hrow) as [Hid _].
  assert (tree_info row = tree_info ch) as Hsame.
  { pose proof (same_lookup _ _ id Hs) as Hl. rewrite Hrow, Hch in Hl. by apply (inj Some) in Hl. }
  unfold mirrorPersistedChannel, mput. rewrite Hid, (state_UpdateChannel_some id _ ch) by done.
  set (st := with_channels _ _). exists (set_state st c). split; [done|].
  assert (tree st = tree (cm_state c)) as Htree.
  { unfold tree, st. simpl. rewrite fmap_insert. apply insert_id.
    rewrite lookup_fmap, Hch. simpl. f_equal. symmetry. exact Hsame. }
  assert (wf st) as Hw.
  { pose proof (state_UpdateChannel_wf id (persisted_update row) _ (sb_wf _ _ Hs)) as Hw.
    by rewrite (state_UpdateChannel_some id _ ch) in Hw. }
  split; [|by constructor].
  eapply settled_weaken; [|apply (settled_places D (λ _, False) st c Hs Hw Htree); done].
  simpl. tauto.
Qed.

Lemma state_only_calm D dbs ids missing timerIDs c :
  settled_but D c → cm_oracle c = [] → (∀ x, x ∈ ids → is_Some (channels (cm_state c) !! x)) →
  let '(c', r) := state_only dbs ids missing timerIDs c in
  settled_but D c' ∧ same_shape c c' ∧ ∀ m l, r = Ok (m, l) → m = missing.
Proof.
  revert timerIDs c. induction ids as [|id ids IH]; intros timerIDs c Hs Ho Hids; cbn [state_only].
  { split; [done|]. split; [done|]. by intros m l [= <- <-]. }
  case_bool_decide; [apply IH; [done..|set_solver]|].
  rewrite (mbind_Ok _ _ c c c) by done.
  destruct (Hids id) as [ch Hch]; [set_solver|].
  assert (is_Some (cm_db c !! id)) as [row Hrow] by (apply (same_is_Some _ _ id Hs); eauto).
  unfold mtry at 1, mbind_ at 1.
  assert (loadChannelState id c = (c, match ParseChannelType (ch_ChannelType row) with
    | None => Err (CDatabase "invalid stored type") | Some _ => Ok row end)) as ->.
  { unfold loadChannelState. rewrite (mbind_Ok _ _ c c (cm_db c !! id)) by by apply db_read_good.
    rewrite Hrow. by destruct (ParseChannelType _). }
  destruct (ParseChannelType (ch_ChannelType row)); [|done].
  destruct (mirror_same D ch row id c Hs Hch Hrow) as (c1 & Hm & Hs1 & Hsh).
  rewrite (mbind_Ok _ _ _ _ _ Hm).
  match goal with |- let '(_, _) := state_only _ _ _ ?l _ in _ => specialize (IH l c1 Hs1) end.
  ospecialize (IH _ _).
  { by rewrite (ss_oracle _ _ Hsh). }
  { intros x Hx. destruct (Hids x) as [y Hy]; [set_solver|]. apply tree_lookup in Hy.
    rewrite <- (ss_tree _ _ Hsh) in Hy. unfold tree in Hy. rewrite lookup_fmap in Hy.
    by destruct (channels (cm_state c1) !! x). }
  destruct (state_only _ _ _ _ c1) as [c' r]. destruct IH as (? & ? & ?).
  split; [done|]. split; [by eapply same_shape_trans|done].
Qed.

Lemma reconcile_all_calm D l c :
  settled_but D c →
  let c' := foldl (λ c id, reconcileCleanupWatcherLocked id c) c l in
  settled_but D c' ∧ same_shape c c'.
Proof.
  revert c. induction l as [|id l IH]; intros c Hs; simpl; [done|].
  destruct (reconcile_frame id c) as (E1 & E2 & _ & E4).
  destruct (IH (reconcileCleanupWatcherLocked id c)) as [Hs' Hsh].
  { eapply settled_weaken; [|apply settled_reconcile; exact Hs]. simpl. tauto. }
  split; [done|]. eapply same_shape_trans; [|exact Hsh]. constructor; by rewrite ?E1, ?E2, ?E4.
Qed.

Lemma repair_calm D dbids ids c :
  settled_but D c → cm_oracle c = [] → (∀ x, x ∈ ids → is_Some (channels (cm_state c) !! x)) →
  let '(c', r) := reconcileStateOnlyDescendants dbids ids c in
  settled_but D c' ∧ same_shape c c' ∧ ∀ m, r = Ok m → m = [].
Proof.
  intros Hs Ho Hids. unfold reconcileStateOnlyDescendants, mbind_ at 1.
  pose proof (state_only_calm D (list_to_set dbids) ids [] [] c Hs Ho Hids) as Hso.
  destruct (state_only _ ids [] [] c) as [c1 [[m l]|e]]; destruct Hso as (Hs1 & Hsh & Hm); [|done].
  unfold mbind_, reconcile_all, mput. simpl.
  destruct (reconcile_all_calm D (mergeChannelIDs [l]) c1 Hs1) as [Hs2 Hsh2].
  split; [done|]. split; [by eapply same_shape_trans|]. intros m' [= <-]. by apply (Hm m l).
Qed.

Lemma cancel_all_frame l c :
  let c' := foldl (λ c id, cancelCleanupLocked id c) c l in
  cm_state c' = cm_state c ∧ cm_db c' = cm_db c ∧ cm_nextID c' = cm_nextID c ∧
  cm_oracle c' = cm_oracle c ∧
  ∀ j, cm_timers c' !! j = if decide (j ∈ l) then None else cm_timers c !! j.
Proof.
  revert c. induction l as [|id l IH]; intros c; simpl; [done|].
  destruct (IH (cancelCleanupLocked id c)) as (E1 & E2 & E3 & E4 & E5).
  destruct (cancel_frame id c) as (F1 & F2 & F3 & F4 & F5). split_and!; try congruence.
  intros j. rewrite E5, F5, lookup_delete.
  destruct (decide (j ∈ l)), (decide (j ∈ id :: l)), (decide (id = j)); set_solver.
Qed.

Lemma elem_of_subtree_set D id c x :
  settled_but D c →
  x ∈ subtree_set id c ↔
  is_Some (cm_db c !! id) ∧ is_Some (cm_db c !! x) ∧ rtc (edge (cm_db c)) id x.
Proof.
  intros Hs. unfold subtree_set. rewrite elem_of_list_to_set.
  apply elem_of_db_subtree, (sb_db_keys _ _ Hs).
Qed.

(** A member of the subtree other than the root has its parent in it. *)
Lemma subtree_parent D id row c b p t :
  settled_but D c → cm_db c !! id = Some row → b ∈ subtree_set id c →
  tree (cm_state c) !! b = Some (p, t) → p = ch_ParentID row ∧ b = id ∨ p ∈ subtree_set id c.
Proof.
  intros Hs Hrow Hb Hp. rewrite <- (sb_same _ _ Hs) in Hp.
  apply (elem_of_subtree_set D) in Hb as (Hid & Hsb & Hr); [|done].
  apply rtc_inv_r in Hr as [<-|(y & Hry & Hyb)].
  - left. rewrite lookup_fmap, Hrow in Hp. by injection Hp.
  - right. apply edge_info in Hyb as [t' Hyb]. simplify_eq.
    apply (elem_of_subtree_set D); [done|]. split; [done|]. split; [|done].
    apply rtc_inv_r in Hry as [<-|(z & _ & (x & Hx & _))]; [done|by eauto].
Qed.

Lemma settled_delete D id row c ids c' :
  settled_but D c → cm_db c !! id = Some row →
  (∀ x, x ∈ ids ↔ x ∈ subtree_set id c) → (∀ j, 0 < j → D j → j ∈ subtree_set id c) →
  cm_db c' = db_delete id (cm_db c) → cm_nextID c' = cm_nextID c →
  cm_state c' = (RemoveChannels ids (cm_state c)).1 →
  (∀ j, cm_timers c' !! j = if decide (j ∈ ids) then None else cm_timers c !! j) →
  settled_but (λ j, j = ch_ParentID row) c'.
Proof.
  intros Hs Hrow Hids HD Edb En Est Et.
  assert (list_to_set ids = subtree_set id c) as HS by (apply set_eq; intros x; by rewrite elem_of_list_to_set).
  assert (tree (cm_state c') = filter (λ kv, kv.1 ∉ subtree_set id c) (tree (cm_state c))) as Htree.
  { by rewrite Est, tree_RemoveChannels, HS. }
  assert (places (cm_state c') =
    (λ ch, if decide (ch ∈ subtree_set id c) then 0 else ch) <$> places (cm_state c)) as Hpl.
  { rewrite Est, places_RemoveChannels by apply Hs. by rewrite HS. }
  assert (db_delete id (cm_db c) ⊆ cm_db c) as Hsub by apply map_filter_subseteq.
  constructor.
  - rewrite Est. apply RemoveChannels_wf, Hs.
  - rewrite Edb. intros x y Hxy. apply (sb_db_keys _ _ Hs). by eapply lookup_weaken.
  - rewrite Edb, En. intros x [y Hxy]. apply (sb_next _ _ Hs). exists y. by eapply lookup_weaken.
  - rewrite En. apply (sb_next_pos _ _ Hs).
  - rewrite Edb, Htree, <- (sb_same _ _ Hs). apply map_eq. intros j. apply option_eq. intros i.
    rewrite lookup_fmap, fmap_Some. setoid_rewrite map_lookup_filter_Some. simpl.
    rewrite lookup_fmap, fmap_Some. unfold subtree_set. setoid_rewrite elem_of_list_to_set.
    naive_solver.
  - intros j Hj Hpos. rewrite Et, Htree, Hpl.
    destruct (decide (j ∈ ids)) as [Hin|Hout].
    + split; [by intros []|]. intros [[p Hp] _]. exfalso.
      apply map_lookup_filter_Some in Hp as [_ Hp]. by apply Hp, Hids.
    + rewrite Hids in Hout. rewrite Cleanable_remove; [|done..|].
      * apply (sb_timely _ _ Hs); [|done]. naive_solver.
      * intros b t Hb Hbt. destruct (subtree_parent D id row c b j t) as [[-> _]|?]; done.
  - intros j x. rewrite Et. case_decide; [done|]. apply (sb_timers _ _ Hs).
Qed.

Lemma state_only_skip (dbs : gset Z) ids missing timerIDs c :
  (∀ x, x ∈ ids → x ∈ dbs) → state_only dbs ids missing timerIDs c = (c, Ok (missing, timerIDs)).
Proof.
  induction ids as [|id ids IH]; intros Hids; cbn [state_only]; [done|].
  rewrite bool_decide_true by set_solver. apply IH. set_solver.
Qed.

Lemma repair_skip dbids ids c :
  (∀ x, x ∈ ids → x ∈ dbids) → reconcileStateOnlyDescendants dbids ids c = (c, Ok []).
Proof.
  intros Hids. unfold reconcileStateOnlyDescendants.
  rewrite (mbind_Ok _ _ c c ([], [])).
  2:{ apply state_only_skip. intros x Hx. by apply elem_of_list_to_set, Hids. }
  assert (mergeChannelIDs [[]] = []) as Hnil.
  { destruct (mergeChannelIDs [[]]) as [|x l] eqn:Hl; [done|].
    assert (x ∈ mergeChannelIDs [[]]) as [_ Hx]%elem_of_mergeChannelIDs by (rewrite Hl; set_solver).
    simpl in Hx. set_solver. }
  rewrite (mbind_Ok _ _ c c tt); [done|]. unfold reconcile_all, mput. by rewrite Hnil.
Qed.

(** What a completed deletion of [id] reports and leaves. *)
Record deleted (id : Z) (c c' : CM) (res : DeleteResult) : Prop := {
  del_root : dr_RootID res = id;
  del_notified : cm_notified c' = cm_notified c;
  del_ids x : x ∈ dr_ChannelIDs res ↔ x ∈ subtree_set id c;
  del_db : cm_db c' = db_delete id (cm_db c);
  del_tree : tree (cm_state c') = filter (λ kv, kv.1 ∉ subtree_set id c) (tree (cm_state c));
  del_places : places (cm_state c') =
    (λ ch, if decide (ch ∈ subtree_set id c) then 0 else ch) <$> places (cm_state c);
  del_members cid ch : (cid, ch) ∈ dr_Members res ↔
    ch ∈ subtree_set id c ∧ places (cm_state c) !! cid = Some ch;
}.

Lemma subtree_set_pos D id c x : settled_but D c → x ∈ subtree_set id c → 0 < x.
Proof.
  intros Hs Hx. apply (elem_of_subtree_set D) in Hx as (_ & [y Hy] & _); [|done].
  by destruct (sb_db_keys _ _ Hs x y Hy).
Qed.

Lemma RemoveChannels_members ids st cid ch :
  wf st → (∀ x, x ∈ ids → 0 < x) →
  mkRemoved cid ch ∈ rr_Members (RemoveChannels ids st).2 ↔ ch ∈ ids ∧ places st !! cid = Some ch.
Proof.
  intros Hw Hpos. pose proof (removeChannels_loop_spec ids st ∅ []) as Hl. unfold RemoveChannels.
  destruct (removeChannels_loop ids st ∅ []) as [[m' aff] rem]. destruct Hl as [_ Hrem]. simpl.
  rewrite sort_by_perm, Hrem. simpl. rewrite (wf_member st (wf_m _ Hw)). unfold places.
  rewrite lookup_fmap, fmap_Some. split.
  - intros [?|(Hin & _ & cl & -> & <-)]; [set_solver|eauto].
  - intros (Hin & cl & Hcl & ->). right. specialize (Hpos _ Hin). split; [done|]. split; [lia|eauto].
Qed.

Lemma reconcile_notified id c : cm_notified (reconcileCleanupWatcherLocked id c) = cm_notified c.
Proof. unfold reconcileCleanupWatcherLocked, cancelCleanupLocked. by repeat case_match. Qed.

Lemma cancel_all_notified l c :
  cm_notified (foldl (λ c id, cancelCleanupLocked id c) c l) = cm_notified c.
Proof.
  revert c. induction l as [|id l IH]; intros c; simpl; [done|]. rewrite IH.
  unfold cancelCleanupLocked. by case_match.
Qed.

Lemma delete_present D id row c :
  settled_but D c → cm_oracle c = [] → cm_db c !! id = Some row →
  (∀ j, 0 < j → D j → j ∈ subtree_set id c) →
  ∃ c' res, deleteChannelLocked id c = (c', Ok res) ∧ calm c' ∧ deleted id c c' res.
Proof.
  intros Hs Ho Hrow HD. unfold deleteChannelLocked. rewrite (mbind_Ok _ _ c c c) by done.
  rewrite (mbind_Ok _ _ c c (db_subtree (cm_db c) id, ch_ParentID row)).
  2:{ unfold loadChannelSubtree. rewrite db_read_good by done. by rewrite Hrow. }
  rewrite (mbind_Ok _ _ c c c) by done.
  assert (id ∈ db_subtree (cm_db c) id) as Hin.
  { apply elem_of_db_subtree; [apply (sb_db_keys _ _ Hs)|]. rewrite Hrow.
    split_and!; [done|done|constructor]. }
  assert (∀ x, x ∈ stateChannelSubtreeIDs id (cm_state c) → x ∈ db_subtree (cm_db c) id) as Hstate.
  { intros x Hx. apply elem_of_state_subtree in Hx as [Hx Hr]; [|by eapply settled_stok].
    apply elem_of_db_subtree; [apply (sb_db_keys _ _ Hs)|]. rewrite Hrow. split; [eauto|].
    split; [by apply (same_is_Some _ _ x Hs)|].
    eapply rtc_subrel; [|exact Hr]. intros a b Hab. by apply (edges_same D). }
  assert (bool_decide (db_subtree (cm_db c) id = []) = false) as Hne.
  { apply bool_decide_false. intros Heq. rewrite Heq in Hin. set_solver. }
  rewrite Hne. cbn [andb]. rewrite (mbind_Ok _ _ c c []) by by apply repair_skip.
  rewrite (mbind_Ok _ _ c (set_db (db_delete id (cm_db c)) c) tt).
  2:{ unfold delete_rows. rewrite (mbind_Ok _ _ c c Good) by (by apply db_call_good).
      rewrite (mbind_Ok _ _ c (set_db (db_delete id (cm_db c)) c) tt) by done.
      rewrite (mbind_Ok _ _ _ (set_db (db_delete id (cm_db c)) c) Good); [done|].
      by apply db_call_good. }
  set (ids := mergeChannelIDs [db_subtree (cm_db c) id; []]).
  assert (∀ x, x ∈ ids ↔ x ∈ subtree_set id c) as Hids.
  { intros x. unfold ids. rewrite elem_of_mergeChannelIDs. simpl. rewrite app_nil_r.
    split; [intros [_ ?]; by apply elem_of_list_to_set|]. intros Hx.
    split; [by eapply subtree_set_pos|]. unfold subtree_set in Hx. by rewrite elem_of_list_to_set in Hx. }
  set (c1 := set_db _ c). destruct (cancel_all_frame ids c1) as (E1 & E2 & E3 & E4 & E5).
  set (c2 := foldl (λ c id, cancelCleanupLocked id c) c1 ids) in *.
  rewrite (mbind_Ok _ _ c1 c2 tt) by done. rewrite (mbind_Ok _ _ c2 c2 c2) by done.
  pose proof (λ cid ch, RemoveChannels_members ids (cm_state c) cid ch (sb_wf _ _ Hs)) as Hmem.
  pose proof (tree_RemoveChannels ids (cm_state c)) as Htree.
  pose proof (places_RemoveChannels ids _ (sb_wf _ _ Hs)) as Hpl.
  assert (list_to_set ids = subtree_set id c) as HS by (apply set_eq; intros x; by rewrite elem_of_list_to_set).
  rewrite E1. cbn [cm_state set_db c1].
  destruct (RemoveChannels ids (cm_state c)) as [st removed] eqn:HRem. cbn [fst snd] in *.
  rewrite (mbind_Ok _ _ c2 (set_state st c2) tt) by done.
  assert (settled_but (λ j, j = ch_ParentID row) (set_state st c2)) as Hs2.
  { apply (settled_delete D id row c ids); try done. by rewrite HRem. }
  set (res := {| dr_RootID := id |}).
  set (c3 := if negb (ch_ParentID row =? 0)
             then reconcileCleanupWatcherLocked (ch_ParentID row) (set_state st c2) else set_state st c2).
  exists c3, res.
  assert (calm c3 ∧ cm_state c3 = st ∧ cm_db c3 = db_delete id (cm_db c)) as (Hcalm & Hst & Hdb).
  { unfold c3. destruct (Z.eqb_spec (ch_ParentID row) 0); simpl.
    - split; [|done]. split; [|by rewrite <- Ho]. eapply settled_weaken; [|exact Hs2]. simpl. lia.
    - destruct (reconcile_frame (ch_ParentID row) (set_state st c2)) as (F1 & F2 & _ & _).
      rewrite F1, F2. split; [|done]. apply calm_reconcile; [done|by rewrite <- Ho]. }
  split; [|split; [done|]].
  - rewrite (mbind_Ok _ _ _ c3 tt); [done|]. unfold c3. by destruct (negb (ch_ParentID row =? 0)).
  - constructor; try done.
    + unfold c3, c2. case_match; rewrite ?reconcile_notified; simpl; by rewrite cancel_all_notified.
    + by rewrite Hst, <- HS.
    + by rewrite Hst, <- HS.
    + intros cid ch. simpl. rewrite list_elem_of_fmap, <- Hids, <- Hmem.
      2:{ intros x Hx. eapply (subtree_set_pos D id c); [done|]. by apply Hids. }
      split; [intros ([a b] & [= -> ->] & Hr); done|]. intros Hr. by exists (mkRemoved cid ch).
Qed.

Lemma delete_absent D id c :
  settled_but D c → cm_oracle c = [] → cm_db c !! id = None →
  let '(c', r) := deleteChannelLocked id c in
  settled_but D c' ∧ same_shape c c' ∧ ∃ e, r = Err e.
Proof.
  intros Hs Ho Hrow. unfold deleteChannelLocked. rewrite (mbind_Ok _ _ c c c) by done.
  assert (db_subtree (cm_db c) id = []) as Hsub by (unfold db_subtree; by rewrite Hrow).
  rewrite (mbind_Ok _ _ c c ([], 0)).
  2:{ unfold loadChannelSubtree. rewrite db_read_good by done. by rewrite Hrow, Hsub. }
  rewrite (mbind_Ok _ _ c c c) by done. rewrite bool_decide_true by done. cbn [andb].
  case_bool_decide as Hnil; [by split; [|split; [|eauto]]|].
  unfold mbind_ at 1.
  pose proof (repair_calm D [] (stateChannelSubtreeIDs id (cm_state c)) c Hs Ho) as Hr.
  ospecialize (Hr _).
  { intros x Hx. apply elem_of_state_subtree in Hx as [Hx _]; [done|by eapply settled_stok]. }
  destruct (reconcileStateOnlyDescendants [] _ c) as [c1 [m|e]]; destruct Hr as (Hs1 & Hsh & Hm).
  2:{ by split; [|split; [|eauto]]. }
  rewrite (Hm m eq_refl), bool_decide_true by done. by split; [|split; [|eauto]].
Qed.

Lemma calm_DeleteChannelSubtree id c : calm c → calm (DeleteChannelSubtree id c).1.
Proof.
  intros [Hs Ho]. unfold DeleteChannelSubtree. destruct (cm_db c !! id) as [row|] eqn:Hrow.
  - by destruct (delete_present (λ _, False) id row c Hs Ho Hrow) as (c' & res & -> & ? & _).
  - pose proof (delete_absent _ id c Hs Ho Hrow) as Hd.
    destruct (deleteChannelLocked id c) as [c' r]. destruct Hd as (? & Hsh & _).
    split; [done|]. simpl. by rewrite (ss_oracle _ _ Hsh).
Qed.

(** ** The timer callback *)

Lemma settled_stopped id c :
  settled c → settled_but (λ j, j = id) (set_timers (delete id (cm_timers c)) c).
Proof.
  intros [H1 H2 H3 H4 H5 H6 H7]. constructor; try done.
  - intros j Hj Hpos. simpl. rewrite lookup_delete_ne by done. apply H6; [tauto|done].
  - unfold timers_pos. simpl. by apply map_Forall_delete.
Qed.

Lemma calm_cleanupCallback id expected c : calm c → calm (cleanupCallback id expected c).1.
Proof.
  intros Hc. pose proof Hc as [Hs Ho]. unfold cleanupCallback. rewrite (mbind_Ok _ _ c c c) by done.
  destruct (cm_timers c !! id) as [active|] eqn:Hact; [|done]. destruct (_ || _); [done|].
  set (c1 := set_timers (delete id (cm_timers c)) c).
  rewrite (mbind_Ok _ _ c c1 tt) by done. rewrite (mbind_Ok _ _ c1 c1 c1) by done.
  pose proof (settled_stopped id c Hs) as Hs1. fold c1 in Hs1.
  pose proof (settled_stok _ _ Hs) as Hst.
  assert (cleanable id (cm_state c) = true) as Hcl.
  { apply cleanable_iff; [done|]. apply (sb_timely _ _ Hs); [tauto| |by eauto].
    by apply (sb_timers _ _ Hs id active). }
  assert (is_Some (cm_db c !! id)) as [row Hrow].
  { apply (same_is_Some _ _ id Hs). unfold cleanable, GetChannel in Hcl.
    destruct (channels (cm_state c) !! id); [eauto|done]. }
  change (cm_state c1) with (cm_state c). rewrite Hcl. cbn [negb]. unfold mtry, mbind_ at 1.
  destruct (delete_present _ id row c1 Hs1 Ho Hrow) as (c' & res & -> & Hcalm & Hdel).
  { intros j _ ->. apply (elem_of_subtree_set _ _ _ _ Hs1). change (cm_db c1) with (cm_db c).
    rewrite Hrow. split_and!; [done|done|constructor]. }
  destruct (dr_RootID res =? 0); [done|].
  destruct Hcalm as [Hs' Ho']. split; [|done]. destruct Hs'. by constructor.
Qed.

End safety.
