(* ===== verification/ChannelProps.v ===== *)
(** * Properties of the channel lifecycle

    Built on [ChannelSafety]: the invariant of every run whose database calls
    succeed, the exact effect of subtree deletion and of the timer callback; and,
    for a database that may fail at any call or hide a commit behind an error,
    that a reported success means both copies were updated and that no
    re-parenting can tie the tree into a cycle. *)

From S2P Require Import Prelude StateManager StateInvariant StateSpec ChannelManager ChannelTree ChannelSettled ChannelSafety.

Section props.

Context `{!∀ V, MapRange Z V}.
Variable HashPassword : string → option string.

(** ** Start-up *)

(** A manager before [LoadIntoState]: rows in the table, no channel in memory. *)
Record starting (c : CM) : Prop := {
  st_wf : wf (cm_state c);
  st_empty : channels (cm_state c) = ∅;
  st_keys : keyed_channels (cm_db c);
  st_counts : map_Forall (λ _ ch, ch_ClientCount ch = 0) (cm_db c);
  st_next id : is_Some (cm_db c !! id) → id < cm_nextID c;
  st_next_pos : 0 < cm_nextID c;
  st_timers : cm_timers c = ∅;
  st_oracle : cm_oracle c = [];
}.

Definition add_rows (rows : list Channel) (st : Manager) : Manager :=
  foldl (λ st ch, AddChannel (Some ch) st) st rows.

Lemma load_rows_Ok rows n temps c c' n' temps' :
  cm_oracle c = [] → load_rows rows n temps c = (c', Ok (n', temps')) →
  c' = set_state (add_rows rows (cm_state c)) c ∧
  temps' = temps ++ (ch_ChannelID <$> filter (λ ch, ch_ChannelType ch = ChannelTypeTemporary) rows).
Proof.
  revert n temps c. induction rows as [|ch rows IH]; intros n temps c Ho; cbn [load_rows].
  { intros [= <- <- <-]. rewrite filter_nil, app_nil_r. by destruct c. }
  rewrite (mbind_Ok _ _ c c Good) by by apply db_call_good.
  destruct (ParseChannelType (ch_ChannelType ch)) as [ty|] eqn:Hp; [|done].
  assert (ty = ch_ChannelType ch) as ->.
  { unfold ParseChannelType in Hp. repeat (case_match; bools; [congruence|]). done. }
  rewrite (mbind_Ok _ _ c (set_state (AddChannel (Some ch) (cm_state c)) c) tt) by done.
  intros Hl. apply IH in Hl as [-> ->]; [|done]. split; [done|].
  rewrite filter_cons. destruct (Z.eqb_spec (ch_ChannelType ch) ChannelTypeTemporary) as [Ht|Ht].
  - rewrite decide_True by done. by rewrite fmap_cons, <- app_assoc.
  - by rewrite decide_False.
Qed.

Lemma add_rows_spec (db : gmap Z Channel) rows st :
  (∀ ch, ch ∈ rows → db !! ch_ChannelID ch = Some ch ∧ 0 < ch_ChannelID ch ∧ ch_ClientCount ch = 0) →
  (∀ ch, fam_get ch (membership st) = ∅) → wf st →
  wf (add_rows rows st) ∧ clients (add_rows rows st) = clients st ∧
  (∀ id, channels (add_rows rows st) !! id =
     if decide (id ∈ ch_ChannelID <$> rows) then db !! id else channels st !! id).
Proof.
  revert st. induction rows as [|ch rows IH]; intros st Hrows Hmem Hw; simpl; [done|].
  destruct (Hrows ch) as (Hdb & Hpos & Hcnt); [set_solver|].
  destruct (IH (AddChannel (Some ch) st)) as (IH1 & IH2 & IH3).
  - set_solver.
  - done.
  - apply AddChannel_wf; [lia| |done]. by rewrite Hmem, Hcnt.
  - split; [done|]. split; [done|]. intros id. unfold add_rows in IH3. rewrite IH3. simpl.
    rewrite lookup_insert. change (cloneChannel ch) with ch.
    destruct (decide (ch_ChannelID ch = id)) as [<-|Hne].
    + destruct (decide (_ ∈ _ :: _)) as [_|Hn]; [|destruct Hn; by left].
      case_decide; [done|]. by rewrite Hdb.
    + destruct (decide (id ∈ _ :: _)) as [[?|Hin]%elem_of_cons|Hn]; [done|by rewrite decide_True|].
      rewrite decide_False; [done|]. intros Hin. apply Hn. by right.
Qed.

Lemma elem_of_rows_by_id (db : gmap Z Channel) ch :
  ch ∈ rows_by_id db ↔ ∃ id, db !! id = Some ch.
Proof.
  unfold rows_by_id. rewrite list_elem_of_omap. split; [naive_solver|].
  intros [id Hid]. exists id. split; [|done]. rewrite sort_by_perm, list_elem_of_fmap.
  exists (id, ch). by rewrite elem_of_map_to_list.
Qed.

Lemma settled_reconcile_all D l c :
  settled_but D c →
  settled_but (λ j, D j ∧ j ∉ l) (foldl (λ c id, reconcileCleanupWatcherLocked id c) c l).
Proof.
  revert D c. induction l as [|id l IH]; intros D c Hs; simpl.
  - eapply settled_weaken; [|exact Hs]. simpl. set_solver.
  - apply (settled_reconcile _ id) in Hs. apply IH in Hs.
    eapply settled_weaken; [|exact Hs]. simpl. set_solver.
Qed.

Lemma calm_LoadIntoState c c' n : starting c → LoadIntoState c = (c', Ok n) → calm c'.
Proof.
  intros [Hw Hemp Hk Hcnt Hn Hn0 Htm Ho]. unfold LoadIntoState.
  rewrite (mbind_Ok _ _ c c (rows_by_id (cm_db c))) by by apply db_read_good.
  unfold mbind_. destruct (load_rows (rows_by_id (cm_db c)) 0 [] c) as [c1 [[n1 temps]|e]] eqn:Hl; [|done].
  apply load_rows_Ok in Hl as [-> ->]; [|done]. simpl. intros [= <- _].
  set (rows := rows_by_id (cm_db c)).
  assert (∀ ch, fam_get ch (membership (cm_state c)) = ∅) as Hmem.
  { intros ch. unfold fam_get. destruct (membership (cm_state c) !! ch) eqn:Hm; [|done].
    destruct (wf_member_channel _ (wf_m _ Hw) ch) as [x Hx]; [by eauto|].
    by rewrite Hemp, lookup_empty in Hx. }
  assert (∀ ch, ch ∈ rows → cm_db c !! ch_ChannelID ch = Some ch ∧ 0 < ch_ChannelID ch ∧
    ch_ClientCount ch = 0) as Hrows.
  { intros ch [id Hid]%elem_of_rows_by_id. destruct (Hk id ch Hid) as [-> ?]. eauto. }
  destruct (add_rows_spec (cm_db c) rows (cm_state c) Hrows Hmem Hw) as (Hw1 & Hcl1 & Hch1).
  assert (channels (add_rows rows (cm_state c)) = cm_db c) as Hch.
  { apply map_eq. intros id. rewrite Hch1, Hemp, lookup_empty. case_decide as Hid; [done|].
    destruct (cm_db c !! id) as [ch|] eqn:Hdb; [|done]. destruct Hid.
    apply list_elem_of_fmap. exists ch. destruct (Hk id ch Hdb) as [-> _].
    split; [done|]. apply elem_of_rows_by_id. eauto. }
  set (st := add_rows rows (cm_state c)) in *.
  set (temps := ch_ChannelID <$> filter (λ ch, ch_ChannelType ch = ChannelTypeTemporary) rows).
  assert (settled_but (λ j, j ∈ temps) (set_state st c)) as Hs.
  { constructor; simpl; try done.
    - unfold tree. by rewrite Hch.
    - intros id Hid Hpos. simpl. rewrite Htm, lookup_empty. split; [by intros []|].
      intros [[p Hp] _]. exfalso. apply Hid. unfold tree in Hp. rewrite Hch, lookup_fmap in Hp.
      destruct (cm_db c !! id) as [ch|] eqn:Hdb; [|done]. simpl in Hp.
      apply list_elem_of_fmap. exists ch. destruct (Hk id ch Hdb) as [-> _].
      split; [done|]. apply list_elem_of_filter. split; [by injection Hp|].
      apply elem_of_rows_by_id. eauto.
    - unfold timers_pos. simpl. rewrite Htm. apply map_Forall_empty. }
  split.
  - apply (settled_reconcile_all _ temps) in Hs.
    eapply settled_weaken; [|exact Hs]. simpl. tauto.
  - destruct (reconcile_all_calm _ temps _ Hs) as [_ Hsh]. by rewrite (ss_oracle _ _ Hsh).
Qed.

(** ** Runs *)

(** The lifecycle operations, the timer callback with any token, and the
    operations on the state manager that concern neither the tree nor who is
    where (a client connects, subscribes, speaks, changes its status). *)
Inductive kstep (c : CM) : CM → Prop :=
| k_create spec t : kstep c (CreateChannel HashPassword spec t c).1
| k_delete id : kstep c (DeleteChannelSubtree id c).1
| k_set_type id t : kstep c (SetChannelType id t c).1
| k_update id e : kstep c (UpdateChannel id e c).1
| k_move cid tgt : kstep c (cm_MoveClient cid tgt c).1
| k_leave cid : kstep c (LeaveClient cid c).1
| k_remove cid : kstep c (cm_RemoveClient cid c).1
| k_watch id : kstep c (StartCleanupWatcher id c).1
| k_delay d : kstep c (SetCleanupDelay d c).1
| k_fired id token : kstep c (cleanupCallback id token c).1
| k_state st :
    wf st → tree st = tree (cm_state c) →
    (∀ cid id, 0 < id → places st !! cid = Some id ↔ places (cm_state c) !! cid = Some id) →
    kstep c (set_state st c).

Lemma same_oracle_move cid tgt c : cm_oracle (cm_MoveClient cid tgt c).1 = cm_oracle c.
Proof.
  unfold cm_MoveClient, mbind_, mget, on_state, cancel, reconcile, mput, mret. simpl.
  destruct (ClientChannelState cid (cm_state c)) as [[old ?]|]; [|done].
  destruct (MoveClient cid tgt (cm_state c)) as [st [[]|e]]; [|done]. simpl.
  destruct (cancel_frame tgt (set_state st c)) as (_ & _ & _ & E & _).
  destruct (_ && _); simpl; [|by rewrite E].
  destruct (reconcile_frame old (cancelCleanupLocked tgt (set_state st c))) as (_ & _ & _ & E').
  by rewrite E', E.
Qed.

Lemma same_oracle_leave cid c : cm_oracle (LeaveClient cid c).1 = cm_oracle c.
Proof.
  unfold LeaveClient, mbind_, mget, on_state, reconcile, mput, mret. simpl.
  destruct (ClientChannelState cid (cm_state c)) as [[old ?]|]; [|done].
  destruct (old =? 0); [done|].
  destruct (LeaveChannel cid (cm_state c)) as [st [[]|e]]; [|done]. simpl.
  by destruct (reconcile_frame old (set_state st c)) as (_ & _ & _ & ->).
Qed.

Lemma same_oracle_remove cid c : cm_oracle (cm_RemoveClient cid c).1 = cm_oracle c.
Proof.
  unfold cm_RemoveClient, mbind_, mget, reconcile, mput, mret.
  destruct (GetClient cid (cm_state c)); [|done].
  destruct (RemoveClient cid (cm_state c)) as [st [cl|]]; [|done]. simpl.
  destruct (negb _); [|done]. simpl.
  by destruct (reconcile_frame (cl_ChannelID cl) (set_state st c)) as (_ & _ & _ & ->).
Qed.

Lemma calm_step c c' : calm c → kstep c c' → calm c'.
Proof.
  intros Hc Hstep. pose proof Hc as [Hs Ho]. destruct Hstep.
  - by apply calm_CreateChannel.
  - by apply calm_DeleteChannelSubtree.
  - by apply calm_SetChannelType.
  - by apply calm_UpdateChannel.
  - split; [by apply settled_MoveClient|]. by rewrite same_oracle_move.
  - split; [by apply settled_LeaveClient|]. by rewrite same_oracle_leave.
  - split; [by apply settled_RemoveClient|]. by rewrite same_oracle_remove.
  - split; [by apply settled_reconcile_one|]. simpl.
    by destruct (reconcile_frame id c) as (_ & _ & _ & ->).
  - split; [|done]. simpl. destruct Hs. by constructor.
  - by apply calm_cleanupCallback.
  - split; [|done]. eapply settled_weaken; [|apply (settled_places (λ _, False) (λ _, False) st c Hs)]; [|done..|].
    + simpl. tauto.
    + intros cid id _. auto.
Qed.

Definition reachable_from (c0 : CM) (c : CM) : Prop :=
  ∃ c1 n, LoadIntoState c0 = (c1, Ok n) ∧ rtc kstep c1 c.

Lemma reachable_calm c0 c : starting c0 → reachable_from c0 c → calm c.
Proof.
  intros Hst (c1 & n & Hl & Hr).
  apply (rtc_invariant kstep calm c1); [exact calm_step|by eapply calm_LoadIntoState|done].
Qed.



(** [token] is the pending timer of [id]. *)
Definition active (id : Z) (token : cleanupTimer) (c : CM) : Prop :=
  ∃ t, cm_timers c !! id = Some t ∧ tm_ptr t = tm_ptr token ∧ tm_generation t = tm_generation token.

Lemma leaf_subtree id c :
  settled c → Cleanable (tree (cm_state c)) (places (cm_state c)) id →
  ∀ x, x ∈ subtree_set id c ↔ x = id.
Proof.
  intros Hs ([p Hp] & _ & Hleaf) x. rewrite (elem_of_subtree_set _ _ _ _ Hs).
  assert (is_Some (cm_db c !! id)) as Hid.
  { rewrite <- (sb_same _ _ Hs), lookup_fmap in Hp. by destruct (cm_db c !! id). }
  split.
  - intros (_ & _ & Hr). induction Hr as [|a b d Hab _ IH]; [done|].
    apply edge_info in Hab as [t Hab]. rewrite (sb_same _ _ Hs) in Hab.
    apply Hleaf in Hab as ->. by apply IH.
  - intros ->. split_and!; [done|done|constructor].
Qed.

(** A callback whose token is not the pending one returns at once. *)
Lemma cleanupCallback_stale id token c :
  ¬ active id token c → (cleanupCallback id token c).1 = c.
Proof.
  intros Hna. unfold cleanupCallback. rewrite (mbind_Ok _ _ c c c) by done.
  destruct (cm_timers c !! id) as [t|] eqn:Ht; [|done].
  destruct (Z.eqb_spec (tm_ptr t) (tm_ptr token)) as [E1|]; [|done].
  destruct (Z.eqb_spec (tm_generation t) (tm_generation token)) as [E2|]; [|done].
  destruct Hna. by exists t.
Qed.

(** The pending callback of a cleanable channel deletes it and notifies. *)
Lemma cleanupCallback_current id token t c c2 res :
  cm_timers c !! id = Some t → tm_ptr t = tm_ptr token → tm_generation t = tm_generation token →
  cleanable id (cm_state c) = true →
  deleteChannelLocked id (set_timers (delete id (cm_timers c)) c) = (c2, Ok res) →
  dr_RootID res ≠ 0 →
  cleanupCallback id token c = (set_notified (cm_notified c2 ++ [res]) c2, Ok tt).
Proof.
  intros Ht E1 E2 Hcl Hdel Hres. set (c1 := set_timers (delete id (cm_timers c)) c) in *.
  unfold cleanupCallback. rewrite (mbind_Ok _ _ c c c) by done.
  rewrite Ht, E1, E2, !Z.eqb_refl. cbn [negb orb].
  rewrite (mbind_Ok _ _ c c1 tt) by done. rewrite (mbind_Ok _ _ c1 c1 c1) by done.
  change (cm_state c1) with (cm_state c). rewrite Hcl. cbn [negb].
  unfold mtry, mbind_ at 1. rewrite Hdel.
  assert ((dr_RootID res =? 0) = false) as ->; [by apply Z.eqb_neq|done].
Qed.

(** The timer callback deletes what it was set for and nothing else. A
    callback whose token is no longer the channel's pending timer (the timer was
    cancelled or replaced before the callback ran) changes nothing at all. One
    whose token is pending finds the channel temporary, without members and
    without children, removes that one channel from the table and from the tree,
    moves no client, and notifies the server once, of that channel and of no
    displaced member. *)
Theorem cleanup_callback_safe c0 c id token :
  starting c0 → reachable_from c0 c →
  let c' := (cleanupCallback id token c).1 in
  (¬ active id token c → c' = c) ∧
  (active id token c →
     cleanable id (cm_state c) = true ∧
     tree (cm_state c') = delete id (tree (cm_state c)) ∧
     (∀ x, is_Some (cm_db c' !! x) ↔ is_Some (cm_db c !! x) ∧ x ≠ id) ∧
     places (cm_state c') = places (cm_state c) ∧
     ∃ res, cm_notified c' = cm_notified c ++ [res] ∧
       (∀ x, x ∈ dr_ChannelIDs res ↔ x = id) ∧ ∀ m, m ∉ dr_Members res).
Proof.
  intros Hst Hr. destruct (reachable_calm c0 c Hst Hr) as [Hs Ho]. cbv zeta.
  split.
  - apply cleanupCallback_stale.
  - intros (t & Ht & E1 & E2). set (c1 := set_timers (delete id (cm_timers c)) c).
    pose proof (settled_stok _ _ Hs) as Hok.
    assert (Cleanable (tree (cm_state c)) (places (cm_state c)) id) as Hclean.
    { apply (sb_timely _ _ Hs); [tauto| |by eauto]. by apply (sb_timers _ _ Hs id t). }
    pose proof (proj2 (cleanable_iff id _ Hok) Hclean) as Hcl.
    pose proof (leaf_subtree id c Hs Hclean) as Hsub.
    assert (is_Some (cm_db c !! id)) as [row Hrow].
    { apply (elem_of_subtree_set _ id _ id Hs). by apply Hsub. }
    destruct (delete_present _ id row c1 (settled_stopped id c Hs) Ho Hrow)
      as (c2 & res & Hdel & _ & [D1 D0 D2 D3 D4 D5 D6]).
    { intros j _ ->. by apply (Hsub id). }
    rewrite (cleanupCallback_current id token t c c2 res); try done.
    2: { rewrite D1. destruct (sb_db_keys _ _ Hs id row Hrow). lia. }
    change (subtree_set id c1) with (subtree_set id c) in *.
    change (cm_state c1) with (cm_state c) in *. change (cm_db c1) with (cm_db c) in *.
    cbn [fst cm_state cm_db cm_notified set_notified].
    split; [done|]. split; [|split; [|split]].
    + rewrite D4. apply map_eq. intros x. apply option_eq. intros i.
      rewrite map_lookup_filter_Some, lookup_delete_Some. simpl. rewrite Hsub. naive_solver.
    + intros x. rewrite D3. unfold db_delete, is_Some. setoid_rewrite map_lookup_filter_Some. simpl.
      assert (x ∈ db_subtree (cm_db c) id ↔ x = id) as Hx.
      { rewrite <- Hsub. unfold subtree_set. by rewrite elem_of_list_to_set. }
      naive_solver.
    + rewrite D5. apply map_eq. intros cid. rewrite lookup_fmap.
      destruct (places (cm_state c) !! cid) as [ch|] eqn:Hpl; [|done]. simpl. f_equal.
      case_decide as Hch; [|done]. apply Hsub in Hch as ->. destruct Hclean as (_ & Hno & _).
      by destruct (Hno cid).
    + exists res. rewrite D0. split; [done|]. split; [intros x; by rewrite D2, Hsub|].
      intros [cid ch] Hin. apply D6 in Hin as [Hch Hpl]. apply Hsub in Hch as ->.
      destruct Hclean as (_ & Hno & _). by apply (Hno cid).
Qed.

(** ** A database that may fail *)

Lemma mbind_inv {A B} (m : M A) (k : A → M B) c c' r :
  mbind_ m k c = (c', r) →
  (∃ c1 a, m c = (c1, Ok a) ∧ k a c1 = (c', r)) ∨ (∃ e, m c = (c', Err e) ∧ r = Err e).
Proof. unfold mbind_. destruct (m c) as [c1 [a|e]]; intros Hk; [left|right]; naive_solver. Qed.

(** [c1] differs from [c] at most in the outcomes left to come. *)
Definition only_oracle (c c1 : CM) : Prop := cm_db c1 = cm_db c ∧ cm_state c1 = cm_state c.

Lemma db_call_frame c c1 r : db_call c = (c1, r) → only_oracle c c1 ∧ ∃ o, r = Ok o.
Proof. unfold db_call. destruct (cm_oracle c); intros [= <- <-]; by split; [|eauto]. Qed.

Lemma db_read_frame {A} what (f : gmap Z Channel → A) c c1 r :
  db_read what f c = (c1, r) → only_oracle c c1 ∧ ∀ a, r = Ok a → a = f (cm_db c).
Proof.
  unfold db_read. intros [(c2 & o & Hc & Hk)|(e & Hc & ->)]%mbind_inv.
  - apply db_call_frame in Hc as [Hf _]. destruct o; [|by injection Hk as <- <-..].
    unfold mbind_, mget, mret in Hk. injection Hk as <- <-. split; [done|].
    intros a [= <-]. by rewrite (proj1 Hf).
  - apply db_call_frame in Hc as [_ [o Ho]]. done.
Qed.

Lemma tx_step_frame what c c1 r : tx_step what c = (c1, r) → only_oracle c c1.
Proof.
  unfold tx_step. intros [(c2 & o & Hc & Hk)|(e & Hc & ->)]%mbind_inv;
    apply db_call_frame in Hc as [Hf Ho]; [|by destruct Ho].
  by destruct o; injection Hk as <- <-.
Qed.

Lemma only_oracle_trans c1 c2 c3 : only_oracle c1 c2 → only_oracle c2 c3 → only_oracle c1 c3.
Proof. intros [] []. split; congruence. Qed.

(** A walk to the root that avoids [id]. *)
Inductive climbs (db : gmap Z Channel) (id : Z) : Z → Prop :=
| climbs_top x ch : x ≠ id → db !! x = Some ch → ch_ParentID ch = 0 → climbs db id x
| climbs_up x ch : x ≠ id → db !! x = Some ch → climbs db id (ch_ParentID ch) → climbs db id x.

Lemma ancestry_frame left first id p cur c c1 r :
  ancestry left first id p cur c = (c1, r) →
  only_oracle c c1 ∧ (r = Ok tt → climbs (cm_db c) id cur).
Proof.
  revert first cur c. induction left as [|left IH]; intros first cur c; cbn [ancestry];
    (destruct (Z.eqb_spec cur id) as [Heq|Hne]; [by intros [= <- <-]|]);
    intros [(c2 & o & Hc & Hk)|(e & Hc & ->)]%mbind_inv; apply db_read_frame in Hc as [Hf Ho];
    [| done | | done].
  - destruct o, first; by injection Hk as <- <-.
  - specialize (Ho o eq_refl). destruct o as [row|]; [|destruct first; by injection Hk as <- <-].
    destruct (Z.eqb_spec (ch_ParentID row) 0) as [Hz|Hz].
    { injection Hk as <- <-. split; [done|]. intros _. by eapply climbs_top. }
    apply IH in Hk as [Hf2 Hcl]. split; [by eapply only_oracle_trans|]. intros Hr.
    eapply climbs_up; [done|done|]. rewrite <- (proj1 Hf). by apply Hcl.
Qed.

Lemma validateMoveTx_frame id p c c1 r :
  validateMoveTx id p c = (c1, r) →
  only_oracle c c1 ∧ (r = Ok tt → p = 0 ∨ climbs (cm_db c) id p).
Proof.
  unfold validateMoveTx. intros [(c2 & o & Hc & Hk)|(e & Hc & ->)]%mbind_inv;
    apply db_read_frame in Hc as [Hf Ho]; [|done].
  destruct o; [|by injection Hk as <- <-].
  destruct (Z.eqb_spec p 0) as [->|Hp]; [injection Hk as <- <-; auto|].
  apply ancestry_frame in Hk as [Hf2 Hcl]. split; [by eapply only_oracle_trans|].
  intros Hr. right. rewrite <- (proj1 Hf). auto.
Qed.

Lemma reconcile_db id c : cm_db (reconcileCleanupWatcherLocked id c) = cm_db c.
Proof. by destruct (reconcile_frame id c) as (_ & -> & _). Qed.

Lemma reconcile_state id c : cm_state (reconcileCleanupWatcherLocked id c) = cm_state c.
Proof. by destruct (reconcile_frame id c) as (-> & _). Qed.

Lemma reconcile_all_frame l c :
  let c' := foldl (λ c id, reconcileCleanupWatcherLocked id c) c l in
  cm_db c' = cm_db c ∧ cm_state c' = cm_state c.
Proof.
  revert c. induction l as [|id l IH]; intros c; simpl; [done|].
  destruct (IH (reconcileCleanupWatcherLocked id c)) as [-> ->].
  by rewrite reconcile_db, reconcile_state.
Qed.

Lemma loadChannelState_frame id c c1 r :
  loadChannelState id c = (c1, r) →
  only_oracle c c1 ∧ ∀ ch, r = Ok ch → cm_db c !! id = Some ch.
Proof.
  unfold loadChannelState. intros [(c2 & o & Hc & Hk)|(e & Hc & ->)]%mbind_inv;
    apply db_read_frame in Hc as [Hf Ho]; [|done].
  specialize (Ho o eq_refl). destruct o as [row|]; [|by injection Hk as <- <-].
  destruct (ParseChannelType (ch_ChannelType row)); injection Hk as <- <-; [|done].
  split; [done|]. by intros ch [= <-].
Qed.

Lemma persisted_matches e row ch :
  channelMatchesUpdate row e = true → channelMatchesUpdate (apply_update (persisted_update row) ch) e = true.
Proof. done. Qed.

Lemma edit_matches e ch : channelMatchesUpdate (apply_update (edit_update e) ch) e = true.
Proof.
  unfold channelMatchesUpdate, agrees. simpl. rewrite !andb_true_iff.
  split_and!; (case_match eqn:He; [|done]); simpl; by apply bool_decide_eq_true.
Qed.

Lemma mirrorPersisted_matches e row c :
  channelMatchesUpdate row e = true →
  ∃ c1, mirrorPersistedChannel row c = (c1, Ok tt) ∧ cm_db c1 = cm_db c ∧
    ∃ ch, channels (cm_state c1) !! ch_ChannelID row = Some ch ∧ channelMatchesUpdate ch e = true.
Proof.
  intros Hm. unfold mirrorPersistedChannel, mput, state_UpdateChannel.
  destruct (channels (cm_state c) !! ch_ChannelID row) as [ch|]; eexists; (split; [done|]);
    (split; [done|]); eexists; (split; [simpl; apply lookup_insert_eq|done]).
Qed.

Lemma mirrorUpdate_matches id e c c1 b :
  keyed_channels (cm_db c) → (∃ row, cm_db c !! id = Some row ∧ channelMatchesUpdate row e = true) →
  mirrorChannelUpdate id (edit_update e) c = (c1, Ok b) →
  cm_db c1 = cm_db c ∧ ∃ ch, channels (cm_state c1) !! id = Some ch ∧ channelMatchesUpdate ch e = true.
Proof.
  intros Hk (row & Hrow & Hm). unfold mirrorChannelUpdate, mbind_ at 1, mget at 1, state_UpdateChannel.
  destruct (channels (cm_state c) !! id) as [ch|] eqn:Hch.
  - intros [= <- <-]. split; [done|]. eexists. split; [simpl; apply lookup_insert_eq|]. apply edit_matches.
  - intros [(c2 & x & Hl & Hk2)|(e' & _ & ?)]%mbind_inv; [|done].
    apply loadChannelState_frame in Hl as [[Hdb Hst] Hx]. specialize (Hx x eq_refl).
    assert (x = row) as -> by congruence. destruct (Hk id row Hrow) as [Hid _].
    unfold mbind_, mput, mget, GetChannel, AddChannel, cloneChannel in Hk2. simpl in Hk2.
    rewrite Hid, lookup_insert_eq in Hk2. injection Hk2 as <- <-. split; [done|].
    exists row. simpl. by rewrite lookup_insert_eq.
Qed.

Lemma mirrorChannelUpdate_db id u c : cm_db (mirrorChannelUpdate id u c).1 = cm_db c.
Proof.
  unfold mirrorChannelUpdate, mbind_ at 1, mget at 1.
  destruct (state_UpdateChannel id u (cm_state c)) as [st []]; [done|].
  destruct (mbind_ (loadChannelState id) _ c) as [c1 r] eqn:Hb.
  apply mbind_inv in Hb as [(c2 & x & Hl & Hk2)|(e' & Hl & ?)];
    apply loadChannelState_frame in Hl as [[Hdb _] _]; [|done].
  unfold mbind_, mput, mget in Hk2. destruct (GetChannel id _); by injection Hk2 as <- <-.
Qed.

(** Reading the row back after an ambiguous commit. *)
Lemma reconcilePersisted_frame e id c c1 r :
  keyed_channels (cm_db c) → reconcilePersistedChannel id c = (c1, r) →
  cm_db c1 = cm_db c ∧
  ∀ row, r = Ok row → cm_db c !! id = Some row ∧
    (channelMatchesUpdate row e = true →
     ∃ ch, channels (cm_state c1) !! id = Some ch ∧ channelMatchesUpdate ch e = true).
Proof.
  intros Hk. unfold reconcilePersistedChannel.
  intros [(c2 & x & Hl & Hk2)|(e' & Hl & ->)]%mbind_inv;
    apply loadChannelState_frame in Hl as [[Hdb Hst] Hx]; [|done].
  specialize (Hx x eq_refl). destruct (Hk id x Hx) as [Hid _].
  assert (cm_db c1 = cm_db c2 ∧ r = Ok x) as [Hdb2 ->].
  { unfold mbind_, mirrorPersistedChannel, mput, mret in Hk2.
    destruct (state_UpdateChannel _ _ _) as [st []]; by injection Hk2 as <- <-. }
  split; [congruence|]. intros row [= <-]. split; [done|]. intros Hm.
  destruct (mirrorPersisted_matches e x c2 Hm) as (c3 & Hmir & _ & ch & Hch & Hmch).
  unfold mbind_ in Hk2. rewrite Hmir in Hk2. injection Hk2 as <-. rewrite Hid in Hch. eauto.
Qed.

(** The part of [UpdateChannel] after the transaction was prepared. *)
Lemma keyed_alter u id db : keyed_channels db → keyed_channels (alter (apply_update u) id db).
Proof.
  intros Hk j x. rewrite lookup_alter_Some.
  intros [(-> & x0 & Hx0 & ->)|[_ Hx]]; [simpl|]; by apply Hk.
Qed.

Lemma commit_frame f c c1 r :
  commit f c = (c1, r) →
  cm_state c1 = cm_state c ∧
  ((r = Ok true ∧ cm_db c1 = f (cm_db c)) ∨ (r = Ok false ∧ (cm_db c1 = f (cm_db c) ∨ cm_db c1 = cm_db c))).
Proof.
  unfold commit. intros [(c2 & o & Hc & Hk)|(e & Hc & ->)]%mbind_inv;
    apply db_call_frame in Hc as [[Hdb Hst] Ho]; [|by destruct Ho].
  unfold mbind_, mput, mret in Hk. destruct o; injection Hk as <- <-; simpl; rewrite ?Hdb, ?Hst; auto.
Qed.

(** What [UpdateChannel] did to the table, and what a success means. *)
Lemma UpdateChannel_spec id e c c' r :
  keyed_channels (cm_db c) → UpdateChannel id e c = (c', r) →
  (cm_db c' = cm_db c ∨
   cm_db c' = alter (apply_update (edit_update e)) id (cm_db c) ∧ is_Some (cm_db c !! id) ∧
   ∀ p, ed_ParentID e = Some p → p = 0 ∨ climbs (cm_db c) id p) ∧
  (r = Ok tt → edit_empty e = false →
   (∃ row, cm_db c' !! id = Some row ∧ channelMatchesUpdate row e = true) ∧
   (∃ ch, channels (cm_state c') !! id = Some ch ∧ channelMatchesUpdate ch e = true)).
Proof.
  intros Hk. unfold UpdateChannel. destruct (_ || _); [intros [= <- <-]; by split; [left|]|].
  destruct (edit_empty e); [intros [= <- <-]; by split; [left|]|].
  unfold mbind_ at 1, mget at 1. set (old := match ed_ParentID e with Some _ => _ | None => 0 end).
  intros [(c1 & [] & H1 & Hk1)|(er & H1 & ->)]%mbind_inv; apply tx_step_frame in H1 as [D1 S1];
    [|by split; [left|]].
  apply mbind_inv in Hk1 as [(c2 & [] & H2 & Hk2)|(er & H2 & ->)].
  2:{ destruct (ed_ParentID e); [|by injection H2 as <-].
      apply validateMoveTx_frame in H2 as [[D2 _] _]. split; [left; congruence|done]. }
  assert (cm_db c2 = cm_db c ∧ ∀ p, ed_ParentID e = Some p → p = 0 ∨ climbs (cm_db c) id p) as [D2 Hv].
  { destruct (ed_ParentID e) as [p|]; [|injection H2 as <-; by split; [congruence|]].
    apply validateMoveTx_frame in H2 as [[D2 _] Hcl]. split; [congruence|].
    intros p' [= <-]. rewrite <- D1. auto. }
  apply mbind_inv in Hk2 as [(c3 & [] & H3 & Hk3)|(er & H3 & ->)]; apply tx_step_frame in H3 as [D3 S3];
    [|split; [left; congruence|done]].
  apply mbind_inv in Hk3 as [(c4 & found & H4 & Hk4)|(er & H4 & ->)];
    apply db_read_frame in H4 as [[D4 S4] Hfound]; [|split; [left; congruence|done]].
  specialize (Hfound found eq_refl). assert (cm_db c4 = cm_db c) as E4 by congruence.
  assert (found = cm_db c !! id) as -> by congruence. clear Hfound.
  destruct (cm_db c !! id) as [row|] eqn:Hrow; [|injection Hk4 as <- <-; split; [by left|done]].
  apply mbind_inv in Hk4 as [(c5 & committed & H5 & Hk5)|(er & H5 & ->)];
    apply commit_frame in H5 as [S5 Hcom]; [|destruct Hcom as [[? _]|[? _]]; done].
  set (f := alter (apply_update (edit_update e)) id).
  assert (cm_db c5 = f (cm_db c) ∨ (committed = false ∧ cm_db c5 = cm_db c)) as E5.
  { rewrite E4 in Hcom. naive_solver. }
  assert (keyed_channels (cm_db c5)) as Hk5'.
  { destruct E5 as [->|[_ ->]]; [by apply keyed_alter|done]. }
  assert ((cm_db c5 = cm_db c ∨ cm_db c5 = f (cm_db c) ∧ is_Some (Some row) ∧
    ∀ p, ed_ParentID e = Some p → p = 0 ∨ climbs (cm_db c) id p)) as Hfirst.
  { destruct E5 as [->|[_ ->]]; [right; eauto|by left]. }
  destruct committed; cbn [negb] in Hk5.
  - assert (cm_db c5 = f (cm_db c)) as E5' by naive_solver.
    pose proof (mirrorChannelUpdate_db id (edit_update e) c5) as D6.
    pose proof (λ c6 b, mirrorUpdate_matches id e c5 c6 b Hk5') as Hmir.
    unfold mtry, mbind_ at 1 in Hk5.
    destruct (mirrorChannelUpdate id (edit_update e) c5) as [c6 [b|er]]; simpl in D6.
    2:{ injection Hk5 as <- <-. rewrite D6. by split. }
    assert (cm_db c' = cm_db c6 ∧ cm_state c' = cm_state c6) as [-> ->].
    { unfold mbind_, reconcile, mput, mret in Hk5.
      destruct b, (ed_ParentID e) as [p|]; repeat case_match; simplify_eq;
        by rewrite ?reconcile_db, ?reconcile_state. }
    rewrite D6. split; [done|]. intros _ _.
    assert (∃ row, cm_db c5 !! id = Some row ∧ channelMatchesUpdate row e = true) as Hr.
    { rewrite E5'. unfold f. rewrite lookup_alter_eq, Hrow. simpl. eexists. split; [done|]. apply edit_matches. }
    split; [done|]. by apply (Hmir c6 b).
  - unfold mtry, mbind_ at 1 in Hk5.
    destruct (reconcilePersistedChannel id c5) as [c6 rr] eqn:Hrec.
    apply (reconcilePersisted_frame e) in Hrec as [D6 Hrow6]; [|done].
    destruct rr as [channel|er]; [|injection Hk5 as <- <-; rewrite D6; by split].
    destruct (Hrow6 channel eq_refl) as [Hdb6 Hch6].
    assert (cm_db c' = cm_db c6 ∧ cm_state c' = cm_state c6 ∧
      (r = Ok tt → channelMatchesUpdate channel e = true)) as (-> & -> & Hok).
    { unfold mbind_, reconcile, reconcile_all, mput, mret, mthrow in Hk5.
      destruct (ed_ParentID e) as [p|]; destruct (channelMatchesUpdate channel e) eqn:Hme;
        simpl in Hk5; injection Hk5 as <- <-;
        rewrite ?(proj1 (reconcile_all_frame _ _)), ?(proj2 (reconcile_all_frame _ _)),
          ?reconcile_db, ?reconcile_state; done. }
    rewrite D6. split; [done|]. intros Hr _. specialize (Hok Hr). split; [by exists channel|auto].
Qed.

(** When [UpdateChannel] reports success, the edit is in both copies: whatever
    database calls failed on the way, and also when the commit reported an error
    but had taken effect, the row of the table and the channel in memory both
    carry every value of the edit. *)
Theorem update_ok_means_both id e c c' :
  keyed_channels (cm_db c) → edit_empty e = false → UpdateChannel id e c = (c', Ok tt) →
  (∃ row, cm_db c' !! id = Some row ∧ channelMatchesUpdate row e = true) ∧
  (∃ ch, channels (cm_state c') !! id = Some ch ∧ channelMatchesUpdate ch e = true).
Proof.
  intros Hk He Hu. destruct (UpdateChannel_spec id e c c' _ Hk Hu) as [_ Hok]. auto.
Qed.

(** Every channel of the table is under a root. *)
Inductive rooted (db : gmap Z Channel) : Z → Prop :=
| rooted_top x ch : db !! x = Some ch → ch_ParentID ch = 0 → rooted db x
| rooted_up x ch : db !! x = Some ch → rooted db (ch_ParentID ch) → rooted db x.

Definition forest (db : gmap Z Channel) : Prop := ∀ x, is_Some (db !! x) → rooted db x.

Lemma climbs_rooted f db id x : climbs db id x → rooted (alter f id db) x.
Proof.
  induction 1 as [x ch Hne Hx Hz|x ch Hne Hx _ IH].
  - eapply rooted_top; [|done]. by rewrite lookup_alter_ne.
  - eapply rooted_up; [|done]. by rewrite lookup_alter_ne.
Qed.

Lemma forest_alter f id db :
  forest db → rooted (alter f id db) id ∨ db !! id = None → forest (alter f id db).
Proof.
  intros Hf Hid x. rewrite lookup_alter_is_Some. intros Hx. specialize (Hf x Hx). clear Hx.
  destruct Hid as [Hid|Hid].
  - induction Hf as [x ch Hx Hz|x ch Hx _ IH]; destruct (decide (x = id)) as [->|Hne]; [done| |done|].
    + eapply rooted_top; [|done]. by rewrite lookup_alter_ne.
    + eapply rooted_up; [|done]. by rewrite lookup_alter_ne.
  - induction Hf as [x ch Hx Hz|x ch Hx _ IH]; destruct (decide (x = id)) as [->|Hne]; [congruence| |congruence|].
    + eapply rooted_top; [|done]. by rewrite lookup_alter_ne.
    + eapply rooted_up; [|done]. by rewrite lookup_alter_ne.
Qed.

(** No edit can tie the channel table into a cycle. If every row is under a
    root before [UpdateChannel], every row is under a root after it, whatever the
    requested parent, whatever calls of the database fail, and whether the call
    reports success or not. *)
Theorem update_keeps_forest id e c :
  keyed_channels (cm_db c) → forest (cm_db c) → forest (cm_db (UpdateChannel id e c).1).
Proof.
  intros Hk Hf. destruct (UpdateChannel id e c) as [c' r] eqn:Hu. simpl.
  destruct (UpdateChannel_spec id e c c' r Hk Hu) as [[->|(-> & [row Hrow] & Hv)] _]; [done|].
  apply forest_alter; [done|]. left.
  set (db' := alter (apply_update (edit_update e)) id (cm_db c)).
  assert (db' !! id = Some (apply_update (edit_update e) row)) as Hid.
  { unfold db'. by rewrite lookup_alter_eq, Hrow. }
  destruct (ed_ParentID e) as [p|] eqn:Hp.
  - destruct (Hv p eq_refl) as [->|Hcl].
    + eapply rooted_top; [done|]. simpl. by rewrite Hp.
    + eapply rooted_up; [done|]. simpl. rewrite Hp. simpl. by apply climbs_rooted.
  - assert (∀ x, rooted (cm_db c) x → rooted db' x) as Hmono.
    { intros x Hx. induction Hx as [x ch Hx Hz|x ch Hx _ IH]; destruct (decide (x = id)) as [->|Hne].
      - simplify_eq. eapply rooted_top; [done|]. simpl. by rewrite Hp.
      - eapply rooted_top; [|done]. unfold db'. by rewrite lookup_alter_ne.
      - simplify_eq. eapply rooted_up; [done|]. simpl. by rewrite Hp.
      - eapply rooted_up; [|done]. unfold db'. by rewrite lookup_alter_ne. }
    apply Hmono, Hf. eauto.
Qed.

End props.

(** ** Witnesses: a lobby and a temporary room under it *)

#[local] Existing Instance stdpp_range.

Definition no_hash : string → option string := λ s, Some s.

Definition row_of (id parent typ : Z) : Channel :=
  mkChannel id parent "room" "" 0 typ 0 0 0 "" 0 false false 0 false false false 0 "" false.

Definition house_db : gmap Z Channel := {[ 1 := row_of 1 0 2; 2 := row_of 2 1 0 ]}.

Definition house : CM := {|
  cm_state := NewManager; cm_db := house_db; cm_nextID := 3; cm_adminGroup := None;
  cm_groupMembers := []; cm_timers := ∅; cm_nextGeneration := 0; cm_nextPtr := 0;
  cm_delay := DefaultCleanupDelay; cm_oracle := []; cm_notified := [] |}.

Definition opened_house : CM := (LoadIntoState house).1.

Lemma house_keyed : keyed_channels house_db.
Proof.
  unfold house_db. apply map_Forall_insert_2; [done|]. by apply map_Forall_singleton.
Qed.

Lemma house_starting : starting house.
Proof.
  constructor; simpl; try done.
  - apply NewManager_wf.
  - apply house_keyed.
  - unfold house_db. apply map_Forall_insert_2; [done|]. by apply map_Forall_singleton.
  - intros id. unfold house_db. rewrite lookup_insert_is_Some', lookup_singleton_is_Some. lia.
Qed.

Lemma house_reachable : reachable_from no_hash house opened_house.
Proof.
  exists opened_house, 2. split; [|apply rtc_refl]. unfold opened_house.
  assert ((LoadIntoState house).2 = Ok 2) as <- by (vm_compute; reflexivity). by destruct (LoadIntoState house).
Qed.

Lemma subtree_search_exact_witness :
  keyed_channels (channels (cm_state opened_house)) ∧
  ∀ x, x ∈ stateChannelSubtreeIDs 1 (cm_state opened_house) ↔
    is_Some (channels (cm_state opened_house) !! x) ∧ rtc (edge (channels (cm_state opened_house))) 1 x.
Proof.
  split; [exact (proj2 (settled_stok _ _ (proj1 (reachable_calm no_hash house opened_house house_starting house_reachable))))|].
  apply (subtree_search_exact (cm_state opened_house) 1 5).
  exact (proj2 (settled_stok _ _ (proj1 (reachable_calm no_hash house opened_house house_starting house_reachable)))).
Defined.



Lemma cleanup_callback_safe_witness :
  ∃ token, active 2 token opened_house ∧
    tree (cm_state (cleanupCallback 2 token opened_house).1) = delete 2 (tree (cm_state opened_house)).
Proof.
  exists {| tm_ptr := 0; tm_generation := 1; tm_delay := 0 |}.
  assert (active 2 {| tm_ptr := 0; tm_generation := 1; tm_delay := 0 |} opened_house) as Ha.
  { eexists. split; [vm_compute; reflexivity|]. split; reflexivity. }
  split; [exact Ha|].
  apply (cleanup_callback_safe no_hash house opened_house 2 _ house_starting house_reachable), Ha.
Defined.

(** The commit of the edit reports an error although it took effect. *)
Definition shaky_house : CM := set_oracle [Good; Good; Good; BadApplied] opened_house.

Definition topic_edit : ChannelEdit :=
  Build_ChannelEdit (Some "quiet"%string) None None None None None None None None None None None.

Lemma update_ok_means_both_witness :
  ∃ ch, channels (cm_state (UpdateChannel 2 topic_edit shaky_house).1) !! 2 = Some ch ∧
    channelMatchesUpdate ch topic_edit = true.
Proof.
  apply (update_ok_means_both 2 topic_edit shaky_house).
  - exact (sb_db_keys _ _ (proj1 (reachable_calm no_hash house opened_house house_starting house_reachable))).
  - reflexivity.
  - assert ((UpdateChannel 2 topic_edit shaky_house).2 = Ok tt) as <- by (vm_compute; reflexivity).
    by destruct (UpdateChannel 2 topic_edit shaky_house).
Defined.

Definition move_edit (p : Z) : ChannelEdit :=
  Build_ChannelEdit None None None None None None None None None None (Some p) None.

(** The lobby cannot be moved under its own child. *)
Lemma update_keeps_forest_witness :
  (UpdateChannel 1 (move_edit 2) house).2 = Err CInvalidMove ∧
  forest (cm_db (UpdateChannel 1 (move_edit 2) house).1).
Proof.
  split; [vm_compute; reflexivity|].
  apply (update_keeps_forest 1 (move_edit 2) house); [exact house_keyed|].
  intros x [ch Hx]. simpl in Hx. unfold house_db in Hx.
  apply lookup_insert_Some in Hx as [[<- <-]|[_ Hx]].
  - eapply rooted_top; [reflexivity|reflexivity].
  - apply lookup_singleton_Some in Hx as [<- <-]. eapply rooted_up; [reflexivity|].
    eapply rooted_top; [reflexivity|reflexivity].
Defined.
