(* ===== verification/GoChan.v ===== *)
(** * Buffered Go channels

    A [chan T] made with a positive capacity, as the fan-out components use it:
    the non-blocking send of [select { case ch <- v: default: }], the receive,
    and [close]. Sending on a closed channel and closing a closed channel panic
    in Go; here they are [SendPanic] and [None], so that a theorem can exclude
    them. *)

From S2P Require Import Prelude.

Record chan (A : Type) := {
  ch_cap : nat;
  ch_buf : list A;
  ch_closed : bool;
}.
Arguments ch_cap {A} c.
Arguments ch_buf {A} c.
Arguments ch_closed {A} c.

Definition make_chan {A} (n : nat) : chan A :=
  {| ch_cap := n; ch_buf := []; ch_closed := false |}.

Inductive send_result (A : Type) :=
| Sent (c : chan A)
| Full
| SendPanic.
Arguments Sent {A} c.
Arguments Full {A}.
Arguments SendPanic {A}.

Definition try_send {A} (a : A) (c : chan A) : send_result A :=
  if ch_closed c then SendPanic
  else if bool_decide (length (ch_buf c) < ch_cap c)%nat
  then Sent {| ch_cap := ch_cap c; ch_buf := ch_buf c ++ [a]; ch_closed := false |}
  else Full.

(** A receive: the oldest buffered value, if any, and what remains. A closed
    channel is drained before the receiver sees that it is closed. *)
Definition recv {A} (c : chan A) : option (A * chan A) :=
  match ch_buf c with
  | [] => None
  | a :: rest => Some (a, {| ch_cap := ch_cap c; ch_buf := rest; ch_closed := ch_closed c |})
  end.

Definition close_chan {A} (c : chan A) : option (chan A) :=
  if ch_closed c then None
  else Some {| ch_cap := ch_cap c; ch_buf := ch_buf c; ch_closed := true |}.

Definition chan_ok {A} (c : chan A) : Prop :=
  (0 < ch_cap c)%nat ∧ (length (ch_buf c) ≤ ch_cap c)%nat.

(** On an open channel a send either appends at the end or changes nothing. *)
Lemma try_send_open {A} (a : A) (c : chan A) :
  ch_closed c = false →
  (∃ c', try_send a c = Sent c' ∧ ch_buf c' = ch_buf c ++ [a] ∧ ch_cap c' = ch_cap c
         ∧ ch_closed c' = false ∧ (length (ch_buf c) < ch_cap c)%nat)
  ∨ (try_send a c = Full ∧ (ch_cap c ≤ length (ch_buf c))%nat).
Proof.
  intros Hc. unfold try_send. rewrite Hc. case_bool_decide; [left|right].
  - eexists. repeat split; simpl; eauto.
  - split; [done|lia].
Qed.

Lemma chan_ok_sent {A} (a : A) (c c' : chan A) :
  try_send a c = Sent c' → chan_ok c → chan_ok c'.
Proof.
  unfold try_send, chan_ok. intros Hs [H1 H2]. go_cases; bools.
  simpl. rewrite length_app. simpl. lia.
Qed.

Lemma recv_spec {A} (c c' : chan A) a :
  recv c = Some (a, c') →
  ch_buf c = a :: ch_buf c' ∧ ch_cap c' = ch_cap c ∧ ch_closed c' = ch_closed c.
Proof. unfold recv. intros. go_cases. auto. Qed.

Lemma close_chan_spec {A} (c : chan A) :
  ch_closed c = false →
  ∃ c', close_chan c = Some c' ∧ ch_buf c' = ch_buf c ∧ ch_cap c' = ch_cap c
        ∧ ch_closed c' = true.
Proof. intros Hc. unfold close_chan. rewrite Hc. eexists. repeat split; eauto. Qed.
