(* ===== verification/EventBus.v ===== *)
(** * The event bus: [src/internal/eventbus/bus.go]

    The lossy publish/subscribe registry behind the bot transports. A
    [Subscription] is a shared object: the bus holds it while it is registered,
    the consumer keeps it afterwards, so subscriptions live in a heap and the
    registry maps an id to a pointer (an index of the heap). An operation is a
    function into [option]: [None] is a Go panic (a send on or a close of a
    closed channel, a dangling pointer).

    [Publish] releases the registry lock between its fan-out loop and the
    evictions, and consumers receive at any time; [act] runs the protocol one
    critical section (or one send) at a time, so that every interleaving the
    locks permit is a path of [bstep]. *)

From S2P Require Import Prelude GoChan.

Record Event := {
  Seq : Z;
  Type_ : string;
  Time : Z;
  Data : list Z;
}.

Definition DefaultBuffer : Z := 256.
Definition DefaultMaxDrops : Z := 64.

Inductive CloseReason :=
| CloseReasonOpen
| CloseReasonUnsubscribed
| CloseReasonSlowConsumer
| CloseReasonBusClosed.

Record Subscription := {
  sub_id : Z;
  sub_name : string;
  sub_ch : chan Event;
  sub_types : option (gset string);
  sub_drops : Z;
  sub_dropped : Z;
  sub_evicting : bool;
  sub_closed : bool;
  sub_reason : CloseReason;
}.

Abbreviation ptr := nat.

Record Bus := {
  Buffer : Z;
  MaxDrops : Z;
  bus_closed : bool;
  nextID : Z;
  subs : gmap Z ptr;
  seq : Z;
  delivered : Z;
  dropped : Z;
  evicted : Z;
}.

Definition NewBus : Bus := {|
  Buffer := DefaultBuffer; MaxDrops := DefaultMaxDrops; bus_closed := false;
  nextID := 0; subs := ∅; seq := 0; delivered := 0; dropped := 0; evicted := 0 |}.

Record World := { bus : Bus; heap : list Subscription }.

(** ** Record updates *)

Definition set_subs (f : gmap Z ptr → gmap Z ptr) (b : Bus) : Bus := {|
  Buffer := Buffer b; MaxDrops := MaxDrops b; bus_closed := bus_closed b;
  nextID := nextID b; subs := f (subs b); seq := seq b; delivered := delivered b;
  dropped := dropped b; evicted := evicted b |}.
Definition add_seq (b : Bus) : Bus := {|
  Buffer := Buffer b; MaxDrops := MaxDrops b; bus_closed := bus_closed b;
  nextID := nextID b; subs := subs b; seq := u64 (seq b + 1); delivered := delivered b;
  dropped := dropped b; evicted := evicted b |}.
Definition add_counts (del drp evi : Z) (b : Bus) : Bus := {|
  Buffer := Buffer b; MaxDrops := MaxDrops b; bus_closed := bus_closed b;
  nextID := nextID b; subs := subs b; seq := seq b; delivered := u64 (delivered b + del);
  dropped := u64 (dropped b + drp); evicted := u64 (evicted b + evi) |}.
Definition set_closed (b : Bus) : Bus := {|
  Buffer := Buffer b; MaxDrops := MaxDrops b; bus_closed := true;
  nextID := nextID b; subs := subs b; seq := seq b; delivered := delivered b;
  dropped := dropped b; evicted := evicted b |}.
Definition set_ch (c : chan Event) (s : Subscription) : Subscription := {|
  sub_id := sub_id s; sub_name := sub_name s; sub_ch := c; sub_types := sub_types s;
  sub_drops := sub_drops s; sub_dropped := sub_dropped s; sub_evicting := sub_evicting s;
  sub_closed := sub_closed s; sub_reason := sub_reason s |}.
Definition set_drops (drops drp : Z) (evicting : bool) (s : Subscription) : Subscription := {|
  sub_id := sub_id s; sub_name := sub_name s; sub_ch := sub_ch s; sub_types := sub_types s;
  sub_drops := drops; sub_dropped := drp; sub_evicting := evicting;
  sub_closed := sub_closed s; sub_reason := sub_reason s |}.
Definition set_bus (f : Bus → Bus) (w : World) : World :=
  {| bus := f (bus w); heap := heap w |}.
Definition set_sub (p : ptr) (s : Subscription) (w : World) : World :=
  {| bus := bus w; heap := <[p := s]> (heap w) |}.

(** ** Operations *)

Definition Subscribe (name : string) (types : list string) (buffer : Z) (w : World)
  : World * option ptr :=
  let b := bus w in
  if bus_closed b then (w, None)
  else
    let buffer := if buffer <=? 0 then Buffer b else buffer in
    let buffer := if buffer <? 1 then 1 else buffer in
    let filter := if decide (types = []) then None else Some (list_to_set types) in
    let id := u64 (nextID b + 1) in
    let sub := {| sub_id := id; sub_name := name; sub_ch := make_chan (Z.to_nat buffer);
                  sub_types := filter; sub_drops := 0; sub_dropped := 0;
                  sub_evicting := false; sub_closed := false;
                  sub_reason := CloseReasonOpen |} in
    let p := length (heap w) in
    ({| bus := {| Buffer := Buffer b; MaxDrops := MaxDrops b; bus_closed := false;
                  nextID := id; subs := <[id := p]> (subs b); seq := seq b;
                  delivered := delivered b; dropped := dropped b; evicted := evicted b |};
        heap := heap w ++ [sub] |}, Some p).

(** [Subscription.close] *)
Definition sub_close (reason : CloseReason) (s : Subscription) : option Subscription :=
  if sub_closed s then Some s
  else
    c ← close_chan (sub_ch s);
    Some {| sub_id := sub_id s; sub_name := sub_name s; sub_ch := c;
            sub_types := sub_types s; sub_drops := sub_drops s;
            sub_dropped := sub_dropped s; sub_evicting := sub_evicting s;
            sub_closed := true; sub_reason := reason |}.

Definition close_at (reason : CloseReason) (p : ptr) (w : World) : option World :=
  s ← heap w !! p;
  s' ← sub_close reason s;
  Some (set_sub p s' w).

Definition Unsubscribe (s : option ptr) (w : World) : option World :=
  match s with
  | None => Some w
  | Some p =>
      sub ← heap w !! p;
      if bus_closed (bus w) then close_at CloseReasonBusClosed p w
      else close_at CloseReasonUnsubscribed p (set_bus (set_subs (delete (sub_id sub))) w)
  end.

Definition Dropped (s : Subscription) : Z := sub_dropped s.

Definition wants (eventType : string) (s : Subscription) : bool :=
  match sub_types s with
  | None => true
  | Some types => bool_decide (eventType ∈ types)
  end.

Definition cloneEvent (e : Event) : Event :=
  {| Seq := Seq e; Type_ := Type_ e; Time := Time e; Data := Data e |}.

(** One turn of [Publish]'s loop; the boolean says that the subscriber is to be
    evicted. *)
Definition Publish_one (evt : Event) (maxDrops : Z) (p : ptr) (w : World)
  : option (World * bool) :=
  s ← heap w !! p;
  if negb (wants (Type_ evt) s) then Some (w, false)
  else match try_send (cloneEvent evt) (sub_ch s) with
       | SendPanic => None
       | Sent c =>
           Some (set_bus (add_counts 1 0 0)
                   (set_sub p (set_drops 0 (sub_dropped s) (sub_evicting s) (set_ch c s)) w),
                 false)
       | Full =>
           let drops := i64 (sub_drops s + 1) in
           let out := (maxDrops <=? drops) && negb (sub_evicting s) in
           Some (set_bus (add_counts 0 1 0)
                   (set_sub p (set_drops drops (u64 (sub_dropped s + 1))
                                 (out || sub_evicting s) s) w),
                 out)
       end.

(** [Bus.evict] *)
Definition evict (p : ptr) (w : World) : option World :=
  s ← heap w !! p;
  if decide (subs (bus w) !! sub_id s = Some p) then
    w' ← close_at CloseReasonSlowConsumer p w;
    Some (set_bus (λ b, add_counts 0 0 1 (set_subs (delete (sub_id s)) b)) w')
  else Some w.

(** What [Publish] does before the loop: [None] when nobody listens. *)
Definition Publish_begin (eventType : string) (data : list Z) (now : Z) (w : World)
  : World * option (Event * Z) :=
  let b := bus w in
  if bus_closed b || bool_decide (subs b = ∅) then (set_bus add_seq w, None)
  else
    let evt := {| Seq := u64 (seq b + 1); Type_ := eventType; Time := now; Data := data |} in
    let maxDrops := if MaxDrops b <? 1 then 1 else MaxDrops b in
    (set_bus add_seq w, Some (evt, maxDrops)).

Fixpoint Publish_loop (evt : Event) (maxDrops : Z) (todo : list ptr) (w : World)
  : option (World * list ptr) :=
  match todo with
  | [] => Some (w, [])
  | p :: todo =>
      '(w1, out) ← Publish_one evt maxDrops p w;
      '(w2, evs) ← Publish_loop evt maxDrops todo w1;
      Some (w2, if out : bool then p :: evs else evs)
  end.

Fixpoint evict_all (evs : list ptr) (w : World) : option World :=
  match evs with
  | [] => Some w
  | p :: evs => w' ← evict p w; evict_all evs w'
  end.

Definition Publish `{!MapRange Z ptr} (eventType : string) (data : list Z) (now : Z) (w : World)
  : option World :=
  match Publish_begin eventType data now w with
  | (w1, None) => Some w1
  | (w1, Some (evt, maxDrops)) =>
      '(w2, evs) ← Publish_loop evt maxDrops (range (subs (bus w1))).*2 w1;
      evict_all evs w2
  end.

Fixpoint close_all (ps : list (Z * ptr)) (w : World) : option World :=
  match ps with
  | [] => Some w
  | (id, p) :: ps =>
      w' ← close_at CloseReasonBusClosed p w;
      close_all ps (set_bus (set_subs (delete id)) w')
  end.

Definition CloseBus `{!MapRange Z ptr} (w : World) : option World :=
  if bus_closed (bus w) then Some w
  else close_all (range (subs (bus w))) (set_bus set_closed w).

Record BusStats := {
  st_Subscribers : nat; st_Published : Z; st_Delivered : Z; st_Dropped : Z; st_Evicted : Z }.

Definition StatsOf (b : Bus) : BusStats := {|
  st_Subscribers := size (subs b); st_Published := seq b; st_Delivered := delivered b;
  st_Dropped := dropped b; st_Evicted := evicted b |}.

(** * The event bus under every interleaving

    [act] runs the bus one critical section at a time, [bstep] is the relation
    it gives. The invariant [binv] ties each subscription to the history of the
    bus; the properties at the end say that the bus never panics, that closing
    is final, and that what a consumer gets is exactly what was published to it
    less the drops it is told about. *)

(** ** Interleavings *)

Inductive phase :=
| Idle
| Sending (evt : Event) (maxDrops : Z) (todo : list ptr) (evs : list ptr)
| Evicting (evs : list ptr).

(** What an observer knows of a subscription beyond its fields: the sequence
    number when it joined and when it closed, and what its consumer received. *)
Record History := { joined : Z; left_at : option Z; got : list Event }.

Record Sys := {
  world : World;
  pub : phase;
  published : list Event;
  hist : list History;
}.

Inductive baction :=
| ASubscribe (name : string) (types : list string) (buffer : Z)
| AUnsubscribe (s : option ptr)
| APublish (eventType : string) (data : list Z) (now : Z)
| ASend
| AEvict
| AClose
| ARecv (p : ptr).

(** The registry lock is read-held while the publisher is sending. *)
Definition sending (s : Sys) : bool :=
  match pub s with Sending _ _ _ _ => true | _ => false end.

(** When an action can run: writers wait for the fan-out loop, publishers for
    each other. The 64-bit counters are taken not to wrap. *)
Definition enabled (a : baction) (s : Sys) : Prop :=
  match a with
  | ASubscribe _ _ _ => sending s = false ∧ nextID (bus (world s)) + 1 < 2 ^ 64
  | AUnsubscribe p => sending s = false ∧ from_option (λ p, p < length (heap (world s)))%nat True p
  | APublish _ _ _ => pub s = Idle ∧ seq (bus (world s)) + 1 < 2 ^ 64
  | ASend => sending s = true
  | AEvict => ∃ evs, pub s = Evicting evs
  | AClose => sending s = false
  | ARecv p => (p < length (heap (world s)))%nat
  end.

(** Record the closing time of the subscriptions that are closed now. *)
Definition mark_closed (w : World) (h : list History) : list History :=
  imap (λ p g, match heap w !! p with
               | Some s => if sub_closed s && bool_decide (left_at g = None)
                           then {| joined := joined g; left_at := Some (seq (bus w));
                                   got := got g |}
                           else g
               | None => g
               end) h.

Definition with_world (w : World) (ph : phase) (s : Sys) : Sys := {|
  world := w; pub := ph; published := published s; hist := mark_closed w (hist s) |}.

Definition act `{!MapRange Z ptr} (a : baction) (s : Sys) : option Sys :=
  let w := world s in
  match a with
  | ASubscribe name types buffer =>
      match Subscribe name types buffer w with
      | (w', Some _) => Some {| world := w'; pub := pub s; published := published s;
                                hist := hist s ++ [{| joined := seq (bus w);
                                                      left_at := None; got := [] |}] |}
      | (w', None) => Some {| world := w'; pub := pub s; published := published s;
                              hist := hist s |}
      end
  | AUnsubscribe p => w' ← Unsubscribe p w; Some (with_world w' (pub s) s)
  | APublish eventType data now =>
      match Publish_begin eventType data now w with
      | (w', None) => Some {| world := w'; pub := Idle; published := published s; hist := hist s |}
      | (w', Some (evt, maxDrops)) =>
          Some {| world := w'; pub := Sending evt maxDrops (range (subs (bus w'))).*2 [];
                  published := published s ++ [evt]; hist := hist s |}
      end
  | ASend =>
      match pub s with
      | Sending evt maxDrops (p :: todo) evs =>
          '(w', out) ← Publish_one evt maxDrops p w;
          Some {| world := w'; published := published s; hist := hist s;
                  pub := Sending evt maxDrops todo (if out : bool then evs ++ [p] else evs) |}
      | Sending _ _ [] evs =>
          Some {| world := w; pub := Evicting evs; published := published s; hist := hist s |}
      | _ => Some s
      end
  | AEvict =>
      match pub s with
      | Evicting (p :: evs) => w' ← evict p w; Some (with_world w' (Evicting evs) s)
      | Evicting [] => Some {| world := w; pub := Idle; published := published s; hist := hist s |}
      | _ => Some s
      end
  | AClose => w' ← CloseBus w; Some (with_world w' (pub s) s)
  | ARecv p =>
      sub ← heap w !! p;
      match recv (sub_ch sub) with
      | None => Some s
      | Some (e, c) =>
          Some {| world := set_sub p (set_ch c sub) w; pub := pub s; published := published s;
                  hist := alter (λ g, {| joined := joined g; left_at := left_at g;
                                         got := got g ++ [e] |}) p (hist s) |}
      end
  end.

Definition bstep `{!MapRange Z ptr} (s s' : Sys) : Prop :=
  ∃ a, enabled a s ∧ act a s = Some s'.

(** A bus as [New] returns it, with the exported fields its owner may set. *)
Definition boot_bus (buffer maxDrops : Z) : Sys := {|
  world := {| bus := {| Buffer := buffer; MaxDrops := maxDrops; bus_closed := false;
                        nextID := 0; subs := ∅; seq := 0; delivered := 0; dropped := 0;
                        evicted := 0 |};
              heap := [] |};
  pub := Idle; published := []; hist := [] |}.

(** ** The history of a subscription *)

Definition threshold (s : Sys) : Z := Z.max 1 (MaxDrops (bus (world s))).

(** Whether a subscription was registered when event number [n] was published. *)
Definition registered_at (g : History) (n : Z) : bool :=
  (joined g <? n) && match left_at g with None => true | Some t => n <=? t end.

(** The events published while the subscription was registered that its filter
    accepts. *)
Definition matching (sub : Subscription) (g : History) (evts : list Event) : list Event :=
  filter (λ e, (registered_at g (Seq e) && wants (Type_ e) sub) = true) evts.

(** The event being sent has not reached the subscribers still to do. *)
Definition reached (s : Sys) (p : ptr) : list Event :=
  match pub s with
  | Sending evt _ todo _ =>
      if decide (p ∈ todo) then filter (λ e, Seq e ≠ Seq evt) (published s) else published s
  | _ => published s
  end.

Definition offered (s : Sys) (p : ptr) (sub : Subscription) (g : History) : list Event :=
  matching sub g (reached s p).

Definition accepted (sub : Subscription) (g : History) : list Event :=
  got g ++ ch_buf (sub_ch sub).

Definition to_evict (s : Sys) : list ptr :=
  match pub s with
  | Idle => []
  | Sending _ _ _ evs => evs
  | Evicting evs => evs
  end.

(** A subscription against the registry ([reg]: it is registered; [due]: its
    eviction is pending), the drop threshold and the events offered to it. *)
Record sub_ok (thr : Z) (reg due : Prop) (off : list Event) (p : ptr)
    (sub : Subscription) (g : History) : Prop := {
  si_id : sub_id sub = Z.of_nat p + 1;
  si_reg : sub_closed sub = false ↔ reg;
  si_chan : chan_ok (sub_ch sub);
  si_chclosed : ch_closed (sub_ch sub) = sub_closed sub;
  si_reason : sub_reason sub = CloseReasonOpen ↔ sub_closed sub = false;
  si_left : left_at g = None ↔ sub_closed sub = false;
  si_drops : 0 ≤ sub_drops sub ≤ thr;
  si_calm : sub_closed sub = false → ¬ due → sub_drops sub < thr ∧ sub_evicting sub = false;
  si_due : due → sub_drops sub = thr;
  si_slow : sub_reason sub = CloseReasonSlowConsumer → sub_drops sub = thr;
  si_accepted : accepted sub g `sublist_of`
                take (length off - Z.to_nat (sub_drops sub)) off;
  si_count : (Z.to_nat (sub_drops sub) ≤ length off)%nat;
  si_dropped : sub_dropped sub = u64 (Z.of_nat (length off)
                                      - Z.of_nat (length (accepted sub g)));
}.

Definition sub_inv (s : Sys) (p : ptr) (sub : Subscription) (g : History) : Prop :=
  sub_ok (threshold s) (subs (bus (world s)) !! sub_id sub = Some p) (p ∈ to_evict s)
    (offered s p sub g) p sub g.

Definition phase_inv (s : Sys) : Prop :=
  match pub s with
  | Idle => True
  | Sending evt maxDrops todo evs =>
      maxDrops = threshold s ∧ (∃ evts, published s = evts ++ [evt])
      ∧ Seq evt = seq (bus (world s))
      ∧ NoDup todo ∧ (∀ p, p ∈ todo → p ∉ evs ∧
                       subs (bus (world s)) !! (Z.of_nat p + 1) = Some p)
      ∧ (∀ p, p ∈ evs → (p < length (heap (world s)))%nat)
      ∧ (∀ p g, p ∈ todo → hist s !! p = Some g → joined g < Seq evt)
  | Evicting evs => ∀ p, p ∈ evs → (p < length (heap (world s)))%nat
  end.

Definition hist_ok (n : Z) (g : History) : Prop :=
  joined g ≤ n ∧ match left_at g with None => True | Some t => t ≤ n end.

Record binv (s : Sys) : Prop := {
  bi_len : length (hist s) = length (heap (world s));
  bi_next : nextID (bus (world s)) = Z.of_nat (length (heap (world s)));
  bi_next_max : nextID (bus (world s)) < 2 ^ 64;
  bi_max : MaxDrops (bus (world s)) ≤ max_int64;
  bi_subs id p : subs (bus (world s)) !! id = Some p →
                 id = Z.of_nat p + 1 ∧ (p < length (heap (world s)))%nat;
  bi_closed : bus_closed (bus (world s)) = true → subs (bus (world s)) = ∅;
  bi_seq : 0 ≤ seq (bus (world s)) < 2 ^ 64;
  bi_sorted : StronglySorted (λ e e', Seq e < Seq e') (published s);
  bi_range : Forall (λ e, 0 < Seq e ≤ seq (bus (world s))) (published s);
  bi_phase : phase_inv s;
  bi_sub p sub g : heap (world s) !! p = Some sub → hist s !! p = Some g → sub_inv s p sub g;
  bi_hist p g : hist s !! p = Some g → hist_ok (seq (bus (world s))) g;
}.

(** ** Lemmas on histories *)

Lemma matching_types sub sub' g evts :
  sub_types sub = sub_types sub' → matching sub g evts = matching sub' g evts.
Proof. intros Ht. unfold matching, wants. by rewrite Ht. Qed.

Lemma matching_app sub g l1 l2 : matching sub g (l1 ++ l2) = matching sub g l1 ++ matching sub g l2.
Proof. apply filter_app. Qed.

(** A history is not affected by events numbered after it closed. *)
Lemma matching_late sub g e :
  (∃ t, left_at g = Some t ∧ t < Seq e) → matching sub g [e] = [].
Proof.
  intros (t & Ht & Hlt). unfold matching, registered_at. rewrite filter_cons, Ht.
  rewrite decide_False; [done|]. intros Hb. bools. lia.
Qed.

Lemma matching_fresh sub n evts l :
  Forall (λ e, 0 < Seq e ≤ n) evts → matching sub {| joined := n; left_at := l; got := [] |} evts = [].
Proof.
  intros Hall. unfold matching. induction Hall as [|e evts He _ IH]; [done|].
  rewrite filter_cons, decide_False; [done|]. unfold registered_at. simpl. intros Hb.
  bools. lia.
Qed.

(** Closing now does not change what was offered so far. *)
Lemma matching_close sub g n evts :
  Forall (λ e, 0 < Seq e ≤ n) evts → left_at g = None →
  matching sub {| joined := joined g; left_at := Some n; got := got g |} evts
  = matching sub g evts.
Proof.
  intros Hall Hl. unfold matching. induction Hall as [|e evts He _ IH]; [done|].
  rewrite !filter_cons, IH. unfold registered_at. simpl. rewrite Hl.
  assert ((Seq e <=? n) = true) as -> by lia. done.
Qed.

Lemma sub_ok_weaken thr (reg reg' due due' : Prop) off p sub g :
  sub_ok thr reg due off p sub g → (reg ↔ reg') → (due' → due) →
  (sub_closed sub = false → due → due') → sub_ok thr reg' due' off p sub g.
Proof.
  intros [] Hr Hd Hd'. constructor; try done; [by rewrite <- Hr| |by auto].
  intros Hc Hn. apply si_calm0; auto.
Qed.

Lemma sub_ok_close thr reg due off p sub g r sub' n (due' : Prop) :
  sub_ok thr reg due off p sub g → sub_closed sub = false → sub_close r sub = Some sub' →
  r ≠ CloseReasonOpen → (r = CloseReasonSlowConsumer → due) → (due' → due) →
  sub_ok thr False due' off p sub'
    {| joined := joined g; left_at := Some n; got := got g |}.
Proof.
  intros Hok Hc Hcl Hr Hslow Hdue. unfold sub_close in Hcl. rewrite Hc in Hcl.
  destruct (close_chan_spec (sub_ch sub)) as (c & Hcc & Hbuf & Hcap & Hclo).
  { rewrite (si_chclosed _ _ _ _ _ _ _ Hok). done. }
  rewrite Hcc in Hcl. simplify_eq/=. destruct Hok. constructor; simpl; try done; eauto.
  - unfold chan_ok in *. by rewrite Hbuf, Hcap.
  - unfold accepted in *. simpl. by rewrite Hbuf.
  - unfold accepted in *. simpl. by rewrite Hbuf.
Qed.

(** ** Closing subscriptions *)

(** [w'] is [w] with some open subscriptions closed and unregistered, for
    reasons that [R] permits. *)
Record closes (R : ptr → CloseReason → Prop) (w w' : World) : Prop := {
  cl_len : length (heap w') = length (heap w);
  cl_next : nextID (bus w') = nextID (bus w);
  cl_max : MaxDrops (bus w') = MaxDrops (bus w);
  cl_seq : seq (bus w') = seq (bus w);
  cl_subs : subs (bus w') ⊆ subs (bus w);
  cl_sub p sub : heap w !! p = Some sub → ∃ sub', heap w' !! p = Some sub' ∧
    ((sub' = sub ∧ (subs (bus w') !! sub_id sub = Some p ↔ subs (bus w) !! sub_id sub = Some p))
     ∨ (sub_closed sub = false ∧ subs (bus w') !! sub_id sub ≠ Some p ∧
        ∃ r, r ≠ CloseReasonOpen ∧ R p r ∧ sub_close r sub = Some sub'));
}.

Lemma sub_close_id r sub sub' :
  sub_close r sub = Some sub' → sub_id sub' = sub_id sub ∧ sub_types sub' = sub_types sub
  ∧ sub_closed sub' = true.
Proof.
  unfold sub_close. intros Hc. destruct (sub_closed sub) eqn:?; simplify_eq; [done|].
  destruct (close_chan (sub_ch sub)); by simplify_eq/=.
Qed.

Lemma closes_refl R w : closes R w w.
Proof. constructor; try done. intros p sub Hp. exists sub. split; [done|]. by left. Qed.

Lemma closes_trans R w w' w'' : closes R w w' → closes R w' w'' → closes R w w''.
Proof.
  intros [] [].
  constructor; [congruence..|by etrans|].
  intros p sub Hp. destruct (cl_sub0 p sub Hp) as (sub1 & Hp1 & [[-> Hs1]|(Hc1 & Hn1 & r1 & Hr1)]);
    destruct (cl_sub1 p _ Hp1) as (sub2 & Hp2 & Hcase); exists sub2; (split; [done|]).
  - destruct Hcase as [[-> Hs2]|(Hc2 & Hn2 & r2 & Hr2)]; [left|right; eauto].
    by rewrite Hs2.
  - destruct Hr1 as (Hr1 & HR1 & Hcl1). pose proof (sub_close_id _ _ _ Hcl1) as (Hid & _ & Hcl).
    destruct Hcase as [[-> Hs2]|(Hc2 & _)]; [|congruence].
    right. split; [done|]. rewrite Hid in Hs2. rewrite Hs2. eauto 10.
Qed.

Lemma mark_closed_lookup w h p :
  mark_closed w h !! p =
  (λ g, match heap w !! p with
        | Some s => if sub_closed s && bool_decide (left_at g = None)
                    then {| joined := joined g; left_at := Some (seq (bus w)); got := got g |}
                    else g
        | None => g
        end) <$> h !! p.
Proof. unfold mark_closed. by rewrite list_lookup_imap. Qed.

(** Reached events of a system that is not sending are all the published ones. *)
Lemma reached_quiet s p : sending s = false → reached s p = published s.
Proof. unfold sending, reached. by destruct (pub s). Qed.

(** The events offered so far are numbered up to the current sequence number. *)
Lemma binv_close R s w' ph :
  binv s → sending s = false → closes R (world s) w' →
  (∀ p r, R p r → r = CloseReasonSlowConsumer → p ∈ to_evict s) →
  (bus_closed (bus w') = true → subs (bus w') = ∅) →
  sending (with_world w' ph s) = false →
  (∀ p, p ∈ to_evict (with_world w' ph s) → p ∈ to_evict s) →
  (∀ p sub, heap w' !! p = Some sub → sub_closed sub = false → p ∈ to_evict s →
            p ∈ to_evict (with_world w' ph s)) →
  binv (with_world w' ph s).
Proof.
  intros Hinv Hquiet Hcl HR Hclosed Hquiet' Hev Hev'.
  assert (∀ p g, mark_closed w' (hist s) !! p = Some g → hist_ok (seq (bus w')) g) as Hhist.
  { intros p g Hg. rewrite mark_closed_lookup in Hg.
    destruct (hist s !! p) as [g0|] eqn:Hg0; simplify_eq/=.
    pose proof (bi_hist _ Hinv _ _ Hg0) as [Hj Hl]. rewrite <- (cl_seq _ _ _ Hcl) in Hj, Hl.
    destruct (heap w' !! p) as [s0|]; [|done].
    destruct (_ && _); [|done]. split; simpl; [done|lia]. }
  constructor; simpl; try done.
  - unfold mark_closed. rewrite length_imap, (cl_len _ _ _ Hcl). apply Hinv.
  - rewrite (cl_next _ _ _ Hcl), (cl_len _ _ _ Hcl). apply Hinv.
  - rewrite (cl_next _ _ _ Hcl). apply Hinv.
  - rewrite (cl_max _ _ _ Hcl). apply Hinv.
  - intros id p Hid. rewrite (cl_len _ _ _ Hcl). apply (bi_subs _ Hinv).
    eapply lookup_weaken; [done|apply Hcl].
  - rewrite (cl_seq _ _ _ Hcl). apply Hinv.
  - apply Hinv.
  - rewrite (cl_seq _ _ _ Hcl). apply Hinv.
  - assert (∀ p, p ∈ to_evict (with_world w' ph s) → (p < length (heap w'))%nat) as Hlt.
    { intros p Hp%Hev. rewrite (cl_len _ _ _ Hcl). pose proof (bi_phase _ Hinv) as Hph.
      unfold phase_inv, to_evict, sending in *. destruct (pub s); [by apply elem_of_nil in Hp|done|].
      by apply Hph. }
    unfold phase_inv, to_evict, sending in *. simpl in *. by destruct ph.
  - intros p sub g Hp Hg. rewrite mark_closed_lookup, Hp in Hg.
    destruct (hist s !! p) as [g0|] eqn:Hg0; simplify_eq/=.
    destruct (heap (world s) !! p) as [sub0|] eqn:Hp0.
    2: { apply lookup_ge_None in Hp0. rewrite <- (cl_len _ _ _ Hcl) in Hp0.
         by rewrite lookup_ge_None_2 in Hp by done. }
    destruct (cl_sub _ _ _ Hcl _ _ Hp0) as (sub1 & Hp1 & Hcase). rewrite Hp in Hp1. simplify_eq.
    pose proof (bi_sub _ Hinv _ _ _ Hp0 Hg0) as Hok. unfold sub_inv, offered in Hok |- *.
    rewrite reached_quiet in Hok |- * by done. simpl.
    assert (threshold (with_world w' ph s) = threshold s) as ->.
    { unfold threshold. simpl. by rewrite (cl_max _ _ _ Hcl). }
    destruct Hcase as [[-> Hreg]|(Hopen & Hnreg & r & Hr & HRr & Hsc)].
    + assert ((sub_closed sub0 && bool_decide (left_at g0 = None)) = false) as ->.
      { pose proof (si_left _ _ _ _ _ _ _ Hok). destruct (sub_closed sub0); simpl; [|done].
        case_bool_decide; naive_solver. }
      eapply sub_ok_weaken; [exact Hok|by symmetry|by auto|by eauto].
    + pose proof (sub_close_id _ _ _ Hsc) as (Hid & Hty & Hclsd). rewrite Hclsd.
      rewrite (proj2 (si_left _ _ _ _ _ _ _ Hok)), bool_decide_eq_true_2 by done. simpl.
      rewrite matching_close; [|rewrite (cl_seq _ _ _ Hcl); apply Hinv|
                                by apply (si_left _ _ _ _ _ _ _ Hok)].
      rewrite (matching_types _ sub0) by done. rewrite Hid.
      eapply sub_ok_weaken; [eapply sub_ok_close; [exact Hok|done..| |]| | |]; naive_solver.
Qed.

(** What closing a subscription relies on: the heap and the registry agree. *)
Definition wsub (w : World) : Prop := ∀ p sub, heap w !! p = Some sub →
  sub_id sub = Z.of_nat p + 1 ∧ ch_closed (sub_ch sub) = sub_closed sub
  ∧ (sub_closed sub = false ↔ subs (bus w) !! sub_id sub = Some p).

Lemma binv_wsub s : binv s → wsub (world s).
Proof.
  intros Hinv p sub Hp. destruct (hist s !! p) as [g|] eqn:Hg.
  - destruct (bi_sub _ Hinv _ _ _ Hp Hg). auto.
  - apply lookup_ge_None in Hg. rewrite (bi_len _ Hinv) in Hg.
    by rewrite lookup_ge_None_2 in Hp.
Qed.

Lemma wsub_closes R w w' : wsub w → closes R w w' → wsub w'.
Proof.
  intros Hw Hcl p sub' Hp'. destruct (heap w !! p) as [sub|] eqn:Hp.
  2: { apply lookup_ge_None in Hp. rewrite <- (cl_len _ _ _ Hcl) in Hp.
       by rewrite lookup_ge_None_2 in Hp'. }
  destruct (Hw p sub Hp) as (Hid & Hch & Hreg).
  destruct (cl_sub _ _ _ Hcl _ _ Hp) as (sub1 & Hp1 & Hcase). rewrite Hp' in Hp1. simplify_eq.
  destruct Hcase as [[-> Hreg']|(Ho & Hn & r & Hr & _ & Hsc)].
  - by rewrite Hreg'.
  - pose proof (sub_close_id _ _ _ Hsc) as (Hid' & _ & Hcl'). rewrite Hid', Hcl'.
    split; [done|]. split; [|naive_solver].
    unfold sub_close in Hsc. rewrite Ho in Hsc. unfold close_chan in Hsc.
    rewrite Hch, Ho in Hsc. by simplify_eq/=.
Qed.

Lemma sub_close_total r sub :
  ch_closed (sub_ch sub) = sub_closed sub → ∃ sub', sub_close r sub = Some sub'.
Proof.
  intros Hch. unfold sub_close, close_chan. rewrite Hch.
  destruct (sub_closed sub); simpl; eauto.
Qed.

(** [close_at] followed by unregistering closes that one subscription. *)
Lemma closes_at R r p sub w f :
  wsub w → heap w !! p = Some sub → r ≠ CloseReasonOpen → R p r →
  (∀ b, nextID (f b) = nextID b ∧ MaxDrops (f b) = MaxDrops b ∧ seq (f b) = seq b
        ∧ subs (f b) = delete (sub_id sub) (subs b)) →
  ∃ w1, close_at r p w = Some w1 ∧ bus w1 = bus w ∧ closes R w (set_bus f w1).
Proof.
  intros Hw Hp Hr HR Hf. destruct (Hw p sub Hp) as (Hid & Hch & Hreg).
  destruct (sub_close_total r sub Hch) as [sub' Hsc].
  exists (set_sub p sub' w). unfold close_at. rewrite Hp. simpl. rewrite Hsc.
  split; [done|]. split; [done|].
  destruct (Hf (bus w)) as (Hf1 & Hf2 & Hf3 & Hf4).
  constructor; simpl; try done; [by rewrite length_insert|rewrite Hf4; apply delete_subseteq|].
  intros q subq Hq. destruct (decide (q = p)) as [->|Hne].
  - simplify_eq. exists sub'. split.
    { rewrite list_lookup_insert, decide_True; [done|]. split; [done|]. by eapply lookup_lt_Some. }
    rewrite Hf4, lookup_delete_eq. destruct (sub_closed sub) eqn:Hc.
    + left. unfold sub_close in Hsc. rewrite Hc in Hsc. simplify_eq. split; [done|]. naive_solver.
    + right. split; [done|]. split; [done|]. eauto.
  - exists subq. split; [by rewrite list_lookup_insert_ne|]. left. split; [done|].
    rewrite Hf4. destruct (Hw q subq Hq) as (Hidq & _).
    rewrite lookup_delete_ne; [done|]. lia.
Qed.

(** Closing what is closed already changes nothing. *)
Lemma close_at_closed r p sub w :
  heap w !! p = Some sub → sub_closed sub = true → close_at r p w = Some w.
Proof.
  intros Hp Hc. unfold close_at. rewrite Hp. simpl. unfold sub_close. rewrite Hc. simpl.
  unfold set_sub. rewrite list_insert_id by done. by destruct w.
Qed.

Definition anyone (p : ptr) (r : CloseReason) : Prop := r ≠ CloseReasonSlowConsumer.

Lemma Unsubscribe_closes s p :
  binv s → enabled (AUnsubscribe p) s →
  ∃ w', Unsubscribe p (world s) = Some w' ∧ closes anyone (world s) w'
        ∧ bus_closed (bus w') = bus_closed (bus (world s)).
Proof.
  intros Hinv [Hq Hp]. destruct p as [p|]; simpl in *; [|by eauto using closes_refl].
  destruct (lookup_lt_is_Some_2 _ _ Hp) as [sub Hsub]. rewrite Hsub. simpl.
  pose proof (binv_wsub _ Hinv) as Hw. destruct (Hw p sub Hsub) as (Hid & Hch & Hreg).
  destruct (bus_closed (bus (world s))) eqn:Hb.
  - rewrite (bi_closed _ Hinv Hb), lookup_empty in Hreg.
    rewrite (close_at_closed _ _ sub); [by eauto using closes_refl|done|].
    destruct (sub_closed sub); [done|]. naive_solver.
  - destruct (closes_at anyone CloseReasonUnsubscribed p sub (world s)
                (set_subs (delete (sub_id sub)))) as (w1 & Hw1 & Hbus & Hcl); try done.
    unfold close_at in Hw1 |- *. simpl. rewrite Hsub in Hw1 |- *. simpl in *.
    destruct (sub_close _ sub) as [sub'|]; simplify_eq/=.
    eexists. split; [done|]. split; [exact Hcl|done].
Qed.

Lemma evict_closes s p evs :
  binv s → pub s = Evicting (p :: evs) →
  ∃ w', evict p (world s) = Some w'
        ∧ closes (λ q r, q = p) (world s) w'
        ∧ bus_closed (bus w') = bus_closed (bus (world s))
        ∧ (∀ sub, heap w' !! p = Some sub → sub_closed sub = true).
Proof.
  intros Hinv Hph. pose proof (bi_phase _ Hinv) as Hpi. unfold phase_inv in Hpi. rewrite Hph in Hpi.
  destruct (lookup_lt_is_Some_2 (heap (world s)) p) as [sub Hsub]; [apply Hpi; set_solver|].
  pose proof (binv_wsub _ Hinv) as Hw. destruct (Hw p sub Hsub) as (Hid & Hch & Hreg).
  unfold evict. rewrite Hsub. simpl. case_decide as Hd.
  - destruct (closes_at (λ q r, q = p) CloseReasonSlowConsumer p sub (world s)
                (λ b, add_counts 0 0 1 (set_subs (delete (sub_id sub)) b)))
      as (w1 & Hw1 & Hbus & Hcl); try done.
    rewrite Hw1. simpl. eexists. split; [done|]. split; [exact Hcl|]. simpl. rewrite Hbus.
    split; [done|]. intros sub' Hsub'. unfold close_at in Hw1. rewrite Hsub in Hw1. simpl in Hw1.
    destruct (sub_close _ sub) as [sub1|] eqn:Hsc; simplify_eq/=.
    rewrite list_lookup_insert, decide_True in Hsub'
      by (split; [done|]; by eapply lookup_lt_Some). simplify_eq.
    by apply sub_close_id in Hsc as (_ & _ & ?).
  - eexists. split; [done|]. split; [apply closes_refl|]. split; [done|].
    intros sub' ?. simplify_eq. destruct (sub_closed sub); [done|]. by destruct Hd, Hreg; auto.
Qed.

Lemma close_all_closes ps w :
  wsub w → (∀ id p, (id, p) ∈ ps → id = Z.of_nat p + 1 ∧ (p < length (heap w))%nat) →
  ∃ w', close_all ps w = Some w' ∧ closes anyone w w'
        ∧ ∀ id, id ∈ ps.*1 → subs (bus w') !! id = None.
Proof.
  revert w. induction ps as [|[id p] ps IH]; intros w Hw Hps; simpl.
  { exists w. split; [done|]. split; [apply closes_refl|]. set_solver. }
  destruct (Hps id p) as [-> Hlt]; [set_solver|].
  destruct (lookup_lt_is_Some_2 _ _ Hlt) as [sub Hsub]. destruct (Hw p sub Hsub) as (Hid & _).
  destruct (closes_at anyone CloseReasonBusClosed p sub w (set_subs (delete (sub_id sub))))
    as (w1 & -> & Hbus & Hcl); try done. simpl. rewrite Hid in Hcl.
  destruct (IH (set_bus (set_subs (delete (Z.of_nat p + 1))) w1)) as (w' & Hw' & Hcl' & Hnone).
  { by eapply wsub_closes. }
  { intros id q Hq. rewrite (cl_len _ _ _ Hcl). apply Hps. set_solver. }
  exists w'. split; [done|]. split; [by eapply closes_trans|].
  intros id Hin. set_unfold in Hin. destruct Hin as [->|Hin]; [|by apply Hnone; set_solver].
  destruct (subs (bus w') !! (Z.of_nat p + 1)) as [q|] eqn:Hq; [|done].
  eapply lookup_weaken in Hq; [|apply Hcl']. simpl in Hq.
  by rewrite lookup_delete_eq in Hq.
Qed.

Lemma closes_empty R w w' : closes R w w' → subs (bus w) = ∅ → subs (bus w') = ∅.
Proof.
  intros Hcl Hs. apply map_empty. intros id. destruct (subs (bus w') !! id) as [p|] eqn:Hp; [|done].
  eapply lookup_weaken in Hp; [|apply Hcl]. by rewrite Hs, lookup_empty in Hp.
Qed.

(** ** One subscription through one event *)

Lemma u64_add a b : u64 (u64 a + b) = u64 (a + b).
Proof. unfold wrap_u. by rewrite Zplus_mod_idemp_l. Qed.

Lemma sub_ok_sent thr reg due off p sub g e c :
  sub_ok thr reg due off p sub g → 1 ≤ thr → sub_closed sub = false → ¬ due →
  try_send e (sub_ch sub) = Sent c →
  sub_ok thr reg due (off ++ [e]) p
    (set_drops 0 (sub_dropped sub) (sub_evicting sub) (set_ch c sub)) g.
Proof.
  intros Hok Hthr Hopen Hdue Hs. pose proof (chan_ok_sent _ _ _ Hs) as Hc.
  destruct Hok. destruct (try_send_open e (sub_ch sub)) as [(c' & Hs' & Hbuf & _ & Hcl & _)|[Hs' _]];
    [by rewrite si_chclosed0|rewrite Hs in Hs'; simplify_eq|congruence].
  assert (accepted (set_drops 0 (sub_dropped sub) (sub_evicting sub) (set_ch c' sub)) g
          = accepted sub g ++ [e]) as Hacc.
  { unfold accepted. simpl. by rewrite Hbuf, app_assoc. }
  constructor; try rewrite Hacc; simpl; try done; try lia.
  - by auto.
  - congruence.
  - intros _ _. destruct (si_calm0 Hopen Hdue). split; [lia|done].
  - intros Hr. apply si_reason0 in Hopen. congruence.
  - rewrite Nat.sub_0_r, firstn_all. apply sublist_app; [|done].
    etrans; [exact si_accepted0|]. apply sublist_take.
  - rewrite si_dropped0, !length_app. simpl. f_equal. lia.
Qed.

Lemma sub_ok_full thr reg due off p sub g e :
  sub_ok thr reg due off p sub g → 1 ≤ thr ≤ max_int64 → sub_closed sub = false → ¬ due →
  let drops := i64 (sub_drops sub + 1) in
  let out := (thr <=? drops) && negb (sub_evicting sub) in
  sub_ok thr reg (out = true) (off ++ [e]) p
    (set_drops drops (u64 (sub_dropped sub + 1)) (out || sub_evicting sub) sub) g.
Proof.
  intros Hok Hthr Hopen Hdue drops out. destruct Hok.
  destruct (si_calm0 Hopen Hdue) as [Hlt Hev].
  assert (drops = sub_drops sub + 1) as Hdrops.
  { unfold drops. unfold max_int64 in Hthr. apply wrap_s_small; lia. }
  assert (out = true ↔ thr ≤ sub_drops sub + 1) as Hout.
  { unfold out. rewrite Hdrops, Hev. simpl. rewrite andb_true_r. lia. }
  assert (accepted (set_drops drops (u64 (sub_dropped sub + 1)) (out || sub_evicting sub) sub) g
          = accepted sub g) as Hacc by done.
  constructor; try rewrite Hacc; simpl; try done; rewrite ?Hdrops.
  - lia.
  - intros _ Hno. rewrite Hout in Hno. split; [lia|]. destruct out; [|done].
    exfalso. apply Hno, Hout. done.
  - rewrite Hout. lia.
  - intros Hr. specialize (si_slow0 Hr). lia.
  - rewrite length_app. simpl.
    replace (length off + 1 - Z.to_nat (sub_drops sub + 1))%nat
      with (length off - Z.to_nat (sub_drops sub))%nat by lia.
    rewrite take_app_le by lia. done.
  - rewrite length_app. simpl. lia.
  - rewrite si_dropped0, length_app, u64_add. simpl. f_equal. lia.
Qed.

Lemma sub_ok_recv thr reg due off p sub g e c :
  sub_ok thr reg due off p sub g → recv (sub_ch sub) = Some (e, c) →
  sub_ok thr reg due off p (set_ch c sub)
    {| joined := joined g; left_at := left_at g; got := got g ++ [e] |}.
Proof.
  intros [] (Hbuf & Hcap & Hcl)%recv_spec.
  assert (accepted (set_ch c sub) {| joined := joined g; left_at := left_at g; got := got g ++ [e] |}
          = accepted sub g) as Hacc.
  { unfold accepted. simpl. by rewrite Hbuf, <- app_assoc. }
  constructor; try rewrite Hacc; simpl; try done.
  - unfold chan_ok in *. rewrite Hcap. rewrite Hbuf in si_chan0. simpl in si_chan0. lia.
  - congruence.
Qed.

(** ** Every action preserves the invariant and none panics *)

Lemma threshold_bounds s : binv s → 1 ≤ threshold s ≤ max_int64.
Proof.
  intros Hinv. pose proof (bi_max _ Hinv). unfold threshold, max_int64 in *. lia.
Qed.

Section bus.
Context `{!MapRange Z ptr}.

Lemma act_subscribe s name types buffer :
  binv s → enabled (ASubscribe name types buffer) s →
  ∃ s', act (ASubscribe name types buffer) s = Some s' ∧ binv s'.
Proof.
  intros Hinv [Hq Hmax]. simpl. unfold Subscribe.
  destruct (bus_closed (bus (world s))) eqn:Hb.
  { eexists. split; [done|]. by destruct s. }
  eexists. split; [done|].
  pose proof (bi_next _ Hinv) as Hnext.
  assert (u64 (nextID (bus (world s)) + 1) = Z.of_nat (length (heap (world s))) + 1) as Hid.
  { rewrite Hnext in *. apply wrap_u_small. lia. }
  constructor; simpl; rewrite ?Hid.
  - rewrite !length_app, (bi_len _ Hinv). done.
  - rewrite length_app. simpl. lia.
  - lia.
  - apply Hinv.
  - intros id p. rewrite lookup_insert, length_app. simpl. case_decide; intros; simplify_eq; [lia|].
    destruct (bi_subs _ Hinv id p); [done|]. lia.
  - done.
  - apply Hinv.
  - apply Hinv.
  - apply Hinv.
  - pose proof (bi_phase _ Hinv) as Hph. unfold phase_inv, sending in *. simpl.
    destruct (pub s); [done..|]. intros p Hp%Hph. rewrite length_app. lia.
  - intros p sub g Hp Hg. unfold sub_inv, offered. rewrite reached_quiet by exact Hq. simpl.
    apply lookup_snoc_Some in Hp as [[Hlt Hp]|[-> <-]].
    + rewrite lookup_app_l in Hg by (rewrite (bi_len _ Hinv); done).
      pose proof (bi_sub _ Hinv _ _ _ Hp Hg) as Hok. unfold sub_inv, offered in Hok.
      rewrite reached_quiet in Hok by done. pose proof (si_id _ _ _ _ _ _ _ Hok).
      eapply sub_ok_weaken; [exact Hok| |done..].
      rewrite lookup_insert_ne by lia. done.
    + rewrite <- (bi_len _ Hinv), list_lookup_middle in Hg by done. simplify_eq.
      rewrite matching_fresh by apply Hinv.
      pose proof (threshold_bounds _ Hinv) as Hthr. change (threshold s) with
        (Z.max 1 (MaxDrops (bus (world s)))) in Hthr.
      constructor; unfold threshold in *; simpl; try done; try lia.
      * by rewrite lookup_insert_eq.
      * unfold chan_ok. simpl. split; [|lia]. go_cases; bools; lia.
      * intros Hin. pose proof (bi_phase _ Hinv) as Hph. unfold phase_inv, to_evict, sending in *.
        simpl in Hin. destruct (pub s); [by apply elem_of_nil in Hin|done|].
        specialize (Hph _ Hin). lia.
  - intros p g Hg. apply lookup_snoc_Some in Hg as [[Hlt Hg]|[-> <-]].
    + by apply (bi_hist _ Hinv p).
    + split; simpl; [lia|done].
Qed.

Lemma act_unsubscribe s p :
  binv s → enabled (AUnsubscribe p) s → ∃ s', act (AUnsubscribe p) s = Some s' ∧ binv s'.
Proof.
  intros Hinv Hen. destruct (Unsubscribe_closes s p Hinv Hen) as (w' & Hw' & Hcl & Hb).
  unfold act. rewrite Hw'. eexists. split; [done|]. destruct Hen as [Hq _].
  eapply binv_close; try done.
  rewrite Hb. intros Hc. by eapply closes_empty; [|apply Hinv].
Qed.

Lemma act_close s : binv s → enabled AClose s → ∃ s', act AClose s = Some s' ∧ binv s'.
Proof.
  intros Hinv Hq. simpl in Hq. unfold act, CloseBus.
  destruct (bus_closed (bus (world s))) eqn:Hb.
  { eexists. split; [done|].
    eapply (binv_close anyone); try done; [apply closes_refl|by apply Hinv]. }
  destruct (close_all_closes (range (subs (bus (world s)))) (set_bus set_closed (world s)))
    as (w' & Hw' & Hcl & Hnone).
  { exact (binv_wsub _ Hinv). }
  { intros id p Hp%elem_of_range. by apply (bi_subs _ Hinv). }
  rewrite Hw'. eexists. split; [done|].
  eapply (binv_close anyone); try done.
  - destruct Hcl. by constructor.
  - intros _. apply map_empty. intros id. destruct (subs (bus w') !! id) as [p|] eqn:Hid; [|done].
    rewrite <- Hid. apply Hnone. apply elem_of_range_keys, elem_of_dom.
    eapply lookup_weaken in Hid; [|apply Hcl]. eauto.
Qed.

Lemma act_evict s : binv s → enabled AEvict s → ∃ s', act AEvict s = Some s' ∧ binv s'.
Proof.
  intros Hinv [evs Hph]. unfold act. rewrite Hph. destruct evs as [|p evs].
  - eexists. split; [done|]. destruct Hinv. constructor; try done.
    intros p sub g Hp Hg. specialize (bi_sub0 p sub g Hp Hg).
    unfold sub_inv, offered, reached, to_evict in *. simpl. by rewrite Hph in bi_sub0.
  - destruct (evict_closes s p evs Hinv Hph) as (w' & Hw' & Hcl & Hb & Hgone).
    rewrite Hw'. eexists. split; [done|].
    assert (sending s = false) as Hq by (unfold sending; by rewrite Hph).
    eapply binv_close; try done; unfold to_evict; simpl; rewrite ?Hph.
    + intros ? ? -> _. set_solver.
    + rewrite Hb. intros Hc. by eapply closes_empty; [|apply Hinv].
    + set_solver.
    + intros q sub Hsub Hopen [->|Hin]%elem_of_cons; [|done].
      specialize (Hgone _ Hsub). congruence.
Qed.

Lemma act_recv s p : binv s → enabled (ARecv p) s → ∃ s', act (ARecv p) s = Some s' ∧ binv s'.
Proof.
  intros Hinv Hp. simpl in Hp. destruct (lookup_lt_is_Some_2 _ _ Hp) as [sub Hsub].
  unfold act. rewrite Hsub. simpl. destruct (recv (sub_ch sub)) as [[e c]|] eqn:Hr; [|by eauto].
  eexists. split; [done|]. pose proof Hinv as []. constructor; simpl; try done.
  - by rewrite length_alter, length_insert.
  - by rewrite length_insert.
  - intros id q Hq. rewrite length_insert. by apply bi_subs0.
  - unfold phase_inv in *. simpl. rewrite length_insert. destruct (pub s); try done.
    destruct bi_phase0 as (? & ? & ? & ? & ? & ? & Hj). do 6 (split; [done|]).
    intros q g Hq Hg. rewrite list_lookup_alter in Hg. case_decide; [subst|by eauto].
    apply fmap_Some in Hg as (g0 & Hg0 & ->). simpl. by eauto.
  - intros q sub' g' Hq Hg'. unfold sub_inv in *.
    destruct (decide (q = p)) as [->|Hne].
    + rewrite list_lookup_insert_eq in Hq by done. rewrite list_lookup_alter_eq in Hg'.
      apply fmap_Some in Hg' as (g & Hg & ->). simplify_eq.
      specialize (bi_sub0 _ _ _ Hsub Hg). by eapply sub_ok_recv in bi_sub0.
    + rewrite list_lookup_insert_ne in Hq by done. rewrite list_lookup_alter_ne in Hg' by done.
      by apply bi_sub0.
  - intros q g' Hg'. rewrite list_lookup_alter in Hg'. case_decide; [|by eauto].
    apply fmap_Some in Hg' as (g & Hg & ->). subst. exact (bi_hist0 _ _ Hg).
Qed.

Lemma hist_ok_weaken n m g : hist_ok n g → n ≤ m → hist_ok m g.
Proof. unfold hist_ok. intros [H1 H2] ?. split; [lia|]. destruct (left_at g); [lia|done]. Qed.

(** Only registered subscriptions are affected by a new event. *)
Lemma offered_new s p sub g evt :
  binv s → pub s = Idle → heap (world s) !! p = Some sub → hist s !! p = Some g →
  seq (bus (world s)) < Seq evt →
  matching sub g (if decide (p ∈ (range (subs (bus (world s)))).*2)
                  then filter (λ e, Seq e ≠ Seq evt) (published s ++ [evt])
                  else published s ++ [evt])
  = offered s p sub g.
Proof.
  intros Hinv Hph Hp Hg Hlt. unfold offered, reached. rewrite Hph.
  pose proof (bi_sub _ Hinv _ _ _ Hp Hg) as Hok. case_decide as Hin.
  - rewrite filter_app, filter_cons, decide_False by tauto.
    rewrite app_nil_r. f_equal. apply filter_all.
    apply (Forall_impl _ _ _ (bi_range _ Hinv)). intros e ?. lia.
  - rewrite matching_app. rewrite (matching_late _ _ evt), app_nil_r; [done|].
    destruct (bi_hist _ Hinv _ _ Hg) as [_ Hl].
    pose proof (proj2 (not_iff_compat (si_left _ _ _ _ _ _ _ Hok))) as Hleft.
    destruct (left_at g) as [t|]; [exists t; split; [done|lia]|]. destruct Hleft; [|done].
    intros Ho%(si_reg _ _ _ _ _ _ _ Hok). apply Hin, list_elem_of_fmap.
    exists (sub_id sub, p). split; [done|]. by apply elem_of_range.
Qed.

Lemma act_publish s eventType data now :
  binv s → enabled (APublish eventType data now) s →
  ∃ s', act (APublish eventType data now) s = Some s' ∧ binv s'.
Proof.
  intros Hinv [Hph Hmax]. unfold act, Publish_begin.
  pose proof (bi_seq _ Hinv) as Hseq.
  assert (u64 (seq (bus (world s)) + 1) = seq (bus (world s)) + 1) as Hu.
  { apply wrap_u_small. lia. }
  destruct (_ || _) eqn:Hnobody; eexists; (split; [done|]); pose proof Hinv as [];
    constructor; simpl; rewrite ?Hu; try done; try lia.
  - apply (Forall_impl _ _ _ bi_range0). intros e ?. lia.
  - intros p sub g Hp Hg. specialize (bi_sub0 p sub g Hp Hg).
    unfold sub_inv, offered, reached, to_evict in *. simpl. by rewrite Hph in bi_sub0.
  - intros p g Hg. eapply hist_ok_weaken; [by apply (bi_hist0 p)|lia].
  - apply StronglySorted_app_2; [|done|by repeat constructor].
    intros e e' He He'%list_elem_of_singleton. subst. simpl.
    rewrite Forall_forall in bi_range0. specialize (bi_range0 _ He). lia.
  - apply Forall_app. split; [|repeat constructor; simpl; lia].
    apply (Forall_impl _ _ _ bi_range0). intros e ?. lia.
  - unfold phase_inv. simpl. rewrite Hu. split.
    { unfold threshold. simpl. destruct (_ <? _) eqn:?; bools; lia. }
    split; [by eauto|]. split; [done|]. split.
    { rewrite range_perm. apply NoDup_alt. intros i j p Hi Hj.
      rewrite list_lookup_fmap in Hi, Hj.
      apply fmap_Some in Hi as ([a ?] & Hi & ->). apply fmap_Some in Hj as ([b q] & Hj & ?).
      simplify_eq/=.
      pose proof (list_elem_of_lookup_2 _ _ _ Hi) as Hia%elem_of_map_to_list.
      pose proof (list_elem_of_lookup_2 _ _ _ Hj) as Hjb%elem_of_map_to_list.
      destruct (bi_subs0 _ _ Hia) as [-> _]. destruct (bi_subs0 _ _ Hjb) as [-> _].
      eapply NoDup_lookup; [apply (NoDup_map_to_list (subs (bus (world s))))|done..]. }
    split.
    { intros p Hin. split; [set_solver|].
      apply list_elem_of_fmap in Hin as ([id q] & -> & Hq%elem_of_range). simpl.
      destruct (bi_subs0 _ _ Hq) as [<- _]. done. }
    split; [set_solver|]. intros p g _ Hg. destruct (bi_hist0 _ _ Hg). lia.
  - intros p sub g Hp Hg. unfold sub_inv, offered, reached, to_evict. simpl.
    pose proof (offered_new s p sub g
      {| Seq := seq (bus (world s)) + 1; Type_ := eventType; Time := now; Data := data |}
      Hinv Hph Hp Hg) as Hoff.
    simpl in Hoff. rewrite Hoff by lia.
    specialize (bi_sub0 p sub g Hp Hg). unfold sub_inv, to_evict in bi_sub0.
    by rewrite Hph in bi_sub0.
  - intros p g Hg. eapply hist_ok_weaken; [by apply (bi_hist0 p)|lia].
Qed.

(** The event in flight is the last one published. *)
Lemma reached_one s evt maxd p todo evs :
  binv s → pub s = Sending evt maxd (p :: todo) evs → p ∉ todo →
  published s = reached s p ++ [evt].
Proof.
  intros Hinv Hph Hp. unfold reached. rewrite Hph, decide_True by set_solver.
  pose proof (bi_phase _ Hinv) as Hpi. unfold phase_inv in Hpi. rewrite Hph in Hpi.
  destruct Hpi as (_ & [evts He] & _). pose proof (bi_sorted _ Hinv) as Hsort. rewrite He in *.
  rewrite filter_app, filter_cons, decide_False, app_nil_r by tauto.
  f_equal. symmetry. apply filter_all. apply Forall_forall. intros e Hin.
  pose proof (StronglySorted_app_1_elem_of _ _ _ e evt Hsort Hin) as Hlt.
  assert (Seq e < Seq evt); [apply Hlt; set_solver|lia].
Qed.

(** What one turn of the loop does to the invariant: [sub'] replaces the
    subscription at [p] and the registry is untouched. *)
Lemma binv_sent s evt maxd p todo evs w' sub' out :
  binv s → pub s = Sending evt maxd (p :: todo) evs →
  (∃ d1 d2 d3, bus w' = add_counts d1 d2 d3 (bus (world s)) ∨ bus w' = bus (world s)) →
  heap w' = <[p := sub']> (heap (world s)) →
  let s' := {| world := w'; pub := Sending evt maxd todo (if out : bool then evs ++ [p] else evs);
               published := published s; hist := hist s |} in
  (∀ sub g, heap (world s) !! p = Some sub → hist s !! p = Some g →
            sub_ok (threshold s) (subs (bus (world s)) !! sub_id sub = Some p) False
              (offered s p sub g) p sub g →
            sub_id sub' = sub_id sub ∧
            sub_ok (threshold s) (subs (bus (world s)) !! sub_id sub = Some p) (out = true)
              (matching sub' g (published s)) p sub' g) →
  binv s'.
Proof.
  intros Hinv Hph Hbus Hheap s' Hone.
  assert (nextID (bus w') = nextID (bus (world s)) ∧ MaxDrops (bus w') = MaxDrops (bus (world s))
          ∧ subs (bus w') = subs (bus (world s)) ∧ seq (bus w') = seq (bus (world s))
          ∧ bus_closed (bus w') = bus_closed (bus (world s))) as (E1 & E2 & E3 & E4 & E5).
  { by destruct Hbus as (? & ? & ? & [-> | ->]). }
  pose proof (bi_phase _ Hinv) as Hpi. unfold phase_inv in Hpi. rewrite Hph in Hpi.
  destruct Hpi as (Hmaxd & Hlast & Hseq & Hnd & Htodo & Hevs & Hj).
  apply NoDup_cons in Hnd as [Hp Hnd].
  destruct (Htodo p) as [Hpe Hreg]; [set_solver|].
  pose proof (proj2 (bi_subs _ Hinv _ _ Hreg)) as Hplt.
  constructor; unfold s'; simpl; rewrite ?E1, ?E2, ?E3, ?E4, ?E5, ?Hheap, ?length_insert;
    try by apply Hinv.
  - unfold phase_inv. simpl. unfold threshold. simpl.
    rewrite ?E2, ?E3, ?E4, ?Hheap, ?length_insert. do 4 (split; [done|]).
    split; [|split].
    + intros q Hq. destruct (Htodo q) as [Hqe Hqr]; [set_solver|]. split; [|done].
      destruct out; [|done]. intros [?| ->%list_elem_of_singleton]%elem_of_app; done.
    + intros q Hq. destruct out; [|by auto].
      apply elem_of_app in Hq as [?| ->%list_elem_of_singleton]; auto.
    + intros q g Hq. apply Hj. set_solver.
  - intros q sub g Hq Hg. unfold sub_inv, to_evict, offered. simpl. rewrite E3.
    replace (threshold _) with (threshold s) by (unfold threshold; simpl; by rewrite E2).
    destruct (decide (q = p)) as [->|Hne].
    + rewrite list_lookup_insert_eq in Hq by done. simplify_eq.
      destruct (lookup_lt_is_Some_2 _ _ Hplt) as [sub0 Hsub0].
      destruct (Hone sub0 g Hsub0 Hg) as [Hid Hok].
      { eapply sub_ok_weaken; [by apply (bi_sub _ Hinv)|done|done|].
        unfold to_evict. by rewrite Hph. }
      unfold reached. simpl. rewrite decide_False by done. rewrite Hid.
      eapply sub_ok_weaken; [exact Hok|done| |].
      * destruct out; [done|]. intros ?. done.
      * intros _ ->. set_solver.
    + rewrite list_lookup_insert_ne in Hq by done.
      pose proof (bi_sub _ Hinv _ _ _ Hq Hg) as Hok. unfold sub_inv, to_evict, offered in Hok.
      rewrite Hph in Hok. unfold reached in Hok |- *. rewrite Hph in Hok. simpl.
      replace (if decide (q ∈ p :: todo) then filter (λ e, Seq e ≠ Seq evt) (published s)
               else published s)
        with (if decide (q ∈ todo) then filter (λ e, Seq e ≠ Seq evt) (published s)
              else published s) in Hok
        by (destruct (decide (q ∈ todo)), (decide (q ∈ p :: todo)); set_solver).
      eapply sub_ok_weaken; [exact Hok|done|destruct out; set_solver..].
Qed.

Lemma act_send s : binv s → enabled ASend s → ∃ s', act ASend s = Some s' ∧ binv s'.
Proof.
  intros Hinv Hen. simpl in Hen. unfold sending in Hen. unfold act.
  destruct (pub s) as [|evt maxd [|p todo] evs|] eqn:Hph; try done.
  - eexists. split; [done|]. pose proof (bi_phase _ Hinv) as Hpi.
    unfold phase_inv in Hpi. rewrite Hph in Hpi. destruct Hinv. constructor; try done.
    + unfold phase_inv. simpl. apply Hpi.
    + intros p sub g Hp Hg. specialize (bi_sub0 p sub g Hp Hg).
      unfold sub_inv, offered, reached, to_evict in *. simpl. rewrite Hph in bi_sub0.
      by rewrite decide_False in bi_sub0 by set_solver.
  - pose proof (bi_phase _ Hinv) as Hpi. unfold phase_inv in Hpi. rewrite Hph in Hpi.
    destruct Hpi as (Hmaxd & Hlast & Hseq & [Hp _]%NoDup_cons & Htodo & Hevs & Hj).
    destruct (Htodo p) as [Hpe Hreg]; [set_solver|].
    pose proof (proj2 (bi_subs _ Hinv _ _ Hreg)) as Hplt.
    destruct (lookup_lt_is_Some_2 _ _ Hplt) as [sub Hsub].
    pose proof (binv_wsub _ Hinv p sub Hsub) as (Hid & Hch & Hopen).
    rewrite <- Hid in Hreg. apply Hopen in Hreg.
    pose proof (reached_one _ _ _ _ _ _ Hinv Hph Hp) as Hpub.
    pose proof (threshold_bounds _ Hinv) as Hthr.
    assert (∀ g, hist s !! p = Some g →
              matching sub g [evt] = if wants (Type_ evt) sub then [evt] else []) as Hmatch.
    { intros g Hg. unfold matching. rewrite filter_cons.
      assert (registered_at g (Seq evt) = true) as ->.
      { unfold registered_at. pose proof (Hj p g (list_elem_of_here _ _) Hg).
        rewrite (proj2 (si_left _ _ _ _ _ _ _ (bi_sub _ Hinv _ _ _ Hsub Hg)) Hreg).
        rewrite andb_true_r. lia. }
      by destruct (wants (Type_ evt) sub). }
    unfold Publish_one. rewrite Hsub. simpl. destruct (wants (Type_ evt) sub) eqn:Hw; simpl.
    + destruct (try_send_open (cloneEvent evt) (sub_ch sub)) as [(c & Hs & _)|[Hs _]];
        [congruence|rewrite Hs; eexists; split; [done|]..].
      * eapply (binv_sent _ _ _ _ _ _ _ _ false); [done|done|by eauto|done|].
        intros sub0 g Hsub0 Hg Hok. simplify_eq. split; [done|].
        rewrite (matching_types _ sub), Hpub, matching_app, (Hmatch g Hg) by done.
        eapply sub_ok_weaken; [eapply sub_ok_sent; eauto; [lia|by destruct evt]|done..].
      * eapply (binv_sent _ _ _ _ _ _ _ _ ((maxd <=? i64 (sub_drops sub + 1))
                                            && negb (sub_evicting sub))); [done|done|by eauto|done|].
        intros sub0 g Hsub0 Hg Hok. simplify_eq. split; [done|].
        rewrite (matching_types _ sub), Hpub, matching_app, (Hmatch g Hg) by done.
        eapply sub_ok_full; eauto.
    + eexists. split; [done|]. eapply (binv_sent _ _ _ _ _ _ _ sub false); [done|done|by eauto| |].
      * by rewrite list_insert_id.
      * intros sub0 g Hsub0 Hg Hok. simplify_eq. split; [done|].
        rewrite Hpub, matching_app, (Hmatch g Hg), app_nil_r.
        eapply sub_ok_weaken; [exact Hok|done..].
  Unshelve. all: exact 0.
Qed.


Lemma act_total s a : binv s → enabled a s → ∃ s', act a s = Some s' ∧ binv s'.
Proof.
  destruct a; eauto using act_subscribe, act_unsubscribe, act_publish, act_send, act_evict,
    act_close, act_recv.
Qed.

Lemma bstep_binv s s' : binv s → bstep s s' → binv s'.
Proof.
  intros Hinv (a & Hen & Ha). destruct (act_total s a Hinv Hen) as (s1 & Ha1 & H1). congruence.
Qed.

Lemma boot_binv buffer maxDrops : maxDrops ≤ max_int64 → binv (boot_bus buffer maxDrops).
Proof. intros Hmax. constructor; simpl; try done; constructor. Qed.

Lemma reachable_binv buffer maxDrops s :
  maxDrops ≤ max_int64 → rtc bstep (boot_bus buffer maxDrops) s → binv s.
Proof.
  intros Hmax. apply rtc_invariant; [exact bstep_binv|by apply boot_binv].
Qed.

(** ** Closing is final *)

Definition still_closed (sub sub' : Subscription) : Prop :=
  sub_closed sub' = true ∧ sub_reason sub' = sub_reason sub
  ∧ ch_buf (sub_ch sub') `suffix_of` ch_buf (sub_ch sub).

Lemma closes_still_closed R w w' p sub :
  closes R w w' → heap w !! p = Some sub → sub_closed sub = true →
  ∃ sub', heap w' !! p = Some sub' ∧ still_closed sub sub'.
Proof.
  intros Hcl Hp Hc. destruct (cl_sub _ _ _ Hcl _ _ Hp) as (sub' & Hp' & [[-> _]|(? & _)]);
    [|congruence]. exists sub. split; [done|]. done.
Qed.

Lemma bstep_still_closed s s' p sub :
  binv s → bstep s s' → heap (world s) !! p = Some sub → sub_closed sub = true →
  ∃ sub', heap (world s') !! p = Some sub' ∧ still_closed sub sub'.
Proof.
  intros Hinv (a & Hen & Ha) Hp Hc. destruct a; simpl in Ha.
  - exists sub. split; [|done]. unfold Subscribe in Ha.
    destruct (bus_closed _); simplify_eq/=; [done|]. by apply lookup_app_l_Some.
  - destruct (Unsubscribe_closes _ _ Hinv Hen) as (w' & Hw' & Hcl & _).
    rewrite Hw' in Ha. simplify_eq/=. by eapply closes_still_closed.
  - exists sub. split; [|done]. unfold Publish_begin in Ha. destruct (_ || _); by simplify_eq/=.
  - destruct (pub s) as [|evt maxd [|q todo] evs|] eqn:Hph; simplify_eq/=;
      [by exists sub| by exists sub| |by exists sub].
    apply bind_Some in Ha as ([w' out] & Ha & ?). simplify_eq/=.
    exists sub. split; [|done].
    pose proof (bi_phase _ Hinv) as Hpi. unfold phase_inv in Hpi. rewrite Hph in Hpi.
    destruct Hpi as (_ & _ & _ & _ & Htodo & _). destruct (Htodo q) as [_ Hreg]; [set_solver|].
    assert (q ≠ p) as Hne.
    { intros ->. destruct (binv_wsub _ Hinv p sub Hp) as (Hid & _ & Hr). rewrite <- Hid in Hreg.
      apply Hr in Hreg. congruence. }
    unfold Publish_one in Ha. apply bind_Some in Ha as (subq & Hq & Ha).
    destruct (negb _); simplify_eq; [done|].
    destruct (try_send _ _); simplify_eq/=; by rewrite list_lookup_insert_ne.
  - destruct (pub s) as [|evt maxd todo evs|[|q evs]] eqn:Hph; simplify_eq/=;
      [by exists sub..|].
    destruct (evict_closes _ _ _ Hinv Hph) as (w' & Hw' & Hcl & _).
    rewrite Hw' in Ha. simplify_eq/=. by eapply closes_still_closed.
  - unfold CloseBus in Ha. destruct (bus_closed _) eqn:Hb; simplify_eq/=; [by exists sub|].
    destruct (close_all_closes (range (subs (bus (world s)))) (set_bus set_closed (world s)))
      as (w' & Hw' & Hcl & _).
    { exact (binv_wsub _ Hinv). }
    { intros id q Hq%elem_of_range. by apply (bi_subs _ Hinv). }
    rewrite Hw' in Ha. simplify_eq/=. by eapply closes_still_closed.
  - apply bind_Some in Ha as (subq & Hq & Ha).
    destruct (recv (sub_ch subq)) as [[e c]|] eqn:Hr; simplify_eq/=; [|by exists sub].
    destruct (decide (p0 = p)) as [->|Hne].
    + simplify_eq. eexists. rewrite list_lookup_insert_eq by by eapply lookup_lt_Some.
      split; [done|]. apply recv_spec in Hr as (Hbuf & _ & _). split; [done|]. split; [done|].
      simpl. rewrite Hbuf. by exists [e].
    + exists sub. by rewrite list_lookup_insert_ne.
Qed.

Lemma reachable_still_closed s s' p sub :
  binv s → rtc bstep s s' → heap (world s) !! p = Some sub → sub_closed sub = true →
  ∃ sub', heap (world s') !! p = Some sub' ∧ still_closed sub sub'.
Proof.
  intros Hinv Hr. revert sub Hinv. induction Hr as [s|s s1 s2 Hst Hr IH]; intros sub Hinv Hp Hc.
  { by exists sub. }
  destruct (bstep_still_closed _ _ _ _ Hinv Hst Hp Hc) as (sub1 & Hp1 & Hc1 & Hr1 & Hb1).
  destruct (IH sub1 (bstep_binv _ _ Hinv Hst) Hp1 Hc1) as (sub2 & Hp2 & Hc2 & Hr2 & Hb2).
  exists sub2. split; [done|]. split; [done|]. split; [congruence|]. by etrans.
Qed.

(** ** An undisturbed [Publish] is a path of the protocol *)

Lemma Publish_loop_path s evt maxd todo evs0 :
  binv s → pub s = Sending evt maxd todo evs0 →
  ∃ w evs s', Publish_loop evt maxd todo (world s) = Some (w, evs) ∧ rtc bstep s s'
    ∧ world s' = w ∧ pub s' = Evicting (evs0 ++ evs).
Proof.
  revert s evs0. induction todo as [|p todo IH]; intros s evs0 Hinv Hph.
  - exists (world s), [], {| world := world s; pub := Evicting evs0; published := published s;
                             hist := hist s |}.
    rewrite app_nil_r. split; [done|]. split; [|done]. apply rtc_once. exists ASend.
    simpl. unfold sending. by rewrite Hph.
  - assert (enabled ASend s) as Hen by (simpl; unfold sending; by rewrite Hph).
    destruct (act_total s ASend Hinv Hen) as (s1 & Ha & H1). pose proof Ha as Hact.
    unfold act in Ha. rewrite Hph in Ha. apply bind_Some in Ha as ([w1 out] & Hone & Ha).
    simplify_eq/=. edestruct IH as (w & evs & s2 & Hloop & Hpath & Hw & Hp2); [exact H1|done|].
    simpl in Hloop. rewrite Hone. simpl. rewrite Hloop. simpl.
    exists w, (if out then p :: evs else evs), s2. split; [done|]. split.
    { eapply rtc_l; [|exact Hpath]. by exists ASend. }
    split; [done|]. rewrite Hp2. destruct out; [by rewrite <- app_assoc|done].
Qed.

Lemma evict_all_path s evs :
  binv s → pub s = Evicting evs →
  ∃ w s', evict_all evs (world s) = Some w ∧ rtc bstep s s' ∧ world s' = w ∧ pub s' = Idle.
Proof.
  revert s. induction evs as [|p evs IH]; intros s Hinv Hph;
    (assert (enabled AEvict s) as Hen by (simpl; eauto));
    destruct (act_total s AEvict Hinv Hen) as (s1 & Ha & H1); pose proof Ha as Hact;
    unfold act in Ha; rewrite Hph in Ha.
  - apply (inj Some) in Ha. subst s1. eexists (world s), _. split; [done|].
    split; [apply rtc_once; exists AEvict; split; [exact Hen|exact Hact]|done].
  - apply bind_Some in Ha as (w1 & Hone & Ha). simplify_eq/=.
    edestruct IH as (w & s2 & Hall & Hpath & Hw & Hp2); [exact H1|done|].
    simpl in Hall. exists w, s2. rewrite Hone. simpl. split; [done|]. split; [|done].
    eapply rtc_l; [|exact Hpath]. by exists AEvict.
Qed.

Lemma Publish_path s eventType data now :
  binv s → enabled (APublish eventType data now) s →
  ∃ w s', Publish eventType data now (world s) = Some w ∧ rtc bstep s s'
          ∧ world s' = w ∧ pub s' = Idle.
Proof.
  intros Hinv Hen. destruct (act_total s _ Hinv Hen) as (s1 & Ha & H1). pose proof Ha as Hact.
  unfold act in Ha. unfold Publish.
  destruct (Publish_begin eventType data now (world s)) as [w1 [[evt maxd]|]]; simplify_eq.
  - destruct (Publish_loop_path _ evt maxd _ _ H1 eq_refl)
      as (w2 & evs & s2 & Hl & Hp2 & Hw2 & Hph2). simpl in Hl. rewrite Hl. simpl.
    assert (binv s2) as H2. { eapply rtc_invariant; [exact bstep_binv|exact H1|done]. }
    destruct (evict_all_path s2 _ H2 Hph2) as (w3 & s3 & Hall & Hp3 & Hw3 & Hph3).
    exists w3, s3. rewrite Hw2 in Hall. split; [done|]. split; [|done].
    eapply rtc_l; [by exists (APublish eventType data now)|]. by etrans.
  - eexists w1, _. split; [done|].
    split; [apply rtc_once; exists (APublish eventType data now); split; [exact Hen|exact Hact]|done].
Qed.

(** C27: under every interleaving of publishers, consumers, subscriptions,
    cancellations and shutdown, what a consumer has received or still has
    buffered is a subsequence of exactly the events published while it was
    registered that its filter accepts, in strictly increasing sequence order;
    its drop counter is the number of those it did not get, and its buffer never
    exceeds its capacity. *)
Theorem bus_delivery_exact buffer maxDrops s p sub g :
  maxDrops ≤ max_int64 → rtc bstep (boot_bus buffer maxDrops) s →
  heap (world s) !! p = Some sub → hist s !! p = Some g →
  accepted sub g `sublist_of` offered s p sub g
  ∧ StronglySorted (λ e e', Seq e < Seq e') (accepted sub g)
  ∧ Dropped sub = u64 (Z.of_nat (length (offered s p sub g))
                       - Z.of_nat (length (accepted sub g)))
  ∧ (length (ch_buf (sub_ch sub)) ≤ ch_cap (sub_ch sub))%nat
  ∧ (pub s = Idle → offered s p sub g = matching sub g (published s)).
Proof.
  intros Hmax Hr Hp Hg. pose proof (reachable_binv _ _ _ Hmax Hr) as Hinv.
  destruct (bi_sub _ Hinv _ _ _ Hp Hg). unfold chan_ok in *.
  assert (accepted sub g `sublist_of` offered s p sub g) as Hsub.
  { etrans; [exact si_accepted0|]. apply sublist_take. }
  split; [done|]. split; [|split; [done|]; split; [tauto|]].
  - eapply StronglySorted_sublist; [exact Hsub|].
    eapply StronglySorted_sublist; [apply sublist_filter|].
    unfold reached. pose proof (bi_sorted _ Hinv).
    destruct (pub s); [done| |done]. case_decide; [|done].
    eapply StronglySorted_sublist; [apply sublist_filter|done].
  - intros Hi. unfold offered, reached. by rewrite Hi.
Qed.

(** The bus never panics (no send on a closed channel, no channel closed
    twice), whatever action comes next; a subscription is registered exactly
    while its close reason is Open; a consumer evicted as slow had its last
    MaxDrops (at least one) matching events dropped in a row; and once a
    subscription is closed its reason never changes and nothing is added to its
    channel. *)
Theorem bus_lifecycle buffer maxDrops s :
  maxDrops ≤ max_int64 → rtc bstep (boot_bus buffer maxDrops) s →
  (∀ a, enabled a s → is_Some (act a s))
  ∧ ∀ p sub g, heap (world s) !! p = Some sub → hist s !! p = Some g →
     (sub_reason sub = CloseReasonOpen ↔ subs (bus (world s)) !! sub_id sub = Some p)
     ∧ (sub_reason sub = CloseReasonSlowConsumer →
          let k := Z.to_nat (Z.max 1 (MaxDrops (bus (world s)))) in
          (k ≤ length (offered s p sub g))%nat
          ∧ accepted sub g `sublist_of`
              take (length (offered s p sub g) - k) (offered s p sub g))
     ∧ (sub_reason sub ≠ CloseReasonOpen → ∀ s', rtc bstep s s' →
          ∃ sub', heap (world s') !! p = Some sub' ∧ sub_reason sub' = sub_reason sub
                  ∧ ch_buf (sub_ch sub') `suffix_of` ch_buf (sub_ch sub)).
Proof.
  intros Hmax Hr. pose proof (reachable_binv _ _ _ Hmax Hr) as Hinv. split.
  { intros a Hen. destruct (act_total s a Hinv Hen) as (s' & Ha & _). eauto. }
  intros p sub g Hp Hg. destruct (bi_sub _ Hinv _ _ _ Hp Hg).
  split; [by rewrite si_reason0|]. split.
  - intros Hslow. specialize (si_slow0 Hslow). unfold threshold in si_slow0.
    rewrite <- si_slow0. done.
  - intros Hno s' Hr'. assert (sub_closed sub = true) as Hc.
    { destruct (sub_closed sub); [done|]. naive_solver. }
    destruct (reachable_still_closed _ _ _ _ Hinv Hr' Hp Hc) as (sub' & Hp' & _ & H1 & H2).
    eauto.
Qed.

(** A [Publish] call that nobody interrupts always returns, without
    blocking on a slow consumer and without panicking, and what it does is a run
    of the interleaved protocol that ends with no eviction pending. *)
Theorem Publish_returns buffer maxDrops s eventType data now :
  maxDrops ≤ max_int64 → rtc bstep (boot_bus buffer maxDrops) s →
  pub s = Idle → seq (bus (world s)) + 1 < 2 ^ 64 →
  ∃ w s', Publish eventType data now (world s) = Some w ∧ rtc bstep s s'
          ∧ world s' = w ∧ pub s' = Idle.
Proof.
  intros Hmax Hr Hi Hs. apply Publish_path; [by eapply reachable_binv|done].
Qed.

End bus.

(** ** A slow consumer, step by step *)

#[local] Existing Instance stdpp_range.

Definition enabledb (a : baction) (s : Sys) : bool :=
  match a with
  | ASubscribe _ _ _ => negb (sending s) && (nextID (bus (world s)) + 1 <? 2 ^ 64)
  | AUnsubscribe None => negb (sending s)
  | AUnsubscribe (Some p) => negb (sending s) && bool_decide (p < length (heap (world s)))%nat
  | APublish _ _ _ => match pub s with Idle => seq (bus (world s)) + 1 <? 2 ^ 64 | _ => false end
  | ASend => sending s
  | AEvict => match pub s with Evicting _ => true | _ => false end
  | AClose => negb (sending s)
  | ARecv p => bool_decide (p < length (heap (world s)))%nat
  end.

Lemma enabledb_enabled a s : enabledb a s = true → enabled a s.
Proof.
  destruct a as [| [p|] | | | | |]; simpl; intros Hb; bools; try done.
  - destruct (pub s); bools; done.
  - destruct (pub s); eauto; done.
Qed.

Fixpoint run_acts (l : list baction) (s : Sys) : option Sys :=
  match l with
  | [] => Some s
  | a :: l => if enabledb a s then s' ← act a s; run_acts l s' else None
  end.

Lemma run_acts_reach l s s' : run_acts l s = Some s' → rtc bstep s s'.
Proof.
  revert s. induction l as [|a l IH]; simpl; intros s Hr; [by simplify_eq|].
  destruct (enabledb a s) eqn:He; [|done]. apply bind_Some in Hr as (s1 & Ha & Hr).
  eapply rtc_l; [|by apply IH]. exists a. split; [by apply enabledb_enabled|done].
Qed.

(** One subscriber with room for one event, evicted after two drops in a row:
    it reads the first event, keeps the second and misses the next two. *)
Definition slow_acts : list baction :=
  [ASubscribe "bot" ["join"] 1;
   APublish "join" [1] 10; ASend; ASend; AEvict; ARecv 0;
   APublish "leave" [2] 11; ASend; ASend; AEvict;
   APublish "join" [3] 12; ASend; ASend; AEvict;
   APublish "join" [4] 13; ASend; ASend; AEvict;
   APublish "join" [5] 14; ASend; ASend; AEvict; AEvict].

Definition slow_run : Sys := default (boot_bus 1 2) (run_acts slow_acts (boot_bus 1 2)).

Lemma slow_reach : rtc bstep (boot_bus 1 2) slow_run.
Proof. apply (run_acts_reach slow_acts). vm_compute. reflexivity. Qed.

Lemma bus_delivery_exact_witness :
  ∃ sub g, heap (world slow_run) !! 0%nat = Some sub ∧ hist slow_run !! 0%nat = Some g
    ∧ map Seq (accepted sub g) = [1; 3] ∧ map Seq (offered slow_run 0 sub g) = [1; 3; 4; 5]
    ∧ Dropped sub = u64 (Z.of_nat (length (offered slow_run 0 sub g))
                         - Z.of_nat (length (accepted sub g))).
Proof.
  eexists _, _. split; [vm_compute; reflexivity|]. split; [vm_compute; reflexivity|].
  split; [vm_compute; reflexivity|]. split; [vm_compute; reflexivity|].
  eapply (bus_delivery_exact 1 2); [by vm_compute|exact slow_reach|vm_compute; reflexivity|].
  vm_compute. reflexivity.
Defined.

Lemma bus_lifecycle_witness :
  ∃ sub g, heap (world slow_run) !! 0%nat = Some sub ∧ hist slow_run !! 0%nat = Some g
    ∧ sub_reason sub = CloseReasonSlowConsumer
    ∧ accepted sub g `sublist_of`
        take (length (offered slow_run 0 sub g) - 2) (offered slow_run 0 sub g).
Proof.
  assert (sub_reason <$> heap (world slow_run) !! 0%nat = Some CloseReasonSlowConsumer) as Hr
    by (vm_compute; reflexivity).
  assert (is_Some (hist slow_run !! 0%nat)) as [g Hg] by (vm_compute; eauto).
  assert (MaxDrops (bus (world slow_run)) = 2) as Hd by (vm_compute; reflexivity).
  apply fmap_Some in Hr as (sub & Hp & Hr). exists sub, g.
  destruct (bus_lifecycle 1 2 slow_run) as [_ Hsub]; [by vm_compute|exact slow_reach|].
  destruct (Hsub 0%nat sub g Hp Hg) as (_ & Hslow & _). rewrite Hd in Hslow.
  split; [done|]. split; [done|]. split; [done|]. exact (proj2 (Hslow (eq_sym Hr))).
Defined.

Lemma Publish_returns_witness :
  pub slow_run = Idle ∧ is_Some (Publish "join" [6] 15 (world slow_run)).
Proof.
  split; [vm_compute; reflexivity|].
  destruct (Publish_returns 1 2 slow_run "join" [6] 15) as (w & s' & Hw & _);
    [by vm_compute|exact slow_reach|vm_compute; reflexivity|vm_compute; reflexivity|].
  rewrite Hw. eauto.
Defined.
