(* ===== verification/Broadcast.v ===== *)
(** * Snapshots of the channel tree: [src/internal/broadcast/snapshot.go]

    [BuildSnapshot] links [ChannelNode] objects through pointers; the nodes live
    in the table [nodes] (the source's [nodeByID], which holds every node) and a
    pointer to a node is its channel id. The source reads the channels and the
    clients under two separate lock acquisitions, so the definition takes the
    manager's state at each of the two reads. *)

From S2P Require Import Prelude StateManager StateInvariant StateSpec StateTree GoChan.

Record ClientInfo := {
  ci_ClientID : string;
  ci_UniqueID : string;
  ci_Nickname : string;
  ci_ChannelID : Z;
  ci_IsSpeaking : bool;
  ci_ConnectedAt : Z;
  ci_PrioritySpeaker : bool;
  ci_Status : string;
  ci_StatusMessage : string;
  ci_IsBot : bool;
}.

Record ChannelNode := {
  nd_Channel : Channel;
  nd_Children : list Z;
  nd_Clients : list ClientInfo;
}.

Record TreeSnapshot := {
  RootChannels : list Z;
  nodes : gmap Z ChannelNode;
  UnassignedClients : list ClientInfo;
  TotalClients : Z;
  TotalChannels : Z;
  GeneratedAt : Z;
}.

Definition clientToInfo (c : option Client) : ClientInfo :=
  match c with
  | None => Build_ClientInfo "" "" "" 0 false 0 false "" "" false
  | Some c => {|
      ci_ClientID := cl_ClientID c; ci_UniqueID := cl_UniqueID c;
      ci_Nickname := cl_Nickname c; ci_ChannelID := cl_ChannelID c;
      ci_IsSpeaking := cl_IsSpeaking c; ci_ConnectedAt := cl_ConnectedAt c;
      ci_PrioritySpeaker := cl_PrioritySpeaker c; ci_Status := cl_Status c;
      ci_StatusMessage := cl_StatusMessage c; ci_IsBot := cl_IsBot c |}
  end.

#[global] Arguments clientToInfo : simpl never.

(** [node.HasPassword = ch.PasswordHash != ""] on a copy of the channel *)
Definition mark_password (ch : Channel) : Channel :=
  mkChannel (ch_ChannelID ch) (ch_ParentID ch) (ch_Name ch) (ch_Topic ch) (ch_OrderIndex ch)
    (ch_ChannelType ch) (ch_MaxClients ch) (ch_ClientCount ch) (ch_CreatedAt ch)
    (ch_PasswordHash ch) (ch_NeededJoinPower ch) (ch_HasIcon ch)
    (negb (bool_decide (ch_PasswordHash ch = ""))) (ch_OpusBitrate ch) (ch_OpusFEC ch)
    (ch_OpusDTX ch) (ch_OpusStereo ch) (ch_SlowModeSeconds ch) (ch_Description ch)
    (ch_InheritPermissions ch).

Definition new_node (ch : Channel) : ChannelNode :=
  {| nd_Channel := mark_password ch; nd_Children := []; nd_Clients := [] |}.

Definition add_child (id : Z) (nd : ChannelNode) : ChannelNode :=
  {| nd_Channel := nd_Channel nd; nd_Children := nd_Children nd ++ [id];
     nd_Clients := nd_Clients nd |}.

Definition add_client (i : ClientInfo) (nd : ChannelNode) : ChannelNode :=
  {| nd_Channel := nd_Channel nd; nd_Children := nd_Children nd;
     nd_Clients := nd_Clients nd ++ [i] |}.

Definition index_nodes (chs : list Channel) : gmap Z ChannelNode :=
  foldl (λ m ch, <[ch_ChannelID ch := new_node ch]> m) ∅ chs.

Definition attach_one (acc : list Z * gmap Z ChannelNode) (ch : Channel)
  : list Z * gmap Z ChannelNode :=
  let '(roots, m) := acc in
  if ch_ParentID ch =? 0 then (roots ++ [ch_ChannelID ch], m)
  else match m !! ch_ParentID ch with
       | Some parent => (roots, <[ch_ParentID ch := add_child (ch_ChannelID ch) parent]> m)
       | None => (roots ++ [ch_ChannelID ch], m)
       end.

Definition hidden (forAdmin : bool) (viewerUniqueID : string) (c : Client) : bool :=
  bool_decide (cl_Status c = "invisible") && negb forAdmin
  && negb (bool_decide (cl_UniqueID c = viewerUniqueID)).

Definition place_one (forAdmin : bool) (viewerUniqueID : string)
    (acc : Z * list ClientInfo * gmap Z ChannelNode) (c : Client)
  : Z * list ClientInfo * gmap Z ChannelNode :=
  let '(total, unassigned, m) := acc in
  if hidden forAdmin viewerUniqueID c then acc
  else
    let info := clientToInfo (Some c) in
    if cl_ChannelID c =? 0 then (total + 1, unassigned ++ [info], m)
    else match m !! cl_ChannelID c with
         | Some node => (total + 1, unassigned, <[cl_ChannelID c := add_client info node]> m)
         | None => (total + 1, unassigned, m)
         end.

Section snapshot.
Context `{!∀ V, MapRange string V, !∀ V, MapRange Z V}.

Definition BuildSnapshot (sm : option (Manager * Manager)) (forAdmin : bool)
    (viewerUniqueID : string) (now : Z) : TreeSnapshot :=
  match sm with
  | None => {| RootChannels := []; nodes := ∅; UnassignedClients := []; TotalClients := 0;
               TotalChannels := 0; GeneratedAt := now |}
  | Some (m1, m2) =>
      let channels := ChannelTreeOrdered m1 in
      let members := ListClients m2 in
      let '(roots, linked) := foldl attach_one ([], index_nodes channels) channels in
      let '(total, unassigned, placed) :=
        foldl (place_one forAdmin viewerUniqueID) (0, [], linked) members in
      {| RootChannels := roots; nodes := placed; UnassignedClients := unassigned;
         TotalClients := total; TotalChannels := Z.of_nat (length channels);
         GeneratedAt := now |}
  end.

End snapshot.

(** ** What the three loops compute *)

Definition is_root (m : gmap Z ChannelNode) (ch : Channel) : Prop :=
  ch_ParentID ch = 0 ∨ m !! ch_ParentID ch = None.

#[export] Instance is_root_dec m ch : Decision (is_root m ch).
Proof. unfold is_root. apply _. Defined.

Definition add_children (ids : list Z) (nd : ChannelNode) : ChannelNode :=
  {| nd_Channel := nd_Channel nd; nd_Children := nd_Children nd ++ ids;
     nd_Clients := nd_Clients nd |}.

Definition add_clients (l : list ClientInfo) (nd : ChannelNode) : ChannelNode :=
  {| nd_Channel := nd_Channel nd; nd_Children := nd_Children nd;
     nd_Clients := nd_Clients nd ++ l |}.

Lemma attach_spec chs roots m :
  let r := foldl attach_one (roots, m) chs in
  r.1 = roots ++ (ch_ChannelID <$> filter (is_root m) chs)
  ∧ (∀ id, r.2 !! id
       = add_children (ch_ChannelID <$> filter (λ ch, ch_ParentID ch ≠ 0 ∧ ch_ParentID ch = id) chs)
         <$> m !! id).
Proof.
  revert roots m. induction chs as [|ch chs IH]; intros roots m; simpl.
  { rewrite app_nil_r. split; [done|]. intros id. destruct (m !! id) as [[]|]; [|done].
    unfold add_children. simpl. by rewrite app_nil_r. }
  assert (∀ m', (∀ c, is_root m' c ↔ is_root m c) →
            filter (is_root m') chs = filter (is_root m) chs) as Hext.
  { intros m' Hm'. apply list_filter_iff. done. }
  destruct (Z.eqb_spec (ch_ParentID ch) 0) as [Hz|Hz].
  - destruct (IH (roots ++ [ch_ChannelID ch]) m) as [H1 H2]. rewrite H1.
    rewrite filter_cons, decide_True by (by left). split; [by rewrite <- app_assoc|].
    intros id. rewrite H2, filter_cons, decide_False by tauto. done.
  - destruct (m !! ch_ParentID ch) as [parent|] eqn:Hp.
    + destruct (IH roots (<[ch_ParentID ch := add_child (ch_ChannelID ch) parent]> m)) as [H1 H2].
      rewrite H1, filter_cons, decide_False by (unfold is_root; rewrite Hp; naive_solver).
      rewrite Hext; [split; [done|]|].
      2: { intros c. unfold is_root. rewrite lookup_insert. case_decide as Hd; [|done].
           rewrite <- Hd, Hp. naive_solver. }
      intros id. rewrite H2, filter_cons, lookup_insert. case_decide as Hd.
      * subst. rewrite decide_True by done. rewrite Hp. simpl. f_equal.
        unfold add_children, add_child. simpl. by rewrite <- app_assoc.
      * rewrite decide_False by tauto. done.
    + destruct (IH (roots ++ [ch_ChannelID ch]) m) as [H1 H2]. rewrite H1.
      rewrite filter_cons, decide_True by (by right). split; [by rewrite <- app_assoc|].
      intros id. rewrite H2, filter_cons. case_decide as Hd; [|done].
      destruct Hd as [_ <-]. by rewrite Hp.
Qed.

Lemma place_spec forAdmin viewer cs total un m :
  let vis := filter (λ c, hidden forAdmin viewer c = false) cs in
  let r := foldl (place_one forAdmin viewer) (total, un, m) cs in
  r.1.1 = total + Z.of_nat (length vis)
  ∧ r.1.2 = un ++ ((λ c, clientToInfo (Some c)) <$> filter (λ c, cl_ChannelID c = 0) vis)
  ∧ (∀ id, r.2 !! id
       = add_clients ((λ c, clientToInfo (Some c))
                        <$> filter (λ c, cl_ChannelID c ≠ 0 ∧ cl_ChannelID c = id) vis)
         <$> m !! id).
Proof.
  revert total un m. induction cs as [|c cs IH]; intros total un m; simpl.
  { rewrite app_nil_r. split; [lia|]. split; [done|]. intros id.
    destruct (m !! id) as [[]|]; [|done]. unfold add_clients. simpl. by rewrite app_nil_r. }
  destruct (hidden forAdmin viewer c) eqn:Hh.
  { rewrite filter_cons, decide_False by congruence. apply IH. }
  rewrite filter_cons, decide_True by done. simpl.
  destruct (Z.eqb_spec (cl_ChannelID c) 0) as [Hz|Hz].
  - destruct (IH (total + 1) (un ++ [clientToInfo (Some c)]) m) as (H1 & H2 & H3).
    rewrite H1, H2. rewrite !filter_cons, decide_True by done.
    split; [lia|]. split; [by rewrite <- app_assoc|].
    intros id. rewrite H3, filter_cons, decide_False by tauto. done.
  - assert (filter (λ c, cl_ChannelID c = 0) (c :: filter (λ c, hidden forAdmin viewer c = false) cs)
            = filter (λ c, cl_ChannelID c = 0) (filter (λ c, hidden forAdmin viewer c = false) cs))
      as -> by by rewrite filter_cons, decide_False.
    destruct (m !! cl_ChannelID c) as [node|] eqn:Hp.
    + destruct (IH (total + 1) un (<[cl_ChannelID c := add_client (clientToInfo (Some c)) node]> m))
        as (H1 & H2 & H3). split; [lia|]. split; [done|].
      intros id. rewrite H3, filter_cons, lookup_insert. case_decide as Hd.
      * subst. rewrite decide_True by done. rewrite Hp. simpl. f_equal.
        unfold add_clients, add_client. simpl. by rewrite <- app_assoc.
      * rewrite decide_False by tauto. done.
    + destruct (IH (total + 1) un m) as (H1 & H2 & H3). split; [lia|]. split; [done|].
      intros id. rewrite H3, filter_cons. case_decide as Hd; [|done].
      destruct Hd as [_ <-]. by rewrite Hp.
Qed.

(** Distributing a list over the keys of its elements loses and repeats nothing. *)
Lemma concat_buckets {A K} `{EqDecision K} (key : A → K) (ks : list K) (l : list A) :
  NoDup ks → (∀ x, x ∈ l → key x ∈ ks) →
  concat ((λ k, filter (λ x, key x = k) l) <$> ks) ≡ₚ l.
Proof.
  intros Hnd. induction l as [|x l IH]; intros Hin.
  { induction ks; [done|]. simpl. apply NoDup_cons in Hnd as [_ Hnd]. apply IHks; [done|set_solver]. }
  assert (∀ ks' : list K, NoDup ks' → key x ∈ ks' →
    concat ((λ k, filter (λ y, key y = k) (x :: l)) <$> ks')
    ≡ₚ x :: concat ((λ k, filter (λ y, key y = k) l) <$> ks')) as Hone.
  2: { rewrite Hone; [|done|by apply Hin; left]. f_equiv. apply IH. intros y Hy. apply Hin. by right. }
  clear. induction ks' as [|k ks' IH]; intros Hnd Hin; [by apply elem_of_nil in Hin|].
  apply NoDup_cons in Hnd as [Hk Hnd]. simpl. rewrite filter_cons. case_decide as Hd.
  - simpl. f_equiv. f_equiv.
    assert (∀ k, k ∈ ks' → filter (λ y, key y = k) (x :: l) = filter (λ y, key y = k) l) as Hsame.
    { intros k' Hk'. rewrite filter_cons, decide_False; [done|]. congruence. }
    clear -Hsame. induction ks' as [|k ks' IH]; [done|]. simpl.
    rewrite Hsame by set_solver. f_equiv. apply IH. set_solver.
  - rewrite IH; [|done|set_solver]. by rewrite Permutation_middle.
Qed.

Lemma filter_ext_elem {A} (P Q : A → Prop) `{!∀ x, Decision (P x), !∀ x, Decision (Q x)}
    (l : list A) :
  (∀ x, x ∈ l → P x ↔ Q x) → filter P l = filter Q l.
Proof.
  induction l as [|x l IH]; intros HPQ; [done|]. rewrite !filter_cons.
  rewrite IH by set_solver. specialize (HPQ x (list_elem_of_here _ _)).
  destruct (decide (P x)), (decide (Q x)); tauto.
Qed.

Lemma distribute {A B K} `{EqDecision K} (f : A → B) (key : A → K) (R Q : A → Prop)
    `{!∀ x, Decision (R x), !∀ x, Decision (Q x)} (ks : list K) (l : list A) :
  NoDup ks → (∀ x, x ∈ l → ¬ R x → key x ∈ ks) →
  (∀ x, x ∈ l → key x ∈ ks → (Q x ↔ ¬ R x)) →
  (f <$> filter R l) ++ concat ((λ k, f <$> filter (λ x, Q x ∧ key x = k) l) <$> ks) ≡ₚ f <$> l.
Proof.
  intros Hnd Hkey HQ.
  assert (concat ((λ k, f <$> filter (λ x, Q x ∧ key x = k) l) <$> ks)
          = f <$> concat ((λ k, filter (λ x, key x = k) (filter (λ x, ¬ R x) l)) <$> ks)) as ->.
  { clear Hnd Hkey. induction ks as [|k ks IH]; [done|].
    rewrite !fmap_cons. cbn [concat]. rewrite fmap_app.
    rewrite IH by (intros; apply HQ; set_solver). f_equal. f_equal.
    rewrite list_filter_filter. apply filter_ext_elem. intros x Hx.
    specialize (HQ x Hx). set_solver. }
  rewrite concat_buckets; [|done|].
  - rewrite <- fmap_app. by rewrite filter_app_complement.
  - intros x [Hr Hx]%list_elem_of_filter. auto.
Qed.

Lemma index_nodes_lookup chs id nd :
  NoDup (ch_ChannelID <$> chs) →
  index_nodes chs !! id = Some nd ↔ ∃ ch, ch ∈ chs ∧ ch_ChannelID ch = id ∧ nd = new_node ch.
Proof.
  unfold index_nodes. induction chs as [|ch chs IH] using rev_ind; intros Hnd.
  { simpl. rewrite lookup_empty. set_solver. }
  rewrite fmap_app, NoDup_app in Hnd. destruct Hnd as (Hnd & Hne & _).
  rewrite foldl_snoc, lookup_insert. setoid_rewrite elem_of_app.
  setoid_rewrite list_elem_of_singleton. case_decide as Hd.
  - subst. split; [intros [= <-]; by eauto|]. intros (c & [Hc| ->] & Hid & ->); [|done].
    exfalso. apply (Hne (ch_ChannelID c)); [by apply list_elem_of_fmap_2|]. simpl. set_solver.
  - rewrite IH by done. split; [naive_solver|]. intros (c & [Hc| ->] & Hid & ->); [eauto|done].
Qed.

Section snapshot_facts.
Context `{!∀ V, MapRange string V, !∀ V, MapRange Z V}.
Variable m : Manager.
Hypothesis Hwf : wf m.

Lemma tree_perm : ChannelTreeOrdered m ≡ₚ (map_to_list (channels m)).*2.
Proof.
  unfold ChannelTreeOrdered. rewrite sort_by_perm.
  rewrite (list_fmap_ext cloneChannel id), list_fmap_id by done. by rewrite range_perm.
Qed.

Lemma elem_of_tree ch : ch ∈ ChannelTreeOrdered m ↔ channels m !! ch_ChannelID ch = Some ch.
Proof.
  rewrite tree_perm, list_elem_of_fmap. split.
  - intros ([k c] & -> & Hc%elem_of_map_to_list). simpl.
    by destruct (wf_channel_key m (wf_m m Hwf) _ _ Hc) as [-> _].
  - intros Hc. exists (ch_ChannelID ch, ch). by rewrite elem_of_map_to_list.
Qed.

Lemma tree_ids : ch_ChannelID <$> ChannelTreeOrdered m ≡ₚ (map_to_list (channels m)).*1.
Proof.
  rewrite tree_perm, <- list_fmap_compose. erewrite list_fmap_ext; [done|].
  intros i [k c] Hi. simpl. apply list_elem_of_lookup_2, elem_of_map_to_list in Hi.
  by destruct (wf_channel_key m (wf_m m Hwf) _ _ Hi) as [-> _].
Qed.

Lemma NoDup_tree_ids : NoDup (ch_ChannelID <$> ChannelTreeOrdered m).
Proof. rewrite tree_ids. apply NoDup_fst_map_to_list. Qed.

Lemma index_nodes_tree : index_nodes (ChannelTreeOrdered m) = new_node <$> channels m.
Proof.
  apply map_eq. intros id. rewrite lookup_fmap. apply option_eq. intros nd.
  rewrite index_nodes_lookup by apply NoDup_tree_ids. rewrite fmap_Some. split.
  - intros (ch & Hch%elem_of_tree & <- & ->). eauto.
  - intros (ch & Hch & ->). exists ch.
    destruct (wf_channel_key m (wf_m m Hwf) _ _ Hch) as [Hid _]. rewrite elem_of_tree, Hid. auto.
Qed.

(** The clients a viewer may see. *)
Definition shown (forAdmin : bool) (viewer : string) : list Client :=
  filter (λ c, hidden forAdmin viewer c = false) (ListClients m).

Lemma ListClients_stored c : c ∈ ListClients m → clients m !! cl_ClientID c = Some c.
Proof.
  unfold ListClients. rewrite list_elem_of_fmap. intros (c0 & -> & Hc).
  rewrite cloneClient_id. apply list_elem_of_fmap in Hc as ([k c1] & -> & Hc%elem_of_range).
  simpl. by rewrite (wf_client_key m (wf_m m Hwf) _ _ Hc).
Qed.

Lemma ListClients_channel c :
  c ∈ ListClients m → cl_ChannelID c ≠ 0 → is_Some (channels m !! cl_ChannelID c).
Proof.
  intros Hc Hz. apply ListClients_stored in Hc.
  by apply (wf_member_is_channel m (cl_ClientID c) c (wf_m m Hwf)).
Qed.

(** The two loops together: what each part of the snapshot holds. *)
Lemma BuildSnapshot_parts forAdmin viewer now :
  let s := BuildSnapshot (Some (m, m)) forAdmin viewer now in
  RootChannels s = ch_ChannelID <$> filter (is_root (new_node <$> channels m)) (ChannelTreeOrdered m)
  ∧ (∀ id, nodes s !! id = (λ ch, {|
       nd_Channel := mark_password ch;
       nd_Children := ch_ChannelID <$> filter (λ c, ch_ParentID c ≠ 0 ∧ ch_ParentID c = id)
                                         (ChannelTreeOrdered m);
       nd_Clients := (λ c, clientToInfo (Some c))
                       <$> filter (λ c, cl_ChannelID c ≠ 0 ∧ cl_ChannelID c = id)
                             (shown forAdmin viewer) |}) <$> channels m !! id)
  ∧ UnassignedClients s = (λ c, clientToInfo (Some c))
                            <$> filter (λ c, cl_ChannelID c = 0) (shown forAdmin viewer)
  ∧ TotalClients s = Z.of_nat (length (shown forAdmin viewer))
  ∧ TotalChannels s = Z.of_nat (size (channels m)).
Proof.
  unfold BuildSnapshot. rewrite index_nodes_tree.
  pose proof (attach_spec (ChannelTreeOrdered m) [] (new_node <$> channels m)) as [H1 H2].
  destruct (foldl attach_one _ _) as [roots linked]. simpl in H1, H2.
  pose proof (place_spec forAdmin viewer (ListClients m) 0 [] linked) as (H3 & H4 & H5).
  destruct (foldl (place_one _ _) _ _) as [[total un] placed]. simpl in *.
  split; [done|]. split; [|split; [done|]; split; [done|]].
  - intros id. rewrite H5, H2, lookup_fmap. by destruct (channels m !! id).
  - by rewrite tree_perm, length_fmap, length_map_to_list.
Qed.

End snapshot_facts.

Section snapshot_property.
Context `{!∀ V, MapRange string V, !∀ V, MapRange Z V}.

(** Every client info of a snapshot, wherever it hangs. *)
Definition all_infos (s : TreeSnapshot) : list ClientInfo :=
  UnassignedClients s ++ concat (nd_Clients <$> (map_to_list (nodes s)).*2).

(** Every position of the tree: the roots and the children of every node. *)
Definition all_links (s : TreeSnapshot) : list Z :=
  RootChannels s ++ concat (nd_Children <$> (map_to_list (nodes s)).*2).

(** The nodes of a snapshot, listed with the keys of the channel map. *)
Lemma nodes_concat {B} (s : TreeSnapshot) (m : Manager) (f : ChannelNode → list B) g :
  (∀ id, nodes s !! id = g id <$> channels m !! id) →
  (∀ id ch, f (g id ch) = f (g id (sample_channel 0 0 0))) →
  concat (f <$> (map_to_list (nodes s)).*2)
  ≡ₚ concat ((λ id, f (g id (sample_channel 0 0 0))) <$> (map_to_list (channels m)).*1).
Proof.
  intros Hn Hf. assert (nodes s = map_imap (λ id ch, Some (g id ch)) (channels m)) as ->.
  { apply map_eq. intros id. rewrite Hn, map_lookup_imap. by destruct (channels m !! id). }
  assert ((map_to_list (map_imap (λ id ch, Some (g id ch)) (channels m))).*2
          ≡ₚ (λ '(id, ch), g id ch) <$> map_to_list (channels m)) as ->.
  { generalize (channels m). intros M. induction M as [|k x M Hk IH] using map_ind.
    - rewrite map_imap_empty. by rewrite !map_to_list_empty.
    - rewrite map_imap_insert_Some with (y := g k x) by done.
      rewrite map_to_list_insert by (rewrite map_lookup_imap, Hk; done).
      rewrite map_to_list_insert by done. simpl. by rewrite IH. }
  rewrite <- !list_fmap_compose. erewrite (list_fmap_ext (f ∘ _)); [done|].
  intros i [k c] _. apply Hf.
Qed.

Lemma children_sorted (m : Manager) P `{!∀ c : Channel, Decision (P c)} chs :
  wf m → StronglySorted tree_le chs →
  (∀ c, c ∈ filter P chs → channels m !! ch_ChannelID c = Some c) →
  StronglySorted (λ a b, ∀ ca cb, channels m !! a = Some ca → channels m !! b = Some cb →
                           tree_le ca cb) (ch_ChannelID <$> filter P chs).
Proof.
  intros Hwf Hs Hin. pose proof (StronglySorted_sublist _ _ _ (sublist_filter P chs) Hs) as Hs'.
  clear Hs. induction Hs' as [|c l Hl IH Hall]; simpl; constructor.
  - apply IH. intros c' ?. apply Hin. by right.
  - apply Forall_fmap. rewrite Forall_forall in Hall |- *. intros c' Hc' ca cb. simpl.
    rewrite (Hin c), (Hin c') by set_solver. intros [= <-] [= <-]. by apply Hall.
Qed.

(** A snapshot of a consistent state shows the whole server once: every
    channel hangs exactly once in the tree, under its parent or at the root when
    it has none, siblings in the total order of the channel tree; every client
    the viewer may see appears exactly once, in the node of its channel or among
    the unassigned, and is counted once; an invisible client appears only to an
    administrator and to itself. *)
Theorem snapshot_exact m forAdmin viewer now :
  wf m →
  let s := BuildSnapshot (Some (m, m)) forAdmin viewer now in
  all_links s ≡ₚ (map_to_list (channels m)).*1
  ∧ all_infos s ≡ₚ (λ c, clientToInfo (Some c)) <$> shown m forAdmin viewer
  ∧ TotalClients s = Z.of_nat (length (all_infos s))
  ∧ TotalChannels s = Z.of_nat (length (all_links s))
  ∧ (∀ id ch, channels m !! id = Some ch → ∃ nd, nodes s !! id = Some nd
      ∧ nd_Channel nd = mark_password ch
      ∧ (∀ kid, kid ∈ nd_Children nd ↔ ∃ c, channels m !! kid = Some c ∧ ch_ParentID c = id)
      ∧ StronglySorted (λ a b, ∀ ca cb, channels m !! a = Some ca → channels m !! b = Some cb →
                                 tree_le ca cb) (nd_Children nd)
      ∧ (∀ i, i ∈ nd_Clients nd → ci_ChannelID i = id))
  ∧ (∀ i, i ∈ all_infos s → ci_Status i = "invisible" →
          forAdmin = true ∨ ci_UniqueID i = viewer).
Proof.
  intros Hwf s. destruct (BuildSnapshot_parts m Hwf forAdmin viewer now)
    as (Hroots & Hnodes & Hun & Htotal & Hchans). fold s in Hroots, Hnodes, Hun, Htotal, Hchans.
  assert (∀ id, id ∈ (map_to_list (channels m)).*1 ↔ is_Some (channels m !! id)) as Hkeys.
  { intros id. rewrite list_elem_of_fmap. split.
    - intros ([k c] & -> & Hc%elem_of_map_to_list). by eauto.
    - intros [c Hc]. exists (id, c). by rewrite elem_of_map_to_list. }
  assert (all_links s ≡ₚ (map_to_list (channels m)).*1) as Hlinks.
  { unfold all_links. rewrite (nodes_concat s m nd_Children _ Hnodes) by done. simpl.
    rewrite Hroots, distribute, (tree_ids m Hwf); [done|apply NoDup_fst_map_to_list|..];
      intros x Hx; unfold is_root; rewrite lookup_fmap, Hkeys;
      destruct (channels m !! ch_ParentID x) as [c|] eqn:Hc; simpl.
    - eauto.
    - naive_solver.
    - intros _. naive_solver.
    - by intros [? ?]. }
  assert (all_infos s ≡ₚ (λ c, clientToInfo (Some c)) <$> shown m forAdmin viewer) as Hinfos.
  { unfold all_infos. rewrite (nodes_concat s m nd_Clients _ Hnodes) by done. simpl.
    rewrite Hun, distribute; [done|apply NoDup_fst_map_to_list|..]; intros c Hc; [|done].
    intros Hz. apply Hkeys. unfold shown in Hc. apply list_elem_of_filter in Hc as [_ Hc].
    by apply (ListClients_channel m Hwf). }
  split; [done|]. split; [done|]. split; [by rewrite Htotal, Hinfos, length_fmap|].
  split; [by rewrite Hchans, Hlinks, length_fmap, length_map_to_list|]. split.
  - intros id ch Hch. eexists. rewrite Hnodes, Hch. split; [done|]. simpl. split; [done|].
    destruct (wf_channel_key m (wf_m m Hwf) _ _ Hch) as [_ Hz]. split; [|split].
    + intros kid. rewrite list_elem_of_fmap. setoid_rewrite list_elem_of_filter. split.
      * intros (c & -> & [_ Hp] & Hc%(elem_of_tree m Hwf)). eauto.
      * intros (c & Hc & Hp). destruct (wf_channel_key m (wf_m m Hwf) _ _ Hc) as [<- _].
        exists c. split; [done|]. split; [split; congruence|]. by apply (elem_of_tree m Hwf).
    + apply children_sorted; [done|apply StronglySorted_merge_sort; apply _|].
      intros c [_ Hc]%list_elem_of_filter. by apply (elem_of_tree m Hwf).
    + intros i (c & -> & [[_ Hp] _]%list_elem_of_filter)%list_elem_of_fmap. exact Hp.
  - intros i. rewrite Hinfos. intros (c & -> & Hc)%list_elem_of_fmap Hinv.
    unfold shown in Hc. apply list_elem_of_filter in Hc as [Hh _].
    change (cl_Status c = "invisible") in Hinv. change (forAdmin = true ∨ cl_UniqueID c = viewer).
    unfold hidden in Hh. rewrite bool_decide_eq_true_2 in Hh by done.
    destruct forAdmin; [by left|right]. simpl in Hh. by bools.
Qed.

End snapshot_property.

(** ** Witness: an invisible client in a channel *)

Definition ghost_state : Manager := run (OpSetStatus "alice" "invisible" "") sample_state.

Lemma ghost_wf : wf ghost_state.
Proof.
  apply (step_wf sample_state); [exact sample_wf|].
  by exists (OpSetStatus "alice" "invisible" "").
Qed.

Lemma snapshot_exact_witness :
  let view admin viewer :=
    BuildSnapshot (H := λ V, stdpp_range) (H0 := λ V, stdpp_range)
      (Some (ghost_state, ghost_state)) admin viewer 0 in
  TotalClients (view false "bob") = 0 ∧ TotalClients (view false "alice") = 1
  ∧ TotalClients (view true "bob") = 1
  ∧ all_links (view false "bob") ≡ₚ (map_to_list (channels ghost_state)).*1.
Proof.
  split; [vm_compute; reflexivity|]. split; [vm_compute; reflexivity|].
  split; [vm_compute; reflexivity|].
  apply (snapshot_exact (H := λ V, stdpp_range) (H0 := λ V, stdpp_range) ghost_state false "bob" 0).
  exact ghost_wf.
Defined.

(** * The broadcaster: [src/internal/broadcast/broadcaster.go]

    The registry of connected clients and the fan-out to their bounded outbound
    queues. A queue is shared with the connection that drains it, so queues live
    in a heap and the registry maps a client id to a pointer. [sendMu] makes
    every broadcast one atomic operation; a receive commutes with the sends to
    other queues, so the interleavings are sequences of whole operations and
    receives. [None] stands for a panic or for a send that would block.

    The event tap is the callback that [cmd/server] binds to the event bus: a
    function on the state [T] of whoever listens, a parameter here. So is the
    JSON encoder, on which nothing proved here depends. *)

Abbreviation payload := (list Z).

Inductive BroadcastError :=
| ErrNotRegistered
| ErrChannelFull
| ErrAlreadyRegistered
| ErrClosed.

Definition clientBufferSize : nat := 16.

Record clientQueue := { q_ch : chan payload; q_dropped : Z }.

Abbreviation qptr := nat.

Record Broadcaster := {
  b_closed : bool;
  b_clients : gmap string qptr;
  b_tap : bool;
  b_delivered : Z;
  b_dropped : Z;
}.

Definition NewBroadcaster : Broadcaster := {|
  b_closed := false; b_clients := ∅; b_tap := false; b_delivered := 0; b_dropped := 0 |}.

Record BWorld (T : Type) := { bc : Broadcaster; queues : list clientQueue; bot : T }.
Arguments bc {T} b.
Arguments queues {T} b.
Arguments bot {T} b.
Arguments Build_BWorld {T}.

Section broadcaster.
Context {T : Type}.
Context (tap : string → payload → T → option T).
Context (marshal_envelope : string → payload → option payload).
Context (marshal_snapshot : TreeSnapshot → option payload).
Context `{!∀ V, MapRange string V, !∀ V, MapRange Z V}.
Implicit Types w : BWorld T.

Definition set_bc (f : Broadcaster → Broadcaster) w : BWorld T :=
  {| bc := f (bc w); queues := queues w; bot := bot w |}.
Definition set_clients (f : gmap string qptr → gmap string qptr) (b : Broadcaster) : Broadcaster := {|
  b_closed := b_closed b; b_clients := f (b_clients b); b_tap := b_tap b;
  b_delivered := b_delivered b; b_dropped := b_dropped b |}.
Definition set_bclosed (b : Broadcaster) : Broadcaster := {|
  b_closed := true; b_clients := b_clients b; b_tap := b_tap b;
  b_delivered := b_delivered b; b_dropped := b_dropped b |}.
Definition count (del drp : Z) (b : Broadcaster) : Broadcaster := {|
  b_closed := b_closed b; b_clients := b_clients b; b_tap := b_tap b;
  b_delivered := u64 (b_delivered b + del); b_dropped := u64 (b_dropped b + drp) |}.
Definition set_queue (q : qptr) (x : clientQueue) w : BWorld T :=
  {| bc := bc w; queues := <[q := x]> (queues w); bot := bot w |}.

Definition Register (clientID : string) w : BWorld T * result BroadcastError qptr :=
  if b_closed (bc w) then (w, Err ErrClosed)
  else match b_clients (bc w) !! clientID with
       | Some _ => (w, Err ErrAlreadyRegistered)
       | None =>
           let q := length (queues w) in
           ({| bc := set_clients <[clientID := q]> (bc w);
               queues := queues w ++ [{| q_ch := make_chan clientBufferSize; q_dropped := 0 |}];
               bot := bot w |}, Ok q)
       end.

Definition close_queue (q : qptr) w : option (BWorld T) :=
  x ← queues w !! q;
  c ← close_chan (q_ch x);
  Some (set_queue q {| q_ch := c; q_dropped := q_dropped x |} w).

Definition Unregister (clientID : string) w : option (BWorld T) :=
  match b_clients (bc w) !! clientID with
  | None => Some w
  | Some q => close_queue q (set_bc (set_clients (delete clientID)) w)
  end.

Definition noteDrop (q : qptr) (x : clientQueue) w : BWorld T :=
  set_queue q {| q_ch := q_ch x; q_dropped := u64 (q_dropped x + 1) |} (set_bc (count 0 1) w).

(** The result is whether the payload was sent, and the queue depth. *)
Definition trySend (q : qptr) (p : payload) w : option (BWorld T * (bool * nat)) :=
  x ← queues w !! q;
  if bool_decide (length (ch_buf (q_ch x)) = ch_cap (q_ch x))
  then Some (noteDrop q x w, (false, ch_cap (q_ch x)))
  else match try_send p (q_ch x) with
       | Sent c => Some (set_queue q {| q_ch := c; q_dropped := q_dropped x |}
                           (set_bc (count 1 0) w), (true, length (ch_buf c)))
       | Full | SendPanic => None
       end.

Fixpoint send_each (qs : list qptr) (p : payload) w : option (BWorld T * list nat) :=
  match qs with
  | [] => Some (w, [])
  | q :: qs =>
      '(w1, (_, depth)) ← trySend q p w;
      '(w2, depths) ← send_each qs p w1;
      Some (w2, depth :: depths)
  end.

(** Returns the depths handed to the backlog observer. *)
Definition broadcastToAllLocked (p : payload) w : option (BWorld T * list nat) :=
  if b_closed (bc w) then Some (w, [])
  else send_each (range (b_clients (bc w))).*2 p w.

Definition BroadcastSnapshot (sm : option (Manager * Manager)) (forAdmin : bool)
    (viewerUniqueID : string) (now : Z) w : option (BWorld T * list nat) :=
  match marshal_snapshot (BuildSnapshot sm forAdmin viewerUniqueID now) with
  | None => Some (w, [])
  | Some p => broadcastToAllLocked p w
  end.

(** The queues of the registered members of a channel. *)
Definition member_queues (sm : Manager) (channelID : Z) (b : Broadcaster) : list qptr :=
  omap (λ c, b_clients b !! cl_ClientID c) (ChannelMembers channelID sm).

Definition BroadcastToChannel (sm : option Manager) (channelID : Z) (p : payload) w
  : option (BWorld T * list nat) :=
  match sm with
  | None => Some (w, [])
  | Some m =>
      if b_closed (bc w) then Some (w, [])
      else send_each (member_queues m channelID (bc w)) p w
  end.

Definition BroadcastToClient (clientID : string) (p : payload) w
  : option (BWorld T * list nat * result BroadcastError unit) :=
  if b_closed (bc w) then Some (w, [], Err ErrClosed)
  else match b_clients (bc w) !! clientID with
       | None => Some (w, [], Err ErrNotRegistered)
       | Some q =>
           '(w', (sent, depth)) ← trySend q p w;
           Some (w', [depth], if sent : bool then Ok tt else Err ErrChannelFull)
       end.

Definition SetEventTap (on : bool) w : BWorld T :=
  set_bc (λ b, {| b_closed := b_closed b; b_clients := b_clients b; b_tap := on;
                  b_delivered := b_delivered b; b_dropped := b_dropped b |}) w.

Definition BroadcastEvent (eventType : string) (p : payload) w
  : option (BWorld T * list nat) :=
  match marshal_envelope eventType p with
  | None => Some (w, [])
  | Some wrapped =>
      w1 ← (if b_tap (bc w) then
              t ← tap eventType p (bot w);
              Some {| bc := bc w; queues := queues w; bot := t |}
            else Some w);
      broadcastToAllLocked wrapped w1
  end.

Definition ClientCount (b : Broadcaster) : nat := size (b_clients b).

Definition BroadcasterStats (b : Broadcaster) : nat * Z * Z :=
  (size (b_clients b), b_delivered b, b_dropped b).

Fixpoint close_each (l : list (string * qptr)) w : option (BWorld T) :=
  match l with
  | [] => Some w
  | (id, q) :: l =>
      w' ← close_queue q w;
      close_each l (set_bc (set_clients (delete id)) w')
  end.

Definition CloseBroadcaster w : option (BWorld T) :=
  if b_closed (bc w) then Some w
  else close_each (range (b_clients (bc w))) (set_bc set_bclosed w).

End broadcaster.

(** * The broadcaster under every sequence of operations

    [bact] runs one operation or one receive and records, in [log], what was
    broadcast and which queues it addressed. The invariant ties every queue to
    that log. *)

Inductive bop :=
| BRegister (id : string)
| BUnregister (id : string)
| BSnapshot (sm : option (Manager * Manager)) (forAdmin : bool) (viewer : string) (now : Z)
| BEvent (eventType : string) (p : payload)
| BChannel (sm : option Manager) (channelID : Z) (p : payload)
| BClient (id : string) (p : payload)
| BTap (on : bool)
| BClose
| BRecv (q : qptr).

Record BSys (T : Type) := {
  bw : BWorld T;
  log : list (payload * gset qptr);
  received : list (list payload);
}.
Arguments bw {T} b.
Arguments log {T} b.
Arguments received {T} b.

(** The payloads of the log addressed to a queue, oldest first. *)
Definition addressed (l : list (payload * gset qptr)) (q : qptr) : list payload :=
  (filter (λ e, q ∈ e.2) l).*1.

Section safety.
Context {T : Type}.
Context (tap : string → payload → T → option T).
Context (marshal_envelope : string → payload → option payload).
Context (marshal_snapshot : TreeSnapshot → option payload).
Context `{!∀ V, MapRange string V, !∀ V, MapRange Z V}.
Implicit Types (w : BWorld T) (s : BSys T).

Definition everyone w : list qptr := (range (b_clients (bc w))).*2.

(** What an operation broadcasts and to whom: every registered client, the
    registered members of a channel, or one client. *)
Definition audience (a : bop) w : option (payload * list qptr) :=
  if b_closed (bc w) then None
  else match a with
       | BSnapshot sm forAdmin viewer now =>
           p ← marshal_snapshot (BuildSnapshot sm forAdmin viewer now); Some (p, everyone w)
       | BEvent eventType p =>
           wrapped ← marshal_envelope eventType p; Some (wrapped, everyone w)
       | BChannel (Some m) channelID p => Some (p, member_queues m channelID (bc w))
       | BClient id p => q ← b_clients (bc w) !! id; Some (p, [q])
       | _ => None
       end.

Definition run_bop (a : bop) w : option (BWorld T) :=
  match a with
  | BRegister id => Some (Register id w).1
  | BUnregister id => Unregister id w
  | BSnapshot sm forAdmin viewer now =>
      fst <$> BroadcastSnapshot marshal_snapshot sm forAdmin viewer now w
  | BEvent eventType p => fst <$> BroadcastEvent tap marshal_envelope eventType p w
  | BChannel sm channelID p => fst <$> BroadcastToChannel sm channelID p w
  | BClient id p => (λ r, r.1.1) <$> BroadcastToClient id p w
  | BTap on => Some (SetEventTap on w)
  | BClose => CloseBroadcaster w
  | BRecv q => Some match queues w !! q with
                    | None => w
                    | Some x => match recv (q_ch x) with
                                | None => w
                                | Some (_, c) => set_queue q {| q_ch := c; q_dropped := q_dropped x |} w
                                end
                    end
  end.

(** What a receive gives, and the slot of a new queue. *)
Definition next_received (a : bop) w (r : list (list payload)) : list (list payload) :=
  match a with
  | BRegister id => match (Register id w).2 with Ok _ => r ++ [[]] | Err _ => r end
  | BRecv q => match queues w !! q with
               | None => r
               | Some x => match recv (q_ch x) with
                           | None => r
                           | Some (p, _) => alter (λ l, l ++ [p]) q r
                           end
               end
  | _ => r
  end.

Definition bact (a : bop) s : option (BSys T) :=
  w' ← run_bop a (bw s);
  Some {| bw := w';
          log := log s ++ option_list ((λ '(p, qs), (p, list_to_set qs)) <$> audience a (bw s));
          received := next_received a (bw s) (received s) |}.

(** Callers of [BroadcastToChannel] pass the state manager, whose states are
    consistent. *)
Definition ballowed (a : bop) : Prop :=
  match a with BChannel (Some m) _ _ => wf m | _ => True end.

Definition sstep s s' : Prop := ∃ a, ballowed a ∧ bact a s = Some s'.

Definition boot_broadcaster (t : T) : BSys T :=
  {| bw := {| bc := NewBroadcaster; queues := []; bot := t |}; log := []; received := [] |}.

(** ** The invariant *)

Definition queue_accepted (x : clientQueue) (got : list payload) : list payload :=
  got ++ ch_buf (q_ch x).

Record queue_ok (reg : Prop) (addr got : list payload) (x : clientQueue) : Prop := {
  qo_chan : chan_ok (q_ch x);
  qo_cap : ch_cap (q_ch x) = clientBufferSize;
  qo_reg : ch_closed (q_ch x) = false ↔ reg;
  qo_accepted : queue_accepted x got `sublist_of` addr;
  qo_dropped : q_dropped x = u64 (Z.of_nat (length addr)
                                  - Z.of_nat (length (queue_accepted x got)));
}.

Definition registered w (q : qptr) : Prop := ∃ id, b_clients (bc w) !! id = Some q.

Record sinv s : Prop := {
  iv_len : length (received s) = length (queues (bw s));
  iv_lt q : registered (bw s) q → (q < length (queues (bw s)))%nat;
  iv_inj id id' q : b_clients (bc (bw s)) !! id = Some q →
                    b_clients (bc (bw s)) !! id' = Some q → id = id';
  iv_closed : b_closed (bc (bw s)) = true → b_clients (bc (bw s)) = ∅;
  iv_log e q : e ∈ log s → q ∈ e.2 → (q < length (queues (bw s)))%nat;
  iv_queue q x got : queues (bw s) !! q = Some x → received s !! q = Some got →
                     queue_ok (registered (bw s) q) (addressed (log s) q) got x;
}.

Lemma sinv_open s q :
  sinv s → registered (bw s) q →
  ∃ x, queues (bw s) !! q = Some x ∧ ch_closed (q_ch x) = false ∧ chan_ok (q_ch x).
Proof.
  intros Hinv Hr. destruct (lookup_lt_is_Some_2 _ _ (iv_lt _ Hinv q Hr)) as [x Hx].
  destruct (lookup_lt_is_Some_2 (received s) q) as [g Hg].
  { rewrite (iv_len _ Hinv). by apply (iv_lt _ Hinv). }
  destruct (iv_queue _ Hinv _ _ _ Hx Hg). exists x. naive_solver.
Qed.

Lemma addressed_app l e q :
  addressed (l ++ [e]) q = addressed l q ++ (if decide (q ∈ e.2) then [e.1] else []).
Proof.
  unfold addressed. rewrite filter_app, fmap_app, filter_cons. by case_decide.
Qed.

(** ** Sending *)

(** An offer to an open queue: appended when there is room, counted otherwise. *)
Definition offer (p : payload) (x : clientQueue) : clientQueue :=
  match try_send p (q_ch x) with
  | Sent c => {| q_ch := c; q_dropped := q_dropped x |}
  | _ => {| q_ch := q_ch x; q_dropped := u64 (q_dropped x + 1) |}
  end.

(** Everything of the registry but the counters. *)
Definition same_registry w w' : Prop :=
  b_closed (bc w') = b_closed (bc w) ∧ b_clients (bc w') = b_clients (bc w)
  ∧ b_tap (bc w') = b_tap (bc w).

Lemma trySend_open q p w x :
  queues w !! q = Some x → ch_closed (q_ch x) = false → chan_ok (q_ch x) →
  ∃ w' sent depth, trySend q p w = Some (w', (sent, depth))
    ∧ queues w' = <[q := offer p x]> (queues w) ∧ same_registry w w' ∧ bot w' = bot w
    ∧ (sent = true ↔ (length (ch_buf (q_ch x)) < ch_cap (q_ch x))%nat).
Proof.
  intros Hx Ho [_ Hle]. unfold trySend, offer. rewrite Hx. simpl.
  destruct (try_send_open p (q_ch x) Ho) as [(c & Hs & Hbuf & Hcap & Hcl & Hlt)|[Hs Hge]]; rewrite Hs.
  - rewrite bool_decide_eq_false_2 by lia.
    eexists _, true, _. split; [done|]. split; [done|]. split; [done|]. split; [done|]. done.
  - rewrite bool_decide_eq_true_2 by lia.
    eexists _, false, _. split; [done|]. split; [done|]. split; [done|]. split; [done|].
    split; [done|]. lia.
Qed.

Lemma same_registry_trans w1 w2 w3 :
  same_registry w1 w2 → same_registry w2 w3 → same_registry w1 w3.
Proof. intros (?&?&?) (?&?&?). repeat split; congruence. Qed.

Lemma send_each_open qs p w :
  NoDup qs →
  (∀ q, q ∈ qs → ∃ x, queues w !! q = Some x ∧ ch_closed (q_ch x) = false ∧ chan_ok (q_ch x)) →
  ∃ w' depths, send_each qs p w = Some (w', depths)
    ∧ length (queues w') = length (queues w) ∧ same_registry w w' ∧ bot w' = bot w
    ∧ (∀ q, queues w' !! q = (if decide (q ∈ qs) then offer p else id) <$> queues w !! q).
Proof.
  revert w. induction qs as [|q qs IH]; intros w Hnd Hopen; simpl.
  { eexists w, []. do 4 (split; [done|]). intros q.
    by destruct (queues w !! q). }
  apply NoDup_cons in Hnd as [Hq Hnd]. destruct (Hopen q) as (x & Hx & Ho & Hok); [set_solver|].
  destruct (trySend_open q p w x Hx Ho Hok) as (w1 & sent & d & Ht & Hqs & Hreg & Hbot & _).
  rewrite Ht. simpl. destruct (IH w1) as (w2 & ds & Hs & Hlen & Hreg2 & Hbot2 & Hlook); [done|..].
  { intros q' Hq'. rewrite Hqs, list_lookup_insert_ne by (intros ->; done).
    apply Hopen. set_solver. }
  rewrite Hs. simpl. exists w2, (d :: ds). split; [done|].
  split; [by rewrite Hlen, Hqs, length_insert|]. split; [by eapply same_registry_trans|].
  split; [congruence|]. intros q'. rewrite Hlook, Hqs.
  destruct (decide (q' = q)) as [->|Hne].
  - rewrite list_lookup_insert_eq by by eapply lookup_lt_Some.
    rewrite decide_False, decide_True by set_solver. by rewrite Hx.
  - rewrite list_lookup_insert_ne by done.
    destruct (decide (q' ∈ qs)), (decide (q' ∈ q :: qs)); set_solver.
Qed.

Lemma queue_ok_offer reg addr got x p :
  queue_ok reg addr got x → ch_closed (q_ch x) = false →
  queue_ok reg (addr ++ [p]) got (offer p x).
Proof.
  intros [] Ho. unfold offer.
  destruct (try_send_open p (q_ch x) Ho) as [(c & Hs & Hbuf & Hcap & Hcl & Hlt)|[Hs Hge]]; rewrite Hs.
  - assert (queue_accepted {| q_ch := c; q_dropped := q_dropped x |} got
            = queue_accepted x got ++ [p]) as Hacc.
    { unfold queue_accepted. simpl. by rewrite Hbuf, app_assoc. }
    constructor; try rewrite Hacc; simpl.
    + by eapply chan_ok_sent.
    + congruence.
    + rewrite Hcl, <- qo_reg0, Ho. done.
    + by apply sublist_app.
    + rewrite qo_dropped0, !length_app. simpl. f_equal. lia.
  - constructor; try done.
    + change (queue_accepted x got `sublist_of` addr ++ [p]).
      etrans; [exact qo_accepted0|]. by apply sublist_inserts_r.
    + simpl. change (u64 (q_dropped x + 1) = u64 (Z.of_nat (length (addr ++ [p]))
        - Z.of_nat (length (queue_accepted x got)))).
      rewrite qo_dropped0, length_app. unfold wrap_u. rewrite Zplus_mod_idemp_l. simpl.
      f_equal. lia.
Qed.

(** Sending one payload to a list of registered queues, logged as such. *)
Lemma sinv_send s p qs t :
  sinv s → NoDup qs → (∀ q, q ∈ qs → registered (bw s) q) →
  ∃ w' depths, send_each qs p {| bc := bc (bw s); queues := queues (bw s); bot := t |}
               = Some (w', depths)
    ∧ sinv {| bw := w'; log := log s ++ [(p, list_to_set qs)]; received := received s |}.
Proof.
  intros Hinv Hnd Hreg.
  destruct (send_each_open qs p {| bc := bc (bw s); queues := queues (bw s); bot := t |})
    as (w' & ds & Hs & Hlen & (Hcl & Hcs & _) & _ & Hlook); [done|..].
  { intros q Hq. apply (sinv_open s q Hinv). by apply Hreg. }
  exists w', ds. split; [done|]. simpl in *.
  assert (∀ q, registered w' q ↔ registered (bw s) q) as Hr.
  { intros q. unfold registered. by rewrite Hcs. }
  destruct Hinv. constructor; simpl; rewrite ?Hlen, ?Hcl, ?Hcs; try done.
  - intros q Hq%Hr. auto.
  - intros e q [He| ->%list_elem_of_singleton]%elem_of_app; [by eauto|]. simpl. rewrite elem_of_list_to_set.
    auto.
  - intros q x got Hx Hg. rewrite Hlook in Hx. rewrite addressed_app. simpl.
    destruct (queues (bw s) !! q) as [x0|] eqn:Hx0; [|done]. specialize (iv_queue0 q x0 got Hx0 Hg).
    assert (queue_ok (registered w' q) (addressed (log s) q) got x0) as Hok.
    { destruct iv_queue0. constructor; try done. by rewrite Hr. }
    destruct (decide (q ∈ qs)) as [Hin|Hin]; simplify_eq/=.
    + rewrite decide_True by set_solver. apply queue_ok_offer; [done|].
      apply Hok, Hr, Hreg, Hin.
    + rewrite decide_False by set_solver. by rewrite app_nil_r.
Qed.

(** ** Closing *)

Lemma close_queue_bc q f w : close_queue q (set_bc f w) = set_bc f <$> close_queue q w.
Proof.
  unfold close_queue. simpl. destruct (queues w !! q) as [x|]; [|done]. simpl.
  by destruct (close_chan (q_ch x)).
Qed.

Lemma close_one s id q :
  sinv s → b_clients (bc (bw s)) !! id = Some q →
  ∃ w1, close_queue q (bw s) = Some w1 ∧ bc w1 = bc (bw s)
    ∧ sinv {| bw := set_bc (set_clients (delete id)) w1; log := log s; received := received s |}.
Proof.
  intros Hinv Hid. destruct (sinv_open s q Hinv) as (x & Hx & Ho & Hok); [by exists id|].
  destruct (close_chan_spec (q_ch x) Ho) as (c & Hc & Hbuf & Hcap & Hcl).
  exists (set_queue q {| q_ch := c; q_dropped := q_dropped x |} (bw s)).
  unfold close_queue. rewrite Hx. simpl. rewrite Hc. split; [done|]. split; [done|].
  set (w' := set_bc _ _).
  assert (∀ q', registered w' q' ↔ registered (bw s) q' ∧ q' ≠ q) as Hr.
  { intros q'. unfold registered, w'. simpl. setoid_rewrite lookup_delete_Some. split.
    - intros (id' & Hne & Hid'). split; [by eauto|]. intros ->. apply Hne.
      by eapply (iv_inj _ Hinv).
    - intros [[id' Hid'] Hne]. exists id'. split; [|done]. congruence. }
  pose proof Hinv as []. constructor; simpl; rewrite ?length_insert; try done.
  - intros q' [Hq' _]%Hr. auto.
  - intros id1 id2 q'. rewrite !lookup_delete_Some. naive_solver.
  - intros Hcl'. rewrite iv_closed0 by done. apply delete_empty.
  - intros q' x' got Hx' Hg'. destruct (decide (q' = q)) as [->|Hne].
    + rewrite list_lookup_insert_eq in Hx' by by eapply lookup_lt_Some. simplify_eq.
      destruct (iv_queue0 q x got Hx Hg').
      constructor; unfold queue_accepted, chan_ok in *; simpl; rewrite ?Hbuf, ?Hcap; try done.
      rewrite Hcl, Hr. naive_solver.
    + rewrite list_lookup_insert_ne in Hx' by done. destruct (iv_queue0 q' x' got Hx' Hg').
      constructor; try done. rewrite Hr. naive_solver.
Qed.

Lemma close_each_bc l f w :
  (∀ b id, set_clients (delete id) (f b) = f (set_clients (delete id) b)) →
  close_each l (set_bc f w) = set_bc f <$> close_each l w.
Proof.
  intros Hf. revert w. induction l as [|[id q] l IH]; intros w; simpl; [done|].
  rewrite close_queue_bc. destruct (close_queue q w) as [w1|]; [|done]. simpl.
  rewrite <- IH. f_equal. unfold set_bc. simpl. by rewrite Hf.
Qed.

Lemma close_each_all l s :
  sinv s → NoDup l.*1 → (∀ id q, (id, q) ∈ l → b_clients (bc (bw s)) !! id = Some q) →
  ∃ w', close_each l (bw s) = Some w'
    ∧ sinv {| bw := w'; log := log s; received := received s |}
    ∧ b_clients (bc w') ⊆ b_clients (bc (bw s))
    ∧ ∀ id, id ∈ l.*1 → b_clients (bc w') !! id = None.
Proof.
  revert s. induction l as [|[id q] l IH]; intros s Hinv Hnd Hl; simpl.
  { exists (bw s). split; [done|]. split; [by destruct s|]. split; [done|]. set_solver. }
  apply NoDup_cons in Hnd as [Hid Hnd].
  destruct (close_one s id q Hinv) as (w1 & Hw1 & Hbc & Hinv1); [apply Hl; set_solver|].
  rewrite Hw1. simpl. destruct (IH _ Hinv1) as (w2 & Hw2 & Hinv2 & Hsub & Hnone); [done|..].
  { intros id' q' Hin. simpl. rewrite Hbc, lookup_delete_ne; [apply Hl; set_solver|].
    intros <-. apply Hid, list_elem_of_fmap. by exists (id, q'). }
  simpl in *. exists w2. split; [done|]. split; [done|]. rewrite Hbc in Hsub. split.
  { etrans; [exact Hsub|]. apply delete_subseteq. }
  intros id' [-> |Hin]%elem_of_cons; [|by auto].
  destruct (b_clients (bc w2) !! id) as [q'|] eqn:Hq'; [|done].
  eapply lookup_weaken in Hq'; [|exact Hsub]. by rewrite lookup_delete_eq in Hq'.
Qed.

Lemma act_bclose s :
  sinv s → ∃ w', CloseBroadcaster (bw s) = Some w'
    ∧ sinv {| bw := w'; log := log s; received := received s |}.
Proof.
  intros Hinv. unfold CloseBroadcaster. destruct (b_closed (bc (bw s))).
  { exists (bw s). split; [done|]. by destruct s. }
  rewrite close_each_bc by done.
  destruct (close_each_all (range (b_clients (bc (bw s)))) s Hinv)
    as (w' & -> & Hinv' & Hsub & Hnone).
  { apply NoDup_range_keys. }
  { intros id q Hq%elem_of_range. done. }
  exists (set_bc set_bclosed w'). split; [done|].
  assert (b_clients (bc w') = ∅) as Hemp.
  { apply map_empty. intros id. destruct (b_clients (bc w') !! id) as [q|] eqn:Hq; [|done].
    rewrite <- Hq. apply Hnone, elem_of_range_keys, elem_of_dom.
    eapply lookup_weaken in Hq; [|exact Hsub]. eauto. }
  destruct Hinv'. by constructor.
Qed.

Lemma act_register s id :
  sinv s → sinv {| bw := (Register id (bw s)).1; log := log s;
                   received := next_received (BRegister id) (bw s) (received s) |}.
Proof.
  intros Hinv. simpl. unfold Register. destruct (b_closed (bc (bw s))) eqn:Hb; [by destruct s|].
  destruct (b_clients (bc (bw s)) !! id) as [q|] eqn:Hid; simpl; [by destruct s|].
  set (w' := {| bc := _; queues := _; bot := _ |}).
  assert (∀ q, registered w' q ↔ registered (bw s) q ∨ q = length (queues (bw s))) as Hr.
  { intros q. unfold registered, w'. simpl. setoid_rewrite lookup_insert_Some. split.
    - intros (id' & [[<- <-]|[Hne Hid']]); eauto.
    - intros [[id' Hid']| ->]; [|by eauto]. exists id'. right. split; [congruence|done]. }
  pose proof Hinv as []. constructor; simpl; rewrite ?length_app; simpl; try done.
  - lia.
  - intros q [Hq| ->]%Hr; [|lia]. specialize (iv_lt0 q Hq). lia.
  - assert (∀ id', b_clients (bc (bw s)) !! id' ≠ Some (length (queues (bw s)))) as Hfresh.
    { intros id' Hid'. specialize (iv_lt0 _ (ex_intro _ id' Hid')). lia. }
    intros id1 id2 q. rewrite !lookup_insert_Some.
    intros [[-> <-]|[? Hq1]] [[-> ?]|[? Hq2]]; subst; try done; [by destruct (Hfresh id2)|by destruct (Hfresh id1)|].
    by eapply iv_inj0.
  - intros Hcl. congruence.
  - intros e q He Hq. specialize (iv_log0 e q He Hq). lia.
  - intros q x got Hx Hg. apply lookup_snoc_Some in Hx as [[Hlt Hx]|[-> <-]].
    + rewrite lookup_app_l in Hg by lia. destruct (iv_queue0 q x got Hx Hg).
      constructor; try done. rewrite Hr. split; [naive_solver|].
      intros [?| ->]; [by apply qo_reg0|lia].
    + rewrite <- iv_len0, list_lookup_middle in Hg by done. simplify_eq.
      assert (addressed (log s) (length (queues (bw s))) = []) as ->.
      { unfold addressed. destruct (filter _ (log s)) as [|e l] eqn:Hf; [done|].
        assert (e ∈ filter (λ e, length (queues (bw s)) ∈ e.2) (log s)) as Hin
          by (rewrite Hf; set_solver).
        apply list_elem_of_filter in Hin as [Hq He]. specialize (iv_log0 e _ He Hq). lia. }
      constructor; simpl; try done; [by split; simpl; [unfold clientBufferSize|]; lia|].
      rewrite Hr. naive_solver.
Qed.

Lemma act_recv_queue s q :
  sinv s → ∃ w', run_bop (BRecv q) (bw s) = Some w' ∧
    sinv {| bw := w'; log := log s; received := next_received (BRecv q) (bw s) (received s) |}.
Proof.
  intros Hinv. eexists. split; [done|]. simpl.
  destruct (queues (bw s) !! q) as [x|] eqn:Hx; [|by destruct s].
  destruct (recv (q_ch x)) as [[p c]|] eqn:Hr; [|by destruct s].
  apply recv_spec in Hr as (Hbuf & Hcap & Hcl).
  pose proof Hinv as []. constructor; simpl; rewrite ?length_insert, ?length_alter; try done.
  intros q' x' got Hx' Hg'. destruct (decide (q' = q)) as [->|Hne].
  - rewrite list_lookup_insert_eq in Hx' by by eapply lookup_lt_Some.
    rewrite list_lookup_alter_eq in Hg'. apply fmap_Some in Hg' as (g & Hg & ->). simplify_eq.
    destruct (iv_queue0 q x g Hx Hg).
    assert (queue_accepted {| q_ch := c; q_dropped := q_dropped x |} (g ++ [p])
            = queue_accepted x g) as Hacc.
    { unfold queue_accepted. simpl. by rewrite Hbuf, <- app_assoc. }
    constructor; try rewrite Hacc; simpl; try done.
    + unfold chan_ok in *. rewrite Hbuf in qo_chan0. simpl in qo_chan0. rewrite Hcap. lia.
    + congruence.
    + by rewrite Hcl.
  - rewrite list_lookup_insert_ne in Hx' by done. rewrite list_lookup_alter_ne in Hg' by done.
    by apply iv_queue0.
Qed.


(** ** Recipients *)

Lemma everyone_registered s q : q ∈ everyone (bw s) → registered (bw s) q.
Proof.
  intros Hq. apply list_elem_of_fmap in Hq as ([id q'] & -> & Hq%elem_of_range). by exists id.
Qed.

(** Distinct registered clients have distinct queues. *)
Lemma NoDup_queues_of s ids :
  sinv s → NoDup ids → NoDup (omap (λ id, b_clients (bc (bw s)) !! id) ids).
Proof.
  intros Hinv. induction ids as [|id ids IH]; intros Hnd; simpl; [constructor|].
  apply NoDup_cons in Hnd as [Hid Hnd].
  destruct (b_clients (bc (bw s)) !! id) as [q|] eqn:Hq; [|by auto].
  constructor; [|by auto]. intros (id' & Hin & Hq')%list_elem_of_omap.
  rewrite (iv_inj _ Hinv id' id q Hq' Hq) in Hin. done.
Qed.

Lemma NoDup_everyone s : sinv s → NoDup (everyone (bw s)).
Proof.
  intros Hinv.
  assert (everyone (bw s)
          = omap (λ id, b_clients (bc (bw s)) !! id) (range (b_clients (bc (bw s)))).*1) as ->.
  { unfold everyone.
    assert (∀ l, (∀ e, e ∈ l → b_clients (bc (bw s)) !! e.1 = Some e.2) →
              l.*2 = omap (λ id, b_clients (bc (bw s)) !! id) l.*1) as Hl.
    { induction l as [|[id q] l IH]; intros He; [done|]. simpl.
      pose proof (He (id, q) (list_elem_of_here _ _)) as Hq. simpl in Hq. rewrite Hq. f_equal.
      apply IH. intros e Hin. apply He. by right. }
    apply Hl. by intros [id q] Hq%elem_of_range. }
  apply NoDup_queues_of; [done|apply NoDup_range_keys].
Qed.

Lemma member_queues_ids s m ch :
  member_queues m ch (bc (bw s))
  = omap (λ id, b_clients (bc (bw s)) !! id) (cl_ClientID <$> ChannelMembers ch m).
Proof.
  unfold member_queues. generalize (ChannelMembers ch m). intros l.
  induction l as [|c l IH]; [done|]. cbn. destruct (b_clients (bc (bw s)) !! cl_ClientID c);
    [f_equal|]; exact IH.
Qed.

Lemma NoDup_member_queues s m ch : sinv s → wf m → NoDup (member_queues m ch (bc (bw s))).
Proof.
  intros Hinv Hm. rewrite member_queues_ids. apply NoDup_queues_of; [done|].
  unfold ChannelMembers. rewrite snapshots_ids; [apply NoDup_elements|apply Hm|].
  intros id Hid%elem_of_elements. apply (wf_member m (wf_m m Hm)) in Hid as (_ & c & Hc & _). eauto.
Qed.

Lemma member_queues_registered s m ch q :
  q ∈ member_queues m ch (bc (bw s)) → registered (bw s) q.
Proof. rewrite member_queues_ids, list_elem_of_omap. intros (id & _ & Hq). by exists id. Qed.

(** ** Every operation returns and preserves the invariant *)

Lemma send_to_all s p t :
  sinv s → b_closed (bc (bw s)) = false →
  ∃ w' ds, broadcastToAllLocked p {| bc := bc (bw s); queues := queues (bw s); bot := t |}
           = Some (w', ds)
    ∧ sinv {| bw := w'; log := log s ++ [(p, list_to_set (everyone (bw s)))];
              received := received s |}.
Proof.
  intros Hinv Hb. unfold broadcastToAllLocked. simpl. rewrite Hb.
  apply (sinv_send s p (everyone (bw s)) t Hinv); [by apply NoDup_everyone|].
  intros q. apply everyone_registered.
Qed.

Lemma sinv_bot s t :
  sinv s → sinv {| bw := {| bc := bc (bw s); queues := queues (bw s); bot := t |};
                   log := log s ++ []; received := received s |}.
Proof. rewrite app_nil_r. intros []. by constructor. Qed.

Lemma bact_total s a :
  (∀ eventType p t, is_Some (tap eventType p t)) →
  sinv s → ballowed a → ∃ s', bact a s = Some s' ∧ sinv s'.
Proof.
  intros Htap Hinv Ha. unfold bact, audience.
  assert (∀ w, {| bc := bc w; queues := queues w; bot := bot w |} = w) as Heta by by intros [].
  pose proof (sinv_bot s (bot (bw s)) Hinv) as Hnop. rewrite Heta in Hnop.
  destruct a as [id|id|sm admin viewer now|typ p|[m|] ch p|id p|on| |q].
  - eexists. split; [done|]. simpl. destruct (b_closed _); rewrite app_nil_r; by apply act_register.
  - simpl. unfold Unregister. destruct (b_clients (bc (bw s)) !! id) as [q|] eqn:Hq.
    + destruct (close_one s id q Hinv Hq) as (w1 & Hw1 & _ & Hinv1).
      rewrite close_queue_bc, Hw1. eexists. split; [done|].
      destruct (b_closed _); simpl; by rewrite app_nil_r.
    + eexists. split; [done|]. by destruct (b_closed _).
  - simpl. unfold BroadcastSnapshot. destruct (marshal_snapshot _) as [p|]; simpl.
    + destruct (b_closed (bc (bw s))) eqn:Hb.
      * unfold broadcastToAllLocked. rewrite Hb. by eexists.
      * destruct (send_to_all s p (bot (bw s)) Hinv Hb) as (w' & ds & Hs & Hinv').
        rewrite Heta in Hs. rewrite Hs. by eexists.
    + eexists. split; [done|]. by destruct (b_closed _).
  - simpl. unfold BroadcastEvent. destruct (marshal_envelope typ p) as [wrapped|]; simpl.
    2: { eexists. split; [done|]. by destruct (b_closed _). }
    assert (∃ t, (if b_tap (bc (bw s)) then
                    t ← tap typ p (bot (bw s));
                    Some {| bc := bc (bw s); queues := queues (bw s); bot := t |}
                  else Some (bw s))
                 = Some {| bc := bc (bw s); queues := queues (bw s); bot := t |}) as [t ->].
    { destruct (b_tap _); [|exists (bot (bw s)); by rewrite Heta].
      destruct (Htap typ p (bot (bw s))) as [t Ht]. exists t. by rewrite Ht. }
    simpl. destruct (b_closed (bc (bw s))) eqn:Hb.
    + unfold broadcastToAllLocked. simpl. rewrite Hb. eexists. split; [done|]. by apply sinv_bot.
    + destruct (send_to_all s wrapped t Hinv Hb) as (w' & ds & -> & Hinv'). by eexists.
  - simpl in *. destruct (b_closed (bc (bw s))) eqn:Hb; [by eexists|].
    destruct (sinv_send s p (member_queues m ch (bc (bw s))) (bot (bw s)) Hinv)
      as (w' & ds & Hs & Hinv'); [by apply NoDup_member_queues|apply member_queues_registered|].
    rewrite Heta in Hs. rewrite Hs. by eexists.
  - eexists. split; [done|]. by destruct (b_closed _).
  - simpl. unfold BroadcastToClient. destruct (b_closed (bc (bw s))) eqn:Hb; [by eexists|].
    destruct (b_clients (bc (bw s)) !! id) as [q|] eqn:Hq; [|by eexists].
    destruct (sinv_send s p [q] (bot (bw s)) Hinv) as (w' & ds & Hs & Hinv').
    { apply NoDup_singleton. }
    { intros q' ->%list_elem_of_singleton. by exists id. }
    rewrite Heta in Hs. simpl in Hs. destruct (trySend q p (bw s)) as [[w1 [sent d]]|]; [|done].
    simpl in *. simplify_eq. by eexists.
  - eexists. split; [done|].
    assert (∀ b : bool, (if b then None else None : option (payload * list qptr)) = None) as ->
      by by intros [].
    simpl. rewrite app_nil_r. destruct Hinv. constructor; done.
  - destruct (act_bclose s Hinv) as (w' & Hw' & Hinv'). simpl. rewrite Hw'. eexists.
    split; [done|]. destruct (b_closed _); by rewrite app_nil_r.
  - destruct (act_recv_queue s q Hinv) as (w' & Hw' & Hinv'). rewrite Hw'. eexists.
    split; [done|]. destruct (b_closed _); by rewrite app_nil_r.
Qed.

Lemma boot_sinv t : sinv (boot_broadcaster t).
Proof. constructor; simpl; try done; [by intros q [id Hq]|by intros e q ?%elem_of_nil]. Qed.

Section with_tap.
Hypothesis tap_returns : ∀ eventType p t, is_Some (tap eventType p t).

Lemma breachable_sinv t s : rtc sstep (boot_broadcaster t) s → sinv s.
Proof.
  apply rtc_invariant; [|apply boot_sinv]. intros s1 s2 H1 (a & Ha & Hs).
  destruct (bact_total s1 a tap_returns H1 Ha) as (s2' & Hs' & H2). congruence.
Qed.

(** C35: after any sequence of registrations, broadcasts and receives, what a
    client has received or has queued is a subsequence of the payloads addressed
    to it, in the one order in which the broadcaster sent them, so no two clients
    see two messages in different orders; its drop counter is the number it
    missed, and at most 16 messages wait for it. *)
Theorem broadcast_order_exact t s q x got :
  rtc sstep (boot_broadcaster t) s →
  queues (bw s) !! q = Some x → received s !! q = Some got →
  queue_accepted x got `sublist_of` addressed (log s) q
  ∧ addressed (log s) q `sublist_of` (log s).*1
  ∧ q_dropped x = u64 (Z.of_nat (length (addressed (log s) q))
                       - Z.of_nat (length (queue_accepted x got)))
  ∧ (length (ch_buf (q_ch x)) ≤ clientBufferSize)%nat.
Proof.
  intros Hr Hx Hg. destruct (iv_queue _ (breachable_sinv _ _ Hr) _ _ _ Hx Hg).
  split; [done|]. split; [|split; [done|]].
  - unfold addressed. apply fmap_sublist, sublist_filter.
  - rewrite <- qo_cap0. apply qo_chan0.
Qed.

(** No operation of the broadcaster panics or blocks, whatever the clients
    do: a send happens only to an open queue with room. A queue is open exactly
    while its client is registered, nobody is registered after [Close], and
    [BroadcastToClient] reports exactly what happened: success means the payload
    is the last of the client's queue, [ErrChannelFull] that the queue was full
    and is unchanged but for its drop count, [ErrNotRegistered] and [ErrClosed]
    that nothing was touched. *)
Theorem broadcast_never_blocks t s :
  rtc sstep (boot_broadcaster t) s →
  (∀ a, ballowed a → is_Some (bact a s))
  ∧ (∀ q x, queues (bw s) !! q = Some x → (ch_closed (q_ch x) = false ↔ registered (bw s) q))
  ∧ (b_closed (bc (bw s)) = true → b_clients (bc (bw s)) = ∅)
  ∧ ∀ id p, ∃ w' ds r, BroadcastToClient id p (bw s) = Some (w', ds, r)
      ∧ match r with
        | Ok _ => ∃ q x x', b_clients (bc (bw s)) !! id = Some q
            ∧ queues (bw s) !! q = Some x ∧ queues w' = <[q := x']> (queues (bw s))
            ∧ ch_buf (q_ch x') = ch_buf (q_ch x) ++ [p] ∧ q_dropped x' = q_dropped x
        | Err ErrChannelFull => ∃ q x x', b_clients (bc (bw s)) !! id = Some q
            ∧ queues (bw s) !! q = Some x ∧ queues w' = <[q := x']> (queues (bw s))
            ∧ length (ch_buf (q_ch x)) = clientBufferSize ∧ q_ch x' = q_ch x
            ∧ q_dropped x' = u64 (q_dropped x + 1)
        | Err ErrNotRegistered => w' = bw s ∧ b_clients (bc (bw s)) !! id = None
        | Err ErrClosed => w' = bw s ∧ b_closed (bc (bw s)) = true
        | Err ErrAlreadyRegistered => False
        end.
Proof.
  intros Hr. pose proof (breachable_sinv _ _ Hr) as Hinv. split; [|split; [|split; [apply Hinv|]]].
  - intros a Ha. destruct (bact_total s a tap_returns Hinv Ha) as (s' & -> & _). eauto.
  - intros q x Hx. destruct (lookup_lt_is_Some_2 (received s) q) as [g Hg].
    { rewrite (iv_len _ Hinv). by eapply lookup_lt_Some. }
    apply (iv_queue _ Hinv _ _ _ Hx Hg).
  - intros id p. unfold BroadcastToClient.
    destruct (b_closed (bc (bw s))) eqn:Hb; [by eexists _, _, _|].
    destruct (b_clients (bc (bw s)) !! id) as [q|] eqn:Hq; [|by eexists _, _, _].
    destruct (sinv_open s q Hinv) as (x & Hx & Ho & Hok); [by exists id|].
    destruct (lookup_lt_is_Some_2 (received s) q) as [g Hg].
    { rewrite (iv_len _ Hinv). by eapply lookup_lt_Some. }
    pose proof (qo_cap _ _ _ _ (iv_queue _ Hinv _ _ _ Hx Hg)) as Hcap.
    destruct (trySend_open q p (bw s) x Hx Ho Hok) as (w' & sent & d & -> & Hqs & _ & _ & Hsent).
    simpl. eexists _, _, _. split; [done|].
    unfold offer in Hqs. rewrite <- Hcap.
    destruct (try_send_open p (q_ch x) Ho) as [(c & Hs & Hbuf & _ & _ & Hlt)|[Hs Hge]];
      rewrite Hs in Hqs; destruct sent.
    + exists q, x, {| q_ch := c; q_dropped := q_dropped x |}. done.
    + exfalso. by apply Hsent in Hlt.
    + exfalso. apply (Nat.lt_irrefl (length (ch_buf (q_ch x)))).
      eapply Nat.lt_le_trans; [by apply Hsent|done].
    + exists q, x, {| q_ch := q_ch x; q_dropped := u64 (q_dropped x + 1) |}.
      do 3 (split; [done|]). split; [|done]. destruct Hok. lia.
Qed.

End with_tap.
End safety.

(** ** Witness: two clients, one registered later, an event and a private message *)

#[local] Existing Instance stdpp_range.

(** A listener that keeps the event types it was told about. *)
Definition note_tap (eventType : string) (p : payload) (seen : list string)
  : option (list string) := Some (seen ++ [eventType]).

Definition plain_envelope (eventType : string) (p : payload) : option payload := Some (0 :: p).
Definition no_snapshot (s : TreeSnapshot) : option payload := None.

Definition two_ops : list bop :=
  [BTap true; BRegister "alice"; BEvent "join" [1]; BRegister "bob"; BEvent "leave" [2];
   BRecv 0; BClient "bob" [9]; BUnregister "alice"; BEvent "join" [3]].

Definition two_clients : option (BSys (list string)) :=
  foldl (λ s a, s ← s; bact note_tap plain_envelope no_snapshot a s)
    (Some (boot_broadcaster [])) two_ops.

Lemma two_clients_run :
  ∃ s, two_clients = Some s ∧ rtc (sstep note_tap plain_envelope no_snapshot) (boot_broadcaster []) s.
Proof.
  assert (∀ ops s s', Forall ballowed ops →
    foldl (λ s a, s ← s; bact note_tap plain_envelope no_snapshot a s) (Some s) ops = Some s' →
    rtc (sstep note_tap plain_envelope no_snapshot) s s') as Hrun.
  { induction ops as [|a ops IH]; intros s s' Hall Hs; [by simplify_eq/=|].
    apply Forall_cons in Hall as [Ha Hall]. cbn [foldl] in Hs.
    destruct (bact note_tap plain_envelope no_snapshot a s) as [s1|] eqn:Hs1; simpl in Hs.
    - rewrite Hs1 in Hs. eapply rtc_l; [|by apply (IH s1)]. by exists a.
    - rewrite Hs1 in Hs. exfalso. clear -Hs. induction ops; simpl in Hs; [done|auto]. }
  assert (is_Some two_clients) as [s Hs] by (vm_compute; eauto).
  exists s. split; [done|]. apply (Hrun two_ops); [by repeat constructor|exact Hs].
Qed.

Lemma note_tap_returns eventType p t : is_Some (note_tap eventType p t).
Proof. unfold note_tap. eauto. Qed.

Lemma broadcast_order_exact_witness :
  ∃ s x got, two_clients = Some s ∧ queues (bw s) !! 1%nat = Some x
    ∧ received s !! 1%nat = Some got
    ∧ queue_accepted x got `sublist_of` addressed (log s) 1
    ∧ queue_accepted x got = [[0; 2]; [9]; [0; 3]].
Proof.
  destruct two_clients_run as (s & Hs & Hr).
  assert ((λ s, (λ x, queue_accepted x []) <$> queues (bw s) !! 1%nat) <$> two_clients
          = Some (Some [[0; 2]; [9]; [0; 3]])) as Hq by (vm_compute; reflexivity).
  assert ((λ s, received s !! 1%nat) <$> two_clients = Some (Some [])) as Hg
    by (vm_compute; reflexivity).
  rewrite Hs in Hq, Hg. simpl in Hq, Hg. apply (inj Some) in Hq, Hg.
  apply fmap_Some in Hq as (x & Hx & Hacc). exists s, x, [].
  do 3 (split; [done|]). split; [|done].
  eapply (broadcast_order_exact note_tap plain_envelope no_snapshot note_tap_returns [] s 1 x []);
    done.
Defined.

Lemma broadcast_never_blocks_witness :
  ∃ s, two_clients = Some s ∧
    is_Some (bact note_tap plain_envelope no_snapshot (BClient "alice" [5]) s).
Proof.
  destruct two_clients_run as (s & Hs & Hr). exists s. split; [done|].
  apply (broadcast_never_blocks note_tap plain_envelope no_snapshot note_tap_returns [] s Hr).
  exact I.
Defined.
