(* ===== verification/Wire.v ===== *)
(** * The control-channel wire format

    [src/internal/netproto/frame.go], [src/internal/netproto/udp.go] and
    [src/internal/safecast/safecast.go]. A byte is an integer in [0, 256). A
    reader is a transport that delivers the stream in arbitrary pieces and ends
    with an error ([io.EOF] when the peer closes); [ReadFull] is [io.ReadFull].
    A writer may cut a write short and fail. *)

From S2P Require Import Prelude.

Abbreviation byte := Z.

Definition is_byte (b : byte) : Prop := 0 ≤ b < 256.

(** ** safecast *)

(** The error names the target type; the value is the one converted. *)
Inductive CastError := OutOfRange (value : Z) (target : string).

Section safecast.
(** The width of [int] on the platform: 32 or 64. *)
Context (int_bits : Z).

Definition MaxInt : Z := 2 ^ (int_bits - 1) - 1.
Definition MinInt : Z := - 2 ^ (int_bits - 1).

Definition Int64ToUint32 (value : Z) : result CastError Z :=
  if (value <? 0) || (2 ^ 32 - 1 <? value) then Err (OutOfRange value "uint32")
  else Ok (u32 value).

Definition Int64ToUint16 (value : Z) : result CastError Z :=
  if (value <? 0) || (2 ^ 16 - 1 <? value) then Err (OutOfRange value "uint16")
  else Ok (u16 value).

Definition IntToInt32 (value : Z) : result CastError Z :=
  let wide := i64 value in
  if (wide <? - 2 ^ 31) || (2 ^ 31 - 1 <? wide) then Err (OutOfRange value "int32")
  else Ok (i32 value).

Definition Int32ToInt (value : Z) : result CastError Z :=
  if (i64 value <? MinInt) || (MaxInt <? i64 value) then Err (OutOfRange value "int")
  else Ok (wrap_s int_bits value).

Definition IntToUint32 (value : Z) : result CastError Z := Int64ToUint32 (i64 value).

Definition IntToUint8 (value : Z) : result CastError Z :=
  if (value <? 0) || (255 <? value) then Err (OutOfRange value "uint8")
  else Ok (wrap_u 8 value).

Definition Uint32ToInt (value : Z) : result CastError Z :=
  if u64 MaxInt <? u64 value then Err (OutOfRange value "int")
  else Ok (wrap_s int_bits value).

End safecast.

(** ** encoding/binary, big endian *)

Definition be16 (b0 b1 : byte) : Z := Z.lor (Z.shiftl b0 8) b1.
Definition be32 (b0 b1 b2 b3 : byte) : Z :=
  Z.lor (Z.shiftl b0 24) (Z.lor (Z.shiftl b1 16) (Z.lor (Z.shiftl b2 8) b3)).
Definition put16 (v : Z) : list byte := [wrap_u 8 (Z.shiftr v 8); wrap_u 8 v].
Definition put32 (v : Z) : list byte :=
  [wrap_u 8 (Z.shiftr v 24); wrap_u 8 (Z.shiftr v 16); wrap_u 8 (Z.shiftr v 8); wrap_u 8 v].

#[global] Arguments put16 : simpl never.
#[global] Arguments put32 : simpl never.

(** ** io *)

Inductive IOError := EOF | ErrUnexpectedEOF | ErrTransport (code : Z).

Record Reader := { pieces : list (list byte); r_end : IOError }.

Fixpoint ReadFull_loop (n : nat) (got : list byte) (ps : list (list byte)) (e : IOError)
  : result IOError (list byte) * list (list byte) :=
  match n with
  | O => (Ok got, ps)
  | _ =>
      match ps with
      | [] => (Err (match e with
                    | EOF => if decide (got = []) then EOF else ErrUnexpectedEOF
                    | _ => e
                    end), [])
      | p :: ps' =>
          if decide (length p ≤ n)%nat then ReadFull_loop (n - length p) (got ++ p) ps' e
          else (Ok (got ++ take n p), drop n p :: ps')
      end
  end.

Definition ReadFull (n : nat) (r : Reader) : result IOError (list byte) * Reader :=
  let '(x, ps) := ReadFull_loop n [] (pieces r) (r_end r) in
  (x, {| pieces := ps; r_end := r_end r |}).

(** A writer and what it will do with the next writes: [None] takes everything,
    [Some n] takes [n] bytes and fails. *)
Record Writer := { w_out : list byte; w_plan : list (option nat) }.

Definition Write (p : list byte) (w : Writer) : bool * Writer :=
  match w_plan w with
  | Some n :: plan => (false, {| w_out := w_out w ++ take n p; w_plan := plan |})
  | None :: plan => (true, {| w_out := w_out w ++ p; w_plan := plan |})
  | [] => (true, {| w_out := w_out w ++ p; w_plan := [] |})
  end.

(** ** Frames *)

Definition MaxFrameSize : Z := 2 ^ 20.
Definition MaxPayloadSize : Z := MaxFrameSize - 2.
#[global] Arguments MaxFrameSize : simpl never.
#[global] Arguments MaxPayloadSize : simpl never.

Record Frame := { fr_Type : Z; fr_Payload : list byte }.

Inductive ReadError :=
| ReadingLength (e : IOError)
| InvalidLength (n : Z)
| ReadTooLarge
| ReadingBody (e : IOError).

Definition ReadFrame (r : Reader) : result ReadError Frame * Reader :=
  let '(header, r1) := ReadFull 4 r in
  match header with
  | Err e => (Err (ReadingLength e), r1)
  | Ok [b0; b1; b2; b3] =>
      let length_ := be32 b0 b1 b2 b3 in
      if length_ <? 2 then (Err (InvalidLength length_), r1)
      else if MaxFrameSize <? length_ then (Err ReadTooLarge, r1)
      else
        let '(body, r2) := ReadFull (Z.to_nat length_) r1 in
        match body with
        | Err e => (Err (ReadingBody e), r2)
        | Ok (t0 :: t1 :: rest) => (Ok {| fr_Type := be16 t0 t1; fr_Payload := rest |}, r2)
        | Ok _ => (Err (ReadingBody ErrUnexpectedEOF), r2)
        end
  | Ok _ => (Err (ReadingLength ErrUnexpectedEOF), r1)
  end.

Inductive WriteError := NilFrame | WriteTooLarge | WritingHeader | WritingPayload.

Definition WriteFrame (f : option Frame) (w : Writer) : result WriteError unit * Writer :=
  match f with
  | None => (Err NilFrame, w)
  | Some f =>
      if MaxPayloadSize <? Z.of_nat (length (fr_Payload f)) then (Err WriteTooLarge, w)
      else match IntToUint32 (2 + Z.of_nat (length (fr_Payload f))) with
           | Err _ => (Err WriteTooLarge, w)
           | Ok n =>
               let '(ok, w1) := Write (put32 n ++ put16 (fr_Type f)) w in
               if negb ok then (Err WritingHeader, w1)
               else if (0 <? Z.of_nat (length (fr_Payload f))) then
                 let '(ok, w2) := Write (fr_Payload f) w1 in
                 if negb ok then (Err WritingPayload, w2) else (Ok tt, w2)
               else (Ok tt, w1)
           end
  end.

(** ** UDP *)

Definition UDPMsgPing : byte := 1.
Definition UDPMsgPong : byte := 2.

Definition udpMsgName : gmap Z string := {[ UDPMsgPing := "ping"; UDPMsgPong := "pong" ]}.

Definition UDPMsgName (t : byte) : string := default "unknown" (udpMsgName !! t).

Inductive UDPError := ErrUDPTooShort.

Definition ParseUDPHeader (b : list byte) : result UDPError (byte * list byte) :=
  match b with
  | [] => Err ErrUDPTooShort
  | t :: payload => Ok (t, payload)
  end.

(** ** Big-endian round trips *)

Lemma lor_shift a b n : 0 ≤ n → 0 ≤ b < 2 ^ n → Z.lor (Z.shiftl a n) b = a * 2 ^ n + b.
Proof.
  intros Hn Hb. rewrite <- Z.shiftl_mul_pow2 by done.
  assert (Z.land (Z.shiftl a n) b = 0) as Hz.
  { apply Z.bits_inj'. intros i Hi. rewrite Z.land_spec, Z.bits_0.
    destruct (decide (i < n)) as [Hlt|Hge].
    - by rewrite Z.shiftl_spec_low.
    - destruct (decide (b = 0)) as [->|Hne]; [by rewrite Z.bits_0, andb_false_r|].
      rewrite (Z.bits_above_log2 b i), andb_false_r; [done|lia|].
      apply Z.log2_lt_pow2; [lia|]. eapply Z.lt_le_trans; [apply Hb|].
      apply Z.pow_le_mono_r; lia. }
  rewrite <- Z.lxor_lor by done. by rewrite Z.add_nocarry_lxor.
Qed.

Lemma be16_val b0 b1 : is_byte b1 → be16 b0 b1 = b0 * 2 ^ 8 + b1.
Proof. intros H1. apply lor_shift; [lia|exact H1]. Qed.

Lemma be32_val b0 b1 b2 b3 : is_byte b1 → is_byte b2 → is_byte b3 →
  be32 b0 b1 b2 b3 = b0 * 2 ^ 24 + (b1 * 2 ^ 16 + (b2 * 2 ^ 8 + b3)).
Proof.
  unfold is_byte, be32. intros. rewrite (lor_shift b2) by lia.
  rewrite (lor_shift b1) by lia. rewrite (lor_shift b0) by lia. done.
Qed.

Ltac bytes_arith :=
  unfold put16, put32, wrap_u; rewrite ?Z.shiftr_div_pow2 by lia; repeat f_equal;
  Z.to_euclidean_division_equations; lia.

Lemma put32_bytes v : Forall is_byte (put32 v).
Proof. repeat constructor; apply Z.mod_pos_bound; lia. Qed.

Lemma put16_bytes v : Forall is_byte (put16 v).
Proof. repeat constructor; apply Z.mod_pos_bound; lia. Qed.

Lemma be32_put32 v b0 b1 b2 b3 :
  0 ≤ v < 2 ^ 32 → put32 v = [b0; b1; b2; b3] → be32 b0 b1 b2 b3 = v.
Proof.
  intros Hv Hp. pose proof (put32_bytes v) as Hb. rewrite Hp in Hb.
  rewrite !Forall_cons in Hb. destruct Hb as (H0 & H1 & H2 & H3 & _). rewrite be32_val by done.
  unfold put32, wrap_u in Hp. injection Hp as <- <- <- <-.
  rewrite !Z.shiftr_div_pow2 by lia. clear H0 H1 H2 H3.
  Z.to_euclidean_division_equations. lia.
Qed.

Lemma put32_be32 b0 b1 b2 b3 :
  is_byte b0 → is_byte b1 → is_byte b2 → is_byte b3 →
  put32 (be32 b0 b1 b2 b3) = [b0; b1; b2; b3] ∧ 0 ≤ be32 b0 b1 b2 b3 < 2 ^ 32.
Proof.
  unfold is_byte. intros. rewrite be32_val by done. split; [|lia]. bytes_arith.
Qed.

Lemma be16_put16 v b0 b1 : 0 ≤ v < 2 ^ 16 → put16 v = [b0; b1] → be16 b0 b1 = v.
Proof.
  intros Hv Hp. pose proof (put16_bytes v) as Hb. rewrite Hp in Hb.
  rewrite !Forall_cons in Hb. destruct Hb as (H0 & H1 & _). rewrite be16_val by done.
  unfold put16, wrap_u in Hp. injection Hp as <- <-.
  rewrite !Z.shiftr_div_pow2 by lia. clear H0 H1.
  Z.to_euclidean_division_equations. lia.
Qed.

Lemma put16_be16 b0 b1 : is_byte b0 → is_byte b1 →
  put16 (be16 b0 b1) = [b0; b1] ∧ 0 ≤ be16 b0 b1 < 2 ^ 16.
Proof. unfold is_byte. intros. rewrite be16_val by done. split; [|lia]. bytes_arith. Qed.

(** ** Reading does not depend on how the stream is cut *)

Definition stream (r : Reader) : list byte := concat (pieces r).

Lemma ReadFull_loop_enough n got ps e :
  (n ≤ length (concat ps))%nat →
  ∃ ps', ReadFull_loop n got ps e = (Ok (got ++ take n (concat ps)), ps')
         ∧ concat ps' = drop n (concat ps).
Proof.
  revert n got. induction ps as [|p ps IH]; intros n got Hn; simpl in *.
  { destruct n; [|lia]. exists []. by rewrite take_nil, app_nil_r. }
  destruct n as [|n].
  { exists (p :: ps). rewrite take_0, app_nil_r. done. }
  rewrite length_app in Hn. cbn [ReadFull_loop]. case_decide as Hd.
  - destruct (IH (S n - length p)%nat (got ++ p)) as (ps' & -> & Hps'); [lia|].
    exists ps'. split; [|by rewrite drop_app_ge]. rewrite take_app_ge by lia.
    by rewrite <- app_assoc.
  - exists (drop (S n) p :: ps). rewrite take_app_le by lia. split; [done|].
    cbn [concat]. by rewrite drop_app_le by lia.
Qed.

Lemma ReadFull_loop_short n got ps e :
  (length (concat ps) < n)%nat → ∃ e', ReadFull_loop n got ps e = (Err e', [])
    ∧ (got ++ concat ps = [] → e' = e).
Proof.
  revert n got. induction ps as [|p ps IH]; intros n got Hn; simpl in *.
  { destruct n; [lia|]. eexists. split; [done|]. rewrite app_nil_r. intros ->.
    by destruct e. }
  rewrite length_app in Hn. destruct n as [|n]; [lia|]. cbn [ReadFull_loop].
  rewrite decide_True by lia. destruct (IH (S n - length p)%nat (got ++ p)) as (e' & He & Hee); [lia|].
  exists e'. split; [done|]. intros Hnil. apply Hee. by rewrite <- app_assoc.
Qed.

(** [ReadFull] takes exactly [n] bytes, or the whole stream and an error. *)
Lemma ReadFull_spec n r :
  (∃ r', ReadFull n r = (Ok (take n (stream r)), r') ∧ stream r' = drop n (stream r)
         ∧ r_end r' = r_end r ∧ (n ≤ length (stream r))%nat)
  ∨ (∃ e r', ReadFull n r = (Err e, r') ∧ stream r' = [] ∧ r_end r' = r_end r
         ∧ (length (stream r) < n)%nat ∧ (stream r = [] → e = r_end r)).
Proof.
  unfold ReadFull, stream. destruct (decide (n ≤ length (concat (pieces r)))%nat) as [Hn|Hn].
  - left. destruct (ReadFull_loop_enough n [] (pieces r) (r_end r) Hn) as (ps' & -> & Hps).
    by eexists.
  - right. destruct (ReadFull_loop_short n [] (pieces r) (r_end r)) as (e & -> & He); [lia|].
    eexists e, _. split; [done|]. simpl. split; [done|]. split; [done|]. split; [lia|exact He].
Qed.

(** The bytes of a frame on the wire. *)
Definition encode (f : Frame) : list byte :=
  put32 (2 + Z.of_nat (length (fr_Payload f))) ++ put16 (fr_Type f) ++ fr_Payload f.

Definition frame_ok (f : Frame) : Prop :=
  0 ≤ fr_Type f < 2 ^ 16 ∧ Forall is_byte (fr_Payload f)
  ∧ Z.of_nat (length (fr_Payload f)) ≤ MaxPayloadSize.

Lemma ReadFrame_encoded f r rest :
  frame_ok f → stream r = encode f ++ rest →
  ∃ r', ReadFrame r = (Ok f, r') ∧ stream r' = rest ∧ r_end r' = r_end r.
Proof.
  intros (Ht & Hb & Hl) Hs. unfold MaxPayloadSize in Hl.
  unfold encode in Hs. set (n := 2 + Z.of_nat (length (fr_Payload f))) in Hs.
  assert (MaxFrameSize = 1048576) as HM by reflexivity.
  destruct (put32 n) as [|b0 [|b1 [|b2 [|b3 [|]]]]] eqn:Hp; try discriminate Hp.
  destruct (put16 (fr_Type f)) as [|t0 [|t1 [|]]] eqn:Hq; try discriminate Hq.
  simpl in Hs. unfold ReadFrame.
  destruct (ReadFull_spec 4 r) as [(r1 & -> & Hr1 & He1 & _)|(? & ? & _ & _ & _ & Hlt & _)].
  2: { rewrite Hs in Hlt. simpl in Hlt. lia. }
  rewrite Hs in Hr1 |- *. simpl in Hr1 |- *.
  rewrite (be32_put32 n) by (done || lia).
  destruct (Z.ltb_spec n 2); [lia|]. destruct (Z.ltb_spec MaxFrameSize n); [lia|].
  assert (Z.to_nat n = S (S (length (fr_Payload f)))) as Hn by lia.
  destruct (ReadFull_spec (Z.to_nat n) r1) as [(r2 & -> & Hr2 & He2 & _)|(? & ? & _ & _ & _ & Hlt & _)].
  2: { rewrite Hr1, Hn in Hlt. simpl in Hlt. rewrite length_app in Hlt. lia. }
  rewrite Hr1, Hn in Hr2 |- *. simpl in Hr2 |- *.
  rewrite take_app_length. rewrite drop_app_length in Hr2.
  rewrite (be16_put16 (fr_Type f)) by done.
  exists r2. split; [by destruct f|]. split; [done|]. congruence.
Qed.

(** Reading [n] frames in a row, as the connection's read loop does. *)
Fixpoint read_frames (n : nat) (r : Reader) : result ReadError (list Frame) * Reader :=
  match n with
  | O => (Ok [], r)
  | S n =>
      match ReadFrame r with
      | (Err e, r') => (Err e, r')
      | (Ok f, r') =>
          match read_frames n r' with
          | (Err e, r'') => (Err e, r'')
          | (Ok fs, r'') => (Ok (f :: fs), r'')
          end
      end
  end.

(** ** Properties *)

(** Framing is lossless whatever the transport does: frames written one
    after the other are read back exactly, in order, however the stream is cut
    into pieces, and the read after the last one reports the end of the stream. *)
Theorem frames_round_trip (fs : list Frame) (r : Reader) :
  Forall frame_ok fs → stream r = concat (encode <$> fs) →
  ∃ r', read_frames (length fs) r = (Ok fs, r')
        ∧ (ReadFrame r').1 = Err (ReadingLength (r_end r)).
Proof.
  revert r. induction fs as [|f fs IH]; intros r Hok Hs; simpl in *.
  - exists r. split; [done|]. unfold ReadFrame.
    destruct (ReadFull_spec 4 r) as [(? & _ & _ & _ & Hlt)|(e & r1 & -> & _ & _ & _ & He)].
    + rewrite Hs in Hlt. simpl in Hlt. lia.
    + simpl. by rewrite He.
  - apply Forall_cons in Hok as [Hf Hok].
    destruct (ReadFrame_encoded f r (concat (encode <$> fs)) Hf Hs) as (r1 & -> & Hr1 & He1).
    destruct (IH r1 Hok Hr1) as (r2 & -> & Hend). exists r2. by rewrite <- He1.
Qed.

(** What [ReadFrame] accepts is exactly the encodings: when it returns a
    frame, the bytes it consumed are that frame's encoding and the frame is
    within the limits; a length announced above MaxFrameSize is refused before
    any of the body is read, so no read consumes more than 4 + MaxFrameSize
    bytes. *)
Theorem ReadFrame_accepts_encodings (r : Reader) :
  Forall is_byte (stream r) →
  let '(res, r') := ReadFrame r in
  (∃ used, stream r = used ++ stream r' ∧ Z.of_nat (length used) ≤ 4 + MaxFrameSize)
  ∧ match res with
    | Ok f => stream r = encode f ++ stream r' ∧ frame_ok f
    | Err (InvalidLength n) => stream r = put32 n ++ stream r' ∧ n < 2
    | Err ReadTooLarge => ∃ n, stream r = put32 n ++ stream r' ∧ MaxFrameSize < n < 2 ^ 32
    | Err (ReadingLength e) => (length (stream r) < 4)%nat ∧ stream r' = []
    | Err (ReadingBody e) => ∃ n body, stream r = put32 n ++ body ∧ 2 ≤ n ≤ MaxFrameSize
                             ∧ Z.of_nat (length body) < n ∧ stream r' = []
    end.
Proof.
  intros Hb. assert (MaxFrameSize = 1048576) as HM by reflexivity. unfold ReadFrame.
  destruct (ReadFull_spec 4 r) as [(r1 & -> & Hr1 & _ & Hle)|(e & r1 & -> & Hr1 & _ & Hlt & _)].
  2: { split; [|done]. exists (stream r). rewrite Hr1, app_nil_r. split; [done|lia]. }
  destruct (stream r) as [|b0 [|b1 [|b2 [|b3 body]]]] eqn:Hs; simpl in Hle; try lia.
  cbn [take drop] in Hr1 |- *. change (drop 0 body) with body in Hr1.
  rewrite !Forall_cons in Hb. destruct Hb as (H0 & H1 & H2 & H3 & Hb).
  destruct (put32_be32 b0 b1 b2 b3 H0 H1 H2 H3) as [Hput Hrange].
  set (n := be32 b0 b1 b2 b3) in *.
  destruct (Z.ltb_spec n 2) as [Hn|Hn].
  { split; [exists [b0; b1; b2; b3]; rewrite Hr1; split; [done|simpl; lia]|].
    rewrite Hput, Hr1. done. }
  destruct (Z.ltb_spec MaxFrameSize n) as [Hn'|Hn'].
  { split; [exists [b0; b1; b2; b3]; rewrite Hr1; split; [done|simpl; lia]|].
    exists n. rewrite Hput, Hr1. split; [done|lia]. }
  destruct (ReadFull_spec (Z.to_nat n) r1) as [(r2 & -> & Hr2 & _ & Hle2)|(e & r2 & -> & Hr2 & _ & Hlt & _)].
  2: { rewrite Hr1 in Hlt. split.
       - exists (b0 :: b1 :: b2 :: b3 :: body). rewrite Hr2, app_nil_r. split; [done|simpl; lia].
       - exists n, body. rewrite Hput. split; [done|]. split; [lia|]. split; [lia|done]. }
  rewrite Hr1 in Hr2, Hle2 |- *. destruct (Z.to_nat n) as [|[|k]] eqn:Hk; [lia..|].
  destruct body as [|t0 [|t1 body]]; simpl in Hle2; [lia..|].
  cbn [take drop] in Hr2 |- *.
  rewrite !Forall_cons in Hb. destruct Hb as (Ht0 & Ht1 & Hb).
  destruct (put16_be16 t0 t1 Ht0 Ht1) as [Hput16 Hrange16].
  assert (length (take k body) = k) as Hlk by (rewrite length_take; lia).
  split.
  - exists ([b0; b1; b2; b3; t0; t1] ++ take k body). rewrite Hr2. split.
    + simpl. by rewrite take_drop.
    + rewrite length_app, Hlk. simpl. lia.
  - split; [|split; [done|]; split; [by apply Forall_take|]].
    + unfold encode. cbn [fr_Payload fr_Type]. rewrite Hlk, Hput16, Hr2.
      replace (2 + Z.of_nat k) with n by lia. rewrite Hput. simpl. by rewrite take_drop.
    + simpl. rewrite Hlk. unfold MaxPayloadSize. lia.
Qed.

(** [WriteFrame] writes the encoding of the frame and reports it: success
    only when all of it went out, otherwise what is on the wire is a prefix of
    it and the error says which write failed; a nil or oversized frame is
    refused before anything is written. *)
Theorem WriteFrame_exact (f : option Frame) (w : Writer) :
  let '(res, w') := WriteFrame f w in
  match res, f with
  | Ok _, Some f => w_out w' = w_out w ++ encode f
                    ∧ Z.of_nat (length (fr_Payload f)) ≤ MaxPayloadSize
  | Err NilFrame, None => w' = w
  | Err WriteTooLarge, Some f =>
      w' = w ∧ MaxPayloadSize < Z.of_nat (length (fr_Payload f))
  | Err WritingHeader, Some f =>
      ∃ n plan, w_plan w = Some n :: plan ∧ w_out w' = w_out w ++ take n (take 6 (encode f))
  | Err WritingPayload, Some f =>
      ∃ n, w_out w' = w_out w ++ take 6 (encode f) ++ take n (fr_Payload f)
           ∧ fr_Payload f ≠ []
  | _, _ => False
  end.
Proof.
  destruct f as [f|]; [|done]. unfold WriteFrame.
  assert (MaxPayloadSize = 1048574) as HM by reflexivity.
  destruct (Z.ltb_spec MaxPayloadSize (Z.of_nat (length (fr_Payload f)))) as [Hl|Hl]; [done|].
  assert (IntToUint32 (2 + Z.of_nat (length (fr_Payload f)))
          = Ok (2 + Z.of_nat (length (fr_Payload f)))) as ->.
  { unfold IntToUint32, Int64ToUint32. rewrite wrap_s_small by lia. rewrite wrap_u_small by lia.
    destruct (_ || _) eqn:Hb; [|done]. bools. lia. }
  assert (take 6 (encode f)
          = put32 (2 + Z.of_nat (length (fr_Payload f))) ++ put16 (fr_Type f)) as Htake.
  { reflexivity. }
  set (hdr := put32 _ ++ put16 _) in *.
  assert (encode f = hdr ++ fr_Payload f) as Henc.
  { unfold hdr, encode. by rewrite <- app_assoc. }
  assert (¬ 0 < Z.of_nat (length (fr_Payload f)) → encode f = hdr) as Hempty.
  { intros Hz. rewrite Henc, (nil_length_inv (fr_Payload f)), app_nil_r by lia. done. }
  unfold Write. destruct (w_plan w) as [|[n|] plan] eqn:Hplan; cbn [w_plan w_out negb].
  - destruct (Z.ltb_spec 0 (Z.of_nat (length (fr_Payload f)))); cbn [w_plan w_out negb].
    + by rewrite Henc, app_assoc.
    + by rewrite Hempty by lia.
  - rewrite Htake. by eauto.
  - destruct (Z.ltb_spec 0 (Z.of_nat (length (fr_Payload f)))) as [Hpos|Hpos].
    2: { cbn [w_plan w_out negb]. by rewrite Hempty by lia. }
    destruct plan as [|[n|] plan]; cbn [w_plan w_out negb];
      [by rewrite Henc, app_assoc| |by rewrite Henc, app_assoc].
    exists n. rewrite Htake, app_assoc. split; [done|].
    destruct (fr_Payload f); [simpl in Hpos; lia|done].
Qed.

(** The checked conversions never wrap: each returns its argument unchanged
    exactly when the target type can represent it, and an error otherwise, for
    every value of its source type on 32- and 64-bit platforms. *)
Theorem safecast_exact (int_bits value : Z) :
  int_bits = 32 ∨ int_bits = 64 →
  (min_int64 ≤ value ≤ max_int64 →
     Int64ToUint32 value = (if decide (0 ≤ value < 2 ^ 32) then Ok value
                            else Err (OutOfRange value "uint32"))
     ∧ Int64ToUint16 value = (if decide (0 ≤ value < 2 ^ 16) then Ok value
                              else Err (OutOfRange value "uint16")))
  ∧ (MinInt int_bits ≤ value ≤ MaxInt int_bits →
     IntToInt32 value = (if decide (- 2 ^ 31 ≤ value < 2 ^ 31) then Ok value
                         else Err (OutOfRange value "int32"))
     ∧ IntToUint32 value = (if decide (0 ≤ value < 2 ^ 32) then Ok value
                            else Err (OutOfRange value "uint32"))
     ∧ IntToUint8 value = (if decide (0 ≤ value < 2 ^ 8) then Ok value
                           else Err (OutOfRange value "uint8")))
  ∧ (- 2 ^ 31 ≤ value < 2 ^ 31 → Int32ToInt int_bits value = Ok value)
  ∧ (0 ≤ value < 2 ^ 32 →
     Uint32ToInt int_bits value = (if decide (value ≤ MaxInt int_bits) then Ok value
                                   else Err (OutOfRange value "int"))).
Proof.
  intros Hbits. unfold max_int64, min_int64, MinInt, MaxInt.
  assert (∀ a b : bool, a || b = true ↔ a = true ∨ b = true) as Hor by apply orb_true_iff.
  split; [|split; [|split]]; intros Hv.
  - unfold Int64ToUint32, Int64ToUint16. split; case_decide;
      destruct (_ || _) eqn:Hb; bools; try (rewrite wrap_u_small by lia); (done || lia).
  - assert (i64 value = value) as Hw by (apply wrap_s_small; destruct Hbits; subst; lia).
    unfold IntToInt32, IntToUint32, Int64ToUint32, IntToUint8. rewrite Hw.
    split_and!; case_decide; destruct (_ || _) eqn:Hb; bools;
      rewrite ?wrap_u_small, ?wrap_s_small by lia; (done || lia).
  - unfold Int32ToInt. rewrite (wrap_s_small 64), (wrap_s_small int_bits)
      by (destruct Hbits; subst; lia). unfold MinInt, MaxInt.
    destruct (_ || _) eqn:Hb; bools; [|done]. destruct Hbits; subst; lia.
  - unfold Uint32ToInt, MaxInt. rewrite !(wrap_u_small 64) by (destruct Hbits; subst; lia).
    case_decide; destruct (_ <? _) eqn:Hb; bools; try lia; [|done].
    rewrite wrap_s_small; [done|..]; destruct Hbits; subst; lia.
Qed.

(** ** Witnesses: two frames that arrive in three pieces *)

Definition hello : Frame := {| fr_Type := 258; fr_Payload := [7; 8; 9] |}.
Definition empty_frame : Frame := {| fr_Type := 3; fr_Payload := [] |}.
Definition cut_reader : Reader :=
  {| pieces := [[0; 0]; [0; 5; 1; 2; 7]; [8; 9; 0; 0; 0; 2; 0; 3]]; r_end := EOF |}.

Lemma hello_ok : Forall frame_ok [hello; empty_frame].
Proof. repeat constructor; vm_compute; done. Qed.

Lemma frames_round_trip_witness :
  read_frames 2 cut_reader = (Ok [hello; empty_frame], {| pieces := []; r_end := EOF |})
  ∧ ∃ r', read_frames 2 cut_reader = (Ok [hello; empty_frame], r')
          ∧ (ReadFrame r').1 = Err (ReadingLength EOF).
Proof.
  split; [vm_compute; reflexivity|].
  apply (frames_round_trip [hello; empty_frame] cut_reader hello_ok). vm_compute. reflexivity.
Defined.

Lemma ReadFrame_accepts_encodings_witness :
  ReadFrame cut_reader = (Ok hello, {| pieces := [[0; 0; 0; 2; 0; 3]]; r_end := EOF |})
  ∧ stream cut_reader = encode hello ++ [0; 0; 0; 2; 0; 3].
Proof.
  split; [vm_compute; reflexivity|].
  pose proof (ReadFrame_accepts_encodings cut_reader) as Hspec.
  assert (ReadFrame cut_reader = (Ok hello, {| pieces := [[0; 0; 0; 2; 0; 3]]; r_end := EOF |}))
    as Hrun by (vm_compute; reflexivity).
  rewrite Hrun in Hspec. apply Hspec. repeat constructor; vm_compute; done.
Defined.

Lemma safecast_exact_witness : IntToUint32 (- 1) = Err (OutOfRange (- 1) "uint32").
Proof.
  destruct (safecast_exact 64 (- 1)) as (_ & Hint & _); [by right|].
  destruct Hint as (_ & Hu & _); [split; vm_compute; done|]. exact Hu.
Defined.
