(* ===== verification/QueryText.v ===== *)
(** * The text protocol of ServerQuery

    [src/internal/query/protocol.go] (escaping and the status line),
    [parseCommand] of [src/internal/query/commands.go] and [readQueryLine] of
    [src/internal/query/server.go]. Text is the list of its code points (the
    characters that the code treats specially are ASCII, so on valid UTF-8 its
    byte loops see each other character whole); the line reader works on bytes
    and counts them. *)

From S2P Require Import Prelude Wire.
From Stdlib Require Import Decimal.

Abbreviation rune := Z.
Abbreviation text := (list Z).

Definition of_string (s : string) : text :=
  (λ a, Z.of_N (Ascii.N_of_ascii a)) <$> String.list_ascii_of_string s.

(** ** protocol.go *)

Definition errOK : Z := 0.
Definition errUnknownCommand : Z := 256.
Definition errInvalidParameter : Z := 512.
Definition errLoginFailed : Z := 520.
Definition errServerError : Z := 1024.
Definition errInsufficientPermissions : Z := 2568.
Definition errTooManyConnections : Z := 1539.

(** The replacer: every pattern is one character, so it maps each character. *)
Definition escapeReplacer (c : rune) : text :=
  if c =? 92 then [92; 92]          (* \ *)
  else if c =? 32 then [92; 115]    (* space, \s *)
  else if c =? 124 then [92; 112]   (* |, \p *)
  else if c =? 47 then [92; 47]     (* /, \/ *)
  else if c =? 10 then [92; 110]    (* LF, \n *)
  else if c =? 13 then [92; 114]    (* CR, \r *)
  else if c =? 9 then [92; 116]     (* TAB, \t *)
  else [c].

Definition escape (s : text) : text := concat (escapeReplacer <$> s).

(** The [switch] of [unescape]. *)
Definition unescape_char (c : rune) : rune :=
  if c =? 115 then 32
  else if c =? 112 then 124
  else if c =? 110 then 10
  else if c =? 114 then 13
  else if c =? 116 then 9
  else c.

Fixpoint unescape (s : text) : text :=
  match s with
  | [] => []
  | c :: rest =>
      if c =? 92 then
        match rest with
        | [] => [c]
        | e :: rest' => unescape_char e :: unescape rest'
        end
      else c :: unescape rest
  end.

(** [%d] *)
Fixpoint digits (d : Decimal.uint) : text :=
  match d with
  | Nil => []
  | D0 d => 48 :: digits d | D1 d => 49 :: digits d | D2 d => 50 :: digits d
  | D3 d => 51 :: digits d | D4 d => 52 :: digits d | D5 d => 53 :: digits d
  | D6 d => 54 :: digits d | D7 d => 55 :: digits d | D8 d => 56 :: digits d
  | D9 d => 57 :: digits d
  end.
Definition decimal (z : Z) : text :=
  match Z.to_int z with
  | Pos d => digits d
  | Neg d => 45 :: digits d
  end.

Definition errorLine (id : Z) (msg : text) : text :=
  of_string "error id=" ++ decimal id ++ of_string " msg=" ++ escape msg ++ [10].

(** ** commands.go: parseCommand *)

(** [unicode.IsSpace] *)
Definition is_space (c : rune) : bool :=
  bool_decide (c ∈ [9; 10; 11; 12; 13; 32; 133; 160; 5760; 8232; 8233; 8239; 8287; 12288])
  || ((8192 <=? c) && (c <=? 8202)).

(** [strings.Fields] *)
Fixpoint fields_from (cur : text) (s : text) : list text :=
  match s with
  | [] => if decide (cur = []) then [] else [cur]
  | c :: s =>
      if is_space c then
        if decide (cur = []) then fields_from [] s else cur :: fields_from [] s
      else fields_from (cur ++ [c]) s
  end.
Definition Fields (s : text) : list text := fields_from [] s.

(** [strings.Cut(f, "=")] *)
Fixpoint cut_equals (s : text) : option (text * text) :=
  match s with
  | [] => None
  | c :: s => if c =? 61 then Some ([], s)
              else '(k, v) ← cut_equals s; Some (c :: k, v)
  end.

Record command := {
  cmd_name : text;
  cmd_args : gmap text text;
  cmd_positional : list text;
}.

Section parse.
(** [unicode.ToLower] *)
Context (ToLower : rune → rune).

Definition add_field (cmd : command) (f : text) : command :=
  match cut_equals f with
  | Some (k, v) => {| cmd_name := cmd_name cmd;
                      cmd_args := <[unescape k := unescape v]> (cmd_args cmd);
                      cmd_positional := cmd_positional cmd |}
  | None => {| cmd_name := cmd_name cmd; cmd_args := cmd_args cmd;
               cmd_positional := cmd_positional cmd ++ [unescape f] |}
  end.

Definition parseCommand (line : text) : command :=
  match Fields line with
  | [] => {| cmd_name := []; cmd_args := ∅; cmd_positional := [] |}
  | name :: rest =>
      let name := ToLower <$> name in
      if decide (name = of_string "login")
      then {| cmd_name := name; cmd_args := ∅; cmd_positional := unescape <$> rest |}
      else foldl add_field {| cmd_name := name; cmd_args := ∅; cmd_positional := [] |} rest
  end.

End parse.

(** ** server.go: readQueryLine *)

Inductive LineError := ErrRead (e : IOError) | ErrQueryLineTooLong.

Definition trim_cr (line : list byte) : list byte :=
  match last line with
  | Some c => if c =? 13 then take (length line - 1) line else line
  | None => line
  end.

(** The loop, over the bytes still to come; the second result is what is left. *)
Fixpoint readQueryLine_loop (limit : Z) (line bytes : list byte) (e : IOError)
  : result LineError (list byte) * list byte :=
  match bytes with
  | [] => (Err (ErrRead e), [])
  | b :: rest =>
      if b =? 10 then (Ok (trim_cr line), rest)
      else if (limit <? Z.of_nat (length line))
              || ((Z.of_nat (length line) =? limit) && negb (b =? 13))
      then (Err ErrQueryLineTooLong, rest)
      else readQueryLine_loop limit (line ++ [b]) rest e
  end.

Definition line_limit (limit : Z) : Z := if limit <=? 0 then 4096 else limit.

Definition readQueryLine (bytes : list byte) (e : IOError) (limit : Z)
  : result LineError (list byte) * list byte :=
  readQueryLine_loop (line_limit limit) [] bytes e.

(** ** Lemmas *)

(** Characters that separate words or lines on the wire. *)
Definition separators : list rune := [9; 10; 13; 32; 124].

Ltac escape_cases c :=
  unfold escapeReplacer;
  repeat match goal with |- context [if c =? ?n then _ else _] => destruct (Z.eqb_spec c n) end.

Lemma unescape_step c rest : unescape (escapeReplacer c ++ rest) = c :: unescape rest.
Proof.
  escape_cases c; subst; try reflexivity. simpl.
  destruct (Z.eqb_spec c 92); [done|reflexivity].
Qed.

Lemma unescape_escape s : unescape (escape s) = s.
Proof.
  unfold escape. induction s as [|c s IH]; [done|]. cbn [fmap list_fmap concat].
  by rewrite unescape_step, IH.
Qed.

Lemma elem_of_escape c s :
  c ∈ escape s → (c ∈ s ∧ c ∉ separators) ∨ c ∈ [92; 115; 112; 47; 110; 114; 116].
Proof.
  unfold escape, separators. intros Hc. induction s as [|d s IH]; [by apply elem_of_nil in Hc|].
  cbn [fmap list_fmap concat] in Hc. apply elem_of_app in Hc as [Hc|Hc].
  - revert Hc. escape_cases d; intros; set_solver.
  - destruct (IH Hc) as [[??]|?]; [left|by right]. split; [by right|done].
Qed.

Lemma digits_chars d c : c ∈ digits d → 48 ≤ c ≤ 57.
Proof. induction d; simpl; intros Hc; [by apply elem_of_nil in Hc|set_solver by lia..]. Qed.

Lemma decimal_chars z c : c ∈ decimal z → 45 ≤ c ≤ 57.
Proof.
  unfold decimal. destruct (Z.to_int z) as [d|d].
  - intros Hc%digits_chars. lia.
  - intros [->|Hc%digits_chars]%elem_of_cons; lia.
Qed.

(** White space that [escape] does not protect. *)
Definition plain_text (s : text) : Prop := Forall (λ c, is_space c = true → c ∈ separators) s.

#[export] Instance plain_text_dec s : Decision (plain_text s).
Proof. unfold plain_text. apply _. Defined.

Lemma escape_no_space s : plain_text s → Forall (λ c, is_space c = false) (escape s).
Proof.
  unfold plain_text. rewrite !Forall_forall. intros Hs c Hc.
  destruct (is_space c) eqn:Hsp; [exfalso|done].
  destruct (elem_of_escape c s Hc) as [[Hin Hno]|Hin]; [naive_solver|].
  set_unfold in Hin. destruct_or! Hin; subst; vm_compute in Hsp; done.
Qed.

Lemma escape_nil_inv s : escape s = [] → s = [].
Proof. intros Hs. rewrite <- (unescape_escape s), Hs. done. Qed.

Lemma fields_from_word cur w rest :
  Forall (λ c, is_space c = false) w → fields_from cur (w ++ rest) = fields_from (cur ++ w) rest.
Proof.
  revert cur. induction w as [|c w IH]; intros cur Hw; simpl; [by rewrite app_nil_r|].
  apply Forall_cons in Hw as [Hc Hw]. rewrite Hc, IH by done. by rewrite <- app_assoc.
Qed.

(** Words joined by single spaces are split where they were joined. *)
Lemma Fields_words w ws :
  w ≠ [] → Forall (λ c, is_space c = false) w →
  Forall (λ w, w ≠ [] ∧ Forall (λ c, is_space c = false) w) ws →
  Fields (w ++ concat ((λ w, 32 :: w) <$> ws)) = w :: ws.
Proof.
  unfold Fields. intros Hne Hw Hws. rewrite fields_from_word by done. simpl.
  revert w Hne Hw. induction Hws as [|w' ws [Hne' Hw'] _ IH]; intros w Hne Hw; simpl.
  - by rewrite decide_False.
  - rewrite decide_False by done. f_equal. rewrite fields_from_word by done. by apply IH.
Qed.

Lemma cut_equals_spec k v : 61 ∉ k → cut_equals (k ++ 61 :: v) = Some (k, v).
Proof.
  induction k as [|c k IH]; intros Hk; simpl; [done|].
  destruct (Z.eqb_spec c 61); [set_solver|]. rewrite IH by set_solver. done.
Qed.

Lemma escape_no_equals s : 61 ∉ s → 61 ∉ escape s.
Proof. intros Hs Hin%elem_of_escape. set_solver. Qed.

(** The line a client sends: the name, then [key=value] words. *)
Definition print_command (name : text) (args : list (text * text)) : text :=
  name ++ concat ((λ w, 32 :: w) <$> ((λ '(k, v), escape k ++ 61 :: escape v) <$> args)).

Definition print_login (words : list text) : text :=
  of_string "login" ++ concat ((λ w, 32 :: w) <$> (escape <$> words)).

Lemma add_fields_args name pos args M :
  Forall (λ '(k, v), 61 ∉ (k : text)) args →
  foldl add_field {| cmd_name := name; cmd_args := M; cmd_positional := pos |}
    ((λ '(k, v), escape k ++ 61 :: escape v) <$> args)
  = {| cmd_name := name; cmd_args := foldl (λ M '(k, v), <[k := v]> M) M args;
       cmd_positional := pos |}.
Proof.
  revert M. induction args as [|[k v] args IH]; intros M Hk; [done|].
  apply Forall_cons in Hk as [Hk Hks]. cbn [fmap list_fmap foldl].
  unfold add_field at 2. rewrite cut_equals_spec by by apply escape_no_equals.
  rewrite !unescape_escape. by apply IH.
Qed.

(** ** Properties *)

(** Escaping is invertible and protects the framing: decoding an escaped
    value gives the value back, an escaped value has no space, tab, pipe or line
    break, and a status line is one line, whatever the message. *)
Theorem escape_round_trip (s : text) (id : Z) :
  unescape (escape s) = s
  ∧ (∀ c, c ∈ separators → c ∉ escape s)
  ∧ ∃ body, errorLine id s = body ++ [10] ∧ 10 ∉ body.
Proof.
  split; [apply unescape_escape|]. split.
  - intros c Hc Hin%elem_of_escape. unfold separators in *. set_solver.
  - exists (of_string "error id=" ++ decimal id ++ of_string " msg=" ++ escape s).
    unfold errorLine. rewrite <- !app_assoc. split; [done|].
    rewrite !elem_of_app. intros [Hin|[Hin%decimal_chars|[Hin|Hin%elem_of_escape]]];
      [vm_compute in Hin; set_solver|lia|vm_compute in Hin; set_solver|].
    unfold separators in Hin. set_solver.
Qed.

Section parse_property.
Context (ToLower : rune → rune).
(** [unicode.ToLower] leaves lower-case ASCII letters alone. *)
Hypothesis lower_ascii : ∀ c, 97 ≤ c ≤ 122 → ToLower c = c.

(** A command line carries its arguments faithfully: a lower-case command
    printed with escaped [key=value] words is parsed back to the same name and
    the same arguments, the last of two equal keys winning, even when values
    contain spaces, pipes, backslashes, line breaks or '='; and a login line is
    parsed into exactly its words, which may themselves end in '='. *)
Theorem parseCommand_round_trip (name : text) (args : list (text * text)) (words : list text) :
  name ≠ [] → name ≠ of_string "login" → Forall (λ c, 97 ≤ c ≤ 122) name →
  Forall (λ '(k, v), plain_text k ∧ plain_text v ∧ 61 ∉ (k : text)) args →
  Forall (λ w, w ≠ [] ∧ plain_text w) words →
  parseCommand ToLower (print_command name args)
    = {| cmd_name := name; cmd_args := list_to_map (reverse args); cmd_positional := [] |}
  ∧ parseCommand ToLower (print_login words)
    = {| cmd_name := of_string "login"; cmd_args := ∅; cmd_positional := words |}.
Proof.
  intros Hne Hlogin Hname Hargs Hwords.
  assert (∀ n : text, Forall (λ c, 97 ≤ c ≤ 122) n →
            ToLower <$> n = n ∧ Forall (λ c, is_space c = false) n) as Hlow.
  { intros n Hn. induction Hn as [|c n Hc _ [IH1 IH2]]; [done|].
    rewrite fmap_cons, lower_ascii, IH1 by done. split; [done|]. constructor; [|done].
    unfold is_space. rewrite bool_decide_eq_false_2 by set_solver by lia.
    simpl. destruct (Z.leb_spec 8192 c); [lia|done]. }
  destruct (Hlow name Hname) as [Hl Hns]. split.
  - unfold parseCommand, print_command. rewrite Fields_words; [|done|done|].
    + rewrite Hl, decide_False by done.
      rewrite add_fields_args by (eapply Forall_impl; [exact Hargs|]; by intros [k v] (?&?&?)).
      f_equal. clear. induction args as [|[k v] args IH] using rev_ind; [done|].
      rewrite foldl_snoc, reverse_snoc, IH. done.
    + apply Forall_fmap. eapply Forall_impl; [exact Hargs|]. intros [k v] (Hk & Hv & _). simpl.
      split; [by destruct (escape k)|]. apply Forall_app. split; [by apply escape_no_space|].
      constructor; [done|]. by apply escape_no_space.
  - destruct (Hlow (of_string "login")) as [Hl' Hns']; [by repeat constructor; vm_compute|].
    unfold parseCommand, print_login. rewrite Fields_words; [|done|done|].
    + rewrite Hl', decide_True by done. f_equal. clear.
      induction words as [|w words IH]; [done|].
      by rewrite !fmap_cons, unescape_escape, IH.
    + apply Forall_fmap. eapply Forall_impl; [exact Hwords|]. intros w [Hw Hp]. simpl.
      split; [|by apply escape_no_space]. intros Hnil%escape_nil_inv. done.
Qed.

End parse_property.

(** ** The line reader *)

Lemma trim_cr_length line : (length (trim_cr line) ≤ length line)%nat.
Proof.
  unfold trim_cr. destruct (last line) as [c|]; [|done]. destruct (c =? 13); [|done].
  rewrite length_take. lia.
Qed.

(** A line the loop may still be accumulating. *)
Definition within (limit : Z) (line : list byte) : Prop :=
  10 ∉ line ∧ (Z.of_nat (length line) ≤ limit
               ∨ (Z.of_nat (length line) = limit + 1 ∧ last line = Some 13)).

Lemma within_trim limit line : within limit line → Z.of_nat (length (trim_cr line)) ≤ limit.
Proof.
  intros [_ [Hl|[Hl Hlast]]].
  - pose proof (trim_cr_length line). lia.
  - unfold trim_cr. rewrite Hlast. simpl. rewrite length_take.
    destruct line; simpl in *; [done|lia].
Qed.

Lemma readQueryLine_loop_spec limit line bytes e :
  0 < limit → within limit line →
  let '(res, rest) := readQueryLine_loop limit line bytes e in
  ∃ used, bytes = used ++ rest ∧ Z.of_nat (length (line ++ used)) ≤ limit + 2
    ∧ match res with
      | Ok l => ∃ more, used = more ++ [10] ∧ within limit (line ++ more)
                        ∧ l = trim_cr (line ++ more)
      | Err ErrQueryLineTooLong => 10 ∉ line ++ used ∧ ¬ within limit (line ++ used)
      | Err (ErrRead e') => e' = e ∧ rest = [] ∧ within limit (line ++ used)
      end.
Proof.
  intros Hlim. revert line. induction bytes as [|b bytes IH]; intros line Hw; simpl.
  { exists []. rewrite !app_nil_r. split; [done|].
    split; [destruct Hw as [_ [?|[??]]]; lia|]. by split. }
  destruct (Z.eqb_spec b 10) as [->|Hb].
  { exists [10]. split; [done|]. rewrite length_app. simpl.
    split; [destruct Hw as [_ [?|[??]]]; lia|]. exists []. by rewrite app_nil_r. }
  destruct (_ || _) eqn:Hover.
  - exists [b]. split; [done|]. rewrite length_app. simpl.
    split; [destruct Hw as [_ [?|[??]]]; lia|]. destruct Hw as [Hno Hlen].
    split; [set_solver|]. intros [_ Hw']. rewrite length_app, last_snoc in Hw'. simpl in Hw'.
    apply orb_true_iff in Hover as [Hover|Hover]; bools; [lia|].
    destruct Hw' as [?|[? [= ?]]]; lia.
  - apply orb_false_iff in Hover as [Ho1 Ho2]. apply andb_false_iff in Ho2 as [Ho2|Ho2]; bools.
    + specialize (IH (line ++ [b])). destruct (readQueryLine_loop limit (line ++ [b]) bytes e) as [res rest].
      destruct IH as (used & -> & Hlen & Hres).
      { destruct Hw as [Hno _]. split; [set_solver|]. rewrite length_app. simpl. left. lia. }
      exists (b :: used). split; [done|]. rewrite <- app_assoc in Hlen, Hres. simpl in *.
      split; [done|]. destruct res as [l|[]]; try done.
      destruct Hres as (more & -> & Hw' & ->). exists (b :: more).
      rewrite <- app_assoc in *. done.
    + subst b. specialize (IH (line ++ [13])).
      destruct (readQueryLine_loop limit (line ++ [13]) bytes e) as [res rest].
      destruct IH as (used & -> & Hlen & Hres).
      { destruct Hw as [Hno Hlen]. split; [set_solver|]. rewrite length_app, last_snoc. simpl.
        destruct (decide (Z.of_nat (length line) + 1 ≤ limit)); [left; lia|right].
        split; [lia|done]. }
      exists (13 :: used). split; [done|]. rewrite <- app_assoc in Hlen, Hres. simpl in *.
      split; [done|]. destruct res as [l|[]]; try done.
      destruct Hres as (more & -> & Hw' & ->). exists (13 :: more).
      rewrite <- app_assoc in *. done.
Qed.

(** The line reader is bounded and exact: whatever the peer sends it takes at
    most limit + 2 bytes; a returned line is the bytes up to the first newline
    with one final CR removed and has at most limit bytes; a line is refused only
    if it is longer than the limit, not counting one CR that may precede the
    newline; any other error is the transport's. *)
Theorem readQueryLine_exact (bytes : list byte) (e : IOError) (limit : Z) :
  let L := line_limit limit in
  let '(res, rest) := readQueryLine bytes e limit in
  ∃ used, bytes = used ++ rest ∧ Z.of_nat (length used) ≤ L + 2
    ∧ match res with
      | Ok l => ∃ line, used = line ++ [10] ∧ 10 ∉ line ∧ l = trim_cr line
                        ∧ Z.of_nat (length l) ≤ L
      | Err ErrQueryLineTooLong => 10 ∉ used ∧ L < Z.of_nat (length used)
                                   ∧ (last used = Some 13 → L + 1 < Z.of_nat (length used))
      | Err (ErrRead e') => e' = e ∧ rest = [] ∧ 10 ∉ used
      end.
Proof.
  intros L. assert (0 < L) as HL.
  { unfold L, line_limit. destruct (Z.leb_spec limit 0); lia. }
  pose proof (readQueryLine_loop_spec L [] bytes e HL) as Hspec. unfold readQueryLine. fold L.
  destruct (readQueryLine_loop L [] bytes e) as [res rest].
  destruct Hspec as (used & Hused & Hlen & Hres).
  { split; [set_solver|]. left. simpl. lia. }
  exists used. split; [done|]. split; [done|]. destruct res as [l|[e'|]].
  - destruct Hres as (more & -> & Hw & ->). exists more. split; [done|]. split; [apply Hw|].
    split; [done|]. by apply within_trim.
  - destruct Hres as (-> & -> & [Hno _]). done.
  - destruct Hres as [Hno Hnw]. simpl in *. split; [done|].
    destruct (decide (Z.of_nat (length used) ≤ L)).
    { exfalso. apply Hnw. split; [done|]. by left. }
    split; [lia|]. intros Hlast. destruct (decide (Z.of_nat (length used) = L + 1)); [|lia].
    exfalso. apply Hnw. split; [done|]. by right.
Qed.

(** ** Witness *)

(** ASCII lower-casing, as [unicode.ToLower] does on ASCII. *)
Definition ascii_lower (c : rune) : rune := if (65 <=? c) && (c <=? 90) then c + 32 else c.

Lemma parseCommand_round_trip_witness :
  parseCommand ascii_lower (print_command (of_string "serverset")
      [(of_string "name", of_string "My | server"); (of_string "motd", [104; 105; 10; 61])])
  = {| cmd_name := of_string "serverset";
       cmd_args := list_to_map (reverse [(of_string "name", of_string "My | server");
                                         (of_string "motd", [104; 105; 10; 61])]);
       cmd_positional := [] |}.
Proof.
  apply (parseCommand_round_trip ascii_lower) with (words := []).
  - intros c Hc. unfold ascii_lower. destruct (Z.leb_spec c 90); [lia|].
    by rewrite andb_false_r.
  - done.
  - by vm_compute.
  - by repeat constructor; vm_compute.
  - constructor; [|constructor; [|constructor]];
      (split; [|split]; apply (bool_decide_unpack _); vm_compute; exact I).
  - constructor.
Defined.
