(* ===== verification/Router.v ===== *)
(** * The SFU router: [src/internal/webrtc/router.go]

    Channel membership as the media plane sees it, the output tracks of every
    (subscriber, publisher) pair, whispers, simulcast layers, and the fan-out of
    incoming RTP packets. Every critical section of the router's mutex is one
    function on [Router]; a method that releases the mutex in between is the
    sequence of its sections.

    Pion is not part of the repository. What the router uses of it is: a peer
    connection is an opaque handle ([peer]); creating an output track and adding
    it to a peer connection may fail, decided attempt by attempt by the parameter
    [add_track]; writing a packet to a track may fail, decided by [write_ok].
    RTCP writes and calls of the renegotiation hook are recorded as [effect]s in
    the order they are made. Logging is left out. *)

From S2P Require Import Prelude.

(** ** Slots *)

Inductive Kind := KindAudio | KindVideo.

#[export] Instance Kind_eq_dec : EqDecision Kind.
Proof. solve_decision. Defined.

Definition SlotMic : string := "mic".
Definition SlotCam : string := "cam".
Definition SlotScreenAudio : string := "screenaudio".
Definition SlotScreen : string := "screen".

Definition slotKinds (slot : string) : option Kind :=
  if String.eqb slot SlotMic then Some KindAudio
  else if String.eqb slot SlotCam then Some KindVideo
  else if String.eqb slot SlotScreenAudio then Some KindAudio
  else if String.eqb slot SlotScreen then Some KindVideo
  else None.

Definition slotSep : string := "|".

Definition isDefaultSlot (slot : string) : bool :=
  String.eqb slot SlotMic || String.eqb slot SlotCam.

Definition defaultSlot (kind : Kind) : string :=
  match kind with KindVideo => SlotCam | KindAudio => SlotMic end.

Definition publisherStreamID (publisherID : string) : string :=
  String.append "noxa-" publisherID.

Definition slotTrackID (publisherID slot : string) : string :=
  if String.eqb slot SlotMic then publisherID
  else String.append publisherID (String.append slotSep slot).

Definition slotStreamID (publisherID slot : string) : string :=
  if String.eqb slot SlotMic then publisherStreamID publisherID
  else String.append (publisherStreamID publisherID) (String.append slotSep slot).

(** ** Data *)

(** A Pion peer connection wrapper and a recorder tap's writer: opaque handles. *)
Abbreviation peer := nat.
Abbreviation tapWriter := nat.

Record ChannelAudio := {
  ca_Bitrate : Z;
  ca_FEC : bool;
  ca_DTX : bool;
  ca_Stereo : bool;
}.

Definition musicMinBitrate : Z := 96000.

Definition IsMusic (c : ChannelAudio) : bool :=
  ca_Stereo c && (musicMinBitrate <=? ca_Bitrate c).

(** [track] is the identity of the Pion track, [track_id] and [stream_id] its
    MSID, [kind] the kind of codec it was created with. *)
Record pubSlot := {
  ps_track : nat;
  ps_trackID : string;
  ps_streamID : string;
  ps_kind : Kind;
}.

Record pubTrack := {
  audio : gmap string pubSlot;
  video : gmap string pubSlot;
}.

Definition newPubTrack : pubTrack := {| audio := ∅; video := ∅ |}.

Definition slots (kind : Kind) (t : pubTrack) : gmap string pubSlot :=
  match kind with KindVideo => video t | KindAudio => audio t end.

Definition upd_slots (kind : Kind) (f : gmap string pubSlot → gmap string pubSlot) (t : pubTrack)
  : pubTrack :=
  match kind with
  | KindVideo => {| audio := audio t; video := f (video t) |}
  | KindAudio => {| audio := f (audio t); video := video t |}
  end.

Record whisperConfig := {
  w_active : bool;
  w_clients : gset string;
  w_channels : gset Z;
}.

(** An RTP packet: the header-extension fields, the rest of the header, the
    payload. *)
Record rtpPacket := {
  pk_Extension : bool;
  pk_ExtensionProfile : Z;
  pk_Extensions : list (Z * list Z);
  pk_Header : list Z;
  pk_Payload : list Z;
}.

Inductive writer := WSlot (s : pubSlot) | WTap (w : tapWriter).

(** What a writer puts on its track: [(s *pubSlot) WriteRTP] clears the
    publisher's header extensions on a copy; a tap gets the packet itself. *)
Definition written (w : writer) (pkt : rtpPacket) : rtpPacket :=
  match w with
  | WSlot _ => {| pk_Extension := false; pk_ExtensionProfile := 0; pk_Extensions := [];
                  pk_Header := pk_Header pkt; pk_Payload := pk_Payload pkt |}
  | WTap _ => pkt
  end.

(** Calls out of the router, in order: a Picture Loss Indication for an SSRC
    written to a peer connection, a call of the renegotiation hook. *)
Inductive effect := EPLI (w : peer) (ssrc : Z) | ERenegotiate (subscriber : string).

Record videoSourceRef := { vs_publisher : string; vs_slot : string }.

(** [attempts] counts the output tracks the router has tried to create, to index
    the oracle [add_track]; the hooks that are only called and the handlers that
    only observe are kept as whether they are installed. *)
Record Router := mkRouter {
  members : gmap Z (gset string);
  clientChan : gmap string Z;
  pubTracks : gmap string (gmap string pubTrack);
  pubPeers : gmap string peer;
  outputs : gmap string tapWriter;
  videoOutputs : gmap string tapWriter;
  rtcpWriters : gmap string peer;
  videoSources : gmap string (gmap string (gmap string Z));
  layerPrefs : gmap string string;
  keyframeLast : gmap Z Z;
  whispers : gmap string whisperConfig;
  whisperPairs : gmap string (gset string);
  trackSlots : gmap string (gmap string string);
  slotClaims : gmap string (gmap string Z);
  slotEpoch : Z;
  canTalk : option (string → bool);
  canVideo : option (string → bool);
  onSpeaking : bool;
  onForward : bool;
  onRenegotiate : bool;
  echoChannel : Z;
  channelAudio : option (Z → ChannelAudio);
  attempts : nat;
}.

(** Functional update of single fields. *)

Definition upd_members (f : gmap Z (gset string) → gmap Z (gset string)) (r : Router) : Router :=
  mkRouter (f (members r)) (clientChan r) (pubTracks r) (pubPeers r) (outputs r)
    (videoOutputs r) (rtcpWriters r) (videoSources r) (layerPrefs r) (keyframeLast r)
    (whispers r) (whisperPairs r) (trackSlots r) (slotClaims r) (slotEpoch r) (canTalk r)
    (canVideo r) (onSpeaking r) (onForward r) (onRenegotiate r) (echoChannel r)
    (channelAudio r) (attempts r).

Definition upd_clientChan (f : gmap string Z → gmap string Z) (r : Router) : Router :=
  mkRouter (members r) (f (clientChan r)) (pubTracks r) (pubPeers r) (outputs r)
    (videoOutputs r) (rtcpWriters r) (videoSources r) (layerPrefs r) (keyframeLast r)
    (whispers r) (whisperPairs r) (trackSlots r) (slotClaims r) (slotEpoch r) (canTalk r)
    (canVideo r) (onSpeaking r) (onForward r) (onRenegotiate r) (echoChannel r)
    (channelAudio r) (attempts r).

Definition upd_pubTracks (f : gmap string (gmap string pubTrack) → gmap string (gmap string pubTrack))
    (r : Router) : Router :=
  mkRouter (members r) (clientChan r) (f (pubTracks r)) (pubPeers r) (outputs r)
    (videoOutputs r) (rtcpWriters r) (videoSources r) (layerPrefs r) (keyframeLast r)
    (whispers r) (whisperPairs r) (trackSlots r) (slotClaims r) (slotEpoch r) (canTalk r)
    (canVideo r) (onSpeaking r) (onForward r) (onRenegotiate r) (echoChannel r)
    (channelAudio r) (attempts r).

Definition upd_pubPeers (f : gmap string peer → gmap string peer) (r : Router) : Router :=
  mkRouter (members r) (clientChan r) (pubTracks r) (f (pubPeers r)) (outputs r)
    (videoOutputs r) (rtcpWriters r) (videoSources r) (layerPrefs r) (keyframeLast r)
    (whispers r) (whisperPairs r) (trackSlots r) (slotClaims r) (slotEpoch r) (canTalk r)
    (canVideo r) (onSpeaking r) (onForward r) (onRenegotiate r) (echoChannel r)
    (channelAudio r) (attempts r).

Definition upd_outputs (f : gmap string tapWriter → gmap string tapWriter)
    (r : Router) : Router :=
  mkRouter (members r) (clientChan r) (pubTracks r) (pubPeers r) (f (outputs r))
    (videoOutputs r) (rtcpWriters r) (videoSources r) (layerPrefs r) (keyframeLast r)
    (whispers r) (whisperPairs r) (trackSlots r) (slotClaims r) (slotEpoch r) (canTalk r)
    (canVideo r) (onSpeaking r) (onForward r) (onRenegotiate r) (echoChannel r)
    (channelAudio r) (attempts r).

Definition upd_videoOutputs (f : gmap string tapWriter → gmap string tapWriter)
    (r : Router) : Router :=
  mkRouter (members r) (clientChan r) (pubTracks r) (pubPeers r) (outputs r) (f
    (videoOutputs r)) (rtcpWriters r) (videoSources r) (layerPrefs r) (keyframeLast r)
    (whispers r) (whisperPairs r) (trackSlots r) (slotClaims r) (slotEpoch r) (canTalk r)
    (canVideo r) (onSpeaking r) (onForward r) (onRenegotiate r) (echoChannel r)
    (channelAudio r) (attempts r).

Definition upd_rtcpWriters (f : gmap string peer → gmap string peer) (r : Router) : Router :=
  mkRouter (members r) (clientChan r) (pubTracks r) (pubPeers r) (outputs r) (videoOutputs
    r) (f (rtcpWriters r)) (videoSources r) (layerPrefs r) (keyframeLast r) (whispers r)
    (whisperPairs r) (trackSlots r) (slotClaims r) (slotEpoch r) (canTalk r) (canVideo r)
    (onSpeaking r) (onForward r) (onRenegotiate r) (echoChannel r) (channelAudio r)
    (attempts r).

Definition upd_videoSources (f : gmap string (gmap string (gmap string Z)) → gmap string (gmap string (gmap string Z)))
    (r : Router) : Router :=
  mkRouter (members r) (clientChan r) (pubTracks r) (pubPeers r) (outputs r) (videoOutputs
    r) (rtcpWriters r) (f (videoSources r)) (layerPrefs r) (keyframeLast r) (whispers r)
    (whisperPairs r) (trackSlots r) (slotClaims r) (slotEpoch r) (canTalk r) (canVideo r)
    (onSpeaking r) (onForward r) (onRenegotiate r) (echoChannel r) (channelAudio r)
    (attempts r).

Definition upd_layerPrefs (f : gmap string string → gmap string string) (r : Router) : Router :=
  mkRouter (members r) (clientChan r) (pubTracks r) (pubPeers r) (outputs r) (videoOutputs
    r) (rtcpWriters r) (videoSources r) (f (layerPrefs r)) (keyframeLast r) (whispers r)
    (whisperPairs r) (trackSlots r) (slotClaims r) (slotEpoch r) (canTalk r) (canVideo r)
    (onSpeaking r) (onForward r) (onRenegotiate r) (echoChannel r) (channelAudio r)
    (attempts r).

Definition upd_keyframeLast (f : gmap Z Z → gmap Z Z) (r : Router) : Router :=
  mkRouter (members r) (clientChan r) (pubTracks r) (pubPeers r) (outputs r) (videoOutputs
    r) (rtcpWriters r) (videoSources r) (layerPrefs r) (f (keyframeLast r)) (whispers r)
    (whisperPairs r) (trackSlots r) (slotClaims r) (slotEpoch r) (canTalk r) (canVideo r)
    (onSpeaking r) (onForward r) (onRenegotiate r) (echoChannel r) (channelAudio r)
    (attempts r).

Definition upd_whispers (f : gmap string whisperConfig → gmap string whisperConfig)
    (r : Router) : Router :=
  mkRouter (members r) (clientChan r) (pubTracks r) (pubPeers r) (outputs r) (videoOutputs
    r) (rtcpWriters r) (videoSources r) (layerPrefs r) (keyframeLast r) (f (whispers r))
    (whisperPairs r) (trackSlots r) (slotClaims r) (slotEpoch r) (canTalk r) (canVideo r)
    (onSpeaking r) (onForward r) (onRenegotiate r) (echoChannel r) (channelAudio r)
    (attempts r).

Definition upd_whisperPairs (f : gmap string (gset string) → gmap string (gset string))
    (r : Router) : Router :=
  mkRouter (members r) (clientChan r) (pubTracks r) (pubPeers r) (outputs r) (videoOutputs
    r) (rtcpWriters r) (videoSources r) (layerPrefs r) (keyframeLast r) (whispers r) (f
    (whisperPairs r)) (trackSlots r) (slotClaims r) (slotEpoch r) (canTalk r) (canVideo r)
    (onSpeaking r) (onForward r) (onRenegotiate r) (echoChannel r) (channelAudio r)
    (attempts r).

Definition upd_trackSlots (f : gmap string (gmap string string) → gmap string (gmap string string))
    (r : Router) : Router :=
  mkRouter (members r) (clientChan r) (pubTracks r) (pubPeers r) (outputs r) (videoOutputs
    r) (rtcpWriters r) (videoSources r) (layerPrefs r) (keyframeLast r) (whispers r)
    (whisperPairs r) (f (trackSlots r)) (slotClaims r) (slotEpoch r) (canTalk r) (canVideo
    r) (onSpeaking r) (onForward r) (onRenegotiate r) (echoChannel r) (channelAudio r)
    (attempts r).

Definition upd_slotClaims (f : gmap string (gmap string Z) → gmap string (gmap string Z))
    (r : Router) : Router :=
  mkRouter (members r) (clientChan r) (pubTracks r) (pubPeers r) (outputs r) (videoOutputs
    r) (rtcpWriters r) (videoSources r) (layerPrefs r) (keyframeLast r) (whispers r)
    (whisperPairs r) (trackSlots r) (f (slotClaims r)) (slotEpoch r) (canTalk r) (canVideo
    r) (onSpeaking r) (onForward r) (onRenegotiate r) (echoChannel r) (channelAudio r)
    (attempts r).

Definition upd_slotEpoch (f : Z → Z) (r : Router) : Router :=
  mkRouter (members r) (clientChan r) (pubTracks r) (pubPeers r) (outputs r) (videoOutputs
    r) (rtcpWriters r) (videoSources r) (layerPrefs r) (keyframeLast r) (whispers r)
    (whisperPairs r) (trackSlots r) (slotClaims r) (f (slotEpoch r)) (canTalk r) (canVideo
    r) (onSpeaking r) (onForward r) (onRenegotiate r) (echoChannel r) (channelAudio r)
    (attempts r).

Definition upd_canTalk (f : option (string → bool) → option (string → bool))
    (r : Router) : Router :=
  mkRouter (members r) (clientChan r) (pubTracks r) (pubPeers r) (outputs r) (videoOutputs
    r) (rtcpWriters r) (videoSources r) (layerPrefs r) (keyframeLast r) (whispers r)
    (whisperPairs r) (trackSlots r) (slotClaims r) (slotEpoch r) (f (canTalk r)) (canVideo
    r) (onSpeaking r) (onForward r) (onRenegotiate r) (echoChannel r) (channelAudio r)
    (attempts r).

Definition upd_canVideo (f : option (string → bool) → option (string → bool))
    (r : Router) : Router :=
  mkRouter (members r) (clientChan r) (pubTracks r) (pubPeers r) (outputs r) (videoOutputs
    r) (rtcpWriters r) (videoSources r) (layerPrefs r) (keyframeLast r) (whispers r)
    (whisperPairs r) (trackSlots r) (slotClaims r) (slotEpoch r) (canTalk r) (f (canVideo
    r)) (onSpeaking r) (onForward r) (onRenegotiate r) (echoChannel r) (channelAudio r)
    (attempts r).

Definition upd_onSpeaking (f : bool → bool) (r : Router) : Router :=
  mkRouter (members r) (clientChan r) (pubTracks r) (pubPeers r) (outputs r) (videoOutputs
    r) (rtcpWriters r) (videoSources r) (layerPrefs r) (keyframeLast r) (whispers r)
    (whisperPairs r) (trackSlots r) (slotClaims r) (slotEpoch r) (canTalk r) (canVideo r) (f
    (onSpeaking r)) (onForward r) (onRenegotiate r) (echoChannel r) (channelAudio r)
    (attempts r).

Definition upd_onForward (f : bool → bool) (r : Router) : Router :=
  mkRouter (members r) (clientChan r) (pubTracks r) (pubPeers r) (outputs r) (videoOutputs
    r) (rtcpWriters r) (videoSources r) (layerPrefs r) (keyframeLast r) (whispers r)
    (whisperPairs r) (trackSlots r) (slotClaims r) (slotEpoch r) (canTalk r) (canVideo r)
    (onSpeaking r) (f (onForward r)) (onRenegotiate r) (echoChannel r) (channelAudio r)
    (attempts r).

Definition upd_onRenegotiate (f : bool → bool) (r : Router) : Router :=
  mkRouter (members r) (clientChan r) (pubTracks r) (pubPeers r) (outputs r) (videoOutputs
    r) (rtcpWriters r) (videoSources r) (layerPrefs r) (keyframeLast r) (whispers r)
    (whisperPairs r) (trackSlots r) (slotClaims r) (slotEpoch r) (canTalk r) (canVideo r)
    (onSpeaking r) (onForward r) (f (onRenegotiate r)) (echoChannel r) (channelAudio r)
    (attempts r).

Definition upd_echoChannel (f : Z → Z) (r : Router) : Router :=
  mkRouter (members r) (clientChan r) (pubTracks r) (pubPeers r) (outputs r) (videoOutputs
    r) (rtcpWriters r) (videoSources r) (layerPrefs r) (keyframeLast r) (whispers r)
    (whisperPairs r) (trackSlots r) (slotClaims r) (slotEpoch r) (canTalk r) (canVideo r)
    (onSpeaking r) (onForward r) (onRenegotiate r) (f (echoChannel r)) (channelAudio r)
    (attempts r).

Definition upd_channelAudio (f : option (Z → ChannelAudio) → option (Z → ChannelAudio))
    (r : Router) : Router :=
  mkRouter (members r) (clientChan r) (pubTracks r) (pubPeers r) (outputs r) (videoOutputs
    r) (rtcpWriters r) (videoSources r) (layerPrefs r) (keyframeLast r) (whispers r)
    (whisperPairs r) (trackSlots r) (slotClaims r) (slotEpoch r) (canTalk r) (canVideo r)
    (onSpeaking r) (onForward r) (onRenegotiate r) (echoChannel r) (f (channelAudio r))
    (attempts r).

Definition upd_attempts (f : nat → nat) (r : Router) : Router :=
  mkRouter (members r) (clientChan r) (pubTracks r) (pubPeers r) (outputs r) (videoOutputs
    r) (rtcpWriters r) (videoSources r) (layerPrefs r) (keyframeLast r) (whispers r)
    (whisperPairs r) (trackSlots r) (slotClaims r) (slotEpoch r) (canTalk r) (canVideo r)
    (onSpeaking r) (onForward r) (onRenegotiate r) (echoChannel r) (channelAudio r) (f
    (attempts r)).

Definition NewRouter : Router :=
  mkRouter ∅ ∅ ∅ ∅ ∅ ∅ ∅ ∅ ∅ ∅ ∅ ∅ ∅ ∅ 0 None None false false false 0 None 0.

(** ** Installed handlers *)

Definition SetRenegotiateHook (installed : bool) : Router → Router :=
  upd_onRenegotiate (λ _, installed).
Definition SetEchoChannel (channelID : Z) : Router → Router :=
  upd_echoChannel (λ _, channelID).
Definition SetChannelAudioLookup (fn : option (Z → ChannelAudio)) : Router → Router :=
  upd_channelAudio (λ _, fn).
Definition SetHandlers (gate : option (string → bool)) (speaking : bool) (r : Router) : Router :=
  upd_onSpeaking (λ _, speaking) (upd_canTalk (λ _, gate) r).
Definition SetForwardObserver (installed : bool) : Router → Router :=
  upd_onForward (λ _, installed).
Definition SetVideoHandlers (gate : option (string → bool)) : Router → Router :=
  upd_canVideo (λ _, gate).

Definition ChannelOf (clientID : string) (r : Router) : Z * bool :=
  match clientChan r !! clientID with Some id => (id, true) | None => (0, false) end.

Definition isMusicChannelLocked (clientID : string) (r : Router) : bool :=
  match channelAudio r with
  | None => false
  | Some lookup_audio =>
      match clientChan r !! clientID with
      | None => false
      | Some channelID => IsMusic (lookup_audio channelID)
      end
  end.

Definition allowTalk (clientID : string) (r : Router) : bool :=
  match canTalk r with None => true | Some gate => gate clientID end.

Definition allowVideo (clientID : string) (r : Router) : bool :=
  match canVideo r with None => true | Some gate => gate clientID end.

(** ** Slot claims *)

Definition claimSlot (clientID key : string) (r : Router) : Router * option Z :=
  let claims := default ∅ (slotClaims r !! clientID) in
  match claims !! key with
  | Some _ => (upd_slotClaims <[clientID := claims]> r, None)
  | None =>
      let epoch := u64 (slotEpoch r + 1) in
      (upd_slotClaims <[clientID := <[key := epoch]> claims]> (upd_slotEpoch (λ _, epoch) r),
       Some epoch)
  end.

Definition releaseSlot (clientID key : string) (token : Z) (r : Router) : Router :=
  match slotClaims r !! clientID with
  | None => r
  | Some claims =>
      if default 0 (claims !! key) =? token then
        let claims := delete key claims in
        if decide (claims = ∅) then upd_slotClaims (delete clientID) r
        else upd_slotClaims <[clientID := claims]> r
      else r
  end.

Definition slotFor (clientID trackID : string) (kind : Kind) (r : Router) : string :=
  let slot := default "" (default ∅ (trackSlots r !! clientID) !! trackID) in
  match slotKinds slot with
  | Some k => if decide (k = kind) then slot else defaultSlot kind
  | None => defaultSlot kind
  end.

Definition slotDiff (before after : list string) : list string * list string :=
  (filter (λ s, s ∉ before) after, filter (λ s, s ∉ after) before).

Section router.
Context (add_track : nat → bool).
Context (write_ok : writer → bool).
Context `{!∀ V, MapRange string V, !∀ V, MapRange Z V}.
Implicit Types r : Router.

(** ** Output tracks *)

(** The two default slots, then the declared extra slots, each once, sorted. *)
Definition extra_slot (slot : string) : bool :=
  bool_decide (is_Some (slotKinds slot)) && negb (isDefaultSlot slot).

Definition collect_extra (declared : list string) : list string :=
  foldl (λ extra slot,
    if extra_slot slot && bool_decide (slot ∉ extra) then extra ++ [slot] else extra) [] declared.

Definition publisherSlotsLocked (publisherID : string) r : list string :=
  let declared := default ∅ (trackSlots r !! publisherID) in
  [SlotMic; SlotCam] ++ sort_by String.le (collect_extra (range declared).*2).

Definition addSlotLocked (publisherID : string) (slot : string) (t : pubTrack) (n : nat)
  : pubTrack * nat * bool :=
  match slotKinds slot with
  | None => (t, n, false)
  | Some kind =>
      match slots kind t !! slot with
      | Some _ => (t, n, false)
      | None =>
          if add_track n then
            (upd_slots kind <[slot := {| ps_track := n; ps_trackID := slotTrackID publisherID slot;
                                         ps_streamID := slotStreamID publisherID slot;
                                         ps_kind := kind |}]> t,
             S n, true)
          else (t, S n, false)
      end
  end.

Definition removeSlotLocked (slot : string) (t : pubTrack) : pubTrack * bool :=
  match slotKinds slot with
  | None => (t, false)
  | Some kind =>
      match slots kind t !! slot with
      | None => (t, false)
      | Some _ => (upd_slots kind (delete slot) t, true)
      end
  end.

Fixpoint add_slots (publisherID : string) (l : list string) (t : pubTrack) (n : nat)
  : pubTrack * nat * bool :=
  match l with
  | [] => (t, n, false)
  | slot :: l =>
      let '(t, n, added) := addSlotLocked publisherID slot t n in
      let '(t, n, changed) := add_slots publisherID l t n in
      (t, n, added || changed)
  end.

Fixpoint remove_slots (l : list string) (t : pubTrack) : pubTrack * bool :=
  match l with
  | [] => (t, false)
  | slot :: l =>
      let '(t, removed) := removeSlotLocked slot t in
      let '(t, changed) := remove_slots l t in
      (t, removed || changed)
  end.

(** [tracks := r.pubTracks\[sub\]; delete(tracks, pub)], dropping an empty map. *)
Definition drop_pair (sub pub : string) (pt : gmap string (gmap string pubTrack))
  : gmap string (gmap string pubTrack) :=
  match pt !! sub with
  | None => pt
  | Some tracks =>
      let tracks := delete pub tracks in
      if decide (tracks = ∅) then delete sub pt else <[sub := tracks]> pt
  end.

Definition addPublisherLocked (sub pub : string) r : Router * bool :=
  match pubPeers r !! sub with
  | None => (r, false)
  | Some _ =>
      let tracks := default ∅ (pubTracks r !! sub) in
      let '(t, n, changed) :=
        add_slots pub (publisherSlotsLocked pub r) (default newPubTrack (tracks !! pub))
          (attempts r) in
      let r := upd_attempts (λ _, n) (upd_pubTracks <[sub := <[pub := t]> tracks]> r) in
      if negb (bool_decide (is_Some (tracks !! pub))) && negb changed
      then (upd_pubTracks (drop_pair sub pub) r, changed)
      else (r, changed)
  end.

(** The slots are removed from the peer connection one by one, then the pair is
    dropped with them. *)
Definition removePublisherLocked (sub pub : string) r : Router * bool :=
  match pubTracks r !! sub with
  | None => (r, false)
  | Some tracks =>
      match tracks !! pub with
      | None => (r, false)
      | Some _ => (upd_pubTracks (drop_pair sub pub) r, true)
      end
  end.

(** [if r.addPublisherLocked(sub, pub) { set\[sub\] = true }], and the same for
    removal. *)
Definition note (sub : string) (res : Router * bool) (set : gset string)
  : Router * gset string :=
  (res.1, if res.2 then {[sub]} ∪ set else set).

(** Both directions of a pair, in the order of the code. *)
Definition add_both (clientID other : string) (st : Router * gset string)
  : Router * gset string :=
  let '(r, set) := st in
  let '(r, set) := note clientID (addPublisherLocked clientID other r) set in
  note other (addPublisherLocked other clientID r) set.

Definition remove_both (clientID other : string) (st : Router * gset string)
  : Router * gset string :=
  let '(r, set) := st in
  let '(r, set) := note clientID (removePublisherLocked clientID other r) set in
  note other (removePublisherLocked other clientID r) set.

Definition for_others (f : string → Router * gset string → Router * gset string)
    (clientID : string) (l : list string) (st : Router * gset string) : Router * gset string :=
  foldl (λ st other, if decide (other = clientID) then st else f other st) st l.

(** ** Channel membership *)

Definition leaveChannelLocked (channelID : Z) (clientID : string) r : Router :=
  let r := upd_members (fam_del channelID clientID) r in
  if default 0 (clientChan r !! clientID) =? channelID
  then upd_clientChan (delete clientID) r else r.

Definition removePairsLocked (channelID : Z) (clientID : string) r : Router * gset string :=
  let '(r, out) :=
    for_others (remove_both clientID) clientID (range_set (fam_get channelID (members r))) (r, ∅) in
  ((removePublisherLocked clientID clientID r).1, out ∖ {[clientID]}).

(** The echo channel's self pair. *)
Definition echo_pair (channelID : Z) (clientID : string) (st : Router * gset string)
  : Router * gset string :=
  let '(r, set) := st in
  if (channelID =? echoChannel r) && negb (echoChannel r =? 0)
  then note clientID (addPublisherLocked clientID clientID r) set else (r, set).

Definition videoPublishersLocked (channelID : Z) (exclude : string) r : list videoSourceRef :=
  '(publisherID, bySlot) ← range (videoSources r);
  if decide (publisherID = exclude ∨ publisherID ∉ fam_get channelID (members r)) then []
  else (λ slot, {| vs_publisher := publisherID; vs_slot := slot |}) <$> (range bySlot).*1.

Definition layerPrefLocked (clientID : string) r : string :=
  default "h" (layerPrefs r !! clientID).

(** ** Keyframe requests *)

Definition keyframeRequestWindow : Z := second.

Definition allowKeyframeRequest (ssrc now : Z) r : Router * bool :=
  let last := default 0 (keyframeLast r !! ssrc) in
  if negb (time_is_zero last) && (time_sub now last <? keyframeRequestWindow) then (r, false)
  else (upd_keyframeLast <[ssrc := now]> r, true).

Definition source_ssrc (publisherID slot rid : string) r : Z :=
  match default ∅ (videoSources r !! publisherID) !! slot with
  | None => 0
  | Some src =>
      match src !! rid with
      | Some s => s
      | None => match (range src).*2 with s :: _ => s | [] => 0 end
      end
  end.

Definition RequestKeyframe (publisherID slot rid : string) (now : Z) r : Router * list effect :=
  let ssrc := source_ssrc publisherID slot rid r in
  match rtcpWriters r !! publisherID with
  | None => (r, [])
  | Some w =>
      if ssrc =? 0 then (r, [])
      else let '(r, allowed) := allowKeyframeRequest ssrc now r in
           (r, if allowed then [EPLI w ssrc] else [])
  end.

(** A keyframe request for every listed source, the [i]-th at time [clock i]. *)
Fixpoint request_keyframes (refs : list videoSourceRef) (rid : string) (clock : nat → Z) r
  : Router * list effect :=
  match refs with
  | [] => (r, [])
  | ref :: refs =>
      let '(r, e) := RequestKeyframe (vs_publisher ref) (vs_slot ref) rid (clock 0%nat) r in
      let '(r, es) := request_keyframes refs rid (λ i, clock (S i)) r in
      (r, e ++ es)
  end.

(** The calls of the renegotiation hook. *)
Definition hooks (set : gset string) r : list effect :=
  if onRenegotiate r then ERenegotiate <$> range_set set else [].

(** The output tracks between a member and the other members, both ways, and the
    echo pair: what [JoinChannel] and [EnsurePublishers] do in their critical
    sections. *)
Definition add_all (channelID : Z) (clientID : string) r : Router * gset string :=
  echo_pair channelID clientID
    (for_others (add_both clientID) clientID (range_set (fam_get channelID (members r))) (r, ∅)).

(** The critical section of [JoinChannel]: the new state and the subscribers to
    renegotiate. *)
Definition join_locked (channelID : Z) (clientID : string) r : Router * gset string :=
  let r := match clientChan r !! clientID with
           | Some prev =>
               if decide (prev = channelID) then r
               else (removePairsLocked prev clientID (leaveChannelLocked prev clientID r)).1
           | None => r
           end in
  let r := upd_clientChan <[clientID := channelID]> (upd_members (fam_add channelID clientID) r) in
  add_all channelID clientID r.

Definition JoinChannel (channelID : Z) (clientID : string) (clock : nat → Z) r
  : Router * list effect :=
  let '(r, renegotiate) := join_locked channelID clientID r in
  let targets := videoPublishersLocked channelID clientID r in
  let calls := hooks renegotiate r in
  let '(r, es) := request_keyframes targets (layerPrefLocked clientID r) clock r in
  (r, es ++ calls).

Definition LeaveChannel (channelID : Z) (clientID : string) r : Router * list effect :=
  let '(r, renegotiate) :=
    removePairsLocked channelID clientID (leaveChannelLocked channelID clientID r) in
  (r, hooks renegotiate r).

Definition LeaveAll (clientID : string) r : Router * list effect :=
  match clientChan r !! clientID with
  | Some channelID => LeaveChannel channelID clientID r
  | None => (r, [])
  end.

Definition EnsurePublishers (clientID : string) (clock : nat → Z) r : Router * list effect :=
  match clientChan r !! clientID with
  | None => (r, [])
  | Some channelID =>
      let '(r, changed) := add_all channelID clientID r in
      let targets := videoPublishersLocked channelID clientID r in
      let calls := if onRenegotiate r && negb (bool_decide (changed = ∅))
                   then [ERenegotiate clientID] else [] in
      let '(r, es) := request_keyframes targets (layerPrefLocked clientID r) clock r in
      (r, es ++ calls)
  end.

(** ** Track slots *)

(** One subscriber's output tracks after the publisher's slots changed. *)
Definition sync_slots (publisherID : string) (added removed : list string) (sub : string)
    (st : Router * gset string) : Router * gset string :=
  let '(r, set) := st in
  match pubTracks r !! sub with
  | None => (r, set)
  | Some tracks =>
      match tracks !! publisherID with
      | None => (r, set)
      | Some t =>
          let '(t, n, a) := match pubPeers r !! sub with
                            | Some _ => add_slots publisherID added t (attempts r)
                            | None => (t, attempts r, false)
                            end in
          let '(t, d) := remove_slots removed t in
          (upd_attempts (λ _, n) (upd_pubTracks <[sub := <[publisherID := t]> tracks]> r),
           if a || d then {[sub]} ∪ set else set)
      end
  end.

Definition SetTrackSlots (publisherID : string) (declaration : gmap string string) r
  : Router * list effect :=
  let before := publisherSlotsLocked publisherID r in
  let declared := filter (λ kv, is_Some (slotKinds kv.2)) declaration in
  let r := upd_trackSlots (λ m, if decide (declared = ∅) then delete publisherID m
                                else <[publisherID := declared]> m) r in
  let after := publisherSlotsLocked publisherID r in
  let '(added, removed) := slotDiff before after in
  let '(r, renegotiate) :=
    match added, removed with
    | [], [] => (r, ∅)
    | _, _ => foldl (λ st sub, sync_slots publisherID added removed sub st) (r, ∅)
                (range (pubTracks r)).*1
    end in
  (r, hooks renegotiate r).

(** ** Whispers *)

Definition whisperTargetsLocked (clientID : string) (cfg : whisperConfig) r : gset string :=
  (w_clients cfg ∪ ⋃ ((λ ch, fam_get ch (members r)) <$> range_set (w_channels cfg)))
    ∖ {[clientID]}.

Definition WhisperTargets (clientID : string) r : list string :=
  match whispers r !! clientID with
  | None => []
  | Some cfg => if w_active cfg then range_set (whisperTargetsLocked clientID cfg r) else []
  end.

Definition whisper_add (clientID sub : string) (st : Router * gset string)
  : Router * gset string :=
  let '(r, set) := st in
  let '(r, added) := addPublisherLocked sub clientID r in
  if added then (upd_whisperPairs (fam_add clientID sub) r, {[sub]} ∪ set) else (r, set).

Definition same_channel (a b : string) r : bool :=
  match clientChan r !! a, clientChan r !! b with
  | Some x, Some y => x =? y
  | _, _ => false
  end.

Definition whisper_drop (clientID : string) (keep : gset string) (sub : string)
    (st : Router * gset string) : Router * gset string :=
  let '(r, set) := st in
  if decide (sub ∈ keep ∨ sub ∉ fam_get clientID (whisperPairs r)) then (r, set)
  else
    let r := upd_whisperPairs
               (λ m, <[clientID := fam_get clientID m ∖ {[sub]}]> m) r in
    if same_channel sub clientID r then (r, set)
    else note sub (removePublisherLocked sub clientID r) set.

Definition SetWhisper (clientID : string) (clients : list string) (channels : list Z)
    (active : bool) r : Router * list effect :=
  let cfg := {| w_active := active; w_clients := list_to_set clients;
                w_channels := list_to_set channels |} in
  let old := whispers r !! clientID in
  let r := upd_whispers <[clientID := cfg]> r in
  let '(r, set) :=
    if active then foldl (λ st sub, whisper_add clientID sub st) (r, ∅)
                     (range_set (whisperTargetsLocked clientID cfg r))
    else (r, ∅) in
  let '(r, set) :=
    match old with
    | Some oldcfg =>
        if w_active oldcfg then
          let keep := if active then whisperTargetsLocked clientID cfg r else ∅ in
          let '(r, set) :=
            foldl (λ st sub, whisper_drop clientID keep sub st) (r, set)
              (range_set (whisperTargetsLocked clientID oldcfg r)) in
          (if decide (fam_get clientID (whisperPairs r) = ∅)
           then upd_whisperPairs (delete clientID) r else r, set)
        else (r, set)
    | None => (r, set)
    end in
  (r, hooks set r).

(** ** Peers and taps *)

Definition AddOutput (clientID : string) (w : tapWriter) : Router → Router :=
  upd_outputs <[clientID := w]>.
Definition RemoveOutput (clientID : string) : Router → Router :=
  upd_outputs (delete clientID).
Definition addVideoOutput (clientID : string) (w : tapWriter) : Router → Router :=
  upd_videoOutputs <[clientID := w]>.

(** [pc.OnTrack] starts [ReadLoop] or [ReadVideoLoop] on the slot of [slotFor]. *)
Definition AttachPeer (clientID : string) (pc : peer) r : Router :=
  upd_rtcpWriters <[clientID := pc]> (upd_pubPeers <[clientID := pc]> r).

Definition forget_whisper_sub (clientID : string) (m : gmap string (gset string))
  : gmap string (gset string) :=
  omap (λ subs, if decide (subs ∖ {[clientID]} = ∅) then None else Some (subs ∖ {[clientID]})) m.

(** The first critical section of [detachPeer]: everything keyed by the client,
    and the subscribers that still hold a track of it. *)
Definition detach_locked (clientID : string) (leaveChannel : bool) r : Router * list string :=
  let r := upd_pubPeers (delete clientID) r in
  let r := upd_outputs (delete clientID) r in
  let r := upd_videoOutputs (delete clientID) r in
  let r := upd_rtcpWriters (delete clientID) r in
  let r := upd_whispers (delete clientID) r in
  let r := upd_whisperPairs (λ m, forget_whisper_sub clientID (delete clientID m)) r in
  let r := upd_layerPrefs (delete clientID) r in
  let r := upd_videoSources (delete clientID) r in
  let r := upd_slotClaims (delete clientID) r in
  let r := if leaveChannel then upd_trackSlots (delete clientID) r else r in
  let r := upd_pubTracks (delete clientID) r in
  (r, (filter (λ kv, is_Some (kv.2 !! clientID)) (range (pubTracks r))).*1).

Definition detachPeer (clientID : string) (leaveChannel : bool) r : Router * list effect :=
  let '(r, renegotiate) := detach_locked clientID leaveChannel r in
  let channel := clientChan r !! clientID in
  let r := foldl (λ r sub, (removePublisherLocked sub clientID r).1) r renegotiate in
  let calls := if onRenegotiate r then ERenegotiate <$> renegotiate else [] in
  match channel with
  | Some channelID =>
      if leaveChannel then
        let '(r, es) := LeaveChannel channelID clientID r in (r, calls ++ es)
      else (r, calls)
  | None => (r, calls)
  end.

Definition DetachPeer (clientID : string) : Router → Router * list effect :=
  detachPeer clientID true.
Definition DetachPeerKeepChannel (clientID : string) : Router → Router * list effect :=
  detachPeer clientID false.

(** ** Forwarding *)

Definition targetSubscribersLocked (senderID : string) r : list string :=
  let by_channel :=
    match clientChan r !! senderID with
    | None => []
    | Some channelID =>
        filter (λ id, ¬ (id = senderID ∧ channelID ≠ echoChannel r))
          (range_set (fam_get channelID (members r)))
    end in
  match whispers r !! senderID with
  | Some cfg => if w_active cfg then range_set (whisperTargetsLocked senderID cfg r) else by_channel
  | None => by_channel
  end.

(** [r.clientChan\[tapID\] == channelID]: a tap without a channel reads as 0. *)
Definition tap_id (taps : gmap string tapWriter) (senderID : string) r : string :=
  match clientChan r !! senderID with
  | None => ""
  | Some channelID =>
      default "" (head (filter (λ id, default 0 (clientChan r !! id) = channelID) (range taps).*1))
  end.

Definition senderTapID (senderID : string) r : string := tap_id (outputs r) senderID r.
Definition senderVideoTapID (senderID : string) r : string := tap_id (videoOutputs r) senderID r.

Definition slot_writer (kind : Kind) (senderID slot sub : string) r : option pubSlot :=
  tracks ← pubTracks r !! sub;
  t ← tracks !! senderID;
  slots kind t !! slot.

Definition audio_writers (senderID slot : string) r : list writer :=
  (WSlot <$> omap (λ sub, slot_writer KindAudio senderID slot sub r)
               (targetSubscribersLocked senderID r)) ++
  (if String.eqb slot SlotMic
   then match outputs r !! senderTapID senderID r with Some w => [WTap w] | None => [] end
   else []).

(** The successful writes: which writer put which packet on its track. *)
Definition write_all (ws : list writer) (pkt : rtpPacket) : list (writer * rtpPacket) :=
  (λ w, (w, written w pkt)) <$> filter (λ w, write_ok w = true) ws.

Definition ForwardRTP (senderID slot : string) (pkt : rtpPacket) r : list (writer * rtpPacket) :=
  write_all (audio_writers senderID slot r) pkt.

Definition layerFallback (pref : string) : list string :=
  if String.eqb pref "f" then ["f"; "h"; "q"]
  else if String.eqb pref "q" then ["q"; "h"; "f"]
  else ["h"; "q"; "f"].

Definition acceptLayerLocked (sub publisher slot rid : string) r : bool :=
  let src : gmap string Z := default ∅ (default ∅ (videoSources r !! publisher) !! slot) in
  if decide (src = ∅) then true
  else match src !! "" with
       | Some _ => true
       | None =>
           match filter (λ c, is_Some (src !! c)) (layerFallback (layerPrefLocked sub r)) with
           | candidate :: _ => String.eqb rid candidate
           | [] => true
           end
       end.

Definition video_writers (senderID slot rid : string) r : list writer :=
  (WSlot <$> omap (λ sub, slot_writer KindVideo senderID slot sub r)
               (filter (λ sub, acceptLayerLocked sub senderID slot rid r = true)
                  (targetSubscribersLocked senderID r))) ++
  (if String.eqb slot SlotCam
   then match videoOutputs r !! senderVideoTapID senderID r with
        | Some w => [WTap w] | None => [] end
   else []).

Definition ForwardVideo (senderID slot rid : string) (pkt : rtpPacket) r
  : list (writer * rtpPacket) :=
  write_all (video_writers senderID slot rid r) pkt.

(** ** Video sources and layers *)

Definition register_source (clientID slot rid : string) (ssrc : Z) r : Router :=
  upd_videoSources (λ m,
    let bySlot := default ∅ (m !! clientID) in
    let src := default ∅ (bySlot !! slot) in
    <[clientID := <[slot := <[rid := ssrc]> src]> bySlot]> m) r.

(** The deferred cleanup of [ReadVideoLoop]. *)
Definition unregister_source (clientID slot rid : string) (ssrc : Z) r : Router :=
  match videoSources r !! clientID with
  | None => r
  | Some bySlot =>
      let src := default ∅ (bySlot !! slot) in
      let bySlot := if default 0 (src !! rid) =? ssrc then
                      let src' := delete rid src in
                      if decide (src' = ∅) then delete slot bySlot else <[slot := src']> bySlot
                    else bySlot in
      if decide (bySlot = ∅) then upd_videoSources (delete clientID) r
      else upd_videoSources <[clientID := bySlot]> r
  end.

Definition qualityToRID (quality : string) : option string :=
  if String.eqb quality "high" then Some "f"
  else if String.eqb quality "mid" then Some "h"
  else if String.eqb quality "low" then Some "q"
  else None.

Definition SetVideoQuality (clientID quality : string) (clock : nat → Z) r
  : result string (Router * list effect) :=
  match qualityToRID quality with
  | None => Err quality
  | Some rid =>
      let r := upd_layerPrefs <[clientID := rid]> r in
      let publishers := match clientChan r !! clientID with
                        | Some channelID => videoPublishersLocked channelID clientID r
                        | None => []
                        end in
      Ok (request_keyframes publishers rid clock r)
  end.

(** The publisher that owns an SSRC: the last match of the nested loops. *)
Definition ssrc_owner (mediaSSRC : Z) r : string :=
  foldl (λ owner '(publisherID, bySlot),
    if bool_decide (Exists (λ src, mediaSSRC ∈ (range src).*2) (range bySlot).*2)
    then publisherID else owner) "" (range (videoSources r)).

Definition relayKeyframeRequest (mediaSSRC now : Z) r : Router * list effect :=
  let owner := ssrc_owner mediaSSRC r in
  match rtcpWriters r !! owner with
  | None => (r, [])
  | Some w =>
      if String.eqb owner "" then (r, [])
      else let '(r, allowed) := allowKeyframeRequest mediaSSRC now r in
           (r, if allowed then [EPLI w mediaSSRC] else [])
  end.

Definition ChannelStats r : list (Z * nat) :=
  (λ '(id, set), (id, size set)) <$> range (members r).

Definition Stats r : nat * nat * list (Z * nat) :=
  (size (members r), size (clientChan r), ChannelStats r).

End router.
