(* ===== verification/RouterSafety.v ===== *)
(** * The router's invariant

    Membership and the channel of a client are two views of one relation, output
    tracks belong to attached peers, every output track carries the label of its
    publisher and slot, and no two (subscriber, publisher, slot) triples share a
    track. All of it holds however the critical sections of the router's methods
    interleave and whichever track creations fail. *)

From S2P Require Import Prelude Router.

(** ** Pairs and output tracks *)

Definition pair_of (s p : string) (r : Router) : option pubTrack :=
  pubTracks r !! s ≫= (.!! p).

Definition out_of (s p : string) (k : Kind) (sl : string) (r : Router) : option pubSlot :=
  pair_of s p r ≫= λ t, slots k t !! sl.

(** Operations on output tracks leave every other field alone. *)
Definition retrack (pt : gmap string (gmap string pubTrack)) (n : nat) (r : Router) : Router :=
  upd_attempts (λ _, n) (upd_pubTracks (λ _, pt) r).

Definition tracks_only (r r' : Router) : Prop := r' = retrack (pubTracks r') (attempts r') r.

#[export] Instance tracks_only_preorder : PreOrder tracks_only.
Proof.
  split.
  - intros []. reflexivity.
  - intros r1 r2 r3 H1 H2. unfold tracks_only in *. rewrite H2, H1. reflexivity.
Qed.

(** What an output track of publisher [p] on slot [sl] must look like. *)
Record track_ok (p : string) (n : nat) (k : Kind) (sl : string) (ps : pubSlot) : Prop := {
  tk_slot : slotKinds sl = Some k;
  tk_kind : ps_kind ps = k;
  tk_track : ps_trackID ps = slotTrackID p sl;
  tk_stream : ps_streamID ps = slotStreamID p sl;
  tk_old : (ps_track ps < n)%nat;
}.

Definition pt_ok (p : string) (n : nat) (t : pubTrack) : Prop :=
  (∀ k sl ps, slots k t !! sl = Some ps → track_ok p n k sl ps) ∧
  (∀ k sl ps k' sl' ps', slots k t !! sl = Some ps → slots k' t !! sl' = Some ps' →
     ps_track ps = ps_track ps' → sl = sl').

(** The tracks of [t'] are those of [t] or created at attempts from [n] on. *)
Definition grown (n : nat) (t t' : pubTrack) : Prop :=
  ∀ k sl ps, slots k t' !! sl = Some ps → slots k t !! sl = Some ps ∨ (n ≤ ps_track ps)%nat.

Record outs_ok (r : Router) : Prop := {
  oo_pair s p t : pair_of s p r = Some t → pt_ok p (attempts r) t;
  oo_distinct s p k sl ps s' p' k' sl' ps' :
    out_of s p k sl r = Some ps → out_of s' p' k' sl' r = Some ps' →
    ps_track ps = ps_track ps' → s = s' ∧ p = p';
  oo_peer s p t : pair_of s p r = Some t → is_Some (pubPeers r !! s);
}.

(** ** Slots of one pair *)

Lemma slots_upd k k' f t :
  slots k (upd_slots k' f t) = if decide (k = k') then f (slots k t) else slots k t.
Proof. by destruct k, k'. Qed.

Lemma track_ok_weaken p n n' k sl ps : (n ≤ n')%nat → track_ok p n k sl ps → track_ok p n' k sl ps.
Proof. intros Hn []. split; [done..|lia]. Qed.

Lemma pt_ok_new p n : pt_ok p n newPubTrack.
Proof. split; intros []; simpl; intros ??; rewrite lookup_empty; done. Qed.

Lemma grown_trans n1 n2 t1 t2 t3 : (n1 ≤ n2)%nat → grown n1 t1 t2 → grown n2 t2 t3 → grown n1 t1 t3.
Proof. intros Hn H1 H2 k sl ps [Hps|Hps]%H2; [by apply H1|right; lia]. Qed.

Section slots.
Context (add_track : nat → bool).

Lemma addSlotLocked_ok p sl t n t' n' c :
  addSlotLocked add_track p sl t n = (t', n', c) → pt_ok p n t →
  (n ≤ n')%nat ∧ pt_ok p n' t' ∧ grown n t t'.
Proof.
  unfold addSlotLocked. intros He [Hok Hinj].
  assert (grown n t t) as Hg by (intros k s ps Hps; by left).
  assert (∀ m, (n ≤ m)%nat → pt_ok p m t) as Hweak.
  { intros m Hm. split; [|done]. intros k s ps Hps. eapply track_ok_weaken; eauto. }
  destruct (slotKinds sl) as [kd|] eqn:Hkd; [|simplify_eq; eauto].
  destruct (slots kd t !! sl) eqn:Hsl; [simplify_eq; eauto|].
  destruct (add_track n); simplify_eq; [|eauto with lia].
  split; [lia|]. split; [split|].
  - intros k s ps. rewrite slots_upd. case_decide as Hk; [subst k|by intros; eapply Hweak; eauto].
    rewrite lookup_insert_Some. intros [[<- <-]|[_ Hps]]; [by split; simpl; auto|].
    apply (track_ok_weaken _ n); eauto.
  - intros k s ps k' s' ps'. rewrite !slots_upd.
    repeat case_decide; subst; rewrite ?lookup_insert_Some; intros Hps Hps' Heq;
      destruct_or?; destruct_and?; subst; simpl in *; try done;
      try (eapply Hinj; [| |done]; eassumption);
      match goal with H : _ !! _ = Some _ |- _ => apply Hok, tk_old in H; lia end.
  - intros k s ps. rewrite slots_upd. case_decide; [subst k|by left].
    rewrite lookup_insert_Some. intros [[<- <-]|[_ Hps]]; simpl; auto.
Qed.

Lemma add_slots_ok p l t n t' n' c :
  add_slots add_track p l t n = (t', n', c) → pt_ok p n t →
  (n ≤ n')%nat ∧ pt_ok p n' t' ∧ grown n t t'.
Proof.
  revert t n t' n' c. induction l as [|sl l IH]; intros t n t' n' c; simpl.
  - intros ??. simplify_eq. split_and!; [done..|]. intros k s ps Hps. by left.
  - destruct (addSlotLocked add_track p sl t n) as [[t1 n1] c1] eqn:E1.
    destruct (add_slots add_track p l t1 n1) as [[t2 n2] c2] eqn:E2. intros ? Hok. simplify_eq.
    apply addSlotLocked_ok in E1 as (H1 & Hok1 & Hg1); [|done].
    apply IH in E2 as (H2 & Hok2 & Hg2); [|done].
    split_and!; [lia|done|]. by eapply grown_trans.
Qed.

Lemma removeSlotLocked_sub sl t k s ps :
  slots k (removeSlotLocked sl t).1 !! s = Some ps → slots k t !! s = Some ps.
Proof.
  unfold removeSlotLocked. destruct (slotKinds sl) as [kd|]; [|done].
  destruct (slots kd t !! sl); [|done]. simpl. rewrite slots_upd. case_decide; [|done].
  rewrite lookup_delete_Some. naive_solver.
Qed.

Lemma remove_slots_sub l t k s ps :
  slots k (remove_slots l t).1 !! s = Some ps → slots k t !! s = Some ps.
Proof.
  revert t. induction l as [|sl l IH]; intros t; simpl; [done|].
  destruct (removeSlotLocked sl t) as [t1 c1] eqn:E1.
  destruct (remove_slots l t1) as [t2 c2] eqn:E2. simpl. intros Hps.
  apply (removeSlotLocked_sub sl). rewrite E1. cbn [fst]. apply IH. by rewrite E2.
Qed.

Lemma pt_ok_sub p n t t' :
  (∀ k sl ps, slots k t' !! sl = Some ps → slots k t !! sl = Some ps) → pt_ok p n t → pt_ok p n t'.
Proof. intros Hsub [Hok Hinj]. split; eauto. Qed.

End slots.

(** ** Pairs after an update of [pubTracks] *)

Lemma pair_of_upd s p f r : pair_of s p (upd_pubTracks f r) = f (pubTracks r) !! s ≫= (.!! p).
Proof. done. Qed.

Lemma pair_of_insert (pt : gmap string (gmap string pubTrack)) s p t s' p' :
  <[s := <[p := t]> (default ∅ (pt !! s))]> pt !! s' ≫= (.!! p') =
  if decide (s' = s ∧ p' = p) then Some t else pt !! s' ≫= (.!! p').
Proof.
  destruct (decide (s = s')) as [<-|Hs].
  - rewrite lookup_insert_eq. simpl. destruct (decide (p = p')) as [<-|Hp].
    + rewrite lookup_insert_eq. by rewrite decide_True.
    + rewrite lookup_insert_ne, decide_False by naive_solver. by destruct (pt !! s).
  - rewrite lookup_insert_ne, decide_False by naive_solver. done.
Qed.

Lemma pair_of_drop (pt : gmap string (gmap string pubTrack)) s p s' p' :
  drop_pair s p pt !! s' ≫= (.!! p') =
  if decide (s' = s ∧ p' = p) then None else pt !! s' ≫= (.!! p').
Proof.
  unfold drop_pair. destruct (pt !! s) as [tr|] eqn:Hs.
  - case_decide as He.
    + destruct (decide (s = s')) as [<-|Hne].
      * rewrite lookup_delete_eq, Hs. simpl. case_decide as Hd; [done|].
        rewrite <- (lookup_delete_ne tr p p') by naive_solver. by rewrite He.
      * rewrite lookup_delete_ne, decide_False by naive_solver. done.
    + destruct (decide (s = s')) as [<-|Hne].
      * rewrite lookup_insert_eq, Hs. simpl. case_decide as Hd.
        -- destruct Hd as [_ ->]. apply lookup_delete_eq.
        -- apply lookup_delete_ne. naive_solver.
      * rewrite lookup_insert_ne, decide_False by naive_solver. done.
  - case_decide as Hd; [|done]. destruct Hd as [-> ->]. by rewrite Hs.
Qed.

Section pairs.
Context (add_track : nat → bool).
Context `{!∀ V, MapRange string V, !∀ V, MapRange Z V}.
Implicit Types r : Router.

Lemma addPublisherLocked_only s p r : tracks_only r (addPublisherLocked add_track s p r).1.
Proof.
  unfold addPublisherLocked. destruct (pubPeers r !! s) as [pc|]; [|reflexivity].
  destruct (add_slots _ _ _ _ _) as [[t n] c]. by case_match.
Qed.

Lemma removePublisherLocked_only s p r : tracks_only r (removePublisherLocked s p r).1.
Proof.
  unfold removePublisherLocked. repeat case_match; reflexivity.
Qed.

(** The pair [addPublisherLocked] leaves behind. *)
Definition added_pair (s p : string) r : option pubTrack :=
  match pubPeers r !! s with
  | None => pair_of s p r
  | Some _ =>
      let '(t, n, changed) :=
        add_slots add_track p (publisherSlotsLocked p r) (default newPubTrack (pair_of s p r))
          (attempts r) in
      match pair_of s p r with
      | Some _ => Some t
      | None => if changed then Some t else None
      end
  end.

Lemma default_pair s p r : default ∅ (pubTracks r !! s) !! p = pair_of s p r.
Proof. unfold pair_of. destruct (pubTracks r !! s); simpl; [done|apply lookup_empty]. Qed.

Lemma pair_of_add s p r s' p' :
  pair_of s' p' (addPublisherLocked add_track s p r).1 =
  if decide (s' = s ∧ p' = p) then added_pair s p r else pair_of s' p' r.
Proof.
  unfold addPublisherLocked, added_pair. destruct (pubPeers r !! s) as [pc|].
  2: { simpl. case_decide as Hd; [|done]. by destruct Hd as [-> ->]. }
  rewrite default_pair. destruct (add_slots _ _ _ _ _) as [[t n] c].
  destruct (pair_of s p r) as [t0|] eqn:Hp; simpl.
  - unfold pair_of. cbn [pubTracks upd_attempts upd_pubTracks]. by rewrite pair_of_insert.
  - unfold pair_of. destruct c; cbn [negb fst pubTracks upd_attempts upd_pubTracks].
    + by rewrite pair_of_insert.
    + rewrite pair_of_drop, pair_of_insert. by case_decide.
Qed.

Lemma pair_of_remove s p r s' p' :
  pair_of s' p' (removePublisherLocked s p r).1 =
  if decide (s' = s ∧ p' = p) then None else pair_of s' p' r.
Proof.
  unfold removePublisherLocked. destruct (pubTracks r !! s) as [tr|] eqn:Hs.
  - destruct (tr !! p) eqn:Hp; simpl.
    + apply pair_of_drop.
    + case_decide as Hd; [|done]. destruct Hd as [-> ->]. unfold pair_of. by rewrite Hs.
  - simpl. case_decide as Hd; [|done]. destruct Hd as [-> ->]. unfold pair_of. by rewrite Hs.
Qed.

End pairs.

(** ** The invariant *)

Record rinv (r : Router) : Prop := {
  ri_member ch c : c ∈ fam_get ch (members r) ↔ clientChan r !! c = Some ch;
  ri_wf : fam_wf (members r);
  ri_outs : outs_ok r;
}.

(** The fields [rinv] reads. *)
Definition same_core (r r' : Router) : Prop :=
  members r' = members r ∧ clientChan r' = clientChan r ∧ pubTracks r' = pubTracks r ∧
  pubPeers r' = pubPeers r ∧ attempts r' = attempts r.

Lemma pair_of_core s p r r' : pubTracks r' = pubTracks r → pair_of s p r' = pair_of s p r.
Proof. unfold pair_of. by intros ->. Qed.

Lemma out_of_core s p k sl r r' : pubTracks r' = pubTracks r → out_of s p k sl r' = out_of s p k sl r.
Proof. unfold out_of. intros H. by rewrite (pair_of_core _ _ _ _ H). Qed.

Lemma rinv_core r r' : same_core r r' → rinv r → rinv r'.
Proof.
  intros (Hm & Hc & Ht & Hp & Hn) [Hmem Hwf [H1 H2 H3]]. split; [by rewrite Hm, Hc|by rewrite Hm|].
  split.
  - intros s p t. rewrite (pair_of_core _ _ _ _ Ht), Hn. apply H1.
  - intros s p k sl ps s' p' k' sl' ps'. rewrite !(out_of_core _ _ _ _ _ _ Ht). apply H2.
  - intros s p t. rewrite (pair_of_core _ _ _ _ Ht), Hp. apply H3.
Qed.

Lemma rinv_new : rinv NewRouter.
Proof.
  split; [|apply fam_wf_empty|].
  - intros ch c. unfold fam_get. simpl. rewrite !lookup_empty. simpl. set_solver.
  - split; unfold out_of, pair_of; simpl; setoid_rewrite lookup_empty; done.
Qed.

Lemma tracks_only_same r r' : tracks_only r r' →
  members r' = members r ∧ clientChan r' = clientChan r ∧ pubPeers r' = pubPeers r ∧
  trackSlots r' = trackSlots r ∧ echoChannel r' = echoChannel r ∧
  whispers r' = whispers r ∧ whisperPairs r' = whisperPairs r.
Proof. unfold tracks_only. intros H. by rewrite H. Qed.

Lemma out_of_slots s p k sl r ps :
  out_of s p k sl r = Some ps ↔ slots k (default newPubTrack (pair_of s p r)) !! sl = Some ps.
Proof.
  unfold out_of. destruct (pair_of s p r); simpl; [done|].
  destruct k; simpl; by rewrite lookup_empty.
Qed.

(** Replacing the tracks of one pair. *)
Lemma outs_ok_set r r' s p t' :
  outs_ok r → pt_ok p (attempts r') t' →
  grown (attempts r) (default newPubTrack (pair_of s p r)) t' →
  (attempts r ≤ attempts r')%nat → pubPeers r' = pubPeers r → is_Some (pubPeers r !! s) →
  (∀ s1 p1 t1, pair_of s1 p1 r' = Some t1 →
     (s1 = s ∧ p1 = p ∧ t1 = t') ∨ (pair_of s1 p1 r = Some t1 ∧ ¬ (s1 = s ∧ p1 = p))) →
  outs_ok r'.
Proof.
  intros [H1 H2 H3] Hok Hg Hn Hpeers Hs Hpairs.
  assert (∀ s1 p1 k sl ps, out_of s1 p1 k sl r' = Some ps →
    (s1 = s ∧ p1 = p ∧ (attempts r ≤ ps_track ps)%nat) ∨
    out_of s1 p1 k sl r = Some ps) as Hout.
  { intros s1 p1 k sl ps. unfold out_of at 1. destruct (pair_of s1 p1 r') as [t1|] eqn:E; [|done].
    simpl. intros Hps. apply Hpairs in E as [(-> & -> & ->)|[E _]].
    - destruct (Hg _ _ _ Hps) as [Hin|Hin]; [right; by apply out_of_slots|by left].
    - right. unfold out_of. by rewrite E. }
  assert (∀ s1 p1 k sl ps, out_of s1 p1 k sl r = Some ps → (ps_track ps < attempts r)%nat) as Hold.
  { intros s1 p1 k sl ps. unfold out_of. destruct (pair_of s1 p1 r) as [t1|] eqn:E; [|done].
    simpl. intros Hps. destruct (H1 _ _ _ E) as [Hok' _]. by apply Hok', tk_old in Hps. }
  split.
  - intros s1 p1 t1 [(-> & -> & ->)|[E _]]%Hpairs; [done|].
    destruct (H1 _ _ _ E) as [Ha Hb]. split; [|done]. intros. eapply track_ok_weaken; eauto.
  - intros s1 p1 k sl ps s2 p2 k2 sl2 ps2 Ho1 Ho2 Heq.
    destruct (Hout _ _ _ _ _ Ho1) as [(-> & -> & ?)|?], (Hout _ _ _ _ _ Ho2) as [(-> & -> & ?)|?];
      [done| | |eapply H2; eauto];
      match goal with H : out_of _ _ _ _ r = Some _ |- _ => apply Hold in H; lia end.
  - intros s1 p1 t1 [(-> & -> & ->)|[E _]]%Hpairs; rewrite Hpeers; [done|eauto].
Qed.

Section invariant.
Context (add_track : nat → bool).
Context `{!∀ V, MapRange string V, !∀ V, MapRange Z V}.
Implicit Types r : Router.

Lemma rinv_tracks r r' : tracks_only r r' → outs_ok r' → rinv r → rinv r'.
Proof.
  intros (Hm & Hc & _)%tracks_only_same Ho [H1 H2 _]. split; [by rewrite Hm, Hc|by rewrite Hm|done].
Qed.

Lemma addPublisherLocked_attempts s p r :
  (attempts r ≤ attempts (addPublisherLocked add_track s p r).1)%nat ∧
  ∀ t, pair_of s p (addPublisherLocked add_track s p r).1 = Some t → outs_ok r →
    pt_ok p (attempts (addPublisherLocked add_track s p r).1) t ∧
    grown (attempts r) (default newPubTrack (pair_of s p r)) t.
Proof.
  rewrite pair_of_add, decide_True by done. unfold addPublisherLocked, added_pair.
  destruct (pubPeers r !! s) as [pc|].
  2: { simpl. split; [done|]. intros t Ht Ho. rewrite Ht. split; [by eapply oo_pair|].
       intros k sl ps. by left. }
  rewrite default_pair. destruct (add_slots _ _ _ _ _) as [[t n] c] eqn:E.
  assert (outs_ok r → (attempts r ≤ n)%nat ∧ pt_ok p n t ∧
    grown (attempts r) (default newPubTrack (pair_of s p r)) t) as Hok.
  { intros Ho. eapply add_slots_ok; [done|]. destruct (pair_of s p r) eqn:Hp; simpl.
    - by eapply oo_pair.
    - apply pt_ok_new. }
  assert ((attempts r ≤ n)%nat) as Hn.
  { clear Hok. revert E. generalize (publisherSlotsLocked p r), (default newPubTrack (pair_of s p r)).
    intros l t0. generalize (attempts r). revert t0 t n c.
    induction l as [|sl l IH]; intros t0 t n c m; simpl; [by intros; simplify_eq|].
    destruct (addSlotLocked add_track p sl t0 m) as [[t1 n1] c1] eqn:E1.
    destruct (add_slots add_track p l t1 n1) as [[t2 n2] c2] eqn:E2. intros. simplify_eq.
    apply IH in E2. enough (m ≤ n1)%nat by lia. clear -E1. unfold addSlotLocked in E1.
    repeat case_match; simplify_eq; lia. }
  case_match; simpl; (split; [done|]); intros t' Ht' Ho;
    destruct (pair_of s p r); try destruct c; simplify_eq; by apply Hok.
Qed.

Lemma rinv_add s p r : rinv r → rinv (addPublisherLocked add_track s p r).1.
Proof.
  intros Hr. pose proof (addPublisherLocked_only add_track s p r) as Ho.
  apply (rinv_tracks r); [done| |done].
  destruct (addPublisherLocked_attempts s p r) as [Hn Hpt].
  pose proof (tracks_only_same _ _ Ho) as (_ & _ & Hpeers & _).
  destruct (pubPeers r !! s) as [pc|] eqn:Hs.
  2: { unfold addPublisherLocked. rewrite Hs. apply Hr. }
  destruct (pair_of s p (addPublisherLocked add_track s p r).1) as [t|] eqn:Ht.
  - destruct (Hpt t) as [Hok Hg]; [done|apply Hr|].
    apply (outs_ok_set r _ s p t); eauto; [apply Hr|]. intros s1 p1 t1.
    destruct (decide (s1 = s ∧ p1 = p)) as [[-> ->]|Hne].
    + rewrite Ht. intros [= ->]. by left.
    + rewrite pair_of_add, decide_False by done. by right.
  - apply (outs_ok_set r _ s p (default newPubTrack (pair_of s p r))); eauto; [apply Hr| | |].
    + destruct (pair_of s p r) eqn:E; simpl; [|apply pt_ok_new].
      destruct (oo_pair r (ri_outs r Hr) _ _ _ E) as [Ha Hb]. split; [|done]. intros.
      eapply track_ok_weaken; eauto.
    + intros k sl ps. by left.
    + intros s1 p1 t1. destruct (decide (s1 = s ∧ p1 = p)) as [[-> ->]|Hne].
      * by rewrite Ht.
      * rewrite pair_of_add, decide_False by done. by right.
Qed.

(** Dropping pairs. *)
Lemma outs_ok_sub r r' :
  (∀ s p t, pair_of s p r' = Some t → pair_of s p r = Some t) →
  attempts r' = attempts r →
  (∀ s p t, pair_of s p r' = Some t → is_Some (pubPeers r !! s) → is_Some (pubPeers r' !! s)) →
  outs_ok r → outs_ok r'.
Proof.
  intros Hsub Hn Hp [H1 H2 H3].
  assert (∀ s p k sl ps, out_of s p k sl r' = Some ps → out_of s p k sl r = Some ps) as Hout.
  { intros s p k sl ps. unfold out_of. destruct (pair_of s p r') eqn:E; [|done].
    by rewrite (Hsub _ _ _ E). }
  split; [rewrite Hn; eauto|eauto|eauto].
Qed.

Lemma rinv_remove s p r : rinv r → rinv (removePublisherLocked s p r).1.
Proof.
  intros Hr. apply (rinv_tracks r); [apply removePublisherLocked_only| |done].
  pose proof (tracks_only_same _ _ (removePublisherLocked_only s p r)) as (_ & _ & Hpeers & _).
  apply (outs_ok_sub r); [| |by rewrite Hpeers|apply Hr].
  - intros s' p' t. rewrite pair_of_remove. by case_decide.
  - unfold removePublisherLocked. by repeat case_match.
Qed.

(** A loop over the other members of a channel. *)
Lemma for_others_ind (P : Router → Prop) f c l st :
  P st.1 → (∀ other st, other ∈ l → other ≠ c → P st.1 → P (f other st).1) →
  P (for_others f c l st).1.
Proof.
  intros Hst Hf. revert st Hst. induction l as [|x l IH]; intros st Hst; [done|].
  unfold for_others. simpl. apply IH.
  - intros other st' Hin. apply Hf. by right.
  - case_decide; [done|]. apply Hf; [left|..]; done.
Qed.

Lemma add_both_fst c o st :
  (add_both add_track c o st).1 =
  (addPublisherLocked add_track o c (addPublisherLocked add_track c o st.1).1).1.
Proof. by destruct st. Qed.

Lemma remove_both_fst c o st :
  (remove_both c o st).1 = (removePublisherLocked o c (removePublisherLocked c o st.1).1).1.
Proof. by destruct st. Qed.

Lemma add_all_ind (P : Router → Prop) ch c r :
  (∀ r s p, P r → P (addPublisherLocked add_track s p r).1) → P r → P (add_all add_track ch c r).1.
Proof.
  intros Ha Hr. unfold add_all.
  assert (P (for_others (add_both add_track c) c (range_set (fam_get ch (members r))) (r, ∅)).1) as H1.
  { apply for_others_ind; [done|]. intros o st _ _ Hst. rewrite add_both_fst. eauto. }
  destruct (for_others _ _ _ _) as [r1 set]. unfold echo_pair. case_match; simpl; eauto.
Qed.

Lemma removePairs_ind (P : Router → Prop) ch c r :
  (∀ r s p, P r → P (removePublisherLocked s p r).1) → P r → P (removePairsLocked ch c r).1.
Proof.
  intros Ha Hr. unfold removePairsLocked.
  assert (P (for_others (remove_both c) c (range_set (fam_get ch (members r))) (r, ∅)).1) as H1.
  { apply for_others_ind; [done|]. intros o st _ _ Hst. rewrite remove_both_fst. eauto. }
  destruct (for_others _ _ _ _) as [r1 set]. simpl. eauto.
Qed.

Lemma add_all_only ch c r : tracks_only r (add_all add_track ch c r).1.
Proof.
  apply add_all_ind; [|done]. intros r' s p Hr'. etrans; [done|apply addPublisherLocked_only].
Qed.

Lemma removePairs_only ch c r : tracks_only r (removePairsLocked ch c r).1.
Proof.
  apply removePairs_ind; [|done]. intros r' s p Hr'. etrans; [done|apply removePublisherLocked_only].
Qed.

Lemma rinv_leave ch c r : rinv r → rinv (leaveChannelLocked ch c r).
Proof.
  intros [Hm Hwf Ho]. unfold leaveChannelLocked. cbn [clientChan upd_members].
  assert (clientChan r !! c = Some ch ∨
    (clientChan r !! c ≠ Some ch ∧ ∀ j b, b ∈ fam_get j (fam_del ch c (members r)) ↔ b ∈ fam_get j (members r)))
    as [Hc|[Hc Hd]].
  { destruct (decide (clientChan r !! c = Some ch)) as [|Hn]; [by left|right]. split; [done|].
    intros j b. rewrite elem_of_fam_del. split; [tauto|]. intros Hb. split; [done|].
    intros [-> ->]. by apply Hn, Hm. }
  - rewrite Hc. simpl. rewrite Z.eqb_refl. split; [|by apply fam_wf_del|].
    + intros j b. cbn [members clientChan upd_members upd_clientChan].
      rewrite elem_of_fam_del, Hm. rewrite lookup_delete_Some.
      split; [|naive_solver]. intros [Hb Hn]. split; [|done]. intros ->. apply Hn. split; congruence.
    + apply (outs_ok_sub r); by eauto.
  - assert (rinv (upd_members (fam_del ch c) r)) as Hr'.
    { split; [|by apply fam_wf_del|apply (outs_ok_sub r); by eauto].
      intros j b. cbn [members clientChan upd_members]. by rewrite Hd, Hm. }
    case_match; [|done]. bools.
    destruct (clientChan r !! c) as [x|] eqn:E; simpl in *; [congruence|].
    destruct Hr' as [Hm' Hwf' Ho'].
    split; [|done|apply (outs_ok_sub (upd_members (fam_del ch c) r)); by eauto].
    intros j b. cbn [members clientChan upd_members upd_clientChan] in *. rewrite Hm'.
    rewrite delete_id; done.
Qed.

Lemma leave_clientChan ch c r x :
  clientChan (leaveChannelLocked ch c r) !! x =
  if decide (x = c ∧ clientChan r !! c = Some ch) then None else clientChan r !! x.
Proof.
  unfold leaveChannelLocked. cbn [clientChan upd_members].
  destruct (default 0 (clientChan r !! c) =? ch) eqn:E; bools;
    cbn [clientChan upd_members upd_clientChan].
  - destruct (decide (x = c)) as [->|Hx].
    + rewrite lookup_delete_eq. destruct (clientChan r !! c) eqn:Ec; simpl in *; subst;
        case_decide; naive_solver.
    + rewrite lookup_delete_ne, decide_False by naive_solver. done.
  - rewrite decide_False; [done|]. intros [-> Hc]. rewrite Hc in E. done.
Qed.

Lemma rinv_enter ch c r :
  rinv r → clientChan r !! c = None ∨ clientChan r !! c = Some ch →
  rinv (upd_clientChan <[c := ch]> (upd_members (fam_add ch c) r)).
Proof.
  intros [Hm Hwf Ho] Hc. split; [|by apply fam_wf_add|apply (outs_ok_sub r); by eauto].
  intros j b. cbn [members clientChan upd_members upd_clientChan].
  rewrite elem_of_fam_add, Hm, lookup_insert_Some. destruct (decide (c = b)); naive_solver.
Qed.

End invariant.

(** ** Every interleaving of critical sections *)

Section steps.
Context (add_track : nat → bool).
Context `{!∀ V, MapRange string V, !∀ V, MapRange Z V}.
Implicit Types r : Router.

(** One critical section of the router's mutex. [st_remove] is a turn of the
    second loop of [detachPeer], which takes the mutex anew for each subscriber,
    [st_keyframe] the section of a keyframe request. *)
Inductive rstep : Router → Router → Prop :=
| st_join ch c r : rstep r (join_locked add_track ch c r).1
| st_leave ch c r : rstep r (LeaveChannel ch c r).1
| st_ensure ch c r : clientChan r !! c = Some ch → rstep r (add_all add_track ch c r).1
| st_slots p d r : rstep r (SetTrackSlots add_track p d r).1
| st_whisper c cs chs a r : rstep r (SetWhisper add_track c cs chs a r).1
| st_attach c pc r : rstep r (AttachPeer c pc r)
| st_detach c b r : rstep r (detach_locked c b r).1
| st_remove s p r : rstep r (removePublisherLocked s p r).1
| st_keyframe ssrc now r : rstep r (allowKeyframeRequest ssrc now r).1
| st_claim c key r : rstep r (claimSlot c key r).1
| st_release c key tok r : rstep r (releaseSlot c key tok r)
| st_register c sl rid ssrc r : rstep r (register_source c sl rid ssrc r)
| st_unregister c sl rid ssrc r : rstep r (unregister_source c sl rid ssrc r)
| st_quality c rid r : rstep r (upd_layerPrefs <[c := rid]> r)
| st_output c w r : rstep r (AddOutput c w r)
| st_remove_output c r : rstep r (RemoveOutput c r)
| st_video_output c w r : rstep r (addVideoOutput c w r)
| st_handlers g b r : rstep r (SetHandlers g b r)
| st_video_handlers g r : rstep r (SetVideoHandlers g r)
| st_echo ch r : rstep r (SetEchoChannel ch r)
| st_audio f r : rstep r (SetChannelAudioLookup f r)
| st_observer b r : rstep r (SetForwardObserver b r)
| st_hook b r : rstep r (SetRenegotiateHook b r).

Lemma foldl_ind {A B} (P : A → Prop) (f : A → B → A) (l : list B) (a : A) :
  P a → (∀ x b, b ∈ l → P x → P (f x b)) → P (foldl f a l).
Proof.
  revert a. induction l as [|b l IH]; intros a Ha Hf; simpl; [done|].
  apply IH; [apply Hf; [left|done]|]. intros x y Hy. apply Hf. by right.
Qed.

Lemma rinv_add_all ch c r : rinv r → rinv (add_all add_track ch c r).1.
Proof. intros Hr. apply add_all_ind; [|done]. intros. by apply rinv_add. Qed.

Lemma rinv_removePairs ch c r : rinv r → rinv (removePairsLocked ch c r).1.
Proof. intros Hr. apply removePairs_ind; [|done]. intros. by apply rinv_remove. Qed.

(** The state [join_locked] adds the output tracks to. *)
Definition moved (ch : Z) (c : string) r : Router :=
  let r := match clientChan r !! c with
           | Some prev =>
               if decide (prev = ch) then r
               else (removePairsLocked prev c (leaveChannelLocked prev c r)).1
           | None => r
           end in
  upd_clientChan <[c := ch]> (upd_members (fam_add ch c) r).

Lemma join_locked_moved ch c r : join_locked add_track ch c r = add_all add_track ch c (moved ch c r).
Proof. done. Qed.

Lemma rinv_moved ch c r : rinv r → rinv (moved ch c r).
Proof.
  intros Hr. unfold moved. destruct (clientChan r !! c) as [prev|] eqn:Hc;
    [|apply rinv_enter; auto]. case_decide as Hp; [subst; apply rinv_enter; auto|].
  apply rinv_enter; [by apply rinv_removePairs, rinv_leave|left].
  pose proof (tracks_only_same _ _ (removePairs_only prev c (leaveChannelLocked prev c r)))
    as (_ & Heq & _). by rewrite Heq, leave_clientChan, decide_True.
Qed.

Lemma rinv_join ch c r : rinv r → rinv (join_locked add_track ch c r).1.
Proof. intros Hr. rewrite join_locked_moved. by apply rinv_add_all, rinv_moved. Qed.

Lemma LeaveChannel_fst ch c r :
  (LeaveChannel ch c r).1 = (removePairsLocked ch c (leaveChannelLocked ch c r)).1.
Proof. unfold LeaveChannel. by destruct (removePairsLocked _ _ _). Qed.

Lemma sync_slots_only p a d s st :
  tracks_only st.1 (sync_slots add_track p a d s st).1.
Proof.
  destruct st as [r set]. unfold sync_slots.
  destruct (pubTracks r !! s) as [tr|]; [|reflexivity]. destruct (tr !! p); [|reflexivity].
  destruct (match pubPeers r !! s with Some _ => _ | None => _ end) as [[t n] ca].
  by destruct (remove_slots d t).
Qed.

(** The tracks of one subscriber after [sync_slots]. *)
Lemma pair_of_sync p a d s st s' p' :
  pair_of s' p' (sync_slots add_track p a d s st).1 =
  if decide (s' = s ∧ p' = p) then
    match pair_of s p st.1 with
    | None => None
    | Some t => Some (remove_slots d (match pubPeers st.1 !! s with
                                      | Some _ => (add_slots add_track p a t (attempts st.1)).1.1
                                      | None => t end)).1
    end
  else pair_of s' p' st.1.
Proof.
  destruct st as [r set]. unfold sync_slots. cbn [fst].
  destruct (pubTracks r !! s) as [tr|] eqn:Hs.
  2: { cbn [fst]. case_decide as Hd; [|done]. destruct Hd as [-> ->]. unfold pair_of. by rewrite Hs. }
  assert (pair_of s p r = tr !! p) as Hp by (unfold pair_of; by rewrite Hs).
  rewrite Hp. destruct (tr !! p) as [t0|] eqn:Ht.
  2: { cbn [fst]. case_decide as Hd; [|done]. destruct Hd as [-> ->]. congruence. }
  assert (tr = default ∅ (pubTracks r !! s)) as Htr by (by rewrite Hs).
  destruct (pubPeers r !! s) as [pc|]; [destruct (add_slots _ _ _ _ _) as [[t n] ca]|];
    destruct (remove_slots d _) as [t' cd] eqn:E; cbn [fst]; unfold pair_of;
    cbn [pubTracks upd_attempts upd_pubTracks]; rewrite Htr, pair_of_insert; cbn [fst]; rewrite ?E; done.
Qed.

Lemma rinv_sync p a d s st : rinv st.1 → rinv (sync_slots add_track p a d s st).1.
Proof.
  intros Hr. pose proof (sync_slots_only p a d s st) as Ho.
  apply (rinv_tracks st.1); [done| |done].
  pose proof (tracks_only_same _ _ Ho) as (_ & _ & Hpeers & _).
  pose proof (pair_of_sync p a d s st) as Hpair. revert Ho Hpeers Hpair.
  destruct st as [r set]. unfold sync_slots. cbn [fst] in *.
  destruct (pubTracks r !! s) as [tr|] eqn:Hs; [|intros; apply Hr].
  assert (pair_of s p r = tr !! p) as Hp by (unfold pair_of; by rewrite Hs).
  rewrite Hp. destruct (tr !! p) as [t0|] eqn:Ht; [|intros; apply Hr].
  destruct (oo_peer r (ri_outs r Hr) s p t0) as [pc Hpc]; [congruence|]. rewrite Hpc.
  destruct (add_slots _ _ _ _ _) as [[t n] ca] eqn:E. destruct (remove_slots d t) as [t' cd] eqn:E'.
  cbn [fst]. intros Ho Hpeers Hpair.
  apply add_slots_ok in E as (Hn & Hok & Hg); [|apply (oo_pair r (ri_outs r Hr) s); congruence].
  assert (∀ k sl ps, slots k t' !! sl = Some ps → slots k t !! sl = Some ps) as Hsub.
  { intros k sl ps Hps. apply (remove_slots_sub d). by rewrite E'. }
  apply (outs_ok_set r _ s p t'); [apply Hr| | |done|done|by eauto|].
  - cbn [attempts upd_attempts upd_pubTracks]. by eapply pt_ok_sub.
  - rewrite Hp. simpl. intros k sl ps Hps. by apply Hg, Hsub.
  - intros s1 p1 t1. rewrite Hpair. case_decide as Hd; [|by right].
    destruct Hd as [-> ->]. rewrite E'. cbn [fst]. intros [= <-]. by left.
Qed.

(** [SetTrackSlots] records the declaration and syncs every subscriber. *)
Definition declare (p : string) (d : gmap string string) r : Router :=
  upd_trackSlots (λ m, if decide (filter (λ kv, is_Some (slotKinds kv.2)) d = ∅) then delete p m
                       else <[p := filter (λ kv, is_Some (slotKinds kv.2)) d]> m) r.

Lemma SetTrackSlots_ind (P : Router → Prop) p d r :
  P (declare p d r) →
  (∀ st s, P st.1 → P (sync_slots add_track p
     (slotDiff (publisherSlotsLocked p r) (publisherSlotsLocked p (declare p d r))).1
     (slotDiff (publisherSlotsLocked p r) (publisherSlotsLocked p (declare p d r))).2 s st).1) →
  P (SetTrackSlots add_track p d r).1.
Proof.
  intros Hd Hs. unfold SetTrackSlots. fold (declare p d r).
  destruct (slotDiff _ _) as [a dd] eqn:E. cbn [fst snd] in Hs.
  assert (P (match a, dd with [], [] => (declare p d r, (∅ : gset string))
    | _, _ => foldl (λ st sub, sync_slots add_track p a dd sub st) (declare p d r, ∅)
                (range (pubTracks (declare p d r))).*1 end).1) as HP.
  { destruct a, dd; [done|..]; apply (foldl_ind (λ st, P st.1)); eauto. }
  by destruct (match a, dd with [], [] => _ | _, _ => _ end) as [r1 set].
Qed.

Lemma rinv_SetTrackSlots p d r : rinv r → rinv (SetTrackSlots add_track p d r).1.
Proof.
  intros Hr. apply SetTrackSlots_ind; [|intros; by apply rinv_sync]. by apply (rinv_core r).
Qed.

Lemma whisper_add_inv c s st : rinv st.1 → rinv (whisper_add add_track c s st).1.
Proof.
  destruct st as [r set]. intros Hr. unfold whisper_add.
  pose proof (rinv_add add_track s c r Hr) as Hr'.
  destruct (addPublisherLocked add_track s c r) as [r1 b]. cbn [fst] in *.
  destruct b; [|done]. by apply (rinv_core r1).
Qed.

Lemma whisper_drop_inv c keep s st : rinv st.1 → rinv (whisper_drop c keep s st).1.
Proof.
  destruct st as [r set]. intros Hr. unfold whisper_drop. case_decide; [done|].
  assert (rinv (upd_whisperPairs (λ m, <[c:=fam_get c m ∖ {[s]}]> m) r)) as Hr'
    by by apply (rinv_core r).
  case_match; [done|]. by apply rinv_remove.
Qed.

(** [SetWhisper] records the configuration, adds pairs, then drops pairs. *)
Lemma SetWhisper_ind (P : Router → Prop) c cs chs a r :
  P (upd_whispers <[c := {| w_active := a; w_clients := list_to_set cs;
                            w_channels := list_to_set chs |}]> r) →
  (∀ st s, P st.1 → P (whisper_add add_track c s st).1) →
  (∀ keep st s, P st.1 → P (whisper_drop c keep s st).1) →
  (∀ r, P r → P (upd_whisperPairs (delete c) r)) →
  P (SetWhisper add_track c cs chs a r).1.
Proof.
  intros Hr Ha Hd Hf. unfold SetWhisper. set (cfg := Build_whisperConfig _ _ _) in *.
  set (r0 := upd_whispers <[c := cfg]> r) in *.
  assert (P ((if a then foldl (λ st sub, whisper_add add_track c sub st) (r0, ∅)
                       (range_set (whisperTargetsLocked c cfg r0)) else (r0, ∅)).1)) as H1'.
  { destruct a; [|done]. apply (foldl_ind (λ st, P st.1)); eauto. }
  destruct (if a then _ else _) as [r1 set]. cbn [fst] in H1'.
  destruct (whispers r !! c) as [old|]; [|done]. destruct (w_active old); [|done].
  assert (P (foldl (λ st sub, whisper_drop c (if a then whisperTargetsLocked c cfg r1 else ∅) sub st)
    (r1, set) (range_set (whisperTargetsLocked c old r1))).1) as H2'.
  { apply (foldl_ind (λ st, P st.1)); eauto. }
  destruct (foldl _ _ _) as [r2 set2]. cbn [fst] in *. case_decide; eauto.
Qed.

Lemma rinv_SetWhisper c cs chs a r : rinv r → rinv (SetWhisper add_track c cs chs a r).1.
Proof.
  intros Hr. apply SetWhisper_ind.
  - by apply (rinv_core r).
  - intros. by apply whisper_add_inv.
  - intros. by apply whisper_drop_inv.
  - intros r' Hr'. by apply (rinv_core r').
Qed.

Lemma rinv_attach c pc r : rinv r → rinv (AttachPeer c pc r).
Proof.
  intros [Hm Hwf Ho]. split; [done..|]. apply (outs_ok_sub r); [done..| |done].
  intros s p t _ Hs. cbn [pubPeers AttachPeer upd_rtcpWriters upd_pubPeers].
  destruct (decide (c = s)) as [->|]; [rewrite lookup_insert_eq|rewrite lookup_insert_ne]; eauto.
Qed.

Lemma detach_pair c b r s p :
  pair_of s p (detach_locked c b r).1 = if decide (s = c) then None else pair_of s p r.
Proof.
  unfold detach_locked, pair_of. destruct b; cbn [fst pubTracks upd_pubTracks];
    (case_decide; [subst; by rewrite lookup_delete_eq|by rewrite lookup_delete_ne]).
Qed.

Lemma rinv_detach c b r : rinv r → rinv (detach_locked c b r).1.
Proof.
  intros [Hm Hwf Ho]. split; [by destruct b..|]. apply (outs_ok_sub r); [|by destruct b| |done].
  - intros s p t. rewrite detach_pair. by case_decide.
  - intros s p t. rewrite detach_pair. case_decide as Hs; [done|]. intros _.
    replace (pubPeers (detach_locked c b r).1) with (delete c (pubPeers r)) by by destruct b.
    by rewrite lookup_delete_ne.
Qed.

Lemma releaseSlot_core c key tok r : same_core r (releaseSlot c key tok r).
Proof. unfold releaseSlot. by repeat case_match. Qed.

Lemma unregister_core c sl rid ssrc r : same_core r (unregister_source c sl rid ssrc r).
Proof. unfold unregister_source. destruct (videoSources r !! c); [|done]. by case_decide. Qed.

Lemma claimSlot_core c key r : same_core r (claimSlot c key r).1.
Proof. unfold claimSlot. by case_match. Qed.

Lemma keyframe_core ssrc now r : same_core r (allowKeyframeRequest ssrc now r).1.
Proof. unfold allowKeyframeRequest. by case_match. Qed.

Lemma rinv_step r r' : rinv r → rstep r r' → rinv r'.
Proof.
  intros Hr Hstep. destruct Hstep; try (apply (rinv_core r); by auto).
  - by apply rinv_join.
  - rewrite LeaveChannel_fst. by apply rinv_removePairs, rinv_leave.
  - by apply rinv_add_all.
  - by apply rinv_SetTrackSlots.
  - by apply rinv_SetWhisper.
  - by apply rinv_attach.
  - by apply rinv_detach.
  - by apply rinv_remove.
  - apply (rinv_core r); [apply keyframe_core|done].
  - apply (rinv_core r); [apply claimSlot_core|done].
  - apply (rinv_core r); [apply releaseSlot_core|done].
  - apply (rinv_core r); [apply unregister_core|done].
Qed.

Lemma reachable_rinv r : rtc rstep NewRouter r → rinv r.
Proof. apply (rtc_invariant rstep rinv); [apply rinv_step|apply rinv_new]. Qed.

(** ** The methods are sequences of critical sections *)

Lemma RequestKeyframe_steps p sl rid now r : rtc rstep r (RequestKeyframe p sl rid now r).1.
Proof.
  unfold RequestKeyframe. case_match; [|done]. case_match; [done|].
  pose proof (st_keyframe (source_ssrc p sl rid r) now r) as Hs.
  destruct (allowKeyframeRequest _ now r). by apply rtc_once.
Qed.

Lemma request_keyframes_steps refs rid clock r : rtc rstep r (request_keyframes refs rid clock r).1.
Proof.
  revert clock r. induction refs as [|ref refs IH]; intros clock r; simpl; [done|].
  pose proof (RequestKeyframe_steps (vs_publisher ref) (vs_slot ref) rid (clock 0%nat) r) as Hs.
  destruct (RequestKeyframe _ _ _ _ r) as [r1 e].
  pose proof (IH (λ i, clock (S i)) r1) as Hs'. destruct (request_keyframes _ _ _ r1).
  by etrans.
Qed.

Lemma JoinChannel_steps ch c clock r : rtc rstep r (JoinChannel add_track ch c clock r).1.
Proof.
  unfold JoinChannel. pose proof (st_join ch c r) as Hs. destruct (join_locked _ _ _ r) as [r1 set].
  pose proof (request_keyframes_steps (videoPublishersLocked ch c r1) (layerPrefLocked c r1) clock r1)
    as Hs'. destruct (request_keyframes _ _ _ r1). by eapply rtc_l.
Qed.

Lemma EnsurePublishers_steps c clock r : rtc rstep r (EnsurePublishers add_track c clock r).1.
Proof.
  unfold EnsurePublishers. destruct (clientChan r !! c) as [ch|] eqn:Hc; [|done].
  pose proof (st_ensure ch c r Hc) as Hs. destruct (add_all _ _ _ r) as [r1 set].
  pose proof (request_keyframes_steps (videoPublishersLocked ch c r1) (layerPrefLocked c r1) clock r1)
    as Hs'. destruct (request_keyframes _ _ _ r1). by eapply rtc_l.
Qed.

Lemma detachPeer_steps c b r : rtc rstep r (detachPeer c b r).1.
Proof.
  unfold detachPeer. pose proof (st_detach c b r) as Hs. destruct (detach_locked c b r) as [r1 subs].
  cbn [fst] in Hs.
  assert (rtc rstep r1 (foldl (λ r0 sub, (removePublisherLocked sub c r0).1) r1 subs)) as Hs'.
  { apply (foldl_ind (λ x, rtc rstep r1 x)); [done|]. intros x s _ Hx.
    eapply rtc_r; [done|apply st_remove]. }
  set (r2 := foldl _ r1 subs) in *.
  destruct (clientChan r1 !! c) as [ch|]; [|by eapply rtc_l].
  destruct b; [|by eapply rtc_l].
  pose proof (st_leave ch c r2) as Hl. destruct (LeaveChannel ch c r2). cbn [fst] in *.
  eapply rtc_l; [done|]. eapply rtc_r; done.
Qed.

End steps.
