(* ===== verification/RouterMesh.v ===== *)
(** * Everybody in a channel hears everybody

    When no track creation fails, two attached members of one channel always
    have a complete pair of output tracks, whatever sequence of router methods
    led there: joins and moves, leaves, new offers, whispers, slot declarations
    and disconnects. *)

From S2P Require Import Prelude Router RouterSafety.

(** Every slot the publisher occupies has an output track at the subscriber. *)
Definition complete `{!∀ V, MapRange string V} (a b : string) (r : Router) : Prop :=
  ∀ k sl, sl ∈ publisherSlotsLocked b r → slotKinds sl = Some k → is_Some (out_of a b k sl r).

Section mesh.
Context (add_track : nat → bool) (Hadd : ∀ n, add_track n = true).
Context `{!∀ V, MapRange string V, !∀ V, MapRange Z V}.
Implicit Types r : Router.

Definition linked (ch : Z) (a b : string) r : Prop :=
  clientChan r !! a = Some ch ∧ clientChan r !! b = Some ch ∧
  is_Some (pubPeers r !! a) ∧ is_Some (pubPeers r !! b).

Definition mesh r : Prop := ∀ ch a b, a ≠ b → linked ch a b r → complete a b r.

(** The same for the pairs that do not involve [c]. *)
Definition mesh_ex (c : string) r : Prop :=
  ∀ ch a b, a ≠ b → a ≠ c → b ≠ c → linked ch a b r → complete a b r.

Lemma mesh_mesh_ex c r : mesh r → mesh_ex c r.
Proof. intros Hm ch a b Hab _ _. by apply (Hm ch). Qed.

Lemma publisherSlots_ext p r r' :
  trackSlots r' !! p = trackSlots r !! p → publisherSlotsLocked p r' = publisherSlotsLocked p r.
Proof. unfold publisherSlotsLocked. by intros ->. Qed.

Lemma publisherSlots_mic p r : SlotMic ∈ publisherSlotsLocked p r.
Proof. unfold publisherSlotsLocked. left. Qed.

Lemma complete_ext a b r r' :
  trackSlots r' !! b = trackSlots r !! b → pair_of a b r' = pair_of a b r →
  complete a b r → complete a b r'.
Proof.
  intros Ht Hp Hc k sl. rewrite (publisherSlots_ext b r r' Ht). unfold out_of. rewrite Hp. apply Hc.
Qed.

Lemma mesh_ex_transfer c r r' :
  mesh_ex c r → (∀ x, x ≠ c → clientChan r' !! x = clientChan r !! x) →
  (∀ x, x ≠ c → pubPeers r' !! x = pubPeers r !! x) →
  (∀ x, x ≠ c → trackSlots r' !! x = trackSlots r !! x) →
  (∀ a b, a ≠ c → b ≠ c → pair_of a b r' = pair_of a b r) → mesh_ex c r'.
Proof.
  intros Hm Hc Hp Ht Hpair ch a b Hab Ha Hb (H1 & H2 & H3 & H4).
  apply (complete_ext a b r); [auto..|]. apply (Hm ch); [done..|].
  unfold linked. rewrite <- !Hc, <- !Hp by done. done.
Qed.

Lemma mesh_of_ex c r :
  mesh_ex c r → clientChan r !! c = None ∨ pubPeers r !! c = None → mesh r.
Proof.
  intros Hm Hc ch a b Hab (H1 & H2 & H3 & H4).
  apply (Hm ch); [done|..|done]; intros ->; destruct Hc as [Hc|Hc]; rewrite Hc in *;
    try done; by apply is_Some_None in H3 || by apply is_Some_None in H4.
Qed.

(** ** Adding tracks is monotone and fills pairs *)

Lemma addSlotLocked_full p sl t n t' n' c k :
  addSlotLocked add_track p sl t n = (t', n', c) → slotKinds sl = Some k →
  is_Some (slots k t' !! sl).
Proof.
  unfold addSlotLocked. intros He Hk. rewrite Hk, Hadd in He.
  destruct (slots k t !! sl) eqn:Hs; simplify_eq; [by eauto|].
  rewrite slots_upd, decide_True by done. rewrite lookup_insert_eq. eauto.
Qed.

Lemma addSlotLocked_keep p sl t n t' n' c k s :
  addSlotLocked add_track p sl t n = (t', n', c) →
  is_Some (slots k t !! s) → is_Some (slots k t' !! s).
Proof.
  unfold addSlotLocked. intros He Hs. repeat case_match; simplify_eq; try done.
  rewrite slots_upd. case_decide; [subst|done].
  destruct (decide (sl = s)) as [->|]; [rewrite lookup_insert_eq|rewrite lookup_insert_ne]; eauto.
Qed.

Lemma add_slots_keep p l t n k s :
  is_Some (slots k t !! s) → is_Some (slots k (add_slots add_track p l t n).1.1 !! s).
Proof.
  revert t n. induction l as [|sl l IH]; intros t n Hs; simpl; [done|].
  destruct (addSlotLocked add_track p sl t n) as [[t1 n1] c1] eqn:E1.
  pose proof (IH t1 n1) as IH'. destruct (add_slots add_track p l t1 n1) as [[t2 n2] c2].
  apply IH'. by eapply addSlotLocked_keep.
Qed.

Lemma add_slots_full p l t n k sl :
  sl ∈ l → slotKinds sl = Some k → is_Some (slots k (add_slots add_track p l t n).1.1 !! sl).
Proof.
  revert t n. induction l as [|s l IH]; intros t n Hin Hk; [set_solver|]. simpl.
  destruct (addSlotLocked add_track p s t n) as [[t1 n1] c1] eqn:E1.
  pose proof (IH t1 n1) as IH'. pose proof (add_slots_keep p l t1 n1 k sl) as Hkeep.
  destruct (add_slots add_track p l t1 n1) as [[t2 n2] c2].
  apply elem_of_cons in Hin as [->|Hin]; [|by apply IH'].
  apply Hkeep. by eapply addSlotLocked_full.
Qed.

(** If nothing was added, nothing was missing. *)
Lemma add_slots_unchanged p l t n :
  (add_slots add_track p l t n).2 = false → (add_slots add_track p l t n).1.1 = t.
Proof.
  revert t n. induction l as [|s l IH]; intros t n; simpl; [done|].
  destruct (addSlotLocked add_track p s t n) as [[t1 n1] c1] eqn:E1.
  pose proof (IH t1 n1) as IH'. destruct (add_slots add_track p l t1 n1) as [[t2 n2] c2].
  simpl. intros [-> ->]%orb_false_iff. cbn [fst snd] in IH'. rewrite IH' by done.
  unfold addSlotLocked in E1. rewrite Hadd in E1. by repeat case_match; simplify_eq.
Qed.

Lemma add_keep a b r s p k sl :
  is_Some (out_of s p k sl r) → is_Some (out_of s p k sl (addPublisherLocked add_track a b r).1).
Proof.
  unfold out_of. rewrite pair_of_add. case_decide as Hd; [|done]. destruct Hd as [-> ->].
  unfold added_pair. destruct (pubPeers r !! a); [|done].
  destruct (pair_of a b r) as [t|] eqn:Hp; [|by intros [??]].
  change (default newPubTrack (Some t)) with t. intros Hs. pose proof (add_slots_keep b (publisherSlotsLocked b r) t (attempts r) k sl Hs) as Hk.
  by destruct (add_slots _ _ _ _ _) as [[t' n'] c'].
Qed.

Lemma add_complete a b r :
  is_Some (pubPeers r !! a) → complete a b (addPublisherLocked add_track a b r).1.
Proof.
  intros [pc Hpc] k sl.
  pose proof (tracks_only_same _ _ (addPublisherLocked_only add_track a b r)) as (_&_&_&Ht&_).
  rewrite (publisherSlots_ext b r) by (by rewrite Ht). intros Hsl Hk.
  unfold out_of. rewrite pair_of_add, decide_True by done. unfold added_pair. rewrite Hpc.
  set (t0 := default newPubTrack (pair_of a b r)).
  pose proof (add_slots_full b (publisherSlotsLocked b r) t0 (attempts r) k sl Hsl Hk) as Hf.
  pose proof (add_slots_unchanged b (publisherSlotsLocked b r) t0 (attempts r)) as Hu.
  destruct (add_slots _ _ _ _ _) as [[t' n'] c']. cbn [fst snd] in *.
  destruct (pair_of a b r) as [t|] eqn:Hp; [done|]. destruct c'; [done|].
  rewrite Hu in Hf by done. subst t0. simpl in Hf. destruct k; simpl in Hf;
    rewrite lookup_empty in Hf; by apply is_Some_None in Hf.
Qed.

(** Two states with the same membership, of which the second has all the output
    tracks of the first. *)
Definition fuller r r' : Prop :=
  tracks_only r r' ∧ ∀ s p k sl, is_Some (out_of s p k sl r) → is_Some (out_of s p k sl r').

#[local] Instance fuller_preorder : PreOrder fuller.
Proof.
  split; [done|]. intros r1 r2 r3 [H1 H2] [H3 H4]. split; [by etrans|eauto].
Qed.

Lemma fuller_complete a b r r' : fuller r r' → complete a b r → complete a b r'.
Proof.
  intros [Ho Hf] Hc k sl. destruct (tracks_only_same _ _ Ho) as (_&_&_&Ht&_).
  rewrite (publisherSlots_ext b r) by (by rewrite Ht). intros. by apply Hf, Hc.
Qed.

Lemma fuller_add a b r : fuller r (addPublisherLocked add_track a b r).1.
Proof. split; [apply addPublisherLocked_only|intros; by apply add_keep]. Qed.

Lemma fuller_add_both c o st : fuller st.1 (add_both add_track c o st).1.
Proof. rewrite add_both_fst. etrans; apply fuller_add. Qed.

Lemma fuller_linked ch a b r r' : fuller r r' → linked ch a b r' ↔ linked ch a b r.
Proof.
  intros [(_ & Hc & Hp & _)%tracks_only_same _]. unfold linked. by rewrite Hc, Hp.
Qed.

Lemma for_others_fuller c l st : fuller st.1 (for_others (add_both add_track c) c l st).1.
Proof.
  apply for_others_ind; [done|]. intros o st' _ _ Hst. etrans; [done|apply fuller_add_both].
Qed.

Lemma for_others_complete c l st o :
  o ∈ l → o ≠ c → is_Some (pubPeers st.1 !! c) → is_Some (pubPeers st.1 !! o) →
  complete c o (for_others (add_both add_track c) c l st).1 ∧
  complete o c (for_others (add_both add_track c) c l st).1.
Proof.
  revert st. induction l as [|x l IH]; intros st Hin Hne Hc Ho; [set_solver|].
  unfold for_others. simpl. fold (for_others (add_both add_track c) c l).
  apply elem_of_cons in Hin as [->|Hin].
  - rewrite decide_False by done.
    pose proof (for_others_fuller c l (add_both add_track c x st)) as Hf.
    rewrite add_both_fst in Hf.
    pose proof (fuller_add c x st.1) as Hf1. pose proof (fuller_add x c (addPublisherLocked add_track c x st.1).1) as Hf2.
    split; apply (fuller_complete _ _ _ _ Hf).
    + apply (fuller_complete _ _ _ _ Hf2). by apply add_complete.
    + apply add_complete. destruct Hf1 as [(_&_&Hp&_)%tracks_only_same _]. by rewrite Hp.
  - case_decide; [by apply IH|].
    destruct (fuller_add_both c x st) as [(_&_&Hp&_)%tracks_only_same _].
    apply IH; [done|done|by rewrite Hp..].
Qed.

Lemma add_all_fuller ch c r : fuller r (add_all add_track ch c r).1.
Proof.
  apply add_all_ind; [|done]. intros r' s p Hr'. etrans; [done|apply fuller_add].
Qed.

Lemma add_all_complete ch c r o :
  o ∈ fam_get ch (members r) → o ≠ c → is_Some (pubPeers r !! c) → is_Some (pubPeers r !! o) →
  complete c o (add_all add_track ch c r).1 ∧ complete o c (add_all add_track ch c r).1.
Proof.
  intros Hin Hne Hc Ho. unfold add_all.
  destruct (for_others_complete c (range_set (fam_get ch (members r))) (r, ∅) o) as [H1 H2];
    [by apply elem_of_range_set|done..|].
  destruct (for_others _ _ _ _) as [r1 set]. cbn [fst] in *. unfold echo_pair.
  case_match; [|done]. simpl. split; (eapply fuller_complete; [apply fuller_add|done]).
Qed.

Lemma mesh_add_all ch c r :
  rinv r → mesh_ex c r → clientChan r !! c = Some ch → mesh (add_all add_track ch c r).1.
Proof.
  intros Hr Hm Hc ch' a b Hab Hl.
  pose proof (add_all_fuller ch c r) as Hf. rewrite (fuller_linked _ _ _ _ _ Hf) in Hl.
  destruct Hl as (Ha & Hb & Hpa & Hpb).
  destruct (decide (a = c)) as [->|Hac]; [|destruct (decide (b = c)) as [->|Hbc]].
  - replace ch' with ch in * by congruence. apply add_all_complete; [|done..]. by apply ri_member.
  - replace ch' with ch in * by congruence. apply add_all_complete; [|done..]. by apply ri_member.
  - eapply fuller_complete; [done|]. by apply (Hm ch').
Qed.

(** ** Removing tracks *)

Lemma remove_both_pair c o st s p :
  ¬ (s = c ∧ p = o) → ¬ (s = o ∧ p = c) → pair_of s p (remove_both c o st).1 = pair_of s p st.1.
Proof.
  intros H1 H2. rewrite remove_both_fst. by rewrite !pair_of_remove, !decide_False by tauto.
Qed.

Lemma removePairs_keep ch c r s p :
  ¬ (s = c ∧ p ∈ fam_get ch (members r)) → ¬ (p = c ∧ s ∈ fam_get ch (members r)) →
  ¬ (s = c ∧ p = c) → pair_of s p (removePairsLocked ch c r).1 = pair_of s p r.
Proof.
  intros H1 H2 H3. unfold removePairsLocked.
  assert (pair_of s p (for_others (remove_both c) c (range_set (fam_get ch (members r))) (r, ∅)).1
    = pair_of s p r) as Hp.
  { apply (for_others_ind (λ x, pair_of s p x = pair_of s p r)); [done|].
    intros o st Hin Ho Hst. apply elem_of_range_set in Hin. rewrite remove_both_pair; [done|..];
      intros [-> ->]; tauto. }
  destruct (for_others _ _ _ _) as [r1 set]. cbn [fst] in *. by rewrite pair_of_remove, decide_False.
Qed.

Lemma removePairs_other ch c r s p :
  s ≠ c → p ≠ c → pair_of s p (removePairsLocked ch c r).1 = pair_of s p r.
Proof. intros. apply removePairs_keep; tauto. Qed.

Lemma leave_core ch c r :
  pubTracks (leaveChannelLocked ch c r) = pubTracks r ∧
  pubPeers (leaveChannelLocked ch c r) = pubPeers r ∧
  trackSlots (leaveChannelLocked ch c r) = trackSlots r ∧
  members (leaveChannelLocked ch c r) = fam_del ch c (members r).
Proof. unfold leaveChannelLocked. by case_match. Qed.

Lemma mesh_ex_leave ch c r : mesh_ex c r → mesh_ex c (LeaveChannel ch c r).1.
Proof.
  intros Hm. rewrite LeaveChannel_fst.
  destruct (leave_core ch c r) as (Ht & Hp & Hs & _).
  pose proof (tracks_only_same _ _ (removePairs_only ch c (leaveChannelLocked ch c r)))
    as (_ & Hcc & Hpp & Hss & _).
  apply (mesh_ex_transfer c r); [done|..].
  - intros x Hx. rewrite Hcc, leave_clientChan, decide_False; tauto.
  - intros x Hx. by rewrite Hpp, Hp.
  - intros x Hx. by rewrite Hss, Hs.
  - intros a b Ha Hb. rewrite removePairs_other by done. by apply pair_of_core.
Qed.

Lemma mesh_leave ch c r : rinv r → mesh r → mesh (LeaveChannel ch c r).1.
Proof.
  intros Hr Hm. destruct (decide (clientChan r !! c = Some ch)) as [Hc|Hc].
  { apply (mesh_of_ex c); [by apply mesh_ex_leave, mesh_mesh_ex|left].
    rewrite LeaveChannel_fst.
    destruct (tracks_only_same _ _ (removePairs_only ch c (leaveChannelLocked ch c r))) as (_&Hcc&_).
    by rewrite Hcc, leave_clientChan, decide_True. }
  rewrite LeaveChannel_fst. set (r1 := leaveChannelLocked ch c r).
  destruct (leave_core ch c r) as (Ht & Hp & Hs & Hmm). fold r1 in Ht, Hp, Hs, Hmm.
  pose proof (tracks_only_same _ _ (removePairs_only ch c r1)) as (_ & Hcc & Hpp & Hss & _).
  intros ch' a b Hab (Ha & Hb & Hpa & Hpb).
  rewrite Hcc in Ha, Hb. unfold r1 in Ha, Hb.
  rewrite leave_clientChan, decide_False in Ha by tauto.
  rewrite leave_clientChan, decide_False in Hb by tauto. rewrite Hpp, Hp in Hpa, Hpb.
  assert (∀ x, x ∈ fam_get ch (members r1) → clientChan r !! x = Some ch) as Hmem.
  { intros x. rewrite Hmm, elem_of_fam_del, (ri_member r Hr). tauto. }
  apply (complete_ext a b r); [by rewrite Hss, Hs| |by apply (Hm ch')].
  rewrite removePairs_keep; [by apply pair_of_core|..].
  - intros [-> Hin%Hmem]. congruence.
  - intros [-> Hin%Hmem]. congruence.
  - naive_solver.
Qed.

Lemma mesh_ex_moved ch c r : mesh r → mesh_ex c (moved ch c r).
Proof.
  intros Hm. unfold moved.
  set (r1 := match clientChan r !! c with Some prev => _ | None => r end).
  assert (mesh_ex c r1) as Hm1.
  { subst r1. apply (mesh_mesh_ex c) in Hm. destruct (clientChan r !! c) as [prev|]; [|done].
    case_decide; [done|]. rewrite <- LeaveChannel_fst. by apply mesh_ex_leave. }
  apply (mesh_ex_transfer c r1); [done|..|done|done|done].
  intros x Hx. cbn [clientChan upd_clientChan upd_members]. by rewrite lookup_insert_ne.
Qed.

Lemma mesh_join ch c r : rinv r → mesh r → mesh (join_locked add_track ch c r).1.
Proof.
  intros Hr Hm. rewrite join_locked_moved.
  apply mesh_add_all; [by apply rinv_moved|by apply mesh_ex_moved|]. apply lookup_insert_eq.
Qed.

(** ** Keyframe requests *)

Lemma keyframes_core refs rid clock r :
  same_core r (request_keyframes refs rid clock r).1 ∧
  trackSlots (request_keyframes refs rid clock r).1 = trackSlots r.
Proof.
  revert clock r. induction refs as [|ref refs IH]; intros clock r; simpl; [done|].
  assert (same_core r (RequestKeyframe (vs_publisher ref) (vs_slot ref) rid (clock 0%nat) r).1 ∧
    trackSlots (RequestKeyframe (vs_publisher ref) (vs_slot ref) rid (clock 0%nat) r).1 = trackSlots r)
    as [H1 H2].
  { unfold RequestKeyframe, allowKeyframeRequest. repeat case_match; by simplify_eq. }
  destruct (RequestKeyframe _ _ _ _ r) as [r1 e]. destruct (IH (λ i, clock (S i)) r1) as [H3 H4].
  destruct (request_keyframes _ _ _ r1) as [r2 es]. cbn [fst] in *.
  unfold same_core in *. intuition congruence.
Qed.

Lemma mesh_core r r' : same_core r r' → trackSlots r' = trackSlots r → mesh r → mesh r'.
Proof.
  intros (Hmm & Hc & Ht & Hp & Hn) Hs Hm ch a b Hab (H1 & H2 & H3 & H4).
  apply (complete_ext a b r); [by rewrite Hs|by apply pair_of_core|].
  apply (Hm ch); [done|]. rewrite Hc in H1, H2. by rewrite Hp in H3, H4.
Qed.

Lemma mesh_JoinChannel ch c clock r : rinv r → mesh r → mesh (JoinChannel add_track ch c clock r).1.
Proof.
  intros Hr Hm. unfold JoinChannel. pose proof (mesh_join ch c r Hr Hm) as Hj.
  destruct (join_locked _ _ _ r) as [r1 set].
  destruct (keyframes_core (videoPublishersLocked ch c r1) (layerPrefLocked c r1) clock r1) as [H1 H2].
  destruct (request_keyframes _ _ _ r1). by eapply mesh_core.
Qed.

(** ** Whispers *)

Lemma mesh_fuller r r' : fuller r r' → mesh r → mesh r'.
Proof.
  intros Hf Hm ch a b Hab Hl. eapply fuller_complete; [done|]. apply (Hm ch); [done|].
  by apply (fuller_linked _ _ _ _ _ Hf).
Qed.

Lemma mesh_whisper_add c s st : mesh st.1 → mesh (whisper_add add_track c s st).1.
Proof.
  destruct st as [r set]. intros Hm. unfold whisper_add.
  pose proof (mesh_fuller _ _ (fuller_add s c r) Hm) as Hm'.
  destruct (addPublisherLocked add_track s c r) as [r1 b]. cbn [fst] in *.
  destruct b; [|done]. by apply (mesh_core r1).
Qed.

Lemma mesh_whisper_drop c keep s st : mesh st.1 → mesh (whisper_drop c keep s st).1.
Proof.
  destruct st as [r set]. intros Hm. unfold whisper_drop. case_decide; [done|].
  set (r1 := upd_whisperPairs _ r). assert (mesh r1) as Hm1 by by apply (mesh_core r).
  destruct (same_channel s c r1) eqn:Hsame; [done|]. simpl.
  destruct (tracks_only_same _ _ (removePublisherLocked_only s c r1)) as (_ & Hc & Hp & Ht & _).
  intros ch a b Hab (Ha & Hb & Hpa & Hpb). rewrite Hc in Ha, Hb. rewrite Hp in Hpa, Hpb.
  apply (complete_ext a b r1); [by rewrite Ht| |by apply (Hm1 ch)].
  rewrite pair_of_remove, decide_False; [done|]. intros [-> ->].
  unfold same_channel in Hsame. rewrite Ha, Hb in Hsame. by bools.
Qed.

Lemma mesh_SetWhisper c cs chs act r : mesh r → mesh (SetWhisper add_track c cs chs act r).1.
Proof.
  intros Hm. apply SetWhisper_ind.
  - by apply (mesh_core r).
  - intros. by apply mesh_whisper_add.
  - intros. by apply mesh_whisper_drop.
  - intros r' Hr'. by apply (mesh_core r').
Qed.

End mesh.

(** ** Slot declarations *)

Section declarations.
Context (add_track : nat → bool) (Hadd : ∀ n, add_track n = true).
Context `{!∀ V, MapRange string V, !∀ V, MapRange Z V}.
Implicit Types r : Router.

Lemma remove_slots_keep l t k sl :
  sl ∉ l → is_Some (slots k t !! sl) → is_Some (slots k (remove_slots l t).1 !! sl).
Proof.
  revert t. induction l as [|x l IH]; intros t Hn Hs; simpl; [done|].
  apply not_elem_of_cons in Hn as [Hx Hn].
  assert (is_Some (slots k (removeSlotLocked x t).1 !! sl)) as Hs1.
  { unfold removeSlotLocked. destruct (slotKinds x) as [kd|]; [|done].
    destruct (slots kd t !! x); [|done]. simpl. rewrite slots_upd. case_decide; [|done].
    by rewrite lookup_delete_ne. }
  destruct (removeSlotLocked x t) as [t1 c1]. pose proof (IH t1 Hn Hs1) as H2.
  by destruct (remove_slots l t1).
Qed.

(** Subscriber [a] has a track for every slot of [S]. *)
Definition covers (a p : string) (S : list string) r : Prop :=
  ∀ k sl, sl ∈ S → slotKinds sl = Some k → is_Some (out_of a p k sl r).

Lemma sync_covers_keep p adds dels s st a S :
  (∀ sl, sl ∈ S → sl ∉ dels) → covers a p S st.1 →
  covers a p S (sync_slots add_track p adds dels s st).1.
Proof.
  intros Hd Hc k sl Hin Hk. unfold out_of. rewrite pair_of_sync.
  specialize (Hc k sl Hin Hk). unfold out_of in Hc. case_decide as Hs; [|done].
  destruct Hs as [-> _]. destruct (pair_of s p st.1) as [t|]; [|by destruct Hc].
  apply remove_slots_keep; [by apply Hd|]. destruct (pubPeers st.1 !! s); [|done].
  by apply add_slots_keep.
Qed.

Lemma sync_covers_new p adds dels st a :
  (∀ sl, sl ∈ adds → sl ∉ dels) → is_Some (pair_of a p st.1) → is_Some (pubPeers st.1 !! a) →
  covers a p adds (sync_slots add_track p adds dels a st).1.
Proof.
  intros Hd [t Ht] [pc Hpc] k sl Hin Hk. unfold out_of. rewrite pair_of_sync, decide_True by done.
  rewrite Ht, Hpc. apply remove_slots_keep; [by apply Hd|]. by apply add_slots_full.
Qed.

Lemma sync_other p adds dels s st a b :
  b ≠ p → pair_of a b (sync_slots add_track p adds dels s st).1 = pair_of a b st.1.
Proof. intros Hb. rewrite pair_of_sync, decide_False; naive_solver. Qed.

Lemma sync_loop_covers p adds dels l st a S :
  (∀ sl, sl ∈ S → sl ∉ dels) → (∀ sl, sl ∈ adds → sl ∉ dels) →
  is_Some (pair_of a p st.1) → is_Some (pubPeers st.1 !! a) → covers a p S st.1 →
  covers a p S (foldl (λ st sub, sync_slots add_track p adds dels sub st) st l).1 ∧
  (a ∈ l → covers a p adds (foldl (λ st sub, sync_slots add_track p adds dels sub st) st l).1).
Proof.
  intros HS Ha. revert st. induction l as [|s l IH]; intros st Hp Hpc Hc; simpl; [set_solver|].
  assert (is_Some (pair_of a p (sync_slots add_track p adds dels s st).1)) as Hp'.
  { rewrite pair_of_sync. case_decide as Hd; [|done]. destruct Hd as [-> _].
    destruct Hp as [t ->]. eauto. }
  assert (is_Some (pubPeers (sync_slots add_track p adds dels s st).1 !! a)) as Hpc'.
  { destruct (tracks_only_same _ _ (sync_slots_only add_track p adds dels s st)) as (_&_&He&_).
    by rewrite He. }
  assert (covers a p S (sync_slots add_track p adds dels s st).1) as Hc' by by apply sync_covers_keep.
  destruct (IH _ Hp' Hpc' Hc') as [H1 H2]. split; [done|].
  intros [->|Hin]%elem_of_cons; [|by apply H2].
  apply (foldl_ind (λ st', covers s p adds st'.1)); [by apply sync_covers_new|].
  intros st' x _ Hst'. by apply sync_covers_keep.
Qed.

Lemma slotDiff_spec before after :
  (∀ sl, sl ∈ (slotDiff before after).1 ↔ sl ∈ after ∧ sl ∉ before) ∧
  (∀ sl, sl ∈ (slotDiff before after).2 ↔ sl ∈ before ∧ sl ∉ after).
Proof. unfold slotDiff; simpl. split; intros sl; rewrite list_elem_of_filter; tauto. Qed.

Lemma declare_other p d r x : x ≠ p → trackSlots (declare p d r) !! x = trackSlots r !! x.
Proof.
  intros Hx. unfold declare. simpl. case_decide; [by rewrite lookup_delete_ne|by rewrite lookup_insert_ne].
Qed.

Lemma covers_complete a p S r :
  (∀ sl, sl ∈ publisherSlotsLocked p r → sl ∈ S) → covers a p S r → complete a p r.
Proof. intros HS Hc k sl Hin. apply Hc, HS, Hin. Qed.

(** All subscribers of the publisher are synced to the new set of slots. *)
Lemma SetTrackSlots_covers p d r a :
  is_Some (pubPeers r !! a) → complete a p r → complete a p (SetTrackSlots add_track p d r).1.
Proof.
  intros Hpc Hc. unfold SetTrackSlots. fold (declare p d r).
  destruct (slotDiff_spec (publisherSlotsLocked p r) (publisherSlotsLocked p (declare p d r))) as [Ha Hd].
  destruct (slotDiff _ _) as [adds dels]. cbn [fst snd] in Ha, Hd.
  assert (is_Some (pair_of a p (declare p d r))) as Hpair.
  { destruct (Hc KindAudio SlotMic) as [ps Hps]; [apply publisherSlots_mic|done|].
    unfold out_of in Hps. change (pair_of a p (declare p d r)) with (pair_of a p r).
    destruct (pair_of a p r); [eauto|done]. }
  set (kept := filter (λ sl, sl ∈ publisherSlotsLocked p (declare p d r)) (publisherSlotsLocked p r)).
  assert (covers a p kept (declare p d r)) as Hk.
  { intros k sl [_ Hin]%list_elem_of_filter Hsl. by apply (Hc k sl). }
  assert (∀ sl, sl ∈ publisherSlotsLocked p (declare p d r) → sl ∈ kept ∨ sl ∈ adds) as Hall.
  { intros sl Hsl. destruct (decide (sl ∈ publisherSlotsLocked p r)); [left|right; by apply Ha].
    by apply list_elem_of_filter. }
  set (body := match adds, dels with [], [] => _ | _, _ => _ end).
  assert (trackSlots body.1 = trackSlots (declare p d r) ∧ covers a p kept body.1 ∧
    covers a p adds body.1) as (Hts & Hb1 & Hb2).
  { assert (tracks_only (declare p d r) body.1) as Ho.
    { subst body. destruct adds, dels; [done|..];
        apply (foldl_ind (λ st, tracks_only (declare p d r) st.1)); try done;
        (intros st x _ Hst; etrans; [done|apply sync_slots_only]). }
    destruct (tracks_only_same _ _ Ho) as (_&_&_&Hts&_). split; [done|].
    destruct (sync_loop_covers p adds dels (range (pubTracks (declare p d r))).*1
      (declare p d r, ∅) a kept) as [H1 H2]; [|set_solver|done..|].
    { intros sl [Hsl _]%list_elem_of_filter Hin%Hd. tauto. }
    assert (a ∈ (range (pubTracks (declare p d r))).*1) as Hin.
    { apply elem_of_range_keys, elem_of_dom. unfold pair_of in Hpair.
      destruct (pubTracks (declare p d r) !! a); [eauto|by destruct Hpair]. }
    subst body. destruct adds, dels; [split; [done|by intros ???%elem_of_nil]|..];
      (split; [apply H1|by apply H2]). }
  destruct body as [r1 set]. cbn [fst] in *. intros k sl.
  rewrite (publisherSlots_ext p (declare p d r)) by (by rewrite Hts).
  intros [Hin|Hin]%Hall Hsl; [by apply Hb1|by apply Hb2].
Qed.

Lemma SetTrackSlots_frame p d r :
  clientChan (SetTrackSlots add_track p d r).1 = clientChan r ∧
  pubPeers (SetTrackSlots add_track p d r).1 = pubPeers r ∧
  (∀ x, x ≠ p → trackSlots (SetTrackSlots add_track p d r).1 !! x = trackSlots r !! x) ∧
  (∀ a b, b ≠ p → pair_of a b (SetTrackSlots add_track p d r).1 = pair_of a b r).
Proof.
  apply (SetTrackSlots_ind add_track (λ r', clientChan r' = clientChan r ∧ pubPeers r' = pubPeers r ∧
    (∀ x, x ≠ p → trackSlots r' !! x = trackSlots r !! x) ∧
    (∀ a b, b ≠ p → pair_of a b r' = pair_of a b r))).
  - split_and!; [done..| |done]. intros. by apply declare_other.
  - intros st s (Hc & Hp & Ht & Hpair).
    match goal with |- context [sync_slots _ p ?a ?d s st] =>
      pose proof (sync_other p a d s st) as Ho;
      destruct (tracks_only_same _ _ (sync_slots_only add_track p a d s st)) as (_&H2&H3&H4&_) end.
    rewrite H2, H3, H4. split_and!; [done..|]. intros a b Hb. rewrite Ho by done. by apply Hpair.
Qed.

Lemma mesh_SetTrackSlots p d r : mesh r → mesh (SetTrackSlots add_track p d r).1.
Proof.
  intros Hm ch a b Hab (Ha & Hb & Hpa & Hpb).
  destruct (SetTrackSlots_frame p d r) as (Hc & Hp & Ht & Hpair).
  rewrite Hc in Ha, Hb. rewrite Hp in Hpa, Hpb.
  assert (complete a b r) as Hcomp by by apply (Hm ch).
  destruct (decide (b = p)) as [->|Hbp]; [by apply SetTrackSlots_covers|].
  apply (complete_ext a b r); auto.
Qed.

(** ** Peers *)

Lemma detach_loop c r subs :
  let r' := foldl (λ r sub, (removePublisherLocked sub c r).1) r subs in
  tracks_only r r' ∧ ∀ a b, b ≠ c → pair_of a b r' = pair_of a b r.
Proof.
  simpl. apply (foldl_ind (λ r', tracks_only r r' ∧ ∀ a b, b ≠ c → pair_of a b r' = pair_of a b r)).
  - by split.
  - intros x s _ [Ho Hp]. split; [etrans; [done|apply removePublisherLocked_only]|].
    intros a b Hb. rewrite pair_of_remove, decide_False by naive_solver. by apply Hp.
Qed.

Lemma detach_frame c b r :
  pubPeers (detach_locked c b r).1 = delete c (pubPeers r) ∧
  clientChan (detach_locked c b r).1 = clientChan r ∧
  (∀ x, x ≠ c → trackSlots (detach_locked c b r).1 !! x = trackSlots r !! x).
Proof.
  destruct b; (split_and!; [done..|]); intros x Hx; [|done].
  change (trackSlots (detach_locked c true r).1) with (delete c (trackSlots r)).
  by rewrite lookup_delete_ne.
Qed.

Lemma detachPeer_mesh c b r :
  rinv r → mesh r →
  let r' := (detachPeer c b r).1 in
  mesh r' ∧ pubPeers r' !! c = None ∧
  (∀ x, x ≠ c → clientChan r' !! x = clientChan r !! x) ∧
  (b = false → clientChan r' = clientChan r).
Proof.
  intros Hr Hm. unfold detachPeer.
  pose proof (detach_frame c b r) as (Hp & Hc & Ht). pose proof (detach_pair c b r) as Hpair.
  pose proof (rinv_detach c b r Hr) as Hr1.
  destruct (detach_locked c b r) as [r1 subs]. cbn [fst] in *.
  destruct (detach_loop c r1 subs) as [Ho Hl].
  assert (rinv (foldl (λ r sub, (removePublisherLocked sub c r).1) r1 subs)) as Hr2.
  { apply foldl_ind; [done|]. intros. by apply rinv_remove. }
  set (r2 := foldl _ r1 subs) in *. destruct (tracks_only_same _ _ Ho) as (_ & Hc2 & Hp2 & Ht2 & _).
  assert (mesh_ex c r2) as Hm2.
  { apply (mesh_ex_transfer c r); [by apply mesh_mesh_ex|..].
    - intros x _. by rewrite Hc2, Hc.
    - intros x Hx. by rewrite Hp2, Hp, lookup_delete_ne.
    - intros x Hx. rewrite Ht2. by apply Ht.
    - intros x y Hx Hy. rewrite Hl, Hpair, decide_False by done. done. }
  assert (pubPeers r2 !! c = None) as Hpc by (rewrite Hp2, Hp; apply lookup_delete_eq).
  assert (mesh r2) as Hm2' by (apply (mesh_of_ex c); auto).
  destruct (clientChan r1 !! c) as [ch|] eqn:Ech; [|cbn [fst]; by rewrite Hc2, Hc].
  destruct b; [|cbn [fst]; by rewrite Hc2, Hc].
  pose proof (mesh_leave ch c r2 Hr2 Hm2') as Hm3.
  assert (clientChan (LeaveChannel ch c r2).1 = clientChan (leaveChannelLocked ch c r2) ∧
    pubPeers (LeaveChannel ch c r2).1 = pubPeers r2) as [Hc3 Hp3].
  { rewrite LeaveChannel_fst.
    destruct (tracks_only_same _ _ (removePairs_only ch c (leaveChannelLocked ch c r2))) as (_&He&Hf&_).
    destruct (leave_core ch c r2) as (_ & Hg & _). split; [done|congruence]. }
  destruct (LeaveChannel ch c r2) as [r3 es]. cbn [fst] in *. split_and!; [done|congruence| |done].
  intros x Hx. by rewrite Hc3, leave_clientChan, decide_False, Hc2, Hc by naive_solver.
Qed.

Lemma mesh_attach_ensure c pc clock r :
  rinv r → mesh r → mesh (EnsurePublishers add_track c clock (AttachPeer c pc r)).1.
Proof.
  intros Hr Hm. pose proof (rinv_attach c pc r Hr) as Hr'.
  assert (mesh_ex c (AttachPeer c pc r)) as Hm'.
  { apply (mesh_ex_transfer c r); [by apply mesh_mesh_ex|done| |done|done].
    intros x Hx. unfold AttachPeer. simpl. by rewrite lookup_insert_ne. }
  unfold EnsurePublishers. destruct (clientChan (AttachPeer c pc r) !! c) as [ch|] eqn:Hc.
  - pose proof (mesh_add_all add_track Hadd ch c _ Hr' Hm' Hc) as Hm''.
    destruct (add_all _ _ _ _) as [r1 set]. cbn [fst] in Hm''.
    destruct (keyframes_core (videoPublishersLocked ch c r1) (layerPrefLocked c r1) clock r1) as [H1 H2].
    destruct (request_keyframes _ _ _ r1). by eapply mesh_core.
  - apply (mesh_of_ex c); auto.
Qed.

End declarations.
