(* ===== verification/RouterProps.v ===== *)
(** * What the router guarantees

    Who receives a packet and on which track, that a complete channel hears every
    speaker, that a slot has one source at a time, that a simulcast subscriber
    gets one layer, and that publishers are not flooded with keyframe requests. *)

From S2P Require Import Prelude Router RouterSafety RouterMesh.

(** ** Voice sessions: the router's part of [src/internal/webrtc/voice.go] *)

(** How [HandleOffer] ended: no peer connection could be created, the offer was
    rejected, or an answer was produced. *)
Inductive offerOutcome := NoPeerConnection | OfferRejected | OfferAccepted.

Section voice.
Context (add_track : nat → bool).
Context `{!∀ V, MapRange string V, !∀ V, MapRange Z V}.
Implicit Types r : Router.

Definition HandleOffer (clientID : string) (pc : peer) (outcome : offerOutcome)
    (clock : nat → Z) r : Router :=
  let r := (DetachPeerKeepChannel clientID r).1 in
  match outcome with
  | NoPeerConnection => r
  | OfferRejected =>
      let r := (EnsurePublishers add_track clientID clock (AttachPeer clientID pc r)).1 in
      (DetachPeerKeepChannel clientID r).1
  | OfferAccepted => (EnsurePublishers add_track clientID clock (AttachPeer clientID pc r)).1
  end.

Definition AddTap (channelID : Z) (tapID : string) (aw vw : option tapWriter)
    (clock : nat → Z) r : Router :=
  let r := match aw with Some w => AddOutput tapID w r | None => r end in
  let r := match vw with Some w => addVideoOutput tapID w r | None => r end in
  (JoinChannel add_track channelID tapID clock r).1.

(** The calls the control server makes. *)
Inductive vop :=
| VJoin (c : string) (ch : Z)
| VLeave (c : string) (ch : Z)
| VLeaveAll (c : string)
| VSlots (c : string) (d : gmap string string)
| VWhisper (c : string) (cs : list string) (chs : list Z) (active : bool)
| VOffer (c : string) (pc : peer) (outcome : offerOutcome)
| VClose (c : string)
| VAddTap (ch : Z) (id : string) (aw vw : option tapWriter)
| VRemoveTap (id : string).

Definition vrun (clock : nat → Z) (op : vop) r : Router :=
  match op with
  | VJoin c ch => (JoinChannel add_track ch c clock r).1
  | VLeave c ch => (LeaveChannel ch c r).1
  | VLeaveAll c => (LeaveAll c r).1
  | VSlots c d => (SetTrackSlots add_track c d r).1
  | VWhisper c cs chs a => (SetWhisper add_track c cs chs a r).1
  | VOffer c pc o => HandleOffer c pc o clock r
  | VClose c => (DetachPeer c r).1
  | VAddTap ch id aw vw => AddTap ch id aw vw clock r
  | VRemoveTap id => (DetachPeer id r).1
  end.

Definition vruns (ops : list (vop * (nat → Z))) : Router :=
  foldl (λ r '(op, clock), vrun clock op r) NewRouter ops.

Lemma HandleOffer_steps c pc o clock r : rtc (rstep add_track) r (HandleOffer c pc o clock r).
Proof.
  unfold HandleOffer, DetachPeerKeepChannel.
  pose proof (detachPeer_steps add_track c false r) as H1. set (r1 := (detachPeer c false r).1) in *.
  clearbody r1.
  pose proof (st_attach add_track c pc r1) as H2. set (r2 := AttachPeer c pc r1) in *. clearbody r2.
  pose proof (EnsurePublishers_steps add_track c clock r2) as H3.
  set (r3 := (EnsurePublishers add_track c clock r2).1) in *. clearbody r3.
  destruct o; [done| |].
  - etrans; [done|]. eapply rtc_l; [done|]. etrans; [done|]. apply detachPeer_steps.
  - etrans; [done|]. by eapply rtc_l.
Qed.

Lemma AddTap_steps ch id aw vw clock r : rtc (rstep add_track) r (AddTap ch id aw vw clock r).
Proof.
  unfold AddTap.
  assert (rtc (rstep add_track) r (match aw with Some w => AddOutput id w r | None => r end)) as H1.
  { destruct aw; [|done]. apply rtc_once, st_output. }
  set (r1 := match aw with Some _ => _ | None => _ end) in *. clearbody r1.
  assert (rtc (rstep add_track) r1 (match vw with Some w => addVideoOutput id w r1 | None => r1 end)) as H2.
  { destruct vw; [|done]. apply rtc_once, st_video_output. }
  set (r2 := match vw with Some _ => _ | None => _ end) in *. clearbody r2.
  etrans; [done|]. etrans; [done|]. apply JoinChannel_steps.
Qed.

Lemma vrun_steps clock op r : rtc (rstep add_track) r (vrun clock op r).
Proof.
  destruct op; cbn [vrun]; unfold DetachPeer.
  - apply JoinChannel_steps.
  - apply rtc_once, st_leave.
  - unfold LeaveAll. case_match; [apply rtc_once, st_leave|done].
  - apply rtc_once, st_slots.
  - apply rtc_once, st_whisper.
  - apply HandleOffer_steps.
  - apply detachPeer_steps.
  - apply AddTap_steps.
  - apply detachPeer_steps.
Qed.

Lemma vrun_mesh clock op r :
  (∀ n, add_track n = true) → rinv r → mesh r → mesh (vrun clock op r).
Proof.
  intros Hadd Hr Hm. destruct op; cbn [vrun].
  - by apply mesh_JoinChannel.
  - by apply mesh_leave.
  - unfold LeaveAll. case_match; [by apply mesh_leave|done].
  - by apply mesh_SetTrackSlots.
  - by apply mesh_SetWhisper.
  - unfold HandleOffer, DetachPeerKeepChannel.
    destruct (detachPeer_mesh c false r Hr Hm) as [Hm1 _].
    assert (rinv (detachPeer c false r).1) as Hr1.
    { apply (rtc_invariant (rstep add_track) rinv r); [apply rinv_step|done|apply detachPeer_steps]. }
    destruct outcome; [done| |by apply mesh_attach_ensure].
    set (r1 := (detachPeer c false r).1) in *.
    apply (detachPeer_mesh c false); [|by apply mesh_attach_ensure].
    apply (rtc_invariant (rstep add_track) rinv r1); [apply rinv_step|done|].
    eapply rtc_l; [apply (st_attach _ c pc)|apply EnsurePublishers_steps].
  - by apply (detachPeer_mesh c true).
  - unfold AddTap. apply mesh_JoinChannel; [done|..]; destruct aw, vw;
      first [by apply (mesh_core r)|by apply (rinv_core r)|done].
  - by apply (detachPeer_mesh id true).
Qed.

Lemma vruns_ok ops :
  rinv (vruns ops) ∧ ((∀ n, add_track n = true) → mesh (vruns ops)).
Proof.
  unfold vruns. apply (foldl_ind (λ r, rinv r ∧ ((∀ n, add_track n = true) → mesh r))).
  - split; [apply rinv_new|]. intros _ ch a b _ (H1 & _). done.
  - intros r [op clock] _ [Hr Hm]. split; [|by auto using vrun_mesh].
    apply (rtc_invariant (rstep add_track) rinv r); [apply rinv_step|done|apply vrun_steps].
Qed.

End voice.

(** ** Who is addressed *)

(** Whom a speaker reaches: the targets of an active whisper, or else the other
    members of the channel, and itself in the echo channel. *)
Definition audience (sender x : string) (r : Router) : Prop :=
  let by_channel :=
    ∃ ch, clientChan r !! sender = Some ch ∧ clientChan r !! x = Some ch ∧
          (x ≠ sender ∨ ch = echoChannel r) in
  match whispers r !! sender with
  | Some cfg =>
      if w_active cfg
      then x ≠ sender ∧ (x ∈ w_clients cfg ∨
             ∃ ch, ch ∈ w_channels cfg ∧ clientChan r !! x = Some ch)
      else by_channel
  | None => by_channel
  end.

(** The recorder that follows the speaker's channel; a tap registered under the
    empty name would follow everybody. *)
Definition follows (tap sender : string) (r : Router) : Prop :=
  tap = "" ∨ ∃ ch, clientChan r !! sender = Some ch ∧ default 0 (clientChan r !! tap) = ch.

Section exact.
Context (write_ok : writer → bool).
Context `{!∀ V, MapRange string V, !∀ V, MapRange Z V}.
Implicit Types r : Router.

Lemma elem_of_whisperTargets c cfg r x :
  rinv r → x ∈ whisperTargetsLocked c cfg r ↔
  x ≠ c ∧ (x ∈ w_clients cfg ∨ ∃ ch, ch ∈ w_channels cfg ∧ clientChan r !! x = Some ch).
Proof.
  intros Hr. unfold whisperTargetsLocked.
  rewrite elem_of_difference, elem_of_union, not_elem_of_singleton, elem_of_union_list.
  setoid_rewrite list_elem_of_fmap. setoid_rewrite elem_of_range_set.
  setoid_rewrite <- (ri_member r Hr). naive_solver.
Qed.

Lemma elem_of_targets sender r x :
  rinv r → x ∈ targetSubscribersLocked sender r ↔ audience sender x r.
Proof.
  intros Hr. unfold targetSubscribersLocked, audience.
  assert (x ∈ match clientChan r !! sender with
    | None => []
    | Some ch => filter (λ id, ¬ (id = sender ∧ ch ≠ echoChannel r)) (range_set (fam_get ch (members r)))
    end ↔ ∃ ch, clientChan r !! sender = Some ch ∧ clientChan r !! x = Some ch ∧
          (x ≠ sender ∨ ch = echoChannel r)) as Hch.
  { destruct (clientChan r !! sender) as [ch|] eqn:Hs; [|set_solver].
    rewrite list_elem_of_filter, elem_of_range_set, (ri_member r Hr).
    split.
    - intros [H1 H2]. exists ch. split_and!; [done..|].
      destruct (decide (x = sender)); [right|by left]. destruct (decide (ch = echoChannel r)); tauto.
    - intros (ch' & [= <-] & H1 & H2). split; [|done]. intros [-> ?]. naive_solver. }
  destruct (whispers r !! sender) as [cfg|]; [|done]. destruct (w_active cfg); [|done].
  by rewrite elem_of_range_set, elem_of_whisperTargets.
Qed.

Lemma NoDup_targets sender r : NoDup (targetSubscribersLocked sender r).
Proof.
  unfold targetSubscribersLocked. repeat case_match; try apply NoDup_range_set;
    try apply NoDup_nil_2; by apply NoDup_filter, NoDup_range_set.
Qed.

Lemma slot_writer_out k sender sl x r : slot_writer k sender sl x r = out_of x sender k sl r.
Proof. unfold slot_writer, out_of, pair_of. by destruct (pubTracks r !! x). Qed.

Lemma tap_follows taps sender r w :
  taps !! tap_id taps sender r = Some w → follows (tap_id taps sender r) sender r.
Proof.
  unfold tap_id, follows. destruct (clientChan r !! sender) as [ch|]; [|by left].
  destruct (filter _ _) as [|id l] eqn:E; [by left|]. simpl. intros _. right. exists ch. split; [done|].
  assert (id ∈ filter (λ id, default 0 (clientChan r !! id) = ch) (range taps).*1) as Hin
    by (rewrite E; left).
  by apply list_elem_of_filter in Hin as [? _].
Qed.

(** The tracks written for the listed subscribers: exactly theirs, each once. *)
Lemma slot_tracks_distinct k sender sl (l : list string) r :
  rinv r → NoDup l → NoDup (ps_track <$> omap (λ x, slot_writer k sender sl x r) l).
Proof.
  intros Hr. induction 1 as [|x l Hx Hl IH]; [constructor|]. simpl.
  destruct (slot_writer k sender sl x r) as [ps|] eqn:E; [|done]. rewrite fmap_cons.
  constructor; [|done]. intros (ps' & Heq & Hin)%list_elem_of_fmap.
  apply list_elem_of_omap in Hin as (y & Hy & E').
  rewrite slot_writer_out in E, E'.
  by destruct (oo_distinct r (ri_outs r Hr) _ _ _ _ _ _ _ _ _ _ E E' Heq) as [-> _].
Qed.

Lemma out_labels x sender k sl r ps :
  rinv r → out_of x sender k sl r = Some ps → track_ok sender (attempts r) k sl ps.
Proof.
  intros Hr. unfold out_of. destruct (pair_of x sender r) as [t|] eqn:E; [|done]. simpl.
  by apply (oo_pair r (ri_outs r Hr) _ _ _ E).
Qed.

Lemma elem_of_write_all ws pkt w q :
  (w, q) ∈ write_all write_ok ws pkt ↔ q = written w pkt ∧ write_ok w = true ∧ w ∈ ws.
Proof.
  unfold write_all. rewrite list_elem_of_fmap. setoid_rewrite list_elem_of_filter. naive_solver.
Qed.

Lemma elem_of_slot_writers k sender sl (l : list string) r ps :
  WSlot ps ∈ WSlot <$> omap (λ x, slot_writer k sender sl x r) l ↔
  ∃ x, x ∈ l ∧ out_of x sender k sl r = Some ps.
Proof.
  rewrite list_elem_of_fmap. split.
  - intros (ps' & [= <-] & (x & Hx & E)%list_elem_of_omap). exists x. by rewrite <- slot_writer_out.
  - intros (x & Hx & E). exists ps. split; [done|]. apply list_elem_of_omap. exists x.
    by rewrite slot_writer_out.
Qed.

Lemma elem_of_tap_writers taps sender r (b : bool) w :
  w ∈ (if b then match taps !! tap_id taps sender r with Some w => [WTap w] | None => [] end else []) →
  b = true ∧ ∃ tap tw, w = WTap tw ∧ taps !! tap = Some tw ∧ follows tap sender r.
Proof.
  destruct b; [|by intros ?%elem_of_nil].
  destruct (taps !! tap_id taps sender r) as [tw|] eqn:E; [|by intros ?%elem_of_nil].
  intros ->%list_elem_of_singleton. split; [done|]. exists (tap_id taps sender r), tw.
  split_and!; [done..|]. by eapply tap_follows.
Qed.

End exact.

(** The identities of the Pion tracks among the writers of some writes. *)
Definition written_tracks (out : list (writer * rtpPacket)) : list nat :=
  omap (λ wq, match wq.1 with WSlot ps => Some (ps_track ps) | WTap _ => None end) out.

Section theorems.
Context (add_track : nat → bool).
Context (write_ok : writer → bool).
Context `{!∀ V, MapRange string V, !∀ V, MapRange Z V}.
Implicit Types r : Router.

Lemma written_tracks_write pss taps pkt :
  NoDup (ps_track <$> pss) → Forall (λ w, ∃ t, w = WTap t) taps →
  NoDup (written_tracks (write_all write_ok ((WSlot <$> pss) ++ taps) pkt)).
Proof.
  intros Hnd Ht. unfold write_all, written_tracks. rewrite filter_app, fmap_app, omap_app.
  replace (omap _ ((λ w, (w, written w pkt)) <$> filter (λ w, write_ok w = true) taps)) with (@nil nat).
  2: { induction Ht as [|w l [t ->] _ IH]; [done|]. rewrite filter_cons. by case_decide. }
  rewrite app_nil_r. induction pss as [|ps pss IH]; [constructor|].
  rewrite fmap_cons in *. apply NoDup_cons in Hnd as [Hn Hnd]. rewrite filter_cons.
  case_decide; [|by apply IH]. simpl. constructor; [|by apply IH].
  intros (wq & (w & -> & [_ Hin]%list_elem_of_filter)%list_elem_of_fmap & Hw)%list_elem_of_omap.
  apply list_elem_of_fmap in Hin as (ps' & -> & Hin). cbn [fst] in Hw. apply Hn.
  apply list_elem_of_fmap. exists ps'. naive_solver.
Qed.

Lemma tap_writers_only (o : option tapWriter) (b : bool) :
  Forall (λ w, ∃ t, w = WTap t) (if b then match o with Some w => [WTap w] | None => [] end else []).
Proof. destruct b, o; eauto using Forall_nil, Forall_cons. Qed.

(** C1: no audio reaches the wrong ears. In every state the router can reach, by
    any interleaving of its critical sections and with any failures of track
    creation, a packet of a speaker on an audio slot is written to a track only
    if that track belongs to somebody the speaker addresses (the targets of an
    active whisper, otherwise the members of its channel), is an audio track and
    carries the label of exactly this speaker and slot; whoever is addressed and
    has the track gets the packet, no track gets it twice, and what is written
    has lost the publisher's header extensions and kept its payload. A recorder
    gets the microphone only, and only of the channel it follows. *)
Theorem forward_exact r sender slot pkt :
  rtc (rstep add_track) NewRouter r →
  let out := ForwardRTP write_ok sender slot pkt r in
  (∀ ps q, (WSlot ps, q) ∈ out →
     pk_Payload q = pk_Payload pkt ∧ pk_Extensions q = [] ∧
     ps_kind ps = KindAudio ∧ ps_trackID ps = slotTrackID sender slot ∧
     ps_streamID ps = slotStreamID sender slot ∧
     ∃ x, audience sender x r ∧ out_of x sender KindAudio slot r = Some ps) ∧
  (∀ x ps, audience sender x r → out_of x sender KindAudio slot r = Some ps →
     write_ok (WSlot ps) = true → (WSlot ps, written (WSlot ps) pkt) ∈ out) ∧
  (∀ tw q, (WTap tw, q) ∈ out →
     slot = SlotMic ∧ q = pkt ∧ ∃ tap, outputs r !! tap = Some tw ∧ follows tap sender r) ∧
  NoDup (written_tracks out).
Proof.
  intros Hr%reachable_rinv out. unfold out, ForwardRTP, audio_writers. split_and!.
  - intros ps q (-> & _ & Hin)%elem_of_write_all.
    apply elem_of_app in Hin as [Hin|(_ & ? & ? & ? & _)%elem_of_tap_writers]; [|done].
    apply elem_of_slot_writers in Hin as (x & Hx%elem_of_targets & Ho); [|done].
    destruct (out_labels _ _ _ _ _ _ Hr Ho). split_and!; eauto.
  - intros x ps Hx Ho Hok. apply elem_of_write_all. split_and!; [done..|].
    apply elem_of_app. left. apply elem_of_slot_writers. exists x. by rewrite elem_of_targets.
  - intros tw q (-> & _ & Hin)%elem_of_write_all.
    apply elem_of_app in Hin as [(? & ? & _)%list_elem_of_fmap|Hin]; [done|].
    apply elem_of_tap_writers in Hin as (Hm & tap & tw' & [= <-] & Hw & Hf).
    split_and!; [by apply String.eqb_eq|done|eauto].
  - apply written_tracks_write; [|apply tap_writers_only].
    apply slot_tracks_distinct; [done|apply NoDup_targets].
Qed.


(** ** Video *)

Definition sources (pub slot : string) r : gmap string Z :=
  default ∅ (default ∅ (videoSources r !! pub) !! slot).

Lemma layerFallback_elem pref c : c ∈ layerFallback pref ↔ c ∈ ["f"; "h"; "q"].
Proof. unfold layerFallback. repeat case_match; set_solver. Qed.

Lemma layerFallback_head pref : pref ∈ ["f"; "h"; "q"] → ∃ l, layerFallback pref = pref :: l.
Proof. intros Hp. set_unfold in Hp. destruct_or! Hp; subst; try done; cbn; eauto. Qed.

Lemma accept_one sub pub slot r :
  sources pub slot r !! "" = None →
  (∃ c, c ∈ ["f"; "h"; "q"] ∧ is_Some (sources pub slot r !! c)) →
  ∃ rid, is_Some (sources pub slot r !! rid) ∧
    (∀ rid', acceptLayerLocked sub pub slot rid' r = true ↔ rid' = rid) ∧
    (layerPrefLocked sub r ∈ ["f"; "h"; "q"] → is_Some (sources pub slot r !! layerPrefLocked sub r) →
     rid = layerPrefLocked sub r).
Proof.
  intros He (c & Hc & Hs).
  set (cands := filter (λ c, is_Some (sources pub slot r !! c)) (layerFallback (layerPrefLocked sub r))).
  assert (c ∈ cands) as Hin by (apply list_elem_of_filter; by rewrite layerFallback_elem).
  destruct cands as [|rid l] eqn:E; [by apply elem_of_nil in Hin|]. subst cands.
  assert (rid ∈ filter (λ c, is_Some (sources pub slot r !! c))
    (layerFallback (layerPrefLocked sub r))) as Hrid by (rewrite E; left).
  assert (∀ rid', acceptLayerLocked sub pub slot rid' r = String.eqb rid' rid) as Hacc.
  { intros rid'. unfold acceptLayerLocked. cbv zeta. fold (sources pub slot r).
    rewrite decide_False, He, E; [done|]. intros Hempty. rewrite Hempty, lookup_empty in Hs.
    by apply is_Some_None in Hs. }
  exists rid. apply list_elem_of_filter in Hrid as [Hrid _].
  split_and!; [done|intros rid'; rewrite Hacc; apply String.eqb_eq|].
  intros (l' & Hl)%layerFallback_head Hpref. rewrite Hl, filter_cons, decide_True in E by done.
  by simplify_eq.
Qed.

(** Video follows the same audience and labels as audio, on video slots, and
    a subscriber of a simulcast publisher gets exactly one of its layers: the one
    it asked for when it is published, otherwise a fallback that is. *)
Theorem video_forward_exact r sender slot rid pkt :
  rtc (rstep add_track) NewRouter r →
  let out := ForwardVideo write_ok sender slot rid pkt r in
  (∀ ps q, (WSlot ps, q) ∈ out →
     pk_Payload q = pk_Payload pkt ∧ ps_kind ps = KindVideo ∧
     ps_trackID ps = slotTrackID sender slot ∧
     ∃ x, audience sender x r ∧ acceptLayerLocked x sender slot rid r = true ∧
          out_of x sender KindVideo slot r = Some ps) ∧
  (∀ x ps, audience sender x r → acceptLayerLocked x sender slot rid r = true →
     out_of x sender KindVideo slot r = Some ps →
     write_ok (WSlot ps) = true → (WSlot ps, written (WSlot ps) pkt) ∈ out) ∧
  NoDup (written_tracks out) ∧
  (sources sender slot r !! "" = None →
   (∃ c, c ∈ ["f"; "h"; "q"] ∧ is_Some (sources sender slot r !! c)) →
   ∀ x, ∃ layer, is_Some (sources sender slot r !! layer) ∧
     (∀ rid', acceptLayerLocked x sender slot rid' r = true ↔ rid' = layer) ∧
     (layerPrefLocked x r ∈ ["f"; "h"; "q"] →
      is_Some (sources sender slot r !! layerPrefLocked x r) → layer = layerPrefLocked x r)).
Proof.
  intros Hr%reachable_rinv out. unfold out, ForwardVideo, video_writers. split_and!.
  - intros ps q (-> & _ & Hin)%elem_of_write_all.
    apply elem_of_app in Hin as [Hin|(_ & ? & ? & ? & _)%elem_of_tap_writers]; [|done].
    apply elem_of_slot_writers in Hin as (x & [Ha Hx]%list_elem_of_filter & Ho).
    rewrite (elem_of_targets _ _ _ Hr) in Hx.
    destruct (out_labels _ _ _ _ _ _ Hr Ho). split_and!; eauto.
  - intros x ps Hx Ha Ho Hok. apply elem_of_write_all. split_and!; [done..|].
    apply elem_of_app. left. apply elem_of_slot_writers. exists x.
    by rewrite list_elem_of_filter, elem_of_targets.
  - apply written_tracks_write; [|apply tap_writers_only].
    apply slot_tracks_distinct; [done|apply NoDup_filter, NoDup_targets].
  - intros He Hs x. by apply accept_one.
Qed.

End theorems.

(** ** Slot claims *)

Definition held (c key : string) (r : Router) : option Z := slotClaims r !! c ≫= (.!! key).

Definition claims_ok (r : Router) : Prop :=
  0 ≤ slotEpoch r ∧ ∀ c key tok, held c key r = Some tok → 0 < tok ≤ slotEpoch r.

Section claims.
Context (add_track : nat → bool).
Context `{!∀ V, MapRange string V, !∀ V, MapRange Z V}.
Implicit Types r : Router.

(** A critical section taken before the 64-bit token counter has wrapped. *)
Definition fresh_step r r' : Prop := rstep add_track r r' ∧ slotEpoch r < 2 ^ 64 - 1.

Lemma held_default c key r : default ∅ (slotClaims r !! c) !! key = held c key r.
Proof. unfold held. destruct (slotClaims r !! c); simpl; [done|apply lookup_empty]. Qed.

Lemma held_claim c key r x k :
  held x k (claimSlot c key r).1 =
  if decide (x = c ∧ k = key ∧ held c key r = None) then Some (u64 (slotEpoch r + 1)) else held x k r.
Proof.
  unfold claimSlot. rewrite held_default. destruct (held c key r) eqn:E; simpl.
  - rewrite decide_False by naive_solver. unfold held. simpl.
    destruct (decide (c = x)) as [->|]; [|by rewrite lookup_insert_ne].
    rewrite lookup_insert_eq. simpl. apply held_default.
  - unfold held. simpl. destruct (decide (c = x)) as [->|].
    + rewrite lookup_insert_eq. simpl. destruct (decide (key = k)) as [->|].
      * by rewrite lookup_insert_eq, decide_True.
      * rewrite lookup_insert_ne, decide_False by naive_solver. apply held_default.
    + rewrite lookup_insert_ne, decide_False by naive_solver. done.
Qed.

Lemma held_release c key tok r x k :
  held x k (releaseSlot c key tok r) =
  if decide (x = c ∧ k = key ∧ default 0 (held c key r) = tok) then None else held x k r.
Proof.
  unfold releaseSlot. destruct (slotClaims r !! c) as [claims|] eqn:Hc.
  2: { case_decide as Hd; [|done]. destruct Hd as (-> & _ & _). unfold held. by rewrite Hc. }
  assert (held c key r = claims !! key) as Hh by (unfold held; by rewrite Hc).
  rewrite Hh. destruct (default 0 (claims !! key) =? tok) eqn:E; bools.
  2: { rewrite decide_False by tauto. done. }
  assert (∀ m : gmap string (gmap string Z), (m !! x ≫= (.!! k) = if decide (x = c) then delete key claims !! k else held x k r) →
    m !! x ≫= (.!! k) = (if decide (x = c ∧ k = key ∧ default 0 (claims !! key) = tok)
                         then None else held x k r)) as Hgoal.
  { intros m ->. destruct (decide (x = c)) as [->|].
    - destruct (decide (k = key)) as [->|].
      + by rewrite lookup_delete_eq, decide_True.
      + rewrite lookup_delete_ne, decide_False by naive_solver. unfold held. by rewrite Hc.
    - by rewrite decide_False by naive_solver. }
  destruct (decide (delete key claims = ∅)) as [He|He]; unfold held at 1; simpl; apply Hgoal.
  - destruct (decide (x = c)) as [->|]; [rewrite lookup_delete_eq, He; by rewrite lookup_empty|].
    by rewrite lookup_delete_ne.
  - destruct (decide (x = c)) as [->|]; [by rewrite lookup_insert_eq|by rewrite lookup_insert_ne].
Qed.

Lemma claims_ok_sub r r' :
  slotEpoch r' = slotEpoch r → (∀ c key tok, held c key r' = Some tok → held c key r = Some tok) →
  claims_ok r → claims_ok r'.
Proof. intros He Hs [H1 H2]. split; [by rewrite He|]. intros. rewrite He. eauto. Qed.

(** Steps that leave the claims alone. *)
Definition same_claims r r' : Prop := slotClaims r' = slotClaims r ∧ slotEpoch r' = slotEpoch r.

Lemma same_claims_only r r' : tracks_only r r' → same_claims r r'.
Proof. unfold tracks_only. intros H'. by rewrite H'. Qed.

#[local] Instance same_claims_preorder : PreOrder same_claims.
Proof. split; [done|]. intros r1 r2 r3 [??] [??]. split; congruence. Qed.

Lemma same_claims_join ch c r : same_claims r (join_locked add_track ch c r).1.
Proof.
  rewrite join_locked_moved. etrans; [|apply same_claims_only, add_all_only].
  unfold moved. destruct (clientChan r !! c) as [prev|]; [|done]. case_decide; [done|].
  trans (removePairsLocked prev c (leaveChannelLocked prev c r)).1; [|done].
  etrans; [|apply same_claims_only, removePairs_only]. unfold leaveChannelLocked. by case_match.
Qed.

Lemma same_claims_leave ch c r : same_claims r (LeaveChannel ch c r).1.
Proof.
  rewrite LeaveChannel_fst. etrans; [|apply same_claims_only, removePairs_only].
  unfold leaveChannelLocked. by case_match.
Qed.

Lemma same_claims_slots p d r : same_claims r (SetTrackSlots add_track p d r).1.
Proof.
  apply SetTrackSlots_ind; [done|]. intros st s Hst. etrans; [done|].
  apply same_claims_only, sync_slots_only.
Qed.

Lemma same_claims_whisper c cs chs a r : same_claims r (SetWhisper add_track c cs chs a r).1.
Proof.
  apply SetWhisper_ind; [done|..].
  - intros [r1 set] s Hst. etrans; [done|]. unfold whisper_add.
    pose proof (same_claims_only _ _ (addPublisherLocked_only add_track s c r1)) as Hs.
    destruct (addPublisherLocked add_track s c r1) as [r2 b]. by destruct b.
  - intros keep [r1 set] s Hst. etrans; [done|]. unfold whisper_drop. case_decide; [done|].
    case_match; [done|]. simpl. etrans; [|apply same_claims_only, removePublisherLocked_only]. done.
  - intros r1 Hr1. by etrans.
Qed.

Lemma same_claims_ok r r' : same_claims r r' → claims_ok r → claims_ok r'.
Proof.
  intros [Hc He]. apply claims_ok_sub; [done|]. unfold held. by rewrite Hc.
Qed.

Lemma claims_ok_step r r' : claims_ok r → fresh_step r r' → claims_ok r'.
Proof.
  intros Hok [Hstep Hw]. destruct Hstep; try (apply (same_claims_ok r); [done|done]).
  - by eapply same_claims_ok; [apply same_claims_join|].
  - by eapply same_claims_ok; [apply same_claims_leave|].
  - eapply same_claims_ok; [apply same_claims_only, add_all_only|done].
  - by eapply same_claims_ok; [apply same_claims_slots|].
  - by eapply same_claims_ok; [apply same_claims_whisper|].
  - apply (claims_ok_sub r); [by destruct b| |done]. intros x key tok.
    unfold held.
    assert (slotClaims (detach_locked c b r).1 = delete c (slotClaims r)) as -> by by destruct b.
    destruct (decide (c = x)) as [->|]; [by rewrite lookup_delete_eq|].
    by rewrite lookup_delete_ne.
  - eapply same_claims_ok; [apply same_claims_only, removePublisherLocked_only|done].
  - apply (same_claims_ok r); [|done]. unfold allowKeyframeRequest. by case_match.
  - destruct Hok as [H1 H2]. unfold claims_ok. setoid_rewrite held_claim.
    assert (slotEpoch r ≤ slotEpoch (claimSlot c key r).1 ∧
      (held c key r = None → slotEpoch (claimSlot c key r).1 = slotEpoch r + 1) ∧
      u64 (slotEpoch r + 1) = slotEpoch r + 1) as (H3 & H4 & H5).
    { assert (u64 (slotEpoch r + 1) = slotEpoch r + 1) as Hu by (apply wrap_u_small; lia).
      unfold claimSlot. rewrite held_default. destruct (held c key r); simpl; rewrite ?Hu;
        split_and!; try done; lia. }
    split; [lia|]. intros x k tok. case_decide as Hd.
    + destruct Hd as (_ & _ & Hn). rewrite H5. rewrite (H4 Hn). intros [= <-]. lia.
    + intros Ht%H2. lia.
  - apply (claims_ok_sub r); [| |done].
    + unfold releaseSlot. by repeat case_match.
    + intros x k t. rewrite held_release. by case_decide.
  - apply (same_claims_ok r); [|done]. unfold unregister_source.
    destruct (videoSources r !! c); [|done]. by case_decide.
Qed.

(** A slot has one source at a time. In every reachable state, a read loop
    gets a claim exactly when the slot is free, with a token larger than every
    token issued before; while it holds the claim no other loop gets the slot, and
    a loop left over from before a peer rebuild, whose token is another one,
    cannot release it. *)
Theorem slot_single_source r c key :
  rtc fresh_step NewRouter r → slotEpoch r < 2 ^ 64 - 1 →
  (∀ tok, held c key r = Some tok →
     (claimSlot c key r).2 = None ∧ held c key (claimSlot c key r).1 = Some tok ∧
     held c key (releaseSlot c key tok r) = None ∧
     ∀ tok', tok' ≠ tok → held c key (releaseSlot c key tok' r) = Some tok) ∧
  (held c key r = None →
     (claimSlot c key r).2 = Some (slotEpoch r + 1) ∧
     held c key (claimSlot c key r).1 = Some (slotEpoch r + 1)) ∧
  (∀ c' key' tok', held c' key' r = Some tok' → 0 < tok' ≤ slotEpoch r).
Proof.
  intros Hr Hw.
  assert (claims_ok r) as [H1 H2].
  { apply (rtc_invariant fresh_step claims_ok NewRouter); [apply claims_ok_step| |done].
    split; [done|]. intros x k tok. unfold held. simpl. by rewrite lookup_empty. }
  assert (u64 (slotEpoch r + 1) = slotEpoch r + 1) as Hu by (apply wrap_u_small; lia).
  split_and!; [| |done].
  - intros tok Ht. rewrite held_claim, decide_False by naive_solver. split_and!; [|done|..].
    + unfold claimSlot. by rewrite held_default, Ht.
    + rewrite held_release, decide_True; [done|]. by rewrite Ht.
    + intros tok' Hne. rewrite held_release, decide_False; [done|]. rewrite Ht. simpl. naive_solver.
  - intros Hn. rewrite held_claim, decide_True by done. rewrite Hu. split; [|done].
    unfold claimSlot. rewrite held_default, Hn. simpl. by rewrite Hu.
Qed.

End claims.

(** ** Keyframe requests *)

(** A sequence of keyframe requests (an SSRC and the time it is made) and the
    ones that are let through. *)
Fixpoint passed (reqs : list (Z * Z)) (r : Router) : list (Z * Z) :=
  match reqs with
  | [] => []
  | (ssrc, now) :: reqs =>
      let '(r, ok) := allowKeyframeRequest ssrc now r in
      (if ok then cons (ssrc, now) else id) (passed reqs r)
  end.

Lemma passed_elem reqs r x : x ∈ passed reqs r → x ∈ reqs.
Proof.
  revert r. induction reqs as [|[ssrc now] reqs IH]; intros r; simpl; [done|].
  destruct (allowKeyframeRequest ssrc now r) as [r1 ok]. destruct ok; simpl.
  - intros [->|Hin]%elem_of_cons; [left|right; eauto].
  - intros Hin. right. eauto.
Qed.

Lemma allow_last ssrc now r :
  let '(r', ok) := allowKeyframeRequest ssrc now r in
  (ok = true → keyframeLast r' = <[ssrc := now]> (keyframeLast r) ∧
     ∀ last, keyframeLast r !! ssrc = Some last → 0 < last → last ≤ now → second ≤ now - last) ∧
  (ok = false → r' = r).
Proof.
  unfold allowKeyframeRequest. destruct (keyframeLast r !! ssrc) as [last|] eqn:E; simpl.
  - destruct (negb (time_is_zero last) && (time_sub now last <? keyframeRequestWindow)) eqn:B; [done|].
    split; [|done]. intros _. split; [done|]. intros ? [= <-] Hp Hle.
    apply andb_false_iff in B as [B|B]; unfold time_is_zero, time_sub in B; bools; [lia|].
    unfold keyframeRequestWindow, second, min_int64, max_int64 in *. lia.
  - split; [|done]. intros _. split; [done|]. by intros ? [=].
Qed.

Lemma passed_after reqs r ssrc last t :
  keyframeLast r !! ssrc = Some last → 0 < last →
  StronglySorted Z.le reqs.*2 → Forall (λ q, last ≤ q.2) reqs →
  (ssrc, t) ∈ passed reqs r → second ≤ t - last.
Proof.
  revert r. induction reqs as [|[s now] reqs IH]; intros r Hlast Hp Hs Hle Hin; simpl in Hin;
    [by apply elem_of_nil in Hin|].
  pose proof (allow_last s now r) as Ha. destruct (allowKeyframeRequest s now r) as [r1 ok].
  destruct Ha as [Hyes Hno]. rewrite fmap_cons in Hs. apply StronglySorted_inv in Hs as [Hs Hnow].
  apply Forall_cons in Hle as [Hle Hles]. destruct ok; simpl in Hin.
  2: { specialize (Hno eq_refl) as ->. by apply (IH r). }
  destruct (Hyes eq_refl) as [Hmap Hgap]. destruct (decide (s = ssrc)) as [->|Hne].
  - specialize (Hgap last Hlast Hp Hle). apply elem_of_cons in Hin as [[= ->]|Hin%passed_elem]; [done|].
    rewrite Forall_fmap, Forall_forall in Hnow. specialize (Hnow _ Hin). simpl in Hnow. lia.
  - apply elem_of_cons in Hin as [[= -> ->]|Hin]; [done|]. apply (IH r1); try done.
    by rewrite Hmap, lookup_insert_ne.
Qed.

(** A publisher is not asked for keyframes more than once a second. Of any
    sequence of keyframe requests made at times that do not go backwards, two
    requests that are let through for the same SSRC are at least one second
    apart. *)
Theorem keyframes_spaced reqs r i j ssrc t t' :
  StronglySorted Z.le reqs.*2 → Forall (λ q, 0 < q.2) reqs →
  (i < j)%nat → passed reqs r !! i = Some (ssrc, t) → passed reqs r !! j = Some (ssrc, t') →
  second ≤ t' - t.
Proof.
  revert r i j. induction reqs as [|[s now] reqs IH]; intros r i j Hs Hpos Hij Hi Hj; [done|].
  simpl in Hi, Hj. pose proof (allow_last s now r) as Ha.
  destruct (allowKeyframeRequest s now r) as [r1 ok]. destruct Ha as [Hyes _].
  rewrite fmap_cons in Hs. apply StronglySorted_inv in Hs as [Hs Hle].
  apply Forall_cons in Hpos as [Hp Hpos]. destruct ok; simpl in Hi, Hj; [|by eapply (IH r1 i j)].
  destruct j as [|j]; [lia|]. destruct i as [|i]; [|by eapply (IH r1 i j); eauto; lia].
  simplify_eq/=. apply list_elem_of_lookup_2 in Hj. eapply (passed_after reqs r1); try done.
  - destruct (Hyes eq_refl) as [-> _]. apply lookup_insert_eq.
  - by rewrite Forall_fmap in Hle.
Qed.

(** ** Concrete runs *)

Section demo.
#[local] Instance demo_range_s V : MapRange string V := stdpp_range.
#[local] Instance demo_range_z V : MapRange Z V := stdpp_range.

Definition always {A} (_ : A) : bool := true.
Definition no_clock (_ : nat) : Z := 0.
Definition demo_packet : rtpPacket :=
  {| pk_Extension := true; pk_ExtensionProfile := 48862; pk_Extensions := [(1, [40])];
     pk_Header := [111; 1]; pk_Payload := [7; 8; 9] |}.

Definition demo_runs (ops : list vop) : Router := vruns always ((λ op, (op, no_clock)) <$> ops).

Lemma vruns_steps add_track ops : rtc (rstep add_track) NewRouter (vruns add_track ops).
Proof.
  unfold vruns. apply (foldl_ind (λ r, rtc (rstep add_track) NewRouter r)); [done|].
  intros r [op clock] _ Hr. etrans; [done|apply vrun_steps].
Qed.

(** Ada and Bob share channel 1, Eve is in channel 2, a recorder follows channel 1. *)
Definition demo : Router := demo_runs
  [VJoin "ada" 1; VOffer "ada" 1%nat OfferAccepted; VOffer "bob" 2%nat OfferAccepted; VJoin "bob" 1;
   VOffer "eve" 3%nat OfferAccepted; VJoin "eve" 2; VAddTap 1 "tap" (Some 9%nat) None;
   VSlots "ada" {["t1" := "screenaudio"]}].

Definition channel_of (r : Router) (c : string) : option Z := clientChan r !! c.
Definition attached (r : Router) (c : string) : bool := bool_decide (is_Some (pubPeers r !! c)).
Definition has_pair (r : Router) (s p : string) : bool := bool_decide (is_Some (pair_of s p r)).

Lemma forward_exact_witness :
  length (ForwardRTP always "ada" SlotMic demo_packet demo) = 2%nat ∧
  NoDup (written_tracks (ForwardRTP always "ada" SlotMic demo_packet demo)).
Proof.
  split; [vm_compute; reflexivity|].
  apply (forward_exact always always demo "ada" SlotMic demo_packet). apply vruns_steps.
Defined.


Definition demo_simulcast : Router :=
  register_source "ada" SlotCam "f" 11 (register_source "ada" SlotCam "q" 12 demo).

Lemma video_forward_exact_witness :
  length (ForwardVideo always "ada" SlotCam "q" demo_packet demo_simulcast) = 1%nat ∧
  NoDup (written_tracks (ForwardVideo always "ada" SlotCam "q" demo_packet demo_simulcast)).
Proof.
  split; [vm_compute; reflexivity|].
  apply (video_forward_exact always always demo_simulcast "ada" SlotCam "q" demo_packet).
  etrans; [apply vruns_steps|]. eapply rtc_l; [apply st_register|]. apply rtc_once, st_register.
Defined.

Lemma slot_single_source_witness :
  held "ada" SlotMic (claimSlot "ada" SlotMic NewRouter).1 = Some 1 ∧
  (claimSlot "ada" SlotMic (claimSlot "ada" SlotMic NewRouter).1).2 = None.
Proof.
  split; [vm_compute; reflexivity|].
  apply (slot_single_source always (claimSlot "ada" SlotMic NewRouter).1 "ada" SlotMic) with (tok := 1).
  - apply rtc_once. split; [apply st_claim|]. vm_compute. reflexivity.
  - vm_compute. reflexivity.
  - vm_compute. reflexivity.
Defined.

Lemma keyframes_spaced_witness :
  passed [(5, second); (5, second + 1); (5, 2 * second)] NewRouter = [(5, second); (5, 2 * second)] ∧
  second ≤ 2 * second - second.
Proof.
  split; [vm_compute; reflexivity|].
  apply (keyframes_spaced [(5, second); (5, second + 1); (5, 2 * second)] NewRouter 0 1 5).
  - repeat constructor; unfold second; simpl; lia.
  - repeat constructor; unfold second; simpl; lia.
  - lia.
  - vm_compute. reflexivity.
  - vm_compute. reflexivity.
Defined.

(** Ada whispers to channel 2 from channel 1. *)
Definition whispering : list vop :=
  [VOffer "bob" 1%nat OfferAccepted; VJoin "bob" 2; VOffer "ada" 2%nat OfferAccepted; VJoin "ada" 1;
   VWhisper "ada" [] [2] true].

(** A track created for a whisper survives the end of the whisper when its
    target has left the whispered channel in the meantime, although nothing
    justifies it any more. *)
Theorem whisper_track_leaks :
  let r := demo_runs (whispering ++ [VJoin "bob" 3; VWhisper "ada" [] [] false]) in
  has_pair r "bob" "ada" = true ∧ channel_of r "bob" = Some 3 ∧ channel_of r "ada" = Some 1 ∧
  w_active <$> whispers r !! "ada" = Some false.
Proof. vm_compute. done. Qed.

(** [LeaveChannel] by a client that is not a member of the channel is not a
    no-op: it tears down the client's whisper tracks to the channel's members. *)
Theorem leave_by_outsider_drops_tracks :
  let r := demo_runs whispering in
  channel_of r "ada" = Some 1 ∧ has_pair r "bob" "ada" = true ∧
  has_pair (LeaveChannel 2 "ada" r).1 "bob" "ada" = false.
Proof. vm_compute. done. Qed.

End demo.
