(* ===== verification/MediaLoops.v ===== *)
(** * Voice activity and the read loops of [src/internal/webrtc/router.go]

    The loops that read a publisher's tracks run outside the router's mutex and
    see the router as it is at each packet, so a loop is a function of the list
    of its turns: the packet, the time, and the router at that time. Pion's
    [GetExtension] is a parameter. *)

From S2P Require Import Prelude Wire Router.

(** ** Voice activity *)

Definition vadSpeakThreshold : Z := 55.
Definition vadHangover : Z := 300000000.

Record vad := { v_speaking : bool; v_lastVoice : Z }.

Definition new_vad : vad := {| v_speaking := false; v_lastVoice := 0 |}.

(** The state after a reading, the speaking state and whether it changed. *)
Definition Update (level now : Z) (v : vad) : vad * (bool * bool) :=
  if level <=? vadSpeakThreshold then
    let v' := {| v_speaking := true; v_lastVoice := now |} in
    (v', (true, negb (v_speaking v)))
  else if v_speaking v && (vadHangover <=? time_sub now (v_lastVoice v)) then
    ({| v_speaking := false; v_lastVoice := v_lastVoice v |}, (false, true))
  else (v, (v_speaking v, false)).

(** ** Header extensions *)

Record headerExtension := { he_URI : string; he_ID : Z }.

(** [AudioLevelURI] is the constant of Pion's sdp package. *)
Fixpoint audioLevelExtIDFromExtensions (AudioLevelURI : string)
    (extensions : list headerExtension) : Z :=
  match extensions with
  | [] => 0
  | ext :: rest =>
      if String.eqb (he_URI ext) AudioLevelURI then
        match IntToUint8 (he_ID ext) with
        | Ok id => if id =? 0 then audioLevelExtIDFromExtensions AudioLevelURI rest else id
        | Err _ => audioLevelExtIDFromExtensions AudioLevelURI rest
        end
      else audioLevelExtIDFromExtensions AudioLevelURI rest
  end.

Section loops.
Context (GetExtension : rtpPacket → Z → list Z).
Context (write_ok : writer → bool).
Context `{!∀ V, MapRange string V, !∀ V, MapRange Z V}.

Definition audioLevel (pkt : rtpPacket) (extID : Z) : option Z :=
  match GetExtension pkt extID with
  | [] => None
  | b :: _ => Some (Z.land b 127)
  end.

Record turn := { tn_pkt : rtpPacket; tn_now : Z; tn_router : Router }.

Inductive mediaEvent :=
| Spoke (speaking : bool)
| Forwarded (out : list (writer * rtpPacket)).

Definition speak (speaking : bool) (r : Router) : list mediaEvent :=
  if onSpeaking r then [Spoke speaking] else [].

Definition talk_allowed (clientID : string) (r : Router) : bool :=
  if allowTalk clientID r then true else isMusicChannelLocked clientID r.

(** One turn of [ReadLoop]: the voice activity state, whether the client is
    announced as speaking, and what the turn did. *)
Definition read_turn (clientID slot : string) (extID : Z) (v : vad) (announced : bool) (tn : turn)
  : vad * bool * list mediaEvent :=
  let r := tn_router tn in
  if talk_allowed clientID r then
    let '(v, announced, e) :=
      if extID =? 0 then (v, announced, [])
      else match audioLevel (tn_pkt tn) extID with
           | None => (v, announced, [])
           | Some level =>
               let '(v, (speaking, _)) := Update level (tn_now tn) v in
               if Bool.eqb speaking announced then (v, announced, [])
               else (v, speaking, speak speaking r)
           end in
    (v, announced, e ++ [Forwarded (ForwardRTP write_ok clientID slot (tn_pkt tn) r)])
  else if announced then (v, false, speak false r) else (v, announced, []).

Fixpoint read_turns (clientID slot : string) (extID : Z) (v : vad) (announced : bool)
    (turns : list turn) : bool * list mediaEvent :=
  match turns with
  | [] => (announced, [])
  | tn :: turns =>
      let '(v, announced, e) := read_turn clientID slot extID v announced tn in
      let '(announced, es) := read_turns clientID slot extID v announced turns in
      (announced, e ++ es)
  end.

(** [ReadLoop] over the packets of a track that ends while the router is [r_end]:
    [None] when the slot is already in use. The claim is released at the end. *)
Definition ReadLoop (clientID slot : string) (extID : Z) (turns : list turn) (r_start r_end : Router)
  : option (Router * Router * list mediaEvent) :=
  match claimSlot clientID slot r_start with
  | (_, None) => None
  | (r_claimed, Some token) =>
      let extID := if String.eqb slot SlotMic then extID else 0 in
      let '(announced, es) := read_turns clientID slot extID new_vad false turns in
      Some (r_claimed, releaseSlot clientID slot token r_end,
            es ++ (if announced then speak false r_end else []))
  end.

(** The turns of [ReadVideoLoop] after the source is registered. *)
Definition video_turns (clientID slot rid : string) (turns : list turn)
  : list (list (writer * rtpPacket)) :=
  (λ tn, ForwardVideo write_ok clientID slot rid (tn_pkt tn) (tn_router tn))
    <$> filter (λ tn, allowVideo clientID (tn_router tn) = true) turns.

Definition video_claim (slot rid : string) : string :=
  String.append slot (String.append slotSep rid).

Definition ReadVideoLoop (clientID slot rid : string) (ssrc : Z) (turns : list turn)
    (r_start r_end : Router) : option (Router * Router * list (list (writer * rtpPacket))) :=
  if allowVideo clientID r_start then
    match claimSlot clientID (video_claim slot rid) r_start with
    | (_, None) => None
    | (r_claimed, Some token) =>
        Some (register_source clientID slot rid ssrc r_claimed,
              releaseSlot clientID (video_claim slot rid) token
                (unregister_source clientID slot rid ssrc r_end),
              video_turns clientID slot rid turns)
    end
  else None.

(** [rtcpRelayLoop]: the packets of a subscriber's sender, each with the time it
    is handled at. *)
Inductive rtcpPacket :=
| PictureLossIndication (mediaSSRC : Z)
| FullIntraRequest (mediaSSRC : Z)
| OtherRTCP.

Fixpoint rtcpRelayLoop (pkts : list (rtcpPacket * Z)) (r : Router) : Router * list effect :=
  match pkts with
  | [] => (r, [])
  | (pkt, now) :: pkts =>
      let '(r, e) := match pkt with
                     | PictureLossIndication ssrc | FullIntraRequest ssrc =>
                         relayKeyframeRequest ssrc now r
                     | OtherRTCP => (r, [])
                     end in
      let '(r, es) := rtcpRelayLoop pkts r in
      (r, e ++ es)
  end.

(** ** Voice activity is a 300 ms hangover *)

Definition vad_run (readings : list (Z * Z)) : vad :=
  foldl (λ v '(level, now), (Update level now v).1) new_vad readings.

(** Somebody spoke, and every reading since is silent and younger than the
    hangover. *)
Definition heard (readings : list (Z * Z)) : Prop :=
  ∃ pre level tv post, readings = pre ++ (level, tv) :: post ∧ level ≤ vadSpeakThreshold ∧
    Forall (λ '(level, now), vadSpeakThreshold < level ∧ now - tv < vadHangover) post.

Lemma vad_run_snoc readings level now :
  vad_run (readings ++ [(level, now)]) = (Update level now (vad_run readings)).1.
Proof. unfold vad_run. by rewrite foldl_app. Qed.

Lemma hangover_sub now tv : (vadHangover <=? time_sub now tv) = (vadHangover <=? now - tv).
Proof.
  unfold time_sub, vadHangover, min_int64, max_int64.
  destruct (Z.leb_spec 300000000 (now - tv)); [apply Z.leb_le|apply Z.leb_gt]; lia.
Qed.

(** The last voice reading of a list is unique. *)
Lemma last_voice_unique pre (l tv : Z) post pre' l' tv' post' :
  pre ++ (l, tv) :: post = pre' ++ (l', tv') :: post' →
  l ≤ vadSpeakThreshold → l' ≤ vadSpeakThreshold →
  Forall (λ q, vadSpeakThreshold < q.1) post → Forall (λ q, vadSpeakThreshold < q.1) post' →
  tv = tv'.
Proof.
  intros He Hl Hl' Hp Hp'. revert pre' He.
  induction pre as [|y pre IH]; intros [|y' pre'] He; simpl in He; simplify_eq; [done|..|by eapply IH].
  - apply Forall_app in Hp as [_ [Hb _]%Forall_cons]. simpl in Hb. lia.
  - apply Forall_app in Hp' as [_ [Hb _]%Forall_cons]. simpl in Hb. lia.
Qed.

(** A silent reading at the end of a list that is [heard]. *)
Lemma heard_snoc readings level now :
  vadSpeakThreshold < level → heard (readings ++ [(level, now)]) →
  ∃ pre l tv post, readings = pre ++ (l, tv) :: post ∧ l ≤ vadSpeakThreshold ∧
    now - tv < vadHangover ∧
    Forall (λ '(level, now), vadSpeakThreshold < level ∧ now - tv < vadHangover) post.
Proof.
  intros Hlv (pre & l & tv & post & He & Hl & Hf). destruct (decide (post = [])) as [->|Hne].
  { apply app_inj_tail in He as [_ [= -> ->]]. lia. }
  destruct (exists_last Hne) as (post' & [x y] & ->). rewrite app_comm_cons, app_assoc in He.
  apply app_inj_tail in He as [-> [= <- <-]].
  apply Forall_app in Hf as [Hf [[_ Hx] _]%Forall_cons]. by exists pre, l, tv, post'.
Qed.

Lemma silent_fst tv post :
  Forall (λ '(level, now), vadSpeakThreshold < level ∧ now - tv < vadHangover) post →
  Forall (λ q : Z * Z, vadSpeakThreshold < q.1) post.
Proof. intros Hf. eapply Forall_impl; [done|]. intros [??] [? _]. done. Qed.

Lemma vad_run_spec readings :
  (v_speaking (vad_run readings) = true →
     ∃ pre level post, readings = pre ++ (level, v_lastVoice (vad_run readings)) :: post ∧
       level ≤ vadSpeakThreshold ∧
       Forall (λ '(level, now), vadSpeakThreshold < level ∧
                 now - v_lastVoice (vad_run readings) < vadHangover) post) ∧
  (heard readings → v_speaking (vad_run readings) = true).
Proof.
  induction readings as [|[level now] readings [IH1 IH2]] using rev_ind.
  { split; [done|]. intros (pre & ? & ? & post & He & _). by destruct pre. }
  rewrite vad_run_snoc. unfold Update. destruct (level <=? vadSpeakThreshold) eqn:El; bools; simpl.
  { split; [|done]. intros _. exists readings, level, []. split_and!; [done..|constructor]. }
  destruct (v_speaking (vad_run readings)) eqn:Es; simpl.
  - rewrite hangover_sub. destruct (IH1 eq_refl) as (pre & l & post & Hr & Hl & Hf).
    destruct (vadHangover <=? now - v_lastVoice (vad_run readings)) eqn:Eh; bools; simpl.
    + split; [done|]. intros (pre' & l' & tv & post' & He & Hl' & Hx & Hf')%heard_snoc; [|done].
      assert (v_lastVoice (vad_run readings) = tv); [|lia].
      rewrite Hr in He at 1. eapply last_voice_unique; eauto using silent_fst.
    + split; [|done]. intros _. exists pre, l, (post ++ [(level, now)]).
      split_and!; [by rewrite Hr at 1; rewrite <- app_assoc|done|].
      apply Forall_app. split; [done|]. by repeat constructor.
  - split; [congruence|]. intros (pre' & l' & tv & post' & He & Hl' & _ & Hf')%heard_snoc; [|done].
    rewrite Es. apply IH2. by exists pre', l', tv, post'.
Qed.

(** The speaking indicator is exactly a 300 ms hangover. After any sequence
    of audio-level readings, at whatever times, the detector says speaking if and
    only if some reading was at or below the threshold and every reading since
    was silent and less than the hangover later. *)
Theorem vad_exact readings : v_speaking (vad_run readings) = true ↔ heard readings.
Proof.
  destruct (vad_run_spec readings) as [H1 H2]. split; [|done].
  intros (pre & l & post & ? & ? & ?)%H1. by exists pre, l, (v_lastVoice (vad_run readings)), post.
Qed.

(** ** The read loop *)

Definition forwards (es : list mediaEvent) : list (list (writer * rtpPacket)) :=
  omap (λ e, match e with Forwarded out => Some out | Spoke _ => None end) es.

Definition spoken (es : list mediaEvent) : list bool :=
  omap (λ e, match e with Spoke b => Some b | Forwarded _ => None end) es.

(** [b, negb b, b, ...] *)
Fixpoint alternates (b : bool) (l : list bool) : Prop :=
  match l with
  | [] => True
  | x :: l => x = b ∧ alternates (negb b) l
  end.

Lemma read_turns_forwards c slot extID v an turns :
  forwards (read_turns c slot extID v an turns).2 =
  (λ tn, ForwardRTP write_ok c slot (tn_pkt tn) (tn_router tn))
    <$> filter (λ tn, talk_allowed c (tn_router tn) = true) turns.
Proof.
  revert v an. induction turns as [|tn turns IH]; intros v an; [done|]. simpl.
  assert (forwards (read_turn c slot extID v an tn).2 =
    if talk_allowed c (tn_router tn) then [ForwardRTP write_ok c slot (tn_pkt tn) (tn_router tn)]
    else []) as Hf.
  { unfold read_turn, speak. destruct (talk_allowed c (tn_router tn)).
    - repeat (case_match; simplify_eq/=); done.
    - destruct an; [|done]. by destruct (onSpeaking (tn_router tn)). }
  destruct (read_turn c slot extID v an tn) as [[v1 an1] e]. specialize (IH v1 an1).
  destruct (read_turns c slot extID v1 an1 turns) as [an2 es]. cbn [snd] in *.
  unfold forwards in *. rewrite omap_app, Hf, IH, filter_cons.
  destruct (talk_allowed c (tn_router tn)); [by rewrite decide_True|by rewrite decide_False].
Qed.

Lemma alternates_app b l1 l2 :
  alternates b l1 → alternates (if Nat.odd (length l1) then negb b else b) l2 → alternates b (l1 ++ l2).
Proof.
  revert b. induction l1 as [|x l1 IH]; intros b; [done|]. cbn [app alternates length].
  intros [-> H1] H2. split; [done|]. apply IH; [done|].
  rewrite Nat.odd_succ, <- Nat.negb_odd in H2. destruct (Nat.odd (length l1)); simpl in *;
    by rewrite ?negb_involutive.
Qed.

(** Announcements flip the state, starting from the opposite of [an]. *)
Lemma read_turn_spoken c slot extID v an tn :
  onSpeaking (tn_router tn) = true →
  let '(_, an', e) := read_turn c slot extID v an tn in
  alternates (negb an) (spoken e) ∧ an' = xorb an (Nat.odd (length (spoken e))).
Proof.
  intros Hs. unfold read_turn, speak. rewrite Hs. destruct (talk_allowed c (tn_router tn)).
  - destruct (extID =? 0); [by destruct an|]. destruct (audioLevel (tn_pkt tn) extID) as [l|]; [|by destruct an].
    destruct (Update l (tn_now tn) v) as [v1 [sp ch]]. by destruct sp, an.
  - by destruct an.
Qed.

Lemma read_turns_spoken c slot extID v an turns :
  Forall (λ tn, onSpeaking (tn_router tn) = true) turns →
  alternates (negb an) (spoken (read_turns c slot extID v an turns).2) ∧
  (read_turns c slot extID v an turns).1 =
    xorb an (Nat.odd (length (spoken (read_turns c slot extID v an turns).2))).
Proof.
  revert v an. induction turns as [|tn turns IH]; intros v an Hs; [by destruct an|].
  apply Forall_cons in Hs as [Hs Hss]. simpl.
  pose proof (read_turn_spoken c slot extID v an tn Hs) as Ht.
  destruct (read_turn c slot extID v an tn) as [[v1 an1] e]. destruct Ht as [Ha ->].
  destruct (IH v1 (xorb an (Nat.odd (length (spoken e)))) Hss) as [H1 H2].
  destruct (read_turns c slot extID v1 _ turns) as [an2 es]. cbn [fst snd] in *.
  unfold spoken in *. rewrite omap_app, length_app, Nat.odd_add.
  split; [apply alternates_app; [done|]|rewrite H2; by rewrite xorb_assoc].
  destruct an, (Nat.odd _); done.
Qed.

(** Without a level extension nothing is announced. *)
Lemma read_turns_silent c slot v turns :
  (read_turns c slot 0 v false turns).1 = false ∧ spoken (read_turns c slot 0 v false turns).2 = [].
Proof.
  induction turns as [|tn turns IH]; [done|]. simpl.
  assert (∃ e, read_turn c slot 0 v false tn = (v, false, e) ∧ spoken e = []) as (e & -> & He).
  { unfold read_turn. destruct (talk_allowed c (tn_router tn)); simpl; eauto. }
  destruct (read_turns c slot 0 v false turns) as [an es]. cbn [fst snd] in *.
  destruct IH as [-> IH]. unfold spoken in *. by rewrite omap_app, He, IH.
Qed.

(** The talk gate and the speaking indicator of a live track. A read loop
    that gets its slot forwards exactly the packets that arrive while the talk
    gate (or a music channel) allows the client to talk, in order, and gives its
    slot back; it announces the speaking state strictly alternating, starting with
    speaking, so that a track that ends is never left announced as speaking; and a
    slot other than the microphone announces nothing. *)
Theorem read_loop_exact c slot extID turns r_start r_end r_claimed r_done es :
  ReadLoop c slot extID turns r_start r_end = Some (r_claimed, r_done, es) →
  Forall (λ tn, onSpeaking (tn_router tn) = true) turns → onSpeaking r_end = true →
  forwards es = (λ tn, ForwardRTP write_ok c slot (tn_pkt tn) (tn_router tn))
    <$> filter (λ tn, talk_allowed c (tn_router tn) = true) turns ∧
  alternates true (spoken es) ∧ Nat.even (length (spoken es)) = true ∧
  (slot ≠ SlotMic → spoken es = []).
Proof.
  unfold ReadLoop. destruct (claimSlot c slot r_start) as [r1 [tok|]]; [|done].
  intros Hres Hs Hend. set (ext := if String.eqb slot SlotMic then extID else 0) in *.
  pose proof (read_turns_forwards c slot ext new_vad false turns) as Hf.
  destruct (read_turns_spoken c slot ext new_vad false turns Hs) as [Ha Hb].
  assert (slot ≠ SlotMic → (read_turns c slot ext new_vad false turns).1 = false ∧
    spoken (read_turns c slot ext new_vad false turns).2 = []) as Hmic.
  { intros Hm. assert (ext = 0) as -> by (subst ext; by destruct (String.eqb_spec slot SlotMic)).
    apply read_turns_silent. }
  destruct (read_turns c slot ext new_vad false turns) as [an es0]. cbn [fst snd] in *.
  unfold speak in Hres. rewrite Hend in Hres. injection Hres as _ _ <-. unfold forwards, spoken in *.
  rewrite !omap_app. split_and!.
  - rewrite Hf. destruct an; simpl; by rewrite app_nil_r.
  - apply alternates_app; [done|]. cbn [negb] in Hb. rewrite xorb_false_l in Hb.
    rewrite <- Hb. by destruct an.
  - rewrite xorb_false_l in Hb. rewrite length_app, Nat.even_add, <- Nat.negb_odd, <- Hb. by destruct an.
  - intros Hm. destruct (Hmic Hm) as [-> Hn]. simpl. by rewrite app_nil_r.
Qed.

End loops.

Section demo.
#[local] Instance loop_range_s V : MapRange string V := stdpp_range.
#[local] Instance loop_range_z V : MapRange Z V := stdpp_range.

Definition first_extension (p : rtpPacket) (id : Z) : list Z :=
  default [] (snd <$> head (filter (λ e, e.1 = id) (pk_Extensions p))).

Definition loud (now : Z) : turn :=
  {| tn_pkt := {| pk_Extension := true; pk_ExtensionProfile := 48862; pk_Extensions := [(3, [40])];
                  pk_Header := []; pk_Payload := [1] |};
     tn_now := now; tn_router := SetHandlers None true NewRouter |}.

Lemma read_loop_exact_witness :
  ∃ r1 r2 es, ReadLoop first_extension (λ _, true) "ada" SlotMic 3 [loud second; loud (2 * second)]
                NewRouter (SetHandlers None true NewRouter) = Some (r1, r2, es) ∧
    spoken es = [true; false] ∧ alternates true (spoken es).
Proof.
  eexists _, _, _. split; [reflexivity|]. split; [reflexivity|].
  apply (read_loop_exact first_extension (λ _, true) "ada" SlotMic 3 [loud second; loud (2 * second)]
    NewRouter (SetHandlers None true NewRouter) (claimSlot "ada" SlotMic NewRouter).1
    (releaseSlot "ada" SlotMic 1 (SetHandlers None true NewRouter))).
  - reflexivity.
  - repeat constructor.
  - reflexivity.
Defined.

End demo.
