(* ===== verification/Renegotiation.v ===== *)
(** * Renegotiation scheduling: [src/internal/webrtc/voice.go]

    When the tracks of a subscriber change, the signalling layer owes it an SDP
    offer. Offers are debounced by a timer, and at most one is outstanding: while
    the client has not answered, changes stay pending and [HandleAnswer] resumes
    them. The scheduling state is shared by pointer between the map, the timer
    callbacks and the answers in progress, so states live in a heap; every method
    is a thread whose steps are the critical sections of [renegMu], and all
    interleavings of the threads are considered. How long a timer takes is left
    open: an armed timer may fire at any later time, or never. Creating an SDP
    offer is Pion's and may fail. *)

From S2P Require Import Prelude.

Abbreviation rptr := nat.
Abbreviation timer := nat.

Record renegState := {
  rs_timer : option timer;
  rs_generation : Z;
  rs_pending : bool;
  rs_lastSent : Z;
  rs_unanswered : Z;
}.

Definition new_reneg : renegState :=
  {| rs_timer := None; rs_generation := 0; rs_pending := false; rs_lastSent := 0; rs_unanswered := 0 |}.

(** Where a method stands: about to enter [scheduleRenegotiateForState]; between
    its first section and the creation of the timer; between the creation and the
    second section; a timer callback about to enter [sendRenegotiation]; about to
    create the offer; about to stamp and deliver it; [HandleAnswer] about to enter
    its second section. *)
Inductive thread :=
| TSchedule (c : string) (expected : option rptr)
| TArm (c : string) (p : rptr) (generation : Z)
| TArmed (c : string) (p : rptr) (generation : Z) (t : timer)
| TFire (c : string) (p : rptr) (generation : Z)
| TOffer (c : string) (p : rptr)
| TDeliver (c : string) (p : rptr)
| TAnswer (c : string) (st : option rptr).

(** [v_created] lists every timer ever created with what its callback is bound
    to, [v_armed] the timers that have neither fired nor been stopped, [v_peers]
    the clients with a peer connection, [v_offers] the offers delivered. *)
Record Voice := {
  v_reneg : gmap string rptr;
  v_cells : list renegState;
  v_created : list (string * rptr * Z);
  v_armed : gset timer;
  v_peers : gset string;
  v_offers : list string;
}.

Definition NewVoice : Voice :=
  {| v_reneg := ∅; v_cells := []; v_created := []; v_armed := ∅; v_peers := ∅; v_offers := [] |}.

Definition upd_reneg (f : gmap string rptr → gmap string rptr) (v : Voice) : Voice :=
  {| v_reneg := f (v_reneg v); v_cells := v_cells v; v_created := v_created v;
     v_armed := v_armed v; v_peers := v_peers v; v_offers := v_offers v |}.
Definition upd_cells (f : list renegState → list renegState) (v : Voice) : Voice :=
  {| v_reneg := v_reneg v; v_cells := f (v_cells v); v_created := v_created v;
     v_armed := v_armed v; v_peers := v_peers v; v_offers := v_offers v |}.
Definition upd_created (f : list (string * rptr * Z) → list (string * rptr * Z)) (v : Voice) : Voice :=
  {| v_reneg := v_reneg v; v_cells := v_cells v; v_created := f (v_created v);
     v_armed := v_armed v; v_peers := v_peers v; v_offers := v_offers v |}.
Definition upd_armed (f : gset timer → gset timer) (v : Voice) : Voice :=
  {| v_reneg := v_reneg v; v_cells := v_cells v; v_created := v_created v;
     v_armed := f (v_armed v); v_peers := v_peers v; v_offers := v_offers v |}.
Definition upd_peers (f : gset string → gset string) (v : Voice) : Voice :=
  {| v_reneg := v_reneg v; v_cells := v_cells v; v_created := v_created v;
     v_armed := v_armed v; v_peers := f (v_peers v); v_offers := v_offers v |}.
Definition upd_offers (f : list string → list string) (v : Voice) : Voice :=
  {| v_reneg := v_reneg v; v_cells := v_cells v; v_created := v_created v;
     v_armed := v_armed v; v_peers := v_peers v; v_offers := f (v_offers v) |}.

Definition set_timer (t : option timer) (s : renegState) : renegState :=
  {| rs_timer := t; rs_generation := rs_generation s; rs_pending := rs_pending s;
     rs_lastSent := rs_lastSent s; rs_unanswered := rs_unanswered s |}.
Definition set_generation (g : Z) (s : renegState) : renegState :=
  {| rs_timer := rs_timer s; rs_generation := g; rs_pending := rs_pending s;
     rs_lastSent := rs_lastSent s; rs_unanswered := rs_unanswered s |}.
Definition set_pending (b : bool) (s : renegState) : renegState :=
  {| rs_timer := rs_timer s; rs_generation := rs_generation s; rs_pending := b;
     rs_lastSent := rs_lastSent s; rs_unanswered := rs_unanswered s |}.
Definition set_lastSent (now : Z) (s : renegState) : renegState :=
  {| rs_timer := rs_timer s; rs_generation := rs_generation s; rs_pending := rs_pending s;
     rs_lastSent := now; rs_unanswered := rs_unanswered s |}.
Definition set_unanswered (n : Z) (s : renegState) : renegState :=
  {| rs_timer := rs_timer s; rs_generation := rs_generation s; rs_pending := rs_pending s;
     rs_lastSent := rs_lastSent s; rs_unanswered := n |}.

(** [timer.Stop()] on an optional timer. *)
Definition stop_timer (t : option timer) (v : Voice) : Voice :=
  match t with None => v | Some t => upd_armed (λ a, a ∖ {[t]}) v end.

(** ** scheduleRenegotiateForState *)

Definition schedule_delay (debounce rateLimit now : Z) (s : renegState) : Z :=
  let elapsed := time_sub now (rs_lastSent s) in
  if negb (time_is_zero (rs_lastSent s)) && (elapsed <? rateLimit) then rateLimit - elapsed
  else debounce.

Definition schedule_section (c : string) (expected : option rptr) (v : Voice) : Voice * list thread :=
  let st := v_reneg v !! c in
  if match expected with Some e => negb (bool_decide (st = Some e)) | None => false end then (v, [])
  else
    let '(p, v) := match st with
                   | Some p => (p, v)
                   | None => let p := length (v_cells v) in
                             (p, upd_reneg <[c := p]> (upd_cells (λ l, l ++ [new_reneg]) v))
                   end in
    match v_cells v !! p with
    | None => (v, [])
    | Some s =>
        let v := stop_timer (rs_timer s) v in
        let g := u64 (rs_generation s + 1) in
        (upd_cells <[p := set_pending true (set_generation g (set_timer None s))]> v, [TArm c p g])
    end.

Definition arm_section (c : string) (p : rptr) (g : Z) (v : Voice) : Voice * list thread :=
  let t := length (v_created v) in
  (upd_armed (λ a, {[t]} ∪ a) (upd_created (λ l, l ++ [(c, p, g)]) v), [TArmed c p g t]).

Definition armed_section (c : string) (p : rptr) (g : Z) (t : timer) (v : Voice)
  : Voice * list thread :=
  match v_cells v !! p with
  | Some s =>
      if bool_decide (v_reneg v !! c = Some p) && (rs_generation s =? g) && rs_pending s
      then (upd_cells <[p := set_timer (Some t) s]> v, [])
      else (stop_timer (Some t) v, [])
  | None => (stop_timer (Some t) v, [])
  end.

(** ** sendRenegotiation *)

Definition send_section (c : string) (p : rptr) (g : Z) (v : Voice) : Voice * list thread :=
  match v_cells v !! p with
  | Some s =>
      if bool_decide (v_reneg v !! c = Some p) && (rs_generation s =? g) && rs_pending s then
        let s := set_timer None s in
        if 0 <? rs_unanswered s then (upd_cells <[p := s]> v, [])
        else
          let s := set_pending false s in
          if decide (c ∈ v_peers v)
          then (upd_cells <[p := set_unanswered 1 s]> v, [TOffer c p])
          else (upd_cells <[p := s]> v, [])
      else (v, [])
  | None => (v, [])
  end.

Definition update_current (c : string) (p : rptr) (f : renegState → renegState) (v : Voice) : Voice :=
  match v_cells v !! p with
  | Some s => if decide (v_reneg v !! c = Some p) then upd_cells <[p := f s]> v else v
  | None => v
  end.

(** [wrapper.CreateOffer()] and what follows it. *)
Definition offer_section (created : bool) (c : string) (p : rptr) (v : Voice) : Voice * list thread :=
  if created then (v, [TDeliver c p]) else (update_current c p (set_unanswered 0) v, []).

Definition deliver_section (now : Z) (c : string) (p : rptr) (v : Voice) : Voice * list thread :=
  if decide (v_reneg v !! c = Some p)
  then (upd_offers (λ l, l ++ [c]) (update_current c p (set_lastSent now) v), [])
  else (v, []).

(** ** HandleAnswer, stopReneg *)

Definition answer_section (c : string) (st : option rptr) (v : Voice) : Voice * list thread :=
  match st with
  | None => (v, [])
  | Some p =>
      if decide (v_reneg v !! c = Some p) then
        match v_cells v !! p with
        | None => (v, [])
        | Some s => (upd_cells <[p := set_unanswered 0 s]> v,
                     if rs_pending s then [TSchedule c (Some p)] else [])
        end
      else (v, [])
  end.

Definition stopReneg (c : string) (v : Voice) : Voice :=
  match v_reneg v !! c with
  | None => v
  | Some p =>
      upd_reneg (delete c)
        (match v_cells v !! p with Some s => stop_timer (rs_timer s) v | None => v end)
  end.

(** ** Interleavings *)

Definition run_thread (created : bool) (now : Z) (th : thread) (v : Voice) : Voice * list thread :=
  match th with
  | TSchedule c e => schedule_section c e v
  | TArm c p g => arm_section c p g v
  | TArmed c p g t => armed_section c p g t v
  | TFire c p g => send_section c p g v
  | TOffer c p => offer_section created c p v
  | TDeliver c p => deliver_section now c p v
  | TAnswer c st => answer_section c st v
  end.

Record VW := { vw : Voice; threads : list thread }.

Definition VW_start : VW := {| vw := NewVoice; threads := [] |}.

(** [may_fail] says whether creating an offer may fail. A track change calls the
    hook, which starts [scheduleRenegotiate]; a client's answer that Pion accepts
    reads the scheduling state and goes on; offers and disconnects drop the
    scheduling state and replace the peer connection. *)
Inductive vstep (may_fail : bool) : VW → VW → Prop :=
| vs_thread l1 th l2 v created now :
    (created = true ∨ may_fail = true) →
    vstep may_fail {| vw := v; threads := l1 ++ th :: l2 |}
      {| vw := (run_thread created now th v).1;
         threads := l1 ++ (run_thread created now th v).2 ++ l2 |}
| vs_hook c v l :
    vstep may_fail {| vw := v; threads := l |} {| vw := v; threads := TSchedule c None :: l |}
| vs_fire t c p g v l :
    t ∈ v_armed v → v_created v !! t = Some (c, p, g) →
    vstep may_fail {| vw := v; threads := l |}
      {| vw := upd_armed (λ a, a ∖ {[t]}) v; threads := TFire c p g :: l |}
| vs_answer c v l :
    c ∈ v_peers v →
    vstep may_fail {| vw := v; threads := l |} {| vw := v; threads := TAnswer c (v_reneg v !! c) :: l |}
| vs_stop c v l :
    vstep may_fail {| vw := v; threads := l |} {| vw := stopReneg c v; threads := l |}
| vs_peers f v l :
    vstep may_fail {| vw := v; threads := l |} {| vw := upd_peers f v; threads := l |}.

(** ** No change is forgotten *)

(** The threads that will get a pending change of the current generation to
    [sendRenegotiation]. *)
Definition drives (c : string) (p : rptr) (g : Z) (th : thread) : Prop :=
  th = TSchedule c None ∨ th = TSchedule c (Some p) ∨ th = TArm c p g ∨ th = TFire c p g.

Definition driven (c : string) (p : rptr) (g : Z) (v : Voice) (l : list thread) : Prop :=
  (∃ th, th ∈ l ∧ drives c p g th) ∨ (∃ t, t ∈ v_armed v ∧ v_created v !! t = Some (c, p, g)).

(** A pending change waits for an answer or is on its way. *)
Definition kept (v : Voice) (l : list thread) : Prop :=
  ∀ c p s, v_reneg v !! c = Some p → v_cells v !! p = Some s → rs_pending s = true →
    0 < rs_unanswered s ∨ driven c p (rs_generation s) v l.

Record vwf (v : Voice) (l : list thread) : Prop := {
  vf_ptr c p : v_reneg v !! c = Some p → is_Some (v_cells v !! p);
  vf_inj c c' p : v_reneg v !! c = Some p → v_reneg v !! c' = Some p → c = c';
  vf_timer p s t : v_cells v !! p = Some s → rs_timer s = Some t →
    ∃ c g, v_created v !! t = Some (c, p, g);
  vf_armed t : t ∈ v_armed v → (t < length (v_created v))%nat;
  vf_thread c p g t : TArmed c p g t ∈ l → v_created v !! t = Some (c, p, g);
}.

Lemma driven_mono c p g v l v' l' :
  (∀ th, drives c p g th → th ∈ l → th ∈ l' ∨ driven c p g v' l') →
  (∀ t, t ∈ v_armed v → v_created v !! t = Some (c, p, g) →
     (t ∈ v_armed v' ∧ v_created v' !! t = Some (c, p, g)) ∨ driven c p g v' l') →
  driven c p g v l → driven c p g v' l'.
Proof.
  intros Ht Ha [(th & Hin & Hd)|(t & Hin & Hc)].
  - destruct (Ht th Hd Hin); [left; eauto|done].
  - destruct (Ha t Hin Hc) as [[??]|]; [right; eauto|done].
Qed.

(** Replacing a thread that drives nothing relevant. *)
Lemma driven_replace c p g v l1 th l2 new v' :
  (drives c p g th → driven c p g v' (l1 ++ new ++ l2)) →
  (∀ t, t ∈ v_armed v → v_created v !! t = Some (c, p, g) →
     (t ∈ v_armed v' ∧ v_created v' !! t = Some (c, p, g)) ∨ driven c p g v' (l1 ++ new ++ l2)) →
  driven c p g v (l1 ++ th :: l2) → driven c p g v' (l1 ++ new ++ l2).
Proof.
  intros Hth Ha. apply driven_mono; [|done]. intros th' Hd Hin.
  apply elem_of_app in Hin as [Hin|[->|Hin]%elem_of_cons]; [left|right|left]; set_solver.
Qed.

Lemma cell_insert p f v p' s' s :
  v_cells v !! p = Some s →
  v_cells (upd_cells <[p := f]> v) !! p' = Some s' →
  (p' = p ∧ s' = f) ∨ (p' ≠ p ∧ v_cells v !! p' = Some s').
Proof.
  intros Hp. cbn [v_cells upd_cells]. rewrite list_lookup_insert_Some.
  intros [(-> & -> & _)|[? ?]]; [by left|by right].
Qed.

(** Threads only ever lose [TArmed]s outside [arm_section]. *)
Lemma vwf_threads v l l' :
  (∀ c p g t, TArmed c p g t ∈ l' → TArmed c p g t ∈ l) → vwf v l → vwf v l'.
Proof. intros Hl [H1 H2 H3 H4 H5]. split; eauto. Qed.

(** Updating one cell without touching its timer, or clearing it. *)
Lemma vwf_cell v l p s s' :
  v_cells v !! p = Some s → rs_timer s' = None ∨ rs_timer s' = rs_timer s →
  vwf v l → vwf (upd_cells <[p := s']> v) l.
Proof.
  intros Hp Ht [H1 H2 H3 H4 H5]. split; try done.
  - intros c q Hq. cbn [v_cells upd_cells]. apply lookup_lt_is_Some.
    rewrite length_insert. apply lookup_lt_is_Some. by eapply H1.
  - intros q s1 t Hq Ht1. eapply cell_insert in Hq as [[-> ->]|[_ Hq]]; [|by eapply H3|done].
    destruct Ht as [Ht|Ht]; [congruence|]. eapply H3; [done|congruence].
Qed.

Lemma vwf_stop v l t : vwf v l → vwf (stop_timer t v) l.
Proof.
  intros [H1 H2 H3 H4 H5]. destruct t; [|by split]. split; try done.
  intros t' Ht'. apply H4. cbn [v_armed stop_timer upd_armed] in Ht'. set_solver.
Qed.

Lemma stop_timer_fields t v :
  v_reneg (stop_timer t v) = v_reneg v ∧ v_cells (stop_timer t v) = v_cells v ∧
  v_created (stop_timer t v) = v_created v ∧
  (∀ t', t' ∈ v_armed (stop_timer t v) ↔ t' ∈ v_armed v ∧ Some t' ≠ t).
Proof. destruct t; simpl; split_and!; try done; set_solver. Qed.

(** ** Sections preserve the invariants *)

(** The cell of [c], allocated if there is none. *)
Lemma schedule_alloc c v l p v1 :
  (match v_reneg v !! c with
   | Some p => (p, v)
   | None => (length (v_cells v), upd_reneg <[c := length (v_cells v)]>
                (upd_cells (λ l, l ++ [new_reneg]) v))
   end) = (p, v1) →
  vwf v l → kept v l →
  vwf v1 l ∧ v_reneg v1 !! c = Some p ∧ v_created v1 = v_created v ∧ v_armed v1 = v_armed v ∧
  ∃ s, v_cells v1 !! p = Some s ∧ kept v1 l.
Proof.
  intros He Hwf Hk. destruct (v_reneg v !! c) as [q|] eqn:Hc; simplify_eq.
  { destruct (vf_ptr v1 l Hwf c p Hc) as [s Hs]. split_and!; eauto. }
  assert (∀ c' q, v_reneg v !! c' = Some q → (q < length (v_cells v))%nat) as Hlt.
  { intros c' q Hq. apply lookup_lt_is_Some. by eapply vf_ptr. }
  destruct Hwf as [H1 H2 H3 H4 H5]. split_and!; try done; [split; try done|..].
  - intros c' q. cbn [v_reneg v_cells upd_reneg upd_cells]. rewrite lookup_insert_Some.
    rewrite lookup_lt_is_Some, length_app. simpl. intros [[<- <-]|[_ Hq%Hlt]]; lia.
  - intros c1 c2 q. cbn [v_reneg upd_reneg]. rewrite !lookup_insert_Some.
    intros [[<- <-]|[? Hq]] [[<- ?]|[? Hq']]; try done; try (apply Hlt in Hq; lia);
      try (apply Hlt in Hq'; lia). by eapply H2.
  - intros q s t. cbn [v_cells upd_reneg upd_cells]. rewrite lookup_snoc_Some.
    intros [[_ Hq]|[-> <-]] Ht; [by eapply H3|done].
  - cbn [v_reneg upd_reneg]. apply lookup_insert_eq.
  - exists new_reneg. split; [cbn [v_cells upd_reneg upd_cells]; by apply list_lookup_middle|].
    intros c' q s. cbn [v_reneg v_cells upd_reneg upd_cells]. rewrite lookup_insert_Some, lookup_snoc_Some.
    intros [[<- <-]|[Hne Hq]] [[Hlt' Hs]|[Heq <-]] Hpend; [lia|done| |done].
    by destruct (Hk c' q s Hq Hs Hpend); auto.
Qed.

Lemma schedule_inv c e v l1 l2 :
  vwf v (l1 ++ TSchedule c e :: l2) → kept v (l1 ++ TSchedule c e :: l2) →
  vwf (schedule_section c e v).1 (l1 ++ (schedule_section c e v).2 ++ l2) ∧
  kept (schedule_section c e v).1 (l1 ++ (schedule_section c e v).2 ++ l2).
Proof.
  intros Hwf Hk. unfold schedule_section.
  destruct (match e with Some e => _ | None => false end) eqn:Eexp.
  { split; [eapply vwf_threads; [|done]; set_solver|]. simpl. intros c' p s Hc Hs Hp.
    destruct (Hk c' p s Hc Hs Hp) as [?|Hd]; [by left|right].
    eapply (driven_replace _ _ _ v l1 (TSchedule c e) l2 []); [|eauto|done].
    intros Hdr. destruct e as [e|]; [|done]. bools. unfold drives in Hdr. naive_solver. }
  destruct (match v_reneg v !! c with Some p => _ | None => _ end) as [p v1] eqn:Ealloc.
  destruct (schedule_alloc _ _ _ _ _ Ealloc Hwf Hk) as (Hwf1 & Hc1 & Hcr & Har & s & Hs & Hk1).
  rewrite Hs. cbn [fst snd]. destruct (stop_timer_fields (rs_timer s) v1) as (Hr & Hce & Hcr' & Har').
  set (g := u64 (rs_generation s + 1)). set (s' := set_pending true (set_generation g (set_timer None s))).
  split.
  - eapply vwf_threads; [|apply (vwf_cell _ _ _ s); [by rewrite Hce|by left|by apply vwf_stop]].
    set_solver.
  - intros c' q s1. cbn [v_reneg upd_cells]. rewrite Hr. intros Hq Hq1 Hp.
    eapply (cell_insert _ _ _ _ _ s) in Hq1 as [[-> ->]|[Hne Hq1]]; [..|by rewrite Hce].
    + rewrite (vf_inj _ _ Hwf1 _ _ _ Hq Hc1). right. left. exists (TArm c p g).
      split; [set_solver|]. unfold drives. auto.
    + rewrite Hce in Hq1. destruct (Hk1 c' q s1 Hq Hq1 Hp) as [?|Hd]; [by left|right].
      assert (c' ≠ c) as Hcc by (intros ->; congruence).
      eapply (driven_replace _ _ _ v1 l1 (TSchedule c e) l2); [|..|done].
      * unfold drives. naive_solver.
      * intros t Ht Htc. left. cbn [v_armed v_created upd_cells]. rewrite Hcr'. split; [|done].
        apply Har'. split; [done|]. intros Heq. symmetry in Heq.
        destruct (vf_timer _ _ Hwf1 _ _ _ Hs Heq) as (? & ? & ?). congruence.
Qed.

Lemma arm_inv c p g v l1 l2 :
  vwf v (l1 ++ TArm c p g :: l2) → kept v (l1 ++ TArm c p g :: l2) →
  vwf (arm_section c p g v).1 (l1 ++ (arm_section c p g v).2 ++ l2) ∧
  kept (arm_section c p g v).1 (l1 ++ (arm_section c p g v).2 ++ l2).
Proof.
  intros Hwf Hk. unfold arm_section. cbn [fst snd].
  assert (∀ t x, v_created v !! t = Some x → (v_created v ++ [(c, p, g)]) !! t = Some x) as Hext.
  { intros t x Ht. by apply lookup_app_l_Some. }
  split.
  - destruct Hwf as [H1 H2 H3 H4 H5]. split; try done.
    + intros q s t Hq Ht. destruct (H3 _ _ _ Hq Ht) as (c' & g' & Hc'). eauto.
    + intros t. cbn [v_armed v_created upd_armed upd_created]. rewrite length_app. simpl.
      intros [->%elem_of_singleton|Ht%H4]%elem_of_union; lia.
    + intros c' p' g' t Ht. cbn [v_created upd_armed upd_created].
      apply elem_of_app in Ht as [Ht|[[= -> -> -> ->]|Ht]%elem_of_cons].
      * apply Hext, H5. set_solver.
      * by apply list_lookup_middle.
      * apply Hext, H5. set_solver.
  - intros c' q s Hq Hs Hp. destruct (Hk c' q s Hq Hs Hp) as [?|Hd]; [by left|right].
    eapply (driven_replace _ _ _ v l1 (TArm c p g) l2); [|..|done].
    + intros Hdr. right. exists (length (v_created v)).
      cbn [v_armed v_created upd_armed upd_created]. split; [set_solver|].
      unfold drives in Hdr. destruct_or! Hdr; simplify_eq. by apply list_lookup_middle.
    + intros t Ht Htc. left. cbn [v_armed v_created upd_armed upd_created]. split; [set_solver|eauto].
Qed.

(** A section that drops a thread which drives nothing. *)
Lemma kept_drop v l1 th l2 :
  (∀ c p s, v_reneg v !! c = Some p → v_cells v !! p = Some s → rs_pending s = true →
     drives c p (rs_generation s) th → 0 < rs_unanswered s) →
  kept v (l1 ++ th :: l2) → kept v (l1 ++ l2).
Proof.
  intros Hn Hk c p s Hc Hs Hp. destruct (Hk c p s Hc Hs Hp) as [?|Hd]; [by left|].
  destruct (decide (0 < rs_unanswered s)) as [|Hu]; [by left|right].
  eapply (driven_replace _ _ _ v l1 th l2 []); [|eauto|done]. intros Hdr. destruct Hu. eauto.
Qed.

Lemma armed_inv c p g t v l1 l2 :
  vwf v (l1 ++ TArmed c p g t :: l2) → kept v (l1 ++ TArmed c p g t :: l2) →
  vwf (armed_section c p g t v).1 (l1 ++ (armed_section c p g t v).2 ++ l2) ∧
  kept (armed_section c p g t v).1 (l1 ++ (armed_section c p g t v).2 ++ l2).
Proof.
  intros Hwf Hk.
  assert (v_created v !! t = Some (c, p, g)) as Htc by (apply (vf_thread _ _ Hwf); set_solver).
  assert (vwf v (l1 ++ l2)) as Hwf' by (eapply vwf_threads; [|done]; set_solver).
  assert (kept v (l1 ++ l2)) as Hk'.
  { eapply kept_drop; [|done]. intros ????? . unfold drives. naive_solver. }
  assert ((∀ s, v_reneg v !! c = Some p → v_cells v !! p = Some s →
            rs_pending s = true → rs_generation s ≠ g) →
    vwf (stop_timer (Some t) v) (l1 ++ l2) ∧ kept (stop_timer (Some t) v) (l1 ++ l2)) as Hstop.
  { intros Hstale. split; [by apply vwf_stop|]. intros c' q s Hq Hs Hp.
    destruct (Hk' c' q s Hq Hs Hp) as [?|Hd]; [by left|right].
    eapply driven_mono; [intros ???; by left| |done]. intros t' Ht' Ht'c. left. split; [|done].
    simpl. apply elem_of_difference. split; [done|]. intros ->%elem_of_singleton. simplify_eq.
    by eapply Hstale. }
  unfold armed_section. destruct (v_cells v !! p) as [s|] eqn:Hs; cbn [fst snd app].
  2: { apply Hstop. congruence. }
  destruct (bool_decide (v_reneg v !! c = Some p) && (rs_generation s =? g) && rs_pending s) eqn:E;
    cbn [fst snd app].
  2: { apply Hstop. intros s' Hc [= <-] Hp Hg. rewrite bool_decide_eq_true_2, Hp in E by done.
       by rewrite (proj2 (Z.eqb_eq _ _) Hg) in E. }
  split.
  - destruct Hwf' as [H1 H2 H3 H4 H5]. split; try done.
    + intros c' q Hq. cbn [v_cells upd_cells]. apply lookup_lt_is_Some. rewrite length_insert.
      apply lookup_lt_is_Some. by eapply H1.
    + intros q s1 t1 Hq Ht1. eapply cell_insert in Hq as [[-> ->]|[_ Hq]]; [| |done].
      * simpl in Ht1. simplify_eq. eauto.
      * by eapply H3.
  - intros c' q s1 Hq Hq1 Hp. eapply cell_insert in Hq1 as [[-> ->]|[_ Hq1]]; [| |done].
    + simpl in *. by apply (Hk' c' p s).
    + by apply (Hk' c' q s1).
Qed.

Lemma send_inv c p g v l1 l2 :
  vwf v (l1 ++ TFire c p g :: l2) → kept v (l1 ++ TFire c p g :: l2) →
  vwf (send_section c p g v).1 (l1 ++ (send_section c p g v).2 ++ l2) ∧
  kept (send_section c p g v).1 (l1 ++ (send_section c p g v).2 ++ l2).
Proof.
  intros Hwf Hk.
  assert (∀ new, (∀ c p g t, TArmed c p g t ∉ new) → vwf v (l1 ++ new ++ l2)) as Hwf'.
  { intros new Hnew. eapply vwf_threads; [|done]. set_solver. }
  assert (∀ new s' s, v_cells v !! p = Some s → v_reneg v !! c = Some p →
    (rs_pending s' = true → 0 < rs_unanswered s') →
    kept (upd_cells <[p := s']> v) (l1 ++ new ++ l2)) as Hcell.
  { intros new s' s Hs Hc Hs' c' q s1 Hq Hq1 Hp.
    eapply cell_insert in Hq1 as [[-> ->]|[Hne Hq1]]; [left; by apply Hs'| |done].
    destruct (Hk c' q s1 Hq Hq1 Hp) as [?|Hd]; [by left|right].
    eapply (driven_replace _ _ _ v l1 (TFire c p g) l2); [|eauto|done]. unfold drives. naive_solver. }
  unfold send_section. destruct (v_cells v !! p) as [s|] eqn:Hs; cbn [fst snd].
  2: { split; [apply (Hwf' []); set_solver|]. eapply kept_drop; [|done].
       intros c' q s' Hq Hq1 Hp Hd. unfold drives in Hd. naive_solver. }
  destruct (bool_decide (v_reneg v !! c = Some p) && (rs_generation s =? g) && rs_pending s) eqn:E;
    cbn [fst snd].
  2: { split; [apply (Hwf' []); set_solver|]. eapply kept_drop; [|done].
       intros c' q s' Hq Hq1 Hp Hd. exfalso. unfold drives in Hd. destruct_or! Hd; try done.
       injection Hd as -> -> ->. rewrite Hs in Hq1. injection Hq1 as ->.
       by rewrite bool_decide_eq_true_2, Z.eqb_refl, Hp in E. }
  bools. subst. destruct (0 <? rs_unanswered (set_timer None s)) eqn:Eu; bools; cbn [fst snd].
  - split; [apply (vwf_cell _ _ _ s); [done|by left|apply (Hwf' []); set_solver]|].
    apply (Hcell []) with s; done.
  - case_decide; cbn [fst snd].
    + split; [apply (vwf_cell _ _ _ s); [done|by left|apply Hwf'; set_solver]|].
      by apply (Hcell [TOffer c p]) with s.
    + split; [apply (vwf_cell _ _ _ s); [done|by left|apply (Hwf' []); set_solver]|].
      by apply (Hcell []) with s.
Qed.

Lemma deliver_inv now c p v l1 l2 :
  vwf v (l1 ++ TDeliver c p :: l2) → kept v (l1 ++ TDeliver c p :: l2) →
  vwf (deliver_section now c p v).1 (l1 ++ (deliver_section now c p v).2 ++ l2) ∧
  kept (deliver_section now c p v).1 (l1 ++ (deliver_section now c p v).2 ++ l2).
Proof.
  intros Hwf Hk.
  assert (vwf v (l1 ++ l2)) as Hwf' by (eapply vwf_threads; [|done]; set_solver).
  assert (kept v (l1 ++ l2)) as Hk'.
  { eapply kept_drop; [|done]. intros ?????. unfold drives. naive_solver. }
  unfold deliver_section. case_decide as Hc; cbn [fst snd app]; [|done].
  assert (vwf (update_current c p (set_lastSent now) v) (l1 ++ l2) ∧
    kept (update_current c p (set_lastSent now) v) (l1 ++ l2)) as [H1 H2].
  { unfold update_current. destruct (v_cells v !! p) as [s|] eqn:Hs; [|done].
    rewrite decide_True by done. split; [apply (vwf_cell _ _ _ s); auto|].
    intros c' q s1 Hq Hq1 Hp. eapply cell_insert in Hq1 as [[-> ->]|[_ Hq1]]; [| |done].
    - by apply (Hk' c' p s).
    - by apply (Hk' c' q s1). }
  split; [destruct H1; by split|done].
Qed.

Lemma answer_inv c st v l1 l2 :
  vwf v (l1 ++ TAnswer c st :: l2) → kept v (l1 ++ TAnswer c st :: l2) →
  vwf (answer_section c st v).1 (l1 ++ (answer_section c st v).2 ++ l2) ∧
  kept (answer_section c st v).1 (l1 ++ (answer_section c st v).2 ++ l2).
Proof.
  intros Hwf Hk.
  assert (∀ new, (∀ c p g t, TArmed c p g t ∉ new) → vwf v (l1 ++ new ++ l2)) as Hwf'.
  { intros new Hnew. eapply vwf_threads; [|done]. set_solver. }
  assert (∀ new, kept v (l1 ++ new ++ l2)) as Hk'.
  { intros new c' q s Hq Hs Hp. destruct (Hk c' q s Hq Hs Hp) as [?|Hd]; [by left|right].
    eapply (driven_replace _ _ _ v l1 (TAnswer c st) l2); [|eauto|done]. unfold drives. naive_solver. }
  assert (vwf v (l1 ++ [] ++ l2) ∧ kept v (l1 ++ [] ++ l2)) as Hsame
    by (split; [apply Hwf'; set_solver|apply Hk']).
  unfold answer_section. destruct st as [p|]; [|done]. case_decide as Hc; [|done].
  destruct (v_cells v !! p) as [s|] eqn:Hs; [|done]. cbn [fst snd].
  split; [apply (vwf_cell _ _ _ s); [done|by right|apply Hwf'; case_match; set_solver]|].
  intros c' q s1 Hq Hq1 Hp. eapply cell_insert in Hq1 as [[-> ->]|[_ Hq1]]; [| |done].
  - simpl in Hp. rewrite Hp. right. left. exists (TSchedule c (Some p)). split; [set_solver|].
    rewrite (vf_inj _ _ Hwf _ _ _ Hq Hc). unfold drives. auto.
  - by apply (Hk' _ c' q s1).
Qed.

Lemma stopReneg_inv c v l : vwf v l → kept v l → vwf (stopReneg c v) l ∧ kept (stopReneg c v) l.
Proof.
  intros Hwf Hk. unfold stopReneg. destruct (v_reneg v !! c) as [p|] eqn:Hc; [|done].
  destruct (vf_ptr _ _ Hwf _ _ Hc) as [s Hs]. rewrite Hs.
  destruct (stop_timer_fields (rs_timer s) v) as (Hr & Hce & Hcr & Har).
  destruct (vwf_stop v l (rs_timer s) Hwf) as [H1 H2 H3 H4 H5]. split.
  - split; try done.
    + intros c' q Hq. apply (H1 c' q). cbn [v_reneg upd_reneg] in Hq.
      by apply lookup_delete_Some in Hq as [_ ?].
    + intros c1 c2 q. cbn [v_reneg upd_reneg].
      intros [_ Hq1]%lookup_delete_Some [_ Hq2]%lookup_delete_Some. by eapply H2.
  - intros c' q s1. cbn [v_reneg v_cells upd_reneg]. rewrite Hr, Hce.
    intros [Hne Hq]%lookup_delete_Some Hs1 Hp.
    destruct (Hk c' q s1 Hq Hs1 Hp) as [?|Hd]; [by left|right].
    eapply driven_mono; [intros ???; by left| |done]. intros t Ht Htc. left.
    cbn [v_armed v_created upd_reneg]. rewrite Hcr, Har. split_and!; [done| |done].
    intros Heq. symmetry in Heq. destruct (vf_timer _ _ Hwf _ _ _ Hs Heq) as (? & ? & ?).
    simplify_eq. by rewrite (vf_inj _ _ Hwf _ _ _ Hq Hc) in Hne.
Qed.

Lemma fire_inv t c p g v l :
  v_created v !! t = Some (c, p, g) → vwf v l → kept v l →
  vwf (upd_armed (λ a, a ∖ {[t]}) v) (TFire c p g :: l) ∧
  kept (upd_armed (λ a, a ∖ {[t]}) v) (TFire c p g :: l).
Proof.
  intros Htc Hwf Hk. split.
  - eapply vwf_threads; [|by apply (vwf_stop v l (Some t))]. set_solver.
  - intros c' q s Hq Hs Hp. destruct (Hk c' q s Hq Hs Hp) as [?|Hd]; [by left|right].
    eapply driven_mono; [intros ???; left; by right| |done]. intros t' Ht' Ht'c.
    destruct (decide (t' = t)) as [->|Hne]; [right|left; cbn [v_armed upd_armed]; set_solver].
    left. exists (TFire c p g). split; [left|]. unfold drives. naive_solver.
Qed.

(** Adding a thread. *)
Lemma add_thread_inv v th l :
  (∀ c p g t, th ≠ TArmed c p g t) → vwf v l → kept v l → vwf v (th :: l) ∧ kept v (th :: l).
Proof.
  intros Hth Hwf Hk. split; [eapply vwf_threads; [|done]; set_solver|].
  intros c p s Hc Hs Hp. destruct (Hk c p s Hc Hs Hp) as [?|Hd]; [by left|right].
  eapply driven_mono; [intros ???; left; by right|intros; left; done|done].
Qed.

Definition vinv (x : VW) : Prop := vwf (vw x) (threads x) ∧ kept (vw x) (threads x).

Lemma vinv_step x y : vinv x → vstep false x y → vinv y.
Proof.
  intros [Hwf Hk] Hstep. destruct Hstep as [l1 th l2 v cr now Hcr|c v l|t c p g v l Ht Htc|c v l Hc|c v l|f v l];
    unfold vinv in *; cbn [vw threads] in *.
  - destruct th; cbn [run_thread].
    + by apply schedule_inv.
    + by apply arm_inv.
    + by apply armed_inv.
    + by apply send_inv.
    + destruct Hcr as [->|]; [|done]. cbn [offer_section fst snd].
      split; [eapply vwf_threads; [|done]; set_solver|].
      intros c' q s Hq Hs Hp. destruct (Hk c' q s Hq Hs Hp) as [?|Hd]; [by left|right].
      eapply (driven_replace _ _ _ v l1 (TOffer c p) l2); [|eauto|done]. unfold drives. naive_solver.
    + by apply deliver_inv.
    + by apply answer_inv.
  - by apply add_thread_inv.
  - by apply fire_inv.
  - by apply add_thread_inv.
  - by apply stopReneg_inv.
  - split; [destruct Hwf; by split|done].
Qed.

Lemma vinv_reachable x : rtc (vstep false) VW_start x → vinv x.
Proof.
  apply (rtc_invariant (vstep false) vinv); [apply vinv_step|].
  split; [split; simpl; try done; set_solver|]. intros c p s Hc. simpl in Hc. by rewrite lookup_empty in Hc.
Qed.

(** ** The way to the offer *)

(** From a thread at one of its points, the steps of that thread alone. *)
Lemma run_one mf v l1 th l2 :
  vstep mf {| vw := v; threads := l1 ++ th :: l2 |}
    {| vw := (run_thread true 0 th v).1; threads := l1 ++ (run_thread true 0 th v).2 ++ l2 |}.
Proof. apply vs_thread. by left. Qed.

(** Cell [p] is current for [c], has a change pending and no offer outstanding. *)
Definition ready (c : string) (p : rptr) (g : Z) (v : Voice) : Prop :=
  v_reneg v !! c = Some p ∧ c ∈ v_peers v ∧
  ∃ s, v_cells v !! p = Some s ∧ rs_pending s = true ∧ rs_generation s = g ∧ rs_unanswered s ≤ 0.

Definition offers_more (c : string) (v : Voice) (y : VW) : Prop :=
  v_offers (vw y) = v_offers v ++ [c].

Lemma fire_offers mf c p g v l1 l2 :
  ready c p g v →
  ∃ y, rtc (vstep mf) {| vw := v; threads := l1 ++ TFire c p g :: l2 |} y ∧ offers_more c v y.
Proof.
  intros (Hc & Hpeer & s & Hs & Hp & Hg & Hu).
  pose proof (run_one mf v l1 (TFire c p g) l2) as H1. cbn [run_thread] in H1.
  unfold send_section in H1. rewrite Hs, bool_decide_eq_true_2, Hp, (proj2 (Z.eqb_eq _ _) Hg) in H1 by done.
  cbn [andb] in H1. rewrite (proj2 (Z.ltb_ge 0 (rs_unanswered (set_timer None s)))) in H1 by done.
  rewrite decide_True in H1 by done. cbn [fst snd app] in H1.
  set (v1 := upd_cells _ v) in H1.
  pose proof (run_one mf v1 l1 (TOffer c p) l2) as H2. cbn [run_thread offer_section fst snd app] in H2.
  pose proof (run_one mf v1 l1 (TDeliver c p) l2) as H3. cbn [run_thread] in H3.
  unfold deliver_section in H3. rewrite decide_True in H3 by done. cbn [fst snd app] in H3.
  eexists. split; [eapply rtc_l; [exact H1|]; eapply rtc_l; [exact H2|]; by apply rtc_once|].
  unfold offers_more. cbn [vw v_offers upd_offers]. unfold update_current. by repeat case_match.
Qed.

Lemma armed_offers mf c p g t v l :
  ready c p g v → t ∈ v_armed v → v_created v !! t = Some (c, p, g) →
  ∃ y, rtc (vstep mf) {| vw := v; threads := l |} y ∧ offers_more c v y.
Proof.
  intros Hr Ht Htc.
  destruct (fire_offers mf c p g (upd_armed (λ a, a ∖ {[t]}) v) [] l Hr) as (y & Hy & Ho).
  exists y. split; [|done]. eapply rtc_l; [by apply (vs_fire mf t c p g)|done].
Qed.

Lemma arm_offers mf c p g v l1 l2 :
  ready c p g v →
  ∃ y, rtc (vstep mf) {| vw := v; threads := l1 ++ TArm c p g :: l2 |} y ∧ offers_more c v y.
Proof.
  intros Hr. pose proof (run_one mf v l1 (TArm c p g) l2) as H1. cbn [run_thread arm_section fst snd] in H1.
  set (v1 := upd_armed _ _) in H1.
  destruct (armed_offers mf c p g (length (v_created v)) v1 (l1 ++ [TArmed c p g (length (v_created v))] ++ l2))
    as (y & Hy & Ho).
  - exact Hr.
  - cbn [v1 v_armed upd_armed]. set_solver.
  - cbn [v1 v_created upd_armed upd_created]. by apply list_lookup_middle.
  - exists y. split; [by eapply rtc_l|done].
Qed.

Lemma schedule_offers mf c p e v l1 l2 s :
  e = None ∨ e = Some p → v_reneg v !! c = Some p → c ∈ v_peers v →
  v_cells v !! p = Some s → rs_unanswered s ≤ 0 →
  ∃ y, rtc (vstep mf) {| vw := v; threads := l1 ++ TSchedule c e :: l2 |} y ∧ offers_more c v y.
Proof.
  intros He Hc Hpeer Hs Hu. pose proof (run_one mf v l1 (TSchedule c e) l2) as H1.
  cbn [run_thread] in H1. unfold schedule_section in H1. rewrite Hc in H1.
  replace (match e with Some e0 => negb (bool_decide (Some p = Some e0)) | None => false end)
    with false in H1 by (destruct He as [->| ->]; [done|by rewrite bool_decide_eq_true_2]).
  rewrite Hs in H1. cbn [fst snd] in H1. set (g := u64 (rs_generation s + 1)) in H1.
  set (v1 := upd_cells _ _) in H1.
  destruct (stop_timer_fields (rs_timer s) v) as (Hr & Hce & _).
  destruct (arm_offers mf c p g v1 l1 l2) as (y & Hy & Ho).
  { split_and!.
    - cbn [v1 v_reneg upd_cells]. by rewrite Hr.
    - cbn [v1 v_peers upd_cells]. by destruct (rs_timer s).
    - eexists. split; [cbn [v1 v_cells upd_cells]; rewrite Hce; apply list_lookup_insert_eq;
        by eapply lookup_lt_Some|]. done. }
  exists y. split; [by eapply rtc_l|]. unfold offers_more in *. rewrite Ho.
  cbn [v1 v_offers upd_cells]. by destruct (rs_timer s).
Qed.


(** ** Concrete runs *)

(** What happens next, as data: a step of the first thread, a track change, the
    firing of a timer, a new peer connection. *)
Inductive vact := ARun (created : bool) | AHook (c : string) | AFire (t : timer) | APeer (c : string).

Definition vexec (x : VW) (a : vact) : VW :=
  match a with
  | ARun created =>
      match threads x with
      | [] => x
      | th :: l => {| vw := (run_thread created 0 th (vw x)).1;
                      threads := (run_thread created 0 th (vw x)).2 ++ l |}
      end
  | AHook c => {| vw := vw x; threads := TSchedule c None :: threads x |}
  | AFire t =>
      match v_created (vw x) !! t with
      | Some (c, p, g) =>
          if decide (t ∈ v_armed (vw x))
          then {| vw := upd_armed (λ a, a ∖ {[t]}) (vw x); threads := TFire c p g :: threads x |}
          else x
      | None => x
      end
  | APeer c => {| vw := upd_peers (λ s, {[c]} ∪ s) (vw x); threads := threads x |}
  end.

Lemma vexec_step mf x a :
  (∀ b, a = ARun b → b = true ∨ mf = true) → rtc (vstep mf) x (vexec x a).
Proof.
  intros Hmf. destruct x as [v l]. destruct a as [b|c|t|c]; cbn [vexec vw threads].
  - destruct l as [|th l]; [done|]. apply rtc_once, (vs_thread mf [] th l v b 0). by apply Hmf.
  - apply rtc_once, vs_hook.
  - destruct (v_created v !! t) as [[[c p] g]|] eqn:E; [|done]. case_decide; [|done].
    apply rtc_once. by apply vs_fire.
  - apply rtc_once, (vs_peers mf (λ s, {[c]} ∪ s)).
Qed.

Lemma vexec_steps mf acts x :
  Forall (λ a, ∀ b, a = ARun b → b = true ∨ mf = true) acts → rtc (vstep mf) x (foldl vexec x acts).
Proof.
  revert x. induction acts as [|a acts IH]; intros x Hall; [done|].
  apply Forall_cons in Hall as [Ha Hacts]. simpl. etrans; [by apply vexec_step|by apply IH].
Qed.

(** A change is scheduled and its timer armed. *)
Definition scheduled : VW :=
  foldl vexec VW_start [APeer "ada"; AHook "ada"; ARun true; ARun true; ARun true].


(** If creating an offer fails while a later change waits for the answer to it,
    that change is stranded: it is pending, no offer is outstanding, and no thread
    and no timer is left to send one. *)
Theorem failed_offer_strands_change :
  ∃ x s, rtc (vstep true) VW_start x ∧ threads x = [] ∧ v_armed (vw x) = ∅ ∧
    v_reneg (vw x) !! "ada" = Some 0%nat ∧ v_cells (vw x) !! 0%nat = Some s ∧
    rs_pending s = true ∧ rs_unanswered s = 0 ∧ v_offers (vw x) = [].
Proof.
  exists (foldl vexec scheduled
    [AFire 0; ARun true; AHook "ada"; ARun true; ARun true; ARun true; AFire 1; ARun true; ARun false]).
  eexists. split; [|vm_compute; split_and!; reflexivity].
  etrans; [apply (vexec_steps true [APeer "ada"; AHook "ada"; ARun true; ARun true; ARun true])|
    apply vexec_steps]; apply Forall_forall; intros a _ b _; by right.
Qed.
