(* ===== verification/GoState.v ===== *)
(** * Stateful Go functions that may fail

    A method that updates its receiver and returns [(T, error)] is a function
    from the state to the new state and a result: the updates made before an
    error is returned stay. *)

From S2P Require Import Prelude.

Definition SE (S E A : Type) : Type := S → S * result E A.

Section monad.
Context {S E : Type}.

Definition se_ret {A} (a : A) : SE S E A := λ s, (s, Ok a).
Definition se_err {A} (e : E) : SE S E A := λ s, (s, Err e).
Definition se_bind {A B} (m : SE S E A) (k : A → SE S E B) : SE S E B := λ s,
  match m s with
  | (s', Ok a) => k a s'
  | (s', Err e) => (s', Err e)
  end.
Definition se_get : SE S E S := λ s, (s, Ok s).
Definition se_modify (f : S → S) : SE S E () := λ s, (f s, Ok ()).

Lemma se_bind_Ok {A B} (m : SE S E A) (k : A → SE S E B) s s' b :
  se_bind m k s = (s', Ok b) ↔ ∃ s1 a, m s = (s1, Ok a) ∧ k a s1 = (s', Ok b).
Proof. unfold se_bind. destruct (m s) as [s1 [a|e]]; naive_solver. Qed.

(** What holds of the states a program passes through. *)
Definition preserves (P : S → S → Prop) {A} (m : SE S E A) : Prop := ∀ s, P s (m s).1.

Section preserves.
Context (P : S → S → Prop) `{!PreOrder P}.

Lemma preserves_ret {A} (a : A) : preserves P (se_ret a).
Proof. intros s. simpl. reflexivity. Qed.

Lemma preserves_err {A} (e : E) : preserves P (se_err (A := A) e).
Proof. intros s. simpl. reflexivity. Qed.

Lemma preserves_bind {A B} (m : SE S E A) (k : A → SE S E B) :
  preserves P m → (∀ a, preserves P (k a)) → preserves P (se_bind m k).
Proof.
  intros Hm Hk s. specialize (Hm s). unfold se_bind. destruct (m s) as [s1 [a|e]]; [|done].
  etrans; [done|apply Hk].
Qed.

End preserves.
End monad.

Notation "'run' x '<-' m ';' k" := (se_bind m (λ x, k))
  (at level 200, x pattern, m at level 100, k at level 200) : go_scope.
