(* ===== verification/Base64.v ===== *)
(** * encoding/base64: the standard encoding

    The text of keys and ciphertexts on the wire is [base64.StdEncoding]: groups
    of three bytes become four letters, the last group is padded with ['=']. The
    decoder skips line breaks and rejects anything else that is not a letter of
    the alphabet or correct padding; the unused low bits of a padded group are
    not checked. *)

From Stdlib Require Import Ascii.
From S2P Require Import Prelude Wire.

Definition alphabet : list ascii := String.list_ascii_of_string
  "ABCDEFGHIJKLMNOPQRSTUVWXYZabcdefghijklmnopqrstuvwxyz0123456789+/".

Definition enc6 (n : Z) : ascii := nth (Z.to_nat (Z.land n 63)) alphabet "A"%char.

Definition dec6 (c : ascii) : option Z :=
  (λ p, Z.of_nat p.1) <$> list_find (c =.) alphabet.

Definition pad : ascii := "="%char.

(** Three bytes as a number of 24 bits. *)
Definition be24 (a b c : Z) : Z := Z.lor (Z.shiftl (Z.lor (Z.shiftl a 8) b) 8) c.

Fixpoint encode_groups (bs : list Z) : list ascii :=
  match bs with
  | a :: b :: c :: rest =>
      let v := be24 a b c in
      enc6 (Z.shiftr v 18) :: enc6 (Z.shiftr v 12) :: enc6 (Z.shiftr v 6) :: enc6 v
        :: encode_groups rest
  | [a; b] =>
      let v := be24 a b 0 in [enc6 (Z.shiftr v 18); enc6 (Z.shiftr v 12); enc6 (Z.shiftr v 6); pad]
  | [a] => let v := be24 a 0 0 in [enc6 (Z.shiftr v 18); enc6 (Z.shiftr v 12); pad; pad]
  | [] => []
  end.

Definition EncodeToString (bs : list Z) : string := String.string_of_list_ascii (encode_groups bs).

Definition val24 (w x y z : Z) : Z :=
  Z.lor (Z.shiftl (Z.lor (Z.shiftl (Z.lor (Z.shiftl w 6) x) 6) y) 6) z.

Definition byte_at (v n : Z) : Z := Z.land (Z.shiftr v n) 255.

Fixpoint decode_groups (cs : list ascii) : option (list Z) :=
  match cs with
  | [] => Some []
  | c1 :: c2 :: c3 :: c4 :: rest =>
      w ← dec6 c1;
      x ← dec6 c2;
      if decide (c3 = pad) then
        if decide (c4 = pad ∧ rest = []) then Some [byte_at (val24 w x 0 0) 16] else None
      else
        y ← dec6 c3;
        if decide (c4 = pad) then
          if decide (rest = []) then
            Some [byte_at (val24 w x y 0) 16; byte_at (val24 w x y 0) 8]
          else None
        else
          z ← dec6 c4;
          tail ← decode_groups rest;
          Some (byte_at (val24 w x y z) 16 :: byte_at (val24 w x y z) 8
                  :: byte_at (val24 w x y z) 0 :: tail)
  | _ => None
  end.

Definition line_break (c : ascii) : Prop := c = "010"%char ∨ c = "013"%char.

#[export] Instance line_break_dec c : Decision (line_break c).
Proof. unfold line_break. apply _. Defined.

Definition DecodeString (s : string) : option (list Z) :=
  decode_groups (filter (λ c, ¬ line_break c) (String.list_ascii_of_string s)).

(** ** Decoding what was encoded *)

Lemma sextet_table :
  Forall (λ k, let c := nth k alphabet "A"%char in
               dec6 c = Some (Z.of_nat k) ∧ c ≠ pad ∧ ¬ line_break c) (seq 0 64).
Proof. repeat constructor; vm_compute; naive_solver. Qed.

Lemma land_mask n k : 0 ≤ k → Z.land n (2 ^ k - 1) = n mod 2 ^ k.
Proof. intros Hk. rewrite <- Z.land_ones by done. by rewrite Z.ones_equiv, Z.sub_1_r. Qed.

Lemma enc6_spec n :
  dec6 (enc6 n) = Some (n mod 64) ∧ enc6 n ≠ pad ∧ ¬ line_break (enc6 n).
Proof.
  unfold enc6. change 63 with (2 ^ 6 - 1). rewrite land_mask by done. change (2 ^ 6) with 64.
  assert (0 ≤ n mod 64 < 64) as Hn by (apply Z.mod_pos_bound; lia).
  pose proof sextet_table as Ht. rewrite Forall_forall in Ht.
  specialize (Ht (Z.to_nat (n mod 64))). rewrite elem_of_seq, Z2Nat.id in Ht by lia.
  apply Ht. lia.
Qed.

Lemma be24_val a b c :
  is_byte a → is_byte b → is_byte c → be24 a b c = a * 65536 + b * 256 + c.
Proof.
  unfold is_byte, be24. intros. rewrite (lor_shift a) by lia. rewrite lor_shift by lia. lia.
Qed.

Lemma val24_val w x y z :
  0 ≤ x < 64 → 0 ≤ y < 64 → 0 ≤ z < 64 → val24 w x y z = w * 262144 + x * 4096 + y * 64 + z.
Proof.
  unfold val24. intros. rewrite (lor_shift w) by lia. rewrite (lor_shift _ y) by lia.
  rewrite lor_shift by lia. lia.
Qed.

Lemma byte_at_val v n : 0 ≤ n → byte_at v n = v / 2 ^ n mod 256.
Proof.
  intros Hn. unfold byte_at. change 255 with (2 ^ 8 - 1).
  by rewrite land_mask, Z.shiftr_div_pow2 by done.
Qed.

(** The 24-bit value of the four sextets of a group. *)
Lemma sextets v :
  0 ≤ v < 2 ^ 24 →
  val24 (Z.shiftr v 18 mod 64) (Z.shiftr v 12 mod 64) (Z.shiftr v 6 mod 64) (v mod 64) = v ∧
  val24 (Z.shiftr v 18 mod 64) (Z.shiftr v 12 mod 64) (Z.shiftr v 6 mod 64) 0 = v - v mod 64 ∧
  val24 (Z.shiftr v 18 mod 64) (Z.shiftr v 12 mod 64) 0 0 = v - v mod 4096.
Proof.
  intros Hv. rewrite !Z.shiftr_div_pow2 by done.
  pose proof (Z.mod_pos_bound (v / 2 ^ 12) 64). pose proof (Z.mod_pos_bound (v / 2 ^ 6) 64).
  pose proof (Z.mod_pos_bound v 64). rewrite !val24_val by lia.
  change (2 ^ 24) with 16777216 in *. change (2 ^ 18) with 262144. change (2 ^ 12) with 4096.
  change (2 ^ 6) with 64. split_and!; Z.to_euclidean_division_equations; lia.
Qed.

Lemma group_bytes a b c :
  is_byte a → is_byte b → is_byte c →
  let v := be24 a b c in
  0 ≤ v < 2 ^ 24 ∧ byte_at v 16 = a ∧ byte_at v 8 = b ∧ byte_at v 0 = c ∧
  byte_at (v - v mod 64) 16 = a ∧ byte_at (v - v mod 64) 8 = b ∧
  byte_at (v - v mod 4096) 16 = a.
Proof.
  unfold is_byte. intros Ha Hb Hc. cbv zeta. rewrite be24_val by done.
  rewrite !byte_at_val by done. change (2 ^ 24) with 16777216. change (2 ^ 16) with 65536.
  change (2 ^ 8) with 256. change (2 ^ 0) with 1.
  split_and!; try lia; Z.to_euclidean_division_equations; lia.
Qed.

Lemma decode_encode_groups bs : Forall is_byte bs → decode_groups (encode_groups bs) = Some bs.
Proof.
  assert (is_byte 0) as H0 by (unfold is_byte; lia).
  revert bs. fix IH 1. intros [|a [|b [|c rest]]] Hbs; [done|..];
    repeat (apply Forall_cons in Hbs as [? Hbs]); cbn [encode_groups decode_groups].
  - destruct (group_bytes a 0 0) as (Hv & _ & _ & _ & _ & _ & G1); [done..|].
    destruct (sextets _ Hv) as (_ & _ & G2).
    rewrite (proj1 (enc6_spec (Z.shiftr (be24 a 0 0) 18))), (proj1 (enc6_spec (Z.shiftr (be24 a 0 0) 12))).
    simpl. by rewrite G2, G1.
  - destruct (group_bytes a b 0) as (Hv & _ & _ & _ & G1 & G2 & _); [done..|].
    destruct (sextets _ Hv) as (_ & G3 & _).
    destruct (enc6_spec (Z.shiftr (be24 a b 0) 6)) as (E3 & N3 & _).
    rewrite (proj1 (enc6_spec (Z.shiftr (be24 a b 0) 18))), (proj1 (enc6_spec (Z.shiftr (be24 a b 0) 12))).
    rewrite E3. simpl. rewrite decide_False by done. by rewrite G3, G1, G2.
  - destruct (group_bytes a b c) as (Hv & G1 & G2 & G3 & _); [done..|].
    destruct (sextets _ Hv) as (G4 & _ & _).
    destruct (enc6_spec (Z.shiftr (be24 a b c) 6)) as (E3 & N3 & _).
    destruct (enc6_spec (be24 a b c)) as (E4 & N4 & _).
    rewrite (proj1 (enc6_spec (Z.shiftr (be24 a b c) 18))), (proj1 (enc6_spec (Z.shiftr (be24 a b c) 12))).
    rewrite E3, E4, (IH rest Hbs). simpl. rewrite !decide_False by done. by rewrite G4, G1, G2, G3.
Qed.

Lemma encode_no_breaks bs : Forall (λ c, ¬ line_break c) (encode_groups bs).
Proof.
  assert (¬ line_break pad) as Hp by (intros [?|?]; done).
  revert bs. fix IH 1. intros [|a [|b [|c rest]]]; cbn [encode_groups];
    repeat (constructor; [done || apply enc6_spec|]); constructor || apply IH.
Qed.

Lemma decode_encode bs : Forall is_byte bs → DecodeString (EncodeToString bs) = Some bs.
Proof.
  intros Hbs. unfold DecodeString, EncodeToString. rewrite String.list_ascii_of_string_of_list_ascii.
  rewrite filter_all by apply encode_no_breaks. by apply decode_encode_groups.
Qed.
