(* ===== verification/ChatKeys.v ===== *)
(** * Scope keys: [src/internal/server/chatkeys.go], [src/internal/store/chatkeys.go]
    and the key ring of [src/internal/chatcrypto/chatcrypto.go]

    Every chat scope (a channel, or 0 for the global chat) has a sequence of key
    generations. They are wrapped under a key ring and stored; the manager caches
    the current generation and up to 64 retired ones per scope. A method holds the
    scope's mutex throughout, so it is one step; scopes share nothing but the
    database, whose rows are per scope.

    The database is the two tables of migration 012 with their constraints: the
    primary key and the partial unique index that allows one live row per scope.
    The parameter [db] decides for every statement (transaction) whether it
    succeeds, fails without effect, or takes effect while its answer is lost. The
    cryptographic primitives and the random source are parameters; what is relied
    on of them are the laws of [CryptoLaws]. *)

From S2P Require Import Prelude Wire Base64 GoState.

Abbreviation key := (list Z).

Definition zero_key : key := replicate 32 0.

Inductive ChatKeyError :=
| ErrNoScopeKey
| ErrChatKeysUnconfigured
| ErrInvalidPublicKey
| ErrStore
| ErrKeyIDRange
| ErrEmptyRing
| ErrRandom
| ErrUnwrap
| ErrSealKey
| ErrInvalidCiphertext
| ErrDecryption.

(** ** Tables *)

Record ScopeKey := {
  sk_Wrapped : list Z;
  sk_KEKID : Z;
  sk_Retired : bool;
}.

Inductive dbOutcome := DbOk | DbFailed | DbLost.

(** ** The manager *)

Record scopeEntry := {
  se_loaded : bool;
  se_curID : Z;
  se_curKey : key;
  se_old : gmap Z key;
  se_oldLRU : list Z;
}.

Definition new_entry : scopeEntry :=
  {| se_loaded := false; se_curID := 0; se_curKey := zero_key; se_old := ∅; se_oldLRU := [] |}.

Record KEKRing := {
  kr_keys : gmap Z key;
  kr_newest : Z;
}.

(** The manager's cache, the two tables, the number of database calls and of
    random draws made, and the operations reported to [onFailure]. *)
Record CK := mkCK {
  ck_scopes : gmap Z scopeEntry;
  ck_seq : gmap Z Z;
  ck_rows : gmap (Z * Z) ScopeKey;
  ck_calls : nat;
  ck_draws : nat;
  ck_reports : list string;
}.

Definition CK_start : CK := mkCK ∅ ∅ ∅ 0 0 [].

Definition set_scopes (f : gmap Z scopeEntry → gmap Z scopeEntry) (s : CK) : CK :=
  mkCK (f (ck_scopes s)) (ck_seq s) (ck_rows s) (ck_calls s) (ck_draws s) (ck_reports s).
Definition set_seq (f : gmap Z Z → gmap Z Z) (s : CK) : CK :=
  mkCK (ck_scopes s) (f (ck_seq s)) (ck_rows s) (ck_calls s) (ck_draws s) (ck_reports s).
Definition set_rows (f : gmap (Z * Z) ScopeKey → gmap (Z * Z) ScopeKey) (s : CK) : CK :=
  mkCK (ck_scopes s) (ck_seq s) (f (ck_rows s)) (ck_calls s) (ck_draws s) (ck_reports s).
Definition tick_call (s : CK) : CK :=
  mkCK (ck_scopes s) (ck_seq s) (ck_rows s) (S (ck_calls s)) (ck_draws s) (ck_reports s).
Definition tick_draw (s : CK) : CK :=
  mkCK (ck_scopes s) (ck_seq s) (ck_rows s) (ck_calls s) (S (ck_draws s)) (ck_reports s).
Definition add_report (op : string) (s : CK) : CK :=
  mkCK (ck_scopes s) (ck_seq s) (ck_rows s) (ck_calls s) (ck_draws s) (ck_reports s ++ [op]).

Abbreviation M := (SE CK ChatKeyError).

Definition globalChatScope : Z := 0.
Definition maxArchivalGenerations : nat := 64.
Definition Overhead : nat := 16.
Definition WrappedLen : nat := 24 + Overhead + 32.

Section keys.
Context (db : nat → dbOutcome).
Context (rnd : nat → nat → option (list Z)).
Context (secretbox_Seal : list Z → key → list Z → list Z).
Context (secretbox_Open : list Z → key → list Z → option (list Z)).
Context (box_SealAnonymous : nat → list Z → key → option (list Z)).
(** The store and the ring the manager was constructed with. *)
Context (has_store : bool) (kek : option KEKRing).

(** ** The store *)

(** One statement or transaction: [op] computes its effect and its answer, or
    [None] when a constraint is violated. *)
Definition db_call {A} (op : CK → option (CK * A)) : M A := λ s,
  let o := db (ck_calls s) in
  let s := tick_call s in
  match o with
  | DbFailed => (s, Err ErrStore)
  | DbOk => match op s with
            | Some (s', a) => (s', Ok a)
            | None => (s, Err ErrStore)
            end
  | DbLost => match op s with
              | Some (s', _) => (s', Err ErrStore)
              | None => (s, Err ErrStore)
              end
  end.

Definition cast_key_id (id : Z) : M Z :=
  match Int64ToUint32 id with Ok id => se_ret id | Err _ => se_err ErrKeyIDRange end.

Definition AllocScopeKeyID (scope : Z) : M Z :=
  run id <- db_call (λ s,
    let next := match ck_seq s !! scope with None => 2 | Some n => n + 1 end in
    Some (set_seq <[scope := next]> s, next - 1));
  cast_key_id id.

(** [scanScopeKey]: the ids are cast to their widths. *)
Definition scanScopeKey (row : option (Z * ScopeKey)) : M (option (Z * ScopeKey)) :=
  match row with
  | None => se_ret None
  | Some (id, k) =>
      run id <- cast_key_id id;
      match Int64ToUint16 (sk_KEKID k) with
      | Ok kekid => se_ret (Some (id, {| sk_Wrapped := sk_Wrapped k; sk_KEKID := kekid;
                                         sk_Retired := sk_Retired k |}))
      | Err _ => se_err ErrKeyIDRange
      end
  end.

(** The live row of a scope: at most one, by the partial unique index. *)
Definition live_row (scope : Z) (s : CK) : option (Z * ScopeKey) :=
  (λ kv, (kv.1.2, kv.2)) <$>
    head (filter (λ kv, kv.1.1 = scope ∧ sk_Retired kv.2 = false) (map_to_list (ck_rows s))).

Definition CurrentScopeKey (scope : Z) : M (option (Z * ScopeKey)) :=
  run row <- db_call (λ s, Some (s, live_row scope s));
  scanScopeKey row.

Definition GetScopeKey (scope keyID : Z) : M (option (Z * ScopeKey)) :=
  run row <- db_call (λ s, Some (s, pair keyID <$> ck_rows s !! (scope, keyID)));
  scanScopeKey row.

Definition insert_row (scope keyID : Z) (wrapped : list Z) (kekID : Z) (s : CK) : option (CK * ()) :=
  match ck_rows s !! (scope, keyID), live_row scope s with
  | None, None =>
      Some (set_rows <[(scope, keyID) := {| sk_Wrapped := wrapped; sk_KEKID := kekID;
                                            sk_Retired := false |}]> s, ())
  | _, _ => None
  end.

Definition InsertScopeKey (scope keyID : Z) (wrapped : list Z) (kekID : Z) : M () :=
  db_call (insert_row scope keyID wrapped kekID).

Definition retire (k : ScopeKey) : ScopeKey :=
  {| sk_Wrapped := sk_Wrapped k; sk_KEKID := sk_KEKID k; sk_Retired := true |}.

Definition retire_scope (scope : Z) (rows : gmap (Z * Z) ScopeKey) : gmap (Z * Z) ScopeKey :=
  map_imap (λ k row, Some (if decide (k.1 = scope) then retire row else row)) rows.

Definition RotateScopeKey (scope newKeyID : Z) (wrapped : list Z) (kekID : Z) : M () :=
  db_call (λ s, insert_row scope newKeyID wrapped kekID (set_rows (retire_scope scope) s)).

(** ** Randomness and the key ring *)

Definition rand_Read (n : nat) : M (list Z) := λ s,
  match rnd (ck_draws s) n with
  | Some b => (tick_draw s, Ok b)
  | None => (tick_draw s, Err ErrRandom)
  end.

Definition Wrap (ring : KEKRing) (k : key) : M (Z * list Z) :=
  match kr_keys ring !! kr_newest ring with
  | None => se_err ErrEmptyRing
  | Some wk =>
      run nonce <- rand_Read 24;
      se_ret (kr_newest ring, nonce ++ secretbox_Seal nonce wk k)
  end.

Definition Unwrap (ring : KEKRing) (kekID : Z) (wrapped : list Z) : option key :=
  match kr_keys ring !! kekID with
  | None => None
  | Some wk =>
      if decide (length wrapped = WrappedLen)
      then secretbox_Open (take 24 wrapped) wk (drop 24 wrapped)
      else None
  end.

(** ** The manager's helpers *)

Definition with_ring {A} (f : KEKRing → M A) : M A :=
  match kek with
  | Some ring => if has_store then f ring else se_err ErrChatKeysUnconfigured
  | None => se_err ErrChatKeysUnconfigured
  end.

(** [entry]: the scope's cache entry, created on first use. *)
Definition entry (scope : Z) : M scopeEntry := λ s,
  match ck_scopes s !! scope with
  | Some e => (s, Ok e)
  | None => (set_scopes <[scope := new_entry]> s, Ok new_entry)
  end.

Definition put_entry (scope : Z) (e : scopeEntry) : M () := se_modify (set_scopes <[scope := e]>).

Definition set_current (id : Z) (k : key) (e : scopeEntry) : scopeEntry :=
  {| se_loaded := true; se_curID := id; se_curKey := k; se_old := se_old e; se_oldLRU := se_oldLRU e |}.

Definition set_loaded (e : scopeEntry) : scopeEntry :=
  {| se_loaded := true; se_curID := se_curID e; se_curKey := se_curKey e; se_old := se_old e;
     se_oldLRU := se_oldLRU e |}.

Definition loadLocked (scope : Z) (e : scopeEntry) : M scopeEntry :=
  if se_loaded e then se_ret e
  else with_ring (λ ring,
    run row <- CurrentScopeKey scope;
    match row with
    | None => let e := set_loaded e in run _ <- put_entry scope e; se_ret e
    | Some (id, row) =>
        match Unwrap ring (sk_KEKID row) (sk_Wrapped row) with
        | None => se_err ErrUnwrap
        | Some k => let e := set_current id k e in run _ <- put_entry scope e; se_ret e
        end
    end).

Definition mintLocked (scope : Z) (e : scopeEntry) : M (Z * key) :=
  with_ring (λ ring,
    run id <- AllocScopeKeyID scope;
    run k <- rand_Read 32;
    run w <- Wrap ring k;
    run _ <- InsertScopeKey scope id w.2 w.1;
    run _ <- put_entry scope (set_current id k e);
    se_ret (id, k)).

(** The trimming loop of [cacheOldLocked]. *)
Fixpoint trim_lru (lru : list Z) (old : gmap Z key) : list Z * gmap Z key :=
  match lru with
  | [] => ([], old)
  | id :: rest =>
      if decide (maxArchivalGenerations < length lru)%nat then trim_lru rest (delete id old)
      else (lru, old)
  end.

Definition cacheOldLocked (id : Z) (k : key) (e : scopeEntry) : scopeEntry :=
  if id =? 0 then e
  else
    let lru := match se_old e !! id with Some _ => se_oldLRU e | None => se_oldLRU e ++ [id] end in
    let '(lru, old) := trim_lru lru (<[id := k]> (se_old e)) in
    {| se_loaded := se_loaded e; se_curID := se_curID e; se_curKey := se_curKey e;
       se_old := old; se_oldLRU := lru |}.

(** The deferred [reportFailure]. *)
Definition reporting {A} (op : string) (m : M A) : M A := λ s,
  match m s with
  | (s', Err e) => (add_report op s', Err e)
  | (s', Ok a) => (s', Ok a)
  end.

(** ** The manager's methods *)

Definition EnsureScope (scope : Z) : M (Z * key) :=
  reporting "ensure"
    (run e <- entry scope;
     run e <- loadLocked scope e;
     if negb (se_curID e =? 0) then se_ret (se_curID e, se_curKey e) else mintLocked scope e).

Definition current (scope : Z) : M (Z * key) :=
  run e <- entry scope;
  run e <- loadLocked scope e;
  if se_curID e =? 0 then se_err ErrNoScopeKey else se_ret (se_curID e, se_curKey e).

Definition at_ (scope gen : Z) : M key :=
  if gen =? 0 then se_err ErrNoScopeKey
  else
    run e <- entry scope;
    run e <- loadLocked scope e;
    if se_curID e =? gen then se_ret (se_curKey e)
    else match se_old e !! gen with
         | Some k => se_ret k
         | None =>
             with_ring (λ ring,
               run row <- GetScopeKey scope gen;
               match row with
               | None => se_err ErrNoScopeKey
               | Some (_, row) =>
                   match Unwrap ring (sk_KEKID row) (sk_Wrapped row) with
                   | None => se_err ErrUnwrap
                   | Some k => run _ <- put_entry scope (cacheOldLocked gen k e); se_ret k
                   end
               end)
         end.

Definition rotate (scope : Z) : M (Z * key) :=
  reporting "rotate"
    (run e <- entry scope;
     run e <- loadLocked scope e;
     if se_curID e =? 0 then mintLocked scope e
     else with_ring (λ ring,
       run id <- AllocScopeKeyID scope;
       run k <- rand_Read 32;
       run w <- Wrap ring k;
       run _ <- RotateScopeKey scope id w.2 w.1;
       run _ <- put_entry scope (set_current id k (cacheOldLocked (se_curID e) (se_curKey e) e));
       se_ret (id, k))).

Record ChannelKey := { cky_ChannelID : Z; cky_KeyID : Z; cky_SealedKey : string }.

Definition sealFor (scope gen : Z) (memberPubB64 : string) : M ChannelKey :=
  reporting "seal_key"
    (match DecodeString memberPubB64 with
     | Some pub =>
         if decide (length pub = 32%nat) then
           run k <- at_ scope gen;
           λ s, match box_SealAnonymous (ck_draws s) k pub with
                | Some sealed => (tick_draw s, Ok {| cky_ChannelID := scope; cky_KeyID := gen;
                                                     cky_SealedKey := EncodeToString sealed |})
                | None => (tick_draw s, Err ErrSealKey)
                end
         else se_err ErrInvalidPublicKey
     | None => se_err ErrInvalidPublicKey
     end).

Definition open (scope gen : Z) (blobB64 : string) : M (list Z) :=
  reporting "decrypt"
    (run k <- at_ scope gen;
     match DecodeString blobB64 with
     | Some raw =>
         if decide (length raw < 24)%nat then se_err ErrInvalidCiphertext
         else match secretbox_Open (take 24 raw) k (drop 24 raw) with
              | Some plain => se_ret plain
              | None => se_err ErrDecryption
              end
     | None => se_err ErrInvalidCiphertext
     end).

Definition seal (scope : Z) (plain : list Z) : M (Z * string) :=
  reporting "encrypt"
    (run c <- current scope;
     run nonce <- rand_Read 24;
     se_ret (c.1, EncodeToString (nonce ++ secretbox_Seal nonce c.2 plain))).

(** A restart of the process: the cache is gone, the tables stay. *)
Definition restart (s : CK) : CK := set_scopes (λ _, ∅) s.

(** One call of the manager, whatever it answers, or a restart. *)
Inductive ckstep : CK → CK → Prop :=
| ck_ensure scope s : ckstep s (EnsureScope scope s).1
| ck_current scope s : ckstep s (current scope s).1
| ck_at scope gen s : ckstep s (at_ scope gen s).1
| ck_rotate scope s : ckstep s (rotate scope s).1
| ck_sealFor scope gen pub s : ckstep s (sealFor scope gen pub s).1
| ck_open scope gen blob s : ckstep s (open scope gen blob s).1
| ck_seal scope plain s : ckstep s (seal scope plain s).1
| ck_restart s : ckstep s (restart s).

End keys.
