(* ===== verification/ChatKeysSafety.v ===== *)
(** * Scope keys never change and stay readable

    The invariant of the chat key manager over every history of calls, database
    failures, lost answers and restarts, and what follows from it: a generation
    has one key for ever, a message sealed once can be opened ever after, lookups
    never create keys, the archival cache is bounded. *)

From S2P Require Import Prelude Wire GoState Base64 ChatKeys.

(** What is relied on of NaCl's secretbox and of the random source. *)
Record CryptoLaws (rnd : nat → nat → option (list Z))
    (seal_box : list Z → key → list Z → list Z)
    (open_box : list Z → key → list Z → option (list Z)) : Prop := {
  cl_open n k m : open_box n k (seal_box n k m) = Some m;
  cl_length n k m : length (seal_box n k m) = (Overhead + length m)%nat;
  cl_bytes n k m : Forall is_byte n → Forall is_byte m → Forall is_byte (seal_box n k m);
  cl_rnd i n b : rnd i n = Some b → length b = n ∧ Forall is_byte b;
}.

Section safety.
Context (db : nat → dbOutcome).
Context (rnd : nat → nat → option (list Z)).
Context (secretbox_Seal : list Z → key → list Z → list Z).
Context (secretbox_Open : list Z → key → list Z → option (list Z)).
Context (box_SealAnonymous : nat → list Z → key → option (list Z)).
Context (has_store : bool) (kek : option KEKRing).
Context (laws : CryptoLaws rnd secretbox_Seal secretbox_Open).
(** Key-encryption-key ids are of type [uint16]. *)
Context (ring_ids : ∀ ring, kek = Some ring → 0 ≤ kr_newest ring < 2 ^ 16).
Implicit Types s : CK.

#[local] Abbreviation EnsureScope_ := (EnsureScope db rnd secretbox_Seal secretbox_Open has_store kek).
#[local] Abbreviation current_' := (current db secretbox_Open has_store kek).
#[local] Abbreviation at_' := (at_ db secretbox_Open has_store kek).
#[local] Abbreviation rotate_ := (rotate db rnd secretbox_Seal secretbox_Open has_store kek).
#[local] Abbreviation seal_ := (seal db rnd secretbox_Seal secretbox_Open has_store kek).
#[local] Abbreviation open_ := (open db secretbox_Open has_store kek).
#[local] Abbreviation sealFor_ := (sealFor db secretbox_Open box_SealAnonymous has_store kek).
#[local] Abbreviation step := (ckstep db rnd secretbox_Seal secretbox_Open box_SealAnonymous has_store kek).

(** ** The invariant *)

(** The key a stored generation holds. *)
Definition row_key (row : ScopeKey) : option key :=
  ring ← kek; Unwrap secretbox_Open ring (sk_KEKID row) (sk_Wrapped row).

Definition gen_key (sc g : Z) s : option key := ck_rows s !! (sc, g) ≫= row_key.

Definition next_id (sc : Z) s : Z := default 1 (ck_seq s !! sc).

Record lru_ok (e : scopeEntry) : Prop := {
  lo_nodup : NoDup (se_oldLRU e);
  lo_dom g : g ∈ se_oldLRU e ↔ is_Some (se_old e !! g);
  lo_bound : (length (se_oldLRU e) ≤ maxArchivalGenerations)%nat;
}.

Record entry_ok (sc : Z) (e : scopeEntry) s : Prop := {
  eo_cur : se_curID e ≠ 0 → gen_key sc (se_curID e) s = Some (se_curKey e);
  eo_old g k : se_old e !! g = Some k → gen_key sc g s = Some k;
  eo_lru : lru_ok e;
}.

Record ckinv s : Prop := {
  ci_seq sc n : ck_seq s !! sc = Some n → 2 ≤ n;
  ci_id sc g row : ck_rows s !! (sc, g) = Some row → 0 < g < next_id sc s;
  ci_width sc g row : ck_rows s !! (sc, g) = Some row → g < 2 ^ 32 ∧ 0 ≤ sk_KEKID row < 2 ^ 16;
  ci_store sc g row : ck_rows s !! (sc, g) = Some row → has_store = true;
  ci_key sc g row : ck_rows s !! (sc, g) = Some row → is_Some (row_key row);
  ci_live sc g g' row row' : ck_rows s !! (sc, g) = Some row → ck_rows s !! (sc, g') = Some row' →
    sk_Retired row = false → sk_Retired row' = false → g = g';
  ci_entry sc e : ck_scopes s !! sc = Some e → entry_ok sc e s;
}.

(** Nothing stored is lost or changed, and ids are not reused. *)
Record extends s s' : Prop := {
  ex_key sc g k : gen_key sc g s = Some k → gen_key sc g s' = Some k;
  ex_next sc : next_id sc s ≤ next_id sc s';
}.

#[export] Instance extends_preorder : PreOrder extends.
Proof.
  split; [intros s; by split|]. intros s1 s2 s3 [Hk1 Hn1] [Hk2 Hn2]. split; [eauto|].
  intros sc. by transitivity (next_id sc s2).
Qed.

Lemma extends_refl s : extends s s.
Proof. reflexivity. Qed.
#[local] Hint Resolve extends_refl : core.

Lemma entry_ok_extends sc e s s' : extends s s' → entry_ok sc e s → entry_ok sc e s'.
Proof. intros [He _] [H1 H2 H3]. split; eauto. Qed.

Lemma new_entry_ok sc s : entry_ok sc new_entry s.
Proof.
  split; [done|by intros ??; simpl; rewrite lookup_empty|]. split; [constructor| |simpl; lia].
  intros g. simpl. rewrite lookup_empty. split; [by intros ?%elem_of_nil|by intros [??]].
Qed.

(** States that differ only in the cache, the counters and the reports. *)
Definition same_tables s s' : Prop := ck_rows s' = ck_rows s ∧ ck_seq s' = ck_seq s.

#[export] Instance same_tables_preorder : PreOrder same_tables.
Proof. split; [done|]. intros s1 s2 s3 [??] [??]. split; congruence. Qed.

Lemma same_tables_extends s s' : same_tables s s' → extends s s'.
Proof. intros [Hr Hs]. split; unfold gen_key, next_id; intros *; rewrite ?Hr, ?Hs; [done|reflexivity]. Qed.

Lemma ckinv_tables s s' :
  same_tables s s' → ckinv s →
  (∀ sc e, ck_scopes s' !! sc = Some e → ck_scopes s !! sc = Some e ∨ entry_ok sc e s) → ckinv s'.
Proof.
  intros Ht [H1 H2 Hw Hst H3 H4 H5] Hsc. pose proof (same_tables_extends _ _ Ht) as Hex.
  destruct Ht as [Hr Hs]. unfold next_id in *. split; rewrite ?Hr, ?Hs; try done.
  - intros sc g row Hg. unfold next_id. rewrite Hs. by eapply H2.
  - intros sc e He. apply (entry_ok_extends sc e s); [done|]. destruct (Hsc sc e He); auto.
Qed.

(** ** Specifications *)

Definition spec {A} (m : M A) s (Q : A → CK → Prop) : Prop :=
  ckinv s → ckinv (m s).1 ∧ extends s (m s).1 ∧ ∀ a, (m s).2 = Ok a → Q a (m s).1.

Lemma spec_bind {A B} (m : M A) (k : A → M B) s Q R :
  spec m s Q → (∀ a s1, ckinv s1 → extends s s1 → Q a s1 → spec (k a) s1 R) →
  spec (se_bind m k) s R.
Proof.
  intros Hm Hk Hs. destruct (Hm Hs) as (H1 & H2 & H3). unfold se_bind.
  destruct (m s) as [s1 [a|e]]; cbn [fst snd] in *; [|done].
  destruct (Hk a s1 H1 H2 (H3 a eq_refl) H1) as (H4 & H5 & H6). split_and!; [done| |done]. by etrans.
Qed.

Lemma spec_ret {A} (a : A) s (Q : A → CK → Prop) : Q a s → spec (se_ret a) s Q.
Proof. intros Ha Hs. simpl. split_and!; [done..|]. by intros ? [= <-]. Qed.

Lemma spec_intro {A} (m : M A) s (Q : A → CK → Prop) : (ckinv s → spec m s Q) → spec m s Q.
Proof. intros Hm Hs. by apply Hm. Qed.

Lemma spec_err {A} e s (Q : A → CK → Prop) : spec (se_err e) s Q.
Proof. intros Hs. simpl. by split_and!. Qed.

Lemma spec_weaken {A} (m : M A) s (Q Q' : A → CK → Prop) :
  (∀ a s', ckinv s' → extends s s' → Q a s' → Q' a s') → spec m s Q → spec m s Q'.
Proof. intros HQ Hm Hs. destruct (Hm Hs) as (H1 & H2 & H3). split_and!; eauto. Qed.

Lemma spec_reporting {A} op (m : M A) s Q : spec m s Q → spec (reporting op m) s Q.
Proof.
  intros Hm Hs. destruct (Hm Hs) as (H1 & H2 & H3). unfold reporting.
  destruct (m s) as [s1 [a|e]]; cbn [fst snd] in *; [done|].
  assert (same_tables s1 (add_report op s1)) as Ht by done. split_and!; [|by etrans; [|apply same_tables_extends]|done].
  apply (ckinv_tables s1); [done..|]. by left.
Qed.

Lemma tick_ok s s' : same_tables s s' → ck_scopes s' = ck_scopes s → ckinv s → ckinv s'.
Proof. intros Ht He Hs. apply (ckinv_tables s); [done..|]. rewrite He. by left. Qed.

(** A database call whose statement, when it goes through, satisfies [Q]. *)
Lemma spec_db {A} (op : CK → option (CK * A)) s (Q : A → CK → Prop) :
  (∀ s0 s1 a, same_tables s s0 → ck_scopes s0 = ck_scopes s → ckinv s0 → op s0 = Some (s1, a) →
     ckinv s1 ∧ extends s0 s1 ∧ Q a s1) →
  spec (db_call db op) s Q.
Proof.
  intros Hop Hs. unfold db_call.
  assert (same_tables s (tick_call s)) as Ht by done.
  pose proof (tick_ok s (tick_call s) Ht eq_refl Hs) as Hs'.
  pose proof (same_tables_extends _ _ Ht) as Hex.
  destruct (db (ck_calls s)); [| |]; try (destruct (op (tick_call s)) as [[s1 a]|] eqn:E;
    [destruct (Hop (tick_call s) s1 a Ht eq_refl Hs' E) as (H1 & H2 & H3)|]); cbn [fst snd];
    split_and!; try done; try (by etrans); by intros ? [= <-].
Qed.

Lemma spec_rand n s :
  spec (rand_Read rnd n) s (λ b s', same_tables s s' ∧ length b = n ∧ Forall is_byte b).
Proof.
  intros Hs. unfold rand_Read.
  assert (ckinv (tick_draw s) ∧ extends s (tick_draw s)) as [H1 H2]
    by (split; [by apply (tick_ok s)|by apply same_tables_extends]).
  destruct (rnd (ck_draws s) n) as [b|] eqn:E; cbn [fst snd]; split_and!; try done.
  intros ? [= <-]. by apply (cl_rnd _ _ _ laws) in E as [??].
Qed.

Lemma cast_key_id_inv id s :
  spec (cast_key_id id) s (λ id' s', id' = id ∧ s' = s ∧ 0 ≤ id < 2 ^ 32).
Proof.
  unfold cast_key_id, Int64ToUint32. destruct ((id <? 0) || (2 ^ 32 - 1 <? id)) eqn:E; bools.
  - apply spec_err.
  - apply spec_ret. split_and!; [apply wrap_u_small; lia|done|lia..].
Qed.

(** ** The store *)

Lemma live_row_None sc s :
  live_row sc s = None ↔ ∀ g row, ck_rows s !! (sc, g) = Some row → sk_Retired row = true.
Proof.
  unfold live_row. destruct (filter _ _) as [|[[sc' g] row] l] eqn:E; simpl.
  - split; [|done]. intros _ g row Hrow. destruct (sk_Retired row) eqn:Hr; [done|].
    assert (((sc, g), row) ∈ filter (λ kv, kv.1.1 = sc ∧ sk_Retired kv.2 = false) (map_to_list (ck_rows s)))
      as Hin by (apply list_elem_of_filter; split; [done|by apply elem_of_map_to_list]).
    rewrite E in Hin. by apply elem_of_nil in Hin.
  - split; [done|]. intros Hall. exfalso.
    assert (((sc', g), row) ∈ filter (λ kv, kv.1.1 = sc ∧ sk_Retired kv.2 = false) (map_to_list (ck_rows s)))
      as [[Hsc Hr] Hin]%list_elem_of_filter by (rewrite E; left).
    simpl in *. subst. apply elem_of_map_to_list, Hall in Hin. congruence.
Qed.

Lemma live_row_Some sc s g row :
  live_row sc s = Some (g, row) → ck_rows s !! (sc, g) = Some row ∧ sk_Retired row = false.
Proof.
  unfold live_row. destruct (filter _ _) as [|[[sc' g'] row'] l] eqn:E; simpl; [done|]. intros [= -> ->].
  assert (((sc', g), row) ∈ filter (λ kv, kv.1.1 = sc ∧ sk_Retired kv.2 = false) (map_to_list (ck_rows s)))
    as [[Hsc Hr] Hin]%list_elem_of_filter by (rewrite E; left).
  simpl in *. subst. by apply elem_of_map_to_list in Hin.
Qed.

(** The live generation of a scope. *)
Definition live_id (sc : Z) s : option Z := fst <$> live_row sc s.

Lemma live_id_lookup sc g row s :
  ckinv s → ck_rows s !! (sc, g) = Some row → sk_Retired row = false → live_id sc s = Some g.
Proof.
  intros Hs Hrow Hr. unfold live_id. destruct (live_row sc s) as [[g' row']|] eqn:E; simpl.
  - apply live_row_Some in E as [Hrow' Hr']. f_equal. by eapply ci_live.
  - rewrite live_row_None in E. apply E in Hrow. congruence.
Qed.

Lemma live_row_tables sc s s' : ck_rows s' = ck_rows s → live_row sc s' = live_row sc s.
Proof. unfold live_row. by intros ->. Qed.

Lemma next_id_tables sc s s' : ck_seq s = ck_seq s' → next_id sc s = next_id sc s'.
Proof. unfold next_id. by intros ->. Qed.

Lemma spec_alloc sc s :
  spec (AllocScopeKeyID db sc) s (λ id s', (next_id sc s ≤ id < next_id sc s' ∧ 0 < id ∧
     ck_rows s' !! (sc, id) = None) ∧ id < 2 ^ 32).
Proof.
  eapply spec_bind; [apply (spec_db _ _ (λ id s', next_id sc s ≤ id < next_id sc s' ∧ 0 < id ∧
    ck_rows s' !! (sc, id) = None))|].
  - intros s0 s1 id [Hr Hq] _ [H1 H2 Hw Hst H3 H4 H5] [= <- <-].
    assert (match ck_seq s0 !! sc with None => 2 | Some n => n + 1 end = next_id sc s0 + 1) as Hnext
      by (unfold next_id; destruct (ck_seq s0 !! sc); simpl; lia).
    assert (1 ≤ next_id sc s0) as Hpos.
    { unfold next_id. destruct (ck_seq s0 !! sc) eqn:E; simpl; [apply H1 in E; lia|lia]. }
    rewrite Hnext. set (s1 := set_seq _ s0).
    assert (next_id sc s1 = next_id sc s0 + 1) as Hsc
      by (unfold next_id at 1, s1; simpl; by rewrite lookup_insert_eq).
    assert (∀ j, next_id j s0 ≤ next_id j s1) as Hmono.
    { intros j. destruct (decide (sc = j)) as [<-|Hj]; [lia|].
      unfold next_id, s1. simpl. rewrite lookup_insert_ne by done. reflexivity. }
    split_and!.
    + split; try done.
      * intros j n. cbn [s1 ck_seq set_seq]. rewrite lookup_insert_Some.
        intros [[<- <-]|[_ Hj]]; [lia|by eapply H1].
      * intros j g row Hg. pose proof (H2 _ _ _ Hg). pose proof (Hmono j). lia.
      * intros j e He. destruct (H5 _ _ He) as [Ha Hb Hc]. by split.
    + by split.
    + unfold next_id at 1. rewrite <- Hq. fold (next_id sc s0). lia.
    + lia.
    + lia.
    + destruct (ck_rows s1 !! (sc, next_id sc s0 + 1 - 1)) as [row|] eqn:E; [|done].
      cbn [s1 ck_rows set_seq] in E. apply H2 in E. lia.
  - intros id s1 Hs1 Hex (Ha & Hb & Hc). eapply spec_weaken; [|apply cast_key_id_inv].
    intros id' s2 _ _ (-> & -> & ?). split; [done|lia].
Qed.

Lemma scan_spec row s : spec (scanScopeKey row) s (λ r s', s' = s ∧ r = row).
Proof.
  destruct row as [[id row]|]; [|by apply spec_ret].
  eapply spec_bind; [apply cast_key_id_inv|]. intros id' s1 _ _ (-> & -> & _).
  unfold Int64ToUint16. destruct ((sk_KEKID row <? 0) || (2 ^ 16 - 1 <? sk_KEKID row)) eqn:E; bools.
  - apply spec_err.
  - apply spec_ret. rewrite wrap_u_small by lia. by destruct row.
Qed.

Lemma CurrentScopeKey_spec sc s :
  spec (CurrentScopeKey db sc) s (λ r s', same_tables s s' ∧ ck_scopes s' = ck_scopes s ∧ r = live_row sc s').
Proof.
  eapply spec_bind; [apply (spec_db _ _ (λ r s', same_tables s s' ∧ ck_scopes s' = ck_scopes s ∧ r = live_row sc s'))|].
  - intros s0 s1 r Ht Hsc Hs0 [= <- <-]. by split_and!.
  - intros r s1 _ _ (Ht & Hsc & ->). eapply spec_weaken; [|apply scan_spec]. by intros ? ? _ _ [-> ->].
Qed.

Lemma GetScopeKey_spec sc g s :
  spec (GetScopeKey db sc g) s (λ r s', same_tables s s' ∧ ck_scopes s' = ck_scopes s ∧
      r = pair g <$> ck_rows s' !! (sc, g)).
Proof.
  eapply spec_bind;
    [apply (spec_db _ _ (λ r s', same_tables s s' ∧ ck_scopes s' = ck_scopes s ∧
      r = pair g <$> ck_rows s' !! (sc, g)))|].
  - intros s0 s1 r Ht Hsc Hs0 [= <- <-]. by split_and!.
  - intros r s1 _ _ (Ht & Hsc & ->). eapply spec_weaken; [|apply scan_spec]. by intros ? ? _ _ [-> ->].
Qed.

(** The row of a new generation can be unwrapped to [k]. *)
Record row_for (sc id : Z) (w : Z * list Z) (k : key) : Prop := {
  rf_store : has_store = true;
  rf_id : 0 < id < 2 ^ 32;
  rf_kek : 0 ≤ w.1 < 2 ^ 16;
  rf_key : (ring ← kek; Unwrap secretbox_Open ring w.1 w.2) = Some k;
}.

Lemma insert_row_ok sc id w k s s' :
  row_for sc id w k → id < next_id sc s → ckinv s →
  insert_row sc id w.2 w.1 s = Some (s', ()) →
  ckinv s' ∧ extends s s' ∧ gen_key sc id s' = Some k ∧
    ck_rows s !! (sc, id) = None ∧ live_row sc s = None ∧
    ck_rows s' = <[(sc, id) := {| sk_Wrapped := w.2; sk_KEKID := w.1; sk_Retired := false |}]> (ck_rows s).
Proof.
  intros [Hst Hid Hkek Hk] Hlt [H1 H2 Hw Hs H3 H4 H5]. unfold insert_row.
  destruct (ck_rows s !! (sc, id)) eqn:Hnone; [done|].
  destruct (live_row sc s) eqn:Hlive; [done|]. intros [= <-].
  set (row := {| sk_Wrapped := _ |}). set (s' := set_rows _ s).
  assert (extends s s') as Hex.
  { split; [|done]. intros sc' g k'. unfold gen_key, s'. simpl.
    destruct (decide ((sc, id) = (sc', g))) as [[= <- <-]|]; [by rewrite Hnone|].
    by rewrite lookup_insert_ne. }
  split_and!; [|done|unfold gen_key, s'; simpl; by rewrite lookup_insert_eq|done..].
  rewrite live_row_None in Hlive.
  split; unfold s'; simpl; try done.
  - intros sc' g r [[[= <- <-] <-]|[_ ?]]%lookup_insert_Some; [change (0 < id < next_id sc s); lia|by eapply H2].
  - intros sc' g r [[[= <- <-] <-]|[_ ?]]%lookup_insert_Some; [simpl; lia|by eapply Hw].
  - intros sc' g r [[[= <- <-] <-]|[_ ?]]%lookup_insert_Some; [by eexists|by eapply H3].
  - intros sc' g g' r r' [[[= <- <-] <-]|[? Hr]]%lookup_insert_Some [[[= ?] <-]|[? Hr']]%lookup_insert_Some;
      simplify_eq; [done|intros _ Hf|intros Hf _|by eapply H4];
      [apply Hlive in Hr'|apply Hlive in Hr]; congruence.
  - intros sc' e He. eapply entry_ok_extends; [done|by apply H5].
Qed.

Lemma retire_lookup sc rows sc' g :
  retire_scope sc rows !! (sc', g) =
    (λ row, if decide (sc' = sc) then retire row else row) <$> rows !! (sc', g).
Proof. unfold retire_scope. rewrite map_lookup_imap. by destruct (rows !! (sc', g)). Qed.

Lemma retire_scope_ok sc s :
  ckinv s → let s' := set_rows (retire_scope sc) s in ckinv s' ∧ extends s s'.
Proof.
  intros [H1 H2 Hw Hs H3 H4 H5]. set (s' := set_rows _ s). cbv zeta.
  assert (∀ sc' g r, ck_rows s' !! (sc', g) = Some r → ∃ r0, ck_rows s !! (sc', g) = Some r0 ∧
    row_key r = row_key r0 ∧ sk_KEKID r = sk_KEKID r0 ∧ (sk_Retired r = false → sk_Retired r0 = false))
    as Hback.
  { intros sc' g r. unfold s'. simpl. rewrite retire_lookup.
    intros (r0 & -> & Hr0)%fmap_Some. exists r0. destruct (decide (sc' = sc)); naive_solver. }
  assert (extends s s') as Hex.
  { split; [|done]. intros sc' g k. unfold gen_key, s'. simpl. rewrite retire_lookup.
    destruct (ck_rows s !! (sc', g)); simpl; [|done]. by destruct (decide _). }
  split; [|done]. split; try done.
  - intros sc' g r (r0 & Hr & _)%Hback. by eapply H2.
  - intros sc' g r (r0 & Hr & _ & -> & _)%Hback. by eapply Hw.
  - intros sc' g r (r0 & Hr & _)%Hback. by eapply Hs.
  - intros sc' g r (r0 & Hr & -> & _)%Hback. by eapply H3.
  - intros sc' g g' r r' (r0 & Hr & _ & _ & Hf)%Hback (r1 & Hr' & _ & _ & Hf')%Hback ??. eapply H4; eauto.
  - intros sc' e He. eapply entry_ok_extends; [done|by apply H5].
Qed.

Lemma InsertScopeKey_spec sc id w k s :
  row_for sc id w k → id < next_id sc s →
  spec (InsertScopeKey db sc id w.2 w.1) s (λ _ s', gen_key sc id s' = Some k ∧ live_id sc s' = Some id).
Proof.
  intros Hrow Hlt. apply spec_db. intros s0 s1 [] [Hr Hq] _ Hs0 Hins.
  destruct (insert_row_ok sc id w k s0 s1 Hrow) as (Hs1 & Hex & Hk & _ & _ & Hrows);
    [by rewrite (next_id_tables sc s0 s)|done..|].
  split_and!; [done..|]. eapply live_id_lookup; [done| |]; [by rewrite Hrows, lookup_insert_eq|done].
Qed.

Lemma RotateScopeKey_spec sc id w k s :
  row_for sc id w k → id < next_id sc s →
  spec (RotateScopeKey db sc id w.2 w.1) s (λ _ s', gen_key sc id s' = Some k ∧ live_id sc s' = Some id).
Proof.
  intros Hrow Hlt. apply spec_db. intros s0 s1 [] [Hr Hq] _ Hs0 Hins.
  destruct (retire_scope_ok sc s0 Hs0) as [Hs0' Hex0].
  destruct (insert_row_ok sc id w k (set_rows (retire_scope sc) s0) s1 Hrow) as (Hs1 & Hex & Hk & _ & _ & Hrows);
    [by rewrite (next_id_tables sc _ s)|exact Hs0'|exact Hins|].
  split_and!; [done|by etrans|done|]. eapply live_id_lookup; [done| |]; [by rewrite Hrows, lookup_insert_eq|done].
Qed.

(** ** The key ring *)

Lemma Unwrap_Wrap ring nonce wk k :
  kr_keys ring !! kr_newest ring = Some wk → length nonce = 24%nat → length k = 32%nat →
  Unwrap secretbox_Open ring (kr_newest ring) (nonce ++ secretbox_Seal nonce wk k) = Some k.
Proof.
  intros Hwk Hn Hk. unfold Unwrap. rewrite Hwk, length_app, (cl_length _ _ _ laws), Hn, Hk.
  rewrite decide_True by done. rewrite take_app_length', drop_app_length' by done.
  apply (cl_open _ _ _ laws).
Qed.

Lemma Wrap_spec ring k s :
  length k = 32%nat →
  spec (Wrap rnd secretbox_Seal ring k) s
    (λ w s', same_tables s s' ∧ w.1 = kr_newest ring ∧ Unwrap secretbox_Open ring w.1 w.2 = Some k).
Proof.
  intros Hk. unfold Wrap. destruct (kr_keys ring !! kr_newest ring) as [wk|] eqn:E; [|apply spec_err].
  eapply spec_bind; [apply spec_rand|]. intros nonce s1 _ _ (Ht & Hn & _). apply spec_ret.
  split_and!; [done..|]. by apply Unwrap_Wrap.
Qed.

(** ** The manager *)

Lemma spec_with_ring {A} (f : KEKRing → M A) s Q :
  (∀ ring, kek = Some ring → has_store = true → spec (f ring) s Q) →
  spec (with_ring has_store kek f) s Q.
Proof.
  intros Hf. unfold with_ring. destruct kek as [ring|] eqn:E; [|apply spec_err].
  destruct has_store; [by apply Hf|apply spec_err].
Qed.

Lemma put_entry_spec sc e s :
  entry_ok sc e s →
  spec (put_entry sc e) s (λ _ s', same_tables s s' ∧ ck_scopes s' !! sc = Some e).
Proof.
  intros He Hs. unfold put_entry, se_modify. cbn [fst snd].
  assert (same_tables s (set_scopes <[sc:=e]> s)) as Ht by done.
  split_and!; [|by apply same_tables_extends|intros; split; [done|]; simpl; apply lookup_insert_eq].
  apply (ckinv_tables s); [done..|]. intros sc' e'. simpl.
  intros [[<- <-]|[_ ?]]%lookup_insert_Some; auto.
Qed.

Lemma entry_spec sc s : spec (entry sc) s (λ e s', same_tables s s' ∧ ck_scopes s' !! sc = Some e).
Proof.
  unfold spec, entry. intros Hs. destruct (ck_scopes s !! sc) as [e|] eqn:E.
  - simpl. split_and!; [done..|]. by intros ? [= <-].
  - apply (put_entry_spec sc new_entry) in Hs as (H1 & H2 & H3); [|apply new_entry_ok].
    split_and!; [done..|]. intros ? [= <-]. by apply (H3 ()).
Qed.

Lemma set_current_ok sc id k e s :
  entry_ok sc e s → gen_key sc id s = Some k → entry_ok sc (set_current id k e) s.
Proof. intros [Hc Ho [Hl1 Hl2 Hl3]] Hk. by split. Qed.

Lemma set_loaded_ok sc e s : entry_ok sc e s → entry_ok sc (set_loaded e) s.
Proof. intros [Hc Ho [Hl1 Hl2 Hl3]]. by split. Qed.

Lemma trim_lru_ok lru old :
  NoDup lru → (∀ g, g ∈ lru ↔ is_Some (old !! g)) →
  let r := trim_lru lru old in
  NoDup r.1 ∧ (∀ g, g ∈ r.1 ↔ is_Some (r.2 !! g)) ∧ (length r.1 ≤ maxArchivalGenerations)%nat ∧
  ∀ g k, r.2 !! g = Some k → old !! g = Some k.
Proof.
  revert old. induction lru as [|id lru IH]; intros old Hnd Hdom.
  - simpl. split_and!; [done..|unfold maxArchivalGenerations; lia|done].
  - cbn [trim_lru]. destruct (decide _) as [Hlt|Hle]; [|simpl in *; split_and!; [done..|lia|done]].
    apply NoDup_cons in Hnd as [Hid Hnd].
    destruct (IH (delete id old)) as (H1 & H2 & H3 & H4); [done| |].
    + intros g. rewrite lookup_delete_is_Some, <- Hdom, elem_of_cons. set_solver.
    + split_and!; [done..|]. intros g k Hg. apply H4, lookup_delete_Some in Hg. by destruct Hg.
Qed.

Lemma cacheOldLocked_ok sc id k e s :
  entry_ok sc e s → gen_key sc id s = Some k → entry_ok sc (cacheOldLocked id k e) s.
Proof.
  intros [Hc Ho [Hl1 Hl2 Hl3]] Hk. unfold cacheOldLocked. destruct (id =? 0) eqn:E; [by split|].
  set (lru := match se_old e !! id with Some _ => _ | None => _ end).
  destruct (trim_lru_ok lru (<[id:=k]> (se_old e))) as (H1 & H2 & H3 & H4).
  - unfold lru. destruct (se_old e !! id) eqn:Ei; [done|]. apply NoDup_app. split_and!; [done| |apply NoDup_singleton].
    intros x Hx%Hl2 ->%list_elem_of_singleton. rewrite Ei in Hx. by destruct Hx.
  - intros g. rewrite lookup_insert_is_Some', <- Hl2. unfold lru.
    destruct (se_old e !! id) eqn:Ei; [|set_solver].
    assert (id ∈ se_oldLRU e) by (apply Hl2; by rewrite Ei). naive_solver.
  - destruct (trim_lru lru _) as [lru' old'] eqn:Et. cbn [fst snd] in *. split; [done| |by split].
    simpl. intros g k' [[<- <-]|[_ ?]]%H4%lookup_insert_Some; [done|by apply Ho].
Qed.

Lemma loadLocked_spec sc e s :
  ck_scopes s !! sc = Some e →
  spec (loadLocked db secretbox_Open has_store kek sc e) s
    (λ e' s', same_tables s s' ∧ ck_scopes s' !! sc = Some e' ∧ se_loaded e' = true).
Proof.
  intros He. unfold loadLocked. destruct (se_loaded e) eqn:El; [by apply spec_ret|].
  apply spec_with_ring. intros ring Hring Hst.
  eapply spec_bind; [apply CurrentScopeKey_spec|]. intros row s1 Hs1 Hex (Ht & Hsc & ->).
  rewrite <- Hsc in He. pose proof (ci_entry _ Hs1 _ _ He) as Hok.
  destruct (live_row sc s1) as [[id row]|] eqn:Erow.
  - apply live_row_Some in Erow as [Hrow _].
    destruct (Unwrap _ _ _ _) as [k|] eqn:Ek; [|apply spec_err]. cbv zeta.
    eapply spec_bind; [apply put_entry_spec|].
    + apply set_current_ok; [done|]. unfold gen_key, row_key. by rewrite Hrow, Hring.
    + intros _ s2 _ _ [Ht2 He2]. apply spec_ret. split_and!; [by etrans|done..].
  - cbv zeta. eapply spec_bind; [apply put_entry_spec|].
    + by apply set_loaded_ok.
    + intros _ s2 _ _ [Ht2 He2]. apply spec_ret. split_and!; [by etrans|done..].
Qed.

(** The scope's cache holds generation [g] as the current one. *)
Definition cached_current (sc : Z) (a : Z * key) s : Prop :=
  ∃ e, ck_scopes s !! sc = Some e ∧ se_loaded e = true ∧ se_curID e = a.1 ∧ se_curKey e = a.2.

(** What an answer of the manager says of the state it leaves. *)
Definition answered (sc : Z) (a : Z * key) s : Prop :=
  a.1 ≠ 0 ∧ gen_key sc a.1 s = Some a.2 ∧ cached_current sc a s.

(** What minting and rotating share: a fresh id, a fresh key, a stored row. *)
Lemma fresh_spec sc (op : Z → Z * list Z → M ()) (f : Z → key → scopeEntry) ring s :
  kek = Some ring → has_store = true →
  (∀ id w k s1, row_for sc id w k → id < next_id sc s1 →
     spec (op id w) s1 (λ _ s', gen_key sc id s' = Some k ∧ live_id sc s' = Some id)) →
  (∀ id k s1, extends s s1 → gen_key sc id s1 = Some k →
     entry_ok sc (f id k) s1 ∧ se_loaded (f id k) = true ∧ se_curID (f id k) = id ∧ se_curKey (f id k) = k) →
  spec (run id <- AllocScopeKeyID db sc;
        run k <- rand_Read rnd 32;
        run w <- Wrap rnd secretbox_Seal ring k;
        run _ <- op id w;
        run _ <- put_entry sc (f id k);
        se_ret (id, k)) s
    (λ a s', answered sc a s' ∧ live_id sc s' = Some a.1 ∧ next_id sc s ≤ a.1).
Proof.
  intros Hring Hst Hop Hf.
  eapply spec_bind; [apply spec_alloc|]. intros id s1 _ Hx1 ((Hid & Hpos & Hnone) & Hw).
  eapply spec_bind; [apply spec_rand|]. intros k s2 _ Hx2 (Ht2 & Hk & _).
  eapply spec_bind; [by apply Wrap_spec|]. intros w s3 _ Hx3 (Ht3 & Hkek & Hun).
  assert (extends s1 s3) as Hx13 by by etrans.
  eapply spec_bind; [apply Hop with (k := k)|].
  { split; [done|done|rewrite Hkek; by apply ring_ids|by rewrite Hring]. }
  { pose proof (ex_next _ _ Hx13 sc). lia. }
  intros [] s4 _ Hx4 [Hgen Hlive]. destruct (Hf id k s4) as (He & Hf1 & Hf2 & Hf3);
    [by repeat (etrans; [done|])|done|].
  eapply spec_bind; [by apply put_entry_spec|]. intros [] s5 _ Hx5 [Ht5 Hsc].
  apply spec_ret. unfold answered, live_id. rewrite (live_row_tables sc s4 s5) by apply Ht5.
  split_and!; [simpl; lia|by apply (ex_key _ _ Hx5)|by exists (f id k)|done|simpl; lia].
Qed.

Lemma mintLocked_spec sc e s :
  ck_scopes s !! sc = Some e →
  spec (mintLocked db rnd secretbox_Seal has_store kek sc e) s
    (λ a s', answered sc a s' ∧ live_id sc s' = Some a.1 ∧ next_id sc s ≤ a.1).
Proof.
  intros He. apply spec_intro. intros Hs. apply spec_with_ring. intros ring Hring Hst.
  apply fresh_spec with (f := λ id k, set_current id k e) (op := λ id w, InsertScopeKey db sc id w.2 w.1);
    [done..|apply InsertScopeKey_spec|].
  intros id k s1 Hx Hk. split_and!; [|done..]. apply set_current_ok; [|done].
  eapply entry_ok_extends; [done|]. by apply ci_entry.
Qed.

Lemma EnsureScope_spec sc s : spec (EnsureScope_ sc) s (λ a s', answered sc a s').
Proof.
  apply spec_reporting. eapply spec_bind; [apply entry_spec|]. intros e s1 _ _ [_ He].
  eapply spec_bind; [by apply loadLocked_spec|]. intros e1 s2 Hs2 _ (_ & He1 & Hl).
  destruct (se_curID e1 =? 0) eqn:E; bools; simpl.
  - eapply spec_weaken; [|by apply mintLocked_spec]. by intros a s' _ _ [? _].
  - apply spec_ret. split_and!; [done|by eapply eo_cur; [apply ci_entry|]|by exists e1].
Qed.

Lemma current_spec sc s : spec (current_' sc) s (λ a s', answered sc a s').
Proof.
  eapply spec_bind; [apply entry_spec|]. intros e s1 _ _ [_ He].
  eapply spec_bind; [by apply loadLocked_spec|]. intros e1 s2 Hs2 _ (_ & He1 & Hl).
  destruct (se_curID e1 =? 0) eqn:E; bools; [apply spec_err|].
  apply spec_ret. split_and!; [done|by eapply eo_cur; [apply ci_entry|]|by exists e1].
Qed.

Lemma rotate_spec sc s :
  spec (rotate_ sc) s (λ a s', answered sc a s' ∧ live_id sc s' = Some a.1 ∧ next_id sc s ≤ a.1).
Proof.
  apply spec_reporting. eapply spec_bind; [apply entry_spec|]. intros e s1 _ _ [[_ Hq1] He].
  eapply spec_bind; [by apply loadLocked_spec|]. intros e1 s2 Hs2 _ ([_ Hq2] & He1 & Hl).
  rewrite <- (next_id_tables sc s2 s) by congruence.
  destruct (se_curID e1 =? 0) eqn:E; bools; [by apply mintLocked_spec|].
  apply spec_with_ring. intros ring Hring Hst.
  apply fresh_spec with (f := λ id k, set_current id k (cacheOldLocked (se_curID e1) (se_curKey e1) e1))
    (op := λ id w, RotateScopeKey db sc id w.2 w.1); [done..|apply RotateScopeKey_spec|].
  pose proof (ci_entry _ Hs2 _ _ He1) as Hok.
  intros id k s3 Hx Hk. split_and!; [|done..]. apply set_current_ok; [|done].
  apply (entry_ok_extends _ _ s2); [done|]. apply cacheOldLocked_ok; [done|by apply (eo_cur _ _ _ Hok)].
Qed.

Lemma at_spec sc g s : spec (at_' sc g) s (λ k s', gen_key sc g s' = Some k).
Proof.
  unfold at_. destruct (g =? 0) eqn:Eg; bools; [apply spec_err|].
  eapply spec_bind; [apply entry_spec|]. intros e s1 _ _ [_ He].
  eapply spec_bind; [by apply loadLocked_spec|]. intros e1 s2 Hs2 _ (_ & He1 & Hl).
  pose proof (ci_entry _ Hs2 _ _ He1) as Hok.
  destruct (se_curID e1 =? g) eqn:E; bools; [apply spec_ret; subst; by apply (eo_cur _ _ _ Hok)|].
  destruct (se_old e1 !! g) as [k|] eqn:Eo; [apply spec_ret; by apply (eo_old _ _ _ Hok)|].
  apply spec_with_ring. intros ring Hring Hst.
  eapply spec_bind; [apply GetScopeKey_spec|]. intros row s3 Hs3 Hx3 (Ht & Hsc & ->).
  destruct (ck_rows s3 !! (sc, g)) as [row|] eqn:Erow; simpl; [|apply spec_err].
  destruct (Unwrap _ _ _ _) as [k|] eqn:Ek; [|apply spec_err].
  assert (gen_key sc g s3 = Some k) as Hk by (unfold gen_key, row_key; by rewrite Erow, Hring).
  eapply spec_bind; [apply put_entry_spec; apply cacheOldLocked_ok; [by eapply entry_ok_extends|done]|].
  intros [] s4 _ Hx4 _. apply spec_ret. by apply (ex_key _ _ Hx4).
Qed.

(** A body that generation [g] of the scope opens to [plain]. *)
Definition sealed_under (sc g : Z) (plain : list Z) (blob : string) s : Prop :=
  ∃ k raw, gen_key sc g s = Some k ∧ DecodeString blob = Some raw ∧ (24 ≤ length raw)%nat ∧
    secretbox_Open (take 24 raw) k (drop 24 raw) = Some plain.

Lemma sealed_under_extends sc g plain blob s s' :
  extends s s' → sealed_under sc g plain blob s → sealed_under sc g plain blob s'.
Proof. intros Hx (k & raw & Hk & ?). exists k, raw. split; [by apply (ex_key _ _ Hx)|done]. Qed.

Lemma seal_spec sc plain s :
  Forall is_byte plain →
  spec (seal_ sc plain) s (λ a s', a.1 ≠ 0 ∧ sealed_under sc a.1 plain a.2 s').
Proof.
  intros Hb. apply spec_reporting. eapply spec_bind; [apply current_spec|].
  intros [g k] s1 _ _ (Hg & Hk & _).
  eapply spec_bind; [apply spec_rand|]. intros nonce s2 _ Hx2 (_ & Hn & Hnb).
  apply spec_ret. split; [done|]. cbn [fst snd] in *.
  exists k, (nonce ++ secretbox_Seal nonce k plain).
  split_and!; [by apply (ex_key _ _ Hx2)| |rewrite length_app; lia|].
  - apply decode_encode, Forall_app. split; [done|]. by apply (cl_bytes _ _ _ laws).
  - rewrite take_app_length', drop_app_length' by done. apply (cl_open _ _ _ laws).
Qed.

Lemma open_spec sc g blob s :
  spec (open_ sc g blob) s (λ plain s', sealed_under sc g plain blob s').
Proof.
  apply spec_reporting. eapply spec_bind; [apply at_spec|]. intros k s1 _ _ Hk.
  destruct (DecodeString blob) as [raw|] eqn:Hraw; [|apply spec_err]. case_decide; [apply spec_err|].
  destruct (secretbox_Open _ _ _) as [plain|] eqn:Ho; [apply spec_ret|apply spec_err].
  exists k, raw. split_and!; [done..|lia|done].
Qed.

Lemma sealFor_spec sc g pub s : spec (sealFor_ sc g pub) s (λ _ _, True).
Proof.
  apply spec_reporting. destruct (DecodeString pub); [|apply spec_err].
  case_decide; [|apply spec_err]. eapply spec_bind; [apply at_spec|]. intros k s1 Hs1 _ _ _.
  assert (ckinv (tick_draw s1) ∧ extends s1 (tick_draw s1)) as [Ha Hx]
    by (split; [by apply (tick_ok s1)|by apply same_tables_extends]).
  by destruct (box_SealAnonymous _ _ _).
Qed.

(** ** Histories *)

Definition reachable s : Prop := rtc step CK_start s.

Lemma start_ckinv : ckinv CK_start.
Proof. split; intros *; simpl; by rewrite lookup_empty. Qed.

Lemma spec_step {A} (m : M A) s Q : spec m s Q → ckinv s → ckinv (m s).1 ∧ extends s (m s).1.
Proof. intros Hm Hs. destruct (Hm Hs) as (?&?&?). by split. Qed.

Lemma seal_step sc plain s : ckinv s → ckinv (seal_ sc plain s).1 ∧ extends s (seal_ sc plain s).1.
Proof.
  eapply (spec_step _ _ (λ _ _, True)). apply spec_reporting. eapply spec_bind; [apply current_spec|].
  intros a s1 _ _ _. eapply spec_bind; [apply spec_rand|]. intros. by apply spec_ret.
Qed.

Lemma step_ckinv s s' : step s s' → ckinv s → ckinv s' ∧ extends s s'.
Proof.
  intros [sc s0|sc s0|sc g s0|sc s0|sc g pub s0|sc g blob s0|sc plain s0|s0] Hs0.
  - by eapply spec_step; [apply EnsureScope_spec|].
  - by eapply spec_step; [apply current_spec|].
  - by eapply spec_step; [apply at_spec|].
  - by eapply spec_step; [apply rotate_spec|].
  - by eapply spec_step; [apply sealFor_spec|].
  - by eapply spec_step; [apply open_spec|].
  - by apply seal_step.
  - split; [|by apply same_tables_extends]. apply (ckinv_tables s0); [done..|].
    intros sc e. simpl. by rewrite lookup_empty.
Qed.

Lemma steps_ckinv s s' : rtc step s s' → ckinv s → ckinv s' ∧ extends s s'.
Proof.
  induction 1 as [s|s1 s2 s3 Hstep Hsteps IH]; intros Hs; [done|].
  apply step_ckinv in Hstep as [H2 Hx]; [|done]. destruct (IH H2) as [H3 Hx3]. split; [done|by etrans].
Qed.

Lemma reachable_ckinv s : reachable s → ckinv s.
Proof. intros Hr. by apply (steps_ckinv CK_start s Hr start_ckinv). Qed.

(** A call that answered key [k] for generation [g] of a scope. *)
Inductive gives (sc g : Z) (k : key) : CK → CK → Prop :=
| gives_ensure s s' : EnsureScope_ sc s = (s', Ok (g, k)) → gives sc g k s s'
| gives_current s s' : current_' sc s = (s', Ok (g, k)) → gives sc g k s s'
| gives_rotate s s' : rotate_ sc s = (s', Ok (g, k)) → gives sc g k s s'
| gives_at s s' : at_' sc g s = (s', Ok k) → gives sc g k s s'.

Lemma spec_Ok {A} (m : M A) s Q s' a :
  spec m s Q → ckinv s → m s = (s', Ok a) → ckinv s' ∧ extends s s' ∧ Q a s'.
Proof. intros Hm Hs E. destruct (Hm Hs) as (H1 & H2 & H3). rewrite E in *. simpl in *. auto. Qed.

Lemma gives_gen_key sc g k s s' :
  gives sc g k s s' → ckinv s → ckinv s' ∧ extends s s' ∧ gen_key sc g s' = Some k.
Proof.
  intros [s0 s0' E|s0 s0' E|s0 s0' E|s0 s0' E] Hs.
  - by apply (spec_Ok _ _ _ _ _ (EnsureScope_spec sc s0)) in E as (? & ? & _ & ? & _).
  - by apply (spec_Ok _ _ _ _ _ (current_spec sc s0)) in E as (? & ? & _ & ? & _).
  - by apply (spec_Ok _ _ _ _ _ (rotate_spec sc s0)) in E as (? & ? & (_ & ? & _) & _).
  - by apply (spec_Ok _ _ _ _ _ (at_spec sc g s0)) in E as (? & ? & ?).
Qed.

(** ** Lookups succeed when the store answers *)

Lemma scan_ok g row s :
  0 ≤ g < 2 ^ 32 → 0 ≤ sk_KEKID row < 2 ^ 16 → scanScopeKey (Some (g, row)) s = (s, Ok (Some (g, row))).
Proof.
  intros Hg Hk. unfold scanScopeKey, cast_key_id, Int64ToUint32, Int64ToUint16, se_bind.
  rewrite (proj2 (orb_false_iff _ _)) by (split; apply Z.ltb_ge; lia). cbn.
  rewrite (proj2 (orb_false_iff _ _)) by (split; apply Z.ltb_ge; lia).
  rewrite !wrap_u_small by lia. by destruct row.
Qed.

Lemma CurrentScopeKey_ok sc s :
  ckinv s → db (ck_calls s) = DbOk →
  CurrentScopeKey db sc s = (tick_call s, Ok (live_row sc s)).
Proof.
  intros Hs Hdb. unfold CurrentScopeKey, se_bind, db_call. rewrite Hdb.
  change (live_row sc (tick_call s)) with (live_row sc s).
  destruct (live_row sc s) as [[g row]|] eqn:E; [|done].
  apply live_row_Some in E as [Hrow _]. pose proof (ci_id _ Hs _ _ _ Hrow).
  apply scan_ok; [|by eapply ci_width]. split; [lia|by eapply ci_width].
Qed.

Lemma GetScopeKey_ok sc g row s :
  ckinv s → db (ck_calls s) = DbOk → ck_rows s !! (sc, g) = Some row →
  GetScopeKey db sc g s = (tick_call s, Ok (Some (g, row))).
Proof.
  intros Hs Hdb Hrow. unfold GetScopeKey, se_bind, db_call. rewrite Hdb.
  change (ck_rows (tick_call s)) with (ck_rows s). rewrite Hrow. simpl.
  pose proof (ci_id _ Hs _ _ _ Hrow). apply scan_ok; [|by eapply ci_width].
  split; [lia|by eapply ci_width].
Qed.

Lemma with_ring_ok {A} ring (f : KEKRing → M A) :
  kek = Some ring → has_store = true → with_ring has_store kek f = f ring.
Proof. unfold with_ring. by intros -> ->. Qed.

Lemma row_unwraps sc g row ring s :
  ckinv s → kek = Some ring → ck_rows s !! (sc, g) = Some row →
  ∃ k, Unwrap secretbox_Open ring (sk_KEKID row) (sk_Wrapped row) = Some k.
Proof. intros Hs Hr Hrow. apply (ci_key _ Hs) in Hrow as [k Hk]. unfold row_key in Hk. rewrite Hr in Hk. eauto. Qed.

Lemma loadLocked_ok ring sc e s :
  kek = Some ring → has_store = true → ckinv s → db (ck_calls s) = DbOk →
  ∃ e' s', loadLocked db secretbox_Open has_store kek sc e s = (s', Ok e') ∧
    (ck_calls s' = ck_calls s ∨ ck_calls s' = S (ck_calls s)).
Proof.
  intros Hring Hst Hs Hdb. unfold loadLocked. destruct (se_loaded e); [by exists e, s; auto|].
  rewrite (with_ring_ok ring) by done. unfold se_bind at 1. rewrite CurrentScopeKey_ok by done.
  destruct (live_row sc s) as [[g row]|] eqn:E; [|by eexists _, _; split; [done|right]].
  apply live_row_Some in E as [Hrow _]. destruct (row_unwraps _ _ _ _ _ Hs Hring Hrow) as [k ->].
  by eexists _, _; split; [done|right].
Qed.

(** A stored generation can always be had, with at most two database calls. *)
Lemma at_ok sc g k s :
  ckinv s → gen_key sc g s = Some k → db (ck_calls s) = DbOk → db (S (ck_calls s)) = DbOk →
  (at_' sc g s).2 = Ok k.
Proof.
  intros Hs Hk Hdb Hdb2.
  cut (∃ s' k', at_' sc g s = (s', Ok k')).
  { intros (s' & k' & E). destruct (spec_Ok _ _ _ _ _ (at_spec sc g s) Hs E) as (_ & Hx & Hk').
    rewrite E. simpl. apply (ex_key _ _ Hx) in Hk. congruence. }
  assert (∃ row ring, ck_rows s !! (sc, g) = Some row ∧ kek = Some ring ∧ has_store = true ∧ 0 < g)
    as (row & ring & Hrow & Hring & Hst & Hg).
  { unfold gen_key in Hk. destruct (ck_rows s !! (sc, g)) as [row|] eqn:Hrow; [|done].
    simpl in Hk. unfold row_key in Hk. destruct kek as [ring|]; [|done].
    exists row, ring. split_and!; [done..|by eapply ci_store|by eapply ci_id]. }
  unfold at_. rewrite (proj2 (Z.eqb_neq _ _)) by lia.
  destruct (entry sc s) as [s1 [e|]] eqn:E1; [|by unfold entry in E1; destruct (ck_scopes s !! sc)].
  destruct (spec_Ok _ _ _ _ _ (entry_spec sc s) Hs E1) as (Hs1 & _ & Ht1 & He1).
  assert (ck_calls s1 = ck_calls s) as Hc1 by (unfold entry in E1; destruct (ck_scopes s !! sc); by simplify_eq).
  destruct (loadLocked_ok ring sc e s1) as (e2 & s2 & E2 & Hc2); [done..|by rewrite Hc1|].
  destruct (spec_Ok _ _ _ _ _ (loadLocked_spec sc e s1 He1) Hs1 E2) as (Hs2 & _ & Ht2 & _).
  unfold se_bind at 1. rewrite E1. unfold se_bind at 1. rewrite E2.
  destruct (se_curID e2 =? g); [by eexists _, _|]. destruct (se_old e2 !! g); [by eexists _, _|].
  rewrite (with_ring_ok ring) by done. unfold se_bind at 1.
  assert (ck_rows s2 !! (sc, g) = Some row) as Hrow2 by (by rewrite (proj1 Ht2), (proj1 Ht1)).
  rewrite (GetScopeKey_ok _ _ row) by (try done; destruct Hc2 as [->| ->]; by rewrite Hc1).
  destruct (row_unwraps _ _ _ _ _ Hs2 Hring Hrow2) as [k' ->]. by eexists _, _.
Qed.

Lemma open_ok sc g plain blob s :
  ckinv s → sealed_under sc g plain blob s → db (ck_calls s) = DbOk → db (S (ck_calls s)) = DbOk →
  (open_ sc g blob s).2 = Ok plain.
Proof.
  intros Hs (k & raw & Hk & Hraw & Hlen & Hop) Hdb Hdb2.
  pose proof (at_ok sc g k s Hs Hk Hdb Hdb2) as Hat. unfold open, reporting, se_bind.
  destruct (at_' sc g s) as [s1 [k'|]]; [|done]. simplify_eq/=.
  rewrite Hraw, decide_False by lia. by rewrite Hop.
Qed.

(** ** Lookups leave the tables alone *)

Lemma db_read_tables {A} (f : CK → A) : preserves same_tables (db_call db (λ s, Some (s, f s))).
Proof. intros s. unfold db_call. by destruct (db (ck_calls s)). Qed.

Lemma scan_tables row : preserves same_tables (scanScopeKey row).
Proof.
  intros s. unfold scanScopeKey, cast_key_id, se_bind. destruct row as [[id row]|]; [|done].
  destruct (Int64ToUint32 id); [|done]. simpl. by destruct (Int64ToUint16 _).
Qed.

Lemma entry_tables sc : preserves same_tables (entry sc).
Proof. intros s. unfold entry. by destruct (ck_scopes s !! sc). Qed.

Lemma put_entry_tables sc e : preserves same_tables (put_entry sc e).
Proof. by intros s. Qed.

Lemma rand_tables n : preserves same_tables (rand_Read rnd n).
Proof. intros s. unfold rand_Read. by destruct (rnd (ck_draws s) n). Qed.

Lemma with_ring_tables {A} (f : KEKRing → M A) :
  (∀ ring, preserves same_tables (f ring)) → preserves same_tables (with_ring has_store kek f).
Proof using. clear ring_ids. intros Hf s. unfold with_ring. destruct kek; [|done]. destruct has_store; [apply Hf|done]. Qed.

Lemma reporting_tables {A} op (m : M A) : preserves same_tables m → preserves same_tables (reporting op m).
Proof. intros Hm s. specialize (Hm s). unfold reporting. by destruct (m s) as [s' [a|e]]. Qed.

Create HintDb tables.
#[local] Hint Resolve db_read_tables scan_tables entry_tables put_entry_tables rand_tables
  with_ring_tables reporting_tables : tables.
#[local] Hint Extern 1 (preserves _ (se_bind _ _)) => apply (preserves_bind same_tables) : tables.
#[local] Hint Extern 1 (preserves _ (se_ret _)) => apply (preserves_ret same_tables) : tables.
#[local] Hint Extern 1 (preserves _ (se_err _)) => apply (preserves_err same_tables) : tables.

Lemma loadLocked_tables sc e : preserves same_tables (loadLocked db secretbox_Open has_store kek sc e).
Proof.
  unfold loadLocked. destruct (se_loaded e); [auto with tables|].
  apply with_ring_tables. intros ring. apply (preserves_bind same_tables);
    [apply (preserves_bind same_tables); auto with tables|].
  intros [[id row]|]; [|auto with tables]. destruct (Unwrap _ _ _ _); auto with tables.
Qed.
#[local] Hint Resolve loadLocked_tables : tables.

Lemma current_tables sc : preserves same_tables (current_' sc).
Proof.
  unfold current. repeat (apply (preserves_bind same_tables); [auto with tables|intros ?]).
  destruct (_ =? _); auto with tables.
Qed.

Lemma at_tables sc g : preserves same_tables (at_' sc g).
Proof.
  unfold at_. destruct (g =? 0); [auto with tables|].
  repeat (apply (preserves_bind same_tables); [auto with tables|intros ?]).
  destruct (_ =? _); [auto with tables|]. destruct (se_old _ !! g); [auto with tables|].
  apply with_ring_tables. intros ring. apply (preserves_bind same_tables);
    [apply (preserves_bind same_tables); auto with tables|].
  intros [[id row]|]; [|auto with tables]. destruct (Unwrap _ _ _ _); auto with tables.
Qed.
#[local] Hint Resolve current_tables at_tables : tables.

Lemma seal_tables sc plain : preserves same_tables (seal_ sc plain).
Proof. unfold seal. auto 8 with tables. Qed.

Lemma open_tables sc g blob : preserves same_tables (open_ sc g blob).
Proof.
  apply reporting_tables, (preserves_bind same_tables); [auto with tables|]. intros k.
  destruct (DecodeString blob); [|auto with tables]. case_decide; [auto with tables|].
  destruct (secretbox_Open _ _ _); auto with tables.
Qed.

Lemma sealFor_tables sc g pub : preserves same_tables (sealFor_ sc g pub).
Proof.
  apply reporting_tables. destruct (DecodeString pub); [|auto with tables].
  case_decide; [|auto with tables]. apply (preserves_bind same_tables); [auto with tables|].
  intros k s. by destruct (box_SealAnonymous _ _ _).
Qed.

Lemma current_cached sc a s :
  cached_current sc a s → a.1 ≠ 0 → current_' sc s = (s, Ok a).
Proof.
  destruct a as [g k]. intros (e & He & Hl & Hid & Hk) Hg. cbn [fst snd] in *.
  unfold current, se_bind, entry. rewrite He. unfold loadLocked. rewrite Hl. simpl.
  rewrite (proj2 (Z.eqb_neq _ _)) by congruence. by rewrite Hid, Hk.
Qed.
End safety.

(** * What the scope keys promise

    Over every history of calls, failed and lost database statements and
    restarts: a generation has one key for ever, a message that was sealed can be
    opened ever after, a rotation takes effect and never reuses a generation,
    lookups create nothing and the archival cache is bounded. One more theorem
    shows the state a lost answer leaves a new scope in. *)

Section props.
Context (db : nat → dbOutcome).
Context (rnd : nat → nat → option (list Z)).
Context (secretbox_Seal : list Z → key → list Z → list Z).
Context (secretbox_Open : list Z → key → list Z → option (list Z)).
Context (box_SealAnonymous : nat → list Z → key → option (list Z)).
Context (has_store : bool) (kek : option KEKRing).

#[local] Abbreviation current_ := (current db secretbox_Open has_store kek).
#[local] Abbreviation at_' := (at_ db secretbox_Open has_store kek).
#[local] Abbreviation rotate_ := (rotate db rnd secretbox_Seal secretbox_Open has_store kek).
#[local] Abbreviation seal_ := (seal db rnd secretbox_Seal secretbox_Open has_store kek).
#[local] Abbreviation open_ := (open db secretbox_Open has_store kek).
#[local] Abbreviation sealFor_ := (sealFor db secretbox_Open box_SealAnonymous has_store kek).
#[local] Abbreviation step := (ckstep db rnd secretbox_Seal secretbox_Open box_SealAnonymous has_store kek).
#[local] Abbreviation reachable_ :=
  (reachable db rnd secretbox_Seal secretbox_Open box_SealAnonymous has_store kek).
#[local] Abbreviation gives_ := (gives db rnd secretbox_Seal secretbox_Open has_store kek).

(** Whatever happens in between (rotations, failed or lost database
    statements, restarts, cache evictions), two answers of the key manager for the
    same generation of the same scope, from [EnsureScope], [current], [rotate] or
    [at], carry the same key. *)
Theorem generation_key_stable sc g k k' s1 s1' s2 s2' :
  CryptoLaws rnd secretbox_Seal secretbox_Open →
  (∀ ring, kek = Some ring → 0 ≤ kr_newest ring < 2 ^ 16) →
  reachable_ s1 → gives_ sc g k s1 s1' → rtc step s1' s2 → gives_ sc g k' s2 s2' → k = k'.
Proof.
  intros laws ids Hr Hg Hsteps Hg'.
  apply (reachable_ckinv db rnd secretbox_Seal secretbox_Open box_SealAnonymous has_store kek) in Hr;
    [|done..].
  apply (gives_gen_key db rnd secretbox_Seal secretbox_Open has_store kek) in Hg as (H1 & _ & Hk); [|done..].
  apply (steps_ckinv db rnd secretbox_Seal secretbox_Open) in Hsteps as [H2 Hx]; [|done..].
  apply (gives_gen_key db rnd secretbox_Seal secretbox_Open has_store kek) in Hg' as (H3 & Hx2 & Hk'); [|done..].
  apply (ex_key _ _ _ _ Hx), (ex_key _ _ _ _ Hx2) in Hk. congruence.
Qed.

(** C24: a message sealed once can be opened ever after: for every later history,
    [open] with the generation [seal] returned gives back the plaintext, provided
    the (at most two) database calls [open] makes are answered. *)
Theorem sealed_stays_readable sc plain g blob s s1 s2 :
  CryptoLaws rnd secretbox_Seal secretbox_Open →
  (∀ ring, kek = Some ring → 0 ≤ kr_newest ring < 2 ^ 16) →
  Forall is_byte plain → reachable_ s → seal_ sc plain s = (s1, Ok (g, blob)) → rtc step s1 s2 →
  db (ck_calls s2) = DbOk → db (S (ck_calls s2)) = DbOk →
  (open_ sc g blob s2).2 = Ok plain.
Proof.
  intros laws ids Hb Hr Hseal Hsteps Hdb Hdb2.
  apply (reachable_ckinv db rnd secretbox_Seal secretbox_Open box_SealAnonymous has_store kek) in Hr;
    [|done..].
  destruct (spec_Ok _ _ _ _ _ _ _ _ (seal_spec _ _ _ _ _ _ laws ids sc plain s Hb) Hr Hseal)
    as (H1 & _ & _ & Hsealed).
  apply (steps_ckinv db rnd secretbox_Seal secretbox_Open) in Hsteps as [H2 Hx]; [|done..].
  eapply open_ok; [done..| |done|done]. by eapply sealed_under_extends.
Qed.

(** A rotation that answers generation [g] takes effect: [g] is newer than
    every generation the scope ever had, it is the scope's only live row, and the
    next [current] (so the next [seal]) answers it without asking the database. *)
Theorem rotate_takes_effect sc g k s s' :
  CryptoLaws rnd secretbox_Seal secretbox_Open →
  (∀ ring, kek = Some ring → 0 ≤ kr_newest ring < 2 ^ 16) →
  reachable_ s → rotate_ sc s = (s', Ok (g, k)) →
  (∀ g' row, ck_rows s !! (sc, g') = Some row → g' < g) ∧
  (∀ g' row, ck_rows s' !! (sc, g') = Some row → sk_Retired row = false ↔ g' = g) ∧
  current_ sc s' = (s', Ok (g, k)).
Proof.
  intros laws ids Hr Hrot.
  apply (reachable_ckinv db rnd secretbox_Seal secretbox_Open box_SealAnonymous has_store kek) in Hr;
    [|done..].
  destruct (spec_Ok _ _ _ _ _ _ _ _ (rotate_spec _ _ _ _ _ _ laws ids sc s) Hr Hrot)
    as (H1 & Hx & (Hg & Hk & Hc) & Hlive & Hnext).
  cbn [fst snd] in *. split_and!.
  - intros g' row Hrow. apply (ci_id _ _ _ _ Hr) in Hrow. lia.
  - intros g' row Hrow. unfold live_id in Hlive.
    apply fmap_Some in Hlive as ([g0 row0] & Hl & ->). cbn [fst] in *.
    apply live_row_Some in Hl as [Hrow0 Hr0]. split; [intros|intros ->; congruence].
    by eapply ci_live.
  - by apply current_cached.
Qed.

(** Looking a key up never creates one, whatever id a client sends: [current],
    [at], [seal], [open] and [sealFor] leave both tables as they are, in every
    state and on every path. *)
Theorem lookups_never_mint sc g plain blob pub s :
  same_tables s (current_ sc s).1 ∧ same_tables s (at_' sc g s).1 ∧
  same_tables s (seal_ sc plain s).1 ∧ same_tables s (open_ sc g blob s).1 ∧
  same_tables s (sealFor_ sc g pub s).1.
Proof.
  split_and!; [apply current_tables|apply at_tables|apply seal_tables|apply open_tables|apply sealFor_tables].
Qed.

(** The archival cache of a scope holds at most 64 generations, each with the
    key its row holds, in every reachable state. *)
Theorem archival_cache_bounded sc e s :
  CryptoLaws rnd secretbox_Seal secretbox_Open →
  (∀ ring, kek = Some ring → 0 ≤ kr_newest ring < 2 ^ 16) →
  reachable_ s → ck_scopes s !! sc = Some e →
  (size (se_old e) ≤ maxArchivalGenerations)%nat ∧
  ∀ g k, se_old e !! g = Some k → gen_key secretbox_Open kek sc g s = Some k.
Proof.
  intros laws ids Hr He.
  apply (reachable_ckinv db rnd secretbox_Seal secretbox_Open box_SealAnonymous has_store kek) in Hr;
    [|done..].
  apply (ci_entry _ _ _ _ Hr) in He as [_ Hold [Hnd Hdom Hlen]]. split; [|done].
  rewrite <- size_dom. transitivity (length (se_oldLRU e)); [|done].
  rewrite <- (size_list_to_set (C := gset Z)) by done. apply subseteq_size. intros g Hg%elem_of_dom.
  by apply elem_of_list_to_set, Hdom.
Qed.
End props.

(** ** A lost answer *)

Section lost.
Context (db : nat → dbOutcome).
Context (rnd : nat → nat → option (list Z)).
Context (secretbox_Seal : list Z → key → list Z → list Z).
Context (secretbox_Open : list Z → key → list Z → option (list Z)).
Context (kek : option KEKRing).

(** The cache says that the scope has no generation, the table has a live one. *)
Definition wedged (sc : Z) (s : CK) : Prop :=
  (∃ e, ck_scopes s !! sc = Some e ∧ se_loaded e = true ∧ se_curID e = 0) ∧ is_Some (live_row sc s).

Definition same_cache (s s' : CK) : Prop := ck_rows s' = ck_rows s ∧ ck_scopes s' = ck_scopes s.

#[export] Instance same_cache_preorder : PreOrder same_cache.
Proof. split; [done|]. intros s1 s2 s3 [??] [??]. split; congruence. Qed.

Lemma same_cache_wedged sc s s' : same_cache s s' → wedged sc s → wedged sc s'.
Proof. intros [Hr Hs]. unfold wedged. by rewrite Hs, (live_row_tables sc s s'). Qed.

(** A program that cannot succeed from a wedged state and changes nothing there. *)
Definition stuck {A} (sc : Z) (m : M A) : Prop :=
  ∀ s, wedged sc s → (∃ e, (m s).2 = Err e) ∧ same_cache s (m s).1.

Lemma stuck_bind {A B} sc (m : M A) (k : A → M B) :
  preserves same_cache m → (∀ a, stuck sc (k a)) → stuck sc (se_bind m k).
Proof.
  intros Hm Hk s Hs. specialize (Hm s). unfold se_bind. destruct (m s) as [s1 [a|e]]; [|simpl in *; eauto].
  destruct (Hk a s1) as [He Hc]; [by eapply same_cache_wedged|]. split; [done|by etrans].
Qed.

Lemma stuck_reporting {A} sc op (m : M A) : stuck sc m → stuck sc (reporting op m).
Proof.
  intros Hm s Hs. destruct (Hm s Hs) as [[e He] Hc]. unfold reporting.
  destruct (m s) as [s1 [a|]]; simpl in *; [done|]. split; [eauto|done].
Qed.

Lemma insert_stuck sc id w kid {B} (k : () → M B) :
  stuck sc (se_bind (InsertScopeKey db sc id w kid) k).
Proof.
  intros s [_ [r Hlive]]. unfold se_bind, InsertScopeKey, db_call, insert_row.
  change (live_row sc (tick_call s)) with (live_row sc s). rewrite Hlive.
  destruct (db (ck_calls s)), (ck_rows (tick_call s) !! (sc, id)); simpl; (split; [by eexists|done]).
Qed.

Lemma alloc_cache sc : preserves same_cache (AllocScopeKeyID db sc).
Proof.
  intros s. unfold AllocScopeKeyID, cast_key_id, se_bind, db_call.
  destruct (db (ck_calls s)); simpl; try done. by destruct (Int64ToUint32 _).
Qed.

Lemma mint_stuck sc e : stuck sc (mintLocked db rnd secretbox_Seal true kek sc e).
Proof.
  unfold mintLocked, with_ring. destruct kek as [ring|]; [|intros s _; split; [by eexists|done]].
  apply stuck_bind; [apply alloc_cache|]. intros id.
  apply stuck_bind; [intros s; unfold rand_Read; by destruct (rnd _ _)|]. intros k.
  apply stuck_bind; [|intros w; apply insert_stuck]. unfold Wrap.
  intros s. destruct (kr_keys ring !! kr_newest ring); [|done].
  unfold se_bind, rand_Read. by destruct (rnd _ _).
Qed.

(** From a wedged state neither [EnsureScope] nor [rotate] nor [current] can
    answer, and the state stays wedged. *)
Lemma wedged_stuck sc :
  stuck sc (EnsureScope db rnd secretbox_Seal secretbox_Open true kek sc) ∧
  stuck sc (rotate db rnd secretbox_Seal secretbox_Open true kek sc) ∧
  stuck sc (current db secretbox_Open true kek sc).
Proof.
  assert (∀ {A} (k : scopeEntry → M A),
    (∀ e, se_curID e = 0 → stuck sc (k e)) →
    stuck sc (run e <- entry sc; run e <- loadLocked db secretbox_Open true kek sc e; k e)) as Hentry.
  { intros A k Hk s Hs. pose proof Hs as [(e & He & Hl & Hid) _]. unfold se_bind, entry. rewrite He.
    unfold loadLocked. rewrite Hl. by apply (Hk e Hid). }
  split_and!; [apply stuck_reporting, Hentry|apply stuck_reporting, Hentry|apply Hentry];
    intros e ->; [apply mint_stuck|apply mint_stuck|intros s _; split; [by eexists|done]].
Qed.
End lost.

(** ** A concrete instance *)

(** A box whose tag is taken from the key, and a counting random source. *)
Definition toy_tag (k : key) : list Z := (λ b, b mod 256) <$> take 16 (k ++ replicate 16 0).
Definition toy_Seal (n : list Z) (k : key) (m : list Z) : list Z := toy_tag k ++ m.
Definition toy_Open (n : list Z) (k : key) (c : list Z) : option (list Z) :=
  if decide (take 16 c = toy_tag k) then Some (drop 16 c) else None.
Definition toy_rnd (i n : nat) : option (list Z) := Some (replicate n (Z.of_nat i mod 256)).
Definition toy_box (i : nat) (m : list Z) (pub : key) : option (list Z) := Some (pub ++ m).
Definition toy_ring : option KEKRing := Some {| kr_keys := {[1 := replicate 32 7]}; kr_newest := 1 |}.

Lemma toy_laws : CryptoLaws toy_rnd toy_Seal toy_Open.
Proof.
  assert (∀ k, length (toy_tag k) = 16%nat) as Hlen.
  { intros k. unfold toy_tag. rewrite length_fmap, length_take, length_app, length_replicate. lia. }
  split.
  - intros n k m. unfold toy_Open, toy_Seal. rewrite take_app_length', drop_app_length' by done.
    by rewrite decide_True.
  - intros n k m. unfold toy_Seal. by rewrite length_app, Hlen.
  - intros n k m _ Hm. apply Forall_app. split; [|done]. apply Forall_fmap, Forall_forall.
    intros b _. simpl. unfold is_byte. pose proof (Z.mod_pos_bound b 256). lia.
  - intros i n b [= <-]. split; [by rewrite length_replicate|].
    apply Forall_replicate. unfold is_byte. pose proof (Z.mod_pos_bound (Z.of_nat i) 256). lia.
Qed.

Lemma toy_ids ring : toy_ring = Some ring → 0 ≤ kr_newest ring < 2 ^ 16.
Proof. intros [= <-]. simpl. lia. Qed.

Section demo.
#[local] Abbreviation all_ok := (λ _ : nat, DbOk).
#[local] Abbreviation Ensure_ d := (EnsureScope d toy_rnd toy_Seal toy_Open true toy_ring).
#[local] Abbreviation rotate_ := (rotate all_ok toy_rnd toy_Seal toy_Open true toy_ring).
#[local] Abbreviation current_ d := (current d toy_Open true toy_ring).
#[local] Abbreviation step_ := (ckstep all_ok toy_rnd toy_Seal toy_Open toy_box true toy_ring).

(** Scope 5 gets a key, is rotated, and the server restarts. *)
Definition demo_minted : CK := (Ensure_ all_ok 5 CK_start).1.
Definition demo_later : CK := restart (rotate_ 5 demo_minted).1.

Lemma demo_steps : rtc step_ demo_minted demo_later.
Proof. eapply rtc_l; [apply (ck_rotate _ _ _ _ _ _ _ 5)|]. apply rtc_once, ck_restart. Qed.

Lemma generation_key_stable_witness :
  (at_ all_ok toy_Open true toy_ring 5 1 demo_later).2 = Ok (replicate 32 0) ∧
  replicate 32 0 = replicate 32 0.
Proof.
  split; [by vm_compute|].
  apply (generation_key_stable all_ok toy_rnd toy_Seal toy_Open toy_box true toy_ring 5 1 _ _
    CK_start demo_minted demo_later (at_ all_ok toy_Open true toy_ring 5 1 demo_later).1 toy_laws toy_ids).
  - apply rtc_refl.
  - apply gives_ensure. vm_compute. reflexivity.
  - apply demo_steps.
  - apply gives_at. vm_compute. reflexivity.
Defined.

Definition demo_sealed : CK * result ChatKeyError (Z * string) :=
  seal all_ok toy_rnd toy_Seal toy_Open true toy_ring 5 [104; 105] demo_minted.
Definition demo_blob : string := match demo_sealed.2 with Ok a => a.2 | Err _ => "" end.
Definition demo_reopened : CK := restart (rotate_ 5 demo_sealed.1).1.

Lemma sealed_stays_readable_witness :
  (open all_ok toy_Open true toy_ring 5 1 demo_blob demo_reopened).2 = Ok [104; 105].
Proof.
  apply (sealed_stays_readable all_ok toy_rnd toy_Seal toy_Open toy_box true toy_ring 5 [104; 105] 1 demo_blob
    demo_minted demo_sealed.1 demo_reopened toy_laws toy_ids).
  - repeat (constructor; [unfold is_byte; lia|]). constructor.
  - apply rtc_once, (ck_ensure _ _ _ _ _ _ _ 5).
  - vm_compute. reflexivity.
  - eapply rtc_l; [apply (ck_rotate _ _ _ _ _ _ _ 5)|]. apply rtc_once, ck_restart.
  - reflexivity.
  - reflexivity.
Defined.

Lemma rotate_takes_effect_witness :
  current_ all_ok 5 (rotate_ 5 demo_minted).1 = ((rotate_ 5 demo_minted).1, Ok (2, replicate 32 2)).
Proof.
  apply (rotate_takes_effect all_ok toy_rnd toy_Seal toy_Open toy_box true toy_ring 5 2 _ demo_minted
    (rotate_ 5 demo_minted).1 toy_laws toy_ids).
  - apply rtc_once, (ck_ensure _ _ _ _ _ _ _ 5).
  - vm_compute. reflexivity.
Defined.

(** Scope 5 is new and the answer to the INSERT of its first generation is lost,
    a single failure: [EnsureScope] fails for ever after, although every later
    database call is answered and the table holds a readable live generation. A
    restart of the server mends it. *)
Theorem lost_insert_wedges_scope n :
  let d := λ i : nat, if decide (i = 2%nat) then DbLost else DbOk in
  let again := λ s : CK, (Ensure_ d 5 s).1 in
  let s := Nat.iter n again (again CK_start) in
  (∃ e, (Ensure_ d 5 s).2 = Err e) ∧ (∃ e, (current_ d 5 s).2 = Err e) ∧
  (n = 3%nat → (current_ d 5 (restart s)).2 = Ok (1, replicate 32 0)).
Proof.
  cbv zeta. set (d := λ i : nat, _). set (again := λ s : CK, _). set (s := Nat.iter _ _ _).
  assert (wedged 5 s) as Hw.
  { subst s. induction n as [|n IH].
    - split; [exists (default new_entry (ck_scopes (again CK_start) !! 5))|apply is_Some_alt; by vm_compute].
      split_and!; by vm_compute.
    - simpl. destruct (wedged_stuck d toy_rnd toy_Seal toy_Open toy_ring 5) as (He & _ & _).
      destruct (He _ IH) as [_ Hc]. by eapply same_cache_wedged. }
  destruct (wedged_stuck d toy_rnd toy_Seal toy_Open toy_ring 5) as (He & _ & Hc).
  split_and!; [by apply He|by apply Hc|]. intros ->. vm_compute. reflexivity.
Qed.
End demo.
