(* ===== verification/ChatText.v ===== *)
(** * The text functions of chat moderation ([src/internal/server/chatx.go])

    Attachment tokens, links, moderation lists, mentions and the decimal channel
    ids of chat messages. Texts are byte strings. The regular expressions of the
    file are matched by hand-written matchers: each of them is deterministic, as
    every class excludes the character that ends it, and excludes ASCII characters
    only, so that matching bytes and matching code points agree.

    Unicode case mapping and white space ([strings.ToLower], [strings.TrimSpace])
    and the URL parser are parameters of the functions that use them; nothing is
    assumed of them. *)

From Stdlib Require Import Ascii.
From S2P Require Import Prelude.

Abbreviation chars := (list ascii).

Definition bytes_of_string (s : string) : list Z :=
  (λ c, Z.of_nat (nat_of_ascii c)) <$> String.list_ascii_of_string s.
Definition string_of_bytes (l : list Z) : string :=
  String.string_of_list_ascii ((λ b, ascii_of_nat (Z.to_nat b)) <$> l).

(** ** [strings] *)

Fixpoint strip_prefix (p l : chars) : option chars :=
  match p, l with
  | [], _ => Some l
  | c :: p, d :: l => if Ascii.eqb c d then strip_prefix p l else None
  | _ :: _, [] => None
  end.

Fixpoint contains_chars (p l : chars) : bool :=
  match strip_prefix p l with
  | Some _ => true
  | None => match l with [] => false | _ :: l => contains_chars p l end
  end.

Definition Contains (s sub : string) : bool :=
  contains_chars (String.list_ascii_of_string sub) (String.list_ascii_of_string s).

(** The longest prefix of characters that satisfy [f], and the rest. *)
Fixpoint span (f : ascii → bool) (l : chars) : chars * chars :=
  match l with
  | [] => ([], [])
  | c :: l' => if f c then let '(a, b) := span f l' in (c :: a, b) else ([], l)
  end.

Definition is_char (c d : ascii) : bool := Ascii.eqb c d.

Definition trim_left (c : ascii) (l : chars) : chars := (span (is_char c) l).2.
(** [strings.Trim] with a cutset of one character. *)
Definition Trim (s : string) (c : ascii) : string :=
  String.string_of_list_ascii (reverse (trim_left c (reverse (trim_left c (String.list_ascii_of_string s))))).

Definition HasSuffix (s suffix : string) : bool :=
  match strip_prefix (reverse (String.list_ascii_of_string suffix)) (reverse (String.list_ascii_of_string s)) with
  | Some _ => true
  | None => false
  end.

Fixpoint split_chars (c : ascii) (l : chars) : list chars :=
  match l with
  | [] => [[]]
  | d :: l =>
      let r := split_chars c l in
      if is_char c d then [] :: r
      else match r with a :: r => (d :: a) :: r | [] => [[d]] end
  end.
Definition Split (s : string) (c : ascii) : list string :=
  String.string_of_list_ascii <$> split_chars c (String.list_ascii_of_string s).

Fixpoint Join (l : list string) (sep : string) : string :=
  match l with
  | [] => ""
  | [a] => a
  | a :: l => a +:+ sep +:+ Join l sep
  end.

(** ** [strconv] *)

Definition digit (c : ascii) : option Z :=
  let n := Z.of_nat (nat_of_ascii c) in
  if (48 <=? n) && (n <=? 57) then Some (n - 48) else None.

Fixpoint digits (acc : Z) (l : chars) : option Z :=
  match l with
  | [] => Some acc
  | c :: l => match digit c with Some d => digits (10 * acc + d) l | None => None end
  end.

(** [strconv.ParseInt(s, 10, 64)]. *)
Definition ParseInt (s : string) : option Z :=
  let '(neg, l) := match String.list_ascii_of_string s with
                   | "-"%char :: l => (true, l)
                   | "+"%char :: l => (false, l)
                   | l => (false, l)
                   end in
  match l with
  | [] => None
  | _ => match digits 0 l with
         | None => None
         | Some n =>
             let n := if neg : bool then - n else n in
             if (min_int64 <=? n) && (n <=? max_int64) then Some n else None
         end
  end.

(** ** Attachment tokens *)

(** [attachmentRefRe] at the head of [l]: "[file:", two fields ended by "#" and a
    display name ended by "]". The answer is the display name, the third group,
    and what follows the token. *)
Definition ref_at (l : chars) : option (chars * chars) :=
  let field := λ c, negb (is_char "]" c) && negb (is_char "#" c) in
  match strip_prefix (String.list_ascii_of_string "[file:") l with
  | None => None
  | Some l =>
      match (span field l).2 with
      | "#"%char :: l =>
          match (span field l).2 with
          | "#"%char :: l =>
              match span (λ c, negb (is_char "]" c)) l with
              | (name, "]"%char :: l) => Some (name, l)
              | _ => None
              end
          | _ => None
          end
      | _ => None
      end
  end.

Fixpoint strip_refs (fuel : nat) (l : chars) : chars :=
  match fuel with
  | O => l
  | S fuel =>
      match ref_at l with
      | Some (name, rest) =>
          String.list_ascii_of_string "[file:" ++ name ++ "]"%char :: strip_refs fuel rest
      | None => match l with [] => [] | c :: l => c :: strip_refs fuel l end
      end
  end.

(** The token is longer than what it leaves, so as many rounds as there are
    characters are enough. *)
Definition stripAttachmentRefs (body : string) : string :=
  let l := String.list_ascii_of_string body in
  String.string_of_list_ascii (strip_refs (length l) l).

(** ** Links *)

Definition fold_case (c : ascii) : ascii :=
  let n := nat_of_ascii c in if decide (65 ≤ n ≤ 90)%nat then ascii_of_nat (n + 32) else c.

Fixpoint strip_prefix_fold (p l : chars) : option chars :=
  match p, l with
  | [], _ => Some l
  | c :: p, d :: l => if Ascii.eqb c (fold_case d) then strip_prefix_fold p l else None
  | _ :: _, [] => None
  end.

(** An optional [s] in any case, the long s (bytes 197, 191) included: it folds
    to [s]. *)
Definition skip_s (l : chars) : chars :=
  match l with
  | c :: l' =>
      if is_char "s" (fold_case c) then l'
      else match l' with
           | d :: l'' => if (nat_of_ascii c =? 197)%nat && (nat_of_ascii d =? 191)%nat then l'' else l
           | [] => l
           end
  | [] => l
  end.

Definition link_char (c : ascii) : bool :=
  let n := nat_of_ascii c in
  negb (bool_decide (n ∈ [9; 10; 12; 13; 32; 60; 62; 34; 39; 93; 41; 125]%nat)).

(** [linkURLRe] at the head of [l]: "http" or "https" in any case, "://" and at
    least one link character. The answer is the match and the rest. *)
Definition link_at (l : chars) : option (chars * chars) :=
  match strip_prefix_fold (String.list_ascii_of_string "http") l with
  | None => None
  | Some r =>
      match strip_prefix (String.list_ascii_of_string "://") (skip_s r) with
      | None => None
      | Some r =>
          match span link_char r with
          | ([], _) => None
          | (_, rest) => Some (take (length l - length rest) l, rest)
          end
      end
  end.

Fixpoint find_links (fuel : nat) (l : chars) : list chars :=
  match fuel with
  | O => []
  | S fuel =>
      match link_at l with
      | Some (m, rest) => m :: find_links fuel rest
      | None => match l with [] => [] | _ :: l => find_links fuel l end
      end
  end.

(** [linkURLRe.FindAllString(body, -1)]. *)
Definition links (body : string) : list string :=
  let l := String.list_ascii_of_string body in
  String.string_of_list_ascii <$> find_links (length l) l.

(** ** Moderation *)

Record chatFilters := {
  cf_WordFilter : string;
  cf_LinkBlacklist : string;
  cf_LinkWhitelist : string;
}.

(** What the text functions take from the Unicode tables and from [net/url]:
    [url_Hostname] is [None] when the URL does not parse. *)
Record TextEnv := {
  te_ToLower : string → string;
  te_TrimSpace : string → string;
  te_url_Hostname : string → option string;
}.

Section moderation.
Context (T : TextEnv).

Definition splitList (raw : string) : list string :=
  if String.eqb raw "" then []
  else filter (λ e, e ≠ "") ((λ e, te_TrimSpace T (te_ToLower T e)) <$> Split raw ",").

Definition normalizeList (raw : string) : string :=
  Join (filter (λ e, e ≠ "") (te_TrimSpace T <$> Split raw ",")) ",".

Definition linkHosts (body : string) : list string :=
  (λ raw, match te_url_Hostname T raw with
          | None => ""
          | Some h => Trim (te_ToLower T h) "."
          end) <$> links body.

Fixpoint hostInList_loop (host : string) (l : list string) : bool :=
  match l with
  | [] => false
  | e :: l =>
      let e := Trim e "." in
      if String.eqb e "" then hostInList_loop host l
      else if String.eqb host e || HasSuffix host ("." +:+ e) then true
      else hostInList_loop host l
  end.

Definition hostInList (host : string) (l : list string) : bool :=
  if String.eqb host "" then false else hostInList_loop host l.

(** [moderateBody] with the filters in force; [None] when the body passes. *)
Definition moderateBody (f : chatFilters) (body : string) : option string :=
  let lower := te_ToLower T body in
  if existsb (Contains lower) (splitList (cf_WordFilter f)) then
    Some "message rejected by the server word filter"
  else
    let black := splitList (cf_LinkBlacklist f) in
    let white := splitList (cf_LinkWhitelist f) in
    if bool_decide (black = []) && bool_decide (white = []) then None
    else
      let hosts := linkHosts body in
      if existsb (λ h, hostInList h black) hosts then Some "message contains a blocked link"
      else if negb (bool_decide (white = [])) && existsb (λ h, negb (hostInList h white)) hosts then
        Some "message contains a link outside the allowed domains"
      else None.

End moderation.

(** ** Mentions *)

Definition mention_char (c : ascii) : bool :=
  let n := nat_of_ascii c in
  bool_decide (65 ≤ n ≤ 90 ∨ 97 ≤ n ≤ 122 ∨ 48 ≤ n ≤ 57 ∨ n = 95 ∨ n = 45)%nat.

(** [mentionRe.MatchString]: an [@] with a mention character behind it. *)
Fixpoint has_mention (l : chars) : bool :=
  match l with
  | [] => false
  | c :: l => (is_char "@" c && match l with d :: _ => mention_char d | [] => false end) || has_mention l
  end.

(** ** The scanners have enough fuel *)

Lemma span_length f l : (length (span f l).1 + length (span f l).2 = length l)%nat.
Proof.
  induction l as [|c l IH]; [done|]. simpl. destruct (f c); [|done]. destruct (span f l). simpl in *. lia.
Qed.

Lemma strip_prefix_length p l r : strip_prefix p l = Some r → (length p + length r = length l)%nat.
Proof.
  revert l. induction p as [|c p IH]; intros [|d l]; simpl; try by intros [= <-].
  destruct (Ascii.eqb c d); [|done]. intros Hr%IH. lia.
Qed.

Lemma strip_prefix_fold_length p l r : strip_prefix_fold p l = Some r → (length p + length r = length l)%nat.
Proof.
  revert l. induction p as [|c p IH]; intros [|d l]; simpl; try by intros [= <-].
  destruct (Ascii.eqb c (fold_case d)); [|done]. intros Hr%IH. lia.
Qed.

Lemma ref_at_length l name rest : ref_at l = Some (name, rest) → (length rest < length l)%nat.
Proof.
  unfold ref_at. cbv zeta. destruct (strip_prefix _ l) as [l1|] eqn:H1; [|done]. apply strip_prefix_length in H1.
  set (field := λ c, _). pose proof (span_length field l1) as H2. destruct (span field l1) as [f1 l2]. cbn [fst snd] in *.
  destruct l2 as [|c2 l2]; [done|]. destruct (decide (c2 = "#"%char)) as [->|Hne].
  2:{ by destruct c2 as [[] [] [] [] [] [] [] []]. }
  pose proof (span_length field l2) as H3. destruct (span field l2) as [f2 l3]. cbn [fst snd] in *.
  destruct l3 as [|c3 l3]; [done|]. destruct (decide (c3 = "#"%char)) as [->|Hne].
  2:{ by destruct c3 as [[] [] [] [] [] [] [] []]. }
  pose proof (span_length (λ c, negb (is_char "]" c)) l3) as H4. destruct (span _ l3) as [n l4]. cbn [fst snd] in *.
  destruct l4 as [|c4 l4]; [done|]. destruct (decide (c4 = "]"%char)) as [->|Hne].
  2:{ by destruct c4 as [[] [] [] [] [] [] [] []]. }
  intros [= <- <-]. simpl in *. lia.
Qed.

Lemma skip_s_length l : (length (skip_s l) ≤ length l)%nat.
Proof.
  destruct l as [|c [|d l]]; [done| |]; cbn [skip_s length].
  - destruct (is_char "s" (fold_case c)); simpl; lia.
  - destruct (is_char "s" (fold_case c)); simpl; [lia|]. destruct (_ && _); simpl; lia.
Qed.

Lemma link_at_length l m rest : link_at l = Some (m, rest) → (length rest < length l)%nat.
Proof.
  unfold link_at. destruct (strip_prefix_fold _ l) as [r|] eqn:H1; [|done]. apply strip_prefix_fold_length in H1.
  pose proof (skip_s_length r) as H2. destruct (strip_prefix _ (skip_s r)) as [r'|] eqn:H3; [|done].
  apply strip_prefix_length in H3. pose proof (span_length link_char r') as H4.
  destruct (span link_char r') as [[|c s] l4]; [done|]. intros [= _ <-]. simpl in *. lia.
Qed.

(** With at least as many rounds as characters the answer does not depend on the
    number of rounds. *)
Lemma strip_refs_fuel n m l : (length l ≤ n)%nat → (length l ≤ m)%nat → strip_refs n l = strip_refs m l.
Proof.
  revert m l. induction n as [|n IH]; intros [|m] l Hn Hm; cbn [strip_refs].
  - done.
  - destruct l; [done|simpl in *; lia].
  - destruct l; [done|simpl in *; lia].
  - destruct (ref_at l) as [[name rest]|] eqn:Hr.
    + apply ref_at_length in Hr. do 3 f_equal. apply IH; lia.
    + destruct l as [|c l]; [done|]. f_equal. simpl in *. apply IH; lia.
Qed.

Lemma find_links_fuel n m l : (length l ≤ n)%nat → (length l ≤ m)%nat → find_links n l = find_links m l.
Proof.
  revert m l. induction n as [|n IH]; intros [|m] l Hn Hm; cbn [find_links].
  - done.
  - destruct l; [done|simpl in *; lia].
  - destruct l; [done|simpl in *; lia].
  - destruct (link_at l) as [[s rest]|] eqn:Hr.
    + apply link_at_length in Hr. f_equal. apply IH; lia.
    + destruct l as [|c l]; [done|]. simpl in *. apply IH; lia.
Qed.

(** ** Bytes of a string *)

Lemma bytes_of_string_bytes s : Forall (λ b, 0 ≤ b < 256) (bytes_of_string s).
Proof.
  unfold bytes_of_string. apply Forall_fmap, Forall_true. intros c. simpl.
  pose proof (Ascii.nat_ascii_bounded c). lia.
Qed.

Lemma string_of_bytes_of s : string_of_bytes (bytes_of_string s) = s.
Proof.
  unfold string_of_bytes, bytes_of_string. rewrite <- list_fmap_compose.
  replace ((λ b : Z, Ascii.ascii_of_nat (Z.to_nat b)) ∘ (λ c, Z.of_nat (Ascii.nat_of_ascii c)) <$>
    String.list_ascii_of_string s) with (String.list_ascii_of_string s).
  { apply String.string_of_list_ascii_of_string. }
  induction (String.list_ascii_of_string s) as [|c l IH]; [done|]. rewrite fmap_cons, <- IH. f_equal. simpl.
  by rewrite Nat2Z.id, Ascii.ascii_nat_embedding.
Qed.
