(* ===== verification/GoStrings.v ===== *)
(** * Strings and slash-separated paths

    What the code uses of [strings] and of [path/filepath] on a Unix system, and
    the lemmas that connect a string with its characters. *)

From Stdlib Require Import Ascii.
From stdpp Require Import pretty.
From S2P Require Import Prelude ChatText.

Abbreviation chars_of := String.list_ascii_of_string.

Lemma chars_app (a b : string) : chars_of (a +:+ b) = chars_of a ++ chars_of b.
Proof. induction a as [|c a IH]; [done|]. change (String c a +:+ b) with (String c (a +:+ b)). cbn. by rewrite IH. Qed.

Lemma chars_inj (a b : string) : chars_of a = chars_of b → a = b.
Proof.
  intros Heq. rewrite <- (String.string_of_list_ascii_of_string a), <- (String.string_of_list_ascii_of_string b). by rewrite Heq.
Qed.

Definition is_digit (c : ascii) : Prop := (48 ≤ nat_of_ascii c ≤ 57)%nat.

Lemma pretty_N_char_digit x : is_digit (pretty_N_char x).
Proof.
  unfold pretty_N_char, is_digit.
  repeat match goal with |- context [match ?y with _ => _ end] => destruct y end; vm_compute; lia.
Qed.

Lemma pretty_N_digits x s : Forall is_digit (chars_of s) → Forall is_digit (chars_of (pretty_N_go x s)).
Proof.
  revert s. induction (N.lt_wf_0 x) as [x _ IH]; intros s Hs. destruct (decide (0 < x)%N) as [Hx|Hx].
  - rewrite pretty_N_go_step by done. apply IH; [by apply N.div_lt|]. cbn. constructor; [|done].
    apply pretty_N_char_digit.
  - replace x with 0%N by lia. by rewrite pretty_N_go_0.
Qed.

Lemma pretty_Z_digits (z : Z) : 0 < z → Forall is_digit (chars_of (pretty z)) ∧ chars_of (pretty z) ≠ [].
Proof.
  intros Hz. destruct z as [|p|p]; [lia| |lia]. change (pretty (Z.pos p)) with (if decide (Npos p = 0%N) then "0" else pretty_N_go (Npos p) ""). rewrite decide_False by done.
  split; [by apply pretty_N_digits|]. rewrite pretty_N_go_step by lia. set (s := String _ _).
  assert (∀ x s, chars_of s ≠ [] → chars_of (pretty_N_go x s) ≠ []) as Hne.
  { clear. intros x. induction (N.lt_wf_0 x) as [x _ IH]; intros s Hs. destruct (decide (0 < x)%N).
    - rewrite pretty_N_go_step by done. apply IH; [by apply N.div_lt|done].
    - replace x with 0%N by lia. by rewrite pretty_N_go_0. }
  by apply Hne.
Qed.

Lemma chars_substring n m s : chars_of (String.substring n m s) = take m (drop n (chars_of s)).
Proof.
  revert n m. induction s as [|c s IH]; intros n m; [by destruct n, m|].
  destruct n as [|n]; cbn; [|by rewrite IH]. destruct m as [|m]; cbn; [done|]. by rewrite IH, drop_0.
Qed.

Lemma chars_length s : length (chars_of s) = String.length s.
Proof. induction s as [|c s IH]; cbn; [done|by rewrite IH]. Qed.

Lemma prefix_app p s : String.prefix p (p +:+ s) = true.
Proof.
  induction p as [|c p IH]; [by destruct s|]. change (String c p +:+ s) with (String c (p +:+ s)). cbn. by destruct (Ascii.ascii_dec c c).
Qed.


Lemma string_app_assoc (a b c : string) : (a +:+ b) +:+ c = a +:+ b +:+ c.
Proof. apply chars_inj. by rewrite !chars_app, app_assoc. Qed.
(** ** [strings] *)

Definition HasPrefix (s p : string) : bool :=
  match strip_prefix (chars_of p) (chars_of s) with Some _ => true | None => false end.

Definition TrimPrefix (s p : string) : string :=
  match strip_prefix (chars_of p) (chars_of s) with Some l => String.string_of_list_ascii l | None => s end.

Definition char_in (set : string) (c : ascii) : bool := existsb (Ascii.eqb c) (chars_of set).

(** [strings.ContainsAny] with a set of ASCII characters. *)
Definition ContainsAny (s set : string) : bool := existsb (char_in set) (chars_of s).

(** The part before the first separator that [strings.Cut] gives. *)
Definition CutBefore (s : string) (c : ascii) : string :=
  String.string_of_list_ascii (span (λ d, negb (Ascii.eqb c d)) (chars_of s)).1.

(** [strings.TrimRight] with a set of ASCII characters. *)
Definition TrimRight (s set : string) : string :=
  String.string_of_list_ascii (reverse (span (char_in set) (reverse (chars_of s))).2).

(** ** [path/filepath] *)

Definition IsAbs (path : string) : bool := HasPrefix path "/".

(** The components left by [filepath.Clean], the last one first. *)
Fixpoint clean_comps (rooted : bool) (acc : list string) (l : list string) : list string :=
  match l with
  | [] => acc
  | c :: l =>
      if bool_decide (c ∈ [""; "."]) then clean_comps rooted acc l
      else if String.eqb c ".." then
        match acc with
        | d :: acc' => if String.eqb d ".." then clean_comps rooted (c :: acc) l else clean_comps rooted acc' l
        | [] => clean_comps rooted (if rooted then [] else [c]) l
        end
      else clean_comps rooted (c :: acc) l
  end.

Definition Clean (path : string) : string :=
  let rooted := IsAbs path in
  let r := Join (reverse (clean_comps rooted [] (Split path "/"))) "/" in
  if rooted then "/" +:+ r else if String.eqb r "" then "." else r.

Fixpoint filepath_Join (elem : list string) : string :=
  match elem with
  | [] => ""
  | e :: elem' => if String.eqb e "" then filepath_Join elem' else Clean (Join elem "/")
  end.

(** The characters after the last separator of a path written backwards. *)
Definition Base (path : string) : string :=
  if String.eqb path "" then "."
  else
    match (span (Ascii.eqb "/") (reverse (chars_of path))).2 with
    | [] => "/"
    | l => String.string_of_list_ascii (reverse (span (λ d, negb (Ascii.eqb "/" d)) l).1)
    end.

Definition path_Dir (path : string) : string :=
  Clean (String.string_of_list_ascii (reverse (span (λ d, negb (Ascii.eqb "/" d)) (reverse (chars_of path))).2)).

Definition slash_free (s : string) : Prop := "/"%char ∉ chars_of s.

(** A component that [Clean] leaves alone. *)
Definition plain (s : string) : Prop := slash_free s ∧ s ∉ [""; "."; ".."].

#[export] Instance slash_free_dec s : Decision (slash_free s).
Proof. unfold slash_free. apply _. Defined.
#[export] Instance plain_dec s : Decision (plain s).
Proof. unfold plain. apply _. Defined.

Example clean_ex : Clean "a//b/./c/../d/" = "a/b/d" ∧ Clean "/../x" = "/x" ∧ Clean "../a/../.." = "../.." ∧ Clean "" = ".".
Proof. by vm_compute. Qed.
Example join_ex : filepath_Join ["7"; ""; "x.txt"] = "7/x.txt" ∧ filepath_Join [""; ""] = "".
Proof. by vm_compute. Qed.
Example base_ex : Base "a/b//" = "b" ∧ Base "//" = "/" ∧ path_Dir "7/a/b" = "7/a" ∧ path_Dir "b" = ".".
Proof. by vm_compute. Qed.

(** ** Splitting and joining paths *)

Lemma span_spec f l : (span f l).1 ++ (span f l).2 = l ∧ Forall (λ c, f c = true) (span f l).1 ∧
  match (span f l).2 with [] => True | c :: _ => f c = false end.
Proof.
  induction l as [|c l [IH1 [IH2 IH3]]]; cbn; [by split_and!|]. destruct (f c) eqn:Hc; cbn; [|by split_and!].
  destruct (span f l) as [a b]. cbn in *. split_and!; [by rewrite IH1|by constructor|done].
Qed.

Lemma span_app f l r : Forall (λ c, f c = true) l → match r with [] => True | c :: _ => f c = false end → span f (l ++ r) = (l, r).
Proof.
  intros Hl Hr. induction Hl as [|c l Hc _ IH]; cbn.
  - destruct r as [|c r]; [done|]. cbn. by rewrite Hr.
  - by rewrite Hc, IH.
Qed.

Lemma split_chars_free c l : c ∉ l → split_chars c l = [l].
Proof.
  induction l as [|d l IH]; [done|]. intros [Hcd Hl]%not_elem_of_cons. cbn. rewrite IH by done. unfold is_char.
  destruct (Ascii.eqb_spec c d); [done|]. reflexivity.
Qed.

Lemma split_chars_app c l r : c ∉ l → split_chars c (l ++ c :: r) = l :: split_chars c r.
Proof.
  induction l as [|d l IH]; cbn.
  - intros _. unfold is_char. by rewrite Ascii.eqb_refl.
  - intros [Hcd Hl]%not_elem_of_cons. rewrite IH by done. unfold is_char. by destruct (Ascii.eqb_spec c d).
Qed.

Lemma chars_of_list l : chars_of (String.string_of_list_ascii l) = l.
Proof. apply String.list_ascii_of_string_of_list_ascii. Qed.
Lemma of_chars s : String.string_of_list_ascii (chars_of s) = s.
Proof. apply String.string_of_list_ascii_of_string. Qed.

Lemma chars_Join_cons a l : l ≠ [] → chars_of (Join (a :: l) "/") = chars_of a ++ "/"%char :: chars_of (Join l "/").
Proof. destruct l as [|b l]; [done|]. intros _. change (Join (a :: b :: l) "/") with (a +:+ "/" +:+ Join (b :: l) "/"). by rewrite !chars_app. Qed.

Lemma Split_Join l : l ≠ [] → Forall slash_free l → Split (Join l "/") "/" = l.
Proof.
  intros Hne Hl. unfold Split. induction Hl as [|a l Ha Hl IH]; [done|]. destruct (decide (l = [])) as [->|Hl'].
  - cbn [Join]. rewrite split_chars_free by done. cbn. by rewrite of_chars.
  - rewrite chars_Join_cons, split_chars_app by done. cbn. rewrite IH by done. by rewrite of_chars.
Qed.

Lemma Join_inj l m : l ≠ [] → m ≠ [] → Forall slash_free l → Forall slash_free m → Join l "/" = Join m "/" → l = m.
Proof. intros Hl Hm Hfl Hfm Heq. rewrite <- (Split_Join l), <- (Split_Join m) by done. by rewrite Heq. Qed.

Lemma Split_free s : Forall slash_free (Split s "/").
Proof.
  unfold Split, slash_free. rewrite Forall_fmap. induction (chars_of s) as [|c l IH]; cbn [split_chars].
  - constructor; [|done]. cbn. apply not_elem_of_nil.
  - unfold is_char in *. destruct (Ascii.eqb_spec "/" c) as [|Hc].
    + constructor; [apply not_elem_of_nil|done].
    + destruct (split_chars "/" l) as [|a r].
      { constructor; [|done]. cbn. apply not_elem_of_cons. split; [done|apply not_elem_of_nil]. } apply Forall_cons in IH as [Ha IH]. constructor; [|done].
      cbn in *. rewrite chars_of_list in *. by apply not_elem_of_cons.
Qed.

Lemma Split_ne s c : Split s c ≠ [].
Proof.
  unfold Split. intros Heq%fmap_nil_inv. revert Heq. destruct (chars_of s) as [|d l]; cbn; [done|].
  destruct (is_char c d); [done|]. by destruct (split_chars c l).
Qed.

Lemma Join_Split s : Join (Split s "/") "/" = s.
Proof.
  apply chars_inj. unfold Split. induction (chars_of s) as [|c l IH]; [done|]. cbn [split_chars]. unfold is_char in *.
  assert (split_chars "/" l ≠ []) as Hne. { pose proof (Split_ne (String.string_of_list_ascii l) "/") as H. unfold Split in H. rewrite chars_of_list in H. intros Hs. apply H. by rewrite Hs. }
  destruct (Ascii.eqb_spec "/" c) as [<-|Hc].
  - rewrite fmap_cons, chars_Join_cons by (by intros ?%fmap_nil_inv). by rewrite IH.
  - destruct (split_chars "/" l) as [|a r] eqn:E; [done|]. rewrite fmap_cons in *. destruct (decide (r = [])) as [->|Hr].
    + cbn [fmap list_fmap Join] in *. rewrite chars_of_list in *. by rewrite IH.
    + assert (String.string_of_list_ascii <$> r ≠ []) by (by intros ?%fmap_nil_inv).
      rewrite chars_Join_cons in * by done. rewrite chars_of_list in *. by rewrite <- IH.
Qed.

(** ** Clean paths *)

Lemma clean_comps_plain rooted acc l : Forall plain l → clean_comps rooted acc l = reverse l ++ acc.
Proof.
  intros Hl. revert acc. induction Hl as [|c l [_ Hc] _ IH]; intros acc; [done|]. cbn [clean_comps]. rewrite bool_decide_false by set_solver.
  destruct (String.eqb_spec c ".."); [set_solver|]. by rewrite IH, reverse_cons, <- app_assoc.
Qed.

Lemma plain_slash_free l : Forall plain l → Forall slash_free l.
Proof. intros Hl. eapply Forall_impl; [exact Hl|]. by intros c [Hc _]. Qed.

Lemma Join_plain l : l ≠ [] → Forall plain l → IsAbs (Join l "/") = false ∧ Join l "/" ≠ "".
Proof.
  intros Hne Hl. destruct l as [|a l]; [done|]. apply Forall_cons in Hl as [[Ha Ha'] Hl].
  assert (∃ c r, chars_of (Join (a :: l) "/") = c :: r ∧ c ≠ "/"%char) as (c & r & Hcr & Hc).
  { unfold slash_free in Ha. destruct (chars_of a) as [|c r] eqn:E.
    - exfalso. apply Ha'. rewrite (chars_inj a ""); [set_solver|done].
    - apply not_elem_of_cons in Ha as [Ha _]. destruct l as [|b l]; [exists c, r; by split|].
      exists c. eexists. rewrite chars_Join_cons, E by done. by split. }
  split.
  - unfold IsAbs, HasPrefix. rewrite Hcr. cbn -[Ascii.eqb]. by destruct (Ascii.eqb_spec "/" c).
  - intros Heq. by rewrite Heq in Hcr.
Qed.

Lemma Clean_plain l : l ≠ [] → Forall plain l → Clean (Join l "/") = Join l "/".
Proof.
  intros Hne Hl. destruct (Join_plain l Hne Hl) as [Habs Hemp]. unfold Clean. rewrite Habs, Split_Join by auto using plain_slash_free.
  rewrite clean_comps_plain, app_nil_r, reverse_involutive by done. by destruct (String.eqb_spec (Join l "/") "").
Qed.

Lemma chars_Join_snoc l n : l ≠ [] → chars_of (Join (l ++ [n]) "/") = chars_of (Join l "/") ++ "/"%char :: chars_of n.
Proof.
  induction l as [|a l IH]; [done|]. intros _. rewrite <- app_comm_cons, chars_Join_cons by (by destruct l).
  destruct (decide (l = [])) as [->|Hl]; [done|]. rewrite IH, chars_Join_cons by done. by rewrite <- app_assoc.
Qed.

Lemma path_Dir_plain l n : l ≠ [] → Forall plain (l ++ [n]) → path_Dir (Join (l ++ [n]) "/") = Join l "/".
Proof.
  intros Hne Hl. apply Forall_app in Hl as [Hl [[Hn _] _]%Forall_cons]. unfold path_Dir.
  rewrite chars_Join_snoc, reverse_app, reverse_cons, <- app_assoc by done.
  rewrite span_app; [| |done].
  - cbn [snd]. rewrite reverse_app, reverse_involutive. change (reverse ["/"%char]) with ["/"%char].
    transitivity (Clean (Join (l ++ [""]) "/")).
    { f_equal. apply chars_inj. rewrite chars_of_list, chars_Join_snoc by done. done. }
    pose proof (Join_plain l Hne Hl) as [Habs Hemp]. unfold Clean.
    assert (IsAbs (Join (l ++ [""]) "/") = false) as ->.
    { unfold IsAbs, HasPrefix in *. rewrite chars_Join_snoc by done. destruct (chars_of (Join l "/")) as [|c r] eqn:E.
      - exfalso. apply Hemp. by apply chars_inj.
      - cbn -[Ascii.eqb] in *. by destruct (Ascii.eqb_spec "/" c). }
    assert (Forall slash_free (l ++ [""])) as Hfree.
    { apply Forall_app. split; [by apply plain_slash_free|]. constructor; [|done]. unfold slash_free. apply not_elem_of_nil. }
    rewrite Split_Join by (done || by destruct l).
    assert (∀ acc, clean_comps false acc (l ++ [""]) = reverse l ++ acc) as ->.
    { clear Hne Habs Hemp Hfree. induction Hl as [|c l [_ Hc] _ IH]; intros acc; [done|]. cbn [clean_comps app].
      rewrite bool_decide_false by set_solver. destruct (String.eqb_spec c ".."); [set_solver|]. by rewrite IH, reverse_cons, <- app_assoc. }
    rewrite app_nil_r, reverse_involutive. by destruct (String.eqb_spec (Join l "/") "").
  - apply Forall_reverse, Forall_forall. intros c Hc. destruct (Ascii.eqb_spec "/" c); [by subst|done].
Qed.

Lemma split_chars_app_gen c l r : split_chars c (l ++ c :: r) = split_chars c l ++ split_chars c r.
Proof.
  induction l as [|d l IH]; cbn [split_chars app].
  - unfold is_char. by rewrite Ascii.eqb_refl.
  - rewrite IH. unfold is_char. destruct (Ascii.eqb_spec c d); [done|]. destruct (split_chars c l) as [|a m] eqn:E; [|done].
    exfalso. destruct l as [|x l]; cbn in E; [done|]. destruct (is_char c x); [done|]. by destruct (split_chars c l).
Qed.

Lemma Split_app s t : Split (s +:+ "/" +:+ t) "/" = Split s "/" ++ Split t "/".
Proof. unfold Split. rewrite !chars_app. cbn [String.list_ascii_of_string app]. by rewrite split_chars_app_gen, fmap_app. Qed.

Lemma Split_slash_free s : slash_free s → Split s "/" = [s].
Proof. intros Hs. unfold Split. rewrite split_chars_free by done. cbn. by rewrite of_chars. Qed.
