(* ===== verification/FileNames.v ===== *)
(** * Names, quotas and tokens of the file transfer ([src/internal/filetransfer])

    The pure functions of [server.go], [links.go] and [ratelimit.go]: which names
    and folders are taken, where a blob lies on disk, what a quota lets through,
    when the bandwidth cap is lifted, what a link token looks like.
    [strings.ToUpper] on names that are not ASCII is a parameter. *)

From Stdlib Require Import Ascii.
From stdpp Require Import pretty.
From S2P Require Import Prelude ChatText GoStrings.

Inductive ioErr := IoNotExist | IoExist | IoOther | IoClosed.

Inductive FErr :=
| ErrQuotaExceeded | ErrUploaderQuotaExceeded | ErrTooLarge | ErrInvalidName
| ErrChannelDeleted | ErrEncryptedAttachment | ErrFileNotFound | ErrFileExists | ErrTooManyLinks
| FtDatabase | FtIo (e : ioErr) | FtCancelled | FtOutOfFuel | FtError (what : string).

#[export] Instance ioErr_eq_dec : EqDecision ioErr.
Proof. solve_decision. Defined.
#[export] Instance FErr_eq_dec : EqDecision FErr.
Proof. solve_decision. Defined.

(** ** Chat attachments *)

Definition encryptedSuffix : string := ".vcx".
Definition encryptedNameLen : nat := 32.
Definition isEncryptedAttachment (name : string) : bool := HasSuffix name encryptedSuffix.

(** ** Names *)

Definition backslash : string := String (ascii_of_nat 92) "".

(** The test for one rune before the switch only rules out values that the switch
    does not have. *)
Definition isDOSDeviceNumber (value : string) : bool :=
  bool_decide (value ∈ ["1"; "2"; "3"; "4"; "5"; "6"; "7"; "8"; "9"; "¹"; "²"; "³"]).

Section names.
Context (ToUpper : string → string).

Definition isDOSDeviceName (name : string) : bool :=
  let stem := TrimRight (CutBefore name ".") " ." in
  let upper := ToUpper stem in
  bool_decide (upper ∈ ["CON"; "PRN"; "AUX"; "NUL"; "CONIN$"; "CONOUT$"]) ||
  existsb (λ prefix, HasPrefix upper prefix && isDOSDeviceNumber (TrimPrefix upper prefix)) ["COM"; "LPT"].

Definition sanitizeName (name : string) : result FErr string :=
  if bool_decide (name ∈ [""; "."; ".."]) then Err ErrInvalidName
  else if HasSuffix name "." || HasSuffix name " " then Err ErrInvalidName
  else if ContainsAny name ("/" +:+ backslash) || Contains name ".." then Err ErrInvalidName
  else if IsAbs name || negb (String.eqb (Base name) name) then Err ErrInvalidName
  else if isDOSDeviceName name then Err ErrInvalidName
  else Ok name.

Definition sanitizeFolder (folder : string) : result FErr string :=
  if String.eqb folder "" then Ok ""
  else if ContainsAny folder backslash || HasPrefix folder "/" || HasSuffix folder "/" || Contains folder "//"
  then Err ErrInvalidName
  else if existsb (λ seg, negb (is_ok (sanitizeName seg))) (Split folder "/") then Err ErrInvalidName
  else Ok folder.

End names.

(** ** Where a blob lies *)

Definition blobPath (channelID : Z) (folder name : string) : string :=
  filepath_Join [pretty channelID; folder; name].

Definition linkChannel (path : string) : string :=
  let clean := Clean path in
  if String.eqb clean "." || IsAbs clean then "" else CutBefore clean "/".

(** ** Quotas *)

Record Quota := mkQuota { q_Used : Z; q_Limit : Z }.

Definition Exceeded (q : Quota) (size : Z) : bool := (0 <? q_Limit q) && (q_Limit q <? i64 (q_Used q + size)).

Definition quotaFor (used limitMB : Z) : Quota :=
  if limitMB <=? 0 then mkQuota used 0 else mkQuota used (i64 (Z.shiftl limitMB 20)).

(** ** Quiet hours *)

Definition inQuietHours (hour start end_ : Z) : bool :=
  if (start =? end_) || (start <? 0) || (23 <? start) || (end_ <? 0) || (23 <? end_) then false
  else if start <? end_ then (start <=? hour) && (hour <? end_)
  else (start <=? hour) || (hour <? end_).

(** The cap in KiB/s of a transfer that starts at [hour]; [None] never blocks. *)
Definition newRateLimiter (kbps : Z) : option Z := if kbps <=? 0 then None else Some kbps.
Definition limiterFor (hour quietStart quietEnd maxKBps : Z) : option Z :=
  if inQuietHours hour quietStart quietEnd then newRateLimiter 0 else newRateLimiter maxKBps.

(** ** Link tokens *)

Definition linkTokenHexLength : nat := 32.

Definition hex_char (c : ascii) : bool :=
  let n := nat_of_ascii c in
  ((48 <=? n) && (n <=? 57) || (97 <=? n) && (n <=? 102) || (65 <=? n) && (n <=? 70))%nat.

(** [strings.ToLower], on the ASCII letters: a token with any other character is
    refused by [hex.DecodeString] below, whatever its lower case. *)
Definition ToLower_ascii (s : string) : string :=
  String.string_of_list_ascii ((λ c, let n := nat_of_ascii c in if ((65 <=? n) && (n <=? 90))%nat then ascii_of_nat (n + 32) else c) <$> chars_of s).

Definition hex_decodes (s : string) : bool := Nat.even (String.length s) && forallb hex_char (chars_of s).

Definition validLinkToken (token : string) : bool :=
  if negb (String.length token =? linkTokenHexLength)%nat || negb (String.eqb token (ToLower_ascii token)) then false
  else hex_decodes token.

Definition linkTokenFromPath (path : string) : option string :=
  if negb (HasPrefix path "/dl/") then None
  else let token := TrimPrefix path "/dl/" in if validLinkToken token then Some token else None.

Section examples.
Let up : string → string := λ s, String.string_of_list_ascii ((λ c, let n := nat_of_ascii c in if ((97 <=? n) && (n <=? 122))%nat then ascii_of_nat (n - 32) else c) <$> chars_of s).
Example names_ex : sanitizeName up "a b.txt" = Ok "a b.txt" ∧ sanitizeName up "con .txt" = Err ErrInvalidName ∧
  sanitizeName up "com1.tar.gz" = Err ErrInvalidName ∧ sanitizeName up "com10" = Ok "com10" ∧ sanitizeName up "COM²" = Err ErrInvalidName ∧
  sanitizeName up "x." = Err ErrInvalidName ∧ sanitizeName up "a..b" = Err ErrInvalidName ∧ sanitizeFolder up "a/b" = Ok "a/b" ∧
  sanitizeFolder up "a/../b" = Err ErrInvalidName ∧ blobPath 7 "a/b" "x" = "7/a/b/x" ∧ linkChannel "7/a" = "7".
Proof. by vm_compute. Qed.
Example tokens_ex : linkTokenFromPath "/dl/0123456789abcdef0123456789abcdef" = Some "0123456789abcdef0123456789abcdef" ∧
  linkTokenFromPath "/dl/0123456789ABCDEF0123456789abcdef" = None ∧ linkTokenFromPath "/dl/0g" = None.
Proof. by vm_compute. Qed.
End examples.

(** ** What the sanitizers let through *)

Lemma ContainsAny_false s set : ContainsAny s set = false ↔ ∀ c, c ∈ chars_of set → c ∉ chars_of s.
Proof.
  unfold ContainsAny, char_in. split.
  - intros Hf c Hset Hs. assert (existsb (λ c, existsb (Ascii.eqb c) (chars_of set)) (chars_of s) = true) as H; [|congruence].
    apply existsb_exists. exists c. split; [by apply list_elem_of_In|]. apply existsb_exists. exists c.
    split; [by apply list_elem_of_In|apply Ascii.eqb_refl].
  - intros Hs. apply not_true_is_false. intros (c & Hc & (d & Hd & <-%Ascii.eqb_eq)%existsb_exists)%existsb_exists.
    apply (Hs c); by apply list_elem_of_In.
Qed.

Lemma Base_slash_free s : slash_free s → s ≠ "" → Base s = s.
Proof.
  unfold slash_free. intros Hs Hne. unfold Base. destruct (String.eqb_spec s ""); [done|].
  assert (reverse (chars_of s) ≠ []) as Hr. { intros Heq%(f_equal reverse). rewrite reverse_involutive in Heq. apply Hne. by apply chars_inj. }
  assert (∀ c, c ∈ reverse (chars_of s) → Ascii.eqb "/" c = false) as Hc.
  { intros c. rewrite elem_of_reverse. intros Hc. destruct (Ascii.eqb_spec "/" c) as [<-|]; [by destruct Hs|done]. }
  rewrite (span_app _ [] (reverse (chars_of s)) ltac:(done)); [|by destruct (reverse (chars_of s)); [|apply Hc, list_elem_of_here]].
  cbn [snd]. destruct (reverse (chars_of s)) as [|c r] eqn:E; [done|].
  rewrite <- (app_nil_r (c :: r)), span_app; [|apply Forall_forall; intros d Hd; by rewrite (Hc d)|done].
  cbn [fst]. by rewrite <- E, reverse_involutive, of_chars.
Qed.

Lemma IsAbs_slash_free s : slash_free s → IsAbs s = false.
Proof.
  unfold slash_free, IsAbs, HasPrefix. destruct (chars_of s) as [|c r]; [done|]. intros [Hc _]%not_elem_of_cons.
  cbn -[Ascii.eqb]. by destruct (Ascii.eqb_spec "/" c).
Qed.

Section sanitized.
Context (up : string → string).

(** A name that is taken: one component that no directory entry is special for. *)
Definition good_name (name : string) : Prop := sanitizeName up name = Ok name.
Definition good_folder (folder : string) : Prop := sanitizeFolder up folder = Ok folder.

Lemma sanitizeName_exact name n :
  sanitizeName up name = Ok n ↔
  n = name ∧ plain name ∧ "\"%char ∉ chars_of name ∧ Contains name ".." = false ∧
  HasSuffix name "." = false ∧ HasSuffix name " " = false ∧ isDOSDeviceName up name = false.
Proof.
  unfold sanitizeName. split.
  - case_bool_decide as Hsp; [done|]. destruct (HasSuffix name "."); [done|]. destruct (HasSuffix name " "); [done|]. cbn [orb].
    destruct (ContainsAny _ _) eqn:Hany; [done|]. destruct (Contains name ".."); [done|]. cbn [orb].
    rewrite ContainsAny_false in Hany.
    assert (plain name). { split; [apply Hany; vm_compute; apply list_elem_of_here|done]. }
    destruct (IsAbs name || _); [done|]. destruct (isDOSDeviceName up name); [done|]. intros [= ->]. split_and!; try done.
    apply Hany. vm_compute. apply list_elem_of_further, list_elem_of_here.
  - intros (-> & [Hfree Hsp] & Hbs & Hdd & -> & -> & ->). rewrite bool_decide_false, Hdd by done. cbn [orb].
    assert (ContainsAny name ("/" +:+ backslash) = false) as ->.
    { apply ContainsAny_false. intros c [->|[->|[]%elem_of_nil]%elem_of_cons]%elem_of_cons; done. }
    cbn [orb]. rewrite IsAbs_slash_free by done. rewrite Base_slash_free by (done || set_solver). by rewrite String.eqb_refl.
Qed.

Lemma sanitizeName_Ok name n : sanitizeName up name = Ok n → n = name ∧ good_name name ∧ plain name.
Proof. intros Hs. pose proof Hs as (-> & Hp & _)%sanitizeName_exact. by split_and!. Qed.

Lemma sanitizeFolder_Ok folder f : sanitizeFolder up folder = Ok f → f = folder ∧ good_folder folder.
Proof.
  intros Hs. assert (f = folder) as ->; [|done]. revert Hs. unfold sanitizeFolder. destruct (String.eqb_spec folder ""); [by intros [= <-]|].
  destruct (_ || _); [done|]. destruct (existsb _ _); [done|]. by intros [= <-].
Qed.

(** The directories of a folder. *)
Definition folder_comps (folder : string) : list string := if String.eqb folder "" then [] else Split folder "/".

Lemma good_folder_comps folder : good_folder folder → Forall good_name (folder_comps folder).
Proof.
  unfold good_folder, sanitizeFolder, folder_comps. destruct (String.eqb_spec folder ""); [done|].
  destruct (_ || _); [done|]. destruct (existsb _ _) eqn:Hex; [done|]. intros _. apply Forall_forall. intros seg Hseg.
  destruct (sanitizeName up seg) as [nm|e] eqn:Hn; [|exfalso].
  { by apply sanitizeName_Ok in Hn as (-> & ? & _). }
  assert (existsb (λ seg, negb (is_ok (sanitizeName up seg))) (Split folder "/") = true); [|congruence].
  apply existsb_exists. exists seg. split; [by apply list_elem_of_In|]. by rewrite Hn.
Qed.

Lemma good_name_plain n : good_name n → plain n.
Proof. by intros (_ & _ & ?)%sanitizeName_Ok. Qed.

Lemma good_folder_plain folder : good_folder folder → Forall plain (folder_comps folder).
Proof. intros Hf%good_folder_comps. eapply Forall_impl; [exact Hf|apply good_name_plain]. Qed.

End sanitized.

(** ** Blob paths *)

Lemma pretty_plain (z : Z) : plain (pretty z).
Proof.
  assert (∀ p : positive, Forall is_digit (chars_of (pretty (Zpos p))) ∧ chars_of (pretty (Zpos p)) ≠ []) as Hd.
  { intros p. by apply pretty_Z_digits. }
  assert (∀ c, is_digit c → c ≠ "/"%char ∧ c ≠ "."%char) as Hc.
  { intros c [H1 H2]. split; intros ->; vm_compute in H1, H2; lia. }
  destruct z as [|p|p]; [by apply (bool_decide_unpack _); vm_compute| |].
  - destruct (Hd p) as [Hf Hne]. destruct (chars_of (pretty (Z.pos p))) as [|c r] eqn:E; [done|]. split.
    + unfold slash_free. rewrite E. intros Hin. rewrite Forall_forall in Hf. by destruct (Hc _ (Hf _ Hin)).
    + assert (is_digit c) as Hc0 by (by inversion Hf). apply Hc in Hc0 as [_ Hdot].
      rewrite !not_elem_of_cons. split_and!; [| | |set_solver]; intros Heq; rewrite Heq in E; cbn in E; congruence.
  - change (pretty (Z.neg p)) with ("-" +:+ pretty (Z.pos p)). destruct (Hd p) as [Hf Hne]. split.
    + unfold slash_free. rewrite chars_app. cbn [String.list_ascii_of_string app]. apply not_elem_of_cons. split; [done|].
      intros Hin. rewrite Forall_forall in Hf. by destruct (Hc _ (Hf _ Hin)).
    + rewrite !not_elem_of_cons. split_and!; [| | |set_solver]; intros Heq%(f_equal chars_of); rewrite chars_app in Heq; cbn in Heq; congruence.
Qed.

Definition blob_comps (channelID : Z) (folder name : string) : list string :=
  pretty channelID :: folder_comps folder ++ [name].

Section paths.
Context (up : string → string).

Lemma blob_comps_plain c f n : good_folder up f → plain n → Forall plain (blob_comps c f n).
Proof.
  intros Hf%good_folder_plain Hn. unfold blob_comps. constructor; [apply pretty_plain|]. apply Forall_app. split; [done|]. by apply Forall_singleton.
Qed.

Lemma Split_Join_3 (a f n : string) : Split (Join [a; f; n] "/") "/" = Split a "/" ++ Split f "/" ++ Split n "/".
Proof. cbn [Join]. by rewrite !Split_app. Qed.

Lemma blobPath_Join c f n : good_folder up f → plain n → blobPath c f n = Join (blob_comps c f n) "/".
Proof.
  intros Hf Hn. pose proof (blob_comps_plain c f n Hf Hn) as Hp. pose proof (pretty_plain c) as Hc.
  assert (pretty c ≠ "") as Hne by (destruct Hc; set_solver).
  unfold blobPath, filepath_Join. destruct (String.eqb_spec (pretty c) ""); [done|].
  destruct (Join_plain (blob_comps c f n) ltac:(done) Hp) as [Habs Hemp].
  assert (IsAbs (Join [pretty c; f; n] "/") = false) as Habs'.
  { destruct Hc as [Hc _]. unfold slash_free, IsAbs, HasPrefix in *. rewrite chars_Join_cons by done.
    destruct (chars_of (pretty c)) as [|x r] eqn:E; [exfalso; apply Hne; by apply chars_inj|].
    apply not_elem_of_cons in Hc as [Hx _]. cbn -[Ascii.eqb]. by destruct (Ascii.eqb_spec "/" x). }
  unfold Clean. rewrite Habs', Split_Join_3, (Split_slash_free (pretty c)), (Split_slash_free n) by (apply Hc || apply Hn).
  unfold blob_comps, folder_comps in *. destruct (String.eqb_spec f "") as [->|Hfe].
  - change (Split "" "/") with [""]. cbn [app] in *.
    replace (clean_comps false [] [pretty c; ""; n]) with (clean_comps false [] [pretty c; n]).
    + rewrite clean_comps_plain, app_nil_r, reverse_involutive by done. by destruct (String.eqb_spec (Join [pretty c; n] "/") "").
    + cbn [clean_comps]. destruct (bool_decide _); [done|]. destruct (pretty c =? "..")%string; reflexivity.
  - cbn [app]. rewrite clean_comps_plain, app_nil_r, reverse_involutive by done.
    by destruct (String.eqb_spec (Join (pretty c :: Split f "/" ++ [n]) "/") "").
Qed.

Lemma Split_blobPath c f n : good_folder up f → plain n → Split (blobPath c f n) "/" = blob_comps c f n.
Proof.
  intros Hf Hn. rewrite blobPath_Join by done. apply Split_Join; [done|]. by apply plain_slash_free, blob_comps_plain.
Qed.

Lemma pretty_Z_inj (z w : Z) : pretty z = pretty w → z = w.
Proof. apply (inj pretty). Qed.

(** Different files have different blobs. *)
Lemma blob_comps_inj c f n c' f' n' :
  good_folder up f → good_folder up f' → blob_comps c f n = blob_comps c' f' n' → c = c' ∧ f = f' ∧ n = n'.
Proof.
  intros Hf Hf' [= Hc [Hfs ->]%app_inj_tail]. split; [by apply pretty_Z_inj|]. split; [|done].
  unfold folder_comps in Hfs. destruct (String.eqb_spec f ""), (String.eqb_spec f' ""); subst; try done.
  - by destruct (Split_ne f' "/").
  - by destruct (Split_ne f "/").
  - by rewrite <- (Join_Split f), Hfs, Join_Split.
Qed.

Lemma path_Dir_blobPath c f n : good_folder up f → plain n →
  path_Dir (blobPath c f n) = Join (pretty c :: folder_comps f) "/".
Proof.
  intros Hf Hn. rewrite blobPath_Join by done. apply (path_Dir_plain (pretty c :: folder_comps f) n); [done|].
  by apply (blob_comps_plain c f n).
Qed.

Lemma linkChannel_blobPath c f n : good_folder up f → plain n → linkChannel (blobPath c f n) = pretty c.
Proof.
  intros Hf Hn. pose proof (blob_comps_plain c f n Hf Hn) as Hp. unfold linkChannel. rewrite blobPath_Join, Clean_plain by done.
  destruct (Join_plain (blob_comps c f n) ltac:(done) Hp) as [Habs _]. rewrite Habs.
  assert (CutBefore (Join (blob_comps c f n) "/") "/" = pretty c) as Hcut.
  { unfold CutBefore, blob_comps. rewrite chars_Join_cons by (by destruct (folder_comps f)). destruct (pretty_plain c) as [Hc _].
    rewrite span_app; [by cbn; rewrite of_chars| |by rewrite Ascii.eqb_refl].
    apply Forall_forall. intros x Hx. destruct (Ascii.eqb_spec "/" x) as [<-|]; [by destruct Hc|done]. }
  rewrite Hcut. destruct (String.eqb_spec (Join (blob_comps c f n) "/") ".") as [Heq|]; [|done].
  exfalso. apply (f_equal (λ s, Split s "/")) in Heq. rewrite Split_Join in Heq by (done || by apply plain_slash_free).
  unfold blob_comps in Heq. change (Split "." "/") with ["."] in Heq. injection Heq as _ Hnil. by destruct (folder_comps f).
Qed.

End paths.

(** One byte used of a megabyte, and an upload of nearly 2^63 more fits. *)
Example quota_check_overflows : Exceeded (quotaFor 1 1) max_int64 = false ∧ q_Limit (quotaFor 1 1) < 1 + max_int64.
Proof. by vm_compute. Qed.
