(* ===== verification/Passwords.v ===== *)
(** * Password hashes ([src/internal/auth/password.go])

    The self-describing Argon2id hash strings: how they are printed, parsed and
    verified, with the limits that bound the work a stored string can ask for. The
    key derivation itself is a parameter ([argon2.IDKey]); the random salt is an
    argument, [None] when the random source fails. *)

From Stdlib Require Import Ascii.
From stdpp Require Import pretty.
From S2P Require Import Prelude Wire Base64 ChatText.

Definition argonTime : Z := 3.
Definition argonMemory : Z := 64 * 1024.
Definition argonThreads : Z := 4.
Definition argonKeyLen : Z := 32.
Definition argonSaltLen : nat := 16.
Definition argon2idVersion : Z := 19.
Definition MaxPasswordBytes : nat := 256.
Definition argonMaxEncodedLength : nat := 1024.
Definition argonMaxMemory : Z := 256 * 1024.
Definition argonMaxTime : Z := 10.
Definition argonMaxThreads : Z := 16.
Definition argonMaxSaltLength : nat := 64.
Definition argonMaxHashLength : nat := 64.

Inductive PasswordErr :=
| ErrMalformedHash | ErrPasswordTooLong | ErrPasswordEmpty | ErrSalt | ErrPasswordMismatch.

(** [strconv.ParseUint(value, 10, bitSize)]. *)
Definition parseArgonParameter (value : string) (bitSize : Z) : result PasswordErr Z :=
  match String.list_ascii_of_string value with
  | [] => Err ErrMalformedHash
  | l => match digits 0 l with
         | Some n => if n <? 2 ^ bitSize then Ok n else Err ErrMalformedHash
         | None => Err ErrMalformedHash
         end
  end.

(** [strings.SplitN(field, "=", 2)], [None] unless it has two parts. *)
Definition cut_param (field : string) : option (string * string) :=
  let '(k, rest) := span (λ c, negb (is_char "=" c)) (String.list_ascii_of_string field) in
  match rest with
  | _ :: v => Some (String.string_of_list_ascii k, String.string_of_list_ascii v)
  | [] => None
  end.

Record argonParams := { ap_memory : Z; ap_time : Z; ap_threads : Z }.

(** One case of the switch: the value of a parameter within its limit. *)
Definition limited (value : string) (bitSize limit : Z) : result PasswordErr Z :=
  let? val := parseArgonParameter value bitSize in
  if (val =? 0) || (limit <? val) then Err ErrMalformedHash else Ok val.

Definition set_param (k v : string) (p : argonParams) : result PasswordErr argonParams :=
  if bool_decide (k = "m") then
    let? val := limited v 32 argonMaxMemory in
    Ok {| ap_memory := u32 val; ap_time := ap_time p; ap_threads := ap_threads p |}
  else if bool_decide (k = "t") then
    let? val := limited v 32 argonMaxTime in
    Ok {| ap_memory := ap_memory p; ap_time := u32 val; ap_threads := ap_threads p |}
  else if bool_decide (k = "p") then
    let? val := limited v 8 argonMaxThreads in
    Ok {| ap_memory := ap_memory p; ap_time := ap_time p; ap_threads := wrap_u 8 val |}
  else Err ErrMalformedHash.

Fixpoint parse_fields (fields : list string) (seen : gset string) (p : argonParams) : result PasswordErr argonParams :=
  match fields with
  | [] => Ok p
  | field :: fields =>
      match cut_param field with
      | None => Err ErrMalformedHash
      | Some (k, v) =>
          if bool_decide (k ∈ seen) then Err ErrMalformedHash
          else let? p := set_param k v p in parse_fields fields ({[k]} ∪ seen) p
      end
  end.

Definition parseParams (s : string) : result PasswordErr argonParams :=
  let? p := parse_fields (Split s ",") ∅ {| ap_memory := 0; ap_time := 0; ap_threads := 0 |} in
  if (ap_memory p =? 0) || (ap_time p =? 0) || (ap_threads p =? 0) then Err ErrMalformedHash else Ok p.

(** A base64 field whose decoded length is between 1 and [max]. *)
Definition decode_field (s : string) (max : nat) : result PasswordErr (list Z) :=
  match DecodeString s with
  | None => Err ErrMalformedHash
  | Some b => if bool_decide (b = []) || bool_decide (max < length b)%nat then Err ErrMalformedHash else Ok b
  end.

Definition parseEncodedHash (encoded : string) : result PasswordErr (list Z * list Z * argonParams) :=
  if bool_decide (argonMaxEncodedLength < String.length encoded)%nat then Err ErrMalformedHash
  else
    match Split encoded "$" with
    | [p0; p1; p2; p3; p4] =>
        if negb (bool_decide (p0 = "argon2id")) then Err ErrMalformedHash
        else
          match strip_prefix (String.list_ascii_of_string "v=") (String.list_ascii_of_string p1) with
          | None => Err ErrMalformedHash
          | Some v =>
              match ParseInt (String.string_of_list_ascii v) with
              | None => Err ErrMalformedHash
              | Some version =>
                  if negb (version =? argon2idVersion) then Err ErrMalformedHash
                  else
                    let? params := parseParams p2 in
                    let? salt := decode_field p3 argonMaxSaltLength in
                    let? hash := decode_field p4 argonMaxHashLength in
                    Ok (salt, hash, params)
              end
          end
    | _ => Err ErrMalformedHash
    end.

Definition encodeHash (salt hash : list Z) : string :=
  "argon2id$v=" +:+ pretty argon2idVersion +:+ "$m=" +:+ pretty argonMemory +:+ ",t=" +:+ pretty argonTime +:+
  ",p=" +:+ pretty argonThreads +:+ "$" +:+ EncodeToString salt +:+ "$" +:+ EncodeToString hash.

Section argon.
Context (IDKey : list Z → list Z → Z → Z → Z → Z → list Z).  (* password, salt, time, memory, threads, key length *)

Definition HashPassword (random : option (list Z)) (password : string) : result PasswordErr string :=
  if bool_decide (password = "") then Err ErrPasswordEmpty
  else if bool_decide (MaxPasswordBytes < String.length password)%nat then Err ErrPasswordTooLong
  else match random with
       | None => Err ErrSalt
       | Some salt =>
           Ok (encodeHash salt (IDKey (bytes_of_string password) salt argonTime argonMemory argonThreads argonKeyLen))
       end.

Definition VerifyPassword (password encodedHash : string) : result PasswordErr () :=
  if bool_decide (MaxPasswordBytes < String.length password)%nat then Err ErrPasswordTooLong
  else
    let? parsed := parseEncodedHash encodedHash in
    let '(salt, hash, p) := parsed in
    let? keyLength := result_map_err (λ _, ErrMalformedHash) (IntToUint32 (Z.of_nat (length hash))) in
    let other := IDKey (bytes_of_string password) salt (ap_time p) (ap_memory p) (ap_threads p) keyLength in
    if bool_decide (hash = other) then Ok () else Err ErrPasswordMismatch.

Definition makeDummyPasswordHash : string :=
  let salt := bytes_of_string "noxa-dummy-salt" in
  encodeHash salt (IDKey (bytes_of_string "noxa-dummy-password") salt argonTime argonMemory argonThreads argonKeyLen).

(** ** What parsing guarantees *)

Lemma limited_ok v bits limit n : limited v bits limit = Ok n → n ≠ 0 ∧ n ≤ limit.
Proof.
  unfold limited. destruct (parseArgonParameter v bits) as [val|]; [simpl|done].
  destruct (_ || _) eqn:Hb; [done|]. intros [= <-]. apply orb_false_iff in Hb as [? ?]. lia.
Qed.

Lemma digits_nonneg l acc n : 0 ≤ acc → digits acc l = Some n → 0 ≤ n.
Proof.
  revert acc. induction l as [|c l IH]; intros acc Ha; simpl; [by intros [= <-]|].
  unfold digit. destruct (_ && _) eqn:Hd; [|done]. intros Hn. eapply IH; [|exact Hn].
  apply andb_true_iff in Hd as [? _]. lia.
Qed.

Lemma limited_bounds v bits limit n : limited v bits limit = Ok n → 1 ≤ n ≤ limit.
Proof.
  intros Hl. destruct (limited_ok _ _ _ _ Hl). split; [|done]. unfold limited, parseArgonParameter in Hl.
  destruct (String.list_ascii_of_string v) as [|c l]; [done|]. destruct (digits 0 (c :: l)) as [m|] eqn:Hd; [|done].
  apply digits_nonneg in Hd; [|done]. destruct (m <? _); [|done]. simpl in Hl. destruct (_ || _); [done|].
  injection Hl as ->. lia.
Qed.

(** A parameter is unset or within its limit. *)
Definition params_ok (p : argonParams) : Prop :=
  0 ≤ ap_memory p ≤ argonMaxMemory ∧ 0 ≤ ap_time p ≤ argonMaxTime ∧ 0 ≤ ap_threads p ≤ argonMaxThreads.

Lemma set_param_ok k v p p' : params_ok p → set_param k v p = Ok p' → params_ok p'.
Proof.
  unfold set_param, params_ok. intros (Hm & Ht & Hp) Hs.
  repeat (case_bool_decide as Hk; [|clear Hk]); [..|done];
    (destruct (limited v _ _) as [n|] eqn:Hl; [|done]; apply limited_bounds in Hl; injection Hs as <-; cbn [ap_memory ap_time ap_threads]).
  all: unfold argonMaxMemory, argonMaxTime, argonMaxThreads in *.
  all: repeat match goal with |- context [wrap_u ?w ?x] => rewrite (wrap_u_small w x) by lia end; lia.
Qed.

Lemma parse_fields_ok l seen p p' : params_ok p → parse_fields l seen p = Ok p' → params_ok p'.
Proof.
  revert seen p. induction l as [|f l IH]; intros seen p Hp; simpl; [by intros [= <-]|].
  destruct (cut_param f) as [[k v]|]; [|done]. case_bool_decide; [done|].
  destruct (set_param k v p) as [q|] eqn:Hq; [simpl|done]. apply IH. by eapply set_param_ok.
Qed.

Lemma parseParams_ok s p :
  parseParams s = Ok p →
  1 ≤ ap_memory p ≤ argonMaxMemory ∧ 1 ≤ ap_time p ≤ argonMaxTime ∧ 1 ≤ ap_threads p ≤ argonMaxThreads.
Proof.
  unfold parseParams. destruct (parse_fields _ _ _) as [q|] eqn:Hq; [simpl|done].
  apply parse_fields_ok in Hq as (? & ? & ?); [|done]. destruct (_ || _) eqn:Hz; [done|]. intros [= <-]. lia.
Qed.

Lemma decode_field_ok s max b : decode_field s max = Ok b → (1 ≤ length b ≤ max)%nat.
Proof.
  unfold decode_field. destruct (DecodeString s) as [b'|]; [|done].
  destruct (_ || _) eqn:Hb; [done|]. intros [= <-]. apply orb_false_iff in Hb as [H1%bool_decide_eq_false H2%bool_decide_eq_false].
  destruct b'; [done|]. simpl in *. lia.
Qed.

Lemma parseEncodedHash_ok e salt hash p :
  parseEncodedHash e = Ok (salt, hash, p) →
  (1 ≤ length salt ≤ argonMaxSaltLength)%nat ∧ (1 ≤ length hash ≤ argonMaxHashLength)%nat ∧
  1 ≤ ap_memory p ≤ argonMaxMemory ∧ 1 ≤ ap_time p ≤ argonMaxTime ∧ 1 ≤ ap_threads p ≤ argonMaxThreads.
Proof.
  unfold parseEncodedHash. case_bool_decide; [done|].
  destruct (Split e "$") as [|p0 [|p1 [|p2 [|p3 [|p4 [|]]]]]]; try done.
  destruct (negb _); [done|]. destruct (strip_prefix _ _) as [v|]; [|done].
  destruct (ParseInt _) as [version|]; [|done]. destruct (negb _); [done|].
  destruct (parseParams p2) as [q|] eqn:Hq; [simpl|done]. destruct (decode_field p3 _) as [b3|] eqn:H3; [simpl|done].
  destruct (decode_field p4 _) as [b4|] eqn:H4; [simpl|done]. intros [= -> -> ->].
  apply parseParams_ok in Hq. apply decode_field_ok in H3, H4. tauto.
Qed.

(** ** Printed hashes parse back *)

Lemma span_none f l : Forall (λ c, f c = true) l → span f l = (l, []).
Proof. induction 1 as [|c l Hc _ IH]; simpl; [done|]. by rewrite Hc, IH. Qed.

Lemma split_chars_none c l : Forall (λ d, is_char c d = false) l → split_chars c l = [l].
Proof. induction 1 as [|d l Hd _ IH]; simpl; [done|]. by rewrite Hd, IH. Qed.

Lemma split_chars_cut c l r :
  Forall (λ d, is_char c d = false) l → split_chars c (l ++ c :: r) = l :: split_chars c r.
Proof.
  induction 1 as [|d l Hd _ IH]; simpl; [by unfold is_char; rewrite Ascii.eqb_refl|]. by rewrite Hd, IH.
Qed.

Lemma enc6_plain n : is_char "$" (enc6 n) = false.
Proof.
  assert (enc6 n ∈ alphabet) as Hin.
  { unfold enc6. apply list_elem_of_In, nth_In. vm_compute (length alphabet).
    change 63 with (2 ^ 6 - 1). rewrite land_mask by done. pose proof (Z.mod_pos_bound n (2 ^ 6)). lia. }
  assert (Forall (λ c, is_char "$" c = false) alphabet) as Hall by (apply (bool_decide_unpack _); by vm_compute).
  by apply (proj1 (Forall_forall _ _) Hall).
Qed.

Lemma encode_groups_plain bs : Forall (λ c, is_char "$" c = false) (encode_groups bs).
Proof.
  induction bs as [bs IH] using (induction_ltof1 _ length). unfold ltof in IH.
  destruct bs as [|a [|b [|c rest]]]; simpl; repeat (constructor; [by apply enc6_plain || done|]); [constructor..|].
  apply IH. simpl. lia.
Qed.

Lemma encode_groups_length bs : length (encode_groups bs) = (4 * ((length bs + 2) / 3))%nat.
Proof.
  induction bs as [bs IH] using (induction_ltof1 _ length). unfold ltof in IH.
  destruct bs as [|a [|b [|c rest]]]; [done..|]. cbn [encode_groups length]. rewrite IH by (simpl; lia).
  replace (S (S (S (length rest))) + 2)%nat with (length rest + 2 + 1 * 3)%nat by lia. rewrite Nat.div_add by done. lia.
Qed.

Lemma list_ascii_app s t :
  String.list_ascii_of_string (s +:+ t) = String.list_ascii_of_string s ++ String.list_ascii_of_string t.
Proof. induction s as [|c s IH]; simpl; [done|]. by rewrite IH. Qed.

Lemma list_ascii_encode bs : String.list_ascii_of_string (EncodeToString bs) = encode_groups bs.
Proof. apply String.list_ascii_of_string_of_list_ascii. Qed.

Lemma pretty_version : pretty argon2idVersion = "19".
Proof. by vm_compute. Qed.
Lemma pretty_memory : pretty argonMemory = "65536".
Proof. by vm_compute. Qed.
Lemma pretty_time : pretty argonTime = "3".
Proof. by vm_compute. Qed.
Lemma pretty_threads : pretty argonThreads = "4".
Proof. by vm_compute. Qed.

(** The fields of a printed hash. *)
Lemma split_encodeHash salt hash :
  Split (encodeHash salt hash) "$" =
    ["argon2id"; "v=19"; "m=65536,t=3,p=4"; EncodeToString salt; EncodeToString hash].
Proof.
  unfold Split, encodeHash. rewrite pretty_version, pretty_memory, pretty_time, pretty_threads.
  rewrite !list_ascii_app, !list_ascii_encode. cbn [String.list_ascii_of_string app].
  set (tail := encode_groups salt ++ _).
  assert (split_chars "$" tail = [encode_groups salt; encode_groups hash]) as Ht.
  { unfold tail. rewrite split_chars_cut by apply encode_groups_plain. by rewrite split_chars_none by apply encode_groups_plain. }
  clearbody tail. cbn. by rewrite Ht.
Qed.

Lemma decode_field_encode bs max :
  Forall is_byte bs → (1 ≤ length bs ≤ max)%nat → decode_field (EncodeToString bs) max = Ok bs.
Proof.
  intros Hb [H1 H2]. unfold decode_field. rewrite decode_encode by done.
  rewrite !bool_decide_false; [done|lia|]. by intros ->; simpl in H1; lia.
Qed.

Lemma string_length_chars s : String.length s = length (String.list_ascii_of_string s).
Proof. induction s as [|c s IH]; simpl; [done|]. by rewrite IH. Qed.

Lemma encodeHash_parses salt hash :
  Forall is_byte salt → Forall is_byte hash →
  (1 ≤ length salt ≤ argonMaxSaltLength)%nat → (1 ≤ length hash ≤ argonMaxHashLength)%nat →
  parseEncodedHash (encodeHash salt hash) =
    Ok (salt, hash, {| ap_memory := argonMemory; ap_time := argonTime; ap_threads := argonThreads |}).
Proof.
  intros Hs Hh Ls Lh. unfold parseEncodedHash. rewrite bool_decide_false.
  - rewrite split_encodeHash. rewrite bool_decide_true by done. cbn [negb].
    change (strip_prefix (String.list_ascii_of_string "v=") (String.list_ascii_of_string "v=19")) with (Some ["1"; "9"]%char).
    change (ParseInt (String.string_of_list_ascii ["1"; "9"]%char)) with (Some 19). cbv iota beta.
    change (negb (19 =? argon2idVersion)) with false. cbv iota.
    assert (parseParams "m=65536,t=3,p=4" = Ok {| ap_memory := argonMemory; ap_time := argonTime; ap_threads := argonThreads |}) as ->
      by (by vm_compute).
    by rewrite !decode_field_encode.
  - unfold encodeHash. rewrite pretty_version, pretty_memory, pretty_time, pretty_threads.
    rewrite string_length_chars, !list_ascii_app, !list_ascii_encode, !length_app, !encode_groups_length.
    unfold argonMaxEncodedLength, argonMaxSaltLength, argonMaxHashLength in *. cbn [String.list_ascii_of_string length].
    pose proof (Nat.div_le_upper_bound (length salt + 2) 3 22). pose proof (Nat.div_le_upper_bound (length hash + 2) 3 22). lia.
Qed.

(** What [golang.org/x/crypto/argon2] documents: the key has the length asked for. *)
Definition idkey_laws : Prop :=
  ∀ pw salt t m p n, 0 ≤ n → Z.of_nat (length (IDKey pw salt t m p n)) = n ∧ Forall is_byte (IDKey pw salt t m p n).

(** C40: a stored hash accepts exactly the passwords, within the length limit, that
    derive the same key under the salt drawn when it was made; among them the one
    it was made from. *)
Theorem password_exact random password stored guess :
  idkey_laws → (∀ salt, random = Some salt → length salt = argonSaltLen ∧ Forall is_byte salt) →
  HashPassword random password = Ok stored →
  ∃ salt, random = Some salt ∧ VerifyPassword password stored = Ok () ∧
    (VerifyPassword guess stored = Ok () ↔
     (String.length guess ≤ MaxPasswordBytes)%nat ∧
     IDKey (bytes_of_string guess) salt argonTime argonMemory argonThreads argonKeyLen =
     IDKey (bytes_of_string password) salt argonTime argonMemory argonThreads argonKeyLen).
Proof.
  intros laws Hr. unfold HashPassword. case_bool_decide; [done|]. case_bool_decide as Hlen; [done|].
  destruct random as [salt|]; [|done]. intros [= <-]. destruct (Hr salt eq_refl) as [Hls Hbs].
  set (k := IDKey (bytes_of_string password) _ _ _ _ _).
  assert (Z.of_nat (length k) = argonKeyLen ∧ Forall is_byte k) as [Hlk Hbk] by (by apply laws).
  assert (∀ g, VerifyPassword g (encodeHash salt k) = Ok () ↔
    (String.length g ≤ MaxPasswordBytes)%nat ∧
    IDKey (bytes_of_string g) salt argonTime argonMemory argonThreads argonKeyLen = k) as Hv.
  { intros g. unfold VerifyPassword. case_bool_decide; [split; [done|lia]|]. unfold argonKeyLen, argonSaltLen in *.
    rewrite encodeHash_parses; unfold argonMaxSaltLength, argonMaxHashLength; [|done|done|lia|lia]. cbn [result_bind].
    rewrite Hlk. change (IntToUint32 32) with (Ok (E := CastError) 32). cbn [result_map_err result_bind ap_time ap_memory ap_threads].
    case_bool_decide as Hk.
    - split; [|done]. split; [lia|done].
    - split; [done|]. intros [_ Hk']. by destruct Hk. }
  exists salt. split; [done|]. split; [|apply Hv]. apply Hv. split; [lia|done].
Qed.

(** The work a login can cause is bounded whatever string is stored and
    whatever password is sent: a stored hash that parses asks for 1 to 10 passes
    over at most 256 MiB in 1 to 16 threads, on a salt and for a key of 1 to 64
    bytes, and a password is accepted exactly when it has at most 256 bytes and
    Argon2, run with those parameters, gives the stored key. *)
Theorem verify_bounded password stored :
  (∀ salt hash p, parseEncodedHash stored = Ok (salt, hash, p) →
    (1 ≤ length salt ≤ argonMaxSaltLength)%nat ∧ (1 ≤ length hash ≤ argonMaxHashLength)%nat ∧
    1 ≤ ap_memory p ≤ argonMaxMemory ∧ 1 ≤ ap_time p ≤ argonMaxTime ∧ 1 ≤ ap_threads p ≤ argonMaxThreads) ∧
  (VerifyPassword password stored = Ok () ↔
   (String.length password ≤ MaxPasswordBytes)%nat ∧
   ∃ salt hash p, parseEncodedHash stored = Ok (salt, hash, p) ∧
     IDKey (bytes_of_string password) salt (ap_time p) (ap_memory p) (ap_threads p) (Z.of_nat (length hash)) = hash).
Proof.
  split; [intros salt hash p (Hs & Hh & Hb)%parseEncodedHash_ok; split_and!; first [done|lia|apply Hb]|].
  unfold VerifyPassword. case_bool_decide; [split; [done|intros [? _]; lia]|].
  destruct (parseEncodedHash stored) as [[[salt hash] p]|e] eqn:Hp; cbn [result_bind]; [|split; [done|naive_solver]].
  pose proof (parseEncodedHash_ok _ _ _ _ Hp) as Hok. destruct Hok as (Hs & Hh & Hb).
  assert (IntToUint32 (Z.of_nat (length hash)) = Ok (Z.of_nat (length hash))) as ->.
  { unfold argonMaxHashLength in Hh. unfold IntToUint32, Int64ToUint32. rewrite (wrap_s_small 64) by lia.
    destruct (_ || _) eqn:Hr; [lia|]. by rewrite wrap_u_small by lia. }
  cbn [result_map_err result_bind]. case_bool_decide as Hk.
  - split; [|done]. intros _. split; [lia|]. by exists salt, hash, p.
  - split; [done|]. intros (_ & s & h & q & [= <- <- <-] & Hk'). by destruct Hk.
Qed.
End argon.

Definition toy_IDKey (pw salt : list Z) (t m p n : Z) : list Z :=
  replicate (Z.to_nat n) (Z.land (foldr Z.add 7 pw) 255).

Lemma password_exact_witness :
  ∃ stored, HashPassword toy_IDKey (Some (replicate 16 1)) "hunter2" = Ok stored ∧
    VerifyPassword toy_IDKey "hunter2" stored = Ok () ∧ VerifyPassword toy_IDKey "hunter3" stored ≠ Ok ().
Proof.
  eexists. split; [reflexivity|].
  destruct (password_exact toy_IDKey (Some (replicate 16 1)) "hunter2" (encodeHash (replicate 16 1)
    (toy_IDKey (bytes_of_string "hunter2") (replicate 16 1) argonTime argonMemory argonThreads argonKeyLen)) "hunter3")
    as (salt & [= <-] & Hok & Hiff).
  - intros pw salt t m p n Hn. unfold toy_IDKey. rewrite length_replicate. split; [lia|].
    apply Forall_replicate. unfold is_byte. change 255 with (2 ^ 8 - 1). rewrite land_mask by done.
    pose proof (Z.mod_pos_bound (foldr Z.add 7 pw) (2 ^ 8)). lia.
  - intros salt [= <-]. split; [done|]. unfold is_byte. repeat (constructor; [lia|]). constructor.
  - reflexivity.
  - split; [exact Hok|]. rewrite Hiff. intros [_ Hk]. by vm_compute in Hk.
Defined.
