(* ===== verification/ServerWorld.v ===== *)
(** * The control server and its handlers' effects ([src/internal/server/tcp.go])

    A handler is a sequential program over the server: the channel manager and
    the state it keeps, the chat key manager, the connected clients, the chat rate
    limiter and the pending key rotations. What leaves the server is a log:
    frames written to clients, payloads handed to the broadcaster, calls of the
    voice backend. A frame is logged with the membership state at the moment it
    is written, so that a theorem can say to whom something was sent and what it
    was entitled to then.

    What handlers ask of the outside is answered by the environment [Env]: whether
    the n-th write or broadcast succeeds, what the n-th permission read returns,
    what the clock says, and the parameters of the chat keys. Handlers are run to
    completion one at a time. An error frame that quotes an error's text keeps the
    fixed part of its message only. The nil checks for servers built without a state,
    rate limiter or broadcaster, which only tests build, are left out. *)

From S2P Require Import Prelude Wire Base64 GoState Permissions PermLoader PermCache StateManager StateInvariant PermCheck ChannelManager Broadcast ChatKeys ChatText.

Definition errCodeUnknown : Z := 1.
Definition errCodeMalformed : Z := 2.
Definition errCodeNotAuthenticated : Z := 3.
Definition errCodePermissionDenied : Z := 4.
Definition errCodeUnavailable : Z := 5.
Definition errCodeNotFound : Z := 6.
Definition errCodeConflict : Z := 7.

(** A connection ([Client] of tcp.go), as far as handlers look at it. *)
Record Conn := {
  cn_ID : string;
  cn_UniqueID : string;
  cn_Username : string;
  cn_userID : Z;
  cn_isAdmin : bool;
  cn_authed : bool;
  cn_rulesPending : bool;
}.

Definition conn_of (c : Conn) : connClient :=
  {| conn_id := cn_ID c; conn_userID := cn_userID c; conn_isAdmin := cn_isAdmin c |}.

(** ** Messages and events *)

Record ChatBroadcast := {
  cb_ChannelID : string;
  cb_Direct : bool;
  cb_ToUniqueID : string;
  cb_FromClientID : string;
  cb_FromUniqueID : string;
  cb_From : string;
  cb_Text : string;
  cb_Offline : bool;
  cb_Enc : bool;
  cb_KeyID : Z;
  cb_E2E : bool;
  cb_ID : Z;
  cb_ReplyToID : Z;
  cb_Version : Z;
  cb_Mentions : list string;
  cb_ClientMsgID : string;
}.

Record ChatHistoryEntry := {
  he_ID : Z;
  he_FromUniqueID : string;
  he_FromNickname : string;
  he_ReplyToID : Z;
  he_Version : Z;
  he_BodyEnc : string;
  he_KeyID : Z;
  he_SentAt : Z;
  he_EditedAt : Z;
  he_Deleted : bool;
  he_Reactions : gmap string Z;
}.

Record ChatPinEntry := {
  pe_MessageID : Z;
  pe_PinnedBy : string;
  pe_PinnedAt : Z;
  pe_Message : option ChatHistoryEntry;
}.

Record ICEServer := { ice_URLs : list string; ice_Username : string; ice_Credential : string }.

Record AuthResponse := {
  ar_Capabilities : list string;
  ar_OK : bool;
  ar_ClientID : string;
  ar_UniqueID : string;
  ar_Nickname : string;
  ar_Reason : string;
  ar_ICEServers : list ICEServer;
  ar_TLSFingerprint : string;
  ar_MOTD : string;
  ar_MOTDEnc : bool;
  ar_MOTDKeyID : Z;
  ar_ChatKeys : list ChannelKey;
  ar_IsAdmin : bool;
}.

Record GroupEntry := {
  ge_ID : Z;
  ge_Name : string;
  ge_SortID : Z;
  ge_MemberCount : Z;
  ge_Icon : string;
  ge_Color : string;
  ge_Hoist : bool;
}.

Record GroupMemberEntry := { me_UniqueID : string; me_Nickname : string; me_ExpiresAt : Z }.

Record PermissionEntry := { px_Key : string; px_Value : Z; px_Grant : Z; px_Skip : bool; px_Negate : bool }.

Record PermTraceEntry := {
  te_Tier : string;
  te_Present : bool;
  te_Value : Z;
  te_Grant : Z;
  te_Skip : bool;
  te_Negate : bool;
  te_Winning : bool;
}.

Record AuditEntry := {
  ae_ID : Z;
  ae_Actor : string;
  ae_Action : string;
  ae_Target : string;
  ae_Detail : string;
  ae_CreatedAt : Z;
}.

Record TokenEntry := {
  tn_Token : string;
  tn_GroupID : Z;
  tn_GroupName : string;
  tn_ChannelID : Z;
  tn_Description : string;
  tn_CreatedAt : Z;
  tn_UsedBy : string;
}.

Record GroupAssign := {
  ga_AckRequested : bool;
  ga_Type : string;
  ga_GroupID : Z;
  ga_UniqueID : string;
  ga_ChannelID : Z;
  ga_ExpiresInSeconds : Z;
}.

(** The answers of the group, permission and token handlers. *)
Inductive AdminMsg :=
| AGroupList (type : string) (groups : list GroupEntry)
| AGroupMembers (type : string) (groupID : Z) (members : list GroupMemberEntry)
| APermList (tier : string) (entries : list PermissionEntry)
| APermTrace (key : string) (effective : Z) (effectiveTier : string) (entries : list PermTraceEntry)
| AAuditLog (entries : list AuditEntry)
| ATokens (entries : list TokenEntry)
| APermsInvalid (reason : string)
| AGroupAssign (msg : GroupAssign)
| AServerAdmins (entries : list (string * string)).

Inductive AdminEvent :=
| EvGroupAssigned (groupID : Z) (name by_ : string) (expiresIn : Z) (uniqueID : string) (promoted : bool)
| EvGroupUnassigned (groupID : Z) (name by_ : string)
| EvGroupExpired (groupID : Z)
| EvTokenUsed (clientID : string) (groupID : Z) (promoted : bool).

Inductive Event :=
| EvChat (c : ChatBroadcast)
| EvChatEdited (messageID channelID : Z) (body : string) (keyID : Z) (editedBy : string) (version : Z)
| EvChatDeleted (messageID channelID : Z) (deletedBy : string)
| EvChatPinned (pinned : bool) (messageID channelID : Z) (by_ : string)
| EvChatReaction (messageID channelID : Z) (reactions : gmap string Z) (by_ : string) (added : bool)
| EvTyping (clientID uniqueID nickname : string) (channelID : Z)
| EvReceipt (read : bool) (fromUniqueID clientMsgID : string)
| EvUserMoved (clientID : string) (from to : Z) (by_ : string)
| EvUserJoined (clientID uniqueID nickname : string)
| EvUserLeft (clientID uniqueID nickname : string)
| EvAnnouncement (text : string) (enc : bool) (keyID : Z)
| EvAdmin (ev : AdminEvent)
| EvKicked (clientID : string) (channelID : Z) (by_ reason : string) (fromServer ban : bool) (expires : Z).

Inductive Msg :=
| MError (code : Z) (message : string)
| MRefused (refused : list (Z * string))      (* the permission error that lists refused channels *)
| MChannelKey (k : ChannelKey)
| MSubscriptionState (ids : list Z)
| MKeyResponse (uniqueID publicKey : string)
| MChatKeyBundle (channelID : Z) (keys : list ChannelKey) (refused : list Z)
| MChatHistory (channelID : Z) (messages : list ChatHistoryEntry)
    (keys : list ChannelKey) (refused : list Z) (truncated : bool)
| MChatPins (channelID : Z) (pins : list ChatPinEntry)
    (keys : list ChannelKey) (refused : list Z) (truncated : bool)
| MChatFilters (f : chatFilters) (fromConfig : bool)
| MAuthResponse (r : AuthResponse)
| MAuthChallenge (challenge : list Z)
| MServerRules (text hash : string)
| MSnapshot (tree : TreeSnapshot)
| MEvent (ev : Event)
| MAdmin (m : AdminMsg)
| MPong.

Inductive effect :=
| Wrote (st : Manager) (to : string) (m : Msg)
| WriteFailed (to : string)
| ToChannel (st : Manager) (channelID : Z) (ev : Event)
| ToClient (st : Manager) (to : string) (ev : Event) (ok : bool)
| ToAll (ev : Event)
| ToAdmins (ev : Event)
| VoiceJoin (clientID : string) (channelID : Z)
| VoiceLeave (clientID : string) (channelID : Z)
| VoiceClose (clientID : string)
| RotationArmed (channelID : Z)
| GroupAutoAssigned (userID channelID groupID : Z)
| PermsInvalid (reason : string) (uniqueIDs : list string)   (* notifyPermsInvalid *)
| PublicKeyStored (userID : Z) (publicKey : string)
| Banned (uniqueID reason : string) (bannedBy : option Z) (expires : option Z)
| TerminalEvent (to : string) (ev : Event)
| Audited (actor action target : string)
| Registered (clientID : string) (ok : bool)
| Unregistered (clientID : string)
| LastIPRecorded (userID : Z) (ip : string)
| GroupAssigned (groupID userID : Z)
| InvalidatedAll                                              (* permissions.Loader.InvalidateAll *)
| Invalidated (userID channelID : Z)
| ConnClosed (clientID : string).

(** ** The server *)

Record chatBucket := { bk_tokens : Z; bk_reset : Z }.

Record Server := mkServer {
  sv_cm : CM;
  sv_keys : CK;
  sv_clients : gmap string Conn;
  sv_buckets : gmap string chatBucket;
  sv_rotPending : gset Z;
  sv_loads : nat;
  sv_reads : nat;
  sv_log : list effect;
}.

Definition sv_state (s : Server) : Manager := cm_state (sv_cm s).

Definition set_cm (f : CM → CM) (s : Server) : Server :=
  mkServer (f (sv_cm s)) (sv_keys s) (sv_clients s) (sv_buckets s) (sv_rotPending s)
    (sv_loads s) (sv_reads s) (sv_log s).
Definition set_keys (k : CK) (s : Server) : Server :=
  mkServer (sv_cm s) k (sv_clients s) (sv_buckets s) (sv_rotPending s)
    (sv_loads s) (sv_reads s) (sv_log s).
Definition set_conns (f : gmap string Conn → gmap string Conn) (s : Server) : Server :=
  mkServer (sv_cm s) (sv_keys s) (f (sv_clients s)) (sv_buckets s) (sv_rotPending s)
    (sv_loads s) (sv_reads s) (sv_log s).
Definition set_buckets (f : gmap string chatBucket → gmap string chatBucket) (s : Server) : Server :=
  mkServer (sv_cm s) (sv_keys s) (sv_clients s) (f (sv_buckets s)) (sv_rotPending s)
    (sv_loads s) (sv_reads s) (sv_log s).
Definition set_rotPending (f : gset Z → gset Z) (s : Server) : Server :=
  mkServer (sv_cm s) (sv_keys s) (sv_clients s) (sv_buckets s) (f (sv_rotPending s))
    (sv_loads s) (sv_reads s) (sv_log s).
Definition tick_load (s : Server) : Server :=
  mkServer (sv_cm s) (sv_keys s) (sv_clients s) (sv_buckets s) (sv_rotPending s)
    (S (sv_loads s)) (sv_reads s) (sv_log s).
Definition tick_read (s : Server) : Server :=
  mkServer (sv_cm s) (sv_keys s) (sv_clients s) (sv_buckets s) (sv_rotPending s)
    (sv_loads s) (S (sv_reads s)) (sv_log s).
Definition add_effect (e : effect) (s : Server) : Server :=
  mkServer (sv_cm s) (sv_keys s) (sv_clients s) (sv_buckets s) (sv_rotPending s)
    (sv_loads s) (sv_reads s) (sv_log s ++ [e]).

Record Env := {
  env_write_ok : nat → bool;             (* does the write or broadcast at this place of the log succeed *)
  env_perms : nat → PermSource;          (* the permission tables at the n-th read *)
  env_guest_group : Z;
  env_clock : nat → Z;
  env_auto_assign : nat → option Z;      (* the group an auto assignment applied, if any *)
  env_stores_key : bool;                 (* deps.Auth is wired *)
  env_lookup_key : string → string;      (* the key the database has for a unique id, "" for none *)
  env_verify_password : string → string → bool;
  env_ban_ok : nat → bool;
  env_rotate_min : Z;                    (* cfg.ChatKeyRotateMinSecs *)
  env_rate_max : Z;
  env_rate_window : Z;
  env_db : nat → dbOutcome;
  env_rnd : nat → nat → option (list Z);
  env_Seal : list Z → key → list Z → list Z;
  env_Open : list Z → key → list Z → option (list Z);
  env_Box : nat → list Z → key → option (list Z);
  env_has_store : bool;
  env_kek : option KEKRing;
}.

Inductive HErr := HWrite | HKeys (e : ChatKeyError) | HChannels (e : ChanError) | HText (message : string).

Abbreviation H := (SE Server HErr).

(** A call of the limiter on the user's bucket: a fresh bucket is opened when
    there is none or its time is over; a token is taken if there is one. *)
Definition take_token (b : option chatBucket) (limit window now : Z) : chatBucket * bool :=
  let fresh := {| bk_tokens := limit; bk_reset := now + window |} in
  let b := match b with
           | Some b => if bk_reset b <? now then fresh else b
           | None => fresh
           end in
  if bk_tokens b <=? 0 then (b, false)
  else ({| bk_tokens := bk_tokens b - 1; bk_reset := bk_reset b |}, true).

Section server.
Context (E : Env).

Definition get_state : H Manager := λ s, (s, Ok (sv_state s)).
Definition on_state_ (f : Manager → Manager) : H () :=
  se_modify (set_cm (λ c, ChannelManager.set_state (f (cm_state c)) c)).

(** A call of the key manager or of the channel manager, its error as a value. *)
Definition on_keys {A} (m : ChatKeys.M A) : H (result ChatKeyError A) := λ s,
  let '(k, r) := m (sv_keys s) in (set_keys k s, Ok r).
Definition on_cm {A} (m : ChannelManager.M A) : H (result ChanError A) := λ s,
  let '(c, r) := m (sv_cm s) in (set_cm (λ _, c) s, Ok r).

Definition effect_ (e : effect) : H () := se_modify (add_effect e).
Definition effect_st (f : Manager → effect) : H () := λ s, (add_effect (f (sv_state s)) s, Ok ()).

Definition time_Now : H Z := λ s, (tick_read s, Ok (env_clock E (sv_reads s))).

Definition writeMessage (client : string) (m : Msg) : H () := λ s,
  if env_write_ok E (length (sv_log s))
  then (add_effect (Wrote (sv_state s) client m) s, Ok ())
  else (add_effect (WriteFailed client) s, Err HWrite).

Definition sendErrorFor (client : Conn) (code : Z) (message : string) : H () :=
  writeMessage (cn_ID client) (MError code message).

(** A call whose error the handler drops. *)
Definition ignore {A} (m : H A) : H () := λ s, ((m s).1, Ok ()).

Definition BroadcastToClient_ (to : string) (ev : Event) : H bool := λ s,
  let ok := env_write_ok E (length (sv_log s)) in
  (add_effect (ToClient (sv_state s) to ev ok) s, Ok ok).

Definition clientByID (id : string) : H (option Conn) := λ s, (s, Ok (sv_clients s !! id)).

(** The permission middleware in front of the tables as they are now. *)
Definition deps_now (s : Server) : serverDeps :=
  {| dep_perms := Some (env_perms E (sv_loads s)); dep_state := Some (sv_state s);
     dep_guest_group := env_guest_group E |}.

Definition permChecker_ (client : Conn) : H (result permError permChecker) := λ s,
  (tick_load s, Ok (permCheckerFor (deps_now s) (conn_of client))).

(** ** The chat rate limiter ([chatx.go]) *)

Definition allowLimit (uid : string) (limit : Z) : H bool :=
  run now <- time_Now;
  λ s,
    let '(b, ok) := take_token (sv_buckets s !! uid) (if limit <=? 0 then env_rate_max E else limit)
                      (env_rate_window E) now in
    (set_buckets <[uid := b]> s, Ok ok).

Definition allow (uid : string) : H bool := allowLimit uid (env_rate_max E).

(** ** The key manager with the server's parameters *)

Definition keys_configured : bool := env_has_store E && bool_decide (is_Some (env_kek E)).
Definition k_EnsureScope (scope : Z) : H (result ChatKeyError (Z * key)) :=
  on_keys (EnsureScope (env_db E) (env_rnd E) (env_Seal E) (env_Open E) (env_has_store E) (env_kek E) scope).
Definition k_rotate (scope : Z) : H (result ChatKeyError (Z * key)) :=
  on_keys (rotate (env_db E) (env_rnd E) (env_Seal E) (env_Open E) (env_has_store E) (env_kek E) scope).
Definition k_sealFor (scope gen : Z) (pub : string) : H (result ChatKeyError ChannelKey) :=
  on_keys (sealFor (env_db E) (env_Open E) (env_Box E) (env_has_store E) (env_kek E) scope gen pub).

End server.
