(* ===== verification/ChatScope.v ===== *)
(** * Who holds a scope key: [src/internal/server/subscriptions.go] and [e2e.go]

    The handlers that subscribe clients to channels, publish and look up public
    keys, and deliver, redeliver and rotate scope keys, over the state manager,
    the permission middleware and the chat key manager. *)

From S2P Require Import Prelude Wire Base64 GoState Permissions PermLoader PermCache StateManager StateInvariant PermCheck ChannelManager ChatKeys ServerWorld.

Definition PermissionKeyChannelSubscribePower : PermissionKey := "i_channel_subscribe_power".
Definition PermissionKeyChannelNeededSubscribePower : PermissionKey := "i_channel_needed_subscribe_power".

Definition maxSubscribeTargets : nat := 64.
Definition maxSubscriptions : nat := 64.
Definition maxKeysPerResponse : nat := 64.

Section handlers.
Context (E : Env).

(** ** Entitlement *)

(** The answer of [subscribeAllowed] when it reads the tables [src]. *)
Definition subscribe_allowed (src : PermSource) (client : Conn) (channelID : Z) : bool :=
  if cn_isAdmin client then true
  else
    let deps := {| dep_perms := Some src; dep_state := None; dep_guest_group := env_guest_group E |} in
    let tp :=
      if cn_userID client =? 0 then
        match guestGroupSet deps with
        | Err _ => None
        | Ok None => Some NewTieredPermissions
        | Ok (Some set) => Some (TieredPermissions_Set NewTieredPermissions TierServerGroup set)
        end
      else
        match LoadForClient (PermSource := src) (cn_userID client) channelID with
        | Err _ => None
        | Ok loaded => Some loaded
        end in
    match tp with
    | None => false
    | Some tp =>
        let pc := {| pc_tp := tp; pc_admin := false; pc_guest := false |} in
        powerAtLeast pc PermissionKeyChannelSubscribePower
          (neededPower pc PermissionKeyChannelNeededSubscribePower)
    end.

Definition subscribeAllowed (client : Conn) (channelID : Z) : H bool := λ s,
  (tick_load s, Ok (subscribe_allowed (env_perms E (sv_loads s)) client channelID)).

Definition scopeReadable (client : Conn) (scope : Z) : H bool :=
  if scope =? globalChatScope then se_ret true
  else
    run st <- get_state;
    match ClientChannelState (cn_ID client) st with
    | None => se_ret false
    | Some (channelID, _) =>
        if channelID =? scope then se_ret true
        else if IsSubscribed (cn_ID client) scope st then subscribeAllowed client scope
        else se_ret false
    end.

(** ** Delivery *)

Definition deliverScopeKey (client : Conn) (scope : Z) : H () :=
  if negb (keys_configured E) then se_ret ()
  else
    run st <- get_state;
    match GetClient (cn_ID client) st with
    | None => se_ret ()
    | Some sc =>
        if String.eqb (cl_E2EPublicKey sc) "" then se_ret ()
        else
          run r <- k_EnsureScope E scope;
          match r with
          | Err e => se_err (HKeys e)
          | Ok (gen, _) =>
              run r <- k_sealFor E scope gen (cl_E2EPublicKey sc);
              match r with
              | Err e => se_err (HKeys e)
              | Ok ck => writeMessage E (cn_ID client) (MChannelKey ck)
              end
          end
    end.

(** ** Subscription sets *)

Definition subscriptionSet (client : Conn) (st : Manager) : list Z :=
  let own := match ClientChannelState (cn_ID client) st with
             | Some (channelID, _) => if channelID =? 0 then [] else [channelID]
             | None => []
             end in
  sort_by Z.le (own ++ filter (λ id, id ∉ own) (Subscriptions (cn_ID client) st)).

Definition sendSubscriptionState (client : Conn) : H () :=
  run st <- get_state;
  writeMessage E (cn_ID client) (MSubscriptionState (subscriptionSet client st)).

(** The loop of [channelSubscribers]: who still may, and who was revoked. *)
Fixpoint sort_subscribers (channelID : Z) (l : list Client) : H (list Conn * list Conn) :=
  match l with
  | [] => se_ret ([], [])
  | sc :: l =>
      if cl_ChannelID sc =? channelID then sort_subscribers channelID l
      else
        run c <- clientByID (cl_ClientID sc);
        match c with
        | None => sort_subscribers channelID l
        | Some client =>
            run ok <- subscribeAllowed client channelID;
            run r <- sort_subscribers channelID l;
            se_ret (if ok : bool then (client :: r.1, r.2) else (r.1, client :: r.2))
        end
  end.

Fixpoint drop_revoked (channelID : Z) (l : list Conn) : H () :=
  match l with
  | [] => se_ret ()
  | c :: l =>
      run _ <- on_state_ (Unsubscribe (cn_ID c) [channelID]);
      run _ <- ignore (sendSubscriptionState c);
      drop_revoked channelID l
  end.

Definition channelSubscribers (channelID : Z) : H (list Conn) :=
  if channelID =? globalChatScope then se_ret []
  else
    run st <- get_state;
    run r <- sort_subscribers channelID (ChannelSubscribers channelID st);
    run _ <- drop_revoked channelID r.2;
    se_ret r.1.

Fixpoint to_each (l : list Conn) (ev : Event) : H () :=
  match l with
  | [] => se_ret ()
  | c :: l => run _ <- BroadcastToClient_ E (cn_ID c) ev; to_each l ev
  end.

Definition broadcastChannelScoped (channelID : Z) (ev : Event) : H () :=
  run _ <- effect_st (λ st, ToChannel st channelID ev);
  run l <- channelSubscribers channelID;
  to_each l ev.

Fixpoint pushSubscriptionStateTo (ids : list string) : H () :=
  match ids with
  | [] => se_ret ()
  | id :: ids =>
      run c <- clientByID id;
      run _ <- match c with Some client => ignore (sendSubscriptionState client) | None => se_ret () end;
      pushSubscriptionStateTo ids
  end.

(** ** Rotation *)

Fixpoint deliver_each (channelID : Z) (l : list Conn) : H () :=
  match l with
  | [] => se_ret ()
  | c :: l => run _ <- ignore (deliverScopeKey c channelID); deliver_each channelID l
  end.

Fixpoint connected (l : list Client) : H (list Conn) :=
  match l with
  | [] => se_ret []
  | m :: l =>
      run c <- clientByID (cl_ClientID m);
      run r <- connected l;
      se_ret (match c with Some client => client :: r | None => r end)
  end.

Definition doRotateScopeKey (channelID : Z) : H () :=
  run r <- k_rotate E channelID;
  match r with
  | Err _ => se_ret ()
  | Ok _ =>
      run st <- get_state;
      run members <- connected (ChannelMembers channelID st);
      run _ <- deliver_each channelID members;
      run l <- channelSubscribers channelID;
      deliver_each channelID l
  end.

Definition rotateScopeKey (channelID : Z) : H () :=
  if (channelID =? 0) || negb (keys_configured E) then se_ret ()
  else if env_rotate_min E <=? 0 then doRotateScopeKey channelID
  else λ s,
    if bool_decide (channelID ∈ sv_rotPending s) then (s, Ok ())
    else (add_effect (RotationArmed channelID) (set_rotPending ({[channelID]} ∪.) s), Ok ()).

(** The callback of the rotation timer. *)
Definition rotationFired (channelID : Z) : H () :=
  run _ <- se_modify (set_rotPending (.∖ {[channelID]}));
  doRotateScopeKey channelID.

(** ** Handlers; a message that did not decode is [None] *)

Definition auto_assign (client : Conn) (channelID : Z) : H () := λ s,
  match env_auto_assign E (length (sv_log s)) with
  | Some groupID =>
      (add_effect (PermsInvalid "channel_group_auto_assign" [cn_UniqueID client])
         (add_effect (Audited "system" "channel_group_auto_assign" (cn_UniqueID client))
            (add_effect (GroupAutoAssigned (cn_userID client) channelID groupID) s)), Ok ())
  | None => (s, Ok ())
  end.

(** What becomes of the requested targets: the accepted ones and the refusals. *)
Fixpoint check_targets (client : Conn) (current : Z) (held : gset Z) (ids : list Z)
  : H (gset Z * list Z * list (Z * string)) :=
  match ids with
  | [] => se_ret (held, [], [])
  | id :: ids =>
      if id =? globalChatScope then
        run r <- check_targets client current held ids;
        se_ret (r.1, (id, "global chat already reaches every client") :: r.2)
      else if id =? current then check_targets client current held ids
      else if bool_decide (id ∈ held) then check_targets client current held ids
      else
        run st <- get_state;
        match GetChannel id st with
        | None =>
            run r <- check_targets client current held ids;
            se_ret (r.1, (id, "no such channel") :: r.2)
        | Some _ =>
            run ok <- subscribeAllowed client id;
            if ok : bool then
              run r <- check_targets client current ({[id]} ∪ held) ids;
              se_ret (r.1.1, id :: r.1.2, r.2)
            else
              run r <- check_targets client current held ids;
              se_ret (r.1, (id, "insufficient power") :: r.2)
        end
  end.

Fixpoint deliver_targets (client : Conn) (ids : list Z) : H (list (Z * string)) :=
  match ids with
  | [] => se_ret []
  | id :: ids =>
      run failed <- (λ s, match deliverScopeKey client id s with
                          | (s', Ok _) => (s', Ok false)
                          | (s', Err _) => (s', Ok true)
                          end);
      if failed : bool then
        run _ <- on_state_ (Unsubscribe (cn_ID client) [id]);
        run r <- deliver_targets client ids;
        se_ret ((id, "key delivery failed") :: r)
      else
        run _ <- (if cn_userID client =? 0 then se_ret () else auto_assign client id);
        deliver_targets client ids
  end.

Definition handleChannelSubscribe (client : Conn) (msg : option (list Z * bool)) : H () :=
  match msg with
  | None => sendErrorFor E client errCodeMalformed "malformed channel_subscribe"
  | Some (ids, subscribe) =>
      if decide (length ids = 0 ∨ maxSubscribeTargets < length ids)%nat then
        sendErrorFor E client errCodeMalformed "channel_ids count must be 1..64"
      else if cn_rulesPending client then
        sendErrorFor E client errCodePermissionDenied
          "accept the server rules before subscribing to channel chat"
      else
        run ok <- allow E (cn_UniqueID client);
        if negb ok then sendErrorFor E client errCodeMalformed "chat rate limit exceeded — slow down"
        else if negb subscribe then
          run _ <- on_state_ (Unsubscribe (cn_ID client) ids);
          sendSubscriptionState client
        else
          run st <- get_state;
          match ClientChannelState (cn_ID client) st with
          | None => sendErrorFor E client errCodeUnavailable "state backend unavailable"
          | Some (currentChannelID, e2ePublicKey) =>
              if negb (keys_configured E) then
                sendErrorFor E client errCodeUnavailable "chat key manager unavailable"
              else if String.eqb e2ePublicKey "" then
                sendErrorFor E client errCodePermissionDenied
                  "publish an encryption key before subscribing"
              else
                run r <- check_targets client currentChannelID
                           (list_to_set (Subscriptions (cn_ID client) st)) ids;
                let '(held, add, refused) := r in
                if decide (maxSubscriptions < size held)%nat then
                  sendErrorFor E client errCodeMalformed "too many subscriptions"
                else
                  run _ <- on_state_ (Subscribe (cn_ID client) add);
                  run more <- deliver_targets client add;
                  run _ <- (if bool_decide (refused ++ more = []) then se_ret ()
                            else ignore (writeMessage E (cn_ID client) (MRefused (refused ++ more))));
                  sendSubscriptionState client
          end
  end.

Definition handleKeyPublish (client : Conn) (msg : option string) : H () :=
  match msg with
  | None => sendErrorFor E client errCodeMalformed "malformed key_publish"
  | Some pub =>
      if negb (match DecodeString pub with Some raw => bool_decide (length raw = 32%nat) | None => false end)
      then sendErrorFor E client errCodeMalformed "invalid public key (want 32-byte base64 X25519)"
      else
        run _ <- on_state_ (SetE2EPublicKey (cn_ID client) pub);
        run _ <- (if negb (cn_userID client =? 0) && env_stores_key E
                  then effect_ (PublicKeyStored (cn_userID client) pub) else se_ret ());
        run _ <- deliverScopeKey client globalChatScope;
        run st <- get_state;
        match GetClient (cn_ID client) st with
        | Some sc => if cl_ChannelID sc =? 0 then se_ret () else deliverScopeKey client (cl_ChannelID sc)
        | None => se_ret ()
        end
  end.

Definition handleKeyRequest `{!∀ V, MapRange string V} (client : Conn) (msg : option string) : H () :=
  match msg with
  | None => sendErrorFor E client errCodeMalformed "malformed key_request"
  | Some uid =>
      if String.eqb uid "" then sendErrorFor E client errCodeMalformed "unique_id is required"
      else
        run ok <- allow E (cn_UniqueID client +:+ ":key");
        if negb ok then sendErrorFor E client errCodeMalformed "key lookup rate limit exceeded — slow down"
        else
          run st <- get_state;
          let pub := match GetClientByUniqueID uid st with Some sc => cl_E2EPublicKey sc | None => "" end in
          let pub := if String.eqb pub "" && env_stores_key E then env_lookup_key E uid else pub in
          writeMessage E (cn_ID client) (MKeyResponse uid pub)
  end.

(** The loop of [handleChatKeyRequest]. *)
Fixpoint seal_each (scope : Z) (pub : string) (ids : list Z) : H (list ChannelKey * list Z) :=
  match ids with
  | [] => se_ret ([], [])
  | id :: ids =>
      run r <- k_sealFor E scope id pub;
      run rest <- seal_each scope pub ids;
      se_ret (match r with
              | Ok ck => (ck :: rest.1, rest.2)
              | Err _ => (rest.1, id :: rest.2)
              end)
  end.

Definition handleChatKeyRequest (client : Conn) (msg : option (Z * list Z)) : H () :=
  match msg with
  | None => sendErrorFor E client errCodeMalformed "malformed chat_key_request"
  | Some (channelID, ids) =>
      if decide (length ids = 0 ∨ maxKeysPerResponse < length ids)%nat then
        sendErrorFor E client errCodeMalformed "key_ids count must be 1..64"
      else
        run ok <- allow E (cn_UniqueID client);
        if negb ok then sendErrorFor E client errCodeMalformed "chat rate limit exceeded — slow down"
        else
          run st <- get_state;
          match GetClient (cn_ID client) st with
          | None => sendErrorFor E client errCodePermissionDenied "e2e public key not published"
          | Some sc =>
              if String.eqb (cl_E2EPublicKey sc) "" then
                sendErrorFor E client errCodePermissionDenied "e2e public key not published"
              else
                run readable <- scopeReadable client channelID;
                if negb readable then writeMessage E (cn_ID client) (MChatKeyBundle channelID [] ids)
                else
                  run r <- seal_each channelID (cl_E2EPublicKey sc) ids;
                  writeMessage E (cn_ID client) (MChatKeyBundle channelID r.1 r.2)
          end
  end.
End handlers.
