(* ===== verification/ClientMoves.v ===== *)
(** * Joining, moving, kicking and leaving: [src/internal/server/handlers.go],
    [admin.go] and [onDisconnect] of [tcp.go]

    The handlers that change which channel a client stands in, with the gates in
    front of them and everything a move entails: the channel manager, the voice
    router, the rotation of the key of the channel that was left and the delivery
    of the key of the channel that was entered. *)

From S2P Require Import Prelude Wire Base64 GoState Permissions PermLoader PermCache StateManager StateInvariant StateTree PermCheck ChannelManager ChatKeys ServerWorld ChatScope.

Definition PermissionKeyChannelJoinIgnorePassword : PermissionKey := "b_channel_join_ignore_password".
Definition PermissionKeyClientKickFromChannelPower : PermissionKey := "i_client_kick_from_channel_power".
Definition PermissionKeyClientNeededKickFromChannelPower : PermissionKey :=
  "i_client_needed_kick_from_channel_power".
Definition PermissionKeyClientKickFromServerPower : PermissionKey := "i_client_kick_from_server_power".
Definition PermissionKeyClientNeededKickFromServerPower : PermissionKey :=
  "i_client_needed_kick_from_server_power".
Definition PermissionKeyClientBanPower : PermissionKey := "i_client_ban_power".
Definition PermissionKeyClientNeededBanPower : PermissionKey := "i_client_needed_ban_power".
Definition PermissionKeyClientMovePower : PermissionKey := "i_client_move_power".
Definition PermissionKeyClientNeededMovePower : PermissionKey := "i_client_needed_move_power".

(** Times are nanoseconds; [None] is the zero time, a ban for ever. *)
Definition banExpiration (now durationSeconds : Z) : option Z :=
  if durationSeconds <=? 0 then None else Some (now + i64 (durationSeconds * second)).

Definition banExpirationMillis (expiresAt : option Z) : Z :=
  match expiresAt with None => 0 | Some t => t / 1000000 end.

Section handlers.
Context (E : Env).
Context `{!∀ V, MapRange Z V}.

(** ** Moves *)

(** What a committed move from [previous] to [channelID] entails. *)
Definition afterMove (clientID : string) (channelID : Z) (movedBy : string) (previous : Z) : H () :=
  let left_ := negb (previous =? 0) && negb (previous =? channelID) in
  run _ <- (if left_ then effect_ (VoiceLeave clientID previous) else se_ret ());
  run _ <- effect_ (VoiceJoin clientID channelID);
  run _ <- (if left_ then rotateScopeKey E previous else se_ret ());
  run c <- clientByID clientID;
  run _ <- match c with
           | Some client =>
               run _ <- ignore (deliverScopeKey E client channelID);
               ignore (sendSubscriptionState E client)
           | None => se_ret ()
           end;
  effect_ (ToAll (EvUserMoved clientID previous channelID movedBy)).

Definition moveClient (clientID : string) (channelID : Z) (movedBy : string) : H () :=
  run r <- on_cm (cm_MoveClient clientID channelID);
  match r with
  | Err e => se_err (HChannels e)
  | Ok previous => afterMove clientID channelID movedBy previous
  end.

Definition checkPowerOver (caller target : Conn) (powerKey neededKey : PermissionKey)
  : H (result string ()) :=
  run callerPC <- permChecker_ E caller;
  match callerPC with
  | Err _ => se_ret (Err "permission backend unavailable")
  | Ok callerPC =>
      run targetPC <- permChecker_ E target;
      match targetPC with
      | Err _ => se_ret (Err "permission backend unavailable")
      | Ok targetPC =>
          if negb (pc_admin callerPC) && pc_admin targetPC then
            se_ret (Err "cannot act on a server admin")
          else if negb (powerAtLeast callerPC powerKey (neededPower targetPC neededKey)) then
            se_ret (Err ("insufficient permission: " +:+ powerKey))
          else se_ret (Ok ())
      end
  end.

(** An error of the move is reported to the caller as a frame. *)
Definition or_report (client : Conn) (m : H ()) : H () := λ s,
  match m s with
  | (s', Ok _) => (s', Ok ())
  | (s', Err _) => sendErrorFor E client errCodeNotFound "not found" s'
  end.

Definition handleJoinChannel (client : Conn) (msg : option (Z * string)) : H () :=
  match msg with
  | None => sendErrorFor E client errCodeMalformed "malformed join_channel"
  | Some (channelID, password) =>
      if cn_rulesPending client then
        sendErrorFor E client errCodePermissionDenied "accept the server rules before joining a channel"
      else
        run st <- get_state;
        match GetChannel channelID st with
        | None => sendErrorFor E client errCodeNotFound "channel not found"
        | Some ch =>
            run pc <- permChecker_ E client;
            match pc with
            | Err _ => sendErrorFor E client errCodeUnavailable "permission backend unavailable"
            | Ok pc =>
                if negb (joinAllowed pc (EffectiveJoinPower (ch_ChannelID ch) st)) then
                  sendErrorFor E client errCodePermissionDenied
                    ("insufficient permission: " +:+ PermissionKeyChannelJoinPower)
                else if negb (String.eqb (ch_PasswordHash ch) "") &&
                        negb (granted_ pc PermissionKeyChannelJoinIgnorePassword) &&
                        negb (env_verify_password E password (ch_PasswordHash ch)) then
                  sendErrorFor E client errCodePermissionDenied "invalid channel password"
                else or_report client (moveClient (cn_ID client) channelID (cn_ID client))
            end
        end
  end.

Definition handleMoveClient (client : Conn) (msg : option (string * Z)) : H () :=
  match msg with
  | None => sendErrorFor E client errCodeMalformed "malformed move_client"
  | Some (targetID, channelID) =>
      run st <- get_state;
      match GetChannel channelID st with
      | None => sendErrorFor E client errCodeNotFound "channel not found"
      | Some _ =>
          run target <- clientByID targetID;
          match target with
          | None => sendErrorFor E client errCodeNotFound "target client not found"
          | Some target =>
              if negb (cn_authed target) then
                sendErrorFor E client errCodeNotFound "target client not found"
              else if cn_rulesPending target then
                sendErrorFor E client errCodePermissionDenied
                  "target must accept the server rules before joining a channel"
              else
                run r <- checkPowerOver client target
                           PermissionKeyClientMovePower PermissionKeyClientNeededMovePower;
                match r with
                | Err m => sendErrorFor E client errCodePermissionDenied m
                | Ok _ => or_report client (moveClient (cn_ID target) channelID (cn_ID client))
                end
          end
      end
  end.

(** The entry point of the query interface, without a permission check. *)
Definition admin_MoveClient (clientID : string) (channelID : Z) : H () :=
  run st <- get_state;
  match GetChannel channelID st with
  | None => se_err (HText "channel not found")
  | Some _ =>
      run c <- clientByID clientID;
      match c with
      | None => se_err (HText "target client not found")
      | Some _ => moveClient clientID channelID "serverquery"
      end
  end.

(** ** Kicks *)

Definition performKick (byClientID targetID : string) (fromServer ban : bool) (reason : string)
    (expiresAt : option Z) : H () :=
  run target <- clientByID targetID;
  match target with
  | None => se_err (HText "target client not found")
  | Some target =>
      if negb (cn_authed target) then se_err (HText "target client not found")
      else
        run st <- get_state;
        match GetClient (cn_ID target) st with
        | None => se_err (HText "target client state not found")
        | Some targetState =>
            let evt ch := EvKicked (cn_ID target) ch byClientID reason fromServer ban
                            (banExpirationMillis expiresAt) in
            if fromServer then
              run _ <- effect_ (TerminalEvent (cn_ID target) (evt (cl_ChannelID targetState)));
              run _ <- effect_ (ToAll (evt (cl_ChannelID targetState)));
              effect_ (ConnClosed (cn_ID target))
            else
              run r <- on_cm (LeaveClient (cn_ID target));
              match r with
              | Err e => se_err (HChannels e)
              | Ok channelID =>
                  run _ <- effect_ (VoiceLeave (cn_ID target) channelID);
                  effect_ (ToAll (evt channelID))
              end
        end
  end.

Definition KickClient (byClientID targetID : string) (fromServer : bool) (reason : string) : H () :=
  run target <- clientByID targetID;
  match target with
  | None => se_err (HText "target client not found")
  | Some target =>
      if negb (cn_authed target) then se_err (HText "target client not found")
      else
        run _ <- performKick byClientID targetID fromServer false reason None;
        effect_ (Audited byClientID "kick" (cn_UniqueID target))
  end.

(** [insertBan]: the row, unless the statement fails. *)
Definition insertBan (uniqueID reason : string) (bannedBy expiresAt : option Z) : H bool := λ s,
  if env_ban_ok E (length (sv_log s))
  then (add_effect (Banned uniqueID reason bannedBy expiresAt) s, Ok true)
  else (s, Ok false).

Definition recordBan (caller target : Conn) (reason : string) (durationSeconds : Z)
  : H (option (option Z)) :=
  run now <- time_Now E;
  let expiresAt := banExpiration now durationSeconds in
  run ok <- insertBan (cn_UniqueID target) reason
              (if cn_userID caller =? 0 then None else Some (cn_userID caller)) expiresAt;
  se_ret (if ok : bool then Some expiresAt else None).

Definition BanClient (byClientID targetID : string) (seconds : Z) (reason : string) : H () :=
  run target <- clientByID targetID;
  match target with
  | None => se_err (HText "target client not found")
  | Some target =>
      if negb (cn_authed target) then se_err (HText "target client not found")
      else
        run now <- time_Now E;
        let expiresAt := banExpiration now seconds in
        run caller <- clientByID byClientID;
        let bannedBy := match caller with
                        | Some c => if cn_userID c =? 0 then None else Some (cn_userID c)
                        | None => None
                        end in
        run ok <- insertBan (cn_UniqueID target) reason bannedBy expiresAt;
        if negb ok then se_err (HText "recording ban")
        else
          run _ <- performKick byClientID targetID true true reason expiresAt;
          effect_ (Audited byClientID "ban" (cn_UniqueID target))
  end.

Record KickMsg := {
  km_ClientID : string;
  km_FromServer : bool;
  km_Ban : bool;
  km_Reason : string;
  km_DurationSeconds : Z;
}.

Definition kick_keys (msg : KickMsg) : PermissionKey * PermissionKey :=
  if km_Ban msg then (PermissionKeyClientBanPower, PermissionKeyClientNeededBanPower)
  else if km_FromServer msg
  then (PermissionKeyClientKickFromServerPower, PermissionKeyClientNeededKickFromServerPower)
  else (PermissionKeyClientKickFromChannelPower, PermissionKeyClientNeededKickFromChannelPower).

Definition handleKickClient (client : Conn) (msg : option KickMsg) : H () :=
  match msg with
  | None => sendErrorFor E client errCodeMalformed "malformed kick_client"
  | Some msg =>
      run target <- clientByID (km_ClientID msg);
      match target with
      | None => sendErrorFor E client errCodeNotFound "target client not found"
      | Some target =>
          if negb (cn_authed target) then sendErrorFor E client errCodeNotFound "target client not found"
          else
            run r <- checkPowerOver client target (kick_keys msg).1 (kick_keys msg).2;
            match r with
            | Err m => sendErrorFor E client errCodePermissionDenied m
            | Ok _ =>
                run recorded <- (if km_Ban msg
                                 then recordBan client target (km_Reason msg) (km_DurationSeconds msg)
                                 else se_ret (Some None));
                match recorded with
                | None => sendErrorFor E client errCodeUnavailable "recording ban failed"
                | Some expiresAt =>
                    λ s,
                      match performKick (cn_ID client) (cn_ID target) (km_FromServer msg || km_Ban msg)
                              (km_Ban msg) (km_Reason msg) expiresAt s with
                      | (s', Err _) => sendErrorFor E client errCodeNotFound "not found" s'
                      | (s', Ok _) =>
                          effect_ (Audited (cn_UniqueID client) (if km_Ban msg then "ban" else "kick")
                                     (cn_UniqueID target)) s'
                      end
                end
            end
      end
  end.

(** ** Disconnects *)

(** What follows the removal of the client from the state. *)
Definition left_server (client : Conn) (removed : result ChanError Client) : H () :=
  let '(channelID, wasInvisible) :=
    match removed with
    | Ok r => (cl_ChannelID r, String.eqb (cl_Status r) "invisible")
    | Err _ => (0, false)
    end in
  let ev := EvUserLeft (cn_ID client) (cn_UniqueID client) (cn_Username client) in
  run _ <- effect_ (Unregistered (cn_ID client));
  run _ <- effect_ (if wasInvisible : bool then ToAdmins ev else ToAll ev);
  run _ <- (if channelID =? 0 then se_ret () else rotateScopeKey E channelID);
  effect_ (VoiceClose (cn_ID client)).

Definition onDisconnect (client : Conn) : H () :=
  if negb (cn_authed client) then se_ret ()
  else
    run removed <- on_cm (cm_RemoveClient (cn_ID client));
    left_server client removed.

End handlers.
