(* ===== verification/ChatScopeSafety.v ===== *)
(** * Keys go to entitled clients only

    A run of a handler changes the log by the frames it writes. [sends] says of a
    program that every sealed scope key among them goes to a client that is, in the
    state the frame was written in, entitled to the scope, that keys are created
    only for existing channels and the global scope, and that the server's maps
    stay consistent. Every operation that touches scope keys satisfies it. *)

From S2P Require Import Prelude Wire Base64 GoState Permissions PermLoader PermCache StateManager StateInvariant StateSpec PermCheck ChannelManager ChatKeys ChatKeysSafety ServerWorld ChatScope.

(** The sealed keys a message carries. *)
Definition keys_in (m : Msg) : list ChannelKey :=
  match m with
  | MChannelKey k => [k]
  | MChatKeyBundle _ ks _ => ks
  | MChatHistory _ _ ks _ _ | MChatPins _ _ ks _ _ => ks
  | MAuthResponse r => ar_ChatKeys r
  | _ => []
  end.

Section safety.
Context (E : Env).
Implicit Types s : Server.

(** A client may hold the keys of the global scope, of the channel it stands in,
    and of the channels it is subscribed to if the permission tables, at some read
    of the run, gave it the subscribe power over them. *)
Definition entitled (conns : gmap string Conn) (st : Manager) (id : string) (sc : Z) : Prop :=
  sc = globalChatScope ∨ w_at (view st) !! id = Some sc ∨
  ((id, sc) ∈ w_subs (view st) ∧
   ∃ conn n, conns !! id = Some conn ∧ subscribe_allowed E (env_perms E n) conn sc = true).

Definition log_ok (conns : gmap string Conn) (l : list effect) : Prop :=
  ∀ st to m k, Wrote st to m ∈ l → k ∈ keys_in m → entitled conns st to (cky_ChannelID k).

Definition known (s : Server) (sc : Z) : Prop := sc = globalChatScope ∨ sc ∈ w_channels (view (sv_state s)).

Record world_ok s : Prop := {
  wo_wf : wf (sv_state s);
  wo_conns id c : sv_clients s !! id = Some c → cn_ID c = id;
}.

(** No channel comes or goes and no client is added. *)
Definition no_new (st st' : Manager) : Prop :=
  w_channels (view st') = w_channels (view st) ∧ dom (w_at (view st')) ⊆ dom (w_at (view st)).

#[export] Instance no_new_preorder : PreOrder no_new.
Proof. split; [done|]. intros st1 st2 st3 [Hc Hd] [Hc' Hd']. split; [congruence|set_solver]. Qed.

(** What a run may do to the server. *)
Record run_ok s s' : Prop := {
  ro_conns : sv_clients s' = sv_clients s;
  ro_state : no_new (sv_state s) (sv_state s');
  ro_log : ∃ l, sv_log s' = sv_log s ++ l ∧ log_ok (sv_clients s) l;
  ro_minted sc g : is_Some (ck_rows (sv_keys s') !! (sc, g)) →
    is_Some (ck_rows (sv_keys s) !! (sc, g)) ∨ known s sc;
}.

#[export] Instance run_ok_preorder : PreOrder run_ok.
Proof.
  split.
  - intros s. split; [done..| |by left]. exists []. split; [by rewrite app_nil_r|]. intros ???? ?%elem_of_nil. done.
  - intros s1 s2 s3 [Hc Hch (l & Hl & Hok) Hm] [Hc' Hch' (l' & Hl' & Hok') Hm']. split.
    + congruence.
    + by etrans.
    + exists (l ++ l'). split; [by rewrite Hl', Hl, (assoc_L (++))|].
      intros st to m k [Hin|Hin]%elem_of_app Hk; [by eapply Hok|]. rewrite <- Hc. by eapply Hok'.
    + intros sc g Hs. apply Hm' in Hs as [Hs|Hs]; [by apply Hm|]. right. unfold known in *. by rewrite <- (proj1 Hch).
Qed.

Definition sends {A} (m : H A) s (Q : A → Server → Prop) : Prop :=
  world_ok s → world_ok (m s).1 ∧ run_ok s (m s).1 ∧ ∀ a, (m s).2 = Ok a → Q a (m s).1.

Lemma sends_ret {A} (a : A) s (Q : A → Server → Prop) : Q a s → sends (se_ret a) s Q.
Proof. intros Ha Hs. simpl. split_and!; [done|reflexivity|]. by intros ? [= <-]. Qed.

Lemma sends_intro {A} (m : H A) s (Q : A → Server → Prop) : (world_ok s → sends m s Q) → sends m s Q.
Proof. intros Hm Hs. by apply Hm. Qed.

Lemma sends_err {A} e s (Q : A → Server → Prop) : sends (se_err e) s Q.
Proof. intros Hs. simpl. split_and!; [done|reflexivity|done]. Qed.

Lemma sends_bind {A B} (m : H A) (k : A → H B) s Q R :
  sends m s Q → (∀ a s1, world_ok s1 → run_ok s s1 → Q a s1 → sends (k a) s1 R) →
  sends (se_bind m k) s R.
Proof.
  intros Hm Hk Hs. destruct (Hm Hs) as (H1 & H2 & H3). unfold se_bind.
  destruct (m s) as [s1 [a|e]]; cbn [fst snd] in *; [|done].
  destruct (Hk a s1 H1 H2 (H3 a eq_refl) H1) as (H4 & H5 & H6). split_and!; [done| |done]. by etrans.
Qed.

Lemma sends_weaken {A} (m : H A) s (Q Q' : A → Server → Prop) :
  (∀ a s', world_ok s' → run_ok s s' → Q a s' → Q' a s') → sends m s Q → sends m s Q'.
Proof. intros HQ Hm Hs. destruct (Hm Hs) as (H1 & H2 & H3). split_and!; eauto. Qed.

Lemma sends_ignore {A} (m : H A) s (Q : Server → Prop) :
  sends m s (λ _ _, True) → Q (m s).1 → sends (ignore m) s (λ _, Q).
Proof. intros Hm HQ Hs. destruct (Hm Hs) as (H1 & H2 & _). unfold ignore. simpl. by split_and!. Qed.

(** A step that leaves the client map, the log and the tables alone. *)
Definition silent s s' : Prop :=
  sv_clients s' = sv_clients s ∧ sv_log s' = sv_log s ∧ sv_cm s' = sv_cm s.

Lemma silent_ok s s' :
  silent s s' → world_ok s →
  (∀ sc g, is_Some (ck_rows (sv_keys s') !! (sc, g)) →
     is_Some (ck_rows (sv_keys s) !! (sc, g)) ∨ known s sc) →
  world_ok s' ∧ run_ok s s'.
Proof.
  intros (Hc & Hl & Hcm) [Hw Ho] Hm. unfold sv_state in *. split.
  - split; unfold sv_state; by rewrite ?Hc, ?Hcm.
  - split; [done|unfold sv_state; by rewrite Hcm| |done]. exists []. rewrite app_nil_r.
    split; [done|]. by intros ???? ?%elem_of_nil.
Qed.

(** An entry of the log. *)
Lemma effect_ok e s :
  (∀ st to m, e = Wrote st to m → ∀ k, k ∈ keys_in m → entitled (sv_clients s) st to (cky_ChannelID k)) →
  world_ok s → world_ok (add_effect e s) ∧ run_ok s (add_effect e s).
Proof.
  intros He [Hw Ho]. split; [done|]. split; [done..| |by left]. exists [e]. split; [done|].
  intros st to m k Hin%list_elem_of_singleton Hk. by eapply He.
Qed.

Lemma sends_write to m s :
  (∀ k, k ∈ keys_in m → entitled (sv_clients s) (sv_state s) to (cky_ChannelID k)) →
  sends (writeMessage E to m) s (λ _ s', sv_cm s' = sv_cm s ∧ sv_keys s' = sv_keys s).
Proof.
  intros Hm Hs. unfold writeMessage. destruct (env_write_ok E _); cbn [fst snd].
  - destruct (effect_ok (Wrote (sv_state s) to m) s) as [H1 H2]; [|done|done].
    by intros ??? [= <- <- <-].
  - by destruct (effect_ok (WriteFailed to) s).
Qed.

Lemma sends_error client code text s : sends (sendErrorFor E client code text) s (λ _ _, True).
Proof. eapply sends_weaken; [|apply sends_write]; [done|]. by intros k ?%elem_of_nil. Qed.

Lemma sends_effect e s :
  (∀ st to m, e ≠ Wrote st to m) → sends (effect_ e) s (λ _ s', sv_cm s' = sv_cm s ∧ sv_keys s' = sv_keys s).
Proof. intros He Hs. destruct (effect_ok e s) as [H1 H2]; [|done|done]. intros st to m ->. by destruct (He st to m). Qed.

Lemma sends_get_state s : sends get_state s (λ st s', s' = s ∧ st = sv_state s).
Proof. intros Hs. simpl. split_and!; [done|reflexivity|]. by intros ? [= <-]. Qed.

Lemma sends_clientByID id s : sends (clientByID id) s (λ c s', s' = s ∧ c = sv_clients s !! id).
Proof. intros Hs. simpl. split_and!; [done|reflexivity|]. by intros ? [= <-]. Qed.

Lemma sends_subscribeAllowed client sc s :
  sends (subscribeAllowed E client sc) s
    (λ ok s', sv_cm s' = sv_cm s ∧ sv_keys s' = sv_keys s ∧
       (ok = true → ∃ n, subscribe_allowed E (env_perms E n) client sc = true)).
Proof.
  intros Hs. unfold subscribeAllowed. cbn [fst snd].
  destruct (silent_ok s (tick_load s)) as [H1 H2]; [done..|by left|]. split_and!; [done..|].
  intros ok [= <-]. split_and!; [done..|]. eauto.
Qed.

(** ** The key manager *)

(** A key operation that creates rows of one scope at most. *)
Definition scope_only {A} (sc : Z) (m : ChatKeys.M A) : Prop :=
  ∀ k sc' g, sc' ≠ sc → ck_rows (m k).1 !! (sc', g) = ck_rows k !! (sc', g).

Lemma sends_keys {A} sc (m : ChatKeys.M A) s :
  scope_only sc m → known s sc →
  sends (on_keys m) s (λ r s', sv_cm s' = sv_cm s ∧ m (sv_keys s) = (sv_keys s', r)).
Proof.
  intros Hm Hk Hs. unfold on_keys. specialize (Hm (sv_keys s)).
  destruct (m (sv_keys s)) as [k r] eqn:Em. cbn [fst snd] in *.
  destruct (silent_ok s (set_keys k s)) as [H1 H2]; [done..| |].
  - intros sc' g. simpl. destruct (decide (sc' = sc)) as [->|]; [by right|]. rewrite Hm by done. by left.
  - split_and!; [done..|]. by intros ? [= <-].
Qed.

Lemma tables_scope_only {A} sc (m : ChatKeys.M A) : preserves same_tables m → scope_only sc m.
Proof. intros Hm k sc' g _. by rewrite (proj1 (Hm k)). Qed.

Definition other_rows (sc : Z) (k k' : CK) : Prop :=
  ∀ sc' g, sc' ≠ sc → ck_rows k' !! (sc', g) = ck_rows k !! (sc', g).

#[export] Instance other_rows_preorder sc : PreOrder (other_rows sc).
Proof. split; [done|]. intros k1 k2 k3 H1 H2 sc' g Hne. by rewrite H2, H1. Qed.

Lemma tables_other {A} sc (m : ChatKeys.M A) : preserves same_tables m → preserves (other_rows sc) m.
Proof. intros Hm k sc' g _. by rewrite (proj1 (Hm k)). Qed.

Lemma db_other {A} sc (op : CK → option (CK * A)) :
  (∀ k k' a, op k = Some (k', a) → other_rows sc k k') → preserves (other_rows sc) (ChatKeys.db_call (env_db E) op).
Proof.
  intros Hop k. unfold ChatKeys.db_call. assert (other_rows sc k (tick_call k)) as Ht by done.
  destruct (env_db E (ck_calls k)); try done; destruct (op (tick_call k)) as [[k' a]|] eqn:Eo; try done;
    cbn [fst]; by etrans; [|eapply Hop].
Qed.

Lemma alloc_other sc : preserves (other_rows sc) (AllocScopeKeyID (env_db E) sc).
Proof.
  apply (preserves_bind (other_rows sc)).
  - apply db_other. by intros k k' a [= <- <-].
  - intros id k. unfold cast_key_id. by destruct (Int64ToUint32 id).
Qed.

Lemma insert_row_other sc id w kid k k' a :
  ChatKeys.insert_row sc id w kid k = Some (k', a) → other_rows sc k k'.
Proof.
  unfold ChatKeys.insert_row. destruct (ck_rows k !! (sc, id)), (live_row sc k); intros ?; simplify_eq.
  intros sc' g Hne. simpl. rewrite lookup_insert_ne; congruence.
Qed.

Lemma insert_other sc id w kid : preserves (other_rows sc) (InsertScopeKey (env_db E) sc id w kid).
Proof. apply db_other. intros ???. apply insert_row_other. Qed.

Lemma rotate_row_other sc id w kid : preserves (other_rows sc) (RotateScopeKey (env_db E) sc id w kid).
Proof.
  apply db_other. intros k k' a Hins. apply insert_row_other in Hins. intros sc' g Hne.
  rewrite Hins by done. simpl. rewrite retire_lookup. destruct (ck_rows k !! (sc', g)); simpl; [|done].
  by rewrite decide_False.
Qed.

Lemma wrap_tables ring key : preserves same_tables (Wrap (env_rnd E) (env_Seal E) ring key).
Proof.
  intros k. unfold Wrap. destruct (kr_keys ring !! kr_newest ring); [|done].
  unfold se_bind, rand_Read. by destruct (env_rnd E (ck_draws k) 24).
Qed.

(** Allocating an id, drawing a key, wrapping and storing it. *)
Lemma fresh_other sc (op : Z → Z * list Z → ChatKeys.M ()) (f : Z → key → scopeEntry) ring :
  (∀ id w, preserves (other_rows sc) (op id w)) →
  preserves (other_rows sc)
    (run id <- AllocScopeKeyID (env_db E) sc;
     run k <- rand_Read (env_rnd E) 32;
     run w <- Wrap (env_rnd E) (env_Seal E) ring k;
     run _ <- op id w;
     run _ <- put_entry sc (f id k);
     se_ret (id, k)).
Proof.
  intros Hop. apply (preserves_bind (other_rows sc)); [apply alloc_other|]. intros id.
  apply (preserves_bind (other_rows sc)); [apply tables_other, rand_tables|]. intros k.
  apply (preserves_bind (other_rows sc)); [apply tables_other, wrap_tables|]. intros w.
  apply (preserves_bind (other_rows sc)); [apply Hop|]. intros _. by intros k'.
Qed.

Lemma with_ring_other {A} sc (f : KEKRing → ChatKeys.M A) :
  (∀ ring, preserves (other_rows sc) (f ring)) →
  preserves (other_rows sc) (with_ring (env_has_store E) (env_kek E) f).
Proof. intros Hf k. unfold with_ring. destruct (env_kek E); [|done]. destruct (env_has_store E); [apply Hf|done]. Qed.

Lemma reporting_other {A} sc op (m : ChatKeys.M A) :
  preserves (other_rows sc) m → preserves (other_rows sc) (reporting op m).
Proof. intros Hm k. specialize (Hm k). unfold reporting. by destruct (m k) as [k' [a|e]]. Qed.

Lemma mint_other sc e :
  preserves (other_rows sc)
    (mintLocked (env_db E) (env_rnd E) (env_Seal E) (env_has_store E) (env_kek E) sc e).
Proof.
  apply with_ring_other. intros ring.
  apply (fresh_other sc (λ id w, InsertScopeKey (env_db E) sc id w.2 w.1) (λ id k, set_current id k e)).
  intros id w. apply insert_other.
Qed.

Lemma load_other sc (k : scopeEntry → ChatKeys.M (Z * key)) :
  (∀ e, preserves (other_rows sc) (k e)) →
  preserves (other_rows sc)
    (run e <- entry sc;
     run e <- loadLocked (env_db E) (env_Open E) (env_has_store E) (env_kek E) sc e; k e).
Proof.
  intros Hk. apply (preserves_bind (other_rows sc)); [apply tables_other, entry_tables|]. intros e.
  apply (preserves_bind (other_rows sc)); [apply tables_other, loadLocked_tables|]. apply Hk.
Qed.

Lemma EnsureScope_scope sc :
  scope_only sc (EnsureScope (env_db E) (env_rnd E) (env_Seal E) (env_Open E) (env_has_store E) (env_kek E) sc).
Proof.
  apply reporting_other, load_other. intros e. destruct (negb (se_curID e =? 0)); [by intros k|apply mint_other].
Qed.

Lemma rotate_scope sc :
  scope_only sc (rotate (env_db E) (env_rnd E) (env_Seal E) (env_Open E) (env_has_store E) (env_kek E) sc).
Proof.
  apply reporting_other, load_other. intros e. destruct (se_curID e =? 0); [apply mint_other|].
  apply with_ring_other. intros ring.
  apply (fresh_other sc (λ id w, RotateScopeKey (env_db E) sc id w.2 w.1)
           (λ id k, set_current id k (cacheOldLocked (se_curID e) (se_curKey e) e))).
  intros id w. apply rotate_row_other.
Qed.

Lemma sealFor_scope sc g pub k k' ck :
  sealFor (env_db E) (env_Open E) (env_Box E) (env_has_store E) (env_kek E) sc g pub k = (k', Ok ck) →
  cky_ChannelID ck = sc ∧ cky_KeyID ck = g.
Proof.
  unfold sealFor, reporting. destruct (DecodeString pub); [|done]. case_decide; [|done].
  unfold se_bind. destruct (at_ _ _ _ _ sc g k) as [k1 [key|e]]; [|done].
  destruct (env_Box E _ _ _); [|done]. by intros [= <- <-].
Qed.

(** ** Delivery *)

Definition same_cm s s' : Prop := sv_cm s' = sv_cm s.

#[export] Instance same_cm_preorder : PreOrder same_cm.
Proof. split; [done|]. intros s1 s2 s3. unfold same_cm. congruence. Qed.

Lemma keys_cm {A} (m : ChatKeys.M A) : preserves same_cm (on_keys m).
Proof. intros s. unfold on_keys. by destruct (m (sv_keys s)). Qed.

Lemma write_cm to m : preserves same_cm (writeMessage E to m).
Proof. intros s. unfold writeMessage. by destruct (env_write_ok E _). Qed.

Lemma deliver_cm client sc : preserves same_cm (deliverScopeKey E client sc).
Proof.
  unfold deliverScopeKey. destruct (negb _); [by intros s|].
  apply (preserves_bind same_cm); [by intros s|]. intros st.
  destruct (GetClient _ st); [|by intros s]. destruct (String.eqb _ _); [by intros s|].
  apply (preserves_bind same_cm); [apply keys_cm|]. intros [[gen key]|e]; [|by intros s].
  apply (preserves_bind same_cm); [apply keys_cm|]. intros [ck|e]; [apply write_cm|by intros s].
Qed.

Lemma entitled_cm conns s s' id sc :
  same_cm s s' → entitled conns (sv_state s) id sc → entitled conns (sv_state s') id sc.
Proof. intros Hcm. unfold sv_state. by rewrite Hcm. Qed.

Lemma known_run s s' sc : run_ok s s' → known s sc → known s' sc.
Proof. intros Hr. unfold known. by rewrite (proj1 (ro_state _ _ Hr)). Qed.

Lemma sends_lookup {A} (m : ChatKeys.M A) s :
  preserves same_tables m →
  sends (on_keys m) s (λ r s', same_cm s s' ∧ m (sv_keys s) = (sv_keys s', r)).
Proof.
  intros Hm Hs. unfold on_keys. specialize (Hm (sv_keys s)).
  destruct (m (sv_keys s)) as [k r] eqn:Em. cbn [fst snd] in *.
  destruct (silent_ok s (set_keys k s)) as [H1 H2]; [done..| |].
  - intros sc' g. simpl. rewrite (proj1 Hm). by left.
  - split_and!; [done..|]. by intros ? [= <-].
Qed.

Lemma sends_sealFor sc g pub s :
  sends (k_sealFor E sc g pub) s
    (λ r s', same_cm s s' ∧ ∀ ck, r = Ok ck → cky_ChannelID ck = sc ∧ cky_KeyID ck = g).
Proof.
  eapply sends_weaken; [|apply sends_lookup, sealFor_tables].
  intros r s' _ _ [Hcm Hr]. split; [done|]. intros ck ->. by apply sealFor_scope in Hr.
Qed.

Lemma deliver_sends client sc s :
  entitled (sv_clients s) (sv_state s) (cn_ID client) sc → known s sc →
  sends (deliverScopeKey E client sc) s (λ _ _, True).
Proof.
  intros He Hk. unfold deliverScopeKey. destruct (negb _); [by apply sends_ret|].
  eapply sends_bind; [apply sends_get_state|]. intros st s1 _ _ [-> ->].
  destruct (GetClient _ _) as [cl|]; [|by apply sends_ret]. destruct (String.eqb _ _); [by apply sends_ret|].
  eapply sends_bind; [apply (sends_keys sc); [apply EnsureScope_scope|done]|].
  intros r s1 _ Hr1 [Hcm1 _]. destruct r as [[gen key]|e]; [|apply sends_err].
  eapply sends_bind; [apply sends_sealFor|].
  intros r s2 _ Hr2 [Hcm2 Hck]. destruct r as [ck|e]; [|apply sends_err].
  destruct (Hck ck eq_refl) as [Hsc _].
  eapply sends_weaken; [|apply sends_write]; [done|]. intros k ->%list_elem_of_singleton. rewrite Hsc.
  rewrite (ro_conns _ _ Hr2), (ro_conns _ _ Hr1).
  apply (entitled_cm _ s1); [done|]. by apply (entitled_cm _ s).
Qed.

Lemma deliver_each_cm sc l : preserves same_cm (deliver_each E sc l).
Proof.
  induction l as [|c l IH]; [by intros s|]. apply (preserves_bind same_cm); [|done].
  intros s. apply deliver_cm.
Qed.

Lemma deliver_each_sends sc l s :
  Forall (λ c, entitled (sv_clients s) (sv_state s) (cn_ID c) sc) l → known s sc →
  sends (deliver_each E sc l) s (λ _ s', same_cm s s').
Proof.
  revert s. induction l as [|c l IH]; intros s Hl Hk; [by apply sends_ret|].
  apply Forall_cons in Hl as [Hc Hl].
  eapply sends_bind; [apply (sends_ignore _ _ (same_cm s)); [by apply deliver_sends|apply deliver_cm]|].
  intros [] s1 _ Hr Hcm. eapply sends_weaken; [|apply IH].
  - intros [] s2 _ _ Hcm2. by etrans.
  - rewrite (ro_conns _ _ Hr). eapply Forall_impl; [done|]. intros c' Hc'. by apply (entitled_cm _ s).
  - by eapply known_run.
Qed.

Lemma connected_sends l s :
  sends (connected l) s (λ r s', s' = s ∧
    ∀ c, c ∈ r → ∃ m, m ∈ l ∧ sv_clients s !! cl_ClientID m = Some c).
Proof.
  induction l as [|m l IH]; [apply sends_ret; split; [done|]; by intros c ?%elem_of_nil|].
  eapply sends_bind; [apply sends_clientByID|]. intros c s1 _ _ [-> ->].
  eapply sends_bind; [apply IH|]. intros r s1 _ _ [-> Hr]. apply sends_ret. split; [done|].
  intros c Hc. destruct (sv_clients s !! cl_ClientID m) as [c'|] eqn:Ec.
  - apply elem_of_cons in Hc as [->|Hc]; [exists m; split; [left|done]|].
    destruct (Hr c Hc) as (m' & Hm & Hc'). exists m'. split; [by right|done].
  - destruct (Hr c Hc) as (m' & Hm & Hc'). exists m'. split; [by right|done].
Qed.

Lemma ChannelMembers_at ch m st :
  wf st → m ∈ ChannelMembers ch st → w_at (view st) !! cl_ClientID m = Some ch.
Proof.
  intros Hw. unfold ChannelMembers. rewrite list_elem_of_omap.
  intros (id & Hid%elem_of_elements & Hm). rewrite GetClient_lookup in Hm.
  apply (wf_member _ (wf_m _ Hw)) in Hid as (_ & c & Hc & Hch). simplify_eq.
  simpl. rewrite (wf_client_key _ (wf_m _ Hw) _ _ Hc), lookup_fmap, Hc. done.
Qed.

Lemma ChannelSubscribers_subs ch m st :
  wf st → m ∈ ChannelSubscribers ch st → (cl_ClientID m, ch) ∈ w_subs (view st).
Proof.
  intros Hw. unfold ChannelSubscribers. rewrite list_elem_of_omap.
  intros (id & Hid%elem_of_elements & Hm). rewrite GetClient_lookup in Hm.
  rewrite (wf_client_key _ (wf_m _ Hw) _ _ Hm). apply elem_of_sub_pairs. by apply (wf_mirror _ (wf_b _ Hw)).
Qed.

Lemma ChannelSubscribers_NoDup ch st : wf st → NoDup (cl_ClientID <$> ChannelSubscribers ch st).
Proof.
  intros Hw. unfold ChannelSubscribers. pose proof (NoDup_elements (fam_get ch (subsByChannel st))) as Hnd.
  induction Hnd as [|id l Hid Hnd IH]; [constructor|]. simpl. rewrite GetClient_lookup.
  destruct (clients st !! id) as [c|] eqn:Hc; [|done]. simpl. constructor; [|done].
  rewrite (wf_client_key _ (wf_m _ Hw) _ _ Hc). intros (c' & He & Hin)%list_elem_of_fmap.
  apply list_elem_of_omap in Hin as (id' & Hin & Hc'). rewrite GetClient_lookup in Hc'.
  rewrite (wf_client_key _ (wf_m _ Hw) _ _ Hc') in He. by subst.
Qed.

(** ** Subscribers *)

Record sorted_from sc (l : list Client) s (r : list Conn * list Conn) : Prop := {
  sf_from c : c ∈ r.1 ++ r.2 → ∃ m, m ∈ l ∧ sv_clients s !! cl_ClientID m = Some c;
  sf_allowed c : c ∈ r.1 → ∃ n, subscribe_allowed E (env_perms E n) c sc = true;
  sf_NoDup : NoDup (cn_ID <$> r.1 ++ r.2);
}.

Lemma sort_subscribers_sends sc l s :
  NoDup (cl_ClientID <$> l) →
  sends (sort_subscribers E sc l) s (λ r s', same_cm s s' ∧ sorted_from sc l s r).
Proof.
  revert s. induction l as [|m l IH]; intros s Hnd.
  { apply sends_ret. split; [done|]. split; simpl; try by intros c ?%elem_of_nil. constructor. }
  apply NoDup_cons in Hnd as [Hm Hnd]. simpl. destruct (cl_ChannelID m =? sc).
  { eapply sends_weaken; [|by apply IH]. intros r s' _ _ [Hcm [Hf Ha Hn]]. split; [done|]. split; [|done..].
    intros c Hc. destruct (Hf c Hc) as (m' & ? & ?). exists m'. split; [by right|done]. }
  eapply sends_bind; [apply sends_clientByID|]. intros c s1 Hw _ [-> ->].
  destruct (sv_clients s !! cl_ClientID m) as [client|] eqn:Ec.
  2:{ eapply sends_weaken; [|by apply IH]. intros r s' _ _ [Hcm [Hf Ha Hn]]. split; [done|]. split; [|done..].
      intros c Hc. destruct (Hf c Hc) as (m' & ? & ?). exists m'. split; [by right|done]. }
  eapply sends_bind; [apply sends_subscribeAllowed|]. intros ok s1 Hw1 Hr1 (Hcm1 & _ & Hok).
  eapply sends_bind; [by apply IH|]. intros r s2 Hw2 Hr2 [Hcm2 [Hf Ha Hn]].
  rewrite (ro_conns _ _ Hr1) in Hf. apply sends_ret.
  assert (cn_ID client ∉ cn_ID <$> r.1 ++ r.2) as Hnew.
  { intros (c & He & Hc)%list_elem_of_fmap. destruct (Hf c Hc) as (m' & Hm' & Hc').
    apply (wo_conns _ Hw) in Ec, Hc'. apply Hm, list_elem_of_fmap. exists m'. split; [congruence|done]. }
  assert (∀ c, c = client ∨ c ∈ r.1 ++ r.2 → ∃ m', m' ∈ m :: l ∧ sv_clients s !! cl_ClientID m' = Some c) as Hall.
  { intros c [->|Hc]; [exists m; split; [left|done]|]. destruct (Hf c Hc) as (m' & ? & ?). exists m'. split; [by right|done]. }
  split; [by etrans|]. destruct ok; split; simpl.
  - intros c [->|Hc]%elem_of_cons; apply Hall; auto.
  - intros c [->|Hc]%elem_of_cons; auto.
  - by constructor.
  - intros c Hc. apply Hall. rewrite elem_of_app, elem_of_cons in Hc. rewrite elem_of_app. tauto.
  - done.
  - rewrite fmap_app, fmap_cons, <- Permutation_middle, <- fmap_app. by constructor.
Qed.

Lemma sends_on_state f s :
  (wf (sv_state s) → wf (f (sv_state s)) ∧ no_new (sv_state s) (f (sv_state s))) →
  sends (on_state_ f) s (λ _ s', sv_state s' = f (sv_state s) ∧ sv_keys s' = sv_keys s).
Proof.
  intros Hf [Hw Ho]. destruct (Hf Hw) as [Hw' Hch]. unfold on_state_, se_modify. cbn [fst snd].
  split_and!; [by split| |done]. split; [done|done| |by left]. exists []. rewrite app_nil_r. split; [done|].
  by intros ???? ?%elem_of_nil.
Qed.

Lemma Unsubscribe_ok id chs st :
  wf st → wf (Unsubscribe id chs st) ∧ no_new st (Unsubscribe id chs st).
Proof. intros Hw. split; [by apply Unsubscribe_wf|]. unfold no_new. by rewrite view_Unsubscribe. Qed.

Lemma sends_state_frame client s : sends (sendSubscriptionState E client) s (λ _ _, True).
Proof.
  eapply sends_bind; [apply sends_get_state|]. intros st s1 _ _ [-> ->].
  eapply sends_weaken; [|apply sends_write]; [done|]. by intros k ?%elem_of_nil.
Qed.

Lemma state_frame_cm client : preserves same_cm (sendSubscriptionState E client).
Proof. apply (preserves_bind same_cm); [by intros s|]. intros st. apply write_cm. Qed.

Lemma drop_revoked_sends sc l s :
  sends (drop_revoked E sc l) s (λ _ s',
    w_at (view (sv_state s')) = w_at (view (sv_state s)) ∧
    ∀ id, id ∉ cn_ID <$> l → (id, sc) ∈ w_subs (view (sv_state s)) → (id, sc) ∈ w_subs (view (sv_state s'))).
Proof.
  revert s. induction l as [|c l IH]; intros s; [by apply sends_ret|]. simpl.
  apply sends_intro. intros Hw. eapply sends_bind; [apply sends_on_state, Unsubscribe_ok|].
  intros [] s1 Hw1 Hr1 [Hst _].
  eapply sends_bind; [apply (sends_ignore _ _ (same_cm s1)); [apply sends_state_frame|apply state_frame_cm]|].
  intros [] s2 Hw2 Hr2 Hcm. eapply sends_weaken; [|apply IH]. intros [] s3 _ _ [Hat Hsub].
  assert (sv_state s2 = Unsubscribe (cn_ID c) [sc] (sv_state s)) as Hst2.
  { rewrite <- Hst. unfold sv_state. by rewrite Hcm. }
  rewrite Hst2, view_Unsubscribe in Hat, Hsub by apply Hw. simpl in Hat, Hsub. split; [done|].
  intros id Hid Hin. apply Hsub; [set_solver|].
  apply elem_of_difference. split; [done|]. rewrite elem_of_union, elem_of_singleton. set_solver.
Qed.

Lemma channelSubscribers_sends sc s :
  sends (channelSubscribers E sc) s (λ r s',
    w_at (view (sv_state s')) = w_at (view (sv_state s)) ∧
    Forall (λ c, entitled (sv_clients s') (sv_state s') (cn_ID c) sc) r).
Proof.
  unfold channelSubscribers. destruct (sc =? globalChatScope); [by apply sends_ret|].
  apply sends_intro. intros Hw. eapply sends_bind; [apply sends_get_state|]. intros st s1 _ _ [-> ->].
  eapply sends_bind; [apply sort_subscribers_sends, ChannelSubscribers_NoDup, Hw|].
  intros r s1 Hw1 Hr1 [Hcm1 [Hf Ha Hn]].
  eapply sends_bind; [apply drop_revoked_sends|]. intros [] s2 Hw2 Hr2 [Hat Hsub]. apply sends_ret.
  assert (sv_state s1 = sv_state s) as Hst by (unfold sv_state; by rewrite Hcm1).
  rewrite Hst in Hat, Hsub. split; [done|]. apply Forall_forall. intros c Hc. right. right.
  destruct (Hf c) as (m & Hm & Hconn); [apply elem_of_app; by left|].
  pose proof (wo_conns _ Hw _ _ Hconn) as Hid. rewrite (ro_conns _ _ Hr2), (ro_conns _ _ Hr1), Hid.
  split.
  - apply Hsub; [|by apply ChannelSubscribers_subs; [apply Hw|]].
    rewrite fmap_app in Hn. apply NoDup_app in Hn as (_ & Hdis & _). rewrite <- Hid. apply Hdis.
    by apply list_elem_of_fmap_2.
  - destruct (Ha c Hc) as [n Hn']. by exists c, n.
Qed.

(** ** Rotation *)

Definition same_places s s' : Prop := w_at (view (sv_state s')) = w_at (view (sv_state s)).

Lemma doRotate_sends sc s : known s sc → sends (doRotateScopeKey E sc) s (λ _ s', same_places s s').
Proof.
  intros Hk. eapply sends_bind; [apply (sends_keys sc); [apply rotate_scope|done]|].
  intros r s1 Hw1 Hr1 [Hcm1 _]. assert (same_places s s1) as Hp1 by (unfold same_places, sv_state; by rewrite Hcm1).
  destruct r as [a|e]; [|by apply sends_ret].
  eapply sends_bind; [apply sends_get_state|]. intros st s1' _ _ [-> ->].
  eapply sends_bind; [apply connected_sends|]. intros l s1' _ _ [-> Hl].
  eapply sends_bind; [apply deliver_each_sends; [|by eapply known_run]|].
  { apply Forall_forall. intros c Hc. destruct (Hl c Hc) as (m & Hm & Hconn). right. left.
    rewrite (wo_conns _ Hw1 _ _ Hconn). apply ChannelMembers_at; [apply Hw1|done]. }
  intros [] s2 Hw2 Hr2 Hcm2.
  eapply sends_bind; [apply channelSubscribers_sends|]. intros r s3 Hw3 Hr3 [Hat3 Hent].
  eapply sends_weaken; [|apply deliver_each_sends; [done|]].
  - intros [] s4 _ _ Hcm4. unfold same_places, sv_state in *. rewrite Hcm4. rewrite Hat3, Hcm2. done.
  - eapply known_run; [done|]. eapply known_run; [done|]. by eapply known_run.
Qed.

Lemma rotate_sends sc s : known s sc → sends (rotateScopeKey E sc) s (λ _ s', same_places s s').
Proof.
  intros Hk. unfold rotateScopeKey. destruct ((sc =? 0) || _); [by apply sends_ret|].
  destruct (env_rotate_min E <=? 0); [by apply doRotate_sends|].
  intros Hs. case_bool_decide; cbn [fst snd]; [split_and!; [done|reflexivity|done]|].
  destruct (silent_ok s (set_rotPending ({[sc]} ∪.) s)) as [H1 H2]; [done..|by left|].
  destruct (effect_ok (RotationArmed sc) (set_rotPending ({[sc]} ∪.) s)) as [H3 H4]; [done..|].
  split_and!; [done|by etrans|done].
Qed.

Lemma rotationFired_sends sc s : known s sc → sends (rotationFired E sc) s (λ _ s', same_places s s').
Proof.
  intros Hk. eapply sends_bind with (Q := λ _ s1, same_cm s s1).
  - intros Hs. unfold se_modify. cbn [fst snd].
    destruct (silent_ok s (set_rotPending (.∖ {[sc]}) s)) as [H1 H2]; [done..|by left|]. by split_and!.
  - intros [] s1 _ Hr Hcm. eapply sends_weaken; [|apply doRotate_sends; by eapply known_run].
    intros [] s2 _ _ Hp. unfold same_places, sv_state in *. by rewrite Hp, Hcm.
Qed.
End safety.
