(* ===== verification/ChatScopeProps.v ===== *)
(** * What the control server promises about scope keys

    Every request that touches channel membership, subscriptions or scope keys,
    as one function [serve], and what its runs guarantee: keys reach entitled
    clients only, a rotation reaches every member that published a key, key
    generations are created for existing channels only. *)

From S2P Require Import Prelude Wire Base64 GoState Permissions PermLoader PermCache StateManager StateInvariant StateSpec StateTree PermCheck ChannelManager ChatKeys ChatKeysSafety ServerWorld ChatScope ChatScopeSafety ClientMoves.

Section specs.
Context (E : Env).
Context `{!∀ V, MapRange Z V, !∀ V, MapRange string V}.
Implicit Types s : Server.

#[local] Abbreviation sends_ := (sends E).

(** The handler's client is in the server's table. *)
Definition registered (client : Conn) s : Prop := sv_clients s !! cn_ID client = Some client.

Lemma registered_run client s s' : run_ok E s s' → registered client s → registered client s'.
Proof. intros Hr. unfold registered. by rewrite (ro_conns _ _ _ Hr). Qed.

Lemma sends_allow uid s : sends_ (allow E uid) s (λ _ s', same_cm s s').
Proof.
  eapply sends_bind with (Q := λ _ s1, same_cm s s1).
  - intros Hs. unfold time_Now. cbn [fst snd].
    destruct (silent_ok E s (tick_read s)) as [Hok Hrun]; [done..|by left|]. by split_and!.
  - intros now s1 _ _ Hcm Hs1. destruct (take_token _ _ _ _) as [b ok]. cbn [fst snd].
    edestruct (silent_ok E s1) as [Hok Hrun]; [|exact Hs1| |split_and!; [exact Hok|exact Hrun|by intros ? _]];
      [done|by left].
Qed.

Lemma scopeReadable_sends client sc s :
  registered client s →
  sends_ (scopeReadable E client sc) s
    (λ ok s', same_cm s s' ∧ (ok = true → entitled E (sv_clients s) (sv_state s) (cn_ID client) sc)).
Proof.
  intros Hreg. unfold scopeReadable.
  destruct (Z.eqb_spec sc globalChatScope) as [->|Hne]; [apply sends_ret; split; [done|by left]|].
  eapply sends_bind; [apply sends_get_state|]. intros st s1 _ _ [-> ->].
  unfold ClientChannelState. destruct (clients (sv_state s) !! cn_ID client) as [cl|] eqn:Hcl; simpl; [|by apply sends_ret].
  destruct (Z.eqb_spec (cl_ChannelID cl) sc) as [Heq|Hneq].
  - apply sends_ret. split; [done|]. intros _. right. left. simpl. rewrite lookup_fmap, Hcl. simpl. by rewrite Heq.
  - destruct (IsSubscribed (cn_ID client) sc (sv_state s)) eqn:Hsub; [|by apply sends_ret].
    eapply sends_weaken; [|apply sends_subscribeAllowed]. intros ok s2 _ _ (Hcm & _ & Hok).
    split; [done|]. intros Ht. right. right. split; [|destruct (Hok Ht) as [n Hn]; by exists client, n].
    apply elem_of_sub_pairs. unfold IsSubscribed in Hsub. by case_bool_decide.
Qed.

Lemma seal_each_sends sc pub ids s :
  sends_ (seal_each E sc pub ids) s (λ r s', same_cm s s' ∧ Forall (λ k, cky_ChannelID k = sc) r.1).
Proof.
  revert s. induction ids as [|id ids IH]; intros s; [apply sends_ret; split; [done|constructor]|].
  eapply sends_bind; [apply sends_sealFor|]. intros r s1 _ _ [Hcm1 Hck].
  eapply sends_bind; [apply IH|]. intros rest s2 _ _ [Hcm2 Hrest]. apply sends_ret.
  split; [by etrans|]. destruct r as [ck|e]; simpl; [|done]. constructor; [by apply Hck|done].
Qed.

Lemma handleChatKeyRequest_sends client msg s :
  registered client s → sends_ (handleChatKeyRequest E client msg) s (λ _ _, True).
Proof.
  intros Hreg. unfold handleChatKeyRequest. destruct msg as [[sc ids]|]; [|apply sends_error].
  case_decide; [apply sends_error|].
  eapply sends_bind; [apply sends_allow|]. intros ok s1 _ Hr1 Hcm1. destruct (negb ok); [apply sends_error|].
  eapply sends_bind; [apply sends_get_state|]. intros st s1' _ _ [-> ->].
  destruct (GetClient _ _) as [cl|]; [|apply sends_error]. destruct (String.eqb _ _); [apply sends_error|].
  eapply sends_bind; [apply scopeReadable_sends; by eapply registered_run|].
  intros readable s2 _ Hr2 [Hcm2 Hent]. destruct readable; simpl.
  - eapply sends_bind; [apply seal_each_sends|]. intros r s3 _ Hr3 [Hcm3 Hks].
    eapply sends_weaken; [|apply sends_write]; [done|]. simpl. intros k Hk.
    rewrite Forall_forall in Hks. rewrite (Hks k Hk), (ro_conns _ _ _ Hr3), (ro_conns _ _ _ Hr2).
    apply (entitled_cm E _ s2); [done|]. apply (entitled_cm E _ s1); [done|]. by apply Hent.
  - eapply sends_weaken; [|apply sends_write]; [done|]. by intros k ?%elem_of_nil.
Qed.

Lemma handleKeyRequest_sends client msg s : sends_ (handleKeyRequest E client msg) s (λ _ _, True).
Proof.
  unfold handleKeyRequest. destruct msg as [uid|]; [|apply sends_error].
  destruct (String.eqb uid ""); [apply sends_error|].
  eapply sends_bind; [apply sends_allow|]. intros ok s1 _ _ _. destruct (negb ok); [apply sends_error|].
  eapply sends_bind; [apply sends_get_state|]. intros st s1' _ _ [-> ->]. cbv zeta.
  eapply sends_weaken; [|apply sends_write]; [done|]. by intros k ?%elem_of_nil.
Qed.

(** The channel a client stands in exists. *)
Lemma place_known s id sc :
  world_ok s → w_at (view (sv_state s)) !! id = Some sc → known s sc.
Proof.
  intros [Hw _]. simpl. rewrite lookup_fmap. intros (c & Hc & ->)%fmap_Some. unfold known.
  destruct (decide (cl_ChannelID c = 0)) as [->|Hne]; [by left|right].
  destruct (wf_member_is_channel _ _ _ (wf_m _ Hw) Hc Hne) as [_ Hch]. by apply elem_of_dom.
Qed.

Lemma deliver_member_sends client sc s :
  w_at (view (sv_state s)) !! cn_ID client = Some sc → sends_ (deliverScopeKey E client sc) s (λ _ _, True).
Proof.
  intros Hat. apply sends_intro. intros Hw.
  apply deliver_sends; [right; by left|by eapply place_known].
Qed.

Lemma handleKeyPublish_sends client msg s : sends_ (handleKeyPublish E client msg) s (λ _ _, True).
Proof.
  unfold handleKeyPublish. destruct msg as [pub|]; [|apply sends_error].
  destruct (negb _); [apply sends_error|].
  eapply sends_bind; [apply sends_on_state|].
  { intros Hw. split; [by apply wf_alter_client|]. unfold SetE2EPublicKey, no_new. by rewrite view_alter_client. }
  intros [] s1 _ _ _. eapply sends_bind with (Q := λ _ s2, True).
  { destruct (negb _ && _); [|by apply sends_ret]. by eapply sends_weaken; [|by apply sends_effect]. }
  intros [] s2 _ _ _. eapply sends_bind; [apply deliver_sends; by left|]. intros [] s3 _ _ _.
  eapply sends_bind; [apply sends_get_state|]. intros st s3' _ _ [-> ->]. rewrite GetClient_lookup.
  destruct (clients (sv_state s3) !! cn_ID client) as [cl|] eqn:Hcl; [|by apply sends_ret].
  destruct (cl_ChannelID cl =? 0); [by apply sends_ret|]. apply deliver_member_sends.
  simpl. by rewrite lookup_fmap, Hcl.
Qed.

(** ** Subscribing *)

Record targets_ok (client : Conn) (held : gset Z) s (add : list Z) : Prop := {
  to_NoDup : NoDup add;
  to_new id : id ∈ add → id ∉ held;
  to_known id : id ∈ add → id ∈ w_channels (view (sv_state s));
  to_allowed id : id ∈ add → ∃ n, subscribe_allowed E (env_perms E n) client id = true;
}.

Lemma check_targets_sends client cur held ids s :
  sends_ (check_targets E client cur held ids) s (λ r s', same_cm s s' ∧ targets_ok client held s r.1.2).
Proof.
  revert held s. induction ids as [|id ids IH]; intros held s.
  { apply sends_ret. split; [done|]. split; simpl; [constructor|by intros ? ?%elem_of_nil..]. }
  assert (∀ m, sends_ (run r <- check_targets E client cur held ids; se_ret (r.1, (id, m) :: r.2)) s
    (λ r s', same_cm s s' ∧ targets_ok client held s r.1.2)) as Hrefuse.
  { intros m. eapply sends_bind; [apply IH|]. intros r s1 _ _ Hr. by apply sends_ret. }
  simpl. destruct (id =? globalChatScope); [apply Hrefuse|]. destruct (id =? cur); [apply IH|].
  case_bool_decide as Hheld; [apply IH|].
  eapply sends_bind; [apply sends_get_state|]. intros st s' _ _ [-> ->].
  destruct (GetChannel id (sv_state s)) as [ch|] eqn:Hch; [|apply Hrefuse].
  eapply sends_bind; [apply sends_subscribeAllowed|]. intros ok s1 _ Hr1 (Hcm1 & _ & Hok).
  assert (sv_state s1 = sv_state s) as Hst by (unfold sv_state; by rewrite Hcm1).
  destruct ok.
  - eapply sends_bind; [apply IH|]. intros r s2 _ _ [Hcm2 [Hn Hnew Hkn Hal]]. apply sends_ret.
    split; [by etrans|]. rewrite Hst in Hkn. split; simpl.
    + constructor; [|done]. intros Hin. apply Hnew in Hin. set_solver.
    + intros id' [->|Hin]%elem_of_cons; [done|]. apply Hnew in Hin. set_solver.
    + intros id' [->|Hin]%elem_of_cons; [|by apply Hkn]. apply elem_of_dom.
      unfold GetChannel in Hch. destruct (channels (sv_state s) !! id); [by eexists|done].
    + intros id' [->|Hin]%elem_of_cons; [by apply Hok|by apply Hal].
  - eapply sends_bind; [apply IH|]. intros r s2 _ _ [Hcm2 [Hn Hnew Hkn Hal]]. apply sends_ret.
    split; [by etrans|]. rewrite Hst in Hkn. by split.
Qed.

Lemma sends_try {A} (m : H A) s (Q : Server → Prop) :
  sends_ m s (λ _ _, True) → Q (m s).1 →
  sends_ (λ s, match m s with (s', Ok _) => (s', Ok false) | (s', Err _) => (s', Ok true) end) s (λ _, Q).
Proof. intros Hm HQ Hs. destruct (Hm Hs) as (Ha & Hb & _). by destruct (m s) as [s' [a|e]]. Qed.

Definition may_hold (client : Conn) s (id : Z) : Prop :=
  (cn_ID client, id) ∈ w_subs (view (sv_state s)) ∧ id ∈ w_channels (view (sv_state s)) ∧
  ∃ n, subscribe_allowed E (env_perms E n) client id = true.

Lemma may_hold_entitled client s id :
  registered client s → may_hold client s id → entitled E (sv_clients s) (sv_state s) (cn_ID client) id.
Proof. intros Hreg (Hsub & _ & n & Hn). right. right. split; [done|]. by exists client, n. Qed.

Lemma sends_auto_assign client id s : sends_ (auto_assign E client id) s (λ _ s', same_cm s s').
Proof.
  intros Hs. unfold auto_assign. destruct (env_auto_assign E _) as [g|]; cbn [fst snd]; [|split_and!; [done|reflexivity|done]].
  destruct (effect_ok E (GroupAutoAssigned (cn_userID client) id g) s) as [Ha Hb]; [done..|].
  edestruct (effect_ok E (Audited "system" "channel_group_auto_assign" (cn_UniqueID client))) as [Hc Hd];
    [|exact Ha|]; [done|].
  edestruct (effect_ok E (PermsInvalid "channel_group_auto_assign" [cn_UniqueID client])) as [He Hf];
    [|exact Hc|]; [done|]. split_and!; [exact He| |done]. etrans; [done|]. by etrans.
Qed.

Lemma deliver_targets_sends client ids s :
  registered client s → NoDup ids → Forall (may_hold client s) ids →
  sends_ (deliver_targets E client ids) s (λ _ _, True).
Proof.
  revert s. induction ids as [|id ids IH]; intros s Hreg Hnd Hall; [by apply sends_ret|].
  apply NoDup_cons in Hnd as [Hid Hnd]. apply Forall_cons in Hall as [Hone Hall]. simpl.
  eapply sends_bind; [apply (sends_try _ _ (same_cm s)); [apply deliver_sends|apply deliver_cm]|].
  { by apply may_hold_entitled. }
  { right. apply Hone. }
  intros failed s1 Hw1 Hr1 Hcm1. pose proof (registered_run _ _ _ Hr1 Hreg) as Hreg1.
  assert (sv_state s1 = sv_state s) as Hst1 by (unfold sv_state; by rewrite Hcm1).
  destruct failed.
  - eapply sends_bind; [apply sends_on_state, Unsubscribe_ok|]. intros [] s2 _ Hr2 [Hst2 _].
    eapply sends_bind; [apply IH; [by eapply registered_run|done|]|].
    { apply Forall_forall. intros i Hi. rewrite Forall_forall in Hall. destruct (Hall i Hi) as (Hsub & Hch & Hal).
      unfold may_hold. rewrite Hst2, Hst1, view_Unsubscribe by (rewrite <- Hst1; apply Hw1). simpl.
      split_and!; [|done..]. apply elem_of_difference. split; [done|]. set_solver. }
    intros r s3 _ _ _. by apply sends_ret.
  - eapply sends_bind with (Q := λ _ s2, same_cm s1 s2).
    { destruct (cn_userID client =? 0); [by apply sends_ret|apply sends_auto_assign]. }
    intros [] s2 _ Hr2 Hcm2. apply IH; [by eapply registered_run|done|].
    eapply Forall_impl; [done|]. intros i. unfold may_hold, sv_state. by rewrite Hcm2, Hcm1.
Qed.

Lemma Subscribe_ok id chs st :
  wf st → wf (Subscribe id chs st) ∧ no_new st (Subscribe id chs st).
Proof. intros Hw. split; [by apply Subscribe_wf|]. unfold no_new. rewrite view_Subscribe by done. simpl. by case_decide. Qed.

Lemma handleChannelSubscribe_sends client msg s :
  registered client s → sends_ (handleChannelSubscribe E client msg) s (λ _ _, True).
Proof.
  intros Hreg. unfold handleChannelSubscribe. destruct msg as [[ids sub]|]; [|apply sends_error].
  case_decide; [apply sends_error|]. destruct (cn_rulesPending client); [apply sends_error|].
  eapply sends_bind; [apply sends_allow|]. intros ok s1 Hw1 Hr1 Hcm1.
  destruct (negb ok); [apply sends_error|]. destruct (negb sub).
  { eapply sends_bind; [apply sends_on_state, Unsubscribe_ok|]. intros [] s2 _ _ _. apply sends_state_frame. }
  eapply sends_bind; [apply sends_get_state|]. intros st s1' _ _ [-> ->].
  unfold ClientChannelState. destruct (clients (sv_state s1) !! cn_ID client) as [cl|] eqn:Hcl; simpl; [|apply sends_error].
  destruct (negb (keys_configured E)); [apply sends_error|]. destruct (String.eqb _ _); [apply sends_error|].
  eapply sends_bind; [apply check_targets_sends|]. intros [[held add] refused] s2 _ Hr2 [Hcm2 [Hnd Hnew Hkn Hal]].
  cbn [fst snd] in *. case_decide; [apply sends_error|].
  eapply sends_bind; [apply sends_on_state, Subscribe_ok|]. intros [] s3 _ Hr3 [Hst3 _].
  assert (sv_state s2 = sv_state s1) as Hst2 by (unfold sv_state; by rewrite Hcm2).
  eapply sends_bind; [apply deliver_targets_sends; [|done|]|].
  - eapply registered_run; [done|]. eapply registered_run; [done|]. by eapply registered_run.
  - apply Forall_forall. intros id Hid. unfold may_hold. rewrite Hst3, Hst2, view_Subscribe by apply Hw1.
    simpl. rewrite decide_True by (rewrite dom_fmap; apply elem_of_dom; eauto). simpl.
    split_and!; [|by apply Hkn|by apply Hal]. apply elem_of_union_r, elem_of_list_to_set, list_elem_of_fmap.
    exists id. split; [done|]. apply list_elem_of_filter. split; [by apply Hkn|done].
  - intros more s4 _ _ _. eapply sends_bind with (Q := λ _ _, True); [|intros [] s5 _ _ _; apply sends_state_frame].
    case_bool_decide; [by apply sends_ret|]. apply (sends_ignore _ _ _ (λ _, True)); [|done].
    eapply sends_weaken; [|apply sends_write]; [done|]. by intros k ?%elem_of_nil.
Qed.

(** ** Moves *)

Lemma cm_state_reconcile id c : cm_state (reconcileCleanupWatcherLocked id c) = cm_state c.
Proof.
  unfold reconcileCleanupWatcherLocked, cancelCleanupLocked. destruct (cleanable _ _); [done|].
  by destruct (cm_timers c !! id).
Qed.

Lemma cm_state_cancel id c : cm_state (cancelCleanupLocked id c) = cm_state c.
Proof. unfold cancelCleanupLocked. by destruct (cm_timers c !! id). Qed.

Lemma cm_MoveClient_state cid tgt c :
  let r := cm_MoveClient cid tgt c in
  cm_state r.1 = (MoveClient cid tgt (cm_state c)).1 ∧
  ∀ prev, r.2 = Ok prev → is_ok (MoveClient cid tgt (cm_state c)).2 = true ∧
    ∃ cl, clients (cm_state c) !! cid = Some cl ∧ prev = cl_ChannelID cl.
Proof.
  unfold cm_MoveClient, mbind_, mget, ClientChannelState, on_state.
  destruct (clients (cm_state c) !! cid) as [cl|] eqn:Hcl; simpl.
  2:{ unfold MoveClient. by rewrite Hcl. }
  destruct (MoveClient cid tgt (cm_state c)) as [st [[]|e]]; simpl; [|done].
  destruct (negb _ && negb _); simpl; rewrite ?cm_state_reconcile, cm_state_cancel; simpl;
    (split; [done|]); intros prev [= <-]; eauto.
Qed.

Lemma cm_MoveClient_spec cid tgt c :
  wf (cm_state c) →
  let r := cm_MoveClient cid tgt c in
  wf (cm_state r.1) ∧ no_new (cm_state c) (cm_state r.1) ∧
  ∀ prev, r.2 = Ok prev →
    w_at (view (cm_state r.1)) !! cid = Some tgt ∧ w_at (view (cm_state c)) !! cid = Some prev.
Proof.
  intros Hw. destruct (cm_MoveClient_state cid tgt c) as [Hst Hok]. cbv zeta.
  pose proof (view_MoveClient cid tgt _ Hw) as Hv. unfold no_new. rewrite Hst, Hv.
  split_and!; [by apply MoveClient_wf| | |].
  - cbn [spec_run]. destruct (w_at (view (cm_state c)) !! cid); [|done]. by case_decide.
  - cbn [spec_run]. destruct (w_at (view (cm_state c)) !! cid) eqn:Hat; [|done]. case_decide; [done|]. cbn [w_at].
    by rewrite dom_insert_lookup by eauto.
  - intros prev (Hmv & cl & Hcl & ->)%Hok. cbn [spec_run].
    assert (w_at (view (cm_state c)) !! cid = Some (cl_ChannelID cl)) as Hat by (simpl; by rewrite lookup_fmap, Hcl).
    rewrite Hat. split; [|done]. case_decide as Hd; [|simpl; apply lookup_insert_eq].
    destruct Hd as [Hd|Hd]; [|by rewrite Hat, Hd]. exfalso. unfold MoveClient in Hmv. rewrite Hcl in Hmv.
    simpl in Hd. apply not_elem_of_dom in Hd. by rewrite Hd in Hmv.
Qed.

Lemma sends_cm {A} (m : ChannelManager.M A) s :
  (wf (sv_state s) → wf (cm_state (m (sv_cm s)).1) ∧ no_new (sv_state s) (cm_state (m (sv_cm s)).1)) →
  sends_ (on_cm m) s (λ r s', m (sv_cm s) = (sv_cm s', r) ∧ sv_keys s' = sv_keys s).
Proof.
  intros Hm [Hw Ho]. destruct (Hm Hw) as [Hw' Hch]. unfold on_cm. unfold sv_state in *.
  destruct (m (sv_cm s)) as [c r] eqn:Em. cbn [fst snd] in *.
  split_and!; [by split| |by intros ? [= <-]].
  split; [done|done| |by left]. exists []. rewrite app_nil_r. split; [done|]. by intros ???? ?%elem_of_nil.
Qed.

Lemma sends_quiet e s : (∀ st to m, e ≠ Wrote st to m) → sends_ (effect_ e) s (λ _ s', same_cm s s').
Proof. intros He. eapply sends_weaken; [|by apply sends_effect]. by intros ? ? _ _ [? _]. Qed.

Lemma same_cm_places s s' : same_cm s s' → same_places s s'.
Proof. unfold same_cm, same_places, sv_state. by intros ->. Qed.

Lemma afterMove_sends cid ch by_ prev s :
  w_at (view (sv_state s)) !! cid = Some ch → known s prev →
  sends_ (afterMove E cid ch by_ prev) s (λ _ _, True).
Proof.
  intros Hat Hk. unfold afterMove. set (b := negb _ && negb _).
  eapply sends_bind with (Q := λ _ s1, same_cm s s1).
  { destruct b; [by apply sends_quiet|by apply sends_ret]. }
  intros [] s1 _ Hr1 Hc1. eapply sends_bind; [by apply sends_quiet|]. intros [] s2 _ Hr2 Hc2.
  eapply sends_bind with (Q := λ _ s3, same_places s2 s3).
  { destruct b; [|by apply sends_ret]. apply rotate_sends. by do 2 (eapply known_run; [done|]). }
  intros [] s3 Hw3 Hr3 Hp3.
  assert (w_at (view (sv_state s3)) !! cid = Some ch) as Hat3.
  { rewrite Hp3, (same_cm_places s1 s2 Hc2), (same_cm_places s s1 Hc1). done. }
  eapply sends_bind; [apply sends_clientByID|]. intros c s3' _ _ [-> ->].
  eapply sends_bind with (Q := λ _ _, True); [|intros [] s4 _ _ _; by eapply sends_weaken; [|by apply sends_quiet]].
  destruct (sv_clients s3 !! cid) as [client|] eqn:Hc; [|by apply sends_ret].
  eapply sends_bind with (Q := λ _ _, True).
  { apply (sends_ignore _ _ _ (λ _, True)); [|done]. apply deliver_member_sends.
    by rewrite (wo_conns _ Hw3 _ _ Hc). }
  intros [] s4 _ _ _. apply (sends_ignore _ _ _ (λ _, True)); [apply sends_state_frame|done].
Qed.

Lemma moveClient_sends cid ch by_ s : sends_ (moveClient E cid ch by_) s (λ _ _, True).
Proof.
  apply sends_intro. intros Hw. eapply sends_bind; [apply sends_cm|].
  { intros Hw0. by destruct (cm_MoveClient_spec cid ch (sv_cm s) Hw0) as (Ha & Hb & _). }
  intros r s1 Hw1 Hr1 [Hmv _]. destruct r as [prev|e]; [|apply sends_err].
  destruct (cm_MoveClient_spec cid ch (sv_cm s) (wo_wf _ Hw)) as (_ & _ & Hok). rewrite Hmv in Hok.
  destruct (Hok prev eq_refl) as [Hnew Hold]. apply afterMove_sends; [done|].
  eapply known_run; [done|]. by eapply place_known.
Qed.

Lemma or_report_sends client m s :
  sends_ m s (λ _ _, True) → sends_ (or_report E client m) s (λ _ _, True).
Proof.
  intros Hm Hs. destruct (Hm Hs) as (Ha & Hb & _). unfold or_report.
  destruct (m s) as [s1 [a|e]]; cbn [fst snd] in *; [done|].
  destruct (sends_error E client errCodeNotFound "not found" s1 Ha) as (Hc & Hd & _). split_and!; [done|by etrans|done].
Qed.

Lemma sends_permChecker client s : sends_ (permChecker_ E client) s (λ _ s', same_cm s s').
Proof.
  intros Hs. unfold permChecker_. cbn [fst snd].
  destruct (silent_ok E s (tick_load s)) as [Ha Hb]; [done..|by left|]. by split_and!.
Qed.

Lemma checkPowerOver_sends caller target pk nk s :
  sends_ (checkPowerOver E caller target pk nk) s (λ _ s', same_cm s s').
Proof.
  eapply sends_bind; [apply sends_permChecker|]. intros r s1 _ _ Hc1. destruct r as [pc|e]; [|by apply sends_ret].
  eapply sends_bind; [apply sends_permChecker|]. intros r s2 _ _ Hc2.
  assert (same_cm s s2) as Hc by by etrans.
  destruct r as [pc'|e]; [|by apply sends_ret].
  destruct (negb _ && _); [by apply sends_ret|]. by destruct (negb _); apply sends_ret.
Qed.

Lemma handleJoinChannel_sends client msg s : sends_ (handleJoinChannel E client msg) s (λ _ _, True).
Proof.
  unfold handleJoinChannel. destruct msg as [[ch pw]|]; [|apply sends_error].
  destruct (cn_rulesPending client); [apply sends_error|].
  eapply sends_bind; [apply sends_get_state|]. intros st s1 _ _ [-> ->].
  destruct (GetChannel ch _); [|apply sends_error].
  eapply sends_bind; [apply sends_permChecker|]. intros pc s2 _ _ _. destruct pc; [|apply sends_error].
  destruct (negb _); [apply sends_error|]. destruct (_ && _); [apply sends_error|].
  apply or_report_sends, moveClient_sends.
Qed.

Lemma handleMoveClient_sends client msg s : sends_ (handleMoveClient E client msg) s (λ _ _, True).
Proof.
  unfold handleMoveClient. destruct msg as [[tid ch]|]; [|apply sends_error].
  eapply sends_bind; [apply sends_get_state|]. intros st s1 _ _ [-> ->].
  destruct (GetChannel ch _); [|apply sends_error].
  eapply sends_bind; [apply sends_clientByID|]. intros target s2 _ _ _.
  destruct target as [target|]; [|apply sends_error].
  destruct (negb _); [apply sends_error|]. destruct (cn_rulesPending target); [apply sends_error|].
  eapply sends_bind; [apply checkPowerOver_sends|]. intros r s3 _ _ _. destruct r; [|apply sends_error].
  apply or_report_sends, moveClient_sends.
Qed.

Lemma sends_note e s : (∀ st to m, e ≠ Wrote st to m) → sends_ (effect_ e) s (λ _ _, True).
Proof. intros He. by eapply sends_weaken; [|by apply sends_quiet]. Qed.

Lemma LeaveClient_spec cid c :
  wf (cm_state c) →
  wf (cm_state (LeaveClient cid c).1) ∧ no_new (cm_state c) (cm_state (LeaveClient cid c).1).
Proof.
  intros Hw. pose proof (LeaveChannel_wf cid _ Hw) as Hw'. pose proof (view_LeaveChannel cid _ Hw) as Hv.
  assert (no_new (cm_state c) (LeaveChannel cid (cm_state c)).1) as Hch.
  { unfold no_new. rewrite Hv. cbn [spec_run]. destruct (w_at (view (cm_state c)) !! cid) eqn:Hat; [|done].
    case_decide; [done|]. cbn [w_at w_channels]. by rewrite dom_insert_lookup by eauto. }
  unfold LeaveClient, mbind_, mget, ClientChannelState, on_state.
  destruct (clients (cm_state c) !! cid) as [cl|]; simpl; [|done].
  destruct (cl_ChannelID cl =? 0); simpl; [done|].
  destruct (LeaveChannel cid (cm_state c)) as [st [[]|e]]; simpl in *; [|done].
  by rewrite cm_state_reconcile.
Qed.

Lemma performKick_sends by_ id fs ban reason exp s : sends_ (performKick by_ id fs ban reason exp) s (λ _ _, True).
Proof.
  unfold performKick. eapply sends_bind; [apply sends_clientByID|]. intros target s1 _ _ _.
  destruct target as [target|]; [|apply sends_err]. destruct (negb _); [apply sends_err|].
  eapply sends_bind; [apply sends_get_state|]. intros st s2 _ _ [-> ->].
  destruct (GetClient _ _); [|apply sends_err]. cbv zeta. destruct fs.
  - eapply sends_bind; [by apply sends_note|]. intros [] s3 _ _ _.
    eapply sends_bind; [by apply sends_note|]. intros [] s4 _ _ _. by apply sends_note.
  - eapply sends_bind; [apply sends_cm, LeaveClient_spec|]. intros r s3 _ _ _. destruct r; [|apply sends_err].
    eapply sends_bind; [by apply sends_note|]. intros [] s4 _ _ _. by apply sends_note.
Qed.

Lemma recordBan_sends caller target reason d s : sends_ (recordBan E caller target reason d) s (λ _ _, True).
Proof.
  eapply sends_bind with (Q := λ _ _, True).
  { intros Hs. unfold time_Now. cbn [fst snd].
    destruct (silent_ok E s (tick_read s)) as [Ha Hb]; [done..|by left|]. by split_and!. }
  intros now s1 _ _ _. cbv zeta. eapply sends_bind with (Q := λ _ _, True); [|intros; by apply sends_ret].
  intros Hs. unfold insertBan. destruct (env_ban_ok E _); cbn [fst snd]; [|split_and!; [done|reflexivity|done]].
  edestruct effect_ok as [Ha Hb]; [|exact Hs|split_and!; [exact Ha|exact Hb|done]]. done.
Qed.

Lemma handleKickClient_sends client msg s : sends_ (handleKickClient E client msg) s (λ _ _, True).
Proof.
  unfold handleKickClient. destruct msg as [msg|]; [|apply sends_error].
  eapply sends_bind; [apply sends_clientByID|]. intros target s1 _ _ _.
  destruct target as [target|]; [|apply sends_error]. destruct (negb _); [apply sends_error|].
  eapply sends_bind; [apply checkPowerOver_sends|]. intros r s2 _ _ _. destruct r; [|apply sends_error].
  eapply sends_bind with (Q := λ _ _, True).
  { destruct (km_Ban msg); [apply recordBan_sends|by apply sends_ret]. }
  intros recorded s3 _ _ _. destruct recorded as [exp|]; [|apply sends_error].
  intros Hs. pose proof (performKick_sends (cn_ID client) (cn_ID target) (km_FromServer msg || km_Ban msg)
    (km_Ban msg) (km_Reason msg) exp s3 Hs) as (Ha & Hb & _).
  destruct (performKick _ _ _ _ _ _ s3) as [s4 [[]|e]]; cbn [fst snd] in *.
  - set (e := Audited _ _ _). assert (∀ st to m, e ≠ Wrote st to m) as He by done.
    destruct (sends_note e s4 He Ha) as (Hc & Hd & _). split_and!; [done|by etrans|done].
  - destruct (sends_error E client errCodeNotFound "not found" s4 Ha) as (Hc & Hd & _).
    split_and!; [done|by etrans|done].
Qed.

Lemma cm_RemoveClient_spec cid c :
  wf (cm_state c) →
  let r := cm_RemoveClient cid c in
  wf (cm_state r.1) ∧ no_new (cm_state c) (cm_state r.1) ∧ cid ∉ dom (w_at (view (cm_state r.1))) ∧
  ∀ cl, r.2 = Ok cl → w_at (view (cm_state c)) !! cid = Some (cl_ChannelID cl).
Proof.
  intros Hw. pose proof (RemoveClient_wf cid _ Hw) as Hw'. pose proof (view_RemoveClient cid _ Hw) as Hv.
  unfold cm_RemoveClient, mbind_, mget. rewrite GetClient_lookup.
  destruct (clients (cm_state c) !! cid) as [cl|] eqn:Hcl.
  2: { split_and!; [done..| |done]. simpl. rewrite dom_fmap. by apply not_elem_of_dom. }
  assert ((RemoveClient cid (cm_state c)).2 = Some cl) as Hrem.
  { unfold RemoveClient. rewrite Hcl. simpl. by rewrite ?cloneClient_id. }
  destruct (RemoveClient cid (cm_state c)) as [st removed]. cbn [fst snd] in *. subst removed.
  assert (no_new (cm_state c) st) as Hch by (unfold no_new; rewrite Hv; simpl; set_solver).
  assert (cid ∉ dom (w_at (view st))) as Hgone by (rewrite Hv; simpl; set_solver).
  assert (w_at (view (cm_state c)) !! cid = Some (cl_ChannelID cl)) as Hat by (simpl; by rewrite lookup_fmap, Hcl).
  unfold mput. cbn [fst snd].
  destruct (negb _); simpl; rewrite ?cm_state_reconcile; (split_and!; [done..|]); by intros cl' [= <-].
Qed.

(** A client that is authenticated is gone from the state, whatever fails after. *)
Lemma onDisconnect_ok client s :
  world_ok s → let s' := (onDisconnect E client s).1 in
  world_ok s' ∧ run_ok E s s' ∧ (cn_authed client = true → cn_ID client ∉ dom (w_at (view (sv_state s')))).
Proof.
  intros Hw. unfold onDisconnect. destruct (cn_authed client); cbn [negb]; [|split_and!; [done|reflexivity|done]].
  destruct (cm_RemoveClient_spec (cn_ID client) (sv_cm s) (wo_wf _ Hw)) as (Hwf & Hnn & Hgone & Hok).
  destruct (sends_cm (cm_RemoveClient (cn_ID client)) s) as (Hw1 & Hr1 & _); [done|done|].
  unfold on_cm, se_bind in *. destruct (cm_RemoveClient (cn_ID client) (sv_cm s)) as [c r]. cbn [fst snd] in *.
  set (s1 := set_cm (λ _, c) s) in *.
  assert (sends_ (left_server E client r) s1 (λ _ _, True)) as Hrest.
  { unfold left_server. set (p := match r with Ok _ => _ | Err _ => _ end). destruct p as [ch inv] eqn:Hp. cbv zeta.
    assert (known s1 ch) as Hk.
    { eapply known_run; [done|]. destruct r as [cl|e]; unfold p in Hp; simplify_eq; [|by left].
      eapply place_known; [done|]. by apply Hok. }
    eapply sends_bind; [by apply sends_note|]. intros [] s2 _ Hr2 _.
    eapply sends_bind; [apply sends_note; by destruct inv|]. intros [] s3 _ Hr3 _.
    eapply sends_bind with (Q := λ _ _, True); [|intros [] s4 _ _ _; by apply sends_note].
    destruct (ch =? 0); [by apply sends_ret|]. eapply sends_weaken; [|apply rotate_sends]; [done|].
    by do 2 (eapply known_run; [done|]). }
  destruct (Hrest Hw1) as (Hw2 & Hr2 & _). split_and!; [done|by etrans|].
  intros _ Hin. apply Hgone. by apply (proj2 (ro_state _ _ _ Hr2)) in Hin.
Qed.

Lemma onDisconnect_sends client s : sends_ (onDisconnect E client) s (λ _ _, True).
Proof. intros Hw. by destruct (onDisconnect_ok client s Hw) as (? & ? & _). Qed.

(** ** Requests *)

Inductive request :=
| RSubscribe (c : Conn) (msg : option (list Z * bool))
| RKeyPublish (c : Conn) (msg : option string)
| RKeyRequest (c : Conn) (msg : option string)
| RChatKeys (c : Conn) (msg : option (Z * list Z))
| RJoin (c : Conn) (msg : option (Z * string))
| RMove (c : Conn) (msg : option (string * Z))
| RKick (c : Conn) (msg : option KickMsg)
| RDisconnect (c : Conn)
| RRotation (channelID : Z).

Definition serve (r : request) : H () :=
  match r with
  | RSubscribe c msg => handleChannelSubscribe E c msg
  | RKeyPublish c msg => handleKeyPublish E c msg
  | RKeyRequest c msg => handleKeyRequest E c msg
  | RChatKeys c msg => handleChatKeyRequest E c msg
  | RJoin c msg => handleJoinChannel E c msg
  | RMove c msg => handleMoveClient E c msg
  | RKick c msg => handleKickClient E c msg
  | RDisconnect c => onDisconnect E c
  | RRotation channelID => rotationFired E channelID
  end.

(** The connection a request comes from is the server's; the timer of a rotation
    fires while its channel exists. *)
Definition admissible (r : request) s : Prop :=
  match r with
  | RSubscribe c _ | RKeyPublish c _ | RKeyRequest c _ | RChatKeys c _ | RJoin c _ | RMove c _
  | RKick c _ | RDisconnect c => registered c s
  | RRotation channelID => channelID ∈ dom (channels (sv_state s))
  end.

Lemma serve_sends r s : admissible r s → sends_ (serve r) s (λ _ _, True).
Proof.
  destruct r; simpl; intros Ha.
  - by apply handleChannelSubscribe_sends.
  - apply handleKeyPublish_sends.
  - apply handleKeyRequest_sends.
  - by apply handleChatKeyRequest_sends.
  - apply handleJoinChannel_sends.
  - apply handleMoveClient_sends.
  - apply handleKickClient_sends.
  - apply onDisconnect_sends.
  - eapply sends_weaken; [|apply rotationFired_sends]; [done|]. by right.
Qed.

(** Whatever a request asks for, the server writes a sealed scope key only to
    a client that, in the state it is written in, may read the scope: the global
    scope, the channel it stands in, or a channel it is subscribed to and has the
    subscribe power over. Key generations are created for the global scope and
    existing channels only, and the server's maps stay consistent. *)
Theorem scope_keys_confined r s :
  world_ok s → admissible r s →
  let s' := (serve r s).1 in
  world_ok s' ∧
  (∃ l, sv_log s' = sv_log s ++ l ∧
     ∀ st to m k, Wrote st to m ∈ l → k ∈ keys_in m →
       entitled E (sv_clients s) st to (cky_ChannelID k)) ∧
  (∀ sc g, is_Some (ck_rows (sv_keys s') !! (sc, g)) → ck_rows (sv_keys s) !! (sc, g) = None →
     sc = globalChatScope ∨ sc ∈ dom (channels (sv_state s))).
Proof.
  intros Hs Ha. destruct (serve_sends r s Ha Hs) as (Hw & [_ _ Hlog Hmint] & _). cbv zeta.
  split_and!; [done..|]. intros sc g Hsome Hnone. destruct (Hmint sc g Hsome) as [[? ?]|Hk]; [congruence|done].
Qed.
End specs.

(** ** A rotation reaches everyone *)

Section rotation.
Context (E : Env).
Implicit Types s : Server.

Lemma load_cached sc a k :
  cached_current sc a k → ∃ e, entry sc k = (k, Ok e) ∧
    loadLocked (env_db E) (env_Open E) (env_has_store E) (env_kek E) sc e k = (k, Ok e) ∧
    se_curID e = a.1 ∧ se_curKey e = a.2.
Proof.
  intros (e & He & Hl & Hid & Hk). exists e. unfold entry. rewrite He. unfold loadLocked. by rewrite Hl.
Qed.

Lemma EnsureScope_cached sc a k :
  cached_current sc a k → a.1 ≠ 0 →
  EnsureScope (env_db E) (env_rnd E) (env_Seal E) (env_Open E) (env_has_store E) (env_kek E) sc k = (k, Ok a).
Proof.
  intros (e & He & Hload & Hid & Hk)%load_cached Ha. unfold EnsureScope, reporting, se_bind. rewrite He, Hload, Hid.
  rewrite (proj2 (Z.eqb_neq _ _)) by done. simpl. rewrite Hk. by destruct a.
Qed.

Lemma at_cached sc a k :
  cached_current sc a k → a.1 ≠ 0 →
  at_ (env_db E) (env_Open E) (env_has_store E) (env_kek E) sc a.1 k = (k, Ok a.2).
Proof.
  intros (e & He & Hload & Hid & Hk)%load_cached Ha. unfold at_, se_bind.
  rewrite (proj2 (Z.eqb_neq _ _)) by done. by rewrite He, Hload, Hid, Z.eqb_refl, Hk.
Qed.

(** The client published a public key that can be sealed to. *)
Definition has_key (id : string) (st : Manager) : Prop :=
  ∃ cl raw, clients st !! id = Some cl ∧ DecodeString (cl_E2EPublicKey cl) = Some raw ∧ length raw = 32%nat.

(** The log has a frame that gives client [id] generation [g] of the scope. *)
Definition given (sc g : Z) (id : string) (l : list effect) : Prop :=
  ∃ st ck, Wrote st id (MChannelKey ck) ∈ l ∧ cky_ChannelID ck = sc ∧ cky_KeyID ck = g.

Lemma given_app sc g id l l' : given sc g id l → given sc g id (l ++ l').
Proof. intros (st & ck & Hin & ?). exists st, ck. split; [apply elem_of_app; by left|done]. Qed.

Context (writes : ∀ n, env_write_ok E n = true) (boxes : ∀ i m p, is_Some (env_Box E i m p)).
Context (configured : keys_configured E = true).

(** What a delivery of a cached generation does. *)
Record delivered (sc : Z) (a : Z * key) s s' : Prop := {
  dl_cached : cached_current sc a (sv_keys s');
  dl_clients : sv_clients s' = sv_clients s;
  dl_log : ∃ l, sv_log s' = sv_log s ++ l;
}.

Lemma sealFor_cached sc a pub k :
  cached_current sc a k → a.1 ≠ 0 →
  let r := sealFor (env_db E) (env_Open E) (env_Box E) (env_has_store E) (env_kek E) sc a.1 pub k in
  cached_current sc a r.1 ∧
  ((∃ raw, DecodeString pub = Some raw ∧ length raw = 32%nat) → ∃ ck, r.2 = Ok ck).
Proof.
  intros Hc Ha. unfold sealFor, reporting. destruct (DecodeString pub) as [raw|]; simpl; [|split; [done|naive_solver]].
  case_decide as Hlen; simpl; [|split; [done|intros (? & ? & ?); simplify_eq]].
  unfold se_bind. rewrite (at_cached sc a k Hc Ha). destruct (boxes (ck_draws k) a.2 raw) as [b ->].
  split; [done|]. intros _. by eexists.
Qed.

(** A delivery only adds to the log. *)
Lemma deliver_log client sc s : ∃ l, sv_log (deliverScopeKey E client sc s).1 = sv_log s ++ l.
Proof.
  assert (∃ l, sv_log s = sv_log s ++ l) as Hnone by (exists []; by rewrite app_nil_r).
  unfold deliverScopeKey, se_bind, get_state, k_EnsureScope, k_sealFor, on_keys, writeMessage.
  destruct (negb _); [done|]. destruct (GetClient _ _) as [cl|]; [|done]. destruct (String.eqb _ _); [done|].
  destruct (EnsureScope _ _ _ _ _ _ _ _) as [k1 [[g key]|e]]; [|done]. cbn [set_keys sv_keys sv_log fst snd].
  destruct (sealFor _ _ _ _ _ _ _ _ _) as [k2 [ck|e]]; [|done]. destruct (env_write_ok E _); by eexists.
Qed.

(** What is done when the scope's current generation is cached. *)
Lemma deliver_cached client sc a cl s :
  cached_current sc a (sv_keys s) → a.1 ≠ 0 → clients (sv_state s) !! cn_ID client = Some cl →
  cl_E2EPublicKey cl ≠ "" →
  deliverScopeKey E client sc s =
    let r := sealFor (env_db E) (env_Open E) (env_Box E) (env_has_store E) (env_kek E) sc a.1
               (cl_E2EPublicKey cl) (sv_keys s) in
    match r.2 with
    | Err e => (set_keys r.1 s, Err (HKeys e))
    | Ok ck => writeMessage E (cn_ID client) (MChannelKey ck) (set_keys r.1 s)
    end.
Proof.
  intros Hc Ha Hcl Hne. unfold deliverScopeKey. rewrite configured. cbn [negb].
  unfold se_bind at 1, get_state. rewrite GetClient_lookup, Hcl. rewrite (proj2 (String.eqb_neq _ _)) by done.
  unfold se_bind at 1, k_EnsureScope, on_keys. rewrite (EnsureScope_cached sc a) by done.
  destruct a as [g key]. unfold se_bind, k_sealFor, on_keys. cbn [fst snd].
  replace (sv_keys (set_keys (sv_keys s) s)) with (sv_keys s) by done.
  destruct (sealFor _ _ _ _ _ _ _ _ _) as [k2 [ck|e]]; by destruct s.
Qed.

Lemma deliver_delivered client sc a s :
  cached_current sc a (sv_keys s) → a.1 ≠ 0 →
  let s' := (deliverScopeKey E client sc s).1 in
  delivered sc a s s' ∧ (has_key (cn_ID client) (sv_state s) → given sc a.1 (cn_ID client) (sv_log s')).
Proof.
  intros Hc Ha. cbv zeta.
  assert (delivered sc a s s) as Hnone by (split; [done|done|exists []; by rewrite app_nil_r]).
  destruct (clients (sv_state s) !! cn_ID client) as [cl|] eqn:Hcl.
  2:{ replace (deliverScopeKey E client sc s) with (s, @Ok HErr () ()).
      - split; [done|]. intros (? & ? & ? & _). congruence.
      - unfold deliverScopeKey. rewrite configured. unfold se_bind, get_state. cbn. by rewrite GetClient_lookup, Hcl. }
  destruct (String.eqb_spec (cl_E2EPublicKey cl) "") as [He|Hne].
  { replace (deliverScopeKey E client sc s) with (s, @Ok HErr () ()).
    - split; [done|]. intros (cl' & raw & Hcl' & Hraw & Hlen). rewrite Hcl in Hcl'. injection Hcl' as <-.
      rewrite He in Hraw. vm_compute in Hraw. by simplify_eq.
    - unfold deliverScopeKey. rewrite configured. unfold se_bind, get_state. cbn.
      by rewrite GetClient_lookup, Hcl, He. }
  rewrite (deliver_cached client sc a cl s) by done. cbv zeta.
  destruct (sealFor_cached sc a (cl_E2EPublicKey cl) (sv_keys s) Hc Ha) as [Hc2 Hok].
  destruct (sealFor _ _ _ _ _ sc a.1 (cl_E2EPublicKey cl) (sv_keys s)) as [k2 [ck|e]] eqn:Es; cbn [fst snd] in *.
  - unfold writeMessage. rewrite writes. cbn [fst]. split; [split; [done|done|by eexists]|]. intros _.
    eexists _, ck. split; [|by apply sealFor_scope in Es].
    apply elem_of_app. right. by apply list_elem_of_singleton.
  - split; [split; [done|done|exists []; by rewrite app_nil_r]|].
    intros (cl' & raw & Hcl' & Hraw & Hlen). rewrite Hcl in Hcl'. injection Hcl' as <-.
    destruct Hok as [? ?]; [eauto|done].
Qed.

Lemma deliver_each_delivered sc a l s :
  cached_current sc a (sv_keys s) → a.1 ≠ 0 →
  let s' := (deliver_each E sc l s).1 in
  delivered sc a s s' ∧
  ∀ c, c ∈ l → has_key (cn_ID c) (sv_state s) → given sc a.1 (cn_ID c) (sv_log s').
Proof.
  revert s. induction l as [|c l IH]; intros s Hc Ha.
  { split; [split; [done|done|exists []; by rewrite app_nil_r]|]. by intros c ?%elem_of_nil. }
  destruct (deliver_delivered c sc a s Hc Ha) as [[H1 H2 [l1 H3]] Hgiven].
  cbn [deliver_each]. unfold se_bind, ignore. cbn [fst snd].
  pose proof (deliver_cm E c sc s) as Hcm.
  set (s1 := (deliverScopeKey E c sc s).1) in *.
  destruct (IH s1 H1 Ha) as [[H4 H5 [l2 H6]] Hrest].
  set (s2 := (deliver_each E sc l s1).1) in *.
  split; [split; [done|by rewrite H5|exists (l1 ++ l2); by rewrite H6, H3, (assoc_L (++))]|].
  intros c' [->|Hin]%elem_of_cons Hk; [rewrite H6; by apply given_app, Hgiven|].
  apply Hrest; [done|]. unfold sv_state. by rewrite Hcm.
Qed.

Lemma connected_in l s m c :
  m ∈ l → sv_clients s !! cl_ClientID m = Some c → ∃ r, connected l s = (s, Ok r) ∧ c ∈ r.
Proof.
  intros Hm Hc. cut (∃ r, connected l s = (s, Ok r) ∧ ∀ m c, m ∈ l → sv_clients s !! cl_ClientID m = Some c → c ∈ r).
  { intros (r & Hr & Hall). eauto. }
  clear m c Hm Hc. induction l as [|m l (r & Hr & Hall)].
  { exists []. split; [done|]. by intros m c ?%elem_of_nil. }
  cbn [connected]. unfold se_bind, clientByID. rewrite Hr. eexists. split; [done|].
  intros m' c [->|Hin]%elem_of_cons Hc; [rewrite Hc; left|].
  destruct (sv_clients s !! cl_ClientID m); [right|]; eauto.
Qed.

Lemma channelSubscribers_log sc s : ∃ l, sv_log (channelSubscribers E sc s).1 = sv_log s ++ l.
Proof.
  unfold channelSubscribers. destruct (sc =? globalChatScope); [exists []; by rewrite app_nil_r|].
  set (grow := λ s s' : Server, ∃ l, sv_log s' = sv_log s ++ l).
  assert (PreOrder grow) as Hpre.
  { split; [intros x; exists []; by rewrite app_nil_r|]. intros x y z [l1 H1] [l2 H2].
    exists (l1 ++ l2). by rewrite H2, H1, (assoc_L (++)). }
  assert (∀ x, grow x x) as Hrefl by reflexivity.
  assert (∀ l, preserves grow (sort_subscribers E sc l)) as Hsort.
  { induction l as [|m l IH]; [by intros x|]. simpl. destruct (cl_ChannelID m =? sc); [done|].
    apply (preserves_bind grow); [by intros x|]. intros [c|]; [|done].
    apply (preserves_bind grow); [by intros x; exists []; rewrite app_nil_r|]. intros ok.
    apply (preserves_bind grow); [done|]. by intros r x. }
  assert (∀ l, preserves grow (drop_revoked E sc l)) as Hdrop.
  { induction l as [|c l IH]; [by intros x|].
    apply (preserves_bind grow); [by intros x; exists []; rewrite app_nil_r|]. intros [].
    apply (preserves_bind grow); [|done]. intros x. unfold ignore, sendSubscriptionState, se_bind, get_state, writeMessage.
    cbn [fst snd]. destruct (env_write_ok E _); by eexists. }
  apply (preserves_bind grow); [by intros x|]. intros st. apply (preserves_bind grow); [apply Hsort|]. intros r.
  apply (preserves_bind grow); [apply Hdrop|]. by intros _ x.
Qed.

(** C25: when a rotation of a channel's key answers generation [g], every member of
    the channel that is connected and published a valid public key is sent
    generation [g], provided frames can be written; no later database failure can
    get in the way. *)
Theorem rotation_reaches_members ch g k m conn s :
  CryptoLaws (env_rnd E) (env_Seal E) (env_Open E) →
  (∀ ring, env_kek E = Some ring → 0 ≤ kr_newest ring < 2 ^ 16) →
  ckinv (env_Open E) (env_has_store E) (env_kek E) (sv_keys s) → world_ok s →
  (rotate (env_db E) (env_rnd E) (env_Seal E) (env_Open E) (env_has_store E) (env_kek E) ch (sv_keys s)).2 = Ok (g, k) →
  m ∈ ChannelMembers ch (sv_state s) → sv_clients s !! cl_ClientID m = Some conn →
  has_key (cl_ClientID m) (sv_state s) →
  given ch g (cl_ClientID m) (sv_log (doRotateScopeKey E ch s).1).
Proof.
  intros laws ids Hinv Hw Hrot Hm Hconn Hkey.
  destruct (rotate _ _ _ _ _ _ ch (sv_keys s)) as [keys r] eqn:Er. simpl in Hrot. subst r.
  destruct (spec_Ok _ _ _ _ _ _ _ _ (rotate_spec _ _ _ _ _ _ laws ids ch (sv_keys s)) Hinv Er)
    as (_ & _ & (Hg & _ & Hc) & _). cbn [fst snd] in *.
  set (s1 := set_keys keys s). pose proof (wo_conns _ Hw _ _ Hconn) as Hid.
  destruct (connected_in (ChannelMembers ch (sv_state s1)) s1 m conn Hm Hconn) as (r & Hconnected & Hin).
  destruct (deliver_each_delivered ch (g, k) r s1 Hc Hg) as [[Hc2 _ _] Hgiven]. cbn [fst snd] in *.
  unfold doRotateScopeKey. unfold se_bind at 1, k_rotate, on_keys. rewrite Er. fold s1.
  unfold se_bind at 1, get_state. cbn [fst snd]. unfold se_bind at 1. rewrite Hconnected.
  unfold se_bind at 1. destruct (deliver_each E ch r s1) as [s2 [[]|e]] eqn:Ed; cbn [fst snd] in *.
  2:{ rewrite <- Hid. apply Hgiven; [done|]. by rewrite Hid. }
  destruct (channelSubscribers_log ch s2) as [l2 Hl2]. unfold se_bind.
  destruct (channelSubscribers E ch s2) as [s3 [r3|e]] eqn:Esub; cbn [fst snd] in *.
  - assert (∃ l3, sv_log (deliver_each E ch r3 s3).1 = sv_log s3 ++ l3) as [l3 Hl3].
    { clear. revert s3. induction r3 as [|c l IH]; intros s3; [exists []; by rewrite app_nil_r|].
      cbn [deliver_each]. unfold se_bind, ignore. cbn [fst snd].
      destruct (IH (deliverScopeKey E c ch s3).1) as [l2 ->].
      destruct (deliver_log c ch s3) as [l1 ->]. exists (l1 ++ l2). by rewrite (assoc_L (++)). }
    rewrite Hl3, Hl2. apply given_app, given_app. rewrite <- Hid. apply Hgiven; [done|]. by rewrite Hid.
  - rewrite Hl2. apply given_app. rewrite <- Hid. apply Hgiven; [done|]. by rewrite Hid.
Qed.
End rotation.

(** ** Where the code and its comments part *)

Section divergences.
Context (E : Env).

(** The subscribe power of a guest does not depend on the channel: whatever power
    the tables of a channel ask for, the guest's answer is the one for any other
    channel, or for the same channel under any other channel permissions. *)
Theorem guest_subscribe_ignores_channel (src src' : PermSource) client ch ch' :
  cn_userID client = 0 →
  (∀ g, LoadGroupPermissions (PermSource := src) g = LoadGroupPermissions (PermSource := src') g) →
  subscribe_allowed E src client ch = subscribe_allowed E src' client ch'.
Proof.
  intros Hguest Hgroup. unfold subscribe_allowed, guestGroupSet. rewrite Hguest. simpl.
  destruct (cn_isAdmin client); [done|]. by rewrite Hgroup.
Qed.

Context `{!∀ V, MapRange Z V, !∀ V, MapRange string V}.

(** A kick from a channel neither rotates the key of the channel nor arms a
    rotation, whereas a move or a disconnect of the same client does. *)
Theorem channel_kick_keeps_the_key by_ id ban reason expires s :
  let s' := (performKick by_ id false ban reason expires s).1 in
  sv_keys s' = sv_keys s ∧ sv_rotPending s' = sv_rotPending s.
Proof.
  cbv zeta. unfold performKick, se_bind, clientByID, get_state, se_err. cbn [fst snd].
  destruct (sv_clients s !! id) as [target|]; [|done]. destruct (negb _); [done|].
  destruct (GetClient _ _); [|done]. unfold on_cm.
  destruct (LeaveClient (cn_ID target) (sv_cm s)) as [cm [ch|e]]; done.
Qed.

End divergences.

(** The longest ban a client can ask for ends before it starts: the seconds are
    converted to nanoseconds in 64 bits. *)
Theorem long_ban_expires_at_once now : banExpiration now 9223372037 = Some (now - 9223372036709551616).
Proof. unfold banExpiration. simpl. by f_equal. Qed.

(** ** A server with one client *)

Section demo.
#[local] Instance demo_range_z V : MapRange Z V := stdpp_range.
#[local] Instance demo_range_s V : MapRange string V := stdpp_range.

Definition demo_key : string := EncodeToString (replicate 32 9).
Definition demo_state : Manager := SetE2EPublicKey "alice" demo_key sample_state.

Definition alice_state : Client := mkClient "alice" "alice" "alice" 1 true false "" "" demo_key false 0 None None.

Lemma demo_wf : wf demo_state.
Proof. eapply step_wf; [exact sample_wf|]. exists (OpSetE2EPublicKey "alice" demo_key). by split. Qed.

Definition alice : Conn := {| cn_ID := "alice"; cn_UniqueID := "alice"; cn_Username := "alice"; cn_userID := 7;
  cn_isAdmin := false; cn_authed := true; cn_rulesPending := false |}.

Definition demo_powers : TieredPermissions :=
  TieredPermissions_Set NewTieredPermissions TierServerGroup
    (<[PermissionKeyChannelSubscribePower :=
         Some (mkPermission PermissionKeyChannelSubscribePower PermissionTypeInteger 10 0 false false)]>
       (∅ : gmap PermissionKey (option Permission))).

Definition demo_env : Env := {|
  env_write_ok := λ _, true;
  env_perms := λ _, {| LoadForClient u c := Ok demo_powers; LoadGroupPermissions g := Ok ∅ |};
  env_guest_group := 0; env_clock := λ _, 0; env_auto_assign := λ _, None; env_stores_key := false;
  env_lookup_key := λ _, ""; env_verify_password := λ _ _, false; env_ban_ok := λ _, true;
  env_rotate_min := 0; env_rate_max := 5; env_rate_window := 10;
  env_db := λ _, DbOk; env_rnd := toy_rnd; env_Seal := toy_Seal; env_Open := toy_Open; env_Box := toy_box;
  env_has_store := true; env_kek := toy_ring |}.

(** "alice" stands in channel 1 and is subscribed to channel 2. *)
Definition demo_server : Server := {|
  sv_cm := {| cm_state := demo_state; cm_db := ∅; cm_nextID := 3; cm_adminGroup := None; cm_groupMembers := [];
              cm_timers := ∅; cm_nextGeneration := 0; cm_nextPtr := 0; cm_delay := DefaultCleanupDelay;
              cm_oracle := []; cm_notified := [] |};
  sv_keys := CK_start; sv_clients := {["alice" := alice]}; sv_buckets := ∅; sv_rotPending := ∅;
  sv_loads := 0; sv_reads := 0; sv_log := [] |}.

Lemma demo_world : world_ok demo_server.
Proof.
  split; [exact demo_wf|]. intros id c. simpl. intros [<- <-]%lookup_singleton_Some. done.
Qed.

(** A rotation of channel 2, while "alice" still has the power, sends it the new
    generation; and it is the entitled receiver of what is written. *)
Lemma scope_keys_confined_witness :
  let s' := (serve demo_env (RRotation 2) demo_server).1 in
  (∃ st k, sv_log s' = [Wrote st "alice" (MChannelKey k)]) ∧ world_ok s'.
Proof.
  split; [eexists _, _; vm_compute; reflexivity|].
  apply (scope_keys_confined demo_env (RRotation 2) demo_server demo_world).
  simpl. apply elem_of_dom, is_Some_alt. by vm_compute.
Defined.

Lemma rotation_reaches_members_witness :
  given 1 1 "alice" (sv_log (doRotateScopeKey demo_env 1 demo_server).1).
Proof.
  apply (rotation_reaches_members demo_env (λ _, eq_refl) (λ _ m p, ex_intro _ (p ++ m) eq_refl) eq_refl
    1 1 (replicate 32 0) alice_state alice demo_server).
  - exact toy_laws.
  - exact toy_ids.
  - apply start_ckinv.
  - exact demo_world.
  - by vm_compute.
  - vm_compute. left.
  - by vm_compute.
  - exists alice_state, (replicate 32 9).
    split_and!; by vm_compute.
Defined.
End demo.
