(* ===== verification/ChatStore.v ===== *)
(** * The chat tables and their store: [src/internal/store/chat.go] and the offline
    spool of [src/internal/store/store.go]

    The tables of migrations 001, 007, 012 and 016 with their constraints, and the
    store's methods over them with the reaction cache in front. As for the scope
    keys, the parameter [db] decides for every statement or transaction whether it
    succeeds, fails without effect, or takes effect while its answer is lost.
    [now_db] is the database's clock at each call, [now_] the process's at each
    read. Times are nanoseconds. *)

From S2P Require Import Prelude Wire GoState ChatKeys.

Record ChatMessage := mkMessage {
  msg_ChannelID : Z;
  msg_FromUniqueID : string;
  msg_FromNickname : string;
  msg_ReplyToID : Z;                  (* 0 for NULL *)
  msg_Version : Z;
  msg_ClientMsgID : string;           (* "" for NULL *)
  msg_BodyEnc : string;
  msg_KeyID : Z;
  msg_SentAt : Z;
  msg_EditedAt : option Z;
  msg_DeletedAt : option Z;
}.

Record SpoolRow := {
  sp_FromUserID : Z;
  sp_ToUserID : Z;
  sp_FromUniqueID : string;
  sp_Message : string;
  sp_SentAt : Z;
  sp_DeliveredAt : option Z;
}.

Record reactionCacheEntry := { rce_counts : gmap string Z; rce_expiresAt : Z }.

Record ChatDB := mkDB {
  db_messages : gmap Z ChatMessage;
  db_nextID : Z;
  db_pins : gmap (Z * Z) (string * Z);               (* channel, message: by, at *)
  db_reactions : gset (Z * string * string);         (* message, user, emoji *)
  db_settings : gmap string (string * Z);
  db_spool : gmap Z SpoolRow;
  db_spoolID : Z;
  db_cache : gmap Z reactionCacheEntry;              (* Store.reactionCache *)
  db_calls : nat;
  db_reads : nat;
}.

Definition ChatDB_start : ChatDB := mkDB ∅ 1 ∅ ∅ ∅ ∅ 1 ∅ 0 0.

Definition set_messages (f : gmap Z ChatMessage → gmap Z ChatMessage) (d : ChatDB) : ChatDB :=
  mkDB (f (db_messages d)) (db_nextID d) (db_pins d) (db_reactions d) (db_settings d) (db_spool d)
    (db_spoolID d) (db_cache d) (db_calls d) (db_reads d).
Definition set_nextID (n : Z) (d : ChatDB) : ChatDB :=
  mkDB (db_messages d) n (db_pins d) (db_reactions d) (db_settings d) (db_spool d)
    (db_spoolID d) (db_cache d) (db_calls d) (db_reads d).
Definition set_pins (f : gmap (Z * Z) (string * Z) → gmap (Z * Z) (string * Z)) (d : ChatDB) : ChatDB :=
  mkDB (db_messages d) (db_nextID d) (f (db_pins d)) (db_reactions d) (db_settings d) (db_spool d)
    (db_spoolID d) (db_cache d) (db_calls d) (db_reads d).
Definition set_reactions (r : gset (Z * string * string)) (d : ChatDB) : ChatDB :=
  mkDB (db_messages d) (db_nextID d) (db_pins d) r (db_settings d) (db_spool d)
    (db_spoolID d) (db_cache d) (db_calls d) (db_reads d).
Definition set_settings (f : gmap string (string * Z) → gmap string (string * Z)) (d : ChatDB) : ChatDB :=
  mkDB (db_messages d) (db_nextID d) (db_pins d) (db_reactions d) (f (db_settings d)) (db_spool d)
    (db_spoolID d) (db_cache d) (db_calls d) (db_reads d).
Definition set_spool (f : gmap Z SpoolRow → gmap Z SpoolRow) (n : Z) (d : ChatDB) : ChatDB :=
  mkDB (db_messages d) (db_nextID d) (db_pins d) (db_reactions d) (db_settings d) (f (db_spool d))
    n (db_cache d) (db_calls d) (db_reads d).
Definition set_cache (f : gmap Z reactionCacheEntry → gmap Z reactionCacheEntry) (d : ChatDB) : ChatDB :=
  mkDB (db_messages d) (db_nextID d) (db_pins d) (db_reactions d) (db_settings d) (db_spool d)
    (db_spoolID d) (f (db_cache d)) (db_calls d) (db_reads d).
Definition tick_db (d : ChatDB) : ChatDB :=
  mkDB (db_messages d) (db_nextID d) (db_pins d) (db_reactions d) (db_settings d) (db_spool d)
    (db_spoolID d) (db_cache d) (S (db_calls d)) (db_reads d).
Definition tick_clock (d : ChatDB) : ChatDB :=
  mkDB (db_messages d) (db_nextID d) (db_pins d) (db_reactions d) (db_settings d) (db_spool d)
    (db_spoolID d) (db_cache d) (db_calls d) (S (db_reads d)).

Inductive StoreErr := SErr | ErrChatEditConflict | SNotFound.

Abbreviation D := (SE ChatDB StoreErr).

Definition reactionCacheTTL : Z := 30 * second.
Definition maxReactionCacheEntries : nat := 10000.

(** Constraint [chat_messages_sealed] of migration 012. *)
Definition row_sealed (m : ChatMessage) : bool :=
  match msg_DeletedAt m with
  | Some _ => true
  | None => negb (String.eqb (msg_BodyEnc m) "") && (0 <? msg_KeyID m)
  end.

Section store.
Context (db : nat → dbOutcome) (now_db now_ : nat → Z).
Context (user_exists : Z → bool) (user_nickname : Z → string).
Context `{!∀ V, MapRange Z V, !∀ V, MapRange (Z * Z) V}.

(** One statement or transaction: [op] computes, at the database's time, its
    effect and its answer, or [None] when a constraint is violated. *)
Definition call {A} (op : Z → ChatDB → option (ChatDB * A)) : D A := λ d,
  let o := db (db_calls d) in
  let now := now_db (db_calls d) in
  let d := tick_db d in
  match o with
  | DbFailed => (d, Err SErr)
  | DbOk => match op now d with Some (d', a) => (d', Ok a) | None => (d, Err SErr) end
  | DbLost => match op now d with Some (d', _) => (d', Err SErr) | None => (d, Err SErr) end
  end.

Definition query {A} (f : ChatDB → A) : D A := call (λ _ d, Some (d, f d)).

Definition clock_read : D Z := λ d, (tick_clock d, Ok (now_ (db_reads d))).

(** ** Messages *)

(** The row that the unique index on (channel, author, client id) finds. *)
Definition find_message (channelID : Z) (from clientMsgID : string) (d : ChatDB) : option Z :=
  fst <$> head (filter (λ '(_, m), msg_ChannelID m = channelID ∧ msg_FromUniqueID m = from ∧
                                    msg_ClientMsgID m = clientMsgID) (map_to_list (db_messages d))).

Definition new_message (now channelID : Z) (from nickname bodyEnc : string) (keyID replyToID : Z)
    (clientMsgID : string) : ChatMessage :=
  mkMessage channelID from nickname replyToID 1 clientMsgID bodyEnc keyID now None None.

Definition StoreChatMessage (channelID : Z) (from nickname bodyEnc : string) (keyID replyToID : Z)
    (clientMsgID : string) : D (Z * bool) :=
  run r <- call (λ now d,
    let id := db_nextID d in
    let m := new_message now channelID from nickname bodyEnc keyID replyToID clientMsgID in
    let d := set_nextID (id + 1) d in
    if negb (row_sealed m) then None
    else if negb (String.eqb clientMsgID "") &&
            bool_decide (is_Some (find_message channelID from clientMsgID d))
    then Some (d, None)
    else Some (set_messages <[id := m]> d, Some id));
  match r with
  | Some id => se_ret (id, true)
  | None =>
      run e <- query (find_message channelID from clientMsgID);
      match e with Some id => se_ret (id, false) | None => se_err SErr end
  end.

(** The key id of a row is cast to its width when it is read. *)
Definition scan_message (id : Z) (m : ChatMessage) : D (Z * ChatMessage) :=
  match Int64ToUint32 (msg_KeyID m) with
  | Ok _ => se_ret (id, m)
  | Err _ => se_err SErr
  end.

Fixpoint scan_messages (l : list (Z * ChatMessage)) : D (list (Z * ChatMessage)) :=
  match l with
  | [] => se_ret []
  | (id, m) :: l =>
      run r <- scan_message id m;
      run rs <- scan_messages l;
      se_ret (r :: rs)
  end.

(** Ids of the rows of a page, newest first. *)
Definition page (channelID beforeID : Z) (limit : nat) (d : ChatDB) : list (Z * ChatMessage) :=
  let ids := filter (λ id, beforeID <= 0 ∨ id < beforeID)
    (fst <$> filter (λ '(_, m), msg_ChannelID m = channelID) (map_to_list (db_messages d))) in
  omap (λ id, pair id <$> db_messages d !! id) (take limit (reverse (sort_by Z.le ids))).

Definition ChatHistory (channelID beforeID limit : Z) : D (list (Z * ChatMessage)) :=
  let limit := if (limit <=? 0) || (200 <? limit) then 50 else limit in
  run rows <- query (page channelID beforeID (Z.to_nat limit));
  scan_messages rows.

Definition GetChatMessage (id : Z) : D (option ChatMessage) :=
  run r <- query (λ d, db_messages d !! id);
  match r with
  | None => se_ret None
  | Some m => run s <- scan_message id m; se_ret (Some s.2)
  end.

(** A version with the sign bit set is refused by the driver. *)
Definition EditChatMessage (id : Z) (bodyEnc : string) (keyID expectedVersion : Z) : D Z :=
  if max_int64 <? expectedVersion then se_err SErr
  else
    run r <- call (λ now d,
      match db_messages d !! id with
      | Some m =>
          if bool_decide (msg_DeletedAt m = None) &&
             ((expectedVersion =? 0) || (msg_Version m =? expectedVersion)) then
            let m' := mkMessage (msg_ChannelID m) (msg_FromUniqueID m) (msg_FromNickname m) (msg_ReplyToID m)
                        (msg_Version m + 1) (msg_ClientMsgID m) bodyEnc keyID (msg_SentAt m) (Some now) None in
            if negb (row_sealed m') then None
            else Some (set_messages <[id := m']> d, Some (msg_Version m'))
          else Some (d, None)
      | None => Some (d, None)
      end);
    match r with Some v => se_ret v | None => se_err ErrChatEditConflict end.

Definition DeleteChatMessage (id : Z) : D () :=
  run n <- call (λ now d,
    match db_messages d !! id with
    | Some m =>
        if bool_decide (msg_DeletedAt m = None) then
          let m' := mkMessage (msg_ChannelID m) (msg_FromUniqueID m) (msg_FromNickname m) (msg_ReplyToID m)
                      (msg_Version m) (msg_ClientMsgID m) "" 0 (msg_SentAt m) (msg_EditedAt m) (Some now) in
          Some (set_messages <[id := m']> d, true)
        else Some (d, false)
    | None => Some (d, false)
    end);
  if n : bool then se_ret () else se_err SNotFound.

(** ** Pins *)

Definition PinChatMessage (channelID messageID : Z) (pinnedBy : string) : D () :=
  call (λ now d,
    if bool_decide (is_Some (db_messages d !! messageID)) then
      match db_pins d !! (channelID, messageID) with
      | Some _ => Some (d, ())
      | None => Some (set_pins <[(channelID, messageID) := (pinnedBy, now)]> d, ())
      end
    else None).

Definition UnpinChatMessage (channelID messageID : Z) : D () :=
  call (λ _ d, Some (set_pins (delete (channelID, messageID)) d, ())).

Record PinnedMessage := {
  pm_MessageID : Z;
  pm_PinnedBy : string;
  pm_PinnedAt : Z;
  pm_Message : option ChatMessage;
}.

Definition pinned_le (a b : Z * (string * Z)) : Prop := a.2.2 <= b.2.2.
#[export] Instance pinned_le_dec : RelDecision pinned_le.
Proof. intros a b. unfold pinned_le. apply _. Defined.

(** The pins of a channel, oldest first; the order of equal times is the
    database's choice. *)
Definition channel_pins (channelID : Z) (d : ChatDB) : list (Z * (string * Z)) :=
  sort_by pinned_le (omap (λ '((ch, id), p), if ch =? channelID then Some (id, p) else None) (range (db_pins d))).

Fixpoint load_pins (l : list (Z * (string * Z))) : D (list PinnedMessage) :=
  match l with
  | [] => se_ret []
  | (id, p) :: l =>
      run m <- GetChatMessage id;
      run rest <- load_pins l;
      se_ret ({| pm_MessageID := id; pm_PinnedBy := p.1; pm_PinnedAt := p.2; pm_Message := m |} :: rest)
  end.

Definition ChatPins (channelID : Z) : D (list PinnedMessage) :=
  run l <- query (channel_pins channelID);
  load_pins l.

(** ** Reactions and their cache *)

Definition count_emoji (id : Z) (r : Z * string * string) (acc : gmap string Z) : gmap string Z :=
  let '(m, _, emoji) := r in
  if m =? id then <[emoji := default 0 (acc !! emoji) + 1]> acc else acc.

Definition queryReactions (id : Z) (d : ChatDB) : gmap string Z :=
  foldr (count_emoji id) ∅ (elements (db_reactions d)).

(** The second loop of the prune: entries go, in map order, while there are too
    many. *)
Fixpoint evict_reactions (l : list (Z * reactionCacheEntry)) (c : gmap Z reactionCacheEntry)
  : gmap Z reactionCacheEntry :=
  match l with
  | [] => c
  | (id, _) :: l =>
      let c := delete id c in
      if decide (maxReactionCacheEntries < size c)%nat then evict_reactions l c else c
  end.

Definition pruneReactionCacheLocked (now : Z) (c : gmap Z reactionCacheEntry) : gmap Z reactionCacheEntry :=
  if decide (size c ≤ maxReactionCacheEntries)%nat then c
  else
    let c := filter (λ '(_, e), now < rce_expiresAt e) c in
    if decide (size c ≤ maxReactionCacheEntries)%nat then c else evict_reactions (range c) c.

Definition cacheReactions (id : Z) (counts : gmap string Z) : D () :=
  run now <- clock_read;
  run now2 <- clock_read;
  se_modify (set_cache (λ c, pruneReactionCacheLocked now2
    (<[id := {| rce_counts := counts; rce_expiresAt := now + reactionCacheTTL |}]> c))).

Definition invalidateReactionCache (id : Z) : D () := se_modify (set_cache (delete id)).

Definition cachedReactions (id : Z) : D (option (gmap string Z)) :=
  run d <- se_get;
  match db_cache d !! id with
  | None => se_ret None
  | Some e =>
      if rce_expiresAt e =? 0 then run _ <- invalidateReactionCache id; se_ret None
      else
        run now <- clock_read;
        if rce_expiresAt e <=? now then run _ <- invalidateReactionCache id; se_ret None
        else se_ret (Some (rce_counts e))
  end.

(** The toggle transaction: delete the row, insert it if there was none, count. *)
Definition toggle (r : Z * string * string) (d : ChatDB) : ChatDB * bool :=
  if bool_decide (r ∈ db_reactions d)
  then (set_reactions (db_reactions d ∖ {[r]}) d, false)
  else (set_reactions ({[r]} ∪ db_reactions d) d, true).

Definition ToggleReaction (messageID : Z) (uniqueID emoji : string) : D (gmap string Z * bool) :=
  run r <- call (λ _ d,
    if bool_decide (is_Some (db_messages d !! messageID)) then
      let '(d', added) := toggle (messageID, uniqueID, emoji) d in
      Some (d', (queryReactions messageID d', added))
    else None);
  run _ <- invalidateReactionCache messageID;
  run _ <- cacheReactions messageID r.1;
  se_ret r.

Definition Reactions (messageID : Z) : D (gmap string Z) :=
  run c <- cachedReactions messageID;
  match c with
  | Some counts => se_ret counts
  | None =>
      run counts <- query (queryReactions messageID);
      run _ <- cacheReactions messageID counts;
      se_ret counts
  end.

(** The first loop of [ReactionsFor]: what the cache has, and the missing ids. *)
Fixpoint cached_page (ids : list Z) (out : gmap Z (gmap string Z)) (missing : list Z)
  : D (gmap Z (gmap string Z) * list Z) :=
  match ids with
  | [] => se_ret (out, missing)
  | id :: ids =>
      run c <- cachedReactions id;
      match c with
      | Some counts => cached_page ids (<[id := counts]> out) missing
      | None => cached_page ids (<[id := ∅]> out) (missing ++ [id])
      end
  end.

Fixpoint cache_page (ids : list Z) (out : gmap Z (gmap string Z)) : D () :=
  match ids with
  | [] => se_ret ()
  | id :: ids => run _ <- cacheReactions id (default ∅ (out !! id)); cache_page ids out
  end.

Definition fill_page (missing : list Z) (d : ChatDB) (out : gmap Z (gmap string Z)) : gmap Z (gmap string Z) :=
  foldr (λ id out, <[id := queryReactions id d]> out) out missing.

Definition ReactionsFor (ids : list Z) : D (gmap Z (gmap string Z)) :=
  run r <- cached_page ids ∅ [];
  if bool_decide (r.2 = []) then se_ret r.1
  else
    run out <- query (λ d, fill_page r.2 d r.1);
    run _ <- cache_page r.2 out;
    se_ret out.

(** ** Settings *)

Definition SetServerSetting (key value : string) (keyID : Z) : D () :=
  call (λ _ d, Some (set_settings <[key := (value, keyID)]> d, ())).

Definition GetServerSetting (key : string) : D (string * Z) :=
  run r <- query (λ d, db_settings d !! key);
  match r with
  | None => se_ret ("", 0)
  | Some (v, keyID) =>
      match Int64ToUint32 keyID with Ok id => se_ret (v, id) | Err _ => se_err SErr end
  end.

(** ** The offline spool *)

Definition SpoolMessage (fromUserID toUserID : Z) (fromUniqueID message : string) : D () :=
  call (λ now d,
    if user_exists fromUserID && user_exists toUserID &&
       (negb (String.eqb fromUniqueID "") || String.eqb message "")
    then Some (set_spool <[db_spoolID d := {| sp_FromUserID := fromUserID; sp_ToUserID := toUserID;
                 sp_FromUniqueID := fromUniqueID; sp_Message := message; sp_SentAt := now;
                 sp_DeliveredAt := None |}]> (db_spoolID d + 1) d, ())
    else None).

Record SpooledMessage := {
  sm_ID : Z;
  sm_FromUserID : Z;
  sm_FromUniqueID : string;
  sm_FromName : string;
  sm_Message : string;
}.

Definition spool_le (a b : Z * SpoolRow) : Prop := sp_SentAt a.2 <= sp_SentAt b.2.
#[export] Instance spool_le_dec : RelDecision spool_le.
Proof. intros a b. unfold spool_le. apply _. Defined.

Definition pending (toUserID : Z) (d : ChatDB) : list SpooledMessage :=
  (λ '(id, r), {| sm_ID := id; sm_FromUserID := sp_FromUserID r; sm_FromUniqueID := sp_FromUniqueID r;
                  sm_FromName := user_nickname (sp_FromUserID r); sm_Message := sp_Message r |}) <$>
  sort_by spool_le (filter (λ '(_, r), sp_ToUserID r = toUserID ∧ sp_DeliveredAt r = None) (range (db_spool d))).

Definition PendingMessages (toUserID : Z) : D (list SpooledMessage) := query (pending toUserID).

Definition mark (now : Z) (ids : list Z) (rows : gmap Z SpoolRow) : gmap Z SpoolRow :=
  map_imap (λ id r, Some (if bool_decide (id ∈ ids)
    then {| sp_FromUserID := sp_FromUserID r; sp_ToUserID := sp_ToUserID r;
            sp_FromUniqueID := sp_FromUniqueID r; sp_Message := sp_Message r;
            sp_SentAt := sp_SentAt r; sp_DeliveredAt := Some now |} else r)) rows.

Definition MarkMessagesDelivered (ids : list Z) : D () :=
  if bool_decide (ids = []) then se_ret ()
  else call (λ now d, Some (set_spool (mark now ids) (db_spoolID d) d, ())).

End store.
