(* ===== verification/ChatRelay.v ===== *)
(** * The chat relay: [src/internal/server/chatx.go] and the chat handlers of
    [src/internal/server/handlers.go]

    The pipeline of a channel or global message (rate limit, slow mode, decrypt,
    length, filters, spam, mentions, store, relay), history, edits, deletes, pins,
    reactions, typing indicators, direct messages with their receipts and offline
    spool, and the administration of the moderation lists.

    A handler runs over the server of [ServerWorld] and the chat state [Chat]: the
    store, the memoised filters and the trackers. The store, the spool and the
    account service are wired, as the server binary wires them; metrics and log
    lines are left out. *)

From stdpp Require Import pretty.
From S2P Require Import Prelude Wire Base64 GoState Permissions PermLoader PermCache StateManager StateInvariant PermCheck ChannelManager ChatKeys ChatText ServerWorld ChatScope ChatStore.

Definition PermissionKeyChatDeleteAny : PermissionKey := "b_chat_delete_any".
Definition PermissionKeyChatMentionAll : PermissionKey := "b_chat_mention_all".
Definition PermissionKeyChatSlowmodeBypass : PermissionKey := "b_chat_slowmode_bypass".
Definition permissionKeyChatFilterManage : PermissionKey := "b_chat_filter_manage".
Definition PermissionKeyChannelModify : PermissionKey := "b_channel_modify".

Definition chatFiltersKey : string := "chat_filters".
Definition maxFilterListBytes : nat := 4096.
Definition maxChatBytes : nat := 16 * 1024.

(** ** Trackers *)

Record spamEntry := { spe_sum : string; spe_at : Z }.

(** [spamTracker.record]: the user's list afterwards, and whether the message
    trips the heuristic. *)
Definition spam_record (recent : list spamEntry) (sum : string) (now : Z) : list spamEntry * bool :=
  let keep := filter (λ e, now - 30 * second <= spe_at e) recent in
  let same := length (filter (λ e, spe_sum e = sum) keep) in
  (keep ++ [{| spe_sum := sum; spe_at := now |}], bool_decide (2 ≤ same)%nat).

(** [slowTracker.check] on the last send of a user in a channel: the last send
    afterwards and the time to wait, 0 when the send is allowed. *)
Definition slow_check (last : option Z) (seconds now : Z) : option Z * Z :=
  let wait := match last with Some prev => i64 (seconds * second) - time_sub now prev | None => 0 end in
  if 0 <? wait then (last, wait) else (Some now, 0).

(** [typingTracker]: the last indicator per key and the time of the last cleanup. *)
Record typingTracker := { tt_last : gmap string Z; tt_lastCleanup : option Z }.

Definition typing_allow (key : string) (now : Z) (t : typingTracker) : typingTracker * bool :=
  let early := match tt_last t !! key with
               | Some previous => time_sub now previous <? 2 * second
               | None => false
               end in
  if early then (t, false)
  else
    let last := <[key := now]> (tt_last t) in
    let due := match tt_lastCleanup t with
               | Some c => 10 * second <=? time_sub now c
               | None => true
               end in
    if bool_decide (10000 < size last)%nat && due then
      ({| tt_last := filter (λ '(_, seen), ¬ 10 * second < time_sub now seen) last;
          tt_lastCleanup := Some now |}, true)
    else ({| tt_last := last; tt_lastCleanup := tt_lastCleanup t |}, true).

(** ** State and environment *)

Record Chat := mkChat {
  ct_db : ChatDB;
  ct_filters : option (chatFilters * bool);   (* chatFilterCache, [None] when not loaded *)
  ct_spam : gmap string (list spamEntry);
  ct_slow : gmap (string * Z) Z;
  ct_typing : typingTracker;
}.

Definition set_chatdb (d : ChatDB) (c : Chat) : Chat :=
  mkChat d (ct_filters c) (ct_spam c) (ct_slow c) (ct_typing c).
Definition set_filters (f : option (chatFilters * bool)) (c : Chat) : Chat :=
  mkChat (ct_db c) f (ct_spam c) (ct_slow c) (ct_typing c).
Definition set_spam (f : gmap string (list spamEntry) → gmap string (list spamEntry)) (c : Chat) : Chat :=
  mkChat (ct_db c) (ct_filters c) (f (ct_spam c)) (ct_slow c) (ct_typing c).
Definition set_slow (f : gmap (string * Z) Z → gmap (string * Z) Z) (c : Chat) : Chat :=
  mkChat (ct_db c) (ct_filters c) (ct_spam c) (f (ct_slow c)) (ct_typing c).
Definition set_typing (t : typingTracker) (c : Chat) : Chat :=
  mkChat (ct_db c) (ct_filters c) (ct_spam c) (ct_slow c) t.

(** What the account service says of a unique id. *)
Inductive lookupResult := UserFound (id : Z) | UserNotFound | LookupFailed.

Record ChatEnv := {
  ce_text : TextEnv;
  ce_maxLength : Z;                       (* cfg.ChatMaxLength *)
  ce_allowPlaintext : bool;
  ce_config : chatFilters;
  ce_db : nat → dbOutcome;
  ce_dbclock : nat → Z;
  ce_clock : nat → Z;
  ce_userExists : Z → bool;
  ce_nickname : Z → string;
  ce_lookupUser : nat → string → lookupResult;
  ce_digest : string → string;            (* sha256 *)
  ce_encode : chatFilters → string;       (* json *)
  ce_decode : string → option chatFilters;
  ce_runeCount : string → nat;            (* utf8.RuneCountInString *)
}.

Abbreviation C := (SE (Server * Chat) HErr).

Section relay.
Context (E : Env) (F : ChatEnv).
Context `{!∀ V, MapRange Z V, !∀ V, MapRange (Z * Z) V, !∀ V, MapRange string V}.

Definition on_server {A} (m : H A) : C A := λ w,
  let '(s, r) := m w.1 in ((s, w.2), r).
Definition on_db {A} (m : D A) : C (result StoreErr A) := λ w,
  let '(d, r) := m (ct_db w.2) in ((w.1, set_chatdb d w.2), Ok r).
Definition on_chat {A} (f : Chat → Chat * A) : C A := λ w,
  let '(c, a) := f w.2 in ((w.1, c), Ok a).

Definition refuse (client : Conn) (code : Z) (message : string) : C () :=
  on_server (sendErrorFor E client code message).

#[local] Abbreviation Store_ := (StoreChatMessage (ce_db F) (ce_dbclock F)).
#[local] Abbreviation Get_ := (GetChatMessage (ce_db F) (ce_dbclock F)).

(** [clientByUniqueID]: the first in map order. *)
Definition clientByUniqueID (uniqueID : string) : H (option Conn) := λ s,
  (s, Ok (head (filter (λ c, cn_UniqueID c = uniqueID) (range (sv_clients s)).*2))).

Definition chatActionLimit (client : Conn) : H Z :=
  run pc <- permChecker_ E client;
  se_ret (match pc with
          | Err _ => env_rate_max E
          | Ok pc =>
              let p := power pc PermissionKeyClientTalkPower in
              if 75 <=? p then env_rate_max E * 8
              else if 50 <=? p then env_rate_max E * 4
              else if 25 <=? p then env_rate_max E * 2
              else env_rate_max E
          end).

(** ** Moderation lists *)

Definition effectiveFilters : C (chatFilters * bool) := λ w,
  match ct_filters w.2 with
  | Some f => (w, Ok f)
  | None =>
      (run r <- on_db (GetServerSetting (ce_db F) (ce_dbclock F) chatFiltersKey);
       match r with
       | Err _ => se_ret (ce_config F, true)
       | Ok (raw, _) =>
           let f := if String.eqb raw "" then (ce_config F, true)
                    else match ce_decode F raw with
                         | Some stored => (stored, false)
                         | None => (ce_config F, true)
                         end in
           run _ <- on_chat (λ c, (set_filters (Some f) c, ()));
           se_ret f
       end) w
  end.

Definition invalidateFilters : C () := on_chat (λ c, (set_filters None c, ())).

Definition moderate (body : string) : C (option string) :=
  run f <- effectiveFilters;
  se_ret (moderateBody (ce_text F) f.1 body).

Definition handleChatFilterGet (client : Conn) : C () :=
  run pc <- on_server (permChecker_ E client);
  match pc with
  | Err _ => refuse client errCodeUnavailable "permission backend unavailable"
  | Ok pc =>
      if negb (granted_ pc permissionKeyChatFilterManage) then
        refuse client errCodePermissionDenied ("insufficient permission: " +:+ permissionKeyChatFilterManage)
      else
        run f <- effectiveFilters;
        on_server (writeMessage E (cn_ID client) (MChatFilters f.1 f.2))
  end.

Record ChatFilterSet := {
  fs_WordFilter : option string;
  fs_LinkBlacklist : option string;
  fs_LinkWhitelist : option string;
}.

(** One list of the update: [None] when it is too long. *)
Definition update_list (new : option string) (old : string) : option string :=
  match new with
  | None => Some old
  | Some raw => if decide (maxFilterListBytes < String.length raw)%nat then None
                else Some (normalizeList (ce_text F) raw)
  end.

Definition update_filters (msg : ChatFilterSet) (f : chatFilters) : option chatFilters :=
  match update_list (fs_WordFilter msg) (cf_WordFilter f),
        update_list (fs_LinkBlacklist msg) (cf_LinkBlacklist f),
        update_list (fs_LinkWhitelist msg) (cf_LinkWhitelist f) with
  | Some w, Some b, Some l => Some {| cf_WordFilter := w; cf_LinkBlacklist := b; cf_LinkWhitelist := l |}
  | _, _, _ => None
  end.

Definition handleChatFilterSet (client : Conn) (msg : option ChatFilterSet) : C () :=
  match msg with
  | None => refuse client errCodeMalformed "malformed chat_filter_set"
  | Some msg =>
      run pc <- on_server (permChecker_ E client);
      match pc with
      | Err _ => refuse client errCodeUnavailable "permission backend unavailable"
      | Ok pc =>
          if negb (granted_ pc permissionKeyChatFilterManage) then
            refuse client errCodePermissionDenied ("insufficient permission: " +:+ permissionKeyChatFilterManage)
          else
            run f <- effectiveFilters;
            match update_filters msg f.1 with
            | None => refuse client errCodeMalformed "filter list too long (max 4096 bytes)"
            | Some next =>
                run r <- on_db (SetServerSetting (ce_db F) (ce_dbclock F) chatFiltersKey (ce_encode F next) 0);
                match r with
                | Err _ => refuse client errCodeUnavailable "storing chat filters failed"
                | Ok _ =>
                    run _ <- invalidateFilters;
                    run _ <- on_server (effect_ (Audited (cn_UniqueID client) "chat_filter_set" chatFiltersKey));
                    on_server (writeMessage E (cn_ID client) (MChatFilters next false))
                end
            end
      end
  end.

(** ** Mentions *)

Definition mentioned_by_name (lower : string) (c : Client) : bool :=
  negb (String.eqb (cl_Nickname c) "") && Contains lower ("@" +:+ te_ToLower (ce_text F) (cl_Nickname c)).

Definition parseMentions (client : Conn) (channelID : Z) (body : string) : H (list string) :=
  run st <- get_state;
  let lower := te_ToLower (ce_text F) body in
  run mentionAll <-
    (if has_mention (String.list_ascii_of_string body) &&
        (Contains lower "@channel" || Contains lower "@here" || Contains lower "@everyone") then
       run pc <- permChecker_ E client;
       se_ret (match pc with Ok pc => granted_ pc PermissionKeyChatMentionAll | Err _ => false end)
     else se_ret false);
  let out : list Client :=
    if mentionAll : bool then
      if channelID =? 0 then ListClients st else ChannelMembers channelID st
    else filter (λ c, mentioned_by_name lower c = true) (ListClients st) in
  se_ret (range_set (list_to_set (cl_UniqueID <$> out) ∖ {[cn_UniqueID client]})).

(** ** Sending *)

Record ChatSend := {
  cs_ChannelID : string;
  cs_ToClientID : string;
  cs_ToUniqueID : string;
  cs_Text : string;
  cs_Enc : bool;
  cs_KeyID : Z;
  cs_ReplyToID : Z;
  cs_ClientMsgID : string;
}.

(** Slow mode: [true] when the message has to wait. *)
Definition slow_mode (client : Conn) (channelID : Z) : C bool :=
  if channelID =? 0 then se_ret false
  else
    run st <- on_server get_state;
    match GetChannel channelID st with
    | None => se_ret false
    | Some ch =>
        if ch_SlowModeSeconds ch <=? 0 then se_ret false
        else
          run pc <- on_server (permChecker_ E client);
          let privileged := match pc with
                            | Ok pc => granted_ pc PermissionKeyChatSlowmodeBypass
                            | Err _ => false
                            end in
          if privileged : bool then se_ret false
          else
            run now <- on_server (time_Now E);
            on_chat (λ c,
              let k := (cn_UniqueID client, channelID) in
              let '(last, wait) := slow_check (ct_slow c !! k) (ch_SlowModeSeconds ch) now in
              (set_slow (λ m, match last with Some t => <[k := t]> m | None => m end) c, 0 <? wait))
    end.

Definition record_spam (uid body : string) : C bool :=
  run now <- on_server (time_Now E);
  on_chat (λ c,
    let '(l, spam) := spam_record (default [] (ct_spam c !! uid)) (ce_digest F body) now in
    (set_spam <[uid := l]> c, spam)).

Definition k_open (scope gen : Z) (blob : string) : H (result ChatKeyError (list Z)) :=
  on_keys (open (env_db E) (env_Open E) (env_has_store E) (env_kek E) scope gen blob).
Definition k_current (scope : Z) : H (result ChatKeyError (Z * key)) :=
  on_keys (current (env_db E) (env_Open E) (env_has_store E) (env_kek E) scope).
Definition k_seal (scope : Z) (plain : list Z) : H (result ChatKeyError (Z * string)) :=
  on_keys (seal (env_db E) (env_rnd E) (env_Seal E) (env_Open E) (env_has_store E) (env_kek E) scope plain).

(** The plaintext of a message: its text, or what the named generation opens it to. *)
Definition decrypt (scope : Z) (enc : bool) (keyID : Z) (text : string) : C (option string) :=
  if enc then
    run r <- on_server (k_open scope keyID text);
    se_ret (match r with Ok p => Some (string_of_bytes p) | Err _ => None end)
  else se_ret (Some text).

Definition too_long (plain : string) : bool :=
  (0 <? ce_maxLength F) && (ce_maxLength F <? Z.of_nat (String.length plain)).

(** The relay of a stored message. *)
Definition relay_event (client : Conn) (channelID : Z) (chat : ChatBroadcast) : C () :=
  if channelID =? 0 then on_server (effect_ (ToAll (EvChat chat)))
  else on_server (broadcastChannelScoped E channelID (EvChat chat)).

Definition chat_broadcast (client : Conn) (channelID : Z) (msg : ChatSend) (bodyEnc : string) (keyID id : Z)
    (mentions : list string) : ChatBroadcast :=
  {| cb_ChannelID := if channelID =? 0 then "" else pretty channelID;
     cb_Direct := false; cb_ToUniqueID := "";
     cb_FromClientID := cn_ID client; cb_FromUniqueID := cn_UniqueID client; cb_From := cn_Username client;
     cb_Text := bodyEnc; cb_Offline := false; cb_Enc := true; cb_KeyID := keyID; cb_E2E := false;
     cb_ID := id; cb_ReplyToID := cs_ReplyToID msg; cb_Version := 1; cb_Mentions := mentions;
     cb_ClientMsgID := cs_ClientMsgID msg |}.

(** The reply target, when there is one, is a live message of the same scope;
    otherwise the error to report. *)
Definition check_reply (channelID replyToID : Z) : C (option (Z * string)) :=
  if replyToID =? 0 then se_ret None
  else
    run r <- on_db (Get_ replyToID);
    se_ret (match r with
            | Err _ => Some (errCodeUnavailable, "reply target lookup failed")
            | Ok None => Some (errCodeMalformed, "reply target is not in this chat")
            | Ok (Some parent) =>
                if bool_decide (msg_DeletedAt parent ≠ None) || negb (msg_ChannelID parent =? channelID)
                then Some (errCodeMalformed, "reply target is not in this chat")
                else None
            end).

(** What is stored: the sender's ciphertext verbatim, or the plaintext sealed
    under the current generation. *)
Definition seal_body (channelID : Z) (msg : ChatSend) (plain : string) : C (option (string * Z)) :=
  if cs_Enc msg then se_ret (Some (cs_Text msg, cs_KeyID msg))
  else
    run r <- on_server (k_EnsureScope E channelID);
    match r with
    | Err _ => se_ret None
    | Ok _ =>
        run r <- on_server (k_seal channelID (bytes_of_string plain));
        se_ret (match r with Ok (id, ct) => Some (ct, id) | Err _ => None end)
    end.

Definition store_and_relay (client : Conn) (channelID : Z) (msg : ChatSend) (bodyEnc : string) (keyID : Z)
    (mentions : list string) : C () :=
  run bad <- check_reply channelID (cs_ReplyToID msg);
  match bad with
  | Some (code, text) => refuse client code text
  | None =>
      run r <- on_db (Store_ channelID (cn_UniqueID client) (cn_Username client) bodyEnc keyID
                        (cs_ReplyToID msg) (cs_ClientMsgID msg));
      match r with
      | Err _ => refuse client errCodeUnavailable "message not stored — not delivered"
      | Ok (id, inserted) =>
          if negb inserted then se_ret ()
          else relay_event client channelID (chat_broadcast client channelID msg bodyEnc keyID id mentions)
      end
  end.

Definition routeScopedChat (client : Conn) (msg : ChatSend) (channelID : Z) : C () :=
  run wait <- slow_mode client channelID;
  if wait : bool then refuse client errCodeMalformed "slow mode: wait before your next message in this channel"
  else
    run plain <- decrypt channelID (cs_Enc msg) (cs_KeyID msg) (cs_Text msg);
    match plain with
    | None => refuse client errCodeMalformed "message decryption failed (stale key?)"
    | Some plain =>
        if too_long plain then refuse client errCodeMalformed "message too long"
        else
          let moderated := stripAttachmentRefs plain in
          run bad <- moderate moderated;
          match bad with
          | Some text => refuse client errCodeMalformed text
          | None =>
              run spam <- record_spam (cn_UniqueID client) moderated;
              if spam : bool then
                refuse client errCodeMalformed "possible spam detected — please vary your messages"
              else
                run mentions <- on_server (parseMentions client channelID plain);
                run sealed <- seal_body channelID msg plain;
                match sealed with
                | None => refuse client errCodeUnavailable "chat key unavailable"
                | Some (bodyEnc, keyID) => store_and_relay client channelID msg bodyEnc keyID mentions
                end
          end
    end.

(** ** Direct messages *)

Definition direct_event (client : Conn) (msg : ChatSend) (toUniqueID : string) : Event :=
  EvChat {| cb_ChannelID := cs_ChannelID msg; cb_Direct := true; cb_ToUniqueID := toUniqueID;
            cb_FromClientID := cn_ID client; cb_FromUniqueID := cn_UniqueID client; cb_From := cn_Username client;
            cb_Text := cs_Text msg; cb_Offline := false; cb_Enc := cs_Enc msg; cb_KeyID := cs_KeyID msg;
            cb_E2E := cs_Enc msg; cb_ID := 0; cb_ReplyToID := 0; cb_Version := 0; cb_Mentions := [];
            cb_ClientMsgID := cs_ClientMsgID msg |}.

(** Delivery to a connection and the echo to the sender. *)
Definition deliver_direct (client : Conn) (to : string) (ev : Event) : H () :=
  run ok <- BroadcastToClient_ E to ev;
  if negb ok then sendErrorFor E client errCodeNotFound "target client not reachable"
  else
    run _ <- BroadcastToClient_ E (cn_ID client) ev;
    se_ret ().

Definition sendDirectByUniqueID (client : Conn) (toUniqueID : string) (ev : Event) (text : string) (enc : bool)
  : C () :=
  run tc <- on_server (clientByUniqueID toUniqueID);
  match tc with
  | Some tc => on_server (deliver_direct client (cn_ID tc) ev)
  | None => λ w,
      match ce_lookupUser F (db_calls (ct_db w.2)) toUniqueID with
      | UserNotFound => refuse client errCodeNotFound "target user not found" w
      | LookupFailed => refuse client errCodeUnavailable "user lookup failed" w
      | UserFound id =>
          (if negb enc then
             refuse client errCodePermissionDenied
               "target user is offline and plaintext direct messages are never spooled — encrypt the message"
           else
             run r <- on_db (SpoolMessage (ce_db F) (ce_dbclock F) (ce_userExists F) (cn_userID client) id
                               (cn_UniqueID client) text);
             match r with
             | Err _ => refuse client errCodeUnavailable "spooling message failed"
             | Ok _ => se_ret ()
             end) w
      end
  end.

Definition send_direct (client : Conn) (msg : ChatSend) : C () :=
  run target <- on_server (clientByID (cs_ToClientID msg));
  let toUniqueID :=
    if String.eqb (cs_ToUniqueID msg) "" then
      match target with Some t => cn_UniqueID t | None => "" end
    else cs_ToUniqueID msg in
  let ev := direct_event client msg toUniqueID in
  if negb (String.eqb (cs_ToUniqueID msg) "") then
    sendDirectByUniqueID client (cs_ToUniqueID msg) ev (cs_Text msg) (cs_Enc msg)
  else on_server (deliver_direct client (cs_ToClientID msg) ev).

(** The key id of an encrypted message must be the current generation's;
    otherwise the error to report. *)
Definition check_current (channelID keyID : Z) : C (option (Z * string)) :=
  run r <- on_server (k_current channelID);
  se_ret (match r with
          | Err ErrNoScopeKey => Some (errCodeUnavailable, "no chat key for this channel yet — rejoin the channel")
          | Err _ => Some (errCodeUnavailable, "chat key unavailable")
          | Ok (currentID, _) =>
              if keyID =? currentID then None
              else Some (errCodeMalformed, "stale chat key for " +:+
                     (if channelID =? 0 then "global scope" else "channel") +:+
                     " (key rotated; wait for re-key)")
          end).

Definition send_scoped (client : Conn) (msg : ChatSend) (channelID : Z) : C () :=
  run readable <- (if channelID =? 0 then se_ret true else on_server (scopeReadable E client channelID));
  if negb readable then refuse client errCodePermissionDenied "not a member or subscriber of this channel"
  else
    run bad <- (if cs_Enc msg then check_current channelID (cs_KeyID msg) else se_ret None);
    match bad with
    | Some (code, text) => refuse client code text
    | None => routeScopedChat client msg channelID
    end.

Definition handleChatSend (client : Conn) (msg : option ChatSend) : C () :=
  match msg with
  | None => refuse client errCodeMalformed "malformed chat_send"
  | Some msg =>
      if cn_rulesPending client then
        refuse client errCodePermissionDenied "accept the server rules before sending messages"
      else if decide (maxChatBytes < String.length (cs_Text msg))%nat then
        refuse client errCodeMalformed "chat message too large"
      else if negb (cs_Enc msg) && negb (ce_allowPlaintext F) then
        refuse client errCodePermissionDenied "plaintext chat is disabled on this server — update your client (chat encryption is mandatory)"
      else if cs_Enc msg && (cs_KeyID msg =? 0) && negb (String.eqb (cs_ChannelID msg) "") then
        refuse client errCodeMalformed "channel chat requires a scope key id"
      else
        let isDM := negb (String.eqb (cs_ToUniqueID msg) "") || negb (String.eqb (cs_ToClientID msg) "") in
        run limit <- on_server (chatActionLimit client);
        run ok <- on_server (allowLimit E (cn_UniqueID client) limit);
        if negb ok then refuse client errCodeMalformed "chat rate limit exceeded — slow down"
        else if isDM then send_direct client msg
        else
          match (if String.eqb (cs_ChannelID msg) "" then Some 0 else ParseInt (cs_ChannelID msg)) with
          | None => refuse client errCodeMalformed ("invalid channel_id: " +:+ cs_ChannelID msg)
          | Some channelID => send_scoped client msg channelID
          end
  end.

(** The loop of [deliverSpooled]: the ids that reached the client. *)
Fixpoint deliver_spooled (client : Conn) (l : list SpooledMessage) : H (list Z) :=
  match l with
  | [] => se_ret []
  | m :: l =>
      run ok <- BroadcastToClient_ E (cn_ID client)
        (EvChat {| cb_ChannelID := ""; cb_Direct := false; cb_ToUniqueID := "";
                   cb_FromClientID := pretty (sm_FromUserID m); cb_FromUniqueID := sm_FromUniqueID m;
                   cb_From := sm_FromName m; cb_Text := sm_Message m; cb_Offline := true; cb_Enc := true;
                   cb_KeyID := 0; cb_E2E := true; cb_ID := 0; cb_ReplyToID := 0; cb_Version := 0;
                   cb_Mentions := []; cb_ClientMsgID := "" |});
      run ids <- deliver_spooled client l;
      se_ret (if ok : bool then sm_ID m :: ids else ids)
  end.

Definition deliverSpooled (client : Conn) (userID : Z) : C () :=
  run r <- on_db (PendingMessages (ce_db F) (ce_dbclock F) (ce_nickname F) userID);
  match r with
  | Err _ => se_ret ()
  | Ok msgs =>
      if bool_decide (msgs = []) then se_ret ()
      else
        run ids <- on_server (deliver_spooled client msgs);
        run _ <- on_db (MarkMessagesDelivered (ce_db F) (ce_dbclock F) ids);
        se_ret ()
  end.

End relay.
