(* ===== verification/ChatHandlers.v ===== *)
(** * Stored messages, indicators and receipts: the other handlers of
    [src/internal/server/chatx.go]

    History and pins with the key generations a page needs, edits, deletes, pins,
    reactions, typing indicators and the receipts of direct messages. *)

From stdpp Require Import pretty.
From S2P Require Import Prelude Permissions StateManager StateInvariant PermLoader PermCache PermCheck ChannelManager Wire GoState Base64 ChatKeys ChatText ServerWorld ChatScope ChatStore ChatRelay.

Definition key_le (a b : ChannelKey) : Prop := cky_KeyID a <= cky_KeyID b.
#[export] Instance key_le_dec : RelDecision key_le.
Proof. intros a b. unfold key_le. apply _. Defined.

Definition unix (t : Z) : Z := t / second.

Definition chatHistoryEntry (id : Z) (m : ChatMessage) (reactions : gmap string Z) : ChatHistoryEntry :=
  {| he_ID := id; he_FromUniqueID := msg_FromUniqueID m; he_FromNickname := msg_FromNickname m;
     he_ReplyToID := msg_ReplyToID m; he_Version := msg_Version m;
     he_BodyEnc := match msg_DeletedAt m with Some _ => "" | None => msg_BodyEnc m end;
     he_KeyID := match msg_DeletedAt m with Some _ => 0 | None => msg_KeyID m end;
     he_SentAt := unix (msg_SentAt m);
     he_EditedAt := match msg_EditedAt m with Some t => unix t | None => 0 end;
     he_Deleted := bool_decide (msg_DeletedAt m ≠ None);
     he_Reactions := reactions |}.

(** The distinct generations a page references. *)
Definition gens_of (l : list ChatHistoryEntry) : gset Z :=
  list_to_set (filter (λ g, g ≠ 0) (he_KeyID <$> l)).

Section handlers.
Context (E : Env) (F : ChatEnv).
Context `{!∀ V, MapRange Z V, !∀ V, MapRange (Z * Z) V, !∀ V, MapRange string V}.

#[local] Abbreviation refuse := (refuse E).
#[local] Abbreviation get_message id := (on_db (GetChatMessage (ce_db F) (ce_dbclock F) id)).

(** ** History and pins *)

Definition publishedKey (client : Conn) : H string :=
  run st <- get_state;
  se_ret (match GetClient (cn_ID client) st with Some sc => cl_E2EPublicKey sc | None => "" end).

(** The loop of [scopeKeyBundle], newest generation first; [n] keys are in. *)
Fixpoint bundle_keys (scope : Z) (pub : string) (n : nat) (gens : list Z) : H (list ChannelKey * list Z * bool) :=
  match gens with
  | [] => se_ret ([], [], false)
  | g :: gens =>
      if decide (maxKeysPerResponse ≤ n)%nat then se_ret ([], [], true)
      else
        run r <- k_sealFor E scope g pub;
        match r with
        | Err _ =>
            run rest <- bundle_keys scope pub n gens;
            se_ret (rest.1.1, g :: rest.1.2, rest.2)
        | Ok ck =>
            run rest <- bundle_keys scope pub (S n) gens;
            se_ret (ck :: rest.1.1, rest.1.2, rest.2)
        end
  end.

Definition scopeKeyBundle (scope : Z) (pub : string) (gens : gset Z) : H (list ChannelKey * list Z * bool) :=
  run r <- bundle_keys scope pub 0 (reverse (sort_by Z.le (elements gens)));
  se_ret (sort_by key_le r.1.1, sort_by Z.le r.1.2, r.2).

Record ChatHistoryReq := { hr_ChannelID : Z; hr_BeforeID : Z; hr_Limit : Z }.

Definition handleChatHistory (client : Conn) (msg : option ChatHistoryReq) : C () :=
  match msg with
  | None => refuse client errCodeMalformed "malformed chat_history"
  | Some msg =>
      run readable <- on_server (scopeReadable E client (hr_ChannelID msg));
      if negb readable then refuse client errCodePermissionDenied "not a member of this channel"
      else
        let limit := if (cn_userID client =? 0) && ((hr_Limit msg <=? 0) || (50 <? hr_Limit msg))
                     then 50 else hr_Limit msg in
        run pub <- on_server (publishedKey client);
        if String.eqb pub "" then
          refuse client errCodePermissionDenied "publish an encryption key before reading history"
        else
          run r <- on_db (ChatHistory (ce_db F) (ce_dbclock F) (hr_ChannelID msg) (hr_BeforeID msg) limit);
          match r with
          | Err _ => refuse client errCodeUnavailable "history query failed"
          | Ok msgs =>
              run r <- on_db (ReactionsFor (ce_db F) (ce_dbclock F) (ce_clock F) msgs.*1);
              let reactions := match r with Ok m => m | Err _ => ∅ end in
              let entries := (λ '(id, m), chatHistoryEntry id m (default ∅ (reactions !! id))) <$> msgs in
              run b <- on_server (scopeKeyBundle (hr_ChannelID msg) pub (gens_of entries));
              on_server (writeMessage E (cn_ID client)
                (MChatHistory (hr_ChannelID msg) entries b.1.1 b.1.2 b.2))
          end
  end.

Definition pin_entry (p : PinnedMessage) : ChatPinEntry :=
  {| pe_MessageID := pm_MessageID p; pe_PinnedBy := pm_PinnedBy p; pe_PinnedAt := unix (pm_PinnedAt p);
     pe_Message := (λ m, chatHistoryEntry (pm_MessageID p) m ∅) <$> pm_Message p |}.

Definition handleChatPins (client : Conn) (msg : option Z) : C () :=
  match msg with
  | None => refuse client errCodeMalformed "malformed chat_pins"
  | Some channelID =>
      run readable <- on_server (scopeReadable E client channelID);
      if negb readable then refuse client errCodePermissionDenied "not a member of this channel"
      else
        run pub <- on_server (publishedKey client);
        if String.eqb pub "" then
          refuse client errCodePermissionDenied "publish an encryption key before reading history"
        else
          run r <- on_db (ChatPins (ce_db F) (ce_dbclock F) channelID);
          match r with
          | Err _ => refuse client errCodeUnavailable "pins query failed"
          | Ok pins =>
              let entries := pin_entry <$> pins in
              run b <- on_server (scopeKeyBundle channelID pub (gens_of (omap pe_Message entries)));
              on_server (writeMessage E (cn_ID client) (MChatPins channelID entries b.1.1 b.1.2 b.2))
          end
  end.

(** ** Edits and deletes *)

Definition broadcastScope (channelID : Z) (ev : Event) : C () :=
  if channelID =? 0 then on_server (effect_ (ToAll ev))
  else on_server (broadcastChannelScoped E channelID ev).

Record ChatEdit := {
  ed_MessageID : Z;
  ed_NewText : string;
  ed_Enc : bool;
  ed_KeyID : Z;
  ed_ExpectedVersion : Z;
}.

(** What an edit is about to store, after moderation: the ciphertext and its
    generation, or the error to report. *)
Definition edit_body (channelID : Z) (msg : ChatEdit) : C (result (Z * string) (string * Z)) :=
  run stale <- (if ed_Enc msg then
                  run r <- on_server (k_current E channelID);
                  se_ret (match r with
                          | Err _ => Some (errCodeUnavailable, "no chat key for this channel yet — rejoin the channel")
                          | Ok (currentID, _) =>
                              if ed_KeyID msg =? currentID then None
                              else Some (errCodeMalformed, "stale chat key for channel (key rotated; wait for re-key)")
                          end)
                else se_ret None);
  match stale with
  | Some e => se_ret (Err e)
  | None =>
      run plain <- decrypt E channelID (ed_Enc msg) (ed_KeyID msg) (ed_NewText msg);
      match plain with
      | None => se_ret (Err (errCodeMalformed, "message decryption failed (stale key?)"))
      | Some plain =>
          if too_long F plain then se_ret (Err (errCodeMalformed, "message too long"))
          else
            run bad <- moderate F (stripAttachmentRefs plain);
            match bad with
            | Some text => se_ret (Err (errCodeMalformed, text))
            | None =>
                if ed_Enc msg then se_ret (Ok (ed_NewText msg, ed_KeyID msg))
                else
                  run r <- on_server (k_seal E channelID (bytes_of_string plain));
                  se_ret (match r with
                          | Ok (id, ct) => Ok (ct, id)
                          | Err _ => Err (errCodeUnavailable, "chat key unavailable")
                          end)
            end
      end
  end.

Definition handleChatEdit (client : Conn) (msg : option ChatEdit) : C () :=
  match msg with
  | None => refuse client errCodeMalformed "malformed chat_edit"
  | Some msg =>
      if negb (ed_Enc msg) && negb (ce_allowPlaintext F) then
        refuse client errCodePermissionDenied "plaintext chat is disabled on this server — update your client (chat encryption is mandatory)"
      else
        run r <- get_message (ed_MessageID msg);
        match r with
        | Err _ => refuse client errCodeUnavailable "message lookup failed"
        | Ok None => refuse client errCodeNotFound "message not found"
        | Ok (Some stored) =>
            if bool_decide (msg_DeletedAt stored ≠ None) then refuse client errCodeNotFound "message not found"
            else if negb (String.eqb (msg_FromUniqueID stored) (cn_UniqueID client)) then
              refuse client errCodePermissionDenied "you can only edit your own messages"
            else
              run b <- edit_body (msg_ChannelID stored) msg;
              match b with
              | Err (code, text) => refuse client code text
              | Ok (bodyEnc, keyID) =>
                  run r <- on_db (EditChatMessage (ce_db F) (ce_dbclock F) (ed_MessageID msg) bodyEnc keyID
                                    (ed_ExpectedVersion msg));
                  match r with
                  | Err ErrChatEditConflict =>
                      refuse client errCodeConflict "message changed on another client; reload before editing"
                  | Err _ => refuse client errCodeNotFound "edit failed"
                  | Ok version =>
                      broadcastScope (msg_ChannelID stored)
                        (EvChatEdited (ed_MessageID msg) (msg_ChannelID stored) bodyEnc keyID
                           (cn_UniqueID client) version)
                  end
              end
        end
  end.

(** May the caller delete a message of [author]: its own, or any with the
    permission; otherwise the error to report. *)
Definition delete_allowed (client : Conn) (author : string) : C (option (Z * string)) :=
  if String.eqb author (cn_UniqueID client) then se_ret None
  else
    run pc <- on_server (permChecker_ E client);
    se_ret (match pc with
            | Err _ => Some (errCodeUnavailable, "permission backend unavailable")
            | Ok pc => if granted_ pc PermissionKeyChatDeleteAny then None
                       else Some (errCodePermissionDenied,
                              "insufficient permission: " +:+ PermissionKeyChatDeleteAny)
            end).

Definition handleChatDelete (client : Conn) (msg : option Z) : C () :=
  match msg with
  | None => refuse client errCodeMalformed "malformed chat_delete"
  | Some messageID =>
      run r <- get_message messageID;
      match r with
      | Err _ => refuse client errCodeUnavailable "message lookup failed"
      | Ok None => refuse client errCodeNotFound "message not found"
      | Ok (Some stored) =>
          if bool_decide (msg_DeletedAt stored ≠ None) then refuse client errCodeNotFound "message not found"
          else
            run bad <- delete_allowed client (msg_FromUniqueID stored);
            match bad with
            | Some (code, text) => refuse client code text
            | None =>
                run r <- on_db (DeleteChatMessage (ce_db F) (ce_dbclock F) messageID);
                match r with
                | Err _ => refuse client errCodeNotFound "delete failed"
                | Ok _ => broadcastScope (msg_ChannelID stored)
                            (EvChatDeleted messageID (msg_ChannelID stored) (cn_UniqueID client))
                end
            end
      end
  end.

(** ** Pins *)

Record ChatPin := { pin_ChannelID : Z; pin_MessageID : Z; pin_Pinned : bool }.

(** The table change of a pin request, or the error to report. *)
Definition change_pin (client : Conn) (msg : ChatPin) : C (option (Z * string)) :=
  if pin_Pinned msg then
    run r <- get_message (pin_MessageID msg);
    match r with
    | Ok (Some stored) =>
        if bool_decide (msg_DeletedAt stored ≠ None) then se_ret (Some (errCodeNotFound, "message not found"))
        else if negb (msg_ChannelID stored =? pin_ChannelID msg) then
          se_ret (Some (errCodeMalformed, "message is not in this channel"))
        else
          run r <- on_db (PinChatMessage (ce_db F) (ce_dbclock F) (pin_ChannelID msg) (pin_MessageID msg)
                            (cn_UniqueID client));
          se_ret (match r with Err _ => Some (errCodeUnavailable, "pin failed") | Ok _ => None end)
    | _ => se_ret (Some (errCodeNotFound, "message not found"))
    end
  else
    run r <- on_db (UnpinChatMessage (ce_db F) (ce_dbclock F) (pin_ChannelID msg) (pin_MessageID msg));
    se_ret (match r with Err _ => Some (errCodeUnavailable, "unpin failed") | Ok _ => None end).

Definition handleChatPin (client : Conn) (msg : option ChatPin) : C () :=
  match msg with
  | None => refuse client errCodeMalformed "malformed chat_pin"
  | Some msg =>
      run pc <- on_server (permChecker_ E client);
      match pc with
      | Err _ => refuse client errCodeUnavailable "permission backend unavailable"
      | Ok pc =>
          if negb (granted_ pc PermissionKeyChannelModify) then
            refuse client errCodePermissionDenied ("insufficient permission: " +:+ PermissionKeyChannelModify)
          else
            run bad <- change_pin client msg;
            match bad with
            | Some (code, text) => refuse client code text
            | None => broadcastScope (pin_ChannelID msg)
                        (EvChatPinned (pin_Pinned msg) (pin_MessageID msg) (pin_ChannelID msg) (cn_UniqueID client))
            end
      end
  end.

(** ** Reactions *)

Definition handleChatReact (client : Conn) (msg : option (Z * string)) : C () :=
  match msg with
  | None => refuse client errCodeMalformed "malformed chat_react"
  | Some (messageID, emoji) =>
      if String.eqb emoji "" || bool_decide (32 < ce_runeCount F emoji)%nat then
        refuse client errCodeMalformed "invalid emoji"
      else
        run r <- get_message messageID;
        match r with
        | Ok (Some stored) =>
            if bool_decide (msg_DeletedAt stored ≠ None) then refuse client errCodeNotFound "message not found"
            else
              run r <- on_db (ToggleReaction (ce_db F) (ce_dbclock F) (ce_clock F) messageID
                                (cn_UniqueID client) emoji);
              match r with
              | Err _ => refuse client errCodeUnavailable "reaction failed"
              | Ok (counts, added) =>
                  broadcastScope (msg_ChannelID stored)
                    (EvChatReaction messageID (msg_ChannelID stored) counts (cn_UniqueID client) added)
              end
        | _ => refuse client errCodeNotFound "message not found"
        end
  end.

(** ** Typing indicators and receipts *)

Record TypingMsg := { ty_ChannelID : Z; ty_ToUniqueID : string }.

Definition typing_scope (msg : TypingMsg) : string :=
  if negb (String.eqb (ty_ToUniqueID msg) "") then "dm:" +:+ ty_ToUniqueID msg
  else if negb (ty_ChannelID msg =? 0) then "channel:" +:+ pretty (ty_ChannelID msg)
  else "global".

Definition handleTyping (client : Conn) (msg : option TypingMsg) : C () :=
  match msg with
  | None => refuse client errCodeMalformed "malformed typing"
  | Some msg =>
      run now <- on_server (time_Now E);
      run ok <- on_chat (λ c,
        let k := cn_UniqueID client +:+ String (Ascii.ascii_of_nat 0) EmptyString +:+ typing_scope msg in
        let '(t, ok) := typing_allow k now (ct_typing c) in (set_typing t c, ok));
      let ev := EvTyping (cn_ID client) (cn_UniqueID client) (cn_Username client) (ty_ChannelID msg) in
      if negb ok then se_ret ()
      else if negb (String.eqb (ty_ToUniqueID msg) "") then
        run tc <- on_server (clientByUniqueID (ty_ToUniqueID msg));
        match tc with
        | Some tc => run _ <- on_server (BroadcastToClient_ E (cn_ID tc) ev); se_ret ()
        | None => se_ret ()
        end
      else if negb (ty_ChannelID msg =? 0) then
        run readable <- on_server (scopeReadable E client (ty_ChannelID msg));
        if negb readable then se_ret ()
        else on_server (broadcastChannelScoped E (ty_ChannelID msg) ev)
      else on_server (effect_ (ToAll ev))
  end.

Record ReceiptMsg := { rc_ToUniqueID : string; rc_ClientMsgID : string }.

Definition relayReceipt (client : Conn) (read : bool) (msg : ReceiptMsg) : C () :=
  if String.eqb (rc_ClientMsgID msg) "" then refuse client errCodeMalformed "client_msg_id is required"
  else
    run tc <- on_server (clientByUniqueID (rc_ToUniqueID msg));
    match tc with
    | Some tc =>
        run _ <- on_server (BroadcastToClient_ E (cn_ID tc)
                              (EvReceipt read (cn_UniqueID client) (rc_ClientMsgID msg)));
        se_ret ()
    | None => se_ret ()
    end.

Definition handleChatDelivered (client : Conn) (msg : option ReceiptMsg) : C () :=
  match msg with
  | None => refuse client errCodeMalformed "malformed chat_delivered"
  | Some msg => relayReceipt client false msg
  end.

Definition handleChatRead (client : Conn) (msg : option ReceiptMsg) : C () :=
  match msg with
  | None => refuse client errCodeMalformed "malformed chat_read"
  | Some msg => relayReceipt client true msg
  end.

End handlers.

(** * Sealed server settings ([src/internal/server/chatx.go])

    The message of the day and the announcement are stored sealed under the global
    chat scope and handed out under its current generation: [serverSettingSealed]
    seals them anew after a rotation. *)

Definition sealedSetting (key : string) : bool := bool_decide (key = "motd") || bool_decide (key = "announcement").

Section settings.
Context (E : Env) (F : ChatEnv).

#[local] Abbreviation Get_ key := (on_db (GetServerSetting (ce_db F) (ce_dbclock F) key)).
#[local] Abbreviation Set_ key v gen := (on_db (SetServerSetting (ce_db F) (ce_dbclock F) key v gen)).

Definition serverSetting (key : string) : C string :=
  run r <- Get_ key;
  se_ret (match r with Ok (v, _) => v | Err _ => "" end).

(** [serverSettingSealed]; [None] stands for an error. *)
Definition serverSettingSealed (key : string) : C (option (string * Z)) :=
  run r <- Get_ key;
  match r with
  | Err _ => se_ret None
  | Ok (v, gen) =>
      if bool_decide (v = "") then se_ret (Some ("", 0))
      else if negb (keys_configured E) then se_ret None
      else
        run cur <- on_server (k_current E globalChatScope);
        match cur with
        | Err _ => se_ret None
        | Ok (currentID, _) =>
            if gen =? currentID then se_ret (Some (v, gen))
            else
              run plain <- (if negb (gen =? 0) then
                              run p <- on_server (k_open E globalChatScope gen v);
                              se_ret (match p with Ok p => Some p | Err _ => None end)
                            else se_ret (Some (bytes_of_string v)));
              match plain with
              | None => se_ret None
              | Some plain =>
                  run sealed <- on_server (k_seal E globalChatScope plain);
                  match sealed with
                  | Err _ => se_ret None
                  | Ok (id, ct) => run _ <- Set_ key ct id; se_ret (Some (ct, id))
                  end
              end
        end
  end.

Definition serverSettingPlain (key : string) : C string :=
  run r <- Get_ key;
  match r with
  | Err _ => se_ret ""
  | Ok (v, gen) =>
      if bool_decide (v = "") || (gen =? 0) then se_ret v
      else
        run p <- on_server (k_open E globalChatScope gen v);
        se_ret (match p with Ok p => string_of_bytes p | Err _ => "" end)
  end.

(** [SetServerSettingAndAnnounce]; whether it returned without an error. *)
Definition SetServerSettingAndAnnounce (key value : string) : C bool :=
  let store (value : string) (keyID : Z) : C bool :=
    run r <- Set_ key value keyID;
    match r with
    | Err _ => se_ret false
    | Ok _ =>
        run _ <- (if bool_decide (key = chatFiltersKey) then invalidateFilters else se_ret ());
        run _ <- (if bool_decide (key = "announcement") && negb (bool_decide (value = ""))
                  then on_server (effect_ (ToAll (EvAnnouncement value (0 <? keyID) keyID))) else se_ret ());
        se_ret true
    end in
  if sealedSetting key && negb (bool_decide (value = "")) then
    if negb (keys_configured E) then se_ret false
    else
      run e <- on_server (k_EnsureScope E globalChatScope);
      match e with
      | Err _ => se_ret false
      | Ok _ =>
          run sealed <- on_server (k_seal E globalChatScope (bytes_of_string value));
          match sealed with
          | Err _ => se_ret false
          | Ok (id, ct) => store ct id
          end
      end
  else store value 0.

End settings.
