(* ===== verification/AuthService.v ===== *)
(** * Accounts, identities and bans ([src/internal/auth/service.go], [identity.go], [limiter.go])

    The users and bans tables with the statements of the account service on them.
    A statement may fail, or take effect and have its answer lost, by an oracle
    over the number of statements made so far. Argon2, SHA-256, PEM and Ed25519
    are parameters; every password verification is counted, since the service
    promises one per attempt whether or not the account exists. *)

From Stdlib Require Import Ascii.
From S2P Require Import Prelude Wire Base64 GoState ChatKeys ChatText Passwords.

Record UserRow := mkUserRow {
  ur_unique_id : string;
  ur_nickname : option string;
  ur_password_hash : option string;
  ur_public_key : option string;
  ur_is_admin : bool;
  ur_e2e_public_key : option string;
}.

Record BanRow := {
  br_type : Z;                 (* 0=IP, 1=unique_id, 2=nickname *)
  br_value : string;
  br_reason : option string;
  br_expires : option Z;
  br_channel : option Z;
}.

Record Accounts := mkAccounts {
  ac_users : gmap Z UserRow;
  ac_nextID : Z;
  ac_bans : gmap Z BanRow;
  ac_accepted : gmap Z string;   (* server_rules_acceptance: rules_hash by user_id *)
  ac_calls : nat;
  ac_kdf : nat;
}.

Definition set_users (f : gmap Z UserRow → gmap Z UserRow) (a : Accounts) : Accounts :=
  mkAccounts (f (ac_users a)) (ac_nextID a) (ac_bans a) (ac_accepted a) (ac_calls a) (ac_kdf a).
Definition set_accepted (f : gmap Z string → gmap Z string) (a : Accounts) : Accounts :=
  mkAccounts (ac_users a) (ac_nextID a) (ac_bans a) (f (ac_accepted a)) (ac_calls a) (ac_kdf a).
Definition tick_call (a : Accounts) : Accounts :=
  mkAccounts (ac_users a) (ac_nextID a) (ac_bans a) (ac_accepted a) (S (ac_calls a)) (ac_kdf a).
Definition tick_kdf (a : Accounts) : Accounts :=
  mkAccounts (ac_users a) (ac_nextID a) (ac_bans a) (ac_accepted a) (ac_calls a) (S (ac_kdf a)).

Record User := { us_ID : Z; us_UniqueID : string; us_Nickname : string; us_IsAdmin : bool }.

Record Ban := { bn_ID : Z; bn_Type : Z; bn_Value : string; bn_Reason : string; bn_ExpiresAt : option Z }.

Inductive AuthErr :=
| ErrUserNotFound | ErrUserExists | ErrPasswordTooShort | ErrRegister (e : PasswordErr)
| ErrAuthDB | ErrKeyPair | ErrPublicKey | ErrBadSignature.

Definition minRegistrationPasswordBytes : nat := 12.

Abbreviation A := (SE Accounts AuthErr).

Definition user_of (id : Z) (r : UserRow) : User :=
  {| us_ID := id; us_UniqueID := ur_unique_id r; us_Nickname := default "" (ur_nickname r); us_IsAdmin := ur_is_admin r |}.

Definition validateRegistrationPassword (password : string) : result AuthErr () :=
  if bool_decide (String.length password < minRegistrationPasswordBytes)%nat then Err ErrPasswordTooShort
  else if bool_decide (MaxPasswordBytes < String.length password)%nat then Err (ErrRegister ErrPasswordTooLong)
  else Ok ().

(** [hex.EncodeToString]. *)
Definition hex_digit (n : Z) : ascii := ascii_of_nat (Z.to_nat (if n <? 10 then 48 + n else 87 + n)).
Definition hex (l : list Z) : string :=
  String.string_of_list_ascii (l ≫= λ b, [hex_digit (b / 16); hex_digit (b mod 16)]).

Section auth.
Context (IDKey : list Z → list Z → Z → Z → Z → Z → list Z).
Context (sha256 : list Z → list Z).
Context (pem_Decode : string → option (string * list Z)).       (* block type and bytes *)
Context (pem_Encode : string → list Z → string).
Context (ed_Verify : list Z → list Z → list Z → bool).          (* public key, message, signature *)
Context (text : TextEnv).
Context (db : nat → dbOutcome) (now_db : nat → Z).
Context `{!∀ V, MapRange Z V}.

(** ** Identities *)

Definition LoadPublicKey (publicKeyPEM : string) : result AuthErr (list Z) :=
  match pem_Decode publicKeyPEM with
  | None => Err ErrPublicKey
  | Some (type, bytes) =>
      if negb (bool_decide (type = "PUBLIC KEY")) then Err ErrPublicKey
      else if negb (bool_decide (length bytes = 32%nat)) then Err ErrPublicKey
      else Ok bytes
  end.

Definition UniqueIDFromPublicKey (publicKeyPEM : string) : result AuthErr string :=
  let? pub := LoadPublicKey publicKeyPEM in
  let first := EncodeToString (sha256 pub) in
  Ok (EncodeToString (bytes_of_string first)).

Definition VerifyChallenge (publicKeyPEM : string) (challenge signature : list Z) : result AuthErr () :=
  let? pub := LoadPublicKey publicKeyPEM in
  if bool_decide (challenge = []) then Err ErrBadSignature
  else if bool_decide (signature = []) then Err ErrBadSignature
  else if negb (ed_Verify pub challenge signature) then Err ErrBadSignature
  else Ok ().

(** [GenerateIdentityKeyPair], the public half, on what the random source gave. *)
Definition GenerateIdentityKeyPair (random : option (list Z)) : result AuthErr string :=
  match random with
  | None => Err ErrKeyPair
  | Some pub => Ok (pem_Encode "PUBLIC KEY" pub)
  end.

Definition LoginFailureScope (source principal : string) : string :=
  let source := te_ToLower text (te_TrimSpace text source) in
  hex (sha256 (bytes_of_string source ++ [0] ++ bytes_of_string principal)).

(** ** Statements *)

(** One statement: [op] computes, at the database's time, its effect and answer, or
    the error a constraint raises. *)
Definition statement {B} (op : Z → Accounts → result AuthErr (Accounts * B)) : A B := λ a,
  let o := db (ac_calls a) in
  let now := now_db (ac_calls a) in
  let a := tick_call a in
  match o with
  | DbFailed => (a, Err ErrAuthDB)
  | DbOk => match op now a with Ok (a', b) => (a', Ok b) | Err e => (a, Err e) end
  | DbLost => match op now a with Ok (a', _) => (a', Err ErrAuthDB) | Err _ => (a, Err ErrAuthDB) end
  end.

Definition select {B} (f : Z → Accounts → B) : A B := statement (λ now a, Ok (a, f now a)).

(** The row a query on users that has no order gives. *)
Definition find_user (p : UserRow → bool) (a : Accounts) : option (Z * UserRow) :=
  head (filter (λ r, p r.2 = true) (range (ac_users a))).

Definition by_unique_id (uniqueID : string) (r : UserRow) : bool := bool_decide (ur_unique_id r = uniqueID).
Definition by_nickname (nickname : string) (r : UserRow) : bool := bool_decide (ur_nickname r = Some nickname).
Definition by_public_key (publicKey : string) (r : UserRow) : bool := bool_decide (ur_public_key r = Some publicKey).

(** One run of Argon2. *)
Definition verifyPassword (password encodedHash : string) : A bool := λ a,
  (tick_kdf a, Ok (is_ok (VerifyPassword IDKey password encodedHash))).

Definition verifyUnknownPassword (password : string) : A () :=
  run _ <- verifyPassword password (makeDummyPasswordHash IDKey); se_ret ().

Definition verifyCredential (password hash : string) : A bool :=
  if bool_decide (hash = "") then run _ <- verifyUnknownPassword password; se_ret false
  else verifyPassword password hash.

(** ** Authentication *)

Definition AuthenticatePassword (uniqueID password : string) : A bool :=
  run row <- select (λ _, find_user (by_unique_id uniqueID));
  match row with
  | None => run _ <- verifyUnknownPassword password; se_err ErrUserNotFound
  | Some (_, r) =>
      match ur_password_hash r with
      | None => se_err ErrAuthDB            (* NULL cannot be scanned into a string *)
      | Some hash => verifyCredential password hash
      end
  end.

Definition AuthenticateChallenge (uniqueID : string) (challenge signature : list Z) : A bool :=
  run row <- select (λ _, find_user (by_unique_id uniqueID));
  match row with
  | None => se_err ErrUserNotFound
  | Some (_, r) =>
      match ur_public_key r with
      | None => se_err ErrAuthDB
      | Some pubPEM =>
          if bool_decide (pubPEM = "") then se_ret false
          else se_ret (is_ok (VerifyChallenge pubPEM challenge signature))
      end
  end.

Definition LookupUser (uniqueID : string) : A User :=
  run row <- select (λ _, find_user (by_unique_id uniqueID));
  match row with
  | None => se_err ErrUserNotFound
  | Some (id, r) => se_ret (user_of id r)
  end.

Definition LookupUserByPublicKey (publicKey : string) : A User :=
  run row <- select (λ _, find_user (by_public_key publicKey));
  match row with
  | None => se_err ErrUserNotFound
  | Some (id, r) => se_ret (user_of id r)
  end.

Definition AuthenticateNickname (nickname password : string) : A (option User) :=
  run row <- select (λ _, find_user (by_nickname nickname));
  match row with
  | None => run _ <- verifyUnknownPassword password; se_err ErrUserNotFound
  | Some (id, r) =>
      run ok <- verifyCredential password (default "" (ur_password_hash r));
      se_ret (if ok : bool then Some (user_of id r) else None)
  end.

(** ORDER BY: a match of the unique id comes before a match of the nickname. *)
Definition lookupCredentialByIdentifier (identifier : string) : A (option (User * string)) :=
  select (λ _ a,
    let answer row := Some (user_of row.1 row.2, default "" (ur_password_hash row.2)) in
    match find_user (by_unique_id identifier) a with
    | Some row => answer row
    | None => match find_user (by_nickname identifier) a with Some row => answer row | None => None end
    end).

Definition AuthenticateIdentifier (identifier password : string) : A (option User) :=
  run credential <- lookupCredentialByIdentifier identifier;
  match credential with
  | None => run _ <- verifyUnknownPassword password; se_err ErrUserNotFound
  | Some (user, hash) =>
      run ok <- verifyCredential password hash;
      se_ret (if ok : bool then Some user else None)
  end.

(** ** Accounts *)

(** The unique indexes on unique_id and on nicknames that are set. *)
Definition user_conflict (uniqueID nickname : string) (a : Accounts) : bool :=
  bool_decide (is_Some (find_user (by_unique_id uniqueID) a)) ||
  bool_decide (is_Some (find_user (by_nickname nickname) a)).

Definition RegisterUser (keyRandom saltRandom : option (list Z)) (nickname password : string) : A string :=
  match validateRegistrationPassword password with
  | Err e => se_err e
  | Ok _ =>
      match GenerateIdentityKeyPair keyRandom with
      | Err e => se_err e
      | Ok pubPEM =>
          match UniqueIDFromPublicKey pubPEM with
          | Err e => se_err e
          | Ok uniqueID =>
              match HashPassword IDKey saltRandom password with
              | Err e => se_err (ErrRegister e)
              | Ok hash =>
                  run _ <- statement (λ _ a,
                    if user_conflict uniqueID nickname a then Err ErrUserExists
                    else Ok (mkAccounts
                               (<[ac_nextID a := mkUserRow uniqueID (Some nickname) (Some hash) (Some pubPEM) false None]>
                                  (ac_users a))
                               (ac_nextID a + 1) (ac_bans a) (ac_accepted a) (ac_calls a) (ac_kdf a), ()));
                  se_ret uniqueID
              end
          end
      end
  end.

Definition BindPublicKey (userID : Z) (publicKey : string) : A () :=
  statement (λ _ a, Ok (set_users (alter (λ r,
    mkUserRow (ur_unique_id r) (ur_nickname r) (ur_password_hash r) (Some publicKey) (ur_is_admin r)
      (ur_e2e_public_key r)) userID) a, ())).

Definition auth_SetE2EPublicKey (userID : Z) (publicKey : string) : A () :=
  statement (λ _ a, Ok (set_users (alter (λ r,
    mkUserRow (ur_unique_id r) (ur_nickname r) (ur_password_hash r) (ur_public_key r) (ur_is_admin r)
      (Some publicKey)) userID) a, ())).

Definition GetE2EPublicKey (uniqueID : string) : A string :=
  run row <- select (λ _, find_user (by_unique_id uniqueID));
  match row with
  | None => se_err ErrUserNotFound
  | Some (_, r) => se_ret (default "" (ur_e2e_public_key r))
  end.

(** ** Bans *)

Definition ban_active (uniqueID ip : string) (now : Z) (b : BanRow) : bool :=
  bool_decide (br_channel b = None) &&
  (((br_type b =? 1) && bool_decide (br_value b = uniqueID)) || ((br_type b =? 0) && bool_decide (br_value b = ip))) &&
  match br_expires b with None => true | Some t => now <? t end.

Definition ban_le (a b : Z * BanRow) : Prop := a.1 <= b.1.

#[export] Instance ban_le_dec a b : Decision (ban_le a b).
Proof. unfold ban_le. apply _. Defined.

Definition LookupActiveBan (uniqueID ip : string) : A (option Ban) :=
  select (λ now a,
    match merge_sort ban_le (filter (λ b, ban_active uniqueID ip now b.2 = true) (map_to_list (ac_bans a))) with
    | [] => None
    | (id, b) :: _ =>
        Some {| bn_ID := id; bn_Type := br_type b; bn_Value := br_value b; bn_Reason := default "" (br_reason b);
                bn_ExpiresAt := br_expires b |}
    end).

(** ** What the queries answer *)

Lemma find_user_Some p a id r : find_user p a = Some (id, r) → ac_users a !! id = Some r ∧ p r = true.
Proof using Type.
  unfold find_user. intros Hh%head_Some_elem_of. apply list_elem_of_filter in Hh as [Hp Hin].
  by apply elem_of_range in Hin.
Qed.

Lemma find_user_None p a id r : find_user p a = None → ac_users a !! id = Some r → p r = false.
Proof using Type.
  unfold find_user. intros Hh%head_None Hr. apply elem_of_range in Hr. destruct (p r) eqn:Hp; [|done].
  assert ((id, r) ∈ filter (λ r, p r.2 = true) (range (ac_users a))) as Hin by (by apply list_elem_of_filter).
  rewrite Hh in Hin. by apply elem_of_nil in Hin.
Qed.

Lemma select_spec {B} (f : Z → Accounts → B) a a' r :
  select f a = (a', r) →
  a' = tick_call a ∧ match r with Ok b => ∃ now, b = f now (tick_call a) | Err e => e = ErrAuthDB end.
Proof using Type. unfold select, statement. destruct (db (ac_calls a)); intros [= <- <-]; eauto. Qed.

(** The rows are those of [a], and so is the number of verifications but for [n]. *)
Definition only_reads (n : nat) (a a' : Accounts) : Prop := ac_users a' = ac_users a ∧ ac_kdf a' = (n + ac_kdf a)%nat.

Lemma LookupUser_spec uniqueID a a' r :
  LookupUser uniqueID a = (a', r) →
  only_reads 0 a a' ∧
  match r with
  | Ok u => ∃ id row, ac_users a !! id = Some row ∧ ur_unique_id row = uniqueID ∧ u = user_of id row
  | Err ErrUserNotFound => ∀ id row, ac_users a !! id = Some row → ur_unique_id row ≠ uniqueID
  | Err _ => True
  end.
Proof using Type.
  unfold LookupUser, se_bind. destruct (select _ a) as [a1 r1] eqn:Hs. apply select_spec in Hs as [-> Hr].
  destruct r1 as [row|e]; [|intros [= <- <-]; by rewrite Hr].
  destruct Hr as [now Hrow]. destruct row as [[id row]|]; intros [= <- <-]; (split; [done|]).
  - symmetry in Hrow. apply find_user_Some in Hrow as [Hu Hp%bool_decide_eq_true]. by exists id, row.
  - intros id row Hu Heq. eapply find_user_None in Hu; [|by symmetry]. by apply bool_decide_eq_false in Hu.
Qed.

Lemma LookupUserByPublicKey_spec publicKey a a' r :
  LookupUserByPublicKey publicKey a = (a', r) →
  only_reads 0 a a' ∧
  match r with
  | Ok u => ∃ id row, ac_users a !! id = Some row ∧ ur_public_key row = Some publicKey ∧ u = user_of id row
  | Err ErrUserNotFound => ∀ id row, ac_users a !! id = Some row → ur_public_key row ≠ Some publicKey
  | Err _ => True
  end.
Proof using Type.
  unfold LookupUserByPublicKey, se_bind. destruct (select _ a) as [a1 r1] eqn:Hs. apply select_spec in Hs as [-> Hr].
  destruct r1 as [row|e]; [|intros [= <- <-]; by rewrite Hr].
  destruct Hr as [now Hrow]. destruct row as [[id row]|]; intros [= <- <-]; (split; [done|]).
  - symmetry in Hrow. apply find_user_Some in Hrow as [Hu Hp%bool_decide_eq_true]. by exists id, row.
  - intros id row Hu Heq. eapply find_user_None in Hu; [|by symmetry]. by apply bool_decide_eq_false in Hu.
Qed.

Lemma verifyCredential_spec password hash a a' r :
  verifyCredential password hash a = (a', r) →
  only_reads 1 a a' ∧ ∃ ok, r = Ok ok ∧ (ok = true ↔ hash ≠ "" ∧ VerifyPassword IDKey password hash = Ok ()).
Proof using Type.
  unfold verifyCredential. case_bool_decide as Hh.
  - intros [= <- <-]. split; [done|]. exists false. split; [done|]. split; [done|]. by intros [? _].
  - intros [= <- <-]. split; [done|]. eexists. split; [reflexivity|].
    destruct (VerifyPassword IDKey password hash) as [[]|e]; (split; [done|]); [done|]. by intros [_ ?].
Qed.

(** An account the identifier names: by its unique id, or by its nickname. *)
Definition names (identifier : string) (row : UserRow) : Prop :=
  ur_unique_id row = identifier ∨ ur_nickname row = Some identifier.

Lemma lookupCredential_spec identifier a a' r :
  lookupCredentialByIdentifier identifier a = (a', r) →
  only_reads 0 a a' ∧
  match r with
  | Ok (Some (u, hash)) => ∃ id row, ac_users a !! id = Some row ∧ names identifier row ∧ u = user_of id row ∧
      hash = default "" (ur_password_hash row)
  | Ok None => ∀ id row, ac_users a !! id = Some row → ¬ names identifier row
  | Err e => e = ErrAuthDB
  end.
Proof using Type.
  intros [-> Hr]%select_spec. split; [done|]. destruct r as [c|e]; [|done]. destruct Hr as [now ->].
  destruct (find_user (by_unique_id identifier) _) as [[id row]|] eqn:Hu.
  { apply find_user_Some in Hu as [Hu Hp%bool_decide_eq_true]. exists id, row. split_and!; try done. by left. }
  destruct (find_user (by_nickname identifier) _) as [[id row]|] eqn:Hn.
  { apply find_user_Some in Hn as [Hn Hp%bool_decide_eq_true]. exists id, row. split_and!; try done. by right. }
  intros id row Hrow [Heq|Heq].
  - eapply find_user_None in Hu; [|done]. by apply bool_decide_eq_false in Hu.
  - eapply find_user_None in Hn; [|done]. by apply bool_decide_eq_false in Hn.
Qed.

Lemma AuthenticateIdentifier_spec identifier password a a' r :
  AuthenticateIdentifier identifier password a = (a', r) →
  ac_users a' = ac_users a ∧ ac_kdf a' = (match r with Err ErrAuthDB => 0 | _ => 1 end + ac_kdf a)%nat ∧
  match r with
  | Ok (Some u) => ∃ id row hash, ac_users a !! id = Some row ∧ names identifier row ∧ u = user_of id row ∧
      ur_password_hash row = Some hash ∧ VerifyPassword IDKey password hash = Ok ()
  | Ok None => ∃ id row, ac_users a !! id = Some row ∧ names identifier row ∧
      ∀ hash, ur_password_hash row = Some hash → VerifyPassword IDKey password hash = Ok () → hash = ""
  | Err e => (e = ErrUserNotFound ∧ ∀ id row, ac_users a !! id = Some row → ¬ names identifier row) ∨ e = ErrAuthDB
  end.
Proof using Type.
  unfold AuthenticateIdentifier, se_bind.
  destruct (lookupCredentialByIdentifier identifier a) as [a1 r1] eqn:Hl. apply lookupCredential_spec in Hl as [[Hu1 Hk1] Hr].
  destruct r1 as [[[u hash]|]|e].
  - destruct Hr as (id & row & Hrow & Hn & -> & Hhash).
    destruct (verifyCredential password hash a1) as [a2 r2] eqn:Hv. apply verifyCredential_spec in Hv as [[Hu2 Hk2] (ok & -> & Hok)].
    intros [= <- <-]. split_and!; [congruence|destruct ok; lia|]. destruct ok.
    + destruct (proj1 Hok eq_refl) as [Hne Hver]. destruct (ur_password_hash row) as [h|] eqn:Hh; [|by simplify_eq].
      simplify_eq. by exists id, row, h.
    + exists id, row. split_and!; [done..|]. intros h Hh Hver. rewrite Hh in Hhash. simplify_eq. simpl in Hok.
      destruct (decide (h = "")) as [?|Hne]; [done|]. by pose proof (proj2 Hok (conj Hne Hver)).
  - intros [= <- <-]. cbn. split_and!; [done|lia|]. by left.
  - intros [= <- <-]. rewrite Hr. split_and!; [done|lia|by right].
Qed.

Lemma AuthenticateChallenge_spec uniqueID challenge signature a a' r :
  AuthenticateChallenge uniqueID challenge signature a = (a', r) →
  only_reads 0 a a' ∧
  (r = Ok true → ∃ id row pk, ac_users a !! id = Some row ∧ ur_unique_id row = uniqueID ∧ ur_public_key row = Some pk ∧
     VerifyChallenge pk challenge signature = Ok ()).
Proof using Type.
  unfold AuthenticateChallenge, se_bind. destruct (select _ a) as [a1 r1] eqn:Hs. apply select_spec in Hs as [-> Hr].
  destruct r1 as [row|e]; [|by intros [= <- <-]]. destruct Hr as [now Hrow]. destruct row as [[id row]|]; [|by intros [= <- <-]].
  symmetry in Hrow. apply find_user_Some in Hrow as [Hu Hp%bool_decide_eq_true].
  destruct (ur_public_key row) as [pk|] eqn:Hpk; [|by intros [= <- <-]]. case_bool_decide; intros [= <- <-]; (split; [done|]); [done|].
  intros [= Hv]. exists id, row, pk. split_and!; [done..|]. by destruct (VerifyChallenge pk challenge signature) as [[]|].
Qed.

(** A password login costs one Argon2 run whether the account exists or not and
    whether the password is right, and answers with the account that has the name
    as its unique id or nickname exactly when its stored hash accepts the
    password; an account without a hash accepts none. *)
Theorem identifier_login_exact identifier password a a' r :
  AuthenticateIdentifier identifier password a = (a', r) →
  ac_users a' = ac_users a ∧ (r ≠ Err ErrAuthDB → ac_kdf a' = S (ac_kdf a)) ∧
  (∀ u, r = Ok (Some u) → ∃ id row hash, ac_users a !! id = Some row ∧ names identifier row ∧ u = user_of id row ∧
     ur_password_hash row = Some hash ∧ VerifyPassword IDKey password hash = Ok ()) ∧
  (r = Err ErrUserNotFound → ∀ id row, ac_users a !! id = Some row → ¬ names identifier row).
Proof using Type.
  intros (Hu & Hk & Hr)%AuthenticateIdentifier_spec. split_and!; [done| | |].
  - intros Hne. by destruct r as [[u|]|[]].
  - by intros u ->.
  - intros ->. by destruct Hr as [[_ ?]|].
Qed.

End auth.
