(* ===== verification/FileStore.v ===== *)
(** * The files table and its store ([src/internal/store/files.go])

    The table of migrations 003, 010 and 012: a row per channel, folder and name,
    with a foreign key to the channels. The parameter [db] decides for every
    statement whether it succeeds, fails without an effect, or takes effect while
    its answer is lost; [now_db] is the database's clock, [name_le] its collation.
    The patterns of LIKE are matched on bytes, which agrees with matching
    characters as long as no unescaped underscore occurs; [likeEscape] leaves none. *)

From Stdlib Require Import Ascii.
From S2P Require Import Prelude ChatText GoStrings GoState ChatKeys FileNames.

Abbreviation fileKey := (Z * string * string)%type.   (* channel, folder, name *)

Record FileRow := mkFileRow {
  row_ID : Z; row_Size : Z; row_SHA256 : string; row_Uploader : string; row_Encrypted : bool; row_UploadedAt : Z;
}.

Record FileRecord := mkFileRecord {
  rec_ID : Z; rec_ChannelID : Z; rec_Folder : string; rec_Name : string; rec_Size : Z; rec_SHA256 : string;
  rec_Uploader : string; rec_Encrypted : bool; rec_UploadedAt : Z;
}.

Definition scanFile (e : fileKey * FileRow) : FileRecord :=
  let '((channel, folder, name), r) := e in
  mkFileRecord (row_ID r) channel folder name (row_Size r) (row_SHA256 r) (row_Uploader r) (row_Encrypted r) (row_UploadedAt r).

Record FileDB := mkFileDB {
  fd_files : gmap fileKey FileRow;
  fd_channels : gset Z;          (* the rows of the channels table *)
  fd_nextID : Z;
  fd_calls : nat;
}.

Definition set_files (f : gmap fileKey FileRow → gmap fileKey FileRow) (d : FileDB) : FileDB :=
  mkFileDB (f (fd_files d)) (fd_channels d) (fd_nextID d) (fd_calls d).

Abbreviation FD := (SE FileDB FErr).

(** ** LIKE patterns with ESCAPE *)

Inductive like_item := LikeChar (c : ascii) | LikeOne | LikeMany.

Fixpoint like_items (l : chars) : list like_item :=
  match l with
  | [] => []
  | c :: l =>
      if Ascii.eqb c "\" then match l with d :: l => LikeChar d :: like_items l | [] => [] end
      else if Ascii.eqb c "%" then LikeMany :: like_items l
      else if Ascii.eqb c "_" then LikeOne :: like_items l
      else LikeChar c :: like_items l
  end.

Fixpoint like_match (p : list like_item) : chars → bool :=
  match p with
  | [] => λ l, match l with [] => true | _ => false end
  | LikeChar c :: p => λ l, match l with d :: l => Ascii.eqb c d && like_match p l | [] => false end
  | LikeOne :: p => λ l, match l with _ :: l => like_match p l | [] => false end
  | LikeMany :: p => fix go l := like_match p l || match l with [] => false | _ :: l => go l end
  end.

Definition like (s pattern : string) : bool := like_match (like_items (chars_of pattern)) (chars_of s).

Definition likeEscape (s : string) : string :=
  String.string_of_list_ascii
    (chars_of s ≫= λ c, if existsb (Ascii.eqb c) ["\"; "%"; "_"]%char then ["\"%char; c] else [c]).

(** A version of [baseName]: one digit from 1 to 9 after its ".v". *)
Definition version_of (baseName name : string) : bool :=
  let rest := TrimPrefix name (baseName +:+ ".v") in
  if String.eqb rest name || negb (String.length rest =? 1)%nat then false
  else match chars_of rest with c :: _ => ((49 <=? nat_of_ascii c) && (nat_of_ascii c <=? 57))%nat | [] => false end.

(** [SUM] over the groups of the [MAX] of each. *)
Definition group_max {K} `{Countable K} (l : list (K * Z)) : gmap K Z :=
  foldr (λ '(k, n) m, <[k := match m !! k with Some n' => Z.max n n' | None => n end]> m) ∅ l.
Definition sum_max {K} `{Countable K} (l : list (K * Z)) : Z := map_fold (λ _ n s, n + s) 0 (group_max l).

Section store.
Context (db : nat → dbOutcome) (now_db : nat → Z).
Context (name_le : relation string) `{!RelDecision name_le}.
Context `{!MapRange fileKey FileRow}.

(** One statement: [op] computes, at the database's time, its effect and answer. *)
Definition file_call {A} (op : Z → FileDB → FileDB * result FErr A) : FD A := λ d,
  let n := fd_calls d in
  let d := mkFileDB (fd_files d) (fd_channels d) (fd_nextID d) (S n) in
  match db n with
  | DbOk => op (now_db n) d
  | DbFailed => (d, Err FtDatabase)
  | DbLost => ((op (now_db n) d).1, Err FtDatabase)
  end.

Definition file_query {A} (f : FileDB → result FErr A) : FD A := file_call (λ _ d, (d, f d)).

Definition AddFile (channelID : Z) (folder name : string) (size : Z) (sha256 uploader : string) (encrypted : bool) : FD () :=
  file_call (λ now d,
    if bool_decide (channelID ∈ fd_channels d) then
      let key := (channelID, folder, name) in
      let id := match fd_files d !! key with Some r => row_ID r | None => fd_nextID d end in
      (mkFileDB (<[key := mkFileRow id size sha256 uploader encrypted now]> (fd_files d)) (fd_channels d)
         (fd_nextID d + 1) (fd_calls d), Ok ())
    else (mkFileDB (fd_files d) (fd_channels d) (fd_nextID d + 1) (fd_calls d), Err FtDatabase)).

Definition GetFile (channelID : Z) (folder name : string) : FD FileRecord :=
  file_query (λ d, match fd_files d !! (channelID, folder, name) with
                   | Some r => Ok (scanFile ((channelID, folder, name), r))
                   | None => Err ErrFileNotFound
                   end).

Definition rows_where (P : FileRecord → bool) (d : FileDB) : list FileRecord :=
  filter (λ r, P r = true) (scanFile <$> range (fd_files d)).

Definition by_name (a b : FileRecord) : Prop := name_le (rec_Name a) (rec_Name b).
#[local] Instance by_name_dec : RelDecision by_name.
Proof. unfold by_name. intros a b. apply _. Defined.

Definition ListFiles (channelID : Z) (folder : string) : FD (list FileRecord) :=
  file_query (λ d, Ok (sort_by by_name
    (rows_where (λ r, (rec_ChannelID r =? channelID) && String.eqb (rec_Folder r) folder) d))).

Definition ListFileFolders (channelID : Z) : FD (list string) :=
  file_query (λ d, Ok (sort_by name_le (remove_dups (rec_Folder <$>
    rows_where (λ r, (rec_ChannelID r =? channelID) && negb (String.eqb (rec_Folder r) "")) d)))).

Definition ListFileVersions (channelID : Z) (folder baseName : string) : FD (list FileRecord) :=
  file_query (λ d, Ok (filter (λ r, version_of baseName (rec_Name r) = true) (sort_by by_name
    (rows_where (λ r, (rec_ChannelID r =? channelID) && String.eqb (rec_Folder r) folder &&
                      like (rec_Name r) (likeEscape baseName +:+ ".v%")) d)))).

Definition MoveFile_row (channelID : Z) (folder name : string) (newChannelID : Z) (newFolder newName : string) : FD () :=
  file_call (λ _ d,
    let key := (channelID, folder, name) in
    let key' := (newChannelID, newFolder, newName) in
    match fd_files d !! key with
    | None => (d, Err ErrFileNotFound)
    | Some r =>
        if bool_decide (key ≠ key') && bool_decide (is_Some (fd_files d !! key')) then (d, Err ErrFileExists)
        else if bool_decide (newChannelID ∈ fd_channels d) then (set_files (λ f, <[key' := r]> (delete key f)) d, Ok ())
        else (d, Err FtDatabase)
    end).

Definition RenameFile_row (channelID : Z) (folder name newFolder newName : string) : FD () :=
  MoveFile_row channelID folder name channelID newFolder newName.

Definition DeleteFile_row (channelID : Z) (folder name : string) : FD () :=
  file_call (λ _ d,
    let key := (channelID, folder, name) in
    match fd_files d !! key with
    | None => (d, Err ErrFileNotFound)
    | Some _ => (set_files (delete key) d, Ok ())
    end).

Definition newest_first (a b : FileRecord) : Prop := rec_UploadedAt b ≤ rec_UploadedAt a.
#[local] Instance newest_first_dec : RelDecision newest_first.
Proof. unfold newest_first. intros a b. apply _. Defined.

Definition FindFileBySHA (channelID : Z) (sha256 exclFolder exclName : string) : FD (option FileRecord) :=
  file_query (λ d, Ok (head (sort_by newest_first
    (rows_where (λ r, (rec_ChannelID r =? channelID) && String.eqb (rec_SHA256 r) sha256 &&
                      negb (String.eqb (rec_Folder r) exclFolder && String.eqb (rec_Name r) exclName)) d)))).

(** A sum beyond 64 bits does not scan. *)
Definition scan_total (n : Z) : result FErr Z := if max_int64 <? n then Err FtDatabase else Ok n.

Definition ChannelFileUsage (channelID : Z) : FD Z :=
  file_query (λ d, scan_total (sum_max ((λ r, (rec_SHA256 r, rec_Size r)) <$>
    rows_where (λ r, rec_ChannelID r =? channelID) d))).

Definition UploaderFileUsage (uploader : string) : FD Z :=
  if String.eqb uploader "" then se_ret 0
  else file_query (λ d, scan_total (sum_max ((λ r, ((rec_ChannelID r, rec_SHA256 r), rec_Size r)) <$>
    rows_where (λ r, String.eqb (rec_Uploader r) uploader) d))).

End store.

(** A channel row that goes takes its files with it. *)
Definition delete_channel_row (channelID : Z) (d : FileDB) : FileDB :=
  mkFileDB (filter (λ e, e.1.1.1 ≠ channelID) (fd_files d)) (fd_channels d ∖ {[channelID]}) (fd_nextID d) (fd_calls d).
