(* ===== verification/FileWorld.v ===== *)
(** * The world of the file transfer and its programs

    The file port works in many goroutines over shared state: the files below the
    root, the files table, the tokens, the tombstones, the link registry and the
    connections. An operation is a program ([prog]): a tree of accesses ([act]),
    each atomic, whose answers choose what comes next. An access is a critical
    section of [Server.mu], a step inside the registry's lock, an acquisition or a
    release of [fileOpsMu], a system call, a statement on the database, or a frame
    on a connection. [exec] gives the accesses their meaning; [run_alone] runs a
    program undisturbed and [step] interleaves any number of them.

    Directory entries lead to inodes, handles to inodes: hard links share bytes
    and an open file outlives its name. Any system call may fail by an oracle over
    the number of accesses, a write after some of its bytes, the removal of a tree
    after some of its files. The file system follows [os.Root] on a Unix system
    without symbolic links inside the root; anything that is neither a directory
    nor a regular file is [FOther]. *)

From Stdlib Require Import Ascii.
From S2P Require Import Prelude ChatText GoStrings Wire GoState ChatKeys AuthService FileNames FileStore.

(** ** Files *)

Abbreviation path := (list string).

Inductive fnode := FDir | FReg (ino : nat) | FOther.
Record handle := mkHandle { h_ino : option nat; h_off : nat }.   (* [None]: not a regular file *)

Record FS := mkFS {
  fs_nodes : gmap path fnode;
  fs_data : gmap nat (list byte);
  fs_handles : gmap nat handle;      (* the open ones *)
  fs_next : nat;                     (* the next inode or handle *)
}.

Definition set_nodes (f : gmap path fnode → gmap path fnode) (s : FS) : FS :=
  mkFS (f (fs_nodes s)) (fs_data s) (fs_handles s) (fs_next s).
Definition set_handles (f : gmap nat handle → gmap nat handle) (s : FS) : FS :=
  mkFS (fs_nodes s) (fs_data s) (f (fs_handles s)) (fs_next s).

#[export] Instance fnode_eq_dec : EqDecision fnode.
Proof. solve_decision. Defined.

Definition is_dir (p : path) (s : FS) : bool := bool_decide (p = [] ∨ fs_nodes s !! p = Some FDir).
Definition has_children (p : path) (s : FS) : bool :=
  existsb (λ q, bool_decide (p `prefix_of` q ∧ q ≠ p)) (map_to_list (fs_nodes s)).*1.
Definition parent (p : path) : path := take (length p - 1) p.

(** The path below the root that a name leads to. *)
Definition resolve (name : string) : result ioErr path :=
  let clean := Clean name in
  if IsAbs name || String.eqb clean ".." || HasPrefix clean "../" then Err IoOther
  else Ok (if String.eqb clean "." then [] else Split clean "/").

Abbreviation IO A := (FS * result ioErr A)%type.

Fixpoint fs_mkdirAll (made todo : path) (s : FS) : IO () :=
  match todo with
  | [] => (s, Ok ())
  | c :: todo =>
      let q := made ++ [c] in
      match fs_nodes s !! q with
      | Some FDir => fs_mkdirAll q todo s
      | None => fs_mkdirAll q todo (set_nodes <[q := FDir]> s)
      | Some _ => (s, Err IoOther)
      end
  end.

(** A new regular file under a name that must be free. *)
Definition fs_openExcl (p : path) (s : FS) : IO nat :=
  match fs_nodes s !! p with
  | Some _ => (s, Err IoExist)
  | None =>
      if is_dir (parent p) s && bool_decide (p ≠ []) then
        let n := fs_next s in
        (mkFS (<[p := FReg n]> (fs_nodes s)) (<[n := []]> (fs_data s)) (<[S n := mkHandle (Some n) 0]> (fs_handles s)) (S (S n)), Ok (S n))
      else (s, Err IoNotExist)
  end.

Definition fs_open (p : path) (s : FS) : IO nat :=
  match (if bool_decide (p = []) then Some FDir else fs_nodes s !! p) with
  | None => (s, Err IoNotExist)
  | Some node =>
      let n := fs_next s in
      let ino := match node with FReg i => Some i | _ => None end in
      (mkFS (fs_nodes s) (fs_data s) (<[n := mkHandle ino 0]> (fs_handles s)) (S n), Ok n)
  end.

Definition fs_write (h : nat) (bytes : list byte) (s : FS) : IO () :=
  match fs_handles s !! h with
  | Some (mkHandle (Some i) off) =>
      let old := default [] (fs_data s !! i) in
      (mkFS (fs_nodes s) (<[i := old ++ bytes]> (fs_data s)) (fs_handles s) (fs_next s), Ok ())
  | Some _ => (s, Err IoOther)
  | None => (s, Err IoClosed)
  end.

(** At most [n] of the next bytes; none at the end of the file. *)
Definition fs_read (h n : nat) (s : FS) : IO (list byte) :=
  match fs_handles s !! h with
  | Some (mkHandle (Some i) off) =>
      let bytes := take n (drop off (default [] (fs_data s !! i))) in
      (set_handles <[h := mkHandle (Some i) (off + length bytes)]> s, Ok bytes)
  | Some _ => (s, Err IoOther)
  | None => (s, Err IoClosed)
  end.

Definition fs_stat (h : nat) (s : FS) : IO (bool * nat) :=
  match fs_handles s !! h with
  | Some (mkHandle (Some i) _) => (s, Ok (true, length (default [] (fs_data s !! i))))
  | Some _ => (s, Ok (false, 0%nat))
  | None => (s, Err IoClosed)
  end.

Definition fs_close (h : nat) (s : FS) : IO () :=
  match fs_handles s !! h with
  | Some _ => (set_handles (delete h) s, Ok ())
  | None => (s, Err IoClosed)
  end.

Definition fs_lstat (p : path) (s : FS) : IO bool :=
  match (if bool_decide (p = []) then Some FDir else fs_nodes s !! p) with
  | None => (s, Err IoNotExist)
  | Some (FReg _) => (s, Ok true)
  | Some _ => (s, Ok false)
  end.

Definition fs_remove (p : path) (s : FS) : IO () :=
  match fs_nodes s !! p with
  | None => (s, Err IoNotExist)
  | Some FDir => if has_children p s then (s, Err IoOther) else (set_nodes (delete p) s, Ok ())
  | Some _ => (set_nodes (delete p) s, Ok ())
  end.

(** Moving a directory moves what is below it. *)
Definition rebase (p q : path) (r : path) : path := if bool_decide (p `prefix_of` r) then q ++ drop (length p) r else r.

Definition fs_rename (p q : path) (s : FS) : IO () :=
  match fs_nodes s !! p with
  | None => (s, Err IoNotExist)
  | Some node =>
      if negb (is_dir (parent q) s) || bool_decide (q = []) then (s, Err IoNotExist)
      else
        match node, fs_nodes s !! q with
        | FDir, Some FDir =>
            if bool_decide (p `prefix_of` q) || has_children q s then (s, Err IoOther)
            else (set_nodes (λ ns, list_to_map (prod_map (rebase p q) id <$> map_to_list (delete q ns))) s, Ok ())
        | FDir, None =>
            if bool_decide (p `prefix_of` q) then (s, Err IoOther)
            else (set_nodes (λ ns, list_to_map (prod_map (rebase p q) id <$> map_to_list ns)) s, Ok ())
        | FDir, Some _ | _, Some FDir => (s, Err IoOther)
        | _, old => if bool_decide (old = Some node) then (s, Ok ())   (* links of one file: nothing happens *)
                    else (set_nodes (λ ns, <[q := node]> (delete p ns)) s, Ok ())
        end
  end.

Definition fs_link (p q : path) (s : FS) : IO () :=
  match fs_nodes s !! p with
  | None => (s, Err IoNotExist)
  | Some FDir => (s, Err IoOther)
  | Some node =>
      if bool_decide (is_Some (fs_nodes s !! q)) then (s, Err IoExist)
      else if negb (is_dir (parent q) s) || bool_decide (q = []) then (s, Err IoNotExist)
      else (set_nodes <[q := node]> s, Ok ())
  end.

Definition fs_removeAll (p : path) (s : FS) : IO () :=
  (set_nodes (filter (λ e, ¬ p `prefix_of` e.1)) s, Ok ()).

(** A removal that fails may have removed any of the files. *)
Definition fs_removeSome (keep : path → bool) (p : path) (s : FS) : FS :=
  set_nodes (filter (λ e, ¬ (p `prefix_of` e.1 ∧ e.2 ≠ FDir ∧ keep e.1 = false))) s.

(** The entries of the root and whether they are directories. *)
Definition fs_readDir (s : FS) : IO (list (string * bool)) :=
  (s, Ok (omap (λ e, match e.1 with [c] => Some (c, bool_decide (e.2 = FDir)) | _ => None end) (map_to_list (fs_nodes s)))).

(** ** Records of the server *)

Record transfer := mkTransfer {
  tr_ID : string; tr_Token : string; tr_Direction : string; tr_ChannelID : Z; tr_Folder : string; tr_Name : string;
  tr_Size : Z; tr_Uploader : string; tr_Expires : Z;
}.

(** [at_done] names the object and with it its [done] channel. *)
Record activeTransfer := mkActive { at_transferID : string; at_channelID : Z; at_conn : nat; at_done : nat }.

Record channelCleanup := mkCleanup { cc_done : bool; cc_err : option FErr }.

Record link := mkLink { ln_path : string; ln_name : string; ln_expires : Z }.

Record LinkRegistry := mkRegistry {
  lr_links : gmap string link;
  lr_revoked : gset string;
  lr_active : gmap nat string;        (* the channel of each handle being served *)
}.

(** A peer's frames, [None] where reading fails, and what it was sent. *)
Record FConn := mkFConn { cn_in : list (option Frame); cn_out : list Frame; cn_closed : bool }.

Record FileConfig := {
  fc_MaxKBps : Z; fc_QuietStart : Z; fc_QuietEnd : Z; fc_ChannelQuotaMB : Z; fc_MaxSizeMB : Z; fc_maxLinks : nat;
}.

(** What the operations get from outside, by the number of accesses made. *)
Record FileEnv := {
  fe_io : nat → option nat;                (* a failing system call, with the bytes a write got through *)
  fe_keep : nat → path → bool;
  fe_db : nat → dbOutcome;
  fe_now_db : nat → Z;
  fe_name_le : relation string;
  fe_name_le_dec : RelDecision fe_name_le;
  fe_now : nat → Z;
  fe_hour : nat → Z;
  fe_rnd : nat → nat → option (list byte); (* and the number of bytes *)
  fe_cancel : nat → bool;                  (* the context is done *)
  fe_send : nat → bool;                    (* the connection takes the frame *)
  fe_sha256 : list byte → list byte;
  fe_ToUpper : string → string;
  fe_init : list byte → option (string * string * Z);   (* token, transfer id, offset *)
  fe_digest : list byte → option string;
  fe_digest_out : string → list byte;
  fe_status_out : option FErr → list byte;
  fe_config : FileConfig;
}.

Record FW := mkFW {
  fw_fs : FS;
  fw_db : FileDB;
  fw_transfers : gmap (list byte) transfer;        (* by the digest of the token *)
  fw_active : gmap string activeTransfer;
  fw_done : gset nat;                              (* the closed [done] channels *)
  fw_next : nat;                                   (* the next object *)
  fw_deleted : gmap Z nat;
  fw_cleanups : gmap nat channelCleanup;
  fw_readers : nat;                                (* fileOpsMu *)
  fw_writer : bool;
  fw_links : LinkRegistry;
  fw_linkLock : bool;
  fw_conns : gmap nat FConn;
  fw_calls : nat;
}.

(** ** Accesses *)

Inductive act : Type → Type :=
(* fileOpsMu *)
| RLock : act () | RUnlock : act () | WLock : act () | WUnlock : act ()
(* the clock, the random source, the context *)
| Now : act Z | Hour : act Z | Rand (n : nat) : act (result FErr (list byte)) | Cancelled : act bool
(* critical sections of Server.mu *)
| Publish (digest : list byte) (tr : transfer) : act (result FErr ())
| Take (digest : list byte) : act (option transfer * bool)
| Activate (tr : transfer) (conn : nat) : act (result FErr activeTransfer)
| Deactivate (a : activeTransfer) : act ()
| IsDeleted (channelID : Z) : act bool
| Begin (channelID : Z) : act (nat * bool * list activeTransfer)
(* channels and the fields of a cleanup *)
| CloseDone (done_ : nat) : act () | AwaitDone (done_ : nat) : act ()
| SetErr (cleanup : nat) (e : option FErr) : act () | CloseCleanup (cleanup : nat) : act ()
| AwaitCleanup (cleanup : nat) : act (option (option FErr))     (* [None]: the context ended first *)
(* the link registry *)
| LinkLock : act () | LinkUnlock : act ()
| LinkRevoked (channel : string) : act bool | LinkPrune (now : Z) : act () | LinkCount : act nat
| LinkFind (token : string) : act (option link) | LinkAdd (token : string) (l : link) : act ()
| LinkRevoke (channel : string) : act (list nat)
| LinkServe (h : nat) (channel : string) : act () | LinkServed (h : nat) : act ()
(* system calls *)
| OpenBlobRoot : act (result ioErr ()) | OpenRoot : act (result ioErr ())
| MkdirAll (name : string) : act (result ioErr ())
| OpenExcl (name : string) : act (result ioErr nat) | OpenFile (name : string) : act (result ioErr nat)
| WriteFile (h : nat) (bytes : list byte) : act (result ioErr ()) | SyncFile (h : nat) : act (result ioErr ())
| ReadFile (h n : nat) : act (result ioErr (list byte)) | StatFile (h : nat) : act (result ioErr (bool * nat))
| CloseFile (h : nat) : act (result ioErr ())
| Lstat (name : string) : act (result ioErr bool) | Remove (name : string) : act (result ioErr ())
| Rename (name newName : string) : act (result ioErr ()) | Link (name newName : string) : act (result ioErr ())
| RemoveAll (name : string) : act (result ioErr ()) | ReadDir : act (result ioErr (list (string * bool)))
(* the database *)
| Db {A} (m : FileDB → FileDB * result FErr A) : act (result FErr A)
(* connections *)
| RecvFrame (conn : nat) : act (option Frame) | SendFrame (conn : nat) (f : Frame) : act bool | CloseConn (conn : nat) : act ().

(** ** Programs *)

Inductive prog (A : Type) : Type :=
| Ret (a : A)
| Vis {B : Type} (e : act B) (k : B → prog A)
| Fork (child : prog ()) (k : prog A).
Arguments Ret {A} a.
Arguments Vis {A B} e k.
Arguments Fork {A} child k.

Fixpoint prog_bind {A B} (m : prog A) (k : A → prog B) : prog B :=
  match m with
  | Ret a => k a
  | Vis e f => Vis e (λ b, prog_bind (f b) k)
  | Fork c m => Fork c (prog_bind m k)
  end.

Definition trigger {B} (e : act B) : prog B := Vis e Ret.

Declare Scope prog_scope.
Delimit Scope prog_scope with prog.
Notation "'do' x '<-' m ';' k" := (prog_bind m (λ x, k)) (at level 200, x pattern, m at level 100, k at level 200) : prog_scope.
Notation "'ask' x '<-' e ';' k" := (Vis e (λ x, k)) (at level 200, x pattern, e at level 100, k at level 200) : prog_scope.
Notation "'tell' e ';' k" := (Vis e (λ _, k)) (at level 200, e at level 100, k at level 200) : prog_scope.
Open Scope prog_scope.

(** ** The meaning of the accesses *)

Definition put_fs (s : FS) (w : FW) : FW :=
  mkFW s (fw_db w) (fw_transfers w) (fw_active w) (fw_done w) (fw_next w) (fw_deleted w) (fw_cleanups w) (fw_readers w) (fw_writer w) (fw_links w) (fw_linkLock w) (fw_conns w) (fw_calls w).
Definition put_db (d : FileDB) (w : FW) : FW :=
  mkFW (fw_fs w) d (fw_transfers w) (fw_active w) (fw_done w) (fw_next w) (fw_deleted w) (fw_cleanups w) (fw_readers w) (fw_writer w) (fw_links w) (fw_linkLock w) (fw_conns w) (fw_calls w).
Definition on_transfers (f : gmap (list byte) transfer → gmap (list byte) transfer) (w : FW) : FW :=
  mkFW (fw_fs w) (fw_db w) (f (fw_transfers w)) (fw_active w) (fw_done w) (fw_next w) (fw_deleted w) (fw_cleanups w) (fw_readers w) (fw_writer w) (fw_links w) (fw_linkLock w) (fw_conns w) (fw_calls w).
Definition on_active (f : gmap string activeTransfer → gmap string activeTransfer) (w : FW) : FW :=
  mkFW (fw_fs w) (fw_db w) (fw_transfers w) (f (fw_active w)) (fw_done w) (fw_next w) (fw_deleted w) (fw_cleanups w) (fw_readers w) (fw_writer w) (fw_links w) (fw_linkLock w) (fw_conns w) (fw_calls w).
Definition on_done (f : gset nat → gset nat) (w : FW) : FW :=
  mkFW (fw_fs w) (fw_db w) (fw_transfers w) (fw_active w) (f (fw_done w)) (fw_next w) (fw_deleted w) (fw_cleanups w) (fw_readers w) (fw_writer w) (fw_links w) (fw_linkLock w) (fw_conns w) (fw_calls w).
Definition put_next (n : nat) (w : FW) : FW :=
  mkFW (fw_fs w) (fw_db w) (fw_transfers w) (fw_active w) (fw_done w) n (fw_deleted w) (fw_cleanups w) (fw_readers w) (fw_writer w) (fw_links w) (fw_linkLock w) (fw_conns w) (fw_calls w).
Definition on_deleted (f : gmap Z nat → gmap Z nat) (w : FW) : FW :=
  mkFW (fw_fs w) (fw_db w) (fw_transfers w) (fw_active w) (fw_done w) (fw_next w) (f (fw_deleted w)) (fw_cleanups w) (fw_readers w) (fw_writer w) (fw_links w) (fw_linkLock w) (fw_conns w) (fw_calls w).
Definition on_cleanups (f : gmap nat channelCleanup → gmap nat channelCleanup) (w : FW) : FW :=
  mkFW (fw_fs w) (fw_db w) (fw_transfers w) (fw_active w) (fw_done w) (fw_next w) (fw_deleted w) (f (fw_cleanups w)) (fw_readers w) (fw_writer w) (fw_links w) (fw_linkLock w) (fw_conns w) (fw_calls w).
Definition put_lock (readers : nat) (writer : bool) (w : FW) : FW :=
  mkFW (fw_fs w) (fw_db w) (fw_transfers w) (fw_active w) (fw_done w) (fw_next w) (fw_deleted w) (fw_cleanups w) readers writer (fw_links w) (fw_linkLock w) (fw_conns w) (fw_calls w).
Definition on_links (f : LinkRegistry → LinkRegistry) (w : FW) : FW :=
  mkFW (fw_fs w) (fw_db w) (fw_transfers w) (fw_active w) (fw_done w) (fw_next w) (fw_deleted w) (fw_cleanups w) (fw_readers w) (fw_writer w) (f (fw_links w)) (fw_linkLock w) (fw_conns w) (fw_calls w).
Definition put_linkLock (b : bool) (w : FW) : FW :=
  mkFW (fw_fs w) (fw_db w) (fw_transfers w) (fw_active w) (fw_done w) (fw_next w) (fw_deleted w) (fw_cleanups w) (fw_readers w) (fw_writer w) (fw_links w) b (fw_conns w) (fw_calls w).
Definition on_conns (f : gmap nat FConn → gmap nat FConn) (w : FW) : FW :=
  mkFW (fw_fs w) (fw_db w) (fw_transfers w) (fw_active w) (fw_done w) (fw_next w) (fw_deleted w) (fw_cleanups w) (fw_readers w) (fw_writer w) (fw_links w) (fw_linkLock w) (f (fw_conns w)) (fw_calls w).
Definition put_calls (n : nat) (w : FW) : FW :=
  mkFW (fw_fs w) (fw_db w) (fw_transfers w) (fw_active w) (fw_done w) (fw_next w) (fw_deleted w) (fw_cleanups w) (fw_readers w) (fw_writer w) (fw_links w) (fw_linkLock w) (fw_conns w) n.

Definition on_lr_links (f : gmap string link → gmap string link) (r : LinkRegistry) : LinkRegistry :=
  mkRegistry (f (lr_links r)) (lr_revoked r) (lr_active r).

Section exec.
Context (E : FileEnv).

(** A system call: it fails without an effect, or does what [f] says. *)
Definition sys {A} (f : FS → IO A) (w : FW) : option (FW * result ioErr A) :=
  match fe_io E (fw_calls w) with
  | Some _ => Some (w, Err IoOther)
  | None => let '(s, r) := f (fw_fs w) in Some (put_fs s w, r)
  end.

(** ... on the file a name leads to. *)
Definition at_ {A} (name : string) (f : path → FS → IO A) : FS → IO A := λ s,
  match resolve name with Ok p => f p s | Err e => (s, Err e) end.

Definition yes {A} (w : FW) (a : A) : option (FW * A) := Some (w, a).

Definition sys_write (h : nat) (bytes : list byte) (w : FW) : option (FW * result ioErr ()) :=
  match fe_io E (fw_calls w) with
  | Some n => Some (put_fs (fs_write h (take n bytes) (fw_fs w)).1 w, Err IoOther)
  | None => sys (fs_write h bytes) w
  end.

Definition sys_removeAll (name : string) (w : FW) : option (FW * result ioErr ()) :=
  match fe_io E (fw_calls w), resolve name with
  | Some _, Ok p => Some (put_fs (fs_removeSome (fe_keep E (fw_calls w)) p (fw_fs w)) w, Err IoOther)
  | _, _ => sys (at_ name fs_removeAll) w
  end.

(** A close that fails has closed the handle. *)
Definition sys_close (h : nat) (w : FW) : option (FW * result ioErr ()) :=
  let '(s, r) := fs_close h (fw_fs w) in
  Some (put_fs s w, match fe_io E (fw_calls w), r with Some _, Ok _ => Err IoOther | _, _ => r end).

Definition publish (digest : list byte) (tr : transfer) (w : FW) : FW * result FErr () :=
  match fw_deleted w !! tr_ChannelID tr with
  | Some _ => (w, Err ErrChannelDeleted)
  | None => (on_transfers <[digest := tr]> w, Ok ())
  end.

Definition take_transfer (digest : list byte) (w : FW) : FW * (option transfer * bool) :=
  match fw_transfers w !! digest with
  | Some tr => (on_transfers (delete digest) w, (Some tr, bool_decide (is_Some (fw_deleted w !! tr_ChannelID tr))))
  | None => (w, (None, false))
  end.

Definition activate (tr : transfer) (conn : nat) (w : FW) : FW * result FErr activeTransfer :=
  match fw_deleted w !! tr_ChannelID tr with
  | Some _ => (w, Err ErrChannelDeleted)
  | None =>
      let a := mkActive (tr_ID tr) (tr_ChannelID tr) conn (fw_next w) in
      (put_next (S (fw_next w)) (on_active <[tr_ID tr := a]> w), Ok a)
  end.

Definition deactivate (a : activeTransfer) (w : FW) : FW :=
  match fw_active w !! at_transferID a with
  | Some b => if (at_done a =? at_done b)%nat then on_active (delete (at_transferID a)) w else w
  | None => w
  end.

(** The section of [beginChannelCleanup]: the cleanup, whether to start it, and the
    transfers that hold the channel. *)
Definition begin_section (channelID : Z) (w : FW) : FW * (nat * bool * list activeTransfer) :=
  let fresh :=
    match fw_deleted w !! channelID with
    | None => true
    | Some k => match fw_cleanups w !! k with
                | Some (mkCleanup true (Some _)) => true
                | _ => false
                end
    end in
  let k := match fw_deleted w !! channelID with Some k => if fresh then fw_next w else k | None => fw_next w end in
  let w1 := if fresh : bool
            then put_next (S k) (on_cleanups <[k := mkCleanup false None]> (on_deleted <[channelID := k]> w)) else w in
  (on_transfers (filter (λ e, tr_ChannelID e.2 ≠ channelID)) w1,
   (k, fresh, filter (λ a, at_channelID a = channelID) (map_to_list (fw_active w)).*2)).

Definition recv (conn : nat) (w : FW) : FW * option Frame :=
  match fw_conns w !! conn with
  | Some c =>
      if cn_closed c then (w, None)
      else match cn_in c with
           | f :: rest => (on_conns <[conn := mkFConn rest (cn_out c) false]> w, f)
           | [] => (w, None)
           end
  | None => (w, None)
  end.

Definition send (conn : nat) (f : Frame) (w : FW) : FW * bool :=
  match fw_conns w !! conn with
  | Some c =>
      if cn_closed c || negb (fe_send E (fw_calls w)) || (MaxPayloadSize <? Z.of_nat (length (fr_Payload f))) then (w, false)
      else (on_conns <[conn := mkFConn (cn_in c) (cn_out c ++ [f]) false]> w, true)
  | None => (w, false)
  end.

Definition close_conn (conn : nat) (w : FW) : FW :=
  match fw_conns w !! conn with
  | Some c => on_conns <[conn := mkFConn (cn_in c) (cn_out c) true]> w
  | None => w
  end.

(** [None]: the access blocks. *)
Definition exec {A} (e : act A) (w0 : FW) : option (FW * A) :=
  let n := fw_calls w0 in
  let w := put_calls (S n) w0 in
  match e in act A return option (FW * A) with
  | RLock => if fw_writer w then None else yes (put_lock (S (fw_readers w)) false w) tt
  | RUnlock => yes (put_lock (pred (fw_readers w)) (fw_writer w) w) tt
  | WLock => if fw_writer w || negb (fw_readers w =? 0)%nat then None else yes (put_lock 0 true w) tt
  | WUnlock => yes (put_lock (fw_readers w) false w) tt
  | Now => yes w (fe_now E n)
  | Hour => yes w (fe_hour E n)
  | Rand k => yes w (match fe_rnd E n k with Some b => Ok b | None => Err (FtError "generating random token") end)
  | Cancelled => yes w (fe_cancel E n)
  | Publish digest tr => let '(w, r) := publish digest tr w in yes w r
  | Take digest => let '(w, r) := take_transfer digest w in yes w r
  | Activate tr conn => let '(w, r) := activate tr conn w in yes w r
  | Deactivate a => yes (deactivate a w) tt
  | IsDeleted c => yes w (bool_decide (is_Some (fw_deleted w !! c)))
  | Begin c => let '(w, r) := begin_section c w in yes w r
  | CloseDone d => yes (on_done (λ s, {[d]} ∪ s) w) tt
  | AwaitDone d => if bool_decide (d ∈ fw_done w) then yes w tt else None
  | SetErr k e => yes (on_cleanups (alter (λ c, mkCleanup (cc_done c) e) k) w) tt
  | CloseCleanup k => yes (on_cleanups (alter (λ c, mkCleanup true (cc_err c)) k) w) tt
  | AwaitCleanup k =>
      if fe_cancel E n then yes w None
      else match fw_cleanups w !! k with
           | Some c => if cc_done c then yes w (Some (cc_err c)) else None
           | None => None
           end
  | LinkLock => if fw_linkLock w then None else yes (put_linkLock true w) tt
  | LinkUnlock => yes (put_linkLock false w) tt
  | LinkRevoked ch => yes w (bool_decide (ch ∈ lr_revoked (fw_links w)))
  | LinkPrune now => yes (on_links (on_lr_links (filter (λ e, now < ln_expires e.2))) w) tt
  | LinkCount => yes w (size (lr_links (fw_links w)))
  | LinkFind token => yes w (lr_links (fw_links w) !! token)
  | LinkAdd token l => yes (on_links (on_lr_links <[token := l]>) w) tt
  | LinkRevoke ch =>
      let r := fw_links w in
      yes (on_links (λ r, mkRegistry (filter (λ e, linkChannel (ln_path e.2) ≠ ch) (lr_links r)) ({[ch]} ∪ lr_revoked r)
                            (filter (λ e, e.2 ≠ ch) (lr_active r))) w)
          (filter (λ e, e.2 = ch) (map_to_list (lr_active r))).*1
  | LinkServe h ch => yes (on_links (λ r, mkRegistry (lr_links r) (lr_revoked r) (<[h := ch]> (lr_active r))) w) tt
  | LinkServed h => yes (on_links (λ r, mkRegistry (lr_links r) (lr_revoked r) (delete h (lr_active r))) w) tt
  | OpenBlobRoot => sys (λ s, (s, Ok tt)) w
  | OpenRoot => sys (λ s, (s, Ok tt)) w
  | MkdirAll name => sys (at_ name (fs_mkdirAll [])) w
  | OpenExcl name => sys (at_ name fs_openExcl) w
  | OpenFile name => sys (at_ name fs_open) w
  | WriteFile h bytes => sys_write h bytes w
  | SyncFile h => sys (λ s, (s, if bool_decide (is_Some (fs_handles s !! h)) then Ok tt else Err IoClosed)) w
  | ReadFile h k => sys (fs_read h k) w
  | StatFile h => sys (fs_stat h) w
  | CloseFile h => sys_close h w
  | Lstat name => sys (at_ name fs_lstat) w
  | Remove name => sys (at_ name fs_remove) w
  | Rename a b => match resolve b with Ok q => sys (at_ a (λ p, fs_rename p q)) w | Err e => yes w (Err e) end
  | Link a b => match resolve b with Ok q => sys (at_ a (λ p, fs_link p q)) w | Err e => yes w (Err e) end
  | RemoveAll name => sys_removeAll name w
  | ReadDir => sys fs_readDir w
  | Db m => let '(d, r) := m (fw_db w) in yes (put_db d w) r
  | RecvFrame c => let '(w, r) := recv c w in yes w r
  | SendFrame c f => let '(w, r) := send c f w in yes w r
  | CloseConn c => yes (close_conn c w) tt
  end.

(** Undisturbed; [None] if the program waits for ever. What it forks runs at once. *)
Fixpoint run_alone {A : Type} (m : prog A) (w : FW) : option (FW * A) :=
  match m with
  | Ret a => Some (w, a)
  | Vis e k => match exec e w with Some (w', b) => run_alone (k b) w' | None => None end
  | Fork c k => match run_alone c w with Some (w', _) => run_alone k w' | None => None end
  end.

End exec.
