(* ===== verification/FileTransfer.v ===== *)
(** * The file transfer server ([src/internal/filetransfer])

    The operations of [server.go], [transfer.go], [links.go] and
    [reconciliation.go], each a program over the accesses of [FileWorld]. A
    deferred call is made at the end of the body it is deferred in. The root is
    opened where the code opens it and never used up; logging and metrics are left
    out. Frames arrive decoded from the stream; JSON is a parameter. A loop that
    ends with its connection, file or cleanup takes fuel, one unit per turn.
    Starting and closing the listener, and its bound on connections, are not
    modelled. *)

From Stdlib Require Import Ascii.
From stdpp Require Import pretty.
From S2P Require Import Prelude ChatText GoStrings Wire GoState ChatKeys AuthService FileNames FileStore FileWorld.

Definition tokenTTL : Z := 60 * second.
Definition LinkTTL : Z := 15 * minute.
Definition maxFileVersions : nat := 3.
Definition chunkSize : nat := 32 * 1024.
Definition linkTokenAttempts : nat := 4.

Definition frameInit : Z := 1.
Definition frameChunk : Z := 2.
Definition frameDigest : Z := 3.
Definition frameStatus : Z := 4.

Abbreviation P A := (prog (result FErr A)).

(** [x, err := m; if err != nil { return err }]. *)
Definition try_prog {A B} (m : P A) (k : A → P B) : P B :=
  do r <- m; match r with Ok a => k a | Err e => Ret (Err e) end.
Notation "'tryp' x '<-' m ';' k" := (try_prog m (λ x, k)) (at level 200, x pattern, m at level 100, k at level 200) : prog_scope.

Definition pure_prog {A} (r : result FErr A) : P A := Ret r.

(** A failing system call is an error of the operation. *)
Definition io_error {A} (m : prog (result ioErr A)) : P A :=
  do r <- m; Ret (result_map_err FtIo r).

Section server.
Context (E : FileEnv).
Context `{!MapRange fileKey FileRow}.
#[local] Instance name_le_decidable : RelDecision (fe_name_le E) := fe_name_le_dec E.

Abbreviation up := (fe_ToUpper E).
Abbreviation cfg := (fe_config E).

Definition db_GetFile c f n : P FileRecord := trigger (Db (GetFile (fe_db E) (fe_now_db E) c f n)).
Definition db_AddFile c f n size sha uploader encrypted : P () :=
  trigger (Db (AddFile (fe_db E) (fe_now_db E) c f n size sha uploader encrypted)).
Definition db_ListFiles c f : P (list FileRecord) := trigger (Db (ListFiles (fe_db E) (fe_now_db E) (fe_name_le E) c f)).
Definition db_ListFileFolders c : P (list string) := trigger (Db (ListFileFolders (fe_db E) (fe_now_db E) (fe_name_le E) c)).
Definition db_ListFileVersions c f n : P (list FileRecord) :=
  trigger (Db (ListFileVersions (fe_db E) (fe_now_db E) (fe_name_le E) c f n)).
Definition db_MoveFile c f n c' f' n' : P () := trigger (Db (MoveFile_row (fe_db E) (fe_now_db E) c f n c' f' n')).
Definition db_RenameFile c f n f' n' : P () := trigger (Db (RenameFile_row (fe_db E) (fe_now_db E) c f n f' n')).
Definition db_DeleteFile c f n : P () := trigger (Db (DeleteFile_row (fe_db E) (fe_now_db E) c f n)).
Definition db_FindFileBySHA c sha f n : P (option FileRecord) :=
  trigger (Db (FindFileBySHA (fe_db E) (fe_now_db E) c sha f n)).
Definition db_ChannelFileUsage c : P Z := trigger (Db (ChannelFileUsage (fe_db E) (fe_now_db E) c)).
Definition db_UploaderFileUsage u : P Z := trigger (Db (UploaderFileUsage (fe_db E) (fe_now_db E) u)).

Definition randomHex (n : nat) : P string :=
  ask r <- Rand n; Ret (match r with Ok b => Ok (hex b) | Err e => Err e end).

Definition tokenDigest (token : string) : list byte := fe_sha256 E (bytes_of_string token).

(** ** Tokens *)

Definition register (tr : transfer) : P (string * string) :=
  tryp id <- randomHex 8;
  tryp token <- randomHex 16;
  ask now <- Now;
  let tr := mkTransfer id token (tr_Direction tr) (tr_ChannelID tr) (tr_Folder tr) (tr_Name tr) (tr_Size tr) (tr_Uploader tr)
              (time_add now tokenTTL) in
  ask r <- Publish (tokenDigest token) tr;
  Ret (match r with Ok _ => Ok (id, token) | Err e => Err e end).

Definition consume (token transferID : string) : P transfer :=
  ask r <- Take (tokenDigest token);
  match r with
  | (Some tr, deleted) =>
      if negb (String.eqb (tr_ID tr) transferID) then Ret (Err (FtError "invalid transfer token"))
      else if deleted : bool then Ret (Err ErrChannelDeleted)
      else
        ask now <- Now;
        if time_after now (tr_Expires tr) then Ret (Err (FtError "transfer token expired")) else Ret (Ok tr)
  | (None, _) => Ret (Err (FtError "invalid transfer token"))
  end.

(** ** Quotas and listings *)

Definition ChannelQuotaState (channelID : Z) : P Quota :=
  tryp used <- db_ChannelFileUsage channelID;
  Ret (Ok (quotaFor used (fc_ChannelQuotaMB cfg))).

Definition UploaderQuotaState (uploader : string) (limitMB : Z) : P Quota :=
  if (limitMB <=? 0) || String.eqb uploader "" then Ret (Ok (mkQuota 0 0))
  else tryp used <- db_UploaderFileUsage uploader; Ret (Ok (quotaFor used limitMB)).

Definition ChannelQuota (channelID : Z) : P (Z * Z) :=
  tryp q <- ChannelQuotaState channelID; Ret (Ok (q_Used q, q_Limit q)).

(** One axis: nothing is asked if it has no ceiling. *)
Definition check_quota (limitMB : Z) (state : P Quota) (size : Z) (e : FErr) : P () :=
  if 0 <? limitMB then tryp q <- state; if Exceeded q size then Ret (Err e) else Ret (Ok ())
  else Ret (Ok ()).

Definition InitUpload (channelID : Z) (folder name : string) (size : Z) (uploader : string) (uploaderQuotaMB : Z) : P (string * string) :=
  tryp name <- pure_prog (sanitizeName up name);
  tryp folder <- pure_prog (sanitizeFolder up folder);
  if size <=? 0 then Ret (Err ErrTooLarge)
  else if (0 <? fc_MaxSizeMB cfg) && (i64 (Z.shiftl (fc_MaxSizeMB cfg) 20) <? size) then Ret (Err ErrTooLarge)
  else
    tryp _ <- check_quota (fc_ChannelQuotaMB cfg) (ChannelQuotaState channelID) size ErrQuotaExceeded;
    tryp _ <- check_quota uploaderQuotaMB (UploaderQuotaState uploader uploaderQuotaMB) size ErrUploaderQuotaExceeded;
    register (mkTransfer "" "" "upload" channelID folder name size uploader 0).

Definition InitDownload (channelID : Z) (folder name : string) : P (string * string) :=
  tryp name <- pure_prog (sanitizeName up name);
  tryp folder <- pure_prog (sanitizeFolder up folder);
  tryp rec <- db_GetFile channelID folder name;
  register (mkTransfer "" "" "download" channelID folder (rec_Name rec) (rec_Size rec) "" 0).

Definition ListFiles (channelID : Z) (folder : string) : P (list FileRecord) :=
  tryp folder <- pure_prog (sanitizeFolder up folder); db_ListFiles channelID folder.

Definition ListFileFolders (channelID : Z) : P (list string) := db_ListFileFolders channelID.

Definition ListFileVersions (channelID : Z) (folder name : string) : P (list FileRecord) :=
  tryp name <- pure_prog (sanitizeName up name);
  tryp folder <- pure_prog (sanitizeFolder up folder);
  db_ListFileVersions channelID folder name.

(** ** Blobs *)

Definition DeleteFile (channelID : Z) (folder name : string) : P () :=
  tryp name <- pure_prog (sanitizeName up name);
  tryp folder <- pure_prog (sanitizeFolder up folder);
  tryp _ <- db_DeleteFile channelID folder name;
  ask root <- OpenBlobRoot;
  match root with
  | Err _ => Ret (Ok ())
  | Ok _ => tell Remove (blobPath channelID folder name); Ret (Ok ())
  end.

(** The handle, if entry and opened file are regular. *)
Definition openRegularBlob (name : string) : prog (result ioErr nat) :=
  ask info <- Lstat name;
  match info with
  | Err e => Ret (Err e)
  | Ok false => Ret (Err IoOther)
  | Ok true =>
      ask f <- OpenFile name;
      match f with
      | Err e => Ret (Err e)
      | Ok f =>
          ask opened <- StatFile f;
          match opened with
          | Err e => tell CloseFile f; Ret (Err e)
          | Ok (false, _) => tell CloseFile f; Ret (Err IoOther)
          | Ok (true, _) => Ret (Ok f)
          end
      end
  end.

(** [io.Copy]: the bytes of [src] from where it stands, in pieces. *)
Fixpoint copy_loop (fuel : nat) (dst src : nat) : P () :=
  match fuel with
  | O => Ret (Err FtOutOfFuel)
  | S fuel =>
      ask r <- ReadFile src chunkSize;
      match r with
      | Err e => Ret (Err (FtIo e))
      | Ok [] => Ret (Ok ())
      | Ok bytes =>
          ask w <- WriteFile dst bytes;
          match w with Err e => Ret (Err (FtIo e)) | Ok _ => copy_loop fuel dst src end
      end
  end.

Definition copyBlobAndRemove (fuel : nat) (oldPath newPath : string) : P () :=
  do src <- openRegularBlob oldPath;
  match src with
  | Err IoNotExist => Ret (Ok ())
  | Err e => Ret (Err (FtIo e))
  | Ok src =>
      ask dst <- OpenExcl newPath;
      match dst with
      | Err e => tell CloseFile src; Ret (Err (FtIo e))
      | Ok dst =>
          do copied <- copy_loop fuel dst src;
          match copied with
          | Err e => tell CloseFile dst; tell Remove newPath; tell CloseFile src; Ret (Err e)
          | Ok _ =>
              ask synced <- SyncFile dst;
              match synced with
              | Err e => tell CloseFile dst; tell Remove newPath; tell CloseFile src; Ret (Err (FtIo e))
              | Ok _ =>
                  ask closed <- CloseFile dst;
                  match closed with
                  | Err e => tell Remove newPath; tell CloseFile src; Ret (Err (FtIo e))
                  | Ok _ =>
                      ask closed <- CloseFile src;
                      match closed with
                      | Err e => tell Remove newPath; Ret (Err (FtIo e))
                      | Ok _ => tell Remove oldPath; Ret (Ok ())
                      end
                  end
              end
          end
      end
  end.

Definition moveBlob (fuel : nat) (oldPath newPath : string) : P () :=
  ask info <- Lstat oldPath;
  match info with
  | Err IoNotExist => Ret (Ok ())
  | Err e => Ret (Err (FtIo e))
  | Ok false => Ret (Err (FtError "source blob is not a regular file"))
  | Ok true =>
      ask r <- Rename oldPath newPath;
      match r with
      | Ok _ | Err IoNotExist => Ret (Ok ())
      | Err _ => copyBlobAndRemove fuel oldPath newPath
      end
  end.

(** [MoveFile] under the read side of [fileOpsMu]. *)
Definition move_locked (fuel : nat) (channelID : Z) (folder name : string) (newChannelID : Z) (newFolder newName : string) : P () :=
  ask deleted <- IsDeleted channelID;
  if deleted : bool then Ret (Err ErrChannelDeleted)
  else
  ask deleted <- IsDeleted newChannelID;
  if deleted : bool then Ret (Err ErrChannelDeleted)
  else if (channelID =? newChannelID) && String.eqb folder newFolder && String.eqb name newName
  then Ret (Err (FtError "nothing to rename"))
  else
    tryp _ <- io_error (trigger OpenBlobRoot);
    let oldPath := blobPath channelID folder name in
    let newPath := blobPath newChannelID newFolder newName in
    tryp _ <- io_error (trigger (MkdirAll (path_Dir newPath)));
    do occupied <- db_GetFile newChannelID newFolder newName;
    match occupied with
    | Ok _ => Ret (Err (FtError "already exists in the target folder"))
    | Err _ =>
        tryp _ <- db_MoveFile channelID folder name newChannelID newFolder newName;
        do moved <- moveBlob fuel oldPath newPath;
        match moved with
        | Ok _ => Ret (Ok ())
        | Err e =>
            do rollback <- db_MoveFile newChannelID newFolder newName channelID folder name;
            match rollback with
            | Ok _ => Ret (Err e)
            | Err _ => Ret (Err (FtError "metadata rollback failed"))
            end
        end
    end.

Definition MoveFile (fuel : nat) (channelID : Z) (folder name : string) (newChannelID : Z) (newFolder newName : string) : P () :=
  tryp name <- pure_prog (sanitizeName up name);
  tryp newName <- pure_prog (sanitizeName up newName);
  tryp folder <- pure_prog (sanitizeFolder up folder);
  tryp newFolder <- pure_prog (sanitizeFolder up newFolder);
  let newChannelID := if newChannelID =? 0 then channelID else newChannelID in
  tell RLock;
  do r <- move_locked fuel channelID folder name newChannelID newFolder newName;
  tell RUnlock; Ret r.

Definition RenameFile (fuel : nat) (channelID : Z) (folder name newFolder newName : string) : P () :=
  MoveFile fuel channelID folder name channelID newFolder newName.

(** ** Download links *)

Fixpoint link_attempts (n : nat) (path name : string) (now : Z) : P (string * Z) :=
  match n with
  | O => Ret (Err (FtError "download link token collision limit exceeded"))
  | S n =>
      tryp token <- randomHex 16;
      if negb (validLinkToken token) then Ret (Err (FtError "download link token generator returned an invalid token"))
      else
        ask taken <- LinkFind token;
        match taken with
        | Some _ => link_attempts n path name now
        | None =>
            let expires := time_add now LinkTTL in
            tell LinkAdd token (mkLink path name expires); Ret (Ok (token, expires))
        end
  end.

(** The body of [Create] under the registry's lock. *)
Definition create_locked (path name : string) : P (string * Z) :=
  ask revoked <- LinkRevoked (linkChannel path);
  if revoked : bool then Ret (Err ErrChannelDeleted)
  else
    ask root <- OpenRoot;
    match root with
    | Err _ => Ret (Err (FtError "file not found on disk"))
    | Ok _ =>
        do f <- openRegularBlob path;
        match f with
        | Err _ => Ret (Err (FtError "file not found on disk"))
        | Ok f =>
            ask closed <- CloseFile f;
            match closed with
            | Err _ => Ret (Err (FtError "file not found on disk"))
            | Ok _ =>
                ask now <- Now;
                tell LinkPrune now;
                ask count <- LinkCount;
                if (fc_maxLinks cfg <=? count)%nat then Ret (Err ErrTooManyLinks)
                else link_attempts linkTokenAttempts path name now
            end
        end
    end.

Definition Create (path name : string) : P (string * Z) :=
  if isEncryptedAttachment name then Ret (Err ErrEncryptedAttachment)
  else
    tell LinkLock;
    do r <- create_locked path name;
    tell LinkUnlock; Ret r.

Definition CreateLink (channelID : Z) (folder name : string) : P (string * Z) :=
  tryp name <- pure_prog (sanitizeName up name);
  tryp folder <- pure_prog (sanitizeFolder up folder);
  tryp _ <- db_GetFile channelID folder name;
  Create (blobPath channelID folder name) name.

Fixpoint close_files (hs : list nat) : prog () :=
  match hs with
  | [] => Ret tt
  | h :: hs => tell CloseFile h; close_files hs
  end.

Definition RevokeChannel (channelID : Z) : prog () :=
  tell LinkLock;
  ask active <- LinkRevoke (pretty channelID);
  tell LinkUnlock;
  close_files active.

Definition open_locked (token : string) : prog (option (link * nat)) :=
  ask now <- Now;
  tell LinkPrune now;
  ask l <- LinkFind token;
  match l with
  | None => Ret None
  | Some l =>
      let channel := linkChannel (ln_path l) in
      ask revoked <- LinkRevoked channel;
      if revoked : bool then Ret None
      else
        ask root <- OpenRoot;
        match root with
        | Err _ => Ret None
        | Ok _ =>
            do f <- openRegularBlob (ln_path l);
            match f with
            | Err _ => Ret None
            | Ok f => tell LinkServe f channel; Ret (Some (l, f))
            end
        end
  end.

Definition openActive (token : string) : prog (option (link * nat)) :=
  tell LinkLock;
  do r <- open_locked token;
  tell LinkUnlock; Ret r.

(** What a request to /dl/ is answered; the body as far as the handle gave it. *)
Inductive http_answer := MethodNotAllowed | LinkNotFound | FileNotFound | Served (name : string) (body : list byte).

Fixpoint serve_content (fuel : nat) (h : nat) (body : list byte) : prog (list byte) :=
  match fuel with
  | O => Ret body
  | S fuel =>
      ask r <- ReadFile h chunkSize;
      match r with
      | Ok (b :: bytes) => serve_content fuel h (body ++ b :: bytes)
      | _ => Ret body
      end
  end.

Definition ServeHTTP (method urlPath : string) : prog http_answer :=
  if negb (String.eqb method "GET") then Ret MethodNotAllowed
  else
    match linkTokenFromPath urlPath with
    | None => Ret LinkNotFound
    | Some token =>
        do r <- openActive token;
        match r with
        | None => Ret LinkNotFound
        | Some (l, f) =>
            ask info <- StatFile f;
            do answer <- match info with
                         | Err _ => Ret FileNotFound
                         | Ok (_, size) => do body <- serve_content (size / chunkSize + 1) f []; Ret (Served (ln_name l) body)
                         end;
            tell LinkLock; tell LinkServed f; tell LinkUnlock;
            tell CloseFile f; Ret answer
        end
    end.

(** ** Deleting a channel's data *)

Definition removeChannelData (channelID : Z) : P () :=
  tryp _ <- io_error (trigger OpenBlobRoot);
  io_error (trigger (RemoveAll (pretty channelID))).

Fixpoint await_done (active : list activeTransfer) : prog () :=
  match active with
  | [] => Ret tt
  | a :: active => tell AwaitDone (at_done a); await_done active
  end.

(** The first attempt and [retries] more. *)
Fixpoint removal_attempts (retries : nat) (channelID : Z) (cleanup : nat) : prog () :=
  tell WLock;
  do r <- removeChannelData channelID;
  let e := match r with Ok _ => None | Err e => Some e end in
  tell SetErr cleanup e;
  tell WUnlock;
  match e, retries with
  | Some _, S retries => removal_attempts retries channelID cleanup
  | _, _ => Ret tt
  end.

Definition finishChannelCleanup (channelID : Z) (active : list activeTransfer) (cleanup : nat) : prog () :=
  do _ <- await_done active;
  do _ <- removal_attempts 3 channelID cleanup;
  tell CloseCleanup cleanup; Ret tt.

Fixpoint close_conns (active : list activeTransfer) : prog () :=
  match active with
  | [] => Ret tt
  | a :: active => tell CloseConn (at_conn a); close_conns active
  end.

Definition beginChannelCleanup (channelID : Z) : P nat :=
  if channelID <=? 0 then Ret (Err ErrChannelDeleted)
  else
    ask r <- Begin channelID;
    let '(cleanup, startCleanup, active) := r in
    do _ <- RevokeChannel channelID;
    do _ <- close_conns active;
    if startCleanup : bool then Fork (finishChannelCleanup channelID active cleanup) (Ret (Ok cleanup))
    else Ret (Ok cleanup).

Definition TombstoneChannelData (channelID : Z) : P () :=
  tryp _ <- beginChannelCleanup channelID; Ret (Ok ()).

Definition DeleteChannelData (channelID : Z) : P () :=
  tryp cleanup <- beginChannelCleanup channelID;
  ask r <- AwaitCleanup cleanup;
  match r with
  | Some None => Ret (Ok ())
  | Some (Some e) => Ret (Err e)
  | None => Ret (Err FtCancelled)
  end.

(** ** Reconciliation *)

(** The channels that canonical directory names stand for and that are not live. *)
Definition orphans_of (live : list Z) (entries : list (string * bool)) : list Z :=
  sort_by Z.le (omap (λ '(name, isDir),
    if isDir : bool then
      match ParseInt name with
      | Some id => if (0 <? id) && String.eqb (pretty id) name && negb (bool_decide (id ∈ live)) then Some id else None
      | None => None
      end
    else None) entries).

Fixpoint tombstone_each (ids : list Z) : prog (list Z * bool) :=
  match ids with
  | [] => Ret ([], false)
  | id :: ids =>
      do r <- TombstoneChannelData id;
      do rest <- tombstone_each ids;
      Ret (match r with Ok _ => (id :: rest.1, rest.2) | Err _ => (rest.1, true) end)
  end.

Fixpoint delete_each (ids : list Z) : prog (Z * bool) :=
  match ids with
  | [] => Ret (0, false)
  | id :: ids =>
      do r <- DeleteChannelData id;
      do rest <- delete_each ids;
      Ret (match r with Ok _ => (1 + rest.1, rest.2) | Err _ => (rest.1, true) end)
  end.

(** The number of removed directories and whether any error is reported. *)
Definition ReconcileChannelData (liveChannelIDs : list Z) : prog (Z * bool) :=
  ask root <- OpenBlobRoot;
  match root with
  | Err _ => Ret (0, true)
  | Ok _ =>
      ask entries <- ReadDir;
      match entries with
      | Err _ => Ret (0, true)
      | Ok entries =>
          do t <- tombstone_each (orphans_of (filter (λ id, 0 < id) liveChannelIDs) entries);
          let '(tombstoned, failed) := t in
          do d <- delete_each tombstoned;
          Ret (d.1, failed || d.2)
      end
  end.

(** ** Uploads *)

(** [limiter.wait]: it lets the bytes through or reports the end of the context. *)
Definition limiter_wait (limiter : option Z) (n : nat) : P () :=
  match limiter with
  | None => Ret (Ok ())
  | Some _ =>
      if (n =? 0)%nat then Ret (Ok ())
      else ask cancelled <- Cancelled; Ret (if cancelled : bool then Err FtCancelled else Ok ())
  end.

Definition limiter_for : prog (option Z) :=
  ask hour <- Hour; Ret (limiterFor hour (fc_QuietStart cfg) (fc_QuietEnd cfg) (fc_MaxKBps cfg)).

(** The [rename] of [rotateVersions]. *)
Definition rotate_rename (channelID : Z) (folder from to_ : string) : prog () :=
  do rec <- db_GetFile channelID folder from;
  match rec with
  | Err _ => Ret tt
  | Ok _ =>
      let oldPath := blobPath channelID folder from in
      let newPath := blobPath channelID folder to_ in
      ask info <- Lstat oldPath;
      match info with
      | Ok false => Ret tt
      | Ok true | Err IoNotExist =>
          do r <- db_RenameFile channelID folder from folder to_;
          match r with
          | Err _ => Ret tt
          | Ok _ => tell Rename oldPath newPath; Ret tt
          end
      | Err _ => Ret tt
      end
  end.

Definition version_name (name : string) (v : nat) : string := name +:+ ".v" +:+ pretty v.

(** The shifts of version [v] down to 1. *)
Fixpoint rotate_down (channelID : Z) (folder name : string) (v : nat) : prog () :=
  match v with
  | O => Ret tt
  | S v' => do _ <- rotate_rename channelID folder (version_name name v) (version_name name (S v)); rotate_down channelID folder name v'
  end.

Definition rotateVersions (tr : transfer) : prog () :=
  let c := tr_ChannelID tr in
  let oldest := version_name (tr_Name tr) maxFileVersions in
  do rec <- db_GetFile c (tr_Folder tr) oldest;
  do _ <- match rec with
          | Ok _ =>
              do _ <- db_DeleteFile c (tr_Folder tr) oldest;
              tell Remove (blobPath c (tr_Folder tr) oldest); Ret tt
          | Err _ => Ret tt
          end;
  do _ <- rotate_down c (tr_Folder tr) (tr_Name tr) (maxFileVersions - 1);
  rotate_rename c (tr_Folder tr) (tr_Name tr) (version_name (tr_Name tr) 1).

Definition add_upload (tr : transfer) (size : Z) (sum : string) : P () :=
  db_AddFile (tr_ChannelID tr) (tr_Folder tr) (tr_Name tr) size sum (tr_Uploader tr) (isEncryptedAttachment (tr_Name tr)).

(** Whether the current file is the same and its blob is there. *)
Definition same_upload (tr : transfer) (finalPath sum : string) : prog bool :=
  do cur <- db_GetFile (tr_ChannelID tr) (tr_Folder tr) (tr_Name tr);
  match cur with
  | Ok cur =>
      if String.eqb (rec_SHA256 cur) sum then
        ask info <- Lstat finalPath; Ret (match info with Ok true => true | _ => false end)
      else Ret false
  | Err _ => Ret false
  end.

(** Link an identical blob of the channel to the final name, if there is one. *)
Definition dedup_link (tr : transfer) (tmpPath finalPath sum : string) : prog bool :=
  do ex <- db_FindFileBySHA (tr_ChannelID tr) sum (tr_Folder tr) (tr_Name tr);
  match ex with
  | Ok (Some ex) =>
      let existingPath := blobPath (tr_ChannelID tr) (rec_Folder ex) (rec_Name ex) in
      ask info <- Lstat existingPath;
      match info with
      | Ok true =>
          ask linked <- Link existingPath finalPath;
          match linked with
          | Ok _ => tell Remove tmpPath; Ret true
          | Err _ => Ret false
          end
      | _ => Ret false
      end
  | _ => Ret false
  end.

Definition finalize_locked (tr : transfer) (tmpPath finalPath : string) (size : Z) (sum : string) : P () :=
  ask deleted <- IsDeleted (tr_ChannelID tr);
  if deleted : bool then tell Remove tmpPath; Ret (Err ErrChannelDeleted)
  else
    let encrypted := isEncryptedAttachment (tr_Name tr) in
    if encrypted && negb (String.eqb (tr_Name tr) (String.substring 0 encryptedNameLen sum +:+ encryptedSuffix))
    then tell Remove tmpPath; Ret (Err (FtError "encrypted attachment name is not its content digest"))
    else
      do same <- same_upload tr finalPath sum;
      if same : bool then tell Remove tmpPath; add_upload tr size sum
      else
        do _ <- (if encrypted : bool then Ret tt else rotateVersions tr);
        do linked <- dedup_link tr tmpPath finalPath sum;
        if linked : bool then add_upload tr size sum
        else
          ask renamed <- Rename tmpPath finalPath;
          match renamed with
          | Err e => tell Remove tmpPath; Ret (Err (FtIo e))
          | Ok _ => add_upload tr size sum
          end.

Definition finalizeUpload (tr : transfer) (tmpPath finalPath : string) (size : Z) (sum : string) : P () :=
  tell RLock;
  do r <- finalize_locked tr tmpPath finalPath size sum;
  tell RUnlock; Ret r.

(** Close and remove the partial file. *)
Definition upload_fail (f : nat) (tmpPath : string) (e : FErr) : P () :=
  tell CloseFile f; tell Remove tmpPath; Ret (Err e).

(** [hashed] is what the hash has been fed. *)
Fixpoint receive_loop (fuel : nat) (conn : nat) (tr : transfer) (f : nat) (tmpPath finalPath : string) (limiter : option Z)
    (received : Z) (hashed : list byte) : P () :=
  match fuel with
  | O => upload_fail f tmpPath FtOutOfFuel
  | S fuel =>
      ask frame <- RecvFrame conn;
      match frame with
      | None => upload_fail f tmpPath (FtError "reading chunk")
      | Some frame =>
          let payload := fr_Payload frame in
          if fr_Type frame =? frameChunk then
            let received := i64 (received + Z.of_nat (length payload)) in
            if tr_Size tr <? received then upload_fail f tmpPath (FtError "received more bytes than the declared size")
            else
              ask written <- WriteFile f payload;
              match written with
              | Err e => upload_fail f tmpPath (FtIo e)
              | Ok _ =>
                  do waited <- limiter_wait limiter (length payload);
                  match waited with
                  | Err e => upload_fail f tmpPath e
                  | Ok _ => receive_loop fuel conn tr f tmpPath finalPath limiter received (hashed ++ payload)
                  end
              end
          else if fr_Type frame =? frameDigest then
            match fe_digest E payload with
            | None => upload_fail f tmpPath (FtError "malformed digest frame")
            | Some digest =>
                if negb (received =? tr_Size tr) then upload_fail f tmpPath (FtError "size mismatch")
                else
                  let sum := hex (fe_sha256 E hashed) in
                  if negb (String.eqb digest sum) then upload_fail f tmpPath (FtError "checksum mismatch")
                  else
                    ask synced <- SyncFile f;
                    match synced with
                    | Err e => upload_fail f tmpPath (FtIo e)
                    | Ok _ =>
                        ask closed <- CloseFile f;
                        match closed with
                        | Err e => tell Remove tmpPath; Ret (Err (FtIo e))
                        | Ok _ => finalizeUpload tr tmpPath finalPath received sum
                        end
                    end
            end
          else upload_fail f tmpPath (FtError "unexpected frame type")
      end
  end.

Definition receiveUpload (fuel : nat) (conn : nat) (tr : transfer) : P () :=
  tryp _ <- io_error (trigger OpenBlobRoot);
  let finalPath := blobPath (tr_ChannelID tr) (tr_Folder tr) (tr_Name tr) in
  tryp _ <- io_error (trigger (MkdirAll (path_Dir finalPath)));
  tryp tmpID <- randomHex 8;
  let tmpPath := finalPath +:+ ".part-" +:+ tmpID in
  tryp f <- io_error (trigger (OpenExcl tmpPath));
  do limiter <- limiter_for;
  receive_loop fuel conn tr f tmpPath finalPath limiter 0 [].

(** ** Downloads *)

(** [io.CopyN(h, f, n)]: the next [n] bytes for the hash. *)
Fixpoint hash_prefix (fuel : nat) (f : nat) (n : nat) (hashed : list byte) : P (list byte) :=
  if (n =? 0)%nat then Ret (Ok hashed)
  else
    match fuel with
    | O => Ret (Err FtOutOfFuel)
    | S fuel =>
        ask r <- ReadFile f (Nat.min n chunkSize);
        match r with
        | Err e => Ret (Err (FtIo e))
        | Ok [] => Ret (Err (FtError "hashing resumed prefix"))
        | Ok bytes => hash_prefix fuel f (n - length bytes) (hashed ++ bytes)
        end
    end.

Fixpoint send_loop (fuel : nat) (conn f : nat) (limiter : option Z) (hashed : list byte) : P (list byte) :=
  match fuel with
  | O => Ret (Err FtOutOfFuel)
  | S fuel =>
      ask r <- ReadFile f chunkSize;
      match r with
      | Err e => Ret (Err (FtIo e))
      | Ok [] => Ret (Ok hashed)
      | Ok chunk =>
          ask sent <- SendFrame conn {| fr_Type := frameChunk; fr_Payload := chunk |};
          if sent : bool then
            do waited <- limiter_wait limiter (length chunk);
            match waited with
            | Err e => Ret (Err e)
            | Ok _ => send_loop fuel conn f limiter (hashed ++ chunk)
            end
          else Ret (Err (FtError "writing chunk"))
      end
  end.

Definition download_body (fuel : nat) (conn f : nat) (tr : transfer) (offset : Z) : P () :=
  tryp prefix <-
    (if 0 <? offset then
       if tr_Size tr <? offset then Ret (Err (FtError "resume offset is past the end"))
       else hash_prefix fuel f (Z.to_nat offset) []
     else Ret (Ok []));
  do limiter <- limiter_for;
  tryp hashed <- send_loop fuel conn f limiter prefix;
  ask sent <- SendFrame conn {| fr_Type := frameDigest; fr_Payload := fe_digest_out E (hex (fe_sha256 E hashed)) |};
  Ret (if sent : bool then Ok () else Err (FtError "writing digest")).

Definition sendDownload (fuel : nat) (conn : nat) (tr : transfer) (offset : Z) : P () :=
  tryp _ <- io_error (trigger OpenBlobRoot);
  tryp f <- io_error (openRegularBlob (blobPath (tr_ChannelID tr) (tr_Folder tr) (tr_Name tr)));
  do r <- download_body fuel conn f tr offset;
  ask closed <- CloseFile f;
  Ret (match r, closed with
       | Err e, _ => Err e
       | Ok _, Err e => Err (FtIo e)
       | Ok _, Ok _ => Ok ()
       end).

(** ** A connection *)

Definition writeStatus (conn : nat) (e : option FErr) : prog () :=
  tell SendFrame conn {| fr_Type := frameStatus; fr_Payload := fe_status_out E e |}; Ret tt.

(** From a consumed token on: the transfer, its answer, and its end. *)
Definition serve_transfer (fuel : nat) (conn : nat) (tr : transfer) (offset : Z) : P () :=
  ask active <- Activate tr conn;
  match active with
  | Err e => do _ <- writeStatus conn (Some e); Ret (Err e)
  | Ok active =>
      do r <- (if String.eqb (tr_Direction tr) "upload" then receiveUpload fuel conn tr else sendDownload fuel conn tr offset);
      do _ <- writeStatus conn (match r with Ok _ => None | Err e => Some e end);
      tell Deactivate active;
      tell CloseDone (at_done active);
      Ret r
  end.

Definition serve (fuel : nat) (conn : nat) : P () :=
  ask f <- RecvFrame conn;
  do r <- match f with
          | None => Ret (Err (FtError "reading frame"))
          | Some f =>
              if negb (fr_Type f =? frameInit) then
                do _ <- writeStatus conn (Some (FtError "expected init frame")); Ret (Err (FtError "expected init frame"))
              else
                match fe_init E (fr_Payload f) with
                | None => do _ <- writeStatus conn (Some (FtError "malformed init frame")); Ret (Err (FtError "malformed init frame"))
                | Some (token, transferID, offset) =>
                    do tr <- consume token transferID;
                    match tr with
                    | Err e => do _ <- writeStatus conn (Some e); Ret (Err e)
                    | Ok tr => serve_transfer fuel conn tr offset
                    end
                end
          end;
  tell CloseConn conn; Ret r.

(** The probe of the root at startup. *)
Definition CheckRoot : P () :=
  tryp _ <- io_error (trigger OpenBlobRoot);
  tryp probeID <- randomHex 8;
  let probe := ".writetest-" +:+ probeID in
  tryp f <- io_error (trigger (OpenExcl probe));
  ask written <- WriteFile f (bytes_of_string "ok");
  match written with
  | Err e => tell CloseFile f; tell Remove probe; Ret (Err (FtIo e))
  | Ok _ =>
      ask closed <- CloseFile f;
      match closed with
      | Err e => tell Remove probe; Ret (Err (FtIo e))
      | Ok _ => tell Remove probe; Ret (Ok ())
      end
  end.
End server.
