(* ===== verification/FileHandlers.v ===== *)
(** * The file requests of the control server ([server/files.go])

    Each handler as a program of accesses, like the operations it calls, so that it
    can be run alone or interleaved. The permission middleware is asked in the
    state of the loader and the state manager at that moment ([serverDeps]); a
    handler that asks it again, later, gets a second one. A handler ends with the
    answer it writes and what it hands to the audit log. *)

From Stdlib Require Import Ascii.
From stdpp Require Import pretty.
From S2P Require Import Prelude Permissions StateManager PermCheck ChatText GoStrings GoState FileNames AuthService ServerWorld FileStore FileWorld FileTransfer.

Definition PermissionKeyFTUploadQuotaMB : PermissionKey := "i_ft_quota_mb_upload_per_client".
Definition PermissionKeyFTFileDelete : PermissionKey := "b_ft_delete".

(** ** Messages *)

Record FileTransferInit := { fi_ChannelID : Z; fi_Direction : string; fi_Name : string; fi_Size : Z; fi_Folder : string }.
Record FileList := { fl_ChannelID : Z; fl_Path : string; fl_Folder : string }.
Record FileDelete := { fd_ChannelID : Z; fd_Folder : string; fd_Name : string }.
Record FileRename := {
  fn_ChannelID : Z; fn_Folder : string; fn_Name : string; fn_NewName : string; fn_NewFolder : string; fn_NewChannelID : Z;
}.
Record FileVersions := { fv_ChannelID : Z; fv_Folder : string; fv_Name : string }.
Record FileLink := { fk_ChannelID : Z; fk_Folder : string; fk_Name : string }.

Record FileEntry := {
  fe_Name : string; fe_Folder : string; fe_Size : Z; fe_SHA256 : string; fe_Uploader : string; fe_UploadedAt : Z; fe_Encrypted : bool;
}.

Inductive FileMsg :=
| FileTransferInitResponse (transferID token : string) (port : Z) (tls : bool) (fingerprint : string)
| FileListResponse (entries : list FileEntry) (folders : list string) (used quota : Z)
| FileVersionsResponse (entries : list FileEntry)
| FileLinkResponse (path scheme : string) (port expiresAt : Z).

(** How a handler ends: an error message, an answer, or nothing written. *)
Inductive FileReply := FileRefused (code : Z) (message : string) | FileAnswered (m : FileMsg) | FileDone.

(** The action, the target and the detail of an audit entry. *)
Record FileOutcome := { fo_reply : FileReply; fo_audit : option (string * string * string) }.

(** ** Addresses *)

Definition has_char (c : ascii) (l : chars) : bool := existsb (Ascii.eqb c) l.

(** The part after the last occurrence of [c], and the part before it. *)
Definition split_last (c : ascii) (l : chars) : option (chars * chars) :=
  match span (λ d, negb (Ascii.eqb c d)) (reverse l) with
  | (after, _ :: before) => Some (reverse before, reverse after)
  | (_, []) => None
  end.

(** The port of [net.SplitHostPort]. *)
Definition SplitHostPort_port (hostport : string) : option string :=
  let l := chars_of hostport in
  match split_last ":" l with
  | None => None
  | Some (before, port) =>
      match l with
      | "["%char :: rest =>
          match span (λ d, negb (Ascii.eqb "]" d)) rest with
          | (host, "]"%char :: after) =>
              if bool_decide (after = ":"%char :: port) && negb (has_char "[" rest) && negb (has_char "]" after)
              then Some (String.string_of_list_ascii port) else None
          | _ => None
          end
      | _ =>
          if has_char ":" before || has_char "[" l || has_char "]" l then None
          else Some (String.string_of_list_ascii port)
      end
  end.

(** [strconv.ParseUint(s, 10, bitSize)]. *)
Definition ParseUint (s : string) (bitSize : Z) : option Z :=
  match chars_of s with
  | [] => None
  | l => match digits 0 l with Some n => if n <? 2 ^ bitSize then Some n else None | None => None end
  end.

Definition portFromAddress (address : string) : option Z :=
  match SplitHostPort_port address with
  | None => None
  | Some portText =>
      match ParseUint portText 16 with
      | Some port => if port =? 0 then None else Some port
      | None => None
      end
  end.

(** ** Permissions *)

Definition permCheckerInChannel (deps : serverDeps) (client : connClient) (channelID : Z) : result permError permChecker :=
  if conn_userID client =? 0 then permCheckerFor deps client
  else
    match dep_perms deps with
    | None => Err errPermsUnavailable
    | Some src =>
        let? tp := result_map_err errLoadingPermissions (LoadForClient (PermSource := src) (conn_userID client) channelID) in
        Ok {| pc_tp := tp; pc_admin := conn_isAdmin client; pc_guest := false |}
    end.

Definition uploadQuotaMB (pc : permChecker) : Z :=
  if pc_admin pc then 0 else power pc PermissionKeyFTUploadQuotaMB.

Definition file_entry (rec : FileRecord) : FileEntry :=
  {| fe_Name := rec_Name rec; fe_Folder := rec_Folder rec; fe_Size := rec_Size rec; fe_SHA256 := rec_SHA256 rec;
     fe_Uploader := rec_Uploader rec; fe_UploadedAt := rec_UploadedAt rec; fe_Encrypted := rec_Encrypted rec |}.
Definition fileEntries (files : list FileRecord) : list FileEntry := file_entry <$> files.

Section handlers.
Context (E : FileEnv).
Context `{!MapRange fileKey FileRow}.
Context (err_text : FErr → string).
Context (wired : bool).                      (* [deps.FileTransfer] is there *)
Context (port : Z) (fingerprint : string).   (* [Port()] and [Fingerprint()] *)
Context (HealthAddr : string).

Abbreviation FP := (prog FileOutcome).

Definition refuse (code : Z) (message : string) : FP := Ret {| fo_reply := FileRefused code message; fo_audit := None |}.
Definition reply (m : FileMsg) : FP := Ret {| fo_reply := FileAnswered m; fo_audit := None |}.
Definition done_audited (action target detail : string) : FP :=
  Ret {| fo_reply := FileDone; fo_audit := Some (action, target, detail) |}.

(** The head of a handler: the message, the backend. *)
Definition with_request {A} (what : string) (msg : option A) (k : A → FP) : FP :=
  match msg with
  | None => refuse errCodeMalformed ("malformed " +:+ what)
  | Some msg => if wired then k msg else refuse errCodeUnavailable "file transfer backend unavailable"
  end.

(** ... and the caller's permissions. *)
Definition with_checker (pc : result permError permChecker) (k : permChecker → FP) : FP :=
  match pc with
  | Err _ => refuse errCodeUnavailable "permission backend unavailable"
  | Ok pc => k pc
  end.

Definition denied (key : PermissionKey) : FP := refuse errCodePermissionDenied ("insufficient permission: " +:+ key).

Definition file_target (channelID : Z) (folder name : string) : string := pretty channelID +:+ ":" +:+ folder +:+ "/" +:+ name.

(** The end of [handleFileTransferInit]. *)
Definition answer_token (m : prog (result FErr (string * string))) : FP :=
  do r <- m;
  match r with
  | Err e => refuse errCodeMalformed ("file transfer init failed: " +:+ err_text e)
  | Ok (transferID, token) =>
      reply (FileTransferInitResponse transferID token port (negb (String.eqb fingerprint "")) fingerprint)
  end.

Definition handleFileTransferInit (deps : serverDeps) (client : Conn) (msg : option FileTransferInit) : FP :=
  with_request "file_transfer_init" msg (λ msg,
  with_checker (permCheckerFor deps (conn_of client)) (λ pc,
  if String.eqb (fi_Direction msg) "upload" then
    if negb (ftUploadAllowed pc) then denied PermissionKeyFTFileUploadPower
    else answer_token (InitUpload E (fi_ChannelID msg) (fi_Folder msg) (fi_Name msg) (fi_Size msg) (cn_UniqueID client) (uploadQuotaMB pc))
  else if String.eqb (fi_Direction msg) "download" then
    if negb (ftDownloadAllowed pc) then denied PermissionKeyFTFileDownloadPower
    else answer_token (InitDownload E (fi_ChannelID msg) (fi_Folder msg) (fi_Name msg))
  else refuse errCodeMalformed "direction must be upload or download")).

Definition handleFileList (deps : serverDeps) (client : Conn) (msg : option FileList) : FP :=
  with_request "file_list" msg (λ msg,
  if String.eqb (fl_Folder msg) "" && negb (String.eqb (fl_Path msg) "") && negb (String.eqb (fl_Path msg) "/")
  then refuse errCodeMalformed "legacy path field supports only empty or /"
  else
  with_checker (permCheckerFor deps (conn_of client)) (λ pc,
  if negb (ftDownloadAllowed pc) then denied PermissionKeyFTFileDownloadPower
  else
    do files <- ListFiles E (fl_ChannelID msg) (fl_Folder msg);
    match files with
    | Err _ => refuse errCodeUnavailable "listing files failed"
    | Ok files =>
        do folders <- ListFileFolders E (fl_ChannelID msg);
        match folders with
        | Err _ => refuse errCodeUnavailable "listing folders failed"
        | Ok folders =>
            do quota <- ChannelQuota E (fl_ChannelID msg);
            match quota with
            | Err _ => refuse errCodeUnavailable "reading quota failed"
            | Ok (used, quota) => reply (FileListResponse (fileEntries files) folders used quota)
            end
        end
    end)).

(** The first record of that name decides. *)
Definition owner_of (name : string) (files : list FileRecord) : option string :=
  match filter (λ rec, rec_Name rec = name) files with rec :: _ => Some (rec_Uploader rec) | [] => None end.

(** [None] lets the request through. *)
Definition fileManageAllowed (deps : serverDeps) (client : Conn) (channelID : Z) (folder name : string) : prog (option string) :=
  match permCheckerFor deps (conn_of client) with
  | Err _ => Ret (Some "permission backend unavailable")
  | Ok pc =>
      if pc_admin pc || granted_ pc PermissionKeyFTFileDelete then Ret None
      else
        do files <- ListFiles E channelID folder;
        match files with
        | Err _ => Ret (Some "checking file owner failed")
        | Ok files =>
            match owner_of name files with
            | Some uploader =>
                if String.eqb uploader (cn_UniqueID client) then Ret None
                else Ret (Some ("insufficient permission: only the uploader or " +:+ PermissionKeyFTFileDelete +:+ " holders may manage this file"))
            | None => Ret (Some "file not found")
            end
        end
  end.

Definition handleFileDelete (deps : serverDeps) (client : Conn) (msg : option FileDelete) : FP :=
  with_request "file_delete" msg (λ msg,
  do refused <- fileManageAllowed deps client (fd_ChannelID msg) (fd_Folder msg) (fd_Name msg);
  match refused with
  | Some e => refuse errCodePermissionDenied e
  | None =>
      do r <- DeleteFile E (fd_ChannelID msg) (fd_Folder msg) (fd_Name msg);
      match r with
      | Err e => refuse errCodeNotFound ("delete failed: " +:+ err_text e)
      | Ok _ => done_audited "file_delete" (file_target (fd_ChannelID msg) (fd_Folder msg) (fd_Name msg)) ""
      end
  end).

(** What a move into another channel needs there; [None] lets it through. *)
Definition target_refused (deps : serverDeps) (client : Conn) (target : Z) : option (Z * string) :=
  match dep_state deps with
  | None => Some (errCodeUnavailable, "state backend unavailable")
  | Some st =>
      match GetChannel target st with
      | None => Some (errCodeNotFound, "target channel not found")
      | Some _ =>
          match permCheckerInChannel deps (conn_of client) target with
          | Err _ => Some (errCodeUnavailable, "permission backend unavailable")
          | Ok pc =>
              if ftUploadAllowed pc then None
              else Some (errCodePermissionDenied, "insufficient permission in the target channel: " +:+ PermissionKeyFTFileUploadPower)
          end
      end
  end.

Definition handleFileRename (fuel : nat) (deps deps' : serverDeps) (client : Conn) (msg : option FileRename) : FP :=
  with_request "file_rename" msg (λ msg,
  if String.eqb (fn_NewName msg) "" then refuse errCodeMalformed "new_name is required"
  else
    do refused <- fileManageAllowed deps client (fn_ChannelID msg) (fn_Folder msg) (fn_Name msg);
    match refused with
    | Some e => refuse errCodePermissionDenied e
    | None =>
        let target := if fn_NewChannelID msg =? 0 then fn_ChannelID msg else fn_NewChannelID msg in
        match (if target =? fn_ChannelID msg then None else target_refused deps' client target) with
        | Some (code, e) => refuse code e
        | None =>
            do r <- MoveFile E fuel (fn_ChannelID msg) (fn_Folder msg) (fn_Name msg) target (fn_NewFolder msg) (fn_NewName msg);
            match r with
            | Err e => refuse errCodeNotFound ("rename failed: " +:+ err_text e)
            | Ok _ => done_audited "file_rename" (file_target (fn_ChannelID msg) (fn_Folder msg) (fn_Name msg))
                        ("to " +:+ file_target target (fn_NewFolder msg) (fn_NewName msg))
            end
        end
    end).

Definition handleFileVersions (deps : serverDeps) (client : Conn) (msg : option FileVersions) : FP :=
  with_request "file_versions" msg (λ msg,
  with_checker (permCheckerFor deps (conn_of client)) (λ pc,
  if negb (ftDownloadAllowed pc) then denied PermissionKeyFTFileDownloadPower
  else
    do files <- ListFileVersions E (fv_ChannelID msg) (fv_Folder msg) (fv_Name msg);
    match files with
    | Err _ => refuse errCodeUnavailable "listing versions failed"
    | Ok files => reply (FileVersionsResponse (fileEntries files))
    end)).

(** The end of [handleFileLink]. *)
Definition mint_link (msg : FileLink) : FP :=
  match portFromAddress HealthAddr with
  | None => refuse errCodeUnavailable "download links are unavailable"
  | Some port =>
      do r <- CreateLink E (fk_ChannelID msg) (fk_Folder msg) (fk_Name msg);
      match r with
      | Err e => refuse errCodeNotFound ("link failed: " +:+ err_text e)
      | Ok (token, expires) =>
          Ret {| fo_reply := FileAnswered (FileLinkResponse ("/dl/" +:+ token) "http" port (expires / second));
                 fo_audit := Some ("file_link", file_target (fk_ChannelID msg) (fk_Folder msg) (fk_Name msg), "") |}
      end
  end.

Definition handleFileLink (deps : serverDeps) (client : Conn) (msg : option FileLink) : FP :=
  with_request "file_link" msg (λ msg,
  with_checker (permCheckerFor deps (conn_of client)) (λ pc,
  if pc_admin pc then mint_link msg
  else
    do files <- ListFiles E (fk_ChannelID msg) (fk_Folder msg);
    match files with
    | Err _ => refuse errCodeUnavailable "checking file owner failed"
    | Ok files =>
        if existsb (λ rec, String.eqb (rec_Name rec) (fk_Name msg) && String.eqb (rec_Uploader rec) (cn_UniqueID client)) files
        then mint_link msg
        else refuse errCodePermissionDenied "only the uploader or an admin may create download links"
    end)).

End handlers.
