(* ===== verification/FileThreads.v ===== *)
(** * Interleaved file operations

    The requests of the control server, the connections of the file port, the
    requests to /dl/ and the cleanup goroutines as threads that run one access at
    a time, in any order, with peers that come and go and channel rows that the
    channel manager adds and removes.

    [disc] is the discipline the programs keep. A thread is seen with what it
    holds ([local]): locks, channels it saw alive under the read lock, transfer
    ids only it knows, the transfer it serves, the cleanup it runs. [allowed] says
    what an access needs of that, [answer] what the invariant of the whole lets it
    rely on, [after] what it holds then. *)

From stdpp Require Import pretty.
From S2P Require Import Prelude ChatText GoStrings Wire GoState ChatKeys AuthService FileNames FileStore FileWorld FileTransfer.

(** ** Requests *)

Inductive fop :=
| OpInitUpload (channelID : Z) (folder name : string) (size : Z) (uploader : string) (quotaMB : Z)
| OpInitDownload (channelID : Z) (folder name : string)
| OpListFiles (channelID : Z) (folder : string)
| OpListFolders (channelID : Z)
| OpListVersions (channelID : Z) (folder name : string)
| OpQuota (channelID : Z)
| OpDelete (channelID : Z) (folder name : string)
| OpMove (fuel : nat) (channelID : Z) (folder name : string) (newChannelID : Z) (newFolder newName : string)
| OpCreateLink (channelID : Z) (folder name : string)
| OpServeHTTP (method urlPath : string)
| OpTombstone (channelID : Z)
| OpDeleteChannel (channelID : Z)
| OpReconcile (live : list Z)
| OpServe (fuel : nat) (conn : nat)
| OpCheckRoot.

Inductive fresp :=
| RToken (r : result FErr (string * string)) | RLink (r : result FErr (string * Z)) | RUnit (r : result FErr ())
| RFiles (r : result FErr (list FileRecord)) | RNames (r : result FErr (list string)) | RQuota (r : result FErr (Z * Z))
| RHttp (r : http_answer) | RCount (r : Z * bool) | RForked.

Definition fmap_prog {A B} (f : A → B) (m : prog A) : prog B := do a <- m; Ret (f a).

Record thread := mkThread { th_op : option fop; th_prog : prog fresp }.
Record conf := mkConf { cf_world : FW; cf_threads : list thread }.

Section threads.
Context (E : FileEnv).
Context `{!MapRange fileKey FileRow}.

Definition op_prog (op : fop) : prog fresp :=
  match op with
  | OpInitUpload c f n size u q => fmap_prog RToken (InitUpload E c f n size u q)
  | OpInitDownload c f n => fmap_prog RToken (InitDownload E c f n)
  | OpListFiles c f => fmap_prog RFiles (ListFiles E c f)
  | OpListFolders c => fmap_prog RNames (ListFileFolders E c)
  | OpListVersions c f n => fmap_prog RFiles (ListFileVersions E c f n)
  | OpQuota c => fmap_prog RQuota (ChannelQuota E c)
  | OpDelete c f n => fmap_prog RUnit (DeleteFile E c f n)
  | OpMove fuel c f n c' f' n' => fmap_prog RUnit (MoveFile E fuel c f n c' f' n')
  | OpCreateLink c f n => fmap_prog RLink (CreateLink E c f n)
  | OpServeHTTP m p => fmap_prog RHttp (ServeHTTP m p)
  | OpTombstone c => fmap_prog RUnit (TombstoneChannelData c)
  | OpDeleteChannel c => fmap_prog RUnit (DeleteChannelData c)
  | OpReconcile live => fmap_prog RCount (ReconcileChannelData live)
  | OpServe fuel conn => fmap_prog RUnit (serve E fuel conn)
  | OpCheckRoot => fmap_prog RUnit CheckRoot
  end.

Definition forked (c : prog ()) : thread := mkThread None (fmap_prog (λ _, RForked) c).

Inductive fstep : conf → conf → Prop :=
| step_start w ths op : fstep (mkConf w ths) (mkConf w (ths ++ [mkThread (Some op) (op_prog op)]))
| step_act w ths i o B (e : act B) k w' b :
    ths !! i = Some (mkThread o (Vis e k)) → exec E e w = Some (w', b) →
    fstep (mkConf w ths) (mkConf w' (<[i := mkThread o (k b)]> ths))
| step_fork w ths i o c k :
    ths !! i = Some (mkThread o (Fork c k)) →
    fstep (mkConf w ths) (mkConf w (<[i := mkThread o k]> ths ++ [forked c]))
| step_accept w ths conn frames :
    fw_conns w !! conn = None →
    fstep (mkConf w ths) (mkConf (on_conns <[conn := mkFConn frames [] false]> w) ths)
| step_hangup w ths conn : fstep (mkConf w ths) (mkConf (close_conn conn w) ths)
| step_channel_added w ths c :
    fstep (mkConf w ths)
      (mkConf (put_db (mkFileDB (fd_files (fw_db w)) ({[c]} ∪ fd_channels (fw_db w)) (fd_nextID (fw_db w)) (fd_calls (fw_db w))) w) ths)
| step_channel_deleted w ths c : fstep (mkConf w ths) (mkConf (put_db (delete_channel_row c (fw_db w)) w) ths).

(** Thread [i] makes its next access, if it has one and is not blocked. *)
Definition sched_step (i : nat) (s : conf) : conf :=
  match cf_threads s !! i with
  | Some (mkThread o (Vis e k)) =>
      match exec E e (cf_world s) with
      | Some (w', b) => mkConf w' (<[i := mkThread o (k b)]> (cf_threads s))
      | None => s
      end
  | Some (mkThread o (Fork c k)) => mkConf (cf_world s) (<[i := mkThread o k]> (cf_threads s) ++ [forked c])
  | _ => s
  end.

(** A history: requests and connections come, threads make some accesses. *)
Inductive move := Start (op : fop) | Run (i n : nat) | Accept (conn : nat) (frames : list (option Frame)).

Definition play1 (m : move) (s : conf) : conf :=
  match m with
  | Start op => mkConf (cf_world s) (cf_threads s ++ [mkThread (Some op) (op_prog op)])
  | Run i n => Nat.iter n (sched_step i) s
  | Accept conn frames =>
      match fw_conns (cf_world s) !! conn with
      | None => mkConf (on_conns <[conn := mkFConn frames [] false]> (cf_world s)) (cf_threads s)
      | Some _ => s
      end
  end.
Definition play (l : list move) (s : conf) : conf := foldl (λ s m, play1 m s) s l.

Lemma sched_step_steps i s : rtc fstep s (sched_step i s).
Proof.
  unfold sched_step. destruct s as [w ths]. cbn. destruct (ths !! i) as [[o [a|B e k|c k]]|] eqn:Hi; [done| | |done].
  - destruct (exec E e w) as [[w' b]|] eqn:He; [|done]. apply rtc_once. by eapply step_act.
  - apply rtc_once. by eapply step_fork.
Qed.

Lemma play_steps l s : rtc fstep s (play l s).
Proof.
  revert s. induction l as [|m l IH]; intros s; [done|]. cbn. etrans; [|apply IH]. destruct m as [op|i n|conn frames]; cbn.
  - destruct s as [w ths]. apply rtc_once, step_start.
  - induction n as [|n IHn]; cbn; [done|]. etrans; [exact IHn|]. apply sched_step_steps.
  - destruct s as [w ths]. cbn. destruct (fw_conns w !! conn) eqn:Hc; [done|]. by apply rtc_once, step_accept.
Qed.

End threads.

(** ** What a thread holds *)

Inductive cleanStatus := CWait (dones : list nat) | CRemoved | CSet (e : option FErr).

(** No transfer is waited for any more. *)
Definition waited (st : cleanStatus) : Prop := match st with CWait (_ :: _) => False | _ => True end.

Record local := mkLocal {
  lo_read : bool;                        (* the read side of fileOpsMu *)
  lo_write : bool;                       (* the write side *)
  lo_ok : gset Z;                        (* channels seen alive while reading *)
  lo_link : bool;                        (* the registry's lock *)
  lo_unrevoked : gset string;            (* channels seen unrevoked while holding it *)
  lo_revoked : gset string;              (* channels it has revoked *)
  lo_ids : gset string;                  (* transfer ids nobody else has *)
  lo_active : option activeTransfer;     (* the transfer it serves *)
  lo_closing : option nat;               (* the [done] channel it still has to close *)
  lo_clean : option (Z * nat * cleanStatus);   (* the cleanup it runs *)
  lo_begun : option (Z * nat);           (* the cleanup it was given *)
  lo_cleaned : gset Z;                   (* channels whose cleanup it saw succeed *)
}.

Definition local0 : local := mkLocal false false ∅ false ∅ ∅ ∅ None None None None ∅.

Definition lo_lock (r w : bool) (ok : gset Z) (lo : local) : local :=
  mkLocal r w ok (lo_link lo) (lo_unrevoked lo) (lo_revoked lo) (lo_ids lo) (lo_active lo) (lo_closing lo) (lo_clean lo) (lo_begun lo) (lo_cleaned lo).
Definition lo_registry (l : bool) (unrevoked revoked : gset string) (lo : local) : local :=
  mkLocal (lo_read lo) (lo_write lo) (lo_ok lo) l unrevoked revoked (lo_ids lo) (lo_active lo) (lo_closing lo) (lo_clean lo) (lo_begun lo) (lo_cleaned lo).
Definition lo_set_ids (ids : gset string) (lo : local) : local :=
  mkLocal (lo_read lo) (lo_write lo) (lo_ok lo) (lo_link lo) (lo_unrevoked lo) (lo_revoked lo) ids (lo_active lo) (lo_closing lo) (lo_clean lo) (lo_begun lo) (lo_cleaned lo).
Definition lo_transfer (a : option activeTransfer) (closing : option nat) (lo : local) : local :=
  mkLocal (lo_read lo) (lo_write lo) (lo_ok lo) (lo_link lo) (lo_unrevoked lo) (lo_revoked lo) (lo_ids lo) a closing (lo_clean lo) (lo_begun lo) (lo_cleaned lo).
Definition lo_set_clean (c : option (Z * nat * cleanStatus)) (lo : local) : local :=
  mkLocal (lo_read lo) (lo_write lo) (lo_ok lo) (lo_link lo) (lo_unrevoked lo) (lo_revoked lo) (lo_ids lo) (lo_active lo) (lo_closing lo) c (lo_begun lo) (lo_cleaned lo).
Definition lo_set_begun (b : option (Z * nat)) (lo : local) : local :=
  mkLocal (lo_read lo) (lo_write lo) (lo_ok lo) (lo_link lo) (lo_unrevoked lo) (lo_revoked lo) (lo_ids lo) (lo_active lo) (lo_closing lo) (lo_clean lo) b (lo_cleaned lo).
Definition lo_set_cleaned (s : gset Z) (lo : local) : local :=
  mkLocal (lo_read lo) (lo_write lo) (lo_ok lo) (lo_link lo) (lo_unrevoked lo) (lo_revoked lo) (lo_ids lo) (lo_active lo) (lo_closing lo) (lo_clean lo) (lo_begun lo) s.

(** ** The discipline *)

Section discipline.
Context (E : FileEnv).

(** A name below the root that the thread may give to something. *)
Definition may_make (lo : local) (name : string) : Prop :=
  ∀ p c, resolve name = Ok p → head p = Some (pretty (c : Z)) →
  (lo_read lo = true ∧ c ∈ lo_ok lo) ∨ (∃ a, lo_active lo = Some a ∧ at_channelID a = c).

Definition allowed {B} (lo : local) (e : act B) : Prop :=
  match e with
  | RLock | WLock => lo_read lo = false ∧ lo_write lo = false
  | RUnlock => lo_read lo = true
  | WUnlock => lo_write lo = true
  | Publish _ tr => tr_ID tr ∈ lo_ids lo ∧ lo_active lo = None ∧ good_folder (fe_ToUpper E) (tr_Folder tr) ∧ good_name (fe_ToUpper E) (tr_Name tr)
  | Activate tr _ => tr_ID tr ∈ lo_ids lo ∧ lo_active lo = None ∧ lo_closing lo = None
  | Deactivate a => lo_active lo = Some a
  | CloseDone d => lo_closing lo = Some d
  | Begin _ => lo_clean lo = None
  | SetErr k e => ∃ c st, lo_clean lo = Some (c, k, st) ∧ waited st ∧ (e = None → st = CRemoved)
  | CloseCleanup k => ∃ c e, lo_clean lo = Some (c, k, CSet e) ∧ pretty c ∈ lo_revoked lo
  | LinkLock => lo_link lo = false
  | LinkUnlock | LinkRevoke _ => lo_link lo = true
  | LinkAdd _ l => lo_link lo = true ∧ linkChannel (ln_path l) ∈ lo_unrevoked lo
  | LinkServe _ ch => lo_link lo = true ∧ ch ∈ lo_unrevoked lo
  | MkdirAll name | OpenExcl name | Rename _ name | Link _ name => may_make lo name
  | _ => True
  end.

Definition answer {B} (e : act B) : B → Prop :=
  match e in act B return B → Prop with
  | Db m => λ r, ∃ d, (m d).2 = r
  | Rand _ => λ r, match r with Ok b => Forall is_byte b | Err _ => True end
  | Take _ => λ r, match r with
                   | (Some tr, _) => good_folder (fe_ToUpper E) (tr_Folder tr) ∧ good_name (fe_ToUpper E) (tr_Name tr)
                   | _ => True
                   end
  | Activate tr conn => λ r, match r with Ok a => at_channelID a = tr_ChannelID tr ∧ at_transferID a = tr_ID tr | Err _ => True end
  | _ => λ _, True
  end.

Definition after {B} (lo : local) (e : act B) : B → local :=
  match e in act B return B → local with
  | RLock => λ _, lo_lock true (lo_write lo) ∅ lo
  | RUnlock => λ _, lo_lock false (lo_write lo) ∅ lo
  | WLock => λ _, lo_lock (lo_read lo) true (lo_ok lo) lo
  | WUnlock => λ _, lo_lock (lo_read lo) false (lo_ok lo) lo
  | IsDeleted c => λ d, if negb d && lo_read lo then lo_lock (lo_read lo) (lo_write lo) ({[c]} ∪ lo_ok lo) lo else lo
  | Rand n => λ r, match r with Ok b => if (n =? 8)%nat then lo_set_ids ({[hex b]} ∪ lo_ids lo) lo else lo | Err _ => lo end
  | Publish _ tr => λ r, match r with Ok _ => lo_set_ids (lo_ids lo ∖ {[tr_ID tr]}) lo | Err _ => lo end
  | Take _ => λ r, match r with (Some tr, _) => lo_set_ids ({[tr_ID tr]} ∪ lo_ids lo) lo | _ => lo end
  | Activate _ _ => λ r, match r with Ok a => lo_transfer (Some a) None lo | Err _ => lo end
  | Deactivate a => λ _, lo_transfer None (Some (at_done a)) lo
  | CloseDone _ => λ _, lo_transfer (lo_active lo) None lo
  | Begin c => λ '(k, start, active),
      lo_set_begun (Some (c, k)) (if start : bool then lo_set_clean (Some (c, k, CWait (at_done <$> active))) lo else lo)
  | AwaitDone d => λ _,
      match lo_clean lo with
      | Some (c, k, CWait ws) => lo_set_clean (Some (c, k, CWait (filter (λ x, x ≠ d) ws))) lo
      | _ => lo
      end
  | SetErr k e => λ _, match lo_clean lo with Some (c, k, _) => lo_set_clean (Some (c, k, CSet e)) lo | None => lo end
  | CloseCleanup _ => λ _, lo_set_clean None lo
  | AwaitCleanup k => λ r,
      match r, lo_begun lo with
      | Some None, Some (c, k') => if (k =? k')%nat then lo_set_cleaned ({[c]} ∪ lo_cleaned lo) lo else lo
      | _, _ => lo
      end
  | LinkLock => λ _, lo_registry true ∅ (lo_revoked lo) lo
  | LinkUnlock => λ _, lo_registry false ∅ (lo_revoked lo) lo
  | LinkRevoked ch => λ r, if negb r && lo_link lo then lo_registry (lo_link lo) ({[ch]} ∪ lo_unrevoked lo) (lo_revoked lo) lo else lo
  | LinkRevoke ch => λ _, lo_registry (lo_link lo) ∅ ({[ch]} ∪ lo_revoked lo) lo
  | RemoveAll name => λ r,
      match r, lo_clean lo with
      | Ok _, Some (c, k, st) =>
          let idle := match st with CWait [] | CSet (Some _) => true | _ => false end in
          if lo_write lo && idle && String.eqb name (pretty c) then lo_set_clean (Some (c, k, CRemoved)) lo else lo
      | _, _ => lo
      end
  | _ => λ _, lo
  end.

(** A forked child takes the cleanup over, and knows what was revoked. *)
Definition child_of (lo : local) : local :=
  mkLocal false false ∅ false ∅ (lo_revoked lo) ∅ None None (lo_clean lo) None ∅.

Fixpoint disc {A : Type} (lo : local) (m : prog A) (Q : local → A → Prop) : Prop :=
  match m with
  | Ret a => Q lo a
  | Vis e k => allowed lo e ∧ ∀ b, answer e b → disc (after lo e b) (k b) Q
  | Fork c k => disc (child_of lo) c (λ _ _, True) ∧ disc (lo_set_clean None lo) k Q
  end.

Lemma disc_bind {A B : Type} lo (m : prog A) (k : A → prog B) Q :
  disc lo m (λ lo a, disc lo (k a) Q) → disc lo (prog_bind m k) Q.
Proof.
  revert lo k Q. induction m as [A a|A B' e f IH|A c _ m IH]; intros lo k Q; cbn [disc prog_bind].
  - done.
  - intros [He Hf]. split; [done|]. intros b Hb. by apply IH, Hf.
  - intros [Hc Hm]. split; [done|]. by apply IH.
Qed.

Lemma disc_mono {A : Type} lo (m : prog A) (Q Q' : local → A → Prop) :
  disc lo m Q → (∀ lo a, Q lo a → Q' lo a) → disc lo m Q'.
Proof.
  intros Hm HQ. revert lo Q Q' Hm HQ. induction m as [A a|A B' e f IH|A c _ m IH]; intros lo Q Q'; cbn [disc].
  - auto.
  - intros [He Hf] HQ. split; [done|]. intros b Hb. by eapply IH; [apply Hf|].
  - intros [Hc Hm] HQ. split; [done|]. by eapply IH.
Qed.

(** A program that may run anywhere and changes nothing of what the thread holds. *)
Definition neutral {A : Type} (m : prog A) : Prop := ∀ lo, disc lo m (λ lo' _, lo' = lo).

Lemma disc_neutral {A : Type} lo (m : prog A) (Q : local → A → Prop) : neutral m → (∀ a, Q lo a) → disc lo m Q.
Proof. intros Hm HQ. eapply disc_mono; [apply Hm|]. intros lo' a ->. apply HQ. Qed.

Lemma disc_bind_neutral {A B : Type} lo (m : prog A) (k : A → prog B) Q :
  neutral m → (∀ a, disc lo (k a) Q) → disc lo (prog_bind m k) Q.
Proof. intros Hm Hk. by apply disc_bind, disc_neutral. Qed.

(** An access that needs nothing and gives nothing. *)
Definition plain_act {B} (e : act B) : Prop := ∀ lo, allowed lo e ∧ ∀ b, after lo e b = lo.

Lemma neutral_ret {A : Type} (a : A) : neutral (Ret a).
Proof. by intros lo. Qed.
Lemma neutral_vis {A B : Type} (e : act B) (k : B → prog A) : plain_act e → (∀ b, neutral (k b)) → neutral (Vis e k).
Proof. intros He Hk lo. destruct (He lo) as [Hal Haf]. split; [done|]. intros b _. rewrite Haf. apply Hk. Qed.
Lemma neutral_bind {A B : Type} (m : prog A) (k : A → prog B) : neutral m → (∀ a, neutral (k a)) → neutral (prog_bind m k).
Proof. intros Hm Hk lo. apply disc_bind_neutral; [done|]. intros a. apply Hk. Qed.
Lemma neutral_trigger {B} (e : act B) : plain_act e → neutral (trigger e).
Proof. intros He. apply neutral_vis; [done|]. intros b. apply neutral_ret. Qed.

End discipline.

Create HintDb disc.
#[export] Hint Resolve neutral_ret neutral_trigger : disc.
#[export] Hint Extern 1 (plain_act _ _) => (by intros ?; split; [done|intros ?; reflexivity]) : disc.

(** Programs built from plain accesses, by their shape. *)
Ltac neutral_step :=
  match goal with
  | |- neutral _ (Ret _) => apply neutral_ret
  | |- neutral _ (Vis _ _) => apply neutral_vis; [by intros ?; split; [done|intros ?; reflexivity]|intros ?]
  | |- neutral _ (prog_bind _ _) => apply neutral_bind; [|intros ?]
  | |- neutral _ (trigger _) => apply neutral_trigger; by intros ?; split; [done|intros ?; reflexivity]
  | |- neutral _ (match ?x with _ => _ end) => destruct x
  | |- neutral _ (try_prog _ _) => unfold try_prog
  | |- neutral _ (io_error _) => unfold io_error
  | |- neutral _ (pure_prog _) => unfold pure_prog
  | |- neutral _ _ => by auto with disc
  end.
Ltac neutral := repeat neutral_step.
