(* ===== verification/FileDisc.v ===== *)
(** * The file operations keep the discipline

    Every program of [FileTransfer] asks for an access only when it holds what the
    access needs: it gives names below a channel's directory only under the read
    lock after it saw the channel alive, or while it serves a transfer of the
    channel; it releases the locks it takes; it declares a channel cleaned up only
    after the removal succeeded under the write lock and every transfer it waited
    for was gone. *)

From Stdlib Require Import Ascii.
From stdpp Require Import pretty.
From S2P Require Import Prelude ChatText GoStrings Wire GoState ChatKeys AuthService FileNames FileStore FileWorld FileTransfer FileThreads.

(** ** Where names lead *)

Ltac char_cases :=
  repeat match goal with |- context [Ascii.eqb ?a ?b] => destruct (Ascii.eqb_spec a b); try done end; subst.

Lemma resolve_plain l : l ≠ [] → Forall plain l → resolve (Join l "/") = Ok l.
Proof.
  intros Hne Hl. unfold resolve. destruct (Join_plain l Hne Hl) as [-> _]. rewrite Clean_plain by done. cbn [orb].
  assert (Split (Join l "/") "/" = l) as Hs by (apply Split_Join; [done|by apply plain_slash_free]).
  destruct l as [|a l]; [done|]. apply Forall_cons in Hl as [[Ha Hsp] Hl].
  destruct (String.eqb_spec (Join (a :: l) "/") "..") as [Heq|_].
  { rewrite Heq in Hs. change (Split ".." "/") with [".."] in Hs. injection Hs as <- _. set_solver. }
  destruct (String.eqb_spec (Join (a :: l) "/") ".") as [Heq|_].
  { rewrite Heq in Hs. change (Split "." "/") with ["."] in Hs. injection Hs as <- _. set_solver. }
  assert (HasPrefix (Join (a :: l) "/") "../" = false) as ->; [|by rewrite Hs].
  unfold HasPrefix. destruct (decide (l = [])) as [->|Hl'].
  - cbn [Join]. unfold slash_free in Ha. destruct (chars_of a) as [|c1 [|c2 [|c3 r]]] eqn:E; cbn -[Ascii.eqb]; try done;
      char_cases. exfalso. apply Ha. set_solver.
  - rewrite chars_Join_cons by done. unfold slash_free in Ha.
    destruct (chars_of a) as [|c1 [|c2 [|c3 r]]] eqn:E; cbn -[Ascii.eqb]; char_cases.
    + exfalso. apply Hsp. rewrite (chars_inj a ".."); [set_solver|done].
    + exfalso. apply Ha. set_solver.
Qed.

Lemma plain_app n s : plain n → slash_free s → (2 < String.length s)%nat → plain (n +:+ s).
Proof.
  intros [Hn _] Hs Hlen. split.
  - unfold slash_free in *. rewrite chars_app, elem_of_app. tauto.
  - rewrite !not_elem_of_cons. split_and!; [| | |set_solver]; intros Heq%(f_equal (λ x, length (chars_of x)));
      rewrite chars_app, length_app, (chars_length s) in Heq; cbn in Heq; lia.
Qed.

Lemma hex_slash_free l : Forall is_byte l → slash_free (hex l).
Proof.
  intros Hl. unfold slash_free, hex. rewrite chars_of_list. intros (b & Hin & Hb)%list_elem_of_bind.
  rewrite Forall_forall in Hl. specialize (Hl _ Hb). unfold is_byte in Hl.
  assert (∀ d, 0 ≤ d < 16 → "/"%char ≠ hex_digit d) as Hd.
  { intros d Hd. unfold hex_digit. intros Heq%(f_equal nat_of_ascii). rewrite Ascii.nat_ascii_embedding in Heq by (destruct (d <? 10) eqn:?; lia).
    change (nat_of_ascii "/") with 47%nat in Heq. destruct (Z.ltb_spec d 10); lia. }
  rewrite !elem_of_cons in Hin. destruct Hin as [Hin|[Hin|[]%elem_of_nil]]; eapply Hd, Hin.
  - split; [apply Z.div_pos; lia|]. apply Z.div_lt_upper_bound; lia.
  - apply Z.mod_pos_bound. lia.
Qed.

Section names.
Context (up : string → string).
Context (c : Z) (f n : string) (Hf : good_folder up f) (Hn : plain n).

Lemma resolve_blobPath : resolve (blobPath c f n) = Ok (blob_comps c f n).
Proof using All. rewrite (blobPath_Join up) by done. apply resolve_plain; [done|by apply (blob_comps_plain up)]. Qed.

Lemma resolve_blobDir : resolve (path_Dir (blobPath c f n)) = Ok (pretty c :: folder_comps f).
Proof using All.
  rewrite (path_Dir_blobPath up) by done. apply resolve_plain; [done|].
  pose proof (blob_comps_plain up c f n Hf Hn) as Hp. unfold blob_comps in Hp. rewrite app_comm_cons in Hp. by apply Forall_app in Hp as [Hp _].
Qed.

Lemma blobPath_app s : blobPath c f n +:+ s = Join (blob_comps c f (n +:+ s)) "/".
Proof using All.
  rewrite (blobPath_Join up) by done. unfold blob_comps. rewrite !app_comm_cons. apply chars_inj.
  rewrite chars_app, !chars_Join_snoc by done. by rewrite chars_app, <- app_assoc.
Qed.

Lemma resolve_tmp s : slash_free s → (2 < String.length s)%nat → resolve (blobPath c f n +:+ s) = Ok (blob_comps c f (n +:+ s)).
Proof using All.
  intros Hs Hl. rewrite blobPath_app. apply resolve_plain; [done|]. apply (blob_comps_plain up); [done|by apply plain_app].
Qed.

End names.

Lemma version_slash_free (v : nat) : slash_free (".v" +:+ pretty v).
Proof.
  unfold slash_free. rewrite chars_app. cbn [String.list_ascii_of_string app]. rewrite !not_elem_of_cons. split_and!; [done|done|].
  change (pretty v) with (pretty (N.of_nat v)). destruct (decide (v = 0%nat)) as [->|Hv]; [by apply (bool_decide_unpack _); vm_compute|].
  destruct (pretty_Z_digits (Z.of_nat v)) as [Hd _]; [lia|]. replace (pretty (Z.of_nat v)) with (pretty (N.of_nat v)) in Hd by (by destruct v).
  intros Hin. rewrite Forall_forall in Hd. specialize (Hd _ Hin). unfold is_digit in Hd. vm_compute in Hd. lia.
Qed.

Lemma version_plain n v : plain n → plain (version_name n v).
Proof.
  intros Hn. apply plain_app; [done|apply version_slash_free|].
  rewrite <- chars_length, chars_app. cbn. rewrite chars_length. assert (pretty v ≠ ""); [|destruct (pretty v); cbn; [done|lia]].
  change (pretty v) with (pretty (N.of_nat v)). destruct (decide (v = 0%nat)) as [->|Hv]; [done|].
  destruct (pretty_Z_digits (Z.of_nat v)) as [_ Hd]; [lia|]. intros Heq.
  replace (pretty (Z.of_nat v)) with (pretty (N.of_nat v)) in Hd by (by destruct v). by rewrite Heq in Hd.
Qed.

(** ** Programs that hold nothing *)

Section disc.
Context (E : FileEnv).
Context `{!MapRange fileKey FileRow}.
#[local] Instance name_le_decidable : RelDecision (fe_name_le E) := fe_name_le_dec E.

Lemma neutral_db {A} (m : FileDB → FileDB * result FErr A) : neutral E (trigger (Db m)).
Proof. apply neutral_trigger. by intros lo. Qed.
#[local] Hint Resolve neutral_db : disc.

Lemma neutral_openRegularBlob name : neutral E (openRegularBlob name).
Proof. unfold openRegularBlob. neutral. Qed.
Lemma neutral_copy_loop fuel dst src : neutral E (copy_loop fuel dst src).
Proof. induction fuel as [|fuel IH]; cbn [copy_loop]; neutral. Qed.
Lemma neutral_close_files hs : neutral E (close_files hs).
Proof. induction hs as [|h hs IH]; cbn [close_files]; neutral. Qed.
Lemma neutral_close_conns l : neutral E (close_conns l).
Proof. induction l as [|a l IH]; cbn [close_conns]; neutral. Qed.
Lemma neutral_serve_content fuel h body : neutral E (serve_content fuel h body).
Proof. revert body. induction fuel as [|fuel IH]; intros body; cbn [serve_content]; neutral. Qed.
Lemma neutral_limiter_wait l n : neutral E (limiter_wait l n).
Proof. unfold limiter_wait. neutral. Qed.
Lemma neutral_limiter_for : neutral E (limiter_for E).
Proof. unfold limiter_for. neutral. Qed.
Lemma neutral_hash_prefix fuel f n hashed : neutral E (hash_prefix fuel f n hashed).
Proof. revert n hashed. induction fuel as [|fuel IH]; intros n hashed; cbn [hash_prefix]; neutral. Qed.
#[local] Hint Resolve neutral_openRegularBlob neutral_copy_loop neutral_close_files neutral_close_conns neutral_serve_content
  neutral_limiter_wait neutral_limiter_for neutral_hash_prefix : disc.
Lemma neutral_send_loop fuel conn f l hashed : neutral E (send_loop fuel conn f l hashed).
Proof. revert hashed. induction fuel as [|fuel IH]; intros hashed; cbn [send_loop]; neutral. Qed.
#[local] Hint Resolve neutral_send_loop : disc.
Lemma neutral_writeStatus conn e : neutral E (writeStatus E conn e).
Proof. unfold writeStatus. neutral. Qed.
Lemma neutral_upload_fail f tmp e : neutral E (upload_fail f tmp e).
Proof. unfold upload_fail. neutral. Qed.
Lemma neutral_sendDownload fuel conn tr offset : neutral E (sendDownload E fuel conn tr offset).
Proof. unfold sendDownload, download_body. neutral. Qed.
Lemma neutral_add_upload tr size sum : neutral E (add_upload E tr size sum).
Proof. apply neutral_db. Qed.
Lemma neutral_same_upload tr fp sum : neutral E (same_upload E tr fp sum).
Proof. unfold same_upload, db_GetFile. neutral. Qed.
#[local] Hint Resolve neutral_writeStatus neutral_upload_fail neutral_sendDownload neutral_add_upload neutral_same_upload : disc.

Lemma neutral_ChannelQuotaState c : neutral E (ChannelQuotaState E c).
Proof. unfold ChannelQuotaState, db_ChannelFileUsage. neutral. Qed.
Lemma neutral_UploaderQuotaState u l : neutral E (UploaderQuotaState E u l).
Proof. unfold UploaderQuotaState, db_UploaderFileUsage. neutral. Qed.
Lemma neutral_check_quota l q s e : neutral E q → neutral E (check_quota l q s e).
Proof. intros Hq. unfold check_quota. neutral. Qed.
Lemma neutral_DeleteFile c f n : neutral E (DeleteFile E c f n).
Proof. unfold DeleteFile, db_DeleteFile. neutral. Qed.
Lemma neutral_ListFiles c f : neutral E (ListFiles E c f).
Proof. unfold ListFiles, db_ListFiles. neutral. Qed.
Lemma neutral_ListFileFolders c : neutral E (ListFileFolders E c).
Proof. apply neutral_db. Qed.
Lemma neutral_ListFileVersions c f n : neutral E (ListFileVersions E c f n).
Proof. unfold ListFileVersions, db_ListFileVersions. neutral. Qed.
#[local] Hint Resolve neutral_ChannelQuotaState neutral_UploaderQuotaState neutral_check_quota : disc.
Lemma neutral_ChannelQuota c : neutral E (ChannelQuota E c).
Proof. unfold ChannelQuota. neutral. Qed.

(** ** Programs that hold something and give it back *)

Definition keeps {A : Type} (lo : local) (m : prog A) : Prop := disc E lo m (λ lo' _, lo' = lo).

Lemma same_ret {A : Type} lo (a : A) : keeps lo (Ret a).
Proof. reflexivity. Qed.
Lemma keeps_vis {A B : Type} lo (e : act B) (k : B → prog A) :
  allowed E lo e → (∀ b, after lo e b = lo) → (∀ b, keeps lo (k b)) → keeps lo (Vis e k).
Proof. intros He Ha Hk. split; [done|]. intros b _. rewrite Ha. apply Hk. Qed.
Lemma same_bind {A B : Type} lo (m : prog A) (k : A → prog B) : keeps lo m → (∀ a, keeps lo (k a)) → keeps lo (prog_bind m k).
Proof. intros Hm Hk. apply disc_bind. eapply disc_mono; [apply Hm|]. intros lo' a ->. apply Hk. Qed.
Lemma keeps_neutral {A : Type} lo (m : prog A) : neutral E m → keeps lo m.
Proof. intros Hm. apply Hm. Qed.
#[local] Hint Resolve same_ret keeps_neutral neutral_db neutral_copy_loop : disc.

Ltac keeps_step :=
  match goal with
  | |- keeps _ (Ret _) => apply same_ret
  | |- keeps _ (Vis _ _) => apply keeps_vis; [by first [done|assumption]|intros ?; reflexivity|intros ?]
  | |- keeps _ (prog_bind _ _) => apply same_bind; [|intros ?]
  | |- keeps _ (match ?x with _ => _ end) => destruct x
  | |- keeps _ (try_prog _ _) => unfold try_prog
  | |- keeps _ (io_error _) => unfold io_error
  | |- keeps _ (trigger _) => unfold trigger
  | |- keeps _ _ => by auto with disc
  end.
Ltac keeps := repeat keeps_step.

Lemma may_make_blob lo c f n :
  good_folder (fe_ToUpper E) f → plain n →
  (lo_read lo = true ∧ c ∈ lo_ok lo) ∨ (∃ a, lo_active lo = Some a ∧ at_channelID a = c) →
  may_make lo (blobPath c f n) ∧ may_make lo (path_Dir (blobPath c f n)) ∧
  (∀ s, slash_free s → (2 < String.length s)%nat → may_make lo (blobPath c f n +:+ s)).
Proof.
  intros Hf Hn Hlo. split_and!; [| |intros s Hs Hl]; intros p c' Hp Hh.
  - rewrite (resolve_blobPath (fe_ToUpper E)) in Hp by done. injection Hp as <-. cbn in Hh. by apply (inj Some), pretty_Z_inj in Hh as ->.
  - rewrite (resolve_blobDir (fe_ToUpper E)) in Hp by done. injection Hp as <-. cbn in Hh. by apply (inj Some), pretty_Z_inj in Hh as ->.
  - rewrite (resolve_tmp (fe_ToUpper E)) in Hp by done. injection Hp as <-. cbn in Hh. by apply (inj Some), pretty_Z_inj in Hh as ->.
Qed.

Lemma disc_randomHex lo n (Q : local → result FErr string → Prop) :
  (∀ b, Forall is_byte b → Q (if (n =? 8)%nat then lo_set_ids ({[hex b]} ∪ lo_ids lo) lo else lo) (Ok (hex b))) →
  (∀ e, Q lo (Err e)) → disc E lo (randomHex n) Q.
Proof. intros HO HE. split; [done|]. intros [b|e] Hb; cbn; [by apply HO|apply HE]. Qed.

(** More ids, and nothing else. *)
Definition grown (lo lo' : local) : Prop := ∃ ids, lo_ids lo ⊆ ids ∧ lo' = lo_set_ids ids lo.

Lemma grown_refl lo : grown lo lo.
Proof. exists (lo_ids lo). split; [done|]. by destruct lo. Qed.

Lemma disc_register lo tr :
  lo_active lo = None → good_folder (fe_ToUpper E) (tr_Folder tr) → good_name (fe_ToUpper E) (tr_Name tr) →
  disc E lo (register E tr) (λ lo' _, ∃ ids, lo' = lo_set_ids ids lo).
Proof.
  intros Ha Hf Hn. assert (∃ ids, lo = lo_set_ids ids lo) as Hlo by (exists (lo_ids lo); by destruct lo).
  unfold register, try_prog. apply disc_bind, disc_randomHex; [|done]. intros id _. cbn [Nat.eqb].
  apply disc_bind, disc_randomHex; [|by eexists]. intros tok _. cbn [Nat.eqb]. split; [done|]. intros now _. cbn [after].
  split; [cbn; split_and!; set_solver|]. intros [[]|e] _; cbn; by eexists.
Qed.

Lemma disc_consume lo tok id :
  disc E lo (consume E tok id) (λ lo' r, grown lo lo' ∧
    match r with Ok tr => tr_ID tr ∈ lo_ids lo' ∧ good_folder (fe_ToUpper E) (tr_Folder tr) ∧ good_name (fe_ToUpper E) (tr_Name tr) | Err _ => True end).
Proof.
  unfold consume. split; [done|]. intros [[tr|] d] Hb; cbn [after]; [|by split; [apply grown_refl|]]. destruct Hb as [Hf Hn].
  assert (grown lo (lo_set_ids ({[tr_ID tr]} ∪ lo_ids lo) lo)) as Hg by (eexists; split; [|done]; set_solver).
  destruct (negb _); [done|]. destruct d; [done|]. split; [done|]. intros now _. cbn [after]. destruct (time_after _ _); [done|].
  cbn. split_and!; try done. set_solver.
Qed.

Lemma keeps_rotate_rename lo c f a b : may_make lo (blobPath c f b) → keeps lo (rotate_rename E c f a b).
Proof. intros Hm. unfold rotate_rename, db_GetFile, db_RenameFile. keeps. Qed.

Lemma keeps_rotateVersions lo tr :
  (∀ n, plain n → may_make lo (blobPath (tr_ChannelID tr) (tr_Folder tr) n)) → plain (tr_Name tr) → keeps lo (rotateVersions E tr).
Proof.
  intros Hm Hn. assert (∀ v, keeps lo (rotate_down E (tr_ChannelID tr) (tr_Folder tr) (tr_Name tr) v)) as Hd.
  { induction v as [|v IH]; cbn [rotate_down]; [apply same_ret|]. apply same_bind; [|intros _]; first [exact IH | by apply keeps_rotate_rename, Hm, version_plain]. }
  unfold rotateVersions, db_GetFile, db_DeleteFile.
  apply same_bind; [by auto with disc|]. intros rec. apply same_bind; [keeps|]. intros _.
  apply same_bind; [done|]. intros _. by apply keeps_rotate_rename, Hm, version_plain.
Qed.

Lemma keeps_dedup_link lo tr tmp fp sum : may_make lo fp → keeps lo (dedup_link E tr tmp fp sum).
Proof. intros Hm. unfold dedup_link, db_FindFileBySHA. keeps. Qed.

(** ** Uploads *)

(** Reading, with channels seen alive. *)
Definition reading (lo lo' : local) : Prop := ∃ ok, lo' = lo_lock true (lo_write lo) ok lo.

Lemma disc_read_section {A : Type} lo (m : prog (result FErr A)) :
  lo_read lo = false → lo_write lo = false → lo_ok lo = ∅ →
  disc E (lo_lock true (lo_write lo) ∅ lo) m (λ lo' _, reading lo lo') →
  keeps lo (tell RLock; do r <- m; tell RUnlock; Ret r).
Proof.
  intros Hr Hw Hok Hm. split; [done|]. intros [] _. cbn [after]. apply disc_bind. eapply disc_mono; [exact Hm|].
  intros lo' a [ok ->]. split; [done|]. intros [] _. cbn. destruct lo. cbn in *. by subst.
Qed.

(** Looking whether a channel is alive. *)
Lemma disc_alive {A : Type} lo lo' c (k : bool → prog A) Q :
  reading lo lo' → disc E lo' (k true) Q →
  (∀ lo1, reading lo lo1 → lo_ok lo' ⊆ lo_ok lo1 → c ∈ lo_ok lo1 → disc E lo1 (k false) Q) →
  disc E lo' (Vis (IsDeleted c) k) Q.
Proof.
  intros [ok ->] Ht Hf. split; [done|]. intros [] _; cbn; [done|]. apply Hf; cbn; [by eexists|set_solver|set_solver].
Qed.

Lemma keeps_reading {A : Type} lo lo' (m : prog A) : reading lo lo' → keeps lo' m → disc E lo' m (λ lo' _, reading lo lo').
Proof. intros Hr Hm. eapply disc_mono; [exact Hm|]. by intros ? ? ->. Qed.

Lemma active_make lo tr a n :
  lo_active lo = Some a → at_channelID a = tr_ChannelID tr → good_folder (fe_ToUpper E) (tr_Folder tr) → plain n →
  may_make lo (blobPath (tr_ChannelID tr) (tr_Folder tr) n) ∧ may_make lo (path_Dir (blobPath (tr_ChannelID tr) (tr_Folder tr) n)) ∧
  (∀ s, slash_free s → (2 < String.length s)%nat → may_make lo (blobPath (tr_ChannelID tr) (tr_Folder tr) n +:+ s)).
Proof. intros Ha Hc Hf Hn. apply may_make_blob; [done..|]. right. by exists a. Qed.

Section upload.
Context (lo : local) (tr : transfer) (a : activeTransfer).
Context (Hr : lo_read lo = false) (Hw : lo_write lo = false) (Hok : lo_ok lo = ∅).
Context (Ha : lo_active lo = Some a) (Hc : at_channelID a = tr_ChannelID tr).
Context (Hf : good_folder (fe_ToUpper E) (tr_Folder tr)) (Hn : plain (tr_Name tr)).

Abbreviation final := (blobPath (tr_ChannelID tr) (tr_Folder tr) (tr_Name tr)).

Lemma keeps_finalizeUpload tmp size sum : keeps lo (finalizeUpload E tr tmp final size sum).
Proof using All.
  apply disc_read_section; [done..|]. unfold finalize_locked. apply (disc_alive lo); [by eexists| |].
  - apply keeps_reading; [by eexists|]. keeps.
  - intros lo1 Hlo1 _ _. apply keeps_reading; [done|]. assert (lo_active lo1 = Some a) as Ha1 by (destruct Hlo1 as [ok ->]; done).
    destruct (active_make lo1 tr a (tr_Name tr) Ha1 Hc Hf Hn) as (Hm & _ & _).
    assert (∀ n, plain n → may_make lo1 (blobPath (tr_ChannelID tr) (tr_Folder tr) n)) as Hm' by (intros n Hp; by apply (active_make lo1 tr a)).
    pose proof (neutral_add_upload tr size sum) as Hadd. pose proof (neutral_same_upload tr final sum) as Hsame.
    pose proof (keeps_rotateVersions lo1 tr Hm' Hn) as Hrot. pose proof (keeps_dedup_link lo1 tr tmp final sum Hm) as Hlink.
    keeps.
Qed.

Lemma keeps_receive_loop fuel conn f tmp limiter received hashed :
  keeps lo (receive_loop E fuel conn tr f tmp final limiter received hashed).
Proof using All.
  revert received hashed. induction fuel as [|fuel IH]; intros received hashed; cbn [receive_loop];
    pose proof (neutral_upload_fail f tmp) as Hfail; [by apply keeps_neutral|].
  pose proof (neutral_limiter_wait limiter) as Hwait. keeps. apply keeps_finalizeUpload.
Qed.

End upload.

Lemma disc_receiveUpload lo tr a fuel conn :
  lo_read lo = false → lo_write lo = false → lo_ok lo = ∅ → lo_active lo = Some a → at_channelID a = tr_ChannelID tr →
  good_folder (fe_ToUpper E) (tr_Folder tr) → plain (tr_Name tr) →
  disc E lo (receiveUpload E fuel conn tr) (λ lo' _, grown lo lo').
Proof.
  intros Hr Hw Hok Ha Hc Hf Hn. destruct (active_make lo tr a (tr_Name tr) Ha Hc Hf Hn) as (Hm & Hdir & _).
  unfold receiveUpload, try_prog, io_error, trigger. cbn [prog_bind]. split; [done|]. intros r _. cbn [after].
  destruct (result_map_err FtIo r); [|apply grown_refl]. split; [done|]. intros r' _. cbn [after].
  destruct (result_map_err FtIo r'); [|apply grown_refl]. apply disc_bind, disc_randomHex; [|intros; apply grown_refl].
  intros b Hb. cbn [Nat.eqb]. set (lo1 := lo_set_ids _ lo). assert (grown lo lo1) as Hg by (eexists; split; [|done]; set_solver).
  split.
  - apply (active_make lo1 tr a (tr_Name tr) Ha Hc Hf Hn).
    + unfold slash_free. rewrite chars_app, elem_of_app. intros [H|H]; [cbn in H; set_solver|]. by apply (hex_slash_free b).
    + rewrite <- chars_length, chars_app, length_app. cbn. lia.
  - intros r2 _. cbn [after]. destruct (result_map_err FtIo r2); [|done]. eapply disc_bind_neutral; [apply neutral_limiter_for|].
    intros limiter. eapply disc_mono; [by apply (keeps_receive_loop lo1 tr a)|]. by intros lo' r3 ->.
Qed.

(** ** Connections *)

(** Nothing but ids, revocations and knowledge is left. *)
Definition idle (lo : local) : Prop :=
  lo_read lo = false ∧ lo_write lo = false ∧ lo_ok lo = ∅ ∧ lo_link lo = false ∧ lo_unrevoked lo = ∅ ∧
  lo_active lo = None ∧ lo_closing lo = None ∧ lo_clean lo = None.

Lemma idle_local0 : idle local0.
Proof. done. Qed.
Lemma idle_grown lo lo' : idle lo → grown lo lo' → idle lo'.
Proof. intros Hi (ids & _ & ->). done. Qed.
Lemma idle_ids lo lo' : idle lo → (∃ ids, lo' = lo_set_ids ids lo) → idle lo'.
Proof. intros Hi (ids & ->). done. Qed.

Lemma disc_serve_transfer lo fuel conn tr offset :
  idle lo → tr_ID tr ∈ lo_ids lo → good_folder (fe_ToUpper E) (tr_Folder tr) → good_name (fe_ToUpper E) (tr_Name tr) →
  disc E lo (serve_transfer E fuel conn tr offset) (λ lo' _, idle lo').
Proof.
  intros (Hr & Hw & Hok & Hl & Hu & Ha & Hcl & Hcn) Hid Hf Hn%good_name_plain. unfold serve_transfer. split; [done|]. intros [a|e] Hans; cbn [after].
  - destruct Hans as [Hc _]. set (lo1 := lo_transfer (Some a) None lo). apply disc_bind.
    assert (disc E lo1 (if (tr_Direction tr =? "upload")%string then receiveUpload E fuel conn tr else sendDownload E fuel conn tr offset)
              (λ lo' _, grown lo1 lo')) as Hbody.
    { destruct (String.eqb _ _).
      - by apply (disc_receiveUpload lo1 tr a).
      - apply disc_neutral; [apply neutral_sendDownload|]. intros _. apply grown_refl. }
    eapply disc_mono; [exact Hbody|]. intros lo2 r (ids & _ & ->). eapply disc_bind_neutral; [apply neutral_writeStatus|].
    intros _. split; [done|]. intros [] _. cbn [after]. split; [done|]. intros [] _. done.
  - eapply disc_bind_neutral; [apply neutral_writeStatus|]. done.
Qed.

Lemma disc_serve lo fuel conn : idle lo → disc E lo (serve E fuel conn) (λ lo' _, idle lo').
Proof.
  intros Hi. unfold serve. split; [done|]. intros f _. cbn [after]. apply disc_bind.
  assert (∀ (m : prog (result FErr ())) Q, disc E lo m Q → (∀ lo' r, Q lo' r → idle lo') →
    disc E lo m (λ lo' r, disc E lo' (tell CloseConn conn; Ret r) (λ lo' _, idle lo'))) as Hend.
  { intros m Q Hm HQ. eapply disc_mono; [exact Hm|]. intros lo' r Hq. split; [done|]. intros [] _. cbn. by eapply HQ. }
  destruct f as [f|]; [|by apply (Hend _ (λ lo' _, idle lo'))]. destruct (negb _).
  { apply (Hend _ (λ lo' _, idle lo')); [|done]. eapply disc_bind_neutral; [apply neutral_writeStatus|done]. }
  destruct (fe_init E _) as [[[tok id] off]|].
  - apply (Hend _ (λ lo' _, idle lo')); [|done]. apply disc_bind. eapply disc_mono; [apply disc_consume|].
    intros lo' [tr|e] [Hg Htr].
    + destruct Htr as (Hid & Hf & Hn). apply disc_serve_transfer; try done. by eapply idle_grown.
    + eapply disc_bind_neutral; [apply neutral_writeStatus|]. intros _. by eapply idle_grown.
  - apply (Hend _ (λ lo' _, idle lo')); [|done]. eapply disc_bind_neutral; [apply neutral_writeStatus|done].
Qed.

(** ** Moves *)

Lemma disc_move_locked lo lo' fuel c f n c' f' n' :
  reading lo lo' → good_folder (fe_ToUpper E) f' → plain n' →
  disc E lo' (move_locked E fuel c f n c' f' n') (λ lo' _, reading lo lo').
Proof.
  intros Hr Hf Hn. unfold move_locked. apply (disc_alive lo); [done|done|]. intros lo1 Hr1 _ _.
  apply (disc_alive lo); [done|done|]. intros lo2 Hr2 _ Hc'. destruct (_ && _); [done|]. apply keeps_reading; [done|].
  destruct (may_make_blob lo2 c' f' n' Hf Hn) as (Hm & Hdir & _); [left; split; [by destruct Hr2 as [ok ->]|done]|].
  pose proof neutral_copy_loop as Hcopy.
  assert (∀ a b, may_make lo2 b → keeps lo2 (copyBlobAndRemove fuel a b)) as Hcb by (intros a b Hb; unfold copyBlobAndRemove; keeps).
  unfold moveBlob, db_GetFile, db_MoveFile. keeps.
Qed.

Lemma keeps_MoveFile lo fuel c f n c' f' n' : idle lo → keeps lo (MoveFile E fuel c f n c' f' n').
Proof.
  intros (Hr & Hw & Hok & _). unfold MoveFile, try_prog, pure_prog. cbn [prog_bind].
  destruct (sanitizeName _ n); [|done]. cbn [prog_bind]. destruct (sanitizeName _ n') as [m'|] eqn:Hn'; [|done]. cbn [prog_bind].
  destruct (sanitizeFolder _ f); [|done]. cbn [prog_bind]. destruct (sanitizeFolder _ f') as [g'|] eqn:Hf'; [|done].
  apply sanitizeName_Ok in Hn' as (-> & _ & Hn'). apply sanitizeFolder_Ok in Hf' as (-> & Hf').
  apply disc_read_section; [done..|]. apply disc_move_locked; [by eexists|done|done].
Qed.

(** ** Links *)

Definition linking (lo lo' : local) : Prop := ∃ u, lo' = lo_registry true u (lo_revoked lo) lo.

Lemma disc_link_section {A : Type} lo (m : prog A) :
  idle lo → disc E (lo_registry true ∅ (lo_revoked lo) lo) m (λ lo' _, linking lo lo') →
  keeps lo (tell LinkLock; do r <- m; tell LinkUnlock; Ret r).
Proof.
  intros (_ & _ & _ & Hl & Hu & _) Hm. split; [done|]. intros [] _. cbn [after]. apply disc_bind. eapply disc_mono; [exact Hm|].
  intros lo' a [u ->]. split; [done|]. intros [] _. cbn. destruct lo. cbn in *. by subst.
Qed.

Lemma disc_unrevoked {A : Type} lo lo' ch (k : bool → prog A) Q :
  linking lo lo' → disc E lo' (k true) Q →
  (∀ lo1, linking lo lo1 → ch ∈ lo_unrevoked lo1 → disc E lo1 (k false) Q) →
  disc E lo' (Vis (LinkRevoked ch) k) Q.
Proof.
  intros [u ->] Ht Hf. split; [done|]. intros [] _; cbn; [done|]. apply Hf; cbn; [by eexists|set_solver].
Qed.

Lemma keeps_linking {A : Type} lo lo' (m : prog A) : linking lo lo' → keeps lo' m → disc E lo' m (λ lo' _, linking lo lo').
Proof. intros Hr Hm. eapply disc_mono; [exact Hm|]. by intros ? ? ->. Qed.

Lemma keeps_link_attempts lo n path name now :
  lo_link lo = true → linkChannel path ∈ lo_unrevoked lo → keeps lo (link_attempts n path name now).
Proof.
  intros Hl Hu. induction n as [|n IH]; cbn [link_attempts]; [apply same_ret|]. unfold try_prog. apply same_bind.
  - by apply disc_randomHex.
  - intros [tok|e]; [|apply same_ret]. destruct (negb _); [apply same_ret|]. apply keeps_vis; [done|done|]. intros [l|]; [done|].
    apply keeps_vis; [by split|done|]. intros []. apply same_ret.
Qed.

Lemma keeps_Create lo path name : idle lo → keeps lo (Create E path name).
Proof.
  intros Hi. unfold Create. destruct (isEncryptedAttachment name); [apply same_ret|]. apply disc_link_section; [done|].
  unfold create_locked. apply (disc_unrevoked lo); [by eexists|by eexists|]. intros lo1 Hl1 Hu. apply keeps_linking; [done|].
  assert (lo_link lo1 = true) as Hl by (by destruct Hl1 as [u ->]).
  pose proof (λ n now, keeps_link_attempts lo1 n path name now Hl Hu) as Hat. pose proof neutral_openRegularBlob as Hopen. keeps.
Qed.

Lemma keeps_CreateLink lo c f n : idle lo → keeps lo (CreateLink E c f n).
Proof.
  intros Hi. unfold CreateLink, try_prog, pure_prog, db_GetFile. cbn [prog_bind]. destruct (sanitizeName _ n); [|done]. cbn [prog_bind].
  destruct (sanitizeFolder _ f); [|done]. cbn [prog_bind]. apply same_bind; [by apply keeps_neutral, neutral_db|].
  intros [rec|e]; [|done]. by apply keeps_Create.
Qed.

Lemma keeps_openActive lo tok : idle lo → keeps lo (openActive tok).
Proof.
  intros Hi. apply disc_link_section; [done|]. unfold open_locked. split; [done|]. intros now _. cbn [after]. split; [done|]. intros [] _.
  cbn [after]. split; [done|]. intros [l|] _; cbn [after]; [|by eexists]. apply (disc_unrevoked lo); [by eexists|by eexists|].
  intros lo1 Hl1 Hu. apply keeps_linking; [done|]. assert (lo_link lo1 = true) as Hl by (by destruct Hl1 as [u ->]).
  apply keeps_vis; [done|done|]. intros [[]|e]; [|done]. apply same_bind; [by apply keeps_neutral, neutral_openRegularBlob|].
  intros [h|e]; [|done]. apply keeps_vis; [by split|done|]. intros []. done.
Qed.

Lemma keeps_ServeHTTP lo m p : idle lo → keeps lo (ServeHTTP m p).
Proof.
  intros Hi. unfold ServeHTTP. destruct (negb _); [done|]. destruct (linkTokenFromPath p) as [tok|]; [|done].
  apply same_bind; [by apply keeps_openActive|]. intros [[l h]|]; [|done]. apply keeps_vis; [done|done|]. intros info.
  apply same_bind; [apply keeps_neutral; pose proof neutral_serve_content; neutral|]. intros ans.
  destruct Hi as (_ & _ & _ & Hl & Hu & _). split; [done|]. intros [] _. cbn [after]. split; [done|]. intros [] _. cbn [after].
  split; [done|]. intros [] _. cbn [after]. split; [done|]. intros r _. cbn. destruct lo. cbn in *. by subst.
Qed.

(** ** Cleanups *)

Lemma disc_RevokeChannel lo c :
  lo_link lo = false → lo_unrevoked lo = ∅ →
  disc E lo (RevokeChannel c) (λ lo' _, lo' = lo_registry false ∅ ({[pretty c]} ∪ lo_revoked lo) lo).
Proof.
  intros Hl Hu. split; [done|]. intros [] _. cbn [after]. split; [done|]. intros hs _. cbn [after]. split; [done|]. intros [] _. cbn [after].
  apply disc_neutral; [apply neutral_close_files|]. done.
Qed.

Lemma disc_await_done lo c k ws l :
  lo_clean lo = Some (c, k, CWait ws) → (∀ d, d ∈ ws → d ∈ at_done <$> l) →
  disc E lo (await_done l) (λ lo' _, lo' = lo_set_clean (Some (c, k, CWait [])) lo).
Proof.
  revert lo ws. induction l as [|a l IH]; intros lo ws Hcl Hws; cbn [await_done].
  - assert (ws = []) as ->. { destruct ws as [|d ws]; [done|]. specialize (Hws d (list_elem_of_here _ _)). by apply elem_of_nil in Hws. }
    cbn. destruct lo. cbn in *. by subst.
  - split; [done|]. intros [] _. cbn [after]. rewrite Hcl.
    set (lo1 := lo_set_clean _ lo). eapply disc_mono; [apply (IH lo1 (filter (λ x, x ≠ at_done a) ws)); [done|]|].
    + intros d [Hd Hin]%list_elem_of_filter. specialize (Hws d Hin). cbn in Hws. by apply elem_of_cons in Hws as [->|].
    + by intros ? ? ->.
Qed.

Definition cleanup_idle (st : cleanStatus) : Prop := match st with CWait [] | CSet (Some _) => True | _ => False end.

Lemma disc_removal_attempts n lo c k st :
  lo_clean lo = Some (c, k, st) → cleanup_idle st → lo_read lo = false → lo_write lo = false →
  disc E lo (removal_attempts n c k) (λ lo' _, ∃ e, lo' = lo_set_clean (Some (c, k, CSet e)) lo).
Proof.
  revert lo st. induction n as [|n IH]; intros lo st Hcl Hst Hr Hw; cbn [removal_attempts].
  all: split; [done|]; intros [] _; cbn [after]; set (lo1 := lo_lock _ true _ lo); apply disc_bind.
  all: assert (disc E lo1 (removeChannelData c) (λ lo' r, ∃ st', lo' = lo_set_clean (Some (c, k, st')) lo1 ∧ waited st' ∧ (is_ok r = true → st' = CRemoved)))
         as Hrem by
    (unfold removeChannelData, try_prog, io_error, trigger; cbn [prog_bind]; split; [done|]; intros [[]|e] _; cbn [after result_map_err];
     [|exists st; split_and!; [destruct lo; cbn in *; by subst|by destruct st as [[|]| |[|]]|done]]; cbn [prog_bind]; split; [done|]; intros [[]|e] _; cbn [after disc result_map_err];
     [|exists st; split_and!; [destruct lo; cbn in *; by subst|by destruct st as [[|]| |[|]]|done]];
     exists CRemoved; split_and!; [|done|done]; cbn [lo_clean lo1 lo_lock]; rewrite Hcl; cbn [lo_write lo_lock];
     rewrite String.eqb_refl; by destruct st as [[|]| |[|]]).
  all: eapply disc_mono; [exact Hrem|]; intros lo2 r (st' & -> & Hwt & Hok); cbn zeta.
  all: split; [exists c, st'; split_and!; [done|done|]; intros He; apply Hok; by destruct r|]; intros [] _; cbn [after lo_clean lo_set_clean].
  all: split; [done|]; intros [] _; cbn [after]; destruct r as [[]|e];
    try by (eexists; destruct lo; cbn in *; subst; reflexivity).
  match goal with |- disc E ?l _ _ => set (lo3 := l) end. eapply disc_mono; [apply (IH lo3 (CSet (Some e))); [done|done|done|done]|].
  intros lo' [] [e' ->]. exists e'. destruct lo. cbn in *. by subst.
Qed.

Lemma disc_finish c k active lo :
  lo_clean lo = Some (c, k, CWait (at_done <$> active)) → pretty c ∈ lo_revoked lo → lo_read lo = false → lo_write lo = false →
  disc E lo (finishChannelCleanup c active k) (λ _ _, True).
Proof.
  intros Hcl Hrev Hr Hw. unfold finishChannelCleanup. apply disc_bind. eapply disc_mono; [by eapply disc_await_done|]. intros lo1 [] ->.
  apply disc_bind. eapply disc_mono; [by apply (disc_removal_attempts 3 _ c k (CWait []))|]. intros lo2 [] [e ->].
  split; [exists c, e; by split|]. done.
Qed.

Lemma disc_begin lo c :
  idle lo → disc E lo (beginChannelCleanup c) (λ lo' r, idle lo' ∧ lo_cleaned lo' = lo_cleaned lo ∧
    match r with Ok k => lo_begun lo' = Some (c, k) ∧ pretty c ∈ lo_revoked lo' | Err _ => True end).
Proof.
  intros Hi. unfold beginChannelCleanup. destruct (c <=? 0); [done|]. destruct Hi as (Hr & Hw & Hok & Hl & Hu & Ha & Hcl & Hcn).
  split; [done|]. intros [[k start] active] _. cbn [after]. apply disc_bind. eapply disc_mono; [apply disc_RevokeChannel; by destruct start|].
  intros lo1 [] ->. eapply disc_bind_neutral; [apply neutral_close_conns|]. intros []. destruct start.
  - split; [apply disc_finish; cbn; [done|set_solver|done|done]|]. cbn. split_and!; done || set_solver.
  - cbn. split_and!; done || set_solver.
Qed.

Lemma disc_Tombstone lo c : idle lo → disc E lo (TombstoneChannelData c) (λ lo' r, idle lo' ∧ (r = Ok () → pretty c ∈ lo_revoked lo' ∧ ∃ k, lo_begun lo' = Some (c, k))).
Proof.
  intros Hi. unfold TombstoneChannelData, try_prog. apply disc_bind. eapply disc_mono; [by apply disc_begin|].
  intros lo' [k|e] (Hi' & _ & Hb); [|done]. split; [done|]. intros _. destruct Hb. eauto.
Qed.

Lemma disc_DeleteChannelData lo c :
  idle lo → disc E lo (DeleteChannelData c) (λ lo' r, idle lo' ∧ (r = Ok () → c ∈ lo_cleaned lo')).
Proof.
  intros Hi. unfold DeleteChannelData, try_prog. apply disc_bind. eapply disc_mono; [by apply disc_begin|].
  intros lo1 [k|e] (Hi1 & _ & Hb); [|done]. destruct Hb as [Hb _]. split; [done|]. intros [[e|]|] _; cbn [after]; [done| |done].
  rewrite Hb, Nat.eqb_refl. split; [done|]. intros _. cbn. set_solver.
Qed.

Lemma disc_tombstone_each lo ids : idle lo → disc E lo (tombstone_each ids) (λ lo' _, idle lo').
Proof.
  revert lo. induction ids as [|id ids IH]; intros lo Hi; cbn [tombstone_each]; [done|]. apply disc_bind.
  eapply disc_mono; [by apply disc_Tombstone|]. intros lo1 r [Hi1 _]. apply disc_bind. eapply disc_mono; [by apply IH|]. done.
Qed.

Lemma disc_delete_each lo ids : idle lo → disc E lo (delete_each ids) (λ lo' _, idle lo').
Proof.
  revert lo. induction ids as [|id ids IH]; intros lo Hi; cbn [delete_each]; [done|]. apply disc_bind.
  eapply disc_mono; [by apply disc_DeleteChannelData|]. intros lo1 r [Hi1 _]. apply disc_bind. eapply disc_mono; [by apply IH|]. done.
Qed.

Lemma disc_Reconcile lo live : idle lo → disc E lo (ReconcileChannelData live) (λ lo' _, idle lo').
Proof.
  intros Hi. unfold ReconcileChannelData. split; [done|]. intros [[]|e] _; cbn [after]; [|done]. split; [done|]. intros [l|e] _; cbn [after]; [|done].
  apply disc_bind. eapply disc_mono; [by apply disc_tombstone_each|]. intros lo1 [ids fl] Hi1. apply disc_bind.
  eapply disc_mono; [by apply disc_delete_each|]. done.
Qed.

(** ** Tokens, the probe, and every request *)

Lemma disc_InitUpload lo c f n size u q : idle lo → disc E lo (InitUpload E c f n size u q) (λ lo' _, idle lo').
Proof.
  intros Hi. unfold InitUpload, try_prog, pure_prog. cbn [prog_bind]. destruct (sanitizeName _ n) as [n'|] eqn:Hn; [|done]. cbn [prog_bind].
  destruct (sanitizeFolder _ f) as [f'|] eqn:Hf; [|done]. apply sanitizeName_Ok in Hn as (-> & Hn & _). apply sanitizeFolder_Ok in Hf as (-> & Hf).
  destruct (_ <=? 0); [done|]. destruct (_ && _); [done|].
  eapply disc_bind_neutral; [apply neutral_check_quota, neutral_ChannelQuotaState|]. intros [[]|e]; [|done].
  eapply disc_bind_neutral; [apply neutral_check_quota, neutral_UploaderQuotaState|]. intros [[]|e]; [|done].
  eapply disc_mono; [apply disc_register; [by apply Hi|done|done]|]. intros lo' r Hids. by eapply idle_ids.
Qed.

(** What the database says a file is called is what was asked for. *)
Lemma GetFile_named c f n d rec : (GetFile (fe_db E) (fe_now_db E) c f n d).2 = Ok rec → rec_Name rec = n.
Proof.
  unfold GetFile, file_query, file_call. destruct (fe_db E _); try done. cbn. destruct (fd_files _ !! _); [|done]. by intros [= <-].
Qed.

Lemma disc_InitDownload lo c f n : idle lo → disc E lo (InitDownload E c f n) (λ lo' _, idle lo').
Proof.
  intros Hi. unfold InitDownload, try_prog, pure_prog. cbn [prog_bind]. destruct (sanitizeName _ n) as [n'|] eqn:Hn; [|done]. cbn [prog_bind].
  destruct (sanitizeFolder _ f) as [f'|] eqn:Hf; [|done]. apply sanitizeName_Ok in Hn as (-> & Hn & _). apply sanitizeFolder_Ok in Hf as (-> & Hf).
  unfold db_GetFile, trigger. cbn [prog_bind]. split; [done|]. intros [rec|e] [d Hd]; cbn [after]; [|done].
  eapply disc_mono; [apply disc_register; cbn; [by apply Hi|done|by rewrite (GetFile_named _ _ _ _ _ Hd)]|].
  intros lo' r Hids. by eapply idle_ids.
Qed.

Lemma disc_CheckRoot lo : idle lo → disc E lo CheckRoot (λ lo' _, idle lo').
Proof.
  intros Hi. unfold CheckRoot, try_prog, io_error, trigger. cbn [prog_bind]. split; [done|]. intros [[]|e] _; cbn [after result_map_err]; [|done].
  cbn [prog_bind]. apply disc_bind, disc_randomHex; [|done]. intros b Hb. cbn [Nat.eqb]. set (lo1 := lo_set_ids _ lo).
  assert (idle lo1) as Hi1 by done. split.
  - intros p c Hp Hh. exfalso. set (probe := ".writetest-" +:+ hex b) in *.
    assert (plain probe) as Hpl.
    { split.
      - unfold slash_free, probe. rewrite chars_app, elem_of_app. intros [H|H]; [cbn in H; set_solver|]. by apply (hex_slash_free b).
      - unfold probe. rewrite !not_elem_of_cons. split_and!; [done|done|done|set_solver]. }
    change probe with (Join [probe] "/") in Hp. rewrite resolve_plain in Hp by (done || by apply Forall_singleton). injection Hp as <-.
    cbn in Hh. injection Hh as Hh. unfold probe in Hh. apply (f_equal chars_of) in Hh. rewrite chars_app in Hh. cbn in Hh.
    destruct c as [|p|p]; [by vm_compute in Hh| |].
    + destruct (pretty_Z_digits (Z.pos p)) as [Hd _]; [lia|]. rewrite <- Hh in Hd. apply Forall_cons in Hd as [Hd _].
      unfold is_digit in Hd. vm_compute in Hd. lia.
    + change (pretty (Z.neg p)) with ("-" +:+ pretty (Z.pos p)) in Hh. rewrite chars_app in Hh. by cbn in Hh.
  - intros r _. cbn [after]. eapply disc_mono.
    + assert (keeps lo1 (match result_map_err FtIo r with
        | Ok f => Vis (WriteFile f (bytes_of_string "ok")) (λ w, match w with
            | Err e => tell CloseFile f; tell Remove (".writetest-" +:+ hex b); Ret (Err (FtIo e))
            | Ok _ => ask closed <- CloseFile f; match closed with
                | Err e => tell Remove (".writetest-" +:+ hex b); Ret (Err (FtIo e))
                | Ok _ => tell Remove (".writetest-" +:+ hex b); Ret (Ok ()) end end)
        | Err e => Ret (Err e) end)) as Hk by keeps.
      exact Hk.
    + by intros lo' a ->.
Qed.

(** What a request ends with: no lock, no transfer and no cleanup of its own; a
    channel it marked as deleted is revoked, and a deletion that reports success has
    seen the cleanup succeed. *)
Definition op_post (op : fop) (lo : local) (r : fresp) : Prop :=
  idle lo ∧
  match op, r with
  | OpTombstone c, RUnit (Ok _) => pretty c ∈ lo_revoked lo ∧ ∃ k, lo_begun lo = Some (c, k)
  | OpDeleteChannel c, RUnit (Ok _) => c ∈ lo_cleaned lo
  | _, _ => True
  end.

Lemma disc_fmap {A B : Type} (f : A → B) lo (m : prog A) (Q : local → B → Prop) :
  disc E lo m (λ lo a, Q lo (f a)) → disc E lo (fmap_prog f m) Q.
Proof. intros Hm. by apply disc_bind. Qed.

Lemma neutral_idle {A : Type} lo (m : prog A) : neutral E m → idle lo → disc E lo m (λ lo' _, idle lo').
Proof. intros Hm Hi. by apply disc_neutral. Qed.
Lemma keeps_idle {A : Type} lo (m : prog A) : keeps lo m → idle lo → disc E lo m (λ lo' _, idle lo').
Proof. intros Hm Hi. eapply disc_mono; [exact Hm|]. by intros lo' a ->. Qed.

Theorem op_disciplined op : disc E local0 (op_prog E op) (op_post op).
Proof.
  pose proof idle_local0 as Hi. destruct op; apply disc_fmap; unfold op_post.
  all: try (eapply disc_mono; [by first [apply disc_InitUpload | apply disc_InitDownload | apply disc_Reconcile
      | apply disc_serve | apply disc_CheckRoot
      | apply neutral_idle; [first [apply neutral_ListFiles | apply neutral_ListFileFolders | apply neutral_ListFileVersions
          | apply neutral_ChannelQuota | apply neutral_DeleteFile]|done]
      | apply keeps_idle; [first [apply keeps_MoveFile | apply keeps_CreateLink | apply keeps_ServeHTTP]; done|done]]|];
    by intros lo' r Hlo').
  - eapply disc_mono; [by apply disc_Tombstone|]. intros lo' [[]|e] [Hlo' Hc]; split; [done|by apply Hc|done|done].
  - eapply disc_mono; [by apply disc_DeleteChannelData|]. intros lo' [[]|e] [Hlo' Hc]; split; [done|by apply Hc|done|done].
Qed.

End disc.
