(* ===== verification/FileSafety.v ===== *)
(** * The invariant of the file transfer

    Under every interleaving of requests, connections and cleanups: the locks
    exclude each other, a token belongs to one transfer and a transfer id to one
    thread, every served transfer is in the table of active ones until it ends, no
    link leads into a revoked channel, and where a cleanup has removed the files of
    a channel nothing can make one again.

    The parts of the invariant speak about one component of the world and one view
    of the threads each, so that an access is a case of the parts it touches. The
    freshness of transfer ids is that of eight random bytes. *)

From stdpp Require Import pretty.
From Stdlib Require Import Ascii.
From S2P Require Import Prelude Wire GoState ChatKeys ChatText GoStrings FileNames AuthService FileStore FileWorld FileTransfer FileThreads FileDisc.

Record FileLaws (E : FileEnv) : Prop := {
  fl_bytes : ∀ n k b, fe_rnd E n k = Some b → Forall is_byte b;
  fl_fresh : ∀ n m b, fe_rnd E n 8 = Some b → fe_rnd E m 8 = Some b → n = m;
}.

(** ** Lists with one element changed *)

Lemma lookup_insert_split {A} (l : list A) i x y j z :
  l !! i = Some x → <[i := y]> l !! j = Some z → (j = i ∧ z = y) ∨ (j ≠ i ∧ l !! j = Some z).
Proof. intros Hi Hj. apply list_lookup_insert_Some in Hj as [(-> & -> & _)|[? ?]]; [by left|by right]. Qed.

Lemma insert_view {A B} (f : A → B) (l : list A) i x y : l !! i = Some x → f y = f x → f <$> <[i := y]> l = f <$> l.
Proof. intros Hi Hf. rewrite list_fmap_insert. apply list_insert_id. by rewrite list_lookup_fmap, Hi, Hf. Qed.

Lemma length_filter_insert {A} (P : A → Prop) `{!∀ x, Decision (P x)} (l : list A) i x y :
  l !! i = Some x →
  (length (filter P (<[i := y]> l)) + (if decide (P x) then 1 else 0) = length (filter P l) + (if decide (P y) then 1 else 0))%nat.
Proof.
  intros Hi. assert (i < length l)%nat as Hlt by (by eapply lookup_lt_Some). rewrite insert_take_drop by done.
  rewrite <- (take_drop_middle l i x Hi) at 3. rewrite !filter_app, !length_app, !filter_cons.
  destruct (decide (P x)), (decide (P y)); cbn; lia.
Qed.

Lemma length_filter_app_out {A} (P : A → Prop) `{!∀ x, Decision (P x)} (l : list A) x :
  ¬ P x → length (filter P (l ++ [x])) = length (filter P l).
Proof. intros Hx. rewrite filter_app, length_app, filter_cons, decide_False by done. cbn. lia. Qed.

(** What an access leaves: its cases, with the tests of [exec] decided. *)
Ltac exec_cases :=
  unfold exec, yes, sys, sys_write, sys_removeAll, sys_close, publish, take_transfer, activate, deactivate, begin_section, recv, send, close_conn in *;
  repeat first [progress simplify_eq/= | case_match]; try done.

(** ** Locks *)

Record InvLocks (readers : nat) (writer : bool) (vs : list (bool * bool * gset Z)) : Prop := {
  a_count : readers = length (filter (λ v, v.1.1 = true) vs);
  a_ok : ∀ i v, vs !! i = Some v → v.2 ≠ ∅ → v.1.1 = true;
  a_write : ∀ i v, vs !! i = Some v → v.1.2 = true → writer = true;
  a_excl : writer = true → readers = 0%nat;
  a_uniq : ∀ i j v v', vs !! i = Some v → vs !! j = Some v' → v.1.2 = true → v'.1.2 = true → i = j;
}.

Definition lock_view (lo : local) : bool * bool * gset Z := (lo_read lo, lo_write lo, lo_ok lo).

Section locks.
Context (r : nat) (wr : bool) (vs : list (bool * bool * gset Z)) (I : InvLocks r wr vs).
Context (i : nat) (v : bool * bool * gset Z) (Hi : vs !! i = Some v).

Lemma locks_none_reading : wr = true → ∀ j u, vs !! j = Some u → u.1.1 = false ∧ u.2 = ∅.
Proof using I.
  intros Hwr j u Hj. assert (u.1.1 = false) as Hu.
  { apply not_true_is_false. intros Hu. pose proof (a_count _ _ _ I) as Hc. rewrite (a_excl _ _ _ I Hwr) in Hc.
    assert (u ∈ filter (λ v, v.1.1 = true) vs) as Hin by (apply list_elem_of_filter; split; [done|by eapply list_elem_of_lookup_2]).
    destruct (filter _ vs); [by apply elem_of_nil in Hin|done]. }
  split; [done|]. apply dec_stable. intros Hne. by rewrite (a_ok _ _ _ I j u Hj Hne) in Hu.
Qed.

Ltac locks_solve :=
  match goal with Hj : <[_ := _]> vs !! _ = Some _ |- _ =>
    destruct (lookup_insert_split _ _ _ _ _ _ Hi Hj) as [[? ->]|[? ?]]; cbn in *; eauto using a_ok, a_write, a_uniq
  end.

Lemma locks_change r' ok' :
  (r' + (if v.1.1 then 1 else 0) = r + 1)%nat → wr = false → v.1.2 = false → InvLocks r' wr (<[i := (true, v.1.2, ok')]> vs).
Proof using All.
  intros Hr Hwr Hv. pose proof (length_filter_insert (λ v, v.1.1 = true) vs i v (true, v.1.2, ok') Hi) as Hc.
  rewrite (a_count _ _ _ I) in Hr. split.
  - repeat case_decide; cbn in *; destruct v.1.1; try done; lia.
  - intros j u Hj. by locks_solve.
  - intros j u Hj. locks_solve.
  - by rewrite Hwr.
  - intros j j' u u' Hj Hj' Hu Hu'. assert (∀ k z, <[i := (true, v.1.2, ok')]> vs !! k = Some z → z.1.2 = true → False) as Hno.
    { intros k z Hk Hz. destruct (lookup_insert_split _ _ _ _ _ _ Hi Hk) as [[? ->]|[? Hk']]; cbn in *; [congruence|].
      pose proof (a_write _ _ _ I k z Hk' Hz). congruence. }
    by destruct (Hno j u Hj Hu).
Qed.

Lemma locks_release : v.1.1 = true → InvLocks (pred r) wr (<[i := (false, v.1.2, ∅)]> vs).
Proof using All.
  intros Hv. pose proof (length_filter_insert (λ v, v.1.1 = true) vs i v (false, v.1.2, ∅) Hi) as Hc.
  pose proof (a_count _ _ _ I) as Hr. destruct v as [[vr vw] vo]. cbn in *. subst vr. split.
  - repeat case_decide; try done; lia.
  - intros j u Hj. by locks_solve.
  - intros j u Hj. by locks_solve; apply (a_write _ _ _ I i _ Hi).
  - intros Hwr. rewrite (a_excl _ _ _ I Hwr). done.
  - intros j j' u u' Hj Hj' Hu Hu'. destruct (lookup_insert_split _ _ _ _ _ _ Hi Hj) as [[? ->]|[? Hj1]],
      (lookup_insert_split _ _ _ _ _ _ Hi Hj') as [[? ->]|[? Hj1']]; subst; cbn in *; try done.
    + by apply (a_uniq _ _ _ I i j' (true, vw, vo) u').
    + by apply (a_uniq _ _ _ I j i u (true, vw, vo)).
    + by apply (a_uniq _ _ _ I j j' u u').
Qed.

Lemma locks_write (w' : bool) :
  v.1.1 = false → (w' = true → wr = false ∧ r = 0%nat) → (w' = false → v.1.2 = true) → InvLocks r w' (<[i := (v.1.1, w', v.2)]> vs).
Proof using All.
  intros Hv Ht Hf. pose proof (length_filter_insert (λ v, v.1.1 = true) vs i v (v.1.1, w', v.2) Hi) as Hc.
  pose proof (a_count _ _ _ I) as Hr. assert (∀ j u, j ≠ i → vs !! j = Some u → u.1.2 = false) as Hothers.
  { intros j u Hne Hj. apply not_true_is_false. intros Hu. destruct w'.
    - destruct (Ht eq_refl) as [Hw _]. pose proof (a_write _ _ _ I j u Hj Hu). congruence.
    - apply Hne. apply (a_uniq _ _ _ I j i u v); auto. }
  split.
  - repeat case_decide; cbn in *; try congruence; lia.
  - intros j u Hj. by locks_solve; intros Hne; eapply (a_ok _ _ _ I i).
  - intros j u Hj. by locks_solve; intros Hu; rewrite (Hothers j u) in Hu.
  - intros Hw'. by apply Ht.
  - intros j j' u u' Hj Hj' Hu Hu'. destruct (lookup_insert_split _ _ _ _ _ _ Hi Hj) as [[? ->]|[? Hj1]],
      (lookup_insert_split _ _ _ _ _ _ Hi Hj') as [[? ->]|[? Hj1']]; subst; cbn in *; try done.
    + by rewrite (Hothers j' u') in Hu'.
    + by rewrite (Hothers j u) in Hu.
    + by rewrite (Hothers j u) in Hu.
Qed.

End locks.

Lemma locks_more_ok r wr vs i v c :
  InvLocks r wr vs → vs !! i = Some v → v.1.1 = true → InvLocks r wr (<[i := (v.1.1, v.1.2, {[c]} ∪ v.2)]> vs).
Proof.
  intros I Hi Hv. pose proof (length_filter_insert (λ v, v.1.1 = true) vs i v (v.1.1, v.1.2, {[c]} ∪ v.2) Hi) as Hc.
  cbn in Hc. pose proof (a_count _ _ _ I) as Hr. split.
  - repeat case_decide; cbn in *; try done; lia.
  - intros j u Hj Hne. destruct (lookup_insert_split _ _ _ _ _ _ Hi Hj) as [[? ->]|[? Hj1]]; [done|by eapply a_ok].
  - intros j u Hj. destruct (lookup_insert_split _ _ _ _ _ _ Hi Hj) as [[? ->]|[? Hj1]]; [|by eapply a_write].
    apply (a_write _ _ _ I i v Hi).
  - apply (a_excl _ _ _ I).
  - intros j j' u u' Hj Hj'. destruct (lookup_insert_split _ _ _ _ _ _ Hi Hj) as [[? ->]|[? Hj1]],
      (lookup_insert_split _ _ _ _ _ _ Hi Hj') as [[? ->]|[? Hj1']]; subst; cbn; intros; try done.
    + by apply (a_uniq _ _ _ I i j' v u').
    + by apply (a_uniq _ _ _ I j i u v).
    + by apply (a_uniq _ _ _ I j j' u u').
Qed.

Lemma locks_new r wr vs : InvLocks r wr vs → InvLocks r wr (vs ++ [(false, false, ∅)]).
Proof.
  intros I. assert (∀ j u, (vs ++ [(false, false, ∅ : gset Z)]) !! j = Some u → vs !! j = Some u ∨ u = (false, false, ∅)) as Hl.
  { intros j u [?|[_ Hj]]%lookup_app_Some; [by left|]. right. apply list_lookup_singleton_Some in Hj as [_ <-]. done. }
  split.
  - by rewrite length_filter_app_out; [apply (a_count _ _ _ I)|].
  - intros j u [Hj| ->]%Hl Hne; [by eapply a_ok|done].
  - intros j u [Hj| ->]%Hl Hne; [by eapply a_write|done].
  - apply (a_excl _ _ _ I).
  - intros j j' u u' Hj Hj' Hu Hu'. pose proof (Hl _ _ Hj) as [H1| ->]; [|done]. pose proof (Hl _ _ Hj') as [H2| ->]; [|done].
    by eapply (a_uniq _ _ _ I).
Qed.

(** ** The link registry *)

Record InvLinks (reg : LinkRegistry) (lock : bool) (vs : list (bool * gset string * gset string)) : Prop := {
  b_lock : ∀ i v, vs !! i = Some v → v.1.1 = true → lock = true;
  b_uniq : ∀ i j v v', vs !! i = Some v → vs !! j = Some v' → v.1.1 = true → v'.1.1 = true → i = j;
  b_unrevoked : ∀ i v ch, vs !! i = Some v → ch ∈ v.1.2 → v.1.1 = true ∧ ch ∉ lr_revoked reg;
  b_revoked : ∀ i v ch, vs !! i = Some v → ch ∈ v.2 → ch ∈ lr_revoked reg;
  b_links : ∀ t l, lr_links reg !! t = Some l → linkChannel (ln_path l) ∉ lr_revoked reg;
  b_active : ∀ h ch, lr_active reg !! h = Some ch → ch ∉ lr_revoked reg;
}.

Definition link_view (lo : local) : bool * gset string * gset string := (lo_link lo, lo_unrevoked lo, lo_revoked lo).

(** A registry with other links and handles, none into a revoked channel. *)
Lemma links_reg reg reg' lock vs :
  InvLinks reg lock vs → lr_revoked reg' = lr_revoked reg →
  (∀ t l, lr_links reg' !! t = Some l → lr_links reg !! t = Some l ∨ linkChannel (ln_path l) ∉ lr_revoked reg) →
  (∀ h ch, lr_active reg' !! h = Some ch → lr_active reg !! h = Some ch ∨ ch ∉ lr_revoked reg) →
  InvLinks reg' lock vs.
Proof.
  intros I Hr Hl Ha. split.
  - apply (b_lock _ _ _ I).
  - apply (b_uniq _ _ _ I).
  - rewrite Hr. apply (b_unrevoked _ _ _ I).
  - rewrite Hr. apply (b_revoked _ _ _ I).
  - rewrite Hr. intros t l [Hk|Hk]%Hl; [by eapply b_links|done].
  - rewrite Hr. intros h ch [Hk|Hk]%Ha; [by eapply b_active|done].
Qed.

Section links.
Context (reg : LinkRegistry) (lock : bool) (vs : list (bool * gset string * gset string)) (I : InvLinks reg lock vs).
Context (i : nat) (v : bool * gset string * gset string) (Hi : vs !! i = Some v).

Lemma links_others : v.1.1 = true → ∀ j u, j ≠ i → vs !! j = Some u → u.1.1 = false ∧ u.1.2 = ∅.
Proof using All.
  intros Hv j u Hne Hj. assert (u.1.1 = false) as Hu.
  { apply not_true_is_false. intros Hu. apply Hne. by apply (b_uniq _ _ _ I j i u v). }
  split; [done|]. apply set_eq. intros ch. split; [|set_solver]. intros Hch. destruct (b_unrevoked _ _ _ I j u ch Hj Hch). congruence.
Qed.

(** The lock is taken or released. *)
Lemma links_lock (l' : bool) :
  (l' = true → lock = false) → (l' = false → v.1.1 = true) → InvLinks reg l' (<[i := (l', ∅, v.2)]> vs).
Proof using All.
  intros Ht Hf. assert (∀ j u, j ≠ i → vs !! j = Some u → u.1.1 = false) as Ho.
  { intros j u Hne Hj. destruct l'; [|by apply (links_others (Hf eq_refl) j u)]. apply not_true_is_false. intros Hu.
    pose proof (b_lock _ _ _ I j u Hj Hu). rewrite Ht in *; done. }
  split.
  - intros j u Hj. destruct (lookup_insert_split _ _ _ _ _ _ Hi Hj) as [[? ->]|[Hne Hj1]]; [done|]. intros Hu. by rewrite (Ho j u) in Hu.
  - intros j j' u u' Hj Hj' Hu Hu'. destruct (lookup_insert_split _ _ _ _ _ _ Hi Hj) as [[? ->]|[? Hj1]],
      (lookup_insert_split _ _ _ _ _ _ Hi Hj') as [[? ->]|[? Hj1']]; subst; cbn in *; try done.
    + by rewrite (Ho j' u') in Hu'.
    + by rewrite (Ho j u) in Hu.
    + by rewrite (Ho j u) in Hu.
  - intros j u ch Hj. destruct (lookup_insert_split _ _ _ _ _ _ Hi Hj) as [[? ->]|[Hne Hj1]]; [cbn; set_solver|by eapply b_unrevoked].
  - intros j u ch Hj. destruct (lookup_insert_split _ _ _ _ _ _ Hi Hj) as [[? ->]|[Hne Hj1]]; [|by eapply b_revoked].
    by apply (b_revoked _ _ _ I i v).
  - apply (b_links _ _ _ I).
  - apply (b_active _ _ _ I).
Qed.

Lemma links_seen ch : v.1.1 = true → ch ∉ lr_revoked reg → InvLinks reg lock (<[i := (v.1.1, {[ch]} ∪ v.1.2, v.2)]> vs).
Proof using All.
  intros Hv Hch. split.
  - intros j u Hj. destruct (lookup_insert_split _ _ _ _ _ _ Hi Hj) as [[? ->]|[Hne Hj1]]; [|by eapply b_lock].
    apply (b_lock _ _ _ I i v Hi).
  - intros j j' u u' Hj Hj' Hu Hu'. destruct (lookup_insert_split _ _ _ _ _ _ Hi Hj) as [[? ->]|[? Hj1]],
      (lookup_insert_split _ _ _ _ _ _ Hi Hj') as [[? ->]|[? Hj1']]; subst; cbn in *; try done.
    + by apply (b_uniq _ _ _ I i j' v u').
    + by apply (b_uniq _ _ _ I j i u v).
    + by apply (b_uniq _ _ _ I j j' u u').
  - intros j u ch' Hj. destruct (lookup_insert_split _ _ _ _ _ _ Hi Hj) as [[? ->]|[Hne Hj1]]; [|by eapply b_unrevoked].
    cbn. intros [->%elem_of_singleton|Hin]%elem_of_union; [done|]. by apply (b_unrevoked _ _ _ I i v).
  - intros j u ch' Hj. destruct (lookup_insert_split _ _ _ _ _ _ Hi Hj) as [[? ->]|[Hne Hj1]]; [|by eapply b_revoked].
    by apply (b_revoked _ _ _ I i v).
  - apply (b_links _ _ _ I).
  - apply (b_active _ _ _ I).
Qed.

Lemma links_revoke ch :
  v.1.1 = true →
  InvLinks (mkRegistry (filter (λ e, linkChannel (ln_path e.2) ≠ ch) (lr_links reg)) ({[ch]} ∪ lr_revoked reg)
              (filter (λ e, e.2 ≠ ch) (lr_active reg))) lock (<[i := (v.1.1, ∅, {[ch]} ∪ v.2)]> vs).
Proof using All.
  intros Hv. pose proof (links_others Hv) as Ho. split.
  - intros j u Hj. destruct (lookup_insert_split _ _ _ _ _ _ Hi Hj) as [[? ->]|[Hne Hj1]]; [|by eapply b_lock].
    apply (b_lock _ _ _ I i v Hi).
  - intros j j' u u' Hj Hj' Hu Hu'. destruct (lookup_insert_split _ _ _ _ _ _ Hi Hj) as [[? ->]|[? Hj1]],
      (lookup_insert_split _ _ _ _ _ _ Hi Hj') as [[? ->]|[? Hj1']]; subst; cbn in *; try done.
    + by apply (b_uniq _ _ _ I i j' v u').
    + by apply (b_uniq _ _ _ I j i u v).
    + by apply (b_uniq _ _ _ I j j' u u').
  - intros j u ch' Hj. destruct (lookup_insert_split _ _ _ _ _ _ Hi Hj) as [[? ->]|[Hne Hj1]]; [cbn; set_solver|].
    destruct (Ho j u Hne Hj1) as [_ ->]. set_solver.
  - intros j u ch' Hj. cbn. destruct (lookup_insert_split _ _ _ _ _ _ Hi Hj) as [[? ->]|[Hne Hj1]]; cbn.
    + intros [?|Hin]%elem_of_union; [set_solver|]. pose proof (b_revoked _ _ _ I i v ch' Hi Hin). set_solver.
    + intros Hin. pose proof (b_revoked _ _ _ I j u ch' Hj1 Hin). set_solver.
  - cbn. intros t l [Hl Hne]%map_lookup_filter_Some. cbn in Hne. pose proof (b_links _ _ _ I t l Hl). set_solver.
  - cbn. intros h ch' [Hl Hne]%map_lookup_filter_Some. cbn in Hne. pose proof (b_active _ _ _ I h ch' Hl). set_solver.
Qed.

End links.

Lemma links_new reg lock vs rv : InvLinks reg lock vs → (∀ ch, ch ∈ rv → ch ∈ lr_revoked reg) → InvLinks reg lock (vs ++ [(false, ∅, rv)]).
Proof.
  intros I Hrv. assert (∀ j u, (vs ++ [(false, ∅ : gset string, rv)]) !! j = Some u → vs !! j = Some u ∨ u = (false, ∅, rv)) as Hl.
  { intros j u [?|[_ Hj]]%lookup_app_Some; [by left|]. right. apply list_lookup_singleton_Some in Hj as [_ <-]. done. }
  split.
  - intros j u [Hj| ->]%Hl Hu; [by eapply b_lock|done].
  - intros j j' u u' Hj Hj' Hu Hu'. pose proof (Hl _ _ Hj) as [H1| ->]; [|done]. pose proof (Hl _ _ Hj') as [H2| ->]; [|done].
    by eapply (b_uniq _ _ _ I).
  - intros j u ch [Hj| ->]%Hl Hc; [by eapply b_unrevoked|cbn in Hc; set_solver].
  - intros j u ch [Hj| ->]%Hl Hc; [by eapply b_revoked|by apply Hrv].
  - apply (b_links _ _ _ I).
  - apply (b_active _ _ _ I).
Qed.

(** ** Transfer ids, tokens and active transfers *)

Abbreviation own_view_t := (gset string * option activeTransfer * option nat)%type.

(** The [done] channels a thread will still close. *)
Definition dones (v : own_view_t) : list nat :=
  match v.1.2 with Some a => [at_done a] | None => [] end ++ match v.2 with Some d => [d] | None => [] end.

Record InvOwn (up : string → string) (drawn : string → Prop) (trs : gmap (list byte) transfer) (act : gmap string activeTransfer)
    (closed : gset nat) (next : nat) (vs : list own_view_t) : Prop := {
  c_drawn : ∀ i v id, vs !! i = Some v → id ∈ v.1.1 → drawn id;
  c_apart : ∀ i j v v' id, vs !! i = Some v → vs !! j = Some v' → id ∈ v.1.1 → id ∈ v'.1.1 → i = j;
  c_tr_drawn : ∀ d tr, trs !! d = Some tr → drawn (tr_ID tr);
  c_tr_apart : ∀ d tr i v, trs !! d = Some tr → vs !! i = Some v → tr_ID tr ∉ v.1.1;
  c_tr_inj : ∀ d d' tr tr', trs !! d = Some tr → trs !! d' = Some tr' → tr_ID tr = tr_ID tr' → d = d';
  c_tr_good : ∀ d tr, trs !! d = Some tr → good_folder up (tr_Folder tr) ∧ good_name up (tr_Name tr);
  d_active : ∀ i v a, vs !! i = Some v → v.1.2 = Some a →
    act !! at_transferID a = Some a ∧ at_transferID a ∈ v.1.1 ∧ v.2 = None;
  d_open : ∀ i v d, vs !! i = Some v → d ∈ dones v → (d < next)%nat ∧ d ∉ closed;
  d_apart : ∀ i j v v' d, vs !! i = Some v → vs !! j = Some v' → d ∈ dones v → d ∈ dones v' → i = j;
  d_owned : ∀ id a, act !! id = Some a → at_transferID a = id ∧ ∃ i v, vs !! i = Some v ∧ v.1.2 = Some a;
  d_closed : ∀ d, d ∈ closed → (d < next)%nat;
}.

Definition own_view (lo : local) : own_view_t := (lo_ids lo, lo_active lo, lo_closing lo).

Ltac ins Hi H := destruct (lookup_insert_split _ _ _ _ _ _ Hi H) as [[? ->]|[? ?]]; subst; cbn [fst snd] in *.

Section own.
Context (up : string → string).
Context (drawn : string → Prop) (trs : gmap (list byte) transfer) (act : gmap string activeTransfer) (closed : gset nat) (next : nat).
Context (vs : list own_view_t) (I : InvOwn up drawn trs act closed next vs).
Context (i : nat) (v : own_view_t) (Hi : vs !! i = Some v).

(** Only the ids of thread [i] and the tokens change. *)
Lemma own_ids ids' drawn' trs' :
  (∀ id, drawn id → drawn' id) →
  (∀ id, id ∈ ids' → drawn' id ∧ (id ∈ v.1.1 ∨ (∀ j u, vs !! j = Some u → id ∉ u.1.1)) ∧ ∀ d tr, trs' !! d = Some tr → tr_ID tr ≠ id) →
  (∀ a, v.1.2 = Some a → at_transferID a ∈ ids') →
  (∀ d tr, trs' !! d = Some tr → drawn' (tr_ID tr) ∧ (good_folder up (tr_Folder tr) ∧ good_name up (tr_Name tr)) ∧
     ∀ j u, j ≠ i → vs !! j = Some u → tr_ID tr ∉ u.1.1) →
  (∀ d d' tr tr', trs' !! d = Some tr → trs' !! d' = Some tr' → tr_ID tr = tr_ID tr' → d = d') →
  InvOwn up drawn' trs' act closed next (<[i := (ids', v.1.2, v.2)]> vs).
Proof using All.
  intros Hd Hids Ha Htr Hinj. split.
  - intros j u id Hj Hid. ins Hi Hj; [by apply Hids|]. by eapply Hd, (c_drawn _ _ _ _ _ _ _ I).
  - intros j j' u u' id Hj Hj' Hid Hid'. ins Hi Hj; ins Hi Hj'; try done.
    + destruct (Hids id Hid) as (_ & [Hv|Hno] & _); [by apply (c_apart _ _ _ _ _ _ _ I i j' v u' id)|by destruct (Hno j' u')].
    + destruct (Hids id Hid') as (_ & [Hv|Hno] & _); [by apply (c_apart _ _ _ _ _ _ _ I j i u v id)|by destruct (Hno j u)].
    + by apply (c_apart _ _ _ _ _ _ _ I j j' u u' id).
  - intros d tr Hd'. by apply Htr in Hd' as [? _].
  - intros d tr j u Hd' Hj. ins Hi Hj; [intros Hid; destruct (Hids _ Hid) as (_ & _ & Hn); by apply (Hn d tr)|].
    destruct (Htr d tr Hd') as (_ & _ & Ho). by eapply Ho.
  - done.
  - intros d tr Hd'. by apply Htr in Hd' as (_ & ? & _).
  - intros j u a Hj Hu. ins Hi Hj; [|by eapply d_active]. destruct (d_active _ _ _ _ _ _ _ I i v a Hi Hu) as (H1 & _ & H3). by auto.
  - intros j u d Hj. ins Hi Hj; [|by eapply d_open]. apply (d_open _ _ _ _ _ _ _ I i v d Hi).
  - intros j j' u u' d Hj Hj'. ins Hi Hj; ins Hi Hj'; intros Hu Hu'; try done.
    + by apply (d_apart _ _ _ _ _ _ _ I i j' v u' d).
    + by apply (d_apart _ _ _ _ _ _ _ I j i u v d).
    + by apply (d_apart _ _ _ _ _ _ _ I j j' u u' d).
  - intros id a Hid. destruct (d_owned _ _ _ _ _ _ _ I id a Hid) as (? & j & u & Hj & Hu). split; [done|].
    destruct (decide (j = i)) as [->|Hne].
    + exists i, (ids', v.1.2, v.2). rewrite list_lookup_insert_eq by (by eapply lookup_lt_Some). split; [done|]. cbn. congruence.
    + exists j, u. by rewrite list_lookup_insert_ne.
  - apply (d_closed _ _ _ _ _ _ _ I).
Qed.

(** What the thread serves changes, its ids do not. *)
Lemma own_serve a' closing' act' closed' next' :
  (next ≤ next')%nat →
  (∀ a, a' = Some a → act' !! at_transferID a = Some a ∧ at_transferID a ∈ v.1.1 ∧ closing' = None) →
  (∀ d, d ∈ dones (v.1.1, a', closing') → (d < next')%nat ∧ d ∉ closed' ∧ (d ∈ dones v ∨ (next ≤ d)%nat)) →
  (∀ j u d, j ≠ i → vs !! j = Some u → d ∈ dones u → d ∉ closed') →
  (∀ j u a, j ≠ i → vs !! j = Some u → u.1.2 = Some a → act' !! at_transferID a = act !! at_transferID a) →
  (∀ id a, act' !! id = Some a → (at_transferID a = id ∧ a' = Some a) ∨ (act !! id = Some a ∧ (v.1.2 = Some a → a' = Some a))) →
  (∀ d, d ∈ closed' → (d < next')%nat) →
  InvOwn up drawn trs act' closed' next' (<[i := (v.1.1, a', closing')]> vs).
Proof using All.
  intros Hnext Ha Hd Hoc Hoa Hact Hcl. split.
  - intros j u id Hj Hid. ins Hi Hj; by eapply (c_drawn _ _ _ _ _ _ _ I).
  - intros j j' u u' id Hj Hj' Hid Hid'. ins Hi Hj; ins Hi Hj'; try done.
    + by apply (c_apart _ _ _ _ _ _ _ I i j' v u' id).
    + by apply (c_apart _ _ _ _ _ _ _ I j i u v id).
    + by apply (c_apart _ _ _ _ _ _ _ I j j' u u' id).
  - apply (c_tr_drawn _ _ _ _ _ _ _ I).
  - intros d tr j u Hd' Hj. ins Hi Hj; by eapply (c_tr_apart _ _ _ _ _ _ _ I).
  - apply (c_tr_inj _ _ _ _ _ _ _ I).
  - apply (c_tr_good _ _ _ _ _ _ _ I).
  - intros j u a Hj Hu. ins Hi Hj; [by apply Ha|]. rewrite (Hoa j u a) by done. by apply (d_active _ _ _ _ _ _ _ I j u).
  - intros j u d Hj Hu. ins Hi Hj; [by destruct (Hd d Hu) as (? & ? & _)|]. split; [|by eapply Hoc].
    pose proof (d_open _ _ _ _ _ _ _ I j u d) as [? _]; [done..|lia].
  - intros j j' u u' d Hj Hj' Hu Hu'. ins Hi Hj; ins Hi Hj'; try done.
    + destruct (Hd d Hu) as (_ & _ & [Hv|Hn]); [by apply (d_apart _ _ _ _ _ _ _ I i j' v u' d)|].
      pose proof (d_open _ _ _ _ _ _ _ I j' u' d) as [? _]; [done..|lia].
    + destruct (Hd d Hu') as (_ & _ & [Hv|Hn]); [by apply (d_apart _ _ _ _ _ _ _ I j i u v d)|].
      pose proof (d_open _ _ _ _ _ _ _ I j u d) as [? _]; [done..|lia].
    + by apply (d_apart _ _ _ _ _ _ _ I j j' u u' d).
  - intros id a Hid. destruct (Hact id a Hid) as [[? ->]|[Hid' Hv]].
    { split; [done|]. exists i, (v.1.1, Some a, closing'). by rewrite list_lookup_insert_eq by (by eapply lookup_lt_Some). }
    destruct (d_owned _ _ _ _ _ _ _ I id a Hid') as (? & j & u & Hj & Hu). split; [done|].
    destruct (decide (j = i)) as [->|Hne].
    + exists i, (v.1.1, a', closing'). rewrite list_lookup_insert_eq by (by eapply lookup_lt_Some). split; [done|]. cbn.
      apply Hv. congruence.
    + exists j, u. by rewrite list_lookup_insert_ne.
  - done.
Qed.

End own.

(** Time passes and tokens go. *)
Lemma own_fewer up drawn drawn' trs trs' act closed next next' vs :
  InvOwn up drawn trs act closed next vs → (∀ id, drawn id → drawn' id) → trs' ⊆ trs → (next ≤ next')%nat →
  InvOwn up drawn' trs' act closed next' vs.
Proof.
  intros I Hd Ht Hn. assert (∀ d tr, trs' !! d = Some tr → trs !! d = Some tr) as Hl by (intros d tr Hk; by eapply lookup_weaken).
  split.
  - intros j u id Hj Hid. by eapply Hd, (c_drawn _ _ _ _ _ _ _ I).
  - apply (c_apart _ _ _ _ _ _ _ I).
  - intros d tr Ht'. by eapply Hd, (c_tr_drawn _ _ _ _ _ _ _ I), Hl.
  - intros d tr j u Ht'. eapply (c_tr_apart _ _ _ _ _ _ _ I). by apply Hl.
  - intros d d' tr tr' H1 H2. eapply (c_tr_inj _ _ _ _ _ _ _ I); by apply Hl.
  - intros d tr Ht'. by eapply (c_tr_good _ _ _ _ _ _ _ I), Hl.
  - apply (d_active _ _ _ _ _ _ _ I).
  - intros j u d Hj Hu. destruct (d_open _ _ _ _ _ _ _ I j u d Hj Hu). split; [lia|done].
  - apply (d_apart _ _ _ _ _ _ _ I).
  - apply (d_owned _ _ _ _ _ _ _ I).
  - intros d Hd'. pose proof (d_closed _ _ _ _ _ _ _ I d Hd'). lia.
Qed.

Lemma own_new up drawn trs act closed next vs : InvOwn up drawn trs act closed next vs → InvOwn up drawn trs act closed next (vs ++ [(∅, None, None)]).
Proof.
  intros I. assert (∀ j u, (vs ++ [(∅ : gset string, None, None)]) !! j = Some u → vs !! j = Some u ∨ u = (∅, None, None)) as Hl.
  { intros j u [?|[_ Hj]]%lookup_app_Some; [by left|]. right. apply list_lookup_singleton_Some in Hj as [_ <-]. done. }
  split.
  - intros j u id [Hj| ->]%Hl Hid; [by eapply c_drawn|cbn in Hid; set_solver].
  - intros j j' u u' id Hj Hj' Hid Hid'. pose proof (Hl _ _ Hj) as [H1| ->]; [|cbn in Hid; set_solver].
    pose proof (Hl _ _ Hj') as [H2| ->]; [|cbn in Hid'; set_solver]. by apply (c_apart _ _ _ _ _ _ _ I j j' u u' id).
  - apply (c_tr_drawn _ _ _ _ _ _ _ I).
  - intros d tr j u Hd [Hj| ->]%Hl; [by eapply c_tr_apart|cbn; set_solver].
  - apply (c_tr_inj _ _ _ _ _ _ _ I).
  - apply (c_tr_good _ _ _ _ _ _ _ I).
  - intros j u a [Hj| ->]%Hl Hu; [by eapply d_active|done].
  - intros j u d [Hj| ->]%Hl Hu; [by eapply d_open|by apply elem_of_nil in Hu].
  - intros j j' u u' d Hj Hj' Hu Hu'. pose proof (Hl _ _ Hj) as [H1| ->]; [|by apply elem_of_nil in Hu].
    pose proof (Hl _ _ Hj') as [H2| ->]; [|by apply elem_of_nil in Hu']. by apply (d_apart _ _ _ _ _ _ _ I j j' u u' d).
  - intros id a Hid. destruct (d_owned _ _ _ _ _ _ _ I id a Hid) as (? & j & u & Hj & Hu). split; [done|]. exists j, u. split; [|done].
    by apply lookup_app_l_Some.
  - apply (d_closed _ _ _ _ _ _ _ I).
Qed.

(** * Cleanups in the invariant of the file transfer

    [gone c]: no thread serves a transfer of channel [c] or saw it alive under the
    lock it holds, and no name on disk begins with the directory of [c]. A cleanup
    that ended without an error stands for that, and nothing undoes it. *)

Definition in_channel (c : Z) (p : path) : Prop := head p = Some (pretty c).
Definition empty_channel (ns : gmap path fnode) (c : Z) : Prop := ∀ p n, ns !! p = Some n → ¬ in_channel c p.

(** What a thread holds of channels, and the cleanup it runs or has seen. *)
Record clean_view_t := mkCV {
  v_ok : gset Z; v_active : option activeTransfer; v_clean : option (Z * nat * cleanStatus); v_begun : option (Z * nat); v_cleaned : gset Z;
}.
Definition clean_view (lo : local) : clean_view_t := mkCV (lo_ok lo) (lo_active lo) (lo_clean lo) (lo_begun lo) (lo_cleaned lo).

Definition unserved (vs : list clean_view_t) (c : Z) : Prop :=
  ∀ i v a, vs !! i = Some v → v_active v = Some a → at_channelID a ≠ c.

Definition gone (ns : gmap path fnode) (vs : list clean_view_t) (c : Z) : Prop :=
  unserved vs c ∧ (∀ i v, vs !! i = Some v → c ∉ v_ok v) ∧ empty_channel ns c.

Definition status_ok (ns : gmap path fnode) (vs : list clean_view_t) (c : Z) (st : cleanStatus) : Prop :=
  match st with
  | CWait ws => ∀ i v a, vs !! i = Some v → v_active v = Some a → at_channelID a = c → at_done a ∈ ws
  | CSet (Some _) => unserved vs c
  | CRemoved | CSet None => gone ns vs c
  end.

Record InvClean (ns : gmap path fnode) (trs : gmap (list byte) transfer) (deleted : gmap Z nat) (cleanups : gmap nat channelCleanup)
    (next : nat) (revoked : gset string) (own : gmap nat Z) (vs : list clean_view_t) : Prop := {
  e_tr : ∀ d tr, trs !! d = Some tr → deleted !! tr_ChannelID tr = None;
  e_deleted : ∀ c k, deleted !! c = Some k → own !! k = Some c ∧ is_Some (cleanups !! k);
  e_own : ∀ k c, own !! k = Some c → (k < next)%nat;
  e_cleanup : ∀ k cc, cleanups !! k = Some cc → ∃ c, own !! k = Some c ∧ is_Some (deleted !! c) ∧
    (cc_done cc = true → cc_err cc = None → gone ns vs c ∧ pretty c ∈ revoked);
  e_clean : ∀ i v c k st, vs !! i = Some v → v_clean v = Some (c, k, st) →
    deleted !! c = Some k ∧ (∃ e, cleanups !! k = Some (mkCleanup false e) ∧ ∀ e', st = CSet e' → e = e') ∧ status_ok ns vs c st;
  e_uniq : ∀ i j v v' c c' k st st', vs !! i = Some v → vs !! j = Some v' →
    v_clean v = Some (c, k, st) → v_clean v' = Some (c', k, st') → i = j;
  e_begun : ∀ i v c k, vs !! i = Some v → v_begun v = Some (c, k) → own !! k = Some c ∧ is_Some (deleted !! c);
  e_cleaned : ∀ i v c, vs !! i = Some v → c ∈ v_cleaned v → is_Some (deleted !! c) ∧ gone ns vs c ∧ pretty c ∈ revoked;
}.

(** ** Nothing comes back *)

Section stays.
Context (ns ns' : gmap path fnode) (deleted : gmap Z nat) (vs : list clean_view_t) (i : nat) (v v' : clean_view_t).
Context (Hi : vs !! i = Some v).
Context (Hact : ∀ a, v_active v' = Some a → v_active v = Some a ∨ deleted !! at_channelID a = None).
Context (Hok : ∀ c, c ∈ v_ok v' → c ∈ v_ok v ∨ deleted !! c = None).
Context (Hns : ∀ p n c, ns' !! p = Some n → in_channel c p →
  (∃ p' n', ns !! p' = Some n' ∧ in_channel c p') ∨ c ∈ v_ok v ∨ ∃ a, v_active v = Some a ∧ at_channelID a = c).

Lemma unserved_stays c : is_Some (deleted !! c) → unserved vs c → unserved (<[i := v']> vs) c.
Proof using Hi Hact.
  intros [k Hk] Hu j u a Hj Hua. ins Hi Hj; [|by eapply Hu]. destruct (Hact a Hua) as [Hv|Hn]; [by eapply Hu|]. intros <-. congruence.
Qed.

Lemma gone_stays c : is_Some (deleted !! c) → gone ns vs c → gone ns' (<[i := v']> vs) c.
Proof using All.
  intros Hd (Hu & Ho & He). split_and!; [by apply unserved_stays| |].
  - intros j u Hj. ins Hi Hj; [|by eapply Ho]. intros Hc. destruct (Hok c Hc) as [Hv|Hn]; [by eapply Ho|]. destruct Hd. congruence.
  - intros p n Hp Hin. destruct (Hns p n c Hp Hin) as [(p' & n' & Hp' & Hin')|[Hv|(a & Ha & Hac)]].
    + by eapply He.
    + by eapply Ho.
    + by eapply Hu.
Qed.

Lemma status_stays c st : is_Some (deleted !! c) → status_ok ns vs c st → status_ok ns' (<[i := v']> vs) c st.
Proof using All.
  intros Hd. destruct st as [ws| |[e|]]; cbn; [|by apply gone_stays|by apply unserved_stays|by apply gone_stays].
  intros Hw j u a Hj Hua Hc. ins Hi Hj; [|by eapply Hw]. destruct (Hact a Hua) as [Hv|Hn]; [by eapply Hw|]. destruct Hd. congruence.
Qed.

End stays.

(** ** The accesses *)

Section clean.
Context (ns : gmap path fnode) (trs : gmap (list byte) transfer) (deleted : gmap Z nat) (cleanups : gmap nat channelCleanup).
Context (next : nat) (revoked : gset string) (own : gmap nat Z) (vs : list clean_view_t).
Context (I : InvClean ns trs deleted cleanups next revoked own vs).
Context (i : nat) (v v' : clean_view_t) (Hi : vs !! i = Some v).
Context (ns' : gmap path fnode) (revoked' : gset string).
Context (Hact : ∀ a, v_active v' = Some a → v_active v = Some a ∨ deleted !! at_channelID a = None).
Context (Hok : ∀ c, c ∈ v_ok v' → c ∈ v_ok v ∨ deleted !! c = None).
Context (Hns : ∀ p n c, ns' !! p = Some n → in_channel c p →
  (∃ p' n', ns !! p' = Some n' ∧ in_channel c p') ∨ c ∈ v_ok v ∨ ∃ a, v_active v = Some a ∧ at_channelID a = c).
Context (Hrev : revoked ⊆ revoked').

Lemma begun_fresh : ∀ c, own !! next = Some c → False.
Proof using I. intros c Hc. pose proof (e_own _ _ _ _ _ _ _ _ I next c Hc). lia. Qed.

(** The general case: the cleanups may change for the thread's own [k0], the
    status of the cleanup of thread [i] may change, it may learn of a cleanup. *)
Lemma clean_step trs' cleanups' next' :
  (∀ d tr, trs' !! d = Some tr → trs !! d = Some tr ∨ deleted !! tr_ChannelID tr = None) →
  (next ≤ next')%nat →
  (∀ k cc, cleanups' !! k = Some cc → cleanups !! k = Some cc ∨
     (∃ c st, v_clean v = Some (c, k, st) ∧ (cc_done cc = true → cc_err cc = None → gone ns vs c ∧ pretty c ∈ revoked))) →
  (∀ k, is_Some (cleanups !! k) → is_Some (cleanups' !! k)) →
  (∀ k, (∀ c st, v_clean v ≠ Some (c, k, st)) → cleanups' !! k = cleanups !! k) →
  (∀ c k st', v_clean v' = Some (c, k, st') → (∃ st, v_clean v = Some (c, k, st)) ∧
     (∃ e, cleanups' !! k = Some (mkCleanup false e) ∧ ∀ e', st' = CSet e' → e = e') ∧ status_ok ns' (<[i := v']> vs) c st') →
  (∀ c k, v_begun v' = Some (c, k) → v_begun v = Some (c, k) ∨ own !! k = Some c ∧ is_Some (deleted !! c)) →
  (∀ c, c ∈ v_cleaned v' → c ∈ v_cleaned v ∨ (is_Some (deleted !! c) ∧ gone ns vs c ∧ pretty c ∈ revoked)) →
  InvClean ns' trs' deleted cleanups' next' revoked' own (<[i := v']> vs).
Proof using All.
  intros Htr Hnext Hcu Hdom Hfr Hcl Hb Hcd.
  assert (∀ c, is_Some (deleted !! c) → gone ns vs c → gone ns' (<[i := v']> vs) c) as Hgone by (intros c; by eapply gone_stays).
  split.
  - intros d tr [Hd|Hd]%Htr; [by eapply e_tr|done].
  - intros c k Hk. destruct (e_deleted _ _ _ _ _ _ _ _ I c k Hk) as [? ?]. auto.
  - intros k c Hk. pose proof (e_own _ _ _ _ _ _ _ _ I k c Hk). lia.
  - intros k cc [Hk|(c & st & Hv & Hk)]%Hcu.
    + destruct (e_cleanup _ _ _ _ _ _ _ _ I k cc Hk) as (c & Ho & Hd & Hg). exists c. split_and!; [done|done|].
      intros H1 H2. destruct (Hg H1 H2). split; [by apply Hgone|set_solver].
    + destruct (e_clean _ _ _ _ _ _ _ _ I i v c k st Hi Hv) as (Hd & _ & _). exists c.
      destruct (e_deleted _ _ _ _ _ _ _ _ I c k Hd) as [Ho _]. split_and!; [done|by eexists|].
      intros H1 H2. destruct (Hk H1 H2). split; [apply Hgone; [by eexists|done]|set_solver].
  - intros j u c k st Hj Hu. ins Hi Hj.
    + destruct (Hcl c k st Hu) as ([st0 Hv] & ? & ?). split_and!; [|done|done]. by eapply (e_clean _ _ _ _ _ _ _ _ I i v).
    + destruct (e_clean _ _ _ _ _ _ _ _ I j u c k st) as (Hd & (e & He & He') & Hs); [done..|]. split_and!; [done| |].
      * exists e. split; [|done]. rewrite Hfr; [done|]. intros c0 st0 Hv. match goal with H : j ≠ i |- _ => apply H end. by apply (e_uniq _ _ _ _ _ _ _ _ I j i u v c c0 k st st0).
      * eapply status_stays; eauto.
  - intros j j' u u' c c' k st st' Hj Hj' Hu Hu'. ins Hi Hj; ins Hi Hj'; try done.
    + destruct (Hcl _ _ _ Hu) as ([st0 Hv] & _). by apply (e_uniq _ _ _ _ _ _ _ _ I i j' v u' c c' k st0 st').
    + destruct (Hcl _ _ _ Hu') as ([st0 Hv] & _). by apply (e_uniq _ _ _ _ _ _ _ _ I j i u v c c' k st st0).
    + by apply (e_uniq _ _ _ _ _ _ _ _ I j j' u u' c c' k st st').
  - intros j u c k Hj Hu. ins Hi Hj; [|by eapply e_begun]. destruct (Hb c k Hu) as [?|?]; [|done]. by eapply (e_begun _ _ _ _ _ _ _ _ I i v).
  - intros j u c Hj Hc. assert (is_Some (deleted !! c) ∧ gone ns vs c ∧ pretty c ∈ revoked) as (Hd & Hg & Hr).
    { ins Hi Hj; [|by eapply e_cleaned]. destruct (Hcd c Hc) as [?|?]; [|done]. by eapply (e_cleaned _ _ _ _ _ _ _ _ I i v). }
    split_and!; [done|by apply Hgone|set_solver].
Qed.

(** An access that is not about cleanups. *)
Lemma clean_other trs' next' :
  (∀ d tr, trs' !! d = Some tr → trs !! d = Some tr ∨ deleted !! tr_ChannelID tr = None) → (next ≤ next')%nat →
  v_clean v' = v_clean v → v_begun v' = v_begun v → v_cleaned v' = v_cleaned v →
  InvClean ns' trs' deleted cleanups next' revoked' own (<[i := v']> vs).
Proof using All.
  intros Htr Hn Hcl Hb Hcd. apply clean_step; try done; [by left| | |].
  - intros c k st' Hst. rewrite Hcl in Hst. destruct (e_clean _ _ _ _ _ _ _ _ I i v c k st' Hi Hst) as (Hd & He & Hs).
    split_and!; [by eexists|done|]. eapply status_stays; eauto.
  - intros c k. rewrite Hb. by left.
  - intros c. rewrite Hcd. by left.
Qed.

End clean.

(** ** Beginning, forking and starting *)

Section begin_cleanup.
Context (ns : gmap path fnode) (trs : gmap (list byte) transfer) (deleted : gmap Z nat) (cleanups : gmap nat channelCleanup).
Context (next : nat) (revoked : gset string) (own : gmap nat Z) (vs : list clean_view_t).
Context (I : InvClean ns trs deleted cleanups next revoked own vs).
Context (i : nat) (v : clean_view_t) (Hi : vs !! i = Some v) (c : Z).

(** The views keep what [gone] reads. *)
Lemma gone_views v' c' :
  v_ok v' = v_ok v → v_active v' = v_active v → gone ns vs c' → gone ns (<[i := v']> vs) c'.
Proof using Hi.
  intros Hok Hact (Hu & Ho & He). split_and!; [| |done].
  - intros j u a Hj Hua. ins Hi Hj; [|by eapply Hu]. rewrite Hact in Hua. by eapply Hu.
  - intros j u Hj. ins Hi Hj; [|by eapply Ho]. rewrite Hok. by eapply Ho.
Qed.

Lemma status_views v' c' st :
  v_ok v' = v_ok v → v_active v' = v_active v → status_ok ns vs c' st → status_ok ns (<[i := v']> vs) c' st.
Proof using Hi.
  intros Hok Hact. assert (∀ j u a, <[i := v']> vs !! j = Some u → v_active u = Some a → ∃ u', vs !! j = Some u' ∧ v_active u' = Some a) as Hold.
  { intros j u a Hj Hu. ins Hi Hj; [|by eauto]. rewrite Hact in Hu. eauto. }
  destruct st as [ws| |[e|]]; cbn; [|by apply gone_views| |by apply gone_views].
  - intros Hw j u a Hj Hua Hc. destruct (Hold j u a Hj Hua) as (u' & ? & ?). by eapply Hw.
  - intros Hw j u a Hj Hua Hc. destruct (Hold j u a Hj Hua) as (u' & ? & ?). by eapply Hw.
Qed.

(** A first cleanup, or one after a failed one. *)
Lemma clean_begin_fresh active :
  v_clean v = None →
  (∀ k, deleted !! c = Some k → ∃ e, cleanups !! k = Some (mkCleanup true (Some e))) →
  (∀ j u a, vs !! j = Some u → v_active u = Some a → at_channelID a = c → at_done a ∈ (at_done <$> (active : list activeTransfer))) →
  InvClean ns (filter (λ e, tr_ChannelID e.2 ≠ c) trs) (<[c := next]> deleted) (<[next := mkCleanup false None]> cleanups) (S next) revoked
    (<[next := c]> own)
    (<[i := mkCV (v_ok v) (v_active v) (Some (c, next, CWait (at_done <$> active))) (Some (c, next)) (v_cleaned v)]> vs).
Proof using All.
  intros Hcl Hfail Hact. set (v' := mkCV _ _ _ _ _).
  assert (∀ k, is_Some (own !! k) → k ≠ next) as Hfr. { intros k [c' Hk] ->. pose proof (e_own _ _ _ _ _ _ _ _ I _ _ Hk). lia. }
  assert (∀ k, is_Some (cleanups !! k) → k ≠ next) as Hfc.
  { intros k [cc Hk]. destruct (e_cleanup _ _ _ _ _ _ _ _ I k cc Hk) as (c' & Ho & _). apply Hfr. by eexists. }
  assert (∀ c', gone ns vs c' → gone ns (<[i := v']> vs) c') as Hgone by (intros c'; by apply gone_views).
  split.
  - intros d tr [Hd Hne]%map_lookup_filter_Some. cbn in Hne. rewrite lookup_insert_ne by congruence. by eapply e_tr.
  - intros c' k. rewrite lookup_insert_Some. intros [[<- <-]|[Hne Hk]].
    + rewrite !lookup_insert_eq. by split.
    + destruct (e_deleted _ _ _ _ _ _ _ _ I c' k Hk) as [Ho Hc]. by rewrite !lookup_insert_ne by (symmetry; auto).
  - intros k c'. rewrite lookup_insert_Some. intros [[<- _]|[_ Hk]]; [lia|]. pose proof (e_own _ _ _ _ _ _ _ _ I _ _ Hk). lia.
  - intros k cc. rewrite lookup_insert_Some. intros [[<- <-]|[Hne Hk]].
    + exists c. rewrite !lookup_insert_eq. by split_and!.
    + destruct (e_cleanup _ _ _ _ _ _ _ _ I k cc Hk) as (c' & Ho & Hd & Hg). exists c'. rewrite lookup_insert_ne by done.
      split_and!; [done| |].
      * destruct (decide (c' = c)) as [->|]; [by rewrite lookup_insert_eq|by rewrite lookup_insert_ne].
      * intros H1 H2. destruct (Hg H1 H2). split; [by apply Hgone|done].
  - intros j u c' k st Hj Hu. ins Hi Hj.
    + injection Hu as <- <- <-. rewrite !lookup_insert_eq. split_and!; [done| |].
      * exists None. by split.
      * intros j u a Hj' Hua Hc. ins Hi Hj'; by eapply Hact.
    + destruct (e_clean _ _ _ _ _ _ _ _ I j u c' k st) as (Hd & (e & He & He') & Hs); [done..|].
      assert (c' ≠ c) as Hne. { intros ->. destruct (Hfail k Hd) as [e0 He0]. congruence. }
      rewrite !lookup_insert_ne by (done || (symmetry; apply Hfc; by eexists)). split_and!; [done|by exists e|by apply status_views].
  - intros j j' u u' c1 c2 k st st' Hj Hj' Hu Hu'.
    assert (∀ j u c1 st, j ≠ i → vs !! j = Some u → v_clean u = Some (c1, next, st) → False) as Hno.
    { intros j0 u0 c0 st0 _ Hj0 Hu0. destruct (e_clean _ _ _ _ _ _ _ _ I j0 u0 c0 next st0 Hj0 Hu0) as (_ & (e & He & _) & _).
      apply (Hfc next); [by eexists|done]. }
    ins Hi Hj; ins Hi Hj'; try done.
    + injection Hu as <- <- <-. exfalso. by eapply Hno.
    + injection Hu' as <- <- <-. exfalso. by eapply Hno.
    + by apply (e_uniq _ _ _ _ _ _ _ _ I j j' u u' c1 c2 k st st').
  - intros j u c' k Hj Hu. ins Hi Hj; [injection Hu as <- <-; by rewrite !lookup_insert_eq|].
    destruct (e_begun _ _ _ _ _ _ _ _ I j u c' k) as [Ho Hd]; [done..|].
    split; [rewrite lookup_insert_ne; [done|]; symmetry; apply Hfr; by eexists|].
    destruct (decide (c' = c)) as [->|]; [by rewrite lookup_insert_eq|by rewrite lookup_insert_ne].
  - intros j u c' Hj Hc. assert (is_Some (deleted !! c') ∧ gone ns vs c' ∧ pretty c' ∈ revoked) as (Hd & Hg & Hr).
    { ins Hi Hj; [by eapply (e_cleaned _ _ _ _ _ _ _ _ I i v)|by eapply e_cleaned]. }
    split_and!; [|by apply Hgone|done]. destruct (decide (c' = c)) as [->|]; [by rewrite lookup_insert_eq|by rewrite lookup_insert_ne].
Qed.

(** A cleanup that runs or has succeeded. *)
Lemma clean_begin_again k :
  deleted !! c = Some k →
  InvClean ns (filter (λ e, tr_ChannelID e.2 ≠ c) trs) deleted cleanups next revoked own
    (<[i := mkCV (v_ok v) (v_active v) (v_clean v) (Some (c, k)) (v_cleaned v)]> vs).
Proof using All.
  intros Hk. eapply (clean_step ns trs deleted cleanups next revoked own vs I i v); try done; try (by left).
  - intros p n c' Hp Hin. left. eauto.
  - intros d tr [Hd _]%map_lookup_filter_Some. by left.
  - cbn. intros c' k' st' Hst. destruct (e_clean _ _ _ _ _ _ _ _ I i v c' k' st' Hi Hst) as (Hd & He & Hs).
    split_and!; [by eexists|done|by apply status_views].
  - cbn. intros c' k' [= <- <-]. right. split; [by apply (e_deleted _ _ _ _ _ _ _ _ I)|by eexists].
Qed.

(** The forked thread takes the cleanup over. *)
Lemma clean_fork :
  InvClean ns trs deleted cleanups next revoked own
    (<[i := mkCV (v_ok v) (v_active v) None (v_begun v) (v_cleaned v)]> vs ++ [mkCV ∅ None (v_clean v) None ∅]).
Proof using I Hi.
  set (v1 := mkCV _ _ None _ _). set (v2 := mkCV ∅ _ _ _ _). set (vs' := <[i := v1]> vs ++ [v2]).
  assert (∀ j u, vs' !! j = Some u → (j = i ∧ u = v1) ∨ (j ≠ i ∧ vs !! j = Some u) ∨ (j = length vs ∧ u = v2)) as Hl.
  { intros j u [Hj|[Hlen Hj]]%lookup_app_Some.
    - destruct (lookup_insert_split _ _ _ _ _ _ Hi Hj) as [?|?]; auto.
    - apply list_lookup_singleton_Some in Hj as [Hz <-]. rewrite length_insert in *. right. right. split; [lia|done]. }
  assert (i < length vs)%nat as Hlt by (by eapply lookup_lt_Some).
  assert (∀ c', gone ns vs c' → gone ns vs' c') as Hgone.
  { intros c' (Hu & Ho & He). split_and!; [| |done].
    - intros j u a [[_ ->]|[[_ Hj]|[_ ->]]]%Hl Hua; [by eapply (Hu i v)|by eapply Hu|done].
    - intros j u [[_ ->]|[[_ Hj]|[_ ->]]]%Hl; [by eapply (Ho i v)|by eapply Ho|cbn; set_solver]. }
  assert (∀ c' st, status_ok ns vs c' st → status_ok ns vs' c' st) as Hst.
  { intros c' [ws| |[e|]]; cbn; [|apply Hgone| |apply Hgone].
    - intros Hw j u a [[_ ->]|[[_ Hj]|[_ ->]]]%Hl Hua; [by eapply (Hw i v)|by eapply Hw|done].
    - intros Hw j u a [[_ ->]|[[_ Hj]|[_ ->]]]%Hl Hua; [by eapply (Hw i v)|by eapply Hw|done]. }
  split.
  - apply (e_tr _ _ _ _ _ _ _ _ I).
  - apply (e_deleted _ _ _ _ _ _ _ _ I).
  - apply (e_own _ _ _ _ _ _ _ _ I).
  - intros k cc Hk. destruct (e_cleanup _ _ _ _ _ _ _ _ I k cc Hk) as (c' & Ho & Hd & Hg). exists c'. split_and!; [done|done|].
    intros H1 H2. destruct (Hg H1 H2). auto.
  - intros j u c' k st [[_ ->]|[[_ Hj]|[_ ->]]]%Hl Hu; [done| |].
    + destruct (e_clean _ _ _ _ _ _ _ _ I j u c' k st Hj Hu) as (? & ? & ?). auto.
    + destruct (e_clean _ _ _ _ _ _ _ _ I i v c' k st Hi Hu) as (? & ? & ?). auto.
  - intros j j' u u' c1 c2 k st st' Hj Hj' Hu Hu'.
    destruct (Hl _ _ Hj) as [[_ ->]|[[Hne Hj1]|[Hj1 ->]]]; [done| |]; destruct (Hl _ _ Hj') as [[_ ->]|[[Hne' Hj1']|[Hj1' ->]]]; try done.
    + by apply (e_uniq _ _ _ _ _ _ _ _ I j j' u u' c1 c2 k st st').
    + exfalso. apply Hne. by apply (e_uniq _ _ _ _ _ _ _ _ I j i u v c1 c2 k st st').
    + exfalso. apply Hne'. by apply (e_uniq _ _ _ _ _ _ _ _ I j' i u' v c2 c1 k st' st).
    + congruence.
  - intros j u c' k [[_ ->]|[[_ Hj]|[_ ->]]]%Hl Hu; [by eapply (e_begun _ _ _ _ _ _ _ _ I i v)|by eapply e_begun|done].
  - intros j u c' Hj Hc. assert (is_Some (deleted !! c') ∧ gone ns vs c' ∧ pretty c' ∈ revoked) as (? & ? & ?); [|auto].
    destruct (Hl _ _ Hj) as [[_ ->]|[[_ Hj1]|[_ ->]]]; [by eapply (e_cleaned _ _ _ _ _ _ _ _ I i v)|by eapply e_cleaned|cbn in Hc; set_solver].
Qed.

End begin_cleanup.

Lemma clean_new ns trs deleted cleanups next revoked own vs :
  InvClean ns trs deleted cleanups next revoked own vs →
  InvClean ns trs deleted cleanups next revoked own (vs ++ [mkCV ∅ None None None ∅]).
Proof.
  intros I. set (v2 := mkCV ∅ _ _ _ _).
  assert (∀ j u, (vs ++ [v2]) !! j = Some u → vs !! j = Some u ∨ u = v2) as Hl.
  { intros j u [?|[_ Hj]]%lookup_app_Some; [by left|]. right. apply list_lookup_singleton_Some in Hj as [_ <-]. done. }
  assert (∀ c', gone ns vs c' → gone ns (vs ++ [v2]) c') as Hgone.
  { intros c' (Hu & Ho & He). split_and!; [| |done].
    - intros j u a [Hj| ->]%Hl Hua; [by eapply Hu|done].
    - intros j u [Hj| ->]%Hl; [by eapply Ho|cbn; set_solver]. }
  assert (∀ c' st, status_ok ns vs c' st → status_ok ns (vs ++ [v2]) c' st) as Hst.
  { intros c' [ws| |[e|]]; cbn; [|apply Hgone| |apply Hgone].
    - intros Hw j u a [Hj| ->]%Hl Hua; [by eapply Hw|done].
    - intros Hw j u a [Hj| ->]%Hl Hua; [by eapply Hw|done]. }
  split.
  - apply (e_tr _ _ _ _ _ _ _ _ I).
  - apply (e_deleted _ _ _ _ _ _ _ _ I).
  - apply (e_own _ _ _ _ _ _ _ _ I).
  - intros k cc Hk. destruct (e_cleanup _ _ _ _ _ _ _ _ I k cc Hk) as (c' & Ho & Hd & Hg). exists c'. split_and!; [done|done|].
    intros H1 H2. destruct (Hg H1 H2). auto.
  - intros j u c' k st [Hj| ->]%Hl Hu; [|done]. destruct (e_clean _ _ _ _ _ _ _ _ I j u c' k st Hj Hu) as (? & ? & ?). auto.
  - intros j j' u u' c1 c2 k st st' Hj Hj' Hu Hu'. pose proof (Hl _ _ Hj) as [H1| ->]; [|done]. pose proof (Hl _ _ Hj') as [H2| ->]; [|done].
    by apply (e_uniq _ _ _ _ _ _ _ _ I j j' u u' c1 c2 k st st').
  - intros j u c' k [Hj| ->]%Hl Hu; [by eapply e_begun|done].
  - intros j u c' [Hj| ->]%Hl Hc; [|cbn in Hc; set_solver]. destruct (e_cleaned _ _ _ _ _ _ _ _ I j u c' Hj Hc) as (? & ? & ?). auto.
Qed.

(** * A concrete file server

    An environment in which nothing fails, for the examples and the witnesses: the
    random bytes count the accesses, the digest of a file is its sum and length, an
    init frame carries two numbers that name token and transfer id. *)

Definition toy_le : relation string := λ a b, String.leb a b = true.
#[export] Instance toy_le_dec : RelDecision toy_le.
Proof. unfold toy_le. intros a b. apply _. Defined.
#[export] Instance toy_range : MapRange fileKey FileRow := stdpp_range.

(** 32 bytes, as of SHA-256. *)
Definition toy_sha (l : list byte) : list byte := (foldr Z.add 0 l) mod 256 :: Z.of_nat (length l) mod 256 :: replicate 30 0.

(** The random bytes of access [n] (among those that draw at most 16). *)
Definition toy_rnd (n : nat) : list byte := replicate n 1.

Definition toy_upper (s : string) : string :=
  String.string_of_list_ascii ((λ c, let n := nat_of_ascii c in if ((97 <=? n) && (n <=? 122))%nat then ascii_of_nat (n - 32) else c) <$> chars_of s).

Definition toy_with (io : nat → option nat) (db : nat → dbOutcome) (quotaMB maxMB : Z) : FileEnv := {|
  fe_io := io; fe_keep := λ _ _, true; fe_db := db; fe_now_db := Z.of_nat; fe_name_le := toy_le; fe_name_le_dec := _;
  fe_now := λ n, Z.of_nat n; fe_hour := λ _, 12; fe_rnd := λ n _, Some (toy_rnd n); fe_cancel := λ _, false; fe_send := λ _, true;
  fe_sha256 := toy_sha; fe_ToUpper := toy_upper;
  fe_init := λ l, match l with t :: i :: o :: _ => Some (hex (toy_rnd (Z.to_nat t)), hex (toy_rnd (Z.to_nat i)), o) | _ => None end;
  fe_digest := λ l, Some (hex l); fe_digest_out := bytes_of_string;
  fe_status_out := λ e, match e with None => [1] | Some _ => [0] end;
  fe_config := {| fc_MaxKBps := 0; fc_QuietStart := 0; fc_QuietEnd := 0; fc_ChannelQuotaMB := quotaMB; fc_MaxSizeMB := maxMB; fc_maxLinks := 4096%nat |};
|}.
Definition toy : FileEnv := toy_with (λ _, None) (λ _, DbOk) 0 100.

Lemma toy_file_laws io db q m : FileLaws (toy_with io db q m).
Proof.
  split; cbn.
  - intros n k b [= <-]. unfold toy_rnd. apply Forall_replicate. unfold is_byte. lia.
  - intros n m' b [= <-] [= Heq]. unfold toy_rnd in Heq. apply (f_equal length) in Heq. by rewrite !length_replicate in Heq.
Qed.

(** The frames of an upload with the given token and id. *)
Definition toy_frame (ty : Z) (payload : list byte) : option Frame := Some {| fr_Type := ty; fr_Payload := payload |}.
Definition toy_upload (token id : Z) (data : list byte) : list (option Frame) :=
  [toy_frame frameInit [token; id; 0]; toy_frame frameChunk data; toy_frame frameDigest (toy_sha data)].
