(* ===== verification/FileBytes.v ===== *)
(** * The bytes of a transfer

    What one connection reads and writes while nothing disturbs it ([run_alone]):
    a download sends exactly the blob, or an error. *)

From Stdlib Require Import Ascii.
From stdpp Require Import pretty.
From S2P Require Import Prelude ChatText GoStrings Wire GoState ChatKeys AuthService FileNames FileStore FileWorld FileTransfer FileThreads FileDisc FileSafety.

Section alone.
Context (E : FileEnv).

Lemma run_alone_bind {A B : Type} (m : prog A) (k : A → prog B) w :
  run_alone E (prog_bind m k) w = match run_alone E m w with Some (w', a) => run_alone E (k a) w' | None => None end.
Proof.
  revert w k. induction m as [A a|A B' e f IH|A c _ m IH]; intros w k; cbn.
  - done.
  - destruct (exec E e w) as [[w' b]|]; [apply IH|done].
  - destruct (run_alone E c w) as [[w' u]|]; [apply IH|done].
Qed.

End alone.

(** The content of the regular file a path leads to. *)
Definition file_at (s : FS) (p : path) : option (list byte) :=
  match p, fs_nodes s !! p with _ :: _, Some (FReg i) => Some (default [] (fs_data s !! i)) | _, _ => None end.
Definition blob_at (w : FW) (name : string) : option (list byte) :=
  match resolve name with Ok p => file_at (fw_fs w) p | Err _ => None end.

Definition sent_to (w : FW) (conn : nat) : list Frame := match fw_conns w !! conn with Some c => cn_out c | None => [] end.
Definition chunk_frame (chunk : list byte) : Frame := {| fr_Type := frameChunk; fr_Payload := chunk |}.

(** ** Downloads *)

Lemma take_length_drop {A} n (l : list A) : l = take n l ++ drop (length (take n l)) l.
Proof.
  rewrite length_take. destruct (Nat.le_gt_cases n (length l)); [rewrite Nat.min_l by done; by rewrite take_drop|].
  rewrite Nat.min_r, drop_all, app_nil_r by lia. by rewrite take_ge by lia.
Qed.

Section download.
Context (E : FileEnv).

(** Handle [h] stands at [off] in inode [i]. *)
Definition stands (s : FS) (h i off : nat) : Prop := fs_handles s !! h = Some (mkHandle (Some i) off).

Lemma exec_ReadFile h n w w' r i off :
  exec E (ReadFile h n) w = Some (w', r) → stands (fw_fs w) h i off →
  fs_data (fw_fs w') = fs_data (fw_fs w) ∧ fw_conns w' = fw_conns w ∧ fs_nodes (fw_fs w') = fs_nodes (fw_fs w) ∧
  match r with
  | Ok b => b = take n (drop off (default [] (fs_data (fw_fs w) !! i))) ∧ stands (fw_fs w') h i (off + length b)
  | Err _ => fe_io E (S (fw_calls w)) ≠ None ∧ stands (fw_fs w') h i off
  end.
Proof.
  unfold exec, sys, fs_read, stands. cbn. intros He Hh. destruct (fe_io E (S (fw_calls w))) as [k|]; [by simplify_eq/=|].
  rewrite Hh in He. simplify_eq/=. split_and!; try done. by rewrite lookup_insert_eq.
Qed.

Lemma exec_SendFrame conn f w w' (b : bool) :
  exec E (SendFrame conn f) w = Some (w', b) →
  fw_fs w' = fw_fs w ∧ sent_to w' conn = if b then sent_to w conn ++ [f] else sent_to w conn.
Proof.
  unfold exec, send, yes, sent_to. cbn. destruct (fw_conns w !! conn) as [c|] eqn:Hc; cbn; [|intros; simplify_eq/=; by rewrite Hc].
  destruct (cn_closed c || _ || _); intros; simplify_eq/=; split; try done; [by rewrite Hc|by rewrite lookup_insert_eq].
Qed.

Lemma run_limiter_wait lim n w w' r :
  run_alone E (limiter_wait lim n) w = Some (w', r) → fw_fs w' = fw_fs w ∧ fw_conns w' = fw_conns w.
Proof. unfold limiter_wait. destruct lim; [destruct (n =? 0)%nat|]; cbn; intros; by simplify_eq/=. Qed.

Lemma send_loop_exact fuel conn h lim hashed w w' r i off :
  run_alone E (send_loop fuel conn h lim hashed) w = Some (w', r) → stands (fw_fs w) h i off →
  let content := default [] (fs_data (fw_fs w) !! i) in
  ∃ chunks, sent_to w' conn = sent_to w conn ++ (chunk_frame <$> chunks) ∧
    Forall (λ c, c ≠ [] ∧ (length c ≤ chunkSize)%nat) chunks ∧ concat chunks `prefix_of` drop off content ∧
    ∀ all, r = Ok all → concat chunks = drop off content ∧ all = hashed ++ drop off content.
Proof.
  revert hashed w w' r off. induction fuel as [|fuel IH]; intros hashed w w' r off; cbn [send_loop run_alone].
  { intros [= <- <-] _. exists []. rewrite app_nil_r. split_and!; [done|done|apply prefix_nil|done]. }
  destruct (exec E (ReadFile h chunkSize) w) as [[w1 b]|] eqn:Hr; [|done]. intros Hrun Hst.
  destruct (exec_ReadFile _ _ _ _ _ _ _ Hr Hst) as (Hd & Hc & _ & Hb). cbv zeta.
  assert (sent_to w1 conn = sent_to w conn) as Hs by (unfold sent_to; by rewrite Hc).
  destruct b as [b|e]; cycle 1.
  { cbn in Hrun. injection Hrun as <- <-. exists []. rewrite app_nil_r. split_and!; [done|done|apply prefix_nil|done]. }
  destruct Hb as [Hb Hst1]. set (content := default [] (fs_data (fw_fs w) !! i)) in *.
  destruct b as [|x b].
  { cbn in Hrun. injection Hrun as <- <-. exists []. rewrite app_nil_r. split_and!; [done|done|apply prefix_nil|]. intros all [= <-].
    assert (drop off content = []) as ->; [|by rewrite app_nil_r]. destruct (drop off content); done. }
  cbn [run_alone] in Hrun. destruct (exec E (SendFrame conn _) w1) as [[w2 ok]|] eqn:Hsend; [|done].
  destruct (exec_SendFrame _ _ _ _ _ Hsend) as [Hf2 Hs2].
  assert (length (x :: b) ≤ chunkSize)%nat as Hlen by (rewrite Hb; apply firstn_le_length).
  assert (drop off content = (x :: b) ++ drop (off + length (x :: b)) content) as Hsplit.
  { rewrite <- drop_drop. clear -Hb. revert Hb. generalize (drop off content). generalize (x :: b). intros b' d ->. apply take_length_drop. }
  destruct ok; cycle 1.
  { cbn in Hrun. injection Hrun as <- <-. exists []. rewrite app_nil_r, Hs2. split_and!; [done|done|apply prefix_nil|done]. }
  rewrite run_alone_bind in Hrun. destruct (run_alone E (limiter_wait lim _) w2) as [[w3 lr]|] eqn:Hl; [|done].
  destruct (run_limiter_wait _ _ _ _ _ Hl) as [Hf3 Hc3].
  assert (sent_to w3 conn = sent_to w conn ++ [chunk_frame (x :: b)]) as Hs3 by (unfold sent_to; rewrite Hc3; fold (sent_to w2 conn); by rewrite Hs2, Hs).
  destruct lr as [[]|e]; cycle 1.
  { cbn in Hrun. injection Hrun as <- <-. exists [x :: b]. split_and!; [done|by constructor| |done]. cbn [concat]. rewrite app_nil_r, Hsplit. by apply prefix_app_r. }
  assert (stands (fw_fs w3) h i (off + length (x :: b))) as Hst3 by (by rewrite Hf3, Hf2).
  destruct (IH _ _ _ _ _ Hrun Hst3) as (chunks & Hout & Hall & Hpre & Hok). rewrite Hf3, Hf2, Hd in Hpre, Hok. fold content in Hpre, Hok.
  exists ((x :: b) :: chunks). split_and!.
  - rewrite Hout, Hs3. cbn [fmap list_fmap]. by rewrite <- app_assoc.
  - by constructor.
  - cbn [concat]. rewrite Hsplit. destruct Hpre as [k ->]. exists k. by rewrite <- app_assoc.
  - intros all Heq. destruct (Hok all Heq) as [H1 ->]. cbn [concat]. rewrite Hsplit, H1. by rewrite <- !app_assoc.
Qed.

Lemma hash_prefix_exact fuel h n hashed w w' r i off :
  run_alone E (hash_prefix fuel h n hashed) w = Some (w', r) → stands (fw_fs w) h i off →
  let content := default [] (fs_data (fw_fs w) !! i) in
  fs_data (fw_fs w') = fs_data (fw_fs w) ∧ fw_conns w' = fw_conns w ∧
  ∀ all, r = Ok all → all = hashed ++ take n (drop off content) ∧ (n ≤ length (drop off content))%nat ∧ stands (fw_fs w') h i (off + n).
Proof.
  revert n hashed w w' r off. induction fuel as [|fuel IH]; intros n hashed w w' r off Hrun Hst; cbv zeta.
  all: cbn [hash_prefix] in Hrun; destruct (n =? 0)%nat eqn:Hn;
    [apply Nat.eqb_eq in Hn as ->; cbn in Hrun; injection Hrun as <- <-; split_and!; [done|done|];
     intros all [= <-]; cbn; rewrite app_nil_r, Nat.add_0_r; split_and!; [done|lia|done]|].
  { cbn in Hrun. by injection Hrun as <- <-. }
  apply Nat.eqb_neq in Hn. cbn [run_alone] in Hrun.
  destruct (exec E (ReadFile h _) w) as [[w1 b]|] eqn:Hr; [|done].
  destruct (exec_ReadFile _ _ _ _ _ _ _ Hr Hst) as (Hd & Hc & _ & Hb).
  destruct b as [[|x b]|e]; [cbn in Hrun; injection Hrun as <- <-; by split_and!| |cbn in Hrun; injection Hrun as <- <-; by split_and!].
  destruct Hb as [Hb Hst1]. set (content := default [] (fs_data (fw_fs w) !! i)) in *.
  assert (length (x :: b) ≤ n)%nat as Hlen by (rewrite Hb, length_take; lia).
  destruct (IH _ _ _ _ _ _ Hrun Hst1) as (Hd' & Hc' & Hok). rewrite Hd in Hok. fold content in Hok.
  split_and!; [by rewrite Hd'|by rewrite Hc'|]. intros all Heq. destruct (Hok all Heq) as (-> & Hle & Hst').
  assert (drop off content = (x :: b) ++ drop (off + length (x :: b)) content) as Hsplit.
  { rewrite <- drop_drop. clear -Hb. revert Hb. generalize (drop off content). generalize (x :: b). intros b' d ->. apply take_length_drop. }
  rewrite Hsplit, length_app. split_and!.
  - rewrite <- app_assoc. f_equal. rewrite take_app. f_equal. by rewrite take_ge.
  - lia.
  - by replace (off + n)%nat with (off + length (x :: b) + (n - length (x :: b)))%nat by lia.
Qed.

(** Nothing of the files themselves or of a connection changes. *)
Record readonly (w w' : FW) : Prop := {
  ro_nodes : fs_nodes (fw_fs w') = fs_nodes (fw_fs w);
  ro_data : fs_data (fw_fs w') = fs_data (fw_fs w);
  ro_conns : fw_conns w' = fw_conns w;
  ro_db : fw_db w' = fw_db w;
}.

#[local] Instance readonly_trans : Transitive readonly.
Proof. intros w1 w2 w3 [] []. split; congruence. Qed.
#[local] Instance readonly_refl : Reflexive readonly.
Proof. by split. Qed.

(** An access that only looks. *)
Ltac looks := intros; unfold exec, sys, sys_close, fs_stat, fs_close, at_, yes in *; repeat (case_match; simplify_eq/=); by split.

Lemma exec_Lstat name w w' r : exec E (Lstat name) w = Some (w', r) →
  readonly w w' ∧ (r = Ok true → ∃ p i, resolve name = Ok p ∧ p ≠ [] ∧ fs_nodes (fw_fs w) !! p = Some (FReg i)).
Proof.
  unfold exec, sys, at_, fs_lstat. cbn. destruct (fe_io E _); [by intros; simplify_eq/=|]. destruct (resolve name) as [p|e] eqn:Hp; cbn; [|by intros; simplify_eq/=].
  case_bool_decide; [by intros; simplify_eq/=|]. destruct (fs_nodes (fw_fs w) !! p) as [[]|] eqn:Hn; intros; simplify_eq/=; split; try done. eauto.
Qed.

Lemma exec_OpenFile name w w' r p i : exec E (OpenFile name) w = Some (w', r) →
  resolve name = Ok p → p ≠ [] → fs_nodes (fw_fs w) !! p = Some (FReg i) → readonly w w' ∧ ∀ h, r = Ok h → stands (fw_fs w') h i 0.
Proof.
  unfold exec, sys, at_, fs_open. cbn. intros He Hp Hne Hn. destruct (fe_io E _); [by simplify_eq/=|]. rewrite Hp in He. cbn in He.
  rewrite bool_decide_false in He by done. cbn in He. rewrite Hn in He. simplify_eq/=. split; [by split|].
  intros h [= <-]. unfold stands. cbn. by rewrite lookup_insert_eq.
Qed.

Lemma exec_StatFile h w w' r : exec E (StatFile h) w = Some (w', r) → readonly w w' ∧ fs_handles (fw_fs w') = fs_handles (fw_fs w).
Proof. unfold exec, sys, fs_stat. cbn. intros. repeat (case_match; simplify_eq/=); by split. Qed.

Lemma exec_CloseFile h w w' r : exec E (CloseFile h) w = Some (w', r) → readonly w w'.
Proof. unfold exec, sys_close, fs_close. cbn. intros. repeat (case_match; simplify_eq/=); by split. Qed.

Lemma run_openRegularBlob name w w' r : run_alone E (openRegularBlob name) w = Some (w', r) →
  readonly w w' ∧ match r with
                  | Ok h => ∃ p i, resolve name = Ok p ∧ p ≠ [] ∧ fs_nodes (fw_fs w) !! p = Some (FReg i) ∧ stands (fw_fs w') h i 0
                  | Err _ => True
                  end.
Proof.
  unfold openRegularBlob. cbn [run_alone]. destruct (exec E (Lstat name) w) as [[w1 info]|] eqn:H1; [|done]. apply exec_Lstat in H1 as [R1 Hi].
  destruct info as [[|]|e]; cbn [run_alone]; [|intros [= <- <-]; by split..]. destruct (Hi eq_refl) as (p & i & Hp & Hne & Hn).
  destruct (exec E (OpenFile name) w1) as [[w2 f]|] eqn:H2; [|done]. rewrite <- (ro_nodes _ _ R1) in Hn.
  destruct (exec_OpenFile _ _ _ _ _ _ H2 Hp Hne Hn) as [R2 Hst]. rewrite (ro_nodes _ _ R1) in Hn.
  destruct f as [f|e]; cbn [run_alone]; [|intros [= <- <-]; split; [by transitivity w1|done]].
  destruct (exec E (StatFile f) w2) as [[w3 opened]|] eqn:H3; [|done]. apply exec_StatFile in H3 as [R3 Hh].
  assert (readonly w w3) as R by (transitivity w2; [by transitivity w1|done]).
  assert (∀ u, exec E (CloseFile f) w3 = Some u → readonly w u.1) as Hclose by (intros [w4 u] H4; transitivity w3; [done|by eapply exec_CloseFile]).
  destruct opened as [[[|] n]|e]; cbn [run_alone].
  - intros [= <- <-]. split; [done|]. exists p, i. split_and!; [done..|]. unfold stands. rewrite Hh. by apply Hst.
  - destruct (exec E (CloseFile f) w3) as [[w4 u]|] eqn:H4; [|done]. intros [= <- <-]. split; [|done]. by apply (Hclose (w4, u)).
  - destruct (exec E (CloseFile f) w3) as [[w4 u]|] eqn:H4; [|done]. intros [= <- <-]. split; [|done]. by apply (Hclose (w4, u)).
Qed.

Definition digest_frame (content : list byte) : Frame :=
  {| fr_Type := frameDigest; fr_Payload := fe_digest_out E (hex (fe_sha256 E content)) |}.

(** The frames of a download that has sent [chunks] of what comes after the offset:
    the digest only behind all of it. *)
Definition download_frames (content : list byte) (offset : Z) (chunks : list (list byte)) (frames : list Frame) : Prop :=
  Forall (λ c, c ≠ [] ∧ (length c ≤ chunkSize)%nat) chunks ∧
  concat chunks `prefix_of` drop (Z.to_nat offset) content ∧
  (frames = chunk_frame <$> chunks ∨
   frames = (chunk_frame <$> chunks) ++ [digest_frame content] ∧ concat chunks = drop (Z.to_nat offset) content).

Lemma download_nothing content offset : download_frames content offset [] [].
Proof. split_and!; [done|apply prefix_nil|by left]. Qed.

Lemma readonly_sent w w' conn : readonly w w' → sent_to w' conn = sent_to w conn.
Proof. intros R. unfold sent_to. by rewrite (ro_conns _ _ R). Qed.

Lemma resumed_prefix fuel h tr offset w w' r i :
  run_alone E (if 0 <? offset then if tr_Size tr <? offset then Ret (Err (FtError "resume offset is past the end"))
                                   else hash_prefix fuel h (Z.to_nat offset) []
               else Ret (Ok [])) w = Some (w', r) →
  stands (fw_fs w) h i 0 →
  let content := default [] (fs_data (fw_fs w) !! i) in
  fs_data (fw_fs w') = fs_data (fw_fs w) ∧ fw_conns w' = fw_conns w ∧
  ∀ all, r = Ok all → all = take (Z.to_nat offset) content ∧ stands (fw_fs w') h i (Z.to_nat offset).
Proof.
  destruct (0 <? offset) eqn:Ho; cycle 1.
  { cbn. intros [= <- <-] Hst. split_and!; [done..|]. intros all [= <-]. apply Z.ltb_ge in Ho. replace (Z.to_nat offset) with 0%nat by lia. done. }
  destruct (tr_Size tr <? offset); [cbn; by intros [= <- <-]|]. intros Hrun Hst. destruct (hash_prefix_exact _ _ _ _ _ _ _ _ _ Hrun Hst) as (Hd & Hc & Hok).
  split_and!; [done..|]. intros all Heq. destruct (Hok all Heq) as (-> & _ & Hst'). by rewrite drop_0.
Qed.

Lemma download_body_exact fuel conn h tr offset w w' r i :
  run_alone E (download_body E fuel conn h tr offset) w = Some (w', r) → stands (fw_fs w) h i 0 →
  let content := default [] (fs_data (fw_fs w) !! i) in
  ∃ chunks frames, sent_to w' conn = sent_to w conn ++ frames ∧ download_frames content offset chunks frames ∧
    (r = Ok () → frames = (chunk_frame <$> chunks) ++ [digest_frame content]).
Proof.
  unfold download_body, try_prog. rewrite run_alone_bind. intros Hrun Hst. cbv zeta.
  destruct (run_alone E (if 0 <? offset then _ else _) w) as [[w1 pre]|] eqn:H1; [|done].
  destruct (resumed_prefix _ _ _ _ _ _ _ _ H1 Hst) as (Hd1 & Hc1 & Hp). set (content := default [] (fs_data (fw_fs w) !! i)) in *.
  assert (sent_to w1 conn = sent_to w conn) as Hs1 by (unfold sent_to; by rewrite Hc1).
  destruct pre as [pre|e]; cycle 1.
  { cbn in Hrun. injection Hrun as <- <-. exists [], []. rewrite app_nil_r. split_and!; [done|apply download_nothing|done]. }
  destruct (Hp pre eq_refl) as [-> Hst1]. rewrite run_alone_bind in Hrun. unfold limiter_for in Hrun. cbn [run_alone] in Hrun.
  destruct (exec E Hour w1) as [[w2 hour]|] eqn:H2; [|done]. unfold exec, yes in H2. injection H2 as <- <-.
  rewrite run_alone_bind in Hrun. destruct (run_alone E (send_loop _ _ _ _ _) _) as [[w3 hashed]|] eqn:H3; [|done].
  destruct (send_loop_exact _ _ _ _ _ _ _ _ _ _ H3 Hst1) as (chunks & Hout & Hall & Hpre & Hok). cbn in Hout, Hpre, Hok. rewrite Hd1 in Hpre, Hok.
  fold content in Hpre, Hok. change (sent_to (put_calls (S (fw_calls w1)) w1) conn) with (sent_to w1 conn) in Hout. rewrite Hs1 in Hout.
  destruct hashed as [hashed|e]; cycle 1.
  { cbn in Hrun. injection Hrun as <- <-. exists chunks, (chunk_frame <$> chunks). split_and!; [done| |done]. split_and!; [done..|by left]. }
  destruct (Hok hashed eq_refl) as [Hc Hh]. rewrite take_drop in Hh. subst hashed. cbn [run_alone] in Hrun.
  destruct (exec E (SendFrame conn _) w3) as [[w4 ok]|] eqn:H4; [|done]. destruct (exec_SendFrame _ _ _ _ _ H4) as [_ Hs4].
  cbn in Hrun. injection Hrun as <- <-. destruct ok.
  - exists chunks, ((chunk_frame <$> chunks) ++ [digest_frame content]). rewrite Hs4, Hout, <- app_assoc. split_and!; [done| |done]. split_and!; [done..|by right].
  - exists chunks, (chunk_frame <$> chunks). rewrite Hs4. split_and!; [done| |done]. split_and!; [done..|by left].
Qed.

(** ** Without failures a download ends *)

Record calm : Prop := {
  calm_io : ∀ n, fe_io E n = None;
  calm_send : ∀ n, fe_send E n = true;
  calm_cancel : ∀ n, fe_cancel E n = false;
}.

Definition connected (w : FW) (conn : nat) : Prop := ∃ c, fw_conns w !! conn = Some c ∧ cn_closed c = false.

Section completes.
Context (C : calm).

Lemma calm_ReadFile h n w i off : stands (fw_fs w) h i off →
  let b := take n (drop off (default [] (fs_data (fw_fs w) !! i))) in
  ∃ w', exec E (ReadFile h n) w = Some (w', Ok b) ∧ fs_data (fw_fs w') = fs_data (fw_fs w) ∧ fw_conns w' = fw_conns w ∧
    stands (fw_fs w') h i (off + length b).
Proof using C.
  intros Hst. unfold exec, sys, fs_read. cbn. rewrite (calm_io C), Hst. cbn. eexists. split_and!; [done..|]. unfold stands. cbn. by rewrite lookup_insert_eq.
Qed.

Lemma calm_SendFrame conn f w : connected w conn → Z.of_nat (length (fr_Payload f)) ≤ MaxPayloadSize →
  ∃ w', exec E (SendFrame conn f) w = Some (w', true) ∧ fw_fs w' = fw_fs w ∧ connected w' conn.
Proof using C.
  intros (c & Hc & Ho) Hlen. unfold exec, send. cbn. rewrite Hc, Ho, (calm_send C). cbn. rewrite (proj2 (Z.ltb_ge _ _)) by done. cbn.
  eexists. split_and!; [done..|]. eexists. cbn. by rewrite lookup_insert_eq.
Qed.

Lemma calm_limiter_wait lim n w : ∃ w', run_alone E (limiter_wait lim n) w = Some (w', Ok ()) ∧ fw_fs w' = fw_fs w ∧ fw_conns w' = fw_conns w.
Proof using C. unfold limiter_wait. destruct lim; [destruct (n =? 0)%nat|]; cbn; rewrite ?(calm_cancel C); eauto. Qed.

Lemma take_progress {A} n (l : list A) : l ≠ [] → (0 < n)%nat → (length (drop (length (take n l)) l) < length l)%nat.
Proof. intros Hl Hn. rewrite length_drop, length_take. destruct l; [done|]. cbn. lia. Qed.

Lemma chunk_fits (b : list byte) : (length b ≤ chunkSize)%nat → Z.of_nat (length b) ≤ MaxPayloadSize.
Proof.
  intros H%inj_le. etrans; [exact H|]. unfold chunkSize, MaxPayloadSize, MaxFrameSize. rewrite Nat2Z.inj_mul. by vm_compute.
Qed.

Lemma send_loop_completes fuel conn h lim hashed w i off :
  connected w conn → stands (fw_fs w) h i off →
  let rest := drop off (default [] (fs_data (fw_fs w) !! i)) in
  (length rest < fuel)%nat →
  ∃ w', run_alone E (send_loop fuel conn h lim hashed) w = Some (w', Ok (hashed ++ rest)) ∧ connected w' conn ∧ is_Some (fs_handles (fw_fs w') !! h).
Proof using C.
  revert hashed w off. induction fuel as [|fuel IH]; intros hashed w off Hconn Hst; cbv zeta; [lia|]. intros Hlen. cbn [send_loop run_alone].
  destruct (calm_ReadFile h chunkSize w i off Hst) as (w1 & -> & Hd1 & Hc1 & Hst1).
  assert (connected w1 conn) as Hconn1 by (unfold connected; by rewrite Hc1).
  set (content := default [] (fs_data (fw_fs w) !! i)) in *. pose proof (take_length_drop chunkSize (drop off content)) as Hsplit.
  destruct (take chunkSize (drop off content)) as [|x b] eqn:Hb.
  { cbn. eexists. split_and!; [|done|by eexists]. do 3 f_equal. destruct (drop off content); [by rewrite app_nil_r|done]. }
  assert (length (x :: b) ≤ chunkSize)%nat as Hle by (rewrite <- Hb; apply firstn_le_length). cbn [run_alone].
  destruct (calm_SendFrame conn (chunk_frame (x :: b)) w1 Hconn1 (chunk_fits _ Hle)) as (w2 & Hs2 & Hf2 & Hconn2).
  unfold chunk_frame in Hs2. rewrite Hs2, run_alone_bind.
  destruct (calm_limiter_wait lim (length (x :: b)) w2) as (w3 & -> & Hf3 & Hc3).
  assert (connected w3 conn) as Hconn3 by (unfold connected; by rewrite Hc3).
  assert (stands (fw_fs w3) h i (off + length (x :: b))) as Hst3 by (by rewrite Hf3, Hf2).
  destruct (IH (hashed ++ x :: b) w3 _ Hconn3 Hst3) as (w4 & Hr & Hconn4 & Hh4).
  { rewrite Hf3, Hf2, Hd1. fold content. rewrite <- drop_drop. rewrite <- Hb.
    pose proof (take_progress chunkSize (drop off content)) as Hp. cut (length (drop off content) ≤ fuel)%nat; [|lia].
    intros. eapply Nat.lt_le_trans; [apply Hp|]; [destruct (drop off content); [by rewrite take_nil in Hb|done]|unfold chunkSize; lia|done]. }
  exists w4. split_and!; [|done..]. rewrite Hr, Hf3, Hf2, Hd1. fold content. do 3 f_equal. rewrite <- app_assoc. f_equal. rewrite <- drop_drop. symmetry. exact Hsplit.
Qed.

Lemma hash_prefix_completes fuel h n hashed w i off :
  stands (fw_fs w) h i off →
  let rest := drop off (default [] (fs_data (fw_fs w) !! i)) in
  (n ≤ length rest)%nat → (n ≤ fuel)%nat →
  ∃ w', run_alone E (hash_prefix fuel h n hashed) w = Some (w', Ok (hashed ++ take n rest)) ∧
    fs_data (fw_fs w') = fs_data (fw_fs w) ∧ fw_conns w' = fw_conns w ∧ stands (fw_fs w') h i (off + n).
Proof using C.
  revert n hashed w off. induction fuel as [|fuel IH]; intros n hashed w off Hst; cbv zeta; intros Hle Hfuel; cbn [hash_prefix].
  all: destruct (n =? 0)%nat eqn:Hn; [apply Nat.eqb_eq in Hn as ->; exists w; cbn; rewrite app_nil_r, Nat.add_0_r; by split_and!|apply Nat.eqb_neq in Hn].
  { lia. }
  set (content := default [] (fs_data (fw_fs w) !! i)) in *. cbn [run_alone].
  destruct (calm_ReadFile h (Nat.min n chunkSize) w i off Hst) as (w1 & -> & Hd1 & Hc1 & Hst1). fold content in Hst1 |- *.
  set (m := Nat.min n chunkSize) in *. assert (0 < m ≤ n)%nat as Hm by (unfold m, chunkSize; lia).
  assert (length (take m (drop off content)) = m) as Hlen by (rewrite length_take; lia).
  destruct (take m (drop off content)) as [|x b] eqn:Hb; [cbn in Hlen; lia|]. rewrite Hlen in *.
  destruct (IH (n - m)%nat (hashed ++ x :: b) w1 _ Hst1) as (w2 & Hr & Hd2 & Hc2 & Hst2); [rewrite Hd1; fold content; rewrite length_drop in *; lia|lia|].
  exists w2. split_and!; [|congruence..|by replace (off + n)%nat with (off + m + (n - m))%nat by lia].
  rewrite Hr, Hd1. fold content. do 3 f_equal. rewrite <- app_assoc. f_equal. rewrite <- Hb, <- drop_drop, take_take_drop. f_equal. lia.
Qed.

Lemma calm_openRegularBlob name w p i :
  resolve name = Ok p → p ≠ [] → fs_nodes (fw_fs w) !! p = Some (FReg i) →
  ∃ w' h, run_alone E (openRegularBlob name) w = Some (w', Ok h) ∧ readonly w w' ∧ stands (fw_fs w') h i 0.
Proof using C.
  intros Hp Hne Hn. unfold openRegularBlob. cbn [run_alone].
  assert (exec E (Lstat name) w = Some (put_fs (fw_fs w) (put_calls (S (fw_calls w)) w), Ok true)) as ->.
  { unfold exec, sys, at_, fs_lstat. cbn. by rewrite (calm_io C), Hp, bool_decide_false, Hn by done. }
  set (w1 := put_fs _ _). cbn [run_alone]. destruct (exec E (OpenFile name) w1) as [[w2 f]|] eqn:H2.
  - pose proof H2 as H2'. unfold exec, sys, at_, fs_open in H2'. cbn in H2'. rewrite (calm_io C), Hp, bool_decide_false, Hn in H2' by done. cbn in H2'. injection H2' as Hw <-.
    cbn [run_alone]. unfold exec, sys, fs_stat. subst w2. cbn. rewrite (calm_io C), lookup_insert_eq. cbn. eexists _, _. split; [done|]. split; [by split|].
    unfold stands. cbn. by rewrite lookup_insert_eq.
  - exfalso. unfold exec, sys, at_, fs_open in H2. cbn in H2. by rewrite (calm_io C), Hp, bool_decide_false, Hn in H2.
Qed.

Lemma download_body_completes fuel conn h tr offset w i :
  connected w conn → stands (fw_fs w) h i 0 →
  let content := default [] (fs_data (fw_fs w) !! i) in
  offset ≤ tr_Size tr → (Z.to_nat offset ≤ length content)%nat → (length content < fuel)%nat →
  Z.of_nat (length (fr_Payload (digest_frame content))) ≤ MaxPayloadSize →
  ∃ w', run_alone E (download_body E fuel conn h tr offset) w = Some (w', Ok ()) ∧ is_Some (fs_handles (fw_fs w') !! h).
Proof using C.
  intros Hconn Hst. cbv zeta. set (content := default [] (fs_data (fw_fs w) !! i)). intros Hsize Hoff Hfuel Hdig.
  unfold download_body, try_prog. rewrite run_alone_bind.
  assert (∃ w1, run_alone E (if 0 <? offset then if tr_Size tr <? offset then Ret (Err (FtError "resume offset is past the end"))
      else hash_prefix fuel h (Z.to_nat offset) [] else Ret (Ok [])) w = Some (w1, Ok (take (Z.to_nat offset) content)) ∧
      fs_data (fw_fs w1) = fs_data (fw_fs w) ∧ fw_conns w1 = fw_conns w ∧ stands (fw_fs w1) h i (Z.to_nat offset)) as (w1 & -> & Hd1 & Hc1 & Hst1).
  { destruct (0 <? offset) eqn:Ho; [|apply Z.ltb_ge in Ho; replace (Z.to_nat offset) with 0%nat by lia; eexists; by split_and!].
    rewrite (proj2 (Z.ltb_ge _ _)) by done. apply (hash_prefix_completes fuel h (Z.to_nat offset) [] w i 0 Hst); [by rewrite drop_0|lia]. }
  cbn [run_alone]. rewrite run_alone_bind. unfold limiter_for. cbn [run_alone]. unfold exec at 1, yes at 1. cbn [run_alone].
  rewrite run_alone_bind. set (w2 := put_calls _ w1).
  destruct (send_loop_completes fuel conn h (limiterFor (fe_hour E (fw_calls w1)) (fc_QuietStart (fe_config E)) (fc_QuietEnd (fe_config E)) (fc_MaxKBps (fe_config E)))
      (take (Z.to_nat offset) content) w2 i (Z.to_nat offset)) as (w3 & -> & Hconn3 & Hh3).
  - unfold connected, w2. cbn. by rewrite Hc1.
  - done.
  - unfold w2. cbn. rewrite Hd1. fold content. rewrite length_drop. lia.
  - change (fs_data (fw_fs w2)) with (fs_data (fw_fs w1)). rewrite Hd1. fold content. rewrite take_drop. cbn [run_alone].
    destruct (calm_SendFrame conn (digest_frame content) w3 Hconn3 Hdig) as (w4 & Hs4 & Hf4 & _). unfold digest_frame in Hs4. rewrite Hs4. cbn.
    exists w4. split; [done|]. by rewrite Hf4.
Qed.

End completes.

Lemma download_sends fuel conn tr offset w w' r :
  let name := blobPath (tr_ChannelID tr) (tr_Folder tr) (tr_Name tr) in
  let content := default [] (blob_at w name) in
  run_alone E (sendDownload E fuel conn tr offset) w = Some (w', r) →
  ∃ chunks frames, sent_to w' conn = sent_to w conn ++ frames ∧ download_frames content offset chunks frames ∧
    (r = Ok () → is_Some (blob_at w name) ∧ frames = (chunk_frame <$> chunks) ++ [digest_frame content]).
Proof.
  intros name content. unfold sendDownload, try_prog, io_error. fold name. rewrite !run_alone_bind. unfold trigger. cbn [run_alone].
  destruct (exec E OpenBlobRoot w) as [[w1 r1]|] eqn:H1; [|done].
  assert (readonly w w1) as R1 by (unfold exec, sys in H1; case_match; simplify_eq/=; by split).
  destruct r1 as [u|e]; cbn [run_alone result_map_err]; cycle 1.
  { intros [= <- <-]. exists [], []. rewrite app_nil_r, (readonly_sent _ _ conn R1). split_and!; [done|apply download_nothing|done]. }
  rewrite !run_alone_bind. destruct (run_alone E (openRegularBlob name) w1) as [[w2 f]|] eqn:H2; [|done].
  apply run_openRegularBlob in H2 as [R2 Hf]. destruct f as [f|e]; cbn [run_alone result_map_err]; cycle 1.
  { intros [= <- <-]. exists [], []. rewrite app_nil_r, (readonly_sent _ _ conn R2), (readonly_sent _ _ conn R1). split_and!; [done|apply download_nothing|done]. }
  destruct Hf as (p & i & Hp & Hne & Hn & Hst). rewrite (ro_nodes _ _ R1) in Hn.
  assert (blob_at w name = Some (default [] (fs_data (fw_fs w2) !! i))) as Hb.
  { unfold blob_at, file_at. rewrite Hp. destruct p; [done|]. by rewrite Hn, (ro_data _ _ R2), (ro_data _ _ R1). }
  rewrite run_alone_bind. destruct (run_alone E (download_body E fuel conn f tr offset) w2) as [[w3 r3]|] eqn:H3; [|done].
  destruct (download_body_exact _ _ _ _ _ _ _ _ _ H3 Hst) as (chunks & frames & Hs & Hfr & Hok). cbn [run_alone].
  destruct (exec E (CloseFile f) w3) as [[w4 cl]|] eqn:H4; [|done]. apply exec_CloseFile in H4. cbn. intros [= <- <-]. exists chunks, frames.
  unfold content. rewrite Hb. cbn. rewrite (readonly_sent _ _ conn H4), Hs, (readonly_sent _ _ conn R2), (readonly_sent _ _ conn R1).
  split_and!; [done..|]. destruct r3 as [[]|e]; [|done]. intros _. split; [by eexists|]. by apply Hok.
Qed.

Lemma download_ends fuel conn tr offset w :
  let name := blobPath (tr_ChannelID tr) (tr_Folder tr) (tr_Name tr) in
  let content := default [] (blob_at w name) in
  calm → connected w conn → is_Some (blob_at w name) → offset ≤ tr_Size tr → (Z.to_nat offset ≤ length content)%nat →
  (length content < fuel)%nat → Z.of_nat (length (fr_Payload (digest_frame content))) ≤ MaxPayloadSize →
  ∃ w', run_alone E (sendDownload E fuel conn tr offset) w = Some (w', Ok ()).
Proof.
  intros name content C Hconn [c Hb] Hsize Hoff Hfuel Hdig. unfold content in *. rewrite Hb in *. cbn [default] in *. unfold blob_at, file_at in Hb.
  destruct (resolve name) as [[|x p]|] eqn:Hp; [done| |done]. destruct (fs_nodes (fw_fs w) !! (x :: p)) as [[|i|]|] eqn:Hn; [done| |done|done]. injection Hb as Hb.
  unfold sendDownload, try_prog, io_error. fold name. rewrite !run_alone_bind. unfold trigger. cbn [run_alone].
  assert (exec E OpenBlobRoot w = Some (put_fs (fw_fs w) (put_calls (S (fw_calls w)) w), Ok ())) as -> by (unfold exec, sys; cbn; by rewrite (calm_io C)).
  cbn [run_alone result_map_err]. rewrite !run_alone_bind. set (w1 := put_fs _ _).
  destruct (calm_openRegularBlob C name w1 (x :: p) i Hp) as (w2 & f & -> & R2 & Hst); [done..|]. cbn [run_alone result_map_err]. rewrite run_alone_bind.
  destruct (download_body_completes C fuel conn f tr offset w2 i) as (w3 & -> & [hd Hh]).
  - unfold connected. by rewrite (ro_conns _ _ R2).
  - done.
  - done.
  - rewrite (ro_data _ _ R2). cbn. by rewrite Hb.
  - rewrite (ro_data _ _ R2). cbn. by rewrite Hb.
  - rewrite (ro_data _ _ R2). cbn. by rewrite Hb.
  - cbn [run_alone]. unfold exec, sys_close, fs_close. cbn. rewrite Hh, (calm_io C). cbn. by eexists.
Qed.

(** C19: a download sends the bytes of the blob from the offset on, in order, in
    chunks of at most 32 KiB, and behind all of them, and only then, the digest of
    the whole blob; whatever fails, nothing else is sent. Without failures, with the
    blob there and the offset inside it, it completes. *)
Theorem download_exact fuel conn tr offset w :
  let name := blobPath (tr_ChannelID tr) (tr_Folder tr) (tr_Name tr) in
  let content := default [] (blob_at w name) in
  (∀ w' r, run_alone E (sendDownload E fuel conn tr offset) w = Some (w', r) →
     ∃ chunks frames, sent_to w' conn = sent_to w conn ++ frames ∧ download_frames content offset chunks frames ∧
       (r = Ok () → is_Some (blob_at w name) ∧ frames = (chunk_frame <$> chunks) ++ [digest_frame content])) ∧
  (calm → connected w conn → is_Some (blob_at w name) → offset ≤ tr_Size tr → (Z.to_nat offset ≤ length content)%nat →
     (length content < fuel)%nat → Z.of_nat (length (fr_Payload (digest_frame content))) ≤ MaxPayloadSize →
     ∃ w', run_alone E (sendDownload E fuel conn tr offset) w = Some (w', Ok ())).
Proof. intros name content. split; [intros w' r; apply download_sends|apply download_ends]. Qed.

End download.

(** A blob of five bytes, downloaded from the third on. *)
Definition download_world : FW :=
  mkFW (mkFS {[ ["7"] := FDir; ["7"; "x"] := FReg 0 ]} {[0%nat := [1; 2; 3; 4; 5]]} ∅ 1) (mkFileDB ∅ {[7]} 1 0)
    ∅ ∅ ∅ 0 ∅ ∅ 0 false (mkRegistry ∅ ∅ ∅) false {[0%nat := mkFConn [] [] false]} 0.
Definition download_transfer : transfer := mkTransfer "id" "token" "download" 7 "" "x" 5 "" 0.

Lemma download_exact_witness :
  ∃ w' chunks, run_alone toy (sendDownload toy 6 0 download_transfer 2) download_world = Some (w', Ok ()) ∧
    concat chunks = [3; 4; 5] ∧ sent_to w' 0 = (chunk_frame <$> chunks) ++ [digest_frame toy [1; 2; 3; 4; 5]].
Proof.
  assert (blob_at download_world (blobPath 7 "" "x") = Some [1; 2; 3; 4; 5]) as Hb by (vm_compute; reflexivity).
  destruct (download_exact toy 6 0 download_transfer 2 download_world) as [Hex Hend]. cbn [tr_ChannelID tr_Folder tr_Name download_transfer] in *.
  rewrite Hb in Hex, Hend. destruct Hend as [w' Hr]; [by split|by eexists|by eexists|done|cbn; lia|cbn; lia|by vm_compute|].
  destruct (Hex w' (Ok ()) Hr) as (chunks & frames & Hs & (_ & _ & Hf) & Hok). destruct (Hok eq_refl) as [_ Hfr].
  exists w', chunks. split; [exact Hr|]. rewrite Hs, Hfr. split; [|reflexivity].
  destruct Hf as [Hf|[_ Hf]]; [|exact Hf]. rewrite Hfr in Hf. apply (f_equal length) in Hf. rewrite length_app in Hf. cbn in Hf. lia.
Defined.
