(* ===== verification/FileUploads.v ===== *)
(** * Uploads refine a versioned store

    What the file port keeps, seen as a map from channel, folder and name to a row
    and a content: an upload that is served undisturbed and without failures gives
    the name the new content and shifts what it had to the versions, whatever blobs
    are shared on disk. *)

From Stdlib Require Import Ascii.
From stdpp Require Import pretty.
From S2P Require Import Prelude ChatText GoStrings Wire GoState ChatKeys AuthService FileNames FileStore FileWorld FileTransfer FileThreads FileDisc FileSafety FileBytes.

(** ** The abstract store *)

Definition kpath (k : fileKey) : path := blob_comps k.1.1 k.1.2 k.2.

Definition content_at (nodes : gmap path fnode) (data : gmap nat (list byte)) (p : path) : option (list byte) :=
  match nodes !! p with Some (FReg i) => data !! i | _ => None end.

(** The row and the content of a file. *)
Definition file_of (rows : gmap fileKey FileRow) (nodes : gmap path fnode) (data : gmap nat (list byte)) (k : fileKey) : option (FileRow * list byte) :=
  match rows !! k, content_at nodes data (kpath k) with Some r, Some b => Some (r, b) | _, _ => None end.

Definition files_of (w : FW) : fileKey → option (FileRow * list byte) :=
  file_of (fd_files (fw_db w)) (fs_nodes (fw_fs w)) (fs_data (fw_fs w)).

(** ** Runs without failures *)

Section wp.
Context (E : FileEnv).

Definition wp {A : Type} (m : prog A) (Q : A → FW → Prop) (w : FW) : Prop := ∃ w' a, run_alone E m w = Some (w', a) ∧ Q a w'.

Lemma wp_ret {A : Type} (a : A) (Q : A → FW → Prop) w : Q a w → wp (Ret a) Q w.
Proof. intros HQ. by exists w, a. Qed.

Lemma wp_bind {A B : Type} (m : prog A) (k : A → prog B) (Q : B → FW → Prop) w : wp m (λ a, wp (k a) Q) w → wp (prog_bind m k) Q w.
Proof. intros (w1 & a & Hm & w2 & b & Hk & HQ). exists w2, b. by rewrite run_alone_bind, Hm. Qed.

Lemma wp_mono {A : Type} (m : prog A) (Q Q' : A → FW → Prop) w : wp m Q w → (∀ a w', Q a w' → Q' a w') → wp m Q' w.
Proof. intros (w' & a & Hm & HQ) Hi. exists w', a. split; [done|by apply Hi]. Qed.

Definition does {B} (e : act B) (Q : B → FW → Prop) (w : FW) : Prop := ∃ w' b, exec E e w = Some (w', b) ∧ Q b w'.

Lemma wp_vis {A B : Type} (e : act B) (k : B → prog A) (Q : A → FW → Prop) w : does e (λ b, wp (k b) Q) w → wp (Vis e k) Q w.
Proof. intros (w1 & b & He & w2 & a & Hk & HQ). exists w2, a. cbn. by rewrite He. Qed.

Lemma does_mono {B} (e : act B) (Q Q' : B → FW → Prop) w : does e Q w → (∀ b w', Q b w' → Q' b w') → does e Q' w.
Proof. intros (w' & b & He & HQ) Hi. exists w', b. split; [done|by apply Hi]. Qed.

Lemma wp_trigger {B : Type} (e : act B) (Q : B → FW → Prop) w : does e Q w → wp (trigger e) Q w.
Proof. intros He. apply wp_vis. eapply does_mono; [done|]. intros b w' HQ. by apply wp_ret. Qed.

End wp.

(** ** The accesses *)

Record quiet_env (E : FileEnv) : Prop := {
  qe_calm : calm E;
  qe_db : ∀ n, fe_db E n = DbOk;
  qe_rnd : ∀ n k, ∃ b, fe_rnd E n k = Some b ∧ Forall is_byte b;
}.

Section steps.
Context (E : FileEnv) (C : quiet_env E).
Context `{!MapRange fileKey FileRow}.
Context (chs : gset Z) (dels : gmap Z nat).

(** A world with these rows and files, whatever its counters. *)
Record look (rows : gmap fileKey FileRow) (nodes : gmap path fnode) (data : gmap nat (list byte)) (w : FW) : Prop := {
  lk_rows : fd_files (fw_db w) = rows;
  lk_nodes : fs_nodes (fw_fs w) = nodes;
  lk_data : fs_data (fw_fs w) = data;
  lk_channels : fd_channels (fw_db w) = chs;
  lk_deleted : fw_deleted w = dels;
  lk_writer : fw_writer w = false;
  lk_fresh : ∀ i, (fs_next (fw_fs w) ≤ i)%nat → data !! i = None;
}.

Section from.
Context (rows : gmap fileKey FileRow) (nodes : gmap path fnode) (data : gmap nat (list byte)) (w : FW).
Context (L : look rows nodes data w).

Lemma wp_GetFile c f n :
  wp E (db_GetFile E c f n)
    (λ r w', look rows nodes data w' ∧
       r = match rows !! (c, f, n) with Some row => Ok (scanFile ((c, f, n), row)) | None => Err ErrFileNotFound end) w.
Proof using L C.
  unfold db_GetFile. apply wp_trigger. unfold does, exec, GetFile, file_query, file_call. cbn. rewrite (qe_db E C). cbn.
  destruct L as [<- <- <- Hc Hd Hw Hfr]. eexists _, _. split; [done|]. split; [by split|done].
Qed.

Lemma wp_RenameRow c f a b r : rows !! (c, f, a) = Some r → rows !! (c, f, b) = None → c ∈ chs →
  wp E (db_RenameFile E c f a f b) (λ r' w', look (<[(c, f, b) := r]> (delete (c, f, a) rows)) nodes data w' ∧ r' = Ok ()) w.
Proof using L C.
  intros Ha Hb Hc. unfold db_RenameFile. apply wp_trigger. unfold does, exec, RenameFile_row, MoveFile_row, file_call. cbn. rewrite (qe_db E C). cbn.
  destruct L as [Hr <- <- Hch Hd Hw Hfr]. rewrite Hr, Ha, Hb, Hch. rewrite (bool_decide_false (is_Some None)) by (by intros []). rewrite andb_false_r.
  rewrite bool_decide_true by done. eexists _, _. split; [done|]. split; [|done]. split; cbn; solve [congruence | exact Hfr].
Qed.

Lemma wp_DeleteRow c f n r : rows !! (c, f, n) = Some r →
  wp E (db_DeleteFile E c f n) (λ _ w', look (delete (c, f, n) rows) nodes data w') w.
Proof using L C.
  intros Hn. unfold db_DeleteFile. apply wp_trigger. unfold does, exec, DeleteFile_row, file_call. cbn. rewrite (qe_db E C). cbn.
  destruct L as [Hr <- <- Hch Hd Hw Hfr]. rewrite Hr, Hn. eexists _, _. split; [done|]. split; cbn; solve [congruence | exact Hfr].
Qed.

Lemma wp_AddFile tr size sum : tr_ChannelID tr ∈ chs →
  wp E (add_upload E tr size sum)
    (λ r w', r = Ok () ∧ ∃ id now, look (<[(tr_ChannelID tr, tr_Folder tr, tr_Name tr) :=
       mkFileRow id size sum (tr_Uploader tr) (isEncryptedAttachment (tr_Name tr)) now]> rows) nodes data w') w.
Proof using L C.
  intros Hc. unfold add_upload, db_AddFile. apply wp_trigger. unfold does, exec, AddFile, file_call. cbn. rewrite (qe_db E C). cbn.
  destruct L as [Hr <- <- Hch Hd Hw Hfr]. rewrite Hch, bool_decide_true by done. eexists _, _. split; [done|]. split; [done|]. eexists _, _.
  split; cbn; [rewrite Hr; reflexivity|done..].
Qed.

(** What a look-up by digest may answer. *)
Lemma wp_FindSHA c sum f n :
  wp E (db_FindFileBySHA E c sum f n)
    (λ r w', look rows nodes data w' ∧
       (r = Ok None ∨ ∃ f' n' row, r = Ok (Some (scanFile ((c, f', n'), row))) ∧ rows !! (c, f', n') = Some row ∧ row_SHA256 row = sum)) w.
Proof using L C.
  unfold db_FindFileBySHA. apply wp_trigger. unfold does, exec, FindFileBySHA, file_query, file_call. cbn. rewrite (qe_db E C). cbn.
  destruct L as [<- <- <- Hc Hd Hw Hfr]. eexists _, _. split; [done|]. split; [by split|].
  match goal with |- context [head ?l] => destruct (head l) as [rec|] eqn:Hh end; [right|by left].
  apply head_Some_elem_of in Hh. rewrite sort_by_perm in Hh. unfold rows_where in Hh.
  apply list_elem_of_filter in Hh as [Hp Hin]. apply list_elem_of_fmap in Hin as ([[[c' f'] n'] row] & -> & Hin).
  rewrite elem_of_range in Hin. cbn in Hp. apply andb_prop in Hp as [Hp _]. apply andb_prop in Hp as [Hc'%Z.eqb_eq Hs%String.eqb_eq]. subst c'.
  exists f', n', row. by split_and!.
Qed.

Lemma does_Lstat name p : resolve name = Ok p → p ≠ [] →
  does E (Lstat name)
    (λ r w', look rows nodes data w' ∧
       r = match nodes !! p with Some (FReg _) => Ok true | Some _ => Ok false | None => Err IoNotExist end) w.
Proof using L C.
  intros Hp Hne. unfold does, exec, sys, at_, fs_lstat. cbn. rewrite (calm_io E (qe_calm E C)), Hp, bool_decide_false by done.
  destruct L as [? Hn ? ? ? ? Hfr]. rewrite Hn. destruct (nodes !! p) as [[]|]; cbn; (eexists _, _; split; [done|]; by split).
Qed.

(** The file has its new name; the old one is gone unless both led to the same file. *)
Definition moved (p q : path) (i : nat) (nodes nodes' : gmap path fnode) : Prop :=
  nodes' !! q = Some (FReg i) ∧ (∀ r, r ≠ p → r ≠ q → nodes' !! r = nodes !! r) ∧ (nodes' !! p = None ∨ nodes' !! p = Some (FReg i)).

Definition file_or_free (p : path) : Prop := nodes !! p = None ∨ ∃ j, nodes !! p = Some (FReg j).
Definition dir_at (p : path) : Prop := p = [] ∨ nodes !! p = Some FDir.

Lemma dir_is_dir s p : fs_nodes s = nodes → dir_at p → is_dir p s = true.
Proof using Type. intros Hs Hd. unfold is_dir. apply bool_decide_true. by rewrite Hs. Qed.

Lemma does_Rename a b p q i : resolve a = Ok p → resolve b = Ok q → p ≠ q → q ≠ [] →
  nodes !! p = Some (FReg i) → file_or_free q → dir_at (parent q) →
  does E (Rename a b) (λ r w', r = Ok () ∧ ∃ nodes', look rows nodes' data w' ∧ moved p q i nodes nodes') w.
Proof using L C.
  intros Ha Hb Hpq Hq Hi Hfree Hdir. unfold does, exec. rewrite Hb. unfold sys, at_, fs_rename. cbn. rewrite (calm_io E (qe_calm E C)), Ha.
  destruct L as [? Hn ? ? ? ? Hfr]. rewrite (dir_is_dir _ _ Hn Hdir), Hn, Hi, bool_decide_false by done. cbn.
  destruct Hfree as [Hf|[j Hf]]; rewrite Hf.
  - eexists _, _. split; [done|]. split; [done|]. exists (<[q := FReg i]> (delete p nodes)).
    split; [split; cbn; solve [congruence | exact Hfr]|]. split_and!; [by rewrite lookup_insert_eq|intros; by rewrite lookup_insert_ne, lookup_delete_ne by congruence|].
    left. by rewrite lookup_insert_ne, lookup_delete_eq by congruence.
  - case_bool_decide as Heq.
    + injection Heq as ->. eexists _, _. split; [done|]. split; [done|]. exists nodes. split; [split; cbn; solve [congruence | exact Hfr]|]. split_and!; [done|done|by right].
    + eexists _, _. split; [done|]. split; [done|]. exists (<[q := FReg i]> (delete p nodes)).
      split; [split; cbn; solve [congruence | exact Hfr]|]. split_and!; [by rewrite lookup_insert_eq|intros; by rewrite lookup_insert_ne, lookup_delete_ne by congruence|].
      left. by rewrite lookup_insert_ne, lookup_delete_eq by congruence.
Qed.

Lemma does_Remove name p i : resolve name = Ok p → nodes !! p = Some (FReg i) →
  does E (Remove name) (λ _ w', look rows (delete p nodes) data w') w.
Proof using L C.
  intros Hp Hi. unfold does, exec, sys, at_, fs_remove. cbn. rewrite (calm_io E (qe_calm E C)), Hp.
  destruct L as [? Hn ? ? ? ? Hfr]. rewrite Hn, Hi. eexists _, _. split; [done|]. split; cbn; solve [congruence | exact Hfr].
Qed.

Lemma does_Link a b p q i : resolve a = Ok p → resolve b = Ok q → q ≠ [] → nodes !! p = Some (FReg i) → dir_at (parent q) →
  does E (Link a b)
    (λ r w', match r with
             | Ok _ => nodes !! q = None ∧ look rows (<[q := FReg i]> nodes) data w'
             | Err _ => look rows nodes data w'
             end) w.
Proof using L C.
  intros Ha Hb Hq Hi Hdir. unfold does, exec. rewrite Hb. unfold sys, at_, fs_link. cbn. rewrite (calm_io E (qe_calm E C)), Ha.
  destruct L as [? Hn ? ? ? ? Hfr]. rewrite (dir_is_dir _ _ Hn Hdir), Hn, Hi, (bool_decide_false (q = [])) by done. cbn.
  case_bool_decide as Hs; (eexists _, _; split; [done|]; cbn).
  - by split.
  - split; [by apply eq_None_not_Some|]. split; cbn; solve [congruence | exact Hfr].
Qed.

Lemma does_IsDeleted c : dels !! c = None → does E (IsDeleted c) (λ r w', r = false ∧ look rows nodes data w') w.
Proof using L.
  intros Hc. unfold does, exec, yes. cbn. destruct L as [? ? ? ? Hd ? Hfr]. rewrite Hd, Hc, (bool_decide_false (is_Some None)) by (by intros []).
  eexists _, _. split; [done|]. split; [done|]. by split.
Qed.

End from.
End steps.

(** ** Consistent stores *)

Section store.
Context (E : FileEnv).
Abbreviation up := (fe_ToUpper E).

(** Every row has its blob, of the recorded size and digest. *)
Definition consistent (rows : gmap fileKey FileRow) (nodes : gmap path fnode) (data : gmap nat (list byte)) : Prop :=
  ∀ c f n row, rows !! (c, f, n) = Some row →
    good_folder up f ∧ plain n ∧
    ∃ i b, nodes !! blob_comps c f n = Some (FReg i) ∧ data !! i = Some b ∧
      row_SHA256 row = hex (fe_sha256 E b) ∧ row_Size row = Z.of_nat (length b).

(** Directories and the like stay. *)
Definition stable (nodes nodes' : gmap path fnode) : Prop :=
  ∀ p, (nodes' !! p = Some FDir ↔ nodes !! p = Some FDir) ∧ (nodes' !! p = Some FOther ↔ nodes !! p = Some FOther).

#[export] Instance stable_refl : Reflexive stable.
Proof. intros nodes p. done. Qed.
#[export] Instance stable_trans : Transitive stable.
Proof. intros n1 n2 n3 H12 H23 p. destruct (H12 p), (H23 p). split; by etrans. Qed.

Lemma file_or_free_iff nodes p : file_or_free nodes p ↔ nodes !! p ≠ Some FDir ∧ nodes !! p ≠ Some FOther.
Proof. unfold file_or_free. destruct (nodes !! p) as [[]|]; naive_solver. Qed.

Lemma stable_free nodes nodes' p : stable nodes nodes' → file_or_free nodes p → file_or_free nodes' p.
Proof. intros Hs. rewrite !file_or_free_iff. destruct (Hs p) as [H1 H2]. naive_solver. Qed.

Lemma stable_dir nodes nodes' p : stable nodes nodes' → dir_at nodes p → dir_at nodes' p.
Proof. intros Hs [->|Hd]; [by left|right]. by apply Hs. Qed.

Lemma stable_moved nodes nodes' p q i : nodes !! p = Some (FReg i) → file_or_free nodes q → moved p q i nodes nodes' → stable nodes nodes'.
Proof.
  intros Hp Hq (Hq' & Hrest & Hp') r. destruct (decide (r = q)) as [->|Hrq].
  { apply file_or_free_iff in Hq as [Hd Ho]. rewrite Hq'. naive_solver. }
  destruct (decide (r = p)) as [->|Hrp]; [|by rewrite Hrest]. rewrite Hp. destruct Hp' as [-> | ->]; naive_solver.
Qed.

Lemma kpath_inj k k' : good_folder up k.1.2 → good_folder up k'.1.2 → kpath k = kpath k' → k = k'.
Proof. destruct k as [[c f] n], k' as [[c' f'] n']. intros Hf Hf' Hp. destruct (blob_comps_inj up c f n c' f' n' Hf Hf' Hp) as (-> & -> & ->). done. Qed.

Lemma consistent_file rows nodes data k row : consistent rows nodes data → rows !! k = Some row →
  good_folder up k.1.2 ∧ plain k.2 ∧ ∃ i b, nodes !! kpath k = Some (FReg i) ∧ data !! i = Some b ∧ file_of rows nodes data k = Some (row, b) ∧
    row_SHA256 row = hex (fe_sha256 E b) ∧ row_Size row = Z.of_nat (length b).
Proof.
  destruct k as [[c f] n]. intros Hc Hr. destruct (Hc c f n row Hr) as (Hf & Hn & i & b & Hi & Hb & Hs & Hz). split_and!; [done..|].
  exists i, b. unfold file_of, content_at, kpath. cbn. by rewrite Hr, Hi, Hb.
Qed.

Lemma file_of_None rows nodes data k : consistent rows nodes data → file_of rows nodes data k = None ↔ rows !! k = None.
Proof.
  intros Hc. destruct (rows !! k) as [row|] eqn:Hr; [|unfold file_of; by rewrite Hr].
  destruct (consistent_file _ _ _ _ _ Hc Hr) as (_ & _ & i & b & _ & _ & -> & _). done.
Qed.

(** Rows and blobs that another step leaves alone. *)
Lemma file_of_same rows rows' nodes nodes' data data' k :
  rows' !! k = rows !! k → (∀ row, rows !! k = Some row → content_at nodes' data' (kpath k) = content_at nodes data (kpath k)) →
  file_of rows' nodes' data' k = file_of rows nodes data k.
Proof. intros Hr Hc. unfold file_of. rewrite Hr. destruct (rows !! k) as [row|]; [|done]. by rewrite (Hc row). Qed.

Definition shifted (F F' : fileKey → option (FileRow * list byte)) (ka kb : fileKey) : Prop :=
  ∀ k, F' k = if decide (k = kb) then F ka else if decide (k = ka) then None else F k.

Lemma consistent_move rows nodes nodes' data ka kb row i :
  consistent rows nodes data → rows !! ka = Some row → rows !! kb = None → nodes !! kpath ka = Some (FReg i) →
  good_folder up kb.1.2 → plain kb.2 → moved (kpath ka) (kpath kb) i nodes nodes' →
  consistent (<[kb := row]> (delete ka rows)) nodes' data ∧
  shifted (file_of rows nodes data) (file_of (<[kb := row]> (delete ka rows)) nodes' data) ka kb.
Proof.
  intros Hc Ha Hb Hi Hf Hn (Hq & Hrest & Hp). destruct (consistent_file _ _ _ _ _ Hc Ha) as (Hfa & _ & i' & b & Hi' & Hd & Hfile & Hs & Hz).
  assert (i' = i) as -> by congruence. assert (ka ≠ kb) as Hab by congruence.
  assert (∀ k r, k ≠ ka → k ≠ kb → rows !! k = Some r → nodes' !! kpath k = nodes !! kpath k) as Hsame.
  { intros k r Hka Hkb Hk. destruct (consistent_file _ _ _ _ _ Hc Hk) as (Hfk & _). apply Hrest; intros Heq; apply kpath_inj in Heq; done. }
  split.
  - intros c f n r. rewrite lookup_insert_Some. intros [[-> <-]|[Hne Hl]].
    + split_and!; [done|done|]. exists i, b. by split_and!.
    + apply lookup_delete_Some in Hl as [Hne' Hl]. destruct (Hc c f n r Hl) as (H1 & H2 & j & b' & Hj & H3). split_and!; [done..|].
      exists j, b'. split; [|done]. change (blob_comps c f n) with (kpath (c, f, n)). by rewrite (Hsame (c, f, n) r).
  - intros k. case_decide as Hkb; [subst k|case_decide as Hka; [subst k|]].
    + rewrite Hfile. unfold file_of, content_at. by rewrite lookup_insert_eq, Hq, Hd.
    + unfold file_of. by rewrite lookup_insert_ne, lookup_delete_eq by done.
    + apply file_of_same; [by rewrite lookup_insert_ne, lookup_delete_ne by done|]. intros r Hr. unfold content_at. by rewrite (Hsame k r).
Qed.

Lemma consistent_drop rows nodes data k row : consistent rows nodes data → rows !! k = Some row →
  consistent (delete k rows) (delete (kpath k) nodes) data ∧
  ∀ k', file_of (delete k rows) (delete (kpath k) nodes) data k' = if decide (k' = k) then None else file_of rows nodes data k'.
Proof.
  intros Hc Hr. destruct (consistent_file _ _ _ _ _ Hc Hr) as (Hf & _).
  assert (∀ k' r, k' ≠ k → rows !! k' = Some r → delete (kpath k) nodes !! kpath k' = nodes !! kpath k') as Hsame.
  { intros k' r Hne Hk. destruct (consistent_file _ _ _ _ _ Hc Hk) as (Hfk & _). apply lookup_delete_ne. intros Heq. apply kpath_inj in Heq; done. }
  split.
  - intros c f n r [Hne Hl]%lookup_delete_Some. destruct (Hc c f n r Hl) as (H1 & H2 & j & b' & Hj & H3). split_and!; [done..|].
    exists j, b'. split; [|done]. change (blob_comps c f n) with (kpath (c, f, n)). by rewrite (Hsame (c, f, n) r).
  - intros k'. case_decide as Hk; [subst k'; unfold file_of; by rewrite lookup_delete_eq|].
    apply file_of_same; [by rewrite lookup_delete_ne|]. intros r Hr'. unfold content_at. by rewrite (Hsame k' r).
Qed.

End store.

(** ** Version rotation *)

Lemma parent_blob c f n : parent (blob_comps c f n) = pretty c :: folder_comps f.
Proof.
  unfold parent, blob_comps. cbn [length]. rewrite length_app. cbn [length]. replace (S (length (folder_comps f) + 1) - 1)%nat with (S (length (folder_comps f))) by lia.
  cbn [take]. by rewrite take_app_length.
Qed.

Lemma version_name_inj n v v' : version_name n v = version_name n v' → v = v'.
Proof.
  unfold version_name. intros H%(f_equal chars_of). rewrite !chars_app in H. apply app_inv_head in H. injection H as H. by apply chars_inj, (inj pretty) in H.
Qed.

Lemma version_name_longer n v : version_name n v ≠ n.
Proof. unfold version_name. intros H%(f_equal (λ s, length (chars_of s))). rewrite !chars_app, !length_app in H. cbn in H. lia. Qed.

Section rotation.
Context (E : FileEnv) (C : quiet_env E).
Context `{!MapRange fileKey FileRow}.
Context (chs : gset Z) (dels : gmap Z nat) (data : gmap nat (list byte)).
Context (nodes0 : gmap path fnode) (tmpp : path) (t : nat).
Context (c : Z) (f : string) (Hf : good_folder (fe_ToUpper E) f) (Hc : c ∈ chs) (Hdir : dir_at nodes0 (pretty c :: folder_comps f)).

(** A world that keeps these files, with the partial file beside them. *)
Definition keeping (F : fileKey → option (FileRow * list byte)) (w : FW) : Prop :=
  ∃ rows nodes, look chs dels rows nodes data w ∧ consistent E rows nodes data ∧ (∀ k, file_of rows nodes data k = F k) ∧
    stable nodes0 nodes ∧ nodes !! tmpp = Some (FReg t).

Definition shift (F : fileKey → option (FileRow * list byte)) (ka kb : fileKey) : fileKey → option (FileRow * list byte) := λ k,
  if decide (k = kb) then F ka else if decide (k = ka) then None else F k.

Lemma wp_rotate_rename a b F w :
  plain a → plain b → a ≠ b → F (c, f, b) = None → file_or_free nodes0 (kpath (c, f, b)) →
  tmpp ≠ kpath (c, f, a) → tmpp ≠ kpath (c, f, b) → keeping F w →
  wp E (rotate_rename E c f a b) (λ _, keeping (shift F (c, f, a) (c, f, b))) w.
Proof using C Hf Hc Hdir.
  intros Ha Hb Hab HFb Hfree Hta Htb (rows & nodes & L & Hcons & HF & Hst & Ht). unfold rotate_rename.
  apply wp_bind. eapply wp_mono; [by apply wp_GetFile|]. intros r w1 [L1 ->].
  destruct (rows !! (c, f, a)) as [row|] eqn:Hrow.
  2: { apply wp_ret. exists rows, nodes. split_and!; [done..| |done|done]. intros k. rewrite HF. unfold shift.
       assert (F (c, f, a) = None) as Hnone by (rewrite <- HF; by apply (file_of_None E)). repeat case_decide; congruence. }
  destruct (consistent_file E _ _ _ _ _ Hcons Hrow) as (_ & _ & i & by_ & Hi & _). apply wp_vis.
  eapply does_mono; [apply (does_Lstat E C chs dels rows nodes data w1 L1); [by apply resolve_blobPath with (up := fe_ToUpper E)|done]|].
  intros info w2 [L2 ->]. change (blob_comps c f a) with (kpath (c, f, a)). rewrite Hi. apply wp_bind.
  assert (rows !! (c, f, b) = None) as Hrb by (apply (file_of_None E rows nodes data); [done|by rewrite HF]).
  eapply wp_mono; [by apply (wp_RenameRow E C chs dels rows nodes data w2 L2)|]. intros r w3 [L3 ->]. apply wp_vis.
  eapply does_mono; [apply (does_Rename E C chs dels _ nodes data w3 L3 _ _ (kpath (c, f, a)) (kpath (c, f, b)) i)|].
  - by apply resolve_blobPath with (up := fe_ToUpper E).
  - by apply resolve_blobPath with (up := fe_ToUpper E).
  - intros Heq. apply (kpath_inj E) in Heq; [congruence|done|done].
  - done.
  - done.
  - by eapply stable_free.
  - change (kpath (c, f, b)) with (blob_comps c f b). rewrite parent_blob. by eapply stable_dir.
  - intros r w4 (_ & nodes' & L4 & Hm). apply wp_ret.
    destruct (consistent_move E rows nodes nodes' data (c, f, a) (c, f, b) row i) as [Hcons' Hsh]; [done..|].
    exists (<[(c, f, b) := row]> (delete (c, f, a) rows)), nodes'. split_and!; [done|done| | |].
    + intros k. rewrite (Hsh k). unfold shift. by rewrite !HF.
    + etrans; [exact Hst|]. eapply stable_moved; [exact Hi|by eapply stable_free|done].
    + destruct Hm as (_ & Hrest & _). by rewrite Hrest.
Qed.

Lemma keeping_ext F F' w : keeping F w → (∀ k, F k = F' k) → keeping F' w.
Proof using Type. intros (rows & nodes & L & Hc' & HF & Hrest) Heq. exists rows, nodes. split_and!; [done|done| |apply Hrest|apply Hrest]. intros k. by rewrite HF. Qed.

Definition version_key (n : string) (v : nat) : fileKey := (c, f, version_name n v).

(** The current file becomes version 1, and so on; the oldest version goes. *)
Definition rotated (n : string) (F : fileKey → option (FileRow * list byte)) : fileKey → option (FileRow * list byte) := λ k,
  if decide (k = version_key n 1) then F (c, f, n)
  else if decide (k = version_key n 2) then F (version_key n 1)
  else if decide (k = version_key n 3) then F (version_key n 2)
  else if decide (k = (c, f, n)) then None
  else F k.

Lemma wp_drop_oldest F n w (rest : prog ()) Q :
  plain n → tmpp ≠ kpath (c, f, n) → keeping F w →
  (∀ w', keeping (λ k, if decide (k = (c, f, n)) then None else F k) w' → wp E rest Q w') →
  wp E (do rec <- db_GetFile E c f n;
        do _ <- match rec with
                | Ok _ => do _ <- db_DeleteFile E c f n; tell Remove (blobPath c f n); Ret tt
                | Err _ => Ret tt
                end;
        rest) Q w.
Proof using C Hf.
  intros Hn Ht (rows & nodes & L & Hcons & HF & Hst & Htmp) Hrest. apply wp_bind. eapply wp_mono; [by apply wp_GetFile|]. intros r w1 [L1 ->].
  apply wp_bind. apply (wp_mono _ _ (λ _, keeping (λ k, if decide (k = (c, f, n)) then None else F k))); [|by intros []].
  destruct (rows !! (c, f, n)) as [row|] eqn:Hrow.
  2: { apply wp_ret. exists rows, nodes. split_and!; [done..| |done|done]. intros k. rewrite HF. case_decide as Hk; [|done]. subst k.
       rewrite <- HF. by apply (file_of_None E). }
  destruct (consistent_file E _ _ _ _ _ Hcons Hrow) as (_ & _ & i & by_ & Hi & _).
  apply wp_bind. eapply wp_mono; [by eapply (wp_DeleteRow E C chs dels rows nodes data w1 L1)|]. intros r w2 L2. apply wp_vis.
  eapply does_mono; [apply (does_Remove E C chs dels _ nodes data w2 L2 _ (kpath (c, f, n)) i); [by apply resolve_blobPath with (up := fe_ToUpper E)|done]|].
  intros r' w3 L3. apply wp_ret. destruct (consistent_drop E _ _ _ _ _ Hcons Hrow) as [Hcons' HF'].
  exists (delete (c, f, n) rows), (delete (kpath (c, f, n)) nodes). split_and!; [done|done| | |by rewrite lookup_delete_ne].
  - intros k. rewrite HF'. by rewrite HF.
  - etrans; [exact Hst|]. intros p. destruct (decide (p = kpath (c, f, n))) as [->|]; [|by rewrite lookup_delete_ne]. rewrite lookup_delete_eq, Hi. naive_solver.
Qed.

Lemma wp_rotateVersions F tr w :
  tr_ChannelID tr = c → tr_Folder tr = f → plain (tr_Name tr) →
  (∀ v, (1 ≤ v ≤ 3)%nat → file_or_free nodes0 (kpath (version_key (tr_Name tr) v)) ∧ tmpp ≠ kpath (version_key (tr_Name tr) v)) →
  tmpp ≠ kpath (c, f, tr_Name tr) → keeping F w →
  wp E (rotateVersions E tr) (λ _, keeping (rotated (tr_Name tr) F)) w.
Proof using C Hf Hc Hdir.
  intros Htc Htf Hn Hv Ht HF. set (n := tr_Name tr) in *. unfold rotateVersions. rewrite Htc, Htf. fold n.
  assert (∀ v, plain (version_name n v)) as Hp by (intros v; by apply version_plain).
  assert (∀ v v', v ≠ v' → version_name n v ≠ version_name n v') as Hne by (intros v v' Hvv Heq; by apply version_name_inj in Heq).
  pose proof (version_name_longer n) as Hlong.
  destruct (Hv 1%nat) as [F1 T1]; [lia|]. destruct (Hv 2%nat) as [F2 T2]; [lia|]. destruct (Hv 3%nat) as [F3 T3]; [lia|].
  apply (wp_drop_oldest F); [done|done|done|]. intros w1 K1. cbn [rotate_down]. apply wp_bind.
  assert (2 ≠ 3)%nat as N23 by done. assert (1 ≠ 2)%nat as N12 by done.
  pose proof (λ H, wp_rotate_rename _ _ _ w1 (Hp 2%nat) (Hp 3%nat) (Hne 2%nat 3%nat N23) H F3 T2 T3 K1) as H2.
  apply wp_bind. eapply wp_mono; [apply H2; by rewrite decide_True|]. intros [] w2 K2.
  pose proof (λ H, wp_rotate_rename _ _ _ w2 (Hp 1%nat) (Hp 2%nat) (Hne 1%nat 2%nat N12) H F2 T1 T2 K2) as H1.
  apply wp_bind. eapply wp_mono; [apply H1|].
  { unfold shift. rewrite decide_False by (intros [= Heq]; by apply (Hne 2%nat 3%nat)). by rewrite decide_True. }
  intros [] w3 K3. apply wp_ret. pose proof (λ H, wp_rotate_rename _ _ _ w3 Hn (Hp 1%nat) (not_eq_sym (Hlong 1%nat)) H F1 Ht T1 K3) as H0.
  eapply wp_mono; [apply H0|].
  { unfold shift. rewrite decide_False by (intros [= Heq]; by apply (Hne 1%nat 2%nat)). by rewrite decide_True. }
  intros [] w4 K4. eapply keeping_ext; [exact K4|]. intros k. unfold shift, rotated, version_key.
  assert (∀ v v', v ≠ v' → (c, f, version_name n v) ≠ (c, f, version_name n v')) as Hk by (intros v v' Hvv [= Heq]; by apply (Hne v v')).
  assert (∀ v, (c, f, version_name n v) ≠ (c, f, n)) as Hk' by (intros v [= Heq]; by apply (Hlong v)).
  pose proof (Hk 1%nat 2%nat) as K12. pose proof (Hk 1%nat 3%nat) as K13. pose proof (Hk 2%nat 3%nat) as K23.
  pose proof (Hk' 1%nat) as L1'. pose proof (Hk' 2%nat) as L2'. pose proof (Hk' 3%nat) as L3'. clear -K12 K13 K23 L1' L2' L3'.
  change maxFileVersions with 3%nat. repeat case_decide; subst; try done; exfalso; naive_solver.
Qed.

End rotation.

(** ** Placing a verified upload *)

Section finalize.
Context (E : FileEnv) (C : quiet_env E).
Context `{!MapRange fileKey FileRow}.
Context (chs : gset Z) (dels : gmap Z nat) (data : gmap nat (list byte)).
Context (nodes0 : gmap path fnode) (tmpPath : string) (tmpp : path) (t : nat).
Context (tr : transfer) (content : list byte).
Abbreviation c := (tr_ChannelID tr).
Abbreviation f := (tr_Folder tr).
Abbreviation n := (tr_Name tr).
Abbreviation sum := (hex (fe_sha256 E content)).
Abbreviation final := (blobPath c f n).
Abbreviation fkey := (c, f, n).
Context (Hf : good_folder (fe_ToUpper E) f) (Hn : plain n) (Hc : c ∈ chs) (Hlive : dels !! c = None).
Context (Hdir : dir_at nodes0 (pretty c :: folder_comps f)) (Hfree : file_or_free nodes0 (kpath fkey)).
Context (Hver : ∀ v, (1 ≤ v ≤ 3)%nat → file_or_free nodes0 (kpath (version_key c f n v)) ∧ tmpp ≠ kpath (version_key c f n v)).
Context (Htmp : resolve tmpPath = Ok tmpp) (Htf : tmpp ≠ kpath fkey).
Context (Hdata : data !! t = Some content).
Context (Hcoll : ∀ i b, data !! i = Some b → hex (fe_sha256 E b) = sum → b = content).

(** The files without a partial one beside them. *)
Definition kept (F : fileKey → option (FileRow * list byte)) (w : FW) : Prop :=
  ∃ rows nodes, look chs dels rows nodes data w ∧ consistent E rows nodes data ∧ (∀ k, file_of rows nodes data k = F k) ∧ stable nodes0 nodes.

Definition with_file (row : FileRow) (F : fileKey → option (FileRow * list byte)) : fileKey → option (FileRow * list byte) := λ k,
  if decide (k = fkey) then Some (row, content) else F k.

(** The row of the upload, but for its id and time. *)
Definition row_for (row : FileRow) : Prop :=
  row_Size row = Z.of_nat (length content) ∧ row_SHA256 row = sum ∧ row_Uploader row = tr_Uploader tr ∧
  row_Encrypted row = isEncryptedAttachment n.

Definition finished_with (F : fileKey → option (FileRow * list byte)) (r : result FErr ()) (w : FW) : Prop :=
  r = Ok () ∧ ∃ row, row_for row ∧ kept (with_file row F) w.

Lemma wp_add_upload F rows nodes nodes' w j :
  consistent E rows nodes data → (∀ k, file_of rows nodes data k = F k) → look chs dels rows nodes' data w →
  (∀ k row, k ≠ fkey → rows !! k = Some row → nodes' !! kpath k = nodes !! kpath k) →
  nodes' !! kpath fkey = Some (FReg j) → data !! j = Some content → stable nodes0 nodes' →
  wp E (add_upload E tr (Z.of_nat (length content)) sum) (finished_with F) w.
Proof using C Hc Hf Hn.
  intros Hcons HF L Hsame Hj Hjd Hst. eapply wp_mono; [by apply (wp_AddFile E C chs dels rows nodes' data w L tr)|]. intros r w' (-> & id & now & L').
  split; [done|]. exists (mkFileRow id (Z.of_nat (length content)) sum (tr_Uploader tr) (isEncryptedAttachment n) now).
  split; [by split_and!|]. eexists _, nodes'. split; [exact L'|]. split_and!; [| |done].
  - intros c' f' n' row [[[= <- <- <-] <-]|[Hne Hl]]%lookup_insert_Some.
    + split_and!; [done..|]. exists j, content. by split_and!.
    + destruct (Hcons c' f' n' row Hl) as (H1 & H2 & i & b & Hi & H3). split_and!; [done..|]. exists i, b. split; [|done].
      change (blob_comps c' f' n') with (kpath (c', f', n')). by rewrite (Hsame (c', f', n') row).
  - intros k. unfold with_file. case_decide as Hk; [subst k|].
    + unfold file_of, content_at. by rewrite lookup_insert_eq, Hj, Hjd.
    + rewrite <- HF. apply file_of_same; [by rewrite lookup_insert_ne|]. intros row Hr. unfold content_at. by rewrite (Hsame k row).
Qed.

Lemma row_path rows nodes k row : consistent E rows nodes data → rows !! k = Some row → k ≠ fkey → kpath k ≠ kpath fkey.
Proof using Hf. intros Hcons Hr Hne Heq. destruct (consistent_file E _ _ _ _ _ Hcons Hr) as (Hfk & _). by apply (kpath_inj E) in Heq. Qed.

(** The tail of [finalize_locked]: share an identical blob or move the partial file. *)
Lemma wp_place F w :
  keeping E chs dels data nodes0 tmpp t F w → (∀ k, is_Some (F k) → kpath k ≠ tmpp) →
  wp E (do linked <- dedup_link E tr tmpPath final sum;
        if linked : bool then add_upload E tr (Z.of_nat (length content)) sum
        else
          ask renamed <- Rename tmpPath final;
          match renamed with
          | Err e => tell Remove tmpPath; Ret (Err (FtIo e))
          | Ok _ => add_upload E tr (Z.of_nat (length content)) sum
          end) (finished_with F) w.
Proof using All.
  intros (rows & nodes & L & Hcons & HF & Hst & Ht) Hout.
  assert (∀ k row, rows !! k = Some row → kpath k ≠ tmpp) as Hrows.
  { intros k row Hr. apply Hout. rewrite <- HF. destruct (consistent_file E _ _ _ _ _ Hcons Hr) as (_ & _ & i & b & _ & _ & -> & _). by eexists. }
  assert (resolve final = Ok (kpath fkey)) as Hres by (by apply resolve_blobPath with (up := fe_ToUpper E)).
  assert (∀ w, look chs dels rows nodes data w → wp E (ask renamed <- Rename tmpPath final;
            match renamed with Err e => tell Remove tmpPath; Ret (Err (FtIo e)) | Ok _ => add_upload E tr (Z.of_nat (length content)) sum end)
            (finished_with F) w) as Hrename.
  { intros w1 L1. apply wp_vis. eapply does_mono; [apply (does_Rename E C chs dels rows nodes data w1 L1 _ _ tmpp (kpath fkey) t); try done|].
    - by eapply stable_free.
    - change (kpath fkey) with (blob_comps c f n). rewrite parent_blob. by eapply stable_dir.
    - intros r w2 (-> & nodes' & L2 & Hm). pose proof Hm as (Hq & Hrest & _). eapply wp_add_upload; [exact Hcons|exact HF|exact L2| |exact Hq|exact Hdata|].
      + intros k row Hne Hr. apply Hrest; [by eapply Hrows|by eapply row_path].
      + etrans; [exact Hst|]. by eapply stable_moved; [exact Ht|eapply stable_free|]. }
  apply wp_bind. unfold dedup_link. apply wp_bind. eapply wp_mono; [apply (wp_FindSHA E C chs dels rows nodes data w L)|].
  intros r w1 [L1 [->|(f' & n' & row & -> & Hr & Hsha)]]; [by apply wp_ret, Hrename|]. cbn [rec_Folder rec_Name scanFile].
  destruct (consistent_file E _ _ _ _ _ Hcons Hr) as (Hf' & Hn' & i & b & Hi & Hb & _ & Hs & _).
  assert (resolve (blobPath c f' n') = Ok (kpath (c, f', n'))) as Hres' by (by apply resolve_blobPath with (up := fe_ToUpper E)).
  apply wp_vis. eapply does_mono; [by apply (does_Lstat E C chs dels rows nodes data w1 L1 _ _ Hres')|]. intros info w2 [L2 ->]. rewrite Hi.
  apply wp_vis. eapply does_mono; [apply (does_Link E C chs dels rows nodes data w2 L2 _ _ _ (kpath fkey) i Hres' Hres); try done|].
  { change (kpath fkey) with (blob_comps c f n). rewrite parent_blob. by eapply stable_dir. }
  intros [[]|e] w3; [|intros L3; by apply wp_ret, Hrename]. intros [Hnone L3]. apply wp_vis.
  eapply does_mono; [apply (does_Remove E C chs dels rows _ data w3 L3 _ tmpp t Htmp); by rewrite lookup_insert_ne|]. intros r4 w4 L4. apply wp_ret.
  assert (b = content) as -> by (apply (Hcoll i b Hb); congruence).
  eapply (wp_add_upload F rows nodes _ w4 i); [exact Hcons|exact HF|exact L4| | |exact Hb|].
  - intros k row' Hne Hr'. rewrite lookup_delete_ne by (apply not_eq_sym; by eapply Hrows). apply lookup_insert_ne, not_eq_sym. by eapply row_path.
  - by rewrite lookup_delete_ne, lookup_insert_eq.
  - etrans; [exact Hst|]. intros p. destruct (decide (p = tmpp)) as [->|]; [rewrite lookup_delete_eq, Ht; naive_solver|]. rewrite lookup_delete_ne by done.
    destruct (decide (p = kpath fkey)) as [->|]; [rewrite lookup_insert_eq, Hnone; naive_solver|]. by rewrite lookup_insert_ne.
Qed.

Definition is_same (F : fileKey → option (FileRow * list byte)) : bool :=
  match F fkey with Some (row, _) => String.eqb (row_SHA256 row) sum | None => false end.

(** What the files are, the name itself apart: a new content of a plain file rotates
    the versions. *)
Definition rest_of (F : fileKey → option (FileRow * list byte)) : fileKey → option (FileRow * list byte) :=
  if is_same F || isEncryptedAttachment n then F else rotated c f n F.

Lemma does_RUnlock F (Q : result FErr () → FW → Prop) r w :
  finished_with F r w → (∀ w', finished_with F r w' → Q r w') → wp E (tell RUnlock; Ret r) Q w.
Proof using Type.
  intros (-> & row & Hrow & rows & nodes & [] & Hrest) HQ. apply wp_vis. eexists _, tt. split; [done|]. apply wp_ret, HQ. split; [done|].
  exists row. split; [done|]. exists rows, nodes. split; [by split|done].
Qed.

Lemma rotated_out F : (∀ k, is_Some (F k) → kpath k ≠ tmpp) → ∀ k, is_Some (rotated c f n F k) → kpath k ≠ tmpp.
Proof using Hver.
  intros Hout k. assert (∀ v, (1 ≤ v ≤ 3)%nat → kpath (version_key c f n v) ≠ tmpp) as Hv by (intros v Hv; apply not_eq_sym, Hver, Hv).
  unfold rotated. case_decide; [subst k; intros _; apply Hv; lia|]. case_decide; [subst k; intros _; apply Hv; lia|].
  case_decide; [subst k; intros _; apply Hv; lia|]. case_decide; [by intros []|apply Hout].
Qed.

Lemma wp_same_upload F w :
  keeping E chs dels data nodes0 tmpp t F w →
  wp E (same_upload E tr final sum) (λ b w', b = is_same F ∧ keeping E chs dels data nodes0 tmpp t F w') w.
Proof using C Hf Hn.
  intros (rows & nodes & L & Hcons & HF & Hrest). unfold same_upload. apply wp_bind. eapply wp_mono; [by apply (wp_GetFile E C chs dels rows nodes data w)|].
  intros r w1 [L1 ->]. unfold is_same. rewrite <- (HF fkey). destruct (rows !! fkey) as [row|] eqn:Hr.
  - destruct (consistent_file E _ _ _ _ _ Hcons Hr) as (_ & _ & i & b & Hi & _ & -> & _). cbn [rec_SHA256 scanFile]. destruct (String.eqb _ _); [|by apply wp_ret; split; [|exists rows, nodes]].
    apply wp_vis. eapply does_mono; [by apply (does_Lstat E C chs dels rows nodes data w1 L1 _ (kpath fkey)); [apply resolve_blobPath with (up := fe_ToUpper E)|]|].
    intros info w2 [L2 ->]. rewrite Hi. apply wp_ret. split; [done|]. by exists rows, nodes.
  - apply wp_ret. unfold file_of. rewrite Hr. split; [done|]. by exists rows, nodes.
Qed.

Lemma wp_finalizeUpload F w :
  keeping E chs dels data nodes0 tmpp t F w → (∀ k, is_Some (F k) → kpath k ≠ tmpp) →
  (isEncryptedAttachment n = true → n = String.substring 0 encryptedNameLen sum +:+ encryptedSuffix) →
  wp E (finalizeUpload E tr tmpPath final (Z.of_nat (length content)) sum) (finished_with (rest_of F)) w.
Proof using All.
  intros K Hout Henc. unfold finalizeUpload. apply wp_vis.
  assert (keeping E chs dels data nodes0 tmpp t F (put_lock (S (fw_readers w)) false (put_calls (S (fw_calls w)) w))) as K1.
  { destruct K as (rows & nodes & [] & Hrest). exists rows, nodes. split; [by split|done]. }
  assert (fw_writer w = false) as Hw by (destruct K as (rows & nodes & [] & Hrest); done).
  eexists _, tt. split; [unfold exec; cbn; by rewrite Hw|]. apply wp_bind.
  eapply wp_mono; [|intros r w' Hfin; eapply does_RUnlock; [exact Hfin|]; intros w'' H; exact H].
  set (w1 := put_lock _ _ _) in *. clearbody w1. clear K Hw w. rename K1 into K. unfold finalize_locked. apply wp_vis.
  destruct K as (rows & nodes & L & Hcons & HF & Hst & Ht). eapply does_mono; [by apply (does_IsDeleted E chs dels rows nodes data w1 L)|].
  intros d w2 [-> L2]. assert (keeping E chs dels data nodes0 tmpp t F w2) as K2 by (exists rows, nodes; by split_and!). clear rows nodes L Hcons HF Hst Ht L2 w1.
  cbv zeta. destruct (isEncryptedAttachment n && negb _) eqn:Hb.
  { apply andb_prop in Hb as [He Hne]. rewrite <- (Henc He), String.eqb_refl in Hne. done. }
  apply wp_bind. eapply wp_mono; [by apply wp_same_upload|]. intros same w3 [-> K3]. unfold rest_of. destruct (is_same F) eqn:Hsame; cbn [orb].
  - destruct K3 as (rows & nodes & L & Hcons & HF & Hst & Ht). unfold is_same in Hsame. rewrite <- (HF fkey) in Hsame.
    destruct (rows !! fkey) as [row|] eqn:Hr; [|unfold file_of in Hsame; by rewrite Hr in Hsame].
    destruct (consistent_file E _ _ _ _ _ Hcons Hr) as (_ & _ & i & b & Hi & Hb' & Hfile & Hs & _). rewrite Hfile in Hsame. apply String.eqb_eq in Hsame.
    assert (b = content) as -> by (apply (Hcoll i b Hb'); congruence).
    apply wp_vis. eapply does_mono; [by apply (does_Remove E C chs dels rows nodes data w3 L _ tmpp t Htmp)|]. intros r4 w4 L4.
    eapply (wp_add_upload F rows nodes _ w4 i); [exact Hcons|exact HF|exact L4| |by rewrite lookup_delete_ne|exact Hb'|].
    + intros k row' Hne Hr'. apply lookup_delete_ne, not_eq_sym, Hout. rewrite <- HF. destruct (consistent_file E _ _ _ _ _ Hcons Hr') as (_ & _ & i' & b' & _ & _ & -> & _). by eexists.
    + etrans; [exact Hst|]. intros p. destruct (decide (p = tmpp)) as [->|]; [rewrite lookup_delete_eq, Ht; naive_solver|]. by rewrite lookup_delete_ne.
  - apply wp_bind. destruct (isEncryptedAttachment n).
    + apply wp_ret. by apply wp_place.
    + eapply wp_mono; [by apply (wp_rotateVersions E C chs dels data nodes0 tmpp t c f Hf Hc Hdir F tr w3)|].
      intros [] w4 K4. apply wp_place; [exact K4|]. by apply rotated_out.
Qed.

End finalize.

(** ** Receiving the content *)

Section receive.
Context (E : FileEnv) (C : quiet_env E).
Context `{!MapRange fileKey FileRow}.
Context (chs : gset Z) (dels : gmap Z nat) (rows : gmap fileKey FileRow) (nodes : gmap path fnode) (data0 : gmap nat (list byte)).
Context (t h conn : nat).

(** The partial file holds [got], and the peer has sent [ins]. *)
Definition receiving (got : list byte) (ins : list (option Frame)) (w : FW) : Prop :=
  look chs dels rows nodes (<[t := got]> data0) w ∧ (∃ off, stands (fw_fs w) h t off) ∧
  (∃ out, fw_conns w !! conn = Some (mkFConn ins out false)).

Lemma does_RecvFrame got frame ins w :
  receiving got (frame :: ins) w → does E (RecvFrame conn) (λ r w', r = frame ∧ receiving got ins w') w.
Proof using Type.
  intros (L & Hh & out & Hc). unfold does, exec, recv. cbn. rewrite Hc. cbn. eexists _, _. split; [done|]. split; [done|].
  split_and!; [by destruct L; split|done|]. exists out. cbn. by rewrite lookup_insert_eq.
Qed.

Lemma does_WriteFile got ins bytes w :
  receiving got ins w → does E (WriteFile h bytes) (λ r w', r = Ok () ∧ receiving (got ++ bytes) ins w') w.
Proof using C.
  intros (L & [off Hh] & Hc). unfold does, exec, sys_write, sys, fs_write. cbn. rewrite (calm_io E (qe_calm E C)). unfold stands in Hh. rewrite Hh.
  destruct L as [? ? Hd ? ? ? Hfr]. eexists _, _. split; [done|]. split; [done|]. split_and!; [|by eexists|done]. split; cbn; try done.
  - by rewrite Hd, lookup_insert_eq, insert_insert_eq.
  - intros i Hi. destruct (lookup_insert_None data0 t i got) as [[H1 H2] _]; [by apply Hfr|]. by rewrite lookup_insert_ne.
Qed.

Lemma wp_limiter_wait lim n got ins w :
  receiving got ins w → wp E (limiter_wait lim n) (λ r w', r = Ok () ∧ receiving got ins w') w.
Proof using C.
  intros R. unfold limiter_wait. destruct lim as [kbps|]; [|by apply wp_ret]. destruct (n =? 0)%nat; [by apply wp_ret|].
  apply wp_vis. eexists _, _. split; [done|]. rewrite (calm_cancel E (qe_calm E C)). apply wp_ret. split; [done|].
  destruct R as ([] & Hh & Hc). by split; [split|].
Qed.

Lemma wp_limiter_for got ins w : receiving got ins w → wp E (limiter_for E) (λ _, receiving got ins) w.
Proof using Type. intros ([] & Hh & Hc). apply wp_vis. eexists _, _. split; [done|]. apply wp_ret. by split; [split|]. Qed.

Lemma does_SyncFile got ins w : receiving got ins w → does E (SyncFile h) (λ r w', r = Ok () ∧ receiving got ins w') w.
Proof using C.
  intros (L & [off Hh] & Hc). unfold does, exec, sys. cbn. rewrite (calm_io E (qe_calm E C)). unfold stands in Hh. rewrite Hh.
  eexists _, _. split; [done|]. split; [done|]. destruct L. split_and!; [by split|by eexists|done].
Qed.

Lemma does_CloseFile got ins w :
  receiving got ins w → does E (CloseFile h) (λ r w', r = Ok () ∧ look chs dels rows nodes (<[t := got]> data0) w') w.
Proof using C.
  intros (L & [off Hh] & Hc). unfold does, exec, sys_close, fs_close. cbn. rewrite (calm_io E (qe_calm E C)). unfold stands in Hh. rewrite Hh.
  eexists _, _. split; [done|]. split; [done|]. destruct L. by split.
Qed.

Lemma wp_receive_loop fuel tr tmpPath final lim got chunks digest rest Q w :
  let content := got ++ concat chunks in
  let sum := hex (fe_sha256 E content) in
  receiving got ((Some ∘ chunk_frame <$> chunks) ++ Some digest :: rest) w →
  fr_Type digest = frameDigest → fe_digest E (fr_Payload digest) = Some sum →
  tr_Size tr = Z.of_nat (length content) → tr_Size tr ≤ max_int64 → (length chunks < fuel)%nat →
  (∀ w', look chs dels rows nodes (<[t := content]> data0) w' → wp E (finalizeUpload E tr tmpPath final (tr_Size tr) sum) Q w') →
  wp E (receive_loop E fuel conn tr h tmpPath final lim (Z.of_nat (length got)) got) Q w.
Proof using C.
  revert got chunks w. induction fuel as [|fuel IH]; intros got chunks w content sum R Hty Hdig Hsize Hmax Hfuel HQ; [lia|].
  cbn [receive_loop]. destruct chunks as [|b chunks].
  - assert (content = got) as Hgot by (unfold content; apply app_nil_r). apply wp_vis. eapply does_mono; [exact (does_RecvFrame got (Some digest) rest w R)|].
    intros frame w1 [-> R1]. rewrite Hty. cbn [Z.eqb frameDigest frameChunk]. rewrite Hdig. unfold sum. rewrite <- Hgot, Hsize, Z.eqb_refl, String.eqb_refl. cbn [negb].
    apply wp_vis. eapply does_mono; [exact (does_SyncFile _ _ _ R1)|]. intros r2 w2 [-> R2]. apply wp_vis. eapply does_mono; [exact (does_CloseFile _ _ _ R2)|].
    intros r3 w3 [-> L3]. rewrite <- Hsize. apply HQ. by rewrite Hgot.
  - assert (content = (got ++ b) ++ concat chunks) as Hsplit by (unfold content; cbn [concat]; by rewrite app_assoc).
    apply wp_vis. eapply does_mono; [exact (does_RecvFrame got (Some (chunk_frame b)) _ w R)|]. intros frame w1 [-> R1]. cbn [chunk_frame fr_Type fr_Payload]. rewrite Z.eqb_refl.
    assert (i64 (Z.of_nat (length got) + Z.of_nat (length b)) = Z.of_nat (length (got ++ b))) as ->.
    { rewrite length_app, Nat2Z.inj_add. apply wrap_s_small; [done|]. unfold max_int64 in Hmax. rewrite Hsize, Hsplit, !length_app in Hmax. lia. }
    rewrite (proj2 (Z.ltb_ge _ _)) by (rewrite Hsize, Hsplit, !length_app; lia).
    apply wp_vis. eapply does_mono; [exact (does_WriteFile _ _ b _ R1)|]. intros r2 w2 [-> R2]. apply wp_bind. eapply wp_mono; [exact (wp_limiter_wait lim (length b) _ _ _ R2)|].
    intros r3 w3 [-> R3]. apply (IH (got ++ b) chunks); rewrite <- ?Hsplit; try done. cbn in Hfuel. lia.
Qed.

End receive.

(** ** Uploads *)

Section starting.
Context (E : FileEnv) (C : quiet_env E).
Context (chs : gset Z) (dels : gmap Z nat) (rows : gmap fileKey FileRow) (data : gmap nat (list byte)).
Context (conn : nat) (ins : list (option Frame)).

(** Nothing is received yet. *)
Definition starting (nodes : gmap path fnode) (w : FW) : Prop :=
  look chs dels rows nodes data w ∧ ∃ out, fw_conns w !! conn = Some (mkFConn ins out false).

Lemma wp_io {A B : Type} (e : act (result ioErr A)) (k : A → prog (result FErr B)) Q w :
  does E e (λ r w', ∃ a, r = Ok a ∧ wp E (k a) Q w') w → wp E (try_prog (io_error (trigger e)) k) Q w.
Proof using Type. intros He. unfold try_prog, io_error, trigger. cbn [prog_bind]. apply wp_vis. eapply does_mono; [done|]. intros r w' (a & -> & HQ). exact HQ. Qed.

Lemma does_OpenBlobRoot nodes w : starting nodes w → does E OpenBlobRoot (λ r w', r = Ok () ∧ starting nodes w') w.
Proof using C.
  intros [[] Hc]. unfold does, exec, sys. cbn. rewrite (calm_io E (qe_calm E C)). eexists _, _. split; [done|]. split; [done|]. by split.
Qed.

Lemma wp_randomHex nodes n w :
  starting nodes w → wp E (randomHex n) (λ r w', ∃ b, r = Ok (hex b) ∧ Forall is_byte b ∧ starting nodes w') w.
Proof using C.
  intros [[] Hc]. unfold randomHex. apply wp_vis. unfold does, exec, yes. cbn. destruct (qe_rnd E C (fw_calls w) n) as (b & Hb & Hbyte). rewrite Hb.
  eexists _, _. split; [done|]. apply wp_ret. exists b. by split_and!.
Qed.

(** Only missing directories on the way are made. *)
Definition made_dirs (dir : path) (nodes nodes' : gmap path fnode) : Prop :=
  ∀ p, nodes' !! p = nodes !! p ∨ nodes !! p = None ∧ nodes' !! p = Some FDir ∧ (length p ≤ length dir)%nat.

Lemma fs_mkdirAll_makes made todo s :
  (∀ k, (length made < k ≤ length (made ++ todo))%nat →
     fs_nodes s !! take k (made ++ todo) = None ∨ fs_nodes s !! take k (made ++ todo) = Some FDir) →
  ∃ nodes', fs_mkdirAll made todo s = (mkFS nodes' (fs_data s) (fs_handles s) (fs_next s), Ok ()) ∧
    (todo = [] ∨ nodes' !! (made ++ todo) = Some FDir) ∧ made_dirs (made ++ todo) (fs_nodes s) nodes'.
Proof using Type.
  revert made s. induction todo as [|d todo IH]; intros made s Hok; cbn [fs_mkdirAll].
  { exists (fs_nodes s). split_and!; [by destruct s|by left|by left]. }
  assert (made ++ d :: todo = (made ++ [d]) ++ todo) as Hq by (by rewrite <- app_assoc). rewrite Hq in Hok |- *.
  assert (fs_nodes s !! (made ++ [d]) = None ∨ fs_nodes s !! (made ++ [d]) = Some FDir) as Hd.
  { rewrite <- (take_app_length (made ++ [d]) todo). apply Hok. rewrite !length_app. cbn. lia. }
  assert (∀ s' : FS, (∀ p, (length (made ++ [d]) < length p)%nat → fs_nodes s' !! p = fs_nodes s !! p) →
    ∀ k, (length (made ++ [d]) < k ≤ length ((made ++ [d]) ++ todo))%nat →
      fs_nodes s' !! take k ((made ++ [d]) ++ todo) = None ∨ fs_nodes s' !! take k ((made ++ [d]) ++ todo) = Some FDir) as Hnext.
  { intros s' Hs k Hk. rewrite Hs by (rewrite length_take; lia). apply Hok. rewrite !length_app in *. cbn in *. lia. }
  assert (∀ nodes' : gmap path fnode, nodes' !! (made ++ [d]) = Some FDir → (todo = [] ∨ nodes' !! ((made ++ [d]) ++ todo) = Some FDir) →
    d :: todo = [] ∨ nodes' !! ((made ++ [d]) ++ todo) = Some FDir) as Hend.
  { intros nodes' H1 [->|H2]; right; [by rewrite app_nil_r|done]. }
  destruct Hd as [Hd|Hd]; rewrite Hd.
  - destruct (IH (made ++ [d]) (set_nodes <[made ++ [d] := FDir]> s)) as (nodes' & -> & Hdir & Hm).
    { apply Hnext. intros p Hp. cbn. apply lookup_insert_ne. intros <-. lia. }
    cbn [fs_data fs_handles fs_next set_nodes fs_nodes] in *. exists nodes'. split_and!; [done| |].
    + apply Hend; [|done]. destruct (Hm (made ++ [d])) as [->|(_ & -> & _)]; [by rewrite lookup_insert_eq|done].
    + intros p. destruct (decide (p = made ++ [d])) as [->|Hne].
      * right. destruct (Hm (made ++ [d])) as [->|(H & _)]; [|by rewrite lookup_insert_eq in H]. rewrite lookup_insert_eq, !length_app. split_and!; [done..|lia].
      * specialize (Hm p). by rewrite lookup_insert_ne in Hm.
  - destruct (IH (made ++ [d]) s) as (nodes' & -> & Hdir & Hm); [by apply Hnext|]. exists nodes'. split_and!; [done| |done].
    apply Hend; [|done]. destruct (Hm (made ++ [d])) as [->|(H & _)]; [done|congruence].
Qed.

Lemma does_MkdirAll nodes name dir w : resolve name = Ok dir → dir ≠ [] →
  (∀ k, (0 < k ≤ length dir)%nat → nodes !! take k dir = None ∨ nodes !! take k dir = Some FDir) → starting nodes w →
  does E (MkdirAll name) (λ r w', r = Ok () ∧ ∃ nodes', made_dirs dir nodes nodes' ∧ nodes' !! dir = Some FDir ∧ starting nodes' w') w.
Proof using C.
  intros Hdir Hne Hok [[Hr Hn Hd ? ? ? ?] Hc]. unfold does, exec, sys, at_. cbn. rewrite (calm_io E (qe_calm E C)), Hdir.
  destruct (fs_mkdirAll_makes [] dir (fw_fs w)) as (nodes' & Hm & Hlast & Hmade); [by rewrite Hn|]. rewrite Hm, Hn in *.
  eexists _, _. split; [done|]. split; [done|]. exists nodes'. split_and!; [done|by destruct Hlast|]. by split.
Qed.

Lemma does_OpenExcl nodes name p w : resolve name = Ok p → p ≠ [] → nodes !! p = None → nodes !! parent p = Some FDir → starting nodes w →
  does E (OpenExcl name)
    (λ r w', ∃ t h, r = Ok h ∧ data !! t = None ∧ receiving chs dels rows (<[p := FReg t]> nodes) data t h conn [] ins w') w.
Proof using C.
  intros Hp Hne Hfree Hdir [[Hr Hn Hd ? ? ? Hfr] Hc]. unfold does, exec, sys, at_, fs_openExcl. cbn. rewrite (calm_io E (qe_calm E C)), Hp, Hn, Hfree.
  assert (is_dir (parent p) (fw_fs w) = true) as -> by (by apply (dir_is_dir nodes); [|right]). rewrite bool_decide_true by done. cbn.
  eexists _, _. split; [done|]. exists (fs_next (fw_fs w)), (S (fs_next (fw_fs w))). split_and!; [done|by apply Hfr|].
  split_and!; [|exists 0%nat; unfold stands; cbn; by rewrite lookup_insert_eq|done]. split; cbn; try congruence.
  intros i Hi. rewrite lookup_insert_ne by lia. apply Hfr. lia.
Qed.

End starting.

(** ** The refinement *)

Lemma consistent_grow (E : FileEnv) (rows : gmap fileKey FileRow) (nodes nodes' : gmap path fnode) (data data' : gmap nat (list byte)) :
  consistent E rows nodes data → (∀ p, nodes' !! p = nodes !! p ∨ nodes !! p = None) → (∀ i, data' !! i = data !! i ∨ data !! i = None) →
  consistent E rows nodes' data' ∧ ∀ k, file_of rows nodes' data' k = file_of rows nodes data k.
Proof.
  intros Hc Hn Hd. assert (∀ k row, rows !! k = Some row → ∃ i b, nodes !! kpath k = Some (FReg i) ∧ nodes' !! kpath k = Some (FReg i) ∧
    data !! i = Some b ∧ data' !! i = Some b) as Hkeep.
  { intros k row Hr. destruct (consistent_file E _ _ _ _ _ Hc Hr) as (_ & _ & i & b & Hi & Hb & _). exists i, b.
    destruct (Hn (kpath k)) as [->|?], (Hd i) as [->|?]; try congruence. by split_and!. }
  split.
  - intros c f n row Hr. destruct (Hc c f n row Hr) as (H1 & H2 & i & b & Hi & Hb & H3). split_and!; [done..|].
    destruct (Hkeep _ _ Hr) as (i' & b' & Hi1 & Hi2 & Hb1 & Hb2). exists i', b'. split_and!; [done..| |].
    all: unfold kpath in Hi1; cbn in Hi1; naive_solver.
  - intros k. apply file_of_same; [done|]. intros row Hr. destruct (Hkeep _ _ Hr) as (i & b & H1 & H2 & H3 & H4). unfold content_at. by rewrite H1, H2, H3, H4.
Qed.

Section upload.
Context (E : FileEnv).
Context `{!MapRange fileKey FileRow}.

(** A store at rest. *)
Record stored (w : FW) : Prop := {
  st_consistent : consistent E (fd_files (fw_db w)) (fs_nodes (fw_fs w)) (fs_data (fw_fs w));
  st_fresh : ∀ i, (fs_next (fw_fs w) ≤ i)%nat → fs_data (fw_fs w) !! i = None;
  st_unlocked : fw_writer w = false;
}.

Definition dir_of (tr : transfer) : path := pretty (tr_ChannelID tr) :: folder_comps (tr_Folder tr).

(** The upload may take its place: the names it and its versions need are no
    directories, and the digest of the content is that of no other blob. *)
Record uploadable (tr : transfer) (content : list byte) (w : FW) : Prop := {
  up_folder : good_folder (fe_ToUpper E) (tr_Folder tr);
  up_name : plain (tr_Name tr);
  up_channel : tr_ChannelID tr ∈ fd_channels (fw_db w);
  up_live : fw_deleted w !! tr_ChannelID tr = None;
  up_dirs : ∀ k, (0 < k ≤ length (dir_of tr))%nat →
    fs_nodes (fw_fs w) !! take k (dir_of tr) = None ∨ fs_nodes (fw_fs w) !! take k (dir_of tr) = Some FDir;
  up_free : file_or_free (fs_nodes (fw_fs w)) (dir_of tr ++ [tr_Name tr]);
  up_versions : ∀ v, (1 ≤ v ≤ maxFileVersions)%nat → file_or_free (fs_nodes (fw_fs w)) (dir_of tr ++ [version_name (tr_Name tr) v]);
  up_partial : ∀ s, fs_nodes (fw_fs w) !! (dir_of tr ++ [tr_Name tr +:+ ".part-" +:+ s]) = None;
  up_collision : ∀ i b, fs_data (fw_fs w) !! i = Some b → hex (fe_sha256 E b) = hex (fe_sha256 E content) → b = content;
  up_attachment : isEncryptedAttachment (tr_Name tr) = true →
    tr_Name tr = String.substring 0 encryptedNameLen (hex (fe_sha256 E content)) +:+ encryptedSuffix;
}.

Lemma kpath_dir tr n : kpath (tr_ChannelID tr, tr_Folder tr, n) = dir_of tr ++ [n].
Proof. done. Qed.

Lemma partial_not_version n s v : n +:+ ".part-" +:+ s ≠ version_name n v.
Proof. unfold version_name. intros Heq%(f_equal chars_of). rewrite !chars_app in Heq. apply app_inv_head in Heq. cbn in Heq. congruence. Qed.

Lemma partial_longer n s : n +:+ ".part-" +:+ s ≠ n.
Proof. intros Heq%(f_equal (λ s, length (chars_of s))). rewrite !chars_app, !length_app in Heq. cbn in Heq. lia. Qed.

Lemma finished_stored chs dels data nodes0 tr content F r w :
  finished_with E chs dels data nodes0 tr content F r w →
  r = Ok () ∧ ∃ row, row_for E tr content row ∧ (∀ k, files_of w k = with_file tr content row F k) ∧ stored w.
Proof.
  intros (-> & row & Hrow & rows & nodes & [] & Hcons & HF & _). split; [done|]. exists row. split; [done|]. subst rows nodes data. split; [exact HF|by split].
Qed.

Context (C : quiet_env E).

Lemma wp_receiveUpload fuel conn tr chunks digest rest out w :
  let content := concat chunks in
  stored w → uploadable tr content w →
  fw_conns w !! conn = Some (mkFConn ((Some ∘ chunk_frame <$> chunks) ++ Some digest :: rest) out false) →
  fr_Type digest = frameDigest → fe_digest E (fr_Payload digest) = Some (hex (fe_sha256 E content)) →
  tr_Size tr = Z.of_nat (length content) → tr_Size tr ≤ max_int64 → (length chunks < fuel)%nat →
  wp E (receiveUpload E fuel conn tr)
    (λ r w', r = Ok () ∧ ∃ row, row_for E tr content row ∧
       (∀ k, files_of w' k = with_file tr content row (rest_of E tr content (files_of w)) k) ∧ stored w') w.
Proof using C.
  intros content [Hcons Hfr Hlock] U Hconn Hty Hdig Hsize Hmax Hfuel. destruct U as [Hf Hn Hc Hlive Hdirs Hfree Hver Hpart Hcoll Henc].
  unfold receiveUpload. set (ins := _ ++ _) in Hconn. set (chs := fd_channels (fw_db w)) in *. set (dels := fw_deleted w) in *.
  set (rows := fd_files (fw_db w)) in *. set (nodes := fs_nodes (fw_fs w)) in *. set (data := fs_data (fw_fs w)) in *.
  assert (starting chs dels rows data conn ins nodes w) as S0 by (by split; [split|exists out]).
  apply wp_io. eapply does_mono; [by apply (does_OpenBlobRoot E C chs dels rows data conn ins)|]. intros ? w1 [-> S1]. exists (). split; [done|].
  pose proof (resolve_blobDir _ (tr_ChannelID tr) _ _ Hf Hn) as Hres.
  apply wp_io. eapply does_mono; [by apply (does_MkdirAll E C chs dels rows data conn ins nodes _ (dir_of tr) w1 Hres)|].
  intros ? w2 (-> & nodes' & Hmade & Hdir & S2). exists (). split; [done|]. unfold try_prog at 1. apply wp_bind.
  eapply wp_mono; [by apply (wp_randomHex E C chs dels rows data conn ins nodes')|]. intros ? w3 (b & -> & Hb & S3).
  set (suffix := ".part-" +:+ hex b). set (tmpp := dir_of tr ++ [tr_Name tr +:+ suffix]).
  assert (resolve (blobPath (tr_ChannelID tr) (tr_Folder tr) (tr_Name tr) +:+ suffix) = Ok tmpp) as Htmp.
  { apply (resolve_tmp (fe_ToUpper E)); [done|done| |].
    - unfold slash_free, suffix. rewrite chars_app, elem_of_app. intros [H|H]; [cbn in H; set_solver|]. by apply (hex_slash_free b).
    - unfold suffix. rewrite <- chars_length, chars_app, length_app. cbn. lia. }
  assert (∀ p, (length (dir_of tr) < length p)%nat → nodes' !! p = nodes !! p) as Hdeep.
  { intros p Hp. destruct (Hmade p) as [->|(_ & _ & ?)]; [done|lia]. }
  assert (length tmpp = S (length (dir_of tr))) as Hlen by (unfold tmpp; rewrite length_app; cbn; lia).
  assert (nodes !! tmpp = None) as Hnone by apply Hpart. assert (nodes' !! tmpp = None) as Hnone' by (rewrite Hdeep by lia; done).
  apply wp_io. eapply does_mono; [apply (does_OpenExcl E C chs dels rows data conn ins nodes' _ tmpp w3 Htmp); [done|done| |done]|].
  { unfold tmpp. rewrite <- kpath_dir. unfold kpath. rewrite parent_blob. exact Hdir. }
  intros ? w4 (t & h & -> & Ht & R4). exists h. split; [done|]. apply wp_bind. set (nodes1 := <[tmpp := FReg t]> nodes') in *.
  eapply wp_mono; [exact (wp_limiter_for E chs dels rows nodes1 data t h conn [] ins w4 R4)|]. intros lim w5 R5.
  assert (∀ n, n ≠ tr_Name tr +:+ suffix → nodes1 !! (dir_of tr ++ [n]) = nodes !! (dir_of tr ++ [n])) as Hsame.
  { intros n Hne. unfold nodes1. rewrite lookup_insert_ne; [apply Hdeep; rewrite length_app; cbn; lia|]. unfold tmpp. intros [_ [= Heq]]%app_inj_2; done. }
  assert (∀ n, n ≠ tr_Name tr +:+ suffix → file_or_free nodes (dir_of tr ++ [n]) → file_or_free nodes1 (dir_of tr ++ [n])) as Hff.
  { intros n Hne. unfold file_or_free. by rewrite Hsame. }
  pose proof (partial_longer (tr_Name tr) (hex b)) as Hlong. fold suffix in Hlong.
  assert (∀ v, version_name (tr_Name tr) v ≠ tr_Name tr +:+ suffix) as Hnv by (intros v; apply not_eq_sym, partial_not_version).
  destruct (consistent_grow E rows nodes nodes1 data (<[t := content]> data) Hcons) as [Hcons1 HF1].
  { intros p. unfold nodes1. destruct (decide (p = tmpp)) as [->|]; [by right|]. rewrite lookup_insert_ne by done. destruct (Hmade p) as [->|(-> & _)]; [by left|by right]. }
  { intros i. destruct (decide (i = t)) as [->|]; [by right|left]. by apply lookup_insert_ne. }
  eapply wp_mono; [|intros r w' Hfin; exact (finished_stored chs dels (<[t := content]> data) nodes1 tr content _ r w' Hfin)].
  change 0 with (Z.of_nat (length (@nil byte))).
  refine (wp_receive_loop E C chs dels rows nodes1 data t h conn fuel tr _ _ lim [] chunks digest rest _ _ _ Hty Hdig Hsize Hmax Hfuel _); [done|]. intros w6 L6. rewrite Hsize.
  eapply (wp_finalizeUpload E C chs dels (<[t := content]> data) nodes1 _ tmpp t tr content); try done.
  - right. unfold nodes1. rewrite lookup_insert_ne; [exact Hdir|]. intros Heq. rewrite Heq in Hlen. fold (dir_of tr) in Hlen. lia.
  - rewrite kpath_dir. apply Hff; [by apply not_eq_sym|done].
  - intros v Hv. unfold version_key. rewrite kpath_dir. split; [by apply Hff; [|apply Hver]|]. unfold tmpp. intros [_ [= Heq]]%app_inj_2; [|done]. by apply (Hnv v).
  - rewrite kpath_dir. unfold tmpp. by intros [_ [= Heq]]%app_inj_2.
  - by rewrite lookup_insert_eq.
  - intros i b'. destruct (decide (i = t)) as [->|]; [rewrite lookup_insert_eq; by intros [= <-]|]. rewrite lookup_insert_ne by done. apply Hcoll.
  - exists rows, nodes1. split_and!; [done|done|exact HF1|done|]. unfold nodes1. by rewrite lookup_insert_eq.
  - intros k [[row b'] Hk] Heq. unfold files_of in Hk. fold rows nodes data in Hk. unfold file_of, content_at in Hk. rewrite Heq, Hnone in Hk. by destruct (rows !! k).
Qed.


End upload.

(** A second upload of a name. *)
Definition upload_content : list byte := [4; 5].
Definition upload_row : FileRow := mkFileRow 0 3 (hex (toy_sha [1; 2; 3])) "ada" false 0.
Definition upload_digest : Frame := {| fr_Type := frameDigest; fr_Payload := toy_sha upload_content |}.
Definition upload_world : FW :=
  mkFW (mkFS {[ ["7"] := FDir; ["7"; "x"] := FReg 0 ]} {[0%nat := [1; 2; 3]]} ∅ 1) (mkFileDB {[(7, ""%string, "x"%string) := upload_row]} {[7]} 1 0)
    ∅ ∅ ∅ 0 ∅ ∅ 0 false (mkRegistry ∅ ∅ ∅) false
    {[0%nat := mkFConn ((Some ∘ chunk_frame <$> [[4]; [5]]) ++ Some upload_digest :: []) [] false]} 0.
Definition upload_transfer : transfer := mkTransfer "id" "token" "upload" 7 "" "x" 2 "bob" 0.

Lemma toy_quiet : quiet_env toy.
Proof. split; [by split|done|]. intros n k. exists (toy_rnd n). split; [done|]. apply Forall_replicate. unfold is_byte. lia. Qed.

Lemma upload_nodes_free n : n ≠ "x" → fs_nodes (fw_fs upload_world) !! ["7"; n] = None.
Proof. intros Hn. cbn. rewrite lookup_insert_ne by done. apply lookup_singleton_None. congruence. Qed.

Lemma upload_stored : stored toy upload_world.
Proof.
  split; [|intros i Hi; apply lookup_singleton_None; cbn in Hi; lia|done].
  intros c f n row Hrow. cbn in Hrow. apply lookup_singleton_Some in Hrow as [[= <- <- <-] <-]. split_and!; [by vm_compute|by apply (bool_decide_unpack _); vm_compute|].
  exists 0%nat, [1; 2; 3]. split_and!; by vm_compute.
Qed.

Lemma upload_uploadable : uploadable toy upload_transfer upload_content upload_world.
Proof.
  split.
  - by vm_compute.
  - by apply (bool_decide_unpack _); vm_compute.
  - change (7 ∈ ({[7]} : gset Z)). by apply elem_of_singleton.
  - done.
  - intros k Hk. right. cbn in Hk. replace k with 1%nat by lia. by vm_compute.
  - right. exists 0%nat. by vm_compute.
  - intros v _. left. by apply upload_nodes_free.
  - intros s. by apply upload_nodes_free.
  - intros i b Hb Heq. cbn in Hb. apply lookup_singleton_Some in Hb as [<- <-]. by vm_compute in Heq.
  - by vm_compute.
Qed.

