(* ===== verification/FileRequests.v ===== *)
(** * What a file request may change

    The requests of [server/files.go] run undisturbed on any world: each changes
    nothing, or exactly what it is for, and then the client had the right to it. *)

From Stdlib Require Import Ascii.
From stdpp Require Import pretty.
From S2P Require Import Prelude Permissions StateManager PermCheck ChatText GoStrings Wire GoState ChatKeys AuthService ServerWorld FileNames FileStore FileWorld FileTransfer FileHandlers FileThreads FileDisc FileSafety FileBytes FileUploads.

(** ** Footprints *)

(** Nothing but the rows in [K], and the disk if [disk], has changed; links may have expired. *)
Record within (K : fileKey → Prop) (disk : Prop) (w w' : FW) : Prop := {
  wi_rows : ∀ k, ¬ K k → fd_files (fw_db w') !! k = fd_files (fw_db w) !! k;
  wi_disk : ¬ disk → fs_nodes (fw_fs w') = fs_nodes (fw_fs w) ∧ fs_data (fw_fs w') = fs_data (fw_fs w);
  wi_tokens : fw_transfers w' = fw_transfers w;
  wi_links : ∀ t l, lr_links (fw_links w') !! t = Some l → lr_links (fw_links w) !! t = Some l;
}.

Abbreviation unchanged := (within (λ _, False) False).

#[export] Instance within_refl K disk : Reflexive (within K disk).
Proof. by split. Qed.

#[export] Instance within_trans K disk : Transitive (within K disk).
Proof.
  intros w1 w2 w3 [Hr Hd Ht Hl] [Hr' Hd' Ht' Hl']. split.
  - intros k Hk. by rewrite Hr', Hr.
  - intros Hk. destruct (Hd Hk) as [H1 H2], (Hd' Hk) as [H3 H4]. split; congruence.
  - congruence.
  - eauto.
Qed.

Lemma within_mono (K K' : fileKey → Prop) (disk disk' : Prop) w w' :
  (∀ k, K k → K' k) → (disk → disk') → within K disk w w' → within K' disk' w w'.
Proof. intros HK Hd [Hr Hk Ht Hl]. split; [intros k Hn; apply Hr; auto|auto|done|done]. Qed.

Lemma unchanged_within K disk w w' : unchanged w w' → within K disk w w'.
Proof. intros U. by apply (within_mono (λ _, False) K False disk). Qed.

Lemma unchanged_rows w w' : unchanged w w' → ∀ k, fd_files (fw_db w') !! k = fd_files (fw_db w) !! k.
Proof. intros U k. apply (wi_rows _ _ _ _ U). auto. Qed.

(** ** Partial correctness *)

Section wlp.
Context (E : FileEnv).

Definition wlp {A : Type} (m : prog A) (Q : A → FW → Prop) (w : FW) : Prop := ∀ w' a, run_alone E m w = Some (w', a) → Q a w'.

Lemma wlp_ret {A : Type} (a : A) (Q : A → FW → Prop) w : Q a w → wlp (Ret a) Q w.
Proof. intros HQ w' a' [= <- <-]. exact HQ. Qed.

Lemma wlp_bind {A B : Type} (m : prog A) (k : A → prog B) (Q : B → FW → Prop) w : wlp m (λ a, wlp (k a) Q) w → wlp (prog_bind m k) Q w.
Proof. intros Hm w' b. rewrite run_alone_bind. destruct (run_alone E m w) as [[w1 a]|] eqn:H1; [|done]. by apply (Hm w1 a). Qed.

Lemma wlp_mono {A : Type} (m : prog A) (Q Q' : A → FW → Prop) w : wlp m Q w → (∀ a w', Q a w' → Q' a w') → wlp m Q' w.
Proof. intros Hm Hi w' a Hr. apply Hi. by apply Hm. Qed.

Lemma wlp_vis {A B : Type} (e : act B) (k : B → prog A) (Q : A → FW → Prop) w :
  (∀ w' b, exec E e w = Some (w', b) → wlp (k b) Q w') → wlp (Vis e k) Q w.
Proof. intros He w' a. cbn [run_alone]. destruct (exec E e w) as [[w1 b]|] eqn:H1; [|done]. by apply (He w1 b). Qed.

Definition stays (K : fileKey → Prop) (disk : Prop) {A : Type} (m : prog A) : Prop := ∀ w, wlp m (λ _, within K disk w) w.

(** What an access other than a statement may do. *)
Definition mild (disk : Prop) {B} (e : act B) : Prop :=
  match e with
  | Publish _ _ | Take _ | Begin _ | LinkAdd _ _ | LinkRevoke _ | Db _ => False
  | Remove _ | Rename _ _ | Link _ _ | MkdirAll _ | OpenExcl _ | WriteFile _ _ | RemoveAll _ => disk
  | _ => True
  end.

Lemma mild_within K disk {B} (e : act B) w w' b : mild disk e → exec E e w = Some (w', b) → within K disk w w'.
Proof.
  destruct e; cbn [mild]; try done; intros Hm He;
    unfold exec, sys, at_, yes, sys_close, sys_write, sys_removeAll, fs_open, fs_read, fs_stat, fs_close, fs_lstat, fs_readDir, activate, deactivate, recv, send, close_conn in He;
    cbn in He; repeat (case_match; simplify_eq/=; try unfold sys, at_ in He); simplify_eq/=; try done; split; cbn; try done.
  by intros t l [? _]%map_lookup_filter_Some.
Qed.

Lemma stays_ret K disk {A : Type} (a : A) : stays K disk (Ret a).
Proof. intros w. by apply wlp_ret. Qed.

Lemma stays_bind K disk {A B : Type} (m : prog A) (k : A → prog B) : stays K disk m → (∀ a, stays K disk (k a)) → stays K disk (prog_bind m k).
Proof.
  intros Hm Hk w. apply wlp_bind. eapply wlp_mono; [apply Hm|]. intros a w1 H1. eapply wlp_mono; [apply Hk|]. intros b w2 H2. by transitivity w1.
Qed.

Lemma stays_vis K disk {A B : Type} (e : act B) (k : B → prog A) : mild disk e → (∀ b, stays K disk (k b)) → stays K disk (Vis e k).
Proof.
  intros He Hk w. apply wlp_vis. intros w1 b H1. apply (mild_within K disk) in H1; [|done]. eapply wlp_mono; [apply Hk|]. intros a w2 H2. by transitivity w1.
Qed.

Lemma stays_Db K disk {A : Type} (m : FileDB → FileDB * result FErr A) :
  (∀ d k, ¬ K k → fd_files (m d).1 !! k = fd_files d !! k) → stays K disk (trigger (Db m)).
Proof.
  intros Hm w w' r. unfold trigger. cbn [run_alone]. unfold exec, yes. destruct (m _) as [d a] eqn:Hd. intros [= <- <-]. cbn in Hd.
  split; cbn; try done. intros k Hk. rewrite <- (Hm (fw_db w) k Hk). by rewrite Hd.
Qed.

Lemma stays_mono (K K' : fileKey → Prop) (disk disk' : Prop) {A : Type} (m : prog A) :
  (∀ k, K k → K' k) → (disk → disk') → stays K disk m → stays K' disk' m.
Proof. intros HK Hd Hm w. eapply wlp_mono; [apply Hm|]. intros a w'. by apply within_mono. Qed.

End wlp.

(** ** Statements *)

Section statements.
Context (E : FileEnv).
Context `{!MapRange fileKey FileRow}.
Context (K : fileKey → Prop) (disk : Prop).
#[local] Instance name_le_decidable : RelDecision (fe_name_le E) := fe_name_le_dec E.

Lemma file_call_rows {A} (op : Z → FileDB → FileDB * result FErr A) d k :
  (∀ t d', fd_files d' = fd_files d → fd_files (op t d').1 !! k = fd_files d !! k) →
  fd_files (file_call (fe_db E) (fe_now_db E) op d).1 !! k = fd_files d !! k.
Proof using Type. intros Hop. unfold file_call. destruct (fe_db E (fd_calls d)); cbn; [by apply Hop|done|by apply Hop]. Qed.

Lemma stays_query {A} (f : FileDB → result FErr A) : stays E K disk (trigger (Db (file_query (fe_db E) (fe_now_db E) f))).
Proof using Type. apply stays_Db. intros d k _. unfold file_query. apply file_call_rows. intros t d' Hd. cbn. by rewrite Hd. Qed.

Lemma stays_UploaderFileUsage u : stays E K disk (db_UploaderFileUsage E u).
Proof using Type. unfold db_UploaderFileUsage, UploaderFileUsage. destruct (String.eqb u ""); [by apply stays_Db|apply stays_query]. Qed.

Lemma stays_DeleteRow c f n : K (c, f, n) → stays E K disk (db_DeleteFile E c f n).
Proof using Type.
  intros HK. apply stays_Db. intros d k Hk. unfold DeleteFile_row. apply file_call_rows. intros t d' Hd.
  destruct (fd_files d' !! (c, f, n)); cbn; rewrite Hd; [|done]. apply lookup_delete_ne. congruence.
Qed.

Lemma stays_MoveRow c f n c' f' n' : K (c, f, n) → K (c', f', n') → stays E K disk (db_MoveFile E c f n c' f' n').
Proof using Type.
  intros HK HK'. apply stays_Db. intros d k Hk. unfold MoveFile_row. apply file_call_rows. intros t d' Hd.
  destruct (fd_files d' !! (c, f, n)); cbn; [|by rewrite Hd]. destruct (_ && _); cbn; [by rewrite Hd|]. case_bool_decide; cbn; rewrite Hd; [|done].
  rewrite lookup_insert_ne, lookup_delete_ne by congruence. done.
Qed.

End statements.

Ltac stays_step :=
  match goal with
  | |- stays _ _ _ (Ret _) => apply stays_ret
  | |- stays _ _ _ (Vis _ _) => apply stays_vis; [by first [done|cbn; auto]|intros ?]
  | |- stays _ _ _ (prog_bind _ _) => apply stays_bind; [|intros ?]
  | |- stays _ _ _ (match ?x with _ => _ end) => destruct x
  | |- stays _ _ _ (try_prog _ _) => unfold try_prog
  | |- stays _ _ _ (io_error _) => unfold io_error
  | |- stays _ _ _ (pure_prog _) => unfold pure_prog
  | |- stays _ _ _ (trigger (Db (file_query _ _ _))) => apply stays_query
  | |- stays _ _ _ (trigger _) => unfold trigger
  | |- stays _ _ _ _ => by auto with stays
  end.
Ltac stays := repeat stays_step.
Create HintDb stays.
#[export] Hint Resolve stays_UploaderFileUsage stays_DeleteRow stays_MoveRow : stays.

(** ** The operations *)

Section operations.
Context (E : FileEnv).
Context `{!MapRange fileKey FileRow}.
Context (K : fileKey → Prop) (disk : Prop).

Lemma stays_db_GetFile c f n : stays E K disk (db_GetFile E c f n).
Proof using Type. apply stays_query. Qed.
Lemma stays_db_ListFiles c f : stays E K disk (db_ListFiles E c f).
Proof using Type. apply stays_query. Qed.
Lemma stays_db_ListFileFolders c : stays E K disk (db_ListFileFolders E c).
Proof using Type. apply stays_query. Qed.
Lemma stays_db_ListFileVersions c f n : stays E K disk (db_ListFileVersions E c f n).
Proof using Type. apply stays_query. Qed.
Lemma stays_db_ChannelFileUsage c : stays E K disk (db_ChannelFileUsage E c).
Proof using Type. apply stays_query. Qed.
#[local] Hint Resolve stays_db_GetFile stays_db_ListFiles stays_db_ListFileFolders stays_db_ListFileVersions stays_db_ChannelFileUsage : stays.

Lemma stays_randomHex n : stays E K disk (randomHex n).
Proof using Type. unfold randomHex. stays. Qed.

Lemma stays_ListFiles c f : stays E K disk (ListFiles E c f).
Proof using Type. unfold ListFiles. stays. Qed.
Lemma stays_ListFileFolders c : stays E K disk (ListFileFolders E c).
Proof using Type. unfold ListFileFolders. stays. Qed.
Lemma stays_ListFileVersions c f n : stays E K disk (ListFileVersions E c f n).
Proof using Type. unfold ListFileVersions. stays. Qed.
Lemma stays_ChannelQuotaState c : stays E K disk (ChannelQuotaState E c).
Proof using Type. unfold ChannelQuotaState. stays. Qed.
Lemma stays_UploaderQuotaState u limit : stays E K disk (UploaderQuotaState E u limit).
Proof using Type. unfold UploaderQuotaState. stays. Qed.
#[local] Hint Resolve stays_ChannelQuotaState stays_UploaderQuotaState : stays.
Lemma stays_ChannelQuota c : stays E K disk (ChannelQuota E c).
Proof using Type. unfold ChannelQuota. stays. Qed.
Lemma stays_check_quota limit state size e : stays E K disk state → stays E K disk (check_quota limit state size e).
Proof using Type. intros Hs. unfold check_quota. stays. Qed.

Lemma stays_openRegularBlob name : stays E K disk (openRegularBlob name).
Proof using Type. unfold openRegularBlob. stays. Qed.

Lemma stays_DeleteFile c f n : K (c, f, n) → disk → stays E K disk (DeleteFile E c f n).
Proof using Type.
  intros HK Hd. unfold DeleteFile, try_prog, pure_prog. cbn [prog_bind].
  destruct (sanitizeName _ n) as [n'|] eqn:Hn; [|stays]. apply sanitizeName_Ok in Hn as (-> & _). cbn [prog_bind].
  destruct (sanitizeFolder _ f) as [f'|] eqn:Hf; [|stays]. apply sanitizeFolder_Ok in Hf as (-> & _). stays.
Qed.

Lemma stays_copyBlobAndRemove fuel p q : disk → stays E K disk (copyBlobAndRemove fuel p q).
Proof using Type.
  intros Hd. assert (∀ dst src, stays E K disk (copy_loop fuel dst src)) as Hcopy.
  { induction fuel as [|fuel IH]; intros dst src; cbn [copy_loop]; stays. }
  pose proof stays_openRegularBlob as Hopen. unfold copyBlobAndRemove. stays.
Qed.

Lemma stays_moveBlob fuel p q : disk → stays E K disk (moveBlob fuel p q).
Proof using Type. intros Hd. pose proof (stays_copyBlobAndRemove fuel p q Hd). unfold moveBlob. stays. Qed.

Lemma stays_MoveFile fuel c f n c' f' n' :
  K (c, f, n) → K (if c' =? 0 then c else c', f', n') → disk → stays E K disk (MoveFile E fuel c f n c' f' n').
Proof using Type.
  intros HK HK' Hd. unfold MoveFile, try_prog, pure_prog. cbn [prog_bind].
  destruct (sanitizeName _ n) as [?|] eqn:Hn; [|stays]. apply sanitizeName_Ok in Hn as (-> & _). cbn [prog_bind].
  destruct (sanitizeName _ n') as [?|] eqn:Hn'; [|stays]. apply sanitizeName_Ok in Hn' as (-> & _). cbn [prog_bind].
  destruct (sanitizeFolder _ f) as [?|] eqn:Hf; [|stays]. apply sanitizeFolder_Ok in Hf as (-> & _). cbn [prog_bind].
  destruct (sanitizeFolder _ f') as [?|] eqn:Hf'; [|stays]. apply sanitizeFolder_Ok in Hf' as (-> & _).
  pose proof (λ p q, stays_moveBlob fuel p q Hd) as Hmove. set (target := if c' =? 0 then c else c') in *. clearbody target. unfold move_locked. stays.
Qed.

End operations.
#[export] Hint Resolve stays_randomHex stays_ListFiles stays_ListFileFolders stays_ListFileVersions stays_ChannelQuota stays_check_quota
  stays_ChannelQuotaState stays_UploaderQuotaState stays_openRegularBlob stays_db_GetFile : stays.

(** ** Tokens and links *)

Lemma unchanged_files w w' : unchanged w w' → fd_files (fw_db w') = fd_files (fw_db w).
Proof. intros U. apply map_eq, (unchanged_rows _ _ U). Qed.

Lemma unchanged_on_transfers f w w' : unchanged w w' → unchanged (on_transfers f w) (on_transfers f w').
Proof. intros [Hr Hd Ht Hl]. split; cbn; [done|done|by rewrite Ht|done]. Qed.

Lemma unchanged_LinkAdd token l w w' :
  unchanged w w' → unchanged (on_links (on_lr_links <[token := l]>) w) (on_links (on_lr_links <[token := l]>) w').
Proof.
  intros [Hr Hd Ht Hl]. split; cbn; [done|done|done|]. intros t l'. rewrite !lookup_insert_Some. intros [?|[? ?]]; [by left|right]. split; [done|by apply Hl].
Qed.

Section effects.
Context (E : FileEnv).
Context `{!MapRange fileKey FileRow}.

(** From a world that is [w0] but for what passes. *)
Lemma wlp_passing {A B : Type} (m : prog A) (k : A → prog B) Q w0 w :
  unchanged w0 w → stays E (λ _, False) False m → (∀ a w1, unchanged w0 w1 → wlp E (k a) Q w1) → wlp E (prog_bind m k) Q w.
Proof. intros U Hm Hk. apply wlp_bind. eapply wlp_mono; [apply Hm|]. intros a w1 U1. apply Hk. by transitivity w. Qed.

Lemma wlp_mild {A B : Type} (e : act B) (k : B → prog A) Q w0 w :
  unchanged w0 w → mild False e → (∀ b w1, unchanged w0 w1 → wlp E (k b) Q w1) → wlp E (Vis e k) Q w.
Proof.
  intros U He Hk. apply wlp_vis. intros w1 b H1. apply Hk. transitivity w; [done|]. by eapply mild_within.
Qed.

Lemma wlp_query {A B : Type} (f : FileDB → result FErr A) (k : result FErr A → prog B) Q w0 w :
  unchanged w0 w →
  (∀ w1 r, unchanged w0 w1 → (∀ a, r = Ok a → ∃ d, fd_files d = fd_files (fw_db w0) ∧ f d = Ok a) → wlp E (k r) Q w1) →
  wlp E (prog_bind (trigger (Db (file_query (fe_db E) (fe_now_db E) f))) k) Q w.
Proof using Type.
  intros U Hk. apply wlp_bind. intros w1 r Hr. apply Hk.
  - transitivity w; [done|]. by apply (stays_query E (λ _, False) False f w w1 r Hr).
  - intros a ->. unfold trigger, run_alone, exec, yes, file_query, file_call in Hr. destruct (fe_db E _); cbn in Hr; [|done|done].
    injection Hr as _ Ha. eexists. split; [|exact Ha]. cbn. by apply unchanged_files.
Qed.

(** A transfer is issued under the digest of its token, or nothing changes. *)
Definition may_issue (P : transfer → Prop) (w0 : FW) (r : result FErr (string * string)) (w' : FW) : Prop :=
  unchanged w0 w' ∨ ∃ tr, P tr ∧ r = Ok (tr_ID tr, tr_Token tr) ∧ unchanged (on_transfers <[tokenDigest E (tr_Token tr) := tr]> w0) w'.

Lemma wlp_register (P : transfer → Prop) tr w0 w :
  unchanged w0 w →
  (∀ id token expires, P (mkTransfer id token (tr_Direction tr) (tr_ChannelID tr) (tr_Folder tr) (tr_Name tr) (tr_Size tr) (tr_Uploader tr) expires)) →
  wlp E (register E tr) (may_issue P w0) w.
Proof using Type.
  intros U HP. unfold register, try_prog. eapply wlp_passing; [exact U|by auto with stays|]. intros [id|e] w1 U1; [|apply wlp_ret; by left].
  eapply wlp_passing; [exact U1|by auto with stays|]. intros [token|e] w2 U2; [|apply wlp_ret; by left].
  eapply wlp_mild; [exact U2|done|]. intros now w3 U3. apply wlp_vis. intros w4 r. unfold exec, yes, publish. cbn [fw_deleted put_calls tr_ChannelID].
  destruct (fw_deleted w3 !! tr_ChannelID tr) as [?|]; intros [= <- <-]; apply wlp_ret.
  - left. etrans; [exact U3|]. by split.
  - right. eexists. split; [apply HP|]. split; [done|]. cbn [tr_Token]. etrans; [by apply unchanged_on_transfers|]. by split.
Qed.

(** The bytes of a channel and of an uploader, an identical blob counted once. *)
Definition channel_bytes (c : Z) (w : FW) : Z :=
  sum_max ((λ r, (rec_SHA256 r, rec_Size r)) <$> rows_where (λ r, rec_ChannelID r =? c) (fw_db w)).
Definition uploader_bytes (u : string) (w : FW) : Z :=
  sum_max ((λ r, ((rec_ChannelID r, rec_SHA256 r), rec_Size r)) <$> rows_where (λ r, String.eqb (rec_Uploader r) u) (fw_db w)).

Definition admits (limitMB used size : Z) : Prop := 0 < limitMB → used ≤ max_int64 ∧ Exceeded (quotaFor used limitMB) size = false.

Lemma scan_total_Ok n m : scan_total n = Ok m → n = m ∧ m ≤ max_int64.
Proof. unfold scan_total. destruct (Z.ltb_spec max_int64 n); [done|]. by intros [= <-]. Qed.

Lemma wlp_check_quota {B : Type} limit (query : FileDB → result FErr Z) used size e (k : result FErr () → prog B) Q w0 w :
  unchanged w0 w → (∀ d n, fd_files d = fd_files (fw_db w0) → query d = Ok n → n = used ∧ n ≤ max_int64) →
  (∀ r w1, unchanged w0 w1 → (r = Ok () → admits limit used size) → wlp E (k r) Q w1) →
  wlp E (prog_bind (check_quota limit
    (try_prog (trigger (Db (file_query (fe_db E) (fe_now_db E) query))) (λ n, Ret (Ok (quotaFor n limit)))) size e) k) Q w.
Proof using Type.
  intros U Hq Hk. unfold check_quota. destruct (Z.ltb_spec 0 limit) as [Hl|Hl]; cycle 1.
  { cbn [prog_bind]. apply Hk; [done|]. intros _ ?. lia. }
  apply wlp_bind. unfold try_prog at 1. apply wlp_bind. unfold try_prog. eapply wlp_query; [exact U|]. intros w1 r U1 Hr.
  destruct r as [n|e']; apply wlp_ret; [|by apply wlp_ret, Hk]. destruct (Hr n eq_refl) as (d & Hd & Hn). destruct (Hq d n Hd Hn) as [-> Hmax].
  destruct (Exceeded _ size) eqn:Hex; apply wlp_ret, Hk; [done..|]. intros _ _. done.
Qed.

(** What a request for an upload or a download is for. *)
Definition upload_of (c : Z) (f n : string) (size : Z) (u : string) (limitMB : Z) (w0 : FW) (tr : transfer) : Prop :=
  tr_Direction tr = "upload" ∧ tr_ChannelID tr = c ∧ tr_Folder tr = f ∧ tr_Name tr = n ∧ tr_Size tr = size ∧ tr_Uploader tr = u ∧
  good_folder (fe_ToUpper E) f ∧ good_name (fe_ToUpper E) n ∧
  0 < size ∧ (0 < fc_MaxSizeMB (fe_config E) → size ≤ i64 (Z.shiftl (fc_MaxSizeMB (fe_config E)) 20)) ∧
  admits (fc_ChannelQuotaMB (fe_config E)) (channel_bytes c w0) size ∧ (u ≠ "" → admits limitMB (uploader_bytes u w0) size).

Definition download_of (c : Z) (f n : string) (w0 : FW) (tr : transfer) : Prop :=
  tr_Direction tr = "download" ∧ tr_ChannelID tr = c ∧ tr_Folder tr = f ∧ tr_Name tr = n ∧
  ∃ row, fd_files (fw_db w0) !! (c, f, n) = Some row ∧ tr_Size tr = row_Size row.

Lemma wlp_InitUpload c f n size u limitMB w :
  wlp E (InitUpload E c f n size u limitMB) (may_issue (upload_of c f n size u limitMB w) w) w.
Proof using Type.
  unfold InitUpload, try_prog, pure_prog. cbn [prog_bind].
  destruct (sanitizeName _ n) as [n'|] eqn:Hn; [|apply wlp_ret; by left]. apply sanitizeName_Ok in Hn as (-> & Hn & _). cbn [prog_bind].
  destruct (sanitizeFolder _ f) as [f'|] eqn:Hf; [|apply wlp_ret; by left]. apply sanitizeFolder_Ok in Hf as (-> & Hf).
  destruct (Z.leb_spec size 0); [apply wlp_ret; by left|]. destruct (_ && _) eqn:Hmax; [apply wlp_ret; by left|].
  assert (0 < fc_MaxSizeMB (fe_config E) → size ≤ i64 (Z.shiftl (fc_MaxSizeMB (fe_config E)) 20)) as Hsize by (intros; bools; lia).
  eapply (wlp_check_quota _ _ (channel_bytes c w)); [reflexivity| |].
  { intros d m Hd Hm. apply scan_total_Ok in Hm as [<- Hm]. split; [|done]. unfold channel_bytes, rows_where. by rewrite Hd. }
  intros r w1 U1 Hchan. destruct r as [[]|e]; [|apply wlp_ret; by left]. specialize (Hchan eq_refl).
  assert (∀ r w2, unchanged w w2 → (r = Ok () → u ≠ "" → admits limitMB (uploader_bytes u w) size) →
    wlp E (match r with Ok _ => register E (mkTransfer "" "" "upload" c f n size u 0) | Err e => Ret (Err e) end)
      (may_issue (upload_of c f n size u limitMB w) w) w2) as Hend.
  { intros r w2 U2 Hu. destruct r as [[]|e]; [|apply wlp_ret; by left]. apply wlp_register; [done|]. intros id token expires. split_and!; try done. by apply Hu. }
  unfold UploaderQuotaState. destruct (String.eqb_spec u "") as [->|Hu].
  - eapply wlp_passing; [exact U1|apply stays_check_quota; rewrite orb_true_r; stays|]. intros r w2 U2. by apply Hend.
  - destruct (Z.leb_spec limitMB 0) as [Hl|Hl]; cbn [orb].
    + eapply wlp_passing; [exact U1|apply stays_check_quota; stays|]. intros r w2 U2. apply Hend; [done|]. intros _ _ ?. lia.
    + unfold db_UploaderFileUsage, UploaderFileUsage. destruct (String.eqb_spec u ""); [done|].
      eapply (wlp_check_quota _ _ (uploader_bytes u w)); [exact U1| |].
      { intros d m Hd Hm. apply scan_total_Ok in Hm as [<- Hm]. split; [|done]. unfold uploader_bytes, rows_where. by rewrite Hd. }
      intros r w2 U2 Hadm. apply Hend; [done|]. intros Hr _. by apply Hadm.
Qed.

Lemma wlp_InitDownload c f n w : wlp E (InitDownload E c f n) (may_issue (download_of c f n w) w) w.
Proof using Type.
  unfold InitDownload, try_prog, pure_prog. cbn [prog_bind].
  destruct (sanitizeName _ n) as [n'|] eqn:Hn; [|apply wlp_ret; by left]. apply sanitizeName_Ok in Hn as (-> & Hn & _). cbn [prog_bind].
  destruct (sanitizeFolder _ f) as [f'|] eqn:Hf; [|apply wlp_ret; by left]. apply sanitizeFolder_Ok in Hf as (-> & Hf).
  eapply wlp_query; [reflexivity|]. intros w1 r U1 Hr. destruct r as [rec|e]; [|apply wlp_ret; by left]. destruct (Hr rec eq_refl) as (d & Hd & Hrec).
  rewrite Hd in Hrec. destruct (fd_files (fw_db w) !! (c, f, n)) as [row|] eqn:Hrow; [|done]. injection Hrec as <-.
  apply wlp_register; [done|]. intros id token expires. split_and!; try done. by exists row.
Qed.

(** What a listing says of the uploaders is so. *)
Lemma wlp_ListFiles {B : Type} c f (k : result FErr (list FileRecord) → prog B) Q w0 w :
  unchanged w0 w →
  (∀ r w1, unchanged w0 w1 →
     (∀ l rec, r = Ok l → rec ∈ l → ∃ row, fd_files (fw_db w0) !! (c, f, rec_Name rec) = Some row ∧ row_Uploader row = rec_Uploader rec) →
     wlp E (k r) Q w1) →
  wlp E (prog_bind (ListFiles E c f) k) Q w.
Proof using Type.
  intros U Hk. unfold ListFiles, try_prog, pure_prog. cbn [prog_bind].
  destruct (sanitizeFolder _ f) as [f'|] eqn:Hf; [|cbn [prog_bind]; by apply Hk]. apply sanitizeFolder_Ok in Hf as (-> & Hf).
  eapply wlp_query; [exact U|]. intros w1 r U1 Hr. apply Hk; [done|]. intros l rec -> Hin. destruct (Hr l eq_refl) as (d & Hd & Hl). injection Hl as <-.
  rewrite sort_by_perm in Hin. unfold rows_where in Hin. apply list_elem_of_filter in Hin as [Hp Hin].
  apply list_elem_of_fmap in Hin as ([[[c' f'] n'] row] & -> & Hin). rewrite elem_of_range, Hd in Hin. cbn in Hp |- *. apply andb_prop in Hp as [Hc%Z.eqb_eq Hff%String.eqb_eq]. subst c' f'. by exists row.
Qed.

(** A link to an existing file that is not sealed, or nothing. *)
Definition may_link (c : Z) (f n : string) (w0 : FW) (r : result FErr (string * Z)) (w' : FW) : Prop :=
  unchanged w0 w' ∨ ∃ token expires, r = Ok (token, expires) ∧ isEncryptedAttachment n = false ∧
    is_Some (fd_files (fw_db w0) !! (c, f, n)) ∧ unchanged (on_links (on_lr_links <[token := mkLink (blobPath c f n) n expires]>) w0) w'.

Definition new_link (path name : string) (w0 : FW) (r : result FErr (string * Z)) (w' : FW) : Prop :=
  unchanged w0 w' ∨ ∃ token expires, r = Ok (token, expires) ∧ unchanged (on_links (on_lr_links <[token := mkLink path name expires]>) w0) w'.

Lemma wlp_link_attempts m path name now w0 w : unchanged w0 w → wlp E (link_attempts m path name now) (new_link path name w0) w.
Proof using Type.
  revert w. induction m as [|m IH]; intros w U; cbn [link_attempts]; [apply wlp_ret; by left|]. unfold try_prog.
  eapply wlp_passing; [exact U|by auto with stays|]. intros [token|e] w1 U1; [|apply wlp_ret; by left]. destruct (negb _); [apply wlp_ret; by left|].
  eapply wlp_mild; [exact U1|done|]. intros [taken|] w2 U2; [by apply IH|]. cbv zeta. apply wlp_vis. intros w3 b. unfold exec, yes. intros [= <- <-].
  apply wlp_ret. right. eexists _, _. split; [done|]. etrans; [by apply unchanged_LinkAdd|]. by split.
Qed.

Lemma wlp_create_locked path name w0 w : unchanged w0 w → wlp E (create_locked E path name) (new_link path name w0) w.
Proof using Type.
  intros U. unfold create_locked. eapply wlp_mild; [exact U|done|]. intros [] w1 U1; [apply wlp_ret; by left|].
  eapply wlp_mild; [exact U1|done|]. intros [[]|e] w2 U2; [|apply wlp_ret; by left]. eapply wlp_passing; [exact U2|by auto with stays|].
  intros [h|e] w3 U3; [|apply wlp_ret; by left]. eapply wlp_mild; [exact U3|done|]. intros [[]|e] w4 U4; [|apply wlp_ret; by left].
  eapply wlp_mild; [exact U4|done|]. intros now w5 U5. eapply wlp_mild; [exact U5|done|]. intros [] w6 U6. eapply wlp_mild; [exact U6|done|]. intros count w7 U7.
  destruct (_ <=? _)%nat; [apply wlp_ret; by left|]. by apply wlp_link_attempts.
Qed.

Lemma wlp_CreateLink c f n w0 w : unchanged w0 w → wlp E (CreateLink E c f n) (may_link c f n w0) w.
Proof using Type.
  intros U. unfold CreateLink, try_prog, pure_prog. cbn [prog_bind].
  destruct (sanitizeName _ n) as [n'|] eqn:Hn; [|apply wlp_ret; by left]. apply sanitizeName_Ok in Hn as (-> & Hn & _). cbn [prog_bind].
  destruct (sanitizeFolder _ f) as [f'|] eqn:Hf; [|apply wlp_ret; by left]. apply sanitizeFolder_Ok in Hf as (-> & Hf).
  eapply wlp_query; [exact U|]. intros w1 r U1 Hr. destruct r as [rec|e]; [|apply wlp_ret; by left]. destruct (Hr rec eq_refl) as (d & Hd & Hrec).
  rewrite Hd in Hrec. destruct (fd_files (fw_db w0) !! (c, f, n)) as [row|] eqn:Hrow; [|done]. clear Hrec.
  unfold Create. destruct (isEncryptedAttachment n) eqn:Henc; [apply wlp_ret; by left|]. eapply wlp_mild; [exact U1|done|]. intros [] w2 U2.
  apply wlp_bind. eapply wlp_mono; [by apply wlp_create_locked|]. intros r3 w3 H3. apply wlp_vis. intros w4 []. unfold exec, yes. intros [= <-].
  apply wlp_ret. destruct H3 as [U3|(token & expires & -> & U3)].
  - left. etrans; [exact U3|]. by split.
  - right. exists token, expires. split_and!; [done|done|by rewrite Hrow|]. etrans; [exact U3|]. by split.
Qed.

End effects.

(** ** Requests *)

Inductive FileRequest :=
| RqInit (msg : option FileTransferInit) | RqList (msg : option FileList) | RqDelete (msg : option FileDelete)
| RqRename (msg : option FileRename) | RqVersions (msg : option FileVersions) | RqLink (msg : option FileLink).

Definition rename_target (m : FileRename) : Z := if fn_NewChannelID m =? 0 then fn_ChannelID m else fn_NewChannelID m.

(** The rows a request is about. *)
Definition about (rq : FileRequest) (k : fileKey) : Prop :=
  match rq with
  | RqDelete (Some m) => k = (fd_ChannelID m, fd_Folder m, fd_Name m)
  | RqRename (Some m) => k = (fn_ChannelID m, fn_Folder m, fn_Name m) ∨ k = (rename_target m, fn_NewFolder m, fn_NewName m)
  | _ => False
  end.

Section requests.
Context (E : FileEnv).
Context `{!MapRange fileKey FileRow}.
Context (err_text : FErr → string) (wired : bool) (port : Z) (fingerprint HealthAddr : string) (fuel : nat).
Context (deps deps' : serverDeps) (client : Conn).

Definition serve_request (rq : FileRequest) : prog FileOutcome :=
  match rq with
  | RqInit msg => handleFileTransferInit E err_text wired port fingerprint deps client msg
  | RqList msg => handleFileList E wired deps client msg
  | RqDelete msg => handleFileDelete E err_text wired deps client msg
  | RqRename msg => handleFileRename E err_text wired fuel deps deps' client msg
  | RqVersions msg => handleFileVersions E wired deps client msg
  | RqLink msg => handleFileLink E err_text wired HealthAddr deps client msg
  end.

(** ** Rights *)

Definition owns (w : FW) (k : fileKey) : Prop := ∃ row, fd_files (fw_db w) !! k = Some row ∧ row_Uploader row = cn_UniqueID client.

Definition may_manage (w : FW) (k : fileKey) : Prop :=
  ∃ pc, permCheckerFor deps (conn_of client) = Ok pc ∧
    (pc_admin pc = true ∨ granted_ pc PermissionKeyFTFileDelete = true ∨ owns w k).

(** In another channel, one that is there and where the client may upload. *)
Definition may_move_to (c target : Z) : Prop :=
  target = c ∨ ∃ st pc, dep_state deps' = Some st ∧ is_Some (GetChannel target st) ∧
    permCheckerInChannel deps' (conn_of client) target = Ok pc ∧ ftUploadAllowed pc = true.

Definition manage_right (rq : FileRequest) (w : FW) : Prop :=
  match rq with
  | RqDelete (Some m) => may_manage w (fd_ChannelID m, fd_Folder m, fd_Name m)
  | RqRename (Some m) => may_manage w (fn_ChannelID m, fn_Folder m, fn_Name m) ∧ may_move_to (fn_ChannelID m) (rename_target m)
  | _ => False
  end.

Definition token_right (rq : FileRequest) (w : FW) (tr : transfer) : Prop :=
  ∃ m pc, rq = RqInit (Some m) ∧ permCheckerFor deps (conn_of client) = Ok pc ∧
    (fi_Direction m = "upload" ∧ ftUploadAllowed pc = true ∧
       upload_of E (fi_ChannelID m) (fi_Folder m) (fi_Name m) (fi_Size m) (cn_UniqueID client) (uploadQuotaMB pc) w tr ∨
     fi_Direction m = "download" ∧ ftDownloadAllowed pc = true ∧ download_of (fi_ChannelID m) (fi_Folder m) (fi_Name m) w tr).

Definition link_right (rq : FileRequest) (w : FW) (l : link) : Prop :=
  ∃ m pc, rq = RqLink (Some m) ∧ permCheckerFor deps (conn_of client) = Ok pc ∧
    (pc_admin pc = true ∨ owns w (fk_ChannelID m, fk_Folder m, fk_Name m)) ∧
    is_Some (fd_files (fw_db w) !! (fk_ChannelID m, fk_Folder m, fk_Name m)) ∧ isEncryptedAttachment (fk_Name m) = false ∧
    ln_path l = blobPath (fk_ChannelID m) (fk_Folder m) (fk_Name m) ∧ ln_name l = fk_Name m.

Definition permission_denied (o : FileOutcome) : Prop := ∃ e, fo_reply o = FileRefused errCodePermissionDenied e.

(** What a request did. *)
Inductive effect (rq : FileRequest) (w : FW) (o : FileOutcome) (w' : FW) : Prop :=
| effect_none : unchanged w w' → effect rq w o w'
| effect_managed : manage_right rq w → within (about rq) True w w' → ¬ permission_denied o → effect rq w o w'
| effect_token tr :
    token_right rq w tr → unchanged (on_transfers <[tokenDigest E (tr_Token tr) := tr]> w) w' →
    fo_reply o = FileAnswered (FileTransferInitResponse (tr_ID tr) (tr_Token tr) port (negb (String.eqb fingerprint "")) fingerprint) → effect rq w o w'
| effect_link token l :
    link_right rq w l → unchanged (on_links (on_lr_links <[token := l]>) w) w' → ¬ permission_denied o → effect rq w o w'.

Abbreviation acts_on rq m w := (wlp E m (effect rq w) w).

Lemma refuse_effect rq w w' code e : unchanged w w' → wlp E (refuse code e) (effect rq w) w'.
Proof. intros U. by apply wlp_ret, effect_none. Qed.

Lemma answer_token_effect rq w w1 m (P : transfer → Prop) :
  wlp E m (may_issue E P w) w1 → (∀ tr, P tr → token_right rq w tr) → wlp E (answer_token err_text port fingerprint m) (effect rq w) w1.
Proof.
  intros Hm HP. apply wlp_bind. eapply wlp_mono; [exact Hm|]. intros r w2 [U|(tr & Htr & -> & U)].
  - destruct r as [[id token]|e]; apply wlp_ret; by apply effect_none.
  - apply wlp_ret. eapply effect_token; [by apply HP|exact U|done].
Qed.

Lemma init_effect msg w : acts_on (RqInit msg) (serve_request (RqInit msg)) w.
Proof.
  cbn [serve_request]. unfold handleFileTransferInit, with_request, with_checker. destruct msg as [m|]; [|by apply refuse_effect]. destruct wired; [|by apply refuse_effect].
  destruct (permCheckerFor deps (conn_of client)) as [pc|] eqn:Hpc; [|by apply refuse_effect].
  destruct (String.eqb_spec (fi_Direction m) "upload") as [Hd|_]; [|destruct (String.eqb_spec (fi_Direction m) "download") as [Hd|_]; [|by apply refuse_effect]].
  - destruct (ftUploadAllowed pc) eqn:Hup; [|by apply refuse_effect]. eapply answer_token_effect; [apply wlp_InitUpload|].
    intros tr Htr. exists m, pc. split_and!; [done..|]. by left.
  - destruct (ftDownloadAllowed pc) eqn:Hdown; [|by apply refuse_effect]. eapply answer_token_effect; [apply wlp_InitDownload|].
    intros tr Htr. exists m, pc. split_and!; [done..|]. by right.
Qed.

Lemma reading_effect rq (m : prog FileOutcome) w : stays E (λ _, False) False m → acts_on rq m w.
Proof. intros Hm. eapply wlp_mono; [apply Hm|]. intros o w' U. by apply effect_none. Qed.

Lemma manage_effect rq c f n (k : option string → prog FileOutcome) w :
  (∀ r w1, unchanged w w1 → (r = None → may_manage w (c, f, n)) → wlp E (k r) (effect rq w) w1) →
  acts_on rq (prog_bind (fileManageAllowed E deps client c f n) k) w.
Proof.
  intros Hk. unfold fileManageAllowed. destruct (permCheckerFor deps (conn_of client)) as [pc|] eqn:Hpc; [|cbn [prog_bind]; by apply Hk].
  destruct (pc_admin pc || granted_ pc PermissionKeyFTFileDelete) eqn:Hp.
  { cbn [prog_bind]. apply Hk; [done|]. intros _. exists pc. split; [done|]. apply orb_true_iff in Hp as [?|?]; [by left|by right; left]. }
  apply wlp_bind. eapply wlp_ListFiles; [reflexivity|]. intros r w1 U1 Hl. destruct r as [l|]; [|by apply wlp_ret, Hk].
  unfold owner_of. destruct (filter _ l) as [|rec l'] eqn:Hrec; [by apply wlp_ret, Hk|].
  assert (rec ∈ filter (λ rec, rec_Name rec = n) l) as [Hn Hin]%list_elem_of_filter by (rewrite Hrec; by left).
  destruct (String.eqb_spec (rec_Uploader rec) (cn_UniqueID client)) as [Hu|]; apply wlp_ret, Hk; [done| |done|done]. intros _.
  exists pc. split; [done|]. right. right. destruct (Hl l rec eq_refl Hin) as (row & Hrow & Hup). exists row. rewrite <- Hn. split; [done|congruence].
Qed.

Lemma managed_end rq (m : prog (result FErr ())) code text (k : prog FileOutcome) w w1 :
  unchanged w w1 → manage_right rq w → stays E (about rq) True m → code ≠ errCodePermissionDenied →
  (∃ o, k = Ret o ∧ ¬ permission_denied o) →
  wlp E (do r <- m; match r with Err e => refuse code (text e) | Ok _ => k end) (effect rq w) w1.
Proof.
  intros U Hr Hm Hcode (o & -> & Ho). apply wlp_bind. eapply wlp_mono; [apply Hm|]. intros r w2 H2.
  assert (within (about rq) True w w2) as H by (transitivity w1; [by apply unchanged_within|done]).
  destruct r as [[]|e]; apply wlp_ret; apply effect_managed; try done. intros [e' [= He _]]. done.
Qed.

Lemma delete_effect msg w : acts_on (RqDelete msg) (serve_request (RqDelete msg)) w.
Proof.
  cbn [serve_request]. unfold handleFileDelete, with_request. destruct msg as [m|]; [|by apply refuse_effect]. destruct wired; [|by apply refuse_effect].
  apply manage_effect. intros [e|] w1 U1 Hman; [by apply refuse_effect|]. apply managed_end; [done|by apply Hman|by apply stays_DeleteFile|done|].
  eexists. split; [done|]. by intros [e He].
Qed.

Lemma target_allowed c target : (if target =? c then None else target_refused deps' client target) = None → may_move_to c target.
Proof.
  destruct (Z.eqb_spec target c) as [->|_]; [by left|]. unfold target_refused. destruct (dep_state deps') as [st|] eqn:Hst; [|done].
  destruct (GetChannel target st) eqn:Hch; [|done]. destruct (permCheckerInChannel _ _ _) as [pc|] eqn:Hpc; [|done].
  destruct (ftUploadAllowed pc) eqn:Hup; [|done]. intros _. right. exists st, pc. by rewrite Hch.
Qed.

Lemma rename_effect msg w : acts_on (RqRename msg) (serve_request (RqRename msg)) w.
Proof.
  cbn [serve_request]. unfold handleFileRename, with_request. destruct msg as [m|]; [|by apply refuse_effect]. destruct wired; [|by apply refuse_effect].
  destruct (String.eqb (fn_NewName m) ""); [by apply refuse_effect|]. apply manage_effect. intros [e|] w1 U1 Hman; [by apply refuse_effect|].
  cbv zeta. fold (rename_target m). destruct (if rename_target m =? fn_ChannelID m then _ else _) as [[code e]|] eqn:Ht; [by apply refuse_effect|].
  apply target_allowed in Ht. apply managed_end; [done|split; [by apply Hman|done]| |done|eexists; split; [done|]; by intros [e He]].
  apply stays_MoveFile; [by left| |done]. right. unfold rename_target. destruct (Z.eqb_spec (fn_NewChannelID m) 0) as [Heq|Hne].
  - by destruct (fn_ChannelID m =? 0).
  - by destruct (Z.eqb_spec (fn_NewChannelID m) 0).
Qed.

Lemma mint_effect m pc w w1 :
  unchanged w w1 → permCheckerFor deps (conn_of client) = Ok pc → pc_admin pc = true ∨ owns w (fk_ChannelID m, fk_Folder m, fk_Name m) →
  wlp E (mint_link E err_text HealthAddr m) (effect (RqLink (Some m)) w) w1.
Proof.
  intros U Hpc Hright. unfold mint_link. destruct (portFromAddress HealthAddr) as [p|]; [|by apply refuse_effect]. apply wlp_bind.
  eapply wlp_mono; [by apply wlp_CreateLink|]. intros r w2 [U2|(token & expires & -> & Henc & Hrow & U2)].
  - destruct r as [[token expires]|e]; apply wlp_ret; by apply effect_none.
  - apply wlp_ret. eapply effect_link; [|exact U2|by intros [e He]]. exists m, pc. by split_and!.
Qed.

Lemma link_effect msg w : acts_on (RqLink msg) (serve_request (RqLink msg)) w.
Proof.
  cbn [serve_request]. unfold handleFileLink, with_request, with_checker. destruct msg as [m|]; [|by apply refuse_effect]. destruct wired; [|by apply refuse_effect].
  destruct (permCheckerFor deps (conn_of client)) as [pc|] eqn:Hpc; [|by apply refuse_effect].
  destruct (pc_admin pc) eqn:Hadmin; [eapply mint_effect; [done|exact Hpc|by left]|]. eapply wlp_ListFiles; [reflexivity|]. intros r w1 U1 Hl.
  destruct r as [l|]; [|by apply refuse_effect]. destruct (existsb _ l) eqn:Hex; [|by apply refuse_effect]. eapply mint_effect; [done|exact Hpc|right].
  apply existsb_exists in Hex as (rec & Hin%list_elem_of_In & [Hn%String.eqb_eq Hu%String.eqb_eq]%andb_prop).
  destruct (Hl l rec eq_refl Hin) as (row & Hrow & Hup). exists row. rewrite <- Hn. split; [done|congruence].
Qed.


End requests.

(** The uploader deletes its file; another client may not. *)
Definition request_deps : serverDeps := {|
  dep_perms := Some {| LoadForClient _ _ := Ok NewTieredPermissions; LoadGroupPermissions _ := Ok ∅ |};
  dep_state := None; dep_guest_group := 0;
|}.
Definition request_client (name : string) : Conn :=
  {| cn_ID := name; cn_UniqueID := name; cn_Username := name; cn_userID := 1; cn_isAdmin := false; cn_authed := true; cn_rulesPending := false |}.
Definition delete_x : FileRequest := RqDelete (Some {| fd_ChannelID := 7; fd_Folder := ""; fd_Name := "x" |}).
Abbreviation delete_as name := (serve_request toy (λ _, "") true 0 "" "" 0 request_deps request_deps (request_client name) delete_x).

