(* ===== verification/FileRun.v ===== *)
(** * The invariant holds in every interleaving

    The four parts together, access by access, and from there for every step of the
    threads. *)

From Stdlib Require Import Ascii.
From stdpp Require Import pretty.
From S2P Require Import Prelude ChatText GoStrings Wire GoState ChatKeys AuthService FileNames FileStore FileWorld FileTransfer FileThreads FileDisc FileSafety.

(** ** What the system calls do to names *)

(** Nothing gets a name but below the first component of [q]. *)
Definition makes (q : path) (s s' : FS) : Prop :=
  ∀ p n, fs_nodes s' !! p = Some n → is_Some (fs_nodes s !! p) ∨ head p = head q.
Definition makes_nothing (s s' : FS) : Prop := ∀ p n, fs_nodes s' !! p = Some n → is_Some (fs_nodes s !! p).

Lemma makes_refl q s : makes q s s.
Proof. intros p n Hp. left. by eexists. Qed.
Lemma makes_nothing_refl s : makes_nothing s s.
Proof. intros p n Hp. by eexists. Qed.

Lemma mkdirAll_makes made todo s : makes (made ++ todo) s (fs_mkdirAll made todo s).1.
Proof.
  revert made s. induction todo as [|c todo IH]; intros made s; cbn [fs_mkdirAll]; [apply makes_refl|].
  pose proof (IH (made ++ [c])) as IH'. rewrite <- app_assoc in IH'. cbn [app] in IH'.
  destruct (fs_nodes s !! (made ++ [c])) as [[| |]|] eqn:Hq; [by apply IH'|apply makes_refl|apply makes_refl|].
  intros p n Hp. destruct (IH' _ p n Hp) as [[n' Hn]|Hh]; [|by right]. cbn in Hn. apply lookup_insert_Some in Hn as [[<- _]|[_ Hn]].
  - right. by destruct made.
  - left. by eexists.
Qed.

Lemma openExcl_makes p s : makes p s (fs_openExcl p s).1.
Proof.
  unfold fs_openExcl. destruct (fs_nodes s !! p) eqn:Hp; [apply makes_refl|]. destruct (_ && _); [|apply makes_refl].
  intros q n Hq. cbn in Hq. apply lookup_insert_Some in Hq as [[<- _]|[_ Hq]]; [by right|left; by eexists].
Qed.

Lemma link_makes p q s : makes q s (fs_link p q s).1.
Proof.
  unfold fs_link. destruct (fs_nodes s !! p) as [[| |]|]; try apply makes_refl; (case_bool_decide; [apply makes_refl|]);
    destruct (_ || _); try apply makes_refl; intros r n Hr; cbn in Hr;
    (apply lookup_insert_Some in Hr as [[<- _]|[_ Hr]]; [by right|left; by eexists]).
Qed.

Lemma rebase_makes (p q : path) (ns : gmap path fnode) (r : path) n :
  q ≠ [] → (list_to_map (prod_map (rebase p q) id <$> map_to_list ns) : gmap path fnode) !! r = Some n → is_Some (ns !! r) ∨ head r = head q.
Proof.
  intros Hq Hr%elem_of_list_to_map_2%list_elem_of_fmap. destruct Hr as ([r0 n0] & [= -> ->] & Hin%elem_of_map_to_list).
  unfold rebase. case_bool_decide; [|left; by eexists]. right. by destruct q.
Qed.

Lemma rename_makes p q s : makes q s (fs_rename p q s).1.
Proof.
  unfold fs_rename. destruct (fs_nodes s !! p) as [node|] eqn:Hp; [|apply makes_refl].
  destruct (negb _); [apply makes_refl|]. case_bool_decide as Hq; [apply makes_refl|]. cbn [orb].
  assert (∀ old, makes q s (if bool_decide (old = Some node) then (s, Ok ()) else (set_nodes (λ ns, <[q := node]> (delete p ns)) s, Ok () : result ioErr ())).1) as Hfile.
  { intros old. case_bool_decide; [apply makes_refl|]. intros r n Hr. cbn in Hr. apply lookup_insert_Some in Hr as [[<- _]|[_ Hr]]; [by right|].
    apply lookup_delete_Some in Hr as [_ Hr]. left. by eexists. }
  destruct node, (fs_nodes s !! q) as [[| |]|] eqn:Hn; try apply makes_refl; try apply Hfile.
  - case_bool_decide; [apply makes_refl|]. destruct (has_children q s); [apply makes_refl|]. cbn [orb].
    intros r n Hr. cbn in Hr. apply rebase_makes in Hr as [[n' Hr]|?]; [|by right|done]. apply lookup_delete_Some in Hr as [_ Hr]. left. by eexists.
  - case_bool_decide; [apply makes_refl|]. intros r n Hr. cbn in Hr. by apply rebase_makes in Hr.
  - exact (Hfile None).
  - exact (Hfile None).
Qed.

Lemma remove_makes p s : makes_nothing s (fs_remove p s).1.
Proof.
  unfold fs_remove. destruct (fs_nodes s !! p) as [[| |]|]; try apply makes_nothing_refl; try destruct (has_children p s); try apply makes_nothing_refl;
    intros r n Hr; cbn in Hr; apply lookup_delete_Some in Hr as [_ Hr]; by eexists.
Qed.

Lemma removeAll_makes p s : makes_nothing s (fs_removeAll p s).1.
Proof. intros r n Hr. cbn in Hr. apply map_lookup_filter_Some in Hr as [Hr _]. by eexists. Qed.
Lemma removeSome_makes keep p s : makes_nothing s (fs_removeSome keep p s).
Proof. intros r n Hr. cbn in Hr. apply map_lookup_filter_Some in Hr as [Hr _]. by eexists. Qed.

(** Calls on handles leave the names alone. *)
Lemma write_nodes h b s : fs_nodes (fs_write h b s).1 = fs_nodes s.
Proof. unfold fs_write. by destruct (fs_handles s !! h) as [[[i|] off]|]. Qed.
Lemma read_nodes h n s : fs_nodes (fs_read h n s).1 = fs_nodes s.
Proof. unfold fs_read. by destruct (fs_handles s !! h) as [[[i|] off]|]. Qed.
Lemma stat_nodes h s : fs_nodes (fs_stat h s).1 = fs_nodes s.
Proof. unfold fs_stat. by destruct (fs_handles s !! h) as [[[i|] off]|]. Qed.
Lemma close_nodes h s : fs_nodes (fs_close h s).1 = fs_nodes s.
Proof. unfold fs_close. by destruct (fs_handles s !! h). Qed.
Lemma open_nodes p s : fs_nodes (fs_open p s).1 = fs_nodes s.
Proof. unfold fs_open. by destruct (if bool_decide (p = []) then _ else _). Qed.
Lemma lstat_nodes p s : fs_nodes (fs_lstat p s).1 = fs_nodes s.
Proof. unfold fs_lstat. by destruct (if bool_decide (p = []) then _ else _) as [[| |]|]. Qed.

Lemma same_makes s s' : fs_nodes s' = fs_nodes s → makes_nothing s s'.
Proof. intros Heq p n Hp. rewrite Heq in Hp. by eexists. Qed.

(** ** Hexadecimal ids *)

Lemma hex_digit_inj a b : 0 ≤ a < 16 → 0 ≤ b < 16 → hex_digit a = hex_digit b → a = b.
Proof.
  unfold hex_digit. intros Ha Hb Heq%(f_equal nat_of_ascii). revert Heq.
  destruct (Z.ltb_spec a 10), (Z.ltb_spec b 10); rewrite !Ascii.nat_ascii_embedding by lia; lia.
Qed.

Lemma hex_inj l m : Forall is_byte l → Forall is_byte m → hex l = hex m → l = m.
Proof.
  unfold hex. intros Hl Hm Heq%(f_equal chars_of). rewrite !chars_of_list in Heq. revert m Hm Heq.
  induction Hl as [|a l Ha _ IH]; intros [|b m] Hm; cbn; [done|done|done|]. apply Forall_cons in Hm as [Hb Hm]. intros [= H1 H2 H3].
  unfold is_byte in *. apply hex_digit_inj in H1; [|by split; [apply Z.div_pos|apply Z.div_lt_upper_bound]; lia..].
  apply hex_digit_inj in H2; [|by apply Z.mod_pos_bound..]. f_equal; [|by apply IH].
  pose proof (Z.div_mod a 16). pose proof (Z.div_mod b 16). lia.
Qed.

(** ** The whole *)

Section inv.
Context (E : FileEnv).

Definition drawn (w : FW) (id : string) : Prop := ∃ n b, (n < fw_calls w)%nat ∧ fe_rnd E n 8 = Some b ∧ id = hex b.

Record Inv (w : FW) (los : list local) (own : gmap nat Z) : Prop := {
  inv_locks : InvLocks (fw_readers w) (fw_writer w) (lock_view <$> los);
  inv_links : InvLinks (fw_links w) (fw_linkLock w) (link_view <$> los);
  inv_own : InvOwn (fe_ToUpper E) (drawn w) (fw_transfers w) (fw_active w) (fw_done w) (fw_next w) (own_view <$> los);
  inv_clean : InvClean (fs_nodes (fw_fs w)) (fw_transfers w) (fw_deleted w) (fw_cleanups w) (fw_next w) (lr_revoked (fw_links w)) own (clean_view <$> los);
}.

Lemma view_lookup {A} (f : local → A) (los : list local) (i : nat) lo : los !! i = Some lo → (f <$> los) !! i = Some (f lo).
Proof. intros Hi. by rewrite list_lookup_fmap, Hi. Qed.

(** What is the same in two worlds. *)
Definition same_locks (w w' : FW) : Prop := fw_readers w' = fw_readers w ∧ fw_writer w' = fw_writer w.
Definition same_links (w w' : FW) : Prop := fw_links w' = fw_links w ∧ fw_linkLock w' = fw_linkLock w.
Definition same_own (w w' : FW) : Prop :=
  fw_transfers w' = fw_transfers w ∧ fw_active w' = fw_active w ∧ fw_done w' = fw_done w ∧ fw_next w' = fw_next w ∧ (fw_calls w ≤ fw_calls w')%nat.
Definition same_clean (w w' : FW) : Prop :=
  fw_transfers w' = fw_transfers w ∧ fw_deleted w' = fw_deleted w ∧ fw_cleanups w' = fw_cleanups w ∧ fw_next w' = fw_next w ∧
  lr_revoked (fw_links w') = lr_revoked (fw_links w).

Lemma drawn_mono w w' id : (fw_calls w ≤ fw_calls w')%nat → drawn w id → drawn w' id.
Proof. intros Hc (n & b & Hn & Hb & ->). exists n, b. split_and!; [lia|done|done]. Qed.

Section step.
Context (w w' : FW) (los : list local) (own : gmap nat Z) (I : Inv w los own).
Context (i : nat) (lo lo' : local) (Hi : los !! i = Some lo).

Lemma locks_same : same_locks w w' → lock_view lo' = lock_view lo → InvLocks (fw_readers w') (fw_writer w') (lock_view <$> <[i := lo']> los).
Proof using I Hi. intros [-> ->] Hv. rewrite (insert_view _ _ _ lo) by done. apply I. Qed.

Lemma links_same : same_links w w' → link_view lo' = link_view lo → InvLinks (fw_links w') (fw_linkLock w') (link_view <$> <[i := lo']> los).
Proof using I Hi. intros [-> ->] Hv. rewrite (insert_view _ _ _ lo) by done. apply I. Qed.

Lemma own_same : same_own w w' → own_view lo' = own_view lo →
  InvOwn (fe_ToUpper E) (drawn w') (fw_transfers w') (fw_active w') (fw_done w') (fw_next w') (own_view <$> <[i := lo']> los).
Proof using I Hi.
  intros (-> & -> & -> & -> & Hc) Hv. rewrite (insert_view _ _ _ lo) by done.
  eapply own_fewer; [apply I|intros id; by apply drawn_mono|done|done].
Qed.

(** Names below the channels the thread may make them in. *)
Definition nodes_ok : Prop :=
  ∀ p n, fs_nodes (fw_fs w') !! p = Some n → is_Some (fs_nodes (fw_fs w) !! p) ∨
    ∀ c, in_channel c p → c ∈ lo_ok lo ∨ ∃ a, lo_active lo = Some a ∧ at_channelID a = c.

Lemma nodes_ok_use : nodes_ok → ∀ p n c, fs_nodes (fw_fs w') !! p = Some n → in_channel c p →
  (∃ p' n', fs_nodes (fw_fs w) !! p' = Some n' ∧ in_channel c p') ∨ c ∈ v_ok (clean_view lo) ∨
  ∃ a, v_active (clean_view lo) = Some a ∧ at_channelID a = c.
Proof using Type. intros Hns p n c Hp Hin. destruct (Hns p n Hp) as [[n' Hn]|Ho]; [left; by exists p, n'|right; by apply Ho]. Qed.

Lemma nodes_nothing : makes_nothing (fw_fs w) (fw_fs w') → nodes_ok.
Proof using Type. intros Hm p n Hp. left. by eapply Hm. Qed.

Lemma clean_same : same_clean w w' → clean_view lo' = clean_view lo → nodes_ok →
  InvClean (fs_nodes (fw_fs w')) (fw_transfers w') (fw_deleted w') (fw_cleanups w') (fw_next w') (lr_revoked (fw_links w')) own
    (clean_view <$> <[i := lo']> los).
Proof using I Hi.
  intros (-> & -> & -> & -> & ->) Hv Hns. rewrite list_fmap_insert, Hv.
  eapply (clean_other _ _ _ _ _ _ _ _ (inv_clean _ _ _ I) i (clean_view lo)); [by apply view_lookup|by left|by left|by apply nodes_ok_use|done|by left|done..].
Qed.

End step.

(** ** Access by access *)

Section access.
Context (w : FW) (los : list local) (own : gmap nat Z) (I : Inv w los own).
Context (i : nat) (lo : local) (Hi : los !! i = Some lo).

Definition preserved {B} (e : act B) : Prop :=
  allowed E lo e → ∀ w' b, exec E e w = Some (w', b) → answer E e b ∧ ∃ own', Inv w' (<[i := after lo e b]> los) own'.

(** An access that touches only names, connections, the database or the clock. *)
Lemma quiet_step w' :
  same_locks w w' → same_links w w' → same_own w w' → same_clean w w' → nodes_ok w w' lo → Inv w' (<[i := lo]> los) own.
Proof using I Hi.
  intros H1 H2 H3 H4 H5. split; [by eapply locks_same|by eapply links_same|by eapply own_same|by eapply clean_same].
Qed.

Lemma tick_same (f : FW → FW) :
  (∀ w, same_locks w (f w) ∧ same_links w (f w) ∧ same_own w (f w) ∧ same_clean w (f w)) →
  let w' := f (put_calls (S (fw_calls w)) w) in
  same_locks w w' ∧ same_links w w' ∧ same_own w w' ∧ same_clean w w'.
Proof using Type.
  intros Hf. destruct (Hf (put_calls (S (fw_calls w)) w)) as (H1 & H2 & H3 & H4). split_and!; [exact H1|exact H2| |exact H4].
  destruct H3 as (? & ? & ? & ? & Hc). split_and!; [done..|]. cbn in Hc. cbn. lia.
Qed.

(** A system call that works on the files. *)
Lemma sys_inv {A} (f : FS → IO A) w0 w' r :
  sys E f w0 = Some (w', r) → w' = w0 ∨ w' = put_fs (f (fw_fs w0)).1 w0.
Proof using Type.
  unfold sys. destruct (fe_io E _); [intros [= <- _]; by left|]. destruct (f (fw_fs w0)) as [s r'] eqn:Hf. intros [= <- _]. right. by rewrite ?Hf.
Qed.

Lemma fs_step (s : FS) : nodes_ok w (put_fs s (put_calls (S (fw_calls w)) w)) lo → Inv (put_fs s (put_calls (S (fw_calls w)) w)) (<[i := lo]> los) own.
Proof using I Hi.
  intros Hn. apply quiet_step; [done|done| |done|done]. split_and!; try done. cbn. lia.
Qed.

Lemma tick_step : Inv (put_calls (S (fw_calls w)) w) (<[i := lo]> los) own.
Proof using I Hi.
  apply quiet_step; [done|done| |done|]; [split_and!; try done; cbn; lia|]. apply nodes_nothing, same_makes. done.
Qed.

(** A system call that gives no name. *)
Lemma sys_nothing {A} (f : FS → IO A) w' r :
  (∀ s, makes_nothing s (f s).1) → sys E f (put_calls (S (fw_calls w)) w) = Some (w', r) → Inv w' (<[i := lo]> los) own.
Proof using I Hi.
  intros Hf [->| ->]%sys_inv; [apply tick_step|]. apply fs_step, nodes_nothing. apply Hf.
Qed.

Lemma at_nothing {A} name (f : path → FS → IO A) : (∀ p s, makes_nothing s (f p s).1) → ∀ s, makes_nothing s (at_ name f s).1.
Proof using Type. intros Hf s. unfold at_. destruct (resolve name); [apply Hf|apply makes_nothing_refl]. Qed.

(** ... and one that may give [name]. *)
Lemma nodes_made w' q name : may_make lo name → resolve name = Ok q → makes q (fw_fs w) (fw_fs w') → nodes_ok w w' lo.
Proof using Type.
  intros Hm Hq Hf p n Hp. destruct (Hf p n Hp) as [?|Hh]; [by left|]. right. intros c Hc. unfold in_channel in Hc. rewrite Hh in Hc.
  destruct (Hm q c Hq Hc) as [[_ ?]|?]; [by left|by right].
Qed.

Lemma sys_makes {A} name (f : path → FS → IO A) w' r :
  may_make lo name → (∀ p s, makes p s (f p s).1) → sys E (at_ name f) (put_calls (S (fw_calls w)) w) = Some (w', r) →
  Inv w' (<[i := lo]> los) own.
Proof using I Hi.
  intros Hm Hf [->| ->]%sys_inv; [apply tick_step|]. apply fs_step. unfold at_. destruct (resolve name) as [q|e] eqn:Hq.
  - eapply nodes_made; [done|done|]. apply Hf.
  - apply nodes_nothing, same_makes. done.
Qed.

Lemma put_same w0 s : fs_nodes s = fs_nodes (fw_fs w0) → makes_nothing (fw_fs w0) (fw_fs (put_fs s w0)).
Proof using Type. intros Hs. by apply same_makes. Qed.


(** The part on cleanups when the thread's own cleanup is not touched. *)
Lemma clean_changed w' lo' :
  fw_deleted w' = fw_deleted w → fw_cleanups w' = fw_cleanups w → (fw_next w ≤ fw_next w')%nat →
  lr_revoked (fw_links w) ⊆ lr_revoked (fw_links w') →
  (∀ d tr, fw_transfers w' !! d = Some tr → fw_transfers w !! d = Some tr ∨ fw_deleted w !! tr_ChannelID tr = None) →
  nodes_ok w w' lo →
  (∀ a, lo_active lo' = Some a → lo_active lo = Some a ∨ fw_deleted w !! at_channelID a = None) →
  (∀ c, c ∈ lo_ok lo' → c ∈ lo_ok lo ∨ fw_deleted w !! c = None) →
  lo_clean lo' = lo_clean lo → lo_begun lo' = lo_begun lo → lo_cleaned lo' = lo_cleaned lo →
  InvClean (fs_nodes (fw_fs w')) (fw_transfers w') (fw_deleted w') (fw_cleanups w') (fw_next w') (lr_revoked (fw_links w')) own
    (clean_view <$> <[i := lo']> los).
Proof using I Hi.
  intros -> -> Hn Hr Ht Hns Ha Ho Hc Hb Hcd. rewrite list_fmap_insert.
  eapply (clean_other _ _ _ _ _ _ _ _ (inv_clean _ _ _ I) i (clean_view lo)); [by apply view_lookup|done|done|by apply nodes_ok_use|done..].
Qed.

Lemma same_nodes_ok w' : fs_nodes (fw_fs w') = fs_nodes (fw_fs w) → nodes_ok w w' lo.
Proof using Type. intros Hs. by apply nodes_nothing, same_makes. Qed.

Ltac use_same :=
  match goal with
  | |- InvLocks _ _ _ => eapply locks_same; [exact I|exact Hi|by split|by try destruct lo]
  | |- InvLinks _ _ _ => eapply links_same; [exact I|exact Hi|by split|by try destruct lo]
  | |- InvOwn _ _ _ _ _ _ _ => eapply own_same; [exact I|exact Hi|split_and!; (done || (cbn; lia))|by try destruct lo]
  | |- InvClean _ _ _ _ _ _ _ _ =>
      apply clean_changed; [done|done|done|done|by left|by apply same_nodes_ok|by left|by left|done|done|done]
  end.

Ltac view_of f := apply (view_lookup f) in Hi as Hv.

(** ** fileOpsMu *)

Lemma pres_RLock : preserved RLock.
Proof using I Hi.
  intros [Hr Hw] w' b. cbn. destruct (fw_writer w) eqn:Hwr; [done|]. intros [= <- <-]. split; [done|]. exists own.
  split; [|use_same|use_same|].
  - rewrite list_fmap_insert. pose proof (view_lookup lock_view _ _ _ Hi) as Hv. pose proof (inv_locks _ _ _ I) as IL. rewrite Hwr in IL.
    pose proof (locks_change _ _ _ IL i _ Hv (S (fw_readers w)) ∅) as HH. cbn in HH. rewrite Hr, Hw in HH. unfold lock_view at 1. cbn. rewrite Hw. apply HH; done || lia.
  - apply clean_changed; [done|done|done|done|by left|by apply same_nodes_ok|by left|cbn; set_solver|done|done|done].
Qed.

Lemma pres_RUnlock : preserved RUnlock.
Proof using I Hi.
  intros Hr w' b [= <- <-]. split; [done|]. exists own. split; [|use_same|use_same|].
  - rewrite list_fmap_insert. pose proof (view_lookup lock_view _ _ _ Hi) as Hv.
    exact (locks_release _ _ _ (inv_locks _ _ _ I) i _ Hv Hr).
  - apply clean_changed; [done|done|done|done|by left|by apply same_nodes_ok|by left|cbn; set_solver|done|done|done].
Qed.

Lemma pres_WLock : preserved WLock.
Proof using I Hi.
  intros [Hr Hw] w' b. cbn. destruct (fw_writer w) eqn:Hwr; [done|]. cbn [orb]. destruct (fw_readers w =? 0)%nat eqn:Hz; [|done]. cbn.
  apply Nat.eqb_eq in Hz. intros [= <- <-]. split; [done|]. exists own. split; [|use_same|use_same|use_same].
  rewrite list_fmap_insert. pose proof (view_lookup lock_view _ _ _ Hi) as Hv. pose proof (inv_locks _ _ _ I) as IL. rewrite Hwr, Hz in IL.
  exact (locks_write _ _ _ IL i _ Hv true Hr (λ _, conj eq_refl eq_refl) ltac:(done)).
Qed.

Lemma pres_WUnlock : preserved WUnlock.
Proof using I Hi.
  intros Hw w' b [= <- <-]. split; [done|]. exists own. split; [|use_same|use_same|use_same].
  rewrite list_fmap_insert. pose proof (view_lookup lock_view _ _ _ Hi) as Hv. pose proof (inv_locks _ _ _ I) as IL.
  assert (fw_writer w = true) as Hwr by exact (a_write _ _ _ IL i _ Hv Hw).
  destruct (locks_none_reading _ _ _ IL Hwr i _ Hv) as [Hr _].
  exact (locks_write _ _ _ IL i _ Hv false Hr ltac:(done) (λ _, Hw)).
Qed.

Lemma pres_IsDeleted c : preserved (IsDeleted c).
Proof using I Hi.
  intros _ w' b [= <- <-]. cbn [fw_deleted put_calls]. split; [done|]. exists own. cbn [after].
  destruct (negb _ && lo_read lo) eqn:Hc; [|apply tick_step]. apply andb_true_iff in Hc as [Hd Hr].
  apply negb_true_iff, bool_decide_eq_false in Hd. apply eq_None_not_Some in Hd. split; [|use_same|use_same|].
  - rewrite list_fmap_insert. pose proof (view_lookup lock_view _ _ _ Hi) as Hv.
    exact (locks_more_ok _ _ _ i _ c (inv_locks _ _ _ I) Hv Hr).
  - apply clean_changed; [done|done|done|done|by left|by apply same_nodes_ok|by left| |done|done|done].
    cbn. intros c' [->%elem_of_singleton|?]%elem_of_union; [by right|by left].
Qed.


(** ** Ids, tokens and transfers *)

Lemma drawn_tick id : drawn w id → drawn (put_calls (S (fw_calls w)) w) id.
Proof using Type. apply drawn_mono. cbn. lia. Qed.

Lemma pres_Rand n : FileLaws E → preserved (Rand n).
Proof using I Hi.
  intros L _ w' b. cbn. intros [= <- <-]. destruct (fe_rnd E (fw_calls w) n) as [bytes|] eqn:Hb; [|split; [done|]; exists own; apply tick_step].
  split; [by eapply fl_bytes|]. exists own. destruct (Nat.eqb_spec n 8) as [->|]; [|apply tick_step].
  assert (∀ id, drawn w id → id ≠ hex bytes ∨ ∃ m b, (m < fw_calls w)%nat ∧ fe_rnd E m 8 = Some b ∧ hex b = hex bytes) as Hfresh.
  { intros id (m & b & Hm & Hbm & ->). destruct (decide (hex b = hex bytes)); [right; by exists m, b|by left]. }
  assert (¬ drawn w (hex bytes)) as Hnew.
  { intros (m & b & Hm & Hbm & Heq). assert (b = bytes) as ->.
    { apply hex_inj in Heq; [done|by eapply fl_bytes|by eapply fl_bytes]. }
    pose proof (fl_fresh _ L _ _ _ Hb Hbm). lia. }
  split; [use_same|use_same| |use_same]. rewrite list_fmap_insert. pose proof (view_lookup own_view _ _ _ Hi) as Hv.
  pose proof (inv_own _ _ _ I) as IO. set (w1 := put_calls _ w).
  refine (own_ids _ _ _ _ _ _ _ IO i _ Hv ({[hex bytes]} ∪ lo_ids lo) (drawn w1) (fw_transfers w) drawn_tick _ _ _ _).
  - intros id [->%elem_of_singleton|Hid]%elem_of_union.
    + split_and!.
      * exists (fw_calls w), bytes. split_and!; [cbn; lia|done|done].
      * right. intros j u Hj Hin. by eapply Hnew, (c_drawn _ _ _ _ _ _ _ IO).
      * intros d tr Hd Heq. apply Hnew. rewrite <- Heq. by eapply (c_tr_drawn _ _ _ _ _ _ _ IO).
    + split_and!.
      * by eapply drawn_tick, (c_drawn _ _ _ _ _ _ _ IO i).
      * by left.
      * intros d tr Hd <-. by eapply (c_tr_apart _ _ _ _ _ _ _ IO d tr i _ Hd Hv).
  - intros a Ha. destruct (d_active _ _ _ _ _ _ _ IO i _ a Hv Ha) as (_ & Hin & _). cbn in Hin. set_solver.
  - intros d tr Hd. split_and!; [by eapply drawn_tick, (c_tr_drawn _ _ _ _ _ _ _ IO)|by eapply (c_tr_good _ _ _ _ _ _ _ IO)|by eapply (c_tr_good _ _ _ _ _ _ _ IO)|].
    intros j u _. by eapply (c_tr_apart _ _ _ _ _ _ _ IO).
  - apply (c_tr_inj _ _ _ _ _ _ _ IO).
Qed.

Lemma pres_Publish digest tr : preserved (Publish digest tr).
Proof using I Hi.
  intros (Hid & Hna & Hgood) w' b. cbn. unfold publish. cbn [fw_deleted put_calls].
  destruct (fw_deleted w !! tr_ChannelID tr) as [k|] eqn:Hd; [intros [= <- <-]; split; [done|]; exists own; apply tick_step|].
  intros [= <- <-]. split; [done|]. exists own. cbn [after]. split; [use_same|use_same| |].
  - rewrite list_fmap_insert. pose proof (view_lookup own_view _ _ _ Hi) as Hv. pose proof (inv_own _ _ _ I) as IO. set (w1 := on_transfers _ _).
    refine (own_ids _ _ _ _ _ _ _ IO i _ Hv (lo_ids lo ∖ {[tr_ID tr]}) (drawn w1) (<[digest := tr]> (fw_transfers w)) drawn_tick _ _ _ _).
    + intros id [Hin Hne]%elem_of_difference. split_and!.
      * by eapply drawn_tick, (c_drawn _ _ _ _ _ _ _ IO i).
      * by left.
      * intros d tr'. rewrite lookup_insert_Some. intros [[_ <-]|[_ Hd']]; [set_solver|]. intros <-.
        by eapply (c_tr_apart _ _ _ _ _ _ _ IO d tr' i _ Hd' Hv).
    + cbn. intros a Ha. congruence.
    + intros d tr'. rewrite lookup_insert_Some. intros [[_ <-]|[_ Hd']].
      * split_and!; [by eapply drawn_tick, (c_drawn _ _ _ _ _ _ _ IO i)|apply Hgood|apply Hgood|]. intros j u Hne Hj Hin.
        apply Hne. by eapply (c_apart _ _ _ _ _ _ _ IO j i u _ (tr_ID tr)).
      * split_and!; [by eapply drawn_tick, (c_tr_drawn _ _ _ _ _ _ _ IO)|by eapply (c_tr_good _ _ _ _ _ _ _ IO)|by eapply (c_tr_good _ _ _ _ _ _ _ IO)|].
        intros j u _. by eapply (c_tr_apart _ _ _ _ _ _ _ IO).
    + intros d d' tr1 tr2. rewrite !lookup_insert_Some. intros [[<- <-]|[Hn1 H1]] [[<- <-]|[Hn2 H2]] Heq; [done| | |].
      * exfalso. eapply (c_tr_apart _ _ _ _ _ _ _ IO d' tr2 i _ H2 Hv). by rewrite <- Heq.
      * exfalso. eapply (c_tr_apart _ _ _ _ _ _ _ IO d tr1 i _ H1 Hv). by rewrite Heq.
      * by eapply (c_tr_inj _ _ _ _ _ _ _ IO).
  - apply clean_changed; [done|done|done|done| |by apply same_nodes_ok|by left|by left|done|done|done].
    cbn. intros d tr'. rewrite lookup_insert_Some. intros [[_ <-]|[_ ?]]; [by right|by left].
Qed.

Lemma pres_Take digest : preserved (Take digest).
Proof using I Hi.
  intros _ w' b. cbn. unfold take_transfer. cbn [fw_transfers put_calls].
  destruct (fw_transfers w !! digest) as [tr|] eqn:Ht; [|intros [= <- <-]; split; [done|]; exists own; apply tick_step].
  intros [= <- <-]. pose proof (inv_own _ _ _ I) as IO. split; [by eapply (c_tr_good _ _ _ _ _ _ _ IO)|]. exists own. cbn [after].
  split; [use_same|use_same| |].
  - rewrite list_fmap_insert. pose proof (view_lookup own_view _ _ _ Hi) as Hv. set (w1 := on_transfers _ _).
    refine (own_ids _ _ _ _ _ _ _ IO i _ Hv ({[tr_ID tr]} ∪ lo_ids lo) (drawn w1) (delete digest (fw_transfers w)) drawn_tick _ _ _ _).
    + intros id [->%elem_of_singleton|Hin]%elem_of_union.
      * split_and!; [by eapply drawn_tick, (c_tr_drawn _ _ _ _ _ _ _ IO)|right; intros j u Hj; by eapply (c_tr_apart _ _ _ _ _ _ _ IO)|].
        intros d tr'. rewrite lookup_delete_Some. intros [Hne Hd] Heq. apply Hne. symmetry. by eapply (c_tr_inj _ _ _ _ _ _ _ IO).
      * split_and!; [by eapply drawn_tick, (c_drawn _ _ _ _ _ _ _ IO i)|by left|]. intros d tr'. rewrite lookup_delete_Some.
        intros [_ Hd] <-. by eapply (c_tr_apart _ _ _ _ _ _ _ IO d tr' i _ Hd Hv).
    + intros a Ha. destruct (d_active _ _ _ _ _ _ _ IO i _ a Hv Ha) as (_ & Hin & _). cbn in Hin. set_solver.
    + intros d tr'. rewrite lookup_delete_Some. intros [_ Hd].
      split_and!; [by eapply drawn_tick, (c_tr_drawn _ _ _ _ _ _ _ IO)|by eapply (c_tr_good _ _ _ _ _ _ _ IO)|by eapply (c_tr_good _ _ _ _ _ _ _ IO)|].
      intros j u _. by eapply (c_tr_apart _ _ _ _ _ _ _ IO).
    + intros d d' tr1 tr2. rewrite !lookup_delete_Some. intros [_ H1] [_ H2]. by eapply (c_tr_inj _ _ _ _ _ _ _ IO).
  - apply clean_changed; [done|done|done|done| |by apply same_nodes_ok|by left|by left|done|done|done].
    cbn. intros d tr'. rewrite lookup_delete_Some. intros [_ ?]. by left.
Qed.

Lemma pres_Activate tr conn : preserved (Activate tr conn).
Proof using I Hi.
  intros (Hid & Hna & Hnc) w' b. cbn. unfold activate. cbn [fw_deleted fw_next put_calls].
  destruct (fw_deleted w !! tr_ChannelID tr) as [k|] eqn:Hd; [intros [= <- <-]; split; [done|]; exists own; apply tick_step|].
  intros [= <- <-]. split; [done|]. exists own. cbn [after]. set (a := mkActive _ _ _ _). pose proof (inv_own _ _ _ I) as IO.
  pose proof (view_lookup own_view _ _ _ Hi) as Hv. split; [use_same|use_same| |].
  - rewrite list_fmap_insert. set (w1 := put_next _ _).
    assert (InvOwn (fe_ToUpper E) (drawn w) (fw_transfers w) (<[tr_ID tr := a]> (fw_active w)) (fw_done w) (S (fw_next w))
      (<[i := ((own_view lo).1.1, Some a, None)]> (own_view <$> los))) as HH.
    { apply (own_serve _ _ _ _ _ _ _ IO i (own_view lo) Hv).
      - lia.
      - intros a' [= <-]. cbn. by rewrite lookup_insert_eq.
      - cbn. intros d ->%list_elem_of_singleton. split_and!; [lia| |right; lia]. intros Hin.
        pose proof (d_closed _ _ _ _ _ _ _ IO _ Hin). lia.
      - intros j u d _ Hj Hin. by apply (d_open _ _ _ _ _ _ _ IO j u d).
      - intros j u a' Hne Hj Ha'. apply lookup_insert_ne. intros Heq. apply Hne.
        destruct (d_active _ _ _ _ _ _ _ IO j u a' Hj Ha') as (_ & Hin & _). rewrite <- Heq in Hin.
        by eapply (c_apart _ _ _ _ _ _ _ IO j i u _ (tr_ID tr)).
      - intros id a'. rewrite lookup_insert_Some. intros [[<- <-]|[_ Ha']]; [by left|right]. split; [done|]. cbn. congruence.
      - intros d Hin. pose proof (d_closed _ _ _ _ _ _ _ IO d Hin). lia. }
    eapply own_fewer; [exact HH|intros id; by apply drawn_tick|done|done].
  - apply clean_changed; [done|done|cbn; lia|done|by left|by apply same_nodes_ok| |by left|done|done|done].
    cbn. intros a' [= <-]. by right.
Qed.

Lemma pres_Deactivate a : preserved (Deactivate a).
Proof using I Hi.
  intros Ha w' b [= <- <-]. split; [done|]. exists own. pose proof (inv_own _ _ _ I) as IO. pose proof (view_lookup own_view _ _ _ Hi) as Hv.
  destruct (d_active _ _ _ _ _ _ _ IO i _ a Hv Ha) as (Hact & Hid & Hcl). cbn [after]. unfold deactivate. cbn [fw_active put_calls].
  rewrite Hact, Nat.eqb_refl. split; [use_same|use_same| |].
  - rewrite list_fmap_insert. set (w1 := on_active _ _).
    assert (InvOwn (fe_ToUpper E) (drawn w) (fw_transfers w) (delete (at_transferID a) (fw_active w)) (fw_done w) (fw_next w)
      (<[i := ((own_view lo).1.1, None, Some (at_done a))]> (own_view <$> los))) as HH.
    { assert (at_done a ∈ dones (own_view lo)) as Hda by (unfold dones; cbn; rewrite Ha; apply list_elem_of_here).
      apply (own_serve _ _ _ _ _ _ _ IO i (own_view lo) Hv); [done|done| | | | |].
      - cbn. intros d ->%list_elem_of_singleton. destruct (d_open _ _ _ _ _ _ _ IO i _ _ Hv Hda). by split_and!; [| |left].
      - intros j u d _ Hj Hin. by apply (d_open _ _ _ _ _ _ _ IO j u d).
      - intros j u a' Hne Hj Ha'. apply lookup_delete_ne. intros Heq. apply Hne.
        destruct (d_active _ _ _ _ _ _ _ IO j u a' Hj Ha') as (_ & Hin & _). rewrite <- Heq in Hin.
        by eapply (c_apart _ _ _ _ _ _ _ IO j i u _ (at_transferID a)).
      - intros id a'. rewrite lookup_delete_Some. intros [Hne Ha']. right. split; [done|]. cbn. intros Heq. exfalso. apply Hne.
        destruct (d_owned _ _ _ _ _ _ _ IO id a' Ha') as (<- & _). congruence.
      - apply (d_closed _ _ _ _ _ _ _ IO). }
    eapply own_fewer; [exact HH|intros id; by apply drawn_tick|done|done].
  - apply clean_changed; [done|done|done|done|by left|by apply same_nodes_ok|done|by left|done|done|done].
Qed.

Lemma pres_CloseDone d : preserved (CloseDone d).
Proof using I Hi.
  intros Hc w' b [= <- <-]. split; [done|]. exists own. pose proof (inv_own _ _ _ I) as IO. pose proof (view_lookup own_view _ _ _ Hi) as Hv.
  assert (lo_active lo = None) as Hna.
  { destruct (lo_active lo) as [a|] eqn:Ha; [|done]. destruct (d_active _ _ _ _ _ _ _ IO i _ a Hv Ha) as (_ & _ & H). cbn in H. congruence. }
  assert (d ∈ dones (own_view lo)) as Hd by (unfold dones; cbn; rewrite Hc; apply elem_of_app; right; apply list_elem_of_here).
  cbn [after]. split; [use_same|use_same| |use_same]. rewrite list_fmap_insert. set (w1 := on_done _ _).
  assert (InvOwn (fe_ToUpper E) (drawn w) (fw_transfers w) (fw_active w) ({[d]} ∪ fw_done w) (fw_next w)
    (<[i := ((own_view lo).1.1, lo_active lo, None)]> (own_view <$> los))) as HH.
  { apply (own_serve _ _ _ _ _ _ _ IO i (own_view lo) Hv); [done| | | | | |].
    - intros a Ha. congruence.
    - unfold dones. cbn. rewrite Hna. intros d' []%elem_of_nil.
    - intros j u d' Hne Hj Hin [->%elem_of_singleton|Hin']%elem_of_union.
      + apply Hne. by eapply (d_apart _ _ _ _ _ _ _ IO j i u _ d).
      + by destruct (d_open _ _ _ _ _ _ _ IO j u d' Hj Hin).
    - done.
    - intros id a Ha. by right.
    - intros d' [->%elem_of_singleton|Hin]%elem_of_union; [by apply (d_open _ _ _ _ _ _ _ IO i _ d Hv)|by apply (d_closed _ _ _ _ _ _ _ IO)]. }
  eapply own_fewer; [exact HH|intros id; by apply drawn_tick|done|done].
Qed.


(** ** The registry *)

Lemma pres_LinkLock : preserved LinkLock.
Proof using I Hi.
  intros Hl w' b. cbn. destruct (fw_linkLock w) eqn:Hlk; [done|]. intros [= <- <-]. split; [done|]. exists own.
  split; [use_same| |use_same|use_same]. rewrite list_fmap_insert. pose proof (view_lookup link_view _ _ _ Hi) as Hv.
  exact (links_lock _ _ _ (inv_links _ _ _ I) i _ Hv true (λ _, Hlk) ltac:(done)).
Qed.

Lemma pres_LinkUnlock : preserved LinkUnlock.
Proof using I Hi.
  intros Hl w' b [= <- <-]. split; [done|]. exists own. split; [use_same| |use_same|use_same].
  rewrite list_fmap_insert. pose proof (view_lookup link_view _ _ _ Hi) as Hv.
  exact (links_lock _ _ _ (inv_links _ _ _ I) i _ Hv false ltac:(done) (λ _, Hl)).
Qed.

Lemma pres_LinkRevoked ch : preserved (LinkRevoked ch).
Proof using I Hi.
  intros _ w' b [= <- <-]. split; [done|]. exists own. cbn [after fw_links put_calls].
  destruct (negb _ && lo_link lo) eqn:Hc; [|apply tick_step]. apply andb_true_iff in Hc as [Hr Hl].
  apply negb_true_iff, bool_decide_eq_false in Hr. split; [use_same| |use_same|use_same].
  rewrite list_fmap_insert. pose proof (view_lookup link_view _ _ _ Hi) as Hv.
  exact (links_seen _ _ _ (inv_links _ _ _ I) i _ Hv ch Hl Hr).
Qed.

(** The links or handles change, none into a revoked channel. *)
Lemma registry_step f :
  (∀ r, lr_revoked (f r) = lr_revoked r) →
  (∀ t l, lr_links (f (fw_links w)) !! t = Some l → lr_links (fw_links w) !! t = Some l ∨ linkChannel (ln_path l) ∉ lr_revoked (fw_links w)) →
  (∀ h ch, lr_active (f (fw_links w)) !! h = Some ch → lr_active (fw_links w) !! h = Some ch ∨ ch ∉ lr_revoked (fw_links w)) →
  Inv (on_links f (put_calls (S (fw_calls w)) w)) (<[i := lo]> los) own.
Proof using I Hi.
  intros Hr Hl Ha. split; [use_same| |use_same|].
  - rewrite (insert_view _ _ _ lo) by done. eapply links_reg; [apply I|apply Hr|exact Hl|exact Ha].
  - apply clean_changed; [done|done|done| |by left|by apply same_nodes_ok|by left|by left|done|done|done].
    cbn. by rewrite Hr.
Qed.

Lemma pres_LinkPrune now : preserved (LinkPrune now).
Proof using I Hi.
  intros _ w' b [= <- <-]. split; [done|]. exists own. apply registry_step; [done| |by left].
  cbn. intros t l [Hl _]%map_lookup_filter_Some. by left.
Qed.

Lemma link_seen ch : lo_link lo = true → ch ∈ lo_unrevoked lo → ch ∉ lr_revoked (fw_links w).
Proof using I Hi.
  intros Hl Hch. pose proof (view_lookup link_view _ _ _ Hi) as Hv. by apply (b_unrevoked _ _ _ (inv_links _ _ _ I) i _ ch Hv).
Qed.

Lemma pres_LinkAdd token l : preserved (LinkAdd token l).
Proof using I Hi.
  intros [Hl Hch] w' b [= <- <-]. split; [done|]. exists own. apply registry_step; [done| |by left].
  cbn. intros t l'. rewrite lookup_insert_Some. intros [[_ <-]|[_ ?]]; [right; by apply link_seen|by left].
Qed.

Lemma pres_LinkServe h ch : preserved (LinkServe h ch).
Proof using I Hi.
  intros [Hl Hch] w' b [= <- <-]. split; [done|]. exists own. apply registry_step; [done|by left|].
  cbn. intros h' ch'. rewrite lookup_insert_Some. intros [[_ <-]|[_ ?]]; [right; by apply link_seen|by left].
Qed.

Lemma pres_LinkServed h : preserved (LinkServed h).
Proof using I Hi.
  intros _ w' b [= <- <-]. split; [done|]. exists own. apply registry_step; [done|by left|].
  cbn. intros h' ch'. rewrite lookup_delete_Some. intros [_ ?]. by left.
Qed.

Lemma pres_LinkRevoke ch : preserved (LinkRevoke ch).
Proof using I Hi.
  intros Hl w' b [= <- <-]. split; [done|]. exists own. cbn [after]. split; [use_same| |use_same|].
  - rewrite list_fmap_insert. pose proof (view_lookup link_view _ _ _ Hi) as Hv.
    exact (links_revoke _ _ _ (inv_links _ _ _ I) i _ Hv ch Hl).
  - apply clean_changed; [done|done|done| |by left|by apply same_nodes_ok|by left|by left|done|done|done].
    cbn. set_solver.
Qed.

(** ** Cleanups *)

Ltac clean_view_step Hv :=
  rewrite list_fmap_insert;
  eapply (clean_step _ _ _ _ _ _ _ _ (inv_clean _ _ _ I) i (clean_view lo)); [exact Hv|by left|by left| | | | | | | | | | ].

Lemma stay_nodes : ∀ p n c, fs_nodes (fw_fs w) !! p = Some n → in_channel c p →
  (∃ p' n', fs_nodes (fw_fs w) !! p' = Some n' ∧ in_channel c p') ∨ c ∈ v_ok (clean_view lo) ∨ ∃ a, v_active (clean_view lo) = Some a ∧ at_channelID a = c.
Proof using Type. intros p n c Hp Hin. left. eauto. Qed.

Lemma insert_same (vs : list clean_view_t) j v : vs !! j = Some v → <[j := v]> vs = vs.
Proof using Type. apply list_insert_id. Qed.

(** The status of the thread's cleanup changes, and with it perhaps its record. *)
Lemma status_step w' c k st st' e' ns' :
  lo_clean lo = Some (c, k, st) →
  same_locks w w' → same_links w w' → same_own w w' → fw_deleted w' = fw_deleted w → fs_nodes (fw_fs w') = ns' →
  (∀ p n, ns' !! p = Some n → is_Some (fs_nodes (fw_fs w) !! p)) →
  fw_cleanups w' = <[k := mkCleanup false e']> (fw_cleanups w) →
  (∀ e, st' = CSet e → e' = e) →
  status_ok ns' (clean_view <$> <[i := lo_set_clean (Some (c, k, st')) lo]> los) c st' →
  ∃ own', Inv w' (<[i := lo_set_clean (Some (c, k, st')) lo]> los) own'.
Proof using I Hi.
  intros Hc Hlk Hli Hown Hdel Hns Hsub Hcu He' Hst. exists own. pose proof (view_lookup clean_view _ _ _ Hi) as Hv.
  assert (v_clean (clean_view lo) = Some (c, k, st)) as Hc' by done.
  destruct (e_clean _ _ _ _ _ _ _ _ (inv_clean _ _ _ I) i _ c k st Hv Hc') as (Hd & (e & He & _) & _).
  split; [by eapply locks_same|by eapply links_same|by eapply own_same|].
  destruct Hown as (Htr & _ & _ & Hn & _). destruct Hli as [Hli _]. rewrite Hdel, Hcu, Hli, Htr, Hn, Hns.
  rewrite list_fmap_insert in Hst |- *.
  eapply (clean_step _ _ _ _ _ _ _ _ (inv_clean _ _ _ I) i (clean_view lo)); [exact Hv|by left|by left| |done|by left|done| | | | |by left|by left].
  - intros p n c0 Hp Hin. left. destruct (Hsub p n Hp) as [n0 Hp0]. eauto.
  - intros k' cc. rewrite lookup_insert_Some. intros [[<- <-]|[_ ?]]; [|by left]. right. exists c, st. split; [done|]. done.
  - intros k' Hk'. destruct (decide (k = k')) as [<-|]; [by rewrite lookup_insert_eq|by rewrite lookup_insert_ne].
  - intros k' Hk'. apply lookup_insert_ne. intros ->. by apply (Hk' c st).
  - cbn. intros c0 k0 st0 [= <- <- <-]. split_and!; [by exists st| |done]. exists e'. by rewrite lookup_insert_eq.
Qed.

Lemma pres_AwaitDone d : preserved (AwaitDone d).
Proof using I Hi.
  intros _ w' b. cbn. case_bool_decide as Hd; [|done]. intros [= <- <-]. split; [done|]. cbn [after].
  destruct (lo_clean lo) as [[[c k] [ws| |e]]|] eqn:Hc; try (exists own; apply tick_step).
  pose proof (view_lookup clean_view _ _ _ Hi) as Hv.
  destruct (e_clean _ _ _ _ _ _ _ _ (inv_clean _ _ _ I) i _ c k _ Hv Hc) as (_ & (e & He & _) & Hst).
  eapply (status_step _ c k _ _ e (fs_nodes (fw_fs w)) Hc); [done|done|split_and!; try done; cbn; lia|done|done|by eexists| |done|].
  - cbn. by rewrite insert_id.
  - rewrite list_fmap_insert. intros j u a Hj Hua Hch. cbn in Hst.
    assert (at_done a ∈ ws ∧ ∃ lo', los !! j = Some lo' ∧ lo_active lo' = Some a) as [Hin (lo' & Hj' & Ha')].
    { destruct (lookup_insert_split _ _ _ _ _ _ Hv Hj) as [[-> ->]|[Hne Hj1]].
      - split; [by apply (Hst i (clean_view lo) a)|by exists lo].
      - split; [by eapply Hst|]. rewrite list_lookup_fmap in Hj1. destruct (los !! j) as [lo'|] eqn:Hlj; [|done]. injection Hj1 as <-. by exists lo'. }
    apply list_elem_of_filter. split; [|done]. intros Heq. pose proof (view_lookup own_view _ _ _ Hj') as Hov.
    destruct (d_open _ _ _ _ _ _ _ (inv_own _ _ _ I) j _ (at_done a) Hov) as [_ Hopen].
    + unfold dones. cbn. rewrite Ha'. apply list_elem_of_here.
    + by rewrite Heq in Hopen.
Qed.

Lemma gone_own c c' k st : lo_clean lo = Some (c', k, st) → gone (fs_nodes (fw_fs w)) (clean_view <$> los) c →
  ∀ st', gone (fs_nodes (fw_fs w)) (clean_view <$> <[i := lo_set_clean st' lo]> los) c.
Proof using Hi.
  intros _ Hg st'. rewrite list_fmap_insert. eapply gone_views; [by apply view_lookup|done|done|done].
Qed.

Lemma pres_SetErr k e : preserved (SetErr k e).
Proof using I Hi.
  intros (c & st & Hc & Hwt & He) w' b [= <- <-]. split; [done|]. cbn [after]. rewrite Hc. pose proof (view_lookup clean_view _ _ _ Hi) as Hv.
  destruct (e_clean _ _ _ _ _ _ _ _ (inv_clean _ _ _ I) i _ c k _ Hv Hc) as (_ & (e0 & He0 & _) & Hst).
  eapply (status_step _ c k _ _ e (fs_nodes (fw_fs w)) Hc); [done|done|split_and!; try done; cbn; lia|done|done|by eexists| |by intros e1 [= ->]|].
  - cbn. apply map_eq. intros k'. destruct (decide (k = k')) as [<-|].
    + by rewrite lookup_alter_eq, lookup_insert_eq, He0.
    + by rewrite lookup_alter_ne, lookup_insert_ne.
  - destruct e as [e|]; cbn; [|rewrite (He eq_refl) in Hst; by eapply gone_own].
    assert (unserved (clean_view <$> los) c) as Hun.
    { destruct st as [[|]| |[e1|]]; cbn in Hst; [|done|apply Hst|done|apply Hst].
      intros j u a Hj Ha Hch. specialize (Hst j u a Hj Ha Hch). by apply elem_of_nil in Hst. }
    intros j u a Hj Ha. rewrite list_fmap_insert in Hj. destruct (lookup_insert_split _ _ _ _ _ _ Hv Hj) as [[-> ->]|[Hne Hj1]]; [|by eapply Hun].
    by apply (Hun i (clean_view lo)).
Qed.


Lemma pres_CloseCleanup k : preserved (CloseCleanup k).
Proof using I Hi.
  intros (c & e & Hc & Hrev) w' b [= <- <-]. split; [done|]. exists own. cbn [after]. pose proof (view_lookup clean_view _ _ _ Hi) as Hv.
  destruct (e_clean _ _ _ _ _ _ _ _ (inv_clean _ _ _ I) i _ c k _ Hv Hc) as (_ & (e0 & He0 & Hee) & Hst).
  assert (e0 = e) as -> by (by apply Hee).
  assert (pretty c ∈ lr_revoked (fw_links w)) as Hr.
  { pose proof (view_lookup link_view _ _ _ Hi) as Hlv. by eapply (b_revoked _ _ _ (inv_links _ _ _ I) i _ (pretty c) Hlv). }
  split; [use_same|use_same|use_same|]. cbn. rewrite list_fmap_insert.
  eapply (clean_step _ _ _ _ _ _ _ _ (inv_clean _ _ _ I) i (clean_view lo));
    [exact Hv|by left|by left|by apply stay_nodes|done|by left|done| | | |done|by left|by left].
  - intros k' cc Hk'. destruct (decide (k = k')) as [<-|]; [|rewrite lookup_alter_ne in Hk' by done; by left].
    right. rewrite lookup_alter_eq, He0 in Hk'. injection Hk' as <-. exists c, (CSet e). split; [done|]. cbn. intros _ ->. by split.
  - intros k' [cc Hk']. destruct (decide (k = k')) as [<-|]; [rewrite lookup_alter_eq, Hk'|rewrite lookup_alter_ne, Hk' by done]; by eexists.
  - intros k' Hk'. apply lookup_alter_ne. intros ->. by apply (Hk' c (CSet e)).
Qed.

Lemma pres_AwaitCleanup k : preserved (AwaitCleanup k).
Proof using I Hi.
  intros _ w' b. cbn. cbn [fw_cleanups put_calls]. destruct (fe_cancel E (fw_calls w)); [intros [= <- <-]; split; [done|]; exists own; apply tick_step|].
  destruct (fw_cleanups w !! k) as [cc|] eqn:Hk; [|done]. destruct (cc_done cc) eqn:Hd; [|done]. intros [= <- <-]. split; [done|]. exists own.
  cbn [after]. destruct (cc_err cc) as [e|] eqn:He; [apply tick_step|]. destruct (lo_begun lo) as [[c k']|] eqn:Hb; [|apply tick_step].
  destruct (Nat.eqb_spec k k') as [<-|]; [|apply tick_step]. pose proof (view_lookup clean_view _ _ _ Hi) as Hv.
  destruct (e_cleanup _ _ _ _ _ _ _ _ (inv_clean _ _ _ I) k cc Hk) as (c0 & Ho & Hdel & Hg). destruct (Hg Hd He) as [Hgone Hrev].
  assert (c0 = c) as ->. { destruct (e_begun _ _ _ _ _ _ _ _ (inv_clean _ _ _ I) i _ c k Hv Hb). congruence. }
  split; [use_same|use_same|use_same|]. cbn. rewrite list_fmap_insert.
  eapply (clean_step _ _ _ _ _ _ _ _ (inv_clean _ _ _ I) i (clean_view lo));
    [exact Hv|by left|by left|by apply stay_nodes|done|by left|done|by left|done|done| |by left|].
  - cbn. intros c' k' st' Hst. destruct (e_clean _ _ _ _ _ _ _ _ (inv_clean _ _ _ I) i _ c' k' st' Hv Hst) as (Hd' & He' & Hs).
    split_and!; [by eexists|done|]. by apply (status_views _ _ i (clean_view lo) Hv).
  - cbn. intros c' [->%elem_of_singleton|Hin]%elem_of_union; [by right|by left].
Qed.

(** The directory of a channel goes with everything in it. *)
Lemma resolve_pretty c : resolve (pretty (c : Z)) = Ok [pretty c].
Proof using Type. change (pretty c) with (Join [pretty c] "/") at 1. apply resolve_plain; [done|]. apply Forall_singleton, pretty_plain. Qed.

Lemma removeAll_empty c s : empty_channel (fs_nodes (fs_removeAll [pretty c] s).1) c.
Proof using Type.
  intros p n Hp Hin. cbn in Hp. apply map_lookup_filter_Some in Hp as [_ Hp]. cbn in Hp. apply Hp. unfold in_channel in Hin.
  destruct p as [|x p]; [done|]. cbn in Hin. injection Hin as ->. by exists p.
Qed.

Lemma pres_RemoveAll name : preserved (RemoveAll name).
Proof using I Hi.
  intros _ w' b Hex. split; [done|]. cbn in Hex. unfold sys_removeAll in Hex. cbn [fw_calls put_calls] in Hex.
  assert (∀ s : FS, (s = fw_fs w ∨ ∃ p, resolve name = Ok p ∧ (s = (fs_removeAll p (fw_fs w)).1 ∨ ∃ keep, s = fs_removeSome keep p (fw_fs w))) →
    Inv (put_fs s (put_calls (S (fw_calls w)) w)) (<[i := lo]> los) own) as Hkeep.
  { intros s Hs. apply fs_step, nodes_nothing. cbn. destruct Hs as [->|(p & _ & [->|[keep ->]])];
      [apply makes_nothing_refl|apply removeAll_makes|apply removeSome_makes]. }
  assert (∀ r, after lo (RemoveAll name) r = lo ∨ (is_ok r = true ∧ ∃ c k st, lo_clean lo = Some (c, k, st) ∧ waited st ∧ lo_write lo = true ∧ name = pretty c ∧
    after lo (RemoveAll name) r = lo_set_clean (Some (c, k, CRemoved)) lo)) as Hafter.
  { intros [[]|e]; cbn; [|by left]. destruct (lo_clean lo) as [[[c k] st]|] eqn:Hc; [|by left].
    destruct (lo_write lo && _ && _) eqn:Hb; [|by left]. right. split; [done|]. exists c, k, st.
    apply andb_true_iff in Hb as [[Hw Hst]%andb_true_iff ->%String.eqb_eq]. split_and!; try done. by destruct st as [[|]| |[|]]. }
  assert (∀ p, resolve name = Ok p → ∀ r, w' = put_fs (fs_removeAll p (fw_fs w)).1 (put_calls (S (fw_calls w)) w) →
    ∃ own', Inv w' (<[i := after lo (RemoveAll name) r]> los) own') as Hdone.
  { intros p Hp r ->. destruct (Hafter r) as [->|(_ & c & k & st & Hc & Hwt & Hw & Hname & ->)]; [exists own; apply Hkeep; right; exists p; by auto|].
    rewrite Hname, resolve_pretty in Hp. injection Hp as <-.
    pose proof (view_lookup clean_view _ _ _ Hi) as Hv. pose proof (view_lookup lock_view _ _ _ Hi) as Hlv.
    destruct (e_clean _ _ _ _ _ _ _ _ (inv_clean _ _ _ I) i _ c k _ Hv Hc) as (_ & (e0 & He0 & _) & Hst).
    assert (fw_writer w = true) as Hwr by exact (a_write _ _ _ (inv_locks _ _ _ I) i _ Hlv Hw).
    eapply (status_step _ c k _ _ e0 _ Hc); [done|done|split_and!; try done; cbn; lia|done|done|intros q n; apply removeAll_makes| |done|].
    - cbn. by rewrite insert_id.
    - assert (unserved (clean_view <$> los) c) as Hun.
      { destruct st as [[|]| |[e1|]]; cbn in Hst; [|done|apply Hst|done|apply Hst].
        intros j u a Hj Ha Hch. specialize (Hst j u a Hj Ha Hch). by apply elem_of_nil in Hst. }
      cbn. rewrite list_fmap_insert. split_and!; [| |apply removeAll_empty].
      + intros j u a Hj Ha. destruct (lookup_insert_split _ _ _ _ _ _ Hv Hj) as [[-> ->]|[Hne Hj1]]; [|by eapply Hun].
        by apply (Hun i (clean_view lo)).
      + assert (∀ j u, (clean_view <$> los) !! j = Some u → v_ok u = ∅) as Hno.
        { intros j u Hj. rewrite list_lookup_fmap in Hj. destruct (los !! j) as [lo'|] eqn:Hlj; [|done]. injection Hj as <-.
          by destruct (locks_none_reading _ _ _ (inv_locks _ _ _ I) Hwr j _ (view_lookup lock_view _ _ _ Hlj)). }
        intros j u Hj. destruct (lookup_insert_split _ _ _ _ _ _ Hv Hj) as [[-> ->]|[Hne Hj1]].
        * cbn. pose proof (Hno i _ Hv) as Hok. cbn in Hok. rewrite Hok. set_solver.
        * rewrite (Hno j u Hj1). set_solver. }
  destruct (fe_io E (S (fw_calls w))) as [m|] eqn:Hio.
  - destruct (resolve name) as [p|e] eqn:Hp.
    + injection Hex as <- <-. exists own. cbn [after]. apply Hkeep. right. exists p. eauto.
    + unfold sys in Hex. cbn [fw_calls put_calls] in Hex. rewrite Hio in Hex. injection Hex as <- <-. exists own. apply tick_step.
  - unfold sys in Hex. cbn [fw_calls put_calls] in Hex. rewrite Hio in Hex. unfold at_ in Hex.
    destruct (resolve name) as [p|e] eqn:Hp; injection Hex as <- <-; [by eapply Hdone|]. exists own. apply (Hkeep (fw_fs w)). by left.
Qed.

Lemma pres_Begin c : preserved (Begin c).
Proof using I Hi.
  intros Hcl w' b Hex. split; [done|]. cbn in Hex. unfold begin_section in Hex. cbn [fw_deleted fw_cleanups fw_active fw_next put_calls] in Hex.
  pose proof (view_lookup clean_view _ _ _ Hi) as Hv. pose proof (inv_own _ _ _ I) as IO. pose proof (inv_clean _ _ _ I) as IC.
  set (active := filter (λ a, at_channelID a = c) (map_to_list (fw_active w)).*2) in *.
  assert (∀ trs' w1, trs' ⊆ fw_transfers w → (fw_next w ≤ fw_next w1)%nat → fw_transfers w1 = trs' → fw_active w1 = fw_active w → fw_done w1 = fw_done w →
    (fw_calls w ≤ fw_calls w1)%nat → ∀ lo1, own_view lo1 = own_view lo →
    InvOwn (fe_ToUpper E) (drawn w1) (fw_transfers w1) (fw_active w1) (fw_done w1) (fw_next w1) (own_view <$> <[i := lo1]> los)) as Hown.
  { intros trs' w1 Hsub Hn -> -> -> Hc lo1 Hvw. rewrite (insert_view _ _ _ lo) by done. eapply own_fewer; [apply I|intros id; by apply drawn_mono|done|done]. }
  assert (∀ j u a, (clean_view <$> los) !! j = Some u → v_active u = Some a → at_channelID a = c → at_done a ∈ at_done <$> active) as Hact.
  { intros j u a Hj Ha Hch. rewrite list_lookup_fmap in Hj. destruct (los !! j) as [lo'|] eqn:Hlj; [|done]. injection Hj as <-.
    destruct (d_active _ _ _ _ _ _ _ IO j _ a (view_lookup own_view _ _ _ Hlj) Ha) as (Hin & _).
    apply list_elem_of_fmap. exists a. split; [done|]. apply list_elem_of_filter. split; [done|].
    apply list_elem_of_fmap. exists (at_transferID a, a). split; [done|]. by apply elem_of_map_to_list. }
  assert (∀ k (old : bool), fw_deleted w !! c = Some k → old = false → ∃ own', Inv (on_transfers (filter (λ e, tr_ChannelID e.2 ≠ c)) (put_calls (S (fw_calls w)) w))
    (<[i := after lo (Begin c) (k, false, active)]> los) own') as Hagain.
  { intros k _ Hd _. exists own. cbn [after]. split; [use_same|use_same| |].
    - apply (Hown (filter (λ e, tr_ChannelID e.2 ≠ c) (fw_transfers w))); [apply map_filter_subseteq|done|done|done|done|cbn; lia|done].
    - cbn. rewrite list_fmap_insert. exact (clean_begin_again _ _ _ _ _ _ _ _ IC i _ Hv c k Hd). }
  assert (∀ w1, (∀ k, fw_deleted w !! c = Some k → ∃ e, fw_cleanups w !! k = Some (mkCleanup true (Some e))) →
    w1 = on_transfers (filter (λ e, tr_ChannelID e.2 ≠ c)) (put_next (S (fw_next w)) (on_cleanups <[fw_next w := mkCleanup false None]>
      (on_deleted <[c := fw_next w]> (put_calls (S (fw_calls w)) w)))) →
    ∃ own', Inv w1 (<[i := after lo (Begin c) (fw_next w, true, active)]> los) own') as Hfresh.
  { intros w1 Hfail ->. exists (<[fw_next w := c]> own). cbn [after]. split; [use_same|use_same| |].
    - apply (Hown (filter (λ e, tr_ChannelID e.2 ≠ c) (fw_transfers w))); [apply map_filter_subseteq|cbn; lia|done|done|done|cbn; lia|done].
    - cbn. rewrite list_fmap_insert. exact (clean_begin_fresh _ _ _ _ _ _ _ _ IC i _ Hv c active Hcl Hfail Hact). }
  destruct (fw_deleted w !! c) as [k|] eqn:Hd.
  - destruct (fw_cleanups w !! k) as [[[] [e|]]|] eqn:Hk; cbn in Hex; injection Hex as <- <-; try (by apply (Hagain k false)).
    apply Hfresh; [|done]. intros k' [= <-]. by exists e.
  - cbn in Hex. injection Hex as <- <-. by apply Hfresh.
Qed.


(** ** Every access *)

Lemma conns_step f : Inv (on_conns f (put_calls (S (fw_calls w)) w)) (<[i := lo]> los) own.
Proof using I Hi.
  apply quiet_step; [done|done|split_and!; try done; cbn; lia|done|by apply same_nodes_ok].
Qed.

Lemma db_step d : Inv (put_db d (put_calls (S (fw_calls w)) w)) (<[i := lo]> los) own.
Proof using I Hi.
  apply quiet_step; [done|done|split_and!; try done; cbn; lia|done|by apply same_nodes_ok].
Qed.

Lemma same_nothing {A} (f : FS → IO A) : (∀ s, fs_nodes (f s).1 = fs_nodes s) → ∀ s, makes_nothing s (f s).1.
Proof using Type. intros Hf s. apply same_makes, Hf. Qed.

Lemma at_same {A} name (f : path → FS → IO A) : (∀ p s, fs_nodes (f p s).1 = fs_nodes s) → ∀ s, makes_nothing s (at_ name f s).1.
Proof using Type. intros Hf. apply at_nothing. intros p. apply same_nothing, Hf. Qed.

Theorem act_preserved {B} (e : act B) : FileLaws E → preserved e.
Proof using I Hi.
  intros L. destruct e; try (by auto using pres_RLock, pres_RUnlock, pres_WLock, pres_WUnlock, pres_IsDeleted, pres_Rand, pres_Publish, pres_Take,
    pres_Activate, pres_Deactivate, pres_CloseDone, pres_Begin, pres_AwaitDone, pres_SetErr, pres_CloseCleanup, pres_AwaitCleanup, pres_RemoveAll,
    pres_LinkLock, pres_LinkUnlock, pres_LinkRevoked, pres_LinkPrune, pres_LinkAdd, pres_LinkServe, pres_LinkServed, pres_LinkRevoke).
  all: intros Hal w' b Hex; cbn in Hal, Hex; (split; [|exists own; cbn [after]]); try done.
  (* no effect at all *)
  all: try (injection Hex as <- <-; by apply tick_step).
  (* files *)
  all: try (eapply sys_nothing; [|exact Hex]; by intros ?; apply makes_nothing_refl).
  all: try (eapply sys_makes; [exact Hal| |exact Hex]; first [apply (mkdirAll_makes []) | apply openExcl_makes]).
  all: try (eapply sys_nothing; [|exact Hex]; first [by apply at_same, open_nodes | by apply at_same, lstat_nodes | by apply at_nothing, remove_makes
    | by apply same_nothing, read_nodes | by apply same_nothing, stat_nodes]).
  - (* WriteFile *)
    unfold sys_write in Hex. cbn [fw_calls fw_fs put_calls] in Hex. destruct (fe_io E _) as [n|].
    + injection Hex as <- <-. apply fs_step, nodes_nothing, same_makes, write_nodes.
    + eapply sys_nothing; [|exact Hex]. apply same_nothing, write_nodes.
  - (* CloseFile *)
    unfold sys_close in Hex. cbn [fw_calls fw_fs put_calls] in Hex. destruct (fs_close h (fw_fs w)) as [s r] eqn:Hc. injection Hex as <- _.
    apply fs_step, nodes_nothing, same_makes. cbn. pose proof (close_nodes h (fw_fs w)) as Hn. by rewrite Hc in Hn.
  - (* Rename *)
    destruct (resolve newName) as [q|] eqn:Hq; [|injection Hex as <- <-; apply tick_step].
    apply sys_inv in Hex as [->| ->]; [apply tick_step|]. apply fs_step. unfold at_. cbn [fw_fs put_calls].
    destruct (resolve name) as [p|]; [|by apply same_nodes_ok]. eapply nodes_made; [done|done|]. apply rename_makes.
  - (* Link *)
    destruct (resolve newName) as [q|] eqn:Hq; [|injection Hex as <- <-; apply tick_step].
    apply sys_inv in Hex as [->| ->]; [apply tick_step|]. apply fs_step. unfold at_. cbn [fw_fs put_calls].
    destruct (resolve name) as [p|]; [|by apply same_nodes_ok]. eapply nodes_made; [done|done|]. apply link_makes.
  - (* Db: the answer *)
    cbn [fw_db put_calls] in Hex. destruct (m (fw_db w)) as [d r] eqn:Hm. injection Hex as _ <-. cbn. exists (fw_db w). by rewrite Hm.
  - cbn [fw_db put_calls] in Hex. destruct (m (fw_db w)) as [d r] eqn:Hm. injection Hex as <- <-. apply db_step.
  - (* connections *)
    unfold recv in Hex. cbn [fw_conns put_calls] in Hex. destruct (fw_conns w !! conn) as [c|]; [|injection Hex as <- <-; apply tick_step].
    destruct (cn_closed c); [injection Hex as <- <-; apply tick_step|]. destruct (cn_in c); injection Hex as <- <-; [apply tick_step|apply conns_step].
  - unfold send in Hex. cbn [fw_conns fw_calls put_calls] in Hex. destruct (fw_conns w !! conn) as [c|]; [|injection Hex as <- <-; apply tick_step].
    destruct (_ || _); injection Hex as <- <-; [apply tick_step|apply conns_step].
  - injection Hex as <- <-. unfold close_conn. cbn [fw_conns put_calls]. destruct (fw_conns w !! conn); [apply conns_step|apply tick_step].
Qed.

End access.

(** ** Threads *)

Section conf.
Context `{!MapRange fileKey FileRow}.

Definition thread_post (th : thread) : local → fresp → Prop :=
  match th_op th with Some op => op_post op | None => λ _ _, True end.

Definition sound (s : conf) : Prop :=
  ∃ los own, Inv (cf_world s) los own ∧ Forall2 (λ th lo, disc E lo (th_prog th) (thread_post th)) (cf_threads s) los.

Lemma Inv_new w los own : Inv w los own → Inv w (los ++ [local0]) own.
Proof.
  intros I. split; rewrite fmap_app.
  - apply locks_new, I.
  - apply links_new; [apply I|]. cbn. set_solver.
  - apply own_new, I.
  - apply clean_new, I.
Qed.

Lemma Inv_fork w los own i lo : Inv w los own → los !! i = Some lo → Inv w (<[i := lo_set_clean None lo]> los ++ [child_of lo]) own.
Proof.
  intros I Hi. split; rewrite fmap_app.
  - rewrite (insert_view _ _ _ lo) by done. apply locks_new, I.
  - rewrite (insert_view _ _ _ lo) by done. apply links_new; [apply I|]. intros ch Hch.
    by apply (b_revoked _ _ _ (inv_links _ _ _ I) i _ ch (view_lookup link_view _ _ _ Hi)).
  - rewrite (insert_view _ _ _ lo) by done. apply own_new, I.
  - rewrite list_fmap_insert. exact (clean_fork _ _ _ _ _ _ _ _ (inv_clean _ _ _ I) i _ (view_lookup clean_view _ _ _ Hi)).
Qed.

(** The environment touches connections and the database only. *)
Lemma Inv_env w w' los own :
  same_locks w w' → same_links w w' → same_own w w' → same_clean w w' → fw_fs w' = fw_fs w → Inv w los own → Inv w' los own.
Proof.
  intros [Hr Hw] [Hl Hk] (Ht & Ha & Hd & Hn & Hc) (_ & Hdel & Hcu & _ & Hrv) Hfs I. split.
  - rewrite Hr, Hw. apply I.
  - rewrite Hl, Hk. apply I.
  - rewrite Ht, Ha, Hd, Hn. eapply own_fewer; [apply I|intros id; by apply drawn_mono|done|done].
  - rewrite Ht, Hdel, Hcu, Hn, Hrv, Hfs. apply I.
Qed.

Lemma sound_env w w' ths :
  same_locks w w' → same_links w w' → same_own w w' → same_clean w w' → fw_fs w' = fw_fs w → sound (mkConf w ths) → sound (mkConf w' ths).
Proof. intros H1 H2 H3 H4 H5 (los & own & I & Hth). exists los, own. split; [by eapply Inv_env|done]. Qed.

Theorem step_sound s s' : FileLaws E → fstep E s s' → sound s → sound s'.
Proof.
  intros L Hstep. destruct Hstep as [w ths op|w ths i o B e k w' b Hi He|w ths i o c k Hi|w ths conn frames Hc|w ths conn|w ths c|w ths c].
  - intros (los & own & I & Hth). exists (los ++ [local0]), own. split; [by apply Inv_new|]. cbn in *. apply Forall2_app; [done|].
    constructor; [|done]. apply op_disciplined.
  - intros (los & own & I & Hth). cbn in *. destruct (Forall2_lookup_l _ _ _ _ _ Hth Hi) as (lo & Hlo & [Hal Hk]).
    destruct (act_preserved w los own I i lo Hlo e L Hal w' b He) as [Hans [own' I']]. exists (<[i := after lo e b]> los), own'.
    split; [done|]. cbn. apply Forall2_insert; [done|]. by apply Hk.
  - intros (los & own & I & Hth). cbn in *. destruct (Forall2_lookup_l _ _ _ _ _ Hth Hi) as (lo & Hlo & [Hch Hk]).
    exists (<[i := lo_set_clean None lo]> los ++ [child_of lo]), own. split; [by apply Inv_fork|]. cbn. apply Forall2_app; [by apply Forall2_insert|].
    constructor; [|done]. apply disc_fmap. exact Hch.
  - apply sound_env; done.
  - apply sound_env; unfold close_conn; by destruct (fw_conns w !! conn).
  - apply sound_env; done.
  - apply sound_env; done.
Qed.

Theorem steps_sound s s' : FileLaws E → rtc (fstep E) s s' → sound s → sound s'.
Proof. intros L. induction 1 as [|s s1 s' Hs _ IH]; [done|]. intros H. apply IH. by eapply step_sound. Qed.

End conf.
End inv.
