(* ===== verification/FileProps.v ===== *)
(** * What the file transfer guarantees under every interleaving

    A deleted channel stays deleted: its tokens and links die with the tombstone and
    its files do not come back. *)

From stdpp Require Import pretty.
From S2P Require Import Prelude ChatText GoStrings Wire GoState ChatKeys AuthService FileNames FileStore FileWorld FileTransfer FileThreads FileDisc FileSafety FileRun.

(** A server that has just started, on the files and rows it finds. *)
Definition FW_start (s : FS) (d : FileDB) : FW :=
  mkFW s d ∅ ∅ ∅ 0 ∅ ∅ 0 false (mkRegistry ∅ ∅ ∅) false ∅ 0.

Definition finished (s : conf) (op : fop) (r : fresp) : Prop := ∃ i, cf_threads s !! i = Some (mkThread (Some op) (Ret r)).

(** No token, link or open handle of the channel is left. *)
Definition channel_revoked (w : FW) (c : Z) : Prop :=
  (∀ d tr, fw_transfers w !! d = Some tr → tr_ChannelID tr ≠ c) ∧
  (∀ t l, lr_links (fw_links w) !! t = Some l → linkChannel (ln_path l) ≠ pretty c) ∧
  (∀ h ch, lr_active (fw_links w) !! h = Some ch → ch ≠ pretty c).

(** ... and no transfer runs and no name below its directory exists. *)
Definition channel_empty (w : FW) (c : Z) : Prop :=
  (∀ id a, fw_active w !! id = Some a → at_channelID a ≠ c) ∧
  (∀ p n, fs_nodes (fw_fs w) !! p = Some n → head p ≠ Some (pretty c)).

Section props.
Context (E : FileEnv).
Context `{!MapRange fileKey FileRow}.

Lemma start_sound s d : sound E (mkConf (FW_start s d) []).
Proof.
  exists [], ∅. split; [|done]. split; cbn.
  - by split.
  - by split.
  - split; cbn; try done.
  - split; cbn; try done.
Qed.

(** A finished request stays as it is. *)
Lemma finished_step s s' op r : fstep E s s' → finished s op r → finished s' op r.
Proof.
  intros Hs [i Hi]. destruct Hs as [w ths op'|w ths j o B e k w' b Hj He|w ths j o c k Hj| | | |]; cbn in *; try by exists i.
  - exists i. cbn. by apply lookup_app_l_Some.
  - exists i. cbn. destruct (decide (i = j)) as [->|]; [congruence|]. by rewrite list_lookup_insert_ne.
  - exists i. cbn. apply lookup_app_l_Some. destruct (decide (i = j)) as [->|]; [congruence|]. by rewrite list_lookup_insert_ne.
Qed.

Lemma finished_stays s s' op r : rtc (fstep E) s s' → finished s op r → finished s' op r.
Proof. induction 1 as [|s s1 s' Hs _ IH]; [done|]. intros Hf. by eapply IH, finished_step. Qed.

(** What a finished request of a sound server ends with. *)
Lemma sound_finished s op r :
  sound E s → finished s op r → ∃ los own i lo, Inv E (cf_world s) los own ∧ los !! i = Some lo ∧ op_post op lo r.
Proof.
  intros (los & own & I & Hth) [i Hi]. destruct (Forall2_lookup_l _ _ _ _ _ Hth Hi) as (lo & Hlo & Hd). by exists los, own, i, lo.
Qed.

Lemma deleted_revoked w los own c :
  Inv E w los own → is_Some (fw_deleted w !! c) → pretty c ∈ lr_revoked (fw_links w) → channel_revoked w c.
Proof.
  intros I [k Hd] Hr. split_and!.
  - intros d tr Ht <-. pose proof (e_tr _ _ _ _ _ _ _ _ (inv_clean _ _ _ _ I) d tr Ht). congruence.
  - intros t l Hl Heq. apply (b_links _ _ _ (inv_links _ _ _ _ I) t l Hl). by rewrite Heq.
  - intros h ch Ha ->. by apply (b_active _ _ _ (inv_links _ _ _ _ I) h _ Ha).
Qed.

(** C15: in every history of the file server, however its requests, connections and
    cleanups interleave and whatever fails, once a deletion of a channel has been
    reported done its directory holds nothing, no transfer of it runs, and no token,
    link or handle of it exists, now or at any later time; tokens, links and handles
    are gone for ever as soon as the tombstone call returns. *)
Theorem deleted_channel_stays_empty s d s1 s2 c :
  FileLaws E → rtc (fstep E) (mkConf (FW_start s d) []) s1 → rtc (fstep E) s1 s2 →
  (finished s1 (OpTombstone c) (RUnit (Ok ())) → channel_revoked (cf_world s2) c) ∧
  (finished s1 (OpDeleteChannel c) (RUnit (Ok ())) → channel_revoked (cf_world s2) c ∧ channel_empty (cf_world s2) c).
Proof.
  intros L H1 H2. assert (sound E s2) as Hs by (apply (steps_sound E (mkConf (FW_start s d) []) s2 L); [by etrans|apply start_sound]).
  split; intros Hf%(finished_stays _ _ _ _ H2); destruct (sound_finished _ _ _ Hs Hf) as (los & own & i & lo & I & Hi & [_ Hp]).
  - destruct Hp as (Hr & k & Hb).
    destruct (e_begun _ _ _ _ _ _ _ _ (inv_clean _ _ _ _ I) i _ c k (view_lookup clean_view _ _ _ Hi) Hb) as [_ Hd].
    eapply deleted_revoked; [done|done|]. by apply (b_revoked _ _ _ (inv_links _ _ _ _ I) i _ _ (view_lookup link_view _ _ _ Hi)).
  - destruct (e_cleaned _ _ _ _ _ _ _ _ (inv_clean _ _ _ _ I) i _ c (view_lookup clean_view _ _ _ Hi) Hp) as (Hd & (Hu & _ & He) & Hr).
    split; [by eapply deleted_revoked|]. split.
    + intros id a Ha. destruct (d_owned _ _ _ _ _ _ _ (inv_own _ _ _ _ I) id a Ha) as (_ & j & v & Hj & Hv).
      rewrite list_lookup_fmap in Hj. destruct (los !! j) as [lo'|] eqn:Hlj; [|done]. injection Hj as <-.
      exact (Hu j _ a (view_lookup clean_view _ _ _ Hlj) Hv).
    + intros p n Hpn. by apply (He p n Hpn).
Qed.

End props.

(** Channel 7 holds a file and an upload into it waits for its last frames when the
    channel is deleted; the cleanup waits for the upload and then removes both. *)
Definition deletion_files : FS :=
  mkFS {[ ["7"] := FDir; ["7"; "old"] := FReg 0; ["8"] := FDir; ["8"; "keep"] := FReg 1 ]} {[0%nat := [9]; 1%nat := [8]]} ∅ 2.
Definition deletion_start : conf := mkConf (FW_start deletion_files (mkFileDB ∅ {[7; 8]} 1 0)) [].
Definition deletion_done : conf := play toy [Start (OpInitUpload 7 "a" "x" 3 "u" 0); Run 0 20; Accept 0 (toy_upload 1 0 [1; 2; 3]);
  Start (OpServe 5 0); Run 1 9; Start (OpDeleteChannel 7); Run 2 30; Run 3 5; Run 1 30; Run 3 30; Run 2 5] deletion_start.
Definition deletion_later : conf := play toy [Start (OpInitUpload 7 "a" "y" 3 "u" 0); Run 4 20; Start (OpCreateLink 8 "" "keep"); Run 5 20] deletion_done.

Lemma deleted_channel_stays_empty_witness :
  finished deletion_done (OpDeleteChannel 7) (RUnit (Ok ())) ∧
  channel_revoked (cf_world deletion_later) 7 ∧ channel_empty (cf_world deletion_later) 7.
Proof.
  assert (finished deletion_done (OpDeleteChannel 7) (RUnit (Ok ()))) as Hf by (exists 2%nat; vm_compute; reflexivity).
  split; [exact Hf|].
  apply (deleted_channel_stays_empty toy deletion_files (mkFileDB ∅ {[7; 8]} 1 0) deletion_done deletion_later 7).
  - apply toy_file_laws.
  - apply play_steps.
  - apply play_steps.
  - exact Hf.
Defined.
