(* ===== verification/FileTokens.v ===== *)
(** * Transfer tokens in every interleaving

    A history of the file server is a sequence of its steps with a log of the
    events that matter for tokens. Every transfer that starts was asked for by a
    request for exactly that file, with a token that was presented once, in time,
    and for a channel that had not been deleted. *)

From Stdlib Require Import Ascii.
From stdpp Require Import pretty.
From S2P Require Import Prelude ChatText GoStrings Wire GoState ChatKeys AuthService FileNames FileStore FileWorld FileTransfer FileThreads FileDisc FileSafety FileRun FileProps.

Inductive event :=
| Issued (digest : list byte) (tr : transfer)       (* a token is published *)
| Consumed (digest : list byte) (tr : transfer) (deleted : bool)
| Activated (tr : transfer) (conn : nat)
| Began (channelID : Z)                              (* the tombstone of a channel *)
| Clock (t : Z)
| Received (conn : nat) (f : Frame).

Definition event_of {B} (e : act B) : B → option event :=
  match e in act B return B → option event with
  | Publish digest tr => λ r, match r with Ok _ => Some (Issued digest tr) | Err _ => None end
  | Take digest => λ r, match r with (Some tr, deleted) => Some (Consumed digest tr deleted) | _ => None end
  | Activate tr conn => λ r, match r with Ok _ => Some (Activated tr conn) | Err _ => None end
  | Begin c => λ _, Some (Began c)
  | Now => λ t, Some (Clock t)
  | RecvFrame conn => λ r, match r with Some f => Some (Received conn f) | None => None end
  | _ => λ _, None
  end.

Abbreviation log := (list (nat * event)).

Definition add_event (i : nat) (e : option event) (τ : log) : log := match e with Some e => τ ++ [(i, e)] | None => τ end.

(** The events of one thread. *)
Definition own (i : nat) (τ : log) : list event := (filter (λ e, e.1 = i) τ).*2.

Section tokens.
Context (E : FileEnv).
Context `{!MapRange fileKey FileRow}.

(** The steps of [fstep], with the log. *)
Inductive history (s : conf) : log → conf → Prop :=
| history_nil : history s [] s
| history_act τ w ths i o B (e : act B) k w' b :
    history s τ (mkConf w ths) → ths !! i = Some (mkThread o (Vis e k)) → exec E e w = Some (w', b) →
    history s (add_event i (event_of e b) τ) (mkConf w' (<[i := mkThread o (k b)]> ths))
| history_start τ w ths op :
    history s τ (mkConf w ths) → history s τ (mkConf w (ths ++ [mkThread (Some op) (op_prog E op)]))
| history_fork τ w ths i o c k :
    history s τ (mkConf w ths) → ths !! i = Some (mkThread o (Fork c k)) →
    history s τ (mkConf w (<[i := mkThread o k]> ths ++ [forked c]))
| history_accept τ w ths conn frames :
    history s τ (mkConf w ths) → fw_conns w !! conn = None →
    history s τ (mkConf (on_conns <[conn := mkFConn frames [] false]> w) ths)
| history_hangup τ w ths conn : history s τ (mkConf w ths) → history s τ (mkConf (close_conn conn w) ths)
| history_channels τ w ths d : history s τ (mkConf w ths) → history s τ (mkConf (put_db d w) ths).

Lemma steps_history s s' : rtc (fstep E) s s' → ∃ τ, history s τ s'.
Proof.
  revert s'. apply rtc_ind_r; [exists []; constructor|]. intros s1 s2 _ Hs [τ IH]. destruct Hs; eexists; by econstructor.
Qed.

(** ** What a thread may do, given what it has done *)

(** The request a token is for. *)
Definition asked (op : option fop) (tr : transfer) : Prop :=
  match op with
  | Some (OpInitUpload c f n size u q) =>
      tr_Direction tr = "upload" ∧ tr_ChannelID tr = c ∧ tr_Folder tr = f ∧ tr_Name tr = n ∧ tr_Size tr = size ∧ tr_Uploader tr = u
  | Some (OpInitDownload c f n) => tr_Direction tr = "download" ∧ tr_ChannelID tr = c ∧ tr_Folder tr = f ∧ tr_Name tr = n
  | _ => False
  end.

(** The connection's thread has presented the token, in time, and nothing else. *)
Definition presented (op : option fop) (conn : nat) (tr : transfer) (h : list event) : Prop :=
  (∃ fuel, op = Some (OpServe fuel conn)) ∧
  ∃ f token offset t,
    h = [Received conn f; Consumed (tokenDigest E token) tr false; Clock t] ∧
    fr_Type f = frameInit ∧ fe_init E (fr_Payload f) = Some (token, tr_ID tr, offset) ∧
    time_after t (tr_Expires tr) = false.

Definition proper {B} (op : option fop) (h : list event) (e : act B) : Prop :=
  match e with
  | Publish digest tr =>
      asked op tr ∧ digest = tokenDigest E (tr_Token tr) ∧ ∃ t, h = [Clock t] ∧ tr_Expires tr = time_add t tokenTTL
  | Activate tr conn => presented op conn tr h
  | _ => True
  end.

Definition grow (h : list event) (e : option event) : list event := match e with Some e => h ++ [e] | None => h end.

(** What the database answers comes from some state of it. *)
Definition told {B} (e : act B) : B → Prop := match e in act B return B → Prop with Db m => λ r, ∃ d, (m d).2 = r | _ => λ _, True end.

Fixpoint proper_prog {A : Type} (op : option fop) (h : list event) (m : prog A) : Prop :=
  match m with
  | Ret _ => True
  | Vis e k => proper op h e ∧ ∀ b, told e b → proper_prog op (grow h (event_of e b)) (k b)
  | Fork c k => proper_prog None [] c ∧ proper_prog op h k
  end.

Definition calm_act {B} (e : act B) : Prop := match e with Publish _ _ | Activate _ _ => False | _ => True end.

(** No token is issued and no transfer started. *)
Fixpoint silent {A : Type} (m : prog A) : Prop :=
  match m with
  | Ret _ => True
  | Vis e k => calm_act e ∧ ∀ b, silent (k b)
  | Fork c k => silent c ∧ silent k
  end.

(** Nothing is logged at all. *)
Fixpoint mute {A : Type} (m : prog A) : Prop :=
  match m with
  | Ret _ => True
  | Vis e k => calm_act e ∧ ∀ b, event_of e b = None ∧ mute (k b)
  | Fork c k => False
  end.

Lemma silent_bind {A B : Type} (m : prog A) (k : A → prog B) : silent m → (∀ a, silent (k a)) → silent (prog_bind m k).
Proof.
  revert k. induction m as [A a|A B' e f IH|A c _ m IH]; intros k; cbn [silent prog_bind].
  - auto.
  - intros [He Hf] Hk. split; [done|]. intros b. by apply IH.
  - intros [Hc Hm] Hk. split; [done|]. by apply IH.
Qed.

Lemma proper_silent {A : Type} op h (m : prog A) : silent m → proper_prog op h m.
Proof.
  revert op h. induction m as [A a|A B' e f IH|A c IHc m IH]; intros op h; cbn [silent proper_prog].
  - done.
  - intros [He Hf]. split; [by destruct e|]. intros b _. by apply IH.
  - intros [Hc Hm]. split; [by apply IHc|by apply IH].
Qed.

Lemma proper_mute {A B : Type} op h (m : prog A) (k : A → prog B) :
  mute m → (∀ a, proper_prog op h (k a)) → proper_prog op h (prog_bind m k).
Proof.
  revert k. induction m as [A a|A B' e f IH|A c _ m IH]; intros k; cbn [mute proper_prog prog_bind].
  - auto.
  - intros [He Hf] Hk. split; [by destruct e|]. intros b _. destruct (Hf b) as [-> Hb]. by apply IH.
  - done.
Qed.

Lemma proper_ret_bind {A B : Type} op h (a : A) (k : A → prog B) : proper_prog op h (k a) → proper_prog op h (prog_bind (Ret a) k).
Proof. done. Qed.

Lemma mute_bind {A B : Type} (m : prog A) (k : A → prog B) : mute m → (∀ a, mute (k a)) → mute (prog_bind m k).
Proof.
  revert k. induction m as [A a|A B' e f IH|A c _ m IH]; intros k; cbn [mute prog_bind].
  - auto.
  - intros [He Hf] Hk. split; [done|]. intros b. destruct (Hf b) as [Hn Hb]. split; [done|]. by apply IH.
  - done.
Qed.

End tokens.

Create HintDb tokens.

(** Programs without events, and programs that issue and start nothing, by shape. *)
Ltac mute_step :=
  match goal with
  | |- mute (Ret _) => exact I
  | |- mute (Vis _ _) => split; [exact I|intros ?; split; [by repeat case_match|]]
  | |- mute (prog_bind _ _) => apply mute_bind; [|intros ?]
  | |- mute (trigger _) => unfold trigger
  | |- mute (match ?x with _ => _ end) => destruct x
  | |- mute (try_prog _ _) => unfold try_prog
  | |- mute (io_error _) => unfold io_error
  | |- mute (pure_prog _) => unfold pure_prog
  | |- mute _ => by auto with tokens
  end.
Ltac mutes := repeat mute_step.

Ltac silent_step :=
  match goal with
  | |- silent (Ret _) => exact I
  | |- silent (Vis _ _) => split; [exact I|intros ?]
  | |- silent (Fork _ _) => split
  | |- silent (prog_bind _ _) => apply silent_bind; [|intros ?]
  | |- silent (trigger _) => unfold trigger
  | |- silent (match ?x with _ => _ end) => destruct x
  | |- silent (try_prog _ _) => unfold try_prog
  | |- silent (io_error _) => unfold io_error
  | |- silent (pure_prog _) => unfold pure_prog
  | |- silent _ => by auto with tokens
  end.
Ltac silents := repeat silent_step.

Section programs.
Context (E : FileEnv).
Context `{!MapRange fileKey FileRow}.

Lemma mute_randomHex n : mute (randomHex n).
Proof. unfold randomHex. mutes. Qed.
Lemma mute_ChannelQuotaState c : mute (ChannelQuotaState E c).
Proof. unfold ChannelQuotaState, db_ChannelFileUsage. mutes. Qed.
Lemma mute_UploaderQuotaState u l : mute (UploaderQuotaState E u l).
Proof. unfold UploaderQuotaState, db_UploaderFileUsage. mutes. Qed.
Lemma mute_check_quota l q s e : mute q → mute (check_quota l q s e).
Proof. intros Hq. unfold check_quota. mutes. Qed.

Lemma silent_DeleteFile c f n : silent (DeleteFile E c f n).
Proof. unfold DeleteFile, db_DeleteFile. silents. Qed.
Lemma silent_ListFiles c f : silent (ListFiles E c f).
Proof. unfold ListFiles, db_ListFiles. silents. Qed.
Lemma silent_ListFileVersions c f n : silent (ListFileVersions E c f n).
Proof. unfold ListFileVersions, db_ListFileVersions. silents. Qed.
Lemma silent_ChannelQuota c : silent (ChannelQuota E c).
Proof. unfold ChannelQuota, ChannelQuotaState, db_ChannelFileUsage. silents. Qed.
Lemma silent_openRegularBlob name : silent (openRegularBlob name).
Proof. unfold openRegularBlob. silents. Qed.
Lemma silent_copy_loop fuel dst src : silent (copy_loop fuel dst src).
Proof. induction fuel as [|fuel IH]; cbn [copy_loop]; silents. Qed.
#[local] Hint Resolve silent_openRegularBlob silent_copy_loop : tokens.
Lemma silent_copyBlobAndRemove fuel a b : silent (copyBlobAndRemove fuel a b).
Proof. unfold copyBlobAndRemove. silents. Qed.
#[local] Hint Resolve silent_copyBlobAndRemove : tokens.
Lemma silent_MoveFile fuel c f n c' f' n' : silent (MoveFile E fuel c f n c' f' n').
Proof. unfold MoveFile, move_locked, moveBlob, db_GetFile, db_MoveFile. silents. Qed.
Lemma silent_randomHex n : silent (randomHex n).
Proof. unfold randomHex. silents. Qed.
#[local] Hint Resolve silent_randomHex : tokens.
Lemma silent_link_attempts n path name now : silent (link_attempts n path name now).
Proof. induction n as [|n IH]; cbn [link_attempts]; silents. Qed.
#[local] Hint Resolve silent_link_attempts : tokens.
Lemma silent_CreateLink c f n : silent (CreateLink E c f n).
Proof. unfold CreateLink, Create, create_locked, db_GetFile. silents. Qed.
Lemma silent_close_files l : silent (close_files l).
Proof. induction l as [|h l IH]; cbn [close_files]; silents. Qed.
Lemma silent_close_conns l : silent (close_conns l).
Proof. induction l as [|h l IH]; cbn [close_conns]; silents. Qed.
Lemma silent_await_done l : silent (await_done l).
Proof. induction l as [|h l IH]; cbn [await_done]; silents. Qed.
Lemma silent_removal_attempts n c k : silent (removal_attempts n c k).
Proof. induction n as [|n IH]; cbn [removal_attempts]; unfold removeChannelData; silents. Qed.
#[local] Hint Resolve silent_close_files silent_close_conns silent_await_done silent_removal_attempts : tokens.
Lemma silent_beginChannelCleanup c : silent (beginChannelCleanup c).
Proof. unfold beginChannelCleanup, RevokeChannel, finishChannelCleanup. silents. Qed.
#[local] Hint Resolve silent_beginChannelCleanup : tokens.
Lemma silent_Tombstone c : silent (TombstoneChannelData c).
Proof. unfold TombstoneChannelData. silents. Qed.
Lemma silent_DeleteChannelData c : silent (DeleteChannelData c).
Proof. unfold DeleteChannelData. silents. Qed.
#[local] Hint Resolve silent_Tombstone silent_DeleteChannelData : tokens.
Lemma silent_tombstone_each ids : silent (tombstone_each ids).
Proof. induction ids as [|c ids IH]; cbn [tombstone_each]; silents. Qed.
Lemma silent_delete_each ids : silent (delete_each ids).
Proof. induction ids as [|c ids IH]; cbn [delete_each]; silents. Qed.
#[local] Hint Resolve silent_tombstone_each silent_delete_each : tokens.
Lemma silent_Reconcile live : silent (ReconcileChannelData live).
Proof. unfold ReconcileChannelData. silents. Qed.
Lemma silent_serve_content fuel h body : silent (serve_content fuel h body).
Proof. revert body. induction fuel as [|fuel IH]; intros body; cbn [serve_content]; silents. Qed.
#[local] Hint Resolve silent_serve_content : tokens.
Lemma silent_ServeHTTP m p : silent (ServeHTTP m p).
Proof. unfold ServeHTTP, openActive, open_locked. silents. Qed.
Lemma silent_CheckRoot : silent CheckRoot.
Proof. unfold CheckRoot. silents. Qed.
Lemma silent_limiter_wait l n : silent (limiter_wait l n).
Proof. unfold limiter_wait. silents. Qed.
Lemma silent_limiter_for : silent (limiter_for E).
Proof. unfold limiter_for. silents. Qed.
#[local] Hint Resolve silent_limiter_wait silent_limiter_for : tokens.
Lemma silent_rotate_rename c f a b : silent (rotate_rename E c f a b).
Proof. unfold rotate_rename, db_GetFile, db_RenameFile. silents. Qed.
#[local] Hint Resolve silent_rotate_rename : tokens.
Lemma silent_rotate_down c f n v : silent (rotate_down E c f n v).
Proof. induction v as [|v IH]; cbn [rotate_down]; silents. Qed.
#[local] Hint Resolve silent_rotate_down : tokens.
Lemma silent_finalizeUpload tr tmp fp size sum : silent (finalizeUpload E tr tmp fp size sum).
Proof. unfold finalizeUpload, finalize_locked, same_upload, add_upload, rotateVersions, dedup_link, db_GetFile, db_AddFile, db_DeleteFile, db_FindFileBySHA. silents. Qed.
#[local] Hint Resolve silent_finalizeUpload : tokens.
Lemma silent_receive_loop fuel conn tr f tmp fp l received hashed : silent (receive_loop E fuel conn tr f tmp fp l received hashed).
Proof. revert received hashed. induction fuel as [|fuel IH]; intros received hashed; cbn [receive_loop]; unfold upload_fail; silents. Qed.
Lemma silent_send_loop fuel conn f l hashed : silent (send_loop fuel conn f l hashed).
Proof. revert hashed. induction fuel as [|fuel IH]; intros hashed; cbn [send_loop]; silents. Qed.
Lemma silent_hash_prefix fuel f n hashed : silent (hash_prefix fuel f n hashed).
Proof. revert n hashed. induction fuel as [|fuel IH]; intros n hashed; cbn [hash_prefix]; silents. Qed.
#[local] Hint Resolve silent_receive_loop silent_send_loop silent_hash_prefix : tokens.
Lemma silent_receiveUpload fuel conn tr : silent (receiveUpload E fuel conn tr).
Proof. unfold receiveUpload. silents. Qed.
Lemma silent_sendDownload fuel conn tr offset : silent (sendDownload E fuel conn tr offset).
Proof. unfold sendDownload, download_body. silents. Qed.
#[local] Hint Resolve silent_receiveUpload silent_sendDownload : tokens.

Lemma proper_fmap {A B : Type} op h (f : A → B) (m : prog A) : proper_prog E op h m → proper_prog E op h (fmap_prog f m).
Proof.
  unfold fmap_prog. revert op h. induction m as [A a|A B' e g IH|A c _ m IH]; intros op h; cbn [prog_bind proper_prog].
  - done.
  - intros [He Hg]. split; [done|]. intros b Hb. by apply IH, Hg.
  - intros [Hc Hm]. split; [done|]. by apply IH.
Qed.

Lemma proper_register op tr : asked op tr → proper_prog E op [] (register E tr).
Proof.
  intros Ha. unfold register, try_prog. apply proper_mute; [apply mute_randomHex|]. intros [id|]; [|done].
  apply proper_mute; [apply mute_randomHex|]. intros [token|]; [|done]. cbn [proper_prog]. split; [done|]. intros now _. split; [|by intros ? _].
  cbn. split_and!; [|done|by exists now]. destruct op as [[]|]; cbn in *; naive_solver.
Qed.

Lemma proper_InitUpload c f n size u q : proper_prog E (Some (OpInitUpload c f n size u q)) [] (InitUpload E c f n size u q).
Proof.
  unfold InitUpload, try_prog, pure_prog. cbn [prog_bind]. destruct (sanitizeName _ n) as [n'|] eqn:Hn; [|done]. cbn [prog_bind].
  destruct (sanitizeFolder _ f) as [f'|] eqn:Hf; [|done]. apply sanitizeName_Ok in Hn as (-> & _ & _). apply sanitizeFolder_Ok in Hf as (-> & _).
  destruct (size <=? 0); [done|]. destruct (_ && _); [done|].
  apply proper_mute; [apply mute_check_quota, mute_ChannelQuotaState|]. intros [[]|]; [|done].
  apply proper_mute; [apply mute_check_quota, mute_UploaderQuotaState|]. intros [[]|]; [|done]. by apply proper_register.
Qed.

Lemma proper_InitDownload c f n : proper_prog E (Some (OpInitDownload c f n)) [] (InitDownload E c f n).
Proof.
  unfold InitDownload, try_prog, pure_prog. cbn [prog_bind]. destruct (sanitizeName _ n) as [n'|] eqn:Hn; [|done]. cbn [prog_bind].
  destruct (sanitizeFolder _ f) as [f'|] eqn:Hf; [|done]. apply sanitizeName_Ok in Hn as (-> & _ & _). apply sanitizeFolder_Ok in Hf as (-> & _).
  unfold db_GetFile, trigger. cbn [prog_bind]. split; [done|]. intros [rec|e] [d Hd]; cbn [prog_bind grow event_of]; [|done].
  apply proper_register. cbn. by rewrite (GetFile_named _ _ _ _ _ _ Hd).
Qed.

Lemma proper_serve fuel conn : proper_prog E (Some (OpServe fuel conn)) [] (serve E fuel conn).
Proof.
  unfold serve. cbn [proper_prog]. split; [done|]. intros [f|] _; cbn [grow event_of app].
  2: { by apply proper_silent; silents. }
  destruct (fr_Type f =? frameInit) eqn:Ht; cbn [negb].
  2: { cbn [prog_bind]. apply proper_silent. unfold writeStatus. silents. }
  apply Z.eqb_eq in Ht. destruct (fe_init E (fr_Payload f)) as [[[token id] offset]|] eqn:Hinit.
  2: { cbn [prog_bind]. apply proper_silent. unfold writeStatus. silents. }
  unfold consume. cbn [prog_bind proper_prog]. split; [done|]. intros [[tr|] deleted] _; cbn [grow event_of app].
  2: { cbn [prog_bind]. apply proper_silent. unfold writeStatus. silents. }
  destruct (String.eqb_spec (tr_ID tr) id) as [Hid|]; cbn [negb].
  2: { cbn [prog_bind]. apply proper_silent. unfold writeStatus. silents. }
  destruct deleted; [cbn [prog_bind]; apply proper_silent; unfold writeStatus; silents|]. cbn [prog_bind proper_prog]. split; [done|]. intros now _. cbn [grow event_of app].
  destruct (time_after now (tr_Expires tr)) eqn:Hexp; [cbn [prog_bind]; apply proper_silent; unfold writeStatus; silents|].
  unfold serve_transfer. cbn [prog_bind proper_prog]. split.
  - split; [by eexists|]. exists f, token, offset, now. by subst id.
  - intros r _. cbn [prog_bind]. apply proper_silent. unfold writeStatus. silents.
Qed.

Lemma proper_op op : proper_prog E (Some op) [] (op_prog E op).
Proof.
  destruct op; cbn [op_prog]; apply proper_fmap.
  - apply proper_InitUpload.
  - apply proper_InitDownload.
  - apply proper_silent, silent_ListFiles.
  - apply proper_silent. unfold ListFileFolders, db_ListFileFolders. silents.
  - apply proper_silent, silent_ListFileVersions.
  - apply proper_silent, silent_ChannelQuota.
  - apply proper_silent, silent_DeleteFile.
  - apply proper_silent, silent_MoveFile.
  - apply proper_silent, silent_CreateLink.
  - apply proper_silent, silent_ServeHTTP.
  - apply proper_silent, silent_Tombstone.
  - apply proper_silent, silent_DeleteChannelData.
  - apply proper_silent, silent_Reconcile.
  - apply proper_serve.
  - apply proper_silent, silent_CheckRoot.
Qed.

End programs.

(** ** The log and the state *)

Definition spoils (digest : list byte) (tr : transfer) (e : event) : Prop :=
  match e with
  | Issued digest' _ | Consumed digest' _ _ => digest' = digest
  | Began c => c = tr_ChannelID tr
  | _ => False
  end.

(** The token was issued for [tr] at [j], and up to [k] nothing happened to it. *)
Definition standing (τ : log) (k : nat) (digest : list byte) (tr : transfer) : Prop :=
  ∃ j i, (j < k)%nat ∧ τ !! j = Some (i, Issued digest tr) ∧ ∀ l i' e, (j < l < k)%nat → τ !! l = Some (i', e) → ¬ spoils digest tr e.

(** What an event says of the tokens and the tombstones before and after. *)
Definition effect_on (e : option event) (t t' : gmap (list byte) transfer) (d d' : gmap Z nat) : Prop :=
  match e with
  | Some (Issued digest tr) => t' = <[digest := tr]> t ∧ d' = d ∧ d !! tr_ChannelID tr = None
  | Some (Consumed digest tr deleted) =>
      t !! digest = Some tr ∧ t' = delete digest t ∧ d' = d ∧ deleted = bool_decide (is_Some (d !! tr_ChannelID tr))
  | Some (Activated tr _) => t' = t ∧ d' = d ∧ d !! tr_ChannelID tr = None
  | Some (Began c) =>
      t' = filter (λ e, tr_ChannelID e.2 ≠ c) t ∧ (∀ c', is_Some (d !! c') → is_Some (d' !! c')) ∧ is_Some (d' !! c)
  | _ => t' = t ∧ d' = d
  end.

Section logged.
Context (E : FileEnv).
Context `{!MapRange fileKey FileRow}.

Lemma exec_effect {B} (e : act B) w w' b :
  exec E e w = Some (w', b) → effect_on (event_of e b) (fw_transfers w) (fw_transfers w') (fw_deleted w) (fw_deleted w') ∧ told e b.
Proof.
  destruct e; unfold exec, yes, sys_write, sys_removeAll, sys_close, publish, take_transfer, activate, deactivate, recv, send, close_conn; cbn.
  all: try (intros; unfold sys, at_ in *; repeat first [progress simplify_eq/= | case_match]; by split_and!).
  - assert (∀ k c', is_Some (fw_deleted w !! c') → is_Some (<[channelID := k]> (fw_deleted w) !! c')) as Hin.
    { intros k c' Hc'. rewrite lookup_insert. case_decide; eauto. }
    unfold begin_section. cbn. destruct (fw_deleted w !! channelID) as [k|] eqn:Hk.
    + set (fresh := match fw_cleanups w !! k with Some _ => _ | None => _ end). clearbody fresh. intros [= <- <-]. split; [|done]. cbn.
      destruct fresh; cbn; rewrite ?lookup_insert_eq, ?Hk; eauto.
    + intros [= <- <-]. split; [|done]. cbn. rewrite lookup_insert_eq. eauto.
  - intros. destruct (m (fw_db w)) as [d r] eqn:Hm. simplify_eq/=. split; [done|]. eexists. by rewrite Hm.
Qed.

Definition op_of (s : conf) (i : nat) : option (option fop) := th_op <$> cf_threads s !! i.

Definition event_ok (s : conf) (τ : log) (k i : nat) (e : event) : Prop :=
  match e with
  | Issued digest tr =>
      ∃ o, op_of s i = Some o ∧ asked o tr ∧ digest = tokenDigest E (tr_Token tr) ∧
        ∃ t, own i (take k τ) = [Clock t] ∧ tr_Expires tr = time_add t tokenTTL
  | Consumed digest tr _ => standing τ k digest tr
  | Activated tr conn =>
      (∃ o, op_of s i = Some o ∧ presented E o conn tr (own i (take k τ))) ∧
      ∀ l i', (l < k)%nat → τ !! l ≠ Some (i', Began (tr_ChannelID tr))
  | _ => True
  end.

Record logged (τ : log) (s : conf) : Prop := {
  lg_threads : ∀ i th, cf_threads s !! i = Some th → proper_prog E (th_op th) (own i τ) (th_prog th);
  lg_known : ∀ k i e, τ !! k = Some (i, e) → is_Some (cf_threads s !! i);
  lg_table : ∀ digest tr, fw_transfers (cf_world s) !! digest = Some tr → standing τ (length τ) digest tr;
  lg_begun : ∀ k i c, τ !! k = Some (i, Began c) → is_Some (fw_deleted (cf_world s) !! c);
  lg_events : ∀ k i e, τ !! k = Some (i, e) → event_ok s τ k i e;
}.

Lemma own_add i j e τ : own i (add_event j e τ) = if decide (j = i) then grow (own i τ) e else own i τ.
Proof.
  destruct e as [e|]; cbn; [|by case_decide]. unfold own. rewrite filter_app, fmap_app, filter_cons, filter_nil. cbn.
  case_decide; [done|]. cbn. by rewrite app_nil_r.
Qed.

Lemma own_none τ i : (∀ k j e, τ !! k = Some (j, e) → j ≠ i) → own i τ = [].
Proof.
  intros Hn. unfold own. destruct (filter _ τ) as [|x l] eqn:Hf; [done|]. exfalso.
  assert (x ∈ filter (λ e, e.1 = i) τ) as [Hx [k Hk]%list_elem_of_lookup]%list_elem_of_filter by (rewrite Hf; left).
  destruct x as [j e]. by apply (Hn k j e).
Qed.

Lemma standing_app τ τ' k digest tr : (k ≤ length τ)%nat → standing τ k digest tr → standing (τ ++ τ') k digest tr.
Proof.
  intros Hk (j & i & Hj & Hi & Hb). exists j, i. split_and!; [done|by apply lookup_app_l_Some|]. intros l i' e Hl Hle.
  apply (Hb l i' e Hl). rewrite lookup_app_l in Hle by lia. done.
Qed.

Lemma standing_snoc τ i e digest tr :
  standing τ (length τ) digest tr → ¬ spoils digest tr e → standing (τ ++ [(i, e)]) (length (τ ++ [(i, e)])) digest tr.
Proof.
  intros (j & i0 & Hj & Hi & Hb) Hs. exists j, i0. rewrite length_app. cbn. split_and!; [lia|by apply lookup_app_l_Some|].
  intros l i' e' Hl [Hle|[Hge Hle]]%lookup_app_Some; [apply (Hb l i' e'); [|done]; split; [lia|by eapply lookup_lt_Some]|].
  by apply list_lookup_singleton_Some in Hle as [_ [= <- <-]].
Qed.

Lemma event_ok_app s s' τ τ' k i e :
  (k ≤ length τ)%nat → (∀ o, op_of s i = Some o → op_of s' i = Some o) → event_ok s τ k i e → event_ok s' (τ ++ τ') k i e.
Proof.
  intros Hk Ho. destruct e; cbn; rewrite ?take_app_le by lia.
  - intros (o & Hop & H). exists o. split; [by apply Ho|done].
  - apply standing_app. lia.
  - intros [(o & Hop & H) Hb]. split; [exists o; split; [by apply Ho|done]|]. intros l i' Hl. rewrite lookup_app_l by lia. by apply Hb.
  - done.
  - done.
  - done.
Qed.

Lemma op_of_insert w w' ths i o m m' j : ths !! i = Some (mkThread o m) → op_of (mkConf w' (<[i := mkThread o m']> ths)) j = op_of (mkConf w ths) j.
Proof.
  intros Hi. unfold op_of. cbn. destruct (decide (i = j)) as [->|].
  - rewrite list_lookup_insert_eq by (by eapply lookup_lt_Some). by rewrite Hi.
  - by rewrite list_lookup_insert_ne.
Qed.

Lemma known_insert (ths : list thread) i th j : is_Some (ths !! j) → is_Some (<[i := th]> ths !! j).
Proof. rewrite !lookup_lt_is_Some, length_insert. done. Qed.

(** The new event is as it should be. *)
Lemma event_now w ths τ i o {B} (e : act B) b h ev w' :
  logged τ (mkConf w ths) → op_of (mkConf w ths) i = Some o → own i τ = h → proper E o h e →
  exec E e w = Some (w', b) → event_of e b = Some ev → event_ok (mkConf w ths) τ (length τ) i ev.
Proof.
  intros L Hop Hown Hp He Hev. destruct (exec_effect _ _ _ _ He) as [Heff _]. rewrite Hev in Heff.
  destruct ev; cbn in *; rewrite ?firstn_all; try done.
  - destruct e; try (cbn in Hev; repeat case_match; done). assert (digest0 = digest ∧ tr0 = tr) as [-> ->] by (cbn in Hev; repeat case_match; by simplify_eq/=).
    destruct Hp as (Ha & Hd & t & -> & Ht). exists o. split_and!; [done..|]. by exists t.
  - apply (lg_table _ _ L). apply Heff.
  - destruct e; try (cbn in Hev; repeat case_match; done). assert (conn0 = conn ∧ tr0 = tr) as [-> ->] by (cbn in Hev; repeat case_match; by simplify_eq/=).
    split; [exists o; split; [done|by rewrite Hown]|]. intros l i' _ Hl. destruct (lg_begun _ _ L _ _ _ Hl) as [x Hx]. cbn in Hx.
    destruct Heff as (_ & _ & Hnone). congruence.
Qed.

Lemma logged_act τ w ths i o B (e : act B) k w' b :
  logged τ (mkConf w ths) → ths !! i = Some (mkThread o (Vis e k)) → exec E e w = Some (w', b) →
  logged (add_event i (event_of e b) τ) (mkConf w' (<[i := mkThread o (k b)]> ths)).
Proof.
  intros L Hi He. destruct (exec_effect _ _ _ _ He) as [Heff Htold]. destruct (lg_threads _ _ L i _ Hi) as [Hp Hk].
  pose proof (λ j, op_of_insert w w' ths i o (Vis e k) (k b) j Hi) as Hops.
  split; cbn [cf_threads cf_world].
  - intros j th Hj. rewrite own_add. destruct (lookup_insert_split _ _ _ _ _ _ Hi Hj) as [[-> ->]|[Hne Hj']].
    + rewrite decide_True by done. by apply Hk.
    + rewrite decide_False by done. by apply (lg_threads _ _ L).
  - intros n j ev Hn. apply known_insert. destruct (event_of e b) as [ev'|]; cbn in Hn; [|by apply (lg_known _ _ L n j ev)].
    apply lookup_app_Some in Hn as [Hn|[_ Hn]]; [by apply (lg_known _ _ L n j ev)|]. apply list_lookup_singleton_Some in Hn as [_ [= <- <-]]. by eexists.
  - intros digest tr Htr. pose proof (lg_table _ _ L) as Ht. cbn in Ht. destruct (event_of e b) as [[dg tr'|dg tr' del|tr' conn|c|t|conn f]|]; cbn in Heff |- *.
    + destruct Heff as (Heq & _ & _). rewrite Heq in Htr. apply lookup_insert_Some in Htr as [[-> ->]|[Hne Htr]].
      * exists (length τ), i. rewrite length_app. cbn. split_and!; [lia|by rewrite list_lookup_middle|]. intros. lia.
      * apply standing_snoc; [by apply Ht|]. cbn. congruence.
    + destruct Heff as (_ & Heq & _). rewrite Heq in Htr. apply lookup_delete_Some in Htr as [Hne Htr]. apply standing_snoc; [by apply Ht|]. cbn. congruence.
    + destruct Heff as (Heq & _). rewrite Heq in Htr. apply standing_snoc; [by apply Ht|by intros []].
    + destruct Heff as (Heq & _). rewrite Heq in Htr. apply map_lookup_filter_Some in Htr as [Htr Hne]. apply standing_snoc; [by apply Ht|]. cbn in *. congruence.
    + destruct Heff as (Heq & _). rewrite Heq in Htr. apply standing_snoc; [by apply Ht|by intros []].
    + destruct Heff as (Heq & _). rewrite Heq in Htr. apply standing_snoc; [by apply Ht|by intros []].
    + destruct Heff as (Heq & _). rewrite Heq in Htr. by apply Ht.
  - intros n j c Hn. pose proof (lg_begun _ _ L) as Hb. cbn in Hb. destruct (event_of e b) as [ev|]; cbn in Hn.
    + apply lookup_app_Some in Hn as [Hn|[_ Hn]].
      * apply Hb in Hn. destruct ev; cbn in Heff; destruct_and?; simplify_eq/=; try congruence; auto.
      * apply list_lookup_singleton_Some in Hn as [_ [= <- ->]]. cbn in Heff. by destruct Heff as (_ & _ & ?).
    + destruct Heff as [_ ->]. by eapply Hb.
  - intros n j ev Hn. destruct (event_of e b) as [ev'|] eqn:Hev; cbn in Hn |- *.
    + apply lookup_app_Some in Hn as [Hn|[Hge Hn]].
      * apply (event_ok_app (mkConf w ths)); [by apply Nat.lt_le_incl; eapply lookup_lt_Some|intros op; by rewrite Hops|]. exact (lg_events _ _ L n j ev Hn).
      * apply list_lookup_singleton_Some in Hn as [Hz [= <- <-]]. assert (n = length τ) as -> by lia.
        assert (op_of (mkConf w ths) i = Some o) as Hop by (unfold op_of; cbn; by rewrite Hi).
        pose proof (event_now w ths τ i o e b _ ev' w' L Hop eq_refl Hp He Hev) as Hnow.
        apply (event_ok_app (mkConf w ths)); [done|intros op; by rewrite Hops|exact Hnow].
    + destruct Heff as [_ _]. pose proof (lg_events _ _ L n j ev Hn) as H. rewrite <- (app_nil_r τ). apply (event_ok_app (mkConf w ths)); [by apply Nat.lt_le_incl; eapply lookup_lt_Some|intros op; by rewrite Hops|done].
Qed.

(** A step without an event, after which every thread is as before or new. *)
Lemma logged_quiet τ w ths w' ths' :
  logged τ (mkConf w ths) → fw_transfers w' = fw_transfers w → fw_deleted w' = fw_deleted w →
  (∀ i o, op_of (mkConf w ths) i = Some o → op_of (mkConf w' ths') i = Some o) →
  (∀ i th, ths' !! i = Some th → (∀ h, h = own i τ → proper_prog E (th_op th) h (th_prog th)) ∨ (length ths ≤ i)%nat ∧ proper_prog E (th_op th) [] (th_prog th)) →
  logged τ (mkConf w' ths').
Proof.
  intros L Ht Hd Ho Hths. split; cbn [cf_threads cf_world].
  - intros i th Hi. destruct (Hths i th Hi) as [Hp|[Hge Hp]]; [by apply Hp|]. rewrite own_none; [done|]. intros k j e Hk ->.
    pose proof (lg_known _ _ L k i e Hk) as Hs. cbn in Hs. apply lookup_lt_is_Some in Hs. lia.
  - intros k i e Hk. destruct (lg_known _ _ L k i e Hk) as [th Hi]. cbn in Hi. specialize (Ho i (th_op th)). unfold op_of in Ho. cbn in Ho.
    rewrite Hi in Ho. specialize (Ho eq_refl). destruct (ths' !! i); [by eexists|done].
  - rewrite Ht. apply (lg_table _ _ L).
  - rewrite Hd. apply (lg_begun _ _ L).
  - intros k i e Hk. rewrite <- (app_nil_r τ). apply (event_ok_app (mkConf w ths)); [by apply Nat.lt_le_incl; eapply lookup_lt_Some|by apply Ho|].
    exact (lg_events _ _ L k i e Hk).
Qed.

Lemma history_logged s0 τ s : cf_threads s0 = [] → fw_transfers (cf_world s0) = ∅ → history E s0 τ s → logged τ s.
Proof.
  intros H0 Ht. induction 1 as [|τ w ths i o B e k w' b _ IH Hi He|τ w ths op _ IH|τ w ths i o c k _ IH Hi|τ w ths conn frames _ IH _|τ w ths conn _ IH|τ w ths d _ IH].
  - split.
    + intros i th. by rewrite H0.
    + done.
    + intros digest tr. by rewrite Ht.
    + done.
    + done.
  - by eapply logged_act.
  - apply (logged_quiet _ _ _ _ _ IH); [done|done| |].
    + intros i o Hi. unfold op_of in *. cbn in *. rewrite lookup_app_l; [done|]. apply lookup_lt_is_Some. by destruct (ths !! i).
    + intros i th [Hi|[Hge Hi]]%lookup_app_Some; [left; intros h ->; by apply (lg_threads _ _ IH)|]. right. split; [done|].
      apply list_lookup_singleton_Some in Hi as [_ <-]. apply proper_op.
  - destruct (lg_threads _ _ IH i _ Hi) as [Hc Hk]. apply (logged_quiet _ _ _ _ _ IH); [done|done| |].
    + intros j o' Hj. unfold op_of in *. cbn in *. rewrite lookup_app_l.
      * destruct (decide (i = j)) as [->|]; [|by rewrite list_lookup_insert_ne]. rewrite list_lookup_insert_eq by (by eapply lookup_lt_Some). by rewrite Hi in Hj.
      * rewrite length_insert. apply lookup_lt_is_Some. by destruct (ths !! j).
    + intros j th [Hj|[Hge Hj]]%lookup_app_Some.
      * left. intros h ->. destruct (lookup_insert_split _ _ _ _ _ _ Hi Hj) as [[-> ->]|[_ Hj']]; [done|]. by apply (lg_threads _ _ IH).
      * rewrite length_insert in *. right. split; [done|]. apply list_lookup_singleton_Some in Hj as [_ <-]. by apply proper_fmap.
  - apply (logged_quiet _ _ _ _ _ IH); [done|done|done|]. intros i th Hi. left. intros h ->. by apply (lg_threads _ _ IH).
  - apply (logged_quiet _ _ _ _ _ IH); [unfold close_conn; by case_match|unfold close_conn; by case_match|done|]. intros i th Hi. left. intros h ->. by apply (lg_threads _ _ IH).
  - apply (logged_quiet _ _ _ _ _ IH); [done|done|done|]. intros i th Hi. left. intros h ->. by apply (lg_threads _ _ IH).
Qed.

(** C16: in every history of the file server, a transfer that starts on a connection
    was asked for by a request for exactly that direction, channel, folder and name;
    its token, valid for a minute from that request on, was presented in the first
    frame of this connection and was not used, reissued or revoked in between: one
    request, one token, one transfer; and its channel had not been deleted. *)
Theorem transfers_authorized fs d τ s k i tr conn :
  history E (mkConf (FW_start fs d) []) τ s → τ !! k = Some (i, Activated tr conn) →
  ∃ fuel f token offset t, op_of s i = Some (Some (OpServe fuel conn)) ∧
    own i (take k τ) = [Received conn f; Consumed (tokenDigest E token) tr false; Clock t] ∧
    fr_Type f = frameInit ∧ fe_init E (fr_Payload f) = Some (token, tr_ID tr, offset) ∧
    (∀ l i', (l < k)%nat → τ !! l ≠ Some (i', Began (tr_ChannelID tr))) ∧
    ∃ m j i' o t', (j < m < k)%nat ∧ τ !! m = Some (i, Consumed (tokenDigest E token) tr false) ∧
      τ !! j = Some (i', Issued (tokenDigest E token) tr) ∧
      (∀ l i'' e, (j < l < m)%nat → τ !! l = Some (i'', e) → ¬ spoils (tokenDigest E token) tr e) ∧
      tokenDigest E token = tokenDigest E (tr_Token tr) ∧ op_of s i' = Some o ∧ asked o tr ∧ own i' (take j τ) = [Clock t'] ∧ time_after t (time_add t' tokenTTL) = false.
Proof.
  intros Hh Hk. pose proof (history_logged (mkConf (FW_start fs d) []) τ s eq_refl eq_refl Hh) as L.
  destruct (lg_events _ _ L _ _ _ Hk) as [(o & Hop & [fuel ->] & f & token & offset & t & Hown & Hty & Hinit & Hexp) Hb].
  exists fuel, f, token, offset, t. split_and!; [done..|].
  assert ((i, Consumed (tokenDigest E token) tr false) ∈ take k τ) as Hin.
  { assert (Consumed (tokenDigest E token) tr false ∈ own i (take k τ)) as Hin by (rewrite Hown; set_solver).
    unfold own in Hin. apply list_elem_of_fmap in Hin as [[i1 e1] [He Hf]]. apply list_elem_of_filter in Hf as [Hi1 Hin]. cbn in *. by subst. }
  apply list_elem_of_lookup in Hin as [m Hm]. apply lookup_take_Some in Hm as [Hm Hlt].
  destruct (lg_events _ _ L _ _ _ Hm) as (j & i' & Hj & Hji & Hbetween).
  destruct (lg_events _ _ L _ _ _ Hji) as (o & Hop' & Ha & Hdig & t' & Hown' & Hexp'). rewrite Hexp' in Hexp.
  exists m, j, i', o, t'. by split_and!.
Qed.

End logged.

(** ** A history with its log *)

Section playing.
Context (E : FileEnv).
Context `{!MapRange fileKey FileRow}.

Definition log_step (i : nat) (x : log * conf) : log * conf :=
  match cf_threads x.2 !! i with
  | Some (mkThread o (Vis e k)) =>
      match exec E e (cf_world x.2) with
      | Some (w', b) => (add_event i (event_of e b) x.1, mkConf w' (<[i := mkThread o (k b)]> (cf_threads x.2)))
      | None => x
      end
  | Some (mkThread o (Fork c k)) => (x.1, mkConf (cf_world x.2) (<[i := mkThread o k]> (cf_threads x.2) ++ [forked c]))
  | _ => x
  end.

Definition log_move (m : move) (x : log * conf) : log * conf :=
  match m with Run i n => Nat.iter n (log_step i) x | _ => (x.1, play1 E m x.2) end.

Lemma log_step_history s i x : history E s x.1 x.2 → history E s (log_step i x).1 (log_step i x).2.
Proof.
  intros Hh. unfold log_step. destruct x as [τ [w ths]]. cbn in *. destruct (ths !! i) as [[o [a|B e k|c k]]|] eqn:Hi; [done| | |done].
  - destruct (exec E e w) as [[w' b]|] eqn:He; [by eapply history_act|done].
  - by apply history_fork.
Qed.

Lemma log_moves_history s l x : history E s x.1 x.2 → history E s (foldl (λ x m, log_move m x) x l).1 (foldl (λ x m, log_move m x) x l).2.
Proof.
  revert x. induction l as [|m l IH]; intros x Hh; [done|]. cbn. apply IH. destruct x as [τ [w ths]]. destruct m as [op|i n|conn frames]; cbn in *.
  - by apply history_start.
  - induction n as [|n IHn]; cbn; [done|]. by apply log_step_history.
  - destruct (fw_conns w !! conn) eqn:Hc; [done|]. by apply history_accept.
Qed.

End playing.

(** An upload into channel 7 is asked for and its token presented. *)
Definition token_run : log * conf :=
  foldl (λ x m, log_move toy m x) ([], deletion_start)
    [Start (OpInitUpload 7 "a" "x" 3 "u" 0); Run 0 20; Accept 0 (toy_upload 1 0 [1; 2; 3]); Start (OpServe 5 0); Run 1 9].

Lemma transfers_authorized_witness :
  ∃ k tr, token_run.1 !! k = Some (1%nat, Activated tr 0) ∧ tr_ChannelID tr = 7 ∧ tr_Folder tr = "a" ∧ tr_Name tr = "x" ∧
    ∃ m j i' o, (j < m < k)%nat ∧ token_run.1 !! j = Some (i', Issued (tokenDigest toy (tr_Token tr)) tr) ∧
      op_of token_run.2 i' = Some o ∧ asked o tr.
Proof.
  assert (∃ tr, token_run.1 !! 5%nat = Some (1%nat, Activated tr 0) ∧ tr_ChannelID tr = 7 ∧ tr_Folder tr = "a" ∧ tr_Name tr = "x")
    as (tr & Hk & Hc & Hf & Hn) by (eexists; split; [vm_compute; reflexivity|by split_and!]).
  destruct (transfers_authorized toy deletion_files (mkFileDB ∅ {[7; 8]} 1 0) token_run.1 token_run.2 5 1 tr 0)
    as (fuel & f & token & offset & t & _ & _ & _ & _ & _ & m & j & i' & o & t' & Hjm & _ & Hj & _ & Hdig & Ho & Ha & _).
  - apply log_moves_history. apply history_nil.
  - exact Hk.
  - rewrite Hdig in Hj. exists 5%nat, tr. do 4 (split; [assumption|]). exists m, j, i', o. split; [exact Hjm|]. split; [exact Hj|]. split; [exact Ho|exact Ha].
Defined.
