(* ===== verification/ChatStoreProps.v ===== *)
(** * What the chat store guarantees

    A message keeps its identity for ever, changes its text only with its version
    and stays deleted once deleted; a client's message id is stored once; the
    reaction cache is bounded and answers what the table holds. *)

From S2P Require Import Prelude Wire GoState ChatKeys ChatStore.

(** ** Counting reactions *)

Definition reaction_of (id : Z) (emoji : string) (r : Z * string * string) : Prop := r.1.1 = id ∧ r.2 = emoji.
#[export] Instance reaction_of_dec id emoji r : Decision (reaction_of id emoji r).
Proof. unfold reaction_of. apply _. Defined.

Lemma count_lookup id emoji l :
  foldr (count_emoji id) ∅ l !! emoji =
    let n := length (filter (reaction_of id emoji) l) in
    if decide (n = 0%nat) then None else Some (Z.of_nat n).
Proof.
  induction l as [|[[m u] e] l IH]; [done|]. cbn [foldr count_emoji]. rewrite filter_cons.
  destruct (Z.eqb_spec m id) as [->|Hne].
  - destruct (decide (e = emoji)) as [->|He].
    + rewrite lookup_insert_eq, IH. cbv zeta. rewrite (decide_True (P := reaction_of _ _ _)) by done. cbn [length].
      case_decide as Hz; rewrite decide_False by lia; simpl; f_equal; lia.
    + rewrite lookup_insert_ne by done. rewrite (decide_False (P := reaction_of _ _ _)) by (by intros [? ?]). apply IH.
  - rewrite (decide_False (P := reaction_of _ _ _)) by (by intros [? ?]). apply IH.
Qed.

(** Only the reactions of the message count. *)
Lemma queryReactions_local id d d' :
  (∀ u e, (id, u, e) ∈ db_reactions d ↔ (id, u, e) ∈ db_reactions d') →
  queryReactions id d = queryReactions id d'.
Proof.
  intros Heq. apply map_eq. intros emoji. unfold queryReactions. rewrite !count_lookup. cbv zeta.
  assert (filter (reaction_of id emoji) (elements (db_reactions d)) ≡ₚ
          filter (reaction_of id emoji) (elements (db_reactions d'))) as Hp; [|by rewrite (Permutation_length Hp)].
  apply NoDup_Permutation; [apply NoDup_filter, NoDup_elements..|]. intros [[m u] e].
  rewrite !list_elem_of_filter, !elem_of_elements. unfold reaction_of. simpl. naive_solver.
Qed.

Section store.
Context (db : nat → dbOutcome) (now_db now_ : nat → Z).
Context (user_exists : Z → bool) (user_nickname : Z → string).
Context `{!∀ V, MapRange Z V, !∀ V, MapRange (Z * Z) V}.
Implicit Types d : ChatDB.

#[local] Abbreviation call_ := (call db now_db).

(** ** The steps of the store *)

Inductive ststep : ChatDB → ChatDB → Prop :=
| st_store ch from nick body key reply cid d :
    ststep d (StoreChatMessage db now_db ch from nick body key reply cid d).1
| st_history ch before limit d : ststep d (ChatHistory db now_db ch before limit d).1
| st_get id d : ststep d (GetChatMessage db now_db id d).1
| st_edit id body key v d : ststep d (EditChatMessage db now_db id body key v d).1
| st_delete id d : ststep d (DeleteChatMessage db now_db id d).1
| st_pin ch id by_ d : ststep d (PinChatMessage db now_db ch id by_ d).1
| st_unpin ch id d : ststep d (UnpinChatMessage db now_db ch id d).1
| st_pins ch d : ststep d (ChatPins db now_db ch d).1
| st_toggle id u e d : ststep d (ToggleReaction db now_db now_ id u e d).1
| st_reactions id d : ststep d (Reactions db now_db now_ id d).1
| st_reactionsFor ids d : ststep d (ReactionsFor db now_db now_ ids d).1
| st_setting k v key d : ststep d (SetServerSetting db now_db k v key d).1
| st_getSetting k d : ststep d (GetServerSetting db now_db k d).1
| st_spool from to u m d : ststep d (SpoolMessage db now_db user_exists from to u m d).1
| st_pending u d : ststep d (PendingMessages db now_db user_nickname u d).1
| st_mark ids d : ststep d (MarkMessagesDelivered db now_db ids d).1.

(** A relation that every call of the store stays in, when it holds of what the
    statements and the cache operations do. *)
Section steps.
Context (R : relation ChatDB) `{!PreOrder R}.

Lemma call_steps {A} (op : Z → ChatDB → option (ChatDB * A)) :
  (∀ d, R d (tick_db d)) → (∀ n d d' a, op n d = Some (d', a) → R d d') → preserves R (call_ op).
Proof.
  intros Ht Hop d. unfold call. specialize (Ht d).
  destruct (db (db_calls d)); [|done|]; destruct (op _ (tick_db d)) as [[d' a]|] eqn:Eo; try done;
    simpl; by etrans; [|eapply Hop].
Qed.

Lemma query_steps {A} (f : ChatDB → A) : (∀ d, R d (tick_db d)) → preserves R (query db now_db f).
Proof. intros Ht. apply call_steps; [done|]. intros n d d' a [= <- <-]. reflexivity. Qed.

Lemma scan_steps l : preserves R (scan_messages l).
Proof.
  induction l as [|[id m] l IH]; [apply preserves_ret, _|]. apply preserves_bind; [done| |].
  - intros d. unfold scan_message. by destruct (Int64ToUint32 _).
  - intros r. apply preserves_bind; [done|apply IH|]. intros rs. apply preserves_ret, _.
Qed.

Lemma get_steps id : (∀ d, R d (tick_db d)) → preserves R (GetChatMessage db now_db id).
Proof.
  intros Ht. apply preserves_bind; [done|by apply query_steps|]. intros [m|]; [|apply preserves_ret, _].
  apply preserves_bind; [done| |intros; apply preserves_ret, _]. intros d. unfold scan_message.
  by destruct (Int64ToUint32 _).
Qed.

Lemma load_pins_steps l : (∀ d, R d (tick_db d)) → preserves R (load_pins db now_db l).
Proof.
  intros Ht. induction l as [|[id p] l IH]; [apply preserves_ret, _|].
  apply preserves_bind; [done|by apply get_steps|]. intros m.
  apply preserves_bind; [done|apply IH|]. intros rest. apply preserves_ret, _.
Qed.

(** The cache operations, when [R] holds of what each of them does. *)
Context (Htick : ∀ d, R d (tick_db d)) (Hclock : ∀ d, R d (tick_clock d)).

Lemma invalidate_steps id : (∀ d, R d (set_cache (delete id) d)) → preserves R (invalidateReactionCache id).
Proof. intros Hd d. apply Hd. Qed.

Context (Hdel : ∀ id d, R d (set_cache (delete id) d)).

Lemma cached_steps id : preserves R (cachedReactions now_ id).
Proof.
  apply preserves_bind; [done|by intros d|]. intros d. destruct (db_cache d !! id) as [e|]; [|apply preserves_ret, _].
  destruct (rce_expiresAt e =? 0).
  { apply preserves_bind; [done|apply invalidate_steps, Hdel|]. intros; apply preserves_ret, _. }
  apply preserves_bind; [done|by intros d'|]. intros now. destruct (rce_expiresAt e <=? now); [|apply preserves_ret, _].
  apply preserves_bind; [done|apply invalidate_steps, Hdel|]. intros; apply preserves_ret, _.
Qed.

Lemma cached_page_steps ids out missing : preserves R (cached_page now_ ids out missing).
Proof.
  revert out missing. induction ids as [|id ids IH]; intros out missing; [apply preserves_ret, _|].
  apply preserves_bind; [done|apply cached_steps|]. intros [c|]; apply IH.
Qed.
End steps.

(** ** Messages *)

(** What may become of a message. *)
Record evolves (m m' : ChatMessage) : Prop := {
  ev_channel : msg_ChannelID m' = msg_ChannelID m;
  ev_author : msg_FromUniqueID m' = msg_FromUniqueID m;
  ev_client : msg_ClientMsgID m' = msg_ClientMsgID m;
  ev_sent : msg_SentAt m' = msg_SentAt m;
  ev_version : msg_Version m <= msg_Version m';
  ev_deleted : msg_DeletedAt m ≠ None → m' = m;
  ev_same : msg_DeletedAt m' = None → msg_Version m' = msg_Version m → m' = m;
}.

#[export] Instance evolves_preorder : PreOrder evolves.
Proof.
  split; [by split|]. intros m1 m2 m3 Ha Hb. pose proof (ev_version _ _ Ha). pose proof (ev_version _ _ Hb).
  split; [rewrite ?(ev_channel _ _ Hb), ?(ev_author _ _ Hb), ?(ev_client _ _ Hb), ?(ev_sent _ _ Hb); by destruct Ha..| | |].
  - lia.
  - intros Hd. pose proof (ev_deleted _ _ Ha Hd). subst m2. by apply Hb.
  - intros Hd Hv. assert (msg_Version m3 = msg_Version m2) as Hv2 by lia.
    pose proof (ev_same _ _ Hb Hd Hv2). subst m3. apply (ev_same _ _ Ha); [done|lia].
Qed.

(** Every row evolves, and new ids are fresh. *)
Record grows (d d' : ChatDB) : Prop := {
  gr_next : db_nextID d <= db_nextID d';
  gr_rows id m : db_messages d !! id = Some m → ∃ m', db_messages d' !! id = Some m' ∧ evolves m m';
  gr_new id : db_messages d !! id = None → is_Some (db_messages d' !! id) → db_nextID d <= id < db_nextID d';
}.

#[export] Instance grows_preorder : PreOrder grows.
Proof.
  split.
  - intros d. split; [done|intros id m Hm; by exists m|]. intros id Hnone [m Hm]. congruence.
  - intros d1 d2 d3 Ha Hb. pose proof (gr_next _ _ Ha). pose proof (gr_next _ _ Hb). split; [lia| |].
    + intros id m (m2 & Hm2 & He)%(gr_rows _ _ Ha). apply (gr_rows _ _ Hb) in Hm2 as (m3 & Hm3 & He3).
      exists m3. split; [done|by etrans].
    + intros id Hnone Hsome. destruct (db_messages d2 !! id) as [m|] eqn:Hm.
      * pose proof (gr_new _ _ Ha id Hnone ltac:(by eexists)). lia.
      * pose proof (gr_new _ _ Hb id Hm Hsome). lia.
Qed.

Lemma grows_same d d' : db_messages d' = db_messages d → db_nextID d' = db_nextID d → grows d d'.
Proof.
  intros Hm Hn. split; [by rewrite Hn|intros id m Hid; exists m; by rewrite Hm|].
  rewrite Hm. intros id Hnone [m Hid]. congruence.
Qed.

Lemma grows_replace d id m m' :
  db_messages d !! id = Some m → evolves m m' → grows d (set_messages <[id := m']> d).
Proof.
  intros Hm He. split; [done| |].
  - intros id' m1 Hm1. simpl. destruct (decide (id' = id)) as [->|Hne].
    + rewrite lookup_insert_eq. simplify_eq. eauto.
    + rewrite lookup_insert_ne by done. by exists m1.
  - intros id' Hnone. simpl. destruct (decide (id' = id)) as [->|Hne]; [congruence|].
    rewrite lookup_insert_ne by done. rewrite Hnone. by intros [? ?].
Qed.

Lemma grows_insert d m :
  (∀ id, is_Some (db_messages d !! id) → id < db_nextID d) →
  grows d (set_messages <[db_nextID d := m]> (set_nextID (db_nextID d + 1) d)).
Proof.
  intros Hlt. split; [simpl; lia| |].
  - intros id m1 Hm1. simpl. pose proof (Hlt id ltac:(by eexists)). rewrite lookup_insert_ne by lia. by exists m1.
  - intros id Hnone. simpl. destruct (decide (id = db_nextID d)) as [->|Hne]; [lia|].
    rewrite lookup_insert_ne by done. rewrite Hnone. by intros [? ?].
Qed.

Definition same_origin (ch : Z) (from cid : string) (m : ChatMessage) : Prop :=
  msg_ChannelID m = ch ∧ msg_FromUniqueID m = from ∧ msg_ClientMsgID m = cid.

Record dbinv d : Prop := {
  di_ids id : is_Some (db_messages d !! id) → id < db_nextID d;
  di_unique i j ch from cid m m' :
    db_messages d !! i = Some m → db_messages d !! j = Some m' → cid ≠ "" →
    same_origin ch from cid m → same_origin ch from cid m' → i = j;
}.

Lemma find_message_Some ch from cid d id :
  find_message ch from cid d = Some id → ∃ m, db_messages d !! id = Some m ∧ same_origin ch from cid m.
Proof.
  unfold find_message. destruct (head _) as [[id' m]|] eqn:Hh; [|done]. intros [= ->].
  apply head_Some_elem_of, list_elem_of_filter in Hh as [Ho Hin%elem_of_map_to_list]. by exists m.
Qed.

Lemma find_message_None ch from cid d id m :
  find_message ch from cid d = None → db_messages d !! id = Some m → ¬ same_origin ch from cid m.
Proof.
  unfold find_message. intros Hn Hm Ho. apply fmap_None, head_None in Hn.
  assert ((id, m) ∈ filter (λ '(_, m), msg_ChannelID m = ch ∧ msg_FromUniqueID m = from ∧ msg_ClientMsgID m = cid)
    (map_to_list (db_messages d))) as Hin.
  { apply list_elem_of_filter. split; [done|]. by apply elem_of_map_to_list. }
  rewrite Hn in Hin. by apply elem_of_nil in Hin.
Qed.

Definition keeps d d' : Prop := dbinv d → dbinv d' ∧ grows d d'.

#[export] Instance keeps_preorder : PreOrder keeps.
Proof.
  split; [intros d Hd; split; [done|reflexivity]|].
  intros d1 d2 d3 Ha Hb Hd. destruct (Ha Hd) as [Hd2 H12]. destruct (Hb Hd2) as [Hd3 H23]. split; [done|by etrans].
Qed.

Lemma keeps_same d d' : db_messages d' = db_messages d → db_nextID d' = db_nextID d → keeps d d'.
Proof.
  intros Hm Hn [Hi Hu]. split; [|by apply grows_same]. split; [by rewrite Hm, Hn|]. rewrite Hm. exact Hu.
Qed.

Lemma keeps_next d n : db_nextID d <= n → keeps d (set_nextID n d).
Proof.
  intros Hle [Hi Hu]. split; split; simpl; try done.
  - intros id Hid. pose proof (Hi id Hid). lia.
  - intros id m Hm. by exists m.
  - intros id Hnone [m Hm]. congruence.
Qed.

Lemma keeps_replace d id m m' :
  db_messages d !! id = Some m → evolves m m' → keeps d (set_messages <[id := m']> d).
Proof.
  intros Hm He [Hi Hu]. split; [|by eapply grows_replace]. split; simpl.
  - intros id'. destruct (decide (id' = id)) as [->|Hne]; [intros _; by apply Hi|]. rewrite lookup_insert_ne by done. apply Hi.
  - assert (∀ i x, <[id := m']> (db_messages d) !! i = Some x →
      ∃ y, db_messages d !! i = Some y ∧ ∀ ch from cid, same_origin ch from cid x → same_origin ch from cid y) as Hold.
    { intros i x. destruct (decide (i = id)) as [->|Hne].
      - rewrite lookup_insert_eq. intros [= <-]. exists m. split; [done|]. unfold same_origin.
        by rewrite (ev_channel _ _ He), (ev_author _ _ He), (ev_client _ _ He).
      - rewrite lookup_insert_ne by done. eauto. }
    intros i j ch from cid x x' (y & Hy & Hoy)%Hold (y' & Hy' & Hoy')%Hold Hc Ho Ho'. eapply Hu; eauto.
Qed.

Lemma db_keeps_insert d m :
  (msg_ClientMsgID m ≠ "" → find_message (msg_ChannelID m) (msg_FromUniqueID m) (msg_ClientMsgID m) d = None) →
  keeps d (set_messages <[db_nextID d := m]> (set_nextID (db_nextID d + 1) d)).
Proof.
  intros Hf [Hi Hu]. split; [|by apply grows_insert]. split; simpl.
  - intros id. destruct (decide (id = db_nextID d)) as [->|Hne]; [lia|]. rewrite lookup_insert_ne by done.
    intros Hid. pose proof (Hi id Hid). lia.
  - assert (∀ j x ch from cid, db_messages d !! j = Some x → cid ≠ "" → same_origin ch from cid m →
      ¬ same_origin ch from cid x) as Hnew.
    { intros j x ch from cid Hx Hc (<- & <- & <-). by eapply find_message_None; [apply Hf|]. }
    intros i j ch from cid x x'. destruct (decide (i = db_nextID d)) as [->|Hne], (decide (j = db_nextID d)) as [->|Hne'];
      rewrite ?lookup_insert_eq, ?lookup_insert_ne by done; [done|..].
    + intros [= <-] Hx' Hc Ho Ho'. by destruct (Hnew _ _ _ _ _ Hx' Hc Ho).
    + intros Hx [= <-] Hc Ho Ho'. by destruct (Hnew _ _ _ _ _ Hx Hc Ho').
    + intros. by eapply Hu.
Qed.

Lemma evolves_edit m body key at_ :
  msg_DeletedAt m = None →
  evolves m (mkMessage (msg_ChannelID m) (msg_FromUniqueID m) (msg_FromNickname m) (msg_ReplyToID m)
    (msg_Version m + 1) (msg_ClientMsgID m) body key (msg_SentAt m) (Some at_) None).
Proof. intros Hd. split; simpl; try done; lia || congruence. Qed.

Lemma evolves_delete m at_ :
  msg_DeletedAt m = None →
  evolves m (mkMessage (msg_ChannelID m) (msg_FromUniqueID m) (msg_FromNickname m) (msg_ReplyToID m)
    (msg_Version m) (msg_ClientMsgID m) "" 0 (msg_SentAt m) (msg_EditedAt m) (Some at_)).
Proof. intros Hd. split; simpl; try done; lia || congruence. Qed.

Lemma keeps_tick d : keeps d (tick_db d).
Proof. by apply keeps_same. Qed.
#[local] Hint Resolve keeps_tick keeps_preorder : core.

Lemma store_keeps ch from nick body key reply cid :
  preserves keeps (StoreChatMessage db now_db ch from nick body key reply cid).
Proof.
  apply preserves_bind; [done| |].
  - apply call_steps; [done..|]. intros n d d' a. cbv zeta. set (m := new_message _ _ _ _ _ _ _ _).
    destruct (negb (row_sealed m)); [done|].
    destruct (negb (String.eqb cid "") && _) eqn:Ec; intros [= <- <-]; [apply keeps_next; lia|].
    apply db_keeps_insert. simpl. intros Hc. apply andb_false_iff in Ec as [Ec|Ec].
    + apply negb_false_iff, String.eqb_eq in Ec. done.
    + apply bool_decide_eq_false in Ec. by apply eq_None_not_Some.
  - intros [id|]; [apply preserves_ret, _|]. apply preserves_bind; [done|by apply query_steps|].
    intros [id|]; [apply preserves_ret, _|apply preserves_err, _].
Qed.

Lemma edit_keeps id body key v : preserves keeps (EditChatMessage db now_db id body key v).
Proof.
  unfold EditChatMessage. destruct (max_int64 <? v); [apply preserves_err, _|].
  apply preserves_bind; [done| |intros [x|]; [apply preserves_ret, _|apply preserves_err, _]].
  apply call_steps; [done..|]. intros n d d' a. destruct (db_messages d !! id) as [m|] eqn:Hm; [|by intros [= <- <-]].
  destruct (bool_decide (msg_DeletedAt m = None)) eqn:Hd; cbn [andb]; [|by intros [= <- <-]].
  destruct ((v =? 0) || _); [|by intros [= <- <-]]. cbv zeta. destruct (negb _); [done|]. intros [= <- <-].
  eapply keeps_replace; [done|]. apply evolves_edit. by apply bool_decide_eq_true in Hd.
Qed.

Lemma delete_keeps id : preserves keeps (DeleteChatMessage db now_db id).
Proof.
  apply preserves_bind; [done| |intros []; [apply preserves_ret, _|apply preserves_err, _]].
  apply call_steps; [done..|]. intros n d d' a. destruct (db_messages d !! id) as [m|] eqn:Hm; [|by intros [= <- <-]].
  destruct (bool_decide (msg_DeletedAt m = None)) eqn:Hd; [|by intros [= <- <-]]. cbv zeta. intros [= <- <-].
  eapply keeps_replace; [done|]. apply evolves_delete. by apply bool_decide_eq_true in Hd.
Qed.

Lemma cacheReactions_keeps id counts : preserves keeps (cacheReactions now_ id counts).
Proof. intros d. by apply keeps_same. Qed.

Lemma cache_page_keeps ids out : preserves keeps (cache_page now_ ids out).
Proof.
  induction ids as [|id ids IH]; [apply preserves_ret, _|].
  apply preserves_bind; [done|apply cacheReactions_keeps|]. intros _. apply IH.
Qed.

Lemma step_keeps d d' : ststep d d' → keeps d d'.
Proof.
  assert (∀ id d, keeps d (set_cache (delete id) d)) as Hdel by (intros; by apply keeps_same).
  assert (∀ d, keeps d (tick_clock d)) as Hclock by (intros; by apply keeps_same).
  intros []; match goal with |- keeps ?d (?m ?d).1 => revert d; change (preserves keeps m) end.
  - apply store_keeps.
  - apply preserves_bind; [done|by apply query_steps|]. intros rows. by apply scan_steps.
  - by apply get_steps.
  - apply edit_keeps.
  - apply delete_keeps.
  - apply call_steps; [done..|]. intros n d1 d2 a. destruct (bool_decide _); [|done].
    destruct (db_pins d1 !! _); intros [= <- <-]; [done|by apply keeps_same].
  - apply call_steps; [done..|]. intros n d1 d2 a [= <- <-]. by apply keeps_same.
  - apply preserves_bind; [done|by apply query_steps|]. intros l. by apply load_pins_steps.
  - apply preserves_bind; [done| |].
    + apply call_steps; [done..|]. intros n d1 d2 a. destruct (bool_decide _); [|done]. unfold toggle.
      destruct (bool_decide _); intros [= <- <-]; by apply keeps_same.
    + intros r. apply preserves_bind; [done|by apply invalidate_steps|]. intros _.
      apply preserves_bind; [done|apply cacheReactions_keeps|]. intros _. apply preserves_ret, _.
  - apply preserves_bind; [done|by apply cached_steps|]. intros [c|]; [apply preserves_ret, _|].
    apply preserves_bind; [done|by apply query_steps|]. intros counts.
    apply preserves_bind; [done|apply cacheReactions_keeps|]. intros _. apply preserves_ret, _.
  - apply preserves_bind; [done|by apply cached_page_steps|]. intros r.
    destruct (bool_decide _); [apply preserves_ret, _|]. apply preserves_bind; [done|by apply query_steps|].
    intros out. apply preserves_bind; [done|apply cache_page_keeps|]. intros _. apply preserves_ret, _.
  - apply call_steps; [done..|]. intros n d1 d2 a [= <- <-]. by apply keeps_same.
  - apply preserves_bind; [done|by apply query_steps|]. intros [[v key]|]; [|apply preserves_ret, _].
    destruct (Int64ToUint32 key); [apply preserves_ret, _|apply preserves_err, _].
  - apply call_steps; [done..|]. intros n d1 d2 a. destruct (_ && _); intros [= <- <-]. by apply keeps_same.
  - by apply query_steps.
  - unfold MarkMessagesDelivered. destruct (bool_decide _); [apply preserves_ret, _|].
    apply call_steps; [done..|]. intros n d1 d2 a [= <- <-]. by apply keeps_same.
Qed.

Lemma start_dbinv : dbinv ChatDB_start.
Proof. split; [intros id [m Hm]; by simpl in Hm|]. intros i j ch from cid m m' Hm. by simpl in Hm. Qed.

Lemma steps_keeps d d' : rtc ststep d d' → keeps d d'.
Proof. induction 1 as [d|d1 d2 d3 Hs _ IH]; [reflexivity|]. etrans; [by apply step_keeps|done]. Qed.

(** C31: whatever is done to the store, database failures and lost answers
    included, a stored message keeps its channel, author, client id and time, its
    version never decreases, its text changes only with the version, and once it
    is deleted it never changes again; ids are never reused. *)
Theorem messages_evolve d d' id m :
  rtc ststep ChatDB_start d → rtc ststep d d' → db_messages d !! id = Some m →
  ∃ m', db_messages d' !! id = Some m' ∧ evolves m m'.
Proof.
  intros Hd Hd' Hm. destruct (steps_keeps _ _ Hd start_dbinv) as [Hi _].
  by destruct (steps_keeps _ _ Hd' Hi) as [_ [_ Hrows _]]; apply Hrows.
Qed.

(** A client's message id is stored once: a second send of it changes no
    message and answers the id of the first, whatever happened in between. *)
Theorem send_is_idempotent ch from nick nick' body body' key key' reply reply' cid d d1 d2 id :
  rtc ststep ChatDB_start d → cid ≠ "" →
  StoreChatMessage db now_db ch from nick body key reply cid d = (d1, Ok (id, true)) → rtc ststep d1 d2 →
  let r := StoreChatMessage db now_db ch from nick' body' key' reply' cid d2 in
  db_messages r.1 = db_messages d2 ∧ (∀ a, r.2 = Ok a → a = (id, false)).
Proof.
  intros Hd Hc Hs1 Hsteps. cbv zeta.
  assert (rtc ststep ChatDB_start d1) as Hd1.
  { eapply rtc_r; [done|]. replace d1 with (StoreChatMessage db now_db ch from nick body key reply cid d).1 by (by rewrite Hs1).
    constructor. }
  destruct (steps_keeps _ _ Hd1 start_dbinv) as [Hi1 _]. destruct (steps_keeps _ _ Hsteps Hi1) as [Hi2 [_ Hrows _]].
  assert (∃ m, db_messages d2 !! id = Some m ∧ same_origin ch from cid m) as (m & Hm & Ho).
  { assert (∃ m, db_messages d1 !! id = Some m ∧ same_origin ch from cid m) as (m & Hm & Ho).
    { revert Hs1. unfold StoreChatMessage, se_bind, call. cbv zeta.
      destruct (db (db_calls d)); [|done|by destruct (negb (row_sealed _)); [|destruct (negb _ && _)]].
      destruct (negb (row_sealed _)); [done|]. destruct (negb _ && _).
      - unfold query, call. cbn [tick_db db_calls set_nextID]. destruct (db _); [|done|done].
        by destruct (find_message _ _ _ _).
      - intros [= <- <-]. eexists. split; [apply lookup_insert_eq|done]. }
    destruct (Hrows id m Hm) as (m' & Hm' & He). exists m'. split; [done|]. unfold same_origin in *.
    by rewrite (ev_channel _ _ He), (ev_author _ _ He), (ev_client _ _ He). }
  assert (∀ d3, db_messages d3 = db_messages d2 → find_message ch from cid d3 = Some id) as Hfind.
  { intros d3 Hd3. destruct (find_message ch from cid d3) as [id'|] eqn:Hf.
    - apply find_message_Some in Hf as (m' & Hm' & Ho'). rewrite Hd3 in Hm'. f_equal.
      by eapply (di_unique _ Hi2).
    - exfalso. eapply find_message_None; [done|by rewrite Hd3|done]. }
  unfold StoreChatMessage, se_bind, call. cbv zeta. set (msg := new_message _ _ _ _ _ _ _ _).
  rewrite (proj2 (String.eqb_neq cid "") Hc). rewrite Hfind by done. cbn [negb andb].
  rewrite bool_decide_eq_true_2 by (by eexists).
  destruct (db (db_calls d2)); [|done|by destruct (negb _)]. destruct (negb _); [done|].
  unfold query, call. cbn [tick_db db_calls set_nextID]. rewrite Hfind by done.
  destruct (db _); simpl; split; try done. by intros a [= <-].
Qed.

(** ** The reaction cache *)

Record cohinv d : Prop := {
  ch_fresh id e : db_cache d !! id = Some e → rce_counts e = queryReactions id d;
  ch_size : (size (db_cache d) ≤ maxReactionCacheEntries)%nat;
}.

Lemma evict_sub l c id e : evict_reactions l c !! id = Some e → c !! id = Some e.
Proof.
  revert c. induction l as [|[i x] l IH]; intros c; [done|]. cbn [evict_reactions]. intros He.
  assert (delete i c !! id = Some e) as Hd by (case_decide; [by apply IH|done]).
  by apply lookup_delete_Some in Hd as [_ ?].
Qed.

Lemma evict_size l c : (∀ id, id ∈ dom c → id ∈ l.*1) → (size (evict_reactions l c) ≤ maxReactionCacheEntries)%nat.
Proof.
  revert c. induction l as [|[i x] l IH]; intros c Hd.
  - assert (c = ∅) as ->; [|apply Nat.le_0_l]. apply map_eq. intros id. rewrite lookup_empty.
    destruct (c !! id) eqn:Hc; [|done]. exfalso.
    by assert (id ∈ [].*1) as Hin%elem_of_nil by (apply (Hd id), elem_of_dom; eauto).
  - cbn [evict_reactions]. case_decide as Hsz; [|lia]. apply IH. intros id [e Hid]%elem_of_dom.
    apply lookup_delete_Some in Hid as [Hne Hid].
    assert (id ∈ ((i, x) :: l).*1) as [Heq|Hin]%elem_of_cons by (apply Hd, elem_of_dom; eauto); [simpl in Heq; congruence|done].
Qed.

Lemma prune_spec now c :
  (∀ id e, pruneReactionCacheLocked now c !! id = Some e → c !! id = Some e) ∧
  (size (pruneReactionCacheLocked now c) ≤ maxReactionCacheEntries)%nat.
Proof.
  unfold pruneReactionCacheLocked. case_decide; [by split|]. cbv zeta. set (c' := filter _ c).
  assert (∀ id e, c' !! id = Some e → c !! id = Some e) as Hsub by (by intros id e [? _]%map_lookup_filter_Some).
  case_decide; [by split|]. split; [intros id e He; by eapply Hsub, evict_sub|].
  apply evict_size. intros id Hid. by apply elem_of_range_keys.
Qed.

(** A step that leaves the reactions alone and adds nothing to the cache. *)
Lemma cohinv_sub d d' :
  db_reactions d' = db_reactions d → db_cache d' ⊆ db_cache d → cohinv d → cohinv d'.
Proof.
  intros Hr Hc [Hf Hs]. split.
  - intros id e He. rewrite (Hf id e) by (by eapply lookup_weaken). apply queryReactions_local. by rewrite Hr.
  - etrans; [|exact Hs]. by apply map_subseteq_size.
Qed.

Lemma cacheReactions_coh id counts d :
  cohinv d → counts = queryReactions id d → cohinv (cacheReactions now_ id counts d).1.
Proof.
  intros [Hf Hs] ->.
  set (c := <[id := {| rce_counts := queryReactions id d; rce_expiresAt := now_ (db_reads d) + reactionCacheTTL |}]>
              (db_cache d)).
  assert ((cacheReactions now_ id (queryReactions id d) d).1 =
    set_cache (λ _, pruneReactionCacheLocked (now_ (S (db_reads d))) c) (tick_clock (tick_clock d))) as -> by done.
  destruct (prune_spec (now_ (S (db_reads d))) c) as [Hsub Hsz]. split; [|done].
  intros id' e He%Hsub. change (queryReactions id' _) with (queryReactions id' d). subst c.
  apply lookup_insert_Some in He as [[<- <-]|[_ He]]; [done|by apply Hf].
Qed.

Definition stays_fresh d d' : Prop := cohinv d → cohinv d' ∧ db_reactions d' = db_reactions d.

#[export] Instance stays_fresh_preorder : PreOrder stays_fresh.
Proof.
  split; [by intros d Hd|]. intros d1 d2 d3 Ha Hb Hd. destruct (Ha Hd) as [Hd2 Hr].
  destruct (Hb Hd2) as [Hd3 Hr']. by rewrite Hr', Hr.
Qed.

Lemma stays_same d d' : db_reactions d' = db_reactions d → db_cache d' = db_cache d → stays_fresh d d'.
Proof. intros Hr Hc Hd. split; [|done]. eapply cohinv_sub; [done|by rewrite Hc|done]. Qed.
#[local] Hint Resolve stays_fresh_preorder : core.

Lemma fresh_tick d : stays_fresh d (tick_db d).
Proof. by apply stays_same. Qed.
Lemma fresh_clock d : stays_fresh d (tick_clock d).
Proof. by apply stays_same. Qed.
Lemma fresh_delete id d : stays_fresh d (set_cache (delete id) d).
Proof. intros Hd. split; [|done]. apply (cohinv_sub d); [done| |done]. apply delete_subseteq. Qed.
#[local] Hint Resolve fresh_tick fresh_clock fresh_delete : core.

Lemma cachedReactions_fresh id d :
  cohinv d → ∀ c, (cachedReactions now_ id d).2 = Ok (Some c) → c = queryReactions id d.
Proof.
  intros [Hf _] c. unfold cachedReactions, se_bind, se_get. cbn [fst snd].
  destruct (db_cache d !! id) as [e|] eqn:He; [|done]. destruct (rce_expiresAt e =? 0); [done|].
  unfold clock_read. cbn [fst snd]. destruct (rce_expiresAt e <=? _); [done|]. intros [= <-]. by apply Hf.
Qed.

Lemma cached_page_fresh ids out missing d :
  cohinv d → (∀ id, id ∈ dom out → id ∈ missing ∨ out !! id = Some (queryReactions id d)) →
  ∃ d' r, cached_page now_ ids out missing d = (d', Ok r) ∧ stays_fresh d d' ∧
    (∀ id, id ∈ dom r.1 → id ∈ r.2 ∨ r.1 !! id = Some (queryReactions id d)) ∧
    (∀ id, id ∈ ids ∨ id ∈ dom out → id ∈ dom r.1) ∧ (∀ id, id ∈ missing → id ∈ r.2).
Proof.
  revert out missing d. induction ids as [|i ids IH]; intros out missing d Hd Hout.
  { exists d, (out, missing). split_and!; [done|reflexivity|done| |done]. intros id [?%elem_of_nil|?]; done. }
  cbn [cached_page]. unfold se_bind. pose proof (cachedReactions_fresh i d Hd) as Hc.
  pose proof (cached_steps stays_fresh fresh_clock fresh_delete i d) as Hs.
  assert (∃ c, (cachedReactions now_ i d).2 = Ok c) as [c Ec].
  { unfold cachedReactions, se_bind, se_get. cbn [fst snd]. destruct (db_cache d !! i) as [e|]; [|by eexists].
    destruct (rce_expiresAt e =? 0); [by eexists|]. unfold clock_read. cbn [fst snd].
    destruct (rce_expiresAt e <=? _); by eexists. }
  destruct (cachedReactions now_ i d) as [d1 r1]. cbn [fst snd] in *. subst r1.
  destruct (Hs Hd) as [Hd1 Hr1]. assert (∀ id, queryReactions id d1 = queryReactions id d) as Hq.
  { intros id. apply queryReactions_local. by rewrite Hr1. }
  assert (∃ counts missing', match c with Some counts => cached_page now_ ids (<[i := counts]> out) missing
            | None => cached_page now_ ids (<[i := ∅]> out) (missing ++ [i]) end =
          cached_page now_ ids (<[i := counts]> out) missing' ∧
          (∀ id, id ∈ missing → id ∈ missing') ∧ (i ∈ missing' ∨ counts = queryReactions i d)) as
    (counts & missing' & -> & Hmiss & Hi).
  { destruct c as [c|]; [exists c, missing|exists ∅, (missing ++ [i])]; split_and!; try done.
    - right. by apply Hc.
    - intros id Hid. apply elem_of_app. by left.
    - left. apply elem_of_app. right. by apply list_elem_of_singleton. }
  destruct (IH (<[i := counts]> out) missing' d1 Hd1) as (d' & r & -> & Hf & Hr & Hdom & Hm).
  { intros id [Heq|Hid]%dom_insert%elem_of_union; rewrite Hq.
    - apply elem_of_singleton in Heq as ->. destruct Hi as [Hi| ->]; [by left|]. right. by rewrite lookup_insert_eq.
    - destruct (decide (id = i)) as [->|Hne]; [destruct Hi as [Hi| ->]; [by left|right; by rewrite lookup_insert_eq]|].
      rewrite lookup_insert_ne by done. destruct (Hout id Hid); auto. }
  exists d', r. split_and!; [done|by etrans| | |auto].
  - intros id Hid. rewrite <- Hq. by apply Hr.
  - intros id Hid. apply Hdom. destruct Hid as [[->|Hid]%elem_of_cons|Hid]; set_solver.
Qed.

Lemma fill_page_lookup missing d out id :
  fill_page missing d out !! id = if decide (id ∈ missing) then Some (queryReactions id d) else out !! id.
Proof.
  induction missing as [|i missing IH]; [by rewrite decide_False by apply not_elem_of_nil|]. cbn [fill_page foldr].
  fold (fill_page missing d out). destruct (decide (id = i)) as [->|Hne].
  - rewrite lookup_insert_eq. by rewrite decide_True by left.
  - rewrite lookup_insert_ne, IH by done. destruct (decide (id ∈ missing)), (decide (id ∈ i :: missing)); set_solver.
Qed.

Lemma cache_page_coh ids out d :
  cohinv d → (∀ id, id ∈ ids → out !! id = Some (queryReactions id d)) → stays_fresh d (cache_page now_ ids out d).1.
Proof.
  revert d. induction ids as [|i ids IH]; intros d Hd Hout; [reflexivity|]. cbn [cache_page]. unfold se_bind.
  assert (default ∅ (out !! i) = queryReactions i d) as Hi by (by rewrite Hout by left).
  pose proof (cacheReactions_coh i _ d Hd Hi) as Hc.
  destruct (cacheReactions now_ i _ d) as [d1 r] eqn:Ec.
  assert (r = Ok () ∧ db_reactions d1 = db_reactions d) as [-> Hr] by (unfold cacheReactions in Ec; by inversion Ec).
  cbn [fst] in Hc. etrans; [|apply IH]; [by intros _|done|].
  intros id Hid. rewrite Hout by (by right). f_equal. apply queryReactions_local. by rewrite Hr.
Qed.

Lemma cache_page_total ids out d : ∃ d', cache_page now_ ids out d = (d', Ok ()).
Proof.
  revert d. induction ids as [|i ids IH]; intros d; [by eexists|]. cbn [cache_page].
  unfold se_bind at 1, cacheReactions at 1. apply IH.
Qed.

Lemma ReactionsFor_fresh ids d :
  cohinv d →
  stays_fresh d (ReactionsFor db now_db now_ ids d).1 ∧
  ∀ out, (ReactionsFor db now_db now_ ids d).2 = Ok out →
    ∀ id, id ∈ ids → out !! id = Some (queryReactions id d).
Proof.
  intros Hd. unfold ReactionsFor, se_bind.
  destruct (cached_page_fresh ids ∅ [] d Hd) as (d1 & r & Hpage & Hf & Hr & Hdom & _); [set_solver|].
  rewrite Hpage.
  case_bool_decide as Hnil.
  { split; [done|]. cbn [fst snd se_ret]. intros out [= <-] id Hid. destruct (Hr id) as [Hin|]; [auto| |done].
    rewrite Hnil in Hin. by apply elem_of_nil in Hin. }
  destruct (Hf Hd) as [Hd1 Hr1]. unfold query, call.
  destruct (db (db_calls d1)) eqn:Edb; cbn [fst snd]; [|split; [by etrans; [|apply fresh_tick]|done]..].
  set (d2 := tick_db d1). set (out := fill_page r.2 d2 r.1).
  assert (cohinv d2) as Hd2 by (by apply fresh_tick).
  assert (∀ id, queryReactions id d2 = queryReactions id d) as Hq.
  { intros id. apply queryReactions_local. by rewrite <- Hr1. }
  assert (∀ id, id ∈ r.2 → out !! id = Some (queryReactions id d2)) as Hfill.
  { intros id Hid. unfold out. by rewrite fill_page_lookup, decide_True. }
  pose proof (cache_page_coh r.2 out d2 Hd2 Hfill) as Hc.
  assert (∃ d3, cache_page now_ r.2 out d2 = (d3, Ok ())) as [d3 E3] by apply cache_page_total.
  rewrite E3 in *. cbn [fst snd se_ret] in *. split.
  - etrans; [done|]. etrans; [apply fresh_tick|done].
  - intros out' [= <-] id Hid. rewrite <- Hq. unfold out. rewrite fill_page_lookup.
    destruct (decide (id ∈ r.2)) as [|Hnin]; [done|]. destruct (Hr id); [auto|done|]. by rewrite Hq.
Qed.

(** A toggle whose commit is answered leaves the cache fresh. *)
Lemma Toggle_fresh id u e d :
  (∀ n, db n ≠ DbLost) → cohinv d →
  cohinv (ToggleReaction db now_db now_ id u e d).1 ∧
  ∀ r, (ToggleReaction db now_db now_ id u e d).2 = Ok r →
    r.1 = queryReactions id (ToggleReaction db now_db now_ id u e d).1.
Proof.
  intros Hnl Hd. unfold ToggleReaction, se_bind, call.
  destruct (db (db_calls d)) eqn:Edb; [|split; [by apply fresh_tick|done]|by destruct (Hnl (db_calls d))].
  case_bool_decide; [|split; [by apply fresh_tick|done]].
  set (t := toggle (id, u, e) (tick_db d)). destruct t as [d1 added] eqn:Et. cbn [fst snd].
  assert (db_cache d1 = db_cache d ∧ ∀ j u' e', j ≠ id → ((j, u', e') ∈ db_reactions d1 ↔ (j, u', e') ∈ db_reactions d))
    as [Hcache Hother].
  { subst t. unfold toggle in Et. case_bool_decide; simplify_eq; (split; [done|]); simpl; set_solver. }
  set (d2 := set_cache (delete id) d1).
  assert (cohinv d2) as Hd2.
  { destruct Hd as [Hf Hs]. split; simpl; rewrite Hcache.
    - intros j x [Hne Hx]%lookup_delete_Some. rewrite (Hf j x Hx). apply queryReactions_local. intros u' e'.
      symmetry. apply Hother. congruence.
    - etrans; [apply map_subseteq_size, delete_subseteq|done]. }
  pose proof (cacheReactions_coh id _ d2 Hd2 (reflexivity (queryReactions id d2))) as Hc.
  split; [exact Hc|]. intros r [= <-]. reflexivity.
Qed.

Lemma call_fresh {A} (op : Z → ChatDB → option (ChatDB * A)) :
  (∀ n d d' a, op n d = Some (d', a) → db_reactions d' = db_reactions d ∧ db_cache d' = db_cache d) →
  preserves stays_fresh (call_ op).
Proof. intros Hop. apply call_steps; [done..|]. intros n d d' a [Hr Hc]%Hop. by apply stays_same. Qed.

Lemma Reactions_fresh id d :
  cohinv d →
  stays_fresh d (Reactions db now_db now_ id d).1 ∧
  ∀ c, (Reactions db now_db now_ id d).2 = Ok c → c = queryReactions id d.
Proof.
  intros Hd. unfold Reactions, se_bind. pose proof (cachedReactions_fresh id d Hd) as Hc.
  pose proof (cached_steps stays_fresh fresh_clock fresh_delete id d) as Hs.
  destruct (cachedReactions now_ id d) as [d1 [[c|]|e]]; cbn [fst snd] in *; [split; [done|]|..|done].
  { intros c' [= <-]. by apply Hc. }
  destruct (Hs Hd) as [Hd1 Hr1]. unfold query, call.
  destruct (db (db_calls d1)); cbn [fst snd]; [|split; [by etrans; [|apply fresh_tick]|done]..].
  assert (queryReactions id (tick_db d1) = queryReactions id d) as Hq.
  { apply queryReactions_local. by rewrite <- Hr1. }
  pose proof (cacheReactions_coh id _ (tick_db d1) (proj1 (fresh_tick _ Hd1)) (reflexivity _)) as Hcoh.
  split; [|by intros c [= <-]]. intros _. split; [exact Hcoh|done].
Qed.

Lemma step_fresh d d' : (∀ n, db n ≠ DbLost) → ststep d d' → cohinv d → cohinv d'.
Proof.
  intros Hnl Hs Hd.
  assert (∀ A (m : D A) d0, preserves stays_fresh m → cohinv d0 → cohinv (m d0).1) as Hpres.
  { intros A m d0 Hm Hd0. by apply (Hm d0). }
  destruct Hs; lazymatch goal with
    | |- cohinv (ToggleReaction _ _ _ _ _ _ _).1 => idtac
    | |- cohinv (Reactions _ _ _ _ _).1 => idtac
    | |- cohinv (ReactionsFor _ _ _ _ _).1 => idtac
    | _ => apply Hpres; [|done]
    end.
  - apply preserves_bind; [done| |].
    + apply call_fresh. intros n d1 d2 a. cbv zeta. destruct (negb _); [done|]. by destruct (_ && _); intros [= <- <-].
    + intros [i|]; [by apply preserves_ret|]. apply preserves_bind; [done|by apply query_steps|].
      intros [i|]; [by apply preserves_ret|by apply preserves_err].
  - apply preserves_bind; [done|by apply query_steps|]. intros rows. by apply scan_steps.
  - by apply get_steps.
  - unfold EditChatMessage. destruct (max_int64 <? v); [by apply preserves_err|].
    apply preserves_bind; [done| |intros [x|]; [by apply preserves_ret|by apply preserves_err]].
    apply call_fresh. intros n d1 d2 a. destruct (db_messages d1 !! id); [|by intros [= <- <-]].
    destruct (_ && _); [|by intros [= <- <-]]. cbv zeta. destruct (negb _); [done|]. by intros [= <- <-].
  - apply preserves_bind; [done| |intros []; [by apply preserves_ret|by apply preserves_err]].
    apply call_fresh. intros n d1 d2 a. destruct (db_messages d1 !! id); [|by intros [= <- <-]].
    by destruct (bool_decide _); intros [= <- <-].
  - apply call_fresh. intros n d1 d2 a. destruct (bool_decide _); [|done]. by destruct (db_pins d1 !! _); intros [= <- <-].
  - apply call_fresh. by intros n d1 d2 a [= <- <-].
  - apply preserves_bind; [done|by apply query_steps|]. intros l. by apply load_pins_steps.
  - by apply Toggle_fresh.
  - by apply (Reactions_fresh id d Hd).
  - by apply (ReactionsFor_fresh ids d Hd).
  - apply call_fresh. by intros n d1 d2 a [= <- <-].
  - apply preserves_bind; [done|by apply query_steps|]. intros [[w key0]|]; [|by apply preserves_ret].
    destruct (Int64ToUint32 key0); [by apply preserves_ret|by apply preserves_err].
  - apply call_fresh. intros n d1 d2 a. by destruct (_ && _); intros [= <- <-].
  - by apply query_steps.
  - unfold MarkMessagesDelivered. destruct (bool_decide _); [by apply preserves_ret|].
    apply call_fresh. by intros n d1 d2 a [= <- <-].
Qed.

Lemma start_cohinv : cohinv ChatDB_start.
Proof. split; [intros id e He; by simpl in He|]. apply Nat.le_0_l. Qed.

End store.

Section demo.
#[local] Instance demo_range V : MapRange Z V := stdpp_range.
#[local] Instance demo_range2 V : MapRange (Z * Z) V := stdpp_range.
#[local] Abbreviation ok := (λ _ : nat, DbOk).
#[local] Abbreviation zero := (λ _ : nat, 0).

(** A sealed body: the base64 text of 41 bytes. *)
Definition demo_body : string := "AAAAAAAAAAAAAAAAAAAAAAAAAAAAAAAAAAAAAAAAAAAAAAAAAAAAAAA=".

Definition demo_store : ChatDB := (StoreChatMessage ok zero 1 "alice" "Alice" demo_body 1 0 "m1" ChatDB_start).1.
Definition demo_edited : ChatDB := (EditChatMessage ok zero 1 demo_body 2 1 demo_store).1.
Definition demo_reacted : ChatDB := (ToggleReaction ok zero zero 1 "bob" "+" demo_store).1.

#[local] Abbreviation demo_step := (ststep ok zero zero (λ _, true) (λ _, "")).

Lemma demo_store_step : rtc demo_step ChatDB_start demo_store.
Proof. apply rtc_once. constructor. Qed.

Lemma messages_evolve_witness :
  msg_Version <$> db_messages demo_edited !! 1 = Some 2 ∧
  ∃ m m', db_messages demo_store !! 1 = Some m ∧ db_messages demo_edited !! 1 = Some m' ∧ evolves m m'.
Proof.
  split; [by vm_compute|]. eexists. 
  destruct (messages_evolve ok zero zero (λ _, true) (λ _, "") demo_store demo_edited 1
    (new_message 0 1 "alice" "Alice" demo_body 1 0 "m1") demo_store_step) as (m' & Hm' & He).
  - apply rtc_once. constructor.
  - by vm_compute.
  - exists m'. split_and!; [|done|exact He]. by vm_compute.
Defined.

Lemma send_is_idempotent_witness :
  db_messages (StoreChatMessage ok zero 1 "alice" "Al" demo_body 2 0 "m1" demo_edited).1 = db_messages demo_edited.
Proof.
  apply (send_is_idempotent ok zero zero (λ _, true) (λ _, "") 1 "alice" "Alice" "Al" demo_body demo_body 1 2 0 0 "m1"
    ChatDB_start demo_store demo_edited 1).
  - apply rtc_refl.
  - done.
  - by vm_compute.
  - apply rtc_once. constructor.
Defined.

End demo.
