(* ===== verification/ChatSafety.v ===== *)
(** * The chat handlers keep the chat sealed and to its readers

    The invariant of the chat relay, and that every handler keeps it: every stored
    message that is not deleted opens, under the generation its row names, to a
    text within the length limit; scope keys go to entitled clients only; stored
    messages evolve as [ChatStoreProps] says. A handler is verified against what
    its parts do ([csends]), the parts over the server with the lemmas of
    [ChatScopeSafety] and those over the store with those of [ChatStoreProps]. *)

From S2P Require Import Prelude Wire Base64 GoState Permissions PermLoader PermCache StateManager StateInvariant StateSpec PermCheck ChannelManager ChatKeys ChatKeysSafety ChatText ServerWorld ChatScope ClientMoves ChatScopeSafety ChatScopeProps ChatStore ChatStoreProps ChatRelay ChatHandlers.

Section keys.
Context (E : Env).
Context `{!∀ V, MapRange Z V, !∀ V, MapRange string V}.
Implicit Types s : Server.

#[local] Abbreviation kstep :=
  (ckstep (env_db E) (env_rnd E) (env_Seal E) (env_Open E) (env_Box E) (env_has_store E) (env_kek E)).

(** A run changes the key manager by its own operations only. *)
Definition keys_run s s' : Prop := rtc kstep (sv_keys s) (sv_keys s').

#[export] Instance keys_run_preorder : PreOrder keys_run.
Proof. split; [intros s; apply rtc_refl|]. intros s1 s2 s3. unfold keys_run. intros. by etrans. Qed.

Lemma keys_same s s' : sv_keys s' = sv_keys s → keys_run s s'.
Proof. intros Hk. unfold keys_run. rewrite Hk. apply rtc_refl. Qed.

Lemma on_keys_run {A} (m : ChatKeys.M A) : (∀ k, kstep k (m k).1) → preserves keys_run (on_keys m).
Proof.
  intros Hm s. specialize (Hm (sv_keys s)). unfold on_keys. destruct (m (sv_keys s)) as [k r]. by apply rtc_once.
Qed.

Lemma ignore_run {A} (m : H A) : preserves keys_run m → preserves keys_run (ignore m).
Proof. intros Hm s. apply Hm. Qed.

Create HintDb keysdb.

(** Programs whose parts are known to be runs of the key manager. *)
Ltac keys_run_tac :=
  lazymatch goal with
  | |- preserves keys_run (se_bind _ _) => apply (preserves_bind keys_run); [keys_run_tac|intros ?; keys_run_tac]
  | |- preserves keys_run (se_ret _) => apply (preserves_ret keys_run)
  | |- preserves keys_run (se_err _) => apply (preserves_err keys_run)
  | |- preserves keys_run (ignore _) => apply ignore_run; keys_run_tac
  | |- preserves keys_run (match ?x with _ => _ end) => destruct x; keys_run_tac
  | _ => first [solve [eauto 2 with keysdb] | let s := fresh in intros s; apply keys_same; done]
  end.

Lemma write_run to m : preserves keys_run (writeMessage E to m).
Proof. intros s. apply keys_same. unfold writeMessage. by destruct (env_write_ok E _). Qed.
Lemma error_run client code text : preserves keys_run (sendErrorFor E client code text).
Proof. apply write_run. Qed.
Lemma cm_run {A} (m : ChannelManager.M A) : preserves keys_run (on_cm m).
Proof. intros s. apply keys_same. unfold on_cm. by destruct (m (sv_cm s)). Qed.
Lemma on_state_run f : preserves keys_run (on_state_ f).
Proof. intros s. by apply keys_same. Qed.
Lemma allowLimit_run uid limit : preserves keys_run (allowLimit E uid limit).
Proof.
  apply (preserves_bind keys_run); [intros s; by apply keys_same|]. intros now s. apply keys_same.
  by destruct (take_token _ _ _ _).
Qed.
Lemma allow_keys uid : preserves keys_run (allow E uid).
Proof. apply allowLimit_run. Qed.
Lemma Ensure_run sc : preserves keys_run (k_EnsureScope E sc).
Proof. apply on_keys_run. intros k. constructor. Qed.
Lemma rotate_run sc : preserves keys_run (k_rotate E sc).
Proof. apply on_keys_run. intros k. constructor. Qed.
Lemma sealFor_run sc g pub : preserves keys_run (k_sealFor E sc g pub).
Proof. apply on_keys_run. intros k. constructor. Qed.
Lemma open_run sc g blob : preserves keys_run (k_open E sc g blob).
Proof. apply on_keys_run. intros k. constructor. Qed.
Lemma current_run sc : preserves keys_run (k_current E sc).
Proof. apply on_keys_run. intros k. constructor. Qed.
Lemma seal_run sc plain : preserves keys_run (k_seal E sc plain).
Proof. apply on_keys_run. intros k. constructor. Qed.

#[local] Hint Resolve write_run error_run cm_run on_state_run allowLimit_run allow_keys Ensure_run rotate_run
  sealFor_run open_run current_run seal_run : keysdb.

(** ** Scope keys, subscriptions and moves *)

Lemma deliver_run client sc : preserves keys_run (deliverScopeKey E client sc).
Proof. unfold deliverScopeKey. keys_run_tac. Qed.
#[local] Hint Resolve deliver_run : keysdb.
Lemma state_frame_run client : preserves keys_run (sendSubscriptionState E client).
Proof. unfold sendSubscriptionState. keys_run_tac. Qed.
#[local] Hint Resolve state_frame_run : keysdb.
Lemma sort_subscribers_run sc l : preserves keys_run (sort_subscribers E sc l).
Proof. induction l as [|m l IH]; cbn [sort_subscribers]; keys_run_tac. Qed.
Lemma drop_revoked_run sc l : preserves keys_run (drop_revoked E sc l).
Proof. induction l as [|m l IH]; cbn [drop_revoked]; keys_run_tac. Qed.
#[local] Hint Resolve sort_subscribers_run drop_revoked_run : keysdb.
Lemma channelSubscribers_run sc : preserves keys_run (channelSubscribers E sc).
Proof. unfold channelSubscribers. keys_run_tac. Qed.
Lemma to_each_run l ev : preserves keys_run (to_each E l ev).
Proof. induction l as [|c l IH]; cbn [to_each]; keys_run_tac. Qed.
#[local] Hint Resolve channelSubscribers_run to_each_run : keysdb.
Lemma broadcast_run sc ev : preserves keys_run (broadcastChannelScoped E sc ev).
Proof. unfold broadcastChannelScoped. keys_run_tac. Qed.
Lemma deliver_each_run sc l : preserves keys_run (deliver_each E sc l).
Proof. induction l as [|c l IH]; cbn [deliver_each]; keys_run_tac. Qed.
Lemma connected_run l : preserves keys_run (connected l).
Proof. induction l as [|m l IH]; cbn [connected]; keys_run_tac. Qed.
#[local] Hint Resolve broadcast_run deliver_each_run connected_run : keysdb.
Lemma doRotate_run sc : preserves keys_run (doRotateScopeKey E sc).
Proof. unfold doRotateScopeKey. keys_run_tac. Qed.
#[local] Hint Resolve doRotate_run : keysdb.
Lemma rotateScopeKey_run sc : preserves keys_run (rotateScopeKey E sc).
Proof.
  unfold rotateScopeKey. destruct (_ || _); [keys_run_tac|]. destruct (_ <=? 0); [keys_run_tac|].
  intros s. apply keys_same. by destruct (bool_decide _).
Qed.
Lemma readable_run client sc : preserves keys_run (scopeReadable E client sc).
Proof. unfold scopeReadable. keys_run_tac. Qed.
Lemma check_targets_run client cur held ids : preserves keys_run (check_targets E client cur held ids).
Proof. revert held. induction ids as [|id ids IH]; intros held; cbn [check_targets]; keys_run_tac. Qed.
Lemma auto_assign_run client id : preserves keys_run (auto_assign E client id).
Proof. intros s. apply keys_same. unfold auto_assign. by destruct (env_auto_assign E _). Qed.
#[local] Hint Resolve rotateScopeKey_run readable_run check_targets_run auto_assign_run : keysdb.
Lemma deliver_targets_run client ids : preserves keys_run (deliver_targets E client ids).
Proof.
  induction ids as [|id ids IH]; cbn [deliver_targets]; [keys_run_tac|].
  apply (preserves_bind keys_run); [|intros ?; keys_run_tac].
  intros s. pose proof (deliver_run client id s) as Hd. by destruct (deliverScopeKey E client id s) as [s' [a|e]].
Qed.
Lemma seal_each_run sc pub ids : preserves keys_run (seal_each E sc pub ids).
Proof. induction ids as [|id ids IH]; cbn [seal_each]; keys_run_tac. Qed.
#[local] Hint Resolve deliver_targets_run seal_each_run : keysdb.
Lemma afterMove_run id ch by_ prev : preserves keys_run (afterMove E id ch by_ prev).
Proof. unfold afterMove. cbv zeta. keys_run_tac. Qed.
#[local] Hint Resolve afterMove_run : keysdb.
Lemma moveClient_run id ch by_ : preserves keys_run (moveClient E id ch by_).
Proof. unfold moveClient. keys_run_tac. Qed.
Lemma or_report_run client m : preserves keys_run m → preserves keys_run (or_report E client m).
Proof.
  intros Hm s. specialize (Hm s). unfold or_report. destruct (m s) as [s' [a|e]]; [done|].
  etrans; [exact Hm|]. apply error_run.
Qed.
Lemma checkPower_run a b k n : preserves keys_run (checkPowerOver E a b k n).
Proof. unfold checkPowerOver. keys_run_tac. Qed.
Lemma performKick_run by_ id fs ban reason exp : preserves keys_run (performKick by_ id fs ban reason exp).
Proof. unfold performKick. cbv zeta. keys_run_tac. Qed.
Lemma recordBan_run a b reason d : preserves keys_run (recordBan E a b reason d).
Proof.
  unfold recordBan. apply (preserves_bind keys_run); [keys_run_tac|]. intros now. cbv zeta.
  apply (preserves_bind keys_run); [|intros ?; keys_run_tac]. intros s. apply keys_same. unfold insertBan.
  by destruct (env_ban_ok E _).
Qed.
#[local] Hint Resolve moveClient_run or_report_run checkPower_run performKick_run recordBan_run : keysdb.

Lemma serve_run r : preserves keys_run (serve E r).
Proof.
  destruct r; cbn [serve].
  - unfold handleChannelSubscribe. destruct msg as [[ids sub]|]; keys_run_tac.
  - unfold handleKeyPublish. keys_run_tac.
  - unfold handleKeyRequest. keys_run_tac.
  - unfold handleChatKeyRequest. keys_run_tac.
  - unfold handleJoinChannel. keys_run_tac.
  - unfold handleMoveClient. keys_run_tac.
  - unfold handleKickClient. destruct msg as [msg|]; [|keys_run_tac].
    apply (preserves_bind keys_run); [keys_run_tac|]. intros [target|]; [|keys_run_tac].
    destruct (negb _); [keys_run_tac|]. apply (preserves_bind keys_run); [keys_run_tac|].
    intros [u|e]; [|keys_run_tac]. apply (preserves_bind keys_run); [keys_run_tac|].
    intros [exp|]; [|keys_run_tac]. intros s.
    pose proof (performKick_run (cn_ID c) (cn_ID target) (km_FromServer msg || km_Ban msg) (km_Ban msg)
      (km_Reason msg) exp s) as Hk.
    destruct (performKick _ _ _ _ _ _ s) as [s' [u'|e]]; (etrans; [exact Hk|]); [by apply keys_same|apply error_run].
  - unfold onDisconnect. destruct (negb _); [keys_run_tac|]. apply (preserves_bind keys_run); [keys_run_tac|].
    intros removed. unfold left_server. destruct (match removed with Ok _ => _ | Err _ => _ end) as [ch inv]. cbv zeta. keys_run_tac.
  - unfold rotationFired. keys_run_tac.
Qed.
End keys.

(** ** What the parts of a chat handler send *)

Section parts.
Context (E : Env) (F : ChatEnv).
Context `{!∀ V, MapRange Z V, !∀ V, MapRange (Z * Z) V, !∀ V, MapRange string V}.
Implicit Types s : Server.

#[local] Abbreviation sends_ := (sends E).

(** A part that neither writes nor touches the key manager. *)
Definition quiet s s' : Prop := silent s s' ∧ sv_keys s' = sv_keys s.

#[export] Instance quiet_preorder : PreOrder quiet.
Proof.
  split; [by intros s|]. intros s1 s2 s3 [(Ha & Hb & Hc) Hd] [(Ha' & Hb' & Hc') Hd'].
  unfold quiet, silent. split_and!; congruence.
Qed.

Lemma sends_quiet_part {A} (m : H A) s : preserves quiet m → sends_ m s (λ _ s', same_cm s s').
Proof.
  intros Hm Hs. destruct (Hm s) as [Hsil Hk].
  destruct (silent_ok E s (m s).1 Hsil Hs) as [Hw Hr]; [rewrite Hk; by left|].
  split_and!; [done..|]. intros a _. apply Hsil.
Qed.

Lemma quiet_run {A} (m : H A) : preserves quiet m → preserves (keys_run E) m.
Proof. intros Hm s. apply keys_same, Hm. Qed.

Lemma time_quiet : preserves quiet (time_Now E).
Proof. by intros s. Qed.
Lemma pc_quiet client : preserves quiet (permChecker_ E client).
Proof. by intros s. Qed.
Lemma state_quiet : preserves quiet get_state.
Proof. by intros s. Qed.
Lemma byUID_quiet uid : preserves quiet (clientByUniqueID uid).
Proof. by intros s. Qed.
Lemma byID_quiet id : preserves quiet (clientByID id).
Proof. by intros s. Qed.

Lemma limit_quiet client : preserves quiet (chatActionLimit E client).
Proof. apply (preserves_bind quiet); [apply pc_quiet|]. by intros pc s. Qed.

Lemma allowLimit_quiet uid limit : preserves quiet (allowLimit E uid limit).
Proof.
  apply (preserves_bind quiet); [apply time_quiet|]. intros now s. by destruct (take_token _ _ _ _).
Qed.

Lemma published_quiet client : preserves quiet (publishedKey client).
Proof. apply (preserves_bind quiet); [apply state_quiet|]. by intros st s. Qed.

Lemma mentions_quiet client ch body : preserves quiet (parseMentions E F client ch body).
Proof.
  apply (preserves_bind quiet); [apply state_quiet|]. intros st. cbv zeta.
  apply (preserves_bind quiet); [|by intros all s]. destruct (_ && _); [|by intros s].
  apply (preserves_bind quiet); [apply pc_quiet|]. by intros pc s.
Qed.

Lemma sends_toclient to ev s : sends_ (BroadcastToClient_ E to ev) s (λ _ s', same_cm s s').
Proof.
  intros Hs. unfold BroadcastToClient_. cbn [fst snd].
  destruct (effect_ok E (ToClient (sv_state s) to ev (env_write_ok E (length (sv_log s)))) s) as [Ha Hb]; [done..|].
  by split_and!.
Qed.

Lemma to_each_sends l ev s : sends_ (to_each E l ev) s (λ _ _, True).
Proof.
  revert s. induction l as [|c l IH]; intros s; [by apply sends_ret|].
  eapply sends_bind; [apply sends_toclient|]. intros b s1 _ _ _. apply IH.
Qed.

Lemma broadcast_sends sc ev s : sends_ (broadcastChannelScoped E sc ev) s (λ _ _, True).
Proof.
  eapply sends_bind with (Q := λ _ _, True).
  { intros Hs. unfold effect_st. cbn [fst snd].
    destruct (effect_ok E (ToChannel (sv_state s) sc ev) s) as [Ha Hb]; [done..|]. by split_and!. }
  intros [] s1 _ _ _. eapply sends_bind; [apply channelSubscribers_sends|]. intros l s2 _ _ _. apply to_each_sends.
Qed.

Lemma toall_sends ev s : sends_ (effect_ (ToAll ev)) s (λ _ _, True).
Proof. eapply sends_weaken; [|by apply sends_effect]. done. Qed.

Lemma deliver_direct_sends client to ev s : sends_ (deliver_direct E client to ev) s (λ _ _, True).
Proof.
  eapply sends_bind; [apply sends_toclient|]. intros ok s1 _ _ _. destruct (negb ok); [apply sends_error|].
  eapply sends_bind; [apply sends_toclient|]. intros b s2 _ _ _. by apply sends_ret.
Qed.

Lemma deliver_spooled_sends client l s : sends_ (deliver_spooled E client l) s (λ _ _, True).
Proof.
  revert s. induction l as [|m l IH]; intros s; [by apply sends_ret|].
  eapply sends_bind; [apply sends_toclient|]. intros ok s1 _ _ _.
  eapply sends_bind; [apply IH|]. intros ids s2 _ _ _. by apply sends_ret.
Qed.

Lemma bundle_keys_sends sc pub n gens s :
  sends_ (bundle_keys E sc pub n gens) s (λ r s', same_cm s s' ∧ Forall (λ k, cky_ChannelID k = sc) r.1.1).
Proof.
  revert n s. induction gens as [|g gens IH]; intros n s; [apply sends_ret; split; [done|constructor]|].
  cbn [bundle_keys]. case_decide; [apply sends_ret; split; [done|constructor]|].
  eapply sends_bind; [apply sends_sealFor|]. intros [ck|e] s1 _ _ [Hcm Hck].
  - eapply sends_bind; [apply IH|]. intros rest s2 _ _ [Hcm2 Hrest]. apply sends_ret. split; [by etrans|].
    constructor; [|done]. by apply (Hck ck).
  - eapply sends_bind; [apply IH|]. intros rest s2 _ _ [Hcm2 Hrest]. apply sends_ret. split; [by etrans|done].
Qed.

Lemma bundle_sends sc pub gens s :
  sends_ (scopeKeyBundle E sc pub gens) s (λ r s', same_cm s s' ∧ Forall (λ k, cky_ChannelID k = sc) r.1.1).
Proof.
  eapply sends_bind; [apply bundle_keys_sends|]. intros r s1 _ _ [Hcm Hr]. apply sends_ret. split; [done|].
  simpl. by rewrite sort_by_perm.
Qed.

Lemma bundle_run sc pub gens : preserves (keys_run E) (scopeKeyBundle E sc pub gens).
Proof.
  apply (preserves_bind (keys_run E)); [|by intros r s; apply keys_same].
  generalize 0%nat. induction (reverse (sort_by Z.le (elements gens))) as [|g l IH]; intros n.
  { intros s. by apply keys_same. }
  cbn [bundle_keys]. case_decide; [intros s; by apply keys_same|].
  apply (preserves_bind (keys_run E)); [apply sealFor_run|].
  intros [ck|e]; (apply (preserves_bind (keys_run E)); [apply IH|]; intros rest s; by apply keys_same).
Qed.

Lemma toclient_run to ev : preserves (keys_run E) (BroadcastToClient_ E to ev).
Proof. intros s. by apply keys_same. Qed.
Lemma effect_run e : preserves (keys_run E) (effect_ e).
Proof. intros s. by apply keys_same. Qed.
Lemma deliver_direct_run client to ev : preserves (keys_run E) (deliver_direct E client to ev).
Proof.
  apply (preserves_bind (keys_run E)); [apply toclient_run|]. intros ok. destruct (negb ok); [apply error_run|].
  apply (preserves_bind (keys_run E)); [apply toclient_run|]. intros b s. by apply keys_same.
Qed.
Lemma deliver_spooled_run client l : preserves (keys_run E) (deliver_spooled E client l).
Proof.
  induction l as [|m l IH]; [intros s; by apply keys_same|].
  apply (preserves_bind (keys_run E)); [apply toclient_run|]. intros ok.
  apply (preserves_bind (keys_run E)); [apply IH|]. intros ids s. by apply keys_same.
Qed.

(** An entitled client's scope exists. *)
Lemma entitled_known conns s id sc : world_ok s → entitled E conns (sv_state s) id sc → known s sc.
Proof.
  intros Hw [->|[Hat|[Hsub _]]]; [by left|by eapply place_known|]. right. simpl in *.
  apply elem_of_sub_pairs in Hsub. apply elem_of_dom. destruct Hw as [[_ _ Hb] _].
  apply (wf_sbc_channel _ Hb). eapply fam_get_lookup_ne. by apply (wf_mirror _ Hb).
Qed.
End parts.

(** ** The invariant *)

Section relay.
Context (E : Env) (F : ChatEnv).
Context `{!∀ V, MapRange Z V, !∀ V, MapRange (Z * Z) V, !∀ V, MapRange string V}.
Context (laws : CryptoLaws (env_rnd E) (env_Seal E) (env_Open E)).
Context (ring_ids : ∀ ring, env_kek E = Some ring → 0 ≤ kr_newest ring < 2 ^ 16).
Implicit Types (s : Server) (w : Server * Chat).

#[local] Abbreviation ckinv_ := (ckinv (env_Open E) (env_has_store E) (env_kek E)).
#[local] Abbreviation extends_ := (extends (env_Open E) (env_kek E)).
#[local] Abbreviation sealed_ := (sealed_under (env_Open E) (env_kek E)).

(** A message that opens, under the generation its row names, to a text within
    the limit. *)
Definition readable (k : CK) (m : ChatMessage) : Prop :=
  ∃ plain, sealed_ (msg_ChannelID m) (msg_KeyID m) plain (msg_BodyEnc m) k ∧
    too_long F (string_of_bytes plain) = false.

Definition rows_readable (k : CK) (d : ChatDB) : Prop :=
  ∀ id m, db_messages d !! id = Some m → msg_DeletedAt m = None → readable k m.

Record winv w : Prop := {
  wi_world : world_ok w.1;
  wi_keys : ckinv_ (sv_keys w.1);
  wi_db : dbinv (ct_db w.2);
  wi_rows : rows_readable (sv_keys w.1) (ct_db w.2);
}.

Record wrun w w' : Prop := {
  wr_server : run_ok E w.1 w'.1;
  wr_keys : extends_ (sv_keys w.1) (sv_keys w'.1);
  wr_db : grows (ct_db w.2) (ct_db w'.2);
}.

#[export] Instance wrun_preorder : PreOrder wrun.
Proof.
  split; [intros w; split; reflexivity|]. intros w1 w2 w3 [Ha Hb Hc] [Ha' Hb' Hc']. split; by etrans.
Qed.

Lemma rows_extends k k' d : extends_ k k' → rows_readable k d → rows_readable k' d.
Proof.
  intros Hx Hr id m Hm Hd. destruct (Hr id m Hm Hd) as (plain & Hs & Hl). exists plain. split; [|done].
  by eapply sealed_under_extends.
Qed.

Definition csends {A} (m : C A) w (Q : A → Server * Chat → Prop) : Prop :=
  winv w → winv (m w).1 ∧ wrun w (m w).1 ∧ ∀ a, (m w).2 = Ok a → Q a (m w).1.

Lemma csends_ret {A} (a : A) w (Q : A → Server * Chat → Prop) : Q a w → csends (se_ret a) w Q.
Proof. intros Ha Hw. simpl. split_and!; [done|reflexivity|]. by intros ? [= <-]. Qed.

Lemma csends_intro {A} (m : C A) w (Q : A → Server * Chat → Prop) : (winv w → csends m w Q) → csends m w Q.
Proof. intros Hm Hw. by apply Hm. Qed.

Lemma csends_bind {A B} (m : C A) (k : A → C B) w Q R :
  csends m w Q → (∀ a w1, winv w1 → wrun w w1 → Q a w1 → csends (k a) w1 R) → csends (se_bind m k) w R.
Proof.
  intros Hm Hk Hw. destruct (Hm Hw) as (H1' & H2' & H3'). unfold se_bind.
  destruct (m w) as [w1 [a|e]]; cbn [fst snd] in *; [|done].
  destruct (Hk a w1 H1' H2' (H3' a eq_refl) H1') as (H4' & H5' & H6'). split_and!; [done| |done]. by etrans.
Qed.

Lemma csends_weaken {A} (m : C A) w (Q Q' : A → Server * Chat → Prop) :
  (∀ a w', winv w' → wrun w w' → Q a w' → Q' a w') → csends m w Q → csends m w Q'.
Proof. intros HQ Hm Hw. destruct (Hm Hw) as (Ha & Hb & Hc). split_and!; eauto. Qed.

Lemma csends_server {A} (m : H A) w Q :
  sends E m w.1 Q → preserves (keys_run E) m → csends (on_server m) w (λ a w', Q a w'.1 ∧ w'.2 = w.2).
Proof.
  intros Hm Hk [Hw Hck Hdb Hrows]. destruct (Hm Hw) as (Ha & Hb & Hc). specialize (Hk w.1).
  unfold on_server. destruct (m w.1) as [s r]. cbn [fst snd] in *.
  destruct (steps_ckinv _ _ _ _ _ _ _ laws ring_ids _ _ Hk Hck) as [Hck' Hx].
  split_and!; [split; cbn [fst snd]; try done; by eapply rows_extends|split; cbn [fst snd]; done|].
  intros a Ha'. split; [by apply Hc|done].
Qed.

Lemma csends_quiet {A} (m : H A) w :
  preserves quiet m → csends (on_server m) w (λ _ w', same_cm w.1 w'.1 ∧ w'.2 = w.2).
Proof.
  intros Hm. apply (csends_server m w (λ _ s', same_cm w.1 s')); [by apply sends_quiet_part|by apply quiet_run].
Qed.

Lemma csends_refuse client code text w : csends (refuse E client code text) w (λ _ _, True).
Proof.
  eapply csends_weaken; [|apply (csends_server _ w (λ _ _, True)); [apply sends_error|apply error_run]]. done.
Qed.

Lemma csends_db {A} (m : D A) w :
  preserves keeps m →
  (winv w → rows_readable (sv_keys w.1) (m (ct_db w.2)).1) →
  csends (on_db m) w (λ r w', w'.1 = w.1 ∧ m (ct_db w.2) = (ct_db w'.2, r) ∧ ct_filters w'.2 = ct_filters w.2).
Proof.
  intros Hk Hrows Hw. destruct (Hk (ct_db w.2) (wi_db _ Hw)) as [Hd Hg]. specialize (Hrows Hw).
  unfold on_db. destruct (m (ct_db w.2)) as [d r]. cbn [fst snd] in *. destruct Hw as [Hw Hck _ _].
  split_and!; [by split|by split|]. by intros a [= <-].
Qed.

(** A call of the store that only reads messages. *)
Definition same_messages (d d' : ChatDB) : Prop := db_messages d' = db_messages d ∧ db_nextID d' = db_nextID d.

#[export] Instance same_messages_preorder : PreOrder same_messages.
Proof. split; [done|]. intros d1 d2 d3 [? ?] [? ?]. split; congruence. Qed.

Lemma csends_read {A} (m : D A) w :
  preserves same_messages m →
  csends (on_db m) w (λ r w', w'.1 = w.1 ∧ m (ct_db w.2) = (ct_db w'.2, r) ∧ ct_filters w'.2 = ct_filters w.2 ∧
    db_messages (ct_db w'.2) = db_messages (ct_db w.2)).
Proof.
  intros Hm. eapply csends_weaken; [|apply csends_db].
  - intros r w' _ _ (Hs & Hr & Hf). split_and!; [done..|]. pose proof (Hm (ct_db w.2)) as [Hms _].
    by rewrite Hr in Hms.
  - intros d. specialize (Hm d) as [? ?]. by apply keeps_same.
  - intros Hw id x. rewrite (proj1 (Hm (ct_db w.2))). apply (wi_rows _ Hw).
Qed.

Lemma csends_chat {A} (f : Chat → Chat * A) w :
  (∀ c, ct_db (f c).1 = ct_db c) → csends (on_chat f) w (λ a w', w'.1 = w.1 ∧ f w.2 = (w'.2, a)).
Proof.
  intros Hf [Hw Hk Hd Hr]. specialize (Hf w.2). unfold on_chat. destruct (f w.2) as [c a] eqn:Ef. cbn [fst snd] in *.
  split_and!; [split; cbn [fst snd]; by rewrite ?Hf|split; cbn [fst snd]; rewrite ?Hf; reflexivity|].
  by intros ? [= <-].
Qed.

(** ** The calls of the store *)

Lemma tick_messages d : same_messages d (tick_db d).
Proof. done. Qed.
#[local] Hint Resolve tick_messages same_messages_preorder : core.

Lemma get_reads id : preserves same_messages (GetChatMessage (ce_db F) (ce_dbclock F) id).
Proof. by apply get_steps. Qed.
Lemma setting_reads k : preserves same_messages (GetServerSetting (ce_db F) (ce_dbclock F) k).
Proof.
  apply (preserves_bind same_messages); [by apply query_steps|]. intros [[v key]|]; [|by intros d].
  by destruct (Int64ToUint32 key).
Qed.
Lemma call_reads {A} (op : Z → ChatDB → option (ChatDB * A)) :
  (∀ n d d' a, op n d = Some (d', a) → same_messages d d') → preserves same_messages (call (ce_db F) (ce_dbclock F) op).
Proof. by apply call_steps. Qed.
Lemma set_setting_reads k v key : preserves same_messages (SetServerSetting (ce_db F) (ce_dbclock F) k v key).
Proof. apply call_reads. by intros n d d' a [= <- <-]. Qed.
Lemma history_reads ch before limit : preserves same_messages (ChatHistory (ce_db F) (ce_dbclock F) ch before limit).
Proof. apply (preserves_bind same_messages); [by apply query_steps|]. intros rows. by apply scan_steps. Qed.
Lemma pins_reads ch : preserves same_messages (ChatPins (ce_db F) (ce_dbclock F) ch).
Proof. apply (preserves_bind same_messages); [by apply query_steps|]. intros l. by apply load_pins_steps. Qed.
Lemma cacheReactions_reads id counts : preserves same_messages (cacheReactions (ce_clock F) id counts).
Proof. by intros d. Qed.
Lemma cache_page_reads ids out : preserves same_messages (cache_page (ce_clock F) ids out).
Proof.
  induction ids as [|id ids IH]; [by intros d|].
  apply (preserves_bind same_messages); [apply cacheReactions_reads|]. intros _. apply IH.
Qed.
Lemma reactionsFor_reads ids : preserves same_messages (ReactionsFor (ce_db F) (ce_dbclock F) (ce_clock F) ids).
Proof.
  apply (preserves_bind same_messages); [by apply cached_page_steps|]. intros r.
  destruct (bool_decide _); [by intros d|]. apply (preserves_bind same_messages); [by apply query_steps|].
  intros out. apply (preserves_bind same_messages); [apply cache_page_reads|]. by intros _ d.
Qed.
Lemma toggle_reads id u e : preserves same_messages (ToggleReaction (ce_db F) (ce_dbclock F) (ce_clock F) id u e).
Proof.
  apply (preserves_bind same_messages).
  - apply call_reads. intros n d d' a. destruct (bool_decide _); [|done]. unfold toggle.
    by destruct (bool_decide _); intros [= <- <-].
  - intros r. apply (preserves_bind same_messages); [by intros d|]. intros _.
    apply (preserves_bind same_messages); [apply cacheReactions_reads|]. by intros _ d.
Qed.
Lemma pin_reads ch id by_ : preserves same_messages (PinChatMessage (ce_db F) (ce_dbclock F) ch id by_).
Proof.
  apply call_reads. intros n d d' a. destruct (bool_decide _); [|done]. by destruct (db_pins d !! _); intros [= <- <-].
Qed.
Lemma unpin_reads ch id : preserves same_messages (UnpinChatMessage (ce_db F) (ce_dbclock F) ch id).
Proof. apply call_reads. by intros n d d' a [= <- <-]. Qed.
Lemma spool_reads from to u m : preserves same_messages (SpoolMessage (ce_db F) (ce_dbclock F) (ce_userExists F) from to u m).
Proof. apply call_reads. intros n d d' a. by destruct (_ && _); intros [= <- <-]. Qed.
Lemma pending_reads u : preserves same_messages (PendingMessages (ce_db F) (ce_dbclock F) (ce_nickname F) u).
Proof. by apply query_steps. Qed.
Lemma mark_reads ids : preserves same_messages (MarkMessagesDelivered (ce_db F) (ce_dbclock F) ids).
Proof.
  unfold MarkMessagesDelivered. destruct (bool_decide _); [by intros d|]. apply call_reads. by intros n d d' a [= <- <-].
Qed.

(** Rows after a call that may have added or changed one. *)
Lemma call_rows {A} (op : Z → ChatDB → option (ChatDB * A)) (P : Z → ChatMessage → Prop) d id m :
  (∀ n d' a, op n (tick_db d) = Some (d', a) → db_messages d' !! id = Some m → db_messages d !! id = Some m ∨ P n m) →
  db_messages (call (ce_db F) (ce_dbclock F) op d).1 !! id = Some m →
  db_messages d !! id = Some m ∨ ∃ n, P n m.
Proof.
  intros Hop. unfold call. destruct (ce_db F (db_calls d)); [|by left|];
    destruct (op _ (tick_db d)) as [[d' a]|] eqn:Eo; try (by left); cbn [fst]; intros Hm;
    (destruct (Hop _ _ _ Eo Hm); [by left|right; by eexists]).
Qed.

Lemma get_lookup id d d' m : GetChatMessage (ce_db F) (ce_dbclock F) id d = (d', Ok (Some m)) → db_messages d !! id = Some m.
Proof.
  unfold GetChatMessage, se_bind, query, call. destruct (ce_db F (db_calls d)); [|done..]. cbn [tick_db db_messages].
  destruct (db_messages d !! id) as [x|]; [|done]. unfold scan_message.
  destruct (Int64ToUint32 _); [|done]. by intros [= <- <-].
Qed.

Lemma store_rows ch from nick body key reply cid d id m :
  db_messages (StoreChatMessage (ce_db F) (ce_dbclock F) ch from nick body key reply cid d).1 !! id = Some m →
  db_messages d !! id = Some m ∨ ∃ n, m = new_message n ch from nick body key reply cid.
Proof.
  intros Hm. unfold StoreChatMessage, se_bind in Hm. revert Hm.
  match goal with |- context [call _ _ ?op d] => pose proof (call_rows op
    (λ n m, m = new_message n ch from nick body key reply cid) d id m) as Hc; destruct (call _ _ op d) as [d1 r] end.
  intros Hm. apply Hc.
  - intros n d' a. cbv zeta. destruct (negb (row_sealed _)); [done|]. destruct (negb _ && _); intros [= <- <-]; [by left|].
    simpl. intros [[<- <-]|[_ ?]]%lookup_insert_Some; [by right|by left].
  - cbn [fst]. destruct r as [[x|]|e]; [done| |done]. cbn [fst] in Hm.
    assert (preserves same_messages (query (ce_db F) (ce_dbclock F) (find_message ch from cid))) as Hq by by apply query_steps.
    destruct (Hq d1) as [Hq1 _]. destruct (query _ _ _ d1) as [d2 [[x|]|e]]; cbn [fst snd se_ret se_err] in *; by rewrite <- Hq1.
Qed.

Lemma edit_rows id0 body key v d id m :
  db_messages (EditChatMessage (ce_db F) (ce_dbclock F) id0 body key v d).1 !! id = Some m →
  db_messages d !! id = Some m ∨
  ∃ m0, db_messages d !! id0 = Some m0 ∧ msg_ChannelID m = msg_ChannelID m0 ∧ msg_BodyEnc m = body ∧ msg_KeyID m = key.
Proof.
  unfold EditChatMessage. destruct (max_int64 <? v); [by left|]. unfold se_bind.
  match goal with |- context [call _ _ ?op d] => pose proof (call_rows op
    (λ _ m, ∃ m0, db_messages d !! id0 = Some m0 ∧ msg_ChannelID m = msg_ChannelID m0 ∧ msg_BodyEnc m = body ∧ msg_KeyID m = key)
    d id m) as Hc; destruct (call _ _ op d) as [d1 r] end.
  intros Hm. destruct Hc as [|[_ ?]]; [| |by left|by right].
  - intros n d' a. cbn [tick_db db_messages]. destruct (db_messages d !! id0) as [m0|] eqn:Hm0; [|by intros [= <- <-]; left].
    destruct (_ && _); [|by intros [= <- <-]; left]. cbv zeta. destruct (negb _); [done|]. intros [= <- <-].
    simpl. intros [[<- <-]|[_ ?]]%lookup_insert_Some; [|by left]. right. by exists m0.
  - by destruct r as [[x|]|e].
Qed.

Lemma delete_rows id0 d id m :
  db_messages (DeleteChatMessage (ce_db F) (ce_dbclock F) id0 d).1 !! id = Some m →
  db_messages d !! id = Some m ∨ msg_DeletedAt m ≠ None.
Proof.
  unfold DeleteChatMessage, se_bind.
  match goal with |- context [call _ _ ?op d] => pose proof (call_rows op
    (λ _ m, msg_DeletedAt m ≠ None) d id m) as Hc; destruct (call _ _ op d) as [d1 r] end.
  intros Hm. destruct Hc as [|[_ ?]]; [| |by left|by right].
  - intros n d' a. cbn [tick_db db_messages]. destruct (db_messages d !! id0) as [m0|] eqn:Hm0; [|by intros [= <- <-]; left].
    destruct (bool_decide _); [|by intros [= <- <-]; left]. cbv zeta. intros [= <- <-].
    simpl. intros [[<- <-]|[_ ?]]%lookup_insert_Some; [by right|by left].
  - by destruct r as [[]|e].
Qed.

(** ** Sending *)

Lemma csends_read_ {A} (m : D A) w :
  preserves same_messages m → csends (on_db m) w (λ _ w', w'.1 = w.1 ∧ db_messages (ct_db w'.2) = db_messages (ct_db w.2)).
Proof. intros Hm. eapply csends_weaken; [|by apply csends_read]. by intros r w' _ _ (? & _ & _ & ?). Qed.

Lemma filters_sends w :
  csends (effectiveFilters F) w (λ _ w', w'.1 = w.1 ∧ db_messages (ct_db w'.2) = db_messages (ct_db w.2)).
Proof.
  destruct (ct_filters w.2) as [f|] eqn:Ef.
  { intros Hw. unfold effectiveFilters. rewrite Ef. split_and!; [done|reflexivity|done]. }
  match goal with |- csends _ _ ?Q => cut (csends (run r <- on_db (GetServerSetting (ce_db F) (ce_dbclock F) chatFiltersKey);
       match r with
       | Err _ => se_ret (ce_config F, true)
       | Ok (raw, _) =>
           let f := if String.eqb raw "" then (ce_config F, true)
                    else match ce_decode F raw with
                         | Some stored => (stored, false)
                         | None => (ce_config F, true)
                         end in
           run _ <- on_chat (λ c, (set_filters (Some f) c, ())); se_ret f
       end) w Q) end.
  { intros Hc Hw. unfold effectiveFilters. rewrite Ef. by apply Hc. }
  eapply csends_bind; [apply csends_read_, setting_reads|]. intros [[raw g]|e] w1 _ _ [Hs Hm]; [|by apply csends_ret].
  cbv zeta. set (f := if String.eqb raw "" then _ else _).
  eapply csends_bind; [by apply csends_chat|]. intros [] w2 _ _ [Hs2 Hc2]. apply csends_ret.
  rewrite Hs2. split; [done|]. apply (f_equal (ct_db ∘ fst)) in Hc2. simpl in Hc2. by rewrite <- Hm, Hc2.
Qed.

Lemma moderate_sends body w :
  csends (moderate F body) w (λ _ w', w'.1 = w.1 ∧ db_messages (ct_db w'.2) = db_messages (ct_db w.2)).
Proof. eapply csends_bind; [apply filters_sends|]. intros f w1 _ _ Hf. by apply csends_ret. Qed.

Lemma slow_mode_sends client ch w :
  csends (slow_mode E client ch) w (λ _ w', same_cm w.1 w'.1 ∧ ct_db w'.2 = ct_db w.2).
Proof.
  unfold slow_mode. destruct (ch =? 0); [by apply csends_ret|].
  eapply csends_bind; [apply csends_quiet, state_quiet|]. intros st w1 _ _ [Hcm1 Hc1].
  destruct (GetChannel ch st) as [c|]; [|apply csends_ret; by rewrite Hc1].
  destruct (_ <=? 0); [apply csends_ret; by rewrite Hc1|].
  eapply csends_bind; [apply csends_quiet, pc_quiet|]. intros pc w2 _ _ [Hcm2 Hc2]. cbv zeta.
  destruct (match pc with Ok _ => _ | Err _ => _ end).
  { apply csends_ret. split; [by etrans|by rewrite Hc2, Hc1]. }
  eapply csends_bind; [apply csends_quiet, time_quiet|]. intros now w3 _ _ [Hcm3 Hc3].
  eapply csends_weaken; [|apply csends_chat].
  - intros b w4 _ _ [Hs4 Hf4]. rewrite Hs4. split; [etrans; [done|]; by etrans|].
    destruct (slow_check _ _ _) as [last wait]. apply (f_equal (ct_db ∘ fst)) in Hf4. simpl in Hf4.
    by rewrite <- Hf4, Hc3, Hc2, Hc1.
  - intros c'. by destruct (slow_check _ _ _).
Qed.

Lemma spam_sends uid body w :
  csends (record_spam E F uid body) w (λ _ w', same_cm w.1 w'.1 ∧ ct_db w'.2 = ct_db w.2).
Proof.
  eapply csends_bind; [apply csends_quiet, time_quiet|]. intros now w1 _ _ [Hcm1 Hc1].
  eapply csends_weaken; [|apply csends_chat].
  - intros b w4 _ _ [Hs4 Hf4]. rewrite Hs4. split; [done|].
    destruct (spam_record _ _ _) as [l spam]. apply (f_equal (ct_db ∘ fst)) in Hf4. simpl in Hf4. by rewrite <- Hf4, Hc1.
  - intros c'. by destruct (spam_record _ _ _).
Qed.

(** The text an encrypted message stands for. *)
Definition stands_for (sc : Z) (enc : bool) (g : Z) (text plain : string) (k : CK) : Prop :=
  if enc then ∃ bytes, plain = string_of_bytes bytes ∧ sealed_ sc g bytes text k else plain = text.

Lemma stands_extends sc enc g text plain k k' :
  extends_ k k' → stands_for sc enc g text plain k → stands_for sc enc g text plain k'.
Proof.
  intros Hx. destruct enc; [|done]. intros (bytes & -> & Hs). exists bytes. split; [done|]. by eapply sealed_under_extends.
Qed.

Lemma decrypt_sends sc enc g text w :
  csends (decrypt E sc enc g text) w (λ p w', same_cm w.1 w'.1 ∧ w'.2 = w.2 ∧
    ∀ plain, p = Some plain → stands_for sc enc g text plain (sv_keys w'.1)).
Proof.
  unfold decrypt. destruct enc; [|apply csends_ret; split_and!; [done..|]; by intros plain [= <-]].
  apply csends_intro. intros Hw.
  eapply csends_bind; [apply csends_server; [apply sends_lookup, open_tables|apply open_run]|].
  intros r w1 _ _ [[Hcm Hr] Hc]. apply csends_ret. split_and!; [done..|]. intros plain.
  destruct r as [p|e]; [|done]. intros [= <-]. exists p. split; [done|].
  by destruct (spec_Ok _ _ _ _ _ _ _ _ (open_spec _ _ _ _ _ _ laws ring_ids sc g text _) (wi_keys _ Hw) Hr) as (_ & _ & Hs).
Qed.

Lemma seal_plain_sends sc plain w :
  csends (on_server (k_seal E sc (bytes_of_string plain))) w (λ r w', ∀ id ct, r = Ok (id, ct) →
    sealed_ sc id (bytes_of_string plain) ct (sv_keys w'.1)).
Proof.
  apply csends_intro. intros Hw. eapply csends_weaken;
    [|apply csends_server; [apply sends_lookup, seal_tables|apply seal_run]].
  intros r w1 _ _ [[Hcm Hr] Hc] id ct ->.
  by destruct (spec_Ok _ _ _ _ _ _ _ _ (seal_spec _ _ _ _ _ _ laws ring_ids sc _ _ (bytes_of_string_bytes plain))
    (wi_keys _ Hw) Hr) as (_ & _ & _ & Hs).
Qed.

(** A body that may be stored for the text [plain]. *)
Definition body_for (sc : Z) (plain body : string) (g : Z) (k : CK) : Prop :=
  ∃ bytes, string_of_bytes bytes = plain ∧ sealed_ sc g bytes body k.

Lemma body_extends sc plain body g k k' : extends_ k k' → body_for sc plain body g k → body_for sc plain body g k'.
Proof. intros Hx (bytes & Hp & Hs). exists bytes. split; [done|]. by eapply sealed_under_extends. Qed.

Lemma seal_body_sends sc msg plain w :
  known w.1 sc → stands_for sc (cs_Enc msg) (cs_KeyID msg) (cs_Text msg) plain (sv_keys w.1) →
  csends (seal_body E sc msg plain) w (λ r w', ∀ body g, r = Some (body, g) → body_for sc plain body g (sv_keys w'.1)).
Proof.
  intros Hk Hst. unfold seal_body. unfold stands_for in Hst. destruct (cs_Enc msg).
  { apply csends_ret. intros body g [= <- <-]. destruct Hst as (bytes & -> & Hs). by exists bytes. }
  eapply csends_bind; [apply csends_server; [apply (sends_keys E sc); [apply EnsureScope_scope|done]|apply Ensure_run]|].
  intros [a|e] w1 _ _ _; [|by apply csends_ret].
  eapply csends_bind; [apply seal_plain_sends|]. intros r w2 _ _ Hr. apply csends_ret. intros body g.
  destruct r as [[id ct]|e]; [|done]. intros [= <- <-]. exists (bytes_of_string plain).
  split; [apply string_of_bytes_of|by apply Hr].
Qed.

Lemma broadcast_event_sends sc ev w :
  csends (if sc =? 0 then on_server (effect_ (ToAll ev)) else on_server (broadcastChannelScoped E sc ev)) w (λ _ _, True).
Proof.
  destruct (sc =? 0); (eapply csends_weaken; [|apply (csends_server _ w (λ _ _, True))]); try done.
  - apply toall_sends.
  - apply effect_run.
  - apply broadcast_sends.
  - apply broadcast_run.
Qed.

Lemma check_reply_sends sc reply w : csends (check_reply F sc reply) w (λ _ w', w'.1 = w.1).
Proof.
  unfold check_reply. destruct (reply =? 0); [by apply csends_ret|].
  eapply csends_bind; [apply csends_read_, get_reads|]. intros r w1 _ _ [Hs _]. by apply csends_ret.
Qed.

Lemma store_sends ch from nick body key reply cid plain w :
  body_for ch plain body key (sv_keys w.1) → too_long F plain = false →
  csends (on_db (StoreChatMessage (ce_db F) (ce_dbclock F) ch from nick body key reply cid)) w (λ _ w', w'.1 = w.1).
Proof.
  intros (bytes & <- & Hs) Hl. eapply csends_weaken; [|apply csends_db].
  - by intros r w' _ _ (? & _).
  - apply store_keeps.
  - intros Hw id m Hm Hd. apply store_rows in Hm as [Hm|[n ->]]; [by apply (wi_rows _ Hw id)|]. by exists bytes.
Qed.

Lemma store_and_relay_sends client ch msg body key mentions plain w :
  body_for ch plain body key (sv_keys w.1) → too_long F plain = false →
  csends (store_and_relay E F client ch msg body key mentions) w (λ _ _, True).
Proof.
  intros Hb Hl. eapply csends_bind; [apply check_reply_sends|]. intros [[code text]|] w1 _ _ Hs1; [apply csends_refuse|].
  eapply csends_bind; [eapply store_sends; [by rewrite Hs1|done]|].
  intros [[id ins]|e] w2 _ _ _; [|apply csends_refuse]. destruct (negb ins); [by apply csends_ret|].
  apply broadcast_event_sends.
Qed.

Lemma route_sends client msg ch w : known w.1 ch → csends (routeScopedChat E F client msg ch) w (λ _ _, True).
Proof.
  intros Hk. eapply csends_bind; [apply slow_mode_sends|]. intros wait w1 _ Hr1 _. destruct wait; [apply csends_refuse|].
  eapply csends_bind; [apply decrypt_sends|]. intros [plain|] w2 _ Hr2 (_ & _ & Hst); [|apply csends_refuse].
  specialize (Hst plain eq_refl). destruct (too_long F plain) eqn:Hl; [apply csends_refuse|]. cbv zeta.
  eapply csends_bind; [apply moderate_sends|]. intros [text|] w3 _ Hr3 _; [apply csends_refuse|].
  eapply csends_bind; [apply spam_sends|]. intros spam w4 _ Hr4 _. destruct spam; [apply csends_refuse|].
  eapply csends_bind; [apply csends_quiet, mentions_quiet|]. intros mentions w5 _ Hr5 _.
  assert (wrun w2 w5) as H25 by (etrans; [done|]; by etrans).
  assert (wrun w w5) as H05 by (etrans; [done|]; by etrans).
  eapply csends_bind; [apply seal_body_sends|].
  - eapply known_run; [apply (wr_server _ _ H05)|done].
  - eapply stands_extends; [apply (wr_keys _ _ H25)|done].
  - intros [[body key]|] w6 _ _ Hb; [|apply csends_refuse]. eapply store_and_relay_sends; [by apply Hb|done].
Qed.

Lemma registered_wrun client w w' : wrun w w' → registered client w.1 → registered client w'.1.
Proof. intros Hr. by eapply registered_run, (wr_server _ _ Hr). Qed.

Lemma readable_sends client sc w :
  registered client w.1 →
  csends (on_server (scopeReadable E client sc)) w
    (λ ok w', same_cm w.1 w'.1 ∧ w'.2 = w.2 ∧ (ok = true → entitled E (sv_clients w'.1) (sv_state w'.1) (cn_ID client) sc)).
Proof.
  intros Hreg. eapply csends_weaken; [|apply csends_server; [by apply scopeReadable_sends|apply readable_run]].
  intros ok w' _ Hr [[Hcm Hok] Hc]. split_and!; [done..|]. intros Htrue.
  rewrite (ro_conns _ _ _ (wr_server _ _ Hr)). eapply entitled_cm; [done|]. by apply Hok.
Qed.

Lemma check_current_sends sc g w : csends (check_current E sc g) w (λ _ _, True).
Proof.
  eapply csends_bind; [apply csends_server; [apply sends_lookup, current_tables|apply current_run]|].
  intros r w1 _ _ _. by apply csends_ret.
Qed.

Lemma send_scoped_sends client msg ch w :
  registered client w.1 → csends (send_scoped E F client msg ch) w (λ _ _, True).
Proof.
  intros Hreg. eapply csends_bind with (Q := λ ok w', ok = true → known w'.1 ch).
  { destruct (Z.eqb_spec ch 0) as [->|Hne]; [apply csends_ret; intros _; by left|].
    eapply csends_weaken; [|by apply readable_sends]. intros ok w' Hw' _ (_ & _ & Hok) Htrue.
    eapply entitled_known; [apply Hw'|by apply Hok]. }
  intros ok w1 _ _ Hok. destruct ok; [|apply csends_refuse]. cbn [negb].
  eapply csends_bind with (Q := λ _ _, True).
  { destruct (cs_Enc msg); [apply check_current_sends|by apply csends_ret]. }
  intros [[code text]|] w2 _ Hr2 _; [apply csends_refuse|]. apply route_sends.
  eapply known_run; [apply (wr_server _ _ Hr2)|by apply Hok].
Qed.

Lemma csends_server_ {A} (m : H A) w :
  (∀ s, sends E m s (λ _ _, True)) → preserves (keys_run E) m → csends (on_server m) w (λ _ _, True).
Proof. intros Hm Hk. eapply csends_weaken; [|apply (csends_server m w (λ _ _, True))]; done. Qed.

Lemma direct_sends client to ev w : csends (on_server (deliver_direct E client to ev)) w (λ _ _, True).
Proof. apply csends_server_; [intros s; apply deliver_direct_sends|apply deliver_direct_run]. Qed.

Lemma send_direct_sends client msg w : csends (send_direct E F client msg) w (λ _ _, True).
Proof.
  eapply csends_bind; [apply csends_quiet, byID_quiet|]. intros target w1 _ _ _. cbv zeta.
  destruct (negb _); [|apply direct_sends].
  eapply csends_bind; [apply csends_quiet, byUID_quiet|]. intros [tc|] w2 _ _ _; [apply direct_sends|].
  intros Hw2. destruct (ce_lookupUser F _ _) as [id| |]; [|by apply csends_refuse..].
  destruct (negb _); [by apply csends_refuse|]. revert Hw2.
  match goal with |- winv w2 → winv (?m w2).1 ∧ _ => change (csends m w2 (λ _ _, True)) end.
  eapply csends_bind; [apply csends_read_, spool_reads|]. intros [r|e] w3 _ _ _; [by apply csends_ret|apply csends_refuse].
Qed.

Lemma handleChatSend_sends client msg w :
  registered client w.1 → csends (handleChatSend E F client msg) w (λ _ _, True).
Proof.
  intros Hreg. unfold handleChatSend. destruct msg as [msg|]; [|apply csends_refuse].
  destruct (cn_rulesPending client); [apply csends_refuse|]. case_decide; [apply csends_refuse|].
  destruct (negb _ && negb _); [apply csends_refuse|]. destruct (_ && _ && _); [apply csends_refuse|]. cbv zeta.
  eapply csends_bind; [apply csends_quiet, limit_quiet|]. intros limit w1 _ Hr1 _.
  eapply csends_bind; [apply csends_quiet, allowLimit_quiet|]. intros ok w2 _ Hr2 _.
  destruct (negb ok); [apply csends_refuse|]. destruct (_ || _); [apply send_direct_sends|].
  destruct (if String.eqb _ _ then _ else _) as [ch|]; [|apply csends_refuse]. apply send_scoped_sends.
  by do 2 (eapply registered_wrun; [done|]).
Qed.

Lemma deliverSpooled_sends client userID w : csends (deliverSpooled E F client userID) w (λ _ _, True).
Proof.
  eapply csends_bind; [apply csends_read_, pending_reads|]. intros [msgs|e] w1 _ _ _; [|by apply csends_ret].
  destruct (bool_decide _); [by apply csends_ret|].
  eapply csends_bind; [apply csends_server_; [intros s; apply deliver_spooled_sends|apply deliver_spooled_run]|].
  intros ids w2 _ _ _. eapply csends_bind; [apply csends_read_, mark_reads|]. intros r w3 _ _ _. by apply csends_ret.
Qed.

(** ** Filters *)

Lemma csends_write_ to m w : keys_in m = [] → csends (on_server (writeMessage E to m)) w (λ _ _, True).
Proof.
  intros Hm. apply csends_server_; [|apply write_run]. intros s. eapply sends_weaken; [|apply sends_write]; [done|].
  rewrite Hm. by intros k ?%elem_of_nil.
Qed.

Lemma filterGet_sends client w : csends (handleChatFilterGet E F client) w (λ _ _, True).
Proof.
  eapply csends_bind; [apply csends_quiet, pc_quiet|]. intros [pc|e] w1 _ _ _; [|apply csends_refuse].
  destruct (negb _); [apply csends_refuse|]. eapply csends_bind; [apply filters_sends|].
  intros f w2 _ _ _. by apply csends_write_.
Qed.

Lemma filterSet_sends client msg w : csends (handleChatFilterSet E F client msg) w (λ _ _, True).
Proof.
  unfold handleChatFilterSet. destruct msg as [msg|]; [|apply csends_refuse].
  eapply csends_bind; [apply csends_quiet, pc_quiet|]. intros [pc|e] w1 _ _ _; [|apply csends_refuse].
  destruct (negb _); [apply csends_refuse|]. eapply csends_bind; [apply filters_sends|]. intros f w2 _ _ _.
  destruct (update_filters F msg f.1) as [next|]; [|apply csends_refuse].
  eapply csends_bind; [apply csends_read_, set_setting_reads|]. intros [u|e] w3 _ _ _; [|apply csends_refuse].
  eapply csends_bind; [by apply csends_chat|]. intros [] w4 _ _ _.
  eapply csends_bind; [apply csends_server_; [|apply effect_run]|].
  { intros s. eapply sends_weaken; [|by apply sends_effect]. done. }
  intros [] w5 _ _ _. by apply csends_write_.
Qed.

(** ** History and pins *)

Lemma bundle_write_sends client sc pub gens (f : list ChannelKey * list Z * bool → Msg) w :
  (∀ b, keys_in (f b) = b.1.1) →
  entitled E (sv_clients w.1) (sv_state w.1) (cn_ID client) sc →
  csends (run b <- on_server (scopeKeyBundle E sc pub gens); on_server (writeMessage E (cn_ID client) (f b))) w
    (λ _ _, True).
Proof.
  intros Hf He. eapply csends_bind; [apply csends_server; [apply bundle_sends|apply bundle_run]|].
  intros b w1 _ Hr1 [[Hcm Hb] _].
  eapply csends_weaken; [|apply (csends_server _ w1 (λ _ _, True)); [|apply write_run]]; [done|].
  eapply sends_weaken; [|apply sends_write]; [done|]. intros k. rewrite Hf. intros Hk.
  rewrite (proj1 (Forall_forall _ _) Hb k Hk), (ro_conns _ _ _ (wr_server _ _ Hr1)). by eapply entitled_cm.
Qed.

Lemma entitled_same w w1 client sc :
  w1.1 = w.1 → entitled E (sv_clients w.1) (sv_state w.1) (cn_ID client) sc →
  entitled E (sv_clients w1.1) (sv_state w1.1) (cn_ID client) sc.
Proof. by intros ->. Qed.

Lemma history_sends client msg w : registered client w.1 → csends (handleChatHistory E F client msg) w (λ _ _, True).
Proof.
  intros Hreg. unfold handleChatHistory. destruct msg as [msg|]; [|apply csends_refuse].
  eapply csends_bind; [by apply readable_sends|]. intros ok w1 _ _ (_ & _ & He).
  destruct ok; [|apply csends_refuse]. specialize (He eq_refl). cbn [negb]. cbv zeta.
  eapply csends_bind; [apply csends_quiet, published_quiet|]. intros pub w2 _ Hr2 [Hcm2 _].
  assert (entitled E (sv_clients w2.1) (sv_state w2.1) (cn_ID client) (hr_ChannelID msg)) as He2.
  { rewrite (ro_conns _ _ _ (wr_server _ _ Hr2)). by eapply entitled_cm. }
  destruct (String.eqb pub ""); [apply csends_refuse|].
  eapply csends_bind; [apply csends_read_, history_reads|]. intros [msgs|e] w3 _ _ [Hs3 _]; [|apply csends_refuse].
  eapply csends_bind; [apply csends_read_, reactionsFor_reads|]. intros r w4 _ _ [Hs4 _].
  apply bundle_write_sends; [done|]. by do 2 (eapply entitled_same; [done|]).
Qed.

Lemma pins_sends client msg w : registered client w.1 → csends (handleChatPins E F client msg) w (λ _ _, True).
Proof.
  intros Hreg. unfold handleChatPins. destruct msg as [ch|]; [|apply csends_refuse].
  eapply csends_bind; [by apply readable_sends|]. intros ok w1 _ _ (_ & _ & He).
  destruct ok; [|apply csends_refuse]. specialize (He eq_refl). cbn [negb].
  eapply csends_bind; [apply csends_quiet, published_quiet|]. intros pub w2 _ Hr2 [Hcm2 _].
  assert (entitled E (sv_clients w2.1) (sv_state w2.1) (cn_ID client) ch) as He2.
  { rewrite (ro_conns _ _ _ (wr_server _ _ Hr2)). by eapply entitled_cm. }
  destruct (String.eqb pub ""); [apply csends_refuse|].
  eapply csends_bind; [apply csends_read_, pins_reads|]. intros [msgs|e] w3 _ _ [Hs3 _]; [|apply csends_refuse].
  cbv zeta. apply bundle_write_sends; [done|]. by eapply entitled_same.
Qed.

(** ** Edits, deletes, pins, reactions *)

Lemma edit_body_sends sc msg w :
  csends (edit_body E F sc msg) w (λ r w', ∀ body g, r = Ok (body, g) →
    ∃ plain, body_for sc plain body g (sv_keys w'.1) ∧ too_long F plain = false).
Proof.
  eapply csends_bind with (Q := λ _ _, True).
  { destruct (ed_Enc msg); [|by apply csends_ret].
    eapply csends_bind; [apply csends_server; [apply sends_lookup, current_tables|apply current_run]|].
    intros r w1 _ _ _. by apply csends_ret. }
  intros [e|] w1 _ _ _; [by apply csends_ret|].
  eapply csends_bind; [apply decrypt_sends|]. intros [plain|] w2 _ _ (_ & _ & Hst); [|by apply csends_ret].
  specialize (Hst plain eq_refl). destruct (too_long F plain) eqn:Hl; [by apply csends_ret|].
  eapply csends_bind; [apply moderate_sends|]. intros [text|] w3 _ Hr3 _; [by apply csends_ret|].
  apply (stands_extends _ _ _ _ _ _ _ (wr_keys _ _ Hr3)) in Hst. unfold stands_for in Hst.
  destruct (ed_Enc msg).
  - apply csends_ret. intros body g [= <- <-]. exists plain. split; [|done]. destruct Hst as (bytes & -> & Hs).
    by exists bytes.
  - eapply csends_bind; [apply seal_plain_sends|]. intros r w4 _ _ Hr. apply csends_ret. intros body g.
    destruct r as [[id ct]|e]; [|done]. intros [= <- <-]. exists plain. split; [|done].
    exists (bytes_of_string plain). split; [apply string_of_bytes_of|by apply Hr].
Qed.

Lemma edit_sends client msg w : csends (handleChatEdit E F client msg) w (λ _ _, True).
Proof.
  unfold handleChatEdit. destruct msg as [msg|]; [|apply csends_refuse].
  destruct (negb _ && negb _); [apply csends_refuse|].
  eapply csends_bind; [apply csends_read, get_reads|]. intros r w1 _ _ (_ & Hget & _ & Hmsgs).
  destruct r as [[stored|]|e]; [|apply csends_refuse..].
  assert (db_messages (ct_db w1.2) !! ed_MessageID msg = Some stored) as Hstored.
  { rewrite Hmsgs. eapply get_lookup, Hget. }
  case_bool_decide; [apply csends_refuse|]. destruct (negb _); [apply csends_refuse|].
  eapply csends_bind; [apply edit_body_sends|]. intros [[body g]|[code text]] w2 _ Hr2 Hb; [|apply csends_refuse].
  destruct (Hb body g eq_refl) as (plain & (bytes & <- & Hs) & Hl).
  destruct (gr_rows _ _ (wr_db _ _ Hr2) _ _ Hstored) as (m0 & Hm0 & Hev).
  eapply csends_bind with (Q := λ _ _, True).
  { eapply csends_weaken; [|apply csends_db]; [done|apply edit_keeps|].
    intros Hw id m Hm Hd. apply edit_rows in Hm as [Hm|(m1 & Hm1 & Hch & Hbody & Hkey)]; [by apply (wi_rows _ Hw id)|].
    assert (m1 = m0) as -> by congruence. exists bytes. split; [|done].
    by rewrite Hch, Hbody, Hkey, (ev_channel _ _ Hev). }
  intros [v|[]] w3 _ _ _; [|apply csends_refuse..]. apply broadcast_event_sends.
Qed.

Lemma delete_allowed_sends client author w : csends (delete_allowed E client author) w (λ _ _, True).
Proof.
  unfold delete_allowed. destruct (String.eqb _ _); [by apply csends_ret|].
  eapply csends_bind; [apply csends_quiet, pc_quiet|]. intros pc w1 _ _ _. by apply csends_ret.
Qed.

Lemma delete_sends client msg w : csends (handleChatDelete E F client msg) w (λ _ _, True).
Proof.
  unfold handleChatDelete. destruct msg as [id0|]; [|apply csends_refuse].
  eapply csends_bind; [apply csends_read_, get_reads|]. intros [[stored|]|e] w1 _ _ _; [|apply csends_refuse..].
  case_bool_decide; [apply csends_refuse|]. eapply csends_bind; [apply delete_allowed_sends|].
  intros [[code text]|] w2 _ _ _; [apply csends_refuse|].
  eapply csends_bind with (Q := λ _ _, True).
  { eapply csends_weaken; [|apply csends_db]; [done|apply delete_keeps|].
    intros Hw id m Hm Hd. apply delete_rows in Hm as [Hm|?]; [by apply (wi_rows _ Hw id)|done]. }
  intros [u|e] w3 _ _ _; [|apply csends_refuse]. apply broadcast_event_sends.
Qed.

Lemma change_pin_sends client msg w : csends (change_pin F client msg) w (λ _ _, True).
Proof.
  unfold change_pin. destruct (pin_Pinned msg).
  - eapply csends_bind; [apply csends_read_, get_reads|]. intros [[stored|]|e] w1 _ _ _; [|by apply csends_ret..].
    case_bool_decide; [by apply csends_ret|]. destruct (negb _); [by apply csends_ret|].
    eapply csends_bind; [apply csends_read_, pin_reads|]. intros r w2 _ _ _. by apply csends_ret.
  - eapply csends_bind; [apply csends_read_, unpin_reads|]. intros r w2 _ _ _. by apply csends_ret.
Qed.

Lemma pin_sends client msg w : csends (handleChatPin E F client msg) w (λ _ _, True).
Proof.
  unfold handleChatPin. destruct msg as [msg|]; [|apply csends_refuse].
  eapply csends_bind; [apply csends_quiet, pc_quiet|]. intros [pc|e] w1 _ _ _; [|apply csends_refuse].
  destruct (negb _); [apply csends_refuse|]. eapply csends_bind; [apply change_pin_sends|].
  intros [[code text]|] w2 _ _ _; [apply csends_refuse|apply broadcast_event_sends].
Qed.

Lemma react_sends client msg w : csends (handleChatReact E F client msg) w (λ _ _, True).
Proof.
  unfold handleChatReact. destruct msg as [[id emoji]|]; [|apply csends_refuse].
  destruct (_ || _); [apply csends_refuse|].
  eapply csends_bind; [apply csends_read_, get_reads|]. intros [[stored|]|e] w1 _ _ _; [|apply csends_refuse..].
  case_bool_decide; [apply csends_refuse|].
  eapply csends_bind; [apply csends_read_, toggle_reads|]. intros [[counts added]|e] w2 _ _ _; [|apply csends_refuse].
  apply broadcast_event_sends.
Qed.

(** ** Indicators and receipts *)

Lemma to_client_sends to ev w : csends (on_server (BroadcastToClient_ E to ev)) w (λ _ _, True).
Proof.
  apply csends_server_; [|apply toclient_run]. intros s. eapply sends_weaken; [|apply sends_toclient]. done.
Qed.

Lemma typing_sends client msg w : registered client w.1 → csends (handleTyping E client msg) w (λ _ _, True).
Proof.
  intros Hreg. unfold handleTyping. destruct msg as [msg|]; [|apply csends_refuse].
  eapply csends_bind; [apply csends_quiet, time_quiet|]. intros now w1 _ Hr1 _.
  eapply csends_bind; [apply csends_chat|].
  { intros c. by destruct (typing_allow _ _ _). }
  intros ok w2 _ Hr2 _. cbv zeta. destruct (negb ok); [by apply csends_ret|].
  destruct (negb _).
  { eapply csends_bind; [apply csends_quiet, byUID_quiet|]. intros [tc|] w3 _ _ _; [|by apply csends_ret].
    eapply csends_bind; [apply to_client_sends|]. intros b w4 _ _ _. by apply csends_ret. }
  destruct (negb _).
  - eapply csends_bind; [apply readable_sends; by do 2 (eapply registered_wrun; [done|])|].
    intros rd w3 _ _ _. destruct (negb rd); [by apply csends_ret|].
    apply csends_server_; [intros s; apply broadcast_sends|apply broadcast_run].
  - apply csends_server_; [intros s; apply toall_sends|apply effect_run].
Qed.

Lemma receipt_sends client read msg w : csends (relayReceipt E client read msg) w (λ _ _, True).
Proof.
  unfold relayReceipt. destruct (String.eqb _ _); [apply csends_refuse|].
  eapply csends_bind; [apply csends_quiet, byUID_quiet|]. intros [tc|] w1 _ _ _; [|by apply csends_ret].
  eapply csends_bind; [apply to_client_sends|]. intros b w4 _ _ _. by apply csends_ret.
Qed.
End relay.
