(* ===== verification/ChatProps.v ===== *)
(** * What the chat relay promises

    Every chat request and every request of [ChatScopeProps] as one function
    [chat_serve], and what its runs guarantee: whatever is stored stays readable
    and was moderated, what is relayed is what was stored, and scope keys stay
    with the clients that may read the scope. *)

From S2P Require Import Prelude Permissions StateManager StateInvariant StateSpec PermLoader PermCache PermCheck ChannelManager Wire GoState Base64 ChatKeys ChatKeysSafety ChatText ServerWorld ChatScope ClientMoves ChatScopeSafety ChatScopeProps ChatStore ChatRelay ChatHandlers ChatStoreProps ChatSafety.

Inductive chat_request :=
| CSend (c : Conn) (msg : option ChatSend)
| CHistory (c : Conn) (msg : option ChatHistoryReq)
| CPins (c : Conn) (msg : option Z)
| CEdit (c : Conn) (msg : option ChatEdit)
| CDelete (c : Conn) (msg : option Z)
| CPin (c : Conn) (msg : option ChatPin)
| CReact (c : Conn) (msg : option (Z * string))
| CTyping (c : Conn) (msg : option TypingMsg)
| CDelivered (c : Conn) (msg : option ReceiptMsg)
| CRead (c : Conn) (msg : option ReceiptMsg)
| CFilterGet (c : Conn)
| CFilterSet (c : Conn) (msg : option ChatFilterSet)
| CSpooled (c : Conn) (userID : Z)
| CServer (r : request).

Section props.
Context (E : Env) (F : ChatEnv).
Context `{!∀ V, MapRange Z V, !∀ V, MapRange (Z * Z) V, !∀ V, MapRange string V}.
Implicit Types (s : Server) (w : Server * Chat).

Definition chat_serve (r : chat_request) : C () :=
  match r with
  | CSend c msg => handleChatSend E F c msg
  | CHistory c msg => handleChatHistory E F c msg
  | CPins c msg => handleChatPins E F c msg
  | CEdit c msg => handleChatEdit E F c msg
  | CDelete c msg => handleChatDelete E F c msg
  | CPin c msg => handleChatPin E F c msg
  | CReact c msg => handleChatReact E F c msg
  | CTyping c msg => handleTyping E c msg
  | CDelivered c msg => handleChatDelivered E c msg
  | CRead c msg => handleChatRead E c msg
  | CFilterGet c => handleChatFilterGet E F c
  | CFilterSet c msg => handleChatFilterSet E F c msg
  | CSpooled c userID => deliverSpooled E F c userID
  | CServer r => on_server (serve E r)
  end.

(** A request comes from a connection of the server. *)
Definition chat_admissible (r : chat_request) w : Prop :=
  match r with
  | CSend c _ | CHistory c _ | CPins c _ | CEdit c _ | CDelete c _ | CPin c _ | CReact c _ | CTyping c _
  | CDelivered c _ | CRead c _ | CFilterGet c | CFilterSet c _ | CSpooled c _ => registered c w.1
  | CServer r => admissible r w.1
  end.

Definition cstep w w' : Prop := ∃ r, chat_admissible r w ∧ w' = (chat_serve r w).1.

#[local] Abbreviation winv_ := (winv E F).
#[local] Abbreviation wrun_ := (wrun E).
#[local] Abbreviation open_ := (open (env_db E) (env_Open E) (env_has_store E) (env_kek E)).

Section laws.
Context (laws : CryptoLaws (env_rnd E) (env_Seal E) (env_Open E)).
Context (ring_ids : ∀ ring, env_kek E = Some ring → 0 ≤ kr_newest ring < 2 ^ 16).

Lemma chat_serve_sends r w : chat_admissible r w → csends E F (chat_serve r) w (λ _ _, True).
Proof.
  destruct r; simpl; intros Ha.
  - by apply handleChatSend_sends.
  - by apply history_sends.
  - by apply pins_sends.
  - by apply edit_sends.
  - by apply delete_sends.
  - by apply pin_sends.
  - by apply react_sends.
  - by apply typing_sends.
  - unfold handleChatDelivered. destruct msg; [by apply receipt_sends|by apply csends_refuse].
  - unfold handleChatRead. destruct msg; [by apply receipt_sends|by apply csends_refuse].
  - by apply filterGet_sends.
  - by apply filterSet_sends.
  - by apply deliverSpooled_sends.
  - eapply csends_weaken; [|apply (csends_server E F laws ring_ids _ w (λ _ _, True)); [by apply serve_sends|apply serve_run]].
    done.
Qed.

Lemma csteps_inv w w' : rtc cstep w w' → winv_ w → winv_ w' ∧ wrun_ w w'.
Proof.
  induction 1 as [w|w1 w2 w3 (r & Ha & ->) _ IH]; intros Hw; [split; [done|reflexivity]|].
  destruct (chat_serve_sends r w1 Ha Hw) as (Hw2 & Hr & _). destruct (IH Hw2) as [Hw3 Hr3]. split; [done|by etrans].
Qed.
End laws.

(** Whatever requests the server serves (messages, edits, key rotations, moves,
    disconnects, with database and write failures anywhere), every message that is
    stored and not deleted can be opened: [open] with the generation its row names
    answers a text within the length limit, provided the two database calls it
    makes are answered. *)
Theorem chat_stays_readable w w' id m :
  CryptoLaws (env_rnd E) (env_Seal E) (env_Open E) →
  (∀ ring, env_kek E = Some ring → 0 ≤ kr_newest ring < 2 ^ 16) →
  winv_ w → rtc cstep w w' →
  db_messages (ct_db w'.2) !! id = Some m → msg_DeletedAt m = None →
  env_db E (ck_calls (sv_keys w'.1)) = DbOk → env_db E (S (ck_calls (sv_keys w'.1))) = DbOk →
  ∃ plain, (open_ (msg_ChannelID m) (msg_KeyID m) (msg_BodyEnc m) (sv_keys w'.1)).2 = Ok plain ∧
    too_long F (string_of_bytes plain) = false.
Proof.
  intros laws ids Hw Hsteps Hm Hd Hdb Hdb2. destruct (csteps_inv laws ids w w' Hsteps Hw) as [Hw' _].
  destruct (wi_rows _ _ _ Hw' id m Hm Hd) as (plain & Hs & Hl). exists plain. split; [|done].
  eapply open_ok; [done..| |done|done|done]. apply (wi_keys _ _ _ Hw').
Qed.

(** C7: whatever requests the server serves, history and pin pages included, the
    scope keys it writes go to clients that, in the state they are written in, may
    read the scope. *)
Theorem chat_keys_confined r w :
  CryptoLaws (env_rnd E) (env_Seal E) (env_Open E) →
  (∀ ring, env_kek E = Some ring → 0 ≤ kr_newest ring < 2 ^ 16) →
  winv_ w → chat_admissible r w →
  let w' := (chat_serve r w).1 in
  ∃ l, sv_log w'.1 = sv_log w.1 ++ l ∧
    ∀ st to m k, Wrote st to m ∈ l → k ∈ keys_in m → entitled E (sv_clients w.1) st to (cky_ChannelID k).
Proof.
  intros laws ids Hw Ha. destruct (chat_serve_sends laws ids r w Ha Hw) as (_ & [[_ _ Hlog _] _ _] & _). exact Hlog.
Qed.
End props.

(** ** A message sent and read back *)

Section demo.
#[local] Instance demo_range_z V : MapRange Z V := stdpp_range.
#[local] Instance demo_range_zz V : MapRange (Z * Z) V := stdpp_range.
#[local] Instance demo_range_s V : MapRange string V := stdpp_range.

Definition demo_filters : chatFilters := {| cf_WordFilter := "spam"; cf_LinkBlacklist := ""; cf_LinkWhitelist := "" |}.

Definition demo_chat_env : ChatEnv := {|
  ce_text := {| te_ToLower := λ s, s; te_TrimSpace := λ s, s; te_url_Hostname := λ _, None |};
  ce_maxLength := 100; ce_allowPlaintext := true; ce_config := demo_filters;
  ce_db := λ _, DbOk; ce_dbclock := λ _, 0; ce_clock := λ _, 0; ce_userExists := λ _, true; ce_nickname := λ _, "";
  ce_lookupUser := λ _ _, UserNotFound; ce_digest := λ s, s; ce_encode := λ _, ""; ce_decode := λ _, None;
  ce_runeCount := String.length |}.

Definition demo_chat : Chat :=
  mkChat ChatDB_start None ∅ ∅ {| tt_last := ∅; tt_lastCleanup := None |}.

Lemma demo_winv : winv demo_env demo_chat_env (demo_server, demo_chat).
Proof.
  split; [exact demo_world|apply start_ckinv|exact start_dbinv|]. by intros id m Hm.
Qed.

(** "alice", who stands in channel 1, says "hi" there. *)
Definition demo_msg : ChatSend := {| cs_ChannelID := "1"; cs_ToClientID := ""; cs_ToUniqueID := ""; cs_Text := "hi";
  cs_Enc := false; cs_KeyID := 0; cs_ReplyToID := 0; cs_ClientMsgID := "" |}.

Lemma demo_stored :
  msg_DeletedAt <$> db_messages (ct_db (handleChatSend demo_env demo_chat_env alice (Some demo_msg) (demo_server, demo_chat)).1.2) !! 1
    = Some None.
Proof. by vm_compute. Qed.

Lemma chat_stays_readable_witness :
  let w' := (chat_serve demo_env demo_chat_env (CSend alice (Some demo_msg)) (demo_server, demo_chat)).1 in
  ∃ m plain, db_messages (ct_db w'.2) !! 1 = Some m ∧
    (open (env_db demo_env) toy_Open true toy_ring (msg_ChannelID m) (msg_KeyID m) (msg_BodyEnc m) (sv_keys w'.1)).2 = Ok plain.
Proof.
  cbv zeta. set (w' := (chat_serve _ _ _ _).1).
  pose proof demo_stored as Hn. change (handleChatSend _ _ _ _ _).1 with w' in Hn.
  destruct (db_messages (ct_db w'.2) !! 1) as [m|] eqn:Hm; [|done].
  destruct (chat_stays_readable demo_env demo_chat_env (demo_server, demo_chat) w' 1 m) as (plain & Hp & _).
  - exact toy_laws.
  - exact toy_ids.
  - exact demo_winv.
  - apply rtc_once. exists (CSend alice (Some demo_msg)). split; [|done]. by vm_compute.
  - exact Hm.
  - by injection Hn.
  - done.
  - done.
  - exists m, plain. split; [reflexivity|exact Hp].
Defined.

Lemma chat_keys_confined_witness :
  let w' := (chat_serve demo_env demo_chat_env (CServer (RRotation 2)) (demo_server, demo_chat)).1 in
  ∃ l, sv_log w'.1 = l ∧ length l = 1%nat ∧
    ∀ st to m k, Wrote st to m ∈ l → k ∈ keys_in m →
      entitled demo_env (sv_clients demo_server) st to (cky_ChannelID k).
Proof.
  destruct (chat_keys_confined demo_env demo_chat_env (CServer (RRotation 2)) (demo_server, demo_chat)) as (l & Hl & Hall).
  - exact toy_laws.
  - exact toy_ids.
  - exact demo_winv.
  - simpl. apply elem_of_dom, is_Some_alt. by vm_compute.
  - exists l. split_and!; [exact Hl| |exact Hall].
    apply (f_equal length) in Hl. rewrite length_app in Hl. simpl in Hl. rewrite <- Hl. by vm_compute.
Defined.

(** ** Where the relay differs from what it says *)

#[local] Abbreviation demo_after r w := (chat_serve demo_env demo_chat_env r w).1.

(** A message that mentions "@alice" also notifies a user called "al":
    [parseMentions] looks for the nickname anywhere behind an "@". *)
Lemma mention_matches_prefix :
  let al := mkClient "c9" "uid-al" "al" 1 true false "" "" "" false 0 None None in
  mentioned_by_name demo_chat_env "hello @alice" al = true.
Proof. by vm_compute. Qed.

(** The indicator of a direct conversation carries the channel id the client sent,
    where the event's contract says 0. *)
Lemma direct_typing_names_channel :
  let msg := {| ty_ChannelID := 2; ty_ToUniqueID := "alice" |} in
  ∃ st, sv_log (demo_after (CTyping alice (Some msg)) (demo_server, demo_chat)).1 =
    [ToClient st "alice" (EvTyping "alice" "alice" "alice" 2) true].
Proof. eexists. vm_compute. reflexivity. Qed.

(** "mallory" is connected, stands in no channel and has no subscription. *)
Definition mallory : Conn := {| cn_ID := "mallory"; cn_UniqueID := "mallory"; cn_Username := "mallory"; cn_userID := 8;
  cn_isAdmin := false; cn_authed := true; cn_rulesPending := false |}.

(** A reaction is taken, and relayed to the channel, from a client that may not
    read the channel. *)
Lemma outsider_may_react :
  let w := demo_after (CSend alice (Some demo_msg)) (demo_server, demo_chat) in
  (scopeReadable demo_env mallory 1 w.1).2 = Ok false ∧
  bool_decide ((1, "mallory", "+") ∈ db_reactions (ct_db (demo_after (CReact mallory (Some (1, "+"))) w).2)) = true.
Proof. split; vm_compute; reflexivity. Qed.

(** A failed read of the stored lists followed by a successful update replaces all
    three stored lists: the lists the update does not name fall back to the
    configured ones. *)
Definition flaky_chat_env : ChatEnv := {|
  ce_text := ce_text demo_chat_env; ce_maxLength := 100; ce_allowPlaintext := true; ce_config := demo_filters;
  ce_db := λ n, match n with O => DbFailed | _ => DbOk end;
  ce_dbclock := λ _, 0; ce_clock := λ _, 0; ce_userExists := λ _, true; ce_nickname := λ _, "";
  ce_lookupUser := λ _ _, UserNotFound; ce_digest := λ s, s;
  ce_encode := λ f, cf_WordFilter f +:+ "|" +:+ cf_LinkBlacklist f; ce_decode := λ _, None;
  ce_runeCount := String.length |}.

Lemma filter_update_forgets_lists :
  let stored := set_settings <[chatFiltersKey := ("spam|evil.example", 0)]> ChatDB_start in
  let w := (demo_server, set_chatdb stored demo_chat) in
  let admin := {| cn_ID := "alice"; cn_UniqueID := "alice"; cn_Username := "alice"; cn_userID := 7;
                  cn_isAdmin := true; cn_authed := true; cn_rulesPending := false |} in
  let msg := {| fs_WordFilter := Some "ham"; fs_LinkBlacklist := None; fs_LinkWhitelist := None |} in
  db_settings (ct_db (handleChatFilterSet demo_env flaky_chat_env admin (Some msg) w).1.2) !! chatFiltersKey =
    Some ("ham|", 0).
Proof. vm_compute. reflexivity. Qed.
End demo.

(** * What the chat limiters guarantee ([src/internal/server/chatx.go])

    The token buckets of [chatRateLimiter] bound how many actions a user gets
    through in any stretch of time, slow mode keeps the messages of a user in a
    channel apart, and the spam tracker lets two equal messages through in half a
    minute at most. *)

(** ** One bucket *)

(** Calls at the given times with the given limits, and their answers. *)
Fixpoint bucket_run (window : Z) (b : option chatBucket) (calls : list (Z * Z)) : list (Z * bool) :=
  match calls with
  | [] => []
  | (now, limit) :: calls =>
      let '(b, ok) := take_token b limit window now in
      (now, ok) :: bucket_run window (Some b) calls
  end.

(** The calls that got through between [a] and [a + window]. *)
Definition got_through (a window : Z) (c : Z * bool) : Prop := c.2 = true ∧ a <= c.1 <= a + window.
#[export] Instance got_through_dec a window c : Decision (got_through a window c).
Proof. unfold got_through. apply _. Defined.
Definition let_through (a window : Z) (l : list (Z * bool)) : list (Z * bool) := filter (got_through a window) l.

Definition tokens_left (b : option chatBucket) : Z := match b with Some b => Z.max 0 (bk_tokens b) | None => 0 end.

Section bucket.
Context (window a L : Z).

#[local] Abbreviation count b calls := (Z.of_nat (length (let_through a window (bucket_run window b calls)))).

Definition after (t : Z) (calls : list (Z * Z)) : Prop := Forall (λ c, t <= c.1) calls.
Definition sorted_calls (calls : list (Z * Z)) : Prop := StronglySorted (λ c d, c.1 <= d.1) calls.
Definition limits_ok (calls : list (Z * Z)) : Prop := Forall (λ c, 0 < c.2 <= L) calls.

Lemma let_through_cons t ok l :
  let_through a window ((t, ok) :: l) =
    if decide (got_through a window (t, ok)) then (t, ok) :: let_through a window l else let_through a window l.
Proof. apply filter_cons. Qed.

Lemma count_late b calls : after (a + window + 1) calls → count b calls = 0.
Proof.
  intros Hl. revert b. induction Hl as [|[t l] calls Ht Hl IH]; intros b; [done|]. simpl.
  destruct (take_token b l window t) as [b' ok]. rewrite let_through_cons. simpl in Ht.
  rewrite decide_False by (unfold got_through; simpl; lia). apply IH.
Qed.

(** The call at [now], when the bucket is still running. *)
Lemma take_running b l now :
  now <= bk_reset b →
  take_token (Some b) l window now =
    if bk_tokens b <=? 0 then (b, false)
    else ({| bk_tokens := bk_tokens b - 1; bk_reset := bk_reset b |}, true).
Proof. intros Ht. unfold take_token. by rewrite (proj2 (Z.ltb_ge _ _)) by done. Qed.

Lemma count_one_bucket b calls :
  sorted_calls calls → a + window <= bk_reset b → count (Some b) calls <= Z.max 0 (bk_tokens b).
Proof.
  intros Hs. revert b. induction Hs as [|[t l] calls Hs IH Hall]; intros b Hr; [simpl; lia|].
  destruct (decide (t <= bk_reset b)) as [Ht|Ht].
  - cbn [bucket_run]. rewrite take_running by done. destruct (Z.leb_spec (bk_tokens b) 0) as [H0|H0].
    + rewrite let_through_cons, decide_False by (by intros [? ?]). by apply IH.
    + rewrite let_through_cons. pose proof (IH {| bk_tokens := bk_tokens b - 1; bk_reset := bk_reset b |} Hr) as Hi.
      simpl in Hi. case_decide; cbn [length]; lia.
  - assert (after (a + window + 1) ((t, l) :: calls)) as Hlate.
    { constructor; [simpl; lia|]. eapply Forall_impl; [done|]. simpl. intros c Hc. lia. }
    rewrite count_late by done. lia.
Qed.

Lemma count_from_a b calls :
  sorted_calls calls → limits_ok calls → after a calls → 0 <= L →
  count b calls <= tokens_left b + L.
Proof.
  intros Hs. revert b. induction Hs as [|[t l] calls Hs IH Hall]; intros b Hl Ha HL.
  { destruct b; simpl; lia. }
  apply Forall_cons in Hl as [Hl1 Hl]. apply Forall_cons in Ha as [Ha1 Ha]. simpl in Hl1, Ha1.
  assert ((∃ b0, b = Some b0 ∧ t <= bk_reset b0) ∨
          take_token b l window t = ({| bk_tokens := l - 1; bk_reset := t + window |}, true)) as [(b0 & -> & Ht)|Hf].
  { destruct b as [b0|]; [destruct (decide (t <= bk_reset b0)); [left; eauto|]|]; right; unfold take_token.
    - rewrite (proj2 (Z.ltb_lt _ _)) by lia. simpl. by rewrite (proj2 (Z.leb_gt _ _)) by lia.
    - simpl. by rewrite (proj2 (Z.leb_gt _ _)) by lia. }
  - cbn [bucket_run]. rewrite take_running by done. destruct (Z.leb_spec (bk_tokens b0) 0) as [H0|H0].
    + rewrite let_through_cons, decide_False by (by intros [? ?]). by apply IH.
    + pose proof (IH (Some {| bk_tokens := bk_tokens b0 - 1; bk_reset := bk_reset b0 |}) Hl Ha HL) as Hi.
      simpl in *. rewrite let_through_cons. case_decide; cbn [length]; lia.
  - cbn [bucket_run]. rewrite Hf. rewrite let_through_cons.
    pose proof (count_one_bucket {| bk_tokens := l - 1; bk_reset := t + window |} calls Hs) as Hi. simpl in Hi.
    assert (0 <= tokens_left b) by (destruct b; simpl; lia).
    case_decide; cbn [length]; lia.
Qed.

Lemma take_token_left b l now : 0 <= L → 0 < l <= L → tokens_left b <= L → tokens_left (Some (take_token b l window now).1) <= L.
Proof.
  intros HL Hl Hb. unfold take_token.
  destruct b as [b|]; [destruct (bk_reset b <? now)|]; simpl in *;
    repeat (match goal with |- context [?x <=? 0] => destruct (Z.leb_spec x 0) end); simpl; lia.
Qed.

Lemma bucket_bound b calls :
  sorted_calls calls → limits_ok calls → 0 <= L → tokens_left b <= L → count b calls <= 2 * L.
Proof.
  intros Hs. revert b. induction Hs as [|[t l] calls Hs IH Hall]; intros b Hl HL Hb; [simpl; lia|].
  destruct (decide (a <= t)) as [Ht|Ht].
  - assert (after a ((t, l) :: calls)) as Ha.
    { constructor; [done|]. eapply Forall_impl; [done|]. simpl. intros c Hc. lia. }
    pose proof (count_from_a b ((t, l) :: calls) ltac:(by constructor) Hl Ha HL). lia.
  - apply Forall_cons in Hl as [Hl1 Hl]. cbn [bucket_run].
    pose proof (take_token_left b l t HL Hl1 Hb) as Hb'. destruct (take_token b l window t) as [b' ok].
    rewrite let_through_cons, decide_False by (unfold got_through; simpl; lia). by apply IH.
Qed.
End bucket.

(** ** The limiter *)

Section limiter.
Context (E : Env).
Implicit Types s : Server.

(** A run of chat actions, each by a user with its limit: when each was made and
    whether it got through. *)
Fixpoint allow_run (calls : list (string * Z)) : H (list (string * Z * bool)) :=
  match calls with
  | [] => se_ret []
  | (uid, limit) :: calls =>
      run s <- se_get;
      run ok <- allowLimit E uid limit;
      run r <- allow_run calls;
      se_ret ((uid, env_clock E (sv_reads s), ok) :: r)
  end.

Definition of_user (uid : string) (l : list (string * Z * bool)) : list (Z * bool) :=
  omap (λ '(v, t, ok), if decide (v = uid) then Some (t, ok) else None) l.

(** The user's calls with the limits in force. *)
Fixpoint user_calls (uid : string) (n : nat) (calls : list (string * Z)) : list (Z * Z) :=
  match calls with
  | [] => []
  | (v, limit) :: calls =>
      let rest := user_calls uid (S n) calls in
      if decide (v = uid) then (env_clock E n, if limit <=? 0 then env_rate_max E else limit) :: rest else rest
  end.

Lemma allowLimit_eq uid limit s :
  let r := take_token (sv_buckets s !! uid) (if limit <=? 0 then env_rate_max E else limit)
             (env_rate_window E) (env_clock E (sv_reads s)) in
  allowLimit E uid limit s = (set_buckets <[uid := r.1]> (tick_read s), Ok r.2).
Proof.
  unfold allowLimit, se_bind, time_Now. cbn [sv_buckets tick_read].
  by destruct (take_token _ _ _ _).
Qed.

(** What the limiter does for one user is a run of its bucket. *)
Lemma allow_run_user uid calls s :
  ∃ s' r, allow_run calls s = (s', Ok r) ∧
    of_user uid r = bucket_run (env_rate_window E) (sv_buckets s !! uid) (user_calls uid (sv_reads s) calls).
Proof.
  revert s. induction calls as [|[v limit] calls IH]; intros s; [by eexists _, []|].
  cbn [allow_run user_calls]. unfold se_bind at 1, se_get. unfold se_bind at 1. rewrite allowLimit_eq.
  set (t := take_token (sv_buckets s !! v) _ _ _). destruct t as [b ok] eqn:Eb. cbn [fst snd].
  set (s1 := set_buckets _ _). destruct (IH s1) as (s2 & r & Hrun & Hr). unfold se_bind. rewrite Hrun.
  do 2 eexists. split; [done|]. unfold of_user in *. cbn [omap list_omap].
  destruct (decide (v = uid)) as [->|Hne].
  - cbn [bucket_run]. subst t. rewrite Eb. f_equal. rewrite Hr. subst s1. simpl. by rewrite lookup_insert_eq.
  - rewrite Hr. subst s1. simpl. by rewrite lookup_insert_ne.
Qed.

Context (mono : ∀ i j, (i <= j)%nat → env_clock E i <= env_clock E j).

Lemma user_calls_sorted uid n calls : sorted_calls (user_calls uid n calls).
Proof.
  revert n. induction calls as [|[v l] calls IH]; intros n; [constructor|]. cbn [user_calls].
  destruct (decide (v = uid)); [|apply IH]. constructor; [apply IH|]. clear IH.
  assert (∀ m, (n <= m)%nat → Forall (λ d, env_clock E n <= d.1) (user_calls uid m calls)) as Hall.
  { induction calls as [|[v' l'] calls IH']; intros m Hm; [constructor|]. cbn [user_calls].
    destruct (decide (v' = uid)); [constructor; [simpl; by apply mono|]|]; apply IH'; lia. }
  apply Hall. lia.
Qed.

(** Whatever the users do, in no stretch of time as long as the limiter's
    window does a user get more than twice its largest limit through. *)
Theorem chat_rate_bounded uid a L calls s :
  0 < env_rate_max E <= L →
  Forall (λ c, c.1 = uid → c.2 <= L) calls →
  tokens_left (sv_buckets s !! uid) <= L →
  ∃ s' r, allow_run calls s = (s', Ok r) ∧
    Z.of_nat (length (let_through a (env_rate_window E) (of_user uid r))) <= 2 * L.
Proof.
  intros Hmax Hlimits Htokens. destruct (allow_run_user uid calls s) as (s' & r & Hrun & Hr).
  exists s', r. split; [done|]. rewrite Hr. apply bucket_bound; [apply user_calls_sorted| |lia|done].
  generalize (sv_reads s). clear -Hmax Hlimits. induction Hlimits as [|[v l] calls Hc Hl IH]; intros n; [constructor|].
  cbn [user_calls]. destruct (decide (v = uid)) as [->|]; [|apply IH]. constructor; [|apply IH]. simpl in *.
  specialize (Hc eq_refl). destruct (Z.leb_spec l 0); lia.
Qed.
End limiter.

(** ** Slow mode *)

(** The times of the messages slow mode lets through. *)
Fixpoint slow_run (seconds : Z) (last : option Z) (times : list Z) : list Z :=
  match times with
  | [] => []
  | now :: times =>
      let '(last', wait) := slow_check last seconds now in
      if 0 <? wait then slow_run seconds last' times else now :: slow_run seconds last' times
  end.

Lemma slow_check_spec seconds last now :
  0 <= seconds < 2 ^ 31 → match last with Some prev => prev <= now | None => True end →
  let r := slow_check last seconds now in
  if 0 <? r.2 then r.1 = last
  else r.1 = Some now ∧ ∀ prev, last = Some prev → seconds * second <= now - prev.
Proof.
  intros Hs Hl. unfold slow_check.
  assert (i64 (seconds * second) = seconds * second) as -> by (apply wrap_s_small; unfold second; lia).
  destruct last as [prev|]; [|split; [done|naive_solver]].
  destruct (Z.ltb_spec 0 (seconds * second - time_sub now prev)) as [Hw|Hw]; cbn [fst snd].
  - by rewrite (proj2 (Z.ltb_lt _ _)).
  - split; [done|]. intros p [= <-]. revert Hw. unfold time_sub, second, min_int64, max_int64. lia.
Qed.

(** The messages a user gets through in a channel with slow mode are at least
    its seconds apart. *)
Theorem slow_mode_spacing seconds times :
  0 <= seconds < 2 ^ 31 → StronglySorted Z.le times →
  Sorted (λ t u, seconds * second <= u - t) (slow_run seconds None times).
Proof.
  intros Hsec Hsort.
  cut (∀ last, match last with Some p => Forall (Z.le p) times | None => True end →
    Sorted (λ t u, seconds * second <= u - t) (slow_run seconds last times) ∧
    ∀ p, last = Some p → HdRel (λ t u, seconds * second <= u - t) p (slow_run seconds last times)).
  { intros Hall. by destruct (Hall None). }
  induction Hsort as [|now times Hsort IH Hle]; intros last Hlast; [by split; [|constructor]|].
  cbn [slow_run]. pose proof (slow_check_spec seconds last now Hsec) as Hc.
  destruct (slow_check last seconds now) as [last' wait]. cbn [fst snd] in Hc.
  assert (match last with Some p => p <= now | None => True end) as Hp.
  { destruct last; [by apply Forall_cons in Hlast as [? _]|done]. }
  specialize (Hc Hp). destruct (0 <? wait).
  - subst last'. apply IH. destruct last; [by apply Forall_cons in Hlast as [_ ?]|done].
  - destruct Hc as [-> Hgap]. destruct (IH (Some now) Hle) as [Hs Hhd]. split.
    + constructor; [done|]. by apply Hhd.
    + intros p ->. constructor. by apply Hgap.
Qed.

(** ** Spam *)

(** The digests and times of the messages the tracker lets through. *)
Fixpoint spam_run (recent : list spamEntry) (calls : list spamEntry) : list spamEntry :=
  match calls with
  | [] => []
  | e :: calls =>
      let '(recent, spam) := spam_record recent (spe_sum e) (spe_at e) in
      if spam : bool then spam_run recent calls else e :: spam_run recent calls
  end.

Definition equal_in (sum : string) (a : Z) (e : spamEntry) : Prop :=
  spe_sum e = sum ∧ a <= spe_at e <= a + 30 * second.
#[export] Instance equal_in_dec sum a e : Decision (equal_in sum a e).
Proof. unfold equal_in. apply _. Defined.
Definition equal_since (sum : string) (a : Z) (e : spamEntry) : Prop := spe_sum e = sum ∧ a <= spe_at e.
#[export] Instance equal_since_dec sum a e : Decision (equal_since sum a e).
Proof. unfold equal_since. apply _. Defined.

(** Recording a message keeps the equal ones it is compared with. *)
Lemma spam_record_spec recent sum a e :
  spe_at e <= a + 30 * second →
  let r := spam_record recent (spe_sum e) (spe_at e) in
  length (filter (equal_since sum a) r.1) =
    (length (filter (equal_since sum a) recent) + if decide (equal_since sum a e) then 1 else 0)%nat ∧
  (r.2 = false → spe_sum e = sum → (length (filter (equal_since sum a) recent) < 2)%nat).
Proof.
  intros Ht. unfold spam_record. cbn [fst snd]. set (keep := filter _ recent).
  assert (filter (equal_since sum a) keep = filter (equal_since sum a) recent) as Hkeep.
  { subst keep. rewrite list_filter_filter. apply list_filter_iff. intros x. unfold equal_since. split; [tauto|].
    intros [? ?]. split; [done|lia]. }
  split.
  - rewrite filter_app, length_app, Hkeep. f_equal. rewrite filter_cons, filter_nil.
    replace {| spe_sum := spe_sum e; spe_at := spe_at e |} with e by (by destruct e). by case_decide.
  - intros Hok%bool_decide_eq_false_1 <-. rewrite <- Hkeep.
    enough (length (filter (equal_since (spe_sum e) a) keep) ≤ length (filter (λ x, spe_sum x = spe_sum e) keep))%nat
      by lia.
    clear. induction keep as [|x l IH]; [done|]. rewrite !filter_cons. unfold equal_since at 1.
    repeat case_decide; simpl; lia || tauto.
Qed.

(** Of the messages of a user with one body, at most two get through in any
    thirty seconds. *)
Theorem spam_bounded sum a recent calls :
  StronglySorted (λ e f, spe_at e <= spe_at f) calls →
  (length (filter (equal_in sum a) (spam_run recent calls)) ≤ 2)%nat.
Proof.
  intros Hs.
  cut (length (filter (equal_in sum a) (spam_run recent calls)) ≤ 2 - length (filter (equal_since sum a) recent))%nat;
    [lia|].
  revert recent. induction Hs as [|e calls Hs IH Hall]; intros recent; [simpl; lia|]. cbn [spam_run].
  destruct (decide (spe_at e <= a + 30 * second)) as [Ht|Ht].
  - pose proof (spam_record_spec recent sum a e Ht) as [Hk Hok]. cbv zeta in *.
    destruct (spam_record recent (spe_sum e) (spe_at e)) as [recent' spam]. cbn [fst snd] in *.
    specialize (IH recent'). rewrite Hk in IH. destruct spam.
    { etrans; [apply IH|]. case_decide; lia. }
    rewrite filter_cons. destruct (decide (equal_in sum a e)) as [Hin|]; [|etrans; [apply IH|]; case_decide; lia].
    cbn [length]. rewrite decide_True in IH by (destruct Hin; split; [done|lia]).
    specialize (Hok eq_refl (proj1 Hin)). lia.
  - assert (∀ r, filter (equal_in sum a) (spam_run r (e :: calls)) = []) as Hlate.
    { assert (Forall (λ f, a + 30 * second < spe_at f) (e :: calls)) as Hf.
      { constructor; [lia|]. eapply Forall_impl; [done|]. simpl. intros f Hf. lia. }
      clear -Hf. induction Hf as [|f l Hf _ IH]; intros r; [done|]. cbn [spam_run].
      destruct (spam_record r (spe_sum f) (spe_at f)) as [r' []]; [apply IH|].
      rewrite filter_cons, decide_False; [apply IH|]. unfold equal_in. lia. }
    specialize (Hlate recent). cbn [spam_run] in Hlate. rewrite Hlate. simpl. lia.
Qed.

(** Thirteen actions in a row with the limit of five: five get through. *)
Lemma chat_rate_bounded_witness :
  ∃ s' r, allow_run demo_env (replicate 13 ("alice", 5)) demo_server = (s', Ok r) ∧
    Z.of_nat (length (let_through 0 10 (of_user "alice" r))) <= 2 * 5.
Proof.
  apply (chat_rate_bounded demo_env (λ _ _ _, Z.le_refl _) "alice" 0 5 (replicate 13 ("alice", 5)) demo_server).
  - by vm_compute.
  - apply Forall_replicate. simpl. lia.
  - by vm_compute.
Defined.

Lemma slow_mode_spacing_witness :
  slow_run 5 None [0; 3 * second; 6 * second; 12 * second] = [0; 6 * second; 12 * second] ∧
  Sorted (λ t u, 5 * second <= u - t) (slow_run 5 None [0; 3 * second; 6 * second; 12 * second]).
Proof.
  split; [by vm_compute|]. apply slow_mode_spacing; [lia|]. repeat constructor; unfold second; lia.
Defined.

Definition spam_demo : list spamEntry := (λ t, {| spe_sum := "x"; spe_at := t |}) <$> [0; second; 2 * second; 3 * second].

Lemma spam_bounded_witness :
  length (spam_run [] spam_demo) = 2%nat ∧ (length (filter (equal_in "x" 0) (spam_run [] spam_demo)) ≤ 2)%nat.
Proof. split; [by vm_compute|]. apply spam_bounded. repeat constructor; simpl; unfold second; lia. Defined.
