(* ===== verification/ChatSendProps.v ===== *)
(** * What a send does

    A channel or global message is either refused, and then nothing is stored or
    relayed, or exactly one row is added: the sender's, in a scope it may read,
    opening to a text that is within the limit and passed the filters in force;
    and what is relayed is that row. *)

From S2P Require Import Prelude Wire Base64 GoState Permissions PermLoader PermCache StateManager StateInvariant StateSpec PermCheck ChannelManager ChatKeys ChatKeysSafety ChatText ServerWorld ChatScope ClientMoves ChatScopeSafety ChatScopeProps ChatStore ChatStoreProps ChatRelay ChatHandlers ChatSafety ChatProps.

(** The chat message an entry of the log carries. *)
Definition chat_event (e : effect) : option ChatBroadcast :=
  match e with
  | ToChannel _ _ (EvChat c) | ToClient _ _ (EvChat c) _ | ToAll (EvChat c) => Some c
  | _ => None
  end.

Section relays.
Context (E : Env) (P : ChatBroadcast → Prop).
Implicit Types s : Server.

(** The chat messages relayed between two states satisfy [P]. *)
Definition relays s s' : Prop :=
  ∃ l, sv_log s' = sv_log s ++ l ∧ ∀ e c, e ∈ l → chat_event e = Some c → P c.

#[export] Instance relays_preorder : PreOrder relays.
Proof.
  split; [intros s; exists []; split; [by rewrite app_nil_r|by intros e c ?%elem_of_nil]|].
  intros s1 s2 s3 (l & Hl & HP) (l' & Hl' & HP'). exists (l ++ l'). split; [by rewrite Hl', Hl, (assoc_L (++))|].
  intros e c [Hin|Hin]%elem_of_app; eauto.
Qed.

Lemma relays_log s s' : sv_log s' = sv_log s → relays s s'.
Proof. intros Hl. exists []. split; [by rewrite app_nil_r|by intros e c ?%elem_of_nil]. Qed.

Lemma relays_effect e s : (∀ c, chat_event e = Some c → P c) → relays s (add_effect e s).
Proof. intros He. exists [e]. split; [done|]. intros e' c ->%list_elem_of_singleton. apply He. Qed.

Lemma write_relays to m : preserves relays (writeMessage E to m).
Proof. intros s. unfold writeMessage. by destruct (env_write_ok E _); apply relays_effect. Qed.

Lemma keys_relays {A} (m : ChatKeys.M A) : preserves relays (on_keys m).
Proof. intros s. apply relays_log. unfold on_keys. by destruct (m (sv_keys s)). Qed.

Lemma quiet_relays {A} (m : H A) : preserves quiet m → preserves relays m.
Proof. intros Hm s. apply relays_log, Hm. Qed.

Lemma sort_relays sc l : preserves relays (sort_subscribers E sc l).
Proof.
  induction l as [|m l IH]; [intros s; by apply relays_log|]. cbn [sort_subscribers].
  destruct (cl_ChannelID m =? sc); [done|]. apply (preserves_bind relays); [intros s; by apply relays_log|].
  intros [c|]; [|done]. apply (preserves_bind relays); [intros s; by apply relays_log|]. intros ok.
  apply (preserves_bind relays); [done|]. intros r s. by apply relays_log.
Qed.

Lemma drop_relays sc l : preserves relays (drop_revoked E sc l).
Proof.
  induction l as [|c l IH]; [intros s; by apply relays_log|]. cbn [drop_revoked].
  apply (preserves_bind relays); [intros s; by apply relays_log|]. intros [].
  apply (preserves_bind relays); [|done]. intros s. apply write_relays.
Qed.

Lemma subscribers_relays sc : preserves relays (channelSubscribers E sc).
Proof.
  unfold channelSubscribers. destruct (_ =? _); [intros s; by apply relays_log|].
  apply (preserves_bind relays); [intros s; by apply relays_log|]. intros st.
  apply (preserves_bind relays); [apply sort_relays|]. intros r.
  apply (preserves_bind relays); [apply drop_relays|]. intros _ s. by apply relays_log.
Qed.

(** A broadcast relays its event and no other. *)
Lemma broadcast_relays sc c : P c → preserves relays (broadcastChannelScoped E sc (EvChat c)).
Proof.
  intros Hc. apply (preserves_bind relays); [intros s; apply relays_effect; by intros ? [= <-]|]. intros [].
  apply (preserves_bind relays); [apply subscribers_relays|]. intros l.
  induction l as [|x l IH]; [intros s; by apply relays_log|]. cbn [to_each].
  apply (preserves_bind relays); [|by intros b]. intros s. apply relays_effect. by intros ? [= <-].
Qed.

Lemma readable_relays client sc : preserves relays (scopeReadable E client sc).
Proof.
  unfold scopeReadable. destruct (_ =? _); [intros s; by apply relays_log|].
  apply (preserves_bind relays); [intros s; by apply relays_log|]. intros st.
  destruct (ClientChannelState _ _) as [[ch k]|]; [|intros s; by apply relays_log].
  destruct (ch =? sc); [intros s; by apply relays_log|]. destruct (IsSubscribed _ _ _); intros s; by apply relays_log.
Qed.
End relays.

Section send.
Context (E : Env) (F : ChatEnv).
Context `{!∀ V, MapRange Z V, !∀ V, MapRange (Z * Z) V, !∀ V, MapRange string V}.
Implicit Types (s : Server) (w : Server * Chat).

#[local] Abbreviation rows w := (db_messages (ct_db (snd w))).

(** Nothing is stored and nothing is relayed. *)
Definition still w w' : Prop := rows w' = rows w ∧ relays (λ _, False) w.1 w'.1.

#[export] Instance still_preorder : PreOrder still.
Proof.
  split; [intros w; split; [done|reflexivity]|]. intros w1 w2 w3 [Ha Hb] [Ha' Hb']. split; [congruence|by etrans].
Qed.

Lemma server_still {A} (m : H A) : preserves (relays (λ _, False)) m → preserves still (on_server m).
Proof. intros Hm w. specialize (Hm w.1). unfold on_server. by destruct (m w.1). Qed.

Lemma quiet_still {A} (m : H A) : preserves quiet m → preserves still (on_server m).
Proof. intros Hm. by apply server_still, quiet_relays. Qed.

Lemma refuse_still client code text : preserves still (refuse E client code text).
Proof. apply server_still. intros s. apply write_relays. Qed.

Lemma read_still {A} (m : D A) : preserves same_messages m → preserves still (on_db m).
Proof.
  intros Hm w. destruct (Hm (ct_db w.2)) as [Hr _]. unfold on_db. destruct (m (ct_db w.2)). by split.
Qed.

Lemma chat_still {A} (f : Chat → Chat * A) : (∀ c, ct_db (f c).1 = ct_db c) → preserves still (on_chat f).
Proof.
  intros Hf w. specialize (Hf w.2). unfold on_chat. destruct (f w.2). split; simpl in *; [by rewrite Hf|reflexivity].
Qed.

Lemma ret_still {A} (a : A) : preserves still (se_ret (E := HErr) a).
Proof. intros w. reflexivity. Qed.

Lemma filters_still : preserves still (effectiveFilters F).
Proof.
  intros w. unfold effectiveFilters. destruct (ct_filters w.2); [reflexivity|].
  match goal with |- still w (?m w).1 => revert w; change (preserves still m) end.
  apply (preserves_bind still); [apply read_still, setting_reads|]. intros [[raw g]|e]; [|apply ret_still]. cbv zeta.
  apply (preserves_bind still); [by apply chat_still|]. intros _. apply ret_still.
Qed.

Lemma slow_still client ch : preserves still (slow_mode E client ch).
Proof.
  unfold slow_mode. destruct (ch =? 0); [apply ret_still|].
  apply (preserves_bind still); [apply quiet_still, state_quiet|]. intros st.
  destruct (GetChannel ch st); [|apply ret_still]. destruct (_ <=? 0); [apply ret_still|].
  apply (preserves_bind still); [apply quiet_still, pc_quiet|]. intros pc. cbv zeta.
  destruct (match pc with Ok _ => _ | Err _ => _ end); [apply ret_still|].
  apply (preserves_bind still); [apply quiet_still, time_quiet|]. intros now. apply chat_still. intros c'.
  by destruct (slow_check _ _ _).
Qed.

Lemma decrypt_still sc enc g text : preserves still (decrypt E sc enc g text).
Proof.
  unfold decrypt. destruct enc; [|apply ret_still].
  apply (preserves_bind still); [apply server_still, keys_relays|]. intros r. apply ret_still.
Qed.

Lemma moderate_still body : preserves still (moderate F body).
Proof. apply (preserves_bind still); [apply filters_still|]. intros f. apply ret_still. Qed.

Lemma spam_still uid body : preserves still (record_spam E F uid body).
Proof.
  apply (preserves_bind still); [apply quiet_still, time_quiet|]. intros now. apply chat_still. intros c.
  by destruct (spam_record _ _ _).
Qed.

Lemma seal_body_still ch msg plain : preserves still (seal_body E ch msg plain).
Proof.
  unfold seal_body. destruct (cs_Enc msg); [apply ret_still|].
  apply (preserves_bind still); [apply server_still, keys_relays|]. intros [a|e]; [|apply ret_still].
  apply (preserves_bind still); [apply server_still, keys_relays|]. intros r. apply ret_still.
Qed.

Lemma check_reply_still ch reply : preserves still (check_reply F ch reply).
Proof.
  unfold check_reply. destruct (reply =? 0); [apply ret_still|].
  apply (preserves_bind still); [apply read_still, get_reads|]. intros r. apply ret_still.
Qed.

Lemma check_current_still ch g : preserves still (check_current E ch g).
Proof. apply (preserves_bind still); [apply server_still, keys_relays|]. intros r. apply ret_still. Qed.

(** ** The outcome of a send *)

(** One row was added, [good] holds of it, and only it was relayed. *)
Definition stored (good : ChatMessage → Prop) w w' : Prop :=
  ∃ id m, rows w !! id = None ∧ rows w' = <[id := m]> (rows w) ∧ good m ∧
    relays (λ c, cb_ID c = id ∧ cb_Text c = msg_BodyEnc m ∧ cb_KeyID c = msg_KeyID m ∧ cb_Enc c = true ∧
                 cb_FromUniqueID c = msg_FromUniqueID m) w.1 w'.1.

Definition outcome good w w' : Prop := still w w' ∨ stored good w w'.

Lemma relays_mono (P Q : ChatBroadcast → Prop) s s' : (∀ c, P c → Q c) → relays P s s' → relays Q s s'.
Proof. intros HPQ (l & Hl & HP). exists l. split; [done|]. eauto. Qed.

Lemma outcome_after good w w1 w' : still w w1 → outcome good w1 w' → outcome good w w'.
Proof.
  intros Hst [Hst'|(id & m & Hn & Hr & Hg & Hrel)]; [left; by etrans|]. right. destruct Hst as [Hrows Hlog].
  rewrite Hrows in *. exists id, m. split_and!; [done..|]. etrans; [|exact Hrel].
  eapply relays_mono; [|exact Hlog]. by intros c ?.
Qed.

Lemma outcome_refuse good client code text w : outcome good w (refuse E client code text w).1.
Proof. left. apply refuse_still. Qed.

(** A step that stores and relays nothing, with what it establishes. *)
Lemma outcome_bind {A} good (m : C A) (k : A → C ()) w Q :
  csends E F m w Q → preserves still m → winv E F w →
  (∀ a w1, winv E F w1 → wrun E w w1 → m w = (w1, Ok a) → Q a w1 → outcome good w1 (k a w1).1) →
  outcome good w (se_bind m k w).1.
Proof.
  intros Hm Hst Hw Hk. destruct (Hm Hw) as (Ha & Hb & Hc). specialize (Hst w). unfold se_bind.
  destruct (m w) as [w1 [a|e]]; cbn [fst snd] in *; [|by left]. eapply outcome_after; [done|]. eauto.
Qed.

Lemma store_outcome ch from nick body key reply cid d d' r :
  dbinv d → StoreChatMessage (ce_db F) (ce_dbclock F) ch from nick body key reply cid d = (d', r) →
  (db_messages d' = db_messages d ∧ ∀ id, r ≠ Ok (id, true)) ∨
  ∃ id n, db_messages d !! id = None ∧
    db_messages d' = <[id := new_message n ch from nick body key reply cid]> (db_messages d) ∧
    ∀ id', r = Ok (id', true) → id' = id.
Proof.
  intros Hd. assert (db_messages d !! db_nextID d = None) as Hfresh.
  { destruct (db_messages d !! db_nextID d) eqn:Hx; [|done].
    pose proof (di_ids _ Hd (db_nextID d) ltac:(by eexists)). lia. }
  unfold StoreChatMessage, se_bind, call. cbv zeta. set (n := ce_dbclock F (db_calls d)).
  destruct (ce_db F (db_calls d)); [|intros [= <- <-]; by left|].
  - destruct (negb (row_sealed _)); [intros [= <- <-]; by left|]. destruct (negb _ && _).
    + unfold query, call. destruct (ce_db F _); [|intros [= <- <-]; by left..].
      destruct (find_message _ _ _ _); intros [= <- <-]; by left.
    + intros [= <- <-]. right. exists (db_nextID d), n. split_and!; [done..|]. by intros id' [= <-].
  - destruct (negb (row_sealed _)); [intros [= <- <-]; by left|]. destruct (negb _ && _); intros [= <- <-]; [by left|].
    right. exists (db_nextID d), n. by split_and!.
Qed.

Lemma store_and_relay_outcome good client ch msg body key mentions w :
  winv E F w → (∀ n, good (new_message n ch (cn_UniqueID client) (cn_Username client) body key
                             (cs_ReplyToID msg) (cs_ClientMsgID msg))) →
  outcome good w (store_and_relay E F client ch msg body key mentions w).1.
Proof.
  intros Hw Hgood. eapply outcome_bind; [apply check_reply_sends|apply check_reply_still|done|].
  intros bad w1 Hw1 _ _ _. destruct bad as [[code text]|]; [apply outcome_refuse|].
  unfold se_bind, on_db.
  destruct (StoreChatMessage (ce_db F) (ce_dbclock F) ch _ _ body key _ _ (ct_db w1.2)) as [d r] eqn:Es.
  destruct (store_outcome _ _ _ _ _ _ _ _ _ _ (wi_db _ _ _ Hw1) Es) as [[Hrows Hr]|(id & n & Hnone & Hrows & Hid)].
  - eapply (outcome_after _ _ (w1.1, set_chatdb d w1.2)); [split; [done|reflexivity]|].
    destruct r as [[id [|]]|e]; [by destruct (Hr id)|left; reflexivity|apply outcome_refuse].
  - right. exists id, (new_message n ch (cn_UniqueID client) (cn_Username client) body key
      (cs_ReplyToID msg) (cs_ClientMsgID msg)).
    assert (∀ P w2, relays P w1.1 w2.1 ∧ rows w2 = db_messages d → rows w1 !! id = None ∧ rows w2 =
      <[id := new_message n ch (cn_UniqueID client) (cn_Username client) body key (cs_ReplyToID msg) (cs_ClientMsgID msg)]> (rows w1)
      ∧ good (new_message n ch (cn_UniqueID client) (cn_Username client) body key (cs_ReplyToID msg) (cs_ClientMsgID msg)) ∧
      relays P w1.1 w2.1) as Hfin.
    { intros P w2 [Hrel Hr2]. split_and!; [done|by rewrite Hr2|apply Hgood|done]. }
    apply Hfin. destruct r as [[id' [|]]|e]; cbn [negb].
    + specialize (Hid id' eq_refl) as ->. unfold relay_event, on_server.
      set (c := chat_broadcast client ch msg body key id mentions).
      assert (∀ P : ChatBroadcast → Prop, P c → relays P w1.1 (effect_ (ToAll (EvChat c)) w1.1).1) as Hall.
      { intros P HP. apply relays_effect. by intros ? [= <-]. }
      destruct (ch =? 0); cbn [fst snd].
      * split; [by apply Hall|done].
      * pose proof (λ P, broadcast_relays E P ch c) as Hb.
        match goal with |- relays ?P _ _ ∧ _ => specialize (Hb P ltac:(done) w1.1) end.
        destruct (broadcastChannelScoped E ch (EvChat c) w1.1). by split.
    + split; [reflexivity|done].
    + pose proof (refuse_still client errCodeUnavailable "message not stored — not delivered" (w1.1, set_chatdb d w1.2))
        as [Hr' Hl']. split; [|exact Hr']. eapply relays_mono; [|exact Hl']. by intros c ?.
Qed.

Context (laws : CryptoLaws (env_rnd E) (env_Seal E) (env_Open E)).
Context (ring_ids : ∀ ring, env_kek E = Some ring → 0 ≤ kr_newest ring < 2 ^ 16).

(** The filters in force depend on the cache and the table only. *)
Lemma filters_cong w w' :
  ct_filters w'.2 = ct_filters w.2 → ct_db w'.2 = ct_db w.2 → (effectiveFilters F w').2 = (effectiveFilters F w).2.
Proof.
  intros Hf Hd. unfold effectiveFilters. rewrite Hf. destruct (ct_filters w.2); [done|].
  unfold se_bind, on_db. rewrite Hd. destruct (GetServerSetting _ _ _ (ct_db w.2)) as [d [[raw g]|e]]; [|done].
  cbv zeta. by destruct (String.eqb raw ""); [|destruct (ce_decode F raw)].
Qed.

Lemma slow_filters client ch w : ct_filters (slow_mode E client ch w).1.2 = ct_filters w.2.
Proof.
  assert (PreOrder (λ w w' : Server * Chat, ct_filters w'.2 = ct_filters w.2)) as Hpre.
  { split; [by intros ?|]. intros w1 w2 w3. congruence. }
  revert w. match goal with |- ∀ w, ct_filters (?m w).1.2 = _ =>
    change (preserves (λ w w' : Server * Chat, ct_filters w'.2 = ct_filters w.2) m) end.
  unfold slow_mode. destruct (ch =? 0); [by intros w|].
  apply preserves_bind; [done|by intros w|]. intros st. destruct (GetChannel ch st); [|by intros w].
  destruct (_ <=? 0); [by intros w|]. apply preserves_bind; [done|by intros w|]. intros pc. cbv zeta.
  destruct (match pc with Ok _ => _ | Err _ => _ end); [by intros w|].
  apply preserves_bind; [done|by intros w|]. intros now w. unfold on_chat.
  by destruct (slow_check _ _ _).
Qed.

(** The message satisfies the filters that are in force before the request. *)
Definition passes w0 (plain : string) : Prop :=
  ∃ f, (effectiveFilters F w0).2 = Ok f ∧ moderateBody (ce_text F) f.1 (stripAttachmentRefs plain) = None.

(** What a stored message satisfies, with the keys [k] of the state it is stored in. *)
Record sent (client : Conn) (ch : Z) w0 (k : CK) (m : ChatMessage) : Prop := {
  se_channel : msg_ChannelID m = ch;
  se_author : msg_FromUniqueID m = cn_UniqueID client;
  se_fresh : msg_Version m = 1 ∧ msg_DeletedAt m = None;
  se_text : ∃ plain, body_for E ch plain (msg_BodyEnc m) (msg_KeyID m) k ∧ too_long F plain = false ∧ passes w0 plain;
}.

(** The outcome of a whole program, judged with the keys it ends with. *)
Definition ends (good : CK → ChatMessage → Prop) (m : C ()) w : Prop :=
  outcome (good (sv_keys (m w).1.1)) w (m w).1.

Lemma ends_refuse good client code text w : ends good (refuse E client code text) w.
Proof. apply outcome_refuse. Qed.

Lemma ends_bind {A} good (m : C A) (k : A → C ()) w Q :
  csends E F m w Q → preserves still m → winv E F w →
  (∀ a w1, winv E F w1 → wrun E w w1 → m w = (w1, Ok a) → Q a w1 → ends good (k a) w1) →
  ends good (se_bind m k) w.
Proof.
  intros Hm Hst Hw Hk. destruct (Hm Hw) as (Ha & Hb & Hc). specialize (Hst w). unfold ends, se_bind.
  destruct (m w) as [w1 [a|e]]; cbn [fst snd] in *; [|by left]. eapply outcome_after; [done|].
  by apply (Hk a w1 Ha Hb eq_refl (Hc a eq_refl)).
Qed.

Lemma passes_cong w0 w plain :
  ct_filters w.2 = ct_filters w0.2 → ct_db w.2 = ct_db w0.2 → passes w plain → passes w0 plain.
Proof. intros Hf Hd (f & He & Hm). exists f. by rewrite <- (filters_cong _ _ Hf Hd). Qed.

Lemma moderate_passes w w1 plain : moderate F (stripAttachmentRefs plain) w = (w1, Ok None) → passes w plain.
Proof.
  unfold moderate, se_bind. destruct (effectiveFilters F w) as [w2 [f|e]] eqn:Ef; [|done].
  intros [= -> Hm]. exists f. by rewrite Ef.
Qed.

Lemma store_ends client ch msg body key mentions plain w0 w :
  winv E F w → body_for E ch plain body key (sv_keys w.1) → too_long F plain = false → passes w0 plain →
  ends (sent client ch w0) (store_and_relay E F client ch msg body key mentions) w.
Proof.
  intros Hw Hb Hl Hp. apply store_and_relay_outcome; [done|]. intros n.
  destruct (store_and_relay_sends E F laws ring_ids client ch msg body key mentions plain w Hb Hl Hw) as (_ & [_ Hx _] & _).
  split; [done..|]. exists plain. split_and!; [|done..]. by eapply body_extends.
Qed.

Lemma route_ends client msg ch w0 w :
  winv E F w → known w.1 ch → w.2 = w0.2 → ends (sent client ch w0) (routeScopedChat E F client msg ch) w.
Proof.
  intros Hw Hk Hc0. unfold routeScopedChat.
  eapply ends_bind; [by apply slow_mode_sends|apply slow_still|done|].
  intros wait w1 Hw1 Hr1 Hrun1 [_ Hd1]. pose proof (slow_filters client ch w) as Hf1. rewrite Hrun1 in Hf1. cbn [fst] in Hf1.
  rewrite Hc0 in Hd1, Hf1. destruct wait; [apply ends_refuse|].
  eapply ends_bind; [by apply decrypt_sends|apply decrypt_still|done|].
  intros [plain|] w2 Hw2 Hr2 _ (_ & Hc2 & Hst); [|apply ends_refuse]. specialize (Hst plain eq_refl).
  destruct (too_long F plain) eqn:Hl; [apply ends_refuse|]. cbv zeta.
  eapply ends_bind; [by apply moderate_sends|apply moderate_still|done|].
  intros [text|] w3 Hw3 Hr3 Hrun3 _; [apply ends_refuse|]. apply moderate_passes, (passes_cong w0) in Hrun3; [|by rewrite Hc2..].
  eapply ends_bind; [by apply spam_sends|apply spam_still|done|]. intros spam w4 Hw4 Hr4 _ _. destruct spam; [apply ends_refuse|].
  eapply ends_bind; [by apply csends_quiet, mentions_quiet|by apply quiet_still, mentions_quiet|done|].
  intros mentions w5 Hw5 Hr5 _ _.
  assert (wrun E w2 w5) as H25 by (etrans; [done|]; by etrans).
  assert (wrun E w w5) as H05 by (etrans; [done|]; by etrans).
  eapply ends_bind; [apply seal_body_sends; [done..| |]|apply seal_body_still|done|].
  - eapply known_run; [apply (wr_server _ _ _ H05)|done].
  - eapply stands_extends; [apply (wr_keys _ _ _ H25)|done].
  - intros [[body key]|] w6 Hw6 _ _ Hb; [|apply ends_refuse]. eapply store_ends; [done|by apply Hb|done..].
Qed.

(** A message that may be sent to the scope: its sender may read it. *)
Definition may_send (client : Conn) (ch : Z) w0 (k : CK) (m : ChatMessage) : Prop :=
  sent client ch w0 k m ∧ entitled E (sv_clients w0.1) (sv_state w0.1) (cn_ID client) ch.

Lemma ends_mono (good good' : CK → ChatMessage → Prop) m w :
  (∀ k x, good k x → good' k x) → ends good m w → ends good' m w.
Proof.
  intros Hg [Hs|(id & x & Hn & Hr & Hx & Hrel)]; [by left|]. right. exists id, x. split_and!; [done..|by apply Hg|done].
Qed.

Lemma readable_still client ch :
  preserves still (if ch =? 0 then se_ret true else on_server (scopeReadable E client ch)).
Proof. destruct (ch =? 0); [apply ret_still|]. apply server_still, readable_relays. Qed.

Lemma entitled_back conns s s' id ch :
  same_cm s s' → entitled E conns (sv_state s') id ch → entitled E conns (sv_state s) id ch.
Proof. intros Hcm. apply entitled_cm. by symmetry. Qed.

Lemma send_scoped_ends client msg ch w0 w :
  winv E F w → registered client w.1 → same_cm w0.1 w.1 → run_ok E w0.1 w.1 → w.2 = w0.2 →
  ends (may_send client ch w0) (send_scoped E F client msg ch) w.
Proof.
  intros Hw Hreg Hcm0 Hr0 Hc0. unfold send_scoped.
  eapply ends_bind with (Q := λ ok w', w'.2 = w.2 ∧ (ok = true → entitled E (sv_clients w0.1) (sv_state w0.1) (cn_ID client) ch
    ∧ known w'.1 ch)); [|apply readable_still|done|].
  { destruct (Z.eqb_spec ch 0) as [->|Hne]; [apply csends_ret; split; [done|]; intros _; split; by left|].
    eapply csends_weaken; [|by apply readable_sends]. intros ok w' Hw' Hr' (Hcm & Hc & Hok). split; [done|].
    intros Htrue. specialize (Hok Htrue). split; [|eapply entitled_known; [apply Hw'|done]].
    rewrite (ro_conns _ _ _ (wr_server _ _ _ Hr')), (ro_conns _ _ _ Hr0) in Hok.
    eapply entitled_back; [|exact Hok]. by etrans. }
  intros ok w1 Hw1 Hr1 _ [Hc1 Hok]. destruct ok; [|apply ends_refuse]. cbn [negb]. destruct (Hok eq_refl) as [He Hk].
  eapply ends_bind with (Q := λ _ w', w'.2 = w1.2).
  { destruct (cs_Enc msg); [|by apply csends_ret].
    eapply csends_bind; [apply csends_server; [done..|apply sends_lookup, current_tables|apply current_run]|].
    intros r w2 _ _ [_ Hc]. by apply csends_ret. }
  { destruct (cs_Enc msg); [apply check_current_still|apply ret_still]. }
  { done. }
  intros [[code text]|] w2 Hw2 Hr2 _ Hc2; [apply ends_refuse|].
  eapply ends_mono; [|apply route_ends; [done| |by rewrite Hc2, Hc1]].
  - intros k x Hx. by split.
  - eapply known_run; [apply (wr_server _ _ _ Hr2)|done].
Qed.

(** The scope a message names. *)
Definition scope_of (msg : ChatSend) : option Z :=
  if String.eqb (cs_ChannelID msg) "" then Some 0 else ParseInt (cs_ChannelID msg).

(** The conditions the handler checks before anything else. *)
Record acceptable (client : Conn) (msg : ChatSend) : Prop := {
  ac_rules : cn_rulesPending client = false;
  ac_size : (String.length (cs_Text msg) ≤ maxChatBytes)%nat;
  ac_plain : cs_Enc msg = false → ce_allowPlaintext F = true;
  ac_key : cs_Enc msg = true → cs_ChannelID msg ≠ "" → cs_KeyID msg ≠ 0;
}.
End send.

Section exact.
Context (E : Env) (F : ChatEnv).
Context `{!∀ V, MapRange Z V, !∀ V, MapRange (Z * Z) V, !∀ V, MapRange string V}.
Implicit Types w : Server * Chat.

End exact.

Section demo.
#[local] Instance demo_range_z V : MapRange Z V := stdpp_range.
#[local] Instance demo_range_zz V : MapRange (Z * Z) V := stdpp_range.
#[local] Instance demo_range_s V : MapRange string V := stdpp_range.

End demo.
