(* ===== verification/AuthFlow.v ===== *)
(** * Connections, login and the dispatch gates ([src/internal/server/handlers.go], [tcp.go])

    From an accepted connection to an authenticated session: the password,
    challenge and guest logins, the rules a session has to accept, and the
    dispatch of frames to the handlers. The world is that of the chat relay
    together with [Login]: the account tables, the failure limiter, and what a
    connection keeps between the frames of a handshake. Handlers run to completion
    one at a time. Metrics and logging are left out; a [LoginAttempt] lives in a
    small heap, since its deferred [Cancel] sees what happened to it before. *)

From Stdlib Require Import Ascii.
From stdpp Require Import pretty.
From S2P Require Import Prelude Wire GoState Permissions PermLoader PermCache StateManager StateInvariant PermCheck LoginLimiter ChannelManager Broadcast ChatKeys ChatText Passwords ServerWorld ChatScope ClientMoves ChatScopeSafety ChatScopeProps ChatStore ChatRelay ChatHandlers ChatSafety ChatProps AuthService.

Definition authChallengeTTL : Z := 30 * second.
Definition PermissionKeyClientIsBot : PermissionKey := "b_client_is_bot".
Definition CapabilityGroupAssignAck : string := "group_assign_ack".
Definition SettingKey : string := "server_rules".

(** The fields of [Client] that only the handshake uses. *)
Record Handshake := mkHandshake {
  hs_challenge : option (list Z);
  hs_challengeUID : string;
  hs_challengeNick : string;
  hs_challengeExp : Z;
  hs_x25519Key : string;
}.

Definition no_handshake : Handshake := mkHandshake None "" "" 0 "".

Record Login := mkLogin {
  lg_acc : Accounts;
  lg_lim : LoginFailureLimiter;
  lg_hs : gmap string Handshake;
  lg_attempts : list LoginAttempt;       (* the attempts reserved so far, by number *)
  lg_reads : nat;
  lg_draws : nat;
}.

Definition set_acc (a : Accounts) (l : Login) : Login :=
  mkLogin a (lg_lim l) (lg_hs l) (lg_attempts l) (lg_reads l) (lg_draws l).
Definition set_lim (x : LoginFailureLimiter) (l : Login) : Login :=
  mkLogin (lg_acc l) x (lg_hs l) (lg_attempts l) (lg_reads l) (lg_draws l).
Definition set_hs (f : gmap string Handshake → gmap string Handshake) (l : Login) : Login :=
  mkLogin (lg_acc l) (lg_lim l) (f (lg_hs l)) (lg_attempts l) (lg_reads l) (lg_draws l).
Definition set_attempts (x : list LoginAttempt) (l : Login) : Login :=
  mkLogin (lg_acc l) (lg_lim l) (lg_hs l) x (lg_reads l) (lg_draws l).
Definition tick_lread (l : Login) : Login :=
  mkLogin (lg_acc l) (lg_lim l) (lg_hs l) (lg_attempts l) (S (lg_reads l)) (lg_draws l).
Definition tick_ldraw (l : Login) : Login :=
  mkLogin (lg_acc l) (lg_lim l) (lg_hs l) (lg_attempts l) (lg_reads l) (S (lg_draws l)).

Record AuthEnv := {
  ae_IDKey : list Z → list Z → Z → Z → Z → Z → list Z;
  ae_sha256 : list Z → list Z;
  ae_pem_Decode : string → option (string * list Z);
  ae_ed_Verify : list Z → list Z → list Z → bool;
  ae_db : nat → dbOutcome;
  ae_dbclock : nat → Z;
  ae_clock : nat → Z;
  ae_rnd : nat → nat → option (list Z);        (* the n-th draw of so many bytes *)
  ae_conn : string → Z;                        (* the net.Conn of a connection *)
  ae_addr : string → string;                   (* its remote address *)
  ae_host : string → option string;            (* net.SplitHostPort *)
  ae_auth : bool;                              (* deps.Auth is wired *)
  ae_rules : bool;                             (* deps.Rules is wired *)
  ae_serverPasswordHash : string;
  ae_memberGroup : Z;                          (* deps.DefaultMemberGroupID *)
  ae_groupIDs : nat → Z → option (list Z);     (* Groups.UserGroupIDs at the n-th read *)
  ae_assign_ok : nat → bool;
  ae_tlsFingerprint : string;
  ae_ICEServers : string → list ICEServer;
  ae_maxClients : Z;                           (* cfg.MaxClients *)
}.

Abbreviation World := ((Server * Chat) * Login)%type.
Abbreviation L := (SE World HErr).

Record Authenticate := {
  am_Username : string;
  am_Password : string;
  am_ServerPassword : string;
  am_Nickname : string;
  am_Anonymous : bool;
  am_PublicKey : string;
  am_X25519PublicKey : string;
}.

Record AuthSignature := {
  sg_UniqueID : string;
  sg_PublicKey : string;
  sg_Signature : list Z;
  sg_X25519PublicKey : string;
}.

Record authIdentity := {
  ai_uniqueID : string;
  ai_nickname : string;
  ai_userID : Z;
  ai_admin : bool;
  ai_guest : bool;
}.

(** [setIdentity] and [setRulesPending]. *)
Definition setIdentity (id : authIdentity) (c : Conn) : Conn :=
  {| cn_ID := cn_ID c; cn_UniqueID := ai_uniqueID id; cn_Username := ai_nickname id; cn_userID := ai_userID id;
     cn_isAdmin := ai_admin id; cn_authed := true; cn_rulesPending := cn_rulesPending c |}.
Definition setRulesPending (pending : bool) (c : Conn) : Conn :=
  {| cn_ID := cn_ID c; cn_UniqueID := cn_UniqueID c; cn_Username := cn_Username c; cn_userID := cn_userID c;
     cn_isAdmin := cn_isAdmin c; cn_authed := cn_authed c; cn_rulesPending := pending |}.

Definition new_conn (id : string) : Conn :=
  {| cn_ID := id; cn_UniqueID := ""; cn_Username := ""; cn_userID := 0; cn_isAdmin := false; cn_authed := false;
     cn_rulesPending := false |}.

Definition setX25519 (key : string) (h : Handshake) : Handshake :=
  mkHandshake (hs_challenge h) (hs_challengeUID h) (hs_challengeNick h) (hs_challengeExp h) key.
Definition setChallenge (uniqueID nickname : string) (challenge : list Z) (expires : Z) (h : Handshake) : Handshake :=
  mkHandshake (Some challenge) uniqueID nickname expires (hs_x25519Key h).

(** [takeChallenge]: the challenge and the nickname stored with it, and what is
    left. *)
Definition takeChallenge (uniqueID : string) (now : Z) (h : Handshake) : Handshake * option (list Z * string) :=
  match hs_challenge h with
  | None => (h, None)
  | Some ch =>
      if hs_challengeExp h <? now then (h, None)
      else if negb (bool_decide (uniqueID = "")) && negb (bool_decide (hs_challengeUID h = uniqueID)) then (h, None)
      else (mkHandshake None "" "" 0 (hs_x25519Key h), Some (ch, hs_challengeNick h))
  end.

(** The response that refuses a login. *)
Definition refusal (reason : string) : AuthResponse :=
  {| ar_Capabilities := []; ar_OK := false; ar_ClientID := ""; ar_UniqueID := ""; ar_Nickname := "";
     ar_Reason := reason; ar_ICEServers := []; ar_TLSFingerprint := ""; ar_MOTD := ""; ar_MOTDEnc := false;
     ar_MOTDKeyID := 0; ar_ChatKeys := []; ar_IsAdmin := false |}.

Definition with_keys (ks : list ChannelKey) (r : AuthResponse) : AuthResponse :=
  {| ar_Capabilities := ar_Capabilities r; ar_OK := ar_OK r; ar_ClientID := ar_ClientID r;
     ar_UniqueID := ar_UniqueID r; ar_Nickname := ar_Nickname r; ar_Reason := ar_Reason r;
     ar_ICEServers := ar_ICEServers r; ar_TLSFingerprint := ar_TLSFingerprint r; ar_MOTD := ar_MOTD r;
     ar_MOTDEnc := ar_MOTDEnc r; ar_MOTDKeyID := ar_MOTDKeyID r; ar_ChatKeys := ks; ar_IsAdmin := ar_IsAdmin r |}.
Definition with_motd (text : string) (enc : bool) (gen : Z) (r : AuthResponse) : AuthResponse :=
  {| ar_Capabilities := ar_Capabilities r; ar_OK := ar_OK r; ar_ClientID := ar_ClientID r;
     ar_UniqueID := ar_UniqueID r; ar_Nickname := ar_Nickname r; ar_Reason := ar_Reason r;
     ar_ICEServers := ar_ICEServers r; ar_TLSFingerprint := ar_TLSFingerprint r; ar_MOTD := text;
     ar_MOTDEnc := enc; ar_MOTDKeyID := gen; ar_ChatKeys := ar_ChatKeys r; ar_IsAdmin := ar_IsAdmin r |}.

(** [%x] of a number of 64 bits. *)
Definition hex_number (n : Z) : string :=
  let '(sign, n) := if n <? 0 then ("-", - n) else ("", n) in
  let ds := (λ k, n / 16 ^ (15 - k) mod 16) <$> seqZ 0 16 in
  let ds := default [0] (head (filter (λ l, head l ≠ Some 0) ((λ k, drop k ds) <$> seq 0 16))) in
  sign +:+ String.string_of_list_ascii (hex_digit <$> ds).

(** The candidates of [dedupeNickname] in turn: [nickname#i], [nickname#(i+1)], ... *)
Fixpoint free_nickname (fuel : nat) (taken : gset string) (nickname : string) (i : Z) : option string :=
  match fuel with
  | O => None
  | S fuel =>
      let candidate := nickname +:+ "#" +:+ pretty i in
      if bool_decide (candidate ∈ taken) then free_nickname fuel taken nickname (i + 1) else Some candidate
  end.

Section flow.
Context (E : Env) (F : ChatEnv) (G : AuthEnv).
Context `{!∀ V, MapRange Z V, !∀ V, MapRange (Z * Z) V, !∀ V, MapRange string V}.

(** ** Effects *)

Definition on_relay {A} (m : C A) : L A := λ w, let '(c, r) := m w.1 in ((c, w.2), r).
Definition on_srv {A} (m : H A) : L A := on_relay (on_server m).
Definition on_acc {A} (m : AuthService.A A) : L (result AuthErr A) := λ w,
  let '(a, r) := m (lg_acc w.2) in ((w.1, set_acc a w.2), Ok r).
Definition on_hs {A} (id : string) (f : Handshake → Handshake * A) : L A := λ w,
  let '(h, a) := f (default no_handshake (lg_hs w.2 !! id)) in ((w.1, set_hs <[id := h]> w.2), Ok a).
Definition now_ : L Z := λ w, ((w.1, tick_lread w.2), Ok (ae_clock G (lg_reads w.2))).
Definition draw (n : nat) : L (option (list Z)) := λ w, ((w.1, tick_ldraw w.2), Ok (ae_rnd G (lg_draws w.2) n)).

Definition set_conn (c : Conn) : H () := se_modify (set_conns <[cn_ID c := c]>).

(** [defer]: [d] runs when [m] returns, with an error or without. *)
Definition deferred {A} (d : L ()) (m : L A) : L A := λ w, let '(w, r) := m w in ((d w).1, r).

(** The calls of the limiter. An attempt is named by its number. *)
Definition reserve (scopes : list string) : L (option nat) :=
  run now <- now_;
  λ w, let '(a, l) := Reserve scopes now (lg_lim w.2) in
       match a with
       | None => ((w.1, set_lim l w.2), Ok None)
       | Some a => ((w.1, set_attempts (lg_attempts w.2 ++ [a]) (set_lim l w.2)), Ok (Some (length (lg_attempts w.2))))
       end.
Definition on_attempt (n : nat) (f : Z → LoginAttempt → LoginFailureLimiter → LoginAttempt * LoginFailureLimiter) : L () :=
  run now <- now_;
  λ w, match lg_attempts w.2 !! n with
       | None => (w, Ok ())
       | Some a =>
           let '(a, l) := f now a (lg_lim w.2) in
           ((w.1, set_attempts (<[n := a]> (lg_attempts w.2)) (set_lim l w.2)), Ok ())
       end.
Definition attempt_Fail (n : nat) : L () := on_attempt n Fail_.
Definition attempt_Cancel (n : nat) : L () := on_attempt n Cancel.
Definition attempt_Succeed (n : nat) (scopes : list string) : L () := on_attempt n (Succeed scopes).
Definition recordFailure (scopes : list string) : L () :=
  run now <- now_;
  λ w, ((w.1, set_lim (RecordFailure scopes now (lg_lim w.2)) w.2), Ok ()).

(** ** The account service with the server's parameters *)

#[local] Abbreviation acc_AuthenticateIdentifier := (AuthenticateIdentifier (ae_IDKey G) (ae_db G) (ae_dbclock G)).
#[local] Abbreviation acc_AuthenticateChallenge := (AuthenticateChallenge (ae_pem_Decode G) (ae_ed_Verify G) (ae_db G) (ae_dbclock G)).
#[local] Abbreviation acc_LookupUser := (LookupUser (ae_db G) (ae_dbclock G)).
#[local] Abbreviation acc_LookupUserByPublicKey := (LookupUserByPublicKey (ae_db G) (ae_dbclock G)).
#[local] Abbreviation acc_LookupActiveBan := (LookupActiveBan (ae_db G) (ae_dbclock G)).
#[local] Abbreviation acc_BindPublicKey := (BindPublicKey (ae_db G) (ae_dbclock G)).
#[local] Abbreviation scope_ := (LoginFailureScope (ae_sha256 G) (ce_text F)).

Definition remoteIP (id : string) : string := default (ae_addr G id) (ae_host G (ae_addr G id)).

(** Without the override [deps.VerifyServerPassword], which only tests wire. *)
Definition verifyServerPassword (password encodedHash : string) : bool :=
  is_ok (VerifyPassword (ae_IDKey G) password encodedHash).

Definition sendError_ (client : Conn) (code : Z) (message : string) : L () := on_srv (sendErrorFor E client code message).
Definition respond (client : Conn) (r : AuthResponse) : L () := on_srv (writeMessage E (cn_ID client) (MAuthResponse r)).
Definition deny (client : Conn) (reason : string) : L () := respond client (refusal reason).
Definition deny_locked (client : Conn) : L () := deny client "too many failed logins, try again later".

(** [banRejectReason]: "" when clear, [None] when the lookup fails. *)
Definition banRejectReason (uniqueID ip : string) : L (option string) :=
  run r <- on_acc (acc_LookupActiveBan uniqueID ip);
  se_ret (match r with
          | Err _ => None
          | Ok None => Some ""
          | Ok (Some b) => Some (if bool_decide (bn_Reason b = "") then "banned" else "banned: " +:+ bn_Reason b)
          end).

Definition dedupeNickname (nickname : string) : L string := λ w,
  let taken : gset string := list_to_set (cn_Username <$> filter (λ c, cn_authed c = true) (range (sv_clients w.1.1)).*2) in
  (w, Ok (if bool_decide (nickname ∈ taken) then
            default nickname (free_nickname (S (size taken)) taken nickname 2)
          else nickname)).

(** [newGuestUniqueID]: eight random bytes, the time when the source fails. *)
Definition newGuestUniqueID : L string :=
  run b <- draw 8;
  match b with
  | Some b => se_ret ("guest:" +:+ hex b)
  | None => run now <- now_; se_ret ("guest:" +:+ hex_number now)
  end.

(** ** The rules ([rules/rules.go]) *)

Definition rules_Hash (text : string) : string :=
  if bool_decide (te_TrimSpace (ce_text F) text = "") then "" else hex (ae_sha256 G (bytes_of_string text)).

(** [None] stands for an error. *)
Definition rules_Text : L (option (string * string)) :=
  run r <- on_relay (on_db (GetServerSetting (ce_db F) (ce_dbclock F) SettingKey));
  se_ret (match r with Ok (value, _) => Some (value, rules_Hash value) | Err _ => None end).

Definition rules_Set (text : string) : L bool :=
  run r <- on_relay (on_db (SetServerSetting (ce_db F) (ce_dbclock F) SettingKey text 0));
  se_ret (is_ok r).

Definition rules_Pending (userID : Z) : L (option (string * string * bool)) :=
  run t <- rules_Text;
  match t with
  | None => se_ret None
  | Some (text, hash) =>
      if bool_decide (hash = "") then se_ret (Some ("", "", false))
      else
        run r <- on_acc (select (ae_db G) (ae_dbclock G) (λ _ a, ac_accepted a !! userID));
        se_ret (match r with
                | Err _ => None
                | Ok None => Some (text, hash, true)
                | Ok (Some accepted) => Some (text, hash, negb (bool_decide (accepted = hash)))
                end)
  end.

Definition rules_Accept (userID : Z) (hash : string) : L bool :=
  run t <- rules_Text;
  match t with
  | None => se_ret false
  | Some (_, current) =>
      if bool_decide (current = "") then se_ret false
      else if negb (bool_decide (hash = current)) then se_ret false
      else
        run r <- on_acc (statement (ae_db G) (ae_dbclock G) (λ _ a, Ok (set_accepted <[userID := current]> a, ())));
        se_ret (is_ok r)
  end.

Definition rules_AcceptedCount : L (option Z) :=
  run t <- rules_Text;
  match t with
  | None => se_ret None
  | Some (_, hash) =>
      if bool_decide (hash = "") then se_ret (Some 0)
      else
        run r <- on_acc (select (ae_db G) (ae_dbclock G) (λ _ a,
                           Z.of_nat (size (filter (λ '(_, h), h = hash) (ac_accepted a)))));
        se_ret (match r with Ok n => Some n | Err _ => None end)
  end.

Definition sendPendingRules (client : Conn) (guest : bool) : L () :=
  if negb (ae_rules G) then se_ret ()
  else
    run r <- (if guest then
                run t <- rules_Text;
                se_ret (match t with Some (text, hash) => Some (text, hash, negb (bool_decide (hash = ""))) | None => None end)
              else rules_Pending (cn_userID client));
    match r with
    | None => se_ret ()
    | Some (text, hash, pending) =>
        if negb pending then se_ret ()
        else
          run _ <- on_srv (set_conn (setRulesPending true client));
          on_srv (ignore (writeMessage E (cn_ID client) (MServerRules text hash)))
    end.

Definition handleServerRulesAccept (client : Conn) (msg : option string) : L () :=
  match msg with
  | None => sendError_ client errCodeMalformed "malformed server_rules_accept: "
  | Some msg_hash =>
      if negb (ae_rules G) then sendError_ client errCodeUnavailable "server rules unavailable"
      else
        run t <- rules_Text;
        match t with
        | None => sendError_ client errCodeUnavailable "server rules unavailable"
        | Some (text, hash) =>
            if bool_decide (hash = "") || negb (bool_decide (msg_hash = hash)) then
              run _ <- sendError_ client errCodeMalformed "the server rules changed since they were shown";
              run _ <- on_srv (set_conn (setRulesPending (negb (bool_decide (hash = ""))) client));
              on_srv (writeMessage E (cn_ID client) (MServerRules text hash))
            else
              run ok <- (if negb (cn_userID client =? 0) then rules_Accept (cn_userID client) msg_hash else se_ret true);
              if negb ok then sendError_ client errCodeUnavailable "recording the acceptance failed"
              else
                run _ <- on_srv (set_conn (setRulesPending false client));
                on_srv (writeMessage E (cn_ID client) (MServerRules "" ""))
        end
  end.

(** ** Completing a login *)

Definition assignDefaultGroup (client : Conn) : L () := λ w,
  if (cn_userID client =? 0) || (ae_memberGroup G =? 0) then (w, Ok ())
  else
    match ae_groupIDs G (lg_reads w.2) (cn_userID client) with
    | Some [] =>
        if ae_assign_ok G (lg_reads w.2)
        then on_srv (effect_ (GroupAssigned (ae_memberGroup G) (cn_userID client))) (w.1, tick_lread w.2)
        else ((w.1, tick_lread w.2), Ok ())
    | _ => ((w.1, tick_lread w.2), Ok ())
    end.

(** [ClientIsBot]: the account's own flag, without the admin bypass. *)
Definition ClientIsBot (client : Conn) : H bool := λ s,
  if cn_userID client =? 0 then (s, Ok false)
  else
    (tick_load s, Ok (match @LoadForClient (env_perms E (sv_loads s)) (cn_userID client) 0 with
                      | Err _ => false
                      | Ok tp => match Resolve tp PermissionKeyClientIsBot with
                                 | Ok (perm, _) => negb (Negate perm) && negb (Value perm =? 0)
                                 | Err _ => false
                                 end
                      end)).

Definition attachChatKeysAndMOTD (pub : string) (resp : AuthResponse) : C AuthResponse :=
  if bool_decide (pub = "") then
    if ce_allowPlaintext F then
      run motd <- serverSettingPlain E F "motd";
      se_ret (with_motd motd (ar_MOTDEnc resp) (ar_MOTDKeyID resp) resp)
    else se_ret resp
  else if negb (keys_configured E) then se_ret resp
  else
    run cur <- on_server (k_current E globalChatScope);
    match cur with
    | Err _ => se_ret resp
    | Ok (gen, _) =>
        run ck <- on_server (k_sealFor E globalChatScope gen pub);
        match ck with
        | Err _ => se_ret resp
        | Ok ck =>
            let resp := with_keys [ck] resp in
            run m <- serverSettingSealed E F "motd";
            se_ret (match m with
                    | Some (motd, gen) => if bool_decide (motd = "") then resp else with_motd motd true gen resp
                    | None => resp
                    end)
        end
    end.

Definition sendSnapshot (client : Conn) : L () :=
  run now <- now_;
  on_srv (λ s, writeMessage E (cn_ID client)
                 (MSnapshot (BuildSnapshot (Some (sv_state s, sv_state s)) (cn_isAdmin client) (cn_UniqueID client) now)) s).

(** [AddClient] and [Register]: the session is visible from here on. *)
Definition enter (client : Conn) (pub : string) : L () :=
  run now <- now_;
  run bot <- on_srv (ClientIsBot client);
  run _ <- on_srv (on_state_ (AddClient (Some
    (mkClient (cn_ID client) (cn_UniqueID client) (cn_Username client) 0 false false "" "" "" bot now
       (Some (ae_conn G (cn_ID client))) None))));
  run _ <- (if bool_decide (pub = "") then se_ret () else on_srv (on_state_ (SetE2EPublicKey (cn_ID client) pub)));
  on_srv (λ s, (add_effect (Registered (cn_ID client) (env_write_ok E (length (sv_log s)))) s, Ok ())).

(** The announcement in force, as the first live event. *)
Definition announce_to (client : Conn) : L () :=
  run ann <- on_relay (serverSettingSealed E F "announcement");
  match ann with
  | Some (text, gen) =>
      if bool_decide (text = "") then se_ret ()
      else on_srv (ignore (writeMessage E (cn_ID client) (MEvent (EvAnnouncement text (0 <? gen) gen))))
  | None => se_ret ()
  end.

(** The part of [finishAuth] behind [setIdentity]. *)
Definition start_session (client : Conn) (id : authIdentity) : L () :=
  run _ <- (if negb (ai_guest id) then
              match ae_host G (ae_addr G (cn_ID client)) with
              | Some host => on_srv (effect_ (LastIPRecorded (ai_userID id) host))
              | None => se_ret ()
              end
            else se_ret ());
  run _ <- (if negb (ai_guest id) then assignDefaultGroup client else se_ret ());
  run pub <- on_hs (cn_ID client) (λ h, (h, hs_x25519Key h));
  run _ <- enter client pub;
  run resp <- on_relay (attachChatKeysAndMOTD pub
    {| ar_Capabilities := [CapabilityGroupAssignAck]; ar_OK := true; ar_ClientID := cn_ID client;
       ar_UniqueID := ai_uniqueID id; ar_Nickname := ai_nickname id; ar_Reason := "";
       ar_ICEServers := ae_ICEServers G (ai_uniqueID id); ar_TLSFingerprint := ae_tlsFingerprint G; ar_MOTD := "";
       ar_MOTDEnc := false; ar_MOTDKeyID := 0; ar_ChatKeys := []; ar_IsAdmin := ai_admin id |});
  run _ <- respond client resp;
  run _ <- sendSnapshot client;
  run _ <- on_srv (sendSubscriptionState E client);
  run _ <- announce_to client;
  run _ <- (if negb (ai_guest id) then on_relay (deliverSpooled E F client (ai_userID id)) else se_ret ());
  run _ <- sendPendingRules client (ai_guest id);
  on_srv (effect_ (ToAll (EvUserJoined (cn_ID client) (ai_uniqueID id) (ai_nickname id)))).

Definition finishAuth (client : Conn) (id : authIdentity) : L () :=
  let client := setIdentity id client in
  run _ <- on_srv (set_conn client);
  start_session client id.

Definition completeAuthForUser (client : Conn) (user : User) : L () :=
  let nickname := if bool_decide (us_Nickname user = "") then us_UniqueID user else us_Nickname user in
  finishAuth client {| ai_uniqueID := us_UniqueID user; ai_nickname := nickname; ai_userID := us_ID user;
                       ai_admin := us_IsAdmin user; ai_guest := false |}.

Definition completeAuth (client : Conn) (uniqueID : string) : L () :=
  run user <- on_acc (acc_LookupUser uniqueID);
  match user with
  | Err ErrUserNotFound => deny client "invalid credentials"
  | Err _ => deny client "internal error"
  | Ok user => completeAuthForUser client user
  end.

Definition completeGuestAuth (client : Conn) (uniqueID nickname : string) : L () :=
  run nickname <- dedupeNickname (if bool_decide (nickname = "") then "guest" else nickname);
  finishAuth client {| ai_uniqueID := uniqueID; ai_nickname := nickname; ai_userID := 0; ai_admin := false; ai_guest := true |}.

(** ** The login requests *)

(** A password login, its scopes reserved. *)
Definition password_login (client : Conn) (msg : Authenticate) (attempt : nat) (principalScope : string) : L () :=
  run user <- on_acc (acc_AuthenticateIdentifier (am_Username msg) (am_Password msg));
  match user with
  | Err ErrUserNotFound => run _ <- attempt_Fail attempt; deny client "invalid credentials"
  | Err _ => deny client "internal error"
  | Ok None => run _ <- attempt_Fail attempt; deny client "invalid credentials"
  | Ok (Some user) =>
      run _ <- (if bool_decide (am_PublicKey msg = "") then se_ret ()
                else run _ <- on_acc (acc_BindPublicKey (us_ID user) (am_PublicKey msg)); se_ret ());
      run _ <- attempt_Succeed attempt [principalScope];
      completeAuthForUser client user
  end.

(** The part behind the server password. *)
Definition authenticate_account (client : Conn) (msg : Authenticate) (ip : string) : L () :=
  let accountSourceScope := scope_ ("tcp:" +:+ ip) "" in
  let principalScope := scope_ "" (am_Username msg) in
  if am_Anonymous msg && negb (bool_decide (am_Password msg = "")) then
    run _ <- recordFailure [accountSourceScope; principalScope];
    deny client "anonymous login takes no password"
  else if am_Anonymous msg && bool_decide (am_Username msg = "") && bool_decide (am_Password msg = "") then
    run guest <- newGuestUniqueID;
    completeGuestAuth client guest (am_Nickname msg)
  else if bool_decide (am_Password msg = "") then
    run a <- reserve [accountSourceScope; principalScope];
    match a with
    | None => deny_locked client
    | Some a =>
        run _ <- attempt_Cancel a;
        run ch <- draw 32;
        match ch with
        | None => deny client "internal error"
        | Some ch =>
            run now <- now_;
            run _ <- on_hs (cn_ID client) (λ h, (setChallenge (am_Username msg) (am_Nickname msg) ch (now + authChallengeTTL) h, ()));
            on_srv (writeMessage E (cn_ID client) (MAuthChallenge ch))
        end
    end
  else
    run a <- reserve [accountSourceScope; principalScope];
    match a with
    | None => deny_locked client
    | Some a => deferred (attempt_Cancel a) (password_login client msg a principalScope)
    end.

Definition handleAuthenticate (client : Conn) (msg : option Authenticate) : L () :=
  match msg with
  | None => sendError_ client errCodeMalformed "malformed authenticate: "
  | Some msg =>
      if cn_authed client then sendError_ client errCodeMalformed "already authenticated"
      else
        run _ <- (if bool_decide (am_X25519PublicKey msg = "") then se_ret ()
                  else on_hs (cn_ID client) (λ h, (setX25519 (am_X25519PublicKey msg) h, ())));
        if negb (ae_auth G) then sendError_ client errCodeUnavailable "authentication backend unavailable"
        else
          let ip := remoteIP (cn_ID client) in
          let serverPasswordScope := scope_ ("tcp-server-password:" +:+ ip) "" in
          run ban <- banRejectReason (am_Username msg) ip;
          match ban with
          | None => deny client "internal error"
          | Some reason =>
              if negb (bool_decide (reason = "")) then deny client reason
              else if bool_decide (ae_serverPasswordHash G = "") then authenticate_account client msg ip
              else
                run a <- reserve [serverPasswordScope];
                match a with
                | None => deny_locked client
                | Some a =>
                    deferred (attempt_Cancel a)
                      (if negb (verifyServerPassword (am_ServerPassword msg) (ae_serverPasswordHash G)) then
                         run _ <- attempt_Fail a;
                         deny client "invalid server password"
                       else
                         run _ <- attempt_Succeed a [serverPasswordScope];
                         authenticate_account client msg ip)
                end
          end
  end.

(** The signature of a presented public key, its scopes reserved. *)
Definition guest_signature (client : Conn) (msg : AuthSignature) (uniqueID : string) (attempt : nat)
    (principalScope : string) : L () :=
  run now <- now_;
  run taken <- on_hs (cn_ID client) (takeChallenge "" now);
  match taken with
  | None => run _ <- attempt_Fail attempt; deny client "no pending challenge"
  | Some (challenge, nickname) =>
      if negb (is_ok (VerifyChallenge (ae_pem_Decode G) (ae_ed_Verify G) (sg_PublicKey msg) challenge (sg_Signature msg)))
      then run _ <- attempt_Fail attempt; deny client "invalid credentials"
      else
        run user <- on_acc (acc_LookupUser uniqueID);
        match user with
        | Ok _ => run _ <- attempt_Succeed attempt [principalScope]; completeAuth client uniqueID
        | Err ErrUserNotFound =>
            run bound <- on_acc (acc_LookupUserByPublicKey (sg_PublicKey msg));
            match bound with
            | Ok user => run _ <- attempt_Succeed attempt [principalScope]; completeAuthForUser client user
            | Err ErrUserNotFound =>
                run _ <- attempt_Succeed attempt [principalScope];
                completeGuestAuth client uniqueID nickname
            | Err _ => deny client "internal error"
            end
        | Err _ => deny client "internal error"
        end
  end.

Definition handleGuestSignature (client : Conn) (msg : AuthSignature) : L () :=
  let ip := remoteIP (cn_ID client) in
  let sourceScope := scope_ ("tcp:" +:+ ip) "" in
  match UniqueIDFromPublicKey (ae_sha256 G) (ae_pem_Decode G) (sg_PublicKey msg) with
  | Err _ =>
      run a <- reserve [sourceScope; scope_ "" (sg_PublicKey msg)];
      match a with
      | None => deny_locked client
      | Some a => run _ <- attempt_Fail a; deny client "invalid public key"
      end
  | Ok uniqueID =>
      let principalScope := scope_ "" uniqueID in
      run ban <- banRejectReason uniqueID ip;
      match ban with
      | None => deny client "internal error"
      | Some reason =>
          if negb (bool_decide (reason = "")) then deny client reason
          else
            run a <- reserve [sourceScope; principalScope];
            match a with
            | None => deny_locked client
            | Some a => deferred (attempt_Cancel a) (guest_signature client msg uniqueID a principalScope)
            end
      end
  end.

(** The signature of a registered user, its scopes reserved. *)
Definition user_signature (client : Conn) (msg : AuthSignature) (attempt : nat) (principalScope : string) : L () :=
  run now <- now_;
  run taken <- on_hs (cn_ID client) (takeChallenge (sg_UniqueID msg) now);
  match taken with
  | None => run _ <- attempt_Fail attempt; deny client "no pending challenge"
  | Some (challenge, _) =>
      run verified <- on_acc (acc_AuthenticateChallenge (sg_UniqueID msg) challenge (sg_Signature msg));
      match verified with
      | Err ErrUserNotFound | Ok false => run _ <- attempt_Fail attempt; deny client "invalid credentials"
      | Err _ => deny client "internal error"
      | Ok true =>
          run _ <- attempt_Succeed attempt [principalScope];
          completeAuth client (sg_UniqueID msg)
      end
  end.

Definition handleAuthSignature (client : Conn) (msg : option AuthSignature) : L () :=
  match msg with
  | None => sendError_ client errCodeMalformed "malformed auth_signature: "
  | Some msg =>
      if cn_authed client then sendError_ client errCodeMalformed "already authenticated"
      else
        run _ <- (if bool_decide (sg_X25519PublicKey msg = "") then se_ret ()
                  else on_hs (cn_ID client) (λ h, (setX25519 (sg_X25519PublicKey msg) h, ())));
        if negb (ae_auth G) then sendError_ client errCodeUnavailable "authentication backend unavailable"
        else if negb (bool_decide (sg_PublicKey msg = "")) then handleGuestSignature client msg
        else
          let principalScope := scope_ "" (sg_UniqueID msg) in
          run a <- reserve [scope_ ("tcp:" +:+ remoteIP (cn_ID client)) ""; principalScope];
          match a with
          | None => deny_locked client
          | Some a => deferred (attempt_Cancel a) (user_signature client msg a principalScope)
          end
  end.

(** ** Frames ([tcp.go]) *)

(** The requests whose handlers are modelled, as the client sends them. *)
Inductive client_request :=
| QSubscribe (msg : option (list Z * bool)) | QKeyPublish (msg : option string) | QKeyRequest (msg : option string)
| QChatKeys (msg : option (Z * list Z)) | QJoin (msg : option (Z * string)) | QMove (msg : option (string * Z))
| QKick (msg : option KickMsg) | QSend (msg : option ChatSend) | QHistory (msg : option ChatHistoryReq)
| QPins (msg : option Z) | QEdit (msg : option ChatEdit) | QDelete (msg : option Z) | QPin (msg : option ChatPin)
| QReact (msg : option (Z * string)) | QTyping (msg : option TypingMsg) | QDelivered (msg : option ReceiptMsg)
| QRead (msg : option ReceiptMsg) | QFilterGet | QFilterSet (msg : option ChatFilterSet).

Inductive frame :=
| FAuthenticate (msg : option Authenticate)
| FAuthSignature (msg : option AuthSignature)
| FServerRulesAccept (msg : option string)
| FPing
| FPong
| FRequest (r : client_request)
| FOther (type : Z)                   (* a type whose handler is not modelled *)
| FUnknown (type : Z).

Definition handler_of (client : Conn) (r : client_request) : chat_request :=
  match r with
  | QSubscribe msg => CServer (RSubscribe client msg)
  | QKeyPublish msg => CServer (RKeyPublish client msg)
  | QKeyRequest msg => CServer (RKeyRequest client msg)
  | QChatKeys msg => CServer (RChatKeys client msg)
  | QJoin msg => CServer (RJoin client msg)
  | QMove msg => CServer (RMove client msg)
  | QKick msg => CServer (RKick client msg)
  | QSend msg => CSend client msg
  | QHistory msg => CHistory client msg
  | QPins msg => CPins client msg
  | QEdit msg => CEdit client msg
  | QDelete msg => CDelete client msg
  | QPin msg => CPin client msg
  | QReact msg => CReact client msg
  | QTyping msg => CTyping client msg
  | QDelivered msg => CDelivered client msg
  | QRead msg => CRead client msg
  | QFilterGet => CFilterGet client
  | QFilterSet msg => CFilterSet client msg
  end.

Definition before_auth (f : frame) : bool :=
  match f with FAuthenticate _ | FAuthSignature _ | FPing => true | _ => false end.

Definition allowedWhileRulesPending (f : frame) : bool :=
  match f with FServerRulesAccept _ | FPing | FPong => true | _ => false end.

(** The handlers that are not modelled. *)
Context (others : Z → Conn → L ()).

Definition dispatch (client : Conn) (f : frame) : L () :=
  if negb (cn_authed client) && negb (before_auth f) then
    sendError_ client errCodeNotAuthenticated "not authenticated"
  else if cn_rulesPending client && negb (allowedWhileRulesPending f) then
    sendError_ client errCodePermissionDenied "accept the server rules before continuing"
  else
    match f with
    | FAuthenticate msg => handleAuthenticate client msg
    | FAuthSignature msg => handleAuthSignature client msg
    | FServerRulesAccept msg => handleServerRulesAccept client msg
    | FPing => on_srv (writeMessage E (cn_ID client) MPong)
    | FPong => se_ret ()
    | FRequest r => on_relay (chat_serve E F (handler_of client r))
    | FOther type => others type client
    | FUnknown type => sendError_ client errCodeUnknown ("unknown message type " +:+ pretty type)
    end.

(** ** Connections *)

(** The deferred end of [handleConn]: [unregister] and [onDisconnect]. *)
Definition disconnect (id : string) : L () := λ w,
  match sv_clients w.1.1 !! id with
  | None => (w, Ok ())
  | Some client =>
      on_srv (run _ <- se_modify (set_conns (delete id)); run _ <- onDisconnect E client; effect_ (ConnClosed id)) w
  end.

(** One turn of the read loop: an error of the handler ends the connection. A read
    error and the deadline of the unauthenticated exchange are a [disconnect]. *)
Definition serve_frame (id : string) (f : frame) : L () := λ w,
  match sv_clients w.1.1 !! id with
  | None => (w, Ok ())
  | Some client =>
      match dispatch client f w with
      | (w', Ok _) => (w', Ok ())
      | (w', Err _) => disconnect id w'
      end
  end.

Definition EffectiveMaxClients : L Z :=
  run value <- on_relay (serverSetting F "max_clients_override");
  se_ret (match ParseInt value with
          | Some override => if bool_decide (value = "") || (override <? 0) then ae_maxClients G else override
          | None => ae_maxClients G
          end).

Definition clientCount : L Z := λ w, (w, Ok (Z.of_nat (size (sv_clients w.1.1)))).

(** The head of [handleConn]: [register] and the limit on connections. *)
Definition accept (id : string) : L () :=
  run _ <- on_srv (set_conn (new_conn id));
  run _ <- on_hs id (λ _, (no_handshake, ()));
  run max <- EffectiveMaxClients;
  run count <- clientCount;
  if (0 <? max) && (max <? count) then
    run _ <- on_srv (ignore (writeMessage E id (MError errCodeUnavailable "server is full")));
    disconnect id
  else se_ret ().

End flow.
