(* ===== verification/AuthSafety.v ===== *)
(** * What a login does to the server

    A login handler reads and ticks ([calm]): until it completes, it changes no
    identity, no membership, no key and no stored message, and writes no scope
    key. It completes at most once, through [finishAuth] on an identity the
    credentials in the frame prove ([outc]). *)

From S2P Require Import Prelude Wire GoState Permissions PermLoader PermCache StateManager StateInvariant StateSpec PermCheck LoginLimiter ChannelManager Broadcast ChatKeys ChatKeysSafety ChatText Passwords ServerWorld ChatScope ClientMoves ChatScopeSafety ChatScopeProps ChatStore ChatRelay ChatHandlers ChatStoreProps ChatSafety ChatProps AuthService AuthFlow.

Section safety.
Context (E : Env) (F : ChatEnv) (G : AuthEnv).
Context `{!∀ V, MapRange Z V, !∀ V, MapRange (Z * Z) V, !∀ V, MapRange string V}.
Implicit Types w : World.

Definition keyless (l : list effect) : Prop := ∀ st to m, Wrote st to m ∈ l → keys_in m = [].

Definition challenge_of w (id : string) : option (list Z) := hs_challenge (default no_handshake (lg_hs w.2 !! id)).

(** A step of a handler of [id] before the login completes. A challenge may
    become pending on [id] only if [issue] holds. *)
Record calm (id : string) (issue : Prop) w w' : Prop := {
  ca_chat : w'.1.2 = w.1.2;
  ca_cm : sv_cm w'.1.1 = sv_cm w.1.1;
  ca_keys : sv_keys w'.1.1 = sv_keys w.1.1;
  ca_clients : sv_clients w'.1.1 = sv_clients w.1.1;
  ca_log : ∃ l, sv_log w'.1.1 = sv_log w.1.1 ++ l ∧ keyless l;
  ca_reads : (lg_reads w.2 ≤ lg_reads w'.2)%nat;
  ca_challenge i : is_Some (challenge_of w' i) → is_Some (challenge_of w i) ∨ (i = id ∧ issue);
}.

#[export] Instance calm_preorder id issue : PreOrder (calm id issue).
Proof.
  split.
  - intros w. split; [done..| |done|by left]. exists []. rewrite app_nil_r. split; [done|]. by intros ??? ?%elem_of_nil.
  - intros w1 w2 w3 [Ha Hb Hc Hd (l & Hl & Hk) Hr Hh] [Ha' Hb' Hc' Hd' (l' & Hl' & Hk') Hr' Hh'].
    split; [congruence..| |lia|].
    + exists (l ++ l'). split; [by rewrite Hl', Hl, (assoc_L (++))|].
      intros st to m [Hin|Hin]%elem_of_app; [by eapply Hk|by eapply Hk'].
    + intros i [Hi|Hi]%Hh'; [by apply Hh|by right].
Qed.

(** ** Credentials *)

Definition users w : gmap Z UserRow := ac_users (lg_acc w.2).

Definition user_identity (id : Z) (row : UserRow) : authIdentity :=
  let u := user_of id row in
  {| ai_uniqueID := us_UniqueID u;
     ai_nickname := if bool_decide (us_Nickname u = "") then us_UniqueID u else us_Nickname u;
     ai_userID := id; ai_admin := us_IsAdmin u; ai_guest := false |}.

Definition guest_identity (uniqueID nickname : string) : authIdentity :=
  {| ai_uniqueID := uniqueID; ai_nickname := nickname; ai_userID := 0; ai_admin := false; ai_guest := true |}.

(** The global password was sent, if there is one. *)
Definition knows_server_password (msg : Authenticate) : Prop :=
  ae_serverPasswordHash G = "" ∨
  VerifyPassword (ae_IDKey G) (am_ServerPassword msg) (ae_serverPasswordHash G) = Ok ().

(** The connection has a pending challenge, issued for this unique id (any if
    empty), that has not expired at the time the server looks. *)
Definition pending_challenge w (id uniqueID : string) (ch : list Z) : Prop :=
  let h := default no_handshake (lg_hs w.2 !! id) in
  hs_challenge h = Some ch ∧ (uniqueID = "" ∨ hs_challengeUID h = uniqueID) ∧
  ∃ n, (lg_reads w.2 ≤ n)%nat ∧ ae_clock G n ≤ hs_challengeExp h.

#[local] Abbreviation verifies pk ch sig := (VerifyChallenge (ae_pem_Decode G) (ae_ed_Verify G) pk ch sig = Ok ()).

(** The identities that a frame on connection [id] proves in world [w]. *)
Inductive credentials w (id : string) : frame → authIdentity → Prop :=
| cred_password msg uid row hash :
    knows_server_password msg → am_Password msg ≠ "" → users w !! uid = Some row → names (am_Username msg) row →
    ur_password_hash row = Some hash → VerifyPassword (ae_IDKey G) (am_Password msg) hash = Ok () →
    credentials w id (FAuthenticate (Some msg)) (user_identity uid row)
| cred_anonymous msg suffix nick :
    knows_server_password msg → am_Anonymous msg = true → am_Username msg = "" → am_Password msg = "" →
    credentials w id (FAuthenticate (Some msg)) (guest_identity ("guest:" +:+ suffix) nick)
| cred_signature msg ch uid0 row0 pk uid row :
    sg_PublicKey msg = "" → pending_challenge w id (sg_UniqueID msg) ch →
    users w !! uid0 = Some row0 → ur_unique_id row0 = sg_UniqueID msg → ur_public_key row0 = Some pk →
    verifies pk ch (sg_Signature msg) →
    users w !! uid = Some row → ur_unique_id row = sg_UniqueID msg →
    credentials w id (FAuthSignature (Some msg)) (user_identity uid row)
| cred_key msg ch derived uid row :
    UniqueIDFromPublicKey (ae_sha256 G) (ae_pem_Decode G) (sg_PublicKey msg) = Ok derived →
    pending_challenge w id "" ch → verifies (sg_PublicKey msg) ch (sg_Signature msg) →
    users w !! uid = Some row → ur_unique_id row = derived ∨ ur_public_key row = Some (sg_PublicKey msg) →
    credentials w id (FAuthSignature (Some msg)) (user_identity uid row)
| cred_guest_key msg ch derived nick :
    UniqueIDFromPublicKey (ae_sha256 G) (ae_pem_Decode G) (sg_PublicKey msg) = Ok derived →
    pending_challenge w id "" ch → verifies (sg_PublicKey msg) ch (sg_Signature msg) →
    (∀ uid row, users w !! uid = Some row → ur_unique_id row ≠ derived ∧ ur_public_key row ≠ Some (sg_PublicKey msg)) →
    credentials w id (FAuthSignature (Some msg)) (guest_identity derived nick).

Section handler.
Context (client : Conn) (issue : Prop).
#[local] Abbreviation calm_ := (calm (cn_ID client) issue).

(** A program whose run is calm, with what its answer satisfies. *)
Definition cpost {A} (m : L A) w (Q : A → World → Prop) : Prop :=
  calm_ w (m w).1 ∧ ∀ a, (m w).2 = Ok a → Q a (m w).1.

(** The outcome of a login handler: it was calm throughout, or it completed a login
    with an identity that satisfies [P]. *)
Definition outc (P : authIdentity → Prop) w w' : Prop :=
  calm_ w w' ∨ ∃ ai w1, P ai ∧ calm_ w w1 ∧ calm_ (finishAuth E F G client ai w1).1 w'.

Definition login (P : authIdentity → Prop) (m : L ()) w : Prop := outc P w (m w).1.

Lemma outc_after P w w1 w' : calm_ w w1 → outc P w1 w' → outc P w w'.
Proof.
  intros Hc [Hq|(ai & w2 & HP & H1' & H2')]; [left; by etrans|]. right. exists ai, w2. split_and!; [done|by etrans|done].
Qed.

Lemma cpost_ret {A} (a : A) w (Q : A → World → Prop) : Q a w → cpost (se_ret a) w Q.
Proof. intros HQ. split; [reflexivity|]. by intros ? [= <-]. Qed.

Lemma cpost_bind {A B} (m : L A) (k : A → L B) w Q R :
  cpost m w Q → (∀ a w1, calm_ w w1 → Q a w1 → cpost (k a) w1 R) → cpost (se_bind m k) w R.
Proof.
  intros [Hc HQ] Hk. unfold cpost, se_bind. destruct (m w) as [w1 [a|e]]; cbn [fst snd] in *; [|by split].
  destruct (Hk a w1 Hc (HQ a eq_refl)) as [Hc' HR]. split; [by etrans|done].
Qed.

Lemma cpost_weaken {A} (m : L A) w (Q R : A → World → Prop) :
  (∀ a w', calm_ w w' → Q a w' → R a w') → cpost m w Q → cpost m w R.
Proof. intros HQR [Hc HQ]. split; [done|]. intros a Ha. apply HQR; [done|by apply HQ]. Qed.

Lemma cpost_true {A} (m : L A) w Q : cpost m w Q → cpost m w (λ _ _, True).
Proof. apply cpost_weaken. done. Qed.

Lemma login_bind {A} P (m : L A) (k : A → L ()) w Q :
  cpost m w Q → (∀ a w1, calm_ w w1 → Q a w1 → login P (k a) w1) → login P (se_bind m k) w.
Proof.
  intros [Hc HQ] Hk. unfold login, se_bind. destruct (m w) as [w1 [a|e]]; cbn [fst snd] in *; [|by left].
  eapply outc_after; [done|]. by apply Hk; [|apply HQ].
Qed.

Lemma login_calm P m w Q : cpost m w Q → login P m w.
Proof. intros [Hc _]. by left. Qed.

Lemma login_finish P ai w : P ai → login P (finishAuth E F G client ai) w.
Proof. intros HP. right. exists ai, w. split_and!; [done|reflexivity..]. Qed.

Lemma login_deferred P d m w : (∀ w, calm_ w (d w).1) → login P m w → login P (deferred d m) w.
Proof.
  intros Hd Hm. unfold login, deferred in *. destruct (m w) as [w1 r]. cbn [fst] in *.
  destruct Hm as [Hc|(ai & w2 & HP & H1' & H2')]; [left; by etrans|]. right. exists ai, w2.
  split_and!; [done..|by etrans].
Qed.

(** ** The steps *)

(** A change of [Login] alone that makes no challenge pending. *)
Lemma calm_login w l' :
  (lg_reads w.2 ≤ lg_reads l')%nat → (∀ i, is_Some (challenge_of (w.1, l') i) → is_Some (challenge_of w i) ∨ (i = cn_ID client ∧ issue)) → calm_ w (w.1, l').
Proof. intros Hr Hh. split; [done..| |done|done]. exists []. rewrite app_nil_r. split; [done|]. by intros ??? ?%elem_of_nil. Qed.

Lemma now_post w : cpost (now_ G) w (λ t w', t = ae_clock G (lg_reads w.2) ∧ users w' = users w ∧ lg_hs w'.2 = lg_hs w.2).
Proof. split; [apply calm_login; [cbn; lia|by left]|]. by intros ? [= <-]. Qed.

Lemma draw_post n w : cpost (draw G n) w (λ b w', b = ae_rnd G (lg_draws w.2) n ∧ users w' = users w).
Proof. split; [apply calm_login; [cbn; lia|by left]|]. by intros ? [= <-]. Qed.

Lemma reserve_post scopes w : cpost (reserve G scopes) w (λ _ w', users w' = users w ∧ lg_hs w'.2 = lg_hs w.2).
Proof.
  eapply cpost_bind; [apply now_post|]. intros t w1 _ (-> & Hu & Hh).
  unfold cpost. destruct (Reserve scopes _ (lg_lim w1.2)) as [[a|] l]; cbn [fst snd].
  all: split; [apply calm_login; [cbn; lia|by left]|]; by intros ? [= <-].
Qed.

Lemma attempt_post n f w : cpost (on_attempt G n f) w (λ _ w', users w' = users w ∧ lg_hs w'.2 = lg_hs w.2).
Proof.
  eapply cpost_bind; [apply now_post|]. intros t w1 _ (-> & Hu & Hh).
  unfold cpost. destruct (lg_attempts w1.2 !! n) as [a|]; [|split; [reflexivity|by intros ? [= <-]]].
  destruct (f _ a (lg_lim w1.2)) as [a' l]; cbn [fst snd]. split; [apply calm_login; [cbn; lia|by left]|]. by intros ? [= <-].
Qed.

Lemma cancel_calm n w : calm_ w (attempt_Cancel G n w).1.
Proof. apply attempt_post. Qed.

Lemma record_post scopes w : cpost (recordFailure G scopes) w (λ _ _, True).
Proof.
  eapply cpost_bind; [apply now_post|]. intros t w1 _ _. split; [apply calm_login; by left|done].
Qed.

Lemma acc_post {A} (m : AuthService.A A) w :
  cpost (on_acc m) w (λ r w', m (lg_acc w.2) = (lg_acc w'.2, r) ∧ lg_hs w'.2 = lg_hs w.2).
Proof.
  unfold cpost, on_acc. destruct (m (lg_acc w.2)) as [a r]. cbn [fst snd].
  split; [apply calm_login; [cbn; lia|by left]|]. by intros ? [= <-].
Qed.

Lemma hs_post {A} (f : Handshake → Handshake * A) w :
  (is_Some (hs_challenge (f (default no_handshake (lg_hs w.2 !! cn_ID client))).1) →
     is_Some (challenge_of w (cn_ID client)) ∨ issue) →
  cpost (on_hs (cn_ID client) f) w (λ a w', let r := f (default no_handshake (lg_hs w.2 !! cn_ID client)) in
    a = r.2 ∧ lg_hs w'.2 = <[cn_ID client := r.1]> (lg_hs w.2) ∧ users w' = users w).
Proof.
  intros Hf. unfold cpost, on_hs. destruct (f _) as [h a] eqn:Hh. cbn [fst snd] in *.
  split; [|by intros ? [= <-]]. apply calm_login; [cbn; lia|]. intros i. unfold challenge_of. cbn.
  destruct (decide (i = cn_ID client)) as [->|Hne]; [|rewrite lookup_insert_ne by done; by left].
  rewrite lookup_insert_eq. cbn. intros [?|?]%Hf; auto.
Qed.

(** A frame that carries no scope key. *)
Lemma write_post m w :
  keys_in m = [] → cpost (on_srv (writeMessage E (cn_ID client) m)) w (λ _ _, True).
Proof.
  intros Hm. unfold cpost, on_srv, on_relay, on_server, writeMessage.
  destruct (env_write_ok E _); cbn [fst snd]; (split; [|done]); (split; [done..| |done|by left]); eexists;
    (split; [reflexivity|]); intros st to m' [= -> -> ->]%list_elem_of_singleton || intros st to m' ?%list_elem_of_singleton; done.
Qed.

Lemma deny_post reason w : cpost (deny E client reason) w (λ _ _, True).
Proof. by apply write_post. Qed.
Lemma error_post code text w : cpost (sendError_ E client code text) w (λ _ _, True).
Proof. by apply write_post. Qed.

Lemma locked_post w : cpost (deny_locked E client) w (λ _ _, True).
Proof. apply deny_post. Qed.

Lemma ban_post uniqueID ip w : cpost (banRejectReason G uniqueID ip) w (λ _ w', users w' = users w ∧ lg_hs w'.2 = lg_hs w.2).
Proof.
  eapply cpost_bind; [apply acc_post|]. intros r w1 _ [Ha Hh]. apply cpost_ret. split; [|done].
  unfold LookupActiveBan in Ha. apply select_spec in Ha as [Ha _]. unfold users. by rewrite Ha.
Qed.

Lemma dedupe_post nick w : cpost (dedupeNickname nick) w (λ _ w', w' = w).
Proof. split; [reflexivity|]. by intros ? [= <-]. Qed.

Lemma guestID_post w : cpost (newGuestUniqueID G) w (λ id _, ∃ s, id = "guest:" +:+ s).
Proof.
  eapply cpost_bind; [apply draw_post|]. intros [b|] w1 _ _; [apply cpost_ret; eauto|].
  eapply cpost_bind; [apply now_post|]. intros t w2 _ _. apply cpost_ret. eauto.
Qed.

(** ** The handlers *)

Lemma complete_user P id row w : P (user_identity id row) → login P (completeAuthForUser E F G client (user_of id row)) w.
Proof. intros HP. by apply login_finish. Qed.

Lemma complete_guest P uniqueID nick w :
  (∀ nick, P (guest_identity uniqueID nick)) → login P (completeGuestAuth E F G client uniqueID nick) w.
Proof. intros HP. eapply login_bind; [apply dedupe_post|]. intros n w1 _ _. apply login_finish, HP. Qed.

Lemma complete_login P uniqueID w :
  (∀ id row, users w !! id = Some row → ur_unique_id row = uniqueID → P (user_identity id row)) →
  login P (completeAuth E F G client uniqueID) w.
Proof.
  intros HP. eapply login_bind; [apply acc_post|]. intros r w1 _ [Hl%LookupUser_spec _].
  destruct Hl as [_ Hr]. destruct r as [u|e]; [|destruct e; eapply login_calm, deny_post].
  destruct Hr as (id & row & Hu & Hid & ->). apply complete_user. by eapply HP.
Qed.

Lemma password_login_out P msg a scope w :
  (∀ uid row hash, users w !! uid = Some row → names (am_Username msg) row → ur_password_hash row = Some hash →
     VerifyPassword (ae_IDKey G) (am_Password msg) hash = Ok () → P (user_identity uid row)) →
  login P (password_login E F G client msg a scope) w.
Proof.
  intros HP. eapply login_bind; [apply acc_post|]. intros r w1 _ [Hr%AuthenticateIdentifier_spec _].
  destruct Hr as (_ & _ & Hr). destruct r as [[u|]|e].
  - destruct Hr as (id & row & hash & Hu & Hn & -> & Hh & Hv).
    eapply login_bind with (Q := λ _ _, True).
    { case_bool_decide; [by apply cpost_ret|]. eapply cpost_bind; [eapply cpost_true, acc_post|]. intros x w2 _ _. by apply cpost_ret. }
    intros [] w2 _ _. eapply login_bind; [apply attempt_post|]. intros [] w3 _ _. apply complete_user. by eapply HP.
  - eapply login_bind; [apply attempt_post|]. intros [] w2 _ _. eapply login_calm, deny_post.
  - destruct Hr as [[-> _]| ->]; [|eapply login_calm, deny_post].
    eapply login_bind; [apply attempt_post|]. intros [] w2 _ _. eapply login_calm, deny_post.
Qed.

End handler.

(** The frame may issue a challenge. *)
Definition may_issue (f : frame) : Prop :=
  match f with FAuthenticate (Some msg) => knows_server_password msg | _ => False end.

#[local] Abbreviation login_ client f w := (login client (may_issue f) (credentials w (cn_ID client) f)).

Lemma authenticate_account_out client msg ip w0 w :
  knows_server_password msg → users w = users w0 →
  login_ client (FAuthenticate (Some msg)) w0 (authenticate_account E F G client msg ip) w.
Proof.
  intros Hsp Hu. unfold authenticate_account.
  destruct (am_Anonymous msg && _).
  { eapply login_bind; [apply record_post|]. intros [] w1 _ _. eapply login_calm, deny_post. }
  destruct (am_Anonymous msg && bool_decide (am_Username msg = "") && bool_decide (am_Password msg = "")) eqn:Hanon.
  { apply andb_true_iff in Hanon as [[Hx Hy%bool_decide_eq_true]%andb_true_iff Hz%bool_decide_eq_true].
    eapply login_bind; [apply guestID_post|]. intros g w1 _ [s ->]. apply complete_guest. intros nick. by constructor. }
  clear Hanon. case_bool_decide as Hpw.
  - eapply login_bind; [apply reserve_post|]. intros [a|] w1 _ _; [|eapply login_calm, locked_post].
    eapply login_bind; [apply attempt_post|]. intros [] w2 _ _.
    eapply login_bind; [apply draw_post|]. intros [ch|] w3 _ _; [|eapply login_calm, deny_post].
    eapply login_bind; [apply now_post|]. intros t w4 _ _.
    eapply login_bind; [apply hs_post; by right|]. intros [] w5 _ _. by eapply login_calm, write_post.
  - eapply login_bind; [apply reserve_post|]. intros [a|] w1 _ [Hu1 _]; [|eapply login_calm, locked_post].
    apply login_deferred; [intros; apply cancel_calm|]. apply password_login_out. intros uid row hash Hrow Hn Hh Hv.
    eapply cred_password; [done..| |done|done|done]. by rewrite <- Hu, <- Hu1.
Qed.

Lemma handleAuthenticate_out client msg w :
  login_ client (FAuthenticate msg) w (handleAuthenticate E F G client msg) w.
Proof.
  unfold handleAuthenticate. destruct msg as [msg|]; [|eapply login_calm, error_post].
  destruct (cn_authed client); [eapply login_calm, error_post|].
  eapply login_bind with (Q := λ _ w', users w' = users w).
  { case_bool_decide; [by apply cpost_ret|]. eapply cpost_weaken; [|apply hs_post; by left]. by intros a w1 _ (_ & _ & ?). }
  intros [] w1 _ Hu1. destruct (negb (ae_auth G)); [eapply login_calm, error_post|]. cbv zeta.
  eapply login_bind; [apply ban_post|]. intros [reason|] w2 _ [Hu2 _]; [|eapply login_calm, deny_post].
  destruct (negb _); [eapply login_calm, deny_post|]. case_bool_decide as Hsp.
  { apply authenticate_account_out; [by left|congruence]. }
  eapply login_bind; [apply reserve_post|]. intros [a|] w3 _ [Hu3 _]; [|eapply login_calm, locked_post].
  apply login_deferred; [intros; apply cancel_calm|]. unfold verifyServerPassword.
  destruct (VerifyPassword (ae_IDKey G) (am_ServerPassword msg) _) as [[]|e] eqn:Hv; cbn [is_ok negb].
  - eapply login_bind; [apply attempt_post|]. intros [] w4 _ [Hu4 _].
    apply authenticate_account_out; [by right|congruence].
  - eapply login_bind; [apply attempt_post|]. intros [] w4 _ _. eapply login_calm, deny_post.
Qed.

(** Taking a challenge that is pending. *)
Lemma take_post client issue uniqueID now w :
  cpost client issue (on_hs (cn_ID client) (takeChallenge uniqueID now)) w (λ r w',
    users w' = users w ∧
    ∀ ch nick, r = Some (ch, nick) →
      let h := default no_handshake (lg_hs w.2 !! cn_ID client) in
      hs_challenge h = Some ch ∧ now ≤ hs_challengeExp h ∧ (uniqueID = "" ∨ hs_challengeUID h = uniqueID)).
Proof.
  eapply cpost_weaken; [|apply hs_post].
  - intros r w1 _ (-> & _ & Hu). split; [done|]. intros ch nick. unfold takeChallenge.
    destruct (hs_challenge _) as [c|] eqn:Hc; [|done]. destruct (_ <? now) eqn:Ht; [done|].
    destruct (negb _ && negb _) eqn:Hm; [done|]. intros [= -> _]. split_and!; [done|lia|].
    apply andb_false_iff in Hm as [Hm|Hm]; apply negb_false_iff, bool_decide_eq_true in Hm; auto.
  - unfold challenge_of, takeChallenge. destruct (hs_challenge (default _ _)) as [c|] eqn:Hc; [by left|].
    cbn. rewrite Hc. by intros [? ?].
Qed.

(** The handshake of [id] in [w] is that of [w0] but for the encryption key. *)
Definition same_challenge (id : string) w0 w : Prop :=
  let h0 := default no_handshake (lg_hs w0.2 !! id) in
  let h := default no_handshake (lg_hs w.2 !! id) in
  hs_challenge h = hs_challenge h0 ∧ hs_challengeUID h = hs_challengeUID h0 ∧ hs_challengeExp h = hs_challengeExp h0.

Lemma same_challenge_hs id w0 w w' : same_challenge id w0 w → lg_hs w'.2 = lg_hs w.2 → same_challenge id w0 w'.
Proof. unfold same_challenge. by intros ? ->. Qed.

(** The two ways to take the challenge lead to the same case. *)
Lemma take_login client f uniqueID (k : option (list Z * string) → L ()) w0 w :
  same_challenge (cn_ID client) w0 w → users w = users w0 → (lg_reads w0.2 ≤ lg_reads w.2)%nat →
  (∀ w1, login_ client f w0 (k None) w1) →
  (∀ ch nick w1, users w1 = users w0 → pending_challenge w0 (cn_ID client) uniqueID ch → login_ client f w0 (k (Some (ch, nick))) w1) →
  login_ client f w0 (run now <- now_ G; run taken <- on_hs (cn_ID client) (takeChallenge uniqueID now); k taken) w.
Proof.
  intros (Hc1 & Hc2 & Hc3) Hu Hr Hnone Hsome. eapply login_bind; [apply now_post|]. intros t w1 Hc (-> & Hu1 & Hh1).
  eapply login_bind; [apply take_post|]. intros [[ch nick]|] w2 _ [Hu2 Ht]; [|apply Hnone].
  destruct (Ht ch nick eq_refl) as (Hch & Hexp & Huid). rewrite Hh1 in Hch, Hexp, Huid.
  apply Hsome; [congruence|]. split_and!; [congruence|by rewrite <- Hc2|]. exists (lg_reads w.2). split; [done|]. by rewrite <- Hc3.
Qed.

Lemma guest_signature_out client msg uniqueID a scope w0 w :
  UniqueIDFromPublicKey (ae_sha256 G) (ae_pem_Decode G) (sg_PublicKey msg) = Ok uniqueID →
  same_challenge (cn_ID client) w0 w → users w = users w0 → (lg_reads w0.2 ≤ lg_reads w.2)%nat →
  login_ client (FAuthSignature (Some msg)) w0 (guest_signature E F G client msg uniqueID a scope) w.
Proof.
  intros Hid Hch Hu Hr. apply take_login; [done..| |].
  { intros w1. eapply login_bind; [apply attempt_post|]. intros [] w2 _ _. eapply login_calm, deny_post. }
  intros ch nick w1 Hu1 Hp. destruct (VerifyChallenge _ _ _ _ _) as [[]|e] eqn:Hv; cbn [is_ok negb].
  2: { eapply login_bind; [apply attempt_post|]. intros [] w2 _ _. eapply login_calm, deny_post. }
  eapply login_bind; [apply acc_post|]. intros r w2 _ [Hl%LookupUser_spec _]. destruct Hl as [[Hu2 _] Hl].
  destruct r as [u|[]]; try (eapply login_calm, deny_post).
  { eapply login_bind; [apply attempt_post|]. intros [] w3 _ [Hu3 _]. apply complete_login. intros id row Hrow Hi.
    eapply cred_key; [done..| |by left]. unfold users in *. by rewrite <- Hu1, <- Hu2, <- Hu3. }
  eapply login_bind; [apply acc_post|]. intros r w3 _ [Hb%LookupUserByPublicKey_spec _]. destruct Hb as [[Hu3 _] Hb].
  destruct r as [u|[]]; try (eapply login_calm, deny_post).
  - destruct Hb as (id & row & Hrow & Hk & ->). eapply login_bind; [apply attempt_post|]. intros [] w4 _ _.
    apply complete_user. eapply cred_key; [done..| |by right]. unfold users in *. by rewrite <- Hu1, <- Hu2.
  - eapply login_bind; [apply attempt_post|]. intros [] w4 _ _. apply complete_guest. intros nick'.
    eapply cred_guest_key; [done..|]. intros uid row Hrow. unfold users in *. rewrite <- Hu1 in Hrow. split; [by eapply Hl|].
    rewrite <- Hu2 in Hrow. by eapply Hb.
Qed.

Lemma guest_handler_out client msg w0 w :
  same_challenge (cn_ID client) w0 w → users w = users w0 → (lg_reads w0.2 ≤ lg_reads w.2)%nat →
  login_ client (FAuthSignature (Some msg)) w0 (handleGuestSignature E F G client msg) w.
Proof.
  intros Hch Hu Hr. unfold handleGuestSignature. cbv zeta.
  destruct (UniqueIDFromPublicKey _ _ _) as [uniqueID|e] eqn:Hid.
  2: { eapply login_bind; [apply reserve_post|]. intros [a|] w1 _ _; [|eapply login_calm, locked_post].
       eapply login_bind; [apply attempt_post|]. intros [] w2 _ _. eapply login_calm, deny_post. }
  eapply login_bind; [apply ban_post|]. intros [reason|] w1 Hc1 [Hu1 Hh1]; [|eapply login_calm, deny_post].
  destruct (negb _); [eapply login_calm, deny_post|].
  eapply login_bind; [apply reserve_post|]. intros [a|] w2 Hc2 [Hu2 Hh2]; [|eapply login_calm, locked_post].
  apply login_deferred; [intros; apply cancel_calm|]. apply guest_signature_out; [done| |congruence|].
  - eapply same_challenge_hs; [|exact Hh2]. by eapply same_challenge_hs.
  - apply ca_reads in Hc1, Hc2. lia.
Qed.

Lemma handleAuthSignature_out client msg w :
  login_ client (FAuthSignature msg) w (handleAuthSignature E F G client msg) w.
Proof.
  unfold handleAuthSignature. destruct msg as [msg|]; [|eapply login_calm, error_post].
  destruct (cn_authed client); [eapply login_calm, error_post|].
  eapply login_bind with (Q := λ _ w', users w' = users w ∧ same_challenge (cn_ID client) w w').
  { case_bool_decide; [by apply cpost_ret|]. eapply cpost_weaken; [|apply hs_post; by left].
    intros a w1 _ (_ & Hh & ?). split; [done|]. unfold same_challenge. by rewrite Hh, lookup_insert_eq. }
  intros [] w1 Hc1 [Hu1 Hs1]. destruct (negb (ae_auth G)); [eapply login_calm, error_post|].
  case_bool_decide as Hpk; cbn [negb]; [|apply guest_handler_out; [done..|by apply ca_reads in Hc1]]. cbv zeta.
  eapply login_bind; [apply reserve_post|]. intros [a|] w2 Hc2 [Hu2 Hh2]; [|eapply login_calm, locked_post].
  apply login_deferred; [intros; apply cancel_calm|]. unfold user_signature. apply take_login.
  - by eapply same_challenge_hs.
  - congruence.
  - apply ca_reads in Hc1, Hc2. lia.
  - intros w3. eapply login_bind; [apply attempt_post|]. intros [] w4 _ _. eapply login_calm, deny_post.
  - intros ch nick w3 Hu3 Hp. eapply login_bind; [apply acc_post|].
    intros r w4 _ [Ha%AuthenticateChallenge_spec _]. destruct Ha as [[Hu4 _] Ha].
    assert (∀ w', login_ client (FAuthSignature (Some msg)) w
      (run _ <- attempt_Fail G a; deny E client "invalid credentials") w') as Hdeny.
    { intros w'. eapply login_bind; [apply attempt_post|]. intros [] w5 _ _. eapply login_calm, deny_post. }
    destruct r as [[]|[]]; try (eapply login_calm, deny_post); try apply Hdeny.
    destruct (Ha eq_refl) as (uid0 & row0 & pk & Hrow0 & Hid0 & Hpk0 & Hv). unfold users in *.
    eapply login_bind; [apply attempt_post|]. intros [] w5 _ [Hu5 _]. unfold users in *. apply complete_login. intros id row Hrow Hi.
    unfold users in Hrow. rewrite Hu3 in Hrow0. rewrite Hu5, Hu4, Hu3 in Hrow.
    by apply (cred_signature w (cn_ID client) msg ch uid0 row0 pk id row).
Qed.

End safety.
