(* ===== verification/AuthRun.v ===== *)
(** * Runs of the server with logins

    [finishAuth] from the moment the identity is recorded: the invariants of the
    relay hold throughout, the session enters the state outside every channel, and
    the only scope key it is sent is that of the global scope. *)

From S2P Require Import Prelude Wire GoState Permissions PermLoader PermCache StateManager StateInvariant StateSpec PermCheck LoginLimiter ChannelManager Broadcast ChatKeys ChatKeysSafety ChatText Passwords ServerWorld ChatScope ClientMoves ChatScopeSafety ChatScopeProps ChatStore ChatRelay ChatHandlers ChatStoreProps ChatSafety ChatProps AuthService AuthFlow AuthSafety.

(** Who a connection is: all but the rules gate. *)
Definition who (c : Conn) : string * string * string * Z * bool * bool :=
  (cn_ID c, cn_UniqueID c, cn_Username c, cn_userID c, cn_isAdmin c, cn_authed c).

Definition same_who (m m' : gmap string Conn) : Prop := ∀ i, who <$> m' !! i = who <$> m !! i.

#[export] Instance same_who_preorder : PreOrder same_who.
Proof. split; [done|]. intros a b c Hab Hbc i. by rewrite Hbc. Qed.

Section server_runs.
Context (E : Env) (F : ChatEnv) (G : AuthEnv).
Context `{!∀ V, MapRange Z V, !∀ V, MapRange (Z * Z) V, !∀ V, MapRange string V}.
Context (laws : CryptoLaws (env_rnd E) (env_Seal E) (env_Open E)).
Context (ring_ids : ∀ ring, env_kek E = Some ring → 0 ≤ kr_newest ring < 2 ^ 16).
Implicit Types (s : Server) (w : World).

#[local] Abbreviation csends_ := (csends E F).
#[local] Abbreviation winv_ := (winv E F).

Lemma same_who_lookup m m' i c : same_who m m' → m !! i = Some c → ∃ c', m' !! i = Some c' ∧ who c' = who c.
Proof.
  intros Hs Hi. specialize (Hs i). rewrite Hi in Hs. cbn in Hs. destruct (m' !! i) as [c'|]; [|done].
  exists c'. split; [done|]. cbn in Hs. congruence.
Qed.

Lemma who_subscribe src c c' sc : who c' = who c → subscribe_allowed E src c' sc = subscribe_allowed E src c sc.
Proof.
  destruct c as [??????], c' as [??????]. unfold who. cbn. intros [= -> -> -> -> -> ->].
  unfold subscribe_allowed, conn_of. reflexivity.
Qed.

Lemma log_ok_who m m' l : same_who m m' → log_ok E m l → log_ok E m' l.
Proof.
  intros Hs Hl st to msg k Hin Hk. destruct (Hl st to msg k Hin Hk) as [?|[?|[Hsub (c & n & Hc & Ha)]]]; [by left|by right; left|].
  right. right. split; [done|]. destruct (same_who_lookup _ _ _ _ Hs Hc) as (c' & Hc' & Hw). exists c', n.
  split; [done|]. by rewrite (who_subscribe _ c).
Qed.

Lemma log_ok_global m l : (∀ st to msg k, Wrote st to msg ∈ l → k ∈ keys_in msg → cky_ChannelID k = globalChatScope) → log_ok E m l.
Proof. intros Hl st to msg k Hin Hk. left. by eapply Hl. Qed.

Lemma log_ok_keyless m l : keyless l → log_ok E m l.
Proof. intros Hl. apply log_ok_global. intros st to msg k Hin. rewrite (Hl _ _ _ Hin). by intros ?%elem_of_nil. Qed.

(** What happens once the identity of [id] is recorded. *)
Record frun (id : string) w w' : Prop := {
  fr_who : same_who (sv_clients w.1.1) (sv_clients w'.1.1);
  fr_channels : w_channels (view (sv_state w'.1.1)) = w_channels (view (sv_state w.1.1));
  fr_clients : dom (w_at (view (sv_state w'.1.1))) ⊆ {[id]} ∪ dom (w_at (view (sv_state w.1.1)));
  fr_log : ∃ l, sv_log w'.1.1 = sv_log w.1.1 ++ l ∧ log_ok E (sv_clients w.1.1) l;
  fr_keys : extends (env_Open E) (env_kek E) (sv_keys w.1.1) (sv_keys w'.1.1);
  fr_db : grows (ct_db w.1.2) (ct_db w'.1.2);
  fr_challenge i : challenge_of w' i = challenge_of w i;
}.

#[export] Instance frun_preorder id : PreOrder (frun id).
Proof.
  split.
  - intros w. split; try done; [set_solver|]. exists []. rewrite app_nil_r. split; [done|]. by intros ???? ?%elem_of_nil.
  - intros w1 w2 w3 [Ha Hb Hc (l & Hl & Hk) Hd He Hf] [Ha' Hb' Hc' (l' & Hl' & Hk') Hd' He' Hf'].
    split; [by etrans|congruence|set_solver| |by etrans|by etrans|by intros i; rewrite Hf'].
    exists (l ++ l'). split; [by rewrite Hl', Hl, (assoc_L (++))|].
    intros st to m k [Hin|Hin]%elem_of_app Hkm; [by eapply Hk|].
    eapply (log_ok_who _ (sv_clients w1.1.1)) in Hk'; [by eapply Hk'|]. intros i. symmetry. apply Ha.
Qed.

(** ** Settings *)

Lemma lookup_sends {A} (m : ChatKeys.M A) wc :
  preserves same_tables m → preserves (keys_run E) (on_keys m) → csends_ (on_server (on_keys m)) wc (λ _ _, True).
Proof.
  intros Hm Hk. eapply csends_weaken; [|apply (csends_server E F laws ring_ids); [by apply sends_lookup|done]]. done.
Qed.

Lemma get_sends key wc : csends_ (on_db (GetServerSetting (ce_db F) (ce_dbclock F) key)) wc (λ _ _, True).
Proof. eapply csends_weaken; [|apply csends_read_, setting_reads]. done. Qed.

Lemma set_sends key v gen wc : csends_ (on_db (SetServerSetting (ce_db F) (ce_dbclock F) key v gen)) wc (λ _ _, True).
Proof. eapply csends_weaken; [|apply csends_read_, set_setting_reads]. done. Qed.

Lemma sealed_setting_sends key wc : csends_ (serverSettingSealed E F key) wc (λ _ _, True).
Proof.
  eapply csends_bind; [apply get_sends|]. intros [[v gen]|e] w1 _ _ _; [|by apply csends_ret].
  case_bool_decide; [by apply csends_ret|]. destruct (negb _); [by apply csends_ret|].
  eapply csends_bind; [apply lookup_sends; [apply current_tables|apply current_run]|]. intros [[cur k]|e] w2 _ _ _; [|by apply csends_ret].
  destruct (gen =? cur); [by apply csends_ret|]. eapply csends_bind with (Q := λ _ _, True).
  { destruct (negb _); [|by apply csends_ret].
    eapply csends_bind; [apply lookup_sends; [apply open_tables|apply open_run]|]. intros p w3 _ _ _. by apply csends_ret. }
  intros [plain|] w3 _ _ _; [|by apply csends_ret].
  eapply csends_bind; [apply lookup_sends; [apply seal_tables|apply seal_run]|]. intros [[g ct]|e] w4 _ _ _; [|by apply csends_ret].
  eapply csends_bind; [apply set_sends|]. intros r w5 _ _ _. by apply csends_ret.
Qed.

Lemma plain_setting_sends key wc : csends_ (serverSettingPlain E F key) wc (λ _ _, True).
Proof.
  eapply csends_bind; [apply get_sends|]. intros [[v gen]|e] w1 _ _ _; [|by apply csends_ret].
  destruct (_ || _); [by apply csends_ret|].
  eapply csends_bind; [apply lookup_sends; [apply open_tables|apply open_run]|]. intros p w2 _ _ _. by apply csends_ret.
Qed.

(** The response carries the key of the global scope or none. *)
Definition global_only (r : AuthResponse) : Prop := ∀ k, k ∈ ar_ChatKeys r → cky_ChannelID k = globalChatScope.

Lemma attach_sends pub resp wc :
  global_only resp → csends_ (attachChatKeysAndMOTD E F pub resp) wc (λ r _, global_only r).
Proof.
  intros Hg. unfold attachChatKeysAndMOTD. case_bool_decide.
  { destruct (ce_allowPlaintext F); [|by apply csends_ret].
    eapply csends_bind; [apply plain_setting_sends|]. intros motd w1 _ _ _. by apply csends_ret. }
  destruct (negb _); [by apply csends_ret|].
  eapply csends_bind; [apply lookup_sends; [apply current_tables|apply current_run]|]. intros [[cur k]|e] w1 _ _ _; [|by apply csends_ret].
  eapply csends_bind with (Q := λ r _, ∀ ck, r = Ok ck → cky_ChannelID ck = globalChatScope).
  { apply csends_intro. intros Hw. eapply csends_weaken; [|apply (csends_server E F laws ring_ids); [apply sends_lookup, sealFor_tables|apply sealFor_run]].
    intros r w2 _ _ [[_ Hr] _] ck ->. by eapply sealFor_scope. }
  intros [ck|e] w2 _ _ Hck; [|by apply csends_ret]. cbv zeta.
  eapply csends_bind; [apply sealed_setting_sends|]. intros m w3 _ _ _. apply csends_ret.
  assert (global_only (with_keys [ck] resp)) as Hg'.
  { intros k' ->%list_elem_of_singleton. by apply Hck. }
  destruct m as [[motd gen]|]; [|done]. by case_bool_decide.
Qed.

Section session.
Context (id : string).

Definition fsends {A} (m : L A) w (Q : A → World → Prop) : Prop :=
  winv_ w.1 → winv_ (m w).1.1 ∧ frun id w (m w).1 ∧ ∀ a, (m w).2 = Ok a → Q a (m w).1.

Lemma fsends_ret {A} (a : A) w (Q : A → World → Prop) : Q a w → fsends (se_ret a) w Q.
Proof. intros Ha Hw. split_and!; [done|reflexivity|]. by intros ? [= <-]. Qed.

Lemma fsends_bind {A B} (m : L A) (k : A → L B) w Q R :
  fsends m w Q → (∀ a w1, winv_ w1.1 → frun id w w1 → Q a w1 → fsends (k a) w1 R) → fsends (se_bind m k) w R.
Proof.
  intros Hm Hk Hw. destruct (Hm Hw) as (Ha & Hb & Hc). unfold se_bind.
  destruct (m w) as [w1 [a|e]]; cbn [fst snd] in *; [|done].
  destruct (Hk a w1 Ha Hb (Hc a eq_refl) Ha) as (Hd & He & Hf). split_and!; [done|by etrans|done].
Qed.

Lemma fsends_weaken {A} (m : L A) w (Q Q' : A → World → Prop) :
  (∀ a w', Q a w' → Q' a w') → fsends m w Q → fsends m w Q'.
Proof. intros HQ Hm Hw. destruct (Hm Hw) as (Ha & Hb & Hc). split_and!; eauto. Qed.

Lemma fsends_true {A} (m : L A) w Q : fsends m w Q → fsends m w (λ _ _, True).
Proof. by apply fsends_weaken. Qed.

Lemma fsends_relay {A} (m : C A) w Q : csends_ m w.1 Q → fsends (on_relay m) w (λ a w', Q a w'.1).
Proof.
  intros Hm Hw. destruct (Hm Hw) as (Ha & Hb & Hc). unfold on_relay. destruct (m w.1) as [c r]. cbn [fst snd] in *.
  split_and!; [done| |done]. destruct Hb as [[Hd [He Hf] Hg Hh] Hi Hj]. split; cbn [fst snd]; [by rewrite Hd|done|set_solver|done..|done].
Qed.

(** A step of [Login] alone that keeps the handshakes. *)
Lemma fsends_login {A} (m : L A) w :
  (m w).1.1 = w.1 → (∀ i, challenge_of (m w).1 i = challenge_of w i) → fsends m w (λ _ w', w'.1 = w.1).
Proof.
  intros H1' H2' Hw. split_and!; [by rewrite H1'| |by intros].
  split; [by rewrite H1'..|by rewrite H1'; set_solver| |by rewrite H1'|by rewrite H1'|done].
  exists []. rewrite app_nil_r, H1'. split; [done|]. by intros ???? ?%elem_of_nil.
Qed.

Lemma fsends_now w : fsends (now_ G) w (λ _ w', w'.1 = w.1).
Proof. by apply fsends_login. Qed.

Lemma fsends_acc {A} (m : AuthService.A A) w : fsends (on_acc m) w (λ _ w', w'.1 = w.1).
Proof. apply fsends_login; unfold on_acc; by destruct (m (lg_acc w.2)). Qed.

(** A server program that neither adds clients nor writes keys. *)
Lemma fsends_srv {A} (m : H A) w Q :
  sends E m w.1.1 Q → preserves (keys_run E) m → fsends (on_srv m) w (λ a w', Q a w'.1.1).
Proof.
  intros Hm Hk. eapply fsends_weaken; [|apply (fsends_relay (on_server m) w (λ a x, Q a x.1 ∧ x.2 = w.1.2))].
  - by intros a w' [? _].
  - by apply (csends_server E F laws ring_ids).
Qed.

Lemma fsends_effect e w : (∀ st to m, e ≠ Wrote st to m) → fsends (on_srv (effect_ e)) w (λ _ w', sv_cm w'.1.1 = sv_cm w.1.1).
Proof.
  intros He. apply (fsends_srv _ w (λ _ s', sv_cm s' = sv_cm w.1.1)); [|apply effect_run].
  eapply sends_weaken; [|by apply sends_effect]. by intros a s' _ _ [? _].
Qed.

Lemma fsends_write to m w :
  (∀ k, k ∈ keys_in m → cky_ChannelID k = globalChatScope) → fsends (on_srv (writeMessage E to m)) w (λ _ _, True).
Proof.
  intros Hm. eapply fsends_true, (fsends_srv _ w (λ _ _, True)); [|apply write_run].
  eapply sends_weaken; [|apply sends_write]; [done|]. intros k Hk. left. by apply Hm.
Qed.

Lemma fsends_ignore to m w :
  keys_in m = [] → fsends (on_srv (ignore (writeMessage E to m))) w (λ _ _, True).
Proof.
  intros Hm. eapply fsends_true, (fsends_srv _ w (λ _ _, True)); [|apply ignore_run, write_run].
  apply (sends_ignore E _ _ (λ _, True)); [|done]. eapply sends_weaken; [|apply sends_write]; [done|].
  rewrite Hm. by intros k ?%elem_of_nil.
Qed.

(** The server alone changes, with nothing logged. *)
Lemma frun_server w s' :
  same_who (sv_clients w.1.1) (sv_clients s') → sv_keys s' = sv_keys w.1.1 → sv_log s' = sv_log w.1.1 →
  w_channels (view (sv_state s')) = w_channels (view (sv_state w.1.1)) →
  dom (w_at (view (sv_state s'))) ⊆ {[id]} ∪ dom (w_at (view (sv_state w.1.1))) →
  frun id w ((s', w.1.2), w.2).
Proof.
  intros Hw Hk Hl Hc Hd. split; cbn [fst snd]; try done; [|by rewrite Hk].
  exists []. rewrite app_nil_r. split; [done|]. by intros ???? ?%elem_of_nil.
Qed.

Lemma fsends_set_conn c w :
  cn_ID c = id → who <$> sv_clients w.1.1 !! id = Some (who c) → fsends (on_srv (set_conn c)) w (λ _ _, True).
Proof.
  intros <- Hc [[Hw Ho] Hck Hdb Hr]. cbn. split_and!; [|apply frun_server; cbn; try done; [|set_solver]|done].
  - split; try done. split; [done|]. intros i c'. cbn. intros [[<- <-]|[_ ?]]%lookup_insert_Some; [done|by apply Ho].
  - intros i. destruct (decide (i = cn_ID c)) as [->|Hne]; [by rewrite lookup_insert_eq|by rewrite lookup_insert_ne].
Qed.

(** The session enters the state, outside every channel. *)
Lemma fsends_AddClient c w :
  cl_ClientID c = id → cl_ChannelID c = 0 → cl_IsSpeaking c = false → id ∉ dom (w_at (view (sv_state w.1.1))) →
  fsends (on_srv (on_state_ (AddClient (Some c)))) w (λ _ _, True).
Proof.
  intros Hid Hch Hsp Hnew [[Hw Ho] Hck Hdb Hr].
  assert (clients (sv_state w.1.1) !! cl_ClientID c = None) as Hnone.
  { rewrite Hid. cbn in Hnew. rewrite dom_fmap_L in Hnew. by apply not_elem_of_dom. }
  assert (wf (AddClient (Some c) (sv_state w.1.1))) as Hwf by (by apply AddClient_wf).
  assert (sv_state (set_cm (λ x, ChannelManager.set_state (AddClient (Some c) (cm_state x)) x) w.1.1) =
          AddClient (Some c) (sv_state w.1.1)) as Hst by done.
  cbn [on_srv on_relay on_server on_state_ se_modify fst snd]. split_and!; [by split| |done].
  apply frun_server; try done; rewrite Hst; unfold AddClient; rewrite cloneClient_id; cbn.
  rewrite fmap_insert, dom_insert_L, Hid. done.
Qed.

Lemma fsends_bot client w : fsends (on_srv (ClientIsBot E client)) w (λ _ w', sv_cm w'.1.1 = sv_cm w.1.1).
Proof.
  apply (fsends_srv _ w (λ _ s', same_cm w.1.1 s')).
  - apply sends_quiet_part. intros s. unfold ClientIsBot. by destruct (_ =? 0).
  - apply quiet_run. intros s. unfold ClientIsBot. by destruct (_ =? 0).
Qed.

Lemma fsends_rules_text w : fsends (rules_Text F G) w (λ _ _, True).
Proof.
  eapply fsends_bind; [apply fsends_relay, get_sends|]. intros r w1 _ _ _. by apply fsends_ret.
Qed.

Lemma fsends_pending userID w : fsends (rules_Pending F G userID) w (λ _ _, True).
Proof.
  eapply fsends_bind; [apply fsends_rules_text|]. intros [[text hash]|] w1 _ _ _; [|by apply fsends_ret].
  case_bool_decide; [by apply fsends_ret|]. eapply fsends_bind; [apply fsends_acc|]. intros r w2 _ _ _. by apply fsends_ret.
Qed.

(** The connection is still the one that was recorded. *)
Definition me (client : Conn) w : Prop := who <$> sv_clients w.1.1 !! id = Some (who client).

Lemma me_run client w w' : frun id w w' → me client w → me client w'.
Proof. intros Hr. unfold me. by rewrite (fr_who _ _ _ Hr). Qed.

Lemma fsends_pending_rules client guest w :
  cn_ID client = id → me client w → fsends (sendPendingRules E F G client guest) w (λ _ _, True).
Proof.
  intros Hid Hme. unfold sendPendingRules. destruct (negb _); [by apply fsends_ret|].
  eapply fsends_bind with (Q := λ _ _, True).
  { destruct guest; [|apply fsends_pending].
    eapply fsends_bind; [apply fsends_rules_text|]. intros r w1 _ _ _. by apply fsends_ret. }
  intros [[[text hash] pending]|] w1 _ Hr1 _; [|by apply fsends_ret]. destruct (negb pending); [by apply fsends_ret|].
  eapply fsends_bind; [apply fsends_set_conn; [done|by eapply me_run]|]. intros [] w2 _ _ _. by apply fsends_ignore.
Qed.

Lemma fsends_assign client w : fsends (assignDefaultGroup G client) w (λ _ w', sv_cm w'.1.1 = sv_cm w.1.1).
Proof.
  unfold assignDefaultGroup. set (skip := (cn_userID client =? 0) || _).
  assert (fsends (λ w, ((w.1, tick_lread w.2), Ok ())) w (λ _ w', sv_cm w'.1.1 = sv_cm w.1.1)) as Htick.
  { eapply fsends_weaken; [|by apply fsends_login]. by intros a w' ->. }
  assert (fsends (λ w, (w, Ok ())) w (λ _ w', sv_cm w'.1.1 = sv_cm w.1.1)) as Hnone by (by apply fsends_ret).
  intros Hw. cbv beta. destruct skip; [by apply Hnone|].
  destruct (ae_groupIDs G (lg_reads w.2) (cn_userID client)) as [[|? ?]|]; [|by apply Htick..].
  destruct (ae_assign_ok G (lg_reads w.2)); [|by apply Htick]. destruct (Htick Hw) as (Ha & Hb & Hc). cbn [fst snd] in *.
  destruct (fsends_effect (GroupAssigned (ae_memberGroup G) (cn_userID client)) (w.1, tick_lread w.2)) as (Hd & He & Hf); [done|done|].
  split_and!; [done|by etrans|]. intros a Ha'. by rewrite (Hf a Ha').
Qed.

Lemma fsends_enter client pub w :
  cn_ID client = id → id ∉ dom (w_at (view (sv_state w.1.1))) → fsends (enter E G client pub) w (λ _ _, True).
Proof.
  intros Hid Hnew. eapply fsends_bind; [apply fsends_now|]. intros now w1 _ _ Hw1.
  eapply fsends_bind; [apply fsends_bot|]. intros bot w2 _ _ Hcm2.
  eapply fsends_bind; [apply fsends_AddClient; [done..|]|].
  { unfold sv_state. rewrite Hcm2, Hw1. done. }
  intros [] w3 _ _ _. eapply fsends_bind with (Q := λ _ _, True).
  { case_bool_decide; [by apply fsends_ret|]. eapply fsends_true, (fsends_srv _ _ (λ _ _, True)); [|apply on_state_run].
    eapply sends_weaken; [|apply sends_on_state]; [done|]. intros Hw. split; [by apply wf_alter_client|].
    unfold SetE2EPublicKey, no_new. by rewrite view_alter_client. }
  intros [] w4 _ _ _ Hw.
  destruct (fsends_effect (Registered (cn_ID client) (env_write_ok E (length (sv_log w4.1.1)))) w4) as (Ha & Hb & _); [done..|].
  by split_and!.
Qed.

Lemma fsends_announce client w : fsends (announce_to E F client) w (λ _ _, True).
Proof.
  eapply fsends_bind; [apply fsends_relay, sealed_setting_sends|]. intros [[text gen]|] w1 _ _ _; [|by apply fsends_ret].
  case_bool_decide; [by apply fsends_ret|]. by apply fsends_ignore.
Qed.

Lemma fsends_snapshot client w : fsends (sendSnapshot E G client) w (λ _ _, True).
Proof.
  eapply fsends_bind; [apply fsends_now|]. intros now w1 _ _ _.
  set (m := MSnapshot (BuildSnapshot (Some (sv_state w1.1.1, sv_state w1.1.1)) (cn_isAdmin client) (cn_UniqueID client) now)).
  intros Hw. destruct (fsends_write (cn_ID client) m w1) as (Ha & Hb & _); [by intros k ?%elem_of_nil|done|]. by split_and!.
Qed.

Lemma fsends_accept userID hash w : fsends (rules_Accept F G userID hash) w (λ _ _, True).
Proof.
  eapply fsends_bind; [apply fsends_rules_text|]. intros [[text current]|] w1 _ _ _; [|by apply fsends_ret].
  case_bool_decide; [by apply fsends_ret|]. destruct (negb _); [by apply fsends_ret|].
  eapply fsends_bind; [apply fsends_acc|]. intros r w2 _ _ _. by apply fsends_ret.
Qed.

Lemma fsends_error client code text w : fsends (sendError_ E client code text) w (λ _ _, True).
Proof. apply fsends_write. by intros k ?%elem_of_nil. Qed.

Lemma fsends_rules_accept client msg w :
  cn_ID client = id → me client w → fsends (handleServerRulesAccept E F G client msg) w (λ _ _, True).
Proof.
  intros Hid Hme. unfold handleServerRulesAccept. destruct msg as [h|]; [|apply fsends_error].
  destruct (negb _); [apply fsends_error|]. eapply fsends_bind; [apply fsends_rules_text|].
  intros [[text hash]|] w1 _ Hr1 _; [|apply fsends_error]. destruct (_ || _).
  - eapply fsends_bind; [apply fsends_error|]. intros [] w2 _ Hr2 _.
    eapply fsends_bind; [apply fsends_set_conn; [done|by do 2 (eapply me_run; [eassumption|])]|]. intros [] w3 _ _ _.
    apply fsends_write. by intros k ?%elem_of_nil.
  - eapply fsends_bind with (Q := λ _ _, True).
    { destruct (negb _); [apply fsends_accept|by apply fsends_ret]. }
    intros ok w2 _ Hr2 _. destruct (negb ok); [apply fsends_error|].
    eapply fsends_bind; [apply fsends_set_conn; [done|by do 2 (eapply me_run; [eassumption|])]|]. intros [] w3 _ _ _.
    apply fsends_write. by intros k ?%elem_of_nil.
Qed.

Lemma start_session_run client ai w :
  cn_ID client = id → me client w → id ∉ dom (w_at (view (sv_state w.1.1))) →
  fsends (start_session E F G client ai) w (λ _ _, True).
Proof.
  intros Hid Hme Hnew. eapply fsends_bind with (Q := λ _ w', sv_cm w'.1.1 = sv_cm w.1.1).
  { destruct (negb _); [|by apply fsends_ret]. destruct (ae_host G _); [by apply fsends_effect|by apply fsends_ret]. }
  intros [] w1 _ Hr1 Hcm1. eapply fsends_bind with (Q := λ _ w', sv_cm w'.1.1 = sv_cm w1.1.1).
  { destruct (negb _); [apply fsends_assign|by apply fsends_ret]. }
  intros [] w2 _ Hr2 Hcm2. eapply fsends_bind with (Q := λ _ w', w'.1 = w2.1).
  { apply fsends_login; [done|]. intros i. unfold challenge_of. cbn. destruct (decide (i = cn_ID client)) as [->|Hne];
      [by rewrite lookup_insert_eq|by rewrite lookup_insert_ne]. }
  intros pub w3 _ Hr3 Hw3. eapply fsends_bind; [apply fsends_enter; [done|]|].
  { unfold sv_state. by rewrite Hw3, Hcm2, Hcm1. }
  intros [] w4 _ Hr4 _. eapply fsends_bind; [apply fsends_relay, attach_sends; by intros k ?%elem_of_nil|].
  intros resp w5 _ Hr5 Hg. eapply fsends_bind; [apply fsends_write; exact Hg|]. intros [] w6 _ Hr6 _.
  eapply fsends_bind; [apply fsends_snapshot|]. intros [] w7 _ Hr7 _.
  eapply fsends_bind; [eapply fsends_true, (fsends_srv _ _ (λ _ _, True)); [apply sends_state_frame|apply state_frame_run]|].
  intros [] w8 _ Hr8 _. eapply fsends_bind; [apply fsends_announce|]. intros [] w9 _ Hr9 _.
  eapply fsends_bind with (Q := λ _ _, True).
  { destruct (negb _); [|by apply fsends_ret]. eapply fsends_true, fsends_relay, deliverSpooled_sends; done. }
  intros [] w10 _ Hr10 _. eapply fsends_bind; [apply fsends_pending_rules; [done|]|].
  - do 10 (eapply me_run; [eassumption|]). done.
  - intros [] w11 _ _ _. by eapply fsends_true, fsends_effect.
Qed.

End session.

(** [finishAuth]: the identity is recorded, and the rest is a run of the session. *)
Lemma finishAuth_run client ai w :
  let id := cn_ID client in
  let w0 : World := ((set_conns <[id := setIdentity ai client]> w.1.1, w.1.2), w.2) in
  winv_ w.1 → id ∉ dom (w_at (view (sv_state w.1.1))) →
  winv_ (finishAuth E F G client ai w).1.1 ∧ frun id w0 (finishAuth E F G client ai w).1.
Proof.
  intros id w0 [[Hwf Ho] Hck Hdb Hr] Hnew.
  assert (winv_ w0.1) as Hw0.
  { split; try done. split; [done|]. intros i c. cbn. intros [[<- <-]|[_ ?]]%lookup_insert_Some; [done|by apply Ho]. }
  destruct (start_session_run id (setIdentity ai client) ai w0) as (Ha & Hb & _); [done| |done|done|done].
  unfold me. cbn. by rewrite lookup_insert_eq.
Qed.

End server_runs.
