(* ===== verification/AuthProps.v ===== *)
(** * What logins guarantee

    The server as a whole: connections come and go, frames are dispatched, key
    rotations fire. Every identity a connection has was proven by credentials in a
    frame on that connection; nothing but login frames is served before that; and
    the invariants of the relay hold through all of it. *)

From stdpp Require Import pretty.
From S2P Require Import Prelude Wire GoState Permissions PermLoader PermCache StateManager StateInvariant StateSpec PermCheck LoginLimiter LoginSafety ChannelManager Broadcast ChatKeys ChatKeysSafety ChatText Passwords ServerWorld ChatScope ClientMoves ChatScopeSafety ChatScopeProps ChatStore ChatRelay ChatHandlers ChatStoreProps ChatSafety ChatProps AuthService AuthFlow AuthSafety AuthRun.

Inductive server_event :=
| EAccept (id : string)
| EFrame (id : string) (f : frame)
| EDisconnect (id : string)
| ERotation (channelID : Z).

(** The frames a connection sent since it was accepted. *)
Definition note_event (id : string) (l : list frame) (e : server_event) : list frame :=
  match e with
  | EAccept i => if decide (i = id) then [] else l
  | EFrame i f => if decide (i = id) then l ++ [f] else l
  | _ => l
  end.
Definition session (id : string) (tr : list server_event) : list frame := foldl (note_event id) [] tr.

Section props.
Context (E : Env) (F : ChatEnv) (G : AuthEnv).
Context `{!∀ V, MapRange Z V, !∀ V, MapRange (Z * Z) V, !∀ V, MapRange string V}.
Context (others : Z → Conn → L ()).
Implicit Types w : World.

Definition server_serve (e : server_event) : L () :=
  match e with
  | EAccept id => accept E F G id
  | EFrame id f => serve_frame E F G others id f
  | EDisconnect id => disconnect E id
  | ERotation channelID => on_relay (chat_serve E F (CServer (RRotation channelID)))
  end.

(** A connection gets an id no connection has; the timer of a rotation fires while
    its channel exists; the handlers that are not modelled are not called. *)
Definition legal (e : server_event) w : Prop :=
  match e with
  | EAccept id => sv_clients w.1.1 !! id = None
  | EFrame _ (FOther _) => False
  | ERotation channelID => channelID ∈ dom (channels (sv_state w.1.1))
  | _ => True
  end.

(** ** The gates *)

(** C39: before a connection is authenticated, any frame that is not part of the
    handshake is answered with an error and changes nothing else, whatever its
    handler would do; so is any frame but the answer to the rules and the
    keepalives while the session owes an answer to the server rules. *)
Theorem auth_gate client f w :
  (cn_authed client = false ∧ before_auth f = false) ∨
  (cn_rulesPending client = true ∧ allowedWhileRulesPending f = false) →
  ∃ e, (dispatch E F G others client f w).1 = ((add_effect e w.1.1, w.1.2), w.2) ∧
    ((∃ code text, e = Wrote (sv_state w.1.1) (cn_ID client) (MError code text)) ∨ e = WriteFailed (cn_ID client)).
Proof.
  intros Hgate. assert (∃ code text, dispatch E F G others client f w = sendError_ E client code text w) as (code & text & ->).
  { unfold dispatch. destruct Hgate as [[-> ->]|[-> ->]]; [by eauto|].
    destruct (negb _ && negb _); cbn [andb negb]; by eauto. }
  unfold sendError_, on_srv, on_relay, on_server, sendErrorFor, writeMessage.
  destruct (env_write_ok E _); cbn; eexists; (split; [reflexivity|]); eauto.
Qed.

(** ** Steps *)

Section laws.
Context (laws : CryptoLaws (env_rnd E) (env_Seal E) (env_Open E)).
Context (ring_ids : ∀ ring, env_kek E = Some ring → 0 ≤ kr_newest ring < 2 ^ 16).

(** The invariants of the relay, and every client of the state is an authenticated
    connection. *)
Record linv w : Prop := {
  li_winv : winv E F w.1;
  li_settled i : i ∈ dom (w_at (view (sv_state w.1.1))) → ∃ c, sv_clients w.1.1 !! i = Some c ∧ cn_authed c = true;
}.

(** Keys and messages only evolve as the relay lets them. *)
Record srun w w' : Prop := {
  sr_keys : extends (env_Open E) (env_kek E) (sv_keys w.1.1) (sv_keys w'.1.1);
  sr_db : grows (ct_db w.1.2) (ct_db w'.1.2);
}.

#[export] Instance srun_preorder : PreOrder srun.
Proof. split; [intros w; by split|]. intros w1 w2 w3 [Ha Hb] [Ha' Hb']. split; by etrans. Qed.

Lemma calm_winv id issue w w' : calm id issue w w' → winv E F w.1 → winv E F w'.1.
Proof.
  intros [Ha Hb Hc Hd _ _ _] [[Hw Ho] Hk Hdb Hr]. unfold sv_state in *.
  split; [split|..]; rewrite ?Ha, ?Hc; try done; unfold sv_state; by rewrite ?Hb, ?Hd.
Qed.

Lemma calm_srun id issue w w' : calm id issue w w' → srun w w'.
Proof. intros [Ha Hb Hc Hd _ _ _]. split; by rewrite ?Ha, ?Hc. Qed.

Lemma calm_linv id issue w w' : calm id issue w w' → linv w → linv w'.
Proof.
  intros Hc [Hw Hs]. split; [by eapply calm_winv|]. intros i. unfold sv_state. rewrite (ca_cm _ _ _ _ Hc), (ca_clients _ _ _ _ Hc). apply Hs.
Qed.

(** What a step does to a connection [i]. *)
Definition conn_step (login : Conn → authIdentity → Prop) w w' (i : string) : Prop :=
  ∀ c', sv_clients w'.1.1 !! i = Some c' →
    (∃ c, sv_clients w.1.1 !! i = Some c ∧ who c' = who c) ∨
    (∃ c ai, sv_clients w.1.1 !! i = Some c ∧ cn_authed c = false ∧ login c ai ∧ who c' = who (setIdentity ai c)).

(** What a frame of a connection does. *)
Record frame_step (id : string) (f : frame) w w' : Prop := {
  fs_linv : linv w';
  fs_run : srun w w';
  fs_conn i : conn_step (λ _ ai, i = id ∧ credentials G w id f ai) w w' i;
  fs_challenge i : is_Some (challenge_of w' i) → is_Some (challenge_of w i) ∨ (i = id ∧ may_issue G f);
}.

Lemma frame_calm id f w w' : linv w → calm id (may_issue G f) w w' → frame_step id f w w'.
Proof.
  intros Hl Hc. split; [by eapply calm_linv|by eapply calm_srun| |apply Hc].
  intros i c' Hi. left. exists c'. by rewrite <- (ca_clients _ _ _ _ Hc).
Qed.

(** A login. *)
Lemma frame_login id f client w w' :
  linv w → sv_clients w.1.1 !! id = Some client → cn_authed client = false →
  outc E F G client (may_issue G f) (credentials G w id f) w w' → frame_step id f w w'.
Proof.
  intros Hl Hc Ha Ho. assert (cn_ID client = id) as Hid by (by apply (wo_conns _ (wi_world _ _ _ (li_winv _ Hl)))).
  destruct Ho as [Ho|(ai & w1 & Hai & Hc1 & Hc2)]; [apply frame_calm; [done|by rewrite <- Hid]|]. rewrite Hid in Hc1, Hc2.
  pose proof (calm_linv _ _ _ _ Hc1 Hl) as Hl1. pose proof (ca_clients _ _ _ _ Hc1) as Hcl1.
  assert (cn_ID client ∉ dom (w_at (view (sv_state w1.1.1)))) as Hnew.
  { intros (c & Hcc & Hca)%(li_settled _ Hl1). rewrite Hid, Hcl1, Hc in Hcc. congruence. }
  destruct (finishAuth_run E F G laws ring_ids client ai w1 (li_winv _ Hl1) Hnew) as [Hw2 Hr2].
  set (w2 := (finishAuth E F G client ai w1).1) in *. rewrite Hid in Hr2, Hnew. clearbody w2.
  assert (linv w2) as Hl2.
  { split; [done|]. intros i Hi. apply (fr_clients _ _ _ _ Hr2), elem_of_union in Hi as [->%elem_of_singleton|Hi].
    - destruct (same_who_lookup _ _ id (setIdentity ai client) (fr_who _ _ _ _ Hr2)) as (c & Hcc & Hw);
        [cbn; by rewrite lookup_insert_eq|]. exists c. split; [done|]. unfold who in Hw. by simplify_eq/=.
    - destruct (li_settled _ Hl1 i Hi) as (c & Hcc & Hca). assert (i ≠ id) as Hne by congruence.
      destruct (same_who_lookup _ _ i c (fr_who _ _ _ _ Hr2)) as (c2 & Hcc2 & Hw);
        [cbn; by rewrite lookup_insert_ne|]. exists c2. split; [done|]. unfold who in Hw. congruence. }
  split.
  - by eapply calm_linv.
  - etrans; [by eapply calm_srun|]. etrans; [|by eapply calm_srun]. split; [apply Hr2|apply Hr2].
  - intros i c' Hi. rewrite (ca_clients _ _ _ _ Hc2) in Hi. pose proof (fr_who _ _ _ _ Hr2 i) as Hw. rewrite Hi in Hw. cbn in Hw.
    destruct (decide (i = id)) as [->|Hne].
    + rewrite lookup_insert_eq in Hw. right. exists client, ai. split_and!; [done..|]. cbn in Hw. congruence.
    + rewrite lookup_insert_ne in Hw by done. left. rewrite Hcl1 in Hw. destruct (sv_clients w.1.1 !! i) as [c|]; [|done].
      exists c. split; [done|]. cbn in Hw. congruence.
  - intros i [Hi|?]%(ca_challenge _ _ _ _ Hc2); [|by right]. rewrite (fr_challenge _ _ _ _ Hr2) in Hi.
    by apply (ca_challenge _ _ _ _ Hc1) in Hi.
Qed.

(** A frame of an authenticated session. *)
Lemma frame_frun id f client w w' :
  linv w → sv_clients w.1.1 !! id = Some client → cn_authed client = true → winv E F w'.1 → frun E id w w' →
  frame_step id f w w'.
Proof.
  intros Hl Hc Ha Hw' Hr. split; [split; [done|]|split; apply Hr| |].
  - intros i Hi. assert (∃ c, sv_clients w.1.1 !! i = Some c ∧ cn_authed c = true) as (c & Hcc & Hca).
    { apply (fr_clients _ _ _ _ Hr), elem_of_union in Hi as [->%elem_of_singleton|Hi]; [by eauto|by apply (li_settled _ Hl)]. }
    destruct (same_who_lookup _ _ i c (fr_who _ _ _ _ Hr) Hcc) as (c2 & Hcc2 & Hw). exists c2.
    split; [done|]. unfold who in Hw. congruence.
  - intros i c' Hi. left. pose proof (fr_who _ _ _ _ Hr i) as Hw. rewrite Hi in Hw.
    destruct (sv_clients w.1.1 !! i) as [c|]; [|done]. exists c. split; [done|]. cbn in Hw. congruence.
  - intros i. rewrite (fr_challenge _ _ _ _ Hr). by left.
Qed.

Lemma handler_admissible client r (wc : Server * Chat) : registered client wc.1 → chat_admissible (handler_of client r) wc.
Proof. by destruct r. Qed.

Lemma frame_fsends id f client (m : L ()) w :
  linv w → sv_clients w.1.1 !! id = Some client → cn_authed client = true →
  fsends E F id m w (λ _ _, True) → frame_step id f w (m w).1.
Proof. intros Hl Hc Ha Hm. destruct (Hm (li_winv _ Hl)) as (Hw' & Hr & _). by eapply frame_frun. Qed.

Lemma dispatch_step id f client w :
  linv w → sv_clients w.1.1 !! id = Some client → (∀ t, f ≠ FOther t) →
  frame_step id f w (dispatch E F G others client f w).1.
Proof.
  intros Hl Hc Hf. assert (cn_ID client = id) as Hid by (by apply (wo_conns _ (wi_world _ _ _ (li_winv _ Hl)))).
  assert (∀ code text, frame_step id f w (sendError_ E client code text w).1) as Herr.
  { intros code text. apply frame_calm; [done|]. rewrite <- Hid. apply error_post. }
  unfold dispatch. destruct (negb (cn_authed client) && negb (before_auth f)) eqn:Hg; [apply Herr|].
  destruct (cn_rulesPending client && _); [apply Herr|].
  assert (before_auth f = false → cn_authed client = true) as Ha.
  { intros Hb. rewrite Hb in Hg. by destruct (cn_authed client). }
  destruct f as [msg|msg|msg| | |r|t|t]; [| | | | | |by destruct (Hf t)|apply Herr].
  - destruct (cn_authed client) eqn:Hau.
    + unfold handleAuthenticate. rewrite Hau. destruct msg; apply Herr.
    + eapply frame_login; [done..|]. rewrite <- Hid. apply handleAuthenticate_out.
  - destruct (cn_authed client) eqn:Hau.
    + unfold handleAuthSignature. rewrite Hau. destruct msg; apply Herr.
    + eapply frame_login; [done..|]. rewrite <- Hid. apply handleAuthSignature_out.
  - eapply frame_fsends; [done..|by apply Ha|]. apply fsends_rules_accept; [done..|]. unfold me. by rewrite Hc.
  - apply frame_calm; [done|]. rewrite <- Hid. by apply write_post.
  - apply frame_calm; [done|]. simpl. reflexivity.
  - eapply frame_fsends; [done..|by apply Ha|]. eapply fsends_true, fsends_relay, chat_serve_sends; [done..|].
    apply handler_admissible. unfold registered. by rewrite Hid.
Qed.

(** ** Connections *)

Lemma disconnect_step id w :
  linv w → let w' := (disconnect E id w).1 in
  linv w' ∧ srun w w' ∧ sv_clients w'.1.1 = delete id (sv_clients w.1.1) ∧ w'.2 = w.2.
Proof.
  intros [[[Hwf Ho] Hck Hdb Hr] Hs]. unfold disconnect. destruct (sv_clients w.1.1 !! id) as [client|] eqn:Hc.
  2: { cbv zeta. cbn [fst]. split_and!; [by split|reflexivity| |done]. symmetry. by apply delete_id. }
  assert (cn_ID client = id) as Hid by (by apply Ho).
  set (s0 := set_conns (delete id) w.1.1).
  assert (world_ok s0) as Hw0.
  { split; [done|]. intros i c. cbn. rewrite lookup_delete_Some. intros [_ ?]. by apply Ho. }
  destruct (onDisconnect_ok E client s0 Hw0) as (Hw1 & Hr1 & Hgone).
  pose proof (serve_run E (RDisconnect client) s0) as Hk1. cbn [serve] in Hk1.
  unfold on_srv, on_relay, on_server, se_bind, se_modify. cbn [fst snd].
  fold s0. destruct (onDisconnect E client s0) as [s1 r] eqn:Hd. cbn [fst snd] in *.
  destruct (steps_ckinv _ _ _ _ _ _ _ laws ring_ids _ _ Hk1 Hck) as [Hck1 Hx].
  assert (linv ((s1, w.1.2), w.2)) as Hl1.
  { split; [split; cbn [fst snd]; try done; by eapply rows_extends|]. cbn [fst]. intros i Hi.
    rewrite (ro_conns _ _ _ Hr1). cbn. pose proof (proj2 (ro_state _ _ _ Hr1) _ Hi) as Hi0.
    destruct (Hs i Hi0) as (c & Hcc & Hca). exists c. split; [|done]. rewrite lookup_delete_ne; [done|].
    intros ->. assert (c = client) as -> by congruence. rewrite Hid in Hgone. by apply (Hgone Hca). }
  assert (sv_clients s1 = delete id (sv_clients w.1.1)) as Hcl by (by rewrite (ro_conns _ _ _ Hr1)).
  destruct r; (split_and!; [|split|exact Hcl|done]); try done. destruct Hl1 as [[[? ?] ? ? ?] ?]. by split; [split|].
Qed.

Lemma serve_frame_step id f w :
  linv w → (∀ t, f ≠ FOther t) → frame_step id f w (serve_frame E F G others id f w).1.
Proof.
  intros Hl Hf. unfold serve_frame. destruct (sv_clients w.1.1 !! id) as [client|] eqn:Hc; [|by apply frame_calm].
  pose proof (dispatch_step id f client w Hl Hc Hf) as Hd.
  destruct (dispatch E F G others client f w) as [w1 [u|e]]; cbn [fst] in *; [done|].
  destruct Hd as [Hl1 Hr1 Hc1 Hh1]. destruct (disconnect_step id w1 Hl1) as (Hl2 & Hr2 & Hcl & Hlg).
  split; [done|by etrans| |].
  - intros i c' Hi. rewrite Hcl in Hi. apply lookup_delete_Some in Hi as [_ Hi]. by apply Hc1.
  - intros i. unfold challenge_of. rewrite Hlg. apply Hh1.
Qed.

(** A connection is registered as nobody, and turned away when the server is full. *)
Lemma accept_step id w :
  linv w → sv_clients w.1.1 !! id = None → let w' := (accept E F G id w).1 in
  linv w' ∧ srun w w' ∧
  (∀ i c', sv_clients w'.1.1 !! i = Some c' → (i ≠ id ∧ sv_clients w.1.1 !! i = Some c') ∨ (i = id ∧ c' = new_conn id)) ∧
  (∀ i, i ≠ id → challenge_of w' i = challenge_of w i) ∧ challenge_of w' id = None.
Proof.
  intros [[[Hwf Ho] Hck Hdb Hr] Hs] Hnew.
  set (w1 := ((set_conns <[id := new_conn id]> w.1.1, w.1.2), set_hs <[id := no_handshake]> w.2) : World).
  assert (linv w1) as Hl1.
  { split; [split; try done; split; [done|]|].
    - intros i c. cbn. intros [[<- <-]|[_ ?]]%lookup_insert_Some; [done|by apply Ho].
    - intros i Hi. destruct (Hs i Hi) as (c & Hc & Hca). exists c. split; [|done]. cbn. by rewrite lookup_insert_ne by congruence. }
  assert (csends E F (serverSetting F "max_clients_override") w1.1 (λ _ _, True)) as Hset.
  { eapply csends_bind; [apply get_sends; done|]. intros r x _ _ _. by apply csends_ret. }
  destruct (Hset (li_winv _ Hl1)) as (Hw2 & Hr2 & _).
  change (accept E F G id w) with ((run max <- EffectiveMaxClients F G; run count <- clientCount;
    if (0 <? max) && (max <? count) then
      run _ <- on_srv (ignore (writeMessage E id (MError errCodeUnavailable "server is full"))); disconnect E id
    else se_ret ()) w1).
  unfold EffectiveMaxClients, on_relay, se_bind. destruct (serverSetting F "max_clients_override" w1.1) as [x [v|e]];
    cbn [fst snd] in *; set (w2 := (x, w1.2) : World).
  all: assert (linv w2) as Hl2 by (split; [done|]; intros i Hi; change (sv_clients w2.1.1) with (sv_clients x.1); rewrite (ro_conns _ _ _ (wr_server _ _ _ Hr2));
    apply (li_settled _ Hl1), (proj2 (ro_state _ _ _ (wr_server _ _ _ Hr2))), Hi).
  all: assert (srun w w2) as Hsr by (split; [apply (wr_keys _ _ _ Hr2)|apply (wr_db _ _ _ Hr2)]).
  all: assert (∀ i c', sv_clients w2.1.1 !! i = Some c' →
    (i ≠ id ∧ sv_clients w.1.1 !! i = Some c') ∨ (i = id ∧ c' = new_conn id)) as Hconn
    by (intros i c'; change (sv_clients w2.1.1) with (sv_clients x.1); rewrite (ro_conns _ _ _ (wr_server _ _ _ Hr2)); cbn;
        intros [[<- <-]|[? ?]]%lookup_insert_Some; auto).
  all: assert ((∀ i, i ≠ id → challenge_of w2 i = challenge_of w i) ∧ challenge_of w2 id = None) as [Hch Hch0]
    by (split; [intros i Hne; unfold challenge_of; cbn; by rewrite lookup_insert_ne|unfold challenge_of; cbn; by rewrite lookup_insert_eq]).
  2: by split_and!.
  unfold se_ret, clientCount. cbv zeta beta iota. destruct ((0 <? _) && _); [|by split_and!].
  assert (calm id False w2 (on_srv (ignore (writeMessage E id (MError errCodeUnavailable "server is full"))) w2).1) as Hcalm.
  { pose proof (write_post E (new_conn id) False (MError errCodeUnavailable "server is full") w2 eq_refl) as [Hc _].
    revert Hc. unfold on_srv, on_relay, on_server, ignore. cbn. by destruct (writeMessage E id _ _) as [s' r]. }
  unfold se_bind, on_srv, on_relay, on_server, ignore in *. destruct (writeMessage E id _ w2.1.1) as [s3 r3]. cbn [fst snd] in *.
  set (w3 := ((s3, w2.1.2), w2.2) : World) in *. pose proof (calm_linv _ _ _ _ Hcalm Hl2) as Hl3.
  destruct (disconnect_step id w3 Hl3) as (Hl4 & Hr4 & Hcl4 & Hlg4).
  split_and!; [done|etrans; [done|etrans; [by eapply calm_srun|done]]| | |].
  - intros i c'. rewrite Hcl4, (ca_clients _ _ _ _ Hcalm), lookup_delete_Some. intros [_ Hi]. by apply Hconn.
  - intros i Hne. unfold challenge_of. rewrite Hlg4. by apply Hch.
  - unfold challenge_of. rewrite Hlg4. apply Hch0.
Qed.

(** ** The server *)

(** What an event does to a connection: it keeps who it is, is new, or logs in. *)
Definition conn_event (e : server_event) w w' (i : string) (c' : Conn) : Prop :=
  (e ≠ EAccept i ∧ ∃ c, sv_clients w.1.1 !! i = Some c ∧ who c' = who c) ∨
  (e = EAccept i ∧ c' = new_conn i) ∨
  (∃ c f ai, e = EFrame i f ∧ sv_clients w.1.1 !! i = Some c ∧ cn_authed c = false ∧ credentials G w i f ai ∧
     who c' = who (setIdentity ai c)).

Record server_step (e : server_event) w w' : Prop := {
  ss_linv : linv w';
  ss_run : srun w w';
  ss_conn i c' : sv_clients w'.1.1 !! i = Some c' → conn_event e w w' i c';
  ss_challenge i : is_Some (challenge_of w' i) →
    (e ≠ EAccept i ∧ is_Some (challenge_of w i)) ∨ (∃ msg, e = EFrame i (FAuthenticate (Some msg)) ∧ knows_server_password G msg);
}.

Lemma server_serve_step e w : linv w → legal e w → server_step e w (server_serve e w).1.
Proof.
  intros Hl He. destruct e as [id|id f|id|ch]; cbn [server_serve legal] in *.
  - destruct (accept_step id w Hl He) as (Hl' & Hr' & Hc' & Hh' & Hh0). split; [done..| |].
    + intros i c' Hi. destruct (Hc' i c' Hi) as [[Hne Hci]|[-> ->]]; [|by right; left]. left. split; [congruence|]. by exists c'.
    + intros i Hi. left. destruct (decide (i = id)) as [->|Hne]; [rewrite Hh0 in Hi; by destruct Hi|].
      split; [congruence|]. by rewrite <- Hh'.
  - assert (∀ t, f ≠ FOther t) as Hf by (by intros t ->).
    destruct (serve_frame_step id f w Hl Hf) as [Hl' Hr' Hc' Hh']. split; [done..| |].
    + intros i c' Hi. destruct (Hc' i c' Hi) as [Hk|(c & ai & Hc & Hca & [-> Hcr] & Hw)]; [by left|].
      right. right. by exists c, f, ai.
    + intros i [Hi|[-> Hi]]%Hh'; [by left|]. right. destruct f as [[msg|]|[]|[]| | |[]|?|?]; cbn in Hi; try done. by exists msg.
  - destruct (disconnect_step id w Hl) as (Hl' & Hr' & Hc' & Hg). split; [done..| |].
    + intros i c' Hi. rewrite Hc', lookup_delete_Some in Hi. left. split; [done|]. exists c'. tauto.
    + intros i. unfold challenge_of. rewrite Hg. by left.
  - assert (csends E F (chat_serve E F (CServer (RRotation ch))) w.1 (λ _ _, True)) as Hs by (by apply chat_serve_sends).
    destruct (Hs (li_winv _ Hl)) as (Hw' & Hr' & _). unfold on_relay. destruct (chat_serve E F _ w.1) as [x r]. cbn [fst snd] in *.
    assert (sv_clients x.1 = sv_clients w.1.1) as Hcl by apply Hr'. split.
    + split; [done|]. cbn [fst]. intros i Hi. rewrite Hcl. apply (li_settled _ Hl), (proj2 (ro_state _ _ _ (wr_server _ _ _ Hr'))), Hi.
    + split; [apply (wr_keys _ _ _ Hr')|apply (wr_db _ _ _ Hr')].
    + intros i c'. cbn [fst]. rewrite Hcl. intros Hi. left. split; [done|]. by exists c'.
    + intros i Hi. by left.
Qed.

End laws.

(** ** Histories *)

(** The events served from [w0] on, in order, and the world they lead to. *)
Inductive history w0 : list server_event → World → Prop :=
| history_nil : history w0 [] w0
| history_snoc tr w e : history w0 tr w → legal e w → history w0 (tr ++ [e]) (server_serve e w).1.

Lemma session_snoc id tr e : session id (tr ++ [e]) = note_event id (session id tr) e.
Proof. unfold session. by rewrite foldl_app. Qed.

(** [i] was not accepted anew. *)
Lemma session_keeps id tr e f : e ≠ EAccept id → f ∈ session id tr → f ∈ session id (tr ++ [e]).
Proof.
  intros He Hf. rewrite session_snoc. destruct e as [i|i g|i|ch]; cbn; try done; case_decide; simplify_eq; try done.
  apply elem_of_app. by left.
Qed.

Section histories.
Context (laws : CryptoLaws (env_rnd E) (env_Seal E) (env_Open E)).
Context (ring_ids : ∀ ring, env_kek E = Some ring → 0 ≤ kr_newest ring < 2 ^ 16).

Lemma history_inv w0 tr w : linv w0 → history w0 tr w → linv w ∧ srun w0 w.
Proof.
  intros Hl. induction 1 as [|tr w e _ [IHl IHr] He]; [by split|].
  destruct (server_serve_step laws ring_ids e w IHl He) as [Hl' Hr' _ _]. split; [done|by etrans].
Qed.

(** Where the identity of a connection comes from. *)
Definition origin w0 (tr : list server_event) (i : string) (c : Conn) : Prop :=
  ∃ tr1 f tr2 w1 ai, tr = tr1 ++ EFrame i f :: tr2 ∧ EAccept i ∉ tr2 ∧ history w0 tr1 w1 ∧ credentials G w1 i f ai ∧
    cn_UniqueID c = ai_uniqueID ai ∧ cn_Username c = ai_nickname ai ∧ cn_userID c = ai_userID ai ∧ cn_isAdmin c = ai_admin ai.

Lemma origin_snoc w0 tr i c c' e : e ≠ EAccept i → who c' = who c → origin w0 tr i c → origin w0 (tr ++ [e]) i c'.
Proof.
  intros He Hw (tr1 & f & tr2 & w1 & ai & -> & Hna & Hh & Hcr & Hid). exists tr1, f, (tr2 ++ [e]), w1, ai.
  unfold who in Hw. split_and!; [by rewrite <- (assoc_L (++))|set_solver|done|done|..]; destruct Hid as (? & ? & ? & ?); congruence.
Qed.

Lemma history_origin w0 tr w i c :
  linv w0 → sv_clients w0.1.1 = ∅ → history w0 tr w → sv_clients w.1.1 !! i = Some c → cn_authed c = true → origin w0 tr i c.
Proof.
  intros Hl0 Hempty Hh. revert c. induction Hh as [|tr w e Hh IH He]; intros c Hc Ha; [by rewrite Hempty in Hc|].
  destruct (history_inv w0 tr w Hl0 Hh) as [Hl _].
  destruct (server_serve_step laws ring_ids e w Hl He) as [_ _ Hconn _].
  destruct (Hconn i c Hc) as [(Hne & c0 & Hc0 & Hw)|[[-> ->]|(c0 & f & ai & -> & Hc0 & Ha0 & Hcr & Hw)]]; [|done|].
  - assert (cn_authed c0 = true) as Ha0 by (unfold who in Hw; congruence). eapply origin_snoc; [done..|]. by apply IH.
  - exists tr, f, [], w, ai. unfold who, setIdentity in Hw. cbn in Hw.
    split_and!; [done|by intros ?%elem_of_nil|done|done|..]; congruence.
Qed.

Lemma history_password w0 tr w i c :
  linv w0 → sv_clients w0.1.1 = ∅ → (∀ i, challenge_of w0 i = None) → history w0 tr w →
  (sv_clients w.1.1 !! i = Some c → cn_authed c = true →
     ∃ msg, FAuthenticate (Some msg) ∈ session i tr ∧ knows_server_password G msg) ∧
  (is_Some (challenge_of w i) → ∃ msg, FAuthenticate (Some msg) ∈ session i tr ∧ knows_server_password G msg).
Proof.
  intros Hl0 Hempty Hno Hh. revert c. induction Hh as [|tr w e Hh IH He]; intros c.
  { rewrite Hempty. split; [done|]. rewrite Hno. by intros [? ?]. }
  destruct (history_inv w0 tr w Hl0 Hh) as [Hl _]. destruct (server_serve_step laws ring_ids e w Hl He) as [_ _ Hconn Hch].
  assert (∀ msg, e = EFrame i (FAuthenticate (Some msg)) → FAuthenticate (Some msg) ∈ session i (tr ++ [e])) as Hthis.
  { intros msg ->. rewrite session_snoc. cbn. rewrite decide_True by done. apply elem_of_app. right. by left. }
  split.
  - intros Hc Ha. destruct (Hconn i c Hc) as [(Hne & c0 & Hc0 & Hw)|[[-> ->]|(c0 & f & ai & -> & Hc0 & Ha0 & Hcr & Hw)]]; [|done|].
    + assert (cn_authed c0 = true) as Ha0 by (unfold who in Hw; congruence).
      destruct (proj1 (IH c0) Hc0 Ha0) as (msg & Hin & Hk). exists msg. split; [by apply session_keeps|done].
    + assert (pending : (∃ ch u, pending_challenge G w i u ch) → ∃ msg, FAuthenticate (Some msg) ∈ session i tr ∧ knows_server_password G msg).
      { intros (ch & u & Hp & _). apply (proj2 (IH c)). unfold challenge_of. by rewrite Hp. }
      destruct Hcr as [msg ? ? ? Hk|msg ? ? Hk|msg ch ? ? ? ? ? ? Hp|msg ch ? ? ? ? Hp|msg ch ? ? ? Hp];
        [exists msg; by eauto|exists msg; by eauto|..].
      all: destruct pending as (m & Hin & Hk); [by eauto|]; exists m; split; [by apply session_keeps|done].
  - intros [[Hne Hi]|(msg & -> & Hk)]%Hch; [|by eauto].
    destruct (proj2 (IH c) Hi) as (msg & Hin & Hk). exists msg. split; [by apply session_keeps|done].
Qed.

End histories.

(** ** Who a connection is *)


(** C4: a server with a password serves nobody who has not sent it: in every history
    an authenticated connection, and even one with a pending challenge, has sent a
    login frame with the right server password since it was accepted. *)
Theorem server_password_enforced w0 tr w i :
  CryptoLaws (env_rnd E) (env_Seal E) (env_Open E) →
  (∀ ring, env_kek E = Some ring → 0 ≤ kr_newest ring < 2 ^ 16) →
  linv w0 → sv_clients w0.1.1 = ∅ → (∀ i, challenge_of w0 i = None) → ae_serverPasswordHash G ≠ "" → history w0 tr w →
  (∃ c, sv_clients w.1.1 !! i = Some c ∧ cn_authed c = true) ∨ is_Some (challenge_of w i) →
  ∃ msg, FAuthenticate (Some msg) ∈ session i tr ∧
    VerifyPassword (ae_IDKey G) (am_ServerPassword msg) (ae_serverPasswordHash G) = Ok ().
Proof.
  intros laws ids Hl Hempty Hno Hset Hh Hi.
  assert (∃ msg, FAuthenticate (Some msg) ∈ session i tr ∧ knows_server_password G msg) as (msg & Hin & [?|?]); [|done|by exists msg].
  destruct Hi as [(c & Hc & Ha)|Hi].
  - by apply (proj1 (history_password laws ids w0 tr w i c Hl Hempty Hno Hh)).
  - by apply (proj2 (history_password laws ids w0 tr w i (new_conn i) Hl Hempty Hno Hh)).
Qed.

(** C6: whatever the server goes through (connections, logins, messages, edits, key
    rotations, moves, disconnects, with database and write failures anywhere),
    every message that is stored and not deleted can be opened: [open] with the
    generation its row names answers a text within the length limit, provided the
    two database calls it makes are answered. *)
Theorem server_stays_readable w0 tr w id m :
  CryptoLaws (env_rnd E) (env_Seal E) (env_Open E) →
  (∀ ring, env_kek E = Some ring → 0 ≤ kr_newest ring < 2 ^ 16) →
  linv w0 → history w0 tr w →
  db_messages (ct_db w.1.2) !! id = Some m → msg_DeletedAt m = None →
  env_db E (ck_calls (sv_keys w.1.1)) = DbOk → env_db E (S (ck_calls (sv_keys w.1.1))) = DbOk →
  ∃ plain, (open (env_db E) (env_Open E) (env_has_store E) (env_kek E) (msg_ChannelID m) (msg_KeyID m) (msg_BodyEnc m)
              (sv_keys w.1.1)).2 = Ok plain ∧ too_long F (string_of_bytes plain) = false.
Proof.
  intros laws ids Hl0 Hh Hm Hd Hdb Hdb2. destruct (history_inv laws ids w0 tr w Hl0 Hh) as [[Hw _] _].
  destruct (wi_rows _ _ _ Hw id m Hm Hd) as (plain & Hs & Hlen). exists plain. split; [|done].
  eapply open_ok; [done..| |done|done|done]. apply (wi_keys _ _ _ Hw).
Qed.

(** ** Nicknames *)

Lemma candidate_inj nickname (i j : Z) : nickname +:+ "#" +:+ pretty i = nickname +:+ "#" +:+ pretty j → i = j.
Proof. intros Heq%(inj (String.app nickname))%(inj (String.app "#")). by apply (inj pretty) in Heq. Qed.

Lemma free_nickname_None fuel taken nickname i :
  free_nickname fuel taken nickname i = None →
  ∀ k, 0 ≤ k < Z.of_nat fuel → nickname +:+ "#" +:+ pretty (i + k) ∈ taken.
Proof.
  revert i. induction fuel as [|fuel IH]; intros i; simpl; [intros _; lia|].
  case_bool_decide as Hin; [|done]. intros Hn k Hk. destruct (decide (k = 0)) as [->|Hne]; [by rewrite Z.add_0_r|].
  replace (i + k) with (i + 1 + (k - 1)) by lia. apply IH; [done|lia].
Qed.

Lemma free_nickname_Some fuel taken nickname i c :
  free_nickname fuel taken nickname i = Some c →
  ∃ k, 0 ≤ k ∧ c = nickname +:+ "#" +:+ pretty (i + k) ∧ c ∉ taken ∧
    ∀ j, 0 ≤ j < k → nickname +:+ "#" +:+ pretty (i + j) ∈ taken.
Proof.
  revert i. induction fuel as [|fuel IH]; intros i; simpl; [done|]. case_bool_decide as Hin.
  - intros (k & Hk & -> & Hc & Hall)%IH. exists (k + 1). split_and!; [lia| | |].
    + by replace (i + (k + 1)) with (i + 1 + k) by lia.
    + done.
    + intros j Hj. destruct (decide (j = 0)) as [->|Hne]; [by rewrite Z.add_0_r|].
      replace (i + j) with (i + 1 + (j - 1)) by lia. apply Hall. lia.
  - intros [= <-]. exists 0. rewrite Z.add_0_r. split_and!; [lia|done|done|]. intros j Hj. lia.
Qed.

(** One of more candidates than there are names is free. *)
Lemma free_nickname_total taken nickname i : is_Some (free_nickname (S (size taken)) taken nickname i).
Proof.
  destruct (free_nickname (S (size taken)) taken nickname i) eqn:Hn; [by eauto|]. exfalso.
  pose proof (free_nickname_None _ _ _ _ Hn) as Hall.
  set (l := (λ k, nickname +:+ "#" +:+ pretty (i + k)) <$> seqZ 0 (Z.of_nat (S (size taken)))).
  assert (NoDup l) as Hnd.
  { apply NoDup_fmap_2_strong; [|apply NoDup_seqZ]. intros x y _ _ Heq%candidate_inj. lia. }
  assert (list_to_set l ⊆ taken) as Hsub.
  { intros x Hx. apply elem_of_list_to_set, list_elem_of_fmap in Hx as (k & -> & Hk%elem_of_seqZ). apply Hall. lia. }
  apply subseteq_size in Hsub. rewrite size_list_to_set in Hsub by done. unfold l in Hsub.
  rewrite length_fmap, length_seqZ in Hsub. lia.
Qed.

(** The nickname a guest gets is no authenticated connection's, and the search
    for it ends: it is the one asked for, or the first of [nick#2], [nick#3], ...
    that is free. *)
Theorem guest_nickname_free nickname w :
  ∃ n, dedupeNickname nickname w = (w, Ok n) ∧
    (∀ i c, sv_clients w.1.1 !! i = Some c → cn_authed c = true → cn_Username c ≠ n) ∧
    (n = nickname ∨
     ∃ k, 2 ≤ k ∧ n = nickname +:+ "#" +:+ pretty k ∧
       (∃ i c, sv_clients w.1.1 !! i = Some c ∧ cn_authed c = true ∧ cn_Username c = nickname) ∧
       ∀ j, 2 ≤ j < k → ∃ i c, sv_clients w.1.1 !! i = Some c ∧ cn_authed c = true ∧
         cn_Username c = nickname +:+ "#" +:+ pretty j).
Proof.
  unfold dedupeNickname. set (taken := list_to_set _ : gset string).
  assert (∀ n, n ∈ taken ↔ ∃ i c, sv_clients w.1.1 !! i = Some c ∧ cn_authed c = true ∧ cn_Username c = n) as Htaken.
  { intros n. unfold taken. rewrite elem_of_list_to_set, list_elem_of_fmap. split.
    - intros (c & -> & (Ha & Hin)%list_elem_of_filter). apply list_elem_of_fmap in Hin as ([i c'] & -> & Hin%elem_of_range). by exists i, c'.
    - intros (i & c & Hi & Ha & <-). exists c. split; [done|]. apply list_elem_of_filter. split; [done|].
      apply list_elem_of_fmap. exists (i, c). split; [done|]. by apply elem_of_range. }
  eexists. split; [reflexivity|]. case_bool_decide as Hin.
  - destruct (free_nickname_total taken nickname 2) as [c Hc]. rewrite Hc. cbn [default].
    apply free_nickname_Some in Hc as (k & Hk & -> & Hfree & Hall). split.
    + intros i c Hi Ha Heq. apply Hfree, Htaken. by exists i, c.
    + right. exists (2 + k). split_and!; [lia|done|by apply Htaken|]. intros j Hj. apply Htaken.
      replace j with (2 + (j - 2)) by lia. apply Hall. lia.
  - split; [|by left]. intros i c Hi Ha Heq. apply Hin, Htaken. by exists i, c.
Qed.

End props.

(** ** A server with a password, from its first connection on *)

Section demo.
#[local] Instance demo_range_z V : MapRange Z V := stdpp_range.
#[local] Instance demo_range_zz V : MapRange (Z * Z) V := stdpp_range.
#[local] Instance demo_range_s V : MapRange string V := stdpp_range.

Definition demo_hash : string :=
  encodeHash (replicate 16 1)
    (toy_IDKey (bytes_of_string "open sesame") (replicate 16 1) argonTime argonMemory argonThreads argonKeyLen).

Definition demo_auth_env : AuthEnv := {|
  ae_IDKey := toy_IDKey; ae_sha256 := λ l, take 32 (l ++ replicate 32 0); ae_pem_Decode := λ _, None;
  ae_ed_Verify := λ _ _ _, false; ae_db := λ _, DbOk; ae_dbclock := λ _, 0; ae_clock := λ n, Z.of_nat n;
  ae_rnd := λ n len, Some (replicate len (Z.of_nat n)); ae_conn := λ _, 0; ae_addr := λ _, "10.0.0.1:4000";
  ae_host := λ _, Some "10.0.0.1"; ae_auth := true; ae_rules := true; ae_serverPasswordHash := demo_hash;
  ae_memberGroup := 0; ae_groupIDs := λ _ _, None; ae_assign_ok := λ _, true; ae_tlsFingerprint := "";
  ae_ICEServers := λ _, []; ae_maxClients := 10 |}.

Definition demo_limits : LoginFailureLimiterConfig :=
  {| MaxFailures := 5; LockoutDuration := minute; FailureTTL := minute; MaxEntries := 100; MaxConcurrentKDF := 4 |}.

Definition demo_login : Login :=
  mkLogin (mkAccounts ∅ 1 ∅ ∅ 0 0) (NewLoginFailureLimiter demo_limits) ∅ [] 0 0.

(** Nobody is connected. *)
Definition empty_server : Server := {|
  sv_cm := {| cm_state := NewManager; cm_db := ∅; cm_nextID := 3; cm_adminGroup := None; cm_groupMembers := [];
              cm_timers := ∅; cm_nextGeneration := 0; cm_nextPtr := 0; cm_delay := DefaultCleanupDelay;
              cm_oracle := []; cm_notified := [] |};
  sv_keys := CK_start; sv_clients := ∅; sv_buckets := ∅; sv_rotPending := ∅;
  sv_loads := 0; sv_reads := 0; sv_log := [] |}.

Definition demo_start : World := ((empty_server, demo_chat), demo_login).

Definition no_others (type : Z) (client : Conn) : L () := se_ret ().

Lemma demo_start_linv : linv demo_env demo_chat_env demo_start.
Proof.
  split; [|by intros i Hi]. split; [|apply start_ckinv|exact start_dbinv|by intros id m Hm].
  split; [exact NewManager_wf|by intros id c Hc].
Qed.

(** A guest who knows the password. *)
Definition guest_msg : Authenticate :=
  {| am_Username := ""; am_Password := ""; am_ServerPassword := "open sesame"; am_Nickname := "zoe";
     am_Anonymous := true; am_PublicKey := ""; am_X25519PublicKey := "" |}.

Definition demo_events : list server_event := [EAccept "c-1"; EFrame "c-1" (FAuthenticate (Some guest_msg))].

#[local] Abbreviation demo_serve := (server_serve demo_env demo_chat_env demo_auth_env no_others).
Definition demo_accepted : World := (demo_serve (EAccept "c-1") demo_start).1.
Definition demo_joined : World := (demo_serve (EFrame "c-1" (FAuthenticate (Some guest_msg))) demo_accepted).1.

Lemma demo_history : history demo_env demo_chat_env demo_auth_env no_others demo_start demo_events demo_joined.
Proof.
  change demo_events with (([] ++ [EAccept "c-1"]) ++ [EFrame "c-1" (FAuthenticate (Some guest_msg))]).
  apply history_snoc; [|exact I]. apply history_snoc; [apply history_nil|reflexivity].
Qed.

Lemma demo_joined_conn : ∃ c, sv_clients demo_joined.1.1 !! "c-1" = Some c ∧ cn_authed c = true ∧ cn_Username c = "zoe".
Proof. eexists. split; [vm_compute; reflexivity|by vm_compute]. Qed.


Lemma server_password_enforced_witness :
  ∃ msg, FAuthenticate (Some msg) ∈ session "c-1" demo_events ∧ VerifyPassword toy_IDKey (am_ServerPassword msg) demo_hash = Ok ().
Proof.
  destruct demo_joined_conn as (c & Hc & Ha & _).
  apply (server_password_enforced demo_env demo_chat_env demo_auth_env no_others demo_start demo_events demo_joined "c-1").
  - exact toy_laws.
  - exact toy_ids.
  - exact demo_start_linv.
  - reflexivity.
  - done.
  - by vm_compute.
  - exact demo_history.
  - left. exact (ex_intro _ c (conj Hc Ha)).
Defined.

(** The same server with "alice" in a channel, who says "hi" there. *)
Definition demo_talk : World := ((demo_server, demo_chat), demo_login).
Definition demo_said : World := (demo_serve (EFrame "alice" (FRequest (QSend (Some demo_msg)))) demo_talk).1.

Lemma demo_talk_linv : linv demo_env demo_chat_env demo_talk.
Proof.
  split; [exact demo_winv|]. intros i Hi.
  assert (i ∈ ({["alice"]} : gset string)) as ->%elem_of_singleton.
  { revert Hi. assert (dom (w_at (view (sv_state demo_server))) = {["alice"]}) as <-; [by vm_compute|done]. }
  by exists alice.
Qed.

Lemma server_stays_readable_witness :
  ∃ m plain, db_messages (ct_db demo_said.1.2) !! 1 = Some m ∧
    (open (env_db demo_env) toy_Open true toy_ring (msg_ChannelID m) (msg_KeyID m) (msg_BodyEnc m) (sv_keys demo_said.1.1)).2 = Ok plain.
Proof.
  assert (msg_DeletedAt <$> db_messages (ct_db demo_said.1.2) !! 1 = Some None) as Hn by by vm_compute.
  destruct (db_messages (ct_db demo_said.1.2) !! 1) as [m|] eqn:Hm; [|done].
  destruct (server_stays_readable demo_env demo_chat_env demo_auth_env no_others demo_talk
    ([] ++ [EFrame "alice" (FRequest (QSend (Some demo_msg)))]) demo_said 1 m) as (plain & Hp & _).
  - exact toy_laws.
  - exact toy_ids.
  - exact demo_talk_linv.
  - apply history_snoc; [apply history_nil|exact I].
  - exact Hm.
  - by injection Hn.
  - done.
  - done.
  - exists m, plain. split; [reflexivity|exact Hp].
Defined.

Lemma auth_gate_witness :
  ∃ e, (dispatch demo_env demo_chat_env demo_auth_env no_others (new_conn "c-1") (FRequest QFilterGet) demo_start).1 =
         ((add_effect e empty_server, demo_chat), demo_login) ∧
    e = Wrote NewManager "c-1" (MError errCodeNotAuthenticated "not authenticated").
Proof.
  destruct (auth_gate demo_env demo_chat_env demo_auth_env no_others (new_conn "c-1") (FRequest QFilterGet) demo_start)
    as (e & He & _); [left; by split|]. exists e. split; [exact He|].
  assert (sv_log (dispatch demo_env demo_chat_env demo_auth_env no_others (new_conn "c-1") (FRequest QFilterGet) demo_start).1.1.1
    = [Wrote NewManager "c-1" (MError errCodeNotAuthenticated "not authenticated")]) as Hl by reflexivity.
  rewrite He in Hl. by injection Hl.
Defined.

(** ** Where a ban does not hold *)

Definition bob_row : UserRow :=
  mkUserRow "bob-id" (Some "bob") (Some demo_hash) (Some "bob-key") false None.

(** The account "bob-id" is banned, for good and everywhere. *)
Definition banned_login : Login :=
  mkLogin (mkAccounts {[1 := bob_row]} 2
             {[1 := {| br_type := 1; br_value := "bob-id"; br_reason := None; br_expires := None; br_channel := None |}]} ∅ 0 0)
    (NewLoginFailureLimiter demo_limits) {["c-1" := mkHandshake (Some (replicate 32 5)) "" "" 9 ""]} [] 0 0.
Definition banned_start : World := ((empty_server, demo_chat), banned_login).

Definition bob_msg (name : string) : Authenticate :=
  {| am_Username := name; am_Password := "open sesame"; am_ServerPassword := "open sesame"; am_Nickname := "";
     am_Anonymous := false; am_PublicKey := ""; am_X25519PublicKey := "" |}.

Definition logged_in (m : L ()) : option string :=
  cn_UniqueID <$> sv_clients (m banned_start).1.1.1 !! "c-1".

(** A ban of an account is looked up under the name the login gives: the account
    is refused by its unique id, and gets in by its nickname. *)
Theorem banned_account_logs_in_by_nickname :
  logged_in (handleAuthenticate demo_env demo_chat_env demo_auth_env (new_conn "c-1") (Some (bob_msg "bob-id"))) = None ∧
  logged_in (handleAuthenticate demo_env demo_chat_env demo_auth_env (new_conn "c-1") (Some (bob_msg "bob"))) = Some "bob-id".
Proof. split; by vm_compute. Qed.

(** A server whose Ed25519 accepts the one signature. *)
Definition key_auth_env : AuthEnv := {|
  ae_IDKey := toy_IDKey; ae_sha256 := λ l, take 32 (l ++ replicate 32 0); ae_pem_Decode := λ _, Some ("PUBLIC KEY", replicate 32 3);
  ae_ed_Verify := λ k m s, bool_decide (s = m); ae_db := λ _, DbOk; ae_dbclock := λ _, 0; ae_clock := λ n, Z.of_nat n;
  ae_rnd := λ n len, Some (replicate len (Z.of_nat n)); ae_conn := λ _, 0; ae_addr := λ _, "10.0.0.1:4000";
  ae_host := λ _, Some "10.0.0.1"; ae_auth := true; ae_rules := true; ae_serverPasswordHash := "";
  ae_memberGroup := 0; ae_groupIDs := λ _ _, None; ae_assign_ok := λ _, true; ae_tlsFingerprint := "";
  ae_ICEServers := λ _, []; ae_maxClients := 10 |}.

(** So it does with the identity key bound to it, since the ban is looked up under
    the id derived from the key and not under the account's. *)
Theorem banned_account_logs_in_by_bound_key :
  logged_in (handleAuthSignature demo_env demo_chat_env key_auth_env (new_conn "c-1")
    (Some {| sg_UniqueID := ""; sg_PublicKey := "bob-key"; sg_Signature := replicate 32 5; sg_X25519PublicKey := "" |}))
    = Some "bob-id".
Proof. by vm_compute. Qed.

End demo.
