(* ===== verification/AuthLockout.v ===== *)
(** * Lockouts at the login ([src/internal/server/handlers.go], [src/internal/auth/limiter.go])

    The failure limiter composed with the login handlers: while the scope of a
    principal is locked out, no login for it gets anywhere, whatever else the
    frame says and whichever password or signature it carries. *)

From S2P Require Import Prelude Wire GoState Permissions PermLoader PermCache StateManager PermCheck LoginLimiter LoginSafety ChannelManager Broadcast ChatKeys ChatText Passwords ServerWorld ChatScope ClientMoves ChatStore ChatRelay ChatHandlers AuthService AuthFlow AuthSafety ChatScopeProps ChatProps AuthProps.

(** What a refused login may write: an error, or a response that says no. *)
Definition refused (e : effect) : Prop :=
  match e with
  | Wrote _ _ (MError _ _) | WriteFailed _ => True
  | Wrote _ _ (MAuthResponse r) => ar_OK r = false
  | _ => False
  end.

(** An attempt that is over: finishing it again does nothing. *)
Definition done_with (n : nat) (w : World) : Prop := ∃ a, lg_attempts w.2 !! n = Some a ∧ live a = false.

(** A login that got nowhere: state, chat, keys, connections, accounts and pending
    challenges as before, no Argon2 run, [k] readings of the clock at most. *)
Record barred (k : nat) (w w' : World) : Prop := {
  ba_chat : w'.1.2 = w.1.2;
  ba_cm : sv_cm w'.1.1 = sv_cm w.1.1;
  ba_keys : sv_keys w'.1.1 = sv_keys w.1.1;
  ba_clients : sv_clients w'.1.1 = sv_clients w.1.1;
  ba_users : ac_users (lg_acc w'.2) = ac_users (lg_acc w.2);
  ba_kdf : ac_kdf (lg_acc w'.2) = ac_kdf (lg_acc w.2);
  ba_challenge i : challenge_of w' i = challenge_of w i;
  ba_log : ∃ l, sv_log w'.1.1 = sv_log w.1.1 ++ l ∧ Forall refused l;
  ba_reads : (lg_reads w.2 ≤ lg_reads w'.2 ≤ k + lg_reads w.2)%nat;
  ba_over n : done_with n w → done_with n w';
}.

(** The account a login frame is for, by the name its lockout goes under. *)
Definition principal_of (G : AuthEnv) (f : frame) : option string :=
  match f with
  | FAuthenticate (Some msg) =>
      if am_Anonymous msg && (bool_decide (am_Username msg = "") || negb (bool_decide (am_Password msg = ""))) then None
      else Some (am_Username msg)
  | FAuthSignature (Some msg) =>
      if bool_decide (sg_PublicKey msg = "") then Some (sg_UniqueID msg)
      else match UniqueIDFromPublicKey (ae_sha256 G) (ae_pem_Decode G) (sg_PublicKey msg) with
           | Ok uniqueID => Some uniqueID
           | Err _ => None
           end
  | _ => None
  end.

Lemma barred_trans k1 k2 w1 w2 w3 : barred k1 w1 w2 → barred k2 w2 w3 → barred (k1 + k2) w1 w3.
Proof.
  intros [Ha Hb Hc Hd He Hf Hg (l & Hl & Hr) Hn Ho] [Ha' Hb' Hc' Hd' He' Hf' Hg' (l' & Hl' & Hr') Hn' Ho'].
  split; [congruence..|intros i; congruence| |lia|auto].
  exists (l ++ l'). split; [by rewrite Hl', Hl, (assoc_L (++))|by apply Forall_app].
Qed.

Lemma barred_login k w l' :
  ac_users (lg_acc l') = ac_users (lg_acc w.2) → ac_kdf (lg_acc l') = ac_kdf (lg_acc w.2) →
  (∀ i, challenge_of (w.1, l') i = challenge_of w i) → (lg_reads w.2 ≤ lg_reads l' ≤ k + lg_reads w.2)%nat →
  (∀ n, done_with n w → done_with n (w.1, l')) → barred k w (w.1, l').
Proof. intros Hu Hk Hc Hr Ho. split; [done..|exists []; rewrite app_nil_r; by split|done|done]. Qed.

Lemma barred_weaken k k' w w' : (k ≤ k')%nat → barred k w w' → barred k' w w'.
Proof. intros Hk [Ha Hb Hc Hd He Hf Hg Hl Hn Ho]. split; try done. lia. Qed.

Section lockout.
Context (E : Env) (F : ChatEnv) (G : AuthEnv).
Context `{!∀ V, MapRange Z V, !∀ V, MapRange (Z * Z) V, !∀ V, MapRange string V}.
Context (T : Z) (s : string) (lo hi : nat).
Context (clock_ok : ∀ n, (lo ≤ n < hi)%nat → 0 < ae_clock G n < T).
Implicit Types w : World.

(** The limiter is sound and [s] is locked out. *)
Definition shut w : Prop := lim_ok (lg_lim w.2) ∧ locked T s (lg_lim w.2).

Definition bpost {A} (k : nat) (m : L A) w (Q : A → World → Prop) : Prop :=
  barred k w (m w).1 ∧ shut (m w).1 ∧ ∀ a, (m w).2 = Ok a → Q a (m w).1.

Lemma bpost_bind {A B} k1 k2 (m : L A) (f : A → L B) w Q R :
  bpost k1 m w Q → (∀ a w1, barred k1 w w1 → shut w1 → Q a w1 → bpost k2 (f a) w1 R) → bpost (k1 + k2) (se_bind m f) w R.
Proof using Type.
  intros (Hb & Hs & HQ) Hf. unfold bpost, se_bind. destruct (m w) as [w1 [a|e]]; cbn [fst snd] in *.
  - destruct (Hf a w1 Hb Hs (HQ a eq_refl)) as (Hb' & Hs' & HR). split_and!; [by eapply barred_trans|done..].
  - split_and!; [|done..]. eapply barred_weaken; [|done]. lia.
Qed.

Lemma bpost_weaken {A} k k' (m : L A) w (Q R : A → World → Prop) :
  (k ≤ k')%nat → (∀ a w', Q a w' → R a w') → bpost k m w Q → bpost k' m w R.
Proof using Type. intros Hk HQR (Hb & Hs & HQ). split_and!; [by eapply barred_weaken|done|]. intros a Ha. by apply HQR, HQ. Qed.

(** An attempt that can be finished: its own scopes are reserved. *)
Definition ours (n : nat) w : Prop :=
  ∃ a, lg_attempts w.2 !! n = Some a ∧
    (live a = true → NoDup (att_scopes a) ∧ att_scopes a ≠ [] ∧ ∀ x, x ∈ att_scopes a → flying (lg_lim w.2) x).

(** A step of the limiter alone, at one reading of the clock. *)
Lemma tick_barred w l atts :
  (∀ n, done_with n w → done_with n (w.1, set_attempts atts (set_lim l (tick_lread w.2)))) →
  barred 1 w (w.1, set_attempts atts (set_lim l (tick_lread w.2))).
Proof using Type. intros Ho. apply barred_login; [done..|cbn; lia|done]. Qed.

Lemma reserve_barred scopes w :
  shut w → (lo ≤ lg_reads w.2 < hi)%nat →
  bpost 1 (reserve G scopes) w (λ a w1, match a with Some n => s ∉ scopes ∧ ours n w1 | None => True end).
Proof using All.
  intros [Hok Hlk] Hr%clock_ok. unfold reserve, se_bind, now_, bpost. cbn -[Reserve].
  pose proof (Reserve_spec scopes (ae_clock G (lg_reads w.2)) (lg_lim w.2) Hok) as HR.
  assert (s ∈ scopes → (Reserve scopes (ae_clock G (lg_reads w.2)) (lg_lim w.2)).1 = None) as Hno.
  { intros Hs. assert (s ≠ EmptyString) by (destruct Hlk as (e & He & _), Hok as (_ & Hm & _); by apply Hm in He as [? _]).
    by eapply Reserve_locked; [apply Hr|..]. }
  assert (uniqueLoginScopes scopes = [] → Reserve scopes (ae_clock G (lg_reads w.2)) (lg_lim w.2) =
    (Some {| att_limiter := false; att_scopes := []; att_once := false |}, lg_lim w.2)) as Hnil by (intros Hn; unfold Reserve; by rewrite Hn).
  destruct (Reserve _ _ _) as [[a|] l] eqn:HR'; cbn [fst snd] in *.
  - assert (s ∉ scopes) as Hns by (intros ?%Hno; done).
    split; [apply tick_barred; intros n (b & Hb & ?); exists b; split; [by apply lookup_app_l_Some|done]|].
    destruct (decide (uniqueLoginScopes scopes = [])) as [Hn|Hne].
    + apply Hnil in Hn as [= -> ->]. split; [done|]. intros ? [= <-]. split; [done|].
      eexists. split; [cbn; by apply list_lookup_middle|done].
    + destruct (HR Hne) as (Hg & -> & Hgr). destruct (granted_ok _ _ _ _ (proj1 Hr) Hok Hg Hgr) as [Hok' Hfl].
      split; [split; [done|by apply (granted_locked _ _ _ _ _ _ (proj2 Hr) Hg (NoDup_uniqueLoginScopes _) Hgr)]|].
      intros ? [= <-]. split; [done|]. eexists. split; [cbn; by apply list_lookup_middle|]. intros _. split_and!; [apply NoDup_uniqueLoginScopes|done|].
      intros x Hx. apply Hfl. by right.
  - destruct (decide (uniqueLoginScopes scopes = [])) as [Hn|Hne]; [by apply Hnil in Hn|].
    destruct (HR Hne) as [_ Hsh]. split_and!; [by apply (tick_barred w l (lg_attempts w.2))| |by intros ? [= <-]].
    split; [by eapply shrinks_ok|by eapply shrinks_locked; [apply Hr|..]].
Qed.

Lemma attempt_barred n res succ w :
  shut w → (lo ≤ lg_reads w.2 < hi)%nat → ours n w →
  bpost 1 (on_attempt G n (finish res succ)) w (λ _, done_with n).
Proof using All.
  intros [Hok Hlk] Hr%clock_ok (a & Ha & Hown). unfold on_attempt, se_bind, now_, bpost. cbn -[finish]. rewrite Ha.
  set (now := ae_clock G (lg_reads w.2)) in *.
  assert (live (finish res succ now a (lg_lim w.2)).1 = false ∧ lim_ok (finish res succ now a (lg_lim w.2)).2) as [Hd Hok'].
  { destruct (live a) eqn:Hl.
    - destruct (Hown eq_refl) as (Hnd & Hne & Hfl).
      pose proof (finish_live res succ now a (lg_lim w.2) Hl Hnd Hne (proj1 Hr) Hok Hfl) as Hf.
      destruct (finish _ _ _ _ _) as [a' l']. by destruct Hf as (? & ? & _).
    - unfold finish. destruct (att_once a) eqn:Ho; [done|]. unfold live in Hl. rewrite Ho, andb_true_r in Hl.
      rewrite Hl. by split. }
  assert (locked T s (finish res succ now a (lg_lim w.2)).2) as Hlk'.
  { apply finish_locked; [done| |done..]. destruct (live a); [left; by apply Hown|by right]. }
  destruct (finish res succ now a (lg_lim w.2)) as [a' l]. cbn [fst snd] in *.
  assert (n < length (lg_attempts w.2))%nat by by eapply lookup_lt_Some. split_and!.
  - apply tick_barred. intros i (b & Hb & ?). destruct (decide (i = n)) as [->|Hne].
    + exists a'. split; [by apply list_lookup_insert_eq|done].
    + exists b. split; [cbn; by rewrite list_lookup_insert_ne|done].
  - done.
  - intros _ _. exists a'. split; [by apply list_lookup_insert_eq|done].
Qed.

Lemma done_ours n w : done_with n w → ours n w.
Proof using Type. intros (a & Ha & Hd). exists a. split; [done|]. by rewrite Hd. Qed.

Lemma write_barred client m w :
  shut w → (∀ st to, refused (Wrote st to m)) → bpost 0 (on_srv (writeMessage E (cn_ID client) m)) w (λ _ _, True).
Proof using Type.
  intros Hs Hm. unfold bpost, on_srv, on_relay, on_server, writeMessage.
  destruct (env_write_ok E _); cbn [fst snd]; (split_and!; [|done..]);
    (split; [done..| |cbn; lia|done]); eexists; (split; [reflexivity|]); by constructor.
Qed.

Lemma deny_barred client reason w : shut w → bpost 0 (deny E client reason) w (λ _ _, True).
Proof using Type. intros. by apply write_barred. Qed.
Lemma error_barred client code text w : shut w → bpost 0 (sendError_ E client code text) w (λ _ _, True).
Proof using Type. intros. by apply write_barred. Qed.

Lemma ban_barred uniqueID ip w : shut w → bpost 0 (banRejectReason G uniqueID ip) w (λ _ _, True).
Proof using Type.
  intros Hs. unfold banRejectReason, se_bind, on_acc, bpost.
  destruct (LookupActiveBan _ _ _ _ _) as [a r] eqn:Ha. unfold LookupActiveBan in Ha. apply select_spec in Ha as [-> _].
  cbn. split_and!; [|done..]. apply barred_login; done || (cbn; lia).
Qed.

Lemma ret_barred {A} (a : A) w : shut w → bpost 0 (se_ret a) w (λ _ _, True).
Proof using Type. intros Hs. split_and!; [|done..]. destruct w as [x l]. by apply (barred_login 0 (x, l)); done || (cbn; lia). Qed.

Lemma hs_barred client f w :
  shut w → (∀ h, hs_challenge (f h) = hs_challenge h) → bpost 0 (on_hs (cn_ID client) (λ h, (f h, ()))) w (λ _ _, True).
Proof using Type.
  intros Hs Hf. split_and!; [|done..]. apply barred_login; [done..| |cbn; lia|done]. intros i. unfold challenge_of. cbn.
  destruct (decide (i = cn_ID client)) as [->|Hne]; [rewrite lookup_insert_eq; apply Hf|by rewrite lookup_insert_ne].
Qed.

(** A reservation of [s] is refused, so whatever is behind it is not reached. *)
Lemma shut_out client scopes (k : nat → L ()) w :
  shut w → (lo ≤ lg_reads w.2 < hi)%nat → s ∈ scopes →
  bpost 1 (run a <- reserve G scopes; match a with None => deny_locked E client | Some a => k a end) w (λ _ _, True).
Proof using All.
  intros Hs Hr Hin. change 1%nat with (1 + 0)%nat. eapply bpost_bind; [by apply reserve_barred|].
  intros [a|] w1 _ Hs1 HQ; [by destruct HQ|by apply deny_barred].
Qed.

(** An attempt of another scope, finished and then cancelled by its [defer]. *)
Lemma bracket_barred n res succ k (rest : () → L ()) w :
  shut w → ours n w → (lo ≤ lg_reads w.2)%nat → (2 + k + lg_reads w.2 ≤ hi)%nat →
  (∀ w1, barred 1 w w1 → shut w1 → bpost k (rest ()) w1 (λ _ _, True)) →
  bpost (2 + k) (deferred (attempt_Cancel G n) (se_bind (on_attempt G n (finish res succ)) rest)) w (λ _ _, True).
Proof using All.
  intros Hs Ho Hlo Hhi Hrest. destruct (attempt_barred n res succ w Hs) as (Hb & Hs1 & Hd); [lia|done|].
  unfold bpost, deferred, se_bind. destruct (on_attempt G n (finish res succ) w) as [w1 [[]|e]] eqn:Hon; cbn [fst snd] in *.
  2:{ exfalso. unfold on_attempt, se_bind, now_ in Hon. destruct (lg_attempts _ !! n); [destruct (finish _ _ _ _ _)|]; by simplify_eq/=. }
  destruct (Hrest w1 Hb Hs1) as (Hb2 & Hs2 & _). destruct (rest () w1) as [w2 r]. cbn [fst snd] in *.
  pose proof (ba_reads _ _ _ Hb). pose proof (ba_reads _ _ _ Hb2).
  destruct (attempt_barred n loginAttemptCancel [] w2 Hs2) as (Hb3 & Hs3 & _);
    [lia|by apply done_ours, (ba_over _ _ _ Hb2), (Hd () eq_refl)|].
  split_and!; [|done..]. eapply barred_weaken; [|eapply barred_trans; [exact Hb|eapply barred_trans; [exact Hb2|exact Hb3]]]. lia.
Qed.

#[local] Abbreviation scope_ := (LoginFailureScope (ae_sha256 G) (ce_text F)).

Lemma account_barred client msg ip w :
  shut w → (lo ≤ lg_reads w.2 < hi)%nat → principal_of G (FAuthenticate (Some msg)) = Some (am_Username msg) →
  s = scope_ "" (am_Username msg) → bpost 1 (authenticate_account E F G client msg ip) w (λ _ _, True).
Proof using All.
  intros Hs Hr Hp ->. unfold authenticate_account, principal_of in *.
  destruct (am_Anonymous msg && _) eqn:Ha in Hp; [done|].
  destruct (am_Anonymous msg), (bool_decide (am_Password msg = "")), (bool_decide (am_Username msg = "")); try done; cbn [andb negb];
    by apply shut_out; [..|set_solver].
Qed.

Lemma authenticate_barred client msg w :
  shut w → (lo ≤ lg_reads w.2)%nat → (4 + lg_reads w.2 ≤ hi)%nat →
  principal_of G (FAuthenticate (Some msg)) = Some (am_Username msg) → s = scope_ "" (am_Username msg) →
  bpost 4 (handleAuthenticate E F G client (Some msg)) w (λ _ _, True).
Proof using All.
  intros Hs Hlo Hhi Hp Hsc. unfold handleAuthenticate. cbv zeta.
  destruct (cn_authed client); [by eapply (bpost_weaken 0); [lia|done|apply error_barred]|].
  change 4%nat with (0 + 4)%nat. eapply bpost_bind with (Q := λ _ _, True).
  { case_bool_decide; [by apply ret_barred|by apply hs_barred]. }
  intros [] w1 Hb1 Hs1 _. pose proof (ba_reads _ _ _ Hb1).
  destruct (negb (ae_auth G)); [by eapply (bpost_weaken 0); [lia|done|apply error_barred]|].
  change 4%nat with (0 + 4)%nat. eapply bpost_bind; [by apply ban_barred|]. intros [reason|] w2 Hb2 Hs2 _.
  2:{ by eapply (bpost_weaken 0); [lia|done|apply deny_barred]. }
  pose proof (ba_reads _ _ _ Hb2).
  destruct (negb _); [by eapply (bpost_weaken 0); [lia|done|apply deny_barred]|]. case_bool_decide.
  { eapply (bpost_weaken 1); [lia|done|]. apply account_barred; [done|lia|done..]. }
  change 4%nat with (1 + 3)%nat. eapply bpost_bind; [apply reserve_barred; [done|lia]|].
  intros [a|] w3 Hb3 Hs3 HQ; [|by eapply (bpost_weaken 0); [lia|done|apply deny_barred]].
  pose proof (ba_reads _ _ _ Hb3). destruct HQ as [_ Ho]. destruct (negb _).
  - eapply (bpost_weaken 2); [lia|done|]. apply (bracket_barred _ _ _ 0); [done|done|lia|lia|].
    intros w4 _ Hs4. by apply deny_barred.
  - apply (bracket_barred _ _ _ 1); [done|done|lia|lia|]. intros w4 Hb4 Hs4. pose proof (ba_reads _ _ _ Hb4).
    apply account_barred; [done|lia|done..].
Qed.

Lemma signature_barred client msg w :
  shut w → (lo ≤ lg_reads w.2)%nat → (4 + lg_reads w.2 ≤ hi)%nat →
  scope_ "" <$> principal_of G (FAuthSignature (Some msg)) = Some s →
  bpost 4 (handleAuthSignature E F G client (Some msg)) w (λ _ _, True).
Proof using All.
  intros Hs Hlo Hhi Hp. unfold handleAuthSignature. cbv zeta. cbn [principal_of] in Hp.
  destruct (cn_authed client); [by eapply (bpost_weaken 0); [lia|done|apply error_barred]|].
  change 4%nat with (0 + 4)%nat. eapply bpost_bind with (Q := λ _ _, True).
  { destruct (bool_decide (sg_X25519PublicKey msg = "")); [by apply ret_barred|by apply hs_barred]. }
  intros [] w1 Hb1 Hs1 _. pose proof (ba_reads _ _ _ Hb1).
  destruct (negb (ae_auth G)); [by eapply (bpost_weaken 0); [lia|done|apply error_barred]|].
  destruct (bool_decide (sg_PublicKey msg = "")); cbn [negb].
  { eapply (bpost_weaken 1); [lia|done|]. apply shut_out; [done|lia|]. injection Hp as <-. set_solver. }
  unfold handleGuestSignature. destruct (UniqueIDFromPublicKey _ _ _) as [uid|e]; [|done]. injection Hp as <-. cbv zeta.
  change 4%nat with (0 + 4)%nat. eapply bpost_bind; [by apply ban_barred|]. intros [reason|] w2 Hb2 Hs2 _.
  2:{ by eapply (bpost_weaken 0); [lia|done|apply deny_barred]. }
  pose proof (ba_reads _ _ _ Hb2).
  destruct (negb _); [by eapply (bpost_weaken 0); [lia|done|apply deny_barred]|].
  eapply (bpost_weaken 1); [lia|done|]. apply shut_out; [done|lia|set_solver].
Qed.

End lockout.


(** ** Five wrong passwords *)

Section demo.
#[local] Instance demo_range_z V : MapRange Z V := stdpp_range.
#[local] Instance demo_range_zz V : MapRange (Z * Z) V := stdpp_range.
#[local] Instance demo_range_s V : MapRange string V := stdpp_range.

Definition bob_scope : string := LoginFailureScope (ae_sha256 demo_auth_env) (ce_text demo_chat_env) "" "bob".

Definition locked_limiter : LoginFailureLimiter :=
  Nat.iter 5 (RecordFailure [bob_scope] 1) (NewLoginFailureLimiter demo_limits).

Definition locked_start : World :=
  ((empty_server, demo_chat), mkLogin (mkAccounts {[1 := bob_row]} 2 ∅ ∅ 0 0) locked_limiter ∅ [] 1 0).

Lemma locked_limiter_ok : lim_ok locked_limiter.
Proof.
  unfold locked_limiter. generalize 5%nat. intros n.
  pose proof (lwf_ok _ (lwf_init demo_limits)) as H0. cbn in H0.
  induction n as [|n IH]; [exact H0|]. change (Nat.iter (S n) ?f ?x) with (f (Nat.iter n f x)).
  by apply RecordFailure_keeps.
Qed.

End demo.
