(* ===== verification/GroupStore.v ===== *)
(** * Groups, permission entries, tokens and the audit log in the database
      ([src/internal/store/groups.go], [guest_groups.go], [tokens.go])

    The permission tables are those the loader reads ([Tables]); around them the
    group rows, the expiry of timed memberships, the privilege tokens and the audit
    log, and the users table of the account service. A statement may fail, or take
    effect and have its answer lost, by an oracle over the number of statements
    made so far; a transaction takes effect as a whole or not at all and is one
    step of the oracle. A foreign key, unique or range violation is an error of
    the statement. The states the permission tables were in are remembered, since
    a cached permission answer may be as old as any of them. *)

From S2P Require Import Prelude Wire GoState Permissions PermLoader ChatKeys ChatText Passwords AuthService.

(** ** Tables *)

Record GroupRow := mkGroupRow {
  gr_name : string;
  gr_sort_id : Z;
  gr_is_template : bool;
  gr_icon : string;
  gr_color : string;
  gr_hoist : bool;
}.

Record AutoRule := { au_id : Z; au_channel : Z; au_group : Z; au_priority : Z; au_enabled : bool }.

Record TokenRow := mkTokenRow {
  tk_key : string;
  tk_type : Z;
  tk_group_id : option Z;
  tk_channel_id : option Z;
  tk_description : string;
  tk_uses : Z;
  tk_max_uses : Z;
  tk_created_at : Z;
  tk_used_by : string;
}.

Record AuditRow := {
  ad_actor : string;
  ad_action : string;
  ad_target : string;
  ad_detail : string;
  ad_created_at : Z;
}.

Record GStore := mkGStore {
  gs_acc : Accounts;
  gs_tables : Tables;
  gs_past : list Tables;
  gs_expires : gmap (Z * Z) Z;              (* user, group: the timed memberships *)
  gs_serverGroups : gmap Z GroupRow;
  gs_channelGroups : gmap Z GroupRow;
  gs_autoRules : list AutoRule;
  gs_tokens : gmap Z TokenRow;
  gs_audit : gmap Z AuditRow;
  gs_daily : gmap (Z * string * string) Z;  (* day, action, target *)
  gs_seq : Z;                               (* above every id given out *)
  gs_calls : nat;
}.

Definition set_gacc (x : Accounts) (s : GStore) : GStore :=
  mkGStore x (gs_tables s) (gs_past s) (gs_expires s) (gs_serverGroups s) (gs_channelGroups s) (gs_autoRules s)
    (gs_tokens s) (gs_audit s) (gs_daily s) (gs_seq s) (gs_calls s).
Definition set_tables (x : Tables) (s : GStore) : GStore :=
  mkGStore (gs_acc s) x (gs_tables s :: gs_past s) (gs_expires s) (gs_serverGroups s) (gs_channelGroups s) (gs_autoRules s)
    (gs_tokens s) (gs_audit s) (gs_daily s) (gs_seq s) (gs_calls s).
Definition set_expires (f : gmap (Z * Z) Z → gmap (Z * Z) Z) (s : GStore) : GStore :=
  mkGStore (gs_acc s) (gs_tables s) (gs_past s) (f (gs_expires s)) (gs_serverGroups s) (gs_channelGroups s) (gs_autoRules s)
    (gs_tokens s) (gs_audit s) (gs_daily s) (gs_seq s) (gs_calls s).
Definition set_serverGroups (f : gmap Z GroupRow → gmap Z GroupRow) (s : GStore) : GStore :=
  mkGStore (gs_acc s) (gs_tables s) (gs_past s) (gs_expires s) (f (gs_serverGroups s)) (gs_channelGroups s) (gs_autoRules s)
    (gs_tokens s) (gs_audit s) (gs_daily s) (gs_seq s) (gs_calls s).
Definition set_channelGroups (f : gmap Z GroupRow → gmap Z GroupRow) (s : GStore) : GStore :=
  mkGStore (gs_acc s) (gs_tables s) (gs_past s) (gs_expires s) (gs_serverGroups s) (f (gs_channelGroups s)) (gs_autoRules s)
    (gs_tokens s) (gs_audit s) (gs_daily s) (gs_seq s) (gs_calls s).
Definition set_autoRules (f : list AutoRule → list AutoRule) (s : GStore) : GStore :=
  mkGStore (gs_acc s) (gs_tables s) (gs_past s) (gs_expires s) (gs_serverGroups s) (gs_channelGroups s) (f (gs_autoRules s))
    (gs_tokens s) (gs_audit s) (gs_daily s) (gs_seq s) (gs_calls s).
Definition set_tokens (f : gmap Z TokenRow → gmap Z TokenRow) (s : GStore) : GStore :=
  mkGStore (gs_acc s) (gs_tables s) (gs_past s) (gs_expires s) (gs_serverGroups s) (gs_channelGroups s) (gs_autoRules s)
    (f (gs_tokens s)) (gs_audit s) (gs_daily s) (gs_seq s) (gs_calls s).
Definition set_audit (f : gmap Z AuditRow → gmap Z AuditRow) (s : GStore) : GStore :=
  mkGStore (gs_acc s) (gs_tables s) (gs_past s) (gs_expires s) (gs_serverGroups s) (gs_channelGroups s) (gs_autoRules s)
    (gs_tokens s) (f (gs_audit s)) (gs_daily s) (gs_seq s) (gs_calls s).
Definition set_daily (f : gmap (Z * string * string) Z → gmap (Z * string * string) Z) (s : GStore) : GStore :=
  mkGStore (gs_acc s) (gs_tables s) (gs_past s) (gs_expires s) (gs_serverGroups s) (gs_channelGroups s) (gs_autoRules s)
    (gs_tokens s) (gs_audit s) (f (gs_daily s)) (gs_seq s) (gs_calls s).
Definition next_seq (s : GStore) : GStore :=
  mkGStore (gs_acc s) (gs_tables s) (gs_past s) (gs_expires s) (gs_serverGroups s) (gs_channelGroups s) (gs_autoRules s)
    (gs_tokens s) (gs_audit s) (gs_daily s) (gs_seq s + 1) (gs_calls s).
Definition tick_gcall (s : GStore) : GStore :=
  mkGStore (gs_acc s) (gs_tables s) (gs_past s) (gs_expires s) (gs_serverGroups s) (gs_channelGroups s) (gs_autoRules s)
    (gs_tokens s) (gs_audit s) (gs_daily s) (gs_seq s) (S (gs_calls s)).

Inductive StoreErr :=
| ErrTokenNotFound | ErrTokenExhausted | ErrGroupNotFound | ErrGroupHasMembers | ErrNoFields | ErrGuestIdentity
| ErrHasCredentials | ErrConstraint | ErrRandom | ErrStoreDB.

Abbreviation GS := (SE GStore StoreErr).

(** ** Permission tiers and targets *)

Inductive PermTier := PermTierServerGroup | PermTierClient | PermTierChannelClient | PermTierChannel | PermTierChannelGroup.

#[export] Instance PermTier_eq_dec : EqDecision PermTier.
Proof. solve_decision. Defined.

Record PermTarget := mkTarget { pt_GroupID : Z; pt_UserID : Z; pt_ChannelID : Z }.

#[export] Instance PermTarget_eq_dec : EqDecision PermTarget.
Proof. solve_decision. Defined.

Record PermEntry := { en_Key : string; en_Value : Z; en_Grant : Z; en_Skip : bool; en_Negate : bool }.

(** An INTEGER column. *)
Definition int4 (v : Z) : bool := (- 2 ^ 31 <=? v) && (v <? 2 ^ 31).

(** The tables with another junction table. *)
Definition with_sgp (f : list (Z * Z) → list (Z * Z)) (t : Tables) : Tables :=
  {| t_permissions := t_permissions t; t_server_group_members := t_server_group_members t;
     t_server_group_permissions := f (t_server_group_permissions t); t_channel_group_members := t_channel_group_members t;
     t_channel_group_permissions := t_channel_group_permissions t; t_client_permissions := t_client_permissions t;
     t_channel_client_permissions := t_channel_client_permissions t; t_channel_permissions := t_channel_permissions t;
     t_channels := t_channels t |}.
Definition with_cgp (f : list (Z * Z) → list (Z * Z)) (t : Tables) : Tables :=
  {| t_permissions := t_permissions t; t_server_group_members := t_server_group_members t;
     t_server_group_permissions := t_server_group_permissions t; t_channel_group_members := t_channel_group_members t;
     t_channel_group_permissions := f (t_channel_group_permissions t); t_client_permissions := t_client_permissions t;
     t_channel_client_permissions := t_channel_client_permissions t; t_channel_permissions := t_channel_permissions t;
     t_channels := t_channels t |}.
Definition with_cp (f : list (Z * option Z * Z) → list (Z * option Z * Z)) (t : Tables) : Tables :=
  {| t_permissions := t_permissions t; t_server_group_members := t_server_group_members t;
     t_server_group_permissions := t_server_group_permissions t; t_channel_group_members := t_channel_group_members t;
     t_channel_group_permissions := t_channel_group_permissions t; t_client_permissions := f (t_client_permissions t);
     t_channel_client_permissions := t_channel_client_permissions t; t_channel_permissions := t_channel_permissions t;
     t_channels := t_channels t |}.
Definition with_ccp (f : list (Z * Z * Z) → list (Z * Z * Z)) (t : Tables) : Tables :=
  {| t_permissions := t_permissions t; t_server_group_members := t_server_group_members t;
     t_server_group_permissions := t_server_group_permissions t; t_channel_group_members := t_channel_group_members t;
     t_channel_group_permissions := t_channel_group_permissions t; t_client_permissions := t_client_permissions t;
     t_channel_client_permissions := f (t_channel_client_permissions t); t_channel_permissions := t_channel_permissions t;
     t_channels := t_channels t |}.
Definition with_chp (f : list (Z * Z) → list (Z * Z)) (t : Tables) : Tables :=
  {| t_permissions := t_permissions t; t_server_group_members := t_server_group_members t;
     t_server_group_permissions := t_server_group_permissions t; t_channel_group_members := t_channel_group_members t;
     t_channel_group_permissions := t_channel_group_permissions t; t_client_permissions := t_client_permissions t;
     t_channel_client_permissions := t_channel_client_permissions t; t_channel_permissions := f (t_channel_permissions t);
     t_channels := t_channels t |}.
Definition with_permissions (f : gmap Z permRow → gmap Z permRow) (t : Tables) : Tables :=
  {| t_permissions := f (t_permissions t); t_server_group_members := t_server_group_members t;
     t_server_group_permissions := t_server_group_permissions t; t_channel_group_members := t_channel_group_members t;
     t_channel_group_permissions := t_channel_group_permissions t; t_client_permissions := t_client_permissions t;
     t_channel_client_permissions := t_channel_client_permissions t; t_channel_permissions := t_channel_permissions t;
     t_channels := t_channels t |}.
Definition with_sgm (f : list (Z * Z) → list (Z * Z)) (t : Tables) : Tables :=
  {| t_permissions := t_permissions t; t_server_group_members := f (t_server_group_members t);
     t_server_group_permissions := t_server_group_permissions t; t_channel_group_members := t_channel_group_members t;
     t_channel_group_permissions := t_channel_group_permissions t; t_client_permissions := t_client_permissions t;
     t_channel_client_permissions := t_channel_client_permissions t; t_channel_permissions := t_channel_permissions t;
     t_channels := t_channels t |}.
Definition with_cgm (f : list (Z * Z * Z) → list (Z * Z * Z)) (t : Tables) : Tables :=
  {| t_permissions := t_permissions t; t_server_group_members := t_server_group_members t;
     t_server_group_permissions := t_server_group_permissions t; t_channel_group_members := f (t_channel_group_members t);
     t_channel_group_permissions := t_channel_group_permissions t; t_client_permissions := t_client_permissions t;
     t_channel_client_permissions := t_channel_client_permissions t; t_channel_permissions := t_channel_permissions t;
     t_channels := t_channels t |}.

(** The permission ids linked to a target. *)
Definition linked (tier : PermTier) (g : PermTarget) (t : Tables) : list Z :=
  match tier with
  | PermTierServerGroup => snd <$> filter (λ r, r.1 = pt_GroupID g) (t_server_group_permissions t)
  | PermTierChannelGroup => snd <$> filter (λ r, r.1 = pt_GroupID g) (t_channel_group_permissions t)
  | PermTierClient => snd <$> filter (λ r, r.1 = (pt_UserID g, None)) (t_client_permissions t)
  | PermTierChannelClient => snd <$> filter (λ r, r.1 = (pt_UserID g, pt_ChannelID g)) (t_channel_client_permissions t)
  | PermTierChannel => snd <$> filter (λ r, r.1 = pt_ChannelID g) (t_channel_permissions t)
  end.

(** DELETE: the links of the target to the permissions [drop]. *)
Definition unlink (tier : PermTier) (g : PermTarget) (drop : Z → bool) (t : Tables) : Tables :=
  match tier with
  | PermTierServerGroup => with_sgp (filter (λ r, ¬ (r.1 = pt_GroupID g ∧ drop r.2 = true))) t
  | PermTierChannelGroup => with_cgp (filter (λ r, ¬ (r.1 = pt_GroupID g ∧ drop r.2 = true))) t
  | PermTierClient => with_cp (filter (λ r, ¬ (r.1 = (pt_UserID g, None) ∧ drop r.2 = true))) t
  | PermTierChannelClient => with_ccp (filter (λ r, ¬ (r.1 = (pt_UserID g, pt_ChannelID g) ∧ drop r.2 = true))) t
  | PermTierChannel => with_chp (filter (λ r, ¬ (r.1 = pt_ChannelID g ∧ drop r.2 = true))) t
  end.

(** INSERT ... ON CONFLICT DO NOTHING. *)
Definition insert_new {A} `{!EqDecision A} (x : A) (l : list A) : list A := if decide (x ∈ l) then l else l ++ [x].

Definition link (tier : PermTier) (g : PermTarget) (p : Z) (t : Tables) : Tables :=
  match tier with
  | PermTierServerGroup => with_sgp (insert_new (pt_GroupID g, p)) t
  | PermTierChannelGroup => with_cgp (insert_new (pt_GroupID g, p)) t
  | PermTierClient => with_cp (insert_new (pt_UserID g, None, p)) t
  | PermTierChannelClient => with_ccp (insert_new (pt_UserID g, pt_ChannelID g, p)) t
  | PermTierChannel => with_chp (insert_new (pt_ChannelID g, p)) t
  end.

(** The foreign keys of a link. *)
Definition target_exists (tier : PermTier) (g : PermTarget) (s : GStore) : bool :=
  let user := bool_decide (is_Some (ac_users (gs_acc s) !! pt_UserID g)) in
  let channel := bool_decide (is_Some (t_channels (gs_tables s) !! pt_ChannelID g)) in
  match tier with
  | PermTierServerGroup => bool_decide (is_Some (gs_serverGroups s !! pt_GroupID g))
  | PermTierChannelGroup => bool_decide (is_Some (gs_channelGroups s !! pt_GroupID g))
  | PermTierClient => user
  | PermTierChannelClient => user && channel
  | PermTierChannel => channel
  end.

Definition has_key (key : string) (t : Tables) (p : Z) : bool :=
  match t_permissions t !! p with Some r => bool_decide (row_key r = key) | None => false end.

Definition entry_of (r : permRow) : PermEntry :=
  {| en_Key := row_key r; en_Value := row_value r; en_Grant := row_grant r; en_Skip := row_skip r; en_Negate := row_negate r |}.

Definition entry_le (a b : PermEntry) : Prop := String.le (en_Key a) (en_Key b).
#[export] Instance entry_le_dec : RelDecision entry_le.
Proof. intros a b. unfold entry_le. apply _. Defined.

Definition row_of (key : string) (value grant : Z) (skip negate : bool) : permRow :=
  {| row_key := key; row_value := value; row_grant := grant; row_skip := skip; row_negate := negate |}.

#[export] Instance permRow_eq_dec : EqDecision permRow.
Proof. solve_decision. Defined.

(** The statements of [setPermissionWith], [unsetPermissionWith] and
    [upsertPermissionRow] as they change the store. *)
Definition find_row (r : permRow) (t : Tables) : option Z :=
  fst <$> head (filter (λ x, x.2 = r) (map_to_list (t_permissions t))).
Definition insert_row (r : permRow) (s : GStore) : GStore * Z :=
  let id := gs_seq s in (next_seq (set_tables (with_permissions <[id := r]> (gs_tables s)) s), id).
Definition unlink_key (tier : PermTier) (g : PermTarget) (key : string) (s : GStore) : GStore :=
  set_tables (unlink tier g (has_key key (gs_tables s)) (gs_tables s)) s.
Definition link_row (tier : PermTier) (g : PermTarget) (p : Z) (s : GStore) : result StoreErr GStore :=
  if target_exists tier g s then Ok (set_tables (link tier g p (gs_tables s)) s) else Err ErrConstraint.

(** ** Statements *)

Section store.
Context (db : nat → dbOutcome) (now_db : nat → Z).
Context `{!∀ V, MapRange Z V}.

(** One statement or one transaction; [op] computes, at the database's time, its
    effect and its answer, or the error of a constraint or of the code in between. *)
Definition gstatement {B} (op : Z → GStore → result StoreErr (GStore * B)) : GS B := λ s,
  let o := db (gs_calls s) in
  let now := now_db (gs_calls s) in
  let s := tick_gcall s in
  match o with
  | DbFailed => (s, Err ErrStoreDB)
  | DbOk => match op now s with Ok (s', b) => (s', Ok b) | Err e => (s, Err e) end
  | DbLost => match op now s with Ok (s', _) => (s', Err ErrStoreDB) | Err _ => (s, Err ErrStoreDB) end
  end.

Definition gselect {B} (f : GStore → B) : GS B := gstatement (λ _ s, Ok (s, f s)).
Definition gupdate (f : GStore → GStore) : GS () := gstatement (λ _ s, Ok (f s, ())).

(** ** Groups *)

Record Group := {
  g_ID : Z;
  g_Name : string;
  g_SortID : Z;
  g_IsTemplate : bool;
  g_Icon : string;
  g_Color : string;
  g_Hoist : bool;
  g_MemberCount : Z;
}.

Definition group_le (a b : Group) : Prop := g_SortID a < g_SortID b ∨ (g_SortID a = g_SortID b ∧ String.le (g_Name a) (g_Name b)).
#[export] Instance group_le_dec : RelDecision group_le.
Proof. intros a b. unfold group_le. apply _. Defined.

Definition is_channel (groupType : string) : bool := bool_decide (groupType = "channel").

Definition groups_of (groupType : string) (s : GStore) : gmap Z GroupRow :=
  if is_channel groupType then gs_channelGroups s else gs_serverGroups s.
Definition set_groups (groupType : string) (f : gmap Z GroupRow → gmap Z GroupRow) : GStore → GStore :=
  if is_channel groupType then set_channelGroups f else set_serverGroups f.

Definition member_count (groupType : string) (id : Z) (t : Tables) : Z :=
  if is_channel groupType then Z.of_nat (length (filter (λ r, r.2 = id) (t_channel_group_members t)))
  else Z.of_nat (length (filter (λ r, r.2 = id) (t_server_group_members t))).

Definition group_of (groupType : string) (s : GStore) (g : Z * GroupRow) : Group :=
  {| g_ID := g.1; g_Name := gr_name g.2; g_SortID := gr_sort_id g.2;
     g_IsTemplate := negb (is_channel groupType) && gr_is_template g.2;
     g_Icon := if is_channel groupType then "" else gr_icon g.2;
     g_Color := if is_channel groupType then "" else gr_color g.2;
     g_Hoist := negb (is_channel groupType) && gr_hoist g.2;
     g_MemberCount := member_count groupType g.1 (gs_tables s) |}.

Definition ListGroups (groupType : string) : GS (list Group) :=
  gselect (λ s, sort_by group_le (group_of groupType s <$> map_to_list (groups_of groupType s))).

Definition GetGroup (groupType : string) (id : Z) : GS (option Group) :=
  run groups <- ListGroups groupType;
  se_ret (head (filter (λ g, g_ID g = id) groups)).

Definition FindGroupByName (groupType name : string) : GS (option Group) :=
  run groups <- ListGroups groupType;
  se_ret (head (filter (λ g, g_Name g = name) groups)).

(** Does another group of the type have the name? *)
Definition name_taken (groupType name : string) (id : option Z) (s : GStore) : bool :=
  bool_decide (filter (λ g, gr_name g.2 = name ∧ Some g.1 ≠ id) (map_to_list (groups_of groupType s)) ≠ []).

Definition CreateGroup (groupType name : string) (sortID : Z) : GS Z :=
  gstatement (λ _ s,
    if name_taken groupType name None s || negb (int4 sortID) then Err ErrConstraint
    else Ok (next_seq (set_groups groupType <[gs_seq s := mkGroupRow name sortID false "" "" false]> s), gs_seq s)).

Definition rename (name : string) (g : GroupRow) : GroupRow :=
  mkGroupRow name (gr_sort_id g) (gr_is_template g) (gr_icon g) (gr_color g) (gr_hoist g).

Definition RenameGroup (groupType : string) (id : Z) (name : string) : GS () :=
  run found <- gstatement (λ _ s,
    if negb (bool_decide (is_Some (groups_of groupType s !! id))) then Ok (s, false)
    else if name_taken groupType name (Some id) s then Err ErrConstraint
    else Ok (set_groups groupType (alter (rename name) id) s, true));
  if found : bool then se_ret () else se_err ErrGroupNotFound.

(** ON DELETE CASCADE. *)
Definition drop_group (groupType : string) (id : Z) (s : GStore) : GStore :=
  let t := gs_tables s in
  if is_channel groupType then
    set_autoRules (filter (λ r, au_group r ≠ id))
      (set_groups groupType (delete id)
        (set_tables (with_cgm (filter (λ r, r.2 ≠ id)) (with_cgp (filter (λ r, r.1 ≠ id)) t)) s))
  else
    set_expires (filter (λ kv, kv.1.2 ≠ id))
      (set_groups groupType (delete id)
        (set_tables (with_sgm (filter (λ r, r.2 ≠ id)) (with_sgp (filter (λ r, r.1 ≠ id)) t)) s)).

Definition DeleteGroup (groupType : string) (id : Z) (force : bool) : GS () :=
  run g <- GetGroup groupType id;
  match g with
  | None => se_err ErrGroupNotFound
  | Some g =>
      if (0 <? g_MemberCount g) && negb force then se_err ErrGroupHasMembers
      else gupdate (drop_group groupType id)
  end.

Definition SetGroupIcon (groupID : Z) (icon : string) : GS () :=
  run found <- gstatement (λ _ s,
    Ok (set_serverGroups (alter (λ g, mkGroupRow (gr_name g) (gr_sort_id g) (gr_is_template g) icon (gr_color g) (gr_hoist g)) groupID) s,
        bool_decide (is_Some (gs_serverGroups s !! groupID))));
  if found : bool then se_ret () else se_err ErrGroupNotFound.

Definition cosmetics (color : option string) (hoist : option bool) (sortID : option Z) (g : GroupRow) : GroupRow :=
  mkGroupRow (gr_name g) (default (gr_sort_id g) sortID) (gr_is_template g) (gr_icon g) (default (gr_color g) color)
    (default (gr_hoist g) hoist).

Definition SetGroupCosmetics (groupID : Z) (color : option string) (hoist : option bool) (sortID : option Z) : GS () :=
  match color, hoist, sortID with
  | None, None, None => se_err ErrNoFields
  | _, _, _ =>
      run found <- gstatement (λ _ s,
        if negb (int4 (default 0 sortID)) then Err ErrConstraint
        else Ok (set_serverGroups (alter (cosmetics color hoist sortID) groupID) s,
                 bool_decide (is_Some (gs_serverGroups s !! groupID))));
      if found : bool then se_ret () else se_err ErrGroupNotFound
  end.

(** ** Memberships

    [now] is the reading of the server's clock the call makes. *)

Definition user_exists (userID : Z) (s : GStore) : bool := bool_decide (is_Some (ac_users (gs_acc s) !! userID)).

(** INSERT ... ON CONFLICT (user_id, server_group_id) DO UPDATE SET expires_at. *)
Definition put_member (userID groupID : Z) (expires : option Z) (s : GStore) : result StoreErr GStore :=
  if user_exists userID s && bool_decide (is_Some (gs_serverGroups s !! groupID)) then
    Ok (set_expires (λ m, match expires with Some t => <[(userID, groupID) := t]> m | None => delete (userID, groupID) m end)
          (set_tables (with_sgm (insert_new (userID, groupID)) (gs_tables s)) s))
  else Err ErrConstraint.

Definition expiry (now expiresIn : Z) : option Z := if 0 <? expiresIn then Some (now + expiresIn) else None.

Definition AssignServerGroup (now groupID userID expiresIn : Z) : GS () :=
  gstatement (λ _ s, let? s := put_member userID groupID (expiry now expiresIn) s in Ok (s, ())).

Definition UnassignServerGroup (groupID userID : Z) : GS () :=
  gupdate (λ s, set_expires (delete (userID, groupID))
    (set_tables (with_sgm (filter (λ r, r ≠ (userID, groupID))) (gs_tables s)) s)).

(** The transaction of [AssignChannelGroup]: at most one channel group of a user in
    a channel. *)
Definition assignChannelGroupTx (groupID userID channelID : Z) (s : GStore) : result StoreErr GStore :=
  if user_exists userID s && bool_decide (is_Some (t_channels (gs_tables s) !! channelID)) &&
     bool_decide (is_Some (gs_channelGroups s !! groupID)) then
    Ok (set_tables (with_cgm (λ l, insert_new (userID, channelID, groupID)
                                     (filter (λ r, r.1 ≠ (userID, channelID)) l)) (gs_tables s)) s)
  else Err ErrConstraint.

Definition AssignChannelGroup (groupID userID channelID : Z) : GS () :=
  gstatement (λ _ s, let? s := assignChannelGroupTx groupID userID channelID s in Ok (s, ())).

Definition rule_le (a b : AutoRule) : Prop :=
  au_priority b < au_priority a ∨ (au_priority a = au_priority b ∧ au_id a ≤ au_id b).
#[export] Instance rule_le_dec : RelDecision rule_le.
Proof. intros a b. unfold rule_le. apply _. Defined.

Definition auto_rule (channelID : Z) (s : GStore) : option AutoRule :=
  head (sort_by rule_le (filter (λ r, au_channel r = channelID ∧ au_enabled r = true) (gs_autoRules s))).

Definition ApplyChannelGroupAutoAssignment (userID channelID : Z) : GS (option Z) :=
  gstatement (λ _ s,
    match auto_rule channelID s with
    | None => Ok (s, None)
    | Some r => let? s := assignChannelGroupTx (au_group r) userID channelID s in Ok (s, Some (au_group r))
    end).

Definition UnassignChannelGroup (userID channelID : Z) : GS () :=
  gupdate (λ s, set_tables (with_cgm (filter (λ r, r.1 ≠ (userID, channelID))) (gs_tables s)) s).

(** [DELETE ... RETURNING]; a row whose user was deleted is gone with it. *)
Definition expired (now : Z) (s : GStore) : list (Z * Z) :=
  filter (λ r, match gs_expires s !! r with Some t => t <=? now | None => false end = true) (t_server_group_members (gs_tables s)).

Definition ExpiredGroupMembers (now : Z) : GS (list (Z * Z)) :=
  gstatement (λ _ s,
    let gone := expired now s in
    Ok (set_expires (filter (λ kv, kv.1 ∉ gone))
          (set_tables (with_sgm (filter (λ r, r ∉ gone)) (gs_tables s)) s), gone)).

Definition UserGroupIDs (userID : Z) : GS (list Z) :=
  gselect (λ s, snd <$> filter (λ r, r.1 = userID) (t_server_group_members (gs_tables s))).

Definition UserUniqueID (userID : Z) : GS string :=
  run row <- gselect (λ s, ac_users (gs_acc s) !! userID);
  match row with Some r => se_ret (ur_unique_id r) | None => se_err ErrStoreDB end.

Record GroupMember := { gm_UniqueID : string; gm_Nickname : string; gm_ExpiresAt : option Z }.

(** ORDER BY u.nickname, u.unique_id, with NULL nicknames last. *)
Definition member_le (a b : GroupMember * option string) : Prop :=
  match a.2, b.2 with
  | Some x, Some y => (x ≠ y ∧ String.le x y) ∨ (x = y ∧ String.le (gm_UniqueID a.1) (gm_UniqueID b.1))
  | Some _, None => True
  | None, Some _ => False
  | None, None => String.le (gm_UniqueID a.1) (gm_UniqueID b.1)
  end.
#[export] Instance member_le_dec : RelDecision member_le.
Proof. intros [a x] [b y]. unfold member_le. destruct x, y; apply _. Defined.

Definition members_of (users : list (Z * option Z)) (s : GStore) : list GroupMember :=
  fst <$> sort_by member_le (omap (λ '(u, expires),
    r ← ac_users (gs_acc s) !! u;
    Some ({| gm_UniqueID := ur_unique_id r; gm_Nickname := default "" (ur_nickname r); gm_ExpiresAt := expires |},
          ur_nickname r)) users).

Definition ListServerGroupMembers (groupID : Z) : GS (list GroupMember) :=
  gselect (λ s, members_of ((λ r, (r.1, gs_expires s !! r)) <$> filter (λ r, r.2 = groupID) (t_server_group_members (gs_tables s))) s).

Definition ListChannelGroupMembers (groupID channelID : Z) : GS (list GroupMember) :=
  gselect (λ s, members_of ((λ r, (r.1.1, None)) <$>
    filter (λ r, r.2 = groupID ∧ r.1.2 = channelID) (t_channel_group_members (gs_tables s))) s).

(** ** Permission entries *)

(** Statement by statement: a failure in between leaves what was done before. *)
Definition upsertPermissionRow (key : string) (value grant : Z) (skip negate : bool) : GS Z :=
  run found <- gstatement (λ _ s,
    if negb (int4 value) || negb (int4 grant) then Err ErrConstraint
    else Ok (s, find_row (row_of key value grant skip negate) (gs_tables s)));
  match found with
  | Some id => se_ret id
  | None => gstatement (λ _ s, Ok (insert_row (row_of key value grant skip negate) s))
  end.

Definition SetPermission (tier : PermTier) (g : PermTarget) (key : string) (value grant : Z) (skip negate : bool) : GS () :=
  run permID <- upsertPermissionRow key value grant skip negate;
  run _ <- gupdate (unlink_key tier g key);
  gstatement (λ _ s, let? s := link_row tier g permID s in Ok (s, ())).

Definition UnsetPermission (tier : PermTier) (g : PermTarget) (key : string) : GS () := gupdate (unlink_key tier g key).

(** The rows a target's entries come from, in the order of the junction table. *)
Definition rows_of (tier : PermTier) (g : PermTarget) (t : Tables) : list permRow :=
  omap (λ p, t_permissions t !! p) (linked tier g t).

Definition ListPermissions (tier : PermTier) (g : PermTarget) : GS (list PermEntry) :=
  gselect (λ s, sort_by entry_le (entry_of <$> rows_of tier g (gs_tables s))).

(** [setPermissionWith] inside a transaction. *)
Definition set_with (tier : PermTier) (g : PermTarget) (e : PermEntry) (s : GStore) : result StoreErr GStore :=
  let r := row_of (en_Key e) (en_Value e) (en_Grant e) (en_Skip e) (en_Negate e) in
  if negb (int4 (en_Value e)) || negb (int4 (en_Grant e)) then Err ErrConstraint
  else
    let '(s, id) := match find_row r (gs_tables s) with Some id => (s, id) | None => insert_row r s end in
    link_row tier g id (unlink_key tier g (en_Key e) s).

Fixpoint set_all (tier : PermTier) (g : PermTarget) (es : list PermEntry) (s : GStore) : result StoreErr GStore :=
  match es with
  | [] => Ok s
  | e :: es => let? s := set_with tier g e s in set_all tier g es s
  end.

Definition CopyPermissions (tier : PermTier) (g : PermTarget) (remove : list string) (es : list PermEntry) : GS () :=
  gstatement (λ _ s,
    let? s := set_all tier g es (foldl (λ s key, unlink_key tier g key s) s remove) in Ok (s, ())).

(** ** Audit *)

Definition Audit (actor action target detail : string) : GS () := λ s,
  ((gstatement (λ now s,
      Ok (next_seq (set_audit <[gs_seq s := {| ad_actor := actor; ad_action := action; ad_target := target;
                                               ad_detail := detail; ad_created_at := now |}]> s), ())) s).1, Ok ()).

Definition newest_first (a b : Z * AuditRow) : Prop := b.1 ≤ a.1.
#[export] Instance newest_first_dec : RelDecision newest_first.
Proof. intros a b. unfold newest_first. apply _. Defined.

Definition AuditList (beforeID limit : Z) : GS (list (Z * AuditRow)) :=
  let limit := if (limit <=? 0) || (200 <? limit) then 50 else limit in
  gselect (λ s, take (Z.to_nat limit) (sort_by newest_first
    (filter (λ r, (beforeID <=? 0) || (r.1 <? beforeID) = true) (map_to_list (gs_audit s))))).

(** [LIKE 'perm_%' OR LIKE '%group%']; an underscore matches any character. *)
Definition compressible (action : string) : bool :=
  (String.prefix "perm" action && (4 <? Z.of_nat (String.length action))) ||
  match String.index 0 "group" action with Some _ => true | None => false end.

Definition nsPerDay : Z := 86400 * second.

Definition CompressPermissionAudit (cutoff : Z) : GS Z :=
  gstatement (λ _ s,
    let old := filter (λ r, ad_created_at r.2 < cutoff ∧ compressible (ad_action r.2) = true) (map_to_list (gs_audit s)) in
    Ok (set_audit (filter (λ kv, ¬ (ad_created_at kv.2 < cutoff ∧ compressible (ad_action kv.2) = true)))
          (set_daily (λ d, foldl (λ d r, let k := (ad_created_at r.2 / nsPerDay, ad_action r.2, ad_target r.2) in
                                          <[k := default 0 (d !! k) + 1]> d) d old) s),
        Z.of_nat (length old))).

(** ** Guests that become accounts *)

Definition new_user (uniqueID nickname : string) (s : GStore) : GStore * Z :=
  let a := gs_acc s in
  (set_gacc (mkAccounts (<[ac_nextID a := mkUserRow uniqueID (Some nickname) None None false None]> (ac_users a))
               (ac_nextID a + 1) (ac_bans a) (ac_accepted a) (ac_calls a) (ac_kdf a)) s, ac_nextID a).

(** INSERT INTO users ... ON CONFLICT (unique_id): the row, and whether it is new. *)
Definition ensure_user (uniqueID nickname : string) (s : GStore) : result StoreErr (GStore * Z * bool) :=
  match find_user (by_unique_id uniqueID) (gs_acc s) with
  | Some (id, _) => Ok (s, id, false)
  | None =>
      if bool_decide (is_Some (find_user (by_nickname nickname) (gs_acc s))) then Err ErrConstraint
      else let '(s, id) := new_user uniqueID nickname s in Ok (s, id, true)
  end.

Definition with_nickname (nickname : string) (r : UserRow) : UserRow :=
  mkUserRow (ur_unique_id r) (Some nickname) (ur_password_hash r) (ur_public_key r) (ur_is_admin r) (ur_e2e_public_key r).

(** The conflict clause of [UseTokenForIdentity]: an empty nickname is filled in. *)
Definition fill_nickname (id : Z) (nickname : string) (s : GStore) : result StoreErr GStore :=
  match ac_users (gs_acc s) !! id with
  | Some r =>
      if bool_decide (ur_nickname r = Some "") then
        if bool_decide (nickname ≠ "") && bool_decide (is_Some (find_user (by_nickname nickname) (gs_acc s)))
        then Err ErrConstraint
        else Ok (set_gacc (set_users (alter (with_nickname nickname) id) (gs_acc s)) s)
      else Ok s
  | None => Ok s
  end.

Definition credentials_of (id : Z) (s : GStore) : string * string :=
  match ac_users (gs_acc s) !! id with
  | Some r => (default "" (ur_password_hash r), default "" (ur_public_key r))
  | None => ("", "")
  end.

(** [now] is the server's clock. *)
Definition AssignGuestGroup (now : Z) (groupType : string) (groupID channelID : Z) (uniqueID nickname : string)
    (expiresIn : Z) : GS Z :=
  if bool_decide (uniqueID = "") || negb (bool_decide (groupType = "server") || bool_decide (groupType = "channel"))
  then se_err ErrGuestIdentity
  else
    gstatement (λ _ s,
      let? (s, id, _) := ensure_user uniqueID nickname s in
      let '(hash, key) := credentials_of id s in
      if negb (bool_decide (hash = "")) || negb (bool_decide (key = "")) then Err ErrHasCredentials
      else
        let? s := if bool_decide (groupType = "channel") then assignChannelGroupTx groupID id channelID s
                  else put_member id groupID (expiry now expiresIn) s in
        Ok (s, id)).

(** ** Privilege tokens *)

Record TokenGrant := { tg_UserID : Z; tg_GroupID : Z; tg_Admin : bool; tg_Promoted : bool }.

Definition nonzero (n : Z) : option Z := if n =? 0 then None else Some n.

Definition CreateTokenWithMeta (random : option (list Z)) (tokenType groupID channelID : Z) (description : string)
    (maxUses : Z) : GS string :=
  match random with
  | None => se_err ErrRandom
  | Some b =>
      let key := hex b in
      let maxUses := if maxUses <=? 0 then 1 else maxUses in
      run _ <- gstatement (λ now s,
        if bool_decide (filter (λ r, tk_key r.2 = key) (map_to_list (gs_tokens s)) ≠ []) || negb (int4 maxUses) ||
           (negb (channelID =? 0) && negb (bool_decide (is_Some (t_channels (gs_tables s) !! channelID))))
        then Err ErrConstraint
        else Ok (next_seq (set_tokens <[gs_seq s := mkTokenRow key tokenType (nonzero groupID) (nonzero channelID) description
                                                   0 maxUses now ""]> s), ()));
      se_ret key
  end.

Definition CreateToken (random : option (list Z)) (tokenType groupID maxUses : Z) : GS string :=
  CreateTokenWithMeta random tokenType groupID 0 "" maxUses.

Definition token_le (a b : Z * TokenRow) : Prop := a.1 ≤ b.1.
#[export] Instance token_le_dec : RelDecision token_le.
Proof. intros a b. unfold token_le. apply _. Defined.

Definition ListTokens : GS (list (Z * TokenRow)) := gselect (λ s, sort_by token_le (map_to_list (gs_tokens s))).

Definition DeleteToken (key : string) : GS () :=
  run n <- gstatement (λ _ s,
    Ok (set_tokens (filter (λ kv, tk_key kv.2 ≠ key)) s, length (filter (λ r, tk_key r.2 = key) (map_to_list (gs_tokens s)))));
  if bool_decide (n = 0%nat) then se_err ErrTokenNotFound else se_ret ().

Definition find_token (key : string) (s : GStore) : option (Z * TokenRow) :=
  head (filter (λ r, tk_key r.2 = key) (map_to_list (gs_tokens s))).

Definition consume (usedBy : string) (t : TokenRow) : TokenRow :=
  mkTokenRow (tk_key t) (tk_type t) (tk_group_id t) (tk_channel_id t) (tk_description t) (tk_uses t + 1) (tk_max_uses t)
    (tk_created_at t) usedBy.

Definition make_admin (r : UserRow) : UserRow :=
  mkUserRow (ur_unique_id r) (ur_nickname r) (ur_password_hash r) (ur_public_key r) true (ur_e2e_public_key r).

(** The membership a token gives: a new one has no expiry, and an existing one
    loses its expiry only if that has passed. *)
Definition restore_member (userID groupID cutoff : Z) (s : GStore) : result StoreErr GStore :=
  if user_exists userID s && bool_decide (is_Some (gs_serverGroups s !! groupID)) then
    if decide ((userID, groupID) ∈ t_server_group_members (gs_tables s)) then
      match gs_expires s !! (userID, groupID) with
      | Some t => if t <=? cutoff then Ok (set_expires (delete (userID, groupID)) s) else Ok s
      | None => Ok s
      end
    else Ok (set_expires (delete (userID, groupID)) (set_tables (with_sgm (λ l, l ++ [(userID, groupID)]) (gs_tables s)) s))
  else Err ErrConstraint.

(** The user a token is redeemed for: an account, or a guest that becomes one. *)
Definition redeemer (userID : Z) (uniqueID nickname : string) (s : GStore) : result StoreErr (GStore * Z * bool) :=
  if userID =? 0 then
    if bool_decide (uniqueID = "") then Err ErrGuestIdentity
    else
      let? (s, id, inserted) := ensure_user uniqueID nickname s in
      let? s := if inserted : bool then Ok s else fill_nickname id nickname s in
      if negb inserted && negb (bool_decide ((credentials_of id s).1 = "")) then Err ErrHasCredentials
      else Ok (s, id, inserted)
  else Ok (s, userID, false).

Definition UseTokenForIdentity (now : Z) (key : string) (userID : Z) (uniqueID nickname : string) : GS TokenGrant :=
  gstatement (λ _ s,
    match find_token key s with
    | None => Err ErrTokenNotFound
    | Some (tokenID, t) =>
        if tk_max_uses t <=? tk_uses t then Err ErrTokenExhausted
        else
          let? (s, id, promoted) := redeemer userID uniqueID nickname s in
          let usedBy := match ac_users (gs_acc s) !! id with Some r => ur_unique_id r | None => "" end in
          let s := set_tokens (alter (consume usedBy) tokenID) s in
          match tk_group_id t with
          | Some g =>
              if g =? 0 then
                Ok (set_gacc (set_users (alter make_admin id) (gs_acc s)) s,
                    {| tg_UserID := id; tg_GroupID := 0; tg_Admin := true; tg_Promoted := promoted |})
              else
                let? s := restore_member id g now s in
                Ok (s, {| tg_UserID := id; tg_GroupID := g; tg_Admin := false; tg_Promoted := promoted |})
          | None =>
              Ok (set_gacc (set_users (alter make_admin id) (gs_acc s)) s,
                  {| tg_UserID := id; tg_GroupID := 0; tg_Admin := true; tg_Promoted := promoted |})
          end
    end).

Definition UseToken (now : Z) (key : string) (userID : Z) : GS Z :=
  run grant <- UseTokenForIdentity now key userID "" "";
  se_ret (tg_GroupID grant).

Definition HasAdminUser : GS bool :=
  gselect (λ s, bool_decide (filter (λ r, ur_is_admin r.2 = true) (map_to_list (ac_users (gs_acc s))) ≠ [])).

Definition CountTokens : GS Z := gselect (λ s, Z.of_nat (size (gs_tokens s))).

Definition BootstrapAdminToken (random : option (list Z)) : GS string :=
  run admin <- HasAdminUser;
  if admin : bool then se_ret ""
  else
    run n <- CountTokens;
    if 0 <? n then se_ret "" else CreateToken random 0 0 1.

(** ** The roster of administrators *)

Definition ListServerAdmins : GS (list (string * string)) :=
  gselect (λ s, (λ m, (gm_UniqueID m, gm_Nickname m)) <$>
    members_of ((λ r, (r.1, None)) <$> filter (λ r, ur_is_admin r.2 = true) (map_to_list (ac_users (gs_acc s)))) s).

End store.
