(* ===== verification/GroupAdmin.v ===== *)
(** * Group, permission and token administration ([src/internal/server/groups.go], [extras.go])

    The handlers that write groups, memberships, permission entries and privilege
    tokens. Their world is the server (connections, state, what it writes) and the
    store of [GroupStore]. The permission loader in front of a handler may answer
    from any state the tables have been in: [PermCache] shows what its cache
    guarantees, and here nothing more than that is needed. Handlers run to
    completion one at a time, which [permWriteMu] gives the permission writes. The
    lifecycle of group icons ([assets.go]) and with it the deletion of server groups
    is left out. *)

From stdpp Require Import pretty.
From S2P Require Import Prelude Wire GoState Permissions PermLoader PermCache StateManager PermCheck ChannelManager ChatKeys ChatText Passwords ServerWorld ChatScope ChatRelay AuthService GroupStore.

Definition PermissionKeyServerGroupManage : PermissionKey := "b_server_group_manage".
Definition PermissionKeyChannelGroupManage : PermissionKey := "b_channel_group_manage".
Definition PermissionKeyPermissionManage : PermissionKey := "b_permission_manage".
Definition PermissionKeyPermissionModifyPowerIgnore : PermissionKey := "b_permission_modify_power_ignore".
Definition PermissionKeyAuditView : PermissionKey := "b_audit_view".
Definition PermissionKeyVirtualserverTokenList : PermissionKey := "b_virtualserver_token_list".
Definition PermissionKeyVirtualserverTokenAdd : PermissionKey := "b_virtualserver_token_add".
Definition PermissionKeyVirtualserverTokenDelete : PermissionKey := "b_virtualserver_token_delete".

Definition groupManageKey (groupType : string) : PermissionKey :=
  if is_channel groupType then PermissionKeyChannelGroupManage else PermissionKeyServerGroupManage.
Definition groupTypeOf (t : string) : string := if is_channel t then "channel" else "server".

Definition is_hex (c : Ascii.ascii) : bool :=
  let n := Z.of_nat (Ascii.nat_of_ascii c) in
  ((48 <=? n) && (n <=? 57)) || ((97 <=? n) && (n <=? 102)) || ((65 <=? n) && (n <=? 70)).

Definition validGroupColor (c : string) : bool :=
  match String.list_ascii_of_string c with
  | [] => true
  | h :: digits => bool_decide (length digits = 6%nat) && bool_decide (h = Ascii.ascii_of_nat 35) && forallb is_hex digits
  end.

(** ** Messages *)

Record GroupCreate := { gc_Type : string; gc_Name : string; gc_SortID : Z }.
Record GroupRename := { gn_Type : string; gn_GroupID : Z; gn_Name : string }.
Record GroupEdit := { gt_GroupID : Z; gt_Color : option string; gt_Hoist : option bool; gt_SortID : option Z }.
Record GroupUnassign := { gu_Type : string; gu_GroupID : Z; gu_UniqueID : string; gu_ChannelID : Z }.
Record GroupMembers := { gb_Type : string; gb_GroupID : Z; gb_ChannelID : Z }.
Record PermSet := {
  ps_Tier : string; ps_GroupID : Z; ps_UniqueID : string; ps_ChannelID : Z;
  ps_Key : string; ps_Value : Z; ps_Grant : Z; ps_Skip : bool; ps_Negate : bool }.
Record PermUnset := { pu_Tier : string; pu_GroupID : Z; pu_UniqueID : string; pu_ChannelID : Z; pu_Key : string }.
Record PermList := { pl_Tier : string; pl_GroupID : Z; pl_UniqueID : string; pl_ChannelID : Z }.
Record PermCopy := {
  pk_FromKind : string; pk_FromID : string; pk_ToKind : string; pk_ToID : string; pk_ChannelID : Z; pk_Replace : bool }.
Record PermTemplateApply := { pa_Template : string; pa_Tier : string; pa_GroupID : Z; pa_UniqueID : string }.
Record PermTrace := { pr_UniqueID : string; pr_Key : string; pr_ChannelID : Z }.
Record TokenAdd := { ta_GroupID : Z; ta_ChannelID : Z; ta_Description : string }.

(** ** Templates *)

Record permTemplateEntry := { tp_Value : Z; tp_Grant : Z; tp_Negate : bool }.

Definition tpl (value grant : Z) : permTemplateEntry := {| tp_Value := value; tp_Grant := grant; tp_Negate := false |}.
Definition tpl_negate : permTemplateEntry := {| tp_Value := 0; tp_Grant := 0; tp_Negate := true |}.

Definition permTemplates (name : string) : option (gmap string permTemplateEntry) :=
  if bool_decide (name = "guest") then
    Some (list_to_map [("i_ft_file_upload_power", tpl_negate); ("b_client_avatar_upload", tpl_negate)])
  else if bool_decide (name = "member") then
    Some (list_to_map [("b_client_poke", tpl 1 0); ("b_channel_create_temporary", tpl 1 0)])
  else if bool_decide (name = "moderator") then
    Some (list_to_map
      [("b_client_poke", tpl 1 0); ("b_channel_create_temporary", tpl 1 0); ("b_chat_delete_any", tpl 1 0);
       ("b_chat_mention_all", tpl 1 0); ("b_chat_slowmode_bypass", tpl 1 0); ("b_chat_filter_manage", tpl 1 0);
       ("b_channel_modify", tpl 1 0); ("b_channel_delete", tpl 1 0); ("b_client_priority_speaker", tpl 1 0);
       ("b_ft_delete", tpl 1 0); ("b_client_ban", tpl 1 0); ("i_client_ban_power", tpl 50 0);
       ("i_client_kick_from_channel_power", tpl 50 0); ("i_client_kick_from_server_power", tpl 50 0);
       ("i_client_move_power", tpl 50 0)])
  else if bool_decide (name = "admin") then
    Some (list_to_map
      [("b_client_poke", tpl 1 1); ("b_channel_create_temporary", tpl 1 1); ("b_channel_create_semi_permanent", tpl 1 1);
       ("b_channel_create_permanent", tpl 1 1); ("b_chat_delete_any", tpl 1 1); ("b_chat_mention_all", tpl 1 1);
       ("b_chat_slowmode_bypass", tpl 1 1); ("b_chat_filter_manage", tpl 1 1); ("b_channel_modify", tpl 1 1);
       ("b_channel_delete", tpl 1 1); ("b_client_priority_speaker", tpl 1 1); ("b_ft_delete", tpl 1 1);
       ("b_client_ban", tpl 1 1); ("i_client_ban_power", tpl 75 75); ("i_client_kick_from_channel_power", tpl 75 75);
       ("i_client_kick_from_server_power", tpl 75 75); ("i_client_move_power", tpl 75 75);
       ("b_client_remoteaddress_view", tpl 1 1); ("b_virtualserver_recording", tpl 1 1); ("b_emoji_manage", tpl 1 1);
       ("b_permission_manage", tpl 1 1); ("b_permission_modify_power_ignore", tpl 1 1);
       ("b_server_group_manage", tpl 1 1); ("b_channel_group_manage", tpl 1 1); ("b_audit_view", tpl 1 1)])
  else None.

(** ** The grant cap *)

Definition grantCapOk (pc : permChecker) (key : string) (value grant : Z) : bool :=
  if pc_admin pc || granted_ pc PermissionKeyPermissionModifyPowerIgnore then true
  else match Resolve (pc_tp pc) key with
       | Err _ => false
       | Ok (own, _) => (value <=? Grant own) && (grant <=? Grant own)
       end.

Definition grantCapOkWrite (pc : permChecker) (current : gmap string PermEntry) (key : string) (value grant : Z) : bool :=
  if negb (grantCapOk pc key value grant) then false
  else match current !! key with
       | Some e => grantCapOk pc key (en_Value e) (en_Grant e)
       | None => true
       end.

(** The entries of a list by key; a later one replaces an earlier one. *)
Definition by_key (es : list PermEntry) : gmap string PermEntry := foldl (λ m e, <[en_Key e := e]> m) ∅ es.

(** [PermTier(tier)] in the switch of [permTarget]. *)
Definition tier_of (tier : string) : option PermTier :=
  if bool_decide (tier = "server_group") then Some PermTierServerGroup
  else if bool_decide (tier = "channel_group") then Some PermTierChannelGroup
  else if bool_decide (tier = "client") then Some PermTierClient
  else if bool_decide (tier = "channel_client") then Some PermTierChannelClient
  else if bool_decide (tier = "channel") then Some PermTierChannel
  else None.

Record GroupEnv := {
  ne_db : nat → dbOutcome;                (* of the store *)
  ne_dbclock : nat → Z;
  ne_accdb : nat → dbOutcome;             (* of the account service *)
  ne_accclock : nat → Z;
  ne_rnd : nat → option (list Z);         (* sixteen random bytes *)
  ne_load_ok : nat → bool;                (* does the n-th permission read succeed *)
  ne_stale : nat → nat;                   (* how many writes ago its answer is from *)
  ne_text : TextEnv;
}.

Abbreviation GW := (Server * GStore)%type.
Abbreviation GH := (SE GW HErr).

Definition failing_source : PermSource := {|
  LoadForClient _ _ := Err (DBFault "");
  LoadGroupPermissions _ := Err (DBFault "");
|}.

Section admin.
Context (E : Env) (N : GroupEnv).
Context `{!∀ V, MapRange Z V, !∀ V, MapRange string V}.

Definition on_gsrv {A} (m : H A) : GH A := λ w, let '(s, r) := m w.1 in ((s, w.2), r).
Definition on_store {A} (m : GS A) : GH (result StoreErr A) := λ w, let '(g, r) := m w.2 in ((w.1, g), Ok r).
Definition on_users {A} (m : AuthService.A A) : GH (result AuthErr A) := λ w,
  let '(a, r) := m (gs_acc w.2) in ((w.1, set_gacc a w.2), Ok r).

Definition refuse_ (client : Conn) (code : Z) (message : string) : GH () := on_gsrv (sendErrorFor E client code message).
Definition answer (client : Conn) (m : AdminMsg) : GH () := on_gsrv (writeMessage E (cn_ID client) (MAdmin m)).

(** The loader answers from the tables as they are or were. *)
Definition source_at (n : nat) (g : GStore) : PermSource :=
  if ne_load_ok N n then tables_source (default (gs_tables g) ((gs_tables g :: gs_past g) !! ne_stale N n))
  else failing_source.

Definition checker (client : Conn) : GH (result permError permChecker) := λ w,
  ((tick_load w.1, w.2),
   Ok (permCheckerFor {| dep_perms := Some (source_at (sv_loads w.1) w.2); dep_state := Some (sv_state w.1);
                         dep_guest_group := env_guest_group E |} (conn_of client))).

(** The gate at the head of a handler. *)
Definition gated (client : Conn) (key : PermissionKey) (k : permChecker → GH ()) : GH () :=
  run pc <- checker client;
  match pc with
  | Err _ => refuse_ client errCodeUnavailable "permission backend unavailable"
  | Ok pc =>
      if negb (granted_ pc key) then refuse_ client errCodePermissionDenied ("insufficient permission: " +:+ key)
      else k pc
  end.

Definition lookup_user (uniqueID : string) : GH (result AuthErr User) :=
  on_users (LookupUser (ne_accdb N) (ne_accclock N) uniqueID).

#[local] Abbreviation db := (ne_db N).
#[local] Abbreviation dbc := (ne_dbclock N).

Definition audit (actor action target detail : string) : GH () :=
  run _ <- on_store (Audit db dbc actor action target detail); se_ret ().

(** ** Notifications *)

Fixpoint write_each (m : AdminMsg) (cs : list Conn) : H () :=
  match cs with
  | [] => se_ret ()
  | c :: cs => run _ <- ignore (writeMessage E (cn_ID c) (MAdmin m)); write_each m cs
  end.

Definition notifyPermsInvalid (reason : string) (uniqueIDs : list string) : GH () := λ w,
  on_gsrv (write_each (APermsInvalid reason)
    (filter (λ c, cn_UniqueID c ≠ "" ∧ cn_UniqueID c ∈ uniqueIDs) (range (sv_clients w.1)).*2)) w.

Fixpoint tell_admins (sent : option string) (ev : Event) (cs : list Conn) : H () :=
  match cs with
  | [] => se_ret ()
  | c :: cs =>
      run _ <- (if bool_decide (sent = Some (cn_ID c)) || negb (cn_isAdmin c) then se_ret ()
                else run _ <- BroadcastToClient_ E (cn_ID c) ev; se_ret ());
      tell_admins sent ev cs
  end.

Definition notifyGroupEvent (uniqueID : string) (ev : AdminEvent) : GH () :=
  run tc <- on_gsrv (clientByUniqueID uniqueID);
  run sent <- (match tc with
               | Some tc => run ok <- on_gsrv (BroadcastToClient_ E (cn_ID tc) (EvAdmin ev));
                            se_ret (if ok : bool then Some (cn_ID tc) else None)
               | None => se_ret None
               end);
  λ w, on_gsrv (tell_admins sent (EvAdmin ev) (range (sv_clients w.1)).*2) w.

Definition serverGroupAudience (groupID : Z) : GH (list string) :=
  run r <- on_store (ListServerGroupMembers db dbc groupID);
  se_ret (match r with Ok ms => gm_UniqueID <$> ms | Err _ => [] end).

(** The loop of [occupiedChannels] over the online clients. *)
Fixpoint occupied (seen : gset Z) (cs : list Client) : list Z :=
  match cs with
  | [] => []
  | c :: cs =>
      if (cl_ChannelID c =? 0) || bool_decide (cl_ChannelID c ∈ seen) then occupied seen cs
      else cl_ChannelID c :: occupied ({[cl_ChannelID c]} ∪ seen) cs
  end.

Definition occupiedChannels (st : Manager) : list Z := occupied ∅ (ListClients st).

Fixpoint channelGroupAudience (groupID : Z) (chs : list Z) : GH (list string) :=
  match chs with
  | [] => se_ret []
  | ch :: chs =>
      run r <- on_store (ListChannelGroupMembers db dbc groupID ch);
      run rest <- channelGroupAudience groupID chs;
      se_ret (match r with Ok ms => (gm_UniqueID <$> ms) ++ rest | Err _ => rest end)
  end.

Definition permAudience (tier : PermTier) (target : PermTarget) : GH (list string) :=
  match tier with
  | PermTierServerGroup => serverGroupAudience (pt_GroupID target)
  | PermTierChannelGroup => λ w, channelGroupAudience (pt_GroupID target) (occupiedChannels (sv_state w.1)) w
  | PermTierChannel => λ w, (w, Ok (cl_UniqueID <$> ChannelMembers (pt_ChannelID target) (sv_state w.1)))
  | PermTierClient | PermTierChannelClient =>
      run r <- on_store (UserUniqueID db dbc (pt_UserID target));
      se_ret (match r with Ok uniqueID => [uniqueID] | Err _ => [] end)
  end.

Definition invalidate_and_notify (reason : string) (audience : GH (list string)) : GH () :=
  run _ <- on_gsrv (effect_ InvalidatedAll);
  run ids <- audience;
  notifyPermsInvalid reason ids.

(** ** Groups *)

Definition group_entry (g : Group) : GroupEntry :=
  {| ge_ID := g_ID g; ge_Name := g_Name g; ge_SortID := g_SortID g; ge_MemberCount := g_MemberCount g;
     ge_Icon := g_Icon g; ge_Color := g_Color g; ge_Hoist := g_Hoist g |}.

(** [groupListResponse], and the answer of a handler that ends with it. *)
Definition answer_groups (client : Conn) (groupType : string) : GH () :=
  run r <- on_store (ListGroups db dbc groupType);
  match r with
  | Err _ => refuse_ client errCodeUnavailable "group list failed"
  | Ok gs => answer client (AGroupList groupType (group_entry <$> gs))
  end.

Definition handleGroupList (client : Conn) (msg : option string) : GH () :=
  match msg with
  | None => refuse_ client errCodeMalformed "malformed group_list: "
  | Some type => answer_groups client (groupTypeOf type)
  end.

Definition handleGroupCreate (client : Conn) (msg : option GroupCreate) : GH () :=
  match msg with
  | None => refuse_ client errCodeMalformed "malformed group_create: "
  | Some msg =>
      if bool_decide (gc_Name msg = "") then refuse_ client errCodeMalformed "group name is required"
      else gated client (groupManageKey (gc_Type msg)) (λ _,
        let groupType := groupTypeOf (gc_Type msg) in
        run r <- on_store (CreateGroup db dbc groupType (gc_Name msg) (gc_SortID msg));
        match r with
        | Err _ => refuse_ client errCodeMalformed "group create failed: "
        | Ok id =>
            run _ <- audit (cn_UniqueID client) "group_create" (groupType +:+ ":" +:+ gc_Name msg) ("id=" +:+ pretty id);
            answer_groups client groupType
        end)
  end.

Definition handleGroupRename (client : Conn) (msg : option GroupRename) : GH () :=
  match msg with
  | None => refuse_ client errCodeMalformed "malformed group_rename: "
  | Some msg =>
      gated client (groupManageKey (gn_Type msg)) (λ _,
        run r <- on_store (RenameGroup db dbc (gn_Type msg) (gn_GroupID msg) (gn_Name msg));
        match r with
        | Err _ => refuse_ client errCodeNotFound "rename failed: "
        | Ok _ => audit (cn_UniqueID client) "group_rename" (gn_Type msg +:+ ":" +:+ pretty (gn_GroupID msg)) (gn_Name msg)
        end)
  end.

Definition edit_detail (msg : GroupEdit) : string :=
  match gt_Color msg with Some c => "color=" +:+ c +:+ " " | None => "" end +:+
  match gt_Hoist msg with Some h => "hoist=" +:+ (if h then "true" else "false") +:+ " " | None => "" end +:+
  match gt_SortID msg with Some n => "sort_id=" +:+ pretty n | None => "" end.

Definition handleGroupEdit (client : Conn) (msg : option GroupEdit) : GH () :=
  match msg with
  | None => refuse_ client errCodeMalformed "malformed group_edit: "
  | Some msg =>
      gated client PermissionKeyServerGroupManage (λ _,
        if bool_decide (gt_Color msg = None) && bool_decide (gt_Hoist msg = None) && bool_decide (gt_SortID msg = None) then
          refuse_ client errCodeMalformed "group_edit carries no fields"
        else if negb (match gt_Color msg with Some c => validGroupColor c | None => true end) then
          refuse_ client errCodeMalformed "color must be #rrggbb or empty"
        else
          run r <- on_store (SetGroupCosmetics db dbc (gt_GroupID msg) (gt_Color msg) (gt_Hoist msg) (gt_SortID msg));
          match r with
          | Err _ => refuse_ client errCodeNotFound "group edit failed: "
          | Ok _ =>
              run _ <- audit (cn_UniqueID client) "group_edit" ("server:" +:+ pretty (gt_GroupID msg))
                         (te_TrimSpace (ne_text N) (edit_detail msg));
              run ids <- serverGroupAudience (gt_GroupID msg);
              run _ <- notifyPermsInvalid "group_edit" ids;
              answer_groups client "server"
          end)
  end.

(** ** Memberships *)

Definition promote (userID : Z) (admin : bool) (c : Conn) : Conn :=
  {| cn_ID := cn_ID c; cn_UniqueID := cn_UniqueID c; cn_Username := cn_Username c; cn_userID := userID;
     cn_isAdmin := cn_isAdmin c || admin; cn_authed := cn_authed c; cn_rulesPending := cn_rulesPending c |}.

(** Every connection of the guest becomes one of its account. *)
Definition promote_all (uniqueID : string) (userID : Z) : GH () :=
  on_gsrv (se_modify (set_conns (fmap (λ c, if bool_decide (cn_UniqueID c = uniqueID) then promote userID false c else c)))).

(** What [handleGroupAssign] does once the target is known: [Some] the account and
    whether it was just made, [None] after a refusal. *)
Definition assign_target (client : Conn) (msg : GroupAssign) (expiresIn : Z) : GH (option (Z * string * bool)) :=
  run user <- lookup_user (ga_UniqueID msg);
  match user with
  | Ok u => se_ret (Some (us_ID u, us_UniqueID u, false))
  | Err ErrUserNotFound =>
      run target <- on_gsrv (clientByUniqueID (ga_UniqueID msg));
      match target with
      | Some target =>
          if negb (cn_userID target =? 0) then
            run _ <- refuse_ client errCodeNotFound "target user not found"; se_ret None
          else
            run now <- on_gsrv (time_Now E);
            run r <- on_store (AssignGuestGroup db dbc now (ga_Type msg) (ga_GroupID msg) (ga_ChannelID msg)
                                 (cn_UniqueID target) (cn_Username target) expiresIn);
            match r with
            | Err _ => run _ <- refuse_ client errCodeUnavailable "assign failed: "; se_ret None
            | Ok id =>
                run _ <- promote_all (ga_UniqueID msg) id;
                se_ret (Some (id, ga_UniqueID msg, true))
            end
      | None => run _ <- refuse_ client errCodeNotFound "target user not found"; se_ret None
      end
  | Err _ => run _ <- refuse_ client errCodeUnavailable "user lookup unavailable"; se_ret None
  end.

Definition assign_membership (msg : GroupAssign) (userID expiresIn : Z) : GH (result StoreErr ()) :=
  if is_channel (ga_Type msg) then on_store (AssignChannelGroup db dbc (ga_GroupID msg) userID (ga_ChannelID msg))
  else
    run now <- on_gsrv (time_Now E);
    on_store (AssignServerGroup db dbc now (ga_GroupID msg) userID expiresIn).

Definition announce_assignment (client : Conn) (msg : GroupAssign) (uniqueID : string) (promoted : bool) : GH () :=
  run g <- on_store (GetGroup db dbc (ga_Type msg) (ga_GroupID msg));
  match g with
  | Ok (Some g) =>
      notifyGroupEvent uniqueID
        (EvGroupAssigned (ga_GroupID msg) (g_Name g) (cn_UniqueID client) (ga_ExpiresInSeconds msg) uniqueID promoted)
  | _ => se_ret ()
  end.

Definition assigned (client : Conn) (msg : GroupAssign) (uniqueID : string) (promoted : bool) : GH () :=
  run _ <- audit (cn_UniqueID client) "group_assign" (ga_Type msg +:+ ":" +:+ pretty (ga_GroupID msg))
             ("user=" +:+ ga_UniqueID msg +:+ " expires_in=" +:+ pretty (ga_ExpiresInSeconds msg) +:+ "s");
  run _ <- invalidate_and_notify "group_assign" (se_ret [uniqueID]);
  run _ <- announce_assignment client msg uniqueID promoted;
  if ga_AckRequested msg then answer client (AGroupAssign msg) else se_ret ().

Definition handleGroupAssign (client : Conn) (msg : option GroupAssign) : GH () :=
  match msg with
  | None => refuse_ client errCodeMalformed "malformed group_assign: "
  | Some msg =>
      gated client (groupManageKey (ga_Type msg)) (λ _,
        let expiresIn := wrap_s 64 (ga_ExpiresInSeconds msg * second) in
        if negb (bool_decide (ga_Type msg = "server")) && negb (bool_decide (ga_Type msg = "channel")) then
          refuse_ client errCodeMalformed "invalid group type"
        else if is_channel (ga_Type msg) && (ga_ChannelID msg =? 0) then
          refuse_ client errCodeMalformed "channel_id is required for channel groups"
        else
          run target <- assign_target client msg expiresIn;
          match target with
          | None => se_ret ()
          | Some (userID, uniqueID, promoted) =>
              run r <- (if promoted : bool then se_ret (Ok ()) else assign_membership msg userID expiresIn);
              match r with
              | Err _ => refuse_ client errCodeUnavailable "assign failed: "
              | Ok _ => assigned client msg uniqueID promoted
              end
          end)
  end.

Definition handleGroupUnassign (client : Conn) (msg : option GroupUnassign) : GH () :=
  match msg with
  | None => refuse_ client errCodeMalformed "malformed group_unassign: "
  | Some msg =>
      gated client (groupManageKey (gu_Type msg)) (λ _,
        run user <- lookup_user (gu_UniqueID msg);
        match user with
        | Err _ => refuse_ client errCodeNotFound "target user not found"
        | Ok user =>
            run r <- (if is_channel (gu_Type msg) then on_store (UnassignChannelGroup db dbc (us_ID user) (gu_ChannelID msg))
                      else on_store (UnassignServerGroup db dbc (gu_GroupID msg) (us_ID user)));
            match r with
            | Err _ => refuse_ client errCodeUnavailable "unassign failed: "
            | Ok _ =>
                run _ <- audit (cn_UniqueID client) "group_unassign" (gu_Type msg +:+ ":" +:+ pretty (gu_GroupID msg))
                           ("user=" +:+ gu_UniqueID msg);
                run _ <- invalidate_and_notify "group_unassign" (se_ret [us_UniqueID user]);
                run g <- on_store (GetGroup db dbc (gu_Type msg) (gu_GroupID msg));
                match g with
                | Ok (Some g) =>
                    notifyGroupEvent (us_UniqueID user) (EvGroupUnassigned (gu_GroupID msg) (g_Name g) (cn_UniqueID client))
                | _ => se_ret ()
                end
            end
        end)
  end.

Definition NotifyGroupExpired (uniqueID : string) (groupID : Z) : GH () := notifyGroupEvent uniqueID (EvGroupExpired groupID).

Fixpoint reap_each (pairs : list (Z * Z)) : GH () :=
  match pairs with
  | [] => se_ret ()
  | (userID, groupID) :: pairs =>
      run r <- on_store (UserUniqueID db dbc userID);
      run _ <- (match r with
                | Err _ => se_ret ()
                | Ok uniqueID =>
                    run _ <- NotifyGroupExpired uniqueID groupID;
                    notifyPermsInvalid "group_expired" [uniqueID]
                end);
      reap_each pairs
  end.

Definition ReapExpiredGroups : GH () :=
  run now <- on_gsrv (time_Now E);
  run r <- on_store (ExpiredGroupMembers db dbc now);
  match r with
  | Err _ | Ok [] => se_ret ()
  | Ok pairs => run _ <- on_gsrv (effect_ InvalidatedAll); reap_each pairs
  end.

Definition member_entry (m : GroupMember) : GroupMemberEntry :=
  {| me_UniqueID := gm_UniqueID m; me_Nickname := gm_Nickname m;
     me_ExpiresAt := match gm_ExpiresAt m with Some t => t / second | None => 0 end |}.

Definition handleGroupMembers (client : Conn) (msg : option GroupMembers) : GH () :=
  match msg with
  | None => refuse_ client errCodeMalformed "malformed group_members: "
  | Some msg =>
      if is_channel (gb_Type msg) && (gb_ChannelID msg =? 0) then
        refuse_ client errCodeMalformed "channel_id is required for channel groups"
      else
        run r <- (if is_channel (gb_Type msg) then on_store (ListChannelGroupMembers db dbc (gb_GroupID msg) (gb_ChannelID msg))
                  else on_store (ListServerGroupMembers db dbc (gb_GroupID msg)));
        match r with
        | Err _ => refuse_ client errCodeUnavailable "member list failed"
        | Ok ms => answer client (AGroupMembers (groupTypeOf (gb_Type msg)) (gb_GroupID msg) (member_entry <$> ms))
        end
  end.

(** ** Permission entries *)

Definition no_target : PermTarget := mkTarget 0 0 0.

(** [permTarget]; an error is its message. *)
Definition permTarget_ (tier uniqueID : string) (groupID channelID : Z) : GH (result string (PermTier * PermTarget)) :=
  match tier_of tier with
  | Some PermTierServerGroup =>
      se_ret (if groupID =? 0 then Err "group_id is required for group tiers"
              else Ok (PermTierServerGroup, mkTarget groupID 0 0))
  | Some PermTierChannelGroup =>
      se_ret (if groupID =? 0 then Err "group_id is required for group tiers"
              else Ok (PermTierChannelGroup, mkTarget groupID 0 0))
  | Some PermTierClient =>
      if bool_decide (uniqueID = "") then se_ret (Err "unique_id is required for the client tier")
      else
        run user <- lookup_user uniqueID;
        se_ret (match user with
                | Err _ => Err "target user not found"
                | Ok u => Ok (PermTierClient, mkTarget 0 (us_ID u) 0)
                end)
  | Some PermTierChannelClient =>
      if bool_decide (uniqueID = "") || (channelID =? 0) then
        se_ret (Err "unique_id and channel_id are required for the channel_client tier")
      else
        run user <- lookup_user uniqueID;
        se_ret (match user with
                | Err _ => Err "target user not found"
                | Ok u => Ok (PermTierChannelClient, mkTarget 0 (us_ID u) channelID)
                end)
  | Some PermTierChannel =>
      se_ret (if channelID =? 0 then Err "channel_id is required for the channel tier"
              else Ok (PermTierChannel, mkTarget 0 0 channelID))
  | None => se_ret (Err "unknown tier")
  end.

Definition currentPerms (pc : permChecker) (tier : PermTier) (g : PermTarget) : GH (result StoreErr (gmap string PermEntry)) :=
  if pc_admin pc then se_ret (Ok ∅)
  else
    run r <- on_store (ListPermissions db dbc tier g);
    se_ret (let? es := r in Ok (by_key es)).

Definition show_bool (b : bool) : string := if b then "true" else "false".
Definition show_target (g : PermTarget) : string :=
  "{GroupID:" +:+ pretty (pt_GroupID g) +:+ " UserID:" +:+ pretty (pt_UserID g) +:+ " ChannelID:" +:+
  pretty (pt_ChannelID g) +:+ "}".

(** What a written entry leaves behind. *)
Definition perms_changed (client : Conn) (action target detail : string) (tier : PermTier) (g : PermTarget) : GH () :=
  run _ <- audit (cn_UniqueID client) action target detail;
  invalidate_and_notify action (permAudience tier g).

Definition handlePermSet (client : Conn) (msg : option PermSet) : GH () :=
  match msg with
  | None => refuse_ client errCodeMalformed "malformed perm_set: "
  | Some msg =>
      gated client PermissionKeyPermissionManage (λ pc,
        run t <- permTarget_ (ps_Tier msg) (ps_UniqueID msg) (ps_GroupID msg) (ps_ChannelID msg);
        match t with
        | Err message => refuse_ client errCodeMalformed message
        | Ok (tier, g) =>
            run cur <- currentPerms pc tier g;
            match cur with
            | Err _ => refuse_ client errCodeUnavailable "perm lookup failed"
            | Ok current =>
                if negb (grantCapOkWrite pc current (ps_Key msg) (ps_Value msg) (ps_Grant msg)) then
                  refuse_ client errCodePermissionDenied "grant cap exceeded: you may only set values <= your own grant for this key"
                else
                  run r <- on_store (SetPermission db dbc tier g (ps_Key msg) (ps_Value msg) (ps_Grant msg) (ps_Skip msg) (ps_Negate msg));
                  match r with
                  | Err _ => refuse_ client errCodeUnavailable "perm set failed: "
                  | Ok _ =>
                      perms_changed client "perm_set" (ps_Tier msg +:+ "/" +:+ ps_Key msg)
                        ("value=" +:+ pretty (ps_Value msg) +:+ " grant=" +:+ pretty (ps_Grant msg) +:+ " skip=" +:+
                         show_bool (ps_Skip msg) +:+ " negate=" +:+ show_bool (ps_Negate msg) +:+ " target=" +:+ show_target g)
                        tier g
                  end
            end
        end)
  end.

Definition permission_entry (e : PermEntry) : PermissionEntry :=
  {| px_Key := en_Key e; px_Value := en_Value e; px_Grant := en_Grant e; px_Skip := en_Skip e; px_Negate := en_Negate e |}.

Definition handlePermList (client : Conn) (msg : option PermList) : GH () :=
  match msg with
  | None => refuse_ client errCodeMalformed "malformed perm_list: "
  | Some msg =>
      gated client PermissionKeyPermissionManage (λ _,
        run t <- permTarget_ (pl_Tier msg) (pl_UniqueID msg) (pl_GroupID msg) (pl_ChannelID msg);
        match t with
        | Err message => refuse_ client errCodeMalformed message
        | Ok (tier, g) =>
            run r <- on_store (ListPermissions db dbc tier g);
            match r with
            | Err _ => refuse_ client errCodeUnavailable "perm list failed"
            | Ok es => answer client (APermList (pl_Tier msg) (permission_entry <$> es))
            end
        end)
  end.

Definition handlePermUnset (client : Conn) (msg : option PermUnset) : GH () :=
  match msg with
  | None => refuse_ client errCodeMalformed "malformed perm_unset: "
  | Some msg =>
      gated client PermissionKeyPermissionManage (λ pc,
        run t <- permTarget_ (pu_Tier msg) (pu_UniqueID msg) (pu_GroupID msg) (pu_ChannelID msg);
        match t with
        | Err message => refuse_ client errCodeMalformed message
        | Ok (tier, g) =>
            run cur <- currentPerms pc tier g;
            match cur with
            | Err _ => refuse_ client errCodeUnavailable "perm lookup failed"
            | Ok current =>
                if negb (grantCapOkWrite pc current (pu_Key msg) 0 0) then
                  refuse_ client errCodePermissionDenied "grant cap exceeded: you may only unset entries within your own grant for this key"
                else
                  run r <- on_store (UnsetPermission db dbc tier g (pu_Key msg));
                  match r with
                  | Err _ => refuse_ client errCodeUnavailable "perm unset failed: "
                  | Ok _ =>
                      perms_changed client "perm_unset" (pu_Tier msg +:+ "/" +:+ pu_Key msg) ("target=" +:+ show_target g) tier g
                  end
            end
        end)
  end.

(** ** Copies *)

Definition permCopyTarget (kind id : string) (channelID : Z) : GH (result string (PermTier * PermTarget)) :=
  let group_target tier :=
    match ParseInt id with
    | Some n => if n =? 0 then Err (kind +:+ " id must be a group id") else Ok (tier, mkTarget n 0 0)
    | None => Err (kind +:+ " id must be a group id")
    end in
  if bool_decide (kind = "servergroup") then se_ret (group_target PermTierServerGroup)
  else if bool_decide (kind = "channelgroup") then se_ret (group_target PermTierChannelGroup)
  else if bool_decide (kind = "client") then
    if bool_decide (id = "") then se_ret (Err "client id must be a unique id")
    else
      run user <- lookup_user id;
      se_ret (match user with
              | Err _ => Err "user not found"
              | Ok u => Ok (if channelID =? 0 then (PermTierClient, mkTarget 0 (us_ID u) 0)
                            else (PermTierChannelClient, mkTarget 0 (us_ID u) channelID))
              end)
  else se_ret (Err "unknown kind").

(** The entries a replacing copy clears, or the first it may not clear. *)
Fixpoint clear_keys (pc : permChecker) (copied : gset string) (current : list (string * PermEntry)) : result string (list string) :=
  match current with
  | [] => Ok []
  | (key, e) :: rest =>
      if decide (key ∈ copied) then clear_keys pc copied rest
      else if negb (grantCapOk pc key (en_Value e) (en_Grant e)) then Err key
      else let? keys := clear_keys pc copied rest in Ok (key :: keys)
  end.

Definition doPermCopyLocked (pc : permChecker) (fromTier : PermTier) (fromTarget : PermTarget) (toTier : PermTier)
    (toTarget : PermTarget) (replace : bool) : GH (result (Z * string) (list PermEntry)) :=
  run src <- on_store (ListPermissions db dbc fromTier fromTarget);
  match src with
  | Err _ => se_ret (Err (errCodeUnavailable, "perm lookup failed"))
  | Ok src =>
      run dst <- on_store (ListPermissions db dbc toTier toTarget);
      match dst with
      | Err _ => se_ret (Err (errCodeUnavailable, "perm lookup failed"))
      | Ok dst =>
          let current := by_key dst in
          match head (filter (λ e, grantCapOkWrite pc current (en_Key e) (en_Value e) (en_Grant e) = false) src) with
          | Some e => se_ret (Err (errCodePermissionDenied, "grant cap exceeded: " +:+ en_Key e +:+ " is outside your own grant"))
          | None =>
              match (if replace then clear_keys pc (list_to_set (en_Key <$> src)) (range current) else Ok []) with
              | Err key =>
                  se_ret (Err (errCodePermissionDenied,
                    "grant cap exceeded: replacing would clear " +:+ key +:+ ", which is outside your own grant"))
              | Ok remove =>
                  run r <- on_store (CopyPermissions db dbc toTier toTarget remove src);
                  se_ret (match r with
                          | Err _ => Err (errCodeUnavailable, "perm copy failed: ")
                          | Ok _ => Ok src
                          end)
              end
          end
      end
  end.

Definition handlePermCopy (client : Conn) (msg : option PermCopy) : GH () :=
  match msg with
  | None => refuse_ client errCodeMalformed "malformed perm_copy: "
  | Some msg =>
      gated client PermissionKeyPermissionManage (λ pc,
        run from <- permCopyTarget (pk_FromKind msg) (pk_FromID msg) (pk_ChannelID msg);
        match from with
        | Err message => refuse_ client errCodeMalformed ("source: " +:+ message)
        | Ok (fromTier, fromTarget) =>
            run to <- permCopyTarget (pk_ToKind msg) (pk_ToID msg) (pk_ChannelID msg);
            match to with
            | Err message => refuse_ client errCodeMalformed ("destination: " +:+ message)
            | Ok (toTier, toTarget) =>
                if bool_decide ((fromTier, fromTarget) = (toTier, toTarget)) then
                  refuse_ client errCodeMalformed "source and destination are the same target"
                else
                  run r <- doPermCopyLocked pc fromTier fromTarget toTier toTarget (pk_Replace msg);
                  match r with
                  | Err (code, message) => refuse_ client code message
                  | Ok src =>
                      perms_changed client "perm_copy"
                        (pk_FromKind msg +:+ ":" +:+ pk_FromID msg +:+ "->" +:+ pk_ToKind msg +:+ ":" +:+ pk_ToID msg)
                        ("entries=" +:+ pretty (Z.of_nat (length src)) +:+ " replace=" +:+ show_bool (pk_Replace msg) +:+
                         " channel_id=" +:+ pretty (pk_ChannelID msg)) toTier toTarget
                  end
            end
        end)
  end.

(** ** Templates *)

Fixpoint write_template (tier : PermTier) (g : PermTarget) (entries : list (string * permTemplateEntry)) : GH bool :=
  match entries with
  | [] => se_ret true
  | (key, e) :: entries =>
      run r <- on_store (SetPermission db dbc tier g key (tp_Value e) (tp_Grant e) false (tp_Negate e));
      match r with
      | Err _ => se_ret false
      | Ok _ => write_template tier g entries
      end
  end.

Definition handlePermTemplateApply (client : Conn) (msg : option PermTemplateApply) : GH () :=
  match msg with
  | None => refuse_ client errCodeMalformed "malformed perm_template_apply: "
  | Some msg =>
      match permTemplates (pa_Template msg) with
      | None => refuse_ client errCodeMalformed "unknown template (want guest|member|moderator|admin)"
      | Some tmpl =>
          gated client PermissionKeyPermissionManage (λ pc,
            run t <- permTarget_ (pa_Tier msg) (pa_UniqueID msg) (pa_GroupID msg) 0;
            match t with
            | Err message => refuse_ client errCodeMalformed message
            | Ok (tier, g) =>
                if negb (bool_decide (tier = PermTierServerGroup) || bool_decide (tier = PermTierClient)) then
                  refuse_ client errCodeMalformed "templates apply to server_group or client tiers"
                else
                  run cur <- currentPerms pc tier g;
                  match cur with
                  | Err _ => refuse_ client errCodeUnavailable "perm lookup failed"
                  | Ok current =>
                      match head (filter (λ x, grantCapOkWrite pc current x.1 (tp_Value x.2) (tp_Grant x.2) = false) (range tmpl)) with
                      | Some (key, _) =>
                          refuse_ client errCodePermissionDenied ("grant cap exceeded: the template's " +:+ key +:+ " is outside your own grant")
                      | None =>
                          run ok <- write_template tier g (range tmpl);
                          if negb ok then refuse_ client errCodeUnavailable "template apply failed: "
                          else perms_changed client "perm_template_apply" (pa_Template msg)
                                 ("tier=" +:+ pa_Tier msg +:+ " target=" +:+ show_target g) tier g
                      end
                  end
            end)
      end
  end.

(** ** Trace and audit log *)

Definition trace_tiers : list Tier :=
  [TierServerGroup; TierClientSpecific; TierChannelSpecific; TierChannel; TierChannelGroup; TierChannelClient].

(** The loader puts no nil entry into a set. *)
Definition trace_entry (tp : TieredPermissions) (key : PermissionKey) (winner : option Tier) (tier : Tier) : PermTraceEntry :=
  let found := match TieredPermissions_Get tp tier with Some set => (PermissionSet_Get set key).1 | None => None end in
  match found with
  | Some p => {| te_Tier := Tier_String tier; te_Present := true; te_Value := Value p; te_Grant := Grant p;
                 te_Skip := Skip p; te_Negate := Negate p; te_Winning := bool_decide (winner = Some tier) |}
  | None => {| te_Tier := Tier_String tier; te_Present := false; te_Value := 0; te_Grant := 0;
               te_Skip := false; te_Negate := false; te_Winning := bool_decide (winner = Some tier) |}
  end.

Definition handlePermTrace (client : Conn) (msg : option PermTrace) : GH () :=
  match msg with
  | None => refuse_ client errCodeMalformed "malformed perm_trace: "
  | Some msg =>
      gated client PermissionKeyPermissionManage (λ _,
        run user <- lookup_user (pr_UniqueID msg);
        match user with
        | Err _ => refuse_ client errCodeNotFound "target user not found"
        | Ok user =>
            run loaded <- (λ w, ((tick_load w.1, w.2),
              Ok (@LoadForClient (source_at (sv_loads w.1) w.2) (us_ID user) (pr_ChannelID msg))));
            match loaded with
            | Err _ => refuse_ client errCodeUnavailable "loading permissions failed"
            | Ok tp =>
                let '(effective, tier) := match Resolve tp (pr_Key msg) with
                                          | Ok (p, t) => (Value p, Some t)
                                          | Err _ => (0, None)
                                          end in
                answer client (APermTrace (pr_Key msg) effective (match tier with Some t => Tier_String t | None => "" end)
                                 (trace_entry tp (pr_Key msg) tier <$> trace_tiers))
            end
        end)
  end.

Definition audit_entry (r : Z * AuditRow) : AuditEntry :=
  {| ae_ID := r.1; ae_Actor := ad_actor r.2; ae_Action := ad_action r.2; ae_Target := ad_target r.2;
     ae_Detail := ad_detail r.2; ae_CreatedAt := ad_created_at r.2 / second |}.

Definition handleAuditLog (client : Conn) (msg : option (Z * Z)) : GH () :=
  match msg with
  | None => refuse_ client errCodeMalformed "malformed audit_log: "
  | Some (beforeID, limit) =>
      gated client PermissionKeyAuditView (λ _,
        run r <- on_store (AuditList db dbc beforeID limit);
        match r with
        | Err _ => refuse_ client errCodeUnavailable "audit query failed"
        | Ok es => answer client (AAuditLog (audit_entry <$> es))
        end)
  end.

(** ** Privilege tokens ([extras.go]) *)

Definition token_used (client : Conn) (grant : TokenGrant) : GH () :=
  run _ <- on_gsrv (λ s, let channelID := match GetClient (cn_ID client) (sv_state s) with
                                          | Some sc => cl_ChannelID sc | None => 0 end in
                         (add_effect (Invalidated (tg_UserID grant) channelID) s, Ok ()));
  run _ <- audit (cn_UniqueID client) "token_use" ("group:" +:+ pretty (tg_GroupID grant)) "";
  run _ <- on_gsrv (BroadcastToClient_ E (cn_ID client)
                      (EvAdmin (EvTokenUsed (cn_ID client) (tg_GroupID grant) (tg_Promoted grant))));
  se_ret ().

Definition handleTokenUse (client : Conn) (msg : option string) : GH () :=
  match msg with
  | None => refuse_ client errCodeMalformed "malformed token_use: "
  | Some token =>
      if bool_decide (token = "") then refuse_ client errCodeMalformed "empty token"
      else
        run now <- on_gsrv (time_Now E);
        run r <- on_store (UseTokenForIdentity db dbc now token (cn_userID client) (cn_UniqueID client) (cn_Username client));
        match r with
        | Err ErrTokenNotFound => refuse_ client errCodeNotFound "unknown token"
        | Err ErrTokenExhausted => refuse_ client errCodeMalformed "token has no uses left"
        | Err _ => refuse_ client errCodeUnavailable "token use failed"
        | Ok grant =>
            run _ <- on_gsrv (se_modify (set_conns (alter (promote (tg_UserID grant) (tg_Admin grant)) (cn_ID client))));
            token_used client grant
        end
  end.

(** The names of the groups of the tokens, each group asked once. *)
Fixpoint token_entries (names : gmap Z string) (rows : list (Z * TokenRow)) : GH (list TokenEntry) :=
  match rows with
  | [] => se_ret []
  | (_, t) :: rows =>
      let groupID := default 0 (tk_group_id t) in
      run nm <- (if groupID =? 0 then se_ret (names, "")
                 else match names !! groupID with
                      | Some n => se_ret (names, n)
                      | None =>
                          run g <- on_store (GetGroup db dbc "server" groupID);
                          let n := match g with Ok (Some g) => g_Name g | _ => "" end in
                          se_ret (<[groupID := n]> names, n)
                      end);
      run rest <- token_entries nm.1 rows;
      se_ret ({| tn_Token := tk_key t; tn_GroupID := groupID; tn_GroupName := nm.2; tn_ChannelID := default 0 (tk_channel_id t);
                 tn_Description := tk_description t; tn_CreatedAt := tk_created_at t / second; tn_UsedBy := tk_used_by t |} :: rest)
  end.

Definition tokensResponse : GH (option (list TokenEntry)) :=
  run rows <- on_store (ListTokens db dbc);
  match rows with
  | Err _ => se_ret None
  | Ok rows => run es <- token_entries ∅ rows; se_ret (Some es)
  end.

(** [tokenAdminAllowed]: a failing backend reads as denied. *)
Definition token_gated (client : Conn) (key : PermissionKey) (k : permChecker → GH ()) : GH () :=
  run pc <- checker client;
  match pc with
  | Ok pc => if granted_ pc key then k pc
             else refuse_ client errCodePermissionDenied ("insufficient permission: " +:+ key)
  | Err _ => refuse_ client errCodePermissionDenied ("insufficient permission: " +:+ key)
  end.

Definition handleTokenList (client : Conn) (decoded : bool) : GH () :=
  if negb decoded then refuse_ client errCodeMalformed "malformed token_list: "
  else token_gated client PermissionKeyVirtualserverTokenList (λ _,
    run r <- tokensResponse;
    match r with
    | None => refuse_ client errCodeUnavailable "token list failed"
    | Some es => answer client (ATokens es)
    end).

(** The group of a token, when it names one, has to exist. *)
Definition token_group (groupID : Z) : GH (result (Z * string) ()) :=
  if groupID =? 0 then se_ret (Ok ())
  else
    run g <- on_store (GetGroup db dbc "server" groupID);
    se_ret (match g with
            | Err _ => Err (errCodeUnavailable, "group lookup failed")
            | Ok None => Err (errCodeNotFound, "server group not found")
            | Ok (Some _) => Ok ()
            end).

Definition handleTokenAdd (client : Conn) (msg : option TokenAdd) : GH () :=
  match msg with
  | None => refuse_ client errCodeMalformed "malformed token_add: "
  | Some msg =>
      token_gated client PermissionKeyVirtualserverTokenAdd (λ pc,
        if (ta_GroupID msg =? 0) && negb (pc_admin pc) then
          refuse_ client errCodePermissionDenied "only a server admin may create an admin token"
        else
          run known <- token_group (ta_GroupID msg);
          match known with
          | Err (code, message) => refuse_ client code message
          | Ok _ =>
              let tokenType := if ta_ChannelID msg =? 0 then 0 else 1 in
              run r <- (λ w, on_store (CreateTokenWithMeta db dbc (ne_rnd N (gs_calls w.2)) tokenType (ta_GroupID msg)
                                         (ta_ChannelID msg) (ta_Description msg) 1) w);
              match r with
              | Err _ => refuse_ client errCodeUnavailable "token create failed"
              | Ok _ =>
                  run _ <- audit (cn_UniqueID client) "token_add" (pretty (ta_GroupID msg))
                             ("channel=" +:+ pretty (ta_ChannelID msg) +:+ " type=" +:+ pretty tokenType);
                  run es <- tokensResponse;
                  match es with
                  | None => refuse_ client errCodeUnavailable "token created; token list refresh failed"
                  | Some es => answer client (ATokens es)
                  end
              end
          end)
  end.

Definition handleTokenDelete (client : Conn) (msg : option string) : GH () :=
  match msg with
  | None => refuse_ client errCodeMalformed "malformed token_delete: "
  | Some token =>
      token_gated client PermissionKeyVirtualserverTokenDelete (λ _,
        if bool_decide (token = "") then refuse_ client errCodeMalformed "empty token"
        else
          run r <- on_store (DeleteToken db dbc token);
          match r with
          | Err ErrTokenNotFound => refuse_ client errCodeNotFound "unknown token"
          | Err _ => refuse_ client errCodeUnavailable "token delete failed"
          | Ok _ =>
              run _ <- audit (cn_UniqueID client) "token_delete" token "";
              run es <- tokensResponse;
              match es with
              | None => refuse_ client errCodeUnavailable "token list failed"
              | Some es => answer client (ATokens es)
              end
          end)
  end.

Definition handleServerAdminList (client : Conn) (decoded : bool) : GH () :=
  if negb (cn_isAdmin client) then refuse_ client errCodePermissionDenied "only a server admin may list server admins"
  else if negb decoded then refuse_ client errCodeMalformed "malformed server_admin_list"
  else
    run r <- on_store (ListServerAdmins db dbc);
    match r with
    | Err _ => refuse_ client errCodeUnavailable "server admin roster unavailable"
    | Ok admins => answer client (AServerAdmins admins)
    end.

(** ** The requests *)

Inductive admin_request :=
| AQGroupList (msg : option string) | AQGroupCreate (msg : option GroupCreate) | AQGroupRename (msg : option GroupRename)
| AQGroupEdit (msg : option GroupEdit) | AQGroupAssign (msg : option GroupAssign) | AQGroupUnassign (msg : option GroupUnassign)
| AQGroupMembers (msg : option GroupMembers) | AQPermSet (msg : option PermSet) | AQPermList (msg : option PermList)
| AQPermUnset (msg : option PermUnset) | AQPermCopy (msg : option PermCopy) | AQPermTemplate (msg : option PermTemplateApply)
| AQPermTrace (msg : option PermTrace) | AQAuditLog (msg : option (Z * Z)) | AQTokenUse (msg : option string)
| AQTokenList (decoded : bool) | AQTokenAdd (msg : option TokenAdd) | AQTokenDelete (msg : option string)
| AQServerAdmins (decoded : bool).

Definition admin_handler (client : Conn) (q : admin_request) : GH () :=
  match q with
  | AQGroupList msg => handleGroupList client msg
  | AQGroupCreate msg => handleGroupCreate client msg
  | AQGroupRename msg => handleGroupRename client msg
  | AQGroupEdit msg => handleGroupEdit client msg
  | AQGroupAssign msg => handleGroupAssign client msg
  | AQGroupUnassign msg => handleGroupUnassign client msg
  | AQGroupMembers msg => handleGroupMembers client msg
  | AQPermSet msg => handlePermSet client msg
  | AQPermList msg => handlePermList client msg
  | AQPermUnset msg => handlePermUnset client msg
  | AQPermCopy msg => handlePermCopy client msg
  | AQPermTemplate msg => handlePermTemplateApply client msg
  | AQPermTrace msg => handlePermTrace client msg
  | AQAuditLog msg => handleAuditLog client msg
  | AQTokenUse msg => handleTokenUse client msg
  | AQTokenList decoded => handleTokenList client decoded
  | AQTokenAdd msg => handleTokenAdd client msg
  | AQTokenDelete msg => handleTokenDelete client msg
  | AQServerAdmins decoded => handleServerAdminList client decoded
  end.

End admin.
