(* ===== verification/GroupSafety.v ===== *)
(** * The invariants of the permission tables under administration

    Where a grant a caller holds comes from, and what the handlers of operators
    that are not server admins can write into the tables. *)

From S2P Require Import Prelude Wire GoState Permissions PermLoader PermCache StateManager PermCheck ChannelManager ChatKeys ChatText Passwords ServerWorld ChatScope ChatRelay AuthService GroupStore GroupAdmin.

(** ** Where a resolved grant comes from *)

(** Some target has the permission row [p]. *)
Definition linked_any (p : Z) (t : Tables) : Prop :=
  p ∈ (t_server_group_permissions t).*2 ∨ p ∈ (t_channel_group_permissions t).*2 ∨ p ∈ (t_client_permissions t).*2 ∨
  p ∈ (t_channel_client_permissions t).*2 ∨ p ∈ (t_channel_permissions t).*2.

(** The grant of [p] is that of an entry for [key] that some target has. *)
Definition sourced (t : Tables) (key : string) (p : Permission) : Prop :=
  ∃ id r, linked_any id t ∧ t_permissions t !! id = Some r ∧ row_key r = key ∧ Grant p = row_grant r.

Definition set_sourced (t : Tables) (set : PermissionSet) : Prop :=
  ∀ key p, set !! key = Some (Some p) → sourced t key p.

Definition row_linked (t : Tables) (r : permRow) : Prop := ∃ id, linked_any id t ∧ t_permissions t !! id = Some r.

Lemma joined_linked {A} t (keep : A → bool) (perm : A → Z) rows r :
  (∀ x, x ∈ rows → linked_any (perm x) t) → r ∈ joined t keep perm rows → row_linked t r.
Proof.
  intros Hl (x & Hx & Hr)%list_elem_of_omap. destruct (keep x); [|done]. exists (perm x). split; [by apply Hl|done].
Qed.

Lemma exec_linked {X} t (q : Query X) : ∀ r : permRow, match q in Query X return X → Prop with
  | SelServerGroupPermissions _ | SelChannelGroupPermissions _ | SelClientPermissions _
  | SelClientPermissionsForChannel _ _ | SelChannelClientPermissions _ _ | SelChannelPermissions _ => λ rows, r ∈ rows → row_linked t r
  | _ => λ _, True
  end (exec t q).
Proof.
  intros r. destruct q; simpl; try done; apply joined_linked; intros x Hx; unfold linked_any;
    rewrite !list_elem_of_fmap; eauto 10.
Qed.

Lemma rows_sourced t rows : (∀ r, r ∈ rows → row_linked t r) → set_sourced t (rows_set rows).
Proof.
  unfold rows_set. induction rows as [|r rows IH] using rev_ind; intros Hl key p.
  { unfold NewPermissionSet. cbn. by rewrite lookup_empty. }
  rewrite foldl_app. simpl. destruct (decide (row_key r = key)) as [<-|Hne].
  - rewrite lookup_insert_eq. intros [= <-]. destruct (Hl r) as (id & ? & ?); [set_solver|]. by exists id, r.
  - rewrite lookup_insert_ne by done. apply IH. intros r' Hr'. apply Hl. set_solver.
Qed.

Section loader.
Context `{!∀ V, MapRange string V}.

Lemma merge_sourced t sets M : Forall (set_sourced t) sets → MergeSet sets = Some M → set_sourced t M.
Proof.
  intros Hs HM key p. destruct (MergeSet_lookup sets) as (M' & HM' & Hl). simplify_eq. rewrite Hl.
  destruct (contributions key sets) as [|e es] eqn:Hc; [done|]. intros Hp%(inj Some).
  apply mergeEntries_spec in Hp as (_ & _ & _ & _ & [(x & Hx & Hg) _] & _). rewrite <- Hc in Hx.
  apply list_elem_of_omap in Hx as (set & Hset & Hx). rewrite Forall_forall in Hs.
  destruct (set !! key) as [[q|]|] eqn:Hq; simplify_eq/=.
  destruct (Hs set Hset key x Hq) as (id & r & ? & ? & ? & ?). exists id, r. split_and!; [done..|congruence].
Qed.

Lemma interp_rows t q rows : exec t q = rows → interp t (loadPermissionRows q) = Ok (rows_set rows).
Proof. by intros <-. Qed.

Lemma interp_context {A} t what ids (p : load A) a : interp t (context what ids p) = Ok a ↔ interp t p = Ok a.
Proof.
  unfold context. assert (interp t (pbind p (λ r, Ret (result_map_err (Loading what ids) r))) = result_map_err (Loading what ids) (interp t p)) as ->.
  { induction p as [a'|X q k IH]; simpl; [done|apply IH]. }
  destruct (interp t p); simpl; naive_solver.
Qed.

Lemma interp_load_all {A B} t (f : A → load B) (P : B → Prop) l bs :
  (∀ a b, interp t (f a) = Ok b → P b) → interp t (load_all f l) = Ok bs → Forall P bs.
Proof.
  intros Hf. revert bs. induction l as [|a l IH]; intros bs; simpl; [intros [= <-]; by constructor|].
  rewrite interp_lbind. destruct (interp t (f a)) as [b|] eqn:Hb; [|done].
  rewrite interp_lbind. destruct (interp t (load_all f l)) as [bs'|] eqn:Hbs; [|done]. intros [= <-]. constructor; eauto.
Qed.

Lemma chain_sourced t chain key p : nearest t key chain = Some (Some p) → sourced t key p.
Proof.
  induction chain as [|id chain IH]; simpl; [done|]. unfold own_entry.
  destruct (rows_set (exec t (SelChannelPermissions id)) !! key) eqn:Hk; [|apply IH]. intros [= ->].
  eapply rows_sourced; [|exact Hk]. intros r. apply (exec_linked t (SelChannelPermissions id)).
Qed.

Lemma channel_sourced t c set : interp t (loadChannelPermissionChain c) = Ok set → set_sourced t set.
Proof.
  unfold loadChannelPermissionChain. rewrite interp_lbind.
  destruct (interp t (channelPermissionChain c)) as [[|id chain]|]; [| |done].
  - intros [= <-]. apply rows_sourced. intros r. apply (exec_linked t (SelChannelPermissions c)).
  - destruct (chain_merge_lookup t NewPermissionSet (id :: chain)) as (s & Hs & Hl). rewrite Hs. intros [= <-] key p.
    rewrite Hl. unfold NewPermissionSet. rewrite lookup_empty. apply chain_sourced.
Qed.

Definition tp_sourced (t : Tables) (tp : TieredPermissions) : Prop :=
  ∀ tier set, TieredPermissions_Get tp tier = Some set → set_sourced t set.

Lemma tp_sourced_set t tp tier set : tp_sourced t tp → set_sourced t set → tp_sourced t (TieredPermissions_Set tp tier set).
Proof.
  intros Htp Hset tier' set'. unfold TieredPermissions_Get, TieredPermissions_Set. cbn.
  intros [[-> ->]|[_ ?]]%lookup_insert_Some; [done|by eapply Htp].
Qed.

Lemma tp_sourced_new t : tp_sourced t NewTieredPermissions.
Proof. intros tier set. unfold TieredPermissions_Get. cbn. by rewrite lookup_empty. Qed.

Lemma rows_loaded t what ids q set :
  (∀ r, r ∈ exec t q → row_linked t r) → interp t (context what ids (loadPermissionRows q)) = Ok set → set_sourced t set.
Proof. intros Hq [= <-]%interp_context. by apply rows_sourced. Qed.

Lemma load_sourced t userID channelID tp : interp t (loadFromDB userID channelID) = Ok tp → tp_sourced t tp.
Proof.
  unfold loadFromDB. rewrite interp_lbind. destruct (interp t _) as [gids|]; [|done].
  rewrite interp_lbind. destruct (interp t (load_all _ _)) as [sets|] eqn:Hsets; [|done].
  apply (interp_load_all t _ (set_sourced t)) in Hsets; [|intros g s; apply rows_loaded, (exec_linked t (SelServerGroupPermissions g))].
  rewrite interp_lbind. unfold merge_sets at 1. destruct (MergeSet sets) as [merged|] eqn:Hm; [|done]. cbn [interp].
  rewrite interp_lbind. destruct (interp t (context _ _ (loadClientPermissions userID true))) as [cs|] eqn:Hcs; [|done].
  rewrite interp_lbind. destruct (interp t (context _ _ (loadClientPermissionsForChannel userID channelID))) as [chs|] eqn:Hchs; [|done].
  rewrite interp_lbind. destruct (interp t (context _ _ (loadChannelPermissionChain channelID))) as [ch|] eqn:Hch; [|done].
  rewrite interp_lbind. destruct (interp t (context _ _ (LoadChannelGroupsForUser userID channelID))) as [cgids|]; [|done].
  rewrite interp_lbind. destruct (interp t (load_all _ cgids)) as [cgsets|] eqn:Hcg; [|done].
  apply (interp_load_all t _ (set_sourced t)) in Hcg; [|intros g s; apply rows_loaded, (exec_linked t (SelChannelGroupPermissions g))].
  rewrite interp_lbind. unfold merge_sets at 1. destruct (MergeSet cgsets) as [cgm|] eqn:Hcgm; [|done]. cbn [interp].
  rewrite interp_lbind. destruct (interp t (context _ _ (loadChannelClientPermissions userID channelID))) as [cc|] eqn:Hcc; [|done].
  intros [= <-]. repeat apply tp_sourced_set.
  - apply tp_sourced_new.
  - by apply (merge_sourced t sets).
  - revert Hcs. apply rows_loaded, (exec_linked t (SelClientPermissions userID)).
  - revert Hchs. apply rows_loaded, (exec_linked t (SelClientPermissionsForChannel userID channelID)).
  - apply interp_context in Hch. by eapply channel_sourced.
  - by apply (merge_sourced t cgsets).
  - revert Hcc. apply rows_loaded, (exec_linked t (SelChannelClientPermissions userID channelID)).
Qed.

Lemma resolve_sourced t tp key p tier : tp_sourced t tp → Resolve tp key = Ok (p, tier) → sourced t key p.
Proof.
  intros Htp Hr. unfold Resolve in Hr. apply Resolve_tiers_Ok in Hr as (pre & post & q & _ & _ & Hq & ->).
  unfold tier_entry in Hq. destruct (TieredPermissions_Get tp tier) as [set|] eqn:Hset; [|done]. cbn in Hq.
  assert (set !! key = Some (Some q)) as Hk by (destruct (set !! key) as [[]|]; naive_solver).
  destruct (Htp tier set Hset key q Hk) as (id & r & ? & ? & ? & Hg). exists id, r. split_and!; [done..|].
  rewrite <- Hg. unfold resolved. by destruct (Negate q).
Qed.

(** A caller that is not an admin has only grants that some entry carries. *)
Lemma checker_sourced t st guest client pc :
  permCheckerFor {| dep_perms := Some (tables_source t); dep_state := Some st; dep_guest_group := guest |} client = Ok pc →
  tp_sourced t (pc_tp pc) ∧ (pc_admin pc = true → conn_isAdmin client = true).
Proof.
  unfold permCheckerFor, guestGroupSet. cbn -[loadFromDB]. set (ch := match GetClient _ _ with Some _ => _ | None => _ end).
  assert (∀ set, interp t (loadServerGroupPermissions guest) = Ok set → set_sourced t set) as Hguest.
  { intros set [= <-]. apply rows_sourced. intros r. apply (exec_linked t (SelServerGroupPermissions guest)). }
  destruct (conn_userID client =? 0).
  - destruct (negb (ch =? 0)).
    + destruct (interp t (loadFromDB 0 ch)) as [loaded|] eqn:Hl; [|done]. cbn -[loadFromDB].
      assert (tp_sourced t (match TieredPermissions_Get loaded TierChannel with
                            | Some channel => TieredPermissions_Set NewTieredPermissions TierChannel channel
                            | None => NewTieredPermissions end)) as Htp.
      { destruct (TieredPermissions_Get loaded TierChannel) eqn:Hc; [|apply tp_sourced_new].
        apply tp_sourced_set; [apply tp_sourced_new|]. eapply load_sourced; done. }
      destruct (guest =? 0); cbn -[loadFromDB]; [intros [= <-]; by split|].
      destruct (interp t (loadServerGroupPermissions guest)) as [set|] eqn:Hg; [|done].
      intros [= <-]. split; [|done]. apply tp_sourced_set; [done|by apply Hguest].
    + cbn -[loadFromDB]. destruct (guest =? 0); cbn -[loadFromDB]; [intros [= <-]; split; [apply tp_sourced_new|done]|].
      destruct (interp t (loadServerGroupPermissions guest)) as [set|] eqn:Hg; [|done].
      intros [= <-]. split; [|done]. apply tp_sourced_set; [apply tp_sourced_new|by apply Hguest].
  - destruct (interp t (loadFromDB _ _)) as [tp|] eqn:Hl; [|done]. cbn -[loadFromDB]. intros [= <-].
    split; [by eapply load_sourced|done].
Qed.

End loader.

(** ** What the store's operations do to the entries *)

Lemma elem_of_insert_new {A} `{!EqDecision A} (x y : A) l : y ∈ insert_new x l ↔ y = x ∨ y ∈ l.
Proof. unfold insert_new. case_decide; set_solver. Qed.

Lemma elem_of_linked_link tier g p tier' g' t q :
  q ∈ linked tier' g' (link tier g p t) → q ∈ linked tier' g' t ∨ (q = p ∧ tier' = tier ∧ linked tier g t ⊆ linked tier' g' t).
Proof.
  destruct tier, tier'; simpl; try (by left);
    intros ((a & b) & -> & (Ha & Hin)%list_elem_of_filter)%list_elem_of_fmap; apply elem_of_insert_new in Hin as [Heq|Hin];
    try (left; apply list_elem_of_fmap; exists (a, b); split; [done|]; apply list_elem_of_filter; by split).
  all: right; injection Heq as -> ->; cbn in Ha; split_and!; [done|done|by rewrite <- Ha].
Qed.

Lemma linked_link_self tier g p t : p ∈ linked tier g (link tier g p t).
Proof.
  destruct tier; simpl; apply list_elem_of_fmap; eexists (_, p); (split; [done|]); apply list_elem_of_filter;
    (split; [reflexivity|]); apply elem_of_insert_new; by left.
Qed.

Lemma linked_linked_any tier g q t : q ∈ linked tier g t → linked_any q t.
Proof.
  unfold linked_any. destruct tier; cbn; intros (y & -> & (_ & Hy)%list_elem_of_filter)%list_elem_of_fmap;
    rewrite !list_elem_of_fmap; eauto 10.
Qed.

Lemma rows_linked_any tier g r t : r ∈ rows_of tier g t → ∃ id, linked_any id t ∧ t_permissions t !! id = Some r.
Proof. intros (q & Hq%linked_linked_any & Hr)%list_elem_of_omap. by exists q. Qed.

Lemma linked_any_link tier g p t q : linked_any q (link tier g p t) → linked_any q t ∨ q = p.
Proof.
  unfold linked_any. destruct tier; simpl; rewrite ?list_elem_of_fmap; setoid_rewrite elem_of_insert_new;
    intros H; destruct_or?; destruct_and?; naive_solver.
Qed.

Lemma list_elem_of_filter_2 {A} (P Q : A → Prop) `{!∀ x, Decision (P x), !∀ x, Decision (Q x)} (x : A) (l : list A) :
  x ∈ filter P (filter Q l) → P x ∧ Q x ∧ x ∈ l.
Proof. by rewrite !list_elem_of_filter. Qed.

Lemma elem_of_linked_unlink tier g d tier' g' t q : q ∈ linked tier' g' (unlink tier g d t) → q ∈ linked tier' g' t.
Proof.
  destruct tier, tier'; simpl; try done;
    rewrite !list_elem_of_fmap; intros (x & -> & (Ha & _ & Hx)%list_elem_of_filter_2);
    exists x; (split; [done|]); by apply list_elem_of_filter.
Qed.

Lemma linked_any_unlink tier g d t q : linked_any q (unlink tier g d t) → linked_any q t.
Proof.
  unfold linked_any. destruct tier; simpl; rewrite !list_elem_of_fmap; setoid_rewrite list_elem_of_filter; naive_solver.
Qed.

Lemma unlink_permissions tier g d t : t_permissions (unlink tier g d t) = t_permissions t.
Proof. by destruct tier. Qed.
Lemma link_permissions tier g p t : t_permissions (link tier g p t) = t_permissions t.
Proof. by destruct tier. Qed.

(** ** What operators can write *)

Section cap.
Context (k : string) (M : Z) (t0 : Tables).

(** What an operator may write for a key. *)
Definition allowed (key : string) (value grant : Z) : Prop :=
  key ≠ PermissionKeyPermissionModifyPowerIgnore ∧ (key = k → value ≤ M ∧ grant ≤ M).

(** No entry lifts the cap, the grants for [k] are at most [M], and an entry for [k]
    was there in [t0] for the same target or has a value of at most [M] as well. *)
Record good (t : Tables) : Prop := {
  go_ignore id r : linked_any id t → t_permissions t !! id = Some r → row_key r ≠ PermissionKeyPermissionModifyPowerIgnore;
  go_grant id r : linked_any id t → t_permissions t !! id = Some r → row_key r = k → row_grant r ≤ M;
  go_rows tier g r : r ∈ rows_of tier g t → row_key r = k → r ∈ rows_of tier g t0 ∨ (row_value r ≤ M ∧ row_grant r ≤ M);
}.

Record ginv (s : GStore) : Prop := {
  gi_good t : t ∈ gs_tables s :: gs_past s → good t;
  gi_rows id : is_Some (t_permissions (gs_tables s) !! id) → id < gs_seq s;
  gi_links id : linked_any id (gs_tables s) → id < gs_seq s;
}.

(** Tables with the same permission rows and no new links. *)
Record no_links (t t' : Tables) : Prop := {
  nl_rows : t_permissions t' = t_permissions t;
  nl_linked tier g q : q ∈ linked tier g t' → q ∈ linked tier g t;
  nl_any q : linked_any q t' → linked_any q t;
}.

Lemma good_no_links t t' : no_links t t' → good t → good t'.
Proof.
  intros [Hr Hl Ha] [Hi Hg Hrows]. split.
  - intros id r ?%Ha. rewrite Hr. by apply Hi.
  - intros id r ?%Ha. rewrite Hr. by apply Hg.
  - intros tier g r (q & Hq%Hl & Hqr)%list_elem_of_omap. rewrite Hr in Hqr. apply Hrows. apply list_elem_of_omap. by exists q.
Qed.

Lemma no_links_unlink tier g d t : no_links t (unlink tier g d t).
Proof.
  split; [apply unlink_permissions| |].
  - intros tier' g' q. apply elem_of_linked_unlink.
  - intros q. apply linked_any_unlink.
Qed.

Lemma no_links_refl t : no_links t t.
Proof. by split. Qed.
Lemma no_links_trans t1 t2 t3 : no_links t1 t2 → no_links t2 t3 → no_links t1 t3.
Proof. intros [Hr Hl Ha] [Hr' Hl' Ha']. split; [congruence|naive_solver..]. Qed.

(** A store that only memberships, groups or other tables changed. *)
Record calm (s s' : GStore) : Prop := {
  ca_tables : no_links (gs_tables s) (gs_tables s');
  ca_past t : t ∈ gs_past s' → ∃ t', t' ∈ gs_tables s :: gs_past s ∧ no_links t' t;
  ca_seq : gs_seq s ≤ gs_seq s';
}.

#[export] Instance calm_preorder : PreOrder calm.
Proof.
  split.
  - intros s. split; [apply no_links_refl| |lia]. intros t Ht. exists t. split; [set_solver|apply no_links_refl].
  - intros s1 s2 s3 [H12 P12 L12] [H23 P23 L23]. split; [by eapply no_links_trans| |lia].
    intros t (t' & [->|Ht']%elem_of_cons & Hn)%P23.
    + exists (gs_tables s1). split; [set_solver|by eapply no_links_trans].
    + destruct (P12 _ Ht') as (t'' & ? & ?). exists t''. split; [done|by eapply no_links_trans].
Qed.

Lemma ginv_calm s s' : calm s s' → ginv s → ginv s'.
Proof.
  intros [Hn Hp Hseq] [Hg Hr Hl]. split.
  - intros t [->|Ht]%elem_of_cons; [eapply good_no_links; [done|apply Hg; set_solver]|].
    apply Hp in Ht as (t' & Ht' & Hn'). eapply good_no_links; [done|by apply Hg].
  - intros id. rewrite (nl_rows _ _ Hn). intros ?%Hr. lia.
  - intros id ?%(nl_any _ _ Hn)%Hl. lia.
Qed.

Lemma calm_tables t s : no_links (gs_tables s) t → calm s (set_tables t s).
Proof.
  intros Hn. split; [done| |by apply Z.le_refl]. intros t' Ht'. exists t'. split; [done|apply no_links_refl].
Qed.

Lemma calm_sgm f s : calm s (set_tables (with_sgm f (gs_tables s)) s).
Proof. apply calm_tables. split; [done| |done]. by intros []. Qed.
Lemma calm_cgm f s : calm s (set_tables (with_cgm f (gs_tables s)) s).
Proof. apply calm_tables. split; [done| |done]. by intros []. Qed.

(** Nothing of the permission tables changed. *)
Lemma calm_same s s' : gs_tables s' = gs_tables s → gs_past s' = gs_past s → gs_seq s ≤ gs_seq s' → calm s s'.
Proof.
  intros Ht Hp Hq. split; [rewrite Ht; apply no_links_refl| |done]. rewrite Hp. intros t ?. exists t. split; [set_solver|apply no_links_refl].
Qed.

Lemma good_link tier g p t :
  good t → (∀ r, t_permissions t !! p = Some r → allowed (row_key r) (row_value r) (row_grant r)) → good (link tier g p t).
Proof.
  intros [Hi Hg Hrows] Hp. split.
  - intros id r Hl. rewrite link_permissions. intros Hr. apply linked_any_link in Hl as [Hl| ->]; [by eapply Hi|by apply Hp].
  - intros id r Hl. rewrite link_permissions. intros Hr Hk. apply linked_any_link in Hl as [Hl| ->]; [by eapply Hg|by apply Hp].
  - intros tier' g' r (q & Hq & Hqr)%list_elem_of_omap. rewrite link_permissions in Hqr. intros Hk.
    apply elem_of_linked_link in Hq as [Hq|(-> & _ & _)].
    + apply Hrows; [|done]. apply list_elem_of_omap. by exists q.
    + right. by apply Hp.
Qed.

Lemma ginv_link tier g p s s' :
  link_row tier g p s = Ok s' → ginv s → is_Some (t_permissions (gs_tables s) !! p) →
  (∀ r, t_permissions (gs_tables s) !! p = Some r → allowed (row_key r) (row_value r) (row_grant r)) → ginv s'.
Proof.
  unfold link_row. destruct (target_exists tier g s); [|done]. intros [= <-] Hs Hp Ha. pose proof Hs as [Hg Hr Hl]. split.
  - intros t [->|Ht]%elem_of_cons; [apply good_link; [apply Hg; set_solver|done]|by apply Hg].
  - cbn. rewrite link_permissions. apply Hr.
  - cbn. intros id [Hid| ->]%linked_any_link; [by apply Hl|by apply Hr].
Qed.

Lemma ginv_unlink_key tier g key s : ginv s → ginv (unlink_key tier g key s).
Proof.
  apply ginv_calm, calm_tables, no_links_unlink.
Qed.

Lemma ginv_insert_row r s : ginv s → ginv (insert_row r s).1.
Proof.
  intros [Hg Hr Hl]. unfold insert_row. cbn.
  assert (∀ id, linked_any id (gs_tables s) → <[gs_seq s := r]> (t_permissions (gs_tables s)) !! id = t_permissions (gs_tables s) !! id) as Hsame.
  { intros id Hid%Hl. rewrite lookup_insert_ne by lia. done. }
  split; cbn.
  - intros t [->|Ht]%elem_of_cons; [|by apply Hg]. destruct (Hg (gs_tables s)) as [Hi Hgr Hrows]; [set_solver|]. split.
    + intros id x Hid. cbn. rewrite Hsame by done. by apply Hi.
    + intros id x Hid. cbn. rewrite Hsame by done. by apply Hgr.
    + intros tier g x (q & Hq & Hx)%list_elem_of_omap. apply Hrows. apply list_elem_of_omap. exists q. split; [by destruct tier|].
      rewrite <- Hsame; [exact Hx|]. apply linked_linked_any in Hq. by destruct tier.
  - intros id. cbn. destruct (decide (id = gs_seq s)) as [->|]; [lia|]. rewrite lookup_insert_ne by done. intros ?%Hr. lia.
  - intros id Hid. assert (id < gs_seq s) by (by apply Hl). lia.
Qed.

(** ** Programs over the store *)

Definition spost {B} (m : GS B) (s : GStore) (Q : B → GStore → Prop) : Prop :=
  ginv (m s).1 ∧ ∀ b, (m s).2 = Ok b → Q b (m s).1.

Lemma spost_bind {A B} (m : GS A) (f : A → GS B) s Q R :
  spost m s Q → (∀ a s1, ginv s1 → Q a s1 → spost (f a) s1 R) → spost (se_bind m f) s R.
Proof.
  intros [Hi HQ] Hf. unfold spost, se_bind. destruct (m s) as [s1 [a|e]]; cbn [fst snd] in *; [|by split].
  by apply Hf; [|apply HQ].
Qed.

Lemma spost_weaken {B} (m : GS B) s (Q R : B → GStore → Prop) : (∀ b s', Q b s' → R b s') → spost m s Q → spost m s R.
Proof. intros HQR [Hi HQ]. split; [done|]. intros b Hb. by apply HQR, HQ. Qed.

Lemma spost_ret {B} (b : B) s (Q : B → GStore → Prop) : ginv s → Q b s → spost (se_ret b) s Q.
Proof. intros Hs HQ. split; [done|]. by intros ? [= <-]. Qed.
Lemma spost_err {B} e s (Q : B → GStore → Prop) : ginv s → spost (se_err e) s Q.
Proof. intros Hs. by split. Qed.

Section store.
Context (db : nat → dbOutcome) (now_db : nat → Z).

Lemma ginv_tick s : ginv s → ginv (tick_gcall s).
Proof. intros [Hg Hr Hl]. by split. Qed.

Lemma gstatement_post {B} (op : Z → GStore → result StoreErr (GStore * B)) s Q :
  ginv s →
  (∀ now s', ginv (tick_gcall s) → op now (tick_gcall s) = Ok s' → ginv s'.1 ∧ Q s'.2 s'.1) →
  spost (gstatement db now_db op) s Q.
Proof.
  intros Hs%ginv_tick Hop. unfold spost, gstatement.
  destruct (db (gs_calls s)); [|by split|];
    (destruct (op _ (tick_gcall s)) as [[s' b]|e] eqn:Ho; [|by split]);
    destruct (Hop _ _ Hs Ho) as [Hs' HQ]; (split; [done|]); [by intros ? [= <-]|done].
Qed.

Lemma gselect_post {B} (f : GStore → B) s : ginv s → spost (gselect db now_db f) s (λ b s', b = f s').
Proof. intros Hs. apply gstatement_post; [done|]. intros now s' Ht [= <-]. by split. Qed.

Lemma gupdate_post f s (Q : () → GStore → Prop) :
  ginv s → (∀ s0, ginv s0 → ginv (f s0)) → Q () (f (tick_gcall s)) → spost (gupdate db now_db f) s Q.
Proof. intros Hs Hf HQ. apply gstatement_post; [done|]. intros now s' Ht [= <-]. split; [by apply Hf|done]. Qed.

Lemma gstatement_calm {B} (op : Z → GStore → result StoreErr (GStore * B)) s :
  ginv s → (∀ now s0 s' b, op now s0 = Ok (s', b) → calm s0 s') → spost (gstatement db now_db op) s (λ _ _, True).
Proof.
  intros Hs Hop. apply gstatement_post; [done|]. intros now [s' b] Ht Ho. split; [|done].
  eapply ginv_calm; [by eapply Hop|done].
Qed.

(** *** Permission entries *)

Lemma find_row_lookup r t id : find_row r t = Some id → t_permissions t !! id = Some r.
Proof.
  unfold find_row. destruct (head _) as [[id' r']|] eqn:Hh; [|done]. intros [= <-].
  apply head_Some_elem_of, list_elem_of_filter in Hh as (Hr & Hin). cbn in Hr. subst r'. by apply elem_of_map_to_list.
Qed.

Lemma spost_upsert key value grant skip negate s :
  ginv s →
  spost (upsertPermissionRow db now_db key value grant skip negate) s
    (λ id s', t_permissions (gs_tables s') !! id = Some (row_of key value grant skip negate)).
Proof.
  intros Hs. unfold upsertPermissionRow.
  apply (spost_bind _ _ _ (λ o s', ∀ id, o = Some id → t_permissions (gs_tables s') !! id = Some (row_of key value grant skip negate))).
  - apply gstatement_post; [done|]. intros now s' Ht. destruct (_ || _); [done|]. intros [= <-]. split; [done|].
    intros id. apply find_row_lookup.
  - intros [id|] s1 Hs1 Hq; [apply spost_ret; auto|].
    apply gstatement_post; [done|]. intros now s' Ht [= <-]. split; [by apply ginv_insert_row|].
    cbn. apply lookup_insert_eq.
Qed.

Lemma spost_SetPermission tier g key value grant skip negate s :
  ginv s → allowed key value grant → spost (SetPermission db now_db tier g key value grant skip negate) s (λ _ _, True).
Proof.
  intros Hs Ha. unfold SetPermission. eapply spost_bind; [by apply spost_upsert|]. intros id s1 Hs1 Hid. cbn beta in Hid.
  apply (spost_bind _ _ _ (λ _ s', t_permissions (gs_tables s') !! id = Some (row_of key value grant skip negate))).
  - apply gupdate_post; [done|apply ginv_unlink_key|]. cbn. by rewrite unlink_permissions.
  - intros [] s2 Hs2 Hid2. apply gstatement_post; [done|]. intros now [s' []] Ht. cbn -[link_row].
    destruct (link_row tier g id (tick_gcall s2)) as [s3|] eqn:Hl; [|done]. intros [= <-]. split; [|done].
    eapply ginv_link; [exact Hl|done|by eexists|]. intros r. cbn. rewrite Hid2. by intros [= <-].
Qed.

Lemma spost_UnsetPermission tier g key s : ginv s → spost (UnsetPermission db now_db tier g key) s (λ _ _, True).
Proof. intros Hs. apply gupdate_post; [done|apply ginv_unlink_key|done]. Qed.

Lemma ginv_set_with tier g e s s' :
  set_with tier g e s = Ok s' → allowed (en_Key e) (en_Value e) (en_Grant e) → ginv s → ginv s'.
Proof.
  unfold set_with. destruct (_ || _); [done|]. intros Hl Ha Hs. set (r := row_of _ _ _ _ _) in *.
  assert (∃ s1 id, ginv s1 ∧ t_permissions (gs_tables s1) !! id = Some r ∧ link_row tier g id (unlink_key tier g (en_Key e) s1) = Ok s')
    as (s1 & id & Hs1 & Hid & Hl').
  { destruct (find_row r (gs_tables s)) as [id|] eqn:Hf.
    - exists s, id. split_and!; [done|by apply find_row_lookup|done].
    - exists (insert_row r s).1, (gs_seq s). split_and!; [by apply ginv_insert_row|cbn; apply lookup_insert_eq|done]. }
  assert (t_permissions (gs_tables (unlink_key tier g (en_Key e) s1)) !! id = Some r) as Hid' by (cbn; by rewrite unlink_permissions).
  eapply ginv_link; [exact Hl'|by apply ginv_unlink_key|by eexists|]. intros r'. rewrite Hid'. by intros [= <-].
Qed.

Lemma ginv_set_all tier g es s s' :
  set_all tier g es s = Ok s' → Forall (λ e, allowed (en_Key e) (en_Value e) (en_Grant e)) es → ginv s → ginv s'.
Proof.
  revert s. induction es as [|e es IH]; intros s; cbn -[set_with]; [by intros [= <-]|].
  destruct (set_with tier g e s) as [s1|] eqn:He; [|done]. intros Hall [Ha Has]%Forall_cons Hs.
  eapply IH; [exact Hall|done|]. by eapply ginv_set_with.
Qed.

Lemma spost_CopyPermissions tier g remove es s :
  ginv s → Forall (λ e, allowed (en_Key e) (en_Value e) (en_Grant e)) es →
  spost (CopyPermissions db now_db tier g remove es) s (λ _ _, True).
Proof.
  intros Hs Hes. apply gstatement_post; [done|]. intros now [s' []] Ht. cbn -[set_all unlink_key].
  set (s1 := foldl _ _ _). assert (ginv s1) as Hs1.
  { subst s1. generalize dependent (tick_gcall s). clear. induction remove as [|key remove IH]; intros s Hs; [done|]. cbn -[unlink_key].
    by apply IH, ginv_unlink_key. }
  destruct (set_all tier g es s1) as [s2|] eqn:Hall; [|done]. intros [= <-]. split; [|done]. by eapply ginv_set_all.
Qed.

(** The entries a list answers are rows of the target. *)
Lemma spost_ListPermissions tier g s :
  ginv s → spost (ListPermissions db now_db tier g) s (λ es _, True).
Proof. intros Hs. eapply spost_weaken; [|by apply gselect_post]. done. Qed.

End store.

End cap.
(** ** Operations that leave the permission entries alone *)

Definition still {B} (m : GS B) : Prop := ∀ s, calm s (m s).1.

Create HintDb still.

Lemma still_ret {B} (b : B) : still (se_ret b).
Proof. by intros s. Qed.
Lemma still_err {B} e : still (se_err (A:=B) e).
Proof. by intros s. Qed.
Lemma still_bind {A B} (m : GS A) (f : A → GS B) : still m → (∀ a, still (f a)) → still (se_bind m f).
Proof.
  intros Hm Hf s. unfold se_bind. specialize (Hm s). destruct (m s) as [s1 [a|e]]; cbn [fst] in *; [|done].
  by transitivity s1; [|apply Hf].
Qed.

#[export] Hint Resolve still_ret still_err still_bind : still.

Section still.
Context (db : nat → dbOutcome) (now_db : nat → Z).
Context `{!∀ V, MapRange Z V}.

Lemma still_statement {B} (op : Z → GStore → result StoreErr (GStore * B)) :
  (∀ now s s' b, op now s = Ok (s', b) → calm s s') → still (gstatement db now_db op).
Proof.
  intros Hop s. assert (calm s (tick_gcall s)) as Ht by by apply calm_same.
  unfold gstatement. destruct (db (gs_calls s)); [|done|];
    (destruct (op _ (tick_gcall s)) as [[s' b]|e] eqn:Ho; [|done]); transitivity (tick_gcall s); try done; by eapply Hop.
Qed.

Lemma still_select {B} (f : GStore → B) : still (gselect db now_db f).
Proof. apply still_statement. by intros now s s' b [= <- <-]. Qed.

Lemma still_update f : (∀ s, calm s (f s)) → still (gupdate db now_db f).
Proof. intros Hf. apply still_statement. intros now s s' b [= <- <-]. apply Hf. Qed.

#[local] Hint Resolve still_select : still.

Lemma calm_expires f s : calm s (set_expires f s).
Proof. by apply calm_same. Qed.
Lemma calm_tokens f s : calm s (set_tokens f s).
Proof. by apply calm_same. Qed.
Lemma calm_acc a s : calm s (set_gacc a s).
Proof. by apply calm_same. Qed.
Lemma calm_set_groups t f s : calm s (set_groups t f s).
Proof. unfold set_groups. destruct (is_channel t); by apply calm_same. Qed.
Lemma calm_next s s' : calm s s' → calm s (next_seq s').
Proof. intros Hs. transitivity s'; [done|]. apply calm_same; cbn; [done..|lia]. Qed.

Lemma still_GetGroup t id : still (GetGroup db now_db t id).
Proof. unfold GetGroup, ListGroups. auto with still. Qed.

Lemma still_CreateGroup t name sort : still (CreateGroup db now_db t name sort).
Proof.
  apply still_statement. intros now s s' b. destruct (_ || _); [done|]. intros [= <- <-]. apply calm_next, calm_set_groups.
Qed.

Lemma still_found (op : Z → GStore → result StoreErr (GStore * bool)) :
  (∀ now s s' b, op now s = Ok (s', b) → calm s s') →
  still (se_bind (gstatement db now_db op) (λ found : bool, if found then se_ret () else se_err ErrGroupNotFound)).
Proof. intros Hop. apply still_bind; [by apply still_statement|]. intros []; auto with still. Qed.

Lemma still_RenameGroup t id name : still (RenameGroup db now_db t id name).
Proof.
  apply still_found. intros now s s' b. destruct (negb _); [by intros [= <- <-]|]. destruct (name_taken _ _ _ _); [done|].
  intros [= <- <-]. apply calm_set_groups.
Qed.

Lemma still_SetGroupCosmetics id c h n : still (SetGroupCosmetics db now_db id c h n).
Proof.
  assert (still (se_bind (gstatement db now_db (λ _ s,
        if negb (int4 (default 0 n)) then Err ErrConstraint
        else Ok (set_serverGroups (alter (cosmetics c h n) id) s, bool_decide (is_Some (gs_serverGroups s !! id)))))
      (λ found : bool, if found then se_ret () else se_err ErrGroupNotFound))) as Hs.
  { apply still_found. intros now s s' b. destruct (negb _); [done|]. intros [= <- <-]. by apply calm_same. }
  unfold SetGroupCosmetics. destruct c, h, n; try apply Hs. apply still_err.
Qed.

Lemma put_member_calm u g e s s' : put_member u g e s = Ok s' → calm s s'.
Proof.
  unfold put_member. destruct (_ && _); [|done]. intros [= <-]. etransitivity; [apply calm_sgm|apply calm_expires].
Qed.

Lemma still_AssignServerGroup now g u e : still (AssignServerGroup db now_db now g u e).
Proof.
  apply still_statement. intros n s s' b. destruct (put_member _ _ _ _) as [s1|] eqn:Hp; [|done]. intros [= <- <-].
  by eapply put_member_calm.
Qed.

Lemma still_UnassignServerGroup g u : still (UnassignServerGroup db now_db g u).
Proof. apply still_update. intros s. etransitivity; [apply calm_sgm|apply calm_expires]. Qed.

Lemma assignChannelGroupTx_calm g u c s s' : assignChannelGroupTx g u c s = Ok s' → calm s s'.
Proof. unfold assignChannelGroupTx. destruct (_ && _); [|done]. intros [= <-]. apply calm_cgm. Qed.

Lemma still_AssignChannelGroup g u c : still (AssignChannelGroup db now_db g u c).
Proof.
  apply still_statement. intros n s s' b. destruct (assignChannelGroupTx _ _ _ _) as [s1|] eqn:Hp; [|done]. intros [= <- <-].
  by eapply assignChannelGroupTx_calm.
Qed.

Lemma still_UnassignChannelGroup u c : still (UnassignChannelGroup db now_db u c).
Proof. apply still_update. intros s. apply calm_cgm. Qed.

Lemma still_ExpiredGroupMembers now : still (ExpiredGroupMembers db now_db now).
Proof. apply still_statement. intros n s s' b [= <- <-]. etransitivity; [apply calm_sgm|apply calm_expires]. Qed.

Lemma still_UserUniqueID u : still (UserUniqueID db now_db u).
Proof. unfold UserUniqueID. apply still_bind; [apply still_select|]. intros [r|]; auto with still. Qed.

Lemma still_Audit a b c d : still (Audit db now_db a b c d).
Proof.
  intros s. unfold Audit. cbn [fst]. refine (still_statement _ _ s). intros now s1 s' x [= <- <-].
  apply calm_same; cbn; [done..|lia].
Qed.

Lemma ensure_user_calm u n s r : ensure_user u n s = Ok r → calm s r.1.1.
Proof.
  unfold ensure_user. destruct (find_user _ _) as [[id x]|]; [by intros [= <-]|]. case_bool_decide; [done|].
  intros [= <-]. apply calm_acc.
Qed.

Lemma still_AssignGuestGroup now t g c u n e : still (AssignGuestGroup db now_db now t g c u n e).
Proof.
  unfold AssignGuestGroup. destruct (_ || _); [apply still_err|]. apply still_statement. intros x s s' b.
  destruct (ensure_user u n s) as [[[s1 id] ins]|] eqn:Hu; [|done]. apply ensure_user_calm in Hu. cbn in Hu.
  cbn [result_bind]. destruct (credentials_of id s1) as [hash key].
  destruct (_ || _); [done|].
  case_bool_decide.
  - destruct (assignChannelGroupTx _ _ _ _) as [s2|] eqn:Hp; [|done]. intros [= <- <-].
    transitivity s1; [done|by eapply assignChannelGroupTx_calm].
  - destruct (put_member _ _ _ _) as [s2|] eqn:Hp; [|done]. intros [= <- <-]. transitivity s1; [done|by eapply put_member_calm].
Qed.

Lemma still_CreateTokenWithMeta r t g c d n : still (CreateTokenWithMeta db now_db r t g c d n).
Proof.
  destruct r as [b|]; [|apply still_err]. apply still_bind; [|intros; apply still_ret]. apply still_statement.
  intros now s s' []. destruct (_ || _ || _); [done|]. intros [= <-]. apply calm_next, calm_tokens.
Qed.

Lemma still_DeleteToken key : still (DeleteToken db now_db key).
Proof.
  apply still_bind; [|intros n; case_bool_decide; auto with still]. apply still_statement. intros now s s' b [= <- <-]. apply calm_tokens.
Qed.

Lemma redeemer_calm u uid n s r : redeemer u uid n s = Ok r → calm s r.1.1.
Proof.
  unfold redeemer. destruct (u =? 0); [|by intros [= <-]]. case_bool_decide; [done|].
  destruct (ensure_user uid n s) as [[[s1 id] ins]|] eqn:Hu; [|done]. apply ensure_user_calm in Hu. cbn in Hu.
  assert (∀ s2, (if ins : bool then Ok s1 else fill_nickname id n s1) = Ok s2 → calm s1 s2) as Hf.
  { intros s2. destruct ins; [by intros [= <-]|]. unfold fill_nickname. destruct (_ !! id); [|by intros [= <-]].
    case_bool_decide; [|by intros [= <-]]. destruct (_ && _); [done|]. intros [= <-]. apply calm_acc. }
  cbn [result_bind]. destruct (if ins : bool then Ok s1 else fill_nickname id n s1) as [s2|]; [|done].
  cbn [result_bind]. destruct (negb ins && _); [done|]. intros [= <-]. transitivity s1; [done|by apply Hf].
Qed.

Lemma restore_member_calm u g c s s' : restore_member u g c s = Ok s' → calm s s'.
Proof.
  unfold restore_member. destruct (_ && _); [|done]. case_decide.
  - destruct (gs_expires s !! _); [|by intros [= <-]]. destruct (_ <=? _); intros [= <-]; [apply calm_expires|done].
  - intros [= <-]. etransitivity; [apply calm_sgm|apply calm_expires].
Qed.

Lemma still_UseTokenForIdentity now key u uid n : still (UseTokenForIdentity db now_db now key u uid n).
Proof.
  apply still_statement. intros x s s' b. destruct (find_token key s) as [[tid t]|]; [|done].
  destruct (_ <=? _); [done|]. destruct (redeemer _ _ _ _) as [[[s1 id] p]|] eqn:Hr; [|done]. apply redeemer_calm in Hr. cbn in Hr. cbn [result_bind].
  destruct (tk_group_id t) as [g|]; [destruct (g =? 0)|].
  - intros [= <- <-]. transitivity s1; [done|]. etransitivity; [apply calm_tokens|apply calm_acc].
  - destruct (restore_member _ _ _ _) as [s2|] eqn:Hm; [|done]. intros [= <- <-]. transitivity s1; [done|].
    etransitivity; [apply calm_tokens|by eapply restore_member_calm].
  - intros [= <- <-]. transitivity s1; [done|]. etransitivity; [apply calm_tokens|apply calm_acc].
Qed.

End still.

#[export] Hint Resolve still_select still_GetGroup still_CreateGroup still_RenameGroup still_SetGroupCosmetics
  still_AssignServerGroup still_UnassignServerGroup still_AssignChannelGroup still_UnassignChannelGroup
  still_ExpiredGroupMembers still_UserUniqueID still_Audit still_AssignGuestGroup still_CreateTokenWithMeta
  still_DeleteToken still_UseTokenForIdentity : still.
