(* ===== verification/GroupCap.v ===== *)
(** * The grant cap through the handlers

    Every request of a client that is not a server admin keeps the invariant
    [ginv] of the permission tables: what it writes is within the cap its
    permissions set, whichever of the tables' states the loader answers from. *)

From S2P Require Import Prelude Wire GoState Permissions PermLoader PermCache StateManager PermCheck ChannelManager ChatKeys ChatText Passwords ServerWorld ChatScope ChatRelay AuthService GroupStore GroupAdmin GroupSafety.

Section cap.
Context (E : Env) (N : GroupEnv).
Context `{!∀ V, MapRange Z V, !∀ V, MapRange string V}.
Context (k : string) (M : Z) (t0 : Tables).

#[local] Abbreviation ginv := (ginv k M t0).
#[local] Abbreviation allowed := (allowed k M).

(** ** Programs over the world *)

Definition gpost {A} (m : GH A) (Q : A → Prop) : Prop :=
  ∀ w, ginv w.2 → ginv (m w).1.2 ∧ ∀ a, (m w).2 = Ok a → Q a.

Abbreviation quiet m := (gpost m (λ _, True)).

Lemma gpost_ret {A} (a : A) (Q : A → Prop) : Q a → gpost (se_ret a) Q.
Proof. intros HQ w Hw. split; [done|]. by intros ? [= <-]. Qed.

Lemma gpost_bind {A B} (m : GH A) (f : A → GH B) Q R :
  gpost m Q → (∀ a, Q a → gpost (f a) R) → gpost (se_bind m f) R.
Proof.
  intros Hm Hf w Hw. destruct (Hm w Hw) as [Hi HQ]. unfold se_bind. destruct (m w) as [w1 [a|e]]; cbn [fst snd] in *; [|by split].
  apply Hf; [by apply HQ|done].
Qed.

Lemma gpost_weaken {A} (m : GH A) (Q R : A → Prop) : (∀ a, Q a → R a) → gpost m Q → gpost m R.
Proof. intros HQR Hm w Hw. destruct (Hm w Hw) as [Hi HQ]. split; [done|]. intros a Ha. by apply HQR, HQ. Qed.

(** A program that looks at the world it starts in. *)
Lemma gpost_here {A} (m : GW → GH A) Q : (∀ w, gpost (m w) Q) → gpost (λ w, m w w) Q.
Proof. intros Hm w. apply Hm. Qed.

Lemma quiet_bind {A B} (m : GH A) (f : A → GH B) : quiet m → (∀ a, quiet (f a)) → quiet (se_bind m f).
Proof. intros Hm Hf. eapply gpost_bind; [exact Hm|]. intros a _. apply Hf. Qed.

Lemma quiet_ret {A} (a : A) : quiet (se_ret a).
Proof. by apply gpost_ret. Qed.

Lemma quiet_gsrv {A} (m : H A) : quiet (on_gsrv m).
Proof. intros w Hw. unfold on_gsrv. destruct (m w.1) as [s r]. by split. Qed.

Lemma quiet_store {A} (m : GS A) : still m → quiet (on_store m).
Proof.
  intros Hm w Hw. unfold on_store. specialize (Hm w.2). destruct (m w.2) as [g r]. cbn [fst snd] in *.
  split; [by eapply ginv_calm|done].
Qed.

Lemma gpost_store {A} (m : GS A) (Q : result StoreErr A → Prop) :
  (∀ s, ginv s → spost k M t0 m s (λ a _, Q (Ok a))) → (∀ e, Q (Err e)) → gpost (on_store m) Q.
Proof.
  intros Hm He w Hw. unfold on_store. destruct (Hm _ Hw) as [Hi HQ]. destruct (m w.2) as [g [a|e]]; cbn [fst snd] in *.
  - split; [done|]. intros ? [= <-]. by apply HQ.
  - split; [done|]. by intros ? [= <-].
Qed.

Lemma quiet_users {A} (m : AuthService.A A) : quiet (on_users m).
Proof.
  intros w Hw. unfold on_users. destruct (m (gs_acc w.2)) as [a r]. cbn. split; [|done].
  eapply ginv_calm; [apply calm_acc|done].
Qed.

Create HintDb quiet.
#[local] Hint Resolve quiet_ret quiet_bind quiet_gsrv quiet_store quiet_users : quiet.
#[local] Hint Extern 1 (still _) => auto with still : quiet.

Lemma quiet_refuse c code m : quiet (refuse_ E c code m).
Proof. apply quiet_gsrv. Qed.
Lemma quiet_answer c m : quiet (answer E c m).
Proof. apply quiet_gsrv. Qed.
Lemma quiet_lookup u : quiet (lookup_user N u).
Proof. apply quiet_users. Qed.
Lemma quiet_audit a b c d : quiet (audit N a b c d).
Proof. unfold audit. auto with quiet. Qed.
#[local] Hint Resolve quiet_refuse quiet_answer quiet_lookup quiet_audit : quiet.

Lemma quiet_notifyPermsInvalid r ids : quiet (notifyPermsInvalid E r ids).
Proof. intros w. by apply quiet_gsrv. Qed.

Lemma quiet_notifyGroupEvent u ev : quiet (notifyGroupEvent E u ev).
Proof.
  unfold notifyGroupEvent. apply quiet_bind; [apply quiet_gsrv|]. intros tc.
  apply quiet_bind; [destruct tc; auto with quiet|]. intros sent w. by apply quiet_gsrv.
Qed.

Lemma quiet_serverGroupAudience g : quiet (serverGroupAudience N g).
Proof. unfold serverGroupAudience, ListServerGroupMembers. auto with quiet. Qed.

Lemma quiet_channelGroupAudience g chs : quiet (channelGroupAudience N g chs).
Proof. induction chs; cbn [channelGroupAudience]; unfold ListChannelGroupMembers; auto 10 with quiet. Qed.

#[local] Hint Resolve quiet_notifyPermsInvalid quiet_notifyGroupEvent quiet_serverGroupAudience quiet_channelGroupAudience : quiet.

Lemma quiet_permAudience tier g : quiet (permAudience N tier g).
Proof.
  destruct tier; cbn [permAudience]; auto with quiet.
  - by intros w Hw.
  - apply (gpost_here (λ w, channelGroupAudience N (pt_GroupID g) (occupiedChannels (sv_state w.1)))). auto with quiet.
Qed.

Lemma quiet_invalidate r ids : quiet ids → quiet (invalidate_and_notify E r ids).
Proof. intros Hids. unfold invalidate_and_notify. auto with quiet. Qed.

Lemma quiet_perms_changed c a t d tier g : quiet (perms_changed E N c a t d tier g).
Proof. unfold perms_changed. apply quiet_bind; [apply quiet_audit|]. intros _. apply quiet_invalidate, quiet_permAudience. Qed.

#[local] Hint Resolve quiet_permAudience quiet_invalidate quiet_perms_changed : quiet.

(** ** The caller's cap *)

Definition capped (pc : permChecker) : Prop :=
  pc_admin pc = false ∧ ∀ key value grant, grantCapOk pc key value grant = true → allowed key value grant.

Lemma sourced_good t key p : good k M t0 t → sourced t key p → key ≠ PermissionKeyPermissionModifyPowerIgnore ∧ (key = k → Grant p ≤ M).
Proof.
  intros [Hi Hg _] (id & r & Hl & Hr & <- & ->). split; [by eapply Hi|]. intros Hk. by eapply Hg.
Qed.

Lemma capped_sourced t pc : good k M t0 t → tp_sourced t (pc_tp pc) → pc_admin pc = false → capped pc.
Proof.
  intros Ht Htp Ha. split; [done|]. intros key value grant. unfold grantCapOk, granted_, ResolveBool. rewrite Ha. cbn [orb].
  destruct (Resolve (pc_tp pc) PermissionKeyPermissionModifyPowerIgnore) as [[own tier]|e] eqn:Hig.
  { apply resolve_sourced with (t := t) in Hig; [|done]. by apply sourced_good in Hig as [? _]. }
  destruct (Resolve (pc_tp pc) key) as [[own tier]|] eqn:Hk; [|done].
  apply resolve_sourced with (t := t) in Hk; [|done]. apply sourced_good in Hk as [Hne Hle]; [|done].
  cbn. rewrite andb_true_iff, !Z.leb_le. intros [? ?]. split; [done|]. intros ->. specialize (Hle eq_refl). lia.
Qed.

Lemma failing_checker t st guest client pc :
  permCheckerFor {| dep_perms := Some failing_source; dep_state := st; dep_guest_group := guest |} client = Ok pc →
  tp_sourced t (pc_tp pc) ∧ (pc_admin pc = true → conn_isAdmin client = true).
Proof.
  unfold permCheckerFor, guestGroupSet. cbn. destruct (conn_userID client =? 0); [|done].
  destruct (negb _); [done|]. cbn. destruct (guest =? 0); [|done]. intros [= <-]. split; [apply tp_sourced_new|done].
Qed.

Lemma checker_capped client :
  cn_isAdmin client = false → gpost (checker E N client) (λ r, ∀ pc, r = Ok pc → capped pc).
Proof.
  intros Hc w Hw. split; [done|]. intros a [= <-] pc Hpc.
  assert (∃ t, good k M t0 t ∧ tp_sourced t (pc_tp pc) ∧ (pc_admin pc = true → cn_isAdmin client = true)) as (t & Ht & Htp & Ha).
  { unfold source_at in Hpc. destruct (ne_load_ok N (sv_loads w.1)).
    - exists (default (gs_tables w.2) ((gs_tables w.2 :: gs_past w.2) !! ne_stale N (sv_loads w.1))).
      split; [|exact (checker_sourced _ _ _ _ _ Hpc)]. apply (gi_good _ _ _ _ Hw).
      destruct (_ !! _) as [t|] eqn:Hl; cbn; [by eapply list_elem_of_lookup_2|apply elem_of_cons; by left].
    - exists (gs_tables w.2). split; [apply (gi_good _ _ _ _ Hw), elem_of_cons; by left|].
      exact (failing_checker _ _ _ _ _ Hpc). }
  eapply capped_sourced; [done..|]. destruct (pc_admin pc); [|done]. rewrite Hc in Ha. by specialize (Ha eq_refl).
Qed.

(** ** The handlers of a client that is not a server admin *)

Section client.
Context (client : Conn) (Hclient : cn_isAdmin client = false).

Lemma quiet_gated key kf : (∀ pc, capped pc → quiet (kf pc)) → quiet (gated E N client key kf).
Proof.
  intros Hk. unfold gated. eapply gpost_bind; [by apply checker_capped|]. intros [pc|e] Hpc; [|apply quiet_refuse].
  destruct (negb _); [apply quiet_refuse|]. by apply Hk, Hpc.
Qed.

Lemma quiet_token_gated key kf : (∀ pc, quiet (kf pc)) → quiet (token_gated E N client key kf).
Proof.
  intros Hk. unfold token_gated. eapply gpost_bind; [by apply checker_capped|]. intros [pc|e] _; [|apply quiet_refuse].
  destruct (granted_ pc key); [apply Hk|apply quiet_refuse].
Qed.

(** A case analysis on what the handler looks at. *)
#[local] Ltac look :=
  match goal with
  | |- gpost (match ?x with _ => _ end) _ => destruct x
  | |- gpost (if ?x then _ else _) _ => destruct x
  | |- gpost (se_bind _ _) _ => apply quiet_bind; [|intros ?]
  | |- gpost (gated _ _ _ _ _) _ => apply quiet_gated; intros ? ?
  | |- gpost (token_gated _ _ _ _ _) _ => apply quiet_token_gated; intros ?
  end.
#[local] Ltac steps := repeat first [progress auto 2 with quiet|look].

Lemma quiet_answer_groups t : quiet (answer_groups E N client t).
Proof. unfold answer_groups, ListGroups. steps. Qed.
#[local] Hint Resolve quiet_answer_groups : quiet.

Lemma quiet_GroupList msg : quiet (handleGroupList E N client msg).
Proof. unfold handleGroupList. steps. Qed.

Lemma quiet_GroupCreate msg : quiet (handleGroupCreate E N client msg).
Proof. unfold handleGroupCreate. steps. Qed.

Lemma quiet_GroupRename msg : quiet (handleGroupRename E N client msg).
Proof. unfold handleGroupRename. steps. Qed.

Lemma quiet_GroupEdit msg : quiet (handleGroupEdit E N client msg).
Proof. unfold handleGroupEdit. steps. Qed.

Lemma quiet_assign_target msg expiresIn : quiet (assign_target E N client msg expiresIn).
Proof. unfold assign_target, promote_all. steps. Qed.

Lemma quiet_assign_membership msg userID expiresIn : quiet (assign_membership E N msg userID expiresIn).
Proof. unfold assign_membership. steps. Qed.

Lemma quiet_assigned msg u p : quiet (assigned E N client msg u p).
Proof. unfold assigned, announce_assignment. steps. Qed.
#[local] Hint Resolve quiet_assign_target quiet_assign_membership quiet_assigned : quiet.

Lemma quiet_GroupAssign msg : quiet (handleGroupAssign E N client msg).
Proof. unfold handleGroupAssign. steps. Qed.

Lemma quiet_GroupUnassign msg : quiet (handleGroupUnassign E N client msg).
Proof. unfold handleGroupUnassign. steps. Qed.

Lemma quiet_GroupMembers msg : quiet (handleGroupMembers E N client msg).
Proof. unfold handleGroupMembers, ListChannelGroupMembers, ListServerGroupMembers. steps. Qed.

Lemma quiet_PermTrace msg : quiet (handlePermTrace E N client msg).
Proof. unfold handlePermTrace. steps. by intros w Hw. Qed.

Lemma quiet_AuditLog msg : quiet (handleAuditLog E N client msg).
Proof. unfold handleAuditLog, AuditList. steps. Qed.

Lemma quiet_TokenUse msg : quiet (handleTokenUse E N client msg).
Proof. unfold handleTokenUse, token_used. steps. Qed.

Lemma quiet_token_entries names rows : quiet (token_entries N names rows).
Proof. revert names. induction rows as [|[i t] rows IH]; intros names; cbn [token_entries]; steps. Qed.

Lemma quiet_tokensResponse : quiet (tokensResponse N).
Proof. pose proof quiet_token_entries. unfold tokensResponse, ListTokens. steps. Qed.

Lemma quiet_token_group g : quiet (token_group N g).
Proof. unfold token_group. steps. Qed.
#[local] Hint Resolve quiet_tokensResponse quiet_token_group : quiet.

Lemma quiet_TokenList d : quiet (handleTokenList E N client d).
Proof. unfold handleTokenList. steps. Qed.

Lemma quiet_TokenAdd msg : quiet (handleTokenAdd E N client msg).
Proof.
  unfold handleTokenAdd. steps.
  intros w. refine (quiet_store _ _ w). auto with still.
Qed.

Lemma quiet_TokenDelete msg : quiet (handleTokenDelete E N client msg).
Proof. unfold handleTokenDelete. steps. Qed.

Lemma quiet_ServerAdmins d : quiet (handleServerAdminList E N client d).
Proof. unfold handleServerAdminList, ListServerAdmins. steps. Qed.

(** *** Writes of permission entries *)

Lemma quiet_permTarget tier u g c : quiet (permTarget_ N tier u g c).
Proof. unfold permTarget_. steps. Qed.

Lemma quiet_permCopyTarget kind id c : quiet (permCopyTarget N kind id c).
Proof. unfold permCopyTarget. steps. Qed.

Lemma quiet_currentPerms pc tier g : quiet (currentPerms N pc tier g).
Proof. unfold currentPerms, ListPermissions. steps. Qed.
#[local] Hint Resolve quiet_permTarget quiet_permCopyTarget quiet_currentPerms : quiet.

Lemma capWrite_allowed pc current key value grant :
  capped pc → grantCapOkWrite pc current key value grant = true → allowed key value grant.
Proof.
  intros [_ Hc]. unfold grantCapOkWrite. destruct (grantCapOk pc key value grant) eqn:Hg; [|done]. intros _. by apply Hc.
Qed.

Lemma quiet_SetPermission tier g key value grant skip negate :
  allowed key value grant → quiet (on_store (SetPermission (ne_db N) (ne_dbclock N) tier g key value grant skip negate)).
Proof. intros Ha. apply gpost_store; [|done]. intros s Hs. by apply spost_SetPermission. Qed.

Lemma quiet_UnsetPermission tier g key : quiet (on_store (UnsetPermission (ne_db N) (ne_dbclock N) tier g key)).
Proof. apply gpost_store; [|done]. intros s Hs. by apply spost_UnsetPermission. Qed.

Lemma quiet_CopyPermissions tier g remove es :
  Forall (λ e, allowed (en_Key e) (en_Value e) (en_Grant e)) es →
  quiet (on_store (CopyPermissions (ne_db N) (ne_dbclock N) tier g remove es)).
Proof. intros Ha. apply gpost_store; [|done]. intros s Hs. by apply spost_CopyPermissions. Qed.
#[local] Hint Resolve quiet_SetPermission quiet_UnsetPermission quiet_CopyPermissions : quiet.

Lemma quiet_PermSet msg : quiet (handlePermSet E N client msg).
Proof.
  unfold handlePermSet. destruct msg as [msg|]; [|apply quiet_refuse]. apply quiet_gated. intros pc Hpc.
  apply quiet_bind; [apply quiet_permTarget|]. intros [[tier g]|]; [|apply quiet_refuse].
  apply quiet_bind; [apply quiet_currentPerms|]. intros [current|]; [|apply quiet_refuse].
  destruct (grantCapOkWrite _ _ _ _ _) eqn:Hcap; [|apply quiet_refuse]. apply capWrite_allowed in Hcap; [|done]. cbn [negb]. steps.
Qed.

Lemma quiet_PermList msg : quiet (handlePermList E N client msg).
Proof. unfold handlePermList, ListPermissions. steps. Qed.

Lemma quiet_PermUnset msg : quiet (handlePermUnset E N client msg).
Proof. unfold handlePermUnset. steps. Qed.

(** What a check of every entry, stopping at the first that fails, found. *)
Lemma none_refused {A} (f : A → bool) l : head (filter (λ x, f x = false) l) = None → Forall (λ x, f x = true) l.
Proof.
  rewrite head_None. intros Hnil. apply Forall_forall. intros x Hx. destruct (f x) eqn:Hf; [done|].
  assert (x ∈ filter (λ x, f x = false) l) as Hin by (by apply list_elem_of_filter). rewrite Hnil in Hin. by apply elem_of_nil in Hin.
Qed.

Lemma quiet_doPermCopyLocked pc ft fg tt tg replace :
  capped pc → quiet (doPermCopyLocked N pc ft fg tt tg replace).
Proof.
  intros Hpc. unfold doPermCopyLocked. apply quiet_bind; [unfold ListPermissions; auto with quiet|]. intros [src|]; [|apply quiet_ret].
  apply quiet_bind; [unfold ListPermissions; auto with quiet|]. intros [dst|]; [|apply quiet_ret].
  destruct (head _) eqn:Hh; [apply quiet_ret|].
  apply (none_refused (λ e, grantCapOkWrite pc (by_key dst) (en_Key e) (en_Value e) (en_Grant e))) in Hh.
  assert (Forall (λ e, allowed (en_Key e) (en_Value e) (en_Grant e)) src).
  { eapply Forall_impl; [exact Hh|]. intros e He. exact (capWrite_allowed _ _ _ _ _ Hpc He). }
  destruct (if replace : bool then _ else _); [|apply quiet_ret]. steps.
Qed.
#[local] Hint Resolve quiet_doPermCopyLocked : quiet.

Lemma quiet_PermCopy msg : quiet (handlePermCopy E N client msg).
Proof. unfold handlePermCopy. steps. Qed.

Lemma quiet_write_template tier g entries :
  Forall (λ x, allowed x.1 (tp_Value x.2) (tp_Grant x.2)) entries → quiet (write_template N tier g entries).
Proof. induction 1 as [|[key e] entries Ha _ IH]; cbn [write_template]; steps. Qed.
#[local] Hint Resolve quiet_write_template : quiet.

Lemma quiet_PermTemplate msg : quiet (handlePermTemplateApply E N client msg).
Proof.
  unfold handlePermTemplateApply. destruct msg as [msg|]; [|apply quiet_refuse].
  destruct (permTemplates _) as [tmpl|]; [|apply quiet_refuse]. apply quiet_gated. intros pc Hpc.
  apply quiet_bind; [apply quiet_permTarget|]. intros [[tier g]|]; [|apply quiet_refuse].
  destruct (negb _); [apply quiet_refuse|].
  apply quiet_bind; [apply quiet_currentPerms|]. intros [current|]; [|apply quiet_refuse].
  destruct (head _) as [[key e]|] eqn:Hh; [apply quiet_refuse|].
  apply (none_refused (λ x, grantCapOkWrite pc current x.1 (tp_Value x.2) (tp_Grant x.2))) in Hh.
  assert (Forall (λ x, allowed x.1 (tp_Value x.2) (tp_Grant x.2)) (range tmpl)).
  { eapply Forall_impl; [exact Hh|]. intros x Hx. exact (capWrite_allowed _ _ _ _ _ Hpc Hx). }
  steps.
Qed.

#[local] Hint Resolve quiet_GroupList quiet_GroupCreate quiet_GroupRename quiet_GroupEdit quiet_GroupAssign quiet_GroupUnassign
  quiet_GroupMembers quiet_PermSet quiet_PermList quiet_PermUnset quiet_PermCopy quiet_PermTemplate quiet_PermTrace quiet_AuditLog
  quiet_TokenUse quiet_TokenList quiet_TokenAdd quiet_TokenDelete quiet_ServerAdmins : quiet.

Lemma quiet_admin_handler q : quiet (admin_handler E N client q).
Proof. destruct q; cbn [admin_handler]; auto 1 with quiet. Qed.

Lemma quiet_reap_each pairs : quiet (reap_each E N pairs).
Proof. induction pairs as [|[u g] pairs IH]; cbn [reap_each]; unfold NotifyGroupExpired; steps. Qed.
#[local] Hint Resolve quiet_reap_each : quiet.

Lemma quiet_ReapExpiredGroups : quiet (ReapExpiredGroups E N).
Proof. unfold ReapExpiredGroups. steps. Qed.

End client.
End cap.
