(* ===== verification/GroupProps.v ===== *)
(** * What group and permission administration promises *)

From S2P Require Import Prelude Wire GoState Permissions PermLoader PermCache StateManager PermCheck ChannelManager ChatKeys ChatText Passwords ServerWorld ChatScope ChatRelay AuthService GroupStore GroupAdmin ClientMoves ChatScopeProps GroupSafety GroupCap.

(** ** Histories of requests *)

Inductive admin_op :=
| OpRequest (client : Conn) (q : admin_request)
| OpReap.

Definition run_op `{!∀ V, MapRange Z V, !∀ V, MapRange string V} (E : Env) (N : GroupEnv) (w : GW) (op : admin_op) : GW :=
  match op with
  | OpRequest client q => (admin_handler E N client q w).1
  | OpReap => (ReapExpiredGroups E N w).1
  end.

Definition run_ops `{!∀ V, MapRange Z V, !∀ V, MapRange string V} (E : Env) (N : GroupEnv) (ops : list admin_op) (w : GW) : GW :=
  foldl (run_op E N) w ops.

(** Ids are given out in order, and nothing has been read from tables of before. *)
Record booted (s : GStore) : Prop := {
  bo_past : gs_past s = [];
  bo_rows id : is_Some (t_permissions (gs_tables s) !! id) → id < gs_seq s;
  bo_links id : linked_any id (gs_tables s) → id < gs_seq s;
}.

Lemma booted_ginv k M s :
  booted s →
  (∀ r, row_linked (gs_tables s) r → row_key r ≠ PermissionKeyPermissionModifyPowerIgnore ∧ (row_key r = k → row_grant r ≤ M)) →
  ginv k M (gs_tables s) s.
Proof.
  intros [Hp Hr Hl] Hin. split; [|done..]. rewrite Hp. intros t ->%list_elem_of_singleton. split.
  - intros id r ? ?. apply Hin. by exists id.
  - intros id r ? ? ?. apply Hin; [by exists id|done].
  - intros tier g r ? ?. by left.
Qed.


(** ** What setting an entry leaves behind *)

(** The columns of the junction table of a tier are those of the same target. *)
Definition same_target (tier : PermTier) (g : PermTarget) (tier' : PermTier) (g' : PermTarget) : Prop :=
  tier = tier' ∧
  match tier with
  | PermTierServerGroup | PermTierChannelGroup => pt_GroupID g = pt_GroupID g'
  | PermTierClient => pt_UserID g = pt_UserID g'
  | PermTierChannelClient => pt_UserID g = pt_UserID g' ∧ pt_ChannelID g = pt_ChannelID g'
  | PermTierChannel => pt_ChannelID g = pt_ChannelID g'
  end.

(** A junction table: the second columns of the rows of a target. *)
Lemma links_without {A} `{!EqDecision A} (a a' : A) (d : Z → bool) (l : list (A * Z)) q :
  q ∈ (snd <$> filter (λ r, r.1 = a') (filter (λ r, ¬ (r.1 = a ∧ d r.2 = true)) l)) ↔
  q ∈ (snd <$> filter (λ r, r.1 = a') l) ∧ ¬ (a = a' ∧ d q = true).
Proof.
  rewrite !list_elem_of_fmap. split.
  - intros ([b x] & -> & (Ha & Hd & Hin)%list_elem_of_filter_2). cbn in *. subst b. split; [|naive_solver].
    exists (a', x). split; [done|]. by apply list_elem_of_filter.
  - intros (([b x] & -> & (Ha & Hin)%list_elem_of_filter) & Hn). cbn in *. subst b. exists (a', x). split; [done|].
    apply list_elem_of_filter. split; [done|]. apply list_elem_of_filter. cbn. split; [naive_solver|done].
Qed.

Lemma links_with {A} `{!EqDecision A} (a a' : A) p (l : list (A * Z)) q :
  q ∈ (snd <$> filter (λ r, r.1 = a') (insert_new (a, p) l)) ↔ q ∈ (snd <$> filter (λ r, r.1 = a') l) ∨ (a = a' ∧ q = p).
Proof.
  rewrite !list_elem_of_fmap. split.
  - intros ([b x] & -> & (Ha & Hin)%list_elem_of_filter). cbn in *. subst b.
    apply elem_of_insert_new in Hin as [[= <- <-]|Hin]; [by right|left]. exists (a', x). split; [done|]. by apply list_elem_of_filter.
  - intros [([b x] & -> & (Ha & Hin)%list_elem_of_filter)|[-> ->]]; eexists (a', _); (split; [done|]); apply list_elem_of_filter;
      (split; [done|]); apply elem_of_insert_new; [right; cbn in *; by subst b|by left].
Qed.

Lemma linked_unlink tier g d tier' g' t q :
  q ∈ linked tier' g' (unlink tier g d t) ↔ q ∈ linked tier' g' t ∧ ¬ (same_target tier g tier' g' ∧ d q = true).
Proof.
  unfold same_target.
  destruct tier, tier'; cbn; try (split; [intros ?; split; [done|by intros [[? _] _]]|by intros [? _]]);
    rewrite links_without, ?pair_eq; intuition congruence.
Qed.

Lemma linked_link tier g p tier' g' t q :
  q ∈ linked tier' g' (link tier g p t) ↔ q ∈ linked tier' g' t ∨ (same_target tier g tier' g' ∧ q = p).
Proof.
  unfold same_target. destruct tier, tier'; cbn; try (split; [by left|by intros [?|[[? _] _]]]);
    rewrite links_with, ?pair_eq; intuition congruence.
Qed.

Definition has_entry (s : GStore) (tier : PermTier) (g : PermTarget) (r : permRow) : Prop := r ∈ rows_of tier g (gs_tables s).

Lemma has_entry_unlink tier g key s tier' g' r :
  has_entry (unlink_key tier g key s) tier' g' r ↔
  has_entry s tier' g' r ∧ ¬ (same_target tier g tier' g' ∧ row_key r = key).
Proof.
  unfold has_entry, rows_of, unlink_key. cbn. rewrite unlink_permissions, !list_elem_of_omap. setoid_rewrite linked_unlink.
  assert (∀ q, t_permissions (gs_tables s) !! q = Some r → GroupStore.has_key key (gs_tables s) q = true ↔ row_key r = key) as Hk.
  { intros q Hq. unfold GroupStore.has_key. rewrite Hq. apply bool_decide_eq_true. }
  split; [intros (q & (? & Hn) & Hq)|intros ((q & ? & Hq) & Hn)]; specialize (Hk q Hq); [split; [by exists q|]|exists q]; rewrite ?Hk in *; auto.
Qed.

Lemma has_entry_link tier g p s s' r0 tier' g' r :
  link_row tier g p s = Ok s' → t_permissions (gs_tables s) !! p = Some r0 →
  has_entry s' tier' g' r ↔ has_entry s tier' g' r ∨ (same_target tier g tier' g' ∧ r = r0).
Proof.
  unfold has_entry, link_row. destruct (target_exists tier g s); [|done]. intros [= <-] Hp. unfold rows_of. cbn.
  rewrite link_permissions, !list_elem_of_omap. setoid_rewrite linked_link.
  split; [intros (q & [?|[? ->]] & Hq)|intros [(q & ? & Hq)|[? ->]]]; [left; by exists q|right; split; [done|congruence]|exists q; auto|exists p; auto].
Qed.

(** No link is to an id that is still to be given out. *)
Definition no_dangling (s : GStore) : Prop := ∀ id, linked_any id (gs_tables s) → id < gs_seq s.

Lemma has_entry_insert r0 s tier g r : no_dangling s → has_entry (insert_row r0 s).1 tier g r ↔ has_entry s tier g r.
Proof.
  intros Hf. unfold has_entry, rows_of. cbn. rewrite !list_elem_of_omap.
  assert (linked tier g (with_permissions <[gs_seq s:=r0]> (gs_tables s)) = linked tier g (gs_tables s)) as -> by by destruct tier.
  assert (∀ q, q ∈ linked tier g (gs_tables s) → <[gs_seq s := r0]> (t_permissions (gs_tables s)) !! q = t_permissions (gs_tables s) !! q) as Hq.
  { intros q Hq%linked_linked_any%Hf. rewrite lookup_insert_ne by lia. done. }
  split; intros (q & ? & Hl); exists q; (split; [done|]); [by rewrite <- Hq|by rewrite Hq].
Qed.

Section set.
Context (db : nat → dbOutcome) (now_db : nat → Z).

Definition same_entries (s s' : GStore) : Prop := ∀ tier g r, has_entry s' tier g r ↔ has_entry s tier g r.

Lemma upsert_outcome key value grant skip negate s s' res :
  no_dangling s → upsertPermissionRow db now_db key value grant skip negate s = (s', res) →
  same_entries s s' ∧ no_dangling s' ∧
  ∀ id, res = Ok id → t_permissions (gs_tables s') !! id = Some (row_of key value grant skip negate).
Proof.
  intros Hf. unfold upsertPermissionRow, se_bind, gstatement. set (r := row_of _ _ _ _ _).
  destruct (db (gs_calls s)); [|by intros [= <- <-]|].
  - destruct (_ || _); [by intros [= <- <-]|]. cbn [gs_tables tick_gcall].
    destruct (find_row r (gs_tables s)) as [id|] eqn:Hfind.
    { intros [= <- <-]. split_and!; [done|done|]. intros ? [= <-]. by apply find_row_lookup. }
    assert (∀ s0, gs_tables s0 = gs_tables s → gs_seq s0 = gs_seq s →
              same_entries s (insert_row r s0).1 ∧ no_dangling (insert_row r s0).1 ∧
              t_permissions (gs_tables (insert_row r s0).1) !! (insert_row r s0).2 = Some r) as Hins.
    { intros s0 Ht Hs. assert (no_dangling s0) as Hf0 by (unfold no_dangling; rewrite Ht, Hs; exact Hf). split_and!.
      - intros tier g x. rewrite has_entry_insert by done. unfold has_entry. by rewrite Ht.
      - intros id Hid. cbn. assert (id < gs_seq s0); [by apply Hf0|lia].
      - cbn. apply lookup_insert_eq. }
    destruct (db _); [|by intros [= <- <-]|].
    + intros [= <- <-]. destruct (Hins (tick_gcall (tick_gcall s))) as (? & ? & ?); [done..|]. split_and!; [done..|]. by intros ? [= <-].
    + intros [= <- <-]. by destruct (Hins (tick_gcall (tick_gcall s))) as (? & ? & ?).
  - destruct (_ || _); by intros [= <- <-].
Qed.
Lemma unlink_outcome tier g key s s' res :
  gupdate db now_db (unlink_key tier g key) s = (s', res) →
  t_permissions (gs_tables s') = t_permissions (gs_tables s) ∧
  (same_entries s s' ∧ res = Err ErrStoreDB ∨
   ∀ tier' g' r, has_entry s' tier' g' r ↔ has_entry s tier' g' r ∧ ¬ (same_target tier g tier' g' ∧ row_key r = key)).
Proof.
  unfold gupdate, gstatement. destruct (db _); intros [= <- <-]; (split; [apply unlink_permissions || done|]); [right|by left|right];
    intros tier' g' r; by rewrite has_entry_unlink.
Qed.

Lemma link_outcome tier g p r0 s s' res :
  t_permissions (gs_tables s) !! p = Some r0 →
  gstatement db now_db (λ _ s, let? s := link_row tier g p s in Ok (s, ())) s = (s', res) →
  same_entries s s' ∧ (∃ e, res = Err e) ∨
  ∀ tier' g' r, has_entry s' tier' g' r ↔ has_entry s tier' g' r ∨ (same_target tier g tier' g' ∧ r = r0).
Proof.
  intros Hp. unfold gstatement. destruct (db _); [|intros [= <- <-]; left; split; [done|by eexists]|];
    (destruct (link_row tier g p (tick_gcall s)) as [s1|e] eqn:Hl; cbn [result_bind];
     [intros [= <- <-]; right; intros tier' g' r; by rewrite (has_entry_link _ _ _ _ _ r0 _ _ _ Hl)
     |intros [= <- <-]; left; split; [done|by eexists]]).
Qed.

Lemma target_exists_unlink tier g key s tier' g' : target_exists tier' g' (unlink_key tier g key s) = target_exists tier' g' s.
Proof. unfold unlink_key. by destruct tier'; cbn; destruct tier. Qed.

Lemma SetPermission_succeeds tier g key value grant skip negate s :
  (∀ n, db n = DbOk) → int4 value = true → int4 grant = true → target_exists tier g s = true →
  (SetPermission db now_db tier g key value grant skip negate s).2 = Ok ().
Proof.
  intros Hdb Hv Hgr Ht.
  assert (∀ id s1, target_exists tier g s1 = true →
    (se_bind (gupdate db now_db (unlink_key tier g key))
       (λ _, gstatement db now_db (λ _ s, let? s := link_row tier g id s in Ok (s, ()))) s1).2 = Ok ()) as Hrest.
  { intros id s1 Hs1. unfold se_bind, gupdate, gstatement. rewrite Hdb. cbv iota beta. rewrite Hdb. unfold link_row.
    assert (target_exists tier g (tick_gcall (unlink_key tier g key (tick_gcall s1))) = true) as ->; [|done].
    rewrite <- Hs1. transitivity (target_exists tier g (unlink_key tier g key (tick_gcall s1))); [by destruct tier|].
    rewrite target_exists_unlink. by destruct tier. }
  unfold SetPermission, upsertPermissionRow, se_bind at 1 2, gstatement at 1. rewrite Hdb, Hv, Hgr. cbn [negb orb].
  destruct (find_row _ _); cbn [se_ret]; [by apply Hrest; destruct tier|].
  unfold gstatement at 1. rewrite Hdb. cbv iota beta. apply Hrest. by destruct tier.
Qed.

Lemma SetPermission_entries tier g key value grant skip negate s s' res :
  no_dangling s → SetPermission db now_db tier g key value grant skip negate s = (s', res) →
  let r0 := row_of key value grant skip negate in
  (∀ tier' g' r, ¬ (same_target tier g tier' g' ∧ row_key r = key) → has_entry s' tier' g' r ↔ has_entry s tier' g' r) ∧
  (res = Ok () → ∀ tier' g' r, same_target tier g tier' g' → row_key r = key → has_entry s' tier' g' r ↔ r = r0) ∧
  ((∀ r, row_key r = key → has_entry s' tier g r ↔ has_entry s tier g r) ∨
   (∀ r, row_key r = key → ¬ has_entry s' tier g r) ∨
   (∀ r, row_key r = key → has_entry s' tier g r ↔ r = r0)).
Proof.
  intros Hf. unfold SetPermission, se_bind at 1. destruct (upsertPermissionRow _ _ _ _ _ _ _ s) as [s1 [id|e]] eqn:Hu;
    apply upsert_outcome in Hu as (H1 & Hf1 & Hid); [|done| |done].
  2: { intros [= <- <-]. cbv zeta. split_and!; [intros ? ? ? _; apply H1|done|]. left. intros r _. apply H1. }
  specialize (Hid id eq_refl). unfold se_bind at 1.
  destruct (gupdate _ _ _ s1) as [s2 res2] eqn:Hun. apply unlink_outcome in Hun as [Hp [[H2 ->]|H2]].
  { intros [= <- <-]. split_and!; [intros; by rewrite (H2 _ _ _), (H1 _ _ _)|done|]. left. intros r _. by rewrite (H2 _ _ _), (H1 _ _ _). }
  assert (∀ tier' g' r, ¬ (same_target tier g tier' g' ∧ row_key r = key) → has_entry s2 tier' g' r ↔ has_entry s tier' g' r) as Hother.
  { intros tier' g' r Hn. rewrite H2, (H1 _ _ _). tauto. }
  assert (∀ r, row_key r = key → ¬ has_entry s2 tier g r) as Hnone.
  { intros r Hr. rewrite H2. intros [_ Hn]. apply Hn. split; [|done]. split; [done|]. by destruct tier. }
  destruct res2 as [[]|e]; [|intros [= <- <-]; split_and!; [done|done|auto]].
  intros Hl. rewrite <- Hp in Hid. apply (link_outcome _ _ _ _ _ _ _ Hid) in Hl as [[H3 [e ->]]|H3].
  - split_and!; [intros; by rewrite (H3 _ _ _), Hother|done|]. right; left. intros r Hr. rewrite (H3 _ _ _). by apply Hnone.
  - assert (∀ tier' g' r, same_target tier g tier' g' → row_key r = key → has_entry s' tier' g' r ↔ r = row_of key value grant skip negate) as Hnew.
    { intros tier' g' r Hsame Hr. rewrite H3, H2. tauto. }
    split_and!; [|auto|].
    + intros tier' g' r Hn. rewrite H3, Hother by done. split; [intros [?|[? ->]]; [done|]|by left]. by destruct Hn.
    + right; right. intros r Hr. apply Hnew; [|done]. split; [done|]. by destruct tier.
Qed.

(** C11: Setting a permission entry, whatever the database does in between: the entries
    of every other target and those of the target for other keys are what they were.
    On success the target has exactly the new entry for the key. On an error it has
    the entries for the key it had, or none, or the new one. A target that exists and
    values of 32 bits are set when no statement fails. *)
Theorem SetPermission_outcome tier g key value grant skip negate s s' res :
  no_dangling s → SetPermission db now_db tier g key value grant skip negate s = (s', res) →
  let r0 := row_of key value grant skip negate in
  (∀ tier' g' r, ¬ (same_target tier g tier' g' ∧ row_key r = key) → has_entry s' tier' g' r ↔ has_entry s tier' g' r) ∧
  (res = Ok () → ∀ tier' g' r, same_target tier g tier' g' → row_key r = key → has_entry s' tier' g' r ↔ r = r0) ∧
  ((∀ r, row_key r = key → has_entry s' tier g r ↔ has_entry s tier g r) ∨
   (∀ r, row_key r = key → ¬ has_entry s' tier g r) ∨
   (∀ r, row_key r = key → has_entry s' tier g r ↔ r = r0)) ∧
  ((∀ n, db n = DbOk) → int4 value = true → int4 grant = true → target_exists tier g s = true → res = Ok ()).
Proof.
  intros Hf Hset r0. destruct (SetPermission_entries _ _ _ _ _ _ _ _ _ _ Hf Hset) as (? & ? & ?). split_and!; [done..|].
  intros Hdb Hv Hgr Ht. pose proof (SetPermission_succeeds tier g key value grant skip negate s Hdb Hv Hgr Ht) as Hok.
  by rewrite Hset in Hok.
Qed.

End set.

(** ** Privilege tokens *)

Section redeem.
Context (db : nat → dbOutcome) (now_db : nat → Z).
Context `{!∀ V, MapRange Z V}.

Definition is_admin_of (s : GStore) (id : Z) : Prop := ∃ r, ac_users (gs_acc s) !! id = Some r ∧ ur_is_admin r = true.

(** What a redemption finds out about the account does not touch. *)
Record account_only (s s' : GStore) : Prop := {
  ao_tokens : gs_tokens s' = gs_tokens s;
  ao_tables : gs_tables s' = gs_tables s;
  ao_expires : gs_expires s' = gs_expires s;
  ao_groups : gs_serverGroups s' = gs_serverGroups s;
  ao_admins id : is_admin_of s' id → is_admin_of s id;
}.

Lemma account_only_refl s : account_only s s.
Proof. by split. Qed.

Lemma ensure_user_spec uid nick s s1 id ins :
  ensure_user uid nick s = Ok (s1, id, ins) →
  account_only s s1 ∧ ∃ r, ac_users (gs_acc s1) !! id = Some r ∧ ur_unique_id r = uid ∧ (ins = true → ur_password_hash r = None).
Proof.
  unfold ensure_user. destruct (find_user (by_unique_id uid) (gs_acc s)) as [[i r]|] eqn:Hf.
  - intros [= <- <- <-]. split; [apply account_only_refl|]. apply find_user_Some in Hf as [Hr Hu]. exists r.
    split_and!; [done|by apply bool_decide_eq_true in Hu|done].
  - case_bool_decide; [done|]. intros [= <- <- <-]. split.
    + split; [done..|]. intros i (r & Hr & Ha). exists r. split; [|done]. cbn in Hr.
      apply lookup_insert_Some in Hr as [[_ <-]|[_ ?]]; done.
    + eexists. cbn. rewrite lookup_insert_eq. split_and!; done.
Qed.

Lemma fill_nickname_spec id nick s s1 :
  fill_nickname id nick s = Ok s1 →
  account_only s s1 ∧ ∀ r, ac_users (gs_acc s) !! id = Some r →
    ∃ r', ac_users (gs_acc s1) !! id = Some r' ∧ ur_unique_id r' = ur_unique_id r ∧ ur_password_hash r' = ur_password_hash r.
Proof.
  unfold fill_nickname. destruct (ac_users (gs_acc s) !! id) as [r|] eqn:Hr; [|by intros [= <-]].
  case_bool_decide; [|intros [= <-]; split; [apply account_only_refl|]; intros ? [= <-]; eauto].
  destruct (_ && _); [done|]. intros [= <-]. split.
  - split; [done..|]. intros i (x & Hx & Ha). cbn in Hx. destruct (decide (i = id)) as [->|].
    + rewrite lookup_alter_eq, Hr in Hx. injection Hx as <-. by exists r.
    + rewrite lookup_alter_ne in Hx by done. by exists x.
  - intros ? [= <-]. cbn. rewrite lookup_alter_eq, Hr. by eexists.
Qed.

Lemma redeemer_spec u uid nick s s1 id p :
  redeemer u uid nick s = Ok (s1, id, p) →
  account_only s s1 ∧ (u ≠ 0 → s1 = s ∧ id = u) ∧
  (u = 0 → ∃ r, ac_users (gs_acc s1) !! id = Some r ∧ ur_unique_id r = uid ∧ default "" (ur_password_hash r) = "").
Proof.
  unfold redeemer. destruct (Z.eqb_spec u 0) as [->|Hu]; [|intros [= <- <- _]; split_and!; [apply account_only_refl|done..]].
  case_bool_decide; [done|]. destruct (ensure_user uid nick s) as [[[s2 i] ins]|] eqn:He; [|done].
  apply ensure_user_spec in He as [Ha (r & Hr & Huid & Hins)]. cbn [result_bind].
  destruct ins; cbn [result_bind negb andb].
  - intros [= <- <- _]. split_and!; [done..|]. intros _. exists r. split_and!; [done..|]. by rewrite Hins.
  - destruct (fill_nickname i nick s2) as [s3|] eqn:Hfill; [|done]. cbn [result_bind].
    apply fill_nickname_spec in Hfill as [Hb Hr3]. destruct (Hr3 r Hr) as (r3 & Hr3' & Hu3 & _).
    unfold credentials_of. rewrite Hr3'. cbn [fst]. case_bool_decide; [|done]. cbn [negb]. intros [= <- <- _]. split_and!; [|done|].
    + destruct Ha, Hb. split; [congruence..|]. eauto.
    + intros _. exists r3. split_and!; [done|congruence|done].
Qed.

Lemma find_token_Some key s tid t : find_token key s = Some (tid, t) → gs_tokens s !! tid = Some t ∧ tk_key t = key.
Proof.
  intros (Hk & Hin)%head_Some_elem_of%list_elem_of_filter. split; [by apply elem_of_map_to_list|done].
Qed.

(** What a redemption does when its commit is not lost. *)
Lemma redeem_outcome now key u uid nick s s' res :
  UseTokenForIdentity db now_db now key u uid nick s = (s', res) → db (gs_calls s) ≠ DbLost →
  match res with
  | Err _ => gs_tokens s' = gs_tokens s ∧ gs_acc s' = gs_acc s ∧ gs_tables s' = gs_tables s ∧ gs_expires s' = gs_expires s
  | Ok grant =>
      ∃ tid t usedBy, gs_tokens s !! tid = Some t ∧ tk_key t = key ∧ tk_uses t < tk_max_uses t ∧
        gs_tokens s' = <[tid := consume usedBy t]> (gs_tokens s) ∧ tg_GroupID grant = default 0 (tk_group_id t) ∧
        tg_Admin grant = bool_decide (tg_GroupID grant = 0) ∧
        (u ≠ 0 → tg_UserID grant = u) ∧
        (u = 0 → ∃ r, ac_users (gs_acc s') !! tg_UserID grant = Some r ∧ ur_unique_id r = uid ∧ default "" (ur_password_hash r) = "") ∧
        let members := t_server_group_members (gs_tables s) in
        let members' := t_server_group_members (gs_tables s') in
        if decide (tg_GroupID grant = 0) then
          members' = members ∧ (∀ id, is_admin_of s' id → is_admin_of s id ∨ id = tg_UserID grant)
        else
          (∀ m, m ∈ members' ↔ m ∈ members ∨ m = (tg_UserID grant, tg_GroupID grant)) ∧ (∀ id, is_admin_of s' id → is_admin_of s id)
  end.
Proof.
  unfold UseTokenForIdentity, gstatement. intros Hs Hdb. destruct (db (gs_calls s)); [|injection Hs as <- <-; done|done].
  destruct (find_token key (tick_gcall s)) as [[tid t]|] eqn:Hfind; [|injection Hs as <- <-; done].
  apply find_token_Some in Hfind as [Htok Hkey]. cbn [gs_tokens tick_gcall] in Htok.
  destruct (tk_max_uses t <=? tk_uses t) eqn:Hmax; [injection Hs as <- <-; done|]. apply Z.leb_gt in Hmax.
  destruct (redeemer u uid nick (tick_gcall s)) as [[[s1 id] p]|] eqn:Hr; cbn [result_bind] in Hs; [|injection Hs as <- <-; done].
  apply redeemer_spec in Hr as ([Ht Hta He Hg Hadm] & Hu & Hguest). cbn in Ht, Hta, He, Hg.
  set (by_ := match ac_users (gs_acc s1) !! id with Some r => ur_unique_id r | None => "" end) in *.
  set (s2 := set_tokens (alter (consume by_) tid) s1) in *.
  assert (gs_tokens s2 = <[tid := consume by_ t]> (gs_tokens s)) as Htok2.
  { cbn. rewrite Ht. apply map_eq. intros i. destruct (decide (i = tid)) as [->|].
    - by rewrite lookup_alter_eq, lookup_insert_eq, Htok.
    - by rewrite lookup_alter_ne, lookup_insert_ne. }
  assert (∀ i, is_admin_of s2 i → is_admin_of s i) as Hadm2 by (intros i Hi; apply (Hadm i), Hi).
  destruct (decide (default 0 (tk_group_id t) = 0)) as [Hz|Hz].
  - set (grant := {| tg_UserID := id; tg_GroupID := 0; tg_Admin := true; tg_Promoted := p |}).
    assert ((s', res) = (set_gacc (set_users (alter make_admin id) (gs_acc s2)) s2, Ok grant)) as [= -> ->].
    { rewrite <- Hs. destruct (tk_group_id t) as [g|]; cbn in Hz; [|done]. by rewrite Hz. }
    exists tid, t, by_. split_and!; [done..|naive_solver| |].
    + intros Hu0. destruct (Hguest Hu0) as (r & Hr & Huid & Hh). exists (make_admin r). cbn.
      by rewrite lookup_alter_eq, Hr.
    + cbn. split; [by rewrite Hta|]. intros i (r & Hr & Ha). cbn in Hr. destruct (decide (i = id)) as [->|]; [by right|left].
      rewrite lookup_alter_ne in Hr by done. apply Hadm2. by exists r.
  - destruct (tk_group_id t) as [g|] eqn:Hg0; [|done]. cbn in Hz. destruct (Z.eqb_spec g 0); [done|].
    destruct (restore_member id g now s2) as [s3|] eqn:Hm; cbn [result_bind] in Hs; [|by injection Hs as <- <-].
    injection Hs as <- <-. exists tid, t, by_.
    assert (gs_tokens s3 = gs_tokens s2 ∧ gs_acc s3 = gs_acc s2 ∧
            ∀ m, m ∈ t_server_group_members (gs_tables s3) ↔ m ∈ t_server_group_members (gs_tables s) ∨ m = (id, g)) as (-> & Hacc & Hmem).
    { assert (t_server_group_members (gs_tables s2) = t_server_group_members (gs_tables s)) as Hm2 by (cbn; by rewrite Hta).
      revert Hm. unfold restore_member. destruct (_ && _); [|done]. case_decide as Hin; rewrite Hm2 in Hin.
      - destruct (gs_expires s2 !! _); [destruct (_ <=? _)|]; intros [= <-]; (split_and!; [done..|]); cbn; rewrite Hta;
          naive_solver.
      - intros [= <-]. split_and!; [done..|]. cbn. rewrite Hta. intros m. rewrite elem_of_app, list_elem_of_singleton. tauto. }
    split_and!; [done..|by rewrite Hg0| |naive_solver|by rewrite Hacc|].
    + cbn. by rewrite bool_decide_eq_false_2.
    + cbn [tg_GroupID tg_UserID]. rewrite decide_False by done. split; [done|]. intros i (r & Hr & Ha). rewrite Hacc in Hr.
      apply Hadm2. by exists r.
Qed.
(** A lost commit answer is a commit. *)
Lemma redeem_lost now key u uid nick s :
  db (gs_calls s) = DbLost →
  UseTokenForIdentity db now_db now key u uid nick s =
    ((UseTokenForIdentity (λ _, DbOk) now_db now key u uid nick s).1, Err ErrStoreDB).
Proof.
  intros Hdb. unfold UseTokenForIdentity, gstatement. rewrite Hdb. cbv zeta.
  match goal with |- match ?m with Ok _ => _ | Err _ => _ end = _ => destruct m as [[s1 g]|e] end; done.
Qed.

Definition token_keys_unique (s : GStore) : Prop :=
  ∀ i j t u, gs_tokens s !! i = Some t → gs_tokens s !! j = Some u → tk_key t = tk_key u → i = j.

Definition uses_left (key : string) (s : GStore) : Z :=
  match find_token key s with Some (_, t) => tk_max_uses t - tk_uses t | None => 0 end.

Lemma find_token_unique s tid t : token_keys_unique s → gs_tokens s !! tid = Some t → find_token (tk_key t) s = Some (tid, t).
Proof.
  intros Hu Ht. destruct (find_token (tk_key t) s) as [[i x]|] eqn:Hf.
  - apply find_token_Some in Hf as [Hx Hk]. pose proof (Hu _ _ _ _ Hx Ht Hk). by simplify_eq.
  - unfold find_token in Hf. apply head_None in Hf.
    assert ((tid, t) ∈ filter (λ r, tk_key r.2 = tk_key t) (map_to_list (gs_tokens s))) as Hin.
    { apply list_elem_of_filter. split; [done|]. by apply elem_of_map_to_list. }
    rewrite Hf in Hin. by apply elem_of_nil in Hin.
Qed.

Lemma find_token_same key s s' : gs_tokens s' = gs_tokens s → find_token key s' = find_token key s.
Proof. unfold find_token. by intros ->. Qed.

Lemma uses_left_consumed s s' tid t by_ key :
  token_keys_unique s → gs_tokens s !! tid = Some t → gs_tokens s' = <[tid := consume by_ t]> (gs_tokens s) →
  token_keys_unique s' ∧ uses_left key s' = uses_left key s - (if decide (tk_key t = key) then 1 else 0).
Proof.
  intros Hu Ht Hs'.
  assert (∀ i x, gs_tokens s' !! i = Some x → ∃ y, gs_tokens s !! i = Some y ∧ tk_key y = tk_key x ∧
            tk_max_uses x - tk_uses x = tk_max_uses y - tk_uses y - (if decide (i = tid) then 1 else 0)) as Hback.
  { intros i x. rewrite Hs'. intros [[<- <-]|[Hne Hx]]%lookup_insert_Some.
    - exists t. rewrite decide_True by done. split_and!; [done..|cbn; lia].
    - exists x. rewrite decide_False by done. split_and!; [done..|lia]. }
  assert (token_keys_unique s') as Hu'.
  { intros i j x y (x0 & Hx & Hkx & _)%Hback (y0 & Hy & Hky & _)%Hback Hk. eapply Hu; [done..|congruence]. }
  split; [done|]. unfold uses_left. destruct (find_token key s') as [[i x]|] eqn:Hf.
  - apply find_token_Some in Hf as [Hx <-]. destruct (Hback _ _ Hx) as (y & Hy & Hky & Hd). rewrite <- Hky, (find_token_unique s i y Hu Hy).
    rewrite Hd. f_equal. destruct (decide (i = tid)) as [->|Hne].
    + simplify_eq. by rewrite decide_True.
    + rewrite decide_False; [done|]. intros Hk. apply Hne. by eapply Hu.
  - destruct (find_token key s) as [[i x]|] eqn:Hf0.
    + exfalso. apply find_token_Some in Hf0 as [Hx <-].
      assert (∃ x', gs_tokens s' !! i = Some x' ∧ tk_key x' = tk_key x) as (x' & Hx' & Hk).
      { rewrite Hs'. destruct (decide (i = tid)) as [->|]; [|rewrite lookup_insert_ne by done; by exists x].
        rewrite lookup_insert_eq. eexists. split; [done|]. by simplify_eq/=. }
      rewrite <- Hk, (find_token_unique s' i x' Hu' Hx') in Hf. done.
    + rewrite decide_False; [lia|]. intros <-. by rewrite (find_token_unique s tid t Hu Ht) in Hf0.
Qed.

Record attempt := { at_now : Z; at_key : string; at_userID : Z; at_uniqueID : string; at_nickname : string }.

(** Attempts one after the other, and the keys of those that were answered with a grant. *)
Fixpoint redeem_all (attempts : list attempt) (s : GStore) : GStore * list string :=
  match attempts with
  | [] => (s, [])
  | a :: attempts =>
      let '(s, r) := UseTokenForIdentity db now_db (at_now a) (at_key a) (at_userID a) (at_uniqueID a) (at_nickname a) s in
      let '(s, keys) := redeem_all attempts s in
      (s, match r with Ok _ => at_key a :: keys | Err _ => keys end)
  end.

End redeem.

Section bound.
Context (db : nat → dbOutcome) (now_db : nat → Z).
Context `{!∀ V, MapRange Z V}.

Lemma redeem_step now key u uid nick s s' res key' :
  token_keys_unique s → UseTokenForIdentity db now_db now key u uid nick s = (s', res) →
  token_keys_unique s' ∧ uses_left key' s' ≤ uses_left key' s ∧
  match res with Ok _ => key = key' → 0 ≤ uses_left key' s' ∧ uses_left key' s' = uses_left key' s - 1 | Err _ => True end.
Proof.
  intros Hu Hs.
  assert (∃ db' res', db' (gs_calls s) ≠ DbLost ∧ UseTokenForIdentity db' now_db now key u uid nick s = (s', res') ∧
            (res' = res ∨ ∃ e, res = Err e)) as (db' & res' & Hdb' & Hs' & Hres).
  { destruct (db (gs_calls s)) eqn:Hdb; [exists db, res; rewrite Hdb; auto|exists db, res; rewrite Hdb; auto|].
    rewrite redeem_lost in Hs by done. injection Hs as Hs <-.
    exists (λ _, DbOk), (UseTokenForIdentity (λ _, DbOk) now_db now key u uid nick s).2.
    rewrite <- Hs, <- surjective_pairing. eauto. }
  apply redeem_outcome in Hs'; [|done]. destruct res' as [grant|e'].
  - destruct Hs' as (tid & t & by_ & Ht & Hk & Hlt & Htok & _).
    destruct (uses_left_consumed s s' tid t by_ key' Hu Ht Htok) as [Hu' Hl]. split; [done|]. rewrite Hl.
    destruct (decide (tk_key t = key')) as [Hkk|]; (split; [lia|]); [|destruct res; naive_solver].
    destruct res; [|done]. intros _. assert (uses_left key' s = tk_max_uses t - tk_uses t); [|lia].
    unfold uses_left. by rewrite <- Hkk, (find_token_unique s tid t).
  - destruct Hs' as [Htok _]. assert (uses_left key' s' = uses_left key' s) as Hl by (unfold uses_left; by rewrite (find_token_same _ s s')).
    split_and!; [unfold token_keys_unique; by rewrite Htok|lia|]. destruct Hres as [<-|[e ->]]; done.
Qed.

(** C10: A token is good for its uses and no more: however many clients redeem it, in
    whatever order and with commit answers lost, the redemptions that are granted for
    a key are at most the uses its token had left. *)
Theorem redemptions_bounded key attempts s :
  token_keys_unique s →
  Z.of_nat (length (filter (λ k, k = key) (redeem_all db now_db attempts s).2)) ≤ Z.max 0 (uses_left key s).
Proof.
  revert s. induction attempts as [|a attempts IH]; intros s Hu; [cbn; lia|]. cbn [redeem_all].
  destruct (UseTokenForIdentity _ _ _ _ _ _ _ s) as [s1 res] eqn:Hs. specialize (IH s1).
  destruct (redeem_all db now_db attempts s1) as [s2 keys]. cbn [snd] in *.
  apply (redeem_step _ _ _ _ _ _ _ _ key Hu) in Hs as (Hu1 & Hle & Hok). specialize (IH Hu1).
  destruct res as [g|e]; [|lia]. rewrite filter_cons. case_decide as Hk; cbn [length]; [|lia]. specialize (Hok Hk). lia.
Qed.
End bound.

(** ** An operator at work *)

Section demo.
#[local] Instance demo_range_z V : MapRange Z V := stdpp_range.
#[local] Instance demo_range_s V : MapRange string V := stdpp_range.

Definition move_power : string := "i_client_move_power".

(** Group 10 may manage permissions and grant move power up to 50; "alice" is its member. *)
Definition group_tables : Tables := {|
  t_permissions := {[1 := row_of PermissionKeyPermissionManage 1 0 false false; 2 := row_of move_power 60 50 false false]};
  t_server_group_members := [(7, 10)]; t_server_group_permissions := [(10, 1); (10, 2)];
  t_channel_group_members := []; t_channel_group_permissions := []; t_client_permissions := [];
  t_channel_client_permissions := []; t_channel_permissions := []; t_channels := {[1 := (None, false)]} |}.

Definition member_row : GroupRow := mkGroupRow "staff" 0 false "" "" false.

Definition group_store : GStore :=
  mkGStore (mkAccounts {[7 := mkUserRow "alice" (Some "alice") None None false None]} 8 ∅ ∅ 0 0) group_tables [] ∅
    {[10 := member_row; 11 := mkGroupRow "guests" 0 false "" "" false]} ∅ []
    {[5 := mkTokenRow "k" 0 (Some 11) None "" 0 1 0 ""]} ∅ ∅ 20 0.

Definition demo_group_env : GroupEnv := {|
  ne_db := λ _, DbOk; ne_dbclock := λ _, 0; ne_accdb := λ _, DbOk; ne_accclock := λ _, 0; ne_rnd := λ _, None;
  ne_load_ok := λ _, true; ne_stale := λ _, 0%nat;
  ne_text := {| te_ToLower := λ s, s; te_TrimSpace := λ s, s; te_url_Hostname := λ _, None |} |}.

Definition demo_perm_set (value grant : Z) : admin_request :=
  AQPermSet (Some {| ps_Tier := "server_group"; ps_GroupID := 11; ps_UniqueID := ""; ps_ChannelID := 0; ps_Key := move_power;
                     ps_Value := value; ps_Grant := grant; ps_Skip := false; ps_Negate := false |}).

(** One entry within the cap, and one beyond it. *)
Definition demo_ops : list admin_op := [OpRequest alice (demo_perm_set 40 30); OpRequest alice (demo_perm_set 90 90); OpReap].

Definition demo_world : GW := (demo_server, group_store).

Lemma group_linked r : row_linked group_tables r → r = row_of PermissionKeyPermissionManage 1 0 false false ∨ r = row_of move_power 60 50 false false.
Proof.
  intros (id & Hl & Hr). cbn in Hr. apply lookup_insert_Some in Hr as [[_ <-]|[_ Hr]]; [by left|].
  apply lookup_singleton_Some in Hr as [_ <-]. by right.
Qed.

Lemma group_booted : booted group_store.
Proof.
  split; [done| |].
  - cbn. intros id [r Hr]. apply lookup_insert_Some in Hr as [[<- _]|[_ Hr]]; [lia|].
    apply lookup_singleton_Some in Hr as [<- _]. lia.
  - intros id. unfold linked_any. cbn. rewrite !elem_of_cons, !elem_of_nil. lia.
Qed.


Definition all_ok (n : nat) : dbOutcome := DbOk.
Definition zero_clock (n : nat) : Z := 0.

Lemma group_no_dangling : no_dangling group_store.
Proof. exact (bo_links _ group_booted). Qed.

Lemma SetPermission_outcome_witness :
  let m := SetPermission all_ok zero_clock PermTierServerGroup (mkTarget 10 0 0) move_power 7 7 false false group_store in
  m.2 = Ok () ∧
  has_entry m.1 PermTierServerGroup (mkTarget 10 0 0) (row_of move_power 7 7 false false) ∧
  ¬ has_entry m.1 PermTierServerGroup (mkTarget 10 0 0) (row_of move_power 60 50 false false) ∧
  has_entry m.1 PermTierServerGroup (mkTarget 10 0 0) (row_of PermissionKeyPermissionManage 1 0 false false).
Proof.
  cbv zeta. set (m := SetPermission _ _ _ _ _ _ _ _ _ _).
  destruct (SetPermission_outcome all_ok zero_clock PermTierServerGroup (mkTarget 10 0 0) move_power 7 7 false false
              group_store m.1 m.2 group_no_dangling (surjective_pairing m)) as (Hother & Hok & _ & Hsucc).
  assert (m.2 = Ok ()) as Hm by (apply Hsucc; [done|reflexivity|reflexivity|by vm_compute]).
  split; [exact Hm|]. specialize (Hok Hm). split_and!.
  - apply (Hok PermTierServerGroup (mkTarget 10 0 0)); [by split|reflexivity|reflexivity].
  - intros H. apply (Hok PermTierServerGroup (mkTarget 10 0 0)) in H; [discriminate H|by split|reflexivity].
  - apply Hother; [intros [_ H]; discriminate H|]. unfold has_entry. assert (rows_of PermTierServerGroup (mkTarget 10 0 0) group_tables =
      [row_of PermissionKeyPermissionManage 1 0 false false; row_of move_power 60 50 false false]) as Hl by by vm_compute.
    cbn [gs_tables group_store]. rewrite Hl. apply elem_of_cons. by left.
Defined.

(** The three statements of [SetPermission] are no transaction: the last one fails, and
    the entry the second deleted is gone. *)
Theorem failed_set_loses_entry :
  let db n := if bool_decide (n = 3%nat) then DbFailed else DbOk in
  let m := SetPermission db zero_clock PermTierServerGroup (mkTarget 10 0 0) move_power 7 7 false false group_store in
  m.2 = Err ErrStoreDB ∧
  rows_of PermTierServerGroup (mkTarget 10 0 0) group_tables =
    [row_of PermissionKeyPermissionManage 1 0 false false; row_of move_power 60 50 false false] ∧
  rows_of PermTierServerGroup (mkTarget 10 0 0) (gs_tables m.1) = [row_of PermissionKeyPermissionManage 1 0 false false].
Proof. by vm_compute. Qed.

(** A token with one use and two takers. *)
Definition guest_attempt : attempt :=
  {| at_now := 5; at_key := "k"; at_userID := 0; at_uniqueID := "g1"; at_nickname := "Gus" |}.
Definition alice_attempt : attempt :=
  {| at_now := 6; at_key := "k"; at_userID := 7; at_uniqueID := "alice"; at_nickname := "alice" |}.


Lemma redemptions_bounded_witness :
  (redeem_all all_ok zero_clock [guest_attempt; alice_attempt; guest_attempt] group_store).2 = ["k"] ∧
  Z.of_nat (length (filter (λ k, k = "k") (redeem_all all_ok zero_clock [guest_attempt; alice_attempt; guest_attempt] group_store).2)) ≤ 1.
Proof.
  split; [by vm_compute|].
  refine (redemptions_bounded all_ok zero_clock "k" [guest_attempt; alice_attempt; guest_attempt] group_store _).
  intros i j t u. cbn. intros [<- _]%lookup_singleton_Some [<- _]%lookup_singleton_Some _. reflexivity.
Defined.

(** ** Around the cap *)

Definition poke_only : permChecker := {| pc_tp :=
    TieredPermissions_Set NewTieredPermissions TierServerGroup
      {["b_chat_delete_any" := Some (mkPermission "b_chat_delete_any" PermissionTypeBoolean 1 0 false false)]};
  pc_admin := false; pc_guest := false |}.

(** A boolean permission is granted by any value but zero, and the cap only bounds
    values from above: who holds a permission with grant 0 may not hand it on with
    value 1 but may with value -1. *)
Theorem negative_value_passes_cap :
  grantCapOk poke_only "b_chat_delete_any" 1 0 = false ∧
  grantCapOk poke_only "b_chat_delete_any" (-1) 0 = true ∧
  ResolveBool (TieredPermissions_Set NewTieredPermissions TierClientSpecific
      {["b_chat_delete_any" := Some (mkPermission "b_chat_delete_any" PermissionTypeBoolean (-1) 0 false false)]})
    "b_chat_delete_any" = Ok (true, TierClientSpecific).
Proof. by vm_compute. Qed.

(** A membership for ten thousand million seconds has no expiry at all. *)
Theorem long_membership_is_permanent now :
  expiry now (wrap_s 64 (10000000000 * second)) = None ∧ expiry now (wrap_s 64 (1000000000 * second)) = Some (now + 10 ^ 18).
Proof. split; reflexivity. Qed.

End demo.
