(* ===== verification/Images.v ===== *)
(** * The image containers [src/internal/server/assets.go] accepts

    The validators of static PNG, GIF and WebP files, by position in the file as
    the code walks it: an index or a slice out of range, which panics in Go, is an
    error of its own ([Panic]), and a loop that runs out of its fuel another
    ([Stuck]); the theorems exclude both. The grammars of the three containers are
    what the validators are compared with. *)

From S2P Require Import Prelude Wire.

Inductive ImageErr := Malformed (what : string) | Animated | Panic | Stuck.

Abbreviation V A := (result ImageErr A).

Definition len (raw : list byte) : Z := Z.of_nat (length raw).

(** [raw\[i\]] and [raw\[a:b\]]. *)
Definition index (raw : list byte) (i : Z) : V byte :=
  if i <? 0 then Err Panic else match raw !! Z.to_nat i with Some b => Ok b | None => Err Panic end.
Definition slice (raw : list byte) (a b : Z) : V (list byte) :=
  if (0 <=? a) && (a <=? b) && (b <=? len raw) then Ok (take (Z.to_nat (b - a)) (drop (Z.to_nat a) raw)) else Err Panic.

(** [binary.BigEndian.Uint32] and [LittleEndian]: the first four bytes. *)
Definition BigUint32 (l : list byte) : V Z :=
  match l with a :: b :: c :: d :: _ => Ok (be32 a b c d) | _ => Err Panic end.
Definition LittleUint32 (l : list byte) : V Z :=
  match l with a :: b :: c :: d :: _ => Ok (be32 d c b a) | _ => Err Panic end.

Definition staticPNGSignature : list byte := [137; 80; 78; 71; 13; 10; 26; 10].

Definition acTL : list byte := [97; 99; 84; 76].
Definition fcTL : list byte := [102; 99; 84; 76].
Definition fdAT : list byte := [102; 100; 65; 84].
Definition IEND : list byte := [73; 69; 78; 68].

Definition has_prefix (p raw : list byte) : bool := bool_decide (take (length p) raw = p).

(** ** PNG *)

Fixpoint png_loop (fuel : nat) (raw : list byte) (position : Z) : V () :=
  match fuel with
  | O => Err Stuck
  | S fuel =>
      if position <? len raw then
        if len raw - position <? 12 then Err (Malformed "PNG chunk")
        else
          let? size := slice raw position (position + 4) in
          let? value := BigUint32 size in
          match Uint32ToInt 64 value with
          | Err _ => Err (Malformed "PNG chunk length")
          | Ok dataLength =>
              if len raw - position - 12 <? dataLength then Err (Malformed "PNG chunk length")
              else
                let chunkEnd := position + 12 + dataLength in
                let? chunkType := slice raw (position + 4) (position + 8) in
                if bool_decide (chunkType ∈ [acTL; fcTL; fdAT]) then Err Animated
                else if bool_decide (chunkType = IEND) then
                  if negb (dataLength =? 0) || negb (chunkEnd =? len raw) then Err (Malformed "PNG IEND chunk") else Ok ()
                else png_loop fuel raw chunkEnd
          end
      else Err (Malformed "PNG container without IEND")
  end.

Definition validateStaticPNG (raw : list byte) : V () :=
  if (len raw <? 8) || negb (has_prefix staticPNGSignature raw) then Err (Malformed "PNG signature")
  else png_loop (S (length raw)) raw 8.

(** ** GIF *)

Fixpoint skipGIFSubBlocks (fuel : nat) (raw : list byte) (position : Z) : V Z :=
  match fuel with
  | O => Err Stuck
  | S fuel =>
      if position <? len raw then
        let? size := index raw position in
        let position := position + 1 in
        if size =? 0 then Ok position
        else if len raw - position <? size then Err (Malformed "GIF sub-block")
        else skipGIFSubBlocks fuel raw (position + size)
      else Err (Malformed "unterminated GIF sub-block")
  end.

Definition color_table (packed : byte) : Z := 3 * Z.shiftl 1 (Z.land packed 7 + 1).
Definition has_table (packed : byte) : bool := negb (Z.land packed 128 =? 0).

(** The image descriptor at [position], its colour table and its data. *)
Definition gif_image (raw : list byte) (position : Z) : V Z :=
  if len raw - position <? 10 then Err (Malformed "GIF image descriptor")
  else
    let? packed := index raw (position + 9) in
    let position := position + 10 in
    if has_table packed && (len raw - position <? color_table packed) then Err (Malformed "GIF local color table")
    else
      let position := if has_table packed then position + color_table packed else position in
      if len raw <=? position then Err (Malformed "GIF image data")
      else skipGIFSubBlocks (S (length raw)) raw (position + 1).

Definition gif_extension (raw : list byte) (position : Z) : V Z :=
  if len raw - position <? 2 then Err (Malformed "GIF extension")
  else skipGIFSubBlocks (S (length raw)) raw (position + 2).

Fixpoint gif_loop (fuel : nat) (raw : list byte) (position frames : Z) : V () :=
  match fuel with
  | O => Err Stuck
  | S fuel =>
      if position <? len raw then
        let? block := index raw position in
        if block =? 59 then
          if negb (position =? len raw - 1) then Err (Malformed "GIF trailing data") else Ok ()
        else if block =? 44 then
          let frames := frames + 1 in
          if 1 <? frames then Err Animated
          else let? position := gif_image raw position in gif_loop fuel raw position frames
        else if block =? 33 then
          let? position := gif_extension raw position in gif_loop fuel raw position frames
        else Err (Malformed "GIF block")
      else Err (Malformed "GIF without trailer")
  end.

Definition validateStaticGIF (raw : list byte) : V () :=
  if len raw <? 13 then Err (Malformed "GIF container")
  else
    let? packed := index raw 10 in
    if has_table packed && (len raw - 13 <? color_table packed) then Err (Malformed "GIF global color table")
    else gif_loop (S (length raw)) raw (if has_table packed then 13 + color_table packed else 13) 0.

(** ** WebP *)

Definition ANIM : list byte := [65; 78; 73; 77].
Definition ANMF : list byte := [65; 78; 77; 70].
Definition VP8X : list byte := [86; 80; 56; 88].
Definition RIFF : list byte := [82; 73; 70; 70].
Definition WEBP : list byte := [87; 69; 66; 80].

(** The flags of an extended header. *)
Definition webp_extended (raw chunkName : list byte) (chunkSize dataStart : Z) : V () :=
  if bool_decide (chunkName = VP8X) then
    if chunkSize <? 1 then Err (Malformed "WebP extended header")
    else let? flags := index raw dataStart in if negb (Z.land flags 2 =? 0) then Err Animated else Ok ()
  else Ok ().

Fixpoint webp_loop (fuel : nat) (raw : list byte) (declaredSize position : Z) : V () :=
  match fuel with
  | O => Err Stuck
  | S fuel =>
      if position <? declaredSize then
        if declaredSize - position <? 8 then Err (Malformed "WebP chunk header")
        else
          let? chunkName := slice raw position (position + 4) in
          let? size := slice raw (position + 4) (position + 8) in
          let? chunkSize := LittleUint32 size in
          let dataStart := position + 8 in
          let dataEnd := dataStart + chunkSize in
          if (dataEnd <? dataStart) || (declaredSize <? dataEnd) then Err (Malformed "WebP chunk length")
          else if bool_decide (chunkName = ANIM) || bool_decide (chunkName = ANMF) then Err Animated
          else
            let? _ := webp_extended raw chunkName chunkSize dataStart in
            let position := dataEnd + chunkSize mod 2 in
            if declaredSize <? position then Err (Malformed "WebP chunk padding")
            else webp_loop fuel raw declaredSize position
      else Ok ()
  end.

Definition validateStaticWebP (raw : list byte) : V () :=
  if len raw <? 12 then Err (Malformed "WebP container")
  else
    let? size := slice raw 4 8 in
    let? n := LittleUint32 size in
    let declaredSize := n + 8 in
    if negb (declaredSize =? len raw) then Err (Malformed "WebP RIFF length")
    else webp_loop (S (length raw)) raw declaredSize 12.

Definition GIF87a : list byte := [71; 73; 70; 56; 55; 97].
Definition GIF89a : list byte := [71; 73; 70; 56; 57; 97].

Definition validateStaticImageContainer (raw : list byte) : V () :=
  if has_prefix staticPNGSignature raw then validateStaticPNG raw
  else if has_prefix GIF87a raw || has_prefix GIF89a raw then validateStaticGIF raw
  else if (12 <=? len raw) && has_prefix RIFF raw && has_prefix WEBP (drop 8 raw) then validateStaticWebP raw
  else Ok ().

(** ** Slices of a file given by its parts *)

Lemma len_app (a b : list byte) : len (a ++ b) = len a + len b.
Proof. unfold len. rewrite length_app. lia. Qed.
Lemma len_nonneg (a : list byte) : 0 ≤ len a.
Proof. unfold len. lia. Qed.
#[local] Hint Resolve len_nonneg : core.

Lemma slice_mid pre x post a b : a = len pre → b = len pre + len x → slice (pre ++ x ++ post) a b = Ok x.
Proof.
  intros -> ->. unfold slice. pose proof (len_nonneg pre). pose proof (len_nonneg x). pose proof (len_nonneg post). rewrite !len_app.
  rewrite (proj2 (Z.leb_le _ _)), (proj2 (Z.leb_le (len pre) _)), (proj2 (Z.leb_le (len pre + len x) _)) by lia. cbn [andb].
  unfold len. rewrite Nat2Z.id, drop_app_length. replace (Z.to_nat _) with (length x) by lia. by rewrite take_app_length.
Qed.

Lemma index_mid pre x post i : i = len pre → index (pre ++ x :: post) i = Ok x.
Proof.
  intros ->. unfold index, len. rewrite (proj2 (Z.ltb_ge _ _)) by lia. rewrite Nat2Z.id, lookup_app_r by lia.
  by rewrite Nat.sub_diag.
Qed.

Lemma split_at (n : Z) (l : list byte) : 0 ≤ n → n ≤ len l → ∃ a b, l = a ++ b ∧ len a = n.
Proof.
  unfold len. intros ? ?. exists (take (Z.to_nat n) l), (drop (Z.to_nat n) l). rewrite take_drop. split; [done|].
  rewrite length_take. lia.
Qed.

Lemma four_bytes size : len size = 4 → Forall is_byte size → ∃ a b c d, size = [a; b; c; d] ∧ is_byte a ∧ is_byte b ∧ is_byte c ∧ is_byte d.
Proof.
  unfold len. destruct size as [|a [|b [|c [|d [|e l]]]]]; cbn [length]; intros Hl; try lia.
  rewrite !Forall_cons. naive_solver.
Qed.

Lemma uint32_of size f : len size = 4 → Forall is_byte size → (f = BigUint32 ∨ f = LittleUint32) → ∃ v, f size = Ok v ∧ 0 ≤ v < 2 ^ 32.
Proof.
  intros Hl Hb Hf. destruct (four_bytes size Hl Hb) as (a & b & c & d & -> & Ha & Hb' & Hc & Hd).
  destruct Hf as [-> | ->]; cbn; eexists; (split; [done|]); by apply put32_be32.
Qed.

Lemma Uint32ToInt_64 v : 0 ≤ v < 2 ^ 32 → Uint32ToInt 64 v = Ok v.
Proof.
  intros Hv. unfold Uint32ToInt, MaxInt. rewrite !(wrap_u_small 64) by lia. rewrite (proj2 (Z.ltb_ge _ _)) by lia.
  by rewrite wrap_s_small by lia.
Qed.

(** What is decided without a panic, and exactly as the grammar says. *)
Definition decides (r : V ()) (P : Prop) : Prop := r ≠ Err Panic ∧ r ≠ Err Stuck ∧ (r = Ok () ↔ P).

Lemma decides_err e P : e ≠ Panic → e ≠ Stuck → ¬ P → decides (Err e) P.
Proof. intros ? ? ?. split_and!; [congruence|congruence|]. split; [done|naive_solver]. Qed.
Lemma decides_ok (P : Prop) : P → decides (Ok ()) P.
Proof. intros ?. by split_and!. Qed.
Lemma decides_iff r (P Q : Prop) : (P ↔ Q) → decides r P → decides r Q.
Proof. unfold decides. naive_solver. Qed.

(** *** PNG: chunks up to the one named IEND, which ends the file *)

Definition animation_chunks : list (list byte) := [acTL; fcTL; fdAT].

Inductive png_chunks : list byte → Prop :=
| png_end size crc : len size = 4 → BigUint32 size = Ok 0 → len crc = 4 → png_chunks (size ++ IEND ++ crc)
| png_more size ty data crc rest :
    len size = 4 → BigUint32 size = Ok (len data) → len ty = 4 → ty ∉ animation_chunks → ty ≠ IEND → len crc = 4 →
    png_chunks rest → png_chunks (size ++ ty ++ data ++ crc ++ rest).

Definition png_file (raw : list byte) : Prop := ∃ body, raw = staticPNGSignature ++ body ∧ png_chunks body.

Lemma len_inj (a b : list byte) : len a = len b ↔ length a = length b.
Proof. unfold len. lia. Qed.

Lemma png_inv size ty tl :
  len size = 4 → len ty = 4 → png_chunks (size ++ ty ++ tl) →
  (ty = IEND ∧ BigUint32 size = Ok 0 ∧ len tl = 4) ∨
  (∃ data crc rest, tl = data ++ crc ++ rest ∧ BigUint32 size = Ok (len data) ∧ len crc = 4 ∧ ty ∉ animation_chunks ∧
     ty ≠ IEND ∧ png_chunks rest).
Proof.
  intros Hs Ht. inversion 1 as [size' crc Hs' Hz Hc Heq|size' ty' data crc rest Hs' Hd Ht' Hna Hne Hc Hr Heq].
  - apply app_inj_1 in Heq as [-> Heq]; [|apply len_inj; lia]. change (IEND ++ crc = ty ++ tl) in Heq.
    apply app_inj_1 in Heq as [<- ->]; [|by apply len_inj]. by left.
  - apply app_inj_1 in Heq as [-> Heq]; [|apply len_inj; lia]. apply app_inj_1 in Heq as [-> <-]; [|apply len_inj; lia].
    right. by exists data, crc, rest.
Qed.

Lemma png_chunks_length body : png_chunks body → 12 ≤ len body.
Proof.
  intros [size crc Hs _ Hc|size ty data crc rest Hs _ Ht _ _ Hc _]; rewrite !len_app; pose proof (len_nonneg IEND).
  - change (len IEND) with 4. lia.
  - pose proof (len_nonneg data). pose proof (len_nonneg rest). lia.
Qed.

Lemma png_loop_exact fuel : ∀ pre body,
  Forall is_byte body → (length body < fuel)%nat → decides (png_loop fuel (pre ++ body) (len pre)) (png_chunks body).
Proof.
  induction fuel as [|fuel IH]; intros pre body Hb Hf; [lia|]. cbn [png_loop]. rewrite len_app.
  destruct (Z.ltb_spec (len pre) (len pre + len body)).
  2: { apply decides_err; [done..|]. intros Hc%png_chunks_length. lia. }
  destruct (Z.ltb_spec (len pre + len body - len pre) 12).
  { apply decides_err; [done..|]. intros Hc%png_chunks_length. lia. }
  destruct (split_at 4 body) as (size & b1 & -> & Hs); [lia..|]. rewrite len_app in *.
  destruct (split_at 4 b1) as (ty & tl & -> & Ht); [lia..|]. rewrite len_app in *.
  apply Forall_app in Hb as [Hbs Hb]. apply Forall_app in Hb as [_ Hbt].
  rewrite (slice_mid pre size (ty ++ tl)) by lia. cbn [result_bind].
  destruct (uint32_of size BigUint32 Hs Hbs) as (v & Hv & Hrange); [by left|]. rewrite Hv. cbn [result_bind].
  rewrite Uint32ToInt_64 by done.
  destruct (Z.ltb_spec (len pre + (len size + (len ty + len tl)) - len pre - 12) v) as [Hlt|Hge].
  { apply decides_err; [done..|]. intros Hc. destruct (png_inv size ty tl Hs Ht Hc) as [(_ & Hz & Hl)|(data & crc & rest & -> & Hd & Hcrc & _)].
    - rewrite Hv in Hz. injection Hz as ->. lia.
    - rewrite Hv in Hd. injection Hd as ->. rewrite !len_app in Hlt. pose proof (len_nonneg rest). lia. }
  assert (slice (pre ++ size ++ ty ++ tl) (len pre + 4) (len pre + 8) = Ok ty) as ->.
  { rewrite (app_assoc pre size). apply slice_mid; rewrite len_app; lia. }
  cbn [result_bind]. case_bool_decide as Han.
  { apply decides_err; [done..|]. intros Hc. destruct (png_inv size ty tl Hs Ht Hc) as [(-> & _ & _)|(? & ? & ? & _ & _ & _ & Hna & _)]; [|done].
    rewrite !elem_of_cons, elem_of_nil in Han. destruct_or? Han; done. }
  case_bool_decide as Hiend.
  - subst ty. destruct (Z.eqb_spec v 0) as [->|Hnz]; cbn [negb orb].
    + destruct (Z.eqb_spec (len pre + 12 + 0) (len pre + (len size + (len IEND + len tl)))) as [Heq|Hneq]; cbn [negb].
      * apply decides_ok. constructor; [done..|]. lia.
      * apply decides_err; [done..|]. intros Hc.
        destruct (png_inv size IEND tl Hs Ht Hc) as [(_ & _ & Hl)|(? & ? & ? & _ & _ & _ & _ & Hne & _)]; [lia|done].
    + apply decides_err; [done..|]. intros Hc.
      destruct (png_inv size IEND tl Hs Ht Hc) as [(_ & Hz & Hl)|(? & ? & ? & _ & _ & _ & _ & Hne & _)]; [|done].
      rewrite Hv in Hz. by injection Hz.
  - destruct (split_at v tl) as (data & b2 & -> & Hd); [lia..|]. rewrite len_app in *.
    destruct (split_at 4 b2) as (crc & rest & -> & Hc); [lia..|]. rewrite len_app in *.
    specialize (IH (pre ++ size ++ ty ++ data ++ crc) rest).
    rewrite <- !app_assoc in IH. replace (len (pre ++ size ++ ty ++ data ++ crc)) with (len pre + 12 + v) in IH by (rewrite !len_app; lia).
    eapply decides_iff; [|apply IH].
    + split; [intros Hr; constructor; try done; by rewrite Hv, Hd|].
      intros Hr. destruct (png_inv size ty _ Hs Ht Hr) as [(-> & _)|(data' & crc' & rest' & Heq & Hd' & Hc' & _ & _ & Hr')]; [done|].
      rewrite Hv in Hd'. injection Hd' as Hd'. apply app_inj_1 in Heq as [-> Heq]; [|apply len_inj; lia].
      apply app_inj_1 in Heq as [-> ->]; [done|]. apply len_inj. lia.
    + apply Forall_app in Hbt as [_ Hbt]. by apply Forall_app in Hbt as [_ ?].
    + rewrite !length_app in Hf. unfold len in *. lia.
Qed.

Lemma has_prefix_app p raw : has_prefix p raw = true ↔ ∃ body, raw = p ++ body.
Proof.
  unfold has_prefix. rewrite bool_decide_eq_true. split.
  - intros Hp. exists (drop (length p) raw). by rewrite <- Hp at 1; rewrite take_drop.
  - intros [body ->]. by rewrite take_app_length.
Qed.

Lemma validateStaticPNG_exact raw : Forall is_byte raw → decides (validateStaticPNG raw) (png_file raw).
Proof.
  intros Hb. unfold validateStaticPNG, png_file. destruct (has_prefix staticPNGSignature raw) eqn:Hp.
  - apply has_prefix_app in Hp as [body ->]. apply Forall_app in Hb as [_ Hb].
    rewrite len_app. change (len staticPNGSignature) with 8. rewrite (proj2 (Z.ltb_ge _ _)) by (pose proof (len_nonneg body); lia). cbn [orb negb].
    eapply decides_iff; [|apply (png_loop_exact _ staticPNGSignature body); [done|rewrite length_app; lia]].
    split; [by exists body|]. intros (body' & Heq & Hc). by apply app_inv_head in Heq as ->.
  - rewrite orb_true_r. apply decides_err; [done..|]. intros (body & -> & _).
    assert (has_prefix staticPNGSignature (staticPNGSignature ++ body) = true) as Ht; [|by rewrite Ht in Hp].
    apply has_prefix_app. by exists body.
Qed.

(** *** GIF: a header, then extensions and at most one image, then the trailer *)

Inductive sub_blocks : list byte → Prop :=
| sb_end : sub_blocks [0]
| sb_more n data rest : n ≠ 0 → len data = n → sub_blocks rest → sub_blocks (n :: data ++ rest).

Definition table_size (packed : byte) : Z := if has_table packed then color_table packed else 0.

Definition extension_block (b : list byte) : Prop := ∃ label blocks, b = 33 :: label :: blocks ∧ sub_blocks blocks.
Definition image_block (b : list byte) : Prop :=
  ∃ desc packed table min_size blocks, b = 44 :: desc ++ packed :: table ++ min_size :: blocks ∧ len desc = 8 ∧
    len table = table_size packed ∧ sub_blocks blocks.

(** After an image there is no other. *)
Inductive gif_blocks : bool → list byte → Prop :=
| gif_trailer seen : gif_blocks seen [59]
| gif_with_extension seen b rest : extension_block b → gif_blocks seen rest → gif_blocks seen (b ++ rest)
| gif_with_image b rest : image_block b → gif_blocks true rest → gif_blocks false (b ++ rest).

Definition gif_file (raw : list byte) : Prop :=
  ∃ header packed rest table body, raw = header ++ packed :: rest ++ table ++ body ∧ len header = 10 ∧ len rest = 2 ∧
    len table = table_size packed ∧ gif_blocks false body.

Lemma sub_blocks_nonempty b : sub_blocks b → 1 ≤ len b.
Proof. intros []; unfold len; cbn [length]; lia. Qed.

(** A terminator ends the blocks where it is. *)
Lemma sub_blocks_unique b b' r r' : sub_blocks b → sub_blocks b' → b ++ r = b' ++ r' → b = b' ∧ r = r'.
Proof.
  intros Hb. revert b'. induction Hb as [|n data rest Hn Hd Hr IH]; intros b' Hb' Heq.
  - destruct Hb' as [|n data rest Hn]; cbn in Heq; injection Heq; [by intros ->|congruence].
  - destruct Hb' as [|n' data' rest' Hn' Hd' Hr']; cbn in Heq; injection Heq; [congruence|]. intros Heq' <-.
    rewrite <- !app_assoc in Heq'. apply app_inj_1 in Heq' as [-> Heq']; [|apply len_inj; lia].
    by destruct (IH _ Hr' Heq') as [-> ->].
Qed.

(** [r] is the end of the prefix of [body], which starts at [start], that [D] holds of. *)
Definition parses (D : list byte → Prop) (body : list byte) (start : Z) (r : V Z) : Prop :=
  match r with
  | Ok p => ∃ b rest, body = b ++ rest ∧ D b ∧ p = start + len b
  | Err e => e ≠ Panic ∧ e ≠ Stuck ∧ ∀ b rest, body = b ++ rest → ¬ D b
  end.

Lemma parses_err D body start e : e ≠ Panic → e ≠ Stuck → (∀ b rest, body = b ++ rest → ¬ D b) → parses D body start (Err e).
Proof. intros ? ? ?. done. Qed.

Lemma len_cons x (l : list byte) : len (x :: l) = 1 + len l.
Proof. unfold len. cbn [length]. lia. Qed.

Lemma skip_exact fuel : ∀ pre body,
  Forall is_byte body → (length body < fuel)%nat → parses sub_blocks body (len pre) (skipGIFSubBlocks fuel (pre ++ body) (len pre)).
Proof.
  induction fuel as [|fuel IH]; intros pre body Hb Hf; [lia|]. cbn [skipGIFSubBlocks]. rewrite len_app.
  destruct body as [|size tl].
  { rewrite (proj2 (Z.ltb_ge _ _)) by (unfold len; cbn; lia). split_and!; [done..|].
    intros b rest Heq Hsb%sub_blocks_nonempty. symmetry in Heq. apply app_nil in Heq as [-> _]. unfold len in Hsb. cbn in Hsb. lia. }
  apply Forall_cons in Hb as [Hsz Hb]. unfold is_byte in Hsz. rewrite len_cons.
  rewrite (proj2 (Z.ltb_lt _ _)) by (pose proof (len_nonneg tl); lia).
  rewrite (index_mid pre size tl) by done. cbn [result_bind].
  destruct (Z.eqb_spec size 0) as [->|Hnz].
  { exists [0], tl. split_and!; [done|constructor|]. by rewrite len_cons. }
  destruct (Z.ltb_spec (len pre + (1 + len tl) - (len pre + 1)) size) as [Hlt|Hge].
  { split_and!; [done..|]. intros b rest Heq Hsb. destruct Hsb as [|n data r' Hn Hd Hr']; cbn in Heq; injection Heq; [done|].
    intros -> ->. rewrite !len_app in Hlt. pose proof (len_nonneg r'). pose proof (len_nonneg rest). lia. }
  destruct (split_at size tl) as (data & rest & -> & Hd); [lia..|].
  specialize (IH (pre ++ size :: data) rest). rewrite <- app_assoc in IH. cbn [app] in IH.
  replace (len (pre ++ size :: data)) with (len pre + 1 + size) in IH by (rewrite len_app, len_cons; lia).
  apply Forall_app in Hb as [_ Hb]. cbn [length] in Hf. rewrite length_app in Hf. specialize (IH Hb ltac:(lia)).
  destruct (skipGIFSubBlocks _ _ _) as [p|e]; cbn [parses] in *.
  - destruct IH as (b & r & -> & Hsb & ->). exists (size :: data ++ b), r. split_and!.
    + cbn. by rewrite app_assoc.
    + by constructor.
    + rewrite len_cons, len_app. lia.
  - destruct IH as (? & ? & Hno). split_and!; [done..|]. intros b r Heq Hsb. destruct Hsb as [|n data' r' Hn Hd' Hr']; cbn in Heq; injection Heq; [done|].
    intros Heq' <-. rewrite <- app_assoc in Heq'. apply app_inj_1 in Heq' as [<- ->]; [|apply len_inj; lia]. by apply (Hno r' r).
Qed.

Lemma color_table_pos packed : is_byte packed → 0 ≤ color_table packed.
Proof.
  intros Hp. unfold color_table. apply Z.mul_nonneg_nonneg; [lia|]. rewrite Z.shiftl_nonneg. lia.
Qed.

Lemma table_size_pos packed : is_byte packed → 0 ≤ table_size packed.
Proof. intros ?%color_table_pos. unfold table_size. destruct (has_table packed); lia. Qed.

(** Sub-blocks after a head of the block. *)
Lemma parse_after (D : list byte → Prop) pre head body raw start :
  Forall is_byte body → raw = pre ++ head ++ body → start = len pre + len head →
  (∀ b rest, head ++ body = b ++ rest → D b → ∃ b', b = head ++ b' ∧ sub_blocks b') →
  (∀ b', sub_blocks b' → D (head ++ b')) →
  parses D (head ++ body) (len pre) (skipGIFSubBlocks (S (length raw)) raw start).
Proof.
  intros Hb -> -> HD HD'. rewrite app_assoc, <- len_app.
  pose proof (skip_exact (S (length ((pre ++ head) ++ body))) (pre ++ head) body Hb) as Hs.
  destruct (skipGIFSubBlocks _ _ _) as [p|e]; cbn [parses] in *.
  - destruct Hs as (b & rest & -> & Hsb & ->); [rewrite !length_app; lia|].
    exists (head ++ b), rest. split_and!; [by rewrite app_assoc|by apply HD'|]. rewrite !len_app. lia.
  - destruct Hs as (? & ? & Hno); [rewrite !length_app; lia|]. split_and!; [done..|].
    intros b rest Heq HDb. destruct (HD b rest Heq HDb) as (b' & -> & Hsb). rewrite <- app_assoc in Heq.
    apply app_inv_head in Heq. by apply (Hno b' rest).
Qed.

Lemma gif_extension_exact pre tl :
  Forall is_byte tl → parses extension_block (33 :: tl) (len pre) (gif_extension (pre ++ 33 :: tl) (len pre)).
Proof.
  intros Hb. unfold gif_extension. rewrite len_app, len_cons.
  destruct (Z.ltb_spec (len pre + (1 + len tl) - len pre) 2) as [Hlt|Hge].
  - apply parses_err; [done..|]. intros b rest Heq (label & blocks & -> & _). cbn in Heq. injection Heq as ->.
    rewrite len_cons in Hlt. pose proof (len_nonneg (blocks ++ rest)). lia.
  - destruct tl as [|label body]; [unfold len at 2 in Hge; cbn in Hge; lia|]. apply Forall_cons in Hb as [_ Hb].
    apply (parse_after extension_block pre [33; label] body); [done..| |].
    + intros b rest Heq (label' & blocks & -> & Hsb). cbn in Heq. injection Heq as -> ->. by exists blocks.
    + intros blocks Hsb. by exists label, blocks.
Qed.

Lemma gif_image_exact pre tl :
  Forall is_byte tl → parses image_block (44 :: tl) (len pre) (gif_image (pre ++ 44 :: tl) (len pre)).
Proof.
  intros Hb. unfold gif_image. rewrite len_app, len_cons.
  destruct (Z.ltb_spec (len pre + (1 + len tl) - len pre) 10) as [Hlt|Hge].
  { apply parses_err; [done..|]. intros b rest Heq (desc & packed & table & m & blocks & -> & Hd & _). cbn in Heq. injection Heq as ->.
    rewrite !len_app, len_cons in Hlt. pose proof (len_nonneg (table ++ m :: blocks)). pose proof (len_nonneg rest). lia. }
  destruct (split_at 8 tl) as (desc & t1 & -> & Hd); [lia..|]. rewrite len_app in *.
  destruct t1 as [|packed t2]; [unfold len at 3 in Hge; cbn in Hge; lia|]. rewrite len_cons in *.
  rewrite (app_comm_cons desc), (app_assoc pre), (index_mid (pre ++ 44 :: desc)) by (rewrite len_app, len_cons; lia). cbn [result_bind].
  rewrite <- app_assoc, <- app_comm_cons. apply Forall_app in Hb as [_ Hb]. apply Forall_cons in Hb as [Hpb Hb].
  pose proof (table_size_pos packed Hpb) as Hts.
  assert (∀ b rest, 44 :: desc ++ packed :: t2 = b ++ rest → image_block b →
            ∃ table m blocks, b = 44 :: desc ++ packed :: table ++ m :: blocks ∧ t2 = table ++ m :: blocks ++ rest ∧
              len table = table_size packed ∧ sub_blocks blocks) as Hinv.
  { intros b rest Heq (desc' & packed' & table & m & blocks & -> & Hd' & Ht & Hsb). cbn in Heq. injection Heq as Heq.
    rewrite <- app_assoc in Heq. apply app_inj_1 in Heq as [<- Heq]; [|apply len_inj; lia]. cbn in Heq. injection Heq as <- ->.
    exists table, m, blocks. split_and!; [done| |done..]. by rewrite <- app_assoc. }
  assert ((has_table packed && (len pre + (1 + (len desc + (1 + len t2))) - (len pre + 10) <? color_table packed)) = (len t2 <? table_size packed)) as ->.
  { unfold table_size. destruct (has_table packed); cbn [andb]; [f_equal; lia|]. symmetry. apply Z.ltb_ge. apply len_nonneg. }
  assert ((if has_table packed then len pre + 10 + color_table packed else len pre + 10) = len pre + 10 + table_size packed) as ->.
  { unfold table_size. destruct (has_table packed); lia. }
  destruct (Z.ltb_spec (len t2) (table_size packed)) as [Hlt|Hget].
  { apply parses_err; [done..|]. intros b rest Heq Hi. destruct (Hinv b rest Heq Hi) as (table & m & blocks & _ & -> & Ht & _).
    rewrite len_app in Hlt. pose proof (len_nonneg (m :: blocks ++ rest)). lia. }
  destruct (split_at (table_size packed) t2) as (table & t3 & -> & Ht); [lia..|]. rewrite len_app in *.
  destruct (Z.leb_spec (len pre + (1 + (len desc + (1 + (len table + len t3))))) (len pre + 10 + table_size packed)) as [Hle|Hgt].
  { apply parses_err; [done..|]. intros b rest Heq Hi. destruct (Hinv b rest Heq Hi) as (table' & m & blocks & _ & Heq' & Ht' & _).
    apply app_inj_1 in Heq' as [-> ->]; [|apply len_inj; lia]. rewrite len_cons in Hle. pose proof (len_nonneg (blocks ++ rest)). lia. }
  destruct t3 as [|m body]; [unfold len at 5 in Hgt; cbn in Hgt; lia|].
  apply Forall_app in Hb as [_ Hb]. apply Forall_cons in Hb as [_ Hb].
  assert (44 :: desc ++ packed :: table ++ m :: body = (44 :: desc ++ packed :: table ++ [m]) ++ body) as Hhead.
  { cbn. rewrite <- !app_assoc. cbn. by rewrite <- app_assoc. }
  rewrite Hhead. apply parse_after; [done|by rewrite <- Hhead| | |].
  - rewrite len_cons, len_app, len_cons, len_app. change (len [m]) with 1. lia.
  - intros b rest Heq Hi. rewrite <- Hhead in Heq. destruct (Hinv b rest Heq Hi) as (table' & m' & blocks & -> & Heq' & Ht' & Hsb).
    apply app_inj_1 in Heq' as [<- [= <- ->]]; [|apply len_inj; lia]. exists blocks. split; [|done]. cbn. rewrite <- !app_assoc. cbn. by rewrite <- app_assoc.
  - intros blocks Hsb. exists desc, packed, table, m, blocks. split_and!; [|done..]. cbn. rewrite <- !app_assoc. cbn. by rewrite <- app_assoc.
Qed.

(** Blocks end where they do. *)
Lemma extension_unique b b' r r' : extension_block b → extension_block b' → b ++ r = b' ++ r' → b = b' ∧ r = r'.
Proof.
  intros (l & x & -> & Hx) (l' & x' & -> & Hx') Heq. cbn in Heq. injection Heq as -> Heq.
  by destruct (sub_blocks_unique _ _ _ _ Hx Hx' Heq) as [-> ->].
Qed.

Lemma image_unique b b' r r' : image_block b → image_block b' → b ++ r = b' ++ r' → b = b' ∧ r = r'.
Proof.
  intros (d & p & t & m & x & -> & Hd & Ht & Hx) (d' & p' & t' & m' & x' & -> & Hd' & Ht' & Hx') Heq. cbn in Heq. injection Heq as Heq.
  rewrite <- !app_assoc in Heq. apply app_inj_1 in Heq as [-> Heq]; [|apply len_inj; lia]. cbn in Heq. injection Heq as -> Heq.
  rewrite <- !app_assoc in Heq. apply app_inj_1 in Heq as [-> Heq]; [|apply len_inj; lia]. cbn in Heq. injection Heq as -> Heq.
  by destruct (sub_blocks_unique _ _ _ _ Hx Hx' Heq) as [-> ->].
Qed.

Lemma gif_inv seen block tl :
  gif_blocks seen (block :: tl) →
  (block = 59 ∧ tl = []) ∨
  (block = 33 ∧ ∃ b rest, block :: tl = b ++ rest ∧ extension_block b ∧ gif_blocks seen rest) ∨
  (block = 44 ∧ seen = false ∧ ∃ b rest, block :: tl = b ++ rest ∧ image_block b ∧ gif_blocks true rest).
Proof.
  inversion 1 as [|? b rest Hb Hr Heq|b rest Hb Hr Heq]; [by left|right; left|right; right].
  - split; [destruct Hb as (? & ? & -> & _); cbn in *; congruence|]. by exists b, rest.
  - split_and!; [destruct Hb as (? & ? & ? & ? & ? & -> & _); cbn in *; congruence|done|]. by exists b, rest.
Qed.

(** After a block the walk goes on where it ends. *)
Lemma gif_after (D : list byte → Prop) fuel pre body seen r :
  (∀ b b' x x', D b → D b' → b ++ x = b' ++ x' → b = b' ∧ x = x') → (∀ b, D b → 1 ≤ len b) →
  Forall is_byte body → (length body ≤ fuel)%nat →
  (∀ pre' rest, Forall is_byte rest → (length rest < fuel)%nat →
     decides (gif_loop fuel (pre' ++ rest) (len pre') (if seen : bool then 1 else 0)) (gif_blocks seen rest)) →
  parses D body (len pre) r →
  decides (let? position := r in gif_loop fuel (pre ++ body) position (if seen : bool then 1 else 0))
    (∃ b rest, body = b ++ rest ∧ D b ∧ gif_blocks seen rest).
Proof.
  intros Hu Hne Hb Hf Hk Hp. destruct r as [p|e]; cbn [parses result_bind] in *.
  - destruct Hp as (b & rest & -> & HD & ->). apply Forall_app in Hb as [_ Hb]. rewrite app_assoc, <- len_app.
    eapply decides_iff; [|apply Hk; [done|]].
    + split; [by exists b, rest|]. intros (b' & rest' & Heq & HD' & Hg). by destruct (Hu _ _ _ _ HD HD' Heq) as [-> ->].
    + pose proof (Hne b HD). rewrite length_app in Hf. unfold len in *. lia.
  - destruct Hp as (? & ? & Hno). apply decides_err; [done..|]. intros (b & rest & Heq & HD & _). by apply (Hno b rest).
Qed.

Lemma gif_loop_exact fuel : ∀ pre body (seen : bool),
  Forall is_byte body → (length body < fuel)%nat →
  decides (gif_loop fuel (pre ++ body) (len pre) (if seen then 1 else 0)) (gif_blocks seen body).
Proof.
  induction fuel as [|fuel IH]; intros pre body seen Hb Hf; [lia|]. cbn [gif_loop]. rewrite len_app.
  destruct body as [|block tl].
  { rewrite (proj2 (Z.ltb_ge _ _)) by (unfold len; cbn; lia). apply decides_err; [done..|]. inversion 1 as [|? ? ? Hx|? ? Hx].
    - by destruct Hx as (? & ? & -> & _).
    - by destruct Hx as (? & ? & ? & ? & ? & -> & _). }
  rewrite len_cons. pose proof (len_nonneg tl) as Htl. rewrite (proj2 (Z.ltb_lt _ _)) by lia.
  rewrite (index_mid pre block tl) by done. cbn [result_bind]. pose proof (Forall_inv_tail Hb) as Hb'. cbn [length] in Hf.
  destruct (Z.eqb_spec block 59) as [->|H59].
  { destruct (Z.eqb_spec (len pre) (len pre + (1 + len tl) - 1)) as [He|He]; cbn [negb].
    - assert (tl = []) as -> by (apply length_zero_iff_nil; unfold len in *; lia). apply decides_ok. constructor.
    - apply decides_err; [done..|]. intros [(_ & ->)|[(? & _)|(? & _)]]%gif_inv; [|done..]. unfold len in He. cbn in He. lia. }
  destruct (Z.eqb_spec block 44) as [->|H44].
  { destruct seen; cbn [Z.add].
    { apply decides_err; [done..|]. intros [(? & _)|[(? & _)|(_ & ? & _)]]%gif_inv; done. }
    eapply decides_iff; [|apply (gif_after image_block fuel pre (44 :: tl) true)].
    - split; [intros (b & rest & -> & ? & ?); by constructor|]. intros [(? & _)|[(? & _)|(_ & _ & ?)]]%gif_inv; done.
    - exact image_unique.
    - intros b (? & ? & ? & ? & ? & -> & _). rewrite len_cons. match goal with |- context [len ?l] => pose proof (len_nonneg l) end. lia.
    - done.
    - cbn [length]. lia.
    - intros pre' rest Hr Hl. by apply (IH pre' rest true).
    - by apply gif_image_exact. }
  destruct (Z.eqb_spec block 33) as [->|H33].
  { eapply decides_iff; [|apply (gif_after extension_block fuel pre (33 :: tl) seen)].
    - split; [intros (b & rest & -> & ? & ?); by constructor|]. intros [(? & _)|[(_ & ?)|(? & _)]]%gif_inv; done.
    - exact extension_unique.
    - intros b (? & ? & -> & _). rewrite len_cons. match goal with |- context [len ?l] => pose proof (len_nonneg l) end. lia.
    - done.
    - cbn [length]. lia.
    - intros pre' rest Hr Hl. by apply IH.
    - by apply gif_extension_exact. }
  apply decides_err; [done..|]. intros [(? & _)|[(? & _)|(? & _)]]%gif_inv; done.
Qed.

Lemma validateStaticGIF_exact raw : Forall is_byte raw → decides (validateStaticGIF raw) (gif_file raw).
Proof.
  intros Hb. unfold validateStaticGIF. destruct (Z.ltb_spec (len raw) 13) as [Hlt|Hge].
  { apply decides_err; [done..|]. intros (header & packed & rest & table & body & -> & Hh & Hr & _). rewrite len_app, len_cons, len_app in Hlt.
    pose proof (len_nonneg (table ++ body)). lia. }
  destruct (split_at 10 raw) as (header & r1 & -> & Hh); [lia..|]. rewrite len_app in *.
  destruct r1 as [|packed r2]; [unfold len at 2 in Hge; cbn in Hge; lia|]. rewrite len_cons in *.
  destruct (split_at 2 r2) as (rest & r3 & -> & Hr); [lia..|]. rewrite len_app in *.
  rewrite index_mid by lia. cbn [result_bind]. apply Forall_app in Hb as [_ Hb]. apply Forall_cons in Hb as [Hpb Hb].
  apply Forall_app in Hb as [_ Hb]. pose proof (table_size_pos packed Hpb) as Hts.
  assert (gif_file (header ++ packed :: rest ++ r3) ↔ ∃ table body, r3 = table ++ body ∧ len table = table_size packed ∧ gif_blocks false body) as Hgram.
  { split.
    - intros (h' & p' & r' & table & body & Heq & Hh' & Hr' & Ht & Hg). apply app_inj_1 in Heq as [-> Heq]; [|apply len_inj; lia].
      injection Heq as -> Heq. apply app_inj_1 in Heq as [-> ->]; [|apply len_inj; lia]. by exists table, body.
    - intros (table & body & -> & Ht & Hg). by exists header, packed, rest, table, body. }
  eapply decides_iff; [by symmetry; exact Hgram|].
  assert ((has_table packed && (len header + (1 + (len rest + len r3)) - 13 <? color_table packed)) = (len r3 <? table_size packed)) as ->.
  { unfold table_size. destruct (has_table packed); cbn [andb]; [f_equal; lia|]. symmetry. apply Z.ltb_ge. apply len_nonneg. }
  destruct (Z.ltb_spec (len r3) (table_size packed)) as [Hlt|Hget].
  { apply decides_err; [done..|]. intros (table & body & -> & Ht & _). rewrite len_app in Hlt. pose proof (len_nonneg body). lia. }
  destruct (split_at (table_size packed) r3) as (table & body & -> & Ht); [lia..|]. apply Forall_app in Hb as [_ Hb].
  replace (header ++ packed :: rest ++ table ++ body) with ((header ++ packed :: rest ++ table) ++ body)
    by (rewrite <- app_assoc; cbn; by rewrite <- app_assoc).
  replace (if has_table packed then 13 + color_table packed else 13) with (len (header ++ packed :: rest ++ table)).
  2: { rewrite len_app, len_cons, len_app, Ht. unfold table_size. destruct (has_table packed); lia. }
  eapply decides_iff; [|apply (gif_loop_exact _ _ body false); [done|rewrite !length_app; lia]].
  split; [by exists table, body|]. intros (table' & body' & Heq & Ht' & Hg). by apply app_inj_1 in Heq as [-> ->]; [|apply len_inj; lia].
Qed.

(** *** WebP: a RIFF file of its declared size, in chunks padded to even size *)

Definition still_chunk (name data : list byte) : Prop := name = VP8X → ∃ flags more, data = flags :: more ∧ Z.land flags 2 = 0.

Inductive webp_chunks : list byte → Prop :=
| webp_nil : webp_chunks []
| webp_chunk name size data pad rest :
    len name = 4 → len size = 4 → LittleUint32 size = Ok (len data) → name ≠ ANIM → name ≠ ANMF →
    still_chunk name data → len pad = len data mod 2 →
    webp_chunks rest → webp_chunks (name ++ size ++ data ++ pad ++ rest).

Definition webp_file (raw : list byte) : Prop :=
  ∃ riff size webp body, raw = riff ++ size ++ webp ++ body ∧ len riff = 4 ∧ len size = 4 ∧ len webp = 4 ∧
    LittleUint32 size = Ok (len raw - 8) ∧ webp_chunks body.

Lemma webp_inv name size tl :
  len name = 4 → len size = 4 → webp_chunks (name ++ size ++ tl) →
  ∃ data pad rest, tl = data ++ pad ++ rest ∧ LittleUint32 size = Ok (len data) ∧ name ≠ ANIM ∧ name ≠ ANMF ∧
    still_chunk name data ∧ len pad = len data mod 2 ∧ webp_chunks rest.
Proof.
  intros Hn Hs. inversion 1 as [Heq|name' size' data pad rest Hn' Hs' Hd H1 H2 H3 Hp Hr Heq].
  - symmetry in Heq. apply app_nil in Heq as [-> _]. unfold len in Hn. by cbn in Hn.
  - apply app_inj_1 in Heq as [-> Heq]; [|apply len_inj; lia]. apply app_inj_1 in Heq as [-> <-]; [|apply len_inj; lia].
    by exists data, pad, rest.
Qed.

Lemma webp_short body : webp_chunks body → body = [] ∨ 8 ≤ len body.
Proof.
  intros [|name size data pad rest Hn Hs]; [by left|right]. rewrite !len_app. pose proof (len_nonneg (data ++ pad ++ rest)) as Hl.
  rewrite !len_app in Hl. lia.
Qed.

Lemma webp_extended_exact pre name data rest :
  decides (webp_extended (pre ++ data ++ rest) name (len data) (len pre)) (still_chunk name data).
Proof.
  unfold webp_extended, still_chunk. case_bool_decide as Hvp; [|by apply decides_ok].
  destruct data as [|flags more].
  - apply decides_err; [done..|]. intros Hx. by destruct (Hx Hvp) as (? & ? & ? & _).
  - rewrite len_cons, (proj2 (Z.ltb_ge _ _)) by (pose proof (len_nonneg more); lia). cbn [app]. rewrite index_mid by done. cbn [result_bind].
    destruct (Z.eqb_spec (Z.land flags 2) 0) as [|Hn]; cbn [negb]; [apply decides_ok; by exists flags, more|].
    apply decides_err; [done..|]. intros Hx. destruct (Hx Hvp) as (? & ? & [= <- <-] & ?). done.
Qed.

Lemma webp_loop_exact fuel : ∀ pre body,
  Forall is_byte body → (length body < fuel)%nat →
  decides (webp_loop fuel (pre ++ body) (len pre + len body) (len pre)) (webp_chunks body).
Proof.
  induction fuel as [|fuel IH]; intros pre body Hb Hf; [lia|]. cbn [webp_loop].
  destruct (Z.ltb_spec (len pre) (len pre + len body)) as [Hlt|Hge].
  2: { assert (body = []) as -> by (apply length_zero_iff_nil; unfold len in *; lia). apply decides_ok. constructor. }
  destruct (Z.ltb_spec (len pre + len body - len pre) 8) as [Hshort|Hlong].
  { apply decides_err; [done..|]. intros [->|?]%webp_short; [unfold len in Hlt; cbn in Hlt; lia|lia]. }
  destruct (split_at 4 body) as (name & b1 & -> & Hn); [lia..|]. rewrite len_app in *.
  destruct (split_at 4 b1) as (size & tl & -> & Hs); [lia..|]. rewrite len_app in *.
  apply Forall_app in Hb as [_ Hb]. apply Forall_app in Hb as [Hbs Hb].
  rewrite (slice_mid pre name (size ++ tl)) by lia. cbn [result_bind].
  assert (slice (pre ++ name ++ size ++ tl) (len pre + 4) (len pre + 8) = Ok size) as ->.
  { rewrite (app_assoc pre). apply slice_mid; rewrite len_app; lia. }
  cbn [result_bind]. destruct (uint32_of size LittleUint32 Hs Hbs) as (v & Hv & Hrange); [by right|]. rewrite Hv. cbn [result_bind].
  rewrite (proj2 (Z.ltb_ge (len pre + 8 + v) _)) by lia. cbn [orb].
  destruct (Z.ltb_spec (len pre + (len name + (len size + len tl))) (len pre + 8 + v)) as [Hlt2|Hge2].
  { apply decides_err; [done..|]. intros (data & pad & rest & -> & Hd & _)%webp_inv; [|done..]. rewrite Hv in Hd. injection Hd as ->.
    rewrite len_app in Hlt2. pose proof (len_nonneg (pad ++ rest)). lia. }
  destruct (bool_decide (name = ANIM) || bool_decide (name = ANMF)) eqn:Han.
  { apply decides_err; [done..|]. intros (data & pad & rest & -> & _ & ? & ? & _)%webp_inv; [|done..]. apply orb_true_iff in Han.
    by destruct Han as [?%bool_decide_eq_true|?%bool_decide_eq_true]. }
  apply orb_false_iff in Han as [Hn1%bool_decide_eq_false Hn2%bool_decide_eq_false].
  destruct (split_at v tl) as (data & b2 & -> & Hd); [lia..|]. rewrite len_app in *.
  assert (∀ data' pad' rest', data ++ b2 = data' ++ pad' ++ rest' → LittleUint32 size = Ok (len data') → data = data' ∧ b2 = pad' ++ rest') as Hdata.
  { intros data' pad' rest' Heq Hd'. rewrite Hv in Hd'. injection Hd' as Hd'. apply app_inj_1 in Heq; [done|]. apply len_inj. lia. }
  pose proof (webp_extended_exact (pre ++ name ++ size) name data b2) as (Hnp & Hns & Hvp).
  replace (len (pre ++ name ++ size)) with (len pre + 8) in Hnp, Hns, Hvp by (rewrite !len_app; lia).
  rewrite <- !app_assoc, Hd in Hnp, Hns, Hvp.
  destruct (webp_extended _ _ _ _) as [[]|e]; cbn [result_bind].
  2: { apply decides_err; [congruence..|]. intros (data' & pad & rest & Heq & Hd' & _ & _ & Hx & _)%webp_inv; [|done..].
       destruct (Hdata _ _ _ Heq Hd') as [<- _]. by apply Hvp in Hx. }
  apply proj1 in Hvp. specialize (Hvp eq_refl).
  assert (0 ≤ v mod 2 < 2) as Hmod by (apply Z.mod_pos_bound; lia).
  destruct (Z.ltb_spec (len pre + (len name + (len size + (len data + len b2)))) (len pre + 8 + v + v mod 2)) as [Hlt3|Hge3].
  { apply decides_err; [done..|]. intros (data' & pad & rest & Heq & Hd' & _ & _ & _ & Hp & _)%webp_inv; [|done..].
    destruct (Hdata _ _ _ Heq Hd') as [<- ->]. rewrite len_app in Hlt3. pose proof (len_nonneg rest). rewrite Hd in Hp. lia. }
  destruct (split_at (v mod 2) b2) as (pad & rest & -> & Hp); [lia..|].
  specialize (IH (pre ++ name ++ size ++ data ++ pad) rest). rewrite <- !app_assoc in IH.
  replace (len (pre ++ name ++ size ++ data ++ pad)) with (len pre + 8 + v + v mod 2) in IH by (rewrite !len_app; lia).
  replace (len pre + (len name + (len size + (len data + len (pad ++ rest))))) with (len pre + 8 + v + v mod 2 + len rest) by (rewrite len_app; lia).
  eapply decides_iff; [|apply IH].
  - split; [intros Hr; constructor; [done|done|by rewrite Hv, Hd|done|done|done|by rewrite Hp, Hd|done]|].
    intros (data' & pad' & rest' & Heq & Hd' & _ & _ & _ & Hp' & Hr)%webp_inv; [|done..].
    destruct (Hdata _ _ _ Heq Hd') as [<- Heq']. apply app_inj_1 in Heq' as [-> ->]; [done|]. apply len_inj. rewrite Hd in Hp'. lia.
  - apply Forall_app in Hb as [_ Hb]. by apply Forall_app in Hb as [_ ?].
  - rewrite !length_app in Hf. unfold len in *. lia.
Qed.

Lemma validateStaticWebP_exact raw : Forall is_byte raw → decides (validateStaticWebP raw) (webp_file raw).
Proof.
  intros Hb. unfold validateStaticWebP. destruct (Z.ltb_spec (len raw) 12) as [Hlt|Hge].
  { apply decides_err; [done..|]. intros (riff & size & webp & body & -> & H1 & H2 & H3 & _). rewrite !len_app in Hlt.
    pose proof (len_nonneg body). lia. }
  destruct (split_at 4 raw) as (riff & r1 & -> & H1); [lia..|]. rewrite len_app in *.
  destruct (split_at 4 r1) as (size & r2 & -> & H2); [lia..|]. rewrite len_app in *.
  destruct (split_at 4 r2) as (webp & body & -> & H3); [lia..|]. rewrite len_app in *.
  apply Forall_app in Hb as [_ Hb]. apply Forall_app in Hb as [Hbs Hb]. apply Forall_app in Hb as [_ Hb].
  rewrite (slice_mid riff size) by lia. cbn [result_bind].
  destruct (uint32_of size LittleUint32 H2 Hbs) as (v & Hv & Hrange); [by right|]. rewrite Hv. cbn [result_bind].
  assert (webp_file (riff ++ size ++ webp ++ body) ↔ v + 8 = len riff + (len size + (len webp + len body)) ∧ webp_chunks body) as Hgram.
  { split.
    - intros (r' & s' & w' & b' & Heq & H1' & H2' & H3' & Hs & Hc). apply app_inj_1 in Heq as [-> Heq]; [|apply len_inj; lia].
      apply app_inj_1 in Heq as [-> Heq]; [|apply len_inj; lia]. apply app_inj_1 in Heq as [-> ->]; [|apply len_inj; lia].
      rewrite Hv in Hs. injection Hs as Hs. rewrite !len_app in Hs. split; [lia|done].
    - intros [Hs Hc]. exists riff, size, webp, body. split_and!; [done..| |done]. rewrite Hv, !len_app. f_equal. lia. }
  eapply decides_iff; [by symmetry; exact Hgram|].
  destruct (Z.eqb_spec (v + 8) (len riff + (len size + (len webp + len body)))) as [Heq|Hneq]; cbn [negb].
  2: { apply decides_err; [done..|]. by intros [? _]. }
  replace (riff ++ size ++ webp ++ body) with ((riff ++ size ++ webp) ++ body) by (by rewrite <- !app_assoc).
  replace (v + 8) with (len (riff ++ size ++ webp) + len body) by (rewrite !len_app; lia).
  replace 12 with (len (riff ++ size ++ webp)) by (rewrite !len_app; lia).
  eapply decides_iff; [|apply webp_loop_exact; [done|rewrite !length_app; lia]].
  rewrite !len_app. split; [intros Hc; split; [lia|done]|by intros [_ Hc]].
Qed.

(** What a file must be, by the signature it starts with; another is left to the decoders. *)
Definition static_image (raw : list byte) : Prop :=
  if has_prefix staticPNGSignature raw then png_file raw
  else if has_prefix GIF87a raw || has_prefix GIF89a raw then gif_file raw
  else if (12 <=? len raw) && has_prefix RIFF raw && has_prefix WEBP (drop 8 raw) then webp_file raw
  else True.

(** C14: The container check of an uploaded image ends on every file, never indexes
    outside of it, and accepts exactly the files of the grammar of their container:
    PNG chunks up to an empty IEND that ends the file, none of an animation; GIF
    blocks with at most one image and the trailer as the last byte; WebP chunks that
    fill the declared size, none of an animation and no animation flag. *)
Theorem image_check_exact raw :
  Forall is_byte raw →
  validateStaticImageContainer raw ≠ Err Panic ∧ validateStaticImageContainer raw ≠ Err Stuck ∧
  (validateStaticImageContainer raw = Ok () ↔ static_image raw).
Proof.
  intros Hb. change (decides (validateStaticImageContainer raw) (static_image raw)). unfold validateStaticImageContainer, static_image.
  destruct (has_prefix staticPNGSignature raw); [by apply validateStaticPNG_exact|].
  destruct (_ || _); [by apply validateStaticGIF_exact|]. destruct (_ && _ && _); [by apply validateStaticWebP_exact|]. by apply decides_ok.
Qed.

(** A GIF of one pixel; a second frame makes it an animation. *)
Definition tiny_frame : list byte := [44; 0; 0; 0; 0; 1; 0; 1; 0; 0; 2; 2; 76; 1; 0].
Definition tiny_gif (frames : list byte) : list byte :=
  GIF89a ++ [1; 0; 1; 0; 128; 0; 0] ++ [0; 0; 0; 255; 255; 255] ++ frames ++ [59].

Lemma image_check_exact_witness :
  static_image (tiny_gif tiny_frame) ∧ ¬ static_image (tiny_gif (tiny_frame ++ tiny_frame)) ∧
  validateStaticImageContainer (tiny_gif (tiny_frame ++ tiny_frame)) = Err Animated.
Proof.
  destruct (image_check_exact (tiny_gif tiny_frame)) as (_ & _ & H1).
  { repeat (constructor; [unfold is_byte; lia|]); constructor. }
  destruct (image_check_exact (tiny_gif (tiny_frame ++ tiny_frame))) as (_ & _ & H2).
  { repeat (constructor; [unfold is_byte; lia|]); constructor. }
  split; [apply H1; by vm_compute|]. split; [|by vm_compute].
  intros H%H2. vm_compute in H. discriminate H.
Defined.
