(* ===== verification/Assets.v ===== *)
(** * Image files and their storage ([src/internal/server/assets.go])

    A directory of the asset root: its files, and the states it had since it was
    last synced. The file system keeps the order of its updates: a power loss
    brings back one of those states, a crash of the process none. Every access may
    fail without an effect, and the process may die before any of them, by an
    oracle over the number of accesses made so far. A file is its bytes, written
    and synced before it is renamed into place; a directory or a link under the
    name of an asset is [Special]. The mode bits, the checks that a path did not
    change between looking and opening, and the opening of the root itself are not
    modelled; an operation holds the locks of its names throughout and is one
    program. *)

From Stdlib Require Import Ascii.
From stdpp Require Import pretty.
From S2P Require Import Prelude Wire GoState ChatKeys ChatText Passwords AuthService Images.

Inductive node := File (data : list byte) | Special.

Abbreviation files := (gmap string node).

Record Dir := mkDir { d_exists : bool; d_files : files; d_unsynced : list files }.

Record AW := mkAW {
  aw_dir : Dir;
  aw_icons : gmap Z string;   (* server_groups: the icon of each group *)
  aw_calls : nat;
}.

Definition set_dir (d : Dir) (w : AW) : AW := mkAW d (aw_icons w) (aw_calls w).
Definition set_icons (f : gmap Z string → gmap Z string) (w : AW) : AW := mkAW (aw_dir w) (f (aw_icons w)) (aw_calls w).
Definition tick_access (w : AW) : AW := mkAW (aw_dir w) (aw_icons w) (S (aw_calls w)).

(** The directory with other files; what it was may come back. *)
Definition change (f : files → files) (w : AW) : AW :=
  let d := aw_dir w in set_dir (mkDir (d_exists d) (f (d_files d)) (d_files d :: d_unsynced d)) w.

(** What an error is, as far as callers ask; joined errors are the first they ask for. *)
Inductive AErr :=
| ENotExist | EExist | EUnsafe | EGroupMissing | EDeleteUnavailable | EDeleteIndeterminate | EMetadataRead
| EDatabase | EAsset (what : string).

#[export] Instance AErr_eq_dec : EqDecision AErr.
Proof. solve_decision. Defined.

Inductive XErr := XFail (e : AErr) | XCrash.

Abbreviation AM := (SE AW XErr).

Inductive ioOutcome := IoOk | IoFail | IoCrash.

Definition lift {A} (r : result AErr A) : result XErr A := match r with Ok a => Ok a | Err e => Err (XFail e) end.
Definition fail {A} (e : AErr) : AM A := se_err (XFail e).
Definition of_result {A} (r : result AErr A) : AM A := λ w, (w, lift r).

(** Look at the error of [m]; a crash is not one. *)
Definition try_ {A B} (m : AM A) (k : result AErr A → AM B) : AM B := λ w,
  match m w with
  | (w', Ok a) => k (Ok a) w'
  | (w', Err (XFail e)) => k (Err e) w'
  | (w', Err XCrash) => (w', Err XCrash)
  end.

(** ** Formats, names and images *)

Record assetImageFormat := { af_contentType : string; af_extension : string; af_decoderName : string }.

Definition assetImageFormats : list assetImageFormat :=
  [{| af_contentType := "image/png"; af_extension := ".png"; af_decoderName := "png" |};
   {| af_contentType := "image/jpeg"; af_extension := ".jpg"; af_decoderName := "jpeg" |};
   {| af_contentType := "image/gif"; af_extension := ".gif"; af_decoderName := "gif" |};
   {| af_contentType := "image/webp"; af_extension := ".webp"; af_decoderName := "webp" |}].

Record assetImage := mkImage { ai_base : string; ai_fileName : string; ai_contentType : string; ai_extension : string }.
Record assetImageSnapshot := { as_image : assetImage; as_data : list byte }.

Definition maxImageBytes : Z := 256 * 1024.
Definition maxImageDimension : Z := 4096.
Definition maxImagePixels : Z := 4 * 1024 * 1024.

Definition assetFormatForExtension (extension : string) : option assetImageFormat :=
  head (filter (λ f, af_extension f = extension) assetImageFormats).
Definition assetFormatForDecoder (decoderName : string) : option assetImageFormat :=
  head (filter (λ f, af_decoderName f = decoderName) assetImageFormats).

Fixpoint format_rank (n : nat) (extension : string) (fs : list assetImageFormat) : nat :=
  match fs with
  | [] => n
  | f :: fs => if String.eqb (af_extension f) extension then n else format_rank (S n) extension fs
  end.
Definition assetFormatRank (extension : string) : nat := format_rank 0 extension assetImageFormats.

(** A component of a path on a Unix system. *)
Definition validateAssetComponent (value : string) : result AErr () :=
  if bool_decide (value ∈ [""; "."; ".."]) ||
     existsb (λ c, Ascii.eqb c "/" || Ascii.eqb c (ascii_of_nat 92)) (String.list_ascii_of_string value)
  then Err EUnsafe else Ok ().

(** The name in its directory; the directories are valid constants of the callers. *)
Definition assetImagePath (base extension : string) : result AErr string :=
  let? _ := validateAssetComponent base in
  match assetFormatForExtension extension with
  | None => Err EUnsafe
  | Some _ => Ok (base +:+ extension)
  end.

(** [filepath.Ext]: from the last dot on. *)
Fixpoint last_dot (l : list ascii) : option (list ascii) :=
  match l with
  | [] => None
  | c :: l' =>
      match last_dot l' with
      | Some e => Some e
      | None => if Ascii.eqb c "." then Some l else None
      end
  end.
Definition Ext (name : string) : string :=
  match last_dot (String.list_ascii_of_string name) with Some e => String.string_of_list_ascii e | None => "" end.

(** The decoders of [image] and [golang.org/x/image], and the random source. *)
Record AssetEnv := {
  as_DecodeConfig : list byte → option (string * Z * Z);   (* decoder, width, height *)
  as_Decode : list byte → option string;
  as_io : nat → ioOutcome;
  as_db : nat → option dbOutcome;                           (* [None]: the process dies first *)
  as_rnd : nat → option (list byte);
  as_sha256 : list byte → list byte;
}.

Section assets.
Context (C : AssetEnv).

Definition inspectAssetImage (raw : list byte) : result AErr assetImageFormat :=
  if bool_decide (raw = []) then Err (EAsset "empty image data")
  else if maxImageBytes <? len raw then Err (EAsset "image too large")
  else match validateStaticImageContainer raw with
       | Err _ => Err (EAsset "image container")
       | Ok _ =>
           match as_DecodeConfig C raw with
           | None => Err (EAsset "decoding image configuration")
           | Some (decoderName, width, height) =>
               match assetFormatForDecoder decoderName with
               | None => Err (EAsset "unsupported decoded image type")
               | Some format =>
                   if (width <=? 0) || (height <=? 0) || (maxImageDimension <? width) || (maxImageDimension <? height) ||
                      (maxImagePixels <? width * height)
                   then Err (EAsset "image dimensions exceed the limit")
                   else match as_Decode C raw with
                        | None => Err (EAsset "decoding image")
                        | Some name => if String.eqb name decoderName then Ok format
                                       else Err (EAsset "decoded image type changed between validation passes")
                        end
               end
           end
       end.

Definition validateAssetImage (raw : list byte) (expectedExtension : string) : result AErr () :=
  match assetFormatForExtension expectedExtension with
  | None => Err (EAsset "unsupported image extension")
  | Some expected =>
      let? actual := inspectAssetImage raw in
      if String.eqb (af_extension actual) (af_extension expected) then Ok ()
      else Err (EAsset "decoded image does not match extension")
  end.

(** ** Accesses to the directory *)

Definition access {A} (what : string) (k : AW → AW * result AErr A) : AM A := λ w,
  match as_io C (aw_calls w) with
  | IoCrash => (tick_access w, Err XCrash)
  | IoFail => (tick_access w, Err (XFail (EAsset what)))
  | IoOk => let '(w', r) := k (tick_access w) in (w', lift r)
  end.

Definition normalizeAssetDir : AM () :=
  access "asset directory" (λ w, (w, if d_exists (aw_dir w) then Ok () else Err ENotExist)).

Definition ensureAssetDir : AM () :=
  try_ normalizeAssetDir (λ r,
    match r with
    | Ok _ => se_ret ()
    | Err ENotExist =>
        run _ <- access "creating asset directory" (λ w, (set_dir (mkDir true (d_files (aw_dir w)) (d_unsynced (aw_dir w))) w, Ok ()));
        normalizeAssetDir
    | Err e => fail e
    end).

Definition readAssetDir : AM (list string) :=
  access "reading asset directory" (λ w, (w, Ok ((map_to_list (d_files (aw_dir w))).*1))).

Definition lookup_regular (name : string) (w : AW) : result AErr (list byte) :=
  match d_files (aw_dir w) !! name with
  | Some (File data) => Ok data
  | Some Special => Err EUnsafe
  | None => Err ENotExist
  end.

(** The size of a regular file. *)
Definition regularAssetInfo (name : string) : AM Z :=
  access "inspecting asset" (λ w, (w, let? data := lookup_regular name w in Ok (len data))).

Definition readRegularAsset (name : string) (maxBytes : Z) : AM (list byte) :=
  access "reading asset" (λ w, (w,
    let? data := lookup_regular name w in
    if maxBytes <? len data then Err (EAsset "asset too large") else Ok data)).

(** [root.Lstat]. *)
Definition lstat (name : string) : AM () :=
  access "inspecting" (λ w, (w, match d_files (aw_dir w) !! name with Some _ => Ok () | None => Err ENotExist end)).

Definition remove_file (name : string) : AM () :=
  access "removing" (λ w,
    match d_files (aw_dir w) !! name with
    | None => (w, Err ENotExist)
    | Some Special => (w, Err (EAsset "removing"))
    | Some (File _) => (change (delete name) w, Ok ())
    end).

(** Go's [if err != nil && !errors.Is(err, fs.ErrNotExist)] after a removal. *)
Definition remove_if_exists (name : string) : AM () :=
  try_ (remove_file name) (λ r, match r with Ok _ | Err ENotExist => se_ret () | Err e => fail e end).

Definition rename_file (old new : string) : AM () :=
  access "renaming" (λ w,
    match d_files (aw_dir w) !! old, d_files (aw_dir w) !! new with
    | None, _ => (w, Err ENotExist)
    | _, Some Special => (w, Err (EAsset "renaming"))
    | Some n, _ => (change (λ m, <[new := n]> (delete old m)) w, Ok ())
    end).

Definition syncAssetDir : AM () :=
  access "syncing asset directory" (λ w,
    if d_exists (aw_dir w) then (set_dir (mkDir true (d_files (aw_dir w)) []) w, Ok ()) else (w, Err (EAsset "opening asset directory"))).

(** The deferred removal of a temporary file. *)
Definition drop_temp {A} (temp : string) (e : AErr) : AM A := try_ (remove_file temp) (λ _, fail e).

Definition temp_name (name : string) (random : list byte) : string := "." +:+ name +:+ "." +:+ hex random +:+ ".tmp".

(** The file is written under a temporary name, synced and renamed. *)
Definition writeAssetAtomic (name : string) (data : list byte) : AM () := λ w,
  match as_rnd C (aw_calls w) with
  | None => (w, Err (XFail (EAsset "generating asset temporary name")))
  | Some random =>
      let temp := temp_name name random in
      (run _ <- access "creating asset temporary file" (λ w,
         match d_files (aw_dir w) !! temp with
         | Some _ => (w, Err EExist)
         | None => if d_exists (aw_dir w) then (change <[temp := File []]> w, Ok ()) else (w, Err ENotExist)
         end);
       try_ (run _ <- access "writing asset" (λ w, (change <[temp := File data]> w, Ok ()));
             rename_file temp name) (λ r,
         match r with
         | Err e => drop_temp temp e
         | Ok _ => syncAssetDir
         end)) w
  end.

(** ** Variants of an image: the same base under several extensions *)

Fixpoint each_variant (base : string) (fs : list assetImageFormat) : AM (list assetImage) :=
  match fs with
  | [] => se_ret []
  | f :: fs =>
      run name <- of_result (assetImagePath base (af_extension f));
      try_ (regularAssetInfo name) (λ r,
        match r with
        | Ok _ =>
            run rest <- each_variant base fs;
            se_ret (mkImage base name (af_contentType f) (af_extension f) :: rest)
        | Err ENotExist => each_variant base fs
        | Err e => fail e
        end)
  end.

Definition imageVariants (base : string) : AM (list assetImage) :=
  run _ <- of_result (validateAssetComponent base);
  run _ <- normalizeAssetDir;
  each_variant base assetImageFormats.

Definition existingImageVariants (base : string) : AM (list assetImage) :=
  try_ (imageVariants base) (λ r, match r with Err ENotExist => se_ret [] | _ => of_result r end).

Fixpoint keep_valid (variants : list assetImage) : AM (list assetImage) :=
  match variants with
  | [] => se_ret []
  | v :: variants =>
      try_ (readRegularAsset (ai_fileName v) maxImageBytes) (λ r,
        run rest <- keep_valid variants;
        se_ret (match r with
                | Ok raw => if is_ok (validateAssetImage raw (ai_extension v)) then v :: rest else rest
                | Err _ => rest
                end))
  end.

Definition validImageVariants (base : string) : AM (list assetImage) :=
  run variants <- existingImageVariants base; keep_valid variants.

Definition findAssetImage (base : string) : AM assetImage :=
  run variants <- validImageVariants base;
  match variants with [] => fail ENotExist | v :: _ => se_ret v end.

(** Read a variant and check what was read. *)
Definition read_checked (v : assetImage) : AM (list byte) :=
  run raw <- readRegularAsset (ai_fileName v) maxImageBytes;
  run _ <- of_result (validateAssetImage raw (ai_extension v));
  se_ret raw.

Definition readImageAtRoot (base : string) : AM (list byte * assetImage) :=
  run image <- findAssetImage base;
  run raw <- read_checked image;
  se_ret (raw, image).

Fixpoint remove_each (variants : list assetImage) : AM () :=
  match variants with
  | [] => se_ret ()
  | v :: variants => run _ <- remove_if_exists (ai_fileName v); remove_each variants
  end.

Definition removeKnownVariants (variants : list assetImage) : AM () :=
  match variants with
  | [] => se_ret ()
  | _ => run _ <- remove_each variants; syncAssetDir
  end.

Definition removeImagesAtRoot (base : string) (required : bool) : AM (option assetImage) :=
  run variants <- existingImageVariants base;
  match variants with
  | [] => if required then fail ENotExist else se_ret None
  | v :: _ => run _ <- removeKnownVariants variants; se_ret (Some v)
  end.

Fixpoint snapshot_each (variants : list assetImage) : AM (list assetImageSnapshot) :=
  match variants with
  | [] => se_ret []
  | v :: variants =>
      run raw <- readRegularAsset (ai_fileName v) maxImageBytes;
      run rest <- snapshot_each variants;
      se_ret ({| as_image := v; as_data := raw |} :: rest)
  end.

Definition snapshotImageVariants (base : string) : AM (list assetImageSnapshot) :=
  run variants <- existingImageVariants base; snapshot_each variants.

Fixpoint write_each_snapshot (base : string) (snapshots : list assetImageSnapshot) : AM () :=
  match snapshots with
  | [] => se_ret ()
  | s :: snapshots =>
      run name <- of_result (assetImagePath base (ai_extension (as_image s)));
      run _ <- writeAssetAtomic name (as_data s);
      write_each_snapshot base snapshots
  end.

Definition restoreImageVariants (base : string) (snapshots : list assetImageSnapshot) : AM () :=
  run _ <- removeImagesAtRoot base false;
  match snapshots with
  | [] => se_ret ()
  | _ =>
      run _ <- ensureAssetDir;
      run _ <- write_each_snapshot base snapshots;
      syncAssetDir
  end.

(** The data of each extension, or an error for a snapshot that is not the base's or
    comes twice. *)
Fixpoint expected_variants (base : string) (snapshots : list assetImageSnapshot) (expected : gmap string (list byte))
    : result AErr (gmap string (list byte)) :=
  match snapshots with
  | [] => Ok expected
  | s :: snapshots =>
      let v := as_image s in
      match assetImagePath base (ai_extension v) with
      | Err _ => Err (EAsset "invalid asset rollback snapshot identity")
      | Ok name =>
          if negb (String.eqb name (ai_fileName v)) then Err (EAsset "invalid asset rollback snapshot identity")
          else if bool_decide (is_Some (expected !! ai_extension v)) then Err (EAsset "duplicate asset rollback snapshot extension")
          else expected_variants base snapshots (<[ai_extension v := as_data s]> expected)
      end
  end.

Fixpoint verify_each (expected : gmap string (list byte)) (actual : list assetImage) : AM () :=
  match actual with
  | [] => se_ret ()
  | v :: actual =>
      match expected !! ai_extension v with
      | None => fail (EAsset "restored asset has unexpected variant")
      | Some want =>
          run got <- readRegularAsset (ai_fileName v) maxImageBytes;
          if bool_decide (got = want) then verify_each expected actual
          else fail (EAsset "restored asset does not match its snapshot")
      end
  end.

Definition verifyImageVariants (base : string) (snapshots : list assetImageSnapshot) : AM () :=
  run expected <- of_result (expected_variants base snapshots ∅);
  run actual <- existingImageVariants base;
  if negb (bool_decide (length actual = size expected)) then fail (EAsset "restored asset variant count")
  else verify_each expected actual.

Definition restoreImageVariantsAndVerify (base : string) (snapshots : list assetImageSnapshot) : AM () :=
  run _ <- restoreImageVariants base snapshots; verifyImageVariants base snapshots.

(** ** Writing, reading, removing and renaming an image *)

Definition mutateImageAtRoot (base extension name : string) (data : list byte) : AM string :=
  run _ <- ensureAssetDir;
  run existing <- imageVariants base;
  run _ <- writeAssetAtomic name data;
  run _ <- remove_each (filter (λ v, ai_extension v ≠ extension) existing);
  run _ <- syncAssetDir;
  se_ret name.

Definition writeImageAtRoot (base extension : string) (data : list byte) : AM string :=
  run name <- of_result (assetImagePath base extension);
  run prior <- snapshotImageVariants base;
  try_ (mutateImageAtRoot base extension name data) (λ r,
    match r with
    | Ok fileName => se_ret fileName
    | Err mutationErr => try_ (restoreImageVariantsAndVerify base prior) (λ _, fail mutationErr)
    end).

Definition writeImage (base extension : string) (data : list byte) : AM string :=
  run _ <- of_result (assetImagePath base extension); writeImageAtRoot base extension data.

Definition readImage (base : string) : AM (list byte * assetImage) :=
  run _ <- of_result (validateAssetComponent base); readImageAtRoot base.

Definition removeImage (base : string) : AM string :=
  run _ <- of_result (validateAssetComponent base);
  run image <- removeImagesAtRoot base true;
  se_ret (match image with Some v => ai_fileName v | None => "" end).

Definition renameImage (oldBase newBase : string) : AM string :=
  run _ <- of_result (validateAssetComponent oldBase);
  run _ <- of_result (validateAssetComponent newBase);
  run sources <- existingImageVariants oldBase;
  if bool_decide (sources = []) then fail ENotExist
  else
    run validSources <- validImageVariants oldBase;
    match validSources with
    | [] => fail ENotExist
    | chosen :: _ =>
        run destinations <- existingImageVariants newBase;
        if negb (bool_decide (destinations = [])) then fail EExist
        else
          run newName <- of_result (assetImagePath newBase (ai_extension chosen));
          run _ <- rename_file (ai_fileName chosen) newName;
          run _ <- removeKnownVariants (filter (λ v, ai_fileName v ≠ ai_fileName chosen) sources);
          run _ <- syncAssetDir;
          se_ret newName
    end.

(** ** Avatars: stored under the hash of the unique id, migrated from the id itself *)

Definition avatarAssetBase (uniqueID : string) : string := hex (as_sha256 C (bytes_of_string uniqueID)).

Definition safeLegacyAvatarVariants (uniqueID hashedBase : string) : AM (list assetImage) :=
  if String.eqb uniqueID hashedBase || negb (is_ok (validateAssetComponent uniqueID)) then se_ret []
  else existingImageVariants uniqueID.

Definition writeAvatar (uniqueID extension : string) (data : list byte) : AM string :=
  let base := avatarAssetBase uniqueID in
  run _ <- of_result (assetImagePath base extension);
  run legacy <- safeLegacyAvatarVariants uniqueID base;
  run fileName <- writeImageAtRoot base extension data;
  run _ <- removeKnownVariants legacy;
  se_ret fileName.

Definition readAvatar (uniqueID : string) : AM (list byte * assetImage) :=
  let base := avatarAssetBase uniqueID in
  run hashed <- validImageVariants base;
  match hashed with
  | v :: _ =>
      run raw <- read_checked v;
      run legacy <- safeLegacyAvatarVariants uniqueID base;
      run _ <- removeKnownVariants legacy;
      se_ret (raw, v)
  | [] =>
      if negb (is_ok (validateAssetComponent uniqueID)) || String.eqb uniqueID base then fail ENotExist
      else
        run legacy <- validImageVariants uniqueID;
        match legacy with
        | [] => fail ENotExist
        | v :: _ =>
            run legacyFiles <- existingImageVariants uniqueID;
            run raw <- read_checked v;
            run fileName <- writeImageAtRoot base (ai_extension v) raw;
            run _ <- removeKnownVariants legacyFiles;
            se_ret (raw, mkImage base fileName (ai_contentType v) (ai_extension v))
        end
  end.

(** ** Listings *)

(** [strings.TrimSuffix]. *)
Definition TrimSuffix (name suffix : string) : string :=
  let n := (String.length name - String.length suffix)%nat in
  if String.eqb (String.substring n (String.length suffix) name) suffix then String.substring 0 n name else name.

Fixpoint list_each (names : list string) (byBase : gmap string assetImage) : AM (gmap string assetImage) :=
  match names with
  | [] => se_ret byBase
  | name :: names =>
      match assetFormatForExtension (Ext name) with
      | None => list_each names byBase
      | Some format =>
          let base := TrimSuffix name (af_extension format) in
          if negb (is_ok (validateAssetComponent base)) then list_each names byBase
          else
            try_ (regularAssetInfo name) (λ r,
              match r with
              | Err (ENotExist | EUnsafe) => list_each names byBase
              | Err e => fail e
              | Ok _ =>
                  try_ (readRegularAsset name maxImageBytes) (λ r,
                    let usable := match r with Ok raw => is_ok (validateAssetImage raw (af_extension format)) | Err _ => false end in
                    let better := match byBase !! base with
                                  | None => true
                                  | Some current => (assetFormatRank (af_extension format) <? assetFormatRank (ai_extension current))%nat
                                  end in
                    list_each names (if usable && better
                                     then <[base := mkImage base name (af_contentType format) (af_extension format)]> byBase
                                     else byBase))
              end)
      end
  end.

Definition by_fileName (a b : assetImage) : Prop := String.le (ai_fileName a) (ai_fileName b).
#[export] Instance by_fileName_dec : RelDecision by_fileName.
Proof. intros a b. unfold by_fileName. apply _. Defined.

Definition listImages : AM (list assetImage) :=
  run _ <- normalizeAssetDir;
  run names <- readAssetDir;
  run byBase <- list_each names ∅;
  se_ret (sort_by by_fileName ((map_to_list byBase).*2)).

(** A canonical positive decimal id. *)
Definition canonical_id (base : string) : option Z :=
  match ParseInt base with
  | Some id => if (id <=? 0) || negb (String.eqb (pretty id) base) then None else Some id
  | None => None
  end.

Fixpoint discover_each (names : list string) (ids : gset Z) : AM (gset Z) :=
  match names with
  | [] => se_ret ids
  | name :: names =>
      match assetFormatForExtension (Ext name) with
      | None => discover_each names ids
      | Some format =>
          match canonical_id (TrimSuffix name (af_extension format)) with
          | None => discover_each names ids
          | Some id =>
              try_ (readRegularAsset name maxImageBytes) (λ r,
                let usable := match r with Ok raw => is_ok (validateAssetImage raw (af_extension format)) | Err _ => false end in
                discover_each names (if usable then {[id]} ∪ ids else ids))
          end
      end
  end.

Definition DiscoverChannelIconIDs : AM (list Z) :=
  try_ normalizeAssetDir (λ r,
    match r with
    | Err ENotExist => se_ret []
    | Err e => fail e
    | Ok _ =>
        run names <- readAssetDir;
        run ids <- discover_each names ∅;
        se_ret (sort_by Z.le (elements ids))
    end).

End assets.
