(* ===== verification/GroupIcons.v ===== *)
(** * Transactions on group icons ([src/internal/server/assets.go])

    An icon is a file and a column of [server_groups]. A journal file makes the two
    change together across a crash, a tombstone file makes the deletion of a group
    take its files with it; both are resolved at the next start. The metadata is
    reached through the two calls of [GroupIconMetadataStore], which may fail, take
    effect without an answer, or not be reached. *)

From stdpp Require Import pretty.
From Stdlib Require Import Ascii.
From S2P Require Import Prelude Wire GoState ChatKeys ChatText GoStrings Passwords AuthService Images Assets.

Record groupIconPriorImage := { pi_Extension : string; pi_Data : list byte; pi_SHA256 : string }.

Record groupIconJournal := mkJournal {
  gj_Version : Z;
  gj_GroupID : Z;
  gj_Base : string;
  gj_PriorIcon : string;
  gj_TargetFile : string;
  gj_PriorImages : list groupIconPriorImage;
  gj_Checksum : string;
}.

Record groupIconDeleteTombstone := mkTombstone { gd_Version : Z; gd_GroupID : Z; gd_Base : string; gd_Checksum : string }.

Definition groupIconJournalVersion : Z := 2.
Definition maxGroupIconJournalBytes : Z := 2 * 1024 * 1024.
Definition groupIconDeleteTombstoneVersion : Z := 1.
Definition maxGroupIconDeleteTombstoneBytes : Z := 4 * 1024.

(** [encoding/json] on the two records: what is encoded decodes to itself, as the
    strict decoder of the source reads it (no unknown field, nothing after it). *)
Class IconJSON := {
  marshal_journal : groupIconJournal → list byte;
  unmarshal_journal : list byte → option groupIconJournal;
  marshal_tombstone : groupIconDeleteTombstone → list byte;
  unmarshal_tombstone : list byte → option groupIconDeleteTombstone;
  unmarshal_marshal_journal j : unmarshal_journal (marshal_journal j) = Some j;
  unmarshal_marshal_tombstone t : unmarshal_tombstone (marshal_tombstone t) = Some t;
}.

(** ** Checksums *)

(** [binary.AppendUvarint] and [AppendVarint] of 64-bit integers. *)
Fixpoint uvarint_loop (fuel : nat) (x : Z) : list byte :=
  match fuel with
  | O => []
  | S fuel => if x <? 128 then [x] else Z.lor (x mod 256) 128 :: uvarint_loop fuel (x / 128)
  end.
Definition AppendUvarint (x : Z) : list byte := uvarint_loop 10 (u64 x).
Definition AppendVarint (x : Z) : list byte :=
  AppendUvarint (if x <? 0 then Z.lxor (u64 (2 * x)) (2 ^ 64 - 1) else u64 (2 * x)).

Definition appendGroupIconChecksumBytes (value : list byte) : list byte := AppendUvarint (len value) ++ value.

Definition groupIconJournalPath (base : string) : string := ".group-icon-txn-" +:+ base +:+ ".json".
Definition groupIconDeleteTombstonePath (base : string) : string := ".group-icon-delete-" +:+ base +:+ ".json".

Section icons.
Context (C : AssetEnv).
Context `{!IconJSON}.

Definition groupIconJournalChecksum (j : groupIconJournal) : string :=
  hex (as_sha256 C
    (AppendVarint (gj_Version j) ++ AppendVarint (gj_GroupID j) ++
     appendGroupIconChecksumBytes (bytes_of_string (gj_Base j)) ++
     appendGroupIconChecksumBytes (bytes_of_string (gj_PriorIcon j)) ++
     appendGroupIconChecksumBytes (bytes_of_string (gj_TargetFile j)) ++
     AppendUvarint (Z.of_nat (length (gj_PriorImages j))) ++
     (gj_PriorImages j ≫= λ p,
        appendGroupIconChecksumBytes (bytes_of_string (pi_Extension p)) ++ appendGroupIconChecksumBytes (pi_Data p) ++
        appendGroupIconChecksumBytes (bytes_of_string (pi_SHA256 p))))).

Definition with_checksum (j : groupIconJournal) : groupIconJournal :=
  mkJournal (gj_Version j) (gj_GroupID j) (gj_Base j) (gj_PriorIcon j) (gj_TargetFile j) (gj_PriorImages j)
    (groupIconJournalChecksum j).

Definition by_rank (a b : groupIconPriorImage) : Prop := (assetFormatRank (pi_Extension a) ≤ assetFormatRank (pi_Extension b))%nat.
#[local] Instance by_rank_dec : RelDecision by_rank.
Proof. intros a b. unfold by_rank. apply _. Defined.

Definition prior_image (s : assetImageSnapshot) : groupIconPriorImage :=
  {| pi_Extension := ai_extension (as_image s); pi_Data := as_data s; pi_SHA256 := hex (as_sha256 C (as_data s)) |}.

(** The checksum is taken of the record without one. *)
Definition newGroupIconJournal (groupID : Z) (priorIcon targetFile : string) (snapshots : list assetImageSnapshot) : groupIconJournal :=
  with_checksum (mkJournal groupIconJournalVersion groupID (pretty groupID) priorIcon targetFile
                   (sort_by by_rank (prior_image <$> snapshots)) "").

Definition groupIconDeleteTombstoneChecksum (t : groupIconDeleteTombstone) : string :=
  hex (as_sha256 C (AppendVarint (gd_Version t) ++ AppendVarint (gd_GroupID t) ++
                    appendGroupIconChecksumBytes (bytes_of_string (gd_Base t)))).

Definition newGroupIconDeleteTombstone (groupID : Z) : groupIconDeleteTombstone :=
  let t := mkTombstone groupIconDeleteTombstoneVersion groupID (pretty groupID) "" in
  mkTombstone (gd_Version t) (gd_GroupID t) (gd_Base t) (groupIconDeleteTombstoneChecksum t).

(** ** Validation *)

Definition same_path (base name : string) : bool :=
  match assetImagePath base (Ext name) with Ok p => String.eqb p name | Err _ => false end.

(** The loop over the prior images: extensions seen so far and the last rank. *)
Fixpoint prior_images_ok (priorExtension : string) (previousRank : Z) (seen : list string) (found : bool)
    (priors : list groupIconPriorImage) : bool :=
  match priors with
  | [] => found
  | p :: priors =>
      match assetFormatForExtension (pi_Extension p) with
      | None => false
      | Some format =>
          let ext := af_extension format in
          let rank := Z.of_nat (assetFormatRank ext) in
          negb (bool_decide (ext ∈ seen)) && negb (rank <=? previousRank) && negb (maxImageBytes <? len (pi_Data p)) &&
          String.eqb (pi_SHA256 p) (hex (as_sha256 C (pi_Data p))) && is_ok (validateAssetImage C (pi_Data p) ext) &&
          prior_images_ok priorExtension rank (ext :: seen) (found || String.eqb ext priorExtension) priors
      end
  end.

Definition validateGroupIconJournal (j : groupIconJournal) : bool :=
  (gj_Version j =? groupIconJournalVersion) &&
  negb (gj_GroupID j <=? 0) && String.eqb (gj_Base j) (pretty (gj_GroupID j)) &&
  same_path (gj_Base j) (gj_TargetFile j) &&
  (String.eqb (gj_PriorIcon j) "" || same_path (gj_Base j) (gj_PriorIcon j)) &&
  (length (gj_PriorImages j) <=? length assetImageFormats)%nat &&
  negb (String.eqb (gj_PriorIcon j) "" && negb (bool_decide (length (gj_PriorImages j) = 0%nat))) &&
  negb (negb (String.eqb (gj_PriorIcon j) "") && negb (bool_decide (length (gj_PriorImages j) = 1%nat))) &&
  match gj_PriorImages j with
  | [p] => String.eqb (gj_Base j +:+ pi_Extension p) (gj_PriorIcon j)
  | _ => true
  end &&
  prior_images_ok (if String.eqb (gj_PriorIcon j) "" then "" else Ext (gj_PriorIcon j)) (-1) [] (String.eqb (gj_PriorIcon j) "")
    (gj_PriorImages j) &&
  String.eqb (gj_Checksum j) (groupIconJournalChecksum j).

Definition validateGroupIconDeleteTombstone (t : groupIconDeleteTombstone) : bool :=
  (gd_Version t =? groupIconDeleteTombstoneVersion) &&
  negb (gd_GroupID t <=? 0) && String.eqb (gd_Base t) (pretty (gd_GroupID t)) &&
  String.eqb (gd_Checksum t) (groupIconDeleteTombstoneChecksum t).

(** ** The two files *)

Definition writeGroupIconJournal (j : groupIconJournal) : AM () :=
  if negb (validateGroupIconJournal j) then fail (EAsset "invalid group icon journal")
  else
    run _ <- ensureAssetDir C;
    if maxGroupIconJournalBytes <? len (marshal_journal j) then fail (EAsset "group icon journal too large")
    else writeAssetAtomic C (groupIconJournalPath (gj_Base j)) (marshal_journal j).

Definition removeGroupIconJournal (base : string) : AM () :=
  run _ <- remove_if_exists C (groupIconJournalPath base); syncAssetDir C.

Definition readGroupIconJournal (base : string) : AM groupIconJournal :=
  run raw <- readRegularAsset C (groupIconJournalPath base) maxGroupIconJournalBytes;
  match unmarshal_journal raw with
  | None => fail (EAsset "decoding group icon journal")
  | Some j =>
      if negb (String.eqb (gj_Base j) base) then fail (EAsset "group icon journal base does not match its file name")
      else if negb (validateGroupIconJournal j) then fail (EAsset "invalid group icon journal")
      else se_ret j
  end.

Definition writeGroupIconDeleteTombstone (t : groupIconDeleteTombstone) : AM () :=
  if negb (validateGroupIconDeleteTombstone t) then fail (EAsset "invalid group icon delete tombstone")
  else
    run _ <- ensureAssetDir C;
    if maxGroupIconDeleteTombstoneBytes <? len (marshal_tombstone t) then fail (EAsset "group icon delete tombstone too large")
    else writeAssetAtomic C (groupIconDeleteTombstonePath (gd_Base t)) (marshal_tombstone t).

Definition removeGroupIconDeleteTombstone (base : string) : AM () :=
  run _ <- remove_if_exists C (groupIconDeleteTombstonePath base); syncAssetDir C.

Definition readGroupIconDeleteTombstone (base : string) : AM groupIconDeleteTombstone :=
  run raw <- readRegularAsset C (groupIconDeleteTombstonePath base) maxGroupIconDeleteTombstoneBytes;
  match unmarshal_tombstone raw with
  | None => fail (EAsset "decoding group icon delete tombstone")
  | Some t =>
      if negb (String.eqb (gd_Base t) base) then fail (EAsset "group icon delete tombstone base does not match its file name")
      else if negb (validateGroupIconDeleteTombstone t) then fail (EAsset "invalid group icon delete tombstone")
      else se_ret t
  end.

(** ** The metadata store *)

Definition metadata {A} (k : AW → AW * result AErr A) : AM A := λ w,
  match as_db C (aw_calls w) with
  | None => (tick_access w, Err XCrash)
  | Some DbFailed => (tick_access w, Err (XFail EDatabase))
  | Some DbOk => let '(w', r) := k (tick_access w) in (w', lift r)
  | Some DbLost => ((k (tick_access w)).1, Err (XFail EDatabase))
  end.

Definition GetGroup_ (groupID : Z) : AM (option string) := metadata (λ w, (w, Ok (aw_icons w !! groupID))).

Definition SetGroupIcon_ (groupID : Z) (icon : string) : AM () :=
  metadata (λ w,
    match aw_icons w !! groupID with
    | Some _ => (set_icons <[groupID := icon]> w, Ok ())
    | None => (w, Err EDatabase)
    end).

(** [refused]: the group has members and the deletion is not forced. *)
Definition DeleteGroup_ (refused : bool) (groupID : Z) : AM () :=
  metadata (λ w,
    match aw_icons w !! groupID with
    | None => (w, Err EDatabase)
    | Some _ => if refused then (w, Err EDatabase) else (set_icons (delete groupID) w, Ok ())
    end).

(** ** What is there before a transaction *)

Record groupIconRecoveryBaseline := mkBaseline {
  bl_icon : string;
  bl_snapshots : list assetImageSnapshot;
  bl_isRepairNeeded : bool;
}.

(** The variant the metadata names, when it is one that can be kept. *)
Definition linked_snapshot (name : string) (variants : list assetImage) : AM (option assetImageSnapshot) :=
  match head (filter (λ v, ai_fileName v = name) variants) with
  | None => se_ret None
  | Some linked =>
      try_ (regularAssetInfo C name) (λ r,
        match r with
        | Ok size =>
            if maxImageBytes <? size then se_ret None
            else try_ (readRegularAsset C name maxImageBytes) (λ r,
              match r with
              | Ok raw => se_ret (if is_ok (validateAssetImage C raw (ai_extension linked))
                                  then Some {| as_image := linked; as_data := raw |} else None)
              | Err ENotExist => se_ret None
              | Err e => fail e
              end)
        | Err ENotExist => se_ret None
        | Err e => fail e
        end)
  end.

Definition canonicalGroupIconRecoveryBaseline (base metadataIcon : string) : AM groupIconRecoveryBaseline :=
  run variants <- existingImageVariants C base;
  run linked <- (if negb (String.eqb metadataIcon "") && same_path base metadataIcon
                 then linked_snapshot metadataIcon variants else se_ret None);
  let icon := match linked with Some _ => metadataIcon | None => "" end in
  let snapshots := match linked with Some s => [s] | None => [] end in
  let needed := negb (String.eqb metadataIcon icon) || negb (bool_decide (length variants = length snapshots)) ||
                match variants, snapshots with
                | [v], [s] => negb (String.eqb (ai_fileName v) (ai_fileName (as_image s)))
                | _, _ => false
                end in
  se_ret (mkBaseline icon snapshots needed).

(** ** Setting an icon *)

Definition roll_back (base : string) (baseline : groupIconRecoveryBaseline) (e : AErr) : AM string :=
  try_ (restoreImageVariantsAndVerify C base (bl_snapshots baseline)) (λ r,
    match r with
    | Err _ => fail e
    | Ok _ => try_ (removeGroupIconJournal base) (λ _, fail e)
    end).

Definition confirmGroupIconBaseline (groupID : Z) (baselineIcon : string) : AM bool :=
  run icon <- GetGroup_ groupID; se_ret (bool_decide (icon = Some baselineIcon)).

(** Both sides as the baseline has them. *)
Definition normalize_baseline (groupID : Z) (base icon : string) (baseline : groupIconRecoveryBaseline) : AM () :=
  if bl_isRepairNeeded baseline then
    run _ <- (if String.eqb icon (bl_icon baseline) then se_ret () else SetGroupIcon_ groupID (bl_icon baseline));
    restoreImageVariantsAndVerify C base (bl_snapshots baseline)
  else se_ret ().

Definition commit_icon (groupID : Z) (base fileName : string) (baseline : groupIconRecoveryBaseline) : AM string :=
  try_ (SetGroupIcon_ groupID fileName) (λ r,
    match r with
    | Ok _ => run _ <- removeGroupIconJournal base; se_ret fileName
    | Err metadataErr =>
        try_ (confirmGroupIconBaseline groupID (bl_icon baseline)) (λ r,
          match r with
          | Ok true => roll_back base baseline metadataErr
          | _ => fail metadataErr
          end)
    end).

Definition writeGroupIconWithMetadata (groupID : Z) (extension : string) (data : list byte) : AM string :=
  if groupID <=? 0 then fail EGroupMissing
  else
    let base := pretty groupID in
    run target <- of_result (assetImagePath base extension);
    try_ (lstat C (groupIconJournalPath base)) (λ r,
      match r with
      | Ok _ => fail (EAsset "group icon transaction requires startup recovery")
      | Err ENotExist =>
          run group <- GetGroup_ groupID;
          match group with
          | None => fail EGroupMissing
          | Some icon =>
              run baseline <- canonicalGroupIconRecoveryBaseline base icon;
              run _ <- writeGroupIconJournal (newGroupIconJournal groupID (bl_icon baseline) target (bl_snapshots baseline));
              run _ <- normalize_baseline groupID base icon baseline;
              try_ (writeImageAtRoot C base extension data) (λ r,
                match r with
                | Err writeErr => roll_back base baseline writeErr
                | Ok fileName => commit_icon groupID base fileName baseline
                end)
          end
      | Err e => fail e
      end).

(** ** Reading an icon: exactly the file the metadata names *)

Definition readGroupIcon (groupID : Z) : AM (list byte * assetImage) :=
  if groupID <=? 0 then fail ENotExist
  else
    let base := pretty groupID in
    try_ (GetGroup_ groupID) (λ r,
      match r with
      | Err _ => fail EMetadataRead
      | Ok None => fail ENotExist
      | Ok (Some icon) =>
          if String.eqb icon "" then fail ENotExist
          else if negb (same_path base icon) then fail EUnsafe
          else match assetFormatForExtension (Ext icon) with
               | None => fail EUnsafe
               | Some format =>
                   run _ <- normalizeAssetDir C;
                   run raw <- readRegularAsset C icon maxImageBytes;
                   run _ <- of_result (validateAssetImage C raw (Ext icon));
                   se_ret (raw, mkImage base icon (af_contentType format) (Ext icon))
               end
      end).

(** ** Deleting a group *)

Definition removeGroupIconArtifactsAtRoot (base : string) : AM () :=
  try_ (normalizeAssetDir C) (λ r,
    match r with
    | Err ENotExist => se_ret ()
    | Err e => fail e
    | Ok _ =>
        run _ <- removeImagesAtRoot C base false;
        removeGroupIconJournal base
    end).

Definition confirmServerGroupDeleted (groupID : Z) : AM bool :=
  run group <- GetGroup_ groupID; se_ret (bool_decide (group = None)).

(** The answer: was the group deleted, and the error. *)
Definition deleteServerGroupWithAssets (refused : bool) (groupID : Z) : AM (bool * option AErr) :=
  if groupID <=? 0 then se_ret (false, Some EGroupMissing)
  else
    let base := pretty groupID in
    let finish :=
      try_ (run _ <- removeGroupIconArtifactsAtRoot base; removeGroupIconDeleteTombstone base) (λ r,
        se_ret (true, match r with Ok _ => None | Err e => Some e end)) in
    try_ (writeGroupIconDeleteTombstone (newGroupIconDeleteTombstone groupID)) (λ r,
      match r with
      | Err _ => se_ret (false, Some EDeleteUnavailable)
      | Ok _ =>
          try_ (DeleteGroup_ refused groupID) (λ r,
            match r with
            | Ok _ => finish
            | Err deleteErr =>
                try_ (confirmServerGroupDeleted groupID) (λ r,
                  match r with
                  | Err _ => se_ret (false, Some EDeleteIndeterminate)
                  | Ok false =>
                      try_ (removeGroupIconDeleteTombstone base) (λ r,
                        se_ret (false, Some match r with Ok _ => deleteErr | Err _ => EDeleteUnavailable end))
                  | Ok true => finish
                  end)
            end)
      end).

(** ** Recovery at the start of the server *)

Definition groupIconJournalSnapshots (j : groupIconJournal) : list assetImageSnapshot :=
  (λ p, {| as_image := mkImage (gj_Base j) (gj_Base j +:+ pi_Extension p)
                         (match assetFormatForExtension (pi_Extension p) with Some f => af_contentType f | None => "" end)
                         (pi_Extension p);
           as_data := pi_Data p |}) <$> gj_PriorImages j.

Definition HasSuffix (name suffix : string) : bool :=
  String.eqb (String.substring (String.length name - String.length suffix) (String.length suffix) name) suffix.

(** The ids in the names of the files of one kind; one that is not canonical is an error. *)
Fixpoint bases_each (prefix : string) (names : list string) : AM (list string) :=
  match names with
  | [] => se_ret []
  | name :: names =>
      if negb (String.prefix prefix name) || negb (HasSuffix name ".json") then bases_each prefix names
      else
        let base := TrimSuffix (String.substring (String.length prefix) (String.length name) name) ".json" in
        match canonical_id base with
        | None => fail (EAsset "invalid group icon transaction file")
        | Some _ =>
            run _ <- regularAssetInfo C name;
            run rest <- bases_each prefix names;
            se_ret (base :: rest)
        end
  end.

Definition transaction_bases (prefix : string) : AM (list string) :=
  try_ (normalizeAssetDir C) (λ r,
    match r with
    | Err ENotExist => se_ret []
    | Err e => fail e
    | Ok _ =>
        run names <- readAssetDir C;
        run bases <- bases_each prefix names;
        se_ret (sort_by String.le bases)
    end).

Definition groupIconJournalBases : AM (list string) := transaction_bases ".group-icon-txn-".
Definition groupIconDeleteTombstoneBases : AM (list string) := transaction_bases ".group-icon-delete-".

(** Did the transaction of the journal commit? *)
Definition target_committed (base : string) (j : groupIconJournal) : AM bool :=
  try_ (existingImageVariants C base) (λ r,
    match r with
    | Ok [v] =>
        if String.eqb (ai_fileName v) (gj_TargetFile j)
        then try_ (readImageAtRoot C base) (λ r, se_ret (is_ok r))
        else se_ret false
    | _ => se_ret false
    end).

Definition recoverGroupIconJournal (base : string) : AM () :=
  run j <- readGroupIconJournal base;
  run group <- GetGroup_ (gj_GroupID j);
  match group with
  | None => run _ <- removeImagesAtRoot C base false; removeGroupIconJournal base
  | Some icon =>
      run committed <- (if String.eqb icon (gj_TargetFile j) then target_committed base j else se_ret false);
      if committed : bool then removeGroupIconJournal base
      else
        run _ <- restoreImageVariantsAndVerify C base (groupIconJournalSnapshots j);
        run _ <- SetGroupIcon_ (gj_GroupID j) (gj_PriorIcon j);
        removeGroupIconJournal base
  end.

Definition recoverGroupIconDeleteTombstone (base : string) : AM () :=
  run t <- readGroupIconDeleteTombstone base;
  run group <- GetGroup_ (gd_GroupID t);
  match group with
  | Some _ => removeGroupIconDeleteTombstone base
  | None =>
      run _ <- removeGroupIconArtifactsAtRoot base;
      removeGroupIconDeleteTombstone base
  end.

Fixpoint recover_each (recover : string → AM ()) (bases : list string) : AM () :=
  match bases with
  | [] => se_ret ()
  | base :: bases => run _ <- recover base; recover_each recover bases
  end.

Definition RecoverGroupIconTransactions : AM () :=
  run bases <- groupIconJournalBases;
  run deleteBases <- groupIconDeleteTombstoneBases;
  run _ <- recover_each recoverGroupIconJournal bases;
  recover_each recoverGroupIconDeleteTombstone deleteBases.

End icons.

(** ** Restarts *)

(** What the disk holds after the power is lost: the directory as it is, or as it was
    some updates ago, but not before the last sync. *)
Definition power_loss (updates : nat) (w : AW) : AW :=
  let d := aw_dir w in
  set_dir (mkDir (d_exists d) (default (d_files d) ((d_files d :: d_unsynced d) !! updates)) []) w.

(** * Names of icon files

    The names a transaction on a group's icon uses are apart from each other and
    from those of other groups, and are read back from a listing. *)

(** ** Names *)

(** The base of a group's files: decimal digits. *)
Definition group_base (b : string) : Prop := Forall is_digit (chars_of b) ∧ chars_of b ≠ [].

Lemma not_digit_dot c : is_digit c → c ≠ "."%char.
Proof. unfold is_digit. intros Hc ->. vm_compute in Hc. lia. Qed.

Lemma digits_before_dot (a b x y : list ascii) :
  Forall is_digit a → Forall is_digit b → a ++ "."%char :: x = b ++ "."%char :: y → a = b ∧ x = y.
Proof.
  intros Ha. revert b. induction Ha as [|c a Hc _ IH]; intros b Hb Heq.
  - destruct Hb as [|d b Hd]; cbn in Heq; injection Heq; [done|]. intros _ <-. by apply not_digit_dot in Hd.
  - destruct Hb as [|d b Hd Hb]; cbn in Heq; injection Heq; [intros _ ->; by apply not_digit_dot in Hc|].
    intros Heq' ->. by destruct (IH b Hb Heq') as [-> ->].
Qed.

Definition extensions : list string := af_extension <$> assetImageFormats.

(** The names of the files of a group. *)
Definition variant_of (b n : string) : Prop := ∃ e, e ∈ extensions ∧ n = b +:+ e.
Definition reserved (b n : string) : Prop :=
  n = groupIconJournalPath b ∨ n = groupIconDeleteTombstonePath b ∨ variant_of b n.

Lemma extension_chars e : e ∈ extensions → ∃ l, chars_of e = "."%char :: l ∧ last_dot l = None.
Proof.
  unfold extensions. cbn. rewrite !elem_of_cons, elem_of_nil. intros He; destruct_or? He; subst e; eexists; (split; [reflexivity|reflexivity]).
Qed.

Lemma format_extension e f : assetFormatForExtension e = Some f → e ∈ extensions ∧ af_extension f = e.
Proof.
  unfold assetFormatForExtension. intros (He & Hin)%head_Some_elem_of%list_elem_of_filter. split; [|done].
  rewrite <- He. by apply list_elem_of_fmap_2.
Qed.

Lemma extension_format e : e ∈ extensions → ∃ f, assetFormatForExtension e = Some f ∧ af_extension f = e.
Proof.
  unfold extensions. cbn. rewrite !elem_of_cons, elem_of_nil. intros He; destruct_or? He; subst e; eexists; split; reflexivity.
Qed.

Lemma variant_starts b n : group_base b → variant_of b n → ∃ c l, chars_of n = c :: l ∧ is_digit c.
Proof.
  intros [Hd Hne] (e & _ & ->). rewrite chars_app. destruct (chars_of b) as [|c l]; [done|]. apply Forall_cons in Hd as [Hc _]. by exists c, (l ++ chars_of e).
Qed.

Lemma variant_not_dot b n s : group_base b → variant_of b n → n ≠ "." +:+ s.
Proof.
  intros Hb Hn ->. destruct (variant_starts b _ Hb Hn) as (c & l & Heq & Hc). cbn in Heq. injection Heq as <- _. by apply not_digit_dot in Hc.
Qed.

Lemma path_last (p : string) : last (chars_of (p +:+ ".json")) = Some "n"%char.
Proof. rewrite chars_app, last_app. reflexivity. Qed.

Lemma temp_last n r : last (chars_of (temp_name n r)) = Some "p"%char.
Proof. unfold temp_name. by rewrite !chars_app, !last_app. Qed.

Lemma temp_not_reserved b n r : group_base b → ¬ reserved b (temp_name n r).
Proof.
  intros Hb [Heq|[Heq|Hv]].
  - pose proof (temp_last n r) as Hl. rewrite Heq in Hl. unfold groupIconJournalPath in Hl. rewrite !chars_app, !last_app in Hl. done.
  - pose proof (temp_last n r) as Hl. rewrite Heq in Hl. unfold groupIconDeleteTombstonePath in Hl. rewrite !chars_app, !last_app in Hl. done.
  - exact (variant_not_dot b _ _ Hb Hv eq_refl).
Qed.

Lemma journal_inj b b' : groupIconJournalPath b = groupIconJournalPath b' → b = b'.
Proof.
  unfold groupIconJournalPath. intros Heq%(f_equal chars_of). rewrite !chars_app in Heq. apply app_inv_head, app_inv_tail in Heq. by apply chars_inj.
Qed.

Lemma tombstone_inj b b' : groupIconDeleteTombstonePath b = groupIconDeleteTombstonePath b' → b = b'.
Proof.
  unfold groupIconDeleteTombstonePath. intros Heq%(f_equal chars_of). rewrite !chars_app in Heq. apply app_inv_head, app_inv_tail in Heq. by apply chars_inj.
Qed.

Lemma journal_not_tombstone b b' : groupIconJournalPath b ≠ groupIconDeleteTombstonePath b'.
Proof. by intros ?%(f_equal chars_of). Qed.

Lemma variant_inj b b' e e' : group_base b → group_base b' → e ∈ extensions → e' ∈ extensions → b +:+ e = b' +:+ e' → b = b' ∧ e = e'.
Proof.
  intros [Hd _] [Hd' _] He He' Heq%(f_equal chars_of). rewrite !chars_app in Heq.
  destruct (extension_chars e He) as (l & Hl & _), (extension_chars e' He') as (l' & Hl' & _). rewrite Hl, Hl' in Heq.
  apply digits_before_dot in Heq as [Hb ->]; [|done..]. split; apply chars_inj; [done|congruence].
Qed.

Lemma variant_not_reserved_path b n : group_base b → variant_of b n → ∀ b', n ≠ groupIconJournalPath b' ∧ n ≠ groupIconDeleteTombstonePath b'.
Proof. intros Hb Hv b'. split; exact (variant_not_dot b n _ Hb Hv). Qed.

(** Groups do not share names. *)
Lemma reserved_disjoint b b' n : group_base b → group_base b' → reserved b n → reserved b' n → b = b'.
Proof.
  intros Hb Hb' Hr Hr'.
  destruct Hr as [Hn|[Hn|Hn]], Hr' as [Hn'|[Hn'|Hn']]; try (by destruct (variant_not_reserved_path _ _ Hb Hn b'));
    try (by destruct (variant_not_reserved_path _ _ Hb' Hn' b)).
  - apply journal_inj. congruence.
  - destruct (journal_not_tombstone b b'). congruence.
  - destruct (journal_not_tombstone b' b). congruence.
  - apply tombstone_inj. congruence.
  - destruct Hn as (e & He & ->), Hn' as (e' & He' & Heq). by destruct (variant_inj b b' e e').
Qed.

(** The name of a variant is read back. *)
Lemma Ext_variant b e : e ∈ extensions → Ext (b +:+ e) = e.
Proof.
  intros He. destruct (extension_chars e He) as (l & Hl & Hn). unfold Ext. rewrite chars_app, Hl.
  assert (∀ x, last_dot (x ++ "."%char :: l) = Some ("."%char :: l)) as ->.
  { induction x as [|c x IH]; cbn; [by rewrite Hn|by rewrite IH]. }
  rewrite <- Hl. apply String.string_of_list_ascii_of_string.
Qed.

Lemma group_base_component b : group_base b → validateAssetComponent b = Ok ().
Proof.
  intros [Hd Hne]. unfold validateAssetComponent. rewrite bool_decide_eq_false_2.
  2: { rewrite !elem_of_cons, elem_of_nil. intros H; destruct_or? H; subst b; cbn in *; [done|..];
       apply Forall_cons in Hd as [Hc _]; by apply not_digit_dot in Hc. }
  cbn [orb]. replace (existsb _ _) with false; [done|]. symmetry. apply not_true_is_false. intros (c & Hc & Heq)%existsb_exists.
  rewrite Forall_forall in Hd. specialize (Hd c). apply list_elem_of_In in Hc. specialize (Hd Hc). unfold is_digit in Hd.
  apply orb_true_iff in Heq as [->%Ascii.eqb_eq| ->%Ascii.eqb_eq]; vm_compute in Hd; lia.
Qed.

Lemma assetImagePath_Ok b e n : group_base b → assetImagePath b e = Ok n ↔ e ∈ extensions ∧ n = b +:+ e.
Proof.
  intros Hb. unfold assetImagePath. rewrite group_base_component by done. cbn [result_bind].
  destruct (assetFormatForExtension e) as [f|] eqn:Hf.
  - destruct (format_extension e f Hf) as [He _]. split; [by intros [= <-]|by intros [_ ->]].
  - split; [done|]. intros [He _]. destruct (extension_format e He) as (f & Hf' & _). by rewrite Hf' in Hf.
Qed.

Lemma same_path_iff b n : group_base b → same_path b n = true ↔ variant_of b n.
Proof.
  intros Hb. unfold same_path, variant_of. split.
  - destruct (assetImagePath b (Ext n)) as [p|] eqn:Hp; [|done]. apply assetImagePath_Ok in Hp as [He ->]; [|done].
    intros <-%String.eqb_eq. exists (Ext (b +:+ Ext n)). by rewrite (Ext_variant b (Ext n)).
  - intros (e & He & ->). rewrite Ext_variant by done. rewrite (proj2 (assetImagePath_Ok b e (b +:+ e) Hb)) by done. by apply String.eqb_eq.
Qed.

(** ** The base of a journal is read back from its name *)

Lemma substring_suffix a s : String.substring (String.length (a +:+ s) - String.length s) (String.length s) (a +:+ s) = s.
Proof.
  apply chars_inj. rewrite chars_substring, chars_app, <- !chars_length, chars_app, length_app. rewrite drop_app_length' by lia. by rewrite firstn_all.
Qed.

Lemma substring_rest p s : String.substring (String.length p) (String.length (p +:+ s)) (p +:+ s) = s.
Proof.
  apply chars_inj. rewrite chars_substring, chars_app, <- !chars_length, chars_app, length_app, drop_app_length. apply take_ge. lia.
Qed.

Lemma HasSuffix_app a s : HasSuffix (a +:+ s) s = true.
Proof. unfold HasSuffix. by rewrite substring_suffix, String.eqb_refl. Qed.

Lemma TrimSuffix_app a s : TrimSuffix (a +:+ s) s = a.
Proof.
  unfold TrimSuffix. rewrite substring_suffix, String.eqb_refl. apply chars_inj.
  rewrite chars_substring, drop_0, chars_app, <- !chars_length, chars_app, length_app. by rewrite take_app_length' by lia.
Qed.
