(* ===== verification/AssetLogic.v ===== *)
(** * Rules for programs over an asset directory

    Triples that hold for every oracle: a program started where [P] holds ends where
    [Q] of its answer holds, and where [X] holds if the process dies in it. What a
    program only reads it leaves as it was; a program that writes keeps every
    assertion that is [closed] under the updates it may make. *)

From Stdlib Require Import Ascii.
From stdpp Require Import pretty.
From S2P Require Import Prelude GoStrings Wire GoState ChatKeys ChatText Passwords AuthService Images Assets GroupIcons.

(** Assertions do not see the number of accesses. *)
Abbreviation assn := (Dir → gmap Z string → Prop).

Definition outcome {A} (Q : result AErr A → assn) (X : assn) (r : result XErr A) : assn :=
  match r with Ok a => Q (Ok a) | Err (XFail e) => Q (Err e) | Err XCrash => X end.

Definition hoare {A} (P : assn) (m : AM A) (Q : result AErr A → assn) (X : assn) : Prop :=
  ∀ w, P (aw_dir w) (aw_icons w) → outcome Q X (m w).2 (aw_dir (m w).1) (aw_icons (m w).1).

Definition reads {A} (m : AM A) (φ : result AErr A → assn) : Prop :=
  ∀ P, hoare P m (λ r d ic, P d ic ∧ φ r d ic) P.

Lemma hoare_conseq {A} (P P' : assn) (m : AM A) Q Q' (X X' : assn) :
  hoare P' m Q' X' → (∀ d ic, P d ic → P' d ic) → (∀ r d ic, Q' r d ic → Q r d ic) → (∀ d ic, X' d ic → X d ic) → hoare P m Q X.
Proof.
  intros Hm HP HQ HX w Hw. specialize (Hm w (HP _ _ Hw)). destruct (m w) as [w' [a|[e|]]]; cbn in *; auto.
Qed.

Lemma hoare_ret {A} (P : assn) (a : A) Q X : (∀ d ic, P d ic → Q (Ok a) d ic) → hoare P (se_ret a) Q X.
Proof. intros H w Hw. cbn. auto. Qed.

Lemma hoare_fail {A} (P : assn) e (Q : result AErr A → assn) X : (∀ d ic, P d ic → Q (Err e) d ic) → hoare P (fail e) Q X.
Proof. intros H w Hw. cbn. auto. Qed.

Lemma hoare_of_result {A} (P : assn) (r : result AErr A) Q X : (∀ d ic, P d ic → Q r d ic) → hoare P (of_result r) Q X.
Proof. intros H w Hw. destruct r; cbn; auto. Qed.

Lemma hoare_try {A B} (P : assn) (m : AM A) (k : result AErr A → AM B) R Q X :
  hoare P m R X → (∀ r, hoare (R r) (k r) Q X) → hoare P (try_ m k) Q X.
Proof.
  intros Hm Hk w Hw. specialize (Hm w Hw). unfold try_. destruct (m w) as [w' [a|[e|]]]; cbn in *; [by apply Hk..|done].
Qed.

Lemma hoare_bind {A B} (P : assn) (m : AM A) (k : A → AM B) R (Q : result AErr B → assn) X :
  hoare P m R X → (∀ a, hoare (R (Ok a)) (k a) Q X) → (∀ e d ic, R (Err e) d ic → Q (Err e) d ic) → hoare P (run x <- m; k x) Q X.
Proof.
  intros Hm Hk He w Hw. specialize (Hm w Hw). unfold se_bind. destruct (m w) as [w' [a|[e|]]]; cbn in *; [by apply Hk|auto|done].
Qed.

Lemma run_Ok {A B} (a : A) (k : A → AM B) : (run x <- of_result (Ok a); k x) = k a.
Proof. reflexivity. Qed.

(** A fact that does not depend on the state. *)
Lemma hoare_pure {A} (P : assn) (φ : Prop) (m : AM A) Q X :
  (∀ d ic, P d ic → φ) → (φ → hoare P m Q X) → hoare P m Q X.
Proof. intros Hφ Hm w Hw. by apply Hm; [eapply Hφ|]. Qed.

(** ** Programs that only read *)

Lemma reads_hoare {A} (m : AM A) φ (P : assn) Q (X : assn) :
  reads m φ → (∀ r d ic, P d ic → φ r d ic → Q r d ic) → (∀ d ic, P d ic → X d ic) → hoare P m Q X.
Proof. intros Hm HQ HX. eapply hoare_conseq; [apply (Hm P)|done| |done]. intros r d ic []. auto. Qed.

Lemma reads_conseq {A} (m : AM A) (φ ψ : result AErr A → assn) : reads m φ → (∀ r d ic, φ r d ic → ψ r d ic) → reads m ψ.
Proof. intros Hm H P. eapply reads_hoare; [done| |done]. auto. Qed.

Lemma reads_ret {A} (a : A) (φ : result AErr A → assn) : (∀ d ic, φ (Ok a) d ic) → reads (se_ret a) φ.
Proof. intros H P. apply hoare_ret. auto. Qed.

Lemma reads_fail {A} e (φ : result AErr A → assn) : (∀ d ic, φ (Err e) d ic) → reads (fail e) φ.
Proof. intros H P. apply hoare_fail. auto. Qed.

Lemma reads_of_result {A} (r : result AErr A) : reads (of_result r) (λ r' _ _, r' = r).
Proof. intros P. apply hoare_of_result. auto. Qed.

Lemma reads_try {A B} (m : AM A) (k : result AErr A → AM B) φ ψ χ :
  reads m φ → (∀ r, reads (k r) (ψ r)) → (∀ r s d ic, φ r d ic → ψ r s d ic → χ s d ic) → reads (try_ m k) χ.
Proof.
  intros Hm Hk H P. eapply hoare_try.
  - eapply hoare_conseq; [apply (Hm P)|done| |done]. intros r d ic H'. exact H'.
  - intros r. eapply reads_hoare; [apply Hk| |by intros ?? []]. intros s d ic [HP Hφ] Hψ. split; [done|]. by eapply H.
Qed.

Lemma reads_bind {A B} (m : AM A) (k : A → AM B) φ ψ (χ : result AErr B → assn) :
  reads m φ → (∀ a, reads (k a) (ψ a)) → (∀ e d ic, φ (Err e) d ic → χ (Err e) d ic) →
  (∀ a s d ic, φ (Ok a) d ic → ψ a s d ic → χ s d ic) → reads (run x <- m; k x) χ.
Proof.
  intros Hm Hk He H P. eapply hoare_bind.
  - eapply hoare_conseq; [apply (Hm P)|done| |done]. intros r d ic H'. exact H'.
  - intros a. eapply reads_hoare; [apply Hk| |by intros ?? []]. intros s d ic [HP Hφ] Hψ. split; [done|]. by eapply H.
  - intros e d ic [HP Hφ]. auto.
Qed.

(** Nothing is claimed of an error. *)
Definition on_ok {A} (φ : A → assn) (r : result AErr A) : assn := λ d ic, match r with Ok a => φ a d ic | Err _ => True end.

Lemma reads_bind_ok {A B} (m : AM A) (k : A → AM B) φ ψ (χ : B → assn) :
  reads m (on_ok φ) → (∀ a, reads (k a) (on_ok (ψ a))) → (∀ a b d ic, φ a d ic → ψ a b d ic → χ b d ic) →
  reads (run x <- m; k x) (on_ok χ).
Proof.
  intros Hm Hk H. eapply reads_bind; [done|exact Hk|done|]. intros a [b|e] d ic; cbn; [|done]. apply H.
Qed.

(** What was read may be used to choose what to show of the rest. *)
Lemma reads_bind_with {A B} (m : AM A) (k : A → AM B) φ ψ (χ : B → assn) :
  reads m (on_ok φ) → (∀ a d ic, φ a d ic → reads (k a) (on_ok (ψ a))) → (∀ a b d ic, φ a d ic → ψ a b d ic → χ b d ic) →
  reads (run x <- m; k x) (on_ok χ).
Proof.
  intros Hm Hk H P. eapply hoare_bind; [exact (Hm P)| |by intros e d ic []].
  intros a w [HP Hφ]. eapply reads_hoare; [by eapply Hk|..].
  - instantiate (1 := λ d ic, P d ic ∧ φ a d ic). intros [b|e] d ic [HP' Hφ'] Hψ; (split; [done|]); [|done]. by eapply H.
  - by intros d ic [].
  - done.
Qed.

(** ** Programs that keep an assertion *)

Definition keeps {A} (P : assn) (m : AM A) : Prop := hoare P m (λ _, P) P.

Lemma keeps_bind {A B} P (m : AM A) (k : A → AM B) : keeps P m → (∀ a, keeps P (k a)) → keeps P (run x <- m; k x).
Proof. intros Hm Hk. by eapply (hoare_bind _ _ _ (λ _, P)). Qed.

Lemma keeps_try {A B} P (m : AM A) (k : result AErr A → AM B) : keeps P m → (∀ r, keeps P (k r)) → keeps P (try_ m k).
Proof. intros Hm Hk. by eapply (hoare_try _ _ _ (λ _, P)). Qed.

Lemma keeps_ret {A} P (a : A) : keeps P (se_ret a).
Proof. by apply hoare_ret. Qed.

Lemma keeps_fail {A} P e : keeps P (fail (A := A) e).
Proof. by apply hoare_fail. Qed.

Lemma keeps_of_result {A} P (r : result AErr A) : keeps P (of_result r).
Proof. by apply hoare_of_result. Qed.

Lemma keeps_reads {A} P (m : AM A) φ : reads m φ → keeps P m.
Proof. intros Hm. eapply reads_hoare; [exact Hm|by intros|done]. Qed.

(** What a program answers may be used in what follows. *)
Lemma keeps_bind_with {A B} P (m : AM A) (k : A → AM B) (φ : A → Prop) :
  hoare P m (λ r d ic, P d ic ∧ ∀ a, r = Ok a → φ a) P → (∀ a, φ a → keeps P (k a)) → keeps P (run x <- m; k x).
Proof.
  intros Hm Hk. eapply hoare_bind; [exact Hm| |by intros e d ic []]. intros a w [Hw Hφ]. by apply (Hk a); [apply Hφ|].
Qed.

Create HintDb asset_keeps.
#[export] Hint Resolve keeps_ret keeps_fail keeps_of_result : asset_keeps.

(** Goes through a program whose accesses the hint base knows. *)
Ltac keeps_steps :=
  repeat (cbv zeta; match goal with
  | |- keeps _ (se_bind _ _) => apply keeps_bind; [|intros ?]
  | |- keeps _ (try_ _ _) => apply keeps_try; [|intros ?]
  | |- keeps _ (match ?x with _ => _ end) => destruct x
  end); eauto with asset_keeps.

(** ** Accesses *)

Section rules.
Context (C : AssetEnv).

Lemma hoare_access {A} (P : assn) what (k : AW → AW * result AErr A) Q (X : assn) :
  (∀ d ic, P d ic → X d ic) → (∀ d ic, P d ic → Q (Err (EAsset what)) d ic) →
  (∀ w, P (aw_dir w) (aw_icons w) → Q (k w).2 (aw_dir (k w).1) (aw_icons (k w).1)) → hoare P (access C what k) Q X.
Proof.
  intros HX HF Hk w Hw. unfold access. destruct (as_io C (aw_calls w)); [|by apply HF|by apply HX].
  specialize (Hk (tick_access w) Hw). destruct (k (tick_access w)) as [w' [a|e]]; cbn in *; done.
Qed.

(** An access that answers from the state; it fails by itself with [EAsset]. *)
Lemma reads_access {A} what (f : AW → result AErr A) (φ : result AErr A → assn) :
  (∀ d ic, φ (Err (EAsset what)) d ic) → (∀ w, φ (f w) (aw_dir w) (aw_icons w)) → reads (access C what (λ w, (w, f w))) φ.
Proof. intros HF Hf P. apply hoare_access; cbn; auto. Qed.

Lemma hoare_metadata {A} (P : assn) (k : AW → AW * result AErr A) Q (X : assn) :
  (∀ d ic, P d ic → X d ic) → (∀ d ic, P d ic → Q (Err EDatabase) d ic) →
  (∀ w, P (aw_dir w) (aw_icons w) → Q (k w).2 (aw_dir (k w).1) (aw_icons (k w).1) ∧ Q (Err EDatabase) (aw_dir (k w).1) (aw_icons (k w).1)) →
  hoare P (metadata C k) Q X.
Proof.
  intros HX HF Hk w Hw. unfold metadata. specialize (Hk (tick_access w) Hw). destruct (as_db C (aw_calls w)) as [[]|]; [|by apply HF| |by apply HX].
  - destruct (k (tick_access w)) as [w' [a|e]]; cbn in *; tauto.
  - cbn. tauto.
Qed.

Lemma reads_GetGroup groupID : reads (GetGroup_ C groupID) (on_ok (λ icon _ ic, icon = ic !! groupID)).
Proof. intros P. apply hoare_metadata; cbn; auto. Qed.

Lemma reads_normalizeAssetDir :
  reads (normalizeAssetDir C) (λ r d _, match r with Ok _ => d_exists d = true | Err e => e = ENotExist → d_exists d = false end).
Proof. apply reads_access; [done|]. intros w. by destruct (d_exists (aw_dir w)). Qed.

Lemma reads_readAssetDir : reads (readAssetDir C) (on_ok (λ names d _, ∀ n, is_Some (d_files d !! n) → n ∈ names)).
Proof.
  apply reads_access; [done|]. intros w. cbn. intros n [x Hx]. apply list_elem_of_fmap. exists (n, x). by rewrite elem_of_map_to_list.
Qed.

Definition is_file (d : Dir) (n : string) (raw : list byte) : Prop := d_files d !! n = Some (File raw).

Lemma lookup_regular_Ok n w raw : lookup_regular n w = Ok raw ↔ is_file (aw_dir w) n raw.
Proof. unfold lookup_regular, is_file. destruct (d_files (aw_dir w) !! n) as [[data|]|]; naive_solver. Qed.

Lemma reads_regularAssetInfo n :
  reads (regularAssetInfo C n) (λ r d _, match r with Ok _ => ∃ raw, is_file d n raw
                                        | Err e => e = ENotExist → d_files d !! n = None end).
Proof.
  apply reads_access; [done|]. intros w. destruct (lookup_regular n w) as [raw|e] eqn:Hl; cbn [result_bind].
  - exists raw. by apply lookup_regular_Ok.
  - intros ->. unfold lookup_regular in Hl. by destruct (d_files (aw_dir w) !! n) as [[data|]|].
Qed.

Lemma reads_readRegularAsset n k :
  reads (readRegularAsset C n k) (λ r d _, match r with Ok raw => is_file d n raw ∧ len raw ≤ k
                                          | Err e => e = ENotExist → d_files d !! n = None end).
Proof.
  apply reads_access; [done|]. intros w. destruct (lookup_regular n w) as [raw|e] eqn:Hl; cbn [result_bind].
  - destruct (k <? len raw) eqn:Hk; [done|]. split; [by apply lookup_regular_Ok|lia].
  - intros ->. unfold lookup_regular in Hl. by destruct (d_files (aw_dir w) !! n) as [[data|]|].
Qed.

Lemma reads_lstat n :
  reads (lstat C n) (λ r d _, match r with Ok _ => is_Some (d_files d !! n) | Err e => e = ENotExist → d_files d !! n = None end).
Proof. apply reads_access; [done|]. intros w. by destruct (d_files (aw_dir w) !! n). Qed.

End rules.

(** ** Listing the variants of a base *)

Definition variant_image (b : string) (f : assetImageFormat) : assetImage :=
  mkImage b (b +:+ af_extension f) (af_contentType f) (af_extension f).

#[export] Instance file_dec d n : Decision (∃ raw, is_file d n raw).
Proof. unfold is_file. destruct (d_files d !! n) as [[raw|]|]; [left; eauto|right; naive_solver..]. Defined.

(** The variants of [b] that are there. *)
Definition variants_in (b : string) (fs : list assetImageFormat) (d : Dir) : list assetImage :=
  variant_image b <$> filter (λ f, ∃ raw, is_file d (b +:+ af_extension f) raw) fs.

Definition names_variant (b : string) (v : assetImage) : Prop := ∃ f, f ∈ assetImageFormats ∧ v = variant_image b f.

Lemma names_variant_of b v : names_variant b v → variant_of b (ai_fileName v) ∧ ai_extension v = Ext (ai_fileName v) ∧ ai_extension v ∈ extensions ∧
  ai_fileName v = b +:+ ai_extension v.
Proof.
  intros (f & Hf & ->). cbn. assert (af_extension f ∈ extensions) as He by by apply list_elem_of_fmap_2.
  split_and!; [by exists (af_extension f)|by rewrite Ext_variant|done|done].
Qed.

Lemma formats_inj f f' : f ∈ assetImageFormats → f' ∈ assetImageFormats → af_extension f = af_extension f' → f = f'.
Proof.
  unfold assetImageFormats. rewrite !elem_of_cons, !elem_of_nil. intros Hf Hf'. destruct_or? Hf; destruct_or? Hf'; subst f f'; done.
Qed.

Section listing.
Context (C : AssetEnv) (b : string) (Hb : group_base b).

Lemma variants_in_elem d v : v ∈ variants_in b assetImageFormats d ↔ names_variant b v ∧ ∃ raw, is_file d (ai_fileName v) raw.
Proof.
  unfold variants_in, names_variant. rewrite list_elem_of_fmap. split.
  - intros (f & -> & (Hr & Hf)%list_elem_of_filter). split; [by exists f|done].
  - intros ((f & Hf & ->) & Hr). exists f. split; [done|]. by apply list_elem_of_filter.
Qed.

Lemma reads_each_variant fs : (∀ f, f ∈ fs → f ∈ assetImageFormats) →
  reads (each_variant C b fs) (λ r d _, match r with Ok vs => vs = variants_in b fs d | Err e => e ≠ ENotExist end).
Proof.
  unfold variants_in. induction fs as [|f fs IH]; intros Hfs; cbn [each_variant]; [by apply reads_ret|].
  rewrite (proj2 (assetImagePath_Ok b (af_extension f) (b +:+ af_extension f) Hb)).
  2: { split; [|done]. apply list_elem_of_fmap_2, Hfs. by left. }
  specialize (IH (λ f Hf, Hfs f (list_elem_of_further _ _ _ Hf))).
  eapply reads_bind; [apply reads_of_result| |done|].
  { intros name. eapply (reads_try _ _ _ (λ r s d ic,
      match r with
      | Ok _ => match s with Ok vs => ∃ rest, vs = mkImage b name (af_contentType f) (af_extension f) :: rest ∧
                                      rest = variant_image b <$> filter (λ f, ∃ raw, is_file d (b +:+ af_extension f) raw) fs
                        | Err e => e ≠ ENotExist end
      | Err ENotExist => match s with Ok vs => vs = variant_image b <$> filter (λ f, ∃ raw, is_file d (b +:+ af_extension f) raw) fs
                                 | Err e => e ≠ ENotExist end
      | Err e => s = Err e
      end) (λ s d ic, match s with
          | Ok vs => vs = (if decide (∃ raw, is_file d name raw) then [mkImage b name (af_contentType f) (af_extension f)] else []) ++
                          (variant_image b <$> filter (λ f, ∃ raw, is_file d (b +:+ af_extension f) raw) fs)
          | Err e => e ≠ ENotExist end)); [apply reads_regularAssetInfo| |].
    - intros [z|e].
      + eapply reads_bind; [exact IH|intros rest; by apply reads_ret; intros ??; instantiate (1 := λ rest s _ _, s = Ok (_ :: rest))| |].
        { done. }
        intros rest s d ic -> ->. by eexists.
      + destruct e; try (by apply reads_fail). exact IH.
    - intros [z|e] s d ic Hr Hs.
      + rewrite decide_True by done. destruct s as [vs|]; [|done]. by destruct Hs as (rest & -> & ->).
      + assert (e ≠ ENotExist → s = Err e) as Hs'. { intros. by destruct e. }
        destruct (decide (e = ENotExist)) as [->|He]; [|rewrite Hs' by done; done].
        rewrite decide_False; [by destruct s|]. unfold is_file. rewrite (Hr eq_refl). naive_solver. }
  intros name s d ic [= ->] Hs. destruct s as [vs|]; [|done]. rewrite Hs, filter_cons. cbv beta. by case_decide.
Qed.

Lemma reads_imageVariants :
  reads (imageVariants C b) (λ r d _, match r with Ok vs => d_exists d = true ∧ vs = variants_in b assetImageFormats d
                                     | Err e => e = ENotExist → d_exists d = false end).
Proof.
  unfold imageVariants. rewrite group_base_component by done.
  eapply reads_bind; [apply reads_of_result| |done|intros ? ? ? ? _ H; exact H]. intros [].
  eapply (reads_bind _ _ _ (λ _ r d _, match r with Ok vs => vs = variants_in b assetImageFormats d | Err e => e ≠ ENotExist end));
    [apply reads_normalizeAssetDir|intros []; by apply reads_each_variant|done|].
  intros [] s d ic Hd Hs. destruct s; [done|]. by intros ->.
Qed.

Lemma reads_existingImageVariants :
  reads (existingImageVariants C b)
    (on_ok (λ vs d _, (d_exists d = true ∧ vs = variants_in b assetImageFormats d) ∨ (d_exists d = false ∧ vs = []))).
Proof.
  eapply (reads_try _ _ _ (λ r s d ic, s = (match r with Err ENotExist => Ok [] | _ => r end))); [apply reads_imageVariants| |].
  - intros [vs|[]]; try apply reads_of_result. by apply reads_ret.
  - intros [vs|e] s d ic Hr ->; cbn; [by left|]. destruct e; try done. right. auto.
Qed.

(** Whatever is listed is there. *)
Lemma existing_elem vs d v :
  (d_exists d = true ∧ vs = variants_in b assetImageFormats d) ∨ (d_exists d = false ∧ vs = []) → v ∈ vs →
  names_variant b v ∧ d_exists d = true ∧ ∃ raw, is_file d (ai_fileName v) raw.
Proof. intros [[Hd ->]|[Hd ->]]; [|by rewrite elem_of_nil]. intros [Hv Hr]%variants_in_elem. done. Qed.

Definition valid_image (n : string) (raw : list byte) : Prop := is_ok (validateAssetImage C raw (Ext n)) = true.

Lemma reads_keep_valid vs : reads (keep_valid C vs) (on_ok (λ ws _ _, ∀ v, v ∈ ws → v ∈ vs)).
Proof.
  induction vs as [|v vs IH]; cbn [keep_valid]; [apply reads_ret; cbn; tauto|].
  eapply (reads_try _ _ _ (λ r, on_ok (λ ws _ _, ∀ x, x ∈ ws → x ∈ v :: vs))); [apply reads_readRegularAsset| |by intros].
  intros r. eapply reads_bind_ok; [exact IH| |].
  { intros rest. eapply (reads_ret _ (on_ok (λ ws _ _, ∀ x, x ∈ ws → x = v ∨ x ∈ rest))). cbn. intros _ _ x.
    destruct r as [raw|e]; [destruct (is_ok _)|]; rewrite ?elem_of_cons; tauto. }
  intros rest ws d ic Hrest Hws x Hx%Hws. rewrite elem_of_cons. destruct Hx as [->|Hx%Hrest]; tauto.
Qed.

Lemma reads_read_checked v :
  reads (read_checked C v) (on_ok (λ raw d _, is_file d (ai_fileName v) raw ∧ is_ok (validateAssetImage C raw (ai_extension v)) = true)).
Proof.
  eapply (reads_bind_ok _ _ (λ raw d _, is_file d (ai_fileName v) raw)).
  - eapply reads_conseq; [apply reads_readRegularAsset|]. intros [raw|] d ic; cbn; [tauto|done].
  - intros raw. instantiate (1 := λ raw raw' _ _, raw' = raw ∧ is_ok (validateAssetImage C raw (ai_extension v)) = true).
    eapply (reads_bind _ _ _ (λ _ s _ _, s = Ok raw)); [apply reads_of_result|intros []; by apply reads_ret|done|].
    intros [] s d ic Hv ->. cbn in *. by rewrite <- Hv.
  - cbn beta. intros raw raw' d ic Hr [-> Hv]. done.
Qed.

(** Reading an image: one of its variants, valid. *)
Lemma reads_readImageAtRoot :
  reads (readImageAtRoot C b) (on_ok (λ ri d _, names_variant b ri.2 ∧ is_file d (ai_fileName ri.2) ri.1 ∧ valid_image (ai_fileName ri.2) ri.1)).
Proof.
  unfold readImageAtRoot, findAssetImage. eapply (reads_bind_ok _ _ (λ v d _, names_variant b v)).
  - eapply (reads_bind_ok _ _ (λ vs d _, ∀ v, v ∈ vs → names_variant b v)).
    + unfold validImageVariants. eapply reads_bind_ok; [apply reads_existingImageVariants|apply reads_keep_valid|].
      cbn beta. intros vs ws d ic Hvs Hws v Hv. by apply (existing_elem vs d v Hvs), Hws.
    + intros vs. instantiate (1 := λ vs v _ _, head vs = Some v). destruct vs; [by apply reads_fail|by apply reads_ret].
    + intros vs v d ic H [vs' ->]%head_Some. apply H. by left.
  - intros v. eapply reads_bind_ok; [apply reads_read_checked|intros raw; by apply (reads_ret _ (on_ok (λ ri _ _, ri = (raw, v))))|].
    cbn beta. intros raw ri d ic H ->. instantiate (1 := λ v ri d _, ri.2 = v ∧ is_file d (ai_fileName v) ri.1 ∧
      is_ok (validateAssetImage C ri.1 (ai_extension v)) = true). done.
  - cbn beta. intros v [raw v'] d ic Hv (Heq & Hr & Hok). cbn in *. subst v'. split_and!; [done..|].
    unfold valid_image. by destruct (names_variant_of b v Hv) as (_ & <- & _).
Qed.

End listing.

(** ** Snapshots *)

Section snapshots.
Context (C : AssetEnv) (b : string) (Hb : group_base b).

Definition snapshot_of (d : Dir) (s : assetImageSnapshot) : Prop :=
  names_variant b (as_image s) ∧ is_file d (ai_fileName (as_image s)) (as_data s).

Lemma reads_snapshotImageVariants : reads (snapshotImageVariants C b) (on_ok (λ ss d _, Forall (snapshot_of d) ss)).
Proof.
  unfold snapshotImageVariants.
  eapply (reads_bind_ok _ _ _ (λ vs ss d _, Forall (names_variant b) vs → Forall (snapshot_of d) ss)); [by apply reads_existingImageVariants| |].
  - intros vs. induction vs as [|v vs IH]; cbn [snapshot_each]; [apply reads_ret; cbn; auto|].
    eapply (reads_bind_ok _ _ (λ raw d _, is_file d (ai_fileName v) raw)).
    + eapply reads_conseq; [apply reads_readRegularAsset|]. intros [raw|] d ic; cbn; tauto.
    + intros raw. eapply reads_bind_ok; [exact IH|intros rest; by apply (reads_ret _ (on_ok (λ ss _ _, ss = {| as_image := v; as_data := raw |} :: rest)))|].
      instantiate (1 := λ raw ss d _, Forall (names_variant b) vs → ∃ rest, ss = {| as_image := v; as_data := raw |} :: rest ∧ Forall (snapshot_of d) rest).
      cbn beta. intros rest ss d ic Hrest -> Hvs. eauto.
    + cbn beta. intros raw ss d ic Hr Hss [Hv Hvs]%Forall_cons. destruct (Hss Hvs) as (rest & -> & Hrest). constructor; [by split|done].
  - cbn beta. intros vs ss d ic Hvs Hss. apply Hss. apply Forall_forall. intros v Hv. by apply (existing_elem b vs d v Hvs).
Qed.

Lemma reads_verify_any ss : reads (verifyImageVariants C b ss) (λ _ _ _, True).
Proof.
  eapply (reads_bind _ _ _ (λ _ _ _ _, True)); [apply reads_of_result| |done|done]. intros m.
  eapply (reads_bind _ _ _ (λ _ _ _ _, True)); [by apply reads_existingImageVariants| |done|done].
  intros vs. destruct (negb _); [by apply reads_fail|]. induction vs as [|v vs IH]; cbn [verify_each]; [by apply reads_ret|].
  destruct (m !! ai_extension v); [|by apply reads_fail].
  eapply (reads_bind _ _ _ (λ _ _ _ _, True)); [apply reads_readRegularAsset| |done|done].
  intros got. case_bool_decide; [exact IH|by apply reads_fail].
Qed.

(** The check after a restoration: the one image of the snapshot is there. *)
Lemma reads_verifyImageVariants s :
  names_variant b (as_image s) →
  reads (verifyImageVariants C b [s]) (on_ok (λ _ d _, d_exists d = true ∧ is_file d (ai_fileName (as_image s)) (as_data s))).
Proof.
  intros Hs. destruct (names_variant_of b _ Hs) as (_ & _ & He & Hn). unfold verifyImageVariants. cbn [expected_variants].
  rewrite (proj2 (assetImagePath_Ok b _ (ai_fileName (as_image s)) Hb)) by done. rewrite String.eqb_refl, lookup_empty, bool_decide_eq_false_2 by (by intros []).
  cbn [negb]. set (m := <[_ := _]> _).
  rewrite run_Ok.
  eapply (reads_bind_ok _ _ _ (λ vs _ d _, ∃ v, vs = [v] ∧ (names_variant b v → is_file d (ai_fileName (as_image s)) (as_data s))));
    [by apply reads_existingImageVariants| |].
  - intros vs. destruct (negb _) eqn:Hlen; [by apply reads_fail|]. apply negb_false_iff, bool_decide_eq_true in Hlen.
    unfold m in Hlen. rewrite map_size_insert, lookup_empty, map_size_empty in Hlen. destruct vs as [|v [|v' vs]]; [done| |done].
    cbn [verify_each]. destruct (m !! ai_extension v) as [want|] eqn:Hw; [|by apply reads_fail].
    unfold m in Hw. apply lookup_insert_Some in Hw as [[Hx <-]|[_ Hw]]; [|done].
    eapply (reads_bind_ok _ _ (λ raw d _, is_file d (ai_fileName v) raw)).
    { eapply reads_conseq; [apply reads_readRegularAsset|]. intros [raw|] d ic; cbn; tauto. }
    + intros got. instantiate (1 := λ got _ _ _, got = as_data s).
      case_bool_decide as Heq; [by apply reads_ret|by apply reads_fail].
    + cbn beta. intros got _ d ic Hf ->. exists v. split; [done|]. intros (_ & _ & _ & Hv)%names_variant_of. by rewrite Hn, Hx, <- Hv.
  - cbn beta. intros vs _ d ic Hvs (v & -> & Hv). destruct (existing_elem b _ d v Hvs) as (Hnv & Hd & _); [by left|auto].
Qed.

End snapshots.

(** ** Programs that write *)

Definition is_temp (n : string) : Prop := ∃ name random, n = temp_name name random.

(** The directory after one update. *)
Definition updated (f : files → files) (d : Dir) : Dir := mkDir (d_exists d) (f (d_files d)) (d_files d :: d_unsynced d).

(** [P] stays when the directory is made or synced, when a temporary file or one of [del]
    goes, and when a file that [put] allows appears. *)
Record closed (del : string → Prop) (put : string → list byte → Prop) (P : assn) : Prop := {
  closed_mkdir d ic : P d ic → P (mkDir true (d_files d) (d_unsynced d)) ic;
  closed_sync d ic : P d ic → P (mkDir (d_exists d) (d_files d) []) ic;
  closed_del d ic n : P d ic → is_temp n ∨ del n → P (updated (delete n) d) ic;
  closed_put d ic n data : P d ic → is_temp n ∨ put n data → P (updated <[n := File data]> d) ic;
  closed_rename d ic old n data : P d ic → is_temp old ∨ del old → is_file d old data → put n data →
    P (updated (λ m, <[n := File data]> (delete old m)) d) ic;
}.

(** A file that the updates do not touch can be added to an assertion. *)
Lemma closed_file del put P n data : closed del put P → ¬ is_temp n →
  closed (λ x, del x ∧ x ≠ n) (λ x y, put x y ∧ (x = n → y = data)) (λ d ic, P d ic ∧ is_file d n data).
Proof.
  intros [H1 H2 H3 H4 H5] Hn. unfold is_file. split.
  - intros d ic []. auto.
  - intros d ic []. auto.
  - intros d ic x [HP Hf] Hx. split; [apply H3; tauto|]. cbn. rewrite lookup_delete_ne; [done|]. intros ->. tauto.
  - intros d ic x y [HP Hf] Hx. split; [apply H4; tauto|]. cbn. destruct (decide (x = n)) as [->|]; [|by rewrite lookup_insert_ne].
    rewrite lookup_insert_eq. destruct Hx as [|[_ ->]]; [done|done|done].
  - intros d ic x n' y [HP Hf] Hx Hy [Hp Heq]. split; [apply H5; tauto|]. cbn. destruct (decide (n' = n)) as [->|].
    + by rewrite lookup_insert_eq, Heq.
    + rewrite lookup_insert_ne, lookup_delete_ne by (try done; intros ->; tauto). done.
Qed.

Section writes.
Context (C : AssetEnv) (del : string → Prop) (put : string → list byte → Prop) (P : assn) (HP : closed del put P).

Definition settled (d : Dir) : Prop := d_unsynced d = [].

Lemma hoare_syncAssetDir : hoare P (syncAssetDir C) (λ r d ic, P d ic ∧ (r = Ok () → settled d)) P.
Proof.
  apply hoare_access; [done|by intros|]. intros w Hw. pose proof (closed_sync _ _ _ HP _ _ Hw) as Hs.
  destruct (d_exists (aw_dir w)); [|done]. split; [exact Hs|done].
Qed.

Lemma hoare_remove_file n : is_temp n ∨ del n →
  hoare P (remove_file C n) (λ r d ic, P d ic ∧ match r with Ok _ | Err ENotExist => d_files d !! n = None | _ => True end) P.
Proof.
  intros Hn. apply hoare_access; [done|by intros|]. intros w Hw. cbn. destruct (d_files (aw_dir w) !! n) as [[data|]|] eqn:Hl; cbn; [|done..].
  split; [by apply (closed_del _ _ _ HP)|]. apply lookup_delete_eq.
Qed.

Lemma hoare_remove_if_exists n : is_temp n ∨ del n →
  hoare P (remove_if_exists C n) (λ r d ic, P d ic ∧ (r = Ok () → d_files d !! n = None)) P.
Proof.
  intros Hn. eapply hoare_try; [by apply hoare_remove_file|]. intros [x|[]]; try (apply hoare_fail; intros ?? []; by split).
  all: apply hoare_ret; cbn; by intros ?? [].
Qed.

Lemma hoare_remove_each vs : (∀ v, v ∈ vs → del (ai_fileName v)) → hoare P (remove_each C vs) (λ _, P) P.
Proof.
  induction vs as [|v vs IH]; intros Hvs; cbn [remove_each]; [by apply hoare_ret|].
  eapply hoare_bind; [apply hoare_remove_if_exists; right; apply Hvs; by left| |by intros ??? []].
  intros u. eapply hoare_conseq; [apply IH; intros v' Hv'; apply Hvs; by right|by intros ?? []|done..].
Qed.

Lemma hoare_normalizeAssetDir : hoare P (normalizeAssetDir C) (λ r d ic, P d ic ∧ (r = Ok () → d_exists d = true)) P.
Proof. eapply reads_hoare; [apply reads_normalizeAssetDir| |done]. intros [[]|] d ic; naive_solver. Qed.

Lemma hoare_ensureAssetDir : hoare P (ensureAssetDir C) (λ r d ic, P d ic ∧ (r = Ok () → d_exists d = true)) P.
Proof.
  eapply hoare_try; [apply hoare_normalizeAssetDir|]. intros [[]|e].
  - apply hoare_ret. intros d ic [H Hd]. auto.
  - destruct e; try (apply hoare_fail; intros ?? []; by split).
    eapply (hoare_bind _ _ _ (λ _, P)); [|intros _; apply hoare_normalizeAssetDir|by intros].
    apply hoare_access; [by intros ?? []|by intros ?? []|]. intros w [Hw _]. by apply (closed_mkdir _ _ _ HP).
Qed.

End writes.

(** The rename takes [P] to [P']. *)
Lemma hoare_writeAssetAtomic C name data dels puts dels' puts' P P' X :
  closed dels puts P → closed dels' puts' P' → (∀ d ic, P d ic → X d ic) → (∀ d ic, P' d ic → X d ic) →
  (∀ d ic old, P d ic → is_temp old → is_file d old data → d_exists d = true →
     P' (updated (λ m, <[name := File data]> (delete old m)) d) ic) →
  ¬ is_temp name →
  hoare P (writeAssetAtomic C name data)
    (λ r d ic, match r with Ok _ => P' d ic ∧ is_file d name data ∧ settled d | Err _ => P d ic ∨ P' d ic end) X.
Proof.
  intros HP HP' HX HX' Hren Hname w Hw. unfold writeAssetAtomic. destruct (as_rnd C (aw_calls w)) as [random|]; [|by left].
  set (temp := temp_name name random). assert (is_temp temp) as Ht by by exists name, random. revert w Hw.
  match goal with |- ∀ w, _ → outcome ?Q _ (?m w).2 _ _ => change (hoare P m Q X) end.
  eapply (hoare_bind _ _ _ (λ r d ic, P d ic ∧ (r = Ok () → d_exists d = true))).
  - apply hoare_access; [done|by intros|]. intros w Hw. destruct (d_files (aw_dir w) !! temp); [done|].
    destruct (d_exists (aw_dir w)) eqn:Hd; cbn; [|done]. split; [|done]. apply (closed_put _ _ _ HP); tauto.
  - intros []. eapply (hoare_try _ _ _ (λ r d ic, match r with Ok _ => P' d ic ∧ is_file d name data | Err _ => P d ic end)).
    + eapply (hoare_bind _ _ _ (λ r d ic, P d ic ∧ (r = Ok () → d_exists d = true ∧ is_file d temp data))).
      * apply hoare_access; [naive_solver|naive_solver|]. intros w [Hw Hd]. cbn. split; [by apply (closed_put _ _ _ HP); tauto|].
        intros _. split; [auto|]. apply lookup_insert_eq.
      * intros []. apply hoare_access; [naive_solver|naive_solver|]. intros w [Hw Hd]. destruct (Hd eq_refl) as [Hex Hf]. unfold is_file in Hf. rewrite Hf.
        destruct (d_files (aw_dir w) !! name) as [[|]|]; cbn; [|done|]; (split; [by apply Hren|]; apply lookup_insert_eq).
      * by intros e d ic [].
    + intros [[]|e].
      * eapply (hoare_conseq _ (λ d ic, P' d ic ∧ is_file d name data) _ _ _ _ (λ d ic, P' d ic ∧ is_file d name data)); [|done| |by intros ?? [? _]; apply HX'].
        -- apply (hoare_syncAssetDir C _ _ _ (closed_file _ _ _ name data HP' Hname)).
        -- intros [[]|] d ic [[H1 H2] H3]; [|by right]. auto.
      * eapply hoare_try; [eapply hoare_conseq; [apply (hoare_remove_file C _ _ P HP); by left|done| |exact HX]; intros r d ic H; exact H|].
        intros r. apply hoare_fail. intros d ic [H _]. by left.
  - intros e d ic [H _]. by left.
Qed.

Lemma variant_not_temp b n : group_base b → variant_of b n → ¬ is_temp n.
Proof. intros Hb Hn (name & random & ->). by apply (temp_not_reserved b name random Hb); right; right. Qed.

(** The programs on the variants of one base. *)
Section variants.
Context (C : AssetEnv) (b : string) (Hb : group_base b).
Context (del : string → Prop) (put : string → list byte → Prop) (P : assn) (HP : closed del put P).
Context (Hdel : ∀ n, variant_of b n → del n).

Lemma hoare_write_closed name data : put name data → ¬ is_temp name →
  hoare P (writeAssetAtomic C name data) (λ r d ic, P d ic ∧ (r = Ok () → is_file d name data ∧ settled d)) P.
Proof.
  intros Hput Hname. eapply hoare_conseq; [apply (hoare_writeAssetAtomic C name data del put del put P P P); try done|done| |exact (λ _ _ H, H)].
  - intros d ic old H Ht Hf _. apply (closed_rename _ _ _ HP); tauto.
  - intros [[]|e] d ic; cbn; [tauto|]. intros [H|H]; by split.
Qed.

Lemma hoare_removeKnownVariants vs : (∀ v, v ∈ vs → names_variant b v) → hoare P (removeKnownVariants C vs) (λ _, P) P.
Proof.
  intros Hvs. destruct vs as [|v vs]; [by apply hoare_ret|]. unfold removeKnownVariants.
  eapply (hoare_bind _ _ _ (λ _, P)); [|intros _|done].
  - apply (hoare_remove_each C del put P HP). intros v' Hv'. by apply Hdel, (names_variant_of b), Hvs.
  - eapply hoare_conseq; [by apply (hoare_syncAssetDir C del put)|done| |exact (λ _ _ H, H)]. by intros r d ic [].
Qed.

Lemma hoare_existing : hoare P (existingImageVariants C b) (λ r d ic, P d ic ∧ (∀ vs, r = Ok vs → ∀ v, v ∈ vs → names_variant b v)) P.
Proof.
  eapply reads_hoare; [by apply reads_existingImageVariants| |done]. intros [vs|e] d ic H Hr; (split; [done|]); [|done].
  intros vs' [= <-] v Hv. by apply (existing_elem b vs d v Hr).
Qed.

Lemma hoare_removeImagesAtRoot required : hoare P (removeImagesAtRoot C b required) (λ _, P) P.
Proof.
  eapply hoare_bind; [apply hoare_existing| |by intros e d ic []]. intros vs.
  eapply (hoare_pure _ (∀ v, v ∈ vs → names_variant b v)); [intros d ic [_ H]; by apply H|]. intros Hvs.
  destruct vs as [|v vs]; [destruct required; [apply hoare_fail|apply hoare_ret]; by intros ?? []|].
  eapply (hoare_bind _ _ _ (λ _, P)); [|intros u; by apply hoare_ret|done].
  eapply hoare_conseq; [by apply hoare_removeKnownVariants|by intros ?? []|done..].
Qed.

(** A snapshot that may be written back. *)
Definition writable (s : assetImageSnapshot) : Prop := names_variant b (as_image s) ∧ put (ai_fileName (as_image s)) (as_data s).

Lemma hoare_write_each_snapshot ss : Forall writable ss → hoare P (write_each_snapshot C b ss) (λ _, P) P.
Proof.
  induction 1 as [|s ss [Hn Hput] _ IH]; cbn [write_each_snapshot]; [by apply hoare_ret|].
  destruct (names_variant_of b _ Hn) as (Hv & _ & He & Hname).
  rewrite (proj2 (assetImagePath_Ok b _ (ai_fileName (as_image s)) Hb)), run_Ok by done.
  eapply hoare_bind; [apply hoare_write_closed; [done|by eapply variant_not_temp]| |by intros e d ic []].
  intros u. eapply hoare_conseq; [exact IH|by intros ?? []|done..].
Qed.

Lemma hoare_restoreImageVariants ss : Forall writable ss → hoare P (restoreImageVariants C b ss) (λ _, P) P.
Proof.
  intros Hss. eapply (hoare_bind _ _ _ (λ _, P)); [apply hoare_removeImagesAtRoot|intros u|done].
  destruct ss as [|s ss]; [by apply hoare_ret|].
  eapply hoare_bind; [by apply (hoare_ensureAssetDir C del put)| |by intros e d ic []]. intros u'.
  eapply (hoare_bind _ _ _ (λ _, P)); [eapply hoare_conseq; [by apply hoare_write_each_snapshot|by intros ?? []|done..]|intros u2|done].
  eapply hoare_conseq; [by apply (hoare_syncAssetDir C del put)|done| |exact (λ _ _ H, H)]. by intros r d ic [].
Qed.

(** At most one image is restored. *)
Lemma hoare_restoreImageVariantsAndVerify (os : option assetImageSnapshot) : Forall writable (option_list os) →
  hoare P (restoreImageVariantsAndVerify C b (option_list os))
    (λ r d ic, P d ic ∧ (r = Ok () → ∀ s, os = Some s → d_exists d = true ∧ is_file d (ai_fileName (as_image s)) (as_data s))) P.
Proof.
  intros Hos. eapply (hoare_bind _ _ _ (λ _, P)); [by apply hoare_restoreImageVariants|intros u|by intros].
  destruct os as [s|]; cbn [option_list].
  - apply Forall_singleton in Hos as [Hn _]. eapply reads_hoare; [by apply (reads_verifyImageVariants C b Hb s)| |done].
    intros [u'|e] d ic H Hf; (split; [done|]); [|done]. by intros _ s' [= <-].
  - eapply reads_hoare; [by apply (reads_verify_any C b Hb [])|by intros|done].
Qed.

Lemma hoare_mutateImageAtRoot extension data :
  extension ∈ extensions → put (b +:+ extension) data →
  hoare P (mutateImageAtRoot C b extension (b +:+ extension) data)
    (λ r d ic, P d ic ∧ (∀ n, r = Ok n → n = b +:+ extension ∧ is_file d (b +:+ extension) data ∧ settled d)) P.
Proof.
  intros He Hput. set (name := b +:+ extension). assert (variant_of b name) as Hv by by exists extension.
  assert (¬ is_temp name) as Ht by by eapply variant_not_temp.
  eapply hoare_bind; [by apply (hoare_ensureAssetDir C del put)| |by intros e d ic []]. intros u.
  eapply (hoare_bind _ _ _ (λ r d ic, P d ic ∧ (∀ vs, r = Ok vs → ∀ v, v ∈ vs → names_variant b v))); [| |by intros e d ic []].
  { eapply reads_hoare; [by apply reads_imageVariants| |by intros ?? []]. intros [vs|e] d ic [H _] Hr; (split; [done|]); [|done].
    intros vs' [= <-] v Hin. destruct Hr as [Hd ->]. by apply variants_in_elem in Hin as [? _]. }
  intros vs. eapply (hoare_pure _ (∀ v, v ∈ vs → names_variant b v)); [intros d ic [_ H]; by apply H|]. intros Hvs.
  eapply (hoare_bind _ _ _ (λ r d ic, P d ic ∧ (r = Ok () → is_file d name data ∧ settled d))); [|intros []|by intros e d ic []].
  { eapply hoare_conseq; [by apply (hoare_write_closed name data)|by intros ?? []|done..]. }
  pose proof (closed_file _ _ _ name data HP Ht) as Hcl.
  eapply (hoare_bind _ _ _ (λ _ d ic, P d ic ∧ is_file d name data)); [|intros u1|by intros e d ic []].
  { eapply hoare_conseq; [apply (hoare_remove_each C _ _ _ Hcl)| |done|by intros ?? []].
    - intros v [Hx Hin]%list_elem_of_filter. destruct (names_variant_of b v (Hvs v Hin)) as (Hvv & _ & Hev & Hnv). split; [by apply Hdel|].
      intros Heq. apply Hx. rewrite Hnv in Heq. by apply (variant_inj b b) in Heq as [_ ?].
    - intros d ic [H Hr]. by destruct (Hr eq_refl). }
  eapply (hoare_bind _ _ _ (λ r d ic, (P d ic ∧ is_file d name data) ∧ (r = Ok () → settled d))); [|intros []|by intros e d ic [[]]].
  { eapply hoare_conseq; [apply (hoare_syncAssetDir C _ _ _ Hcl)|done|done|by intros ?? []]. }
  apply hoare_ret. intros d ic [[H Hf] Hs]. split; [done|]. intros n [= <-]. auto.
Qed.

(** A failed write puts back what was there. *)
Lemma hoare_writeImageAtRoot extension data :
  extension ∈ extensions → put (b +:+ extension) data →
  (∀ d ic s, P d ic → snapshot_of b d s → put (ai_fileName (as_image s)) (as_data s)) →
  hoare P (writeImageAtRoot C b extension data)
    (λ r d ic, P d ic ∧ (∀ n, r = Ok n → n = b +:+ extension ∧ is_file d (b +:+ extension) data ∧ settled d)) P.
Proof.
  intros He Hput Hprior. unfold writeImageAtRoot. rewrite (proj2 (assetImagePath_Ok b extension (b +:+ extension) Hb)), run_Ok by done.
  eapply (hoare_bind _ _ _ (λ r d ic, P d ic ∧ (∀ ss, r = Ok ss → Forall writable ss))); [| |by intros e d ic []].
  { eapply reads_hoare; [by apply (reads_snapshotImageVariants C b)| |done]. intros [ss|e] d ic H Hss; (split; [done|]); [|done].
    intros ss' [= <-]. eapply Forall_impl; [exact Hss|]. intros s Hs. split; [by apply Hs|by eapply Hprior]. }
  intros ss. eapply (hoare_pure _ (Forall writable ss)); [intros d ic [_ H]; by apply H|]. intros Hss.
  eapply hoare_try; [eapply hoare_conseq; [by apply hoare_mutateImageAtRoot|by intros ?? []| |exact (λ _ _ H, H)]; intros r d ic H; exact H|].
  intros [n|e].
  - apply hoare_ret. intros d ic [H Hn]. split; [done|]. intros n' [= <-]. by apply Hn.
  - eapply (hoare_try _ _ _ (λ _, P)); [|intros r; by apply hoare_fail]. unfold restoreImageVariantsAndVerify.
    eapply (hoare_bind _ _ _ (λ _, P)); [eapply hoare_conseq; [by apply hoare_restoreImageVariants|by intros ?? []|done..]|intros u|done].
    eapply reads_hoare; [by apply reads_verify_any|by intros|done].
Qed.

End variants.
