(* ===== verification/GroupIconSafety.v ===== *)
(** * The invariant of an icon transaction

    What holds of the directory and of the metadata of one group at every moment of
    a transaction and of its recovery: in the directory as it is and in every state
    a power loss may bring back, the journal is there and the metadata can be put
    back, or it is not and the metadata names the old or the new image. *)

From Stdlib Require Import Ascii.
From stdpp Require Import pretty.
From S2P Require Import Prelude Wire GoState ChatKeys ChatText GoStrings Passwords AuthService Images Assets GroupIcons AssetLogic.

Lemma group_base_pretty gid : 0 < gid → group_base (pretty gid).
Proof. apply pretty_Z_digits. Qed.

(** What a group is served: the valid image its metadata names. *)
Definition stored (C : AssetEnv) (b : string) (m : files) (i : string) : option (list byte) :=
  if same_path b i then
    match m !! i with
    | Some (File x) => if is_ok (validateAssetImage C x (Ext i)) then Some x else None
    | _ => None
    end
  else None.

Lemma stored_Some C b m i x : group_base b → stored C b m i = Some x ↔ variant_of b i ∧ m !! i = Some (File x) ∧ valid_image C i x.
Proof.
  intros Hb. unfold stored, valid_image. pose proof (same_path_iff b i Hb) as Hsp. destruct (same_path b i).
  - assert (variant_of b i) by tauto. split.
    + destruct (m !! i) as [[y|]|]; [|done..]. destruct (is_ok _) eqn:Hv; [|done]. by intros [= ->].
    + intros (_ & -> & ->). done.
  - split; [done|]. intros [H%Hsp _]. done.
Qed.

Lemma stored_empty C b m : stored C b m "" = None.
Proof. unfold stored. replace (same_path b "") with false; [done|]. unfold same_path, assetImagePath. cbn. by destruct (validateAssetComponent b). Qed.

Lemma valid_image_size C i x : valid_image C i x → len x ≤ maxImageBytes.
Proof.
  unfold valid_image, validateAssetImage, inspectAssetImage. destruct (assetFormatForExtension (Ext i)); [|done].
  destruct (bool_decide (x = [])); [done|]. destruct (maxImageBytes <? len x) eqn:Hl; [done|]. intros _. lia.
Qed.

Section transaction.
Context (C : AssetEnv) {JS : IconJSON}.
Context (gid : Z) (Hgid : 0 < gid) (extension : string) (Hext : extension ∈ extensions).
Context (data : list byte) (i0 : string) (old : option (list byte)).

Definition icon_base : string := pretty gid.
#[local] Abbreviation b := icon_base.
#[local] Abbreviation J := (groupIconJournalPath icon_base).
Definition target_name : string := icon_base +:+ extension.
#[local] Abbreviation t := target_name.

Lemma icon_base_ok : group_base b.
Proof using Hgid. by apply group_base_pretty. Qed.
#[local] Hint Resolve icon_base_ok : core.

Lemma target_variant : variant_of b t.
Proof using Hext. by exists extension. Qed.

Lemma journal_not_variant : ¬ variant_of b J.
Proof using Hgid. intros H. by destruct (variant_not_reserved_path b J icon_base_ok H b). Qed.

Lemma journal_not_temp : ¬ is_temp J.
Proof using Hgid. intros (name & random & Heq). apply (temp_not_reserved b name random icon_base_ok). left. done. Qed.

(** What the transaction falls back to: the old image, or none. *)
Definition base_icon : string := match old with Some _ => i0 | None => "" end.
Definition base_snapshot : option assetImageSnapshot :=
  match old, assetFormatForExtension (Ext i0) with
  | Some x, Some f => Some {| as_image := mkImage b i0 (af_contentType f) (af_extension f); as_data := x |}
  | _, _ => None
  end.
Definition the_journal : groupIconJournal := newGroupIconJournal C gid base_icon t (option_list base_snapshot).

(** The old image, where there is one, is a valid variant. *)
Definition old_ok : Prop := ∀ x, old = Some x → variant_of b i0 ∧ valid_image C i0 x.
Context (Hold : old_ok).

(** A content of the target that may be served. *)
Definition allowed (x : list byte) : Prop := valid_image C t x → x = data ∨ old = Some x.

Definition pending (ex : bool) (i : string) (m : files) : Prop :=
  ex = true ∧ m !! J = Some (File (marshal_journal the_journal)) ∧ (i = t → ∀ x, m !! t = Some (File x) → allowed x).
Definition resolved (i : string) (live m : files) : Prop :=
  m !! J = None ∧ (stored C b m i = old ∨ stored C b m i = Some data) ∧
  (live !! J ≠ None → stored C b m i0 = old ∧ (i = i0 ∨ i = base_icon)).

Definition Inv (i : string) (d : Dir) : Prop :=
  (i = i0 ∨ i = base_icon ∨ i = t) ∧ (d_exists d = false → old = None) ∧
  ∀ m, m ∈ d_files d :: d_unsynced d → pending (d_exists d) i m ∨ resolved i (d_files d) m.
Definition InvJ (i : string) (d : Dir) : Prop := Inv i d ∧ d_files d !! J ≠ None.

(** The names that matter to the group's icon. *)
Definition relevant (n : string) : Prop := n = J ∨ variant_of b n.

Lemma stored_frame (m m' : files) i : (∀ n, relevant n → m' !! n = m !! n) → stored C b m' i = stored C b m i.
Proof using All.
  intros H. unfold stored. destruct (same_path b i) eqn:Hs; [|done]. apply same_path_iff in Hs; [|done]. rewrite H; [done|by right].
Qed.

Lemma stored_base m : stored C b m i0 = old → stored C b m base_icon = old.
Proof using All. unfold base_icon. destruct old; [done|]. intros _. apply stored_empty. Qed.

Lemma base_is_target i : i = i0 ∨ i = base_icon ∨ i = t → base_icon = t → i = t.
Proof using All.
  unfold base_icon. destruct old; [naive_solver|]. intros _ Heq. pose proof target_variant as Hv. rewrite <- Heq in Hv.
  destruct (variant_starts b "" icon_base_ok Hv) as (c & l & Hc & _). done.
Qed.

Lemma InvJ_pending i d : InvJ i d → pending (d_exists d) i (d_files d).
Proof using All. intros [(_ & _ & H) HJ]. destruct (H (d_files d)) as [?|[? _]]; [by left|done..]. Qed.

Lemma Inv_mkdir i d : Inv i d → Inv i (mkDir true (d_files d) (d_unsynced d)).
Proof using All.
  intros (H1 & H2 & H3). split_and!; [done|done|]. intros m Hm. destruct (H3 m Hm) as [(? & ?)|?]; [left; by split|by right].
Qed.

Lemma Inv_sync i d : Inv i d → Inv i (mkDir (d_exists d) (d_files d) []).
Proof using All. intros (H1 & H2 & H3). split_and!; [done|done|]. cbn. intros m Hm. apply H3. set_solver. Qed.

(** After a power loss the directory is one of its candidates. *)
Lemma Inv_power i d m : Inv i d → m ∈ d_files d :: d_unsynced d → Inv i (mkDir (d_exists d) m []).
Proof using All.
  intros (H1 & H2 & H3) Hm. split_and!; [done|done|]. cbn. intros m' ->%list_elem_of_singleton.
  destruct (H3 m Hm) as [?|(HJ & Hs & _)]; [by left|right]. by split_and!.
Qed.

Lemma Inv_outside i d f : (∀ n, relevant n → f (d_files d) !! n = d_files d !! n) → Inv i d → Inv i (updated f d).
Proof using All.
  intros Hf (H1 & H2 & H3). pose proof (Hf J (or_introl eq_refl)) as HJ. split_and!; [done|done|]. cbn. intros m [->|Hm]%elem_of_cons.
  - destruct (H3 (d_files d)) as [(? & ? & Ht)|(? & ? & ?)]; [by left| |].
    + left. split_and!; [done|congruence|]. rewrite Hf; [done|]. right. apply target_variant.
    + right. unfold resolved. rewrite !(stored_frame _ _ _ Hf), HJ. done.
  - destruct (H3 m Hm) as [?|(? & ? & ?)]; [by left|]. right. unfold resolved. by rewrite HJ.
Qed.

(** With the journal there, anything may happen to the variants, as long as the target
    the metadata names does not get a foreign content. *)
Lemma InvJ_update i d f : f (d_files d) !! J = d_files d !! J → (i = t → ∀ x, f (d_files d) !! t = Some (File x) → allowed x) →
  InvJ i d → InvJ i (updated f d).
Proof using All.
  intros HJ Ht H. pose proof (InvJ_pending i d H) as (Hex & HJ' & _). destruct H as [(H1 & H2 & H3) HJn]. split; [|cbn; congruence].
  split_and!; [done|done|]. cbn. intros m [->|Hm]%elem_of_cons.
  - left. split_and!; [done|congruence|done].
  - destruct (H3 m Hm) as [?|(? & ? & ?)]; [by left|]. right. unfold resolved. by rewrite HJ.
Qed.

(** The metadata goes back to the base, or on to the written target. *)
Lemma InvJ_to_base i d : InvJ i d → InvJ base_icon d.
Proof using All.
  intros [(H1 & H2 & H3) HJ]. split; [|done]. split_and!; [tauto|done|]. intros m Hm. destruct (H3 m Hm) as [(? & ? & Ht)|(? & ? & Hr)].
  - left. split_and!; [done..|]. intros Hb. apply Ht. by apply base_is_target.
  - right. destruct (Hr HJ) as [Hs _]. split_and!; [done|left; by apply stored_base|]. tauto.
Qed.

Lemma InvJ_to_target i d : InvJ i d → is_file d t data → settled d → InvJ t d.
Proof using All.
  intros H Hf Hs. pose proof (InvJ_pending i d H) as (Hex & HJ' & _). destruct H as [(H1 & H2 & H3) HJ]. split; [|done].
  split_and!; [tauto|done|]. rewrite Hs. intros m ->%list_elem_of_singleton. left. split_and!; [done..|].
  intros _ x Hx. unfold is_file in Hf. rewrite Hf in Hx. injection Hx as <-. by left.
Qed.

(** The journal goes when the metadata names the old or the new image. *)
Lemma InvJ_finish i d : InvJ i d → stored C b (d_files d) i = old ∨ stored C b (d_files d) i = Some data →
  Inv i (updated (delete J) d).
Proof using All.
  intros [(H1 & H2 & H3) HJ] Hs. split_and!; [done|done|]. cbn. intros m [->|Hm]%elem_of_cons.
  - right. assert (stored C b (delete J (d_files d)) i = stored C b (d_files d) i) as Heq.
    { unfold stored. destruct (same_path b i) eqn:Hp; [|done]. apply same_path_iff in Hp; [|done]. rewrite lookup_delete_ne; [done|].
      intros <-. by apply journal_not_variant. }
    unfold resolved. rewrite Heq, lookup_delete_eq. done.
  - destruct (H3 m Hm) as [?|(? & ? & ?)]; [by left|]. right. unfold resolved. by rewrite lookup_delete_eq.
Qed.

(** Before the transaction. *)
Definition Before (d : Dir) : Prop :=
  (d_exists d = false → old = None) ∧ ∀ m, m ∈ d_files d :: d_unsynced d → m !! J = None ∧ stored C b m i0 = old.

Lemma Before_Inv d : Before d → Inv i0 d.
Proof using All. intros [H1 H2]. split_and!; [tauto|done|]. intros m Hm. destruct (H2 m Hm). right. split_and!; [done|by left|tauto]. Qed.

(** The journal appears. *)
Lemma Before_begin d f : Before d → d_exists d = true → f (d_files d) !! J = Some (File (marshal_journal the_journal)) →
  (∀ n, variant_of b n → f (d_files d) !! n = d_files d !! n) → InvJ i0 (updated f d).
Proof using All.
  intros [H1 H2] Hex HJ Hf. split; [|cbn; congruence]. split_and!; [tauto|done|]. cbn. intros m [->|Hm]%elem_of_cons.
  - left. split_and!; [done..|]. intros Hi x. rewrite Hf by apply target_variant. intros Hx Hv. right.
    destruct (H2 (d_files d)) as [_ <-]; [by left|]. rewrite Hi. apply stored_Some; [done|]. split; [apply target_variant|done].
  - destruct (H2 m Hm). right. split_and!; [done|by left|tauto].
Qed.

(** After a write that was acknowledged. *)
Definition Done (d : Dir) : Prop :=
  d_exists d = true ∧ ∀ m, m ∈ d_files d :: d_unsynced d → m !! J = None ∧ stored C b m t = Some data.

End transaction.

(** * Running icon transactions

    [writeGroupIconWithMetadata], the recovery of the group and the recovery of
    another group, step by step against the invariant. *)

Lemma temp_not_relevant b n : group_base b → is_temp n → n ≠ groupIconJournalPath b ∧ ¬ variant_of b n.
Proof. intros Hb (name & random & ->). pose proof (temp_not_reserved b name random Hb) as H. unfold reserved in H. tauto. Qed.

Definition at_icon (gid : Z) (i : string) (P : Dir → Prop) : assn := λ d ic, ic !! gid = Some i ∧ P d.

(** ** Journals *)

Section journals.
Context (C : AssetEnv) {JS : IconJSON}.

Lemma reads_readGroupIconJournal b :
  reads (readGroupIconJournal C b)
    (on_ok (λ j d _, gj_Base j = b ∧ validateGroupIconJournal C j = true ∧ ∃ raw, is_file d (groupIconJournalPath b) raw ∧ unmarshal_journal raw = Some j)).
Proof.
  eapply (reads_bind_ok _ _ (λ raw d _, is_file d (groupIconJournalPath b) raw)).
  - eapply reads_conseq; [apply reads_readRegularAsset|]. intros [raw|] d ic; cbn; tauto.
  - intros raw. instantiate (1 := λ raw j _ _, unmarshal_journal raw = Some j ∧ gj_Base j = b ∧ validateGroupIconJournal C j = true).
    destruct (unmarshal_journal raw) as [j|] eqn:Hu; [|apply reads_fail; intros; exact I].
    destruct (negb (String.eqb (gj_Base j) b)) eqn:Hb; [apply reads_fail; intros; exact I|].
    destruct (negb (validateGroupIconJournal C j)) eqn:Hv; [apply reads_fail; intros; exact I|].
    apply negb_false_iff in Hb, Hv. apply String.eqb_eq in Hb. apply reads_ret. intros d ic. split_and!; [exact Hu|exact Hb|exact Hv].
  - cbn beta. intros raw j d ic Hf (Hu & Hb & Hv). eauto.
Qed.

(** The journal's removal takes [P] to [P']. *)
Lemma hoare_removeGroupIconJournal b del put (P P' X : assn) :
  closed del put P' → (∀ d ic, P d ic → X d ic) → (∀ d ic, P' d ic → X d ic) →
  (∀ d ic, P d ic → d_files d !! groupIconJournalPath b ≠ None) →
  (∀ d ic, P d ic → P' (updated (delete (groupIconJournalPath b)) d) ic) →
  hoare P (removeGroupIconJournal C b) (λ r d ic, match r with Ok _ => P' d ic ∧ settled d | Err _ => P d ic ∨ P' d ic end) X.
Proof.
  intros HP' HX HX' HJ Hrem. unfold removeGroupIconJournal.
  eapply (hoare_bind _ _ _ (λ r d ic, match r with Ok _ => P' d ic | Err _ => P d ic end)); [| |by intros e d ic H; left].
  - unfold remove_if_exists. eapply (hoare_try _ _ _ (λ r d ic, match r with Ok _ => P' d ic | Err e => P d ic ∧ e ≠ ENotExist end)).
    + apply hoare_access; [done|by intros|]. intros w Hw. pose proof (HJ _ _ Hw) as Hne. destruct (d_files (aw_dir w) !! _) as [[x|]|]; [|done..].
      by apply Hrem.
    + intros [u|[]]; try (apply hoare_fail; by intros d ic []); by apply hoare_ret; [intros ??; naive_solver|..].
  - intros u. eapply hoare_conseq; [apply (hoare_syncAssetDir C _ _ _ HP')|done| |done].
    intros [[]|e] d ic [H Hs]; [auto|by right].
Qed.

End journals.

Section steps.
Context (C : AssetEnv) {JS : IconJSON}.
Context (gid : Z) (Hgid : 0 < gid) (extension : string) (Hext : extension ∈ extensions).
Context (data : list byte) (i0 : string) (old : option (list byte)) (Hold : old_ok C gid i0 old).

#[local] Abbreviation b := (icon_base gid).
#[local] Abbreviation J := (groupIconJournalPath (icon_base gid)).
#[local] Abbreviation t := (target_name gid extension).
#[local] Abbreviation Inv := (Inv C gid extension data i0 old).
#[local] Abbreviation InvJ := (InvJ C gid extension data i0 old).
#[local] Abbreviation base := (base_icon i0 old).
#[local] Abbreviation snaps := (option_list (base_snapshot gid i0 old)).
#[local] Abbreviation journal := (the_journal C gid extension i0 old).

#[local] Hint Resolve icon_base_ok : core.

Definition Safe : assn := λ d ic, ∃ i, at_icon gid i (Inv i) d ic.
Definition SafeJ : assn := λ d ic, ∃ i, at_icon gid i (InvJ i) d ic.

Lemma SafeJ_Safe d ic : SafeJ d ic → Safe d ic.
Proof using Type. intros (i & Hi & H & _). by exists i. Qed.

(** While the journal is there. *)
Definition put_J (i n : string) (x : list byte) : Prop := n ≠ J ∧ (n = t → i = t → allowed C gid extension data old x).

Lemma closed_InvJ i : closed (λ n, n ≠ J) (put_J i) (at_icon gid i (InvJ i)).
Proof using All.
  assert (∀ d, InvJ i d → d_files d !! J ≠ None) as HJ by by intros d [].
  assert (∀ n, is_temp n → n ≠ J ∧ n ≠ t) as Ht.
  { intros n Hn. destruct (temp_not_relevant b n (icon_base_ok gid Hgid) Hn) as [? H]. split; [done|]. intros ->. by apply H, target_variant. }
  assert (∀ d, InvJ i d → i = t → ∀ x, d_files d !! t = Some (File x) → allowed C gid extension data old x) as Hl.
  { intros d H. apply (InvJ_pending C gid Hgid extension Hext data i0 old Hold i d H). }
  split.
  - intros d ic [Hi [H HJ']]. split; [done|]. split; [by apply Inv_mkdir|done].
  - intros d ic [Hi [H HJ']]. split; [done|]. split; [by apply Inv_sync|done].
  - intros d ic n [Hi H] Hn. split; [done|]. assert (n ≠ J) by (destruct Hn as [Hn|]; [by apply Ht|done]).
    apply InvJ_update; try done; [by rewrite lookup_delete_ne|]. intros Hit x [_ Hx]%lookup_delete_Some. by eapply Hl.
  - intros d ic n x [Hi H] Hn. split; [done|]. assert (n ≠ J) by (destruct Hn as [Hn|[]]; [by apply Ht|done]).
    apply InvJ_update; try done; [by rewrite lookup_insert_ne|]. intros Hit y [[-> [= ->]]|[_ Hy]]%lookup_insert_Some; [|by eapply Hl].
    destruct Hn as [Hn%Ht|[_ Hn]]; [tauto|auto].
  - intros d ic o n x [Hi H] Ho _ [Hn Hx]. split; [done|]. assert (o ≠ J) by (destruct Ho as [Ho|]; [by apply Ht|done]).
    apply InvJ_update; try done; [by rewrite lookup_insert_ne, lookup_delete_ne|].
    intros Hit y [[-> [= ->]]|[_ [_ Hy]%lookup_delete_Some]]%lookup_insert_Some; [auto|by eapply Hl].
Qed.

(** Assertions on the group's own files and metadata only. *)
Record local (P : assn) : Prop := {
  local_closed : closed (λ n, ¬ relevant gid n) (λ n _, ¬ relevant gid n) P;
  local_icons d ic g v : g ≠ gid → P d ic → P d (<[g := v]> ic);
  local_delete d ic g : g ≠ gid → P d ic → P d (delete g ic);
}.

Lemma local_at i (P : Dir → Prop) :
  (∀ d, P d → P (mkDir true (d_files d) (d_unsynced d))) → (∀ d, P d → P (mkDir (d_exists d) (d_files d) [])) →
  (∀ d f, (∀ n, relevant gid n → f (d_files d) !! n = d_files d !! n) → P d → P (updated f d)) → local (at_icon gid i P).
Proof using Hgid.
  intros H1 H2 H3. assert (∀ n, is_temp n ∨ ¬ relevant gid n → ¬ relevant gid n) as Ht.
  { intros n [Hn|]; [|done]. unfold relevant. destruct (temp_not_relevant b n (icon_base_ok gid Hgid) Hn) as [? ?]. tauto. }
  split; [split| |]; unfold at_icon.
  - intros d ic []. auto.
  - intros d ic []. auto.
  - intros d ic n [? ?] Hn%Ht. split; [done|]. apply H3; [|done]. intros n' Hn'. rewrite lookup_delete_ne; [done|]. by intros <-.
  - intros d ic n x [? ?] Hn%Ht. split; [done|]. apply H3; [|done]. intros n' Hn'. rewrite lookup_insert_ne; [done|]. by intros <-.
  - intros d ic o n x [? ?] Ho%Ht _ Hn. split; [done|]. apply H3; [|done]. intros n' Hn'.
    rewrite lookup_insert_ne, lookup_delete_ne; [done|..]; by intros <-.
  - intros d ic g v Hg [? ?]. split; [|done]. by rewrite lookup_insert_ne.
  - intros d ic g Hg [? ?]. split; [|done]. by rewrite lookup_delete_ne.
Qed.

Lemma local_Inv i : local (at_icon gid i (Inv i)).
Proof using All. apply local_at; [by apply Inv_mkdir|by apply Inv_sync|by apply Inv_outside]. Qed.

Lemma local_Before : local (at_icon gid i0 (Before C gid i0 old)).
Proof using All.
  apply local_at.
  - intros d [H1 H2]. by split.
  - intros d [H1 H2]. split; [done|]. intros m Hm. apply H2. set_solver.
  - intros d f Hf [H1 H2]. split; [done|]. intros m [->|Hm]%elem_of_cons; [|by apply H2].
    cbn [updated d_files].
    rewrite (stored_frame C gid Hgid extension Hext data i0 old Hold _ _ _ Hf), (Hf J (or_introl eq_refl)). apply H2. by left.
Qed.

Lemma local_Done : local (at_icon gid t (Done C gid extension data)).
Proof using All.
  apply local_at.
  - intros d [H1 H2]. by split.
  - intros d [H1 H2]. split; [done|]. intros m Hm. apply H2. set_solver.
  - intros d f Hf [H1 H2]. split; [done|]. intros m [->|Hm]%elem_of_cons; [|by apply H2].
    cbn [updated d_files].
    rewrite (stored_frame C gid Hgid extension Hext data i0 old Hold _ _ _ Hf), (Hf J (or_introl eq_refl)). apply H2. by left.
Qed.

(** The journal is gone, and what the group is served. *)
Definition Finished (i : string) (v : option (list byte)) (d : Dir) : Prop :=
  Inv i d ∧ d_exists d = true ∧ d_files d !! J = None ∧ stored C b (d_files d) i = v.

Lemma local_Finished i v : local (at_icon gid i (Finished i v)).
Proof using All.
  apply local_at.
  - intros d (H1 & H2 & H3). split_and!; [by apply Inv_mkdir|done..|apply H3|apply H3].
  - intros d (H1 & H2 & H3). split_and!; [by apply Inv_sync|done|apply H3|apply H3].
  - intros d f Hf (H1 & H2 & H3 & H4). split_and!; [by apply Inv_outside|done|by etrans; [exact (Hf J (or_introl eq_refl))|]|].
    by etrans; [exact (stored_frame C gid Hgid extension Hext data i0 old Hold _ _ _ Hf)|].
Qed.

(** ** The baseline *)

Lemma reads_linked_snapshot name variants : variant_of b name → Forall (names_variant b) variants →
  reads (linked_snapshot C name variants) (on_ok (λ os d _,
    match os with
    | Some s => as_image s ∈ variants ∧ ai_fileName (as_image s) = name ∧ is_file d name (as_data s) ∧ valid_image C name (as_data s)
    | None => (∀ v, v ∈ variants → ai_fileName v ≠ name) ∨ ∀ x, is_file d name x → ¬ valid_image C name x
    end)).
Proof using Type.
  intros Hv Hvs. unfold linked_snapshot. destruct (head _) as [v|] eqn:Hh.
  2: { apply reads_ret. intros d ic. left. intros v Hin Hn. apply head_None in Hh.
       assert (v ∈ filter (λ v, ai_fileName v = name) variants) as Hf by by apply list_elem_of_filter. rewrite Hh in Hf. by apply elem_of_nil in Hf. }
  apply head_Some_elem_of, list_elem_of_filter in Hh as [Hn Hin].
  assert (ai_extension v = Ext name) as Hx. { rewrite Forall_forall in Hvs. destruct (names_variant_of b v (Hvs v Hin)) as (_ & -> & _). by rewrite Hn. }
  eapply (reads_try _ _ (λ r d _, match r with Ok z => ∀ x, is_file d name x → len x = z | Err e => e = ENotExist → d_files d !! name = None end)).
  { apply reads_access; [done|]. intros w. unfold lookup_regular, is_file. by destruct (d_files (aw_dir w) !! name) as [[y|]|]; cbn; [intros x [= ->]|..]. }
  - intros [z|e].
    + instantiate (1 := λ r os d _, match r with Ok z => (∀ x, is_file d name x → len x = z) → on_ok (λ os d _, match os with
         | Some s => as_image s ∈ variants ∧ ai_fileName (as_image s) = name ∧ is_file d name (as_data s) ∧ valid_image C name (as_data s)
         | None => ∀ x, is_file d name x → ¬ valid_image C name x end) os d ∅
       | Err e => on_ok (λ os _ _, os = None ∧ e = ENotExist) os d ∅ end).
      destruct (maxImageBytes <? z) eqn:Hz.
      { apply reads_ret. intros d _ Hl x Hf Hok%valid_image_size. rewrite (Hl x Hf) in Hok. lia. }
      eapply (reads_try _ _ _ (λ r os d _, match r with
        | Ok raw => os = Ok (if is_ok (validateAssetImage C raw (ai_extension v)) then Some {| as_image := v; as_data := raw |} else None)
        | Err e => on_ok (λ os _ _, os = None ∧ e = ENotExist) os d ∅ end)); [apply reads_readRegularAsset| |].
      * intros [raw|[]]; try (by apply reads_fail); by apply reads_ret.
      * intros [raw|e] os d ic; [|intros He Hos _; destruct os as [os|]; [|done]; destruct Hos as [-> ->]; intros x Hx'; unfold is_file in Hx'; by rewrite He in Hx'].
        intros [Hf Hl] -> _. rewrite Hx. destruct (is_ok _) eqn:Hok; cbn; [by split_and!|].
        intros x Hf' Hok'. unfold is_file in Hf, Hf'. unfold valid_image in Hok'. congruence.
    + destruct e; try (by apply reads_fail); by apply reads_ret.
  - intros [z|e] os d ic H1 H2.
    + specialize (H2 H1). destruct os as [[s|]|]; cbn in *; auto.
    + destruct os as [os|]; [|done]. destruct H2 as [-> ->]. right. intros x Hf. unfold is_file in Hf. by rewrite H1 in Hf.
Qed.

(** What there is to fall back to, found from the metadata and the files. *)
Definition baseline_of (bl : groupIconRecoveryBaseline) : Prop :=
  bl_icon bl = base ∧ bl_snapshots bl = snaps ∧ (bl_isRepairNeeded bl = false → i0 = base).

Lemma linked_base s : names_variant b (as_image s) → ai_fileName (as_image s) = i0 → old = Some (as_data s) → base_snapshot gid i0 old = Some s.
Proof using All.
  intros Hn Hf ->. destruct s as [v x]. cbn in *. unfold base_snapshot. destruct (names_variant_of b v Hn) as (_ & Hx & _ & _). rewrite Hf in Hx.
  destruct Hn as (f & Hin & ->). cbn in *. rewrite <- Hx, <- Hf.
  destruct (extension_format (af_extension f)) as (f' & Hf' & Heq); [by apply list_elem_of_fmap_2|]. rewrite Hf'.
  destruct (format_extension _ _ Hf') as [_ _]. assert (f' = f) as ->; [|done]. apply formats_inj; [|done..].
  unfold assetFormatForExtension in Hf'. by apply head_Some_elem_of, list_elem_of_filter in Hf' as [_ ?].
Qed.

Lemma base_snapshot_spec : match base_snapshot gid i0 old with
  | Some s => old = Some (as_data s) ∧ names_variant b (as_image s) ∧ ai_fileName (as_image s) = i0
  | None => old = None
  end.
Proof using All.
  unfold base_snapshot. destruct old as [x|]; [|done]. destruct (Hold x eq_refl) as [(e & He & Heq) _]. rewrite Heq, Ext_variant by done.
  destruct (extension_format e He) as (f & Hf & Hfe). rewrite Hf. cbn. split_and!; [done| |done]. exists f. split.
  - unfold assetFormatForExtension in Hf. by apply head_Some_elem_of, list_elem_of_filter in Hf as [_ ?].
  - unfold variant_image. by rewrite Hfe.
Qed.

Lemma variant_named n : variant_of b n → ∃ v, names_variant b v ∧ ai_fileName v = n.
Proof using Type.
  intros (e & He & ->). unfold extensions in He. apply list_elem_of_fmap in He as (f & -> & Hf). exists (variant_image b f). split; [by exists f|done].
Qed.

Lemma reads_baseline :
  reads (canonicalGroupIconRecoveryBaseline C b i0)
    (on_ok (λ bl d _, stored C b (d_files d) i0 = old → (d_exists d = false → old = None) → baseline_of bl)).
Proof using All.
  pose proof (icon_base_ok gid Hgid) as Hb. unfold canonicalGroupIconRecoveryBaseline.
  eapply (reads_bind_with _ _ _ (λ vs bl d _, (∀ v, names_variant b v → (∃ x, is_file d (ai_fileName v) x) → d_exists d = true → v ∈ vs) →
      stored C b (d_files d) i0 = old → (d_exists d = false → old = None) → baseline_of bl)); [by apply reads_existingImageVariants| |].
  - intros vs d0 ic0 Hvs0. assert (∀ v, v ∈ vs → names_variant b v) as Hvs by by intros v Hv; apply (existing_elem b vs d0 v Hvs0).
    clear d0 ic0 Hvs0.
    eapply (reads_bind_with _ _ (λ os d _, (∀ s, os = Some s → as_image s ∈ vs ∧ ai_fileName (as_image s) = i0) ∧
      ((∀ v, names_variant b v → (∃ x, is_file d (ai_fileName v) x) → d_exists d = true → v ∈ vs) →
       stored C b (d_files d) i0 = old → (d_exists d = false → old = None) → os = base_snapshot gid i0 old))).
    + destruct (negb (String.eqb i0 "") && same_path b i0) eqn:Hi.
      * apply andb_true_iff in Hi as [_ Hi]. apply same_path_iff in Hi; [|done].
        eapply reads_conseq; [apply (reads_linked_snapshot i0 vs Hi); by apply Forall_forall|]. intros [os|e] d ic; [|done]. cbn. intros Hos. split.
        { intros s ->. tauto. }
        intros Hc Hs Hd. destruct os as [s|].
        -- destruct Hos as (Hin & Hn & Hf & Hok). symmetry. apply linked_base; [by apply Hvs|done|]. rewrite <- Hs. by apply stored_Some.
        -- pose proof base_snapshot_spec as Hbs. destruct (base_snapshot gid i0 old) as [s|]; [exfalso|done].
           destruct Hbs as (Hx & _ & _). rewrite Hx in Hs. apply stored_Some in Hs as (_ & Hf & Hok); [|done].
           destruct Hos as [Hos|Hos]; [|by eapply Hos]. destruct (variant_named i0 Hi) as (v & Hv & Hn). apply (Hos v); [|done].
           apply Hc; [done|rewrite Hn; by eexists|]. destruct (d_exists d); [done|]. rewrite Hx in Hd. by discriminate Hd.
      * apply reads_ret. cbn. intros d ic. split; [done|]. intros _ Hs _. pose proof base_snapshot_spec as Hbs.
        destruct (base_snapshot gid i0 old) as [s|]; [exfalso|done]. destruct Hbs as (Hx & _ & _). rewrite Hx in Hs.
        destruct (decide (i0 = "")) as [Heq|Hne]; [by rewrite Heq, stored_empty in Hs|].
        apply stored_Some in Hs as (Hv & _); [|done]. apply same_path_iff in Hv; [|done]. rewrite Hv, andb_true_r in Hi.
        apply negb_false_iff, String.eqb_eq in Hi. done.
    + intros os d ic [Hos _]. apply (reads_ret _ (on_ok (λ bl _ _, os = base_snapshot gid i0 old → baseline_of bl))). cbn. intros _ _ Heq.
      unfold baseline_of. cbn. pose proof base_snapshot_spec as Hbs. rewrite <- Heq in *. unfold base_icon. destruct os as [s|].
      { destruct Hbs as (-> & _). done. }
      rewrite Hbs. split_and!; [done..|]. rewrite !orb_false_iff. intros [[Hn _] _]. by apply negb_false_iff, String.eqb_eq in Hn.
    + cbn beta. intros os bl d ic [_ Hos] Hbl Hc Hs Hd. by apply Hbl, Hos.
  - cbn beta. intros vs bl d ic Hvs Hbl. apply Hbl.
    intros v Hv Hx Hex. destruct Hvs as [[_ ->]|[? _]]; [|congruence]. by apply variants_in_elem.
Qed.

(** ** Steps of a transaction *)

Lemma hoare_SetGroupIcon g v (P P' X : assn) :
  (∀ d ic, P d ic → P' d (<[g := v]> ic)) → (∀ d ic, P d ic → X d ic) → (∀ d ic, P' d ic → X d ic) →
  hoare P (SetGroupIcon_ C g v) (λ r d ic, match r with Ok _ => P' d ic | Err _ => P d ic ∨ P' d ic end) X.
Proof using Type.
  intros Hset HX HX'. apply hoare_metadata; [done|by intros; left|]. intros w Hw. destruct (aw_icons w !! g); cbn; auto.
Qed.

Lemma at_icon_Safe i d ic : at_icon gid i (Inv i) d ic → Safe d ic.
Proof using Type. by exists i. Qed.

Lemma at_J_Safe i d ic : at_icon gid i (InvJ i) d ic → Safe d ic.
Proof using Type. intros [Hi [H _]]. exists i. by split. Qed.

Lemma Before_Safe d ic : at_icon gid i0 (Before C gid i0 old) d ic → Safe d ic.
Proof using All. intros [Hi H]. exists i0. split; [done|]. by apply Before_Inv. Qed.

Lemma hoare_begin :
  hoare (at_icon gid i0 (Before C gid i0 old)) (writeGroupIconJournal C journal)
    (λ r, match r with Ok _ => at_icon gid i0 (InvJ i0) | Err _ => Safe end) Safe.
Proof using All.
  unfold writeGroupIconJournal. destruct (negb _); [apply hoare_fail; apply Before_Safe|].
  eapply hoare_bind; [eapply hoare_conseq; [apply (hoare_ensureAssetDir C _ _ _ (local_closed _ local_Before))|done| |apply Before_Safe]| |].
  - intros r d ic [H _]. instantiate (1 := λ _, at_icon gid i0 (Before C gid i0 old)). exact H.
  - intros u. destruct (maxGroupIconJournalBytes <? _); [apply hoare_fail; apply Before_Safe|]. change (gj_Base journal) with b.
    eapply hoare_conseq; [apply (hoare_writeAssetAtomic C J _ _ _ _ _ _ (at_icon gid i0 (InvJ i0)) Safe (local_closed _ local_Before) (closed_InvJ i0))| |..].
    + apply Before_Safe.
    + apply at_J_Safe.
    + intros d ic o [Hi HB] Ho _ Hex. split; [done|]. apply Before_begin; [done..|apply lookup_insert_eq|]. intros n Hn.
      rewrite lookup_insert_ne, lookup_delete_ne; [done|..].
      * intros ->. by apply (variant_not_temp b n (icon_base_ok gid Hgid) Hn).
      * intros <-. by eapply journal_not_variant.
    + by apply journal_not_temp.
    + done.
    + intros [[]|e] d ic; [tauto|]. intros [H|H]; [by apply Before_Safe|by eapply at_J_Safe].
    + done.
  - intros e. apply Before_Safe.
Qed.

Lemma snaps_writable i : Forall (writable b (put_J i)) snaps.
Proof using All.
  pose proof base_snapshot_spec as Hbs. destruct (base_snapshot gid i0 old) as [s|]; [|constructor]. destruct Hbs as (Hx & Hn & Hf).
  apply Forall_singleton. split; [done|]. split.
  - intros Heq. apply (journal_not_variant gid Hgid). rewrite <- Heq. by apply (names_variant_of b).
  - intros _ _ _. by right.
Qed.

Lemma hoare_restore i :
  hoare (at_icon gid i (InvJ i)) (restoreImageVariantsAndVerify C b snaps)
    (λ r d ic, at_icon gid i (InvJ i) d ic ∧ (r = Ok () → stored C b (d_files d) base = old)) (at_icon gid i (InvJ i)).
Proof using All.
  eapply hoare_conseq; [apply (hoare_restoreImageVariantsAndVerify C b (icon_base_ok gid Hgid) _ _ _ (closed_InvJ i)); [|apply snaps_writable]|done| |done].
  - intros n Hn ->. by eapply journal_not_variant.
  - intros r d ic [H Hr]. split; [done|]. intros ->. specialize (Hr eq_refl). pose proof base_snapshot_spec as Hbs. unfold base_icon.
    destruct (base_snapshot gid i0 old) as [s|]; [|rewrite Hbs; apply stored_empty]. destruct Hbs as (Hx & Hn & Hf). rewrite Hx.
    destruct (Hr s eq_refl) as [_ Hfile]. rewrite Hf in Hfile. destruct (Hold _ Hx). apply stored_Some; [by apply icon_base_ok|by split_and!].
Qed.

(** The journal goes; the group is served [v] from then on. *)
Lemma hoare_finish i v : v = old ∨ v = Some data →
  hoare (λ d ic, at_icon gid i (InvJ i) d ic ∧ stored C b (d_files d) i = v) (removeGroupIconJournal C b)
    (λ r d ic, match r with Ok _ => at_icon gid i (Finished i v) d ic ∧ settled d | Err _ => Safe d ic end) Safe.
Proof using All.
  intros Hv. eapply hoare_conseq; [apply (hoare_removeGroupIconJournal C b _ _ _ (at_icon gid i (Finished i v)) Safe (local_closed _ (local_Finished i v)))|exact (λ _ _ H, H)| |exact (λ _ _ H, H)].
  - intros d ic [H _]. by eapply at_J_Safe.
  - intros d ic [Hi (H & _)]. by exists i.
  - intros d ic [[_ [_ HJ]] _]. exact HJ.
  - intros d ic [[Hi H] Hs]. split; [done|]. assert (Inv i (updated (delete J) d)) as HI.
    { apply (InvJ_finish C gid Hgid extension Hext data i0 old Hold); [done|]. rewrite Hs. exact Hv. }
    split_and!; [done|by apply (InvJ_pending C gid Hgid extension Hext data i0 old Hold i d H)|apply lookup_delete_eq|]. rewrite <- Hs. unfold stored. cbn. destruct (same_path b i) eqn:Hp; [|done].
    apply same_path_iff in Hp; [|by apply icon_base_ok]. rewrite lookup_delete_ne; [done|]. intros <-. by eapply journal_not_variant.
  - intros [u|e] d ic; [done|]. intros [[H _]|[Hi (H & _)]]; [by eapply at_J_Safe|by exists i].
Qed.

(** ** Writing an icon *)

(** A step that answers an error, whatever it does. *)
Definition refused {A} (r : result AErr A) : assn := λ d ic, Safe d ic ∧ is_ok r = false.

Lemma hoare_roll_back baseline e : bl_snapshots baseline = snaps →
  hoare (at_icon gid base (InvJ base)) (roll_back C b baseline e) refused Safe.
Proof using All.
  intros Hs. unfold roll_back. rewrite Hs.
  eapply hoare_try; [eapply hoare_conseq; [apply (hoare_restore base)|exact (λ _ _ H, H)|exact (λ _ _ _ H, H)|apply at_J_Safe]|].
  intros [[]|e'].
  - eapply hoare_try; [eapply hoare_conseq; [apply (hoare_finish base old); by left| |exact (λ _ _ _ H, H)|done]; intros d ic [H Hr]; auto|].
    intros [u|e']; apply hoare_fail; intros d ic H; (split; [|done]); [|done]. destruct H as [[Hi (H & _)] _]. by exists base.
  - apply hoare_fail. intros d ic [H _]. split; [by eapply at_J_Safe|done].
Qed.

Lemma hoare_set_base i : hoare (at_icon gid i (InvJ i)) (SetGroupIcon_ C gid base)
  (λ r, match r with Ok _ => at_icon gid base (InvJ base) | Err _ => Safe end) Safe.
Proof using All.
  eapply hoare_conseq; [apply (hoare_SetGroupIcon gid base _ (at_icon gid base (InvJ base)) Safe)|done| |done].
  - intros d ic [Hi H]. split; [by rewrite lookup_insert_eq|]. by eapply InvJ_to_base.
  - apply at_J_Safe.
  - apply at_J_Safe.
  - intros [u|e] d ic; [done|]. intros [H|H]; by eapply at_J_Safe.
Qed.

Lemma hoare_normalize baseline : baseline_of baseline →
  hoare (at_icon gid i0 (InvJ i0)) (normalize_baseline C gid b i0 baseline)
    (λ r, match r with Ok _ => at_icon gid base (InvJ base) | Err _ => Safe end) Safe.
Proof using All.
  intros (Hi & Hs & Hr). unfold normalize_baseline. rewrite Hi, Hs. destruct (bl_isRepairNeeded baseline).
  - eapply (hoare_bind _ _ _ (λ r, match r with Ok _ => at_icon gid base (InvJ base) | Err _ => Safe end)); [|intros u|done].
    + destruct (String.eqb i0 base) eqn:He; [|apply hoare_set_base]. apply String.eqb_eq in He. apply hoare_ret. by rewrite <- He.
    + eapply hoare_conseq; [apply hoare_restore|exact (λ _ _ H, H)| |apply at_J_Safe].
      intros [u'|e] d ic [H _]; [done|by eapply at_J_Safe].
  - apply hoare_ret. by rewrite <- (Hr eq_refl).
Qed.

Lemma put_target i : put_J i t data.
Proof using All.
  split; [|intros _ _ _; by left]. intros Heq. apply (journal_not_variant gid Hgid). rewrite <- Heq. by apply target_variant.
Qed.

Lemma hoare_new_image i :
  hoare (at_icon gid i (InvJ i)) (writeImageAtRoot C b extension data)
    (λ r d ic, at_icon gid i (InvJ i) d ic ∧ (∀ n, r = Ok n → n = t ∧ is_file d t data ∧ settled d)) (at_icon gid i (InvJ i)).
Proof using All.
  apply (hoare_writeImageAtRoot C b (icon_base_ok gid Hgid) _ _ _ (closed_InvJ i)); [|done|apply put_target|].
  - intros n Hn ->. by eapply journal_not_variant.
  - intros d ic s [Hi H] [Hn Hf]. split.
    + intros Heq. apply (journal_not_variant gid Hgid). rewrite <- Heq. by apply (names_variant_of b).
    + intros Heq Hit. apply (InvJ_pending C gid Hgid extension Hext data i0 old Hold i d H); [done|]. by rewrite <- Heq.
Qed.

(** The answer of a write: it is acknowledged and done, or the metadata and the files are safe. *)
Definition written (r : result AErr string) : assn := λ d ic,
  match r with Ok _ => at_icon gid t (Finished t (Some data)) d ic ∧ settled d | Err _ => Safe d ic end.

Lemma refused_written {A} (r : result AErr A) d ic e : refused r d ic → written (Err e) d ic.
Proof using Type. by intros []. Qed.

Context (Hdata : valid_image C t data).

Lemma hoare_commit baseline : baseline_of baseline →
  hoare (λ d ic, at_icon gid base (InvJ base) d ic ∧ is_file d t data ∧ settled d) (commit_icon C gid b t baseline) written Safe.
Proof using All.
  intros (Hi & Hs & _). unfold commit_icon. rewrite Hi.
  eapply (hoare_try _ _ _ (λ r d ic, match r with Ok _ => at_icon gid t (InvJ t) d ic ∧ stored C b (d_files d) t = Some data | Err _ => SafeJ d ic end)).
  - eapply hoare_conseq; [apply (hoare_SetGroupIcon gid t _ (λ d ic, at_icon gid t (InvJ t) d ic ∧ stored C b (d_files d) t = Some data) Safe)|exact (λ _ _ H, H)| |exact (λ _ _ H, H)].
    + intros d ic ([Hic H] & Hf & Hse). split; [split; [by rewrite lookup_insert_eq|by eapply InvJ_to_target]|].
      apply stored_Some; [by apply icon_base_ok|]. split_and!; [by apply target_variant|done|done].
    + intros d ic [H _]. by eapply at_J_Safe.
    + intros d ic [H _]. by eapply at_J_Safe.
    + intros [u|e] d ic; [done|]. by intros [[H _]|[H _]]; eexists.
  - intros [[]|e].
    + eapply hoare_bind; [apply (hoare_finish t (Some data)); by right|intros u; by apply hoare_ret|done].
    + eapply (hoare_try _ _ _ (λ r d ic, SafeJ d ic ∧ (r = Ok true → ic !! gid = Some base))).
      * eapply hoare_bind; [eapply (reads_hoare _ _ SafeJ); [apply (reads_GetGroup C gid)|intros r d ic H Hr; exact (conj H Hr)|apply SafeJ_Safe]| |by intros e' d ic [H _]; split].
        intros icon. apply hoare_ret. intros d ic [H ->]. split; [done|]. intros [= Heq]. by apply bool_decide_eq_true in Heq.
      * intros [[]|e']; try (apply hoare_fail; intros d ic [H _]; by apply SafeJ_Safe).
        eapply hoare_conseq; [apply (hoare_roll_back baseline e Hs)| |intros r d ic H|done].
        -- intros d ic [(i & Hii & H) Heq]. specialize (Heq eq_refl). rewrite Hii in Heq. injection Heq as ->. by split.
        -- destruct H as [H Hr]. destruct r; [done|exact H].
Qed.

Lemma hoare_writeGroupIcon :
  hoare (at_icon gid i0 (Before C gid i0 old)) (writeGroupIconWithMetadata C gid extension data) written Safe.
Proof using All.
  unfold writeGroupIconWithMetadata. destruct (gid <=? 0) eqn:Hz; [lia|]. change (pretty gid) with b.
  rewrite (proj2 (assetImagePath_Ok b extension t (icon_base_ok gid Hgid))), run_Ok by done.
  eapply hoare_try; [eapply reads_hoare; [apply reads_lstat|intros r d ic H _; exact H|apply Before_Safe]|].
  intros [u|[]]; try (apply hoare_fail; apply Before_Safe).
  eapply (hoare_bind _ _ _ (λ r d ic, at_icon gid i0 (Before C gid i0 old) d ic ∧ (∀ g, r = Ok g → g = Some i0)));
    [eapply reads_hoare; [apply (reads_GetGroup C gid)| |apply Before_Safe]| |by intros e d ic [H _]; apply Before_Safe].
  { intros [g|e] d ic [Hi H] Hg; (split; [done|]); [|done]. intros g' [= <-]. cbn in Hg. by rewrite Hg. }
  intros g. eapply (hoare_pure _ (g = Some i0)); [intros d ic [_ H]; by apply H|]. intros ->.
  eapply (hoare_bind _ _ _ (λ r d ic, at_icon gid i0 (Before C gid i0 old) d ic ∧ (∀ bl, r = Ok bl → baseline_of bl)));
    [eapply reads_hoare; [apply reads_baseline| |intros d ic [H _]; by apply Before_Safe]| |by intros e d ic [H _]; apply Before_Safe].
  { intros [bl|e] d ic [[Hi [H1 H2]] _] Hbl; (split; [done|]); [|done]. intros bl' [= <-]. apply Hbl; [|done]. apply H2. by left. }
  intros bl. eapply (hoare_pure _ (baseline_of bl)); [intros d ic [_ H]; by apply H|]. intros Hbl. pose proof Hbl as (Hbi & Hbs & _).
  rewrite Hbi, Hbs. change (newGroupIconJournal C gid base t snaps) with journal.
  eapply hoare_bind; [eapply hoare_conseq; [apply hoare_begin|by intros d ic []|exact (λ _ _ _ H, H)|done]|intros u|done].
  eapply hoare_bind; [apply (hoare_normalize bl Hbl)|intros u'|done].
  eapply hoare_try; [eapply hoare_conseq; [apply (hoare_new_image base)|exact (λ _ _ H, H)|exact (λ _ _ _ H, H)|apply at_J_Safe]|].
  intros [n|e].
  - eapply (hoare_pure _ (n = t)); [intros d ic [_ H]; by destruct (H n eq_refl)|]. intros ->.
    eapply hoare_conseq; [apply (hoare_commit bl Hbl)| |done|done]. intros d ic [H Hn]. destruct (Hn t eq_refl) as (_ & ? & ?). auto.
  - eapply hoare_conseq; [apply (hoare_roll_back bl e Hbs)|by intros d ic []| |done].
    intros [n|e'] d ic [H Hr]; [done|exact H].
Qed.

End steps.
