(* ===== verification/GroupIconOthers.v ===== *)
(** * Transactions on the icons of other groups

    What another group's writes, deletions and recoveries leave alone: every
    assertion on the files and the metadata of this group. *)

From Stdlib Require Import Ascii.
From stdpp Require Import pretty.
From S2P Require Import Prelude Wire GoState ChatKeys ChatText GoStrings Passwords AuthService Images Assets GroupIcons AssetLogic GroupIconSafety.

(** ** Journals found in a listing *)

Section listings.
Context (C : AssetEnv).

Lemma reads_bases_each prefix names :
  reads (bases_each C prefix names) (on_ok (λ bases _ _, ∀ b, prefix +:+ b +:+ ".json" ∈ names → b ∈ bases)).
Proof.
  induction names as [|name names IH]; cbn [bases_each].
  { apply reads_ret. cbn. intros _ _ b Hb. by apply elem_of_nil in Hb. }
  destruct (negb (String.prefix prefix name) || negb (HasSuffix name ".json")) eqn:Hn.
  { eapply reads_conseq; [exact IH|]. intros [bases|e] d ic; [|done]. cbn. intros H b [<-|Hb]%elem_of_cons; [|by apply H].
    rewrite prefix_app, <- string_app_assoc, HasSuffix_app in Hn. done. }
  set (base := TrimSuffix _ ".json"). destruct (canonical_id _); [|by apply reads_fail].
  eapply (reads_bind_ok _ _ (λ _ _ _, True) (λ _ bases _ _, ∀ b, prefix +:+ b +:+ ".json" ∈ name :: names → b ∈ bases));
    [eapply reads_conseq; [apply reads_regularAssetInfo|by intros [] ? ? ?]| |intros ? ? ? ? _ H; exact H].
  intros u. eapply reads_bind_ok; [exact IH|intros rest; by apply (reads_ret _ (on_ok (λ bs _ _, bs = base :: rest)))|].
  cbn beta. intros rest bs d ic Hrest -> b [<-|Hb]%elem_of_cons; [|right; by apply Hrest].
  unfold base. rewrite substring_rest, TrimSuffix_app. left.
Qed.

(** A listing changes nothing. *)
Lemma keeps_transaction_bases prefix (P : assn) : keeps P (transaction_bases C prefix).
Proof. unfold transaction_bases. keeps_steps; eapply keeps_reads; [apply reads_normalizeAssetDir|apply reads_readAssetDir|apply reads_bases_each]. Qed.

Lemma reads_groupIconJournalBases b :
  reads (groupIconJournalBases C) (on_ok (λ bases d _, d_exists d = true → d_files d !! groupIconJournalPath b ≠ None → b ∈ bases)).
Proof.
  unfold groupIconJournalBases, transaction_bases.
  eapply (reads_try _ _ _ (λ r bases d _, match r with
     | Ok _ => on_ok (λ bases d _, d_files d !! groupIconJournalPath b ≠ None → b ∈ bases) bases d ∅
     | Err e => on_ok (λ _ _ _, e = ENotExist) bases d ∅ end)); [apply reads_normalizeAssetDir| |].
  - intros [u|[]]; try (by apply reads_fail); [|by apply reads_ret].
    eapply (reads_bind_ok _ _ (λ names d _, ∀ n, is_Some (d_files d !! n) → n ∈ names)); [apply reads_readAssetDir| |].
    + intros names. eapply reads_bind_ok; [apply reads_bases_each|intros bases; by apply (reads_ret _ (on_ok (λ bs _ _, bs = sort_by String.le bases)))|].
      instantiate (1 := λ names bs _ _, ∀ b, ".group-icon-txn-" +:+ b +:+ ".json" ∈ names → b ∈ bs).
      cbn beta. intros bases bs d ic Hb -> b' Hb'. rewrite sort_by_perm. by apply Hb.
    + cbn beta. intros names bs d ic Hn Hb HJ. apply Hb, Hn. by apply not_eq_None_Some.
  - intros [u|e] [bs|e'] d ic; cbn; auto. intros He -> Hd. by rewrite He in Hd.
Qed.

End listings.

(** ** Journals that validate *)

Section valid_journals.
Context (C : AssetEnv).

Lemma prior_images_formats pe rank seen found ps : prior_images_ok C pe rank seen found ps = true →
  Forall (λ p, is_Some (assetFormatForExtension (pi_Extension p))) ps.
Proof.
  revert rank seen found. induction ps as [|p ps IH]; intros rank seen found Hp; [constructor|]. cbn [prior_images_ok] in Hp.
  destruct (assetFormatForExtension (pi_Extension p)) as [f|] eqn:Hf; [|done]. constructor; [by eexists|].
  rewrite !andb_true_iff in Hp. by eapply IH, Hp.
Qed.

Lemma journal_of_valid j : validateGroupIconJournal C j = true →
  0 < gj_GroupID j ∧ gj_Base j = pretty (gj_GroupID j) ∧ Forall (λ s, names_variant (gj_Base j) (as_image s)) (groupIconJournalSnapshots j).
Proof.
  unfold validateGroupIconJournal. rewrite !andb_true_iff. intros ((((((((((_ & Hid) & Hb) & _) & _) & _) & _) & _) & _) & Hp) & _).
  apply negb_true_iff in Hid. apply String.eqb_eq in Hb. split_and!; [lia|done|].
  unfold groupIconJournalSnapshots. apply Forall_fmap. eapply Forall_impl; [by eapply prior_images_formats|]. intros p [f Hf]. cbn. rewrite Hf.
  destruct (format_extension _ _ Hf) as [_ Hfe]. exists f. split; [|by unfold variant_image; rewrite Hfe].
  unfold assetFormatForExtension in Hf. by apply head_Some_elem_of, list_elem_of_filter in Hf as [_ ?].
Qed.

End valid_journals.

(** ** Other groups *)

Section others.
Context (C : AssetEnv) {JS : IconJSON} (gid : Z) (Hgid : 0 < gid) (P : assn) (HP : local gid P).
#[local] Abbreviation b := (icon_base gid).

Lemma not_relevant b' n : group_base b' → b' ≠ b → n = groupIconJournalPath b' ∨ variant_of b' n → ¬ relevant gid n.
Proof using Hgid.
  intros Hb' Hne Hn Hr. apply Hne. apply (reserved_disjoint b' b n); [done|by apply icon_base_ok| |]; unfold reserved, relevant in *; tauto.
Qed.

Lemma tombstone_not_relevant b' : ¬ relevant gid (groupIconDeleteTombstonePath b').
Proof using Hgid.
  intros [Heq|Hv]; [by apply (journal_not_tombstone b b')|]. by destruct (variant_not_reserved_path b _ (icon_base_ok gid Hgid) Hv b') as [_ ?].
Qed.

Lemma keeps_remove_if_exists n : ¬ relevant gid n → keeps P (remove_if_exists C n).
Proof using HP. intros Hn. eapply hoare_conseq; [apply (hoare_remove_if_exists C _ _ _ (local_closed _ _ HP)); by right|done|by intros r d ic []|done]. Qed.

Lemma keeps_sync : keeps P (syncAssetDir C).
Proof using HP. eapply hoare_conseq; [apply (hoare_syncAssetDir C _ _ _ (local_closed _ _ HP))|done|by intros r d ic []|done]. Qed.

Lemma keeps_ensure : keeps P (ensureAssetDir C).
Proof using HP. eapply hoare_conseq; [apply (hoare_ensureAssetDir C _ _ _ (local_closed _ _ HP))|done|by intros r d ic []|done]. Qed.

Lemma keeps_write name data : ¬ relevant gid name → ¬ is_temp name → keeps P (writeAssetAtomic C name data).
Proof using HP. intros Hn Ht. eapply hoare_conseq; [by apply (hoare_write_closed C _ _ _ (local_closed _ _ HP) name data)|done|by intros r d ic []|done]. Qed.

Lemma keeps_GetGroup g : keeps P (GetGroup_ C g).
Proof using Type. eapply keeps_reads, reads_GetGroup. Qed.

Lemma keeps_SetGroupIcon g v : g ≠ gid → keeps P (SetGroupIcon_ C g v).
Proof using HP.
  intros Hg. eapply hoare_conseq; [apply (hoare_SetGroupIcon C g v P P P); [|done..]|done|by intros [] d ic; tauto|done].
  intros d ic. by apply (local_icons _ _ HP).
Qed.

Lemma keeps_normalizeAssetDir : keeps P (normalizeAssetDir C).
Proof using Type. eapply keeps_reads, reads_normalizeAssetDir. Qed.

Lemma keeps_readRegularAsset n k : keeps P (readRegularAsset C n k).
Proof using Type. eapply keeps_reads, reads_readRegularAsset. Qed.

Lemma keeps_regularAssetInfo n : keeps P (regularAssetInfo C n).
Proof using Type. eapply keeps_reads, reads_regularAssetInfo. Qed.

Lemma keeps_lstat n : keeps P (lstat C n).
Proof using Type. eapply keeps_reads, reads_lstat. Qed.

#[local] Hint Resolve keeps_sync keeps_ensure keeps_GetGroup keeps_SetGroupIcon keeps_normalizeAssetDir keeps_readRegularAsset
  keeps_regularAssetInfo keeps_lstat keeps_transaction_bases : asset_keeps.

Section other.
Context (g : Z) (Hg : 0 < g) (Hne : g ≠ gid).
#[local] Abbreviation b' := (pretty g).

Lemma other_base : group_base b' ∧ b' ≠ b.
Proof using Hg Hne. split; [by apply group_base_pretty|]. intros Heq. by apply (inj pretty) in Heq. Qed.

Lemma other_not_relevant n : n = groupIconJournalPath b' ∨ variant_of b' n → ¬ relevant gid n.
Proof using All. apply not_relevant; apply other_base. Qed.

Lemma keeps_existing : keeps P (existingImageVariants C b').
Proof using All. eapply keeps_reads, reads_existingImageVariants, other_base. Qed.

Lemma keeps_readImageAtRoot : keeps P (readImageAtRoot C b').
Proof using All. eapply keeps_reads, reads_readImageAtRoot, other_base. Qed.

Lemma keeps_remove_journal : keeps P (removeGroupIconJournal C b').
Proof using All. unfold removeGroupIconJournal. keeps_steps. apply keeps_remove_if_exists, other_not_relevant. by left. Qed.

Lemma keeps_remove_images required : keeps P (removeImagesAtRoot C b' required).
Proof using All. apply (hoare_removeImagesAtRoot C b' (proj1 other_base) _ _ _ (local_closed _ _ HP)). intros n Hn. apply other_not_relevant. by right. Qed.

Lemma keeps_restore ss : Forall (λ s, names_variant b' (as_image s)) ss → keeps P (restoreImageVariantsAndVerify C b' ss).
Proof using All.
  intros Hs. unfold restoreImageVariantsAndVerify. keeps_steps; [|eapply keeps_reads, reads_verify_any, other_base].
  apply (hoare_restoreImageVariants C b' (proj1 other_base) _ _ _ (local_closed _ _ HP)); [intros n Hn; apply other_not_relevant; by right|].
  eapply Forall_impl; [exact Hs|]. intros s Hn. split; [done|]. apply other_not_relevant. right. by apply names_variant_of.
Qed.

#[local] Hint Resolve keeps_existing keeps_readImageAtRoot keeps_remove_journal keeps_remove_images keeps_restore : asset_keeps.

Lemma keeps_target_committed j : keeps P (target_committed C b' j).
Proof using All. unfold target_committed. keeps_steps. Qed.

Lemma keeps_roll_back baseline e : Forall (λ s, names_variant b' (as_image s)) (bl_snapshots baseline) → keeps P (roll_back C b' baseline e).
Proof using All. intros Hs. unfold roll_back. keeps_steps. Qed.

Lemma keeps_writeGroupIconJournal j : gj_Base j = b' → keeps P (writeGroupIconJournal C j).
Proof using All.
  intros Hj. unfold writeGroupIconJournal. rewrite Hj. keeps_steps. apply keeps_write; [apply other_not_relevant; by left|].
  intros (name & random & Heq). apply (temp_not_reserved b' name random (proj1 other_base)). by left.
Qed.

Lemma keeps_writeImageAtRoot extension data : keeps P (writeImageAtRoot C b' extension data).
Proof using All.
  destruct (decide (extension ∈ extensions)) as [He|He].
  - eapply hoare_conseq; [apply (hoare_writeImageAtRoot C b' (proj1 other_base) _ _ _ (local_closed _ _ HP)); [|done|..]|done|by intros r d ic []|done].
    + intros n Hn. apply other_not_relevant. by right.
    + apply other_not_relevant. right. by exists extension.
    + intros d ic s _ [Hn _]. apply other_not_relevant. right. by apply names_variant_of.
  - unfold writeImageAtRoot. destruct (assetImagePath b' extension) as [n|e] eqn:Hp; [by apply assetImagePath_Ok in Hp as [? _]; [|apply other_base]|].
    intros w Hw. exact Hw.
Qed.

#[local] Hint Resolve keeps_target_committed keeps_roll_back keeps_writeGroupIconJournal keeps_writeImageAtRoot : asset_keeps.

(** The snapshots of a baseline are variants of its base. *)
Lemma hoare_baseline icon :
  hoare P (canonicalGroupIconRecoveryBaseline C b' icon)
    (λ r d ic, P d ic ∧ ∀ bl, r = Ok bl → Forall (λ s, names_variant b' (as_image s)) (bl_snapshots bl)) P.
Proof using All.
  unfold canonicalGroupIconRecoveryBaseline.
  eapply hoare_bind; [apply (hoare_existing C b' (proj1 other_base) P)| |by intros e d ic []].
  intros vs. eapply (hoare_pure _ (Forall (names_variant b') vs)); [intros d ic [_ H]; apply Forall_forall; by apply H|]. intros Hvs.
  eapply (hoare_bind _ _ _ (λ r d ic, P d ic ∧ ∀ os, r = Ok os → Forall (λ s, names_variant b' (as_image s)) (option_list os))); [| |by intros e d ic []].
  - destruct (negb (String.eqb icon "") && same_path b' icon) eqn:Hi; [|apply hoare_ret; intros d ic []; split; [done|by intros os [= <-]]].
    apply andb_true_iff in Hi as [_ Hi]. apply same_path_iff in Hi; [|apply other_base].
    eapply reads_hoare; [by apply (reads_linked_snapshot C g icon vs Hi)| |by intros d ic []].
    intros [os|e] d ic [H _] Hos; (split; [done|]); [|done]. intros os' [= <-]. destruct os as [s|]; [|constructor].
    apply Forall_singleton. rewrite Forall_forall in Hvs. by apply Hvs, Hos.
  - intros os. apply hoare_ret. intros d ic [H Hos]. split; [done|]. intros bl [= <-]. cbn. specialize (Hos os eq_refl). by destruct os.
Qed.

Lemma keeps_writeGroupIcon extension data : keeps P (writeGroupIconWithMetadata C g extension data).
Proof using All.
  unfold writeGroupIconWithMetadata. destruct (g <=? 0); [auto with asset_keeps|]. cbv zeta.
  apply keeps_bind; [auto with asset_keeps|intros target]. apply keeps_try; [auto with asset_keeps|]. intros [u|[]]; auto with asset_keeps.
  apply keeps_bind; [auto with asset_keeps|]. intros [icon|]; [|auto with asset_keeps].
  eapply keeps_bind_with; [apply hoare_baseline|]. intros bl Hbl. unfold normalize_baseline, commit_icon, confirmGroupIconBaseline. keeps_steps.
Qed.

(** ** Recovery *)

Lemma keeps_recoverGroupIconJournal_of j icon : gj_GroupID j = g → gj_Base j = b' → validateGroupIconJournal C j = true →
  keeps P (match icon with
    | None => run _ <- removeImagesAtRoot C b' false; removeGroupIconJournal C b'
    | Some icon =>
        run committed <- (if String.eqb icon (gj_TargetFile j) then target_committed C b' j else se_ret false);
        if committed : bool then removeGroupIconJournal C b'
        else run _ <- restoreImageVariantsAndVerify C b' (groupIconJournalSnapshots j);
             run _ <- SetGroupIcon_ C (gj_GroupID j) (gj_PriorIcon j); removeGroupIconJournal C b'
    end).
Proof using All.
  intros Hj Hbase Hval. rewrite Hj. assert (Forall (λ s, names_variant b' (as_image s)) (groupIconJournalSnapshots j)).
  { destruct (journal_of_valid C j Hval) as (_ & _ & Hs). by rewrite Hbase in Hs. }
  keeps_steps.
Qed.

Lemma keeps_artifacts : keeps P (removeGroupIconArtifactsAtRoot C b').
Proof using All. unfold removeGroupIconArtifactsAtRoot. keeps_steps. Qed.

End other.

Lemma keeps_recover_other name : name ≠ b → keeps P (recoverGroupIconJournal C name).
Proof using All.
  intros Hne. unfold recoverGroupIconJournal.
  eapply (keeps_bind_with _ _ _ (λ j, gj_Base j = name ∧ validateGroupIconJournal C j = true)).
  { eapply reads_hoare; [apply reads_readGroupIconJournal| |done]. intros [j|e] d ic H Hj; (split; [done|]); [|done]. intros j' [= <-]. split; apply Hj. }
  intros j [Hbase Hval]. destruct (journal_of_valid C j Hval) as (Hid & Hpr & _). rewrite Hbase in Hpr.
  assert (gj_GroupID j ≠ gid) as Hg by by intros Heq; apply Hne; rewrite Hpr, Heq.
  apply keeps_bind; [apply keeps_GetGroup|]. intros icon. rewrite Hpr. by apply keeps_recoverGroupIconJournal_of; [..|congruence|].
Qed.

Lemma keeps_remove_tombstone name : keeps P (removeGroupIconDeleteTombstone C name).
Proof using All. unfold removeGroupIconDeleteTombstone. keeps_steps. apply keeps_remove_if_exists, tombstone_not_relevant. Qed.

(** The group exists: a tombstone of it only goes away. *)
Lemma keeps_recover_tombstone name : (∀ d ic, P d ic → ic !! gid ≠ None) → keeps P (recoverGroupIconDeleteTombstone C name).
Proof using All.
  intros Hlive. unfold recoverGroupIconDeleteTombstone.
  eapply (keeps_bind_with _ _ _ (λ x, 0 < gd_GroupID x ∧ name = pretty (gd_GroupID x))).
  { unfold readGroupIconDeleteTombstone. eapply (hoare_bind _ _ _ (λ _, P)); [apply keeps_readRegularAsset| |by intros].
    intros raw. destruct (unmarshal_tombstone raw) as [x|]; [|by apply hoare_fail]. destruct (negb _) eqn:Hb'; [by apply hoare_fail|].
    destruct (negb (validateGroupIconDeleteTombstone C x)) eqn:Hv; [by apply hoare_fail|]. apply hoare_ret. intros d ic H. split; [done|].
    intros x' [= <-]. apply negb_false_iff in Hb', Hv. apply String.eqb_eq in Hb'. unfold validateGroupIconDeleteTombstone in Hv.
    rewrite !andb_true_iff in Hv. destruct Hv as (((_ & Hid) & Hp) & _). apply String.eqb_eq in Hp. apply negb_true_iff in Hid.
    rewrite <- Hb', Hp. split; [lia|done]. }
  intros x [Hid Hname].
  eapply (keeps_bind_with _ _ _ (λ icon, icon = None → gd_GroupID x ≠ gid)).
  { eapply reads_hoare; [apply reads_GetGroup| |done]. intros [icon|e] d ic H Hi; (split; [done|]); [|done].
    intros icon' [= <-] -> Heq. cbn in Hi. apply (Hlive d ic H). by rewrite <- Heq. }
  intros [icon|] Hn; [apply keeps_remove_tombstone|]. rewrite Hname.
  apply keeps_bind; [by apply (keeps_artifacts _ Hid (Hn eq_refl))|intros u; apply keeps_remove_tombstone].
Qed.

(** The deletion of another group. *)
Lemma keeps_delete_other isRefused g : g ≠ gid → keeps P (deleteServerGroupWithAssets C isRefused g).
Proof using All.
  intros Hg. unfold deleteServerGroupWithAssets. destruct (g <=? 0) eqn:Hz; [apply keeps_ret|]. cbv zeta. assert (0 < g) as Hpos by lia.
  assert (keeps P (DeleteGroup_ C isRefused g)) as Hdel.
  { apply hoare_metadata; [done|by intros|]. intros w Hw. destruct (aw_icons w !! g); [|done]. destruct isRefused; [done|]. cbn.
    split; by apply (local_delete _ _ HP). }
  assert (keeps P (writeGroupIconDeleteTombstone C (newGroupIconDeleteTombstone C g))) as Htomb.
  { unfold writeGroupIconDeleteTombstone. keeps_steps. apply keeps_write; [apply tombstone_not_relevant|].
    intros (name & random & Heq). apply (temp_not_reserved (pretty g) name random (group_base_pretty g Hpos)). right. by left. }
  unfold confirmServerGroupDeleted. pose proof (keeps_artifacts g Hpos Hg) as Hart. pose proof (keeps_remove_tombstone (pretty g)) as Hrm. keeps_steps.
Qed.

End others.

(** * Recovering icon transactions

    The recovery of a group from every state its transaction may have left, and the
    listing that finds the journals. *)

Lemma hoare_exists {A B} (P : B → assn) (m : AM A) Q X : (∀ x, hoare (P x) m Q X) → hoare (λ d ic, ∃ x, P x d ic) m Q X.
Proof. intros H w [x Hw]. by apply (H x). Qed.

Lemma hoare_or {A} (P P' : assn) (m : AM A) Q X : hoare P m Q X → hoare P' m Q X → hoare (λ d ic, P d ic ∨ P' d ic) m Q X.
Proof. intros H H' w [Hw|Hw]; [by apply H|by apply H']. Qed.

(** ** The group's own journal *)

Section recovery.
Context (C : AssetEnv) {JS : IconJSON}.
Context (gid : Z) (Hgid : 0 < gid) (extension : string) (Hext : extension ∈ extensions).
Context (data : list byte) (i0 : string) (old : option (list byte)) (Hold : old_ok C gid i0 old).

#[local] Abbreviation b := (icon_base gid).
#[local] Abbreviation J := (groupIconJournalPath (icon_base gid)).
#[local] Abbreviation t := (target_name gid extension).
#[local] Abbreviation Inv := (Inv C gid extension data i0 old).
#[local] Abbreviation InvJ := (InvJ C gid extension data i0 old).
#[local] Abbreviation base := (base_icon i0 old).
#[local] Abbreviation snaps := (option_list (base_snapshot gid i0 old)).
#[local] Abbreviation journal := (the_journal C gid extension i0 old).
#[local] Abbreviation Safe := (Safe C gid extension data i0 old).

Lemma journal_snapshots : groupIconJournalSnapshots journal = snaps.
Proof using All.
  pose proof (base_snapshot_spec C gid Hgid extension Hext data i0 old Hold) as Hbs. unfold the_journal, newGroupIconJournal.
  destruct (base_snapshot gid i0 old) as [s|]; [|done]. destruct Hbs as (_ & (f & Hf & Hv) & _). destruct s as [v x]. cbn in *. subst v.
  unfold groupIconJournalSnapshots. cbn. unfold variant_image. destruct (extension_format (af_extension f)) as (f' & Hf' & Heq); [by apply list_elem_of_fmap_2|].
  assert (f' = f) as ->. { apply formats_inj; [|done..]. unfold assetFormatForExtension in Hf'. by apply head_Some_elem_of, list_elem_of_filter in Hf' as [_ ?]. }
  by rewrite Hf'.
Qed.

Lemma reads_target_committed :
  reads (target_committed C b journal) (on_ok (λ c d _, c = true → ∃ x, is_file d t x ∧ valid_image C t x)).
Proof using All.
  pose proof (icon_base_ok gid Hgid) as Hb. change (gj_TargetFile journal) with t. unfold target_committed.
  eapply (reads_try _ _ _ (λ r c d _, match r with
    | Ok [v] => if String.eqb (ai_fileName v) t
                then on_ok (λ c d _, c = true → ∃ w x, names_variant b w ∧ is_file d (ai_fileName w) x ∧ valid_image C (ai_fileName w) x) c d ∅
                else on_ok (λ c _ _, c = false) c d ∅
    | _ => on_ok (λ c _ _, c = false) c d ∅ end)); [by apply reads_existingImageVariants| |].
  - intros [[|v [|]]|e]; try (by apply reads_ret). change (gj_TargetFile journal) with t. destruct (String.eqb (ai_fileName v) t); [|by apply reads_ret].
    eapply (reads_try _ _ _ (λ r c _ _, c = Ok (is_ok r))); [by apply reads_readImageAtRoot|intros r; by apply reads_ret|].
    intros [[x w]|e] c d ic H ->; [|done]. cbn. intros _. exists w, x. exact H.
  - intros [[|v [|]]|e] [c|e'] d ic; cbn; try done; try (by intros _ ->). intros Hvs Hc Htrue.
    destruct (String.eqb (ai_fileName v) t) eqn:Heq; [|by rewrite Hc in Htrue]. apply String.eqb_eq in Heq.
    destruct (Hc Htrue) as (w & x & Hw & Hx & Hok). destruct Hvs as [[_ Hvs]|[_ ?]]; [|done].
    assert (w ∈ [v]) as ->%list_elem_of_singleton. { rewrite Hvs. apply variants_in_elem. split; [done|by eexists]. }
    rewrite Heq in Hx, Hok. by exists x.
Qed.

(** The journal is gone, if the program says so. *)
Definition clean (r : result AErr ()) : assn := λ d ic, Safe d ic ∧ (r = Ok () → d_files d !! J = None).

Lemma hoare_finish_clean v i : v = old ∨ v = Some data →
  hoare (λ d ic, at_icon gid i (InvJ i) d ic ∧ stored C b (d_files d) i = v) (removeGroupIconJournal C b) clean Safe.
Proof using All.
  intros Hv. eapply hoare_conseq; [by apply (hoare_finish C gid Hgid extension Hext data i0 old Hold i v Hv)|done| |done].
  intros [u|e] d ic H; [|by split]. destruct H as [[Hi (H1 & _ & H2 & _)] _]. split; [by exists i|done].
Qed.

(** The recovery that goes back to the base. *)
Lemma hoare_put_back i :
  hoare (at_icon gid i (InvJ i)) (run _ <- restoreImageVariantsAndVerify C b snaps; run _ <- SetGroupIcon_ C gid base; removeGroupIconJournal C b) clean Safe.
Proof using All.
  eapply hoare_bind; [eapply hoare_conseq; [apply (hoare_restore C gid Hgid extension Hext data i0 old Hold i)|exact (λ _ _ H, H)|exact (λ _ _ _ H, H)|apply at_J_Safe]| |].
  - intros u. eapply (hoare_bind _ _ _ (λ r d ic, match r with Ok _ => at_icon gid base (InvJ base) d ic ∧ stored C b (d_files d) base = old | Err _ => Safe d ic end)).
    + eapply hoare_conseq; [apply (hoare_SetGroupIcon C gid base _ (λ d ic, at_icon gid base (InvJ base) d ic ∧ stored C b (d_files d) base = old) Safe)|exact (λ _ _ H, H)| |done].
      * intros d ic [[Hi H] Hs]. split; [split; [by rewrite lookup_insert_eq|by eapply InvJ_to_base]|]. apply Hs. by destruct u.
      * intros d ic [H _]. by eapply at_J_Safe.
      * intros d ic [H _]. by eapply at_J_Safe.
      * intros [u'|e] d ic; [done|]. by intros [[H _]|[H _]]; eapply at_J_Safe.
    + intros u'. apply hoare_finish_clean. by left.
    + intros e d ic H. by split.
  - intros e d ic [H _]. split; [by eapply at_J_Safe|done].
Qed.

Lemma hoare_recover_own :
  hoare Safe (recoverGroupIconJournal C b) clean Safe.
Proof using All.
  apply hoare_exists. intros i. unfold recoverGroupIconJournal.
  eapply (hoare_bind _ _ _ (λ r d ic, match r with Ok j => at_icon gid i (InvJ i) d ic ∧ j = journal | Err _ => Safe d ic end));
    [eapply reads_hoare; [apply reads_readGroupIconJournal| |intros d ic H; by exists i]| |by intros e d ic H].
  { intros [j|e] d ic [Hi H] Hj; [|by exists i]. destruct Hj as (_ & _ & raw & Hf & Hu).
    assert (InvJ i d) as HJ by by split; [done|unfold is_file in Hf; rewrite Hf].
    split; [by split|]. apply InvJ_pending in HJ as (_ & Hl & _); [|done..]. unfold is_file in Hf. rewrite Hl in Hf. injection Hf as <-.
    rewrite unmarshal_marshal_journal in Hu. by injection Hu. }
  intros j. eapply (hoare_pure _ (j = journal)); [by intros d ic []|]. intros ->. change (gj_GroupID journal) with gid.
  eapply (hoare_bind _ _ _ (λ r d ic, at_icon gid i (InvJ i) d ic ∧ (∀ g, r = Ok g → g = Some i)));
    [eapply reads_hoare; [apply (reads_GetGroup C gid)| |intros d ic [H _]; by eapply at_J_Safe]| |intros e d ic [H _]; split; [by eapply at_J_Safe|done]].
  { intros [g|e] d ic [[Hi H] _] Hg; (split; [done|]); [|done]. intros g' [= <-]. cbn in Hg. by rewrite Hg. }
  intros g. eapply (hoare_pure _ (g = Some i)); [intros d ic [_ H]; by apply H|]. intros ->.
  change (gj_TargetFile journal) with t. change (gj_PriorIcon journal) with base. rewrite journal_snapshots.
  eapply (hoare_bind _ _ _ (λ r d ic, at_icon gid i (InvJ i) d ic ∧ (r = Ok true → i = t ∧ ∃ x, is_file d t x ∧ valid_image C t x))).
  - destruct (String.eqb i t) eqn:Hit; [|by apply hoare_ret; intros d ic [H _]].
    eapply reads_hoare; [apply reads_target_committed| |intros d ic [H _]; by eapply at_J_Safe]. apply String.eqb_eq in Hit.
    intros [c|e] d ic [H _] Hc; (split; [done|]); [|done]. intros [= ->]. split; [done|by apply Hc].
  - intros [].
    + eapply (hoare_conseq _ (λ d ic, (at_icon gid i (InvJ i) d ic ∧ stored C b (d_files d) i = old) ∨ (at_icon gid i (InvJ i) d ic ∧ stored C b (d_files d) i = Some data)));
        [apply hoare_or; apply hoare_finish_clean; auto| |done|done].
      intros d ic [[Hi H] Hc]. destruct (Hc eq_refl) as (-> & x & Hx & Hok). assert (stored C b (d_files d) t = Some x) as Hs.
      { apply stored_Some; [by apply icon_base_ok|]. split_and!; [by apply target_variant|done|done]. }
      rewrite Hs. assert (x = data ∨ old = Some x) as [->|Ho]; [|right; by split|left; split; [by split|done]].
      apply (InvJ_pending C gid Hgid extension Hext data i0 old Hold t d H); done.
    + eapply hoare_conseq; [apply (hoare_put_back i)|by intros d ic []|done..].
  - intros e d ic [H _]. split; [by eapply at_J_Safe|done].
Qed.

(** ** The recovery at the start of the server *)

Lemma local_exists (P : string → assn) : (∀ i, local gid (P i)) → local gid (λ d ic, ∃ i, P i d ic).
Proof using Type.
  intros H. split; [split| |].
  - intros d ic [i Hi]. exists i. by apply (closed_mkdir _ _ _ (local_closed _ _ (H i))).
  - intros d ic [i Hi]. exists i. by apply (closed_sync _ _ _ (local_closed _ _ (H i))).
  - intros d ic n [i Hi] Hn. exists i. by apply (closed_del _ _ _ (local_closed _ _ (H i))).
  - intros d ic n x [i Hi] Hn. exists i. by apply (closed_put _ _ _ (local_closed _ _ (H i))).
  - intros d ic o n x [i Hi] Ho Hf Hn. exists i. by apply (closed_rename _ _ _ (local_closed _ _ (H i))).
  - intros d ic g v Hg [i Hi]. exists i. by apply (local_icons _ _ (H i)).
  - intros d ic g Hg [i Hi]. exists i. by apply (local_delete _ _ (H i)).
Qed.

(** The journal is gone, if [φ]. *)
Definition CleanIf (φ : Prop) : assn := λ d ic, ∃ i, at_icon gid i (λ d, Inv i d ∧ (φ → d_files d !! J = None)) d ic.

Lemma local_CleanIf φ : local gid (CleanIf φ).
Proof using All.
  apply local_exists. intros i. apply local_at; [done|..].
  - intros d [H1 H2]. split; [by apply Inv_mkdir|done].
  - intros d [H1 H2]. split; [by apply Inv_sync|done].
  - intros d f Hf [H1 H2]. split; [by apply Inv_outside|]. intros Hφ. etrans; [exact (Hf J (or_introl eq_refl))|auto].
Qed.

Lemma CleanIf_Safe φ d ic : CleanIf φ d ic → Safe d ic.
Proof using Type. intros (i & Hi & H & _). by exists i. Qed.

Lemma CleanIf_live φ d ic : CleanIf φ d ic → ic !! gid ≠ None.
Proof using Type. by intros (i & -> & _). Qed.

Lemma hoare_recover_journals bases φ :
  hoare (CleanIf φ) (recover_each (recoverGroupIconJournal C) bases)
    (λ r, match r with Ok _ => CleanIf (φ ∨ b ∈ bases) | Err _ => Safe end) Safe.
Proof using All.
  revert φ. induction bases as [|b' bases IH]; intros φ; cbn [recover_each].
  { apply hoare_ret. intros d ic (i & Hi & H & HJ). exists i. split; [done|]. split; [done|]. intros [?|Hb%elem_of_nil]; [auto|done]. }
  eapply (hoare_bind _ _ _ (λ r, match r with Ok _ => CleanIf (φ ∨ b = b') | Err _ => Safe end)); [|intros u|done].
  - destruct (decide (b = b')) as [<-|Hne].
    + eapply hoare_conseq; [apply hoare_recover_own|by intros d ic; apply CleanIf_Safe| |done].
      intros [[]|e] d ic [(i & Hi & H) HJ]; [|by exists i]. exists i. split; [done|]. split; [done|]. intros _. by apply HJ.
    + eapply hoare_conseq; [apply (keeps_recover_other C gid Hgid _ (local_CleanIf φ) b'); congruence|exact (λ _ _ H, H)| |by intros d ic; apply CleanIf_Safe].
      intros [u|e] d ic H; [|by eapply CleanIf_Safe]. destruct H as (i & Hi & H & HJ). exists i. split; [done|]. split; [done|]. intros [?|?]; [auto|done].
  - eapply hoare_conseq; [apply (IH (φ ∨ b = b'))|done| |done]. intros [u'|e] d ic H; [|done].
    destruct H as (i & Hi & H & HJ). exists i. split; [done|]. split; [done|]. intros HH. apply HJ. rewrite elem_of_cons in HH. tauto.
Qed.

Lemma hoare_recover_tombstones (P : assn) bases : local gid P → (∀ d ic, P d ic → ic !! gid ≠ None) →
  hoare P (recover_each (recoverGroupIconDeleteTombstone C) bases) (λ _, P) P.
Proof using All.
  intros HP Hlive. induction bases as [|b' bases IH]; cbn [recover_each]; [by apply hoare_ret|].
  eapply (hoare_bind _ _ _ (λ _, P)); [by apply (keeps_recover_tombstone C gid Hgid _ HP)|intros u; exact IH|done].
Qed.

Lemma hoare_Recover : hoare Safe (RecoverGroupIconTransactions C) clean Safe.
Proof using All.
  unfold RecoverGroupIconTransactions. eapply (hoare_bind _ _ _ (λ r d ic, match r with Ok bases => CleanIf (b ∉ bases) d ic | Err _ => Safe d ic end)).
  - eapply reads_hoare; [apply (reads_groupIconJournalBases C b)| |done]. intros [bases|e] d ic (i & Hi & H) Hb; [|by exists i].
    exists i. split; [done|]. split; [done|]. intros Hn. destruct (d_files d !! J) eqn:HJ; [|done]. exfalso.
    assert (InvJ i d) as HIJ by by split; [|rewrite HJ]. apply Hn, Hb; [|by rewrite HJ].
    by apply (InvJ_pending C gid Hgid extension Hext data i0 old Hold i d HIJ).
  - intros bases. eapply (hoare_bind _ _ _ (λ r d ic, match r with Ok _ => CleanIf (b ∉ bases) d ic | Err _ => Safe d ic end)).
    + eapply hoare_conseq; [apply (keeps_transaction_bases C ".group-icon-delete-" (CleanIf (b ∉ bases)))|exact (λ _ _ H, H)| |by intros d ic; apply CleanIf_Safe].
      intros [x|e] d ic H; [done|by eapply CleanIf_Safe].
    + intros tombs. eapply (hoare_bind _ _ _ (λ r, match r with Ok _ => CleanIf True | Err _ => Safe end)).
      * eapply hoare_conseq; [apply hoare_recover_journals|exact (λ _ _ H, H)| |done]. intros [u|e] d ic H; [|done].
        destruct H as (i & Hi & H & HJ). exists i. split; [done|]. split; [done|]. intros _. apply HJ. destruct (decide (b ∈ bases)); tauto.
      * intros u. eapply hoare_conseq; [apply (hoare_recover_tombstones _ tombs (local_CleanIf True)); apply CleanIf_live|done| |by intros d ic; apply CleanIf_Safe].
        intros r d ic H. split; [exact (CleanIf_Safe _ _ _ H)|]. intros _. destruct H as (i & _ & _ & HJ). auto.
      * intros e d ic H. by split.
    + intros e d ic H. by split.
  - intros e d ic H. by split.
Qed.

(** An icon that was acknowledged stays. *)
Lemma hoare_Recover_done : hoare (at_icon gid t (Done C gid extension data)) (RecoverGroupIconTransactions C) (λ _, at_icon gid t (Done C gid extension data)) (at_icon gid t (Done C gid extension data)).
Proof using All.
  set (P := at_icon gid t _). assert (local gid P) as HP by by apply (local_Done C gid Hgid extension Hext data i0 old Hold).
  unfold RecoverGroupIconTransactions.
  eapply (hoare_bind _ _ _ (λ _, P)); [apply (keeps_transaction_bases C ".group-icon-txn-" P)|intros bases|done].
  eapply (hoare_bind _ _ _ (λ _, P)); [apply (keeps_transaction_bases C ".group-icon-delete-" P)|intros tombs|done].
  eapply (hoare_bind _ _ _ (λ _, P)); [|intros u; apply (hoare_recover_tombstones P tombs HP); by intros d ic [-> _]|done].
  induction bases as [|b' bases IH]; cbn [recover_each]; [by apply hoare_ret|].
  eapply (hoare_bind _ _ _ (λ _, P)); [|intros u; exact IH|done]. destruct (decide (b' = b)) as [->|]; [|by apply (keeps_recover_other C gid Hgid P HP b')].
  unfold recoverGroupIconJournal. eapply (hoare_bind _ _ _ (λ r d ic, P d ic ∧ is_ok r = false)); [| |by intros e d ic []].
  - eapply reads_hoare; [apply reads_readGroupIconJournal| |done]. intros [j|e] d ic [Hi [Hex H]] Hj; [exfalso|by split].
    destruct Hj as (_ & _ & raw & Hf & _). unfold is_file in Hf. destruct (H (d_files d)) as [HJ _]; [by left|]. congruence.
  - intros j. eapply (hoare_pure _ False); [by intros d ic []|done].
Qed.

End recovery.
