(* ===== verification/GroupIconProps.v ===== *)
(** * Group icons survive crashes

    Whatever fails while an icon is set, and however often the power is lost, the
    process dies and the recovery is tried again afterwards, beside transactions on
    other groups: a recovery that ends leaves the old icon or the new one, and the
    new one if the write was acknowledged. *)

From Stdlib Require Import Ascii.
From stdpp Require Import pretty.
From S2P Require Import Prelude GoStrings Wire GoState ChatKeys ChatText Passwords AuthService Images Assets GroupIcons AssetLogic GroupIconSafety GroupIconOthers.

(** What fails, dies or is lost in one run of a program. *)
Record oracle := { o_io : nat → ioOutcome; o_db : nat → option dbOutcome; o_rnd : nat → option (list byte) }.

Definition run_with (C : AssetEnv) (o : oracle) : AssetEnv :=
  {| as_DecodeConfig := as_DecodeConfig C; as_Decode := as_Decode C; as_io := o_io o; as_db := o_db o; as_rnd := o_rnd o; as_sha256 := as_sha256 C |}.

Definition nothing_fails : oracle := {| o_io := λ _, IoOk; o_db := λ _, Some DbOk; o_rnd := λ n, Some [Z.of_nat n] |}.

Section events.
Context (C : AssetEnv) {JS : IconJSON}.

(** The image a client gets. *)
Definition served (gid : Z) (w : AW) : option (list byte) :=
  match (readGroupIcon (run_with C nothing_fails) gid w).2 with Ok (raw, _) => Some raw | Err _ => None end.

Inductive iconEvent :=
| EvPower (updates : nat)
| EvRecover (o : oracle)
| EvWrite (o : oracle) (gid : Z) (extension : string) (data : list byte)
| EvDelete (o : oracle) (refused : bool) (gid : Z).

Definition step_event (e : iconEvent) (w : AW) : AW :=
  match e with
  | EvPower updates => power_loss updates w
  | EvRecover o => (RecoverGroupIconTransactions (run_with C o) w).1
  | EvWrite o gid extension data => (writeGroupIconWithMetadata (run_with C o) gid extension data w).1
  | EvDelete o isRefused gid => (deleteServerGroupWithAssets (run_with C o) isRefused gid w).1
  end.

Definition after (es : list iconEvent) (w : AW) : AW := foldl (λ w e, step_event e w) w es.

(** The event is not about the group. *)
Definition apart (gid : Z) (e : iconEvent) : Prop :=
  match e with EvWrite _ g _ _ | EvDelete _ _ g => g ≠ gid | _ => True end.

(** No transaction of the group is open, and the disk has what the directory has. *)
Definition quiet (gid : Z) (w : AW) : Prop :=
  d_unsynced (aw_dir w) = [] ∧ d_files (aw_dir w) !! groupIconJournalPath (pretty gid) = None ∧
  (d_exists (aw_dir w) = false → d_files (aw_dir w) = ∅).

Lemma served_stored gid w : 0 < gid →
  served gid w = match aw_icons w !! gid with
                 | Some i => if d_exists (aw_dir w) then stored C (pretty gid) (d_files (aw_dir w)) i else None
                 | None => None
                 end.
Proof.
  intros Hgid. unfold served, readGroupIcon. replace (gid <=? 0) with false by lia.
  unfold try_, GetGroup_, metadata. cbn [run_with nothing_fails as_db o_db o_io]. cbn [lift aw_icons tick_access].
  destruct (aw_icons w !! gid) as [i|]; [|done]. destruct (String.eqb i "") eqn:Hi.
  { apply String.eqb_eq in Hi as ->. cbn. destruct (d_exists _); [|done]. symmetry. apply stored_empty. }
  unfold stored. destruct (same_path (pretty gid) i) eqn:Hsp; cbn [negb]; [|by destruct (d_exists _)].
  apply same_path_iff in Hsp as (e & He & ->); [|by apply group_base_pretty]. rewrite Ext_variant by done.
  destruct (extension_format e He) as (f & Hf & _). rewrite Hf.
  unfold se_bind, normalizeAssetDir, readRegularAsset, access. cbn [run_with nothing_fails as_io o_io].
  cbn [aw_dir aw_icons tick_access aw_calls lift]. destruct (d_exists (aw_dir w)) eqn:Hex; cbn [lift]; [|done].
  cbn [aw_dir tick_access lift]. unfold lookup_regular. cbn [aw_dir tick_access].
  destruct (d_files (aw_dir w) !! _) as [[x|]|]; cbn [result_bind lift]; [|done..].
  destruct (maxImageBytes <? len x) eqn:Hl; cbn [lift].
  - destruct (is_ok (validateAssetImage C x e)) eqn:Hv; [|done].
    assert (valid_image C (pretty gid +:+ e) x) as Hs%valid_image_size by by unfold valid_image; rewrite Ext_variant. lia.
  - change (validateAssetImage (run_with C nothing_fails) x e) with (validateAssetImage C x e).
    by destruct (validateAssetImage C x e) as [[]|].
Qed.

Lemma keeps_state {A} P (m : AM A) w : keeps P m → P (aw_dir w) (aw_icons w) → P (aw_dir (m w).1) (aw_icons (m w).1).
Proof. intros Hm Hw. specialize (Hm w Hw). by destruct (m w) as [w' [a|[e|]]]. Qed.

(** An assertion on one group that the recovery keeps outlives every event apart from it. *)
Lemma after_keeps gid (P : assn) es w :
  0 < gid → local gid P → (∀ o, keeps P (RecoverGroupIconTransactions (run_with C o))) →
  (∀ d ic m, P d ic → m ∈ d_files d :: d_unsynced d → P (mkDir (d_exists d) m []) ic) →
  Forall (apart gid) es → P (aw_dir w) (aw_icons w) → P (aw_dir (after es w)) (aw_icons (after es w)).
Proof.
  intros Hgid HP Hrec Hpow Hes. revert w. induction Hes as [|e es He _ IH]; intros w Hw; [done|]. apply IH. clear IH.
  destruct e as [n|o|o g ext x|o f g]; cbn [step_event].
  - unfold power_loss. apply Hpow; [done|]. destruct (_ !! n) as [m|] eqn:Hm; cbn; [by eapply list_elem_of_lookup_2|by left].
  - by apply keeps_state.
  - destruct (decide (0 < g)) as [Hg|Hg]; [apply keeps_state; [by apply (keeps_writeGroupIcon (run_with C o) gid Hgid P HP g Hg He)|done]|].
    unfold writeGroupIconWithMetadata. by replace (g <=? 0) with true by lia.
  - apply keeps_state; [by apply (keeps_delete_other (run_with C o) gid Hgid P HP f g He)|done].
Qed.

Section transaction.
Context (gid : Z) (Hgid : 0 < gid) (extension : string) (Hext : extension ∈ extensions).
Context (data : list byte) (i0 : string) (old : option (list byte)).
Context (Hold : old_ok C gid i0 old).

#[local] Abbreviation Safe := (Safe C gid extension data i0 old).
#[local] Abbreviation Done' := (at_icon gid (target_name gid extension) (Done C gid extension data)).

Lemma local_Safe : local gid Safe.
Proof using All. apply local_exists. intros i. by apply local_Inv. Qed.

Lemma after_Safe es w : Forall (apart gid) es → Safe (aw_dir w) (aw_icons w) → Safe (aw_dir (after es w)) (aw_icons (after es w)).
Proof using All.
  intros Hes. apply (after_keeps gid); [done|apply local_Safe| |by intros d ic m (i & Hi & H) Hm; exists i; split; [|eapply Inv_power]|done].
  intros o. eapply hoare_conseq; [apply (hoare_Recover (run_with C o) gid Hgid extension Hext data i0 old Hold)|done|by intros r d ic []|done].
Qed.

Lemma after_Done es w : Forall (apart gid) es → Done' (aw_dir w) (aw_icons w) → Done' (aw_dir (after es w)) (aw_icons (after es w)).
Proof using All.
  intros Hes. apply (after_keeps gid); [done|by apply (local_Done C gid Hgid extension Hext data i0 old Hold)| | |done].
  - intros o. apply (hoare_Recover_done (run_with C o) gid Hgid extension Hext data i0 old Hold).
  - intros d ic m [Hi [Hex H]] Hm. split; [done|]. split; [done|]. cbn. intros m' ->%list_elem_of_singleton. by apply H.
Qed.

Lemma Done_served w : Done' (aw_dir w) (aw_icons w) → served gid w = Some data.
Proof using Hgid. intros [Hi [Hex H]]. rewrite served_stored, Hi, Hex by done. apply H. by left. Qed.

Lemma Safe_served w : Safe (aw_dir w) (aw_icons w) → d_files (aw_dir w) !! groupIconJournalPath (icon_base gid) = None →
  served gid w = old ∨ served gid w = Some data.
Proof using Hgid.
  intros (i & Hi & _ & Hex & H) HJ. rewrite served_stored, Hi by done. destruct (d_exists (aw_dir w)); [|left; symmetry; by apply Hex].
  destruct (H (d_files (aw_dir w))) as [(_ & Hl & _)|(_ & Hs & _)]; [by left|by rewrite HJ in Hl|done].
Qed.

End transaction.

Lemma quiet_Before gid w i0 : 0 < gid → quiet gid w → aw_icons w !! gid = Some i0 →
  at_icon gid i0 (Before C gid i0 (served gid w)) (aw_dir w) (aw_icons w) ∧ old_ok C gid i0 (served gid w).
Proof.
  intros Hgid (Hs & HJ & Hex) Hi. rewrite served_stored, Hi by done. split.
  - split; [done|]. split; [by intros ->|]. rewrite Hs. intros m ->%list_elem_of_singleton. split; [done|].
    destruct (d_exists (aw_dir w)); [done|]. rewrite Hex by done. unfold stored. by destruct (same_path _ _).
  - intros x Hx. destruct (d_exists (aw_dir w)); [|done]. apply stored_Some in Hx as (? & _ & ?); [done|by apply group_base_pretty].
Qed.


End events.

(** ** A concrete run *)

(** An encoding of the two records. *)
#[local] Instance image_eq_dec : EqDecision groupIconPriorImage.
Proof. solve_decision. Defined.
#[local] Instance journal_eq_dec : EqDecision groupIconJournal.
Proof. solve_decision. Defined.
#[local] Instance tombstone_eq_dec : EqDecision groupIconDeleteTombstone.
Proof. solve_decision. Defined.

#[local] Instance image_countable : Countable groupIconPriorImage.
Proof.
  refine (inj_countable' (λ p, (pi_Extension p, pi_Data p, pi_SHA256 p)) (λ '(e, x, s), {| pi_Extension := e; pi_Data := x; pi_SHA256 := s |}) _).
  by intros [].
Defined.
#[local] Instance journal_countable : Countable groupIconJournal.
Proof.
  refine (inj_countable' (λ j, (gj_Version j, gj_GroupID j, gj_Base j, gj_PriorIcon j, gj_TargetFile j, gj_PriorImages j, gj_Checksum j))
            (λ '(v, g, b, p, t, i, c), mkJournal v g b p t i c) _).
  by intros [].
Defined.
#[local] Instance tombstone_countable : Countable groupIconDeleteTombstone.
Proof.
  refine (inj_countable' (λ t, (gd_Version t, gd_GroupID t, gd_Base t, gd_Checksum t)) (λ '(v, g, b, c), mkTombstone v g b c) _).
  by intros [].
Defined.

Fixpoint bits_of (p : positive) : list byte := match p with xH => [] | xO p => 0 :: bits_of p | xI p => 1 :: bits_of p end.
Fixpoint of_bits (l : list byte) : positive := match l with [] => xH | 0 :: l => xO (of_bits l) | _ :: l => xI (of_bits l) end.
Lemma of_bits_of p : of_bits (bits_of p) = p.
Proof. induction p as [p IH|p IH|]; cbn; by rewrite ?IH. Qed.

Definition toy_json : IconJSON.
Proof.
  refine {| marshal_journal j := bits_of (countable.encode j); unmarshal_journal l := countable.decode (of_bits l);
            marshal_tombstone t := bits_of (countable.encode t); unmarshal_tombstone l := countable.decode (of_bits l) |};
  intros; rewrite of_bits_of; apply countable.decode_encode.
Defined.

Definition toy_env : AssetEnv :=
  {| as_DecodeConfig := λ _, Some ("jpeg", 1, 1); as_Decode := λ _, Some "jpeg"; as_io := λ _, IoOk; as_db := λ _, Some DbOk;
     as_rnd := λ n, Some [Z.of_nat n]; as_sha256 := λ l, [len l] |}.

Definition toy_old : list byte := [255; 216; 1].
Definition toy_new : list byte := [255; 216; 2].
Definition toy_state : AW := mkAW (mkDir true {["7.jpg" := File toy_old]} []) {[7 := "7.jpg"; 8 := ""]} 0.
(** The process dies at the access [n]. *)
Definition dies_at (n : nat) : oracle := {| o_io := λ k, if bool_decide (k = n) then IoCrash else IoOk; o_db := λ _, Some DbOk; o_rnd := λ k, Some [Z.of_nat k] |}.

Definition toy_events : list iconEvent := [EvPower 1; EvWrite (dies_at 99) 8 ".jpg" toy_new; EvRecover (dies_at 5)].

