(* ===== verification/Ratchet.v ===== *)
(** * End-to-end encryption: [src/internal/e2ee/crypto.go], [sender_keys.go]

    X3DH key agreement, the ratchet with its bounded cache of skipped message
    keys, sender keys and the encryption of file chunks. HKDF, AES-GCM, X25519
    and Ed25519 are parameters; [PrimLaws] states what the standard library
    documents of them. A byte string is a list of [Z]. The outcome of a read of
    the random source is an argument of the operation that makes it. *)

From S2P Require Import Prelude Wire ChatText.

Definition MaxSkippedKeys : Z := 2000.

(** [binary.BigEndian.PutUint64]. *)
Definition put64 (v : Z) : list Z := put32 (Z.shiftr v 32) ++ put32 v.

Record KeyPair := { kp_Private : list Z; kp_Public : list Z }.

Record PreKeyBundle := {
  pb_IdentityDH : list Z;
  pb_SigningPublic : list Z;
  pb_SignedPreKeyID : Z;
  pb_SignedPreKey : list Z;
  pb_Signature : list Z;
  pb_OneTimePreKeyID : Z;
  pb_OneTimePreKey : list Z;
}.

Record X3DHInitial := {
  xi_EphemeralPublic : list Z;
  xi_SignedPreKeyID : Z;
  xi_OneTimePreKeyID : Z;
}.

Record Message := { m_RatchetStep : Z; m_Number : Z; m_Ciphertext : list Z }.

Record receiveChain := { rc_chain : list Z; rc_number : Z; rc_skipped : gmap Z (list Z) }.

Record Ratchet := mkRatchet {
  r_root : list Z;
  r_sendChain : list Z;
  r_sendN : Z;
  r_sendStep : Z;
  r_recvStep : Z;
  r_receive : gmap Z receiveChain;
  r_initiator : bool;
}.

Inductive E2EErr :=
| ErrInvalidSignature | ErrTooManySkipped | ErrSkippedKeyGone | ErrUnknownStep
| ErrRandomSource | ErrKeyInvalid | ErrCiphertextInvalid.

Definition new_receive (chain : list Z) : receiveChain := {| rc_chain := chain; rc_number := 0; rc_skipped := ∅ |}.

Definition messageAAD (step number : Z) (aad : list Z) : list Z := put32 step ++ put32 number ++ aad.

Definition preKeySignedBytes (id : Z) (public : list Z) : list Z :=
  bytes_of_string "voicx:signed-prekey:" ++ put32 id ++ public.

Definition skippedCountLocked (r : Ratchet) : Z :=
  map_fold (λ _ st total, total + Z.of_nat (size (rc_skipped st))) 0 (r_receive r).

Definition SkippedCount (r : Ratchet) : Z := skippedCountLocked r.

Section primitives.
Context (hkdf_Key : list Z → list Z → list Z → nat → list Z).   (* secret, salt, info, size *)
Context (gcm_Seal : list Z → list Z → list Z → list Z → list Z). (* key, nonce, plaintext, additional data *)
Context (gcm_Open : list Z → list Z → list Z → list Z → option (list Z)).
Context (x25519 : list Z → list Z → list Z) (x25519_public : list Z → list Z).
Context (ed_Sign : list Z → list Z → list Z) (ed_Verify : list Z → list Z → list Z → bool).
Context (ed_Public : list Z → list Z).

(** ** Keys *)

Definition hkdf (secret salt : list Z) (info : string) (size : nat) : list Z :=
  hkdf_Key secret salt (bytes_of_string info) size.

(** [GenerateX25519] on the scalar the random source gave. *)
Definition GenerateX25519 (scalar : option (list Z)) : result E2EErr KeyPair :=
  match scalar with
  | None => Err ErrRandomSource
  | Some k => Ok {| kp_Private := k; kp_Public := x25519_public k |}
  end.

(** [exchange]: both keys have 32 bytes, and a result of zeros is an error. *)
Definition exchange (private public : list Z) : result E2EErr (list Z) :=
  if negb (bool_decide (length private = 32%nat)) then Err ErrKeyInvalid
  else if negb (bool_decide (length public = 32%nat)) then Err ErrKeyInvalid
  else
    let secret := x25519 private public in
    if bool_decide (secret = replicate 32 0) then Err ErrKeyInvalid else Ok secret.

(** ** X3DH *)

Definition NewPreKeyBundle (identityDH : KeyPair) (signingPrivate : list Z) (signedID : Z) (signedPreKey : KeyPair)
    (oneTimeID : Z) (oneTimePreKey : KeyPair) : PreKeyBundle :=
  {| pb_IdentityDH := kp_Public identityDH; pb_SigningPublic := ed_Public signingPrivate;
     pb_SignedPreKeyID := signedID; pb_SignedPreKey := kp_Public signedPreKey;
     pb_Signature := ed_Sign signingPrivate (preKeySignedBytes signedID (kp_Public signedPreKey));
     pb_OneTimePreKeyID := oneTimeID; pb_OneTimePreKey := kp_Public oneTimePreKey |}.

Definition VerifyPreKeyBundle (bundle : PreKeyBundle) : bool :=
  bool_decide (length (pb_IdentityDH bundle) = 32%nat) && bool_decide (length (pb_SignedPreKey bundle) = 32%nat) &&
  bool_decide (length (pb_SigningPublic bundle) = 32%nat) && bool_decide (length (pb_Signature bundle) = 64%nat) &&
  ed_Verify (pb_SigningPublic bundle) (preKeySignedBytes (pb_SignedPreKeyID bundle) (pb_SignedPreKey bundle))
    (pb_Signature bundle).

Definition InitiateX3DH (scalar : option (list Z)) (identityPrivate : list Z) (bundle : PreKeyBundle)
  : result E2EErr (list Z * X3DHInitial) :=
  if negb (VerifyPreKeyBundle bundle) then Err ErrInvalidSignature
  else
    let? ephemeral := GenerateX25519 scalar in
    let? dh1 := exchange identityPrivate (pb_SignedPreKey bundle) in
    let? dh2 := exchange (kp_Private ephemeral) (pb_IdentityDH bundle) in
    let? dh3 := exchange (kp_Private ephemeral) (pb_SignedPreKey bundle) in
    let material := dh1 ++ dh2 ++ dh3 in
    let? last :=
      (if bool_decide (pb_OneTimePreKey bundle ≠ []) then
         let? dh4 := exchange (kp_Private ephemeral) (pb_OneTimePreKey bundle) in
         Ok (material ++ dh4, pb_OneTimePreKeyID bundle)
       else Ok (material, 0)) in
    Ok (hkdf last.1 [] "voicx:x3dh" 32,
        {| xi_EphemeralPublic := kp_Public ephemeral; xi_SignedPreKeyID := pb_SignedPreKeyID bundle;
           xi_OneTimePreKeyID := last.2 |}).

Definition RespondX3DH (identityPrivate signedPreKeyPrivate oneTimePreKeyPrivate initiatorIdentityPublic : list Z)
    (initial : X3DHInitial) : result E2EErr (list Z) :=
  let? dh1 := exchange signedPreKeyPrivate initiatorIdentityPublic in
  let? dh2 := exchange identityPrivate (xi_EphemeralPublic initial) in
  let? dh3 := exchange signedPreKeyPrivate (xi_EphemeralPublic initial) in
  let material := dh1 ++ dh2 ++ dh3 in
  let? material :=
    (if bool_decide (oneTimePreKeyPrivate ≠ []) then
       let? dh4 := exchange oneTimePreKeyPrivate (xi_EphemeralPublic initial) in
       Ok (material ++ dh4)
     else Ok material) in
  Ok (hkdf material [] "voicx:x3dh" 32).

(** ** The ratchet *)

Definition chain_next (chain : list Z) : list Z := hkdf chain [] "voicx:chain:next" 32.
Definition chain_message (chain : list Z) : list Z := hkdf chain [] "voicx:chain:message" 32.
Definition chainStep (chain : list Z) : list Z * list Z := (chain_next chain, chain_message chain).

(** The chains of the initiator ([true]) and of the responder under a root. *)
Definition root_chain (root : list Z) (initiator : bool) : list Z :=
  hkdf root [] (if initiator then "voicx:double-ratchet:a" else "voicx:double-ratchet:b") 32.

Definition NewRatchet (sharedSecret : list Z) (initiator : bool) : Ratchet :=
  let root := hkdf sharedSecret [] "voicx:double-ratchet:root" 32 in
  let a := root_chain root true in
  let b := root_chain root false in
  if initiator then mkRatchet root a 0 0 0 {[0 := new_receive b]} true
  else mkRatchet root b 0 0 0 {[0 := new_receive a]} false.

Definition RatchetStep (dhSecret : list Z) (r : Ratchet) : Ratchet :=
  let root := hkdf dhSecret (r_root r) "voicx:double-ratchet:step" 32 in
  let a := root_chain root true in
  let b := root_chain root false in
  let recvStep := u32 (r_recvStep r + 1) in
  let '(send, recv) := if r_initiator r then (a, b) else (b, a) in
  let receive := <[recvStep := new_receive recv]> (r_receive r) in
  mkRatchet root send 0 (u32 (r_sendStep r + 1)) recvStep
    (filter (λ '(step, _), ¬ u32 (step + 1) < recvStep) receive) (r_initiator r).

(** [aes.NewCipher] takes keys of 16, 24 or 32 bytes. *)
Definition aes_key (key : list Z) : bool := bool_decide (length key ∈ [16; 24; 32]%nat).

Definition sealAES (nonce : option (list Z)) (key plain aad : list Z) : result E2EErr (list Z) :=
  if negb (aes_key key) then Err ErrKeyInvalid
  else match nonce with
       | None => Err ErrRandomSource
       | Some nonce => Ok (nonce ++ gcm_Seal key nonce plain aad)
       end.

Definition openAES (key blob aad : list Z) : result E2EErr (list Z) :=
  if negb (aes_key key) then Err ErrKeyInvalid
  else if decide (length blob < 12 + 16)%nat then Err ErrCiphertextInvalid
  else match gcm_Open key (take 12 blob) (drop 12 blob) aad with
       | Some plain => Ok plain
       | None => Err ErrCiphertextInvalid
       end.

Definition Encrypt (nonce : option (list Z)) (plain aad : list Z) (r : Ratchet) : Ratchet * result E2EErr Message :=
  let '(next, key) := chainStep (r_sendChain r) in
  let number := r_sendN r in
  match sealAES nonce key plain (messageAAD (r_sendStep r) number aad) with
  | Err e => (r, Err e)
  | Ok blob =>
      (mkRatchet (r_root r) next (u32 (r_sendN r + 1)) (r_sendStep r) (r_recvStep r) (r_receive r) (r_initiator r),
       Ok {| m_RatchetStep := r_sendStep r; m_Number := number; m_Ciphertext := blob |})
  end.

(** The loop of [Decrypt]: the keys of the next [n] numbers are staged. *)
Fixpoint stage (n : nat) (number : Z) (chain : list Z) (pending : gmap Z (list Z)) : list Z * gmap Z (list Z) :=
  match n with
  | O => (chain, pending)
  | S n =>
      let '(next, key) := chainStep chain in
      stage n (u32 (number + 1)) next (<[number := key]> pending)
  end.

Definition set_receive (step : Z) (st : receiveChain) (r : Ratchet) : Ratchet :=
  mkRatchet (r_root r) (r_sendChain r) (r_sendN r) (r_sendStep r) (r_recvStep r) (<[step := st]> (r_receive r))
    (r_initiator r).

Definition Decrypt (message : Message) (aad : list Z) (r : Ratchet) : Ratchet * result E2EErr (list Z) :=
  let step := m_RatchetStep message in
  let n := m_Number message in
  match r_receive r !! step with
  | None => (r, Err ErrUnknownStep)
  | Some st =>
      if n <? rc_number st then
        match rc_skipped st !! n with
        | None => (r, Err ErrSkippedKeyGone)
        | Some key =>
            match openAES key (m_Ciphertext message) (messageAAD step n aad) with
            | Err e => (r, Err e)
            | Ok plain =>
                (set_receive step {| rc_chain := rc_chain st; rc_number := rc_number st;
                                     rc_skipped := delete n (rc_skipped st) |} r, Ok plain)
            end
        end
      else
        let gap := n - rc_number st in
        if (MaxSkippedKeys <? gap) || (MaxSkippedKeys <? skippedCountLocked r + gap) then (r, Err ErrTooManySkipped)
        else
          let '(chain, pending) := stage (Z.to_nat gap) (rc_number st) (rc_chain st) ∅ in
          let '(next, key) := chainStep chain in
          match openAES key (m_Ciphertext message) (messageAAD step n aad) with
          | Err e => (r, Err e)
          | Ok plain =>
              (set_receive step {| rc_chain := next; rc_number := u32 (n + 1);
                                   rc_skipped := pending ∪ rc_skipped st |} r, Ok plain)
          end
  end.

(** ** Sender keys *)

Definition NewSenderKey (secret : list Z) (sender : bool) : Ratchet := NewRatchet secret sender.
Definition SenderKey_Encrypt (nonce : option (list Z)) (plain : list Z) (groupID : string) : Ratchet → Ratchet * result E2EErr Message :=
  Encrypt nonce plain (bytes_of_string ("group:" +:+ groupID)).
Definition SenderKey_Decrypt (message : Message) (groupID : string) : Ratchet → Ratchet * result E2EErr (list Z) :=
  Decrypt message (bytes_of_string ("group:" +:+ groupID)).
Definition Rotate (sharedSecret : list Z) : Ratchet → Ratchet := RatchetStep sharedSecret.

(** ** File chunks *)

Definition message_info (conversationID : string) (number : Z) : list Z :=
  bytes_of_string "voicx:message:" ++ bytes_of_string conversationID ++ put64 number.

Definition DeriveMessageKey (root : list Z) (conversationID : string) (number : Z) : list Z :=
  hkdf_Key root [] (message_info conversationID number) 32.

Definition EncryptFileChunk (nonce : option (list Z)) (master : list Z) (fileID : string) (index : Z) (plain : list Z)
  : result E2EErr (list Z) :=
  let key := DeriveMessageKey master ("file:" +:+ fileID) index in
  sealAES nonce key plain (bytes_of_string fileID ++ put64 index).

Definition DecryptFileChunk (master : list Z) (fileID : string) (index : Z) (blob : list Z) : result E2EErr (list Z) :=
  let key := DeriveMessageKey master ("file:" +:+ fileID) index in
  openAES key blob (bytes_of_string fileID ++ put64 index).

(** ** What the primitives promise *)

Record PrimLaws : Prop := {
  pl_hkdf secret salt info size : length (hkdf_Key secret salt info size) = size;
  pl_open key nonce plain aad : gcm_Open key nonce (gcm_Seal key nonce plain aad) aad = Some plain;
  pl_seal_length key nonce plain aad : length (gcm_Seal key nonce plain aad) = (length plain + 16)%nat;
  pl_dh a b : x25519 a (x25519_public b) = x25519 b (x25519_public a);
  pl_public a : length (x25519_public a) = 32%nat;
  pl_verify k msg : ed_Verify (ed_Public k) msg (ed_Sign k msg) = true;
  pl_ed_public k : length (ed_Public k) = 32%nat;
  pl_ed_sign k msg : length (ed_Sign k msg) = 64%nat;
}.
End primitives.
