(* ===== verification/RatchetProps.v ===== *)
(** * What the end-to-end encryption guarantees

    Two parties that start from the same secret and take the same ratchet steps,
    each at its own pace, over a network that may lose, reorder, repeat and forge
    messages: whatever one sealed the other opens as long as the step is in its
    window and the gap within the limit; no message number is accepted twice; the
    key material kept is bounded; what is accepted was sealed under the key the
    step and number stand for. Both sides of X3DH derive the same secret, and file
    chunks round-trip under keys of their own. *)

From S2P Require Import Prelude Wire ChatText Ratchet.

Section ratchet.
Context (hkdf_Key : list Z → list Z → list Z → nat → list Z).
Context (gcm_Seal : list Z → list Z → list Z → list Z → list Z).
Context (gcm_Open : list Z → list Z → list Z → list Z → option (list Z)).
Context (x25519 : list Z → list Z → list Z) (x25519_public : list Z → list Z).
Context (ed_Sign : list Z → list Z → list Z) (ed_Verify : list Z → list Z → list Z → bool).
Context (ed_Public : list Z → list Z).
Implicit Types (r : Ratchet) (st : receiveChain) (m : Message).

#[local] Abbreviation laws_ :=
  (PrimLaws hkdf_Key gcm_Seal gcm_Open x25519 x25519_public ed_Sign ed_Verify ed_Public).
#[local] Abbreviation hkdf_ := (hkdf hkdf_Key).
#[local] Abbreviation next_ := (chain_next hkdf_Key).
#[local] Abbreviation message_ := (chain_message hkdf_Key).
#[local] Abbreviation root_chain_ := (root_chain hkdf_Key).
#[local] Abbreviation stage_ := (stage hkdf_Key).
#[local] Abbreviation Encrypt_ := (Encrypt hkdf_Key gcm_Seal).
#[local] Abbreviation Decrypt_ := (Decrypt hkdf_Key gcm_Open).
#[local] Abbreviation RatchetStep_ := (RatchetStep hkdf_Key).
#[local] Abbreviation NewRatchet_ := (NewRatchet hkdf_Key).
#[local] Abbreviation sealAES_ := (sealAES gcm_Seal).
#[local] Abbreviation openAES_ := (openAES gcm_Open).

(** ** AES-GCM *)

Lemma aes_open_sealed nonce key plain aad blob :
  laws_ → (∀ b, nonce = Some b → length b = 12%nat) →
  sealAES_ nonce key plain aad = Ok blob → openAES_ key blob aad = Ok plain.
Proof.
  intros laws Hn. unfold sealAES, openAES. destruct (aes_key key); [|done]. destruct nonce as [b|]; [|done].
  specialize (Hn b eq_refl). intros [= <-]. cbn [negb].
  rewrite decide_False by (rewrite length_app, (pl_seal_length _ _ _ _ _ _ _ _ laws); lia).
  rewrite <- Hn at 1. rewrite take_app_length, <- Hn, drop_app_length. by rewrite (pl_open _ _ _ _ _ _ _ _ laws).
Qed.

(** ** The chains both sides derive *)

Context (ss : list Z) (dh : nat → list Z).

Fixpoint root_at (k : nat) : list Z :=
  match k with
  | O => hkdf_ ss [] "voicx:double-ratchet:root" 32
  | S k => hkdf_ (dh k) (root_at k) "voicx:double-ratchet:step" 32
  end.

(** The chain key and the message key of number [n] of the step-[k] chain of a
    side. *)
Definition chain_at (k : nat) (side : bool) (n : Z) : list Z :=
  Nat.iter (Z.to_nat n) next_ (root_chain_ (root_at k) side).
Definition key_at (k : nat) (side : bool) (n : Z) : list Z := message_ (chain_at k side n).

Lemma chain_at_S k side n : 0 ≤ n → next_ (chain_at k side n) = chain_at k side (n + 1).
Proof. intros Hn. unfold chain_at. replace (Z.to_nat (n + 1)) with (S (Z.to_nat n)) by lia. done. Qed.

(** The staged keys are those of the numbers passed over. *)
Lemma stage_spec k side n number pending :
  0 ≤ number → number + Z.of_nat n < 2 ^ 32 →
  let r := stage_ n number (chain_at k side number) pending in
  r.1 = chain_at k side (number + Z.of_nat n) ∧
  (∀ i, r.2 !! i = if decide (number ≤ i < number + Z.of_nat n) then Some (key_at k side i) else pending !! i) ∧
  (size r.2 ≤ size pending + n)%nat.
Proof.
  cbv zeta. revert number pending. induction n as [|n IH]; intros number pending H0 Hb.
  { cbn [stage fst snd]. split_and!; [by rewrite Z.add_0_r| |lia]. intros i. by rewrite decide_False by lia. }
  cbn [stage]. unfold chainStep. rewrite wrap_u_small by lia. rewrite chain_at_S by done.
  destruct (IH (number + 1) (<[number := message_ (chain_at k side number)]> pending)) as (Hc & Hp & Hs); [lia..|].
  split_and!.
  - rewrite Hc. f_equal. lia.
  - intros i. rewrite Hp. destruct (decide (i = number)) as [->|Hne].
    + rewrite decide_False by lia. by rewrite lookup_insert_eq, decide_True by lia.
    + rewrite lookup_insert_ne by done. destruct (decide (number + 1 ≤ i < number + 1 + Z.of_nat n));
        [by rewrite decide_True by lia|by rewrite decide_False by lia].
  - etrans; [exact Hs|]. rewrite map_size_insert. destruct (pending !! number); simpl; lia.
Qed.

(** ** The number of skipped keys *)

#[local] Abbreviation total := (map_fold (λ _ st total, total + Z.of_nat (size (rc_skipped st))) 0).

Lemma total_insert s st (rc : gmap Z receiveChain) : total (<[s := st]> rc) = total (delete s rc) + Z.of_nat (size (rc_skipped st)).
Proof.
  rewrite <- insert_delete_eq, map_fold_insert_L; [done| |apply lookup_delete_eq]. intros. lia.
Qed.

Lemma total_delete s st (rc : gmap Z receiveChain) :
  rc !! s = Some st → total rc = total (delete s rc) + Z.of_nat (size (rc_skipped st)).
Proof. intros Hs. by rewrite <- total_insert, insert_id. Qed.

Lemma total_filter (P : Z * receiveChain → Prop) `{!∀ x, Decision (P x)} (rc : gmap Z receiveChain) :
  total (filter P rc) ≤ total rc.
Proof.
  induction rc as [|s st rc Hs IH] using map_ind; [done|]. rewrite total_insert, delete_id by done.
  destruct (decide (P (s, st))).
  - rewrite map_filter_insert_True, total_insert by done. rewrite delete_id; [lia|].
    apply map_lookup_filter_None. by left.
  - rewrite map_filter_insert_False by done. rewrite delete_id by done. lia.
Qed.

Lemma skipped_update r s st st' :
  r_receive r !! s = Some st →
  skippedCountLocked (set_receive s st' r) =
    skippedCountLocked r - Z.of_nat (size (rc_skipped st)) + Z.of_nat (size (rc_skipped st')).
Proof.
  intros Hs. unfold skippedCountLocked. cbn [set_receive r_receive].
  rewrite total_insert, (total_delete s st (r_receive r) Hs). lia.
Qed.
(** ** A session *)

(** [s_sent]: who sealed which message from which data; [s_taken]: which message
    numbers a side has accepted. *)
Record session := mkSession {
  s_party : bool → Ratchet;
  s_step : bool → nat;
  s_sent : list (bool * Message * list Z * list Z);
  s_taken : list (bool * Z * Z);
}.

Definition upd {A} (side : bool) (a : A) (f : bool → A) : bool → A :=
  λ b, if Bool.eqb b side then a else f b.

Lemma upd_eq {A} side (a : A) f : upd side a f side = a.
Proof. unfold upd. by rewrite Bool.eqb_reflx. Qed.
Lemma upd_other {A} side (a : A) f b : b ≠ side → upd side a f b = f b.
Proof. intros Hne. unfold upd. by destruct (Bool.eqb_spec b side). Qed.

Definition session_start : session :=
  mkSession (NewRatchet_ ss) (λ _, 0%nat) [] [].

(** The steps of a session: a side seals a message, is handed some message, or
    takes its next ratchet step with the secret the two agreed on. The last of
    the 2^32 numbers and steps is never used. *)
Inductive rstep : session → session → Prop :=
| rs_encrypt side nonce plain aad w r' res :
    (∀ b, nonce = Some b → length b = 12%nat) → r_sendN (s_party w side) + 1 < 2 ^ 32 →
    Encrypt_ nonce plain aad (s_party w side) = (r', res) →
    rstep w (mkSession (upd side r' (s_party w)) (s_step w)
               (match res with Ok m => (side, m, aad, plain) :: s_sent w | Err _ => s_sent w end) (s_taken w))
| rs_deliver side m aad w r' res :
    0 ≤ m_Number m → m_Number m + 1 < 2 ^ 32 →
    Decrypt_ m aad (s_party w side) = (r', res) →
    rstep w (mkSession (upd side r' (s_party w)) (s_step w) (s_sent w)
               (match res with Ok _ => (side, m_RatchetStep m, m_Number m) :: s_taken w | Err _ => s_taken w end))
| rs_ratchet side w :
    Z.of_nat (s_step w side) + 1 < 2 ^ 32 →
    rstep w (mkSession (upd side (RatchetStep_ (dh (s_step w side)) (s_party w side)) (s_party w))
               (upd side (S (s_step w side)) (s_step w)) (s_sent w) (s_taken w)).

(** *** What holds of one side *)

(** A receive chain: it stands at its number, and keeps keys of earlier ones. *)
Record chain_ok (j : nat) (side : bool) st : Prop := {
  co_number : 0 ≤ rc_number st < 2 ^ 32;
  co_chain : rc_chain st = chain_at j side (rc_number st);
  co_skipped i key : rc_skipped st !! i = Some key → 0 ≤ i < rc_number st ∧ key = key_at j side i;
}.

Record party_ok (side : bool) (k : nat) r : Prop := {
  po_side : r_initiator r = side;
  po_step : Z.of_nat k < 2 ^ 32;
  po_root : r_root r = root_at k;
  po_sendStep : r_sendStep r = Z.of_nat k;
  po_recvStep : r_recvStep r = Z.of_nat k;
  po_sendN : 0 ≤ r_sendN r < 2 ^ 32;
  po_sendChain : r_sendChain r = chain_at k side (r_sendN r);
  po_receive s st : r_receive r !! s = Some st →
    ∃ j, s = Z.of_nat j ∧ (j ≤ k ≤ S j)%nat ∧ chain_ok j (negb side) st;
  po_skipped : skippedCountLocked r ≤ MaxSkippedKeys;
}.

(** The numbers a side has accepted: each is behind its chain and its key is gone,
    and below the chain only accepted numbers have lost their key. *)
Record taken_ok (side : bool) (taken : list (bool * Z * Z)) r : Prop := {
  tk_gone s n : (side, s, n) ∈ taken → s ≤ r_recvStep r ∧
    ∀ st, r_receive r !! s = Some st → n < rc_number st ∧ rc_skipped st !! n = None;
  tk_rest s st n : r_receive r !! s = Some st → 0 ≤ n < rc_number st →
    is_Some (rc_skipped st !! n) ∨ (side, s, n) ∈ taken;
}.

Definition sent_ok (e : bool * Message * list Z * list Z) : Prop :=
  let '(side, m, aad, plain) := e in
  ∃ k nonce, length nonce = 12%nat ∧ m_RatchetStep m = Z.of_nat k ∧ 0 ≤ m_Number m ∧ m_Number m + 1 < 2 ^ 32 ∧
    sealAES_ (Some nonce) (key_at k side (m_Number m)) plain (messageAAD (m_RatchetStep m) (m_Number m) aad) =
      Ok (m_Ciphertext m).

Record session_ok (w : session) : Prop := {
  so_party side : party_ok side (s_step w side) (s_party w side);
  so_taken side : taken_ok side (s_taken w) (s_party w side);
  so_sent : Forall sent_ok (s_sent w);
  so_once : NoDup (s_taken w);
}.

Lemma new_chain_ok j side : chain_ok j side (new_receive (root_chain_ (root_at j) side)).
Proof. split; [simpl; lia|done|by intros i key]. Qed.

Lemma NewRatchet_eq side :
  NewRatchet_ ss side = mkRatchet (root_at 0) (root_chain_ (root_at 0) side) 0 0 0
    {[0 := new_receive (root_chain_ (root_at 0) (negb side))]} side.
Proof. by destruct side. Qed.

Lemma NewRatchet_ok side : party_ok side 0 (NewRatchet_ ss side).
Proof.
  rewrite NewRatchet_eq. split; cbn [r_initiator r_root r_sendStep r_recvStep r_sendN r_sendChain r_receive]; try done.
  intros s st [<- <-]%lookup_singleton_Some. exists 0%nat. split_and!; [done|lia..|apply new_chain_ok].
Qed.

(** ** The operations *)

Lemma Encrypt_ok side k nonce plain aad r r' res :
  party_ok side k r → r_sendN r + 1 < 2 ^ 32 → Encrypt_ nonce plain aad r = (r', res) →
  party_ok side k r' ∧ r_receive r' = r_receive r ∧ r_recvStep r' = r_recvStep r ∧
  ∀ m, res = Ok m → m_RatchetStep m = Z.of_nat k ∧ m_Number m = r_sendN r ∧
    sealAES_ nonce (key_at k side (m_Number m)) plain (messageAAD (m_RatchetStep m) (m_Number m) aad) = Ok (m_Ciphertext m).
Proof.
  intros Hr Hn. unfold Encrypt, chainStep. rewrite (po_sendChain _ _ _ Hr).
  destruct (sealAES_ _ _ _ _) as [blob|e] eqn:Hs; intros [= <- <-]; [|by split_and!].
  split_and!; try done.
  - destruct Hr. split; cbn [r_initiator r_root r_sendStep r_recvStep r_sendN r_sendChain r_receive]; try done.
    + rewrite wrap_u_small by lia. lia.
    + rewrite wrap_u_small by lia. apply chain_at_S. lia.
  - intros m [= <-]. cbn [m_RatchetStep m_Number m_Ciphertext]. split_and!; [apply Hr|done|done].
Qed.

Lemma RatchetStep_ok side k r :
  party_ok side k r → Z.of_nat k + 1 < 2 ^ 32 → party_ok side (S k) (RatchetStep_ (dh k) r).
Proof.
  intros Hr Hk. destruct Hr as [Hside Hstep Hroot Hss Hrs Hn Hc Hrec Hsk].
  assert (∀ b : bool, (if b then (root_chain_ (root_at (S k)) true, root_chain_ (root_at (S k)) false)
    else (root_chain_ (root_at (S k)) false, root_chain_ (root_at (S k)) true)) =
    (root_chain_ (root_at (S k)) b, root_chain_ (root_at (S k)) (negb b))) as Hpair by by intros [].
  unfold RatchetStep. rewrite Hroot, Hss, Hrs, Hside. change (hkdf_ (dh k) (root_at k) _ 32) with (root_at (S k)).
  rewrite Hpair, wrap_u_small by lia.
  split; cbn [r_initiator r_root r_sendStep r_recvStep r_sendN r_sendChain r_receive]; try done; try lia.
  - intros s st [Hl Hf]%map_lookup_filter_Some. apply lookup_insert_Some in Hl as [[<- <-]|[Hne Hl]].
    + exists (S k). split_and!; [lia..|apply new_chain_ok].
    + destruct (Hrec s st Hl) as (j & -> & Hj & Hok). exists j.
      rewrite wrap_u_small in Hf by lia. split_and!; [done|lia..|done].
  - unfold skippedCountLocked in *. cbn [r_receive]. etrans; [apply total_filter|]. rewrite total_insert.
    rewrite delete_id; [cbn [new_receive rc_skipped]; rewrite map_size_empty; lia|]. destruct (r_receive r !! _) as [st|] eqn:Hl; [|done].
    destruct (Hrec _ _ Hl) as (j & ? & ? & _). lia.
Qed.
(** Replacing a receive chain by one further on. *)
Lemma set_receive_ok side k s st' r j :
  party_ok side k r → s = Z.of_nat j → (j ≤ k ≤ S j)%nat → chain_ok j (negb side) st' →
  skippedCountLocked (set_receive s st' r) ≤ MaxSkippedKeys → party_ok side k (set_receive s st' r).
Proof.
  intros [Hside Hstep Hroot Hss Hrs Hn Hc Hrec Hsk] -> Hj Hst Hcount. split; try done.
  intros s st. cbn [set_receive r_receive]. intros [[<- <-]|[_ Hl]]%lookup_insert_Some; [by exists j|by apply Hrec].
Qed.

Lemma set_receive_taken side taken s n st st' r :
  taken_ok side taken r → r_receive r !! s = Some st → 0 ≤ n → s ≤ r_recvStep r → n < rc_number st' → rc_skipped st' !! n = None →
  rc_number st ≤ rc_number st' →
  (∀ i, 0 ≤ i < rc_number st' → i ≠ n → is_Some (rc_skipped st' !! i) ∨ i < rc_number st ∧ rc_skipped st !! i = None) →
  (∀ i, i < rc_number st → rc_skipped st !! i = None → rc_skipped st' !! i = None) →
  taken_ok side ((side, s, n) :: taken) (set_receive s st' r).
Proof.
  intros [Hgone Hrest] Hl H0 Hstep Hn Hnone Hle Hnew Hold. split; cbn [set_receive r_receive r_recvStep].
  - intros s1 n1 [Heq|Hin]%elem_of_cons.
    + injection Heq as -> ->. split; [done|]. intros st1. rewrite lookup_insert_eq. by intros [= <-].
    + destruct (Hgone _ _ Hin) as [Hb Hg]. split; [done|]. intros st1 [[<- <-]|[_ Hl1]]%lookup_insert_Some; [|by apply Hg].
      destruct (Hg st Hl) as [??]. split; [lia|by apply Hold].
  - intros s1 st1 i [[<- <-]|[_ Hl1]]%lookup_insert_Some Hi.
    + destruct (decide (i = n)) as [->|Hne]; [right; by left|]. destruct (Hnew i Hi Hne) as [?|[Hlt Hno]]; [by left|].
      destruct (Hrest s st i Hl) as [[? ?]|?]; [lia|congruence|]. right. by right.
    + destruct (Hrest s1 st1 i Hl1 Hi); [by left|right; by right].
Qed.

Lemma Decrypt_Ok side k taken m aad r r' plain :
  party_ok side k r → taken_ok side taken r → 0 ≤ m_Number m → m_Number m + 1 < 2 ^ 32 →
  Decrypt_ m aad r = (r', Ok plain) →
  ∃ j, m_RatchetStep m = Z.of_nat j ∧ (side, m_RatchetStep m, m_Number m) ∉ taken ∧
    openAES_ (key_at j (negb side) (m_Number m)) (m_Ciphertext m) (messageAAD (m_RatchetStep m) (m_Number m) aad) = Ok plain ∧
    party_ok side k r' ∧ taken_ok side ((side, m_RatchetStep m, m_Number m) :: taken) r'.
Proof.
  intros Hr Ht H0 Hb. unfold Decrypt. set (s := m_RatchetStep m). set (n := m_Number m).
  destruct (r_receive r !! s) as [st|] eqn:Hl; [|done]. destruct (po_receive _ _ _ Hr s st Hl) as (j & Hs & Hj & Hst).
  assert (s ≤ r_recvStep r) as Hstep by (rewrite (po_recvStep _ _ _ Hr); lia).
  destruct Hst as [Hnum Hchain Hskip]. destruct (Z.ltb_spec n (rc_number st)) as [Hlt|Hge].
  - destruct (rc_skipped st !! n) as [key|] eqn:Hk; [|done]. destruct (Hskip n key Hk) as [_ ->].
    destruct (openAES_ _ _ _) as [p|e] eqn:Ho; [|done]. intros [= <- <-]. exists j.
    assert (size (rc_skipped st) = S (size (delete n (rc_skipped st)))) as Hsize.
    { rewrite <- (insert_delete_id (rc_skipped st) n (key_at j (negb side) n) Hk) at 1.
      apply map_size_insert_None, lookup_delete_eq. }
    split_and!; [done| |done| |].
    + intros Hin. destruct (proj2 (tk_gone _ _ _ Ht s n Hin) st Hl). congruence.
    + eapply set_receive_ok; [done..| |].
      * split; cbn [rc_number rc_chain rc_skipped]; [done..|]. intros i key [_ ?]%lookup_delete_Some. by apply Hskip.
      * rewrite (skipped_update r s st) by done. cbn [rc_skipped]. pose proof (po_skipped _ _ _ Hr). lia.
    + eapply (set_receive_taken _ _ _ _ st); cbn [rc_number rc_skipped]; try done; try lia.
      * apply lookup_delete_eq.
      * intros i Hi Hne. rewrite lookup_delete_ne by done. destruct (rc_skipped st !! i) eqn:Hi2; [left; by eexists|right; by split; [lia|]].
      * intros i _ Hi. destruct (decide (i = n)) as [->|]; [apply lookup_delete_eq|by rewrite lookup_delete_ne].
  - destruct (_ || _) eqn:Hlim; [done|]. apply orb_false_elim in Hlim as [Hl1%Z.ltb_ge Hl2%Z.ltb_ge].
    rewrite Hchain. pose proof (stage_spec j (negb side) (Z.to_nat (n - rc_number st)) (rc_number st) ∅) as Hstage.
    destruct (stage_ _ _ _ _) as [chain pending]. cbn [fst snd] in Hstage.
    destruct Hstage as (-> & Hp & Hsz); [lia..|]. unfold chainStep.
    replace (rc_number st + Z.of_nat (Z.to_nat (n - rc_number st))) with n in * by lia.
    destruct (openAES_ _ _ _) as [p|e] eqn:Ho; [|done]. intros [= <- <-]. exists j.
    assert (∀ i, (pending ∪ rc_skipped st) !! i = if decide (rc_number st ≤ i < n) then Some (key_at j (negb side) i)
      else rc_skipped st !! i) as Hu.
    { intros i. rewrite lookup_union, Hp, lookup_empty. case_decide; [by destruct (rc_skipped st !! i)|by destruct (rc_skipped st !! i)]. }
    assert (∀ i, rc_number st ≤ i → rc_skipped st !! i = None) as Hnone.
    { intros i Hi. destruct (rc_skipped st !! i) as [key|] eqn:Hx; [|done]. destruct (Hskip i key Hx). lia. }
    assert (pending ##ₘ rc_skipped st) as Hdisj.
    { apply map_disjoint_spec. intros i x y Hx Hy. rewrite Hp, lookup_empty in Hx. case_decide; [|done].
      destruct (Hskip i y Hy). lia. }
    rewrite wrap_u_small by lia. split_and!; [done| |done| |].
    + intros Hin. destruct (proj2 (tk_gone _ _ _ Ht s n Hin) st Hl). lia.
    + eapply set_receive_ok; [done..| |].
      * split; cbn [rc_number rc_chain rc_skipped]; [lia|by apply chain_at_S|]. intros i key. rewrite Hu.
        case_decide; [intros [= <-]; split; [lia|done]|]. intros Hi. destruct (Hskip i key Hi). split; [lia|done].
      * rewrite (skipped_update r s st) by done. cbn [rc_skipped].
        rewrite map_size_disj_union by done. rewrite map_size_empty in Hsz. lia.
    + eapply (set_receive_taken _ _ _ _ st); cbn [rc_number rc_skipped]; try done; try lia.
      * rewrite Hu, decide_False by lia. apply Hnone. lia.
      * intros i Hi Hne. rewrite Hu. case_decide; [left; by eexists|].
        destruct (rc_skipped st !! i) eqn:Hi2; [left; by eexists|right; by split; [lia|]].
      * intros i Hi Hx. by rewrite Hu, decide_False by lia.
Qed.
(** A message that is not accepted changes nothing. *)
Lemma Decrypt_Err m aad r r' e : Decrypt_ m aad r = (r', Err e) → r' = r.
Proof.
  unfold Decrypt. destruct (r_receive r !! _) as [st|]; [|by intros [= <- _]]. destruct (_ <? _).
  - destruct (rc_skipped st !! _); [|by intros [= <- _]]. by destruct (openAES_ _ _ _); intros [= <- _].
  - destruct (_ || _); [by intros [= <- _]|]. destruct (stage_ _ _ _ _). unfold chainStep.
    by destruct (openAES_ _ _ _); intros [= <- _].
Qed.

(** Room for the keys that taking number [n] would skip. *)
Definition within_limit r st (n : Z) : Prop :=
  n - rc_number st ≤ MaxSkippedKeys ∧ skippedCountLocked r + (n - rc_number st) ≤ MaxSkippedKeys.

Lemma Decrypt_accepts side k taken m aad r st j plain :
  party_ok side k r → taken_ok side taken r → 0 ≤ m_Number m → m_Number m + 1 < 2 ^ 32 →
  r_receive r !! m_RatchetStep m = Some st → m_RatchetStep m = Z.of_nat j →
  (side, m_RatchetStep m, m_Number m) ∉ taken → (rc_number st ≤ m_Number m → within_limit r st (m_Number m)) →
  openAES_ (key_at j (negb side) (m_Number m)) (m_Ciphertext m) (messageAAD (m_RatchetStep m) (m_Number m) aad) = Ok plain →
  (Decrypt_ m aad r).2 = Ok plain.
Proof.
  intros Hr Ht H0 Hb Hl Hs Hfresh Hlim Ho. unfold Decrypt. rewrite Hl.
  destruct (po_receive _ _ _ Hr _ _ Hl) as (j' & Hs' & Hj & [Hnum Hchain Hskip]).
  assert (j' = j) as -> by lia. destruct (Z.ltb_spec (m_Number m) (rc_number st)) as [Hlt|Hge].
  - destruct (tk_rest _ _ _ Ht _ _ (m_Number m) Hl) as [[key Hk]|Hin]; [lia| |done].
    destruct (Hskip _ _ Hk) as [_ ->]. by rewrite Hk, Ho.
  - destruct (Hlim Hge) as [Hl1 Hl2].
    rewrite (proj2 (Z.ltb_ge _ _)), (proj2 (Z.ltb_ge _ _)) by done. cbn [orb].
    pose proof (stage_spec j (negb side) (Z.to_nat (m_Number m - rc_number st)) (rc_number st) ∅) as Hstage.
    rewrite Hchain. destruct (stage_ _ _ _ _) as [chain pending]. cbn [fst snd] in Hstage.
    destruct Hstage as (-> & _ & _); [lia..|]. unfold chainStep.
    replace (rc_number st + Z.of_nat (Z.to_nat (m_Number m - rc_number st))) with (m_Number m) by lia.
    unfold key_at in Ho. by rewrite Ho.
Qed.

(** ** Every session *)

Lemma taken_frame side taken taken' r r' :
  r_receive r' = r_receive r → r_recvStep r' = r_recvStep r →
  (∀ s n, (side, s, n) ∈ taken' ↔ (side, s, n) ∈ taken) → taken_ok side taken r → taken_ok side taken' r'.
Proof.
  intros Hrec Hstep Heq [Hg Hr]. split.
  - intros s n Hin. rewrite Hrec, Hstep. by apply Hg, Heq.
  - intros s st n. rewrite Hrec. intros Hl Hn. destruct (Hr s st n Hl Hn); [by left|right; by apply Heq].
Qed.

Lemma taken_ratchet side k taken r :
  party_ok side k r → Z.of_nat k + 1 < 2 ^ 32 → taken_ok side taken r → taken_ok side taken (RatchetStep_ (dh k) r).
Proof.
  intros Hr Hk [Hg Hrest]. assert (r_recvStep (RatchetStep_ (dh k) r) = r_recvStep r + 1) as Hstep.
  { unfold RatchetStep. destruct (if r_initiator r then _ else _). cbn [r_recvStep]. apply wrap_u_small.
    rewrite (po_recvStep _ _ _ Hr). lia. }
  assert (∀ s st, r_receive (RatchetStep_ (dh k) r) !! s = Some st →
    (s = r_recvStep r + 1 ∧ rc_number st = 0) ∨ (s ≠ r_recvStep r + 1 ∧ r_receive r !! s = Some st)) as Hrec.
  { intros s st. unfold RatchetStep. destruct (if r_initiator r then _ else _). cbn [r_receive].
    rewrite wrap_u_small by (rewrite (po_recvStep _ _ _ Hr); lia).
    intros [Hl _]%map_lookup_filter_Some. apply lookup_insert_Some in Hl as [[<- <-]|[? ?]]; [by left|right; by split]. }
  split.
  - intros s n Hin. destruct (Hg s n Hin) as [Hle Hgone]. split; [lia|]. intros st [[-> _]|[_ Hl]]%Hrec; [lia|by apply Hgone].
  - intros s st n [[-> Hz]|[_ Hl]]%Hrec Hn; [lia|by apply (Hrest s st)].
Qed.

Lemma session_start_ok : session_ok session_start.
Proof.
  split; [apply NewRatchet_ok| |constructor|constructor]. intros side. cbn [session_start s_party s_taken].
  rewrite NewRatchet_eq. split; [by intros s n ?%elem_of_nil|]. cbn [r_receive].
  intros s st n [<- <-]%lookup_singleton_Some. simpl. lia.
Qed.

Lemma party_upd w side r' step' :
  session_ok w → party_ok side (step' side) r' → (∀ b, b ≠ side → step' b = s_step w b) →
  ∀ b, party_ok b (step' b) (upd side r' (s_party w) b).
Proof.
  intros Hw Hr Hs b. destruct (decide (b = side)) as [->|Hne]; [by rewrite upd_eq|].
  rewrite upd_other, Hs by done. apply Hw.
Qed.

Lemma taken_upd w side r' taken :
  session_ok w → taken_ok side taken r' →
  (∀ b s n, b ≠ side → (b, s, n) ∈ taken ↔ (b, s, n) ∈ s_taken w) →
  ∀ b, taken_ok b taken (upd side r' (s_party w) b).
Proof.
  intros Hw Hr Hin b. destruct (decide (b = side)) as [->|Hne]; [by rewrite upd_eq|].
  rewrite upd_other by done. eapply taken_frame; [done..|by intros; apply Hin|apply Hw].
Qed.

Lemma session_step w w' : rstep w w' → session_ok w → session_ok w'.
Proof.
  intros Hstep Hw.
  destruct Hstep as [side nonce plain aad w r' res Hnonce Hn He|side m aad w r' res H0 Hb Hd|side w Hk].
  - destruct (Encrypt_ok _ _ _ _ _ _ _ _ (so_party _ Hw side) Hn He) as (Hr & Hrec & Hst & Hm).
    split; cbn [s_party s_step s_sent s_taken].
    + by apply party_upd.
    + apply taken_upd; [done| |done]. eapply taken_frame; [done..|apply Hw].
    + destruct res as [m|e]; [|apply Hw]. constructor; [|apply Hw]. destruct (Hm m eq_refl) as (Hs & Hnum & Hseal).
      destruct nonce as [b|]; [|unfold sealAES in Hseal; by destruct (negb _)].
      exists (s_step w side), b. rewrite Hnum. pose proof (po_sendN _ _ _ (so_party _ Hw side)).
      split_and!; [by apply Hnonce|done|lia..|]. by rewrite <- Hnum.
    + apply Hw.
  - destruct res as [plain|e].
    + destruct (Decrypt_Ok _ _ _ _ _ _ _ _ (so_party _ Hw side) (so_taken _ Hw side) H0 Hb Hd) as (j & Hs & Hnew & _ & Hr & Ht).
      split; cbn [s_party s_step s_sent s_taken].
      * by apply party_upd.
      * apply taken_upd; [done..|]. intros b s n Hne. rewrite elem_of_cons. split; [|by right]. by intros [[= -> _ _]|?].
      * apply Hw.
      * constructor; [done|apply Hw].
    + apply Decrypt_Err in Hd as ->. split; cbn [s_party s_step s_sent s_taken]; [|..|apply Hw].
      * apply party_upd; [done|apply Hw|done].
      * apply taken_upd; [done|apply Hw|done].
      * apply Hw.
  - pose proof (RatchetStep_ok _ _ _ (so_party _ Hw side) Hk) as Hr.
    split; cbn [s_party s_step s_sent s_taken]; [|..|apply Hw].
    + apply party_upd; [done|by rewrite upd_eq|]. intros b Hne. by rewrite upd_other.
    + apply taken_upd; [done| |done]. apply taken_ratchet; [apply Hw|done|apply Hw].
    + apply Hw.
Qed.

Lemma session_reachable w : rtc rstep session_start w → session_ok w.
Proof. apply rtc_invariant; [|exact session_start_ok]. intros x y Hx Hxy. by eapply session_step. Qed.

(** ** Theorems on the ratchet *)

(** C28: whatever one side sealed, the other opens to the same text: at any point
    of any session, with any messages lost, reordered, repeated or forged, as long
    as the receiver still has the step's chain, has not accepted that number
    before, and the gap is within the skipped-key limit. *)
Theorem ratchet_delivers w side m aad plain st :
  laws_ → rtc rstep session_start w → (side, m, aad, plain) ∈ s_sent w →
  r_receive (s_party w (negb side)) !! m_RatchetStep m = Some st →
  (negb side, m_RatchetStep m, m_Number m) ∉ s_taken w →
  (rc_number st ≤ m_Number m → within_limit (s_party w (negb side)) st (m_Number m)) →
  (Decrypt_ m aad (s_party w (negb side))).2 = Ok plain.
Proof.
  intros laws Hr%session_reachable Hin Hl Hfresh Hlim.
  pose proof (proj1 (Forall_forall _ _) (so_sent _ Hr) _ Hin) as (k & nonce & Hlen & Hs & H0 & Hb & Hseal).
  eapply (Decrypt_accepts (negb side)); [apply Hr|apply Hr|done..|]. rewrite negb_involutive.
  eapply aes_open_sealed; [done| |exact Hseal]. by intros b [= <-].
Qed.

(** C29: no message number is accepted twice: in every session the accepted
    (step, number) pairs of a side are distinct, and any message that names an
    accepted one, whatever its content, is refused and leaves the side as it is. *)
Theorem ratchet_no_replay w side m aad :
  rtc rstep session_start w → 0 ≤ m_Number m → m_Number m + 1 < 2 ^ 32 →
  NoDup (s_taken w) ∧
  ((side, m_RatchetStep m, m_Number m) ∈ s_taken w →
   ∃ e, Decrypt_ m aad (s_party w side) = (s_party w side, Err e)).
Proof.
  intros Hr%session_reachable H0 Hb. split; [apply Hr|]. intros Hin.
  destruct (Decrypt_ m aad (s_party w side)) as [r' [plain|e]] eqn:Hd.
  - by destruct (Decrypt_Ok _ _ _ _ _ _ _ _ (so_party _ Hr side) (so_taken _ Hr side) H0 Hb Hd) as (j & _ & Hn & _).
  - exists e. by apply Decrypt_Err in Hd as ->.
Qed.

(** C30: the key material a side keeps is bounded: at most [MaxSkippedKeys] skipped
    message keys over at most two receive chains, whatever it is sent. *)
Theorem ratchet_bounded w side :
  rtc rstep session_start w →
  SkippedCount (s_party w side) ≤ MaxSkippedKeys ∧ (size (r_receive (s_party w side)) ≤ 2)%nat.
Proof.
  intros Hr%session_reachable. destruct (so_party _ Hr side) as [? ? ? ? ? ? ? Hrec Hsk]. split; [done|].
  set (k := s_step w side) in *.
  rewrite <- size_dom. change 2%nat with (length [Z.of_nat k; Z.of_nat k - 1]).
  rewrite <- (size_list_to_set (C := gset Z) [Z.of_nat k; Z.of_nat k - 1]).
  - apply subseteq_size. intros s [st Hs]%elem_of_dom. destruct (Hrec s st Hs) as (j & -> & Hj & _). set_unfold. lia.
  - repeat constructor; set_unfold; lia.
Qed.

(** What a side accepts was sealed under the key of exactly that step and
    number of its peer's chain, with the step, the number and the caller's data
    authenticated. *)
Theorem ratchet_authentic w side m aad r' plain :
  (∀ key nonce blob data text, gcm_Open key nonce blob data = Some text → blob = gcm_Seal key nonce text data) →
  rtc rstep session_start w → 0 ≤ m_Number m → m_Number m + 1 < 2 ^ 32 →
  Decrypt_ m aad (s_party w side) = (r', Ok plain) →
  ∃ j nonce, m_RatchetStep m = Z.of_nat j ∧ length nonce = 12%nat ∧
    m_Ciphertext m = nonce ++ gcm_Seal (key_at j (negb side) (m_Number m)) nonce plain
                                (messageAAD (m_RatchetStep m) (m_Number m) aad).
Proof.
  intros Htidy Hr%session_reachable H0 Hb Hd.
  destruct (Decrypt_Ok _ _ _ _ _ _ _ _ (so_party _ Hr side) (so_taken _ Hr side) H0 Hb Hd) as (j & Hs & _ & Ho & _).
  exists j, (take 12 (m_Ciphertext m)). unfold openAES in Ho. destruct (negb _); [done|]. case_decide as Hlen; [done|].
  destruct (gcm_Open _ _ _ _) as [p|] eqn:Hopen; [|done]. injection Ho as ->. apply Htidy in Hopen.
  split_and!; [done|rewrite length_take; lia|]. rewrite <- Hopen. by rewrite take_drop.
Qed.
End ratchet.

(** ** X3DH and file chunks *)

Section agreement.
Context (hkdf_Key : list Z → list Z → list Z → nat → list Z).
Context (gcm_Seal : list Z → list Z → list Z → list Z → list Z).
Context (gcm_Open : list Z → list Z → list Z → list Z → option (list Z)).
Context (x25519 : list Z → list Z → list Z) (x25519_public : list Z → list Z).
Context (ed_Sign : list Z → list Z → list Z) (ed_Verify : list Z → list Z → list Z → bool).
Context (ed_Public : list Z → list Z).

#[local] Abbreviation laws_ :=
  (PrimLaws hkdf_Key gcm_Seal gcm_Open x25519 x25519_public ed_Sign ed_Verify ed_Public).
#[local] Abbreviation exchange_ := (exchange x25519).
#[local] Abbreviation pair_of k := {| kp_Private := k; kp_Public := x25519_public k |}.

Lemma exchange_comm a b :
  laws_ → length a = 32%nat → length b = 32%nat → exchange_ a (x25519_public b) = exchange_ b (x25519_public a).
Proof.
  intros laws Ha Hb. unfold exchange.
  by rewrite Ha, Hb, !(pl_public _ _ _ _ _ _ _ _ laws), (pl_dh _ _ _ _ _ _ _ _ laws).
Qed.

Lemma bundle_verifies idk sk sid spk oid ot :
  laws_ → VerifyPreKeyBundle ed_Verify
    (NewPreKeyBundle ed_Sign ed_Public (pair_of idk) sk sid (pair_of spk) oid ot) = true.
Proof.
  intros laws. unfold VerifyPreKeyBundle, NewPreKeyBundle. cbn [pb_IdentityDH pb_SigningPublic pb_SignedPreKey
    pb_SignedPreKeyID pb_Signature kp_Public]. rewrite !(pl_public _ _ _ _ _ _ _ _ laws), (pl_ed_public _ _ _ _ _ _ _ _ laws),
    (pl_ed_sign _ _ _ _ _ _ _ _ laws), (pl_verify _ _ _ _ _ _ _ _ laws). by rewrite !bool_decide_true by done.
Qed.

(** The two sides of X3DH agree. The initiator, working from the bundle the
    responder published, with or without a one-time key, fails only if an exchange
    gives zeros; when it gets a secret, the responder derives the same secret from
    its private keys and the initial message, which names the keys that were
    used. *)
Theorem x3dh_agreement ia eph idk sk sid spk oid otk :
  laws_ → length ia = 32%nat → length eph = 32%nat → length idk = 32%nat → length spk = 32%nat →
  otk = [] ∨ length otk = 32%nat →
  let ot := if bool_decide (otk = []) then {| kp_Private := []; kp_Public := [] |} else pair_of otk in
  let bundle := NewPreKeyBundle ed_Sign ed_Public (pair_of idk) sk sid (pair_of spk) oid ot in
  match InitiateX3DH hkdf_Key x25519 x25519_public ed_Verify (Some eph) ia bundle with
  | Ok (secret, initial) =>
      RespondX3DH hkdf_Key x25519 idk spk otk (x25519_public ia) initial = Ok secret ∧
      xi_SignedPreKeyID initial = sid ∧ xi_OneTimePreKeyID initial = (if bool_decide (otk = []) then 0 else oid)
  | Err e => e = ErrKeyInvalid ∧ ∃ a b, {[a; b]} ⊆ ({[ia; eph; idk; spk; otk]} : gset (list Z)) ∧
               x25519 a (x25519_public b) = replicate 32 0
  end.
Proof.
  intros laws Hia He Hidk Hspk Hotk. cbv zeta. unfold InitiateX3DH. rewrite bundle_verifies by done. cbn [negb].
  cbn [GenerateX25519 result_bind kp_Private kp_Public].
  assert (∀ a b, length a = 32%nat → length b = 32%nat → {[a; b]} ⊆ ({[ia; eph; idk; spk; otk]} : gset (list Z)) →
    (∃ k, exchange_ a (x25519_public b) = Ok k) ∨
    (exchange_ a (x25519_public b) = Err ErrKeyInvalid ∧ ∃ a b, {[a; b]} ⊆ ({[ia; eph; idk; spk; otk]} : gset (list Z)) ∧
       x25519 a (x25519_public b) = replicate 32 0)) as Hex.
  { intros a b Ha Hb Hsub. unfold exchange. rewrite Ha, (pl_public _ _ _ _ _ _ _ _ laws), !bool_decide_true by done. cbn [negb].
    case_bool_decide as Hz; [right|left; by eexists]. split; [done|]. by exists a, b. }
  unfold NewPreKeyBundle. cbn [pb_SignedPreKey pb_IdentityDH pb_OneTimePreKey pb_OneTimePreKeyID pb_SignedPreKeyID kp_Public].
  destruct (Hex ia spk) as [[k1 H1]|[H1 Hz]]; [done|done|set_solver| |by rewrite H1]. rewrite H1. cbn [result_bind].
  destruct (Hex eph idk) as [[k2 H2]|[H2 Hz]]; [done|done|set_solver| |by rewrite H2]. rewrite H2. cbn [result_bind].
  destruct (Hex eph spk) as [[k3 H3]|[H3 Hz]]; [done|done|set_solver| |by rewrite H3]. rewrite H3. cbn [result_bind].
  unfold RespondX3DH. rewrite (exchange_comm ia spk) in H1 by done. rewrite (exchange_comm eph idk) in H2 by done.
  rewrite (exchange_comm eph spk) in H3 by done.
  destruct Hotk as [->|Hlen].
  - rewrite !(bool_decide_true (([] : list Z) = [])) by done. cbn [kp_Public].
    rewrite !(bool_decide_false (([] : list Z) ≠ [])) by naive_solver. cbn [result_bind fst snd xi_EphemeralPublic].
    rewrite H1, H2, H3. by split_and!.
  - assert (otk ≠ []) as Hne by (by intros ->). rewrite !(bool_decide_false (otk = [])) by done. cbn [kp_Public].
    assert (x25519_public otk ≠ []) as Hne2.
    { intros Hx. pose proof (pl_public _ _ _ _ _ _ _ _ laws otk) as Hp. by rewrite Hx in Hp. }
    rewrite !(bool_decide_true (_ ≠ [])) by done.
    destruct (Hex eph otk) as [[k4 H4]|[H4 Hz]]; [done|done|set_solver| |by rewrite H4]. rewrite H4.
    cbn [result_bind fst snd xi_EphemeralPublic].
    rewrite (exchange_comm eph otk) in H4 by done. rewrite H1, H2, H3, H4. cbn [result_bind]. by split_and!.
Qed.

(** *** File chunks *)

Lemma put32_u32 v : put32 (u32 v) = put32 v.
Proof.
  assert (∀ k, 0 ≤ k ≤ 24 → wrap_u 8 (Z.shiftr (u32 v) k) = wrap_u 8 (Z.shiftr v k)) as Hk.
  { intros k Hk. unfold wrap_u. apply Z.bits_inj'. intros i Hi. rewrite !Z.testbit_mod_pow2, !Z.shiftr_spec by lia.
    rewrite Z.testbit_mod_pow2 by lia. destruct (Z.ltb_spec i 8); [|done]. by rewrite (proj2 (Z.ltb_lt (i + k) 32)) by lia. }
  unfold put32. pose proof (Hk 0 ltac:(lia)) as H0. rewrite !Z.shiftr_0_r in H0. by rewrite !Hk, H0 by lia.
Qed.

Lemma put32_inj a b : put32 a = put32 b → u32 a = u32 b.
Proof.
  assert (∀ v, 0 ≤ u32 v < 2 ^ 32) as Hr by (intros v; apply Z.mod_pos_bound; lia).
  rewrite <- (put32_u32 a), <- (put32_u32 b). intros Heq.
  assert (∀ v, ∃ b0 b1 b2 b3, put32 v = [b0; b1; b2; b3]) as Hlist by (intros v; by eexists _, _, _, _).
  destruct (Hlist (u32 a)) as (b0 & b1 & b2 & b3 & Ha).
  rewrite <- (be32_put32 _ _ _ _ _ (Hr a) Ha). apply (be32_put32 _ _ _ _ _ (Hr b)). by rewrite <- Heq.
Qed.

Lemma put64_inj a b : 0 ≤ a < 2 ^ 64 → 0 ≤ b < 2 ^ 64 → put64 a = put64 b → a = b.
Proof.
  intros Ha Hb Heq. apply app_inj_1 in Heq as [H1%put32_inj H2%put32_inj]; [|done].
  unfold wrap_u in *. rewrite !Z.shiftr_div_pow2 in H1 by lia.
  rewrite !Z.mod_small in H1 by (split; [apply Z.div_pos; lia|apply Z.div_lt_upper_bound; lia]).
  rewrite (Z.div_mod a (2 ^ 32)), (Z.div_mod b (2 ^ 32)) by lia. congruence.
Qed.

Lemma bytes_of_string_inj s t : bytes_of_string s = bytes_of_string t → s = t.
Proof. intros Heq. by rewrite <- (string_of_bytes_of s), Heq, string_of_bytes_of. Qed.

(** A file chunk is decrypted to what was encrypted, and two chunks, of
    different files or at different places of one, are sealed under keys derived
    from different labels and with different authenticated data. *)
Theorem chunk_round_trip nonce master fileID fileID' index index' plain blob :
  laws_ → (∀ b, nonce = Some b → length b = 12%nat) →
  0 ≤ index < 2 ^ 64 → 0 ≤ index' < 2 ^ 64 →
  EncryptFileChunk hkdf_Key gcm_Seal nonce master fileID index plain = Ok blob →
  DecryptFileChunk hkdf_Key gcm_Open master fileID index blob = Ok plain ∧
  ((fileID, index) ≠ (fileID', index') →
   message_info ("file:" +:+ fileID) index ≠ message_info ("file:" +:+ fileID') index' ∧
   bytes_of_string fileID ++ put64 index ≠ bytes_of_string fileID' ++ put64 index').
Proof.
  intros laws Hn Hi Hi' He. split; [by eapply aes_open_sealed|]. intros Hne. split; intros Heq; apply Hne.
  - unfold message_info in Heq. apply app_inv_head in Heq.
    apply app_inj_2 in Heq as [Hf%bytes_of_string_inj Hp%put64_inj]; [|done..]. rewrite Hp. f_equal.
    by injection Hf.
  - apply app_inj_2 in Heq as [Hf%bytes_of_string_inj Hp%put64_inj]; [|done..]. by rewrite Hf, Hp.
Qed.
End agreement.

(** ** A concrete session *)

Section demo.
Definition toy_hkdf (secret salt info : list Z) (size : nat) : list Z := resize size 0 (info ++ secret ++ salt).
Definition toy_gcm_Seal (key nonce plain aad : list Z) : list Z := plain ++ replicate 16 0.
Definition toy_gcm_Open (key nonce blob aad : list Z) : option (list Z) :=
  let plain := take (length blob - 16) blob in
  if decide (blob = plain ++ replicate 16 0) then Some plain else None.
Definition toy_public (a : list Z) : list Z := resize 32 0 a.
Definition toy_x25519 (a b : list Z) : list Z := zip_with Z.add (resize 32 1 a) (resize 32 1 b).
Definition toy_Sign (k m : list Z) : list Z := replicate 64 0.

Lemma toy_prims :
  PrimLaws toy_hkdf toy_gcm_Seal toy_gcm_Open (λ a b, toy_x25519 (resize 32 0 a) b) toy_public toy_Sign (λ _ _ _, true) toy_public.
Proof.
  split.
  - intros. apply length_resize.
  - intros. unfold toy_gcm_Open, toy_gcm_Seal. rewrite length_app, length_replicate, Nat.add_sub, take_app_length.
    by rewrite decide_True.
  - intros. unfold toy_gcm_Seal. by rewrite length_app, length_replicate.
  - intros. unfold toy_x25519, toy_public.
    assert (∀ l k : list Z, zip_with Z.add l k = zip_with Z.add k l) as Hc.
    { induction l as [|x l IH]; intros [|y k]; simpl; [done..|]. by rewrite Z.add_comm, IH. }
    by rewrite Hc.
  - intros. apply length_resize.
  - done.
  - intros. apply length_resize.
  - intros. apply length_replicate.
Qed.

#[local] Abbreviation demo_Encrypt := (Encrypt toy_hkdf toy_gcm_Seal).
#[local] Abbreviation demo_Decrypt := (Decrypt toy_hkdf toy_gcm_Open).
#[local] Abbreviation demo_start := (session_start toy_hkdf [1; 2; 3]).
#[local] Abbreviation demo_rstep := (rstep toy_hkdf toy_gcm_Seal toy_gcm_Open (λ _, [7])).

Definition demo_nonce : option (list Z) := Some (replicate 12 5).
Definition demo_text : list Z := bytes_of_string "hello".

(** The initiator seals two messages. *)
Definition demo_first := demo_Encrypt demo_nonce demo_text [] (s_party demo_start true).
Definition demo_second := demo_Encrypt demo_nonce demo_text [] demo_first.1.

Definition message_of (r : result E2EErr Message) : Message :=
  match r with Ok m => m | Err _ => {| m_RatchetStep := 0; m_Number := 0; m_Ciphertext := [] |} end.

Definition demo_session : session :=
  mkSession (upd true demo_second.1 (upd true demo_first.1 (s_party demo_start))) (λ _, 0%nat)
    [(true, message_of demo_second.2, [], demo_text); (true, message_of demo_first.2, [], demo_text)] [].

Lemma demo_session_reachable : rtc demo_rstep demo_start demo_session.
Proof.
  eapply rtc_l; [|apply rtc_once].
  - eapply (rs_encrypt _ _ _ _ true demo_nonce demo_text [] _ demo_first.1 demo_first.2); [by intros b [= <-]|done|apply surjective_pairing].
  - apply (rs_encrypt _ _ _ _ true demo_nonce demo_text [] (mkSession (upd true demo_first.1 (s_party demo_start)) (λ _, 0%nat)
      [(true, message_of demo_first.2, [], demo_text)] []) demo_second.1 demo_second.2); [by intros b [= <-]|done|apply surjective_pairing].
Qed.

(** The second message arrives first. *)
Lemma ratchet_delivers_witness :
  (demo_Decrypt (message_of demo_second.2) [] (s_party demo_session false)).2 = Ok demo_text.
Proof.
  apply (ratchet_delivers toy_hkdf toy_gcm_Seal toy_gcm_Open _ _ _ _ _ [1; 2; 3] (λ _, [7]) demo_session true
    (message_of demo_second.2) [] demo_text (new_receive (root_chain toy_hkdf (root_at toy_hkdf [1; 2; 3] (λ _, [7]) 0) true)) toy_prims).
  - exact demo_session_reachable.
  - left.
  - vm_compute. reflexivity.
  - apply not_elem_of_nil.
  - intros _. split; vm_compute; discriminate.
Defined.

(** The second message was accepted. *)
Definition demo_taken := demo_Decrypt (message_of demo_second.2) [] (s_party demo_session false).
Definition demo_after : session :=
  mkSession (upd false demo_taken.1 (s_party demo_session)) (λ _, 0%nat) (s_sent demo_session) [(false, 0, 1)].

Lemma demo_after_reachable : rtc demo_rstep demo_start demo_after.
Proof.
  eapply rtc_r; [exact demo_session_reachable|].
  apply (rs_deliver _ _ _ _ false (message_of demo_second.2) [] demo_session demo_taken.1 demo_taken.2);
    [done|done|apply surjective_pairing].
Qed.

Lemma ratchet_no_replay_witness :
  NoDup (s_taken demo_after) ∧
  ∃ e, demo_Decrypt (message_of demo_second.2) [] (s_party demo_after false) = (s_party demo_after false, Err e).
Proof.
  destruct (ratchet_no_replay toy_hkdf toy_gcm_Seal toy_gcm_Open [1; 2; 3] (λ _, [7]) demo_after false (message_of demo_second.2) [])
    as [Hn Hr].
  - exact demo_after_reachable.
  - vm_compute. discriminate.
  - vm_compute. reflexivity.
  - split; [exact Hn|]. apply Hr. left.
Defined.

Lemma ratchet_bounded_witness :
  SkippedCount (s_party demo_after false) = 1 ∧ SkippedCount (s_party demo_after false) ≤ MaxSkippedKeys.
Proof.
  split; [vm_compute; reflexivity|].
  apply (ratchet_bounded toy_hkdf toy_gcm_Seal toy_gcm_Open [1; 2; 3] (λ _, [7]) demo_after false demo_after_reachable).
Defined.

Lemma ratchet_authentic_witness :
  ∃ j nonce, m_RatchetStep (message_of demo_second.2) = Z.of_nat j ∧ length nonce = 12%nat ∧
    m_Ciphertext (message_of demo_second.2) = nonce ++
      toy_gcm_Seal (key_at toy_hkdf [1; 2; 3] (λ _, [7]) j true 1) nonce demo_text (messageAAD 0 1 []).
Proof.
  apply (ratchet_authentic toy_hkdf toy_gcm_Seal toy_gcm_Open [1; 2; 3] (λ _, [7]) demo_session false
    (message_of demo_second.2) [] demo_taken.1 demo_text).
  - intros key nonce blob data text. unfold toy_gcm_Open, toy_gcm_Seal. case_decide as Hb; [|done]. by intros [= <-].
  - exact demo_session_reachable.
  - vm_compute. discriminate.
  - vm_compute. reflexivity.
  - vm_compute. reflexivity.
Defined.

Lemma x3dh_agreement_witness :
  let k := replicate 32 3 in
  ∃ secret initial,
    InitiateX3DH toy_hkdf (λ a b, toy_x25519 (resize 32 0 a) b) toy_public (λ _ _ _, true) (Some k) k
      (NewPreKeyBundle toy_Sign toy_public {| kp_Private := k; kp_Public := toy_public k |} k 4
         {| kp_Private := k; kp_Public := toy_public k |} 9 {| kp_Private := k; kp_Public := toy_public k |}) = Ok (secret, initial) ∧
    RespondX3DH toy_hkdf (λ a b, toy_x25519 (resize 32 0 a) b) k k k (toy_public k) initial = Ok secret ∧
    xi_OneTimePreKeyID initial = 9.
Proof.
  pose proof (x3dh_agreement toy_hkdf toy_gcm_Seal toy_gcm_Open (λ a b, toy_x25519 (resize 32 0 a) b) toy_public toy_Sign
    (λ _ _ _, true) toy_public (replicate 32 3) (replicate 32 3) (replicate 32 3) (replicate 32 3) 4 (replicate 32 3) 9
    (replicate 32 3) toy_prims eq_refl eq_refl eq_refl eq_refl (or_intror eq_refl)) as Hx.
  eexists _, _. split; [vm_compute; reflexivity|]. destruct Hx as (Ha & _ & Hc). split; [exact Ha|exact Hc].
Defined.

Lemma chunk_round_trip_witness :
  ∃ blob, EncryptFileChunk toy_hkdf toy_gcm_Seal demo_nonce [1] "f" 3 demo_text = Ok blob ∧
    DecryptFileChunk toy_hkdf toy_gcm_Open [1] "f" 3 blob = Ok demo_text.
Proof.
  eexists. split; [vm_compute; reflexivity|].
  eapply (chunk_round_trip toy_hkdf toy_gcm_Seal toy_gcm_Open _ _ _ _ _ demo_nonce [1] "f" "g" 3 3 demo_text _ toy_prims).
  - by intros b [= <-].
  - done.
  - done.
  - vm_compute. reflexivity.
Defined.
End demo.
